(* ===== verification/_CoqProject ===== *)
-Q . S2P
Prelude.v
Window.v
Keys.v
Packet.v
Path.v
Loss.v
Congestion.v
Mtu.v
Endpoint.v
Drain.v
Timer.v
Send.v
Recv.v
Stream.v
Codec.v
Fields.v
Message.v
Text.v
Screen.v
Modes.v
Rows.v
Pieces.v
ServerMessage.v
Mask.v
Splice.v
Ledger.v
Assembly.v
Converge.v
Cuts.v
Wire.v
Backlog.v
Defer.v
Link.v
Sink.v
Attachment.v
Sync.v
Mailbox.v
Predict.v
Ptyin.v
Outbound.v
Typing.v
Ends.v
Forwarding.v
LocalForward.v
ForwardTable.v
SessionForwards.v
Tunnel.v
Tunnels.v
Limiter.v
Listener.v
Batches.v
Samples.v
