(* ===== verification/Prelude.v ===== *)
(** * Braid: a verification library

    Braid is a remote shell that survives losing its network: a client and a daemon exchange
    frames over an encrypted datagram transport, and TCP connections are forwarded through the
    same transport with a retransmission of their own.  The daemon keeps a terminal's screen and
    sends each client what changed of it.  This library models the crates that make those
    promises, and proves that they keep them.

    ** The program and the files

    The datagram transport is [crates/dgram].  A [Module] per source file, each with its state as
    a record named as in the code and one definition per operation:

    - [Window] ([window.rs]): which packet numbers were already let in.
    - [Keys] ([keys.rs], [aead.rs]): the two key ratchets, rotation and catching up; sealing.
    - [Packet] ([packet.rs]): the header and the acknowledgement body, byte for byte.
    - [Path] ([path.rs]): which addresses are believed, and what may be sent to the others.
    - [Loss] ([loss.rs]): what is in flight, the round-trip estimate, what is given up when.
    - [Congestion] ([congestion.rs]): the window and the pacer.
    - [Mtu] ([mtu.rs]): the search for the widest datagram the path carries.
    - [Endpoint] ([endpoint.rs]): one end of a connection, which owns one of each of the above.
      [send], [close] and [poll_transmit] seal datagrams, [recv] opens them, and every seal books
      the packet with [Loss], [Congestion] and [Path] before it leaves.
    - [Drain] ([server/src/dgram.rs], the loops around [poll_transmit]): an endpoint polled until it
      has nothing to say.

    Forwarded connections are [crates/forward]:

    - [Timer] ([timer.rs]): when the head of a stream is owed again.
    - [Send] ([send.rs], and [SackRuns] of [crates/proto/src/lib.rs]): the half that owes bytes.
    - [Recv] ([recv.rs]): the half that owes a socket.
    - [Stream] ([lib.rs]): the two halves, and two such streams joined by a lossy network.

    What crosses the wire inside a frame is [crates/proto]:

    - [Codec] ([lib.rs]: [Cursor], the [Field] trait): decoders and encoders, and the class
      [Lawful] that says what every field promises its message.
    - [Fields] ([lib.rs]: the [copy_field!] and [ref_field!] blocks): every field but the piece of
      a screen ([Pieces]), each with its [Lawful] instance; version ranges and their negotiation.
    - [Message] ([lib.rs]: [messages!] at [ClientMessage], [seal_frame], [read_frame]): the client's
      messages and the frame around them, proved against the fields' laws alone.
    - [Text], [Screen], [Modes], [Rows] ([screen.rs]): the text of a row and what is blanked of it,
      styled rows and the chunks they are cut into, terminal modes, and their encodings.
    - [Pieces] ([lib.rs]: [encode_screen_parts], [decode_screen_part]): a screen cut into pieces.
    - [ServerMessage] ([lib.rs]: [messages!] at [ServerMessage], [peek_output]).
    - [Wire] ([wire.rs]): the packed payload of a datagram.

    A screen crosses from [crates/server] to [crates/client]:

    - [Mask] ([RowMask] of [crates/vt]): sets of rows.
    - [Ledger] ([server/src/screen.rs]): what a client has confirmed, and what a repaint sends.
    - [Attachment] ([server/src/attachment.rs], and the body of [Actor::repaint]): one client of a
      session: its commands, its numbering of screens, how one is cut and packed.
    - [Backlog], [Defer], [Link] ([backlog.rs], [defer.rs], [link.rs] and [gate.rs]): the output a
      resuming client is given, the sequences a screen cannot carry, and the pacing of a client.
    - [Splice], [Assembly] ([client/src/render.rs]: [splice_into], [Screen::part] and what it
      calls): a client putting the pieces together, whatever order they come in.
    - [Converge], [Cuts], [Sync]: no code of their own.  [Converge] states what a server promises
      of the screens it sent and proves what a client then holds; [Cuts] that what the encoder
      cuts is such a screen; [Sync] runs an attachment, its path and a client together.
    - [Sink] ([server/src/sink.rs]): the queue in front of one client and the thread that writes it.
    - [Samples]: a small session, at which the properties of the screen protocol are evaluated.

    What is typed crosses from [crates/client] to [crates/server]:

    - [Predict] ([client/src/predict.rs]): keystrokes drawn before the session echoes them.
    - [Outbound] ([client/src/journal.rs], [outbound.rs]): numbering, journal, retransmission and
      replay of a client's commands, over links that come and go.
    - [Ptyin] ([server/src/ptyin.rs]): input queued for a shell and the thread that writes it.
    - [Typing] (the arms of [Actor::command], [server/src/actor.rs], that take a numbered command):
      a client, the frames and acknowledgements between, and the session's gate and shell together.

    A forwarded connection has a socket at each end:

    - [Ends]: no code of its own but the loop that offers a stream's segments to a sink.  It states
      what an end of a forwarded connection promises ([SocketEnd], [SocketEndLaws]), and proves what
      two such ends achieve over any network.
    - [Forwarding] ([server/src/forward.rs], and [forward_frame], [forward_connected],
      [forward_read], [forward_eof], [pump_forwards] of [server/src/actor.rs]): the daemon's end of
      one connection, with the thread that dials and reads, the one that writes, the credit between
      and the mailbox.
    - [LocalForward] ([client/src/forward.rs]): the client's end, with its threads.
    - [ForwardTable] ([client/src/forward.rs]: [Table], [Shared], [Forwards], [open], [pump]): all
      the connections of a client, their ids, the ids lately closed and the resets that wait.
    - [SessionForwards] ([server/src/forward.rs]: [Forwards]; [server/src/actor.rs]: [start_forward],
      [forward_frame] and the calls around it, [attach], [drop_attachment], [retire]): the forwards
      of all the clients of a session, and which clients may still be heard from.
    - [Tunnel], [Tunnels]: the two ends joined, and the two tables; no code of their own.

    Around them, in [crates/server]:

    - [Mailbox] ([mailbox.rs]): the events waiting for a session, its senders and its receiver.
    - [Limiter] ([dgram.rs]: [Bucket], [Limiter], [Clock]): what datagrams of strangers may cost,
      and when the transmitting thread must be awake.
    - [Listener] ([dgram.rs]: [Connections], [DatagramListener], [DatagramWriter::seal]): the offers,
      the connections and the partings of a daemon, and the threads that share them.
    - [Batches] ([dgram.rs]: [emit], [write_frames]): what a sink writes, taken apart into frames.

    ** How the code is rendered

    Integers are [Z] inside their width.  The workspace is built with overflow checks on, so a
    plain operator that leaves the width panics: plain operators are exact, and the theorems that
    say no operation panics include the assertions that guard widths; saturating, checked and
    wrapping operators are written out ([sat_add], [checked_sub], [shl64], ...).  [Duration] and
    [Instant] are nanoseconds.  Bytes are [Z], and theorems that need them below 256 say so
    ([is_byte]).  A method that assigns to [self] returns the new record beside its result; an
    error is [Err] of the code's own error type; [None] of an operation that returns an option of
    a state is a panic.  A buffer the caller passes to be filled is a result, and one that is only
    reused is not state.  Loops are structural on the collection they walk, except: the
    congestion-avoidance loop ([avoid_fuel], proved to be enough by [avoidance_terminates]), the
    chunks of a row ([cut_fuel], by [row_chunks_reassemble]), the doubling of an inflate buffer
    ([inflate_fuel], by [pack_unpacks]), the halving of a screen's budget ([pieces_fuel], by
    [packed_screens_fit_the_path]), the reading of a rewritten row ([extent_loop], by
    [extent_loop_enough]) and the polling of a connection ([POLLS], by [polling_dry_ends]).  The
    loop that numbers pending input and the walk over a batch take at least a byte each time, so as
    many turns as there are bytes are enough.  A thread is a state machine whose states are the
    places at which it gives a lock up, and its steps interleave with the operations of others.

    Code outside the repository is a parameter.  The cipher (ChaCha20-Poly1305) and the key
    derivation (BLAKE3) are the class [Crypto]; what is relied on is [CryptoLaws] (opening what was
    sealed with the same key, number and header gives it back, with the sizes the constructions
    document), and a concrete instance shows the laws can hold.  The deflate codec is the class
    [Wire.Deflate] with [Wire.DeflateLaws], and has an instance too.  The width of a character
    ([unicode-width]) is an argument of [Predict].  Entropy for a path challenge is an argument, [None] when the
    system has none.  Where a ring buffer is cut in two is an argument, and theorems hold for every
    cut.

    ** What is shown

    - Replay ([Window]): the bitmap is a set of everything accepted, seen through its last 256
      numbers; nothing is let in twice; acknowledgements name exactly what arrived.
    - Secrecy's bookkeeping ([Keys], [Endpoint]): packet numbers go 0, 1, 2, ... and never repeat
      under any key; a receiver up to four rotations behind always finds the sender's key; frames
      open to what was sealed; a refused datagram changes nothing but keys.
    - Reflection ([Path], [Endpoint]): an unproven address gets at most three times what it sent,
      and is only believed on echoing a token issued for it.
    - Delivery accounting ([Loss], [Endpoint]): the backward walk over the flight agrees with
      reading every packet; no packet is lost from the books; the timers are exact; bytes in
      flight are counted exactly.  None of it depends on when calls are made: the instants may come
      in any order.
    - Polling ([Drain]): an endpoint that is polled until it is silent falls silent, within a bound.
    - Rate ([Congestion]): the window stays in its bounds, a flight lost together costs one
      halving, the pacer is a token bucket, and the instant it names is one it will honour.
    - Width ([Mtu]): the search settles on the widest candidate the path carries, and moves only
      on evidence.
    - Forwarding ([Timer], [Send], [Recv], [Stream]): both ends read what the other wrote, in
      order, whatever the network does, without ever contradicting each other; memory is bounded
      whatever a peer sends; and a closed stream none of whose offers was refused completes as soon
      as packets get through (a refused probe of a closed window may never be made again).

    - Messages ([Codec], [Fields], [Message]): a client message decodes to what was encoded, at
      every version and whatever a later one appended; nothing decodes that the encoder would
      refuse; every message fits the bound a daemon reads by; frames are read back one by one.
      The same of the server's ([ServerMessage]), but that a row of a screen is written without the
      unstyled spaces it ends in; and a packed payload unpacks to itself ([Wire]).
    - Screens ([Screen], [Pieces], [Cuts], [Attachment]): the chunks of a row are the row; the pieces
      of a screen decode, and what a client joins of them is what was sent; cutting for a datagram
      path ends in frames the path carries.
    - Convergence ([Ledger], [Assembly], [Sync]): over a path that loses, reorders and overtakes,
      when the server takes an acknowledgement the client held exactly the rows that screen was
      planned from; and a client that asks for the screen gets it.  Both are of screens that were
      cut exactly, see below.
    - Sessions ([Attachment], [Backlog], [Defer], [Link]): commands are applied once and in order;
      a resuming client is given exactly what it missed; what is kept for it is bounded, however
      output is split into reads; repaints are paced.
    - Queues ([Sink]): the queue and its thread refine a list of entries taken in order; nothing
      accepted is lost; what one client makes the daemon hold is bounded, by the lanes' rooms and
      twice the largest screen.
    - Echo ([Predict]): nothing is drawn before the session is seen to echo; each byte shows once;
      the automaton that matches a restated row finds the longest match.
    - Typing ([Typing], [Outbound], [Ptyin]): whatever the links lose, repeat and reorder, the shell
      is written a front of what was typed, each byte once, and the rest is kept; a reconnect
      catches the shell up.
    - Tunnels ([Ends], [Forwarding], [LocalForward], [Tunnel]): what each socket is written is a
      front of what the other produced, through both ends, their threads and any network, and no
      frame makes an honest end reset; the end a local application is shown is the far one.  Two
      examples show what each end can lose when a connection is retired over its writer.
    - Tables ([ForwardTable], [SessionForwards], [Tunnels]): each connection of a client and each
      forward of a session runs as it would alone, so every connection is such a tunnel; the tables
      keep their bounds and know what they closed last.  What a session says of a forward is of one
      whose id was opened once: an id can come back while the threads of the forward that had it
      still run ([strays]), and an example shows the new one given the socket the old one dialled.
      Another shows the session remember a client it has forgotten.
    - Mailboxes ([Mailbox]): each lane delivers in order, within its bound; no wake-up is lost but
      that of a second producer of bulk events, which an example shows.
    - Strangers and time ([Limiter]): what unknown senders cost in any stretch of time is bounded,
      and the transmitting thread sleeps past no instant it was given, but for the millisecond it
      sleeps at least.
    - Connections ([Listener], [Batches]): under the secret of an offer no packet number is sealed
      twice, whether its connection was attached, refused or put back, and however the threads that
      share it interleave; an attachment is told at most once that it ended; offers expire, and until
      its next pass the transmitting thread sleeps past the end of none it looked at.  What a
      sink writes reaches the connection frame by frame.  An example shows an offer that is put back
      and then not reaped.

    Every state a theorem speaks of is one the operations can reach: an inductive predicate or a
    fold of a step function over any list of events, from the state the constructor makes.

    ** What is assumed

    Of [Sync]: the transport delivers the first piece of a screen at most once (a client that
    receives it twice would scroll a delta twice); the emulator's rows are as wide as its grid and
    it marks the rows it changes; generations are numbered upwards; and a screen counts as sent
    when its cut was exact and no more of it is cut across pieces than a client holds.  Without
    the last, the theorems about acknowledged screens are false: the lossy cut keeps less than the
    frame it is confirmed as, and a client acknowledges a delta whose chunks it had to drop.

    Of [Tunnels]: the client opens each of its ids once, and no socket produces more than the
    [STREAM_LIMIT] of 2^62 bytes.

    Of [Typing]: the session outlives the links and keeps the client's command stream, as
    [Actor::retire] does; fewer than 2^63 commands are numbered.

    ** What is not modelled

    The loops around the modelled parts that accept, dial and poll sockets and start processes
    ([crates/server], [crates/client]), files and logs, the bytes a client paints a screen with, the
    terminal emulation ([crates/vt], a third-party parser, but for its row masks), the simulator and
    the fuzz targets. *)

From Stdlib Require Export ZArith Lia Sorted.
From stdpp Require Export prelude gmap list numbers strings.
#[export] Set Default Goal Selector "!".

Declare Scope braid_scope.
Delimit Scope braid_scope with braid.
Global Open Scope Z_scope.
Global Open Scope braid_scope.

(** ** Machine integers

    Every unsigned Rust integer is a [Z] inside its width. *)

Abbreviation U8_MAX := 255 (only parsing).
Abbreviation U16_MAX := 65535 (only parsing).
Abbreviation U32_MAX := 4294967295 (only parsing).
Abbreviation U64_MAX := 18446744073709551615 (only parsing).
Abbreviation USIZE_MAX := 18446744073709551615 (only parsing).

(** [len l] is [l.len()] as an integer. *)
Notation "'len' l" := (Z.of_nat (length l)) (at level 10, l at level 9, only parsing) : braid_scope.

(** [a.saturating_sub(b)], [a.saturating_add(b)] and [a.saturating_mul(b)] at the width
    whose largest value is [m]. *)
Definition sat_sub (a b : Z) : Z := Z.max 0 (a - b).
Definition sat_add (m a b : Z) : Z := Z.min m (a + b).
Definition sat_mul (m a b : Z) : Z := Z.min m (a * b).

(** [a.checked_sub(b)] and [a.checked_add(b)]. *)
Definition checked_sub (a b : Z) : option Z := if b <=? a then Some (a - b) else None.
Definition checked_add (m a b : Z) : option Z := if a + b <=? m then Some (a + b) else None.

(** [a.abs_diff(b)] and [x.clamp(lo, hi)]. *)
Definition abs_diff (a b : Z) : Z := Z.abs (a - b).
Definition clamp (x lo hi : Z) : Z := Z.max lo (Z.min x hi).

(** [x << n] on a 64-bit word drops what leaves the word. *)
Definition shl64 (x n : Z) : Z := Z.shiftl x n mod 2 ^ 64.

Create HintDb width.
#[export] Hint Unfold sat_sub sat_add sat_mul abs_diff clamp : width.

(** ** Time

    A [Duration] and an [Instant] are nanoseconds: [Duration] keeps whole nanoseconds, and an
    [Instant] is only ever compared, subtracted from another or moved by a [Duration]. *)

Abbreviation Duration := Z (only parsing).
Abbreviation Instant := Z (only parsing).

Definition from_micros (n : Z) : Duration := n * 1000.
Definition from_millis (n : Z) : Duration := n * 1000000.
Definition from_secs (n : Z) : Duration := n * 1000000000.
Definition as_micros (d : Duration) : Z := d / 1000.
Definition as_millis (d : Duration) : Z := d / 1000000.
(** [Duration::MAX], where [saturating_mul] stops. *)
Definition DURATION_MAX : Duration := U64_MAX * 1000000000 + 999999999.
Definition dur_sat_mul (d : Duration) (k : Z) : Duration := Z.min DURATION_MAX (d * k).
(** [now.saturating_duration_since(earlier)]. *)
Definition since (now earlier : Instant) : Duration := Z.max 0 (now - earlier).

#[export] Hint Unfold from_micros from_millis from_secs since dur_sat_mul : width.

(** ** Assignments to fields

    [r <| f := v |>] is [r] after the assignment [r.f = v].  A record says how it is rebuilt
    from its own fields ([Settable]); a setter replaces one of them. *)

Class Settable (R : Type) := rebuild : R → R.
Class Setter {R A : Type} (proj : R → A) := assign : (A → A) → R → R.
Arguments assign {R A} proj {_}.

Ltac solve_setter :=
  lazymatch goal with
  | |- @Setter ?R ?A ?proj =>
      let inst := constr:(_ : Settable R) in
      let built := eval red in inst in
      let parts := (eval pattern proj in built) in
      lazymatch parts with
      | ?k _ =>
          let t := eval cbv beta in (λ (f : A → A) (r : R), k (λ r, f (proj r)) r) in
          exact t
      end
  end.
#[export] Hint Extern 0 (Setter _) => solve_setter : typeclass_instances.

Notation "r <| f := v |>" := (assign f (λ _, v) r)
  (at level 1, left associativity, f at level 0, v at level 200) : braid_scope.

(** ** Results *)

Inductive result (A E : Type) : Type :=
| Ok (a : A)
| Err (e : E).
Arguments Ok {A E} a.
Arguments Err {A E} e.

Definition result_bind {A B E} (r : result A E) (k : A → result B E) : result B E :=
  match r with Ok a => k a | Err e => Err e end.

Notation "'let?' x := r 'in' k" := (result_bind r (λ x, k))
  (at level 10, x pattern, r at level 100, k at level 200) : braid_scope.

(** [o.ok_or(e)]. *)
Definition ok_or {A E} (o : option A) (e : E) : result A E :=
  match o with Some a => Ok a | None => Err e end.

Lemma result_bind_ok {A B E} (r : result A E) (k : A → result B E) b :
  result_bind r k = Ok b ↔ ∃ a, r = Ok a ∧ k a = Ok b.
Proof.
  split; [destruct r as [a|e]; simpl; [by exists a|done] | by intros (a & -> & ?)].
Qed.

(** ** Bytes *)

Definition is_byte (b : Z) : Prop := 0 ≤ b < 256.

(** [v.to_be_bytes()], its low [n] bytes, most significant first. *)
Fixpoint to_be (n : nat) (v : Z) : list Z :=
  match n with
  | O => []
  | S k => to_be k (v / 256) ++ [v mod 256]
  end.

(** [uN::from_be_bytes]. *)
Definition from_be (l : list Z) : Z := foldl (λ acc b, acc * 256 + b) 0 l.

Lemma length_to_be n v : length (to_be n v) = n.
Proof.
  revert v; induction n as [|n IH]; intros v; [done|].
  simpl; rewrite length_app, IH; simpl; lia.
Qed.

Lemma from_be_snoc l b : from_be (l ++ [b]) = from_be l * 256 + b.
Proof. unfold from_be; by rewrite foldl_app. Qed.

Lemma from_to_be n v : 0 ≤ v < 256 ^ Z.of_nat n → from_be (to_be n v) = v.
Proof.
  revert v; induction n as [|n IH]; intros v Hv.
  - rewrite Z.pow_0_r in Hv. unfold from_be; simpl; lia.
  - rewrite Nat2Z.inj_succ, Z.pow_succ_r in Hv by lia.
    simpl; rewrite from_be_snoc, IH; [pose proof (Z.div_mod v 256); lia|].
    split; [apply Z.div_pos; lia | apply Z.div_lt_upper_bound; lia].
Qed.

Lemma to_be_bytes n v : Forall is_byte (to_be n v).
Proof.
  revert v; induction n as [|n IH]; intros v; simpl; [constructor|].
  apply Forall_app; split; [apply IH|]. repeat constructor; unfold is_byte;
    pose proof (Z.mod_pos_bound v 256); lia.
Qed.

Lemma from_be_bound l : Forall is_byte l → 0 ≤ from_be l < 256 ^ Z.of_nat (length l).
Proof.
  induction l as [|b l IH] using rev_ind; intros H; [done|].
  apply Forall_app in H as [Hl Hb]; rewrite Forall_singleton in Hb.
  specialize (IH Hl). unfold is_byte in Hb.
  rewrite from_be_snoc, length_app.
  replace (Z.of_nat (length l + length [b])) with (Z.succ (Z.of_nat (length l))) by (simpl; lia).
  rewrite Z.pow_succ_r by lia. lia.
Qed.

Lemma to_from_be l : Forall is_byte l → to_be (length l) (from_be l) = l.
Proof.
  induction l as [|b l IH] using rev_ind; intros H; [done|].
  apply Forall_app in H as [Hl Hb]; rewrite Forall_singleton in Hb.
  unfold is_byte in Hb.
  rewrite from_be_snoc, length_app, Nat.add_comm; simpl.
  rewrite Z.div_add_l, Z.div_small, Z.add_0_r, IH by (lia || done).
  rewrite Z.add_comm, Z.mod_add, Z.mod_small by lia; done.
Qed.

#[global] Opaque to_be from_be.

(** Testing a word against a shifted one reads that bit. *)
Lemma land_bit x i : 0 ≤ i → negb (Z.land x (Z.shiftl 1 i) =? 0) = Z.testbit x i.
Proof.
  intros Hi. rewrite Z.shiftl_1_l. destruct (Z.testbit x i) eqn:E.
  - apply negb_true_iff, Z.eqb_neq. intros H0.
    assert (Z.testbit (Z.land x (2 ^ i)) i = true) as H1.
    { rewrite Z.land_spec, E, Z.pow2_bits_true by lia. done. }
    by rewrite H0, Z.bits_0 in H1.
  - apply negb_false_iff, Z.eqb_eq, Z.bits_inj'. intros n Hn.
    rewrite Z.land_spec, Z.bits_0. destruct (decide (n = i)) as [->|]; [by rewrite E|].
    rewrite Z.pow2_bits_false by lia. apply andb_false_r.
Qed.

(** ** Automation *)

(** Arithmetic goals after the saturating operations are unfolded. *)
Ltac slia := autounfold with width in *; lia.

(** Arithmetic goals with divisions by constants. *)
Ltac dlia := autounfold with width in *; Z.div_mod_to_equations; lia.

(** Turn boolean comparisons in the context into propositions. *)
Ltac zbool :=
  repeat match goal with
  | H : (_ <? _) = true |- _ => apply Z.ltb_lt in H
  | H : (_ <? _) = false |- _ => apply Z.ltb_ge in H
  | H : (_ <=? _) = true |- _ => apply Z.leb_le in H
  | H : (_ <=? _) = false |- _ => apply Z.leb_gt in H
  | H : (_ =? _) = true |- _ => apply Z.eqb_eq in H
  | H : (_ =? _) = false |- _ => apply Z.eqb_neq in H
  | H : _ && _ = true |- _ => apply andb_prop in H as [? ?]
  | H : _ || _ = false |- _ => apply orb_false_elim in H as [? ?]
  | H : negb _ = true |- _ => apply negb_true_iff in H
  | H : negb _ = false |- _ => apply negb_false_iff in H
  end.

(** Split on the first comparison the goal branches on. *)
Ltac zcase :=
  match goal with
  | |- context [?a <? ?b] => destruct (Z.ltb_spec a b)
  | |- context [?a <=? ?b] => destruct (Z.leb_spec a b)
  | |- context [?a =? ?b] => destruct (Z.eqb_spec a b)
  end.

(** Prove a property of every element of an explicit list. *)
Tactic Notation "forall_list" tactic3(t) :=
  repeat first [apply List.Forall_nil | apply List.Forall_cons; [cbv beta; solve [t]|]].

(** ** Lists *)

(** [VecDeque::partition_point] on a list the predicate partitions: how many leading
    elements satisfy it. *)
Fixpoint partition_point {A} (p : A → bool) (l : list A) : nat :=
  match l with
  | x :: r => if p x then S (partition_point p r) else O
  | [] => O
  end.

Lemma partition_point_le {A} (p : A → bool) l : (partition_point p l ≤ length l)%nat.
Proof. induction l as [|x l IH]; simpl; [lia|]. destruct (p x); simpl; lia. Qed.

Lemma partition_point_take {A} (p : A → bool) l :
  Forall (λ x, p x = true) (take (partition_point p l) l).
Proof. induction l as [|x l IH]; simpl; [constructor|]. destruct (p x) eqn:E; constructor; done. Qed.

(** On a sorted list with a predicate that, once false, stays false, the rest all fail it. *)
Lemma partition_point_drop {A} (R : A → A → Prop) (p : A → bool) l :
  StronglySorted R l → (∀ x y, R x y → p y = true → p x = true) →
  Forall (λ x, p x = false) (drop (partition_point p l) l).
Proof.
  intros Hs Hmono. induction Hs as [|x l Hs IH Hx]; simpl; [constructor|].
  destruct (p x) eqn:E; [done|]. constructor; [done|].
  clear -Hx E Hmono. induction Hx as [|y l Hy _ IH]; constructor; [|done].
  destruct (p y) eqn:Ey; [|done]. by rewrite (Hmono x y) in E.
Qed.

Lemma partition_point_mono {A} (p q : A → bool) l :
  (∀ x, p x = true → q x = true) → (partition_point p l ≤ partition_point q l)%nat.
Proof.
  intros H. induction l as [|x l IH]; simpl; [lia|].
  destruct (p x) eqn:E; [rewrite (H x E); lia|lia].
Qed.

Lemma filter_true {A} (P : A → Prop) `{∀ x, Decision (P x)} l : Forall P l → filter P l = l.
Proof. induction 1; [done|]. rewrite filter_cons_True by done. by f_equal. Qed.

Lemma filter_false {A} (P : A → Prop) `{∀ x, Decision (P x)} l :
  Forall (λ x, ¬ P x) l → filter P l = [].
Proof. induction 1; [done|]. by rewrite filter_cons_False. Qed.

Lemma StronglySorted_filter {A} (R : A → A → Prop) (P : A → Prop) `{∀ x, Decision (P x)} l :
  StronglySorted R l → StronglySorted R (filter P l).
Proof.
  induction 1 as [|x l Hs IH Hx]; [constructor|].
  destruct (decide (P x)); [rewrite filter_cons_True by done|by rewrite filter_cons_False].
  constructor; [done|]. clear -Hx. induction Hx as [|y l Hy _ IH]; [constructor|].
  destruct (decide (P y)); [rewrite filter_cons_True by done; by constructor|by rewrite filter_cons_False].
Qed.

(** [&l[a..b]]. *)
Definition slice {A} (a b : nat) (l : list A) : list A := take (b - a) (drop a l).

(** Bytes, or anything else counted, summed over a list. *)
Definition sum_by {A} (f : A → Z) (l : list A) : Z := foldr (λ x acc, f x + acc) 0 l.

Lemma sum_by_app {A} (f : A → Z) l1 l2 : sum_by f (l1 ++ l2) = sum_by f l1 + sum_by f l2.
Proof. induction l1 as [|x l1 IH]; simpl; [done|]. rewrite IH; lia. Qed.

Lemma sum_by_fmap {A B} (f : B → Z) (g : A → B) l : sum_by f (g <$> l) = sum_by (λ x, f (g x)) l.
Proof. induction l as [|x l IH]; [done|]. rewrite fmap_cons. unfold sum_by in *. simpl. by rewrite IH. Qed.

Lemma sum_by_perm {A} (f : A → Z) l1 l2 : l1 ≡ₚ l2 → sum_by f l1 = sum_by f l2.
Proof. induction 1; simpl in *; lia. Qed.

Lemma sum_by_nonneg {A} (f : A → Z) l : Forall (λ x, 0 ≤ f x) l → 0 ≤ sum_by f l.
Proof. induction 1; simpl; lia. Qed.

(** ** Slices *)

Lemma length_slice {A} a b (l : list A) : length (slice a b l) = ((b - a) `min` (length l - a))%nat.
Proof. unfold slice. rewrite length_take, length_drop. lia. Qed.

Lemma take_slice {A} a b (l : list A) : (a ≤ b)%nat → take b l = take a l ++ slice a b l.
Proof.
  intros Hab. unfold slice. replace b with (a + (b - a))%nat at 1 by lia.
  by rewrite take_take_drop.
Qed.

Lemma slice_app {A} a b c (l : list A) : (a ≤ b ≤ c)%nat → slice a b l ++ slice b c l = slice a c l.
Proof.
  intros H. unfold slice. replace (c - a)%nat with ((b - a) + (c - b))%nat by lia.
  rewrite <- (take_take_drop (drop a l)), drop_drop. do 3 f_equal. lia.
Qed.

Lemma slice_nil {A} a b (l : list A) : (b ≤ a)%nat → slice a b l = [].
Proof. intros H. unfold slice. by replace (b - a)%nat with O by lia. Qed.

Lemma slice_all {A} (l : list A) : slice 0 (length l) l = l.
Proof. unfold slice. by rewrite Nat.sub_0_r, drop_0, firstn_all. Qed.

Lemma slice_to_end {A} a b (l : list A) : (length l ≤ b)%nat → slice a b l = drop a l.
Proof. intros H. unfold slice. apply take_ge. rewrite length_drop. lia. Qed.

Lemma slice_0 {A} b (l : list A) : slice 0 b l = take b l.
Proof. unfold slice. by rewrite Nat.sub_0_r, drop_0. Qed.

Lemma take_of_slice {A} a b k (l : list A) : (k ≤ b - a)%nat → take k (slice a b l) = slice a (a + k) l.
Proof. intros H. unfold slice. rewrite take_take. f_equal. lia. Qed.

Lemma drop_of_slice {A} a b k (l : list A) : drop k (slice a b l) = slice (a + k) b l.
Proof. unfold slice. rewrite skipn_firstn_comm, drop_drop. f_equal. lia. Qed.

Lemma slice_cons {A} a b (l : list A) x : l !! a = Some x → (a < b)%nat → slice a b l = x :: slice (S a) b l.
Proof.
  intros Hx Hab. unfold slice. rewrite (drop_S l x a Hx). replace (b - a)%nat with (S (b - S a)) by lia. done.
Qed.

(** ** Reading a vector at a machine index *)

Lemma Forall_at {A} `{!Inhabited A} (P : A → Prop) (l : list A) i : Forall P l → 0 ≤ i < len l → P (l !!! Z.to_nat i).
Proof.
  intros Hl Hi. destruct (lookup_lt_is_Some_2 l (Z.to_nat i)) as [x Hx]; [lia|]. rewrite (list_lookup_total_correct _ _ _ Hx).
  by eapply Forall_lookup_1 in Hl.
Qed.
