(* ===== verification/Window.v ===== *)
(** * The replay window ([crates/dgram/src/window.rs])

    [ReplayWindow] is the code's sliding bitmap: [top], the highest number accepted, and four
    64-bit words in which bit [i] records [top - i].  [admit_] is the whole of its state change.
    [Spec] is the differential reference the code's own test uses: a set that remembers every
    number accepted.  The theorems show that the bitmap and the set answer alike on every
    sequence of numbers, that no number is let through twice, and that an acknowledgement
    names exactly the accepted numbers up to 64 behind the top. *)

From S2P Require Import Prelude.

Module Window.

Definition WIDTH : Z := 256.
Definition WORDS : nat := 4.

Inductive Admission := Fresh | Replay | TooOld.

#[global] Instance Admission_eq_dec : EqDecision Admission.
Proof. solve_decision. Defined.

Record ReplayWindow := mk { top : Z; seen : list Z }.

Definition new : ReplayWindow := {| top := 0; seen := replicate WORDS 0 |}.

Definition position (behind : Z) : nat * Z :=
  (Z.to_nat (behind / 64), Z.shiftl 1 (behind mod 64)).

Definition get (w : ReplayWindow) (behind : Z) : bool :=
  let '(word, bit) := position behind in
  negb (Z.land (seen w !!! word) bit =? 0).

Definition set (w : ReplayWindow) (behind : Z) : ReplayWindow :=
  let '(word, bit) := position behind in
  {| top := top w; seen := <[word := Z.lor (seen w !!! word) bit]> (seen w) |}.

(** The whole-word half of [slide]: the array is walked downwards in place, so a word is
    read before it is overwritten. *)
Definition slide_words (words : nat) (s : list Z) : list Z :=
  foldl (λ s index,
    <[index := if (words <=? index)%nat then s !!! (index - words)%nat else 0]> s)
    s (reverse (seq 0 WORDS)).

(** The bit half of [slide]: each word takes the carry of the one below it. *)
Fixpoint slide_bits (bits carry : Z) (s : list Z) : list Z :=
  match s with
  | [] => []
  | word :: rest =>
      Z.lor (shl64 word bits) carry :: slide_bits bits (Z.shiftr word (64 - bits)) rest
  end.

Definition slide (w : ReplayWindow) (by_ : Z) : ReplayWindow :=
  if WIDTH <=? by_ then {| top := top w; seen := replicate WORDS 0 |}
  else
    let words := Z.to_nat (by_ / 64) in
    let bits := by_ mod 64 in
    let s := if (0 <? words)%nat then slide_words words (seen w) else seen w in
    let s := if 0 <? bits then slide_bits bits 0 s else s in
    {| top := top w; seen := s |}.

Definition admit_ (w : ReplayWindow) (number : Z) : Admission * ReplayWindow :=
  if top w <? number then
    let w := slide w (number - top w) in
    (Fresh, set {| top := number; seen := seen w |} 0)
  else
    let behind := top w - number in
    if WIDTH <=? behind then (TooOld, w)
    else if get w behind then (Replay, w)
    else (Fresh, set w behind).

Definition acknowledgement (w : ReplayWindow) : option (Z * Z) :=
  if negb (get w 0) then None
  else Some (top w, Z.lor (Z.shiftr (seen w !!! 0%nat) 1) (shl64 (seen w !!! 1%nat) 63)).

(** Feed a sequence of numbers, collecting the answers. *)
Fixpoint admits (w : ReplayWindow) (ns : list Z) : list Admission * ReplayWindow :=
  match ns with
  | [] => ([], w)
  | n :: ns =>
      let '(a, w) := admit_ w n in
      let '(l, w) := admits w ns in (a :: l, w)
  end.

(** ** The set that remembers everything *)

Module Spec.
Record t := mk { stop : Z; sseen : gset Z }.
Definition new : t := {| stop := 0; sseen := ∅ |}.
Definition admit_ (s : t) (n : Z) : Admission * t :=
  if n + WIDTH <=? stop s then (TooOld, s)
  else if decide (n ∈ sseen s) then (Replay, s)
  else (Fresh, {| stop := Z.max (stop s) n; sseen := {[n]} ∪ sseen s |}).
Fixpoint admits (s : t) (ns : list Z) : list Admission * t :=
  match ns with
  | [] => ([], s)
  | n :: ns =>
      let '(a, s) := admit_ s n in
      let '(l, s) := admits s ns in (a :: l, s)
  end.
End Spec.

(** ** Bits of the map *)

(** Bit [i] of the four words read as one 256-bit map. *)
Definition bit (s : list Z) (i : Z) : bool := Z.testbit (s !!! Z.to_nat (i / 64)) (i mod 64).

(** The array is four 64-bit words. *)
Definition wf (s : list Z) : Prop := length s = WORDS ∧ Forall (λ w, 0 ≤ w < 2 ^ 64) s.

Lemma wf_words s : wf s → ∃ a b c d, s = [a; b; c; d] ∧
  0 ≤ a < 2 ^ 64 ∧ 0 ≤ b < 2 ^ 64 ∧ 0 ≤ c < 2 ^ 64 ∧ 0 ≤ d < 2 ^ 64.
Proof.
  intros [Hl Hf]. destruct s as [|a [|b [|c [|d [|]]]]]; try done.
  exists a, b, c, d. rewrite !list.Forall_cons in Hf. tauto.
Qed.

Lemma testbit_high a n : 0 ≤ a < 2 ^ 64 → 64 ≤ n → Z.testbit a n = false.
Proof.
  intros Ha Hn. rewrite <- (Z.mod_small a (2 ^ 64)) by lia.
  by apply Z.mod_pow2_bits_high.
Qed.

Lemma lt_pow64_testbit a :
  0 ≤ a → (∀ n, 64 ≤ n → Z.testbit a n = false) → a < 2 ^ 64.
Proof.
  intros Ha H. destruct (decide (a = 0)) as [->|]; [lia|].
  apply Z.log2_lt_pow2; [lia|].
  destruct (Z.lt_ge_cases (Z.log2 a) 64) as [|Hge]; [done|].
  specialize (H _ Hge). rewrite Z.bit_log2 in H; [done|lia].
Qed.

Lemma shl64_range x n : 0 ≤ shl64 x n < 2 ^ 64.
Proof. apply Z.mod_pos_bound; lia. Qed.

Lemma shl64_testbit x n i :
  0 ≤ n → 0 ≤ i < 64 → Z.testbit (shl64 x n) i = if n <=? i then Z.testbit x (i - n) else false.
Proof.
  intros Hn Hi. unfold shl64. rewrite Z.mod_pow2_bits_low by lia.
  rewrite Z.shiftl_spec by lia. zcase; [done|]. apply Z.testbit_neg_r; lia.
Qed.

Lemma shiftr_range x n : 0 ≤ x < 2 ^ 64 → 0 ≤ n → 0 ≤ Z.shiftr x n < 2 ^ 64.
Proof.
  intros Hx Hn. rewrite Z.shiftr_div_pow2 by lia.
  pose proof (Z.pow_pos_nonneg 2 n). split; [apply Z.div_pos; lia|].
  apply Z.div_lt_upper_bound; nia.
Qed.

Lemma lor_range a b : 0 ≤ a < 2 ^ 64 → 0 ≤ b < 2 ^ 64 → 0 ≤ Z.lor a b < 2 ^ 64.
Proof.
  intros Ha Hb. assert (0 ≤ Z.lor a b) by (apply Z.lor_nonneg; lia). split; [done|].
  apply lt_pow64_testbit; [done|]. intros n Hn.
  by rewrite Z.lor_spec, !testbit_high.
Qed.

(** One word after the bit shift: its own bits moved up, the carry below them. *)
Lemma carry_testbit w c k i :
  0 < k < 64 → 0 ≤ c < 2 ^ 64 → 0 ≤ i < 64 →
  Z.testbit (Z.lor (shl64 w k) (Z.shiftr c (64 - k))) i =
  if k <=? i then Z.testbit w (i - k) else Z.testbit c (i + 64 - k).
Proof.
  intros Hk Hc Hi. rewrite Z.lor_spec, shl64_testbit, Z.shiftr_spec by lia.
  zcase.
  - rewrite (testbit_high c) by lia. by rewrite orb_false_r.
  - simpl; f_equal; lia.
Qed.

Lemma divmod64 i q r : 0 ≤ r < 64 → i = 64 * q + r → i / 64 = q ∧ i mod 64 = r.
Proof. intros. split; [symmetry; eapply Z.div_unique|symmetry; eapply Z.mod_unique]; eauto. Qed.

(** Split an index below 256 into its word and its bit. *)
Lemma index_cases i : 0 ≤ i < 256 → ∃ q r, i = 64 * q + r ∧ 0 ≤ r < 64 ∧ 0 ≤ q < 4.
Proof.
  intros. exists (i / 64), (i mod 64). pose proof (Z.div_mod i 64). pose proof (Z.mod_pos_bound i 64).
  split_and!; lia.
Qed.

Ltac word_cases q := assert (q = 0 ∨ q = 1 ∨ q = 2 ∨ q = 3) as [->|[->|[->| ->]]] by lia.

Lemma bit_at s q r : 0 ≤ r < 64 → bit s (64 * q + r) = Z.testbit (s !!! Z.to_nat q) r.
Proof.
  intros. unfold bit. destruct (divmod64 (64 * q + r) q r) as [-> ->]; [lia|done|done].
Qed.

Lemma slide_bits_wf s k : wf s → 0 < k < 64 → wf (slide_bits k 0 s).
Proof.
  intros Hs Hk. destruct (wf_words _ Hs) as (a & b & c & d & -> & ? & ? & ? & ?).
  split; [done|]. simpl.
  forall_list (apply lor_range; [apply shl64_range|]; (lia || apply shiftr_range; lia)).
Qed.

(** Shifting by less than a word moves every bit up by that much. *)
Lemma slide_bits_bit s k i :
  wf s → 0 < k < 64 → 0 ≤ i < 256 →
  bit (slide_bits k 0 s) i = if k <=? i then bit s (i - k) else false.
Proof.
  intros Hs Hk Hi. destruct (wf_words _ Hs) as (a & b & c & d & -> & Ha & Hb & Hc & Hd).
  destruct (index_cases i Hi) as (q & r & -> & Hr & Hq).
  rewrite bit_at by lia.
  assert (∀ x, Z.testbit (Z.lor (shl64 x k) 0) r = if k <=? r then Z.testbit x (r - k) else false)
    as H0.
  { intros x. rewrite Z.lor_0_r. apply shl64_testbit; lia. }
  word_cases q; simpl; rewrite ?H0, ?carry_testbit by lia;
    destruct (Z.leb_spec k r);
    match goal with |- context [k <=? ?j] => destruct (Z.leb_spec k j); try lia end;
    try done;
    match goal with
    | |- Z.testbit _ (r - k) = bit _ (64 * ?q + r - k) =>
        replace (64 * q + r - k) with (64 * q + (r - k)) by lia
    | |- Z.testbit _ (r + 64 - k) = bit _ (64 * ?q + r - k) =>
        replace (64 * q + r - k) with (64 * (q - 1) + (r + 64 - k)) by lia
    end; by rewrite bit_at by lia.
Qed.

(** Moving whole words up moves every bit up by a multiple of 64. *)
Lemma slide_words_bit s n i :
  wf s → (0 < n < WORDS)%nat → 0 ≤ i < 256 →
  bit (slide_words n s) i = if 64 * Z.of_nat n <=? i then bit s (i - 64 * Z.of_nat n) else false.
Proof.
  intros Hs Hn Hi. destruct (wf_words _ Hs) as (a & b & c & d & -> & _).
  destruct (index_cases i Hi) as (q & r & -> & Hr & Hq). unfold WORDS in Hn.
  rewrite bit_at by lia.
  assert (n = 1 ∨ n = 2 ∨ n = 3)%nat as [->|[->| ->]] by lia; word_cases q; simpl;
    change (Z.of_nat 1) with 1; change (Z.of_nat 2) with 2; change (Z.of_nat 3) with 3;
    match goal with |- context [?x <=? ?j] => destruct (Z.leb_spec x j); try lia end;
    rewrite ?Z.bits_0; try done;
    match goal with |- _ = bit _ (64 * ?q + r - 64 * ?m) =>
      replace (64 * q + r - 64 * m) with (64 * (q - m) + r) by lia end;
    by rewrite bit_at by lia.
Qed.

Lemma slide_words_wf s n : wf s → (0 < n < WORDS)%nat → wf (slide_words n s).
Proof.
  intros Hs Hn. destruct (wf_words _ Hs) as (a & b & c & d & -> & ? & ? & ? & ?).
  unfold WORDS in Hn. assert (n = 1 ∨ n = 2 ∨ n = 3)%nat as [->|[->| ->]] by lia;
    (split; [done|]; unfold slide_words; simpl; forall_list lia).
Qed.

Lemma zeros_wf : wf (replicate WORDS 0).
Proof. split; [done|]. simpl; forall_list lia. Qed.

Lemma zeros_bit i : 0 ≤ i < 256 → bit (replicate WORDS 0) i = false.
Proof.
  intros Hi. destruct (index_cases i Hi) as (q & r & -> & ? & ?). rewrite bit_at by lia.
  word_cases q; apply Z.bits_0.
Qed.

(** [slide] moves every bit up by [by_], and forgets what leaves the window. *)
Lemma slide_bit w by_ i :
  wf (seen w) → 0 < by_ → 0 ≤ i < 256 →
  bit (seen (slide w by_)) i = if by_ <=? i then bit (seen w) (i - by_) else false.
Proof.
  intros Hw Hby Hi. unfold slide, WIDTH. destruct (Z.leb_spec 256 by_); simpl.
  { rewrite zeros_bit by done. zcase; [lia|done]. }
  pose proof (Z.div_mod by_ 64) as Hdm. pose proof (Z.mod_pos_bound by_ 64).
  assert (0 ≤ by_ / 64 < 4) by dlia.
  destruct (Nat.ltb_spec 0 (Z.to_nat (by_ / 64))) as [Hn|Hn];
    destruct (Z.ltb_spec 0 (by_ mod 64)).
  - assert (0 < Z.to_nat (by_ / 64) < WORDS)%nat by (unfold WORDS; lia).
    rewrite slide_bits_bit by (try apply slide_words_wf; (lia || done)).
    destruct (Z.leb_spec (by_ mod 64) i); [|zcase; [lia|done]].
    rewrite slide_words_bit by (done || lia). rewrite Z2Nat.id by lia.
    zcase; zcase; (lia || done || f_equal; lia).
  - assert (0 < Z.to_nat (by_ / 64) < WORDS)%nat by (unfold WORDS; lia).
    rewrite slide_words_bit by (done || lia). rewrite Z2Nat.id by lia.
    by replace (64 * (by_ / 64)) with by_ by lia.
  - rewrite slide_bits_bit by (done || lia). by replace (by_ mod 64) with by_ by lia.
  - lia.
Qed.

Lemma slide_wf w by_ : wf (seen w) → 0 < by_ → wf (seen (slide w by_)).
Proof.
  intros Hw Hby. unfold slide, WIDTH. destruct (Z.leb_spec 256 by_); simpl; [apply zeros_wf|].
  pose proof (Z.mod_pos_bound by_ 64). assert (0 ≤ by_ / 64 < 4) by dlia.
  destruct (Nat.ltb_spec 0 (Z.to_nat (by_ / 64))); destruct (Z.ltb_spec 0 (by_ mod 64));
    repeat first [apply slide_bits_wf | apply slide_words_wf | done | lia];
    unfold WORDS; lia.
Qed.

Lemma get_bit w i : wf (seen w) → 0 ≤ i < 256 → get w i = bit (seen w) i.
Proof.
  intros Hw Hi. unfold get, bit, position. apply land_bit.
  pose proof (Z.mod_pos_bound i 64). lia.
Qed.

Lemma set_bit w i j :
  wf (seen w) → 0 ≤ i < 256 → 0 ≤ j < 256 →
  bit (seen (set w i)) j = (i =? j) || bit (seen w) j.
Proof.
  intros Hw Hi Hj. destruct (wf_words _ Hw) as (a & b & c & d & Hs & _).
  destruct (index_cases i Hi) as (q & r & -> & Hr & Hq).
  destruct (index_cases j Hj) as (q' & r' & -> & Hr' & Hq').
  unfold set, position. destruct (divmod64 (64 * q + r) q r) as [-> ->]; [lia..|].
  simpl. rewrite !bit_at by lia. rewrite Z.shiftl_1_l.
  destruct (decide (q = q')) as [<-|Hne].
  - rewrite list_lookup_total_insert_eq by (rewrite Hs; simpl; lia).
    rewrite Z.lor_spec. destruct (Z.eqb_spec (64 * q + r) (64 * q + r')).
    + assert (r = r') as -> by lia. rewrite Z.pow2_bits_true by lia. by rewrite orb_true_r.
    + rewrite Z.pow2_bits_false by lia. by rewrite orb_false_r.
  - rewrite list_lookup_total_insert_ne by lia. zcase; [lia|done].
Qed.

Lemma set_wf w i : wf (seen w) → 0 ≤ i < 256 → wf (seen (set w i)).
Proof.
  intros [Hl Hf] Hi. unfold set, position; simpl. split; [by rewrite length_insert|].
  pose proof (Z.mod_pos_bound i 64).
  apply Forall_insert; [done|]. apply lor_range.
  - apply (Forall_lookup_total_1 (λ w, 0 ≤ w < 2 ^ 64)); [done|].
    rewrite Hl. unfold WORDS. assert (0 ≤ i / 64 < 4) by dlia. lia.
  - rewrite Z.shiftl_1_l. split; [lia|]. apply Z.pow_lt_mono_r; lia.
Qed.

#[local] Arguments set : simpl never.
#[local] Arguments slide : simpl never.

(** ** Refinement *)

(** The bitmap represents the set: bit [i] says whether [top - i] was accepted. *)
Definition refines (w : ReplayWindow) (s : Spec.t) : Prop :=
  wf (seen w) ∧ top w = Spec.stop s ∧
  (Spec.sseen s = ∅ ∧ top w = 0 ∨ top w ∈ Spec.sseen s) ∧
  (∀ n, n ∈ Spec.sseen s → 0 ≤ n ≤ top w) ∧
  (∀ i, 0 ≤ i < 256 → bit (seen w) i = true ↔ top w - i ∈ Spec.sseen s).

Lemma new_refines : refines new Spec.new.
Proof.
  split_and!; [apply zeros_wf|done|by left|set_solver|].
  intros i Hi; simpl. change (replicate 4 0) with (replicate WORDS 0).
  rewrite zeros_bit by done. set_solver.
Qed.

(** Setting the bit of an accepted number keeps the representation. *)
Lemma set_refines w s n :
  wf (seen w) → 0 ≤ top w - n < 256 → 0 ≤ n → Spec.stop s ≤ top w →
  (∀ m, m ∈ Spec.sseen s → 0 ≤ m ≤ top w) →
  (∀ i, 0 ≤ i < 256 → bit (seen w) i = true ↔ top w - i ∈ Spec.sseen s) →
  top w = Z.max (Spec.stop s) n →
  (Spec.sseen s = ∅ ∧ Spec.stop s = 0 ∨ Spec.stop s ∈ Spec.sseen s) →
  refines (set w (top w - n)) {| Spec.stop := Z.max (Spec.stop s) n; Spec.sseen := {[n]} ∪ Spec.sseen s |}.
Proof.
  intros Hwf Hb Hn Hle Hin Hbit Htop Hmax. unfold refines; cbn [Spec.stop Spec.sseen].
  change (top (set w (top w - n))) with (top w). split_and!.
  - by apply set_wf.
  - done.
  - right. destruct (Z.max_spec (Spec.stop s) n) as [[? Hm]|[? Hm]].
    { rewrite Htop, Hm. by apply elem_of_union_l, elem_of_singleton. }
    destruct Hmax as [[He ?]|Hs]; [|rewrite Htop, Hm; by apply elem_of_union_r].
    apply elem_of_union_l, elem_of_singleton; lia.
  - intros m [->%elem_of_singleton|Hm]%elem_of_union; [lia|auto].
  - intros i Hi. rewrite set_bit, orb_true_iff, Hbit, Z.eqb_eq, elem_of_union, elem_of_singleton
      by done. split; intros [H|H]; [left; lia|by right|left; lia|by right].
Qed.

Lemma admit_refines w s n :
  refines w s → 0 ≤ n →
  (admit_ w n).1 = (Spec.admit_ s n).1 ∧ refines (admit_ w n).2 (Spec.admit_ s n).2.
Proof.
  intros Hr Hn. pose proof Hr as (Hwf & Htop & Hmax & Hin & Hbit).
  unfold admit_, Spec.admit_, WIDTH in *. rewrite <- Htop.
  destruct (Z.ltb_spec (top w) n) as [Hgt|Hle].
  - destruct (Z.leb_spec (n + 256) (top w)); [lia|].
    rewrite decide_False by (intros H'%Hin; lia). simpl. split; [done|].
    pose proof (set_refines {| top := n; seen := seen (slide w (n - top w)) |} s n) as Hs.
    simpl in Hs. replace (n - n) with 0 in Hs by lia.
    rewrite <- Htop in Hs. apply Hs; try lia; [..|done].
    + apply slide_wf; [done|lia].
    + intros m Hm%Hin; lia.
    + intros i Hi. rewrite slide_bit by (done || lia). zcase.
      * rewrite Hbit by lia. by replace (top w - (i - (n - top w))) with (n - i) by lia.
      * split; [done|]. intros H'%Hin; lia.
  - destruct (Z.leb_spec 256 (top w - n)); destruct (Z.leb_spec (n + 256) (top w)); try lia;
      [done|].
    rewrite get_bit by (done || lia).
    assert (bit (seen w) (top w - n) = true ↔ n ∈ Spec.sseen s) as Hiff.
    { rewrite Hbit by lia. by replace (top w - (top w - n)) with n by lia. }
    destruct (bit (seen w) (top w - n)) eqn:E.
    + rewrite decide_True by (by apply Hiff). done.
    + rewrite decide_False by (intros H'; apply Hiff in H'; done).
      simpl. split; [done|]. rewrite Htop at 2. apply set_refines; try done; try lia.
      by rewrite <- Htop.
Qed.

Lemma admit_top w n : 0 ≤ top w → 0 ≤ n → top w ≤ top (admit_ w n).2 ≤ Z.max (top w) n.
Proof.
  intros. unfold admit_, set. destruct (Z.ltb_spec (top w) n); simpl; [lia|].
  repeat case_match; simpl; lia.
Qed.

Lemma admits_refines ns w s :
  refines w s → Forall (λ n, 0 ≤ n) ns →
  (admits w ns).1 = (Spec.admits s ns).1 ∧ refines (admits w ns).2 (Spec.admits s ns).2.
Proof.
  intros Hr Hns; revert w s Hr; induction Hns as [|n ns Hn Hns IH]; intros w s Hr; [done|].
  simpl. destruct (admit_refines w s n Hr Hn) as [Ha Hr'].
  destruct (admit_ w n) as [a w'], (Spec.admit_ s n) as [a' s']; simpl in *.
  destruct (IH w' s' Hr') as [Hl Hr''].
  destruct (admits w' ns) as [l w''], (Spec.admits s' ns) as [l' s'']; simpl in *.
  by subst.
Qed.

(** ** What is let through *)

(** The numbers answered [Fresh], in the order they were offered. *)
Fixpoint accepted (answers : list Admission) (ns : list Z) : list Z :=
  match answers, ns with
  | a :: answers, n :: ns =>
      if decide (a = Fresh) then n :: accepted answers ns else accepted answers ns
  | _, _ => []
  end.

Lemma spec_accepted ns s :
  let '(l, s') := Spec.admits s ns in
  NoDup (accepted l ns) ∧ (∀ n, n ∈ accepted l ns → n ∉ Spec.sseen s) ∧
  (∀ n, n ∈ Spec.sseen s' ↔ n ∈ Spec.sseen s ∨ n ∈ accepted l ns).
Proof.
  revert s; induction ns as [|n ns IH]; intros s; simpl.
  { split_and!; [constructor|set_solver|set_solver]. }
  unfold Spec.admit_. destruct (n + WIDTH <=? Spec.stop s).
  { specialize (IH s). by destruct (Spec.admits s ns) as [l s']. }
  destruct (decide (n ∈ Spec.sseen s)) as [Hin|Hin].
  { specialize (IH s). by destruct (Spec.admits s ns) as [l s']. }
  match goal with |- context [Spec.admits ?s1 ns] =>
    specialize (IH s1); destruct (Spec.admits s1 ns) as [l s'] end.
  simpl in *. destruct IH as (Hnd & Hnew & Hset). split_and!.
  - constructor; [|done]. intros Hn%Hnew; set_solver.
  - intros m [->|Hm]%elem_of_cons; [done|]. apply Hnew in Hm; set_solver.
  - intros m. rewrite Hset, elem_of_cons. set_solver.
Qed.

Lemma reachable_refines ns :
  Forall (λ n, 0 ≤ n ≤ U64_MAX) ns →
  (admits new ns).1 = (Spec.admits Spec.new ns).1 ∧
  refines (admits new ns).2 (Spec.admits Spec.new ns).2.
Proof.
  intros H. apply admits_refines; [apply new_refines|].
  induction H; constructor; [lia|done].
Qed.

Lemma acknowledgement_bits w s :
  refines w s →
  match acknowledgement w with
  | None => Spec.sseen s = ∅
  | Some (t, m) =>
      t ∈ Spec.sseen s ∧ (∀ n, n ∈ Spec.sseen s → n ≤ t) ∧
      ∀ i, 0 ≤ i < 64 → Z.testbit m i = true ↔ t - 1 - i ∈ Spec.sseen s
  end.
Proof.
  intros (Hwf & Htop & Hmax & Hin & Hbit). unfold acknowledgement.
  assert (get w 0 = true ↔ top w ∈ Spec.sseen s) as H0.
  { rewrite get_bit, Hbit by (done || lia). by rewrite Z.sub_0_r. }
  destruct (get w 0) eqn:E; simpl.
  - split_and!; [by apply H0|intros n Hn%Hin; lia|].
    intros i Hi. replace (top w - 1 - i) with (top w - (i + 1)) by lia.
    rewrite <- Hbit by lia. f_equiv. clear -Hwf Hi.
    destruct (wf_words _ Hwf) as (a & b & c & d & -> & ? & ? & _). simpl.
    rewrite Z.lor_spec, Z.shiftr_spec, shl64_testbit by lia.
    destruct (decide (i = 63)) as [->|].
    + rewrite testbit_high by lia. done.
    + replace (i + 1) with (64 * 0 + (i + 1)) at 2 by lia. rewrite bit_at by lia.
      zcase; [lia|]. by rewrite orb_false_r.
  - destruct Hmax as [[? _]|Ht]; [done|]. apply H0 in Ht; done.
Qed.

(** ** Properties *)

(** C8: on every sequence of packet numbers the bitmap answers exactly what a set that
    remembers every accepted number answers: [TooOld] when the number is 256 or more behind
    the highest accepted, [Replay] when it was accepted before, [Fresh] otherwise. *)
Theorem bitmap_agrees_with_set (ns : list Z) (H : Forall (λ n, 0 ≤ n ≤ U64_MAX) ns) :
  (admits new ns).1 = (Spec.admits Spec.new ns).1.
Proof. by apply reachable_refines. Qed.

Lemma bitmap_agrees_with_set_witness :
  (admits new [0; 0; 5000; 4999; 4999; 4743]).1 = [Fresh; Replay; Fresh; Fresh; Replay; TooOld].
Proof.
  rewrite (bitmap_agrees_with_set [0; 0; 5000; 4999; 4999; 4743]).
  - vm_compute. reflexivity.
  - forall_list lia.
Defined.

(** No packet number is ever let through twice, whatever the order numbers arrive in. *)
Theorem never_admitted_twice (ns : list Z) (H : Forall (λ n, 0 ≤ n ≤ U64_MAX) ns) :
  NoDup (accepted (admits new ns).1 ns).
Proof.
  rewrite (proj1 (reachable_refines ns H)).
  pose proof (spec_accepted ns Spec.new). destruct (Spec.admits Spec.new ns). tauto.
Qed.

Lemma never_admitted_twice_witness :
  accepted (admits new [7; 3; 7; 300; 3; 44; 45]).1 [7; 3; 7; 300; 3; 44; 45] = [7; 3; 300; 45] ∧
  NoDup (accepted (admits new [7; 3; 7; 300; 3; 44; 45]).1 [7; 3; 7; 300; 3; 44; 45]).
Proof.
  split; [vm_compute; reflexivity|]. apply (never_admitted_twice [7; 3; 7; 300; 3; 44; 45]).
  forall_list lia.
Defined.

(** An acknowledgement is built exactly when something was accepted; it names the highest
    number accepted, and bit [i] of its map is set exactly when the number [i + 1] behind it
    was accepted. *)
Theorem acknowledgement_is_exact (ns : list Z) (H : Forall (λ n, 0 ≤ n ≤ U64_MAX) ns) :
  let got := accepted (admits new ns).1 ns in
  match acknowledgement (admits new ns).2 with
  | None => got = []
  | Some (largest, map) =>
      largest ∈ got ∧ (∀ n, n ∈ got → n ≤ largest) ∧
      ∀ i, 0 ≤ i < 64 → Z.testbit map i = true ↔ largest - 1 - i ∈ got
  end.
Proof.
  destruct (reachable_refines ns H) as [-> Hr].
  pose proof (acknowledgement_bits _ _ Hr) as Hack. pose proof (spec_accepted ns Spec.new) as Hs.
  destruct (Spec.admits Spec.new ns) as [l s]; simpl in *. destruct Hs as (_ & _ & Hs).
  assert (∀ n, n ∈ Spec.sseen s ↔ n ∈ accepted l ns) as Heq by set_solver.
  destruct (acknowledgement _) as [[t m]|].
  - setoid_rewrite <- Heq. done.
  - destruct (accepted l ns) as [|n r]; [done|]. exfalso.
    assert (n ∈ Spec.sseen s) by (apply Heq; left). set_solver.
Qed.

Lemma acknowledgement_is_exact_witness :
  acknowledgement (admits new [0; 64]).2 = Some (64, 2 ^ 63) ∧
  ∃ n, n ∈ accepted (admits new [0; 64]).1 [0; 64].
Proof.
  split; [vm_compute; reflexivity|].
  pose proof (acknowledgement_is_exact [0; 64] ltac:(forall_list lia)) as H.
  exists 64. apply H.
Defined.

End Window.
