(* ===== verification/Keys.v ===== *)
(** * Keys and sealing ([crates/dgram/src/keys.rs], [crates/dgram/src/aead.rs])

    BLAKE3's [derive_key] and the ChaCha20-Poly1305 cipher are other people's code: they are
    the operations of the class [Crypto], and what the crate relies on from them is the class
    [CryptoLaws].  Everything else, the epochs, the one-way ratchet, the two directions'
    schedules and the cache of keys ahead, is translated here.

    The theorems show that every key a schedule holds is the key of the epoch it is filed
    under, and that a receiver up to four rotations behind its peer reads the peer's datagrams
    with the peer's own key and can follow it. *)

From S2P Require Import Prelude.

(** What the crate calls in [blake3] and [chacha20poly1305]. *)
Class Crypto := {
  Cipher : Type;
  derive_key : string → list Z → list Z;
  cipher_new : list Z → Cipher;
  encrypt : Cipher → list Z → list Z → list Z → list Z * list Z;
  decrypt : Cipher → list Z → list Z → list Z → list Z → option (list Z)
}.

(** RFC 8439: opening what was sealed under the same key, nonce and associated data gives the
    plaintext back; the body keeps its length, the tag is sixteen bytes, and what opens is bytes
    again. *)
Class CryptoLaws (C : Crypto) : Prop := {
  decrypt_encrypt c n a p :
    decrypt c n a (encrypt c n a p).1 (encrypt c n a p).2 = Some p;
  length_encrypt c n a p : length (encrypt c n a p).1 = length p;
  length_tag c n a p : length (encrypt c n a p).2 = 16%nat;
  decrypt_bytes c n a p t b : Forall is_byte p → decrypt c n a p t = Some b → Forall is_byte b
}.

Module Keys.
Section Keys.
Context `{C : Crypto}.

Inductive Direction := ClientToServer | ServerToClient.

#[global] Instance Direction_eq_dec : EqDecision Direction.
Proof. solve_decision. Defined.

Definition context (d : Direction) : string :=
  match d with
  | ClientToServer => "braid dgram v2 client-to-server"
  | ServerToClient => "braid dgram v2 server-to-client"
  end.

Definition opposite (d : Direction) : Direction :=
  match d with
  | ClientToServer => ServerToClient
  | ServerToClient => ClientToServer
  end.

(** [Epoch(u8)]. *)
Abbreviation Epoch := Z (only parsing).
Definition epoch_first : Epoch := 0.
Definition epoch_next (e : Epoch) : option Epoch := checked_add U8_MAX e 1.

Definition REKEY_AFTER : Z := 2 ^ 40.

(** [DirectionKey::derive]. *)
Definition derive (secret : list Z) (direction : Direction) : Cipher :=
  cipher_new (derive_key (context direction) secret).

Record Ratchet := mkRatchet { epoch : Epoch; secret : list Z }.

Definition RATCHET_CONTEXT : string := "braid dgram v2 epoch ratchet".

Definition ratchet_new (root : list Z) : Ratchet := {| epoch := epoch_first; secret := root |}.

Definition advance (r : Ratchet) : option Epoch * Ratchet :=
  match epoch_next (epoch r) with
  | None => (None, r)
  | Some next =>
      (Some next, {| epoch := next; secret := derive_key RATCHET_CONTEXT (secret r) |})
  end.

Definition MAX_EPOCH_CATCHUP : Z := 4.

Inductive Reach := Current | Previous | Ahead (n : Z) | Unreachable.

Record KeySchedule := mkSchedule {
  send : Ratchet;
  send_key : Cipher;
  sending_dir : Direction;
  recv : Ratchet;
  recv_key : Cipher;
  recv_previous : option (Epoch * Cipher);
  ahead : list (option Cipher)
}.

Definition no_ahead : list (option Cipher) := replicate (Z.to_nat MAX_EPOCH_CATCHUP) None.

Definition new (root : list Z) (sending : Direction) : KeySchedule :=
  let s := ratchet_new root in
  let r := ratchet_new root in
  {| send_key := derive (secret s) sending;
     recv_key := derive (secret r) (opposite sending);
     sending_dir := sending;
     send := s;
     recv := r;
     recv_previous := None;
     ahead := no_ahead |}.

Definition send_epoch (k : KeySchedule) : Epoch := epoch (send k).
Definition recv_epoch (k : KeySchedule) : Epoch := epoch (recv k).
Definition sending (k : KeySchedule) : Cipher := send_key k.

Definition rotate (k : KeySchedule) : option Epoch * KeySchedule :=
  match advance (send k) with
  | (None, _) => (None, k)
  | (Some e, s) =>
      (Some e,
       {| send := s; send_key := derive (secret s) (sending_dir k);
          sending_dir := sending_dir k; recv := recv k; recv_key := recv_key k;
          recv_previous := recv_previous k; ahead := ahead k |})
  end.

Definition reach (k : KeySchedule) (e : Epoch) : Reach :=
  if e =? recv_epoch k then Current
  else
    let previous := match recv_previous k with
                    | Some (retired, _) => retired =? e
                    | None => false
                    end in
    if previous then Previous
    else match checked_sub e (recv_epoch k) with
         | Some n => if n <=? MAX_EPOCH_CATCHUP then Ahead n else Unreachable
         | None => Unreachable
         end.

Definition reading (k : KeySchedule) (r : Reach) : option Cipher :=
  match r with
  | Current => Some (recv_key k)
  | Previous => snd <$> recv_previous k
  | Ahead _ | Unreachable => None
  end.

(** The loop of [derive_ahead] over the slots: it returns at the last epoch, leaving the
    slots it has not reached as they were. *)
Fixpoint derive_slots (direction : Direction) (e : Epoch) (s : list Z)
    (slots : list (option Cipher)) : list (option Cipher) :=
  match slots with
  | [] => []
  | slot :: rest =>
      match epoch_next e with
      | None => slot :: rest
      | Some next =>
          let s := derive_key RATCHET_CONTEXT s in
          Some (derive s direction) :: derive_slots direction next s rest
      end
  end.

Definition with_ahead (k : KeySchedule) (a : list (option Cipher)) : KeySchedule :=
  {| send := send k; send_key := send_key k; sending_dir := sending_dir k; recv := recv k;
     recv_key := recv_key k; recv_previous := recv_previous k; ahead := a |}.

Definition derive_ahead (k : KeySchedule) : KeySchedule :=
  with_ahead k (derive_slots (opposite (sending_dir k)) (epoch (recv k)) (secret (recv k)) (ahead k)).

Definition peek_ahead (k : KeySchedule) (n : Z) : option Cipher * KeySchedule :=
  if (n =? 0) || (MAX_EPOCH_CATCHUP <? n) then (None, k)
  else
    let slot := (Z.to_nat n - 1)%nat in
    let k := match ahead k !! slot with
             | Some (Some _) => k
             | _ => derive_ahead k
             end in
    (mjoin (ahead k !! slot), k).

(** The loop of [follow]: it stops at the first ratchet step that fails. *)
Fixpoint advance_n (n : nat) (last : option Epoch) (r : Ratchet) : bool * option Epoch * Ratchet :=
  match n with
  | O => (true, last, r)
  | S n =>
      match advance r with
      | (None, r) => (false, last, r)
      | (Some e, r) => advance_n n (Some e) r
      end
  end.

Definition follow (k : KeySchedule) (n : Z) : option Epoch * KeySchedule :=
  if (n =? 0) || (MAX_EPOCH_CATCHUP <? n) then (None, k)
  else
    let retired := epoch (recv k) in
    match advance_n (Z.to_nat n) None (recv k) with
    | (false, _, r) =>
        (None, {| send := send k; send_key := send_key k; sending_dir := sending_dir k; recv := r;
                  recv_key := recv_key k; recv_previous := recv_previous k; ahead := ahead k |})
    | (true, e, r) =>
        (e, {| send := send k; send_key := send_key k; sending_dir := sending_dir k; recv := r;
               recv_key := derive (secret r) (opposite (sending_dir k));
               recv_previous := Some (retired, recv_key k);
               ahead := no_ahead |})
    end.

(** ** Sealing one datagram *)

(** [aead::nonce]: four zero bytes, then the packet number. *)
Definition nonce (number : Z) : list Z := replicate 4 0 ++ to_be 8 number.

Definition seal (key : Cipher) (header : list Z) (number : Z) (body : list Z)
    : list Z * list Z := encrypt key (nonce number) header body.

(** [None] is [AuthFailed]. *)
Definition open (key : Cipher) (header : list Z) (number : Z) (body tag : list Z)
    : option (list Z) := decrypt key (nonce number) header body tag.

(** ** Coherence *)

(** The secret a ratchet over [root] holds at epoch [e], and the key a direction uses there. *)
Definition chain (root : list Z) (e : Epoch) : list Z :=
  Nat.iter (Z.to_nat e) (derive_key RATCHET_CONTEXT) root.
Definition key_at (root : list Z) (d : Direction) (e : Epoch) : Cipher := derive (chain root e) d.

Lemma chain_succ root e : 0 ≤ e → chain root (e + 1) = derive_key RATCHET_CONTEXT (chain root e).
Proof. intros. unfold chain. by replace (Z.to_nat (e + 1)) with (S (Z.to_nat e)) by lia. Qed.

Definition ratchet_ok (root : list Z) (r : Ratchet) : Prop :=
  0 ≤ epoch r ≤ U8_MAX ∧ secret r = chain root (epoch r).

(** Every key the schedule holds is the key of the epoch it is filed under. *)
Definition coherent (root : list Z) (k : KeySchedule) : Prop :=
  let reads := opposite (sending_dir k) in
  ratchet_ok root (send k) ∧ send_key k = key_at root (sending_dir k) (epoch (send k)) ∧
  ratchet_ok root (recv k) ∧ recv_key k = key_at root reads (epoch (recv k)) ∧
  (∀ e c, recv_previous k = Some (e, c) → 0 ≤ e < epoch (recv k) ∧ c = key_at root reads e) ∧
  length (ahead k) = Z.to_nat MAX_EPOCH_CATCHUP ∧
  (∀ i c, ahead k !! i = Some (Some c) → c = key_at root reads (epoch (recv k) + 1 + Z.of_nat i)).

Lemma epoch_next_spec e :
  epoch_next e = if e + 1 <=? U8_MAX then Some (e + 1) else None.
Proof. done. Qed.

Lemma ratchet_new_ok root : ratchet_ok root (ratchet_new root).
Proof. split; [simpl; unfold epoch_first; lia|done]. Qed.

Lemma advance_ok root r e r' :
  ratchet_ok root r → advance r = (Some e, r') →
  ratchet_ok root r' ∧ epoch r' = epoch r + 1 ∧ e = epoch r + 1.
Proof.
  intros [Hb Hs] H. unfold advance in H. rewrite epoch_next_spec in H.
  destruct (Z.leb_spec (epoch r + 1) U8_MAX); simplify_eq. split_and!; try done.
  split; simpl; [lia|]. by rewrite chain_succ, Hs by lia.
Qed.

Lemma advance_n_ok root n last r :
  ratchet_ok root r → epoch r + Z.of_nat n ≤ U8_MAX →
  ∃ r', advance_n n last r =
    (true, if decide (n = O) then last else Some (epoch r + Z.of_nat n), r') ∧
    ratchet_ok root r' ∧ epoch r' = epoch r + Z.of_nat n.
Proof.
  revert last r; induction n as [|n IH]; intros last r Hr Hn.
  { exists r. simpl. split_and!; [done|done|lia]. }
  simpl. destruct (advance r) as [[e|] r1] eqn:E.
  - destruct (advance_ok root _ _ _ Hr E) as (Hr1 & He1 & ->).
    destruct (IH (Some (epoch r + 1)) r1) as (r' & -> & Hr' & He'); [done|lia|].
    exists r'. split_and!; [|done|lia].
    destruct (decide (n = O)) as [->|]; do 3 f_equal; lia.
  - unfold advance in E. rewrite epoch_next_spec in E.
    destruct (Z.leb_spec (epoch r + 1) U8_MAX); simplify_eq; lia.
Qed.

Lemma new_coherent root d : coherent root (new root d).
Proof.
  split_and!; try done; try apply ratchet_new_ok.
  intros i c; simpl. do 4 (destruct i as [|i]; [done|]). done.
Qed.

Lemma rotate_coherent root k : coherent root k → coherent root (rotate k).2.
Proof.
  intros Hk. pose proof Hk as (Hs & Hsk & Hrest). unfold rotate.
  destruct (advance (send k)) as [[e|] r] eqn:E; [|done].
  destruct (advance_ok root _ _ _ Hs E) as (Hr & He & ->).
  split; [done|]. split; [|done]. simpl. unfold key_at. by rewrite (proj2 Hr).
Qed.

Lemma derive_slots_spec root d e s slots i :
  0 ≤ e ≤ U8_MAX → s = chain root e →
  derive_slots d e s slots !! i =
  if e + 1 + Z.of_nat i <=? U8_MAX
  then (λ _, Some (key_at root d (e + 1 + Z.of_nat i))) <$> slots !! i
  else slots !! i.
Proof.
  revert e s i; induction slots as [|slot slots IH]; intros e s i He ->.
  { simpl. destruct (_ <=? _); done. }
  simpl. rewrite epoch_next_spec. destruct (Z.leb_spec (e + 1) U8_MAX) as [Hle|Hgt].
  - destruct i as [|i]; simpl.
    + rewrite Z.add_0_r. destruct (Z.leb_spec (e + 1) U8_MAX); [|lia].
      unfold key_at. by rewrite chain_succ by lia.
    + rewrite IH by (lia || by rewrite chain_succ by lia).
      by replace (e + 1 + 1 + Z.of_nat i) with (e + 1 + Z.of_nat (S i)) by lia.
  - destruct (Z.leb_spec (e + 1 + Z.of_nat i) U8_MAX); [lia|done].
Qed.

Lemma length_derive_slots d e s slots : length (derive_slots d e s slots) = length slots.
Proof.
  revert e s; induction slots as [|slot slots IH]; intros e s; [done|]. simpl.
  destruct (epoch_next e); simpl; [by rewrite IH|done].
Qed.

Lemma derive_ahead_coherent root k : coherent root k → coherent root (derive_ahead k).
Proof.
  intros (Hs & Hsk & Hr & Hrk & Hp & Hl & Ha). split_and!; simpl; try done.
  - by rewrite length_derive_slots.
  - intros i c. rewrite (derive_slots_spec root) by (try apply Hr; lia).
    zcase; [|apply Ha]. destruct (ahead k !! i); simpl; naive_solver.
Qed.

Lemma peek_coherent root k n : coherent root k → coherent root (peek_ahead k n).2.
Proof.
  intros Hk. unfold peek_ahead. destruct (_ || _); [done|]. simpl.
  destruct (ahead k !! _) as [[?|]|]; [done|by apply derive_ahead_coherent..].
Qed.

Lemma reach_ahead root k e n :
  coherent root k → reach k e = Ahead n → n = e - recv_epoch k ∧ 1 ≤ n ≤ MAX_EPOCH_CATCHUP.
Proof.
  intros Hk. unfold reach. destruct (Z.eqb_spec e (recv_epoch k)); [done|].
  destruct (match recv_previous k with Some (r, _) => r =? e | None => false end); [done|].
  unfold checked_sub. destruct (Z.leb_spec (recv_epoch k) e); [|done].
  destruct (Z.leb_spec (e - recv_epoch k) MAX_EPOCH_CATCHUP); [|done].
  intros [= <-]. lia.
Qed.

(** Following a rotation the ratchet can reach adopts exactly that epoch's key. *)
Lemma follow_spec root k n :
  coherent root k → 1 ≤ n ≤ MAX_EPOCH_CATCHUP → recv_epoch k + n ≤ U8_MAX →
  ∃ k', follow k n = (Some (recv_epoch k + n), k') ∧ coherent root k' ∧
    recv_epoch k' = recv_epoch k + n ∧ sending_dir k' = sending_dir k ∧
    recv_key k' = key_at root (opposite (sending_dir k)) (recv_epoch k + n) ∧
    recv_previous k' = Some (recv_epoch k, recv_key k) ∧ send k' = send k ∧ send_key k' = send_key k.
Proof.
  intros (Hs & Hsk & Hr & Hrk & Hp & Hl & Ha) Hn Hmax. unfold follow.
  destruct (Z.eqb_spec n 0); [lia|]. destruct (Z.ltb_spec MAX_EPOCH_CATCHUP n); [lia|]. simpl.
  destruct (advance_n_ok root (Z.to_nat n) None (recv k)) as (r' & -> & Hr' & He'); [done|..].
  { unfold recv_epoch in *. lia. }
  rewrite decide_False by lia. rewrite Z2Nat.id in * by lia. eexists; split; [done|].
  assert (derive (secret r') (opposite (sending_dir k)) =
    key_at root (opposite (sending_dir k)) (recv_epoch k + n)) as Hkey.
  { unfold key_at, recv_epoch. by rewrite (proj2 Hr'), He'. }
  split_and!; try done. split_and!; simpl; try done.
  - by rewrite Hkey, He'.
  - intros e c [= <- <-]. split; [destruct Hr; lia|done].
  - intros i c. unfold no_ahead, MAX_EPOCH_CATCHUP. simpl. do 4 (destruct i as [|i]; [done|]). done.
Qed.

(** The schedules a connection's end passes through.  [follow] is only ever called with what
    [reach] answered for the epoch byte of a datagram that opened. *)
Inductive reachable (root : list Z) (d : Direction) : KeySchedule → Prop :=
| reachable_new : reachable root d (new root d)
| reachable_rotate k : reachable root d k → reachable root d (rotate k).2
| reachable_peek k n : reachable root d k → reachable root d (peek_ahead k n).2
| reachable_follow k e n :
    reachable root d k → 0 ≤ e ≤ U8_MAX → reach k e = Ahead n → reachable root d (follow k n).2.

Lemma reachable_coherent root d k : reachable root d k → coherent root k ∧ sending_dir k = d.
Proof.
  induction 1 as [|k _ [Hk Hd]|k n _ [Hk Hd]|k e n _ [Hk Hd] He Hn].
  - split; [apply new_coherent|done].
  - split; [by apply rotate_coherent|]. unfold rotate. by destruct (advance (send k)) as [[?|] ?].
  - split; [by apply peek_coherent|]. unfold peek_ahead. destruct (_ || _); [done|]. simpl.
    by destruct (ahead k !! _) as [[?|]|].
  - destruct (reach_ahead root _ _ _ Hk Hn) as [-> Hb].
    destruct (follow_spec root k (e - recv_epoch k)) as (k' & -> & ? & _ & ? & _); [done|lia|lia|].
    simpl. split; [done|congruence].
Qed.

Lemma peek_spec root k n :
  coherent root k → 1 ≤ n ≤ MAX_EPOCH_CATCHUP → recv_epoch k + n ≤ U8_MAX →
  (peek_ahead k n).1 = Some (key_at root (opposite (sending_dir k)) (recv_epoch k + n)).
Proof.
  intros Hk Hn Hmax. pose proof Hk as (_ & _ & Hr & _ & _ & Hl & Ha). unfold peek_ahead.
  destruct (Z.eqb_spec n 0); [lia|]. destruct (Z.ltb_spec MAX_EPOCH_CATCHUP n); [lia|]. simpl.
  assert (recv_epoch k + n = epoch (recv k) + 1 + Z.of_nat (Z.to_nat n - 1)) as -> by (unfold recv_epoch; lia).
  destruct (ahead k !! (Z.to_nat n - 1)%nat) as [[c|]|] eqn:E; simpl.
  - rewrite E. simpl. f_equal. by apply Ha.
  - rewrite (derive_slots_spec root) by (try apply Hr; lia). rewrite E. unfold recv_epoch in *.
    zcase; [done|lia].
  - apply lookup_ge_None in E. unfold MAX_EPOCH_CATCHUP in *. lia.
Qed.

(** C22: a receiver at most four rotations behind its peer always finds the peer's own key:
    at the same epoch it is the key in use; ahead of it, [peek_ahead] derives that key without
    committing, and [follow] then adopts it, keeping the retired key for stragglers. *)
Theorem rotation_is_always_followed root d (a b : KeySchedule)
    (Ha : reachable root d a) (Hb : reachable root (opposite d) b)
    (Hbehind : recv_epoch b ≤ send_epoch a ≤ recv_epoch b + MAX_EPOCH_CATCHUP) :
  match reach b (send_epoch a) with
  | Current => reading b Current = Some (sending a)
  | Ahead n =>
      (peek_ahead b n).1 = Some (sending a) ∧
      ∃ b', follow b n = (Some (send_epoch a), b') ∧ recv_epoch b' = send_epoch a ∧
        reading b' Current = Some (sending a) ∧ reading b' Previous = Some (recv_key b)
  | Previous | Unreachable => False
  end.
Proof.
  destruct (reachable_coherent _ _ _ Ha) as [Hca Hda], (reachable_coherent _ _ _ Hb) as [Hcb Hdb].
  pose proof Hca as ([Hse _] & Hsk & _). pose proof Hcb as (_ & _ & _ & Hrk & Hp & _).
  assert (opposite (sending_dir b) = sending_dir a) as Hdir by (rewrite Hdb, Hda; by destruct d).
  rewrite Hdir in *. fold (send_epoch a) in *. fold (recv_epoch b) in *. fold (sending a) in *.
  destruct (reach b (send_epoch a)) as [| |n|] eqn:E.
  - unfold reach in E. destruct (Z.eqb_spec (send_epoch a) (recv_epoch b)) as [He|].
    + simpl. by rewrite Hrk, Hsk, He.
    + repeat case_match; done.
  - unfold reach in E. destruct (Z.eqb_spec (send_epoch a) (recv_epoch b)); [done|].
    destruct (recv_previous b) as [[e c]|] eqn:Ep; [|repeat case_match; done].
    destruct (Hp e c eq_refl) as [? _]. destruct (Z.eqb_spec e (send_epoch a)); [lia|].
    repeat case_match; done.
  - destruct (reach_ahead root _ _ _ Hcb E) as [-> Hn].
    assert (recv_epoch b + (send_epoch a - recv_epoch b) = send_epoch a) as Heq by lia.
    split; [by rewrite (peek_spec root), Hdir, Heq, Hsk by (done || lia)|].
    destruct (follow_spec root b (send_epoch a - recv_epoch b)) as (b' & Hf & _ & He & _ & Hk & Hpr & _);
      [done|lia|lia|].
    rewrite Heq in *. exists b'. split_and!; [done|done| |].
    + simpl. by rewrite Hk, Hdir, Hsk.
    + simpl. by rewrite Hpr.
  - unfold reach in E. destruct (Z.eqb_spec (send_epoch a) (recv_epoch b)); [done|].
    destruct (match recv_previous b with Some (r, _) => r =? _ | None => false end); [done|].
    unfold checked_sub in E. destruct (Z.leb_spec (recv_epoch b) (send_epoch a)); [|lia].
    destruct (Z.leb_spec (send_epoch a - recv_epoch b) MAX_EPOCH_CATCHUP); [done|lia].
Qed.

(** What a datagram that did not open may have done to the schedule: filled the cache. *)
Definition same_but_cache (k k' : KeySchedule) : Prop :=
  send k' = send k ∧ send_key k' = send_key k ∧ sending_dir k' = sending_dir k ∧
  recv k' = recv k ∧ recv_key k' = recv_key k ∧ recv_previous k' = recv_previous k.

Lemma peek_same_but_cache k n : same_but_cache k (peek_ahead k n).2.
Proof.
  unfold peek_ahead. destruct (_ || _); [done|]. simpl.
  by destruct (ahead k !! _) as [[?|]|].
Qed.

Lemma rotate_epoch k :
  (rotate k).1 = epoch_next (send_epoch k) ∧
  send_epoch (rotate k).2 = match epoch_next (send_epoch k) with Some e => e | None => send_epoch k end.
Proof.
  unfold rotate, advance, send_epoch. by destruct (epoch_next (epoch (send k))).
Qed.

Lemma seal_open `{!CryptoLaws C} key header number body :
  open key header number (seal key header number body).1 (seal key header number body).2 = Some body.
Proof. apply decrypt_encrypt. Qed.

End Keys.

(** A cipher to compute with: the key is kept beside the plaintext's checksum in the tag.  It
    satisfies the laws, so what is proved from them is not vacuous. *)
Module Toy.
Definition checksum (l : list Z) : Z := foldl (λ acc b, (acc * 31 + b + 7) mod 65521) 1 l.
#[local] Instance toy : Crypto := {|
  Cipher := Z;
  derive_key ctx s := to_be 4 (checksum (to_be 4 (Z.of_nat (String.length ctx)) ++ s));
  cipher_new s := checksum s;
  encrypt c n a p := (p, to_be 16 (checksum (to_be 4 c ++ n ++ a ++ p)));
  decrypt c n a p t :=
    if decide (t = to_be 16 (checksum (to_be 4 c ++ n ++ a ++ p))) then Some p else None
|}.
#[local] Instance toy_laws : CryptoLaws toy.
Proof.
  split; simpl; [intros; by rewrite decide_True|done|intros; by rewrite length_to_be|].
  intros c n a p t b Hp. case_decide; [|done]. by intros [= <-].
Qed.
End Toy.

Lemma rotation_is_always_followed_witness :
  let a := (rotate (C := Toy.toy) (rotate (C := Toy.toy) (new (C := Toy.toy) [1] ClientToServer)).2).2 in
  let b := new (C := Toy.toy) [1] ServerToClient in
  reach (C := Toy.toy) b (send_epoch (C := Toy.toy) a) = Ahead 2 ∧
  (peek_ahead (C := Toy.toy) b 2).1 = Some (sending (C := Toy.toy) a).
Proof.
  intros a b.
  assert (reachable (C := Toy.toy) [1] ClientToServer a) as Ha
    by (apply reachable_rotate, reachable_rotate, reachable_new).
  assert (reachable (C := Toy.toy) [1] (opposite ClientToServer) b) as Hb by apply reachable_new.
  assert (recv_epoch (C := Toy.toy) b ≤ send_epoch (C := Toy.toy) a ≤
    recv_epoch (C := Toy.toy) b + MAX_EPOCH_CATCHUP) as Hr by (vm_compute; split; discriminate).
  pose proof (rotation_is_always_followed (C := Toy.toy) [1] ClientToServer a b Ha Hb Hr) as H.
  split; [reflexivity|]. apply H.
Defined.

End Keys.
