(* ===== verification/Packet.v ===== *)
(** * The header every datagram carries ([crates/dgram/src/packet.rs])

    Packet kinds, the acknowledgement body and the header, with their encoders and decoders.
    An encoder that asserts returns [None] where the code panics.  The theorems show that the
    header decoder accepts exactly the encodings of well-formed headers, and that an
    acknowledgement survives the wire with its delay cut to whole microseconds and saturated
    at [u32::MAX] of them. *)

From S2P Require Import Prelude Keys.

Module Packet.

Definition BASE_DATAGRAM : Z := 1200.
Definition MAX_DATAGRAM : Z := 9000.
Definition HEADER_BYTES : nat := 16.
Definition TAG_BYTES : nat := 16.
Definition MAX_PAYLOAD : Z := MAX_DATAGRAM - Z.of_nat HEADER_BYTES - Z.of_nat TAG_BYTES.
Definition MAX_PACKET_NUMBER : Z := 2 ^ 48 - 1.

(** [ConnectionId([u8; 8])]. *)
Abbreviation ConnectionId := (list Z) (only parsing).

Inductive Kind := Frame | Challenge | Response | Alive | Close | Ack | Probe.

#[global] Instance Kind_eq_dec : EqDecision Kind.
Proof. solve_decision. Defined.

(** [kind as u8]. *)
Definition to_wire (k : Kind) : Z :=
  match k with
  | Frame => 0 | Challenge => 1 | Response => 2 | Alive => 3
  | Close => 4 | Ack => 5 | Probe => 6
  end.

Definition from_wire (byte : Z) : option Kind :=
  match byte with
  | 0 => Some Frame
  | 1 => Some Challenge
  | 2 => Some Response
  | 3 => Some Alive
  | 4 => Some Close
  | 5 => Some Ack
  | 6 => Some Probe
  | _ => None
  end.

Definition ack_eliciting (k : Kind) : bool :=
  match k with
  | Frame | Challenge | Response | Probe => true
  | Alive | Close | Ack => false
  end.

Definition ACK_BODY_BYTES : nat := 18.

Record AckBody := mkAck {
  largest : Z;
  delay : Duration;
  map : Z
}.

Definition ack_encode (a : AckBody) : option (list Z) :=
  if largest a <=? MAX_PACKET_NUMBER then
    let micros := Z.min U32_MAX (as_micros (delay a)) in
    Some (drop 2 (to_be 8 (largest a)) ++ to_be 4 micros ++ to_be 8 (map a))
  else None.

Definition ack_decode (body : list Z) : option AckBody :=
  if decide (length body = ACK_BODY_BYTES) then
    Some {| largest := from_be (replicate 2 0 ++ take 6 body);
            delay := from_micros (from_be (slice 6 10 body));
            map := from_be (drop 10 body) |}
  else None.

Record Header := mkHeader {
  kind : Kind;
  cid : ConnectionId;
  epoch : Z;
  number : Z
}.

Definition encode (h : Header) : option (list Z) :=
  if number h <=? MAX_PACKET_NUMBER then
    Some (to_wire (kind h) :: cid h ++ epoch h :: drop 2 (to_be 8 (number h)))
  else None.

Inductive MalformedPacket := Short | UnknownKind (byte : Z).

Definition decode (datagram : list Z) : result Header MalformedPacket :=
  if decide (length datagram < HEADER_BYTES + TAG_BYTES)%nat then Err Short
  else
    let? kind := ok_or (from_wire (datagram !!! 0%nat)) (UnknownKind (datagram !!! 0%nat)) in
    Ok {| kind := kind;
          cid := slice 1 9 datagram;
          epoch := datagram !!! 9%nat;
          number := from_be (replicate 2 0 ++ slice 10 16 datagram) |}.

Definition peek (datagram : list Z) : result ConnectionId MalformedPacket :=
  let? h := decode datagram in Ok (cid h).

(** ** Lemmas *)

Lemma from_wire_spec b k : from_wire b = Some k ↔ b = to_wire k.
Proof.
  split; [|by intros ->; destruct k].
  unfold from_wire. repeat case_match; intros [= <-]; done.
Qed.

(** The two high bytes of a 48-bit number are zero, so dropping them loses nothing. *)
Lemma to_be_48 v : 0 ≤ v < 2 ^ 48 → to_be 8 v = replicate 2 0 ++ drop 2 (to_be 8 v).
Proof.
  intros Hv. rewrite <- (take_drop 2 (to_be 8 v)) at 1. f_equal.
  set (l := to_be 8 v). assert (length l = 8%nat) as Hl by apply length_to_be.
  assert (Forall is_byte l) as Hb by apply to_be_bytes.
  assert (from_be l = v) as Hf by (apply from_to_be; change (256 ^ Z.of_nat 8) with (2 ^ 64); lia).
  clearbody l. do 8 (destruct l as [|?b l]; [done|]). destruct l; [|done].
  rewrite !list.Forall_cons in Hb. unfold is_byte in Hb. simpl.
  Transparent from_be. unfold from_be in Hf. simpl in Hf. Opaque from_be.
  assert (b = 0) as -> by lia. assert (b0 = 0) as -> by lia. done.
Qed.

Lemma from_be_zeros l : from_be (0 :: 0 :: l) = from_be l.
Proof. Transparent from_be. done. Opaque from_be. Qed.

Lemma from_be_48 v : 0 ≤ v < 2 ^ 48 → from_be (replicate 2 0 ++ drop 2 (to_be 8 v)) = v.
Proof.
  intros Hv. rewrite <- to_be_48 by done. apply from_to_be.
  change (256 ^ Z.of_nat 8) with (2 ^ 64). lia.
Qed.

Lemma drop_to_be_48 l : length l = 6%nat → Forall is_byte l → drop 2 (to_be 8 (from_be l)) = l.
Proof.
  intros Hl Hb. rewrite <- (from_be_zeros l). change (0 :: 0 :: l) with (replicate 2 0 ++ l).
  rewrite <- (drop_app_length' (replicate 2 0) l 2) at 2 by done. f_equal.
  replace 8%nat with (length (replicate 2 0 ++ l)) by (rewrite length_app, Hl; done).
  apply to_from_be. apply Forall_app; split; [|done]. simpl; forall_list (unfold is_byte; lia).
Qed.

(** What a header this build can send looks like. *)
Definition header_ok (h : Header) : Prop :=
  length (cid h) = 8%nat ∧ Forall is_byte (cid h) ∧ is_byte (epoch h) ∧
  0 ≤ number h ≤ MAX_PACKET_NUMBER.

Lemma length_encode h l : header_ok h → encode h = Some l → length l = HEADER_BYTES.
Proof.
  intros (Hc & _) He. unfold encode in He. case_match; [|done]. simplify_eq/=.
  rewrite length_app, Hc. simpl. rewrite length_drop, length_to_be. done.
Qed.

Lemma decode_encode h l rest :
  header_ok h → encode h = Some l → (TAG_BYTES ≤ length rest)%nat → decode (l ++ rest) = Ok h.
Proof.
  intros Hh He Hr. pose proof (length_encode _ _ Hh He) as Hl.
  destruct Hh as (Hc & _ & _ & Hn). unfold encode in He.
  destruct (Z.leb_spec (number h) MAX_PACKET_NUMBER); [|done]. simplify_eq.
  unfold decode. rewrite decide_False by (rewrite length_app, Hl; lia). simpl.
  rewrite (proj2 (from_wire_spec _ (kind h)) eq_refl). simpl.
  destruct h as [k c e n]; simpl in *.
  do 8 (destruct c as [|? c]; [done|]). destruct c; [|done]. unfold slice; simpl. f_equal. f_equal.
  rewrite drop_0, take_app_length' by (rewrite length_drop, length_to_be; done).
  apply from_be_48. unfold MAX_PACKET_NUMBER in *. lia.
Qed.

Lemma encode_decode d h :
  Forall is_byte d → decode d = Ok h →
  header_ok h ∧ (HEADER_BYTES + TAG_BYTES ≤ length d)%nat ∧ encode h = Some (take HEADER_BYTES d).
Proof.
  intros Hb Hd. unfold decode in Hd. case_decide as Hlen; [done|].
  apply result_bind_ok in Hd as (k & Hk & Hd).
  assert (from_wire (d !!! 0%nat) = Some k) as Hk'.
  { unfold ok_or in Hk. by destruct (from_wire _); simplify_eq. }
  apply from_wire_spec in Hk'. simplify_eq.
  do 16 (destruct d as [|?b d]; [simpl in Hlen; unfold HEADER_BYTES in Hlen; lia|]).
  unfold slice in *; simpl in *. rewrite ?drop_0 in *. simpl in *. rewrite !list.Forall_cons in Hb. destruct_and! Hb.
  assert (Forall is_byte [b9; b10; b11; b12; b13; b14]) as Hsix by (by forall_list done).
  pose proof (from_be_bound _ Hsix) as Hbd.
  change (256 ^ _) with (2 ^ 48) in Hbd.
  split_and!; [|lia|].
  - split; [done|]. split; [simpl; forall_list done|]. split; [done|]. simpl.
    rewrite from_be_zeros, take_0. unfold MAX_PACKET_NUMBER. lia.
  - unfold encode; simpl.
    rewrite from_be_zeros, take_0. destruct (Z.leb_spec (from_be [b9; b10; b11; b12; b13; b14]) MAX_PACKET_NUMBER).
    + rewrite drop_to_be_48 by done. by rewrite Hk'.
    + unfold MAX_PACKET_NUMBER in *. lia.
Qed.

(** ** Properties *)

(** The header decoder accepts exactly the datagrams that are at least a header and a tag
    long and start with the encoding of a well-formed header, and it gives that header back:
    encode and decode are inverse to each other. *)
Theorem header_wire_exact (d : list Z) (h : Header) (H : Forall is_byte d) :
  decode d = Ok h ↔
  header_ok h ∧ (HEADER_BYTES + TAG_BYTES ≤ length d)%nat ∧ encode h = Some (take HEADER_BYTES d).
Proof.
  split; [by apply encode_decode|]. intros (Hh & Hl & He).
  rewrite <- (take_drop HEADER_BYTES d). apply decode_encode; [done|done|].
  rewrite length_drop. unfold HEADER_BYTES, TAG_BYTES in *. lia.
Qed.

Lemma header_wire_exact_witness :
  decode ([0; 1; 2; 3; 4; 5; 6; 7; 8; 0; 0; 0; 0; 0; 1; 44] ++ replicate 16 9) =
  Ok {| kind := Frame; cid := [1; 2; 3; 4; 5; 6; 7; 8]; epoch := 0; number := 300 |}.
Proof.
  apply (header_wire_exact ([0; 1; 2; 3; 4; 5; 6; 7; 8; 0; 0; 0; 0; 0; 1; 44] ++ replicate 16 9)).
  - simpl. forall_list (unfold is_byte; lia).
  - split; [|split; [apply Nat.leb_le; vm_compute; reflexivity|vm_compute; reflexivity]].
    split; [reflexivity|]. simpl.
    split; [forall_list (unfold is_byte; lia)|]. unfold is_byte, MAX_PACKET_NUMBER. lia.
Defined.

(** An acknowledgement survives the wire: eighteen bytes decode to the same numbers and
    map, with the delay cut to whole microseconds and saturated rather than wrapped at
    [u32::MAX] of them; and no other length decodes. *)
Theorem ack_wire_round_trip (a : AckBody)
    (H : 0 ≤ largest a ≤ MAX_PACKET_NUMBER ∧ 0 ≤ delay a ∧ 0 ≤ map a ≤ U64_MAX) :
  ∃ body, ack_encode a = Some body ∧ length body = ACK_BODY_BYTES ∧
    ack_decode body =
      Some {| largest := largest a;
              delay := from_micros (Z.min U32_MAX (as_micros (delay a)));
              map := map a |} ∧
    ∀ other, length other ≠ ACK_BODY_BYTES → ack_decode other = None.
Proof.
  destruct H as (Hl & Hd & Hm). unfold ack_encode.
  destruct (Z.leb_spec (largest a) MAX_PACKET_NUMBER) as [_|]; [|lia].
  set (m := Z.min U32_MAX (as_micros (delay a))).
  assert (0 ≤ m < 2 ^ 32) as Hmb.
  { unfold m, as_micros. pose proof (Z.div_pos (delay a) 1000). lia. }
  assert (length (drop 2 (to_be 8 (largest a))) = 6%nat) as H6 by (by rewrite length_drop, length_to_be).
  eexists; split; [done|].
  assert (length (drop 2 (to_be 8 (largest a)) ++ to_be 4 m ++ to_be 8 (map a)) = ACK_BODY_BYTES) as Hlen.
  { by rewrite !length_app, H6, !length_to_be. }
  split_and!; [done| |].
  - unfold ack_decode. rewrite decide_True by done. f_equal. f_equal.
    + rewrite take_app_length' by done. apply from_be_48. unfold MAX_PACKET_NUMBER in *. lia.
    + f_equal. unfold slice. rewrite drop_app_length' by done.
      rewrite take_app_length' by (by rewrite length_to_be).
      apply from_to_be. change (256 ^ Z.of_nat 4) with (2 ^ 32). lia.
    + rewrite drop_app, H6. simpl. rewrite drop_ge by (rewrite H6; lia). simpl.
      rewrite drop_app_length' by (by rewrite length_to_be).
      apply from_to_be. change (256 ^ Z.of_nat 8) with (2 ^ 64). lia.
  - intros other Ho. unfold ack_decode. by rewrite decide_False.
Qed.

Lemma ack_wire_round_trip_witness :
  ack_decode [0; 0; 0; 0; 0; 1; 255; 255; 255; 255; 0; 0; 0; 0; 0; 0; 0; 5] =
    Some {| largest := 1; delay := from_micros U32_MAX; map := 5 |} ∧
  ∃ body, ack_encode {| largest := 1; delay := from_secs 9000; map := 5 |} = Some body.
Proof.
  split; [vm_compute; reflexivity|].
  destruct (ack_wire_round_trip {| largest := 1; delay := from_secs 9000; map := 5 |})
    as (body & Hb & _); [|exists body; exact Hb].
  simpl. unfold MAX_PACKET_NUMBER, from_secs. lia.
Defined.

End Packet.
