(* ===== verification/Path.v ===== *)
(** * Path validation ([crates/dgram/src/path.rs])

    Which address an endpoint sends to and what an address must do before it is trusted.
    [getrandom::fill] is the operating system's: what it gives at a call is an argument of the
    operation that calls it, [None] for a failure.

    [Trace] runs a validator against any sequence of arrivals, polls, sends and answers while
    keeping two ledgers beside it: bytes received from and sent to each address, and the tokens
    it was told to send.  The theorems show that an address that has not answered is never sent
    more than three times what it sent, and that no address is believed without echoing a token
    that was issued for it. *)

From S2P Require Import Prelude.

Inductive SocketAddr :=
| V4 (ip port : Z)
| V6 (ip port flowinfo scope_id : Z).

#[export] Instance SocketAddr_eq_dec : EqDecision SocketAddr.
Proof. solve_decision. Defined.

Module Path.

Definition AMPLIFICATION_LIMIT : Z := 3.
Definition PROBE_INTERVAL : Duration := from_millis 250.
Definition PROBE_LIMIT : Z := 4.

(** A challenge's eight bytes. *)
Abbreviation Token := (list Z) (only parsing).

Record Probe := mkProbe {
  token : option Token;
  due : option Instant;
  sent : Z;
  credit : Z
}.

Definition probe_new : Probe := {| token := None; due := None; sent := 0; credit := 0 |}.

Definition earned (p : Probe) (bytes : Z) : Probe :=
  let earned := sat_mul U64_MAX AMPLIFICATION_LIMIT bytes in
  {| token := token p; due := due p; sent := sent p;
     credit := sat_add U64_MAX (credit p) earned |}.

Definition probe_arrived (p : Probe) (bytes : Z) (now : Instant) : Probe :=
  let p := earned p bytes in
  {| token := token p; due := Some (default now (due p)); sent := 0; credit := credit p |}.

Definition challengeable (p : Probe) : bool :=
  bool_decide (is_Some (due p)) && (sent p <? PROBE_LIMIT).

Definition probe_deadline (p : Probe) : option Instant :=
  if sent p <? PROBE_LIMIT then due p else None.

Definition challenge (p : Probe) (now : Instant) (fill : option Token) : option Token * Probe :=
  match probe_deadline p with
  | None => (None, p)
  | Some d =>
      if now <? d then (None, p)
      else
        let issue t :=
          (Some t, {| token := Some t; due := Some (now + PROBE_INTERVAL);
                      sent := sent p + 1; credit := credit p |}) in
        match token p with
        | Some t => issue t
        | None =>
            match fill with
            | Some fresh => issue fresh
            | None => (None, {| token := None; due := Some (now + PROBE_INTERVAL);
                                sent := sent p; credit := credit p |})
            end
        end
  end.

Inductive Candidate := Proposed (p : Probe) | Retiring (p : Probe).

Definition probe (c : Candidate) : Probe := match c with Proposed p | Retiring p => p end.

(** A write through [probe_mut]. *)
Definition map_probe (f : Probe → Probe) (c : Candidate) : Candidate :=
  match c with Proposed p => Proposed (f p) | Retiring p => Retiring (f p) end.

Definition candidate_arrived (c : Candidate) (bytes : Z) (now : Instant) : Candidate :=
  match c with
  | Proposed p => Proposed (probe_arrived p bytes now)
  | Retiring p => Retiring (earned p bytes)
  end.

Definition contradicted (c : Candidate) : Candidate :=
  match c with Proposed p => Retiring p | Retiring p => Retiring p end.

Inductive Arrival := Established | Probing (a : SocketAddr) | Pending.
Inductive Answered := Validated | Migrated (a : SocketAddr).

Inductive Standing := Proven | Claimed (p : Probe).

Record PathValidator := mkPath {
  current : SocketAddr;
  standing : Standing;
  candidate : option (SocketAddr * Candidate)
}.

Definition dialled (peer : SocketAddr) : PathValidator :=
  {| current := peer; standing := Proven; candidate := None |}.

Definition claimed (peer : SocketAddr) : PathValidator :=
  {| current := peer; standing := Claimed probe_new; candidate := None |}.

Definition probing (v : PathValidator) : bool :=
  match standing v with Claimed p => challengeable p | Proven => false end
  || match candidate v with Some (_, next) => challengeable (probe next) | None => false end.

Definition arrived (v : PathValidator) (from : SocketAddr) (bytes : Z) (now : Instant)
    : Arrival * PathValidator :=
  if decide (from = current v) then
    (Established,
     {| current := current v;
        standing := match standing v with
                    | Claimed p => Claimed (probe_arrived p bytes now)
                    | Proven => Proven
                    end;
        candidate := prod_map id contradicted <$> candidate v |})
  else
    let fresh :=
      (Probing from,
       {| current := current v; standing := standing v;
          candidate := Some (from, Proposed (probe_arrived probe_new bytes now)) |}) in
    match candidate v with
    | Some (at_, c) =>
        if decide (at_ = from) then
          (Pending, {| current := current v; standing := standing v;
                       candidate := Some (at_, candidate_arrived c bytes now) |})
        else fresh
    | None => fresh
    end.

(** The candidate's half of [poll_challenge]. *)
Definition poll_candidate (v : PathValidator) (now : Instant) (fill : option Token)
    : option (SocketAddr * Token) * PathValidator :=
  match candidate v with
  | None => (None, v)
  | Some (at_, c) =>
      let '(t, p) := challenge (probe c) now fill in
      let c := map_probe (λ _, p) c in
      let keep := {| current := current v; standing := standing v; candidate := Some (at_, c) |} in
      match t with
      | Some t => (Some (at_, t), keep)
      | None =>
          if PROBE_LIMIT <=? sent (probe c) then
            (None, {| current := current v; standing := standing v; candidate := None |})
          else (None, keep)
      end
  end.

(** [fill1] is what entropy the address in use is given, [fill2] the candidate. *)
Definition poll_challenge (v : PathValidator) (now : Instant) (fill1 fill2 : option Token)
    : option (SocketAddr * Token) * PathValidator :=
  match standing v with
  | Claimed p =>
      let '(t, p) := challenge p now fill1 in
      let v := {| current := current v; standing := Claimed p; candidate := candidate v |} in
      match t with
      | Some t => (Some (current v, t), v)
      | None => poll_candidate v now fill2
      end
  | Proven => poll_candidate v now fill2
  end.

(** The least of two deadlines, either of which may be absent. *)
Definition min_deadline (a b : option Instant) : option Instant := union_with (λ x y, Some (Z.min x y)) a b.

Definition challenge_deadline (v : PathValidator) : option Instant :=
  min_deadline
    match standing v with Proven => None | Claimed p => probe_deadline p end
    match candidate v with Some (_, c) => probe_deadline (probe c) | None => None end.

Definition unproven (v : PathValidator) (to : SocketAddr) : option Probe :=
  if decide (to = current v) then
    match standing v with Proven => None | Claimed p => Some p end
  else match candidate v with
       | Some (at_, c) => if decide (at_ = to) then Some (probe c) else None
       | None => None
       end.

Definition may_send (v : PathValidator) (to : SocketAddr) (bytes : Z) : bool :=
  match unproven v to with
  | Some p => bytes <=? credit p
  | None => bool_decide (to = current v)
  end.

(** The write [spent] makes through [unproven_mut]. *)
Definition charge (bytes : Z) (p : Probe) : Probe :=
  {| token := token p; due := due p; sent := sent p; credit := sat_sub (credit p) bytes |}.

Definition spent (v : PathValidator) (to : SocketAddr) (bytes : Z) : PathValidator :=
  if decide (to = current v) then
    {| current := current v;
       standing := match standing v with Proven => Proven | Claimed p => Claimed (charge bytes p) end;
       candidate := candidate v |}
  else
    {| current := current v; standing := standing v;
       candidate := match candidate v with
                    | Some (at_, c) =>
                        if decide (at_ = to) then Some (at_, map_probe (charge bytes) c)
                        else Some (at_, c)
                    | None => None
                    end |}.

(** The candidate's half of [answered]. *)
Definition answered_candidate (v : PathValidator) (from : SocketAddr) (t : Token)
    : option Answered * PathValidator :=
  match candidate v with
  | None => (None, v)
  | Some (at_, c) =>
      if decide (at_ ≠ from ∨ token (probe c) ≠ Some t) then (None, v)
      else (Some (Migrated from), {| current := from; standing := Proven; candidate := None |})
  end.

Definition answered (v : PathValidator) (from : SocketAddr) (t : Token)
    : option Answered * PathValidator :=
  match standing v with
  | Claimed p =>
      if decide (from = current v ∧ token p = Some t) then
        (Some Validated, {| current := current v; standing := Proven; candidate := candidate v |})
      else answered_candidate v from t
  | Proven => answered_candidate v from t
  end.

(** ** Traces *)

Module Trace.
Inductive event :=
| Arrive (from : SocketAddr) (bytes : Z) (now : Instant)
| Poll (now : Instant) (fill1 fill2 : option Token)
| Send (to : SocketAddr) (bytes : Z)
| Answer (from : SocketAddr) (t : Token).

(** The validator, what each address sent, what each was sent while it had not answered,
    the challenges issued, and the answers that were believed. *)
Record t := mk {
  path : PathValidator;
  heard : SocketAddr → Z;
  risked : SocketAddr → Z;
  issued : list (SocketAddr * Token);
  believed : list (SocketAddr * Token)
}.

Definition add (f : SocketAddr → Z) (a : SocketAddr) (n : Z) : SocketAddr → Z :=
  λ b, if decide (a = b) then f b + n else f b.

(** A caller asks [may_send] before it sends, and charges what it sent. *)
Definition step (g : t) (e : event) : t :=
  match e with
  | Arrive from bytes now =>
      {| path := (arrived (path g) from bytes now).2; heard := add (heard g) from bytes;
         risked := risked g; issued := issued g; believed := believed g |}
  | Poll now fill1 fill2 =>
      let '(c, p) := poll_challenge (path g) now fill1 fill2 in
      {| path := p; heard := heard g; risked := risked g;
         issued := option_list c ++ issued g; believed := believed g |}
  | Send to bytes =>
      if may_send (path g) to bytes then
        {| path := spent (path g) to bytes; heard := heard g;
           risked := match unproven (path g) to with
                     | Some _ => add (risked g) to bytes
                     | None => risked g
                     end;
           issued := issued g; believed := believed g |}
      else g
  | Answer from t =>
      let '(r, p) := answered (path g) from t in
      {| path := p; heard := heard g; risked := risked g; issued := issued g;
         believed := match r with Some _ => (from, t) :: believed g | None => believed g end |}
  end.

Definition init (v : PathValidator) : t :=
  {| path := v; heard := λ _, 0; risked := λ _, 0; issued := []; believed := [] |}.

Definition run (v : PathValidator) (es : list event) : t := foldl step (init v) es.

(** Sizes are not negative. *)
Definition event_ok (e : event) : Prop :=
  match e with Arrive _ bytes _ | Send _ bytes => 0 ≤ bytes | _ => True end.
End Trace.
Import Trace.

(** ** Invariant *)

(** A probe's credit never exceeds what its address earned and has not been sent, and its
    token is one that was issued for that address. *)
Definition probe_inv (g : Trace.t) (a : SocketAddr) (p : Probe) : Prop :=
  0 ≤ credit p ∧ risked g a + credit p ≤ AMPLIFICATION_LIMIT * heard g a ∧
  (∀ k, token p = Some k → (a, k) ∈ issued g).

Definition inv (g : Trace.t) : Prop :=
  (∀ a, 0 ≤ risked g a ≤ AMPLIFICATION_LIMIT * heard g a) ∧
  (∀ a p, unproven (path g) a = Some p → probe_inv g a p) ∧
  (∀ a c, candidate (path g) = Some (a, c) → a ≠ current (path g)) ∧
  believed g ⊆ issued g.

Lemma add_same f a n : add f a n a = f a + n.
Proof. unfold add. by rewrite decide_True. Qed.
Lemma add_other f a b n : a ≠ b → add f a n b = f b.
Proof. intros. unfold add. by rewrite decide_False. Qed.

(** What arrives pays for what may be sent back. *)
Lemma earned_inv g g' a p bytes :
  probe_inv g a p → 0 ≤ bytes → heard g' a = heard g a + bytes → risked g' a = risked g a →
  issued g' = issued g → probe_inv g' a (earned p bytes).
Proof.
  intros (Hc & Hb & Ht) Hn Hh Hr Hi. unfold probe_inv, earned, AMPLIFICATION_LIMIT in *; simpl.
  rewrite Hh, Hr, Hi. split_and!; [slia|slia|done].
Qed.

Lemma probe_arrived_inv g g' a p bytes now :
  probe_inv g a p → 0 ≤ bytes → heard g' a = heard g a + bytes → risked g' a = risked g a →
  issued g' = issued g → probe_inv g' a (probe_arrived p bytes now).
Proof. intros H Hn Hh Hr Hi. by apply (earned_inv g g' a p bytes) in H. Qed.

Lemma probe_inv_ext g g' a p :
  probe_inv g a p → heard g' a = heard g a → risked g' a = risked g a →
  issued g ⊆ issued g' → probe_inv g' a p.
Proof. intros (Hc & Hb & Ht) Hh Hr Hi. unfold probe_inv. rewrite Hh, Hr. naive_solver. Qed.

Lemma probe_new_inv g a : 0 ≤ risked g a ≤ AMPLIFICATION_LIMIT * heard g a → probe_inv g a probe_new.
Proof. intros H. split_and!; simpl; [lia|lia|done]. Qed.

(** What [challenge] leaves behind. *)
Lemma challenge_spec p now fill :
  credit (challenge p now fill).2 = credit p ∧
  match (challenge p now fill).1 with
  | Some t => token (challenge p now fill).2 = Some t
  | None => token (challenge p now fill).2 = token p
  end.
Proof.
  unfold challenge. destruct (probe_deadline p); [|done]. destruct (_ <? _); [done|].
  destruct (token p) eqn:Et; [done|]. by destruct fill.
Qed.

Lemma challenge_inv g g' a p now fill :
  probe_inv g a p → heard g' a = heard g a → risked g' a = risked g a →
  issued g' = option_list ((λ t, (a, t)) <$> (challenge p now fill).1) ++ issued g →
  probe_inv g' a (challenge p now fill).2.
Proof.
  intros (Hc & Hb & Ht) Hh Hr Hi. destruct (challenge_spec p now fill) as [Hcr Htk].
  unfold probe_inv. rewrite Hcr, Hh, Hr. split_and!; [done|done|].
  intros k Hk. rewrite Hi. destruct (challenge p now fill).1 as [t|]; simpl.
  - assert (t = k) as -> by congruence. left.
  - apply Ht. congruence.
Qed.

Lemma arrive_inv g from bytes now : inv g → 0 ≤ bytes → inv (step g (Arrive from bytes now)).
Proof.
  intros (Hamp & Hun & Hcand & Hbel) Hb. unfold step, arrived.
  assert (∀ a, 0 ≤ risked g a ≤ AMPLIFICATION_LIMIT * add (heard g) from bytes a) as Hamp'.
  { intros a. specialize (Hamp a). unfold add, AMPLIFICATION_LIMIT in *. case_decide; lia. }
  destruct (decide (from = current (path g))) as [->|Hne].
  - split_and!; simpl; [done| | |done].
    + intros a p. unfold unproven in *; simpl. specialize (Hun a).
      destruct (decide (a = current (path g))) as [->|Ha].
      * destruct (standing (path g)) as [|q]; [done|]. intros [= <-].
        apply (probe_arrived_inv g); simpl; auto using add_same.
      * destruct (candidate (path g)) as [[at_ c]|]; simpl; [|done].
        case_decide as Hat; [|done]. intros [= <-].
        apply (probe_inv_ext g); simpl; [|by apply add_other|done|done].
        destruct c; simpl in *; auto.
    + intros a c. destruct (candidate (path g)) as [[at_ c']|]; simpl; [|done].
      intros [= <- <-]. naive_solver.
  - assert (inv {| path := {| current := current (path g); standing := standing (path g);
        candidate := Some (from, Proposed (probe_arrived probe_new bytes now)) |};
        heard := add (heard g) from bytes; risked := risked g; issued := issued g;
        believed := believed g |}) as Hfresh.
    { split_and!; simpl; [done| | |done].
      - intros a p. unfold unproven in *; simpl. destruct (decide (a = current (path g))) as [->|Ha].
        + specialize (Hun (current (path g))). rewrite decide_True in Hun by done.
          destruct (standing (path g)) as [|q]; [done|]. intros [= <-].
          apply (probe_inv_ext g); simpl; auto using add_other.
        + case_decide as Hat; [|done]. intros [= <-]. subst a.
          apply (probe_arrived_inv g); simpl; auto using add_same, probe_new_inv.
      - naive_solver. }
    destruct (candidate (path g)) as [[at_ c]|] eqn:Ec; [|done].
    destruct (decide (at_ = from)) as [->|]; [|done].
    split_and!; simpl; [done| |naive_solver|done].
    intros a p. unfold unproven in *; simpl. specialize (Hun a). rewrite Ec in Hun.
    destruct (decide (a = current (path g))) as [->|Ha].
    + destruct (standing (path g)) as [|q]; [done|]. intros [= <-].
      apply (probe_inv_ext g); simpl; auto using add_other.
    + case_decide as Hat; [|done]. subst a. intros [= <-]. specialize (Hun _ eq_refl).
      destruct c as [q|q]; simpl in *;
        [apply (probe_arrived_inv g)|apply (earned_inv g)]; simpl; auto using add_same.
Qed.

Lemma poll_candidate_inv g now fill :
  inv g →
  let '(c, p) := poll_candidate (path g) now fill in
  inv {| path := p; heard := heard g; risked := risked g;
         issued := option_list c ++ issued g; believed := believed g |}.
Proof.
  intros (Hamp & Hun & Hcand & Hbel). unfold poll_candidate.
  destruct (candidate (path g)) as [[at_ c]|] eqn:Ec.
  2:{ split_and!; simpl; [done|done|by rewrite Ec|done]. }
  specialize (Hcand _ _ eq_refl) as Hne.
  assert (probe_inv g at_ (probe c)) as Hp.
  { apply Hun. unfold unproven. by rewrite decide_False, Ec, decide_True. }
  pose proof (λ g', challenge_inv g g' at_ (probe c) now fill Hp) as Hch.
  destruct (challenge (probe c) now fill) as [t q] eqn:Eq; simpl in Hch.
  assert (∀ l, l = option_list ((λ t, (at_, t)) <$> t) →
    inv {| path := {| current := current (path g); standing := standing (path g);
             candidate := Some (at_, map_probe (λ _, q) c) |};
           heard := heard g; risked := risked g; issued := l ++ issued g; believed := believed g |})
    as Hkeep.
  { intros l ->. split_and!; simpl; [done| |naive_solver|].
    - intros a p. unfold unproven; simpl. case_decide as Ha.
      + intros Hs. apply (probe_inv_ext g); simpl; [|done|done|by apply list_subseteq_app_r].
        apply Hun. unfold unproven. by rewrite decide_True.
      + case_decide as Hat; [|done]. subst a. intros [= <-].
        replace (probe (map_probe (λ _, q) c)) with q by (by destruct c). by apply Hch.
    - etrans; [exact Hbel|]. by apply list_subseteq_app_r. }
  destruct t as [t|]; simpl.
  - by apply (Hkeep [(at_, t)]).
  - destruct (PROBE_LIMIT <=? _); [|by apply (Hkeep [])].
    split_and!; simpl; [done| |done|done].
    intros a p. unfold unproven; simpl. case_decide as Ha; [|done].
    intros Hs. apply (probe_inv_ext g); simpl; [|done..].
    apply Hun. unfold unproven. by rewrite decide_True.
Qed.

Lemma poll_inv g now fill1 fill2 : inv g → inv (step g (Poll now fill1 fill2)).
Proof.
  intros Hinv. pose proof Hinv as (Hamp & Hun & Hcand & Hbel).
  unfold step, poll_challenge. destruct (standing (path g)) as [|p] eqn:Es.
  { pose proof (poll_candidate_inv g now fill2 Hinv).
    by destruct (poll_candidate (path g) now fill2). }
  assert (probe_inv g (current (path g)) p) as Hp.
  { apply Hun. unfold unproven. by rewrite decide_True, Es. }
  pose proof (λ g', challenge_inv g g' _ p now fill1 Hp) as Hch.
  destruct (challenge p now fill1) as [t q] eqn:Eq; simpl in Hch.
  assert (inv {| path := {| current := current (path g); standing := Claimed q;
             candidate := candidate (path g) |};
           heard := heard g; risked := risked g;
           issued := option_list ((λ t, (current (path g), t)) <$> t) ++ issued g;
           believed := believed g |}) as Hnew.
  { split_and!; simpl; [done| |done|].
    - intros a r. unfold unproven; simpl. case_decide as Ha.
      + intros [= <-]. subst a. by apply Hch.
      + intros Hr. apply (probe_inv_ext g); simpl; [|done|done|by apply list_subseteq_app_r].
        apply Hun. unfold unproven. by rewrite decide_False.
    - etrans; [exact Hbel|]. by apply list_subseteq_app_r. }
  destruct t as [t|]; [done|]. apply (poll_candidate_inv _ now fill2) in Hnew.
  simpl in Hnew. by destruct (poll_candidate _ now fill2).
Qed.

Lemma send_inv g to bytes : inv g → 0 ≤ bytes → inv (step g (Send to bytes)).
Proof.
  intros Hinv Hb. pose proof Hinv as (Hamp & Hun & Hcand & Hbel). unfold step, may_send.
  destruct (unproven (path g) to) as [p|] eqn:Eu.
  - destruct (Z.leb_spec bytes (credit p)) as [Hle|]; [|done].
    destruct (Hun _ _ Eu) as (Hc & Hbud & Htok). unfold spent, unproven in *.
    assert (∀ a, 0 ≤ add (risked g) to bytes a ≤ AMPLIFICATION_LIMIT * heard g a) as Hamp'.
    { intros a. specialize (Hamp a). unfold add. destruct (decide (to = a)) as [<-|]; lia. }
    assert (∀ g' a r, heard g' = heard g → risked g' = add (risked g) to bytes →
      issued g' = issued g → to ≠ a → probe_inv g a r → probe_inv g' a r) as Hother.
    { intros g' a r Hh Hr Hi Hne Ha. apply (probe_inv_ext g); rewrite ?Hh, ?Hr, ?Hi; auto using add_other. }
    assert (∀ g', heard g' = heard g → risked g' = add (risked g) to bytes →
      issued g' = issued g → probe_inv g' to (charge bytes p)) as Hself.
    { intros g' Hh Hr Hi. unfold probe_inv, charge; simpl. rewrite Hh, Hr, Hi, add_same.
      split_and!; [slia|slia|done]. }
    destruct (decide (to = current (path g))) as [->|Hne].
    + destruct (standing (path g)) as [|q] eqn:Es; [done|]. simplify_eq.
      split_and!; simpl; [done| |done|done].
      intros a r. unfold unproven; simpl. case_decide as Ha.
      * intros [= <-]. subst a. by apply Hself.
      * intros Hr. apply Hother; try done. apply Hun. by rewrite decide_False.
    + destruct (candidate (path g)) as [[at_ c]|] eqn:Ec; [|done].
      destruct (decide (at_ = to)) as [->|]; [|done]. simplify_eq.
      split_and!; simpl; [done| |naive_solver|done].
      intros a r. unfold unproven; simpl. case_decide as Ha.
      * intros Hs. apply Hother; try done; [congruence|]. apply Hun. by rewrite decide_True.
      * case_decide as Hat; [|done]. subst a. intros [= <-].
        replace (probe (map_probe (charge bytes) c)) with (charge bytes (probe c)) by (by destruct c).
        by apply Hself.
  - case_bool_decide as Ht; [|done]. subst to. unfold spent, unproven in *.
    rewrite decide_True by done. rewrite decide_True in Eu by done.
    destruct (standing (path g)) eqn:Es; [|done].
    split_and!; simpl; [done| |done|done].
    intros a r. unfold unproven; simpl. intros Hr. apply (probe_inv_ext g); simpl; [|done..].
    apply Hun. done.
Qed.

Lemma answered_candidate_inv g from t :
  inv g → inv (let '(r, p) := answered_candidate (path g) from t in
    {| path := p; heard := heard g; risked := risked g; issued := issued g;
       believed := match r with Some _ => (from, t) :: believed g | None => believed g end |}).
Proof.
  intros Hinv. pose proof Hinv as (Hamp & Hun & Hcand & Hbel). unfold answered_candidate.
  destruct (candidate (path g)) as [[at_ c]|] eqn:Ec; [|by destruct g].
  case_decide as Hd; [by destruct g|].
  assert (at_ = from) as -> by (destruct (decide (at_ = from)); [done|tauto]).
  assert (token (probe c) = Some t) as Ht by (destruct (decide (token (probe c) = Some t)); [done|tauto]).
  split_and!; simpl; [done| |done|].
  - intros a p. unfold unproven; simpl. by case_decide.
  - intros x [->|Hx]%elem_of_cons; [|by apply Hbel].
    eapply Hun; [|exact Ht]. unfold unproven.
    by rewrite decide_False, Ec, decide_True by (try apply (Hcand _ _ eq_refl); done).
Qed.

Lemma answer_inv g from t : inv g → inv (step g (Answer from t)).
Proof.
  intros Hinv. pose proof Hinv as (Hamp & Hun & Hcand & Hbel). unfold step, answered.
  destruct (standing (path g)) as [|p] eqn:Es; [by apply answered_candidate_inv|].
  case_decide as Hd; [|by apply answered_candidate_inv]. destruct Hd as [-> Ht].
  split_and!; simpl; [done| |done|].
  - intros a q. unfold unproven; simpl. case_decide; [done|]. intros Hq.
    apply (probe_inv_ext g); simpl; [|done..]. apply Hun. unfold unproven. by rewrite decide_False.
  - intros x [->|Hx]%elem_of_cons; [|by apply Hbel].
    eapply Hun; [|exact Ht]. unfold unproven. by rewrite decide_True, Es.
Qed.

Lemma trace_step_inv g e : inv g → event_ok e → inv (step g e).
Proof.
  destruct e; intros; [by apply arrive_inv|by apply poll_inv|by apply send_inv|by apply answer_inv].
Qed.

Lemma init_inv v : (∃ peer, v = dialled peer ∨ v = claimed peer) → inv (init v).
Proof.
  intros (peer & [-> | ->]); split_and!; simpl; try done; try lia; intros a p; unfold unproven; simpl;
    case_decide; try done. intros [= <-]. apply probe_new_inv; simpl; lia.
Qed.

Lemma trace_inv v es :
  (∃ peer, v = dialled peer ∨ v = claimed peer) → Forall event_ok es → inv (run v es).
Proof.
  intros Hv Hes. unfold run. apply init_inv in Hv. revert Hv. generalize (init v) as g.
  induction Hes as [|e es He Hes IH]; intros g Hg; [done|]. simpl. by apply IH, trace_step_inv.
Qed.

(** Whatever arrives, in whatever order, an address that has not answered a challenge is
    never sent more than three times the bytes it sent. *)
Theorem amplification_is_bounded (v : PathValidator) (es : list event)
    (Hv : ∃ peer, v = dialled peer ∨ v = claimed peer) (Hes : Forall event_ok es) (a : SocketAddr) :
  risked (run v es) a ≤ AMPLIFICATION_LIMIT * heard (run v es) a.
Proof. apply (trace_inv v es Hv Hes). Qed.

Lemma amplification_is_bounded_witness :
  let es := [Arrive (V4 2 1) 100 0; Send (V4 2 1) 300; Send (V4 2 1) 1] in
  risked (run (dialled (V4 1 1)) es) (V4 2 1) = 300 ∧
  risked (run (dialled (V4 1 1)) es) (V4 2 1) ≤ AMPLIFICATION_LIMIT * heard (run (dialled (V4 1 1)) es) (V4 2 1).
Proof.
  intros es. split; [vm_compute; reflexivity|].
  apply (amplification_is_bounded (dialled (V4 1 1)) es).
  - exists (V4 1 1). left. reflexivity.
  - unfold es. forall_list (simpl; (lia || exact I)).
Defined.

(** C14: an address is only ever believed, to be freed of its budget or moved to, when it echoes
    a token that was issued for that same address: the right token from the wrong place, or a
    token never issued, changes nothing. *)
Theorem only_challenged_addresses_are_believed (v : PathValidator) (es : list event)
    (Hv : ∃ peer, v = dialled peer ∨ v = claimed peer) (Hes : Forall event_ok es)
    (from : SocketAddr) (t : Token) :
  match answered (path (run v es)) from t with
  | (None, p) => p = path (run v es)
  | (Some r, p) => (from, t) ∈ issued (run v es) ∧ current p = from ∧ unproven p from = None ∧
      (r = Validated ∧ current (path (run v es)) = from ∨ r = Migrated from)
  end.
Proof.
  destruct (answered (path (run v es)) from t) as [r p] eqn:E.
  assert (inv (step (run v es) (Answer from t))) as (_ & _ & _ & Hbel)
    by (by apply trace_step_inv; [apply trace_inv|]).
  unfold step in Hbel. rewrite E in Hbel. simpl in Hbel.
  unfold answered, answered_candidate in E. repeat case_match; simplify_eq; try done.
  all: (split; [apply Hbel; left|]).
  all: destruct_and?; unfold unproven; simpl; rewrite decide_True by done; naive_solver.
Qed.

Lemma only_challenged_addresses_are_believed_witness :
  let es := [Arrive (V4 2 1) 100 0; Poll 0 None (Some [7])] in
  (answered (path (run (dialled (V4 1 1)) es)) (V4 2 1) [7]).1 = Some (Migrated (V4 2 1)) ∧
  (V4 2 1, [7]) ∈ issued (run (dialled (V4 1 1)) es).
Proof.
  intros es. split; [vm_compute; reflexivity|].
  pose proof (only_challenged_addresses_are_believed (dialled (V4 1 1)) es) as H.
  assert (Forall event_ok es) as Hes by (unfold es; forall_list (simpl; (lia || exact I))).
  specialize (H (ex_intro _ (V4 1 1) (or_introl eq_refl)) Hes (V4 2 1) [7]).
  apply H.
Defined.

End Path.
