(* ===== verification/Loss.v ===== *)
(** * Round trips and loss ([crates/dgram/src/loss.rs])

    [Rtt] is the smoothed estimator, in whole microseconds; [LossDetector] is the flight of
    packets not yet accounted for.  Instants are nanoseconds.

    The theorems show that the bounded scan of an acknowledgement retires exactly what a scan
    of the whole flight would, that detection gives up exactly the packets its two rules doom,
    that no operation loses or invents a packet of the flight, that the tables stay bounded,
    and that the estimator stays within the range of its samples. *)

From S2P Require Import Prelude Packet.

Module Loss.

Definition PACKET_THRESHOLD : Z := 3.
Definition INITIAL_RTT : Duration := from_millis 333.
Definition MIN_LOSS_DELAY : Duration := from_millis 1.
Definition TIMER_GRANULARITY : Z := 1000.
Definition MAX_ACK_DELAY : Duration := from_millis 25.
Definition MAX_TRACKED : Z := 4096.
Definition PERSISTENT_CONGESTION_THRESHOLD : Z := 3.
Definition RTT_MIN_WINDOW : Duration := from_secs 10.
Definition MAX_PTO_BACKOFF : Z := 6.

(** [micros(duration)], saturating. *)
Definition micros (d : Duration) : Z := Z.min U64_MAX (as_micros d).

(** ** The estimator *)

Record Rtt := mkRtt {
  smoothed : option Z;
  var : Z;
  latest_adjusted : Z;
  min_adjusted : option (Z * Instant)
}.
#[export] Instance Rtt_settable : Settable Rtt :=
  λ r, mkRtt (smoothed r) (var r) (latest_adjusted r) (min_adjusted r).

Definition rtt_default : Rtt :=
  {| smoothed := None; var := 0; latest_adjusted := 0; min_adjusted := None |}.

Definition sample (r : Rtt) (taken delay : Duration) (now : Instant) : Rtt :=
  let taken := micros taken in
  let adjusted := Z.max (sat_sub taken (micros delay)) 1 in
  let r := r <| latest_adjusted := adjusted |> in
  let replace := match min_adjusted r with
                 | None => true
                 | Some (min, s) => (adjusted <? min) || (RTT_MIN_WINDOW <=? since now s)
                 end in
  let r := if replace then r <| min_adjusted := Some (adjusted, now) |> else r in
  match smoothed r with
  | None => r <| smoothed := Some adjusted |> <| var := adjusted / 2 |>
  | Some s =>
      let difference := abs_diff s adjusted in
      r <| var := (var r * 3 + difference) / 4 |> <| smoothed := Some ((s * 7 + adjusted) / 8) |>
  end.

Definition rtt_smoothed (r : Rtt) : option Duration := from_micros <$> smoothed r.
Definition variation (r : Rtt) : Duration := from_micros (var r).
Definition rtt_latest (r : Rtt) : Duration := from_micros (latest_adjusted r).
Definition minimum_adjusted (r : Rtt) : option Duration := from_micros <$> (fst <$> min_adjusted r).

Definition loss_delay (r : Rtt) : Duration :=
  let base := match smoothed r with
              | None => micros INITIAL_RTT
              | Some s => Z.max (Z.max s (latest_adjusted r)) (var r)
              end in
  Z.max (from_micros (base * 9 / 8)) MIN_LOSS_DELAY.

Definition rtt_probe_timeout (r : Rtt) : Duration :=
  let s := default (micros INITIAL_RTT) (smoothed r) in
  from_micros (s + Z.max (4 * var r) TIMER_GRANULARITY) + MAX_ACK_DELAY.

Definition persistent_congestion_period (r : Rtt) : Duration :=
  rtt_probe_timeout r * PERSISTENT_CONGESTION_THRESHOLD.

(** ** The flight *)

Inductive Limited := Application | Window.

Record InFlight := mkInFlight {
  f_number : Z; f_bytes : Z; f_sent : Instant; f_limited : Limited
}.
Record Arrived := mkArrived {
  a_number : Z; a_bytes : Z; a_sent : Instant; a_limited : Limited
}.

Inductive Cause := Lost | Silent | Overflowed.

#[global] Instance Cause_eq_dec : EqDecision Cause.
Proof. solve_decision. Defined.

Record Gone := mkGone { g_number : Z; g_bytes : Z; g_sent : Instant; g_cause : Cause }.
Record WrittenOff := mkWrittenOff { w_number : Z; w_cause : Cause }.

(** [Acknowledgement::checked]: an acknowledgement of what was never sealed does not parse. *)
Definition checked (ack : Packet.AckBody) (next : Z) : option Packet.AckBody :=
  if Packet.largest ack <? next then Some ack else None.

Record LossDetector := mkLoss {
  sent : list InFlight;
  rtt : Rtt;
  largest_acked : option Z;
  arrived : list Arrived;
  gone : list Gone;
  written_off : list WrittenOff;
  silence : Z;
  silent_since : option Instant;
  answered : bool;
  persistent : bool;
  revived : bool;
  losses : Z;
  spurious : Z
}.
#[export] Instance LossDetector_settable : Settable LossDetector := λ d,
  mkLoss (sent d) (rtt d) (largest_acked d) (arrived d) (gone d) (written_off d) (silence d)
    (silent_since d) (answered d) (persistent d) (revived d) (losses d) (spurious d).

Definition new : LossDetector :=
  {| sent := []; rtt := rtt_default; largest_acked := None; arrived := []; gone := [];
     written_off := []; silence := 0; silent_since := None; answered := false;
     persistent := false; revived := false; losses := 0; spurious := 0 |}.

Definition probe_timeout (d : LossDetector) : Duration :=
  dur_sat_mul (rtt_probe_timeout (rtt d)) (Z.shiftl 1 (Z.min (silence d) MAX_PTO_BACKOFF)).

Definition migrated (d : LossDetector) : LossDetector :=
  d <| rtt := rtt_default |> <| silence := 0 |> <| silent_since := None |>
    <| answered := false |> <| largest_acked := None |> <| written_off := [] |>.

Definition admits (d : LossDetector) : bool := len (sent d) <? MAX_TRACKED.

Definition clear (d : LossDetector) : LossDetector :=
  d <| arrived := [] |> <| gone := [] |> <| persistent := false |> <| revived := false |>.

(** [while written_off.len() > 64 { pop_front }]. *)
Definition trim (l : list WrittenOff) : list WrittenOff := drop (length l - 64) l.

Definition retire (d : LossDetector) (p : InFlight) (cause : Cause) : LossDetector :=
  let d := if decide (cause = Lost) then d <| losses := losses d + 1 |> else d in
  let d := d <| written_off :=
                  trim (written_off d ++ [{| w_number := f_number p; w_cause := cause |}]) |> in
  d <| gone := gone d ++ [{| g_number := f_number p; g_bytes := f_bytes p;
                             g_sent := f_sent p; g_cause := cause |}] |>.

(** The loop of [sealed]: the oldest leave while the table holds more than its bound. *)
Fixpoint overflow (queue : list InFlight) (d : LossDetector) : LossDetector :=
  match queue with
  | oldest :: rest =>
      if MAX_TRACKED <? len queue then overflow rest (retire d oldest Overflowed)
      else d <| sent := queue |>
  | [] => d <| sent := [] |>
  end.

Definition sealed (d : LossDetector) (packet : InFlight) : LossDetector :=
  let d := clear d in overflow (sent d ++ [packet]) d.

Definition covers (ack : Packet.AckBody) (number : Z) : bool :=
  if number =? Packet.largest ack then true
  else match checked_sub (Packet.largest ack) number with
       | None => false
       | Some behind =>
           (behind <=? 64) && negb (Z.land (Packet.map ack) (Z.shiftl 1 (behind - 1)) =? 0)
       end.

Definition arrival (p : InFlight) : Arrived :=
  {| a_number := f_number p; a_bytes := f_bytes p; a_sent := f_sent p; a_limited := f_limited p |}.

(** The backward walk of [acknowledged], from [index] down to [start]. *)
Fixpoint scan (ack : Packet.AckBody) (now : Instant) (start index : nat)
    (q : list InFlight) (arr : list Arrived) (smp : option Duration)
    : list InFlight * list Arrived * option Duration :=
  match index with
  | O => (q, arr, smp)
  | S i =>
      if (start <? index)%nat then
        match q !! i with
        | None => (q, arr, smp)
        | Some packet =>
            if covers ack (f_number packet) then
              scan ack now start i (delete i q) (arr ++ [arrival packet])
                (if f_number packet =? Packet.largest ack then Some (since now (f_sent packet)) else smp)
            else scan ack now start i q arr smp
        end
      else (q, arr, smp)
  end.

Fixpoint drop_below (floor : Z) (l : list WrittenOff) : list WrittenOff :=
  match l with
  | w :: r => if w_number w <? floor then drop_below floor r else l
  | [] => []
  end.

(** The second loop of [count_spurious]: what it keeps, how many it removed, and whether any
    of those had moved a window. *)
Fixpoint count_covered (ack : Packet.AckBody) (l : list WrittenOff) : list WrittenOff * Z * bool :=
  match l with
  | [] => ([], 0, false)
  | w :: r =>
      let '(kept, n, rev) := count_covered ack r in
      if covers ack (w_number w) then (kept, n + 1, rev || bool_decide (w_cause w ≠ Overflowed))
      else (w :: kept, n, rev)
  end.

Definition count_spurious (d : LossDetector) (ack : Packet.AckBody) : LossDetector :=
  let floor := sat_sub (Packet.largest ack) 64 in
  let '(kept, n, rev) := count_covered ack (drop_below floor (written_off d)) in
  d <| written_off := kept |> <| spurious := spurious d + n |> <| revived := revived d || rev |>.

(** The two tests [detect] makes of a packet, and the answer it gives. *)
Definition overtaken (largest : option Z) (p : InFlight) : bool :=
  match largest with Some l => f_number p + PACKET_THRESHOLD <=? l | None => false end.
Definition stale (largest : option Z) (now : Instant) (loss_delay : Duration) (p : InFlight) : bool :=
  match largest with Some l => f_number p <? l | None => false end &&
  (loss_delay <=? since now (f_sent p)).

(** What an expiry of the probe timer notes before the packet is retired. *)
Definition note_silence (d : LossDetector) (p : InFlight) : LossDetector :=
  let first := default (f_sent p) (silent_since d) in
  let d := d <| silent_since := Some first |> in
  if negb (answered d) && bool_decide (is_Some (rtt_smoothed (rtt d)))
     && (persistent_congestion_period (rtt d) <=? since (f_sent p) first)
  then d <| persistent := true |> <| answered := true |>
  else d.

Fixpoint detect_loop (now : Instant) (ld pt : Duration) (queue : list InFlight)
    (d : LossDetector) (abandoned : bool) : LossDetector * bool :=
  match queue with
  | [] => (d <| sent := [] |>, abandoned)
  | oldest :: rest =>
      let age := since now (f_sent oldest) in
      if overtaken (largest_acked d) oldest || stale (largest_acked d) now ld oldest then
        detect_loop now ld pt rest (retire d oldest Lost) abandoned
      else if pt <=? age then
        detect_loop now ld pt rest (retire (note_silence d oldest) oldest Silent) true
      else (d <| sent := queue |>, abandoned)
  end.

Definition detect (d : LossDetector) (now : Instant) : LossDetector :=
  let '(d, abandoned) := detect_loop now (loss_delay (rtt d)) (probe_timeout d) (sent d) d false in
  if abandoned then d <| silence := silence d + 1 |> else d.

Definition acknowledged (d : LossDetector) (ack : Packet.AckBody) (now : Instant)
    : option Duration * LossDetector :=
  let d := clear d in
  let d := d <| silence := 0 |> <| silent_since := None |> <| answered := false |> in
  let d := d <| largest_acked := Some (match largest_acked d with
                                       | None => Packet.largest ack
                                       | Some seen => Z.max seen (Packet.largest ack)
                                       end) |> in
  let end_ := partition_point (λ p, f_number p <=? Packet.largest ack) (sent d) in
  let floor := sat_sub (Packet.largest ack) 64 in
  let start := partition_point (λ p, f_number p <? floor) (sent d) in
  let '(q, arr, smp) := scan ack now start end_ (sent d) (arrived d) None in
  let d := d <| sent := q |> <| arrived := reverse arr |> in
  let d := count_spurious d ack in
  let d := match smp with
           | Some taken => d <| rtt := sample (rtt d) taken (Packet.delay ack) now |>
           | None => d
           end in
  (smp, detect d now).

Definition expire (d : LossDetector) (now : Instant) : LossDetector := detect (clear d) now.

Definition deadline (d : LossDetector) : option Instant :=
  match sent d with
  | [] => None
  | oldest :: _ =>
      let deadline := f_sent oldest + probe_timeout d in
      let newer := match largest_acked d with Some l => f_number oldest <? l | None => false end in
      Some (if newer then Z.min deadline (f_sent oldest + loss_delay (rtt d)) else deadline)
  end.

(** ** The scan *)

(** The flight ascends by number, and was sealed in that order. *)
Definition before (p q : InFlight) : Prop := f_number p < f_number q ∧ f_sent p ≤ f_sent q.
Definition ascending (q : list InFlight) : Prop := StronglySorted before q.
(** By number alone: the threads that drive an endpoint read the clock before they take its lock. *)
Definition numbered (q : list InFlight) : Prop := StronglySorted (λ p q, f_number p < f_number q) q.

Lemma ascending_numbered q : ascending q → numbered q.
Proof. induction 1 as [|p q _ IH Hp]; constructor; [done|]. eapply list.Forall_impl; [exact Hp|]. by intros x [? _]. Qed.

Abbreviation covered ack := (λ p : InFlight, covers ack (f_number p) = true).

Lemma covers_spec ack n :
  covers ack n = true ↔ n = Packet.largest ack ∨
    (1 ≤ Packet.largest ack - n ≤ 64 ∧ Z.testbit (Packet.map ack) (Packet.largest ack - n - 1) = true).
Proof.
  unfold covers, checked_sub. destruct (Z.eqb_spec n (Packet.largest ack)); [naive_solver|].
  destruct (Z.leb_spec n (Packet.largest ack)); [|split; [done|intros [?|?]; lia]].
  rewrite land_bit, andb_true_iff, Z.leb_le by lia.
  split; [intros [? ?]; right; split; [lia|done]|intros [?|[? ?]]; [lia|split; [lia|done]]].
Qed.

(** What the walk does to the middle of the flight, whatever lies around it. *)
Lemma scan_mid ack now pre mid post arr smp :
  scan ack now (length pre) (length pre + length mid) (pre ++ mid ++ post) arr smp =
  (pre ++ filter (λ p, ¬ covered ack p) mid ++ post,
   arr ++ reverse (arrival <$> filter (covered ack) mid),
   match filter (λ p, f_number p = Packet.largest ack) mid with
   | p :: _ => Some (since now (f_sent p))
   | [] => smp
   end).
Proof.
  revert post arr smp; induction mid as [|x mid IH] using rev_ind; intros post arr smp.
  { rewrite Nat.add_0_r. simpl. rewrite app_nil_r.
    destruct (length pre) as [|n] eqn:E; simpl; [done|].
    destruct (Nat.ltb_spec (S n) (S n)); [lia|done]. }
  rewrite length_app; simpl. rewrite Nat.add_assoc, Nat.add_1_r. simpl.
  destruct (Nat.ltb_spec (length pre) (S (length pre + length mid))); [|lia].
  assert ((pre ++ (mid ++ [x]) ++ post) !! (length pre + length mid)%nat = Some x) as ->.
  { rewrite <- app_assoc, app_assoc, <- length_app. simpl. by rewrite list_lookup_middle. }
  rewrite !filter_app. destruct (covers ack (f_number x)) eqn:Ec.
  - assert (delete (length pre + length mid)%nat (pre ++ (mid ++ [x]) ++ post) = pre ++ mid ++ post) as ->.
    { rewrite <- app_assoc, app_assoc, <- length_app. simpl. rewrite delete_middle, app_assoc. done. }
    rewrite IH. rewrite (filter_cons_True (covered ack)), (filter_cons_False (λ p, ¬ covered ack p)) by naive_solver.
    rewrite fmap_app, reverse_app, !filter_nil, app_nil_r. simpl. f_equal; [f_equal|].
    + by rewrite <- app_assoc.
    + destruct (Z.eqb_spec (f_number x) (Packet.largest ack)) as [He|Hne].
      * rewrite (filter_cons_True (λ p, f_number p = _)) by done.
        by destruct (filter (λ p, f_number p = Packet.largest ack) mid).
      * rewrite (filter_cons_False (λ p, f_number p = _)) by done.
        rewrite filter_nil, app_nil_r. done.
  - rewrite <- app_assoc. simpl. rewrite IH.
    rewrite (filter_cons_False (covered ack)) by (rewrite Ec; done).
    rewrite (filter_cons_True (λ p, ¬ covered ack p)) by (rewrite Ec; done).
    rewrite (filter_cons_False (λ p, f_number p = _)).
    2:{ intros He. assert (covers ack (f_number x) = true) by (apply covers_spec; auto). congruence. }
    rewrite !filter_nil, !app_nil_r, <- app_assoc. done.
Qed.

(** The bounds [covers] justifies: the scan of the middle is the scan of the whole flight. *)
Lemma scan_whole ack now q arr smp :
  numbered q → Forall (λ p, 0 ≤ f_number p) q → 0 ≤ Packet.largest ack →
  scan ack now (partition_point (λ p, f_number p <? sat_sub (Packet.largest ack) 64) q)
    (partition_point (λ p, f_number p <=? Packet.largest ack) q) q arr smp =
  (filter (λ p, ¬ covered ack p) q,
   arr ++ reverse (arrival <$> filter (covered ack) q),
   match filter (λ p, f_number p = Packet.largest ack) q with
   | p :: _ => Some (since now (f_sent p))
   | [] => smp
   end).
Proof.
  intros Hq Hnn Hl0. set (pf := λ p, f_number p <? sat_sub (Packet.largest ack) 64).
  set (pl := λ p, f_number p <=? Packet.largest ack).
  set (start := partition_point pf q). set (end_ := partition_point pl q).
  assert (∀ p, covered ack p → pl p = true) as Hpl.
  { intros p Hc%covers_spec. unfold pl. apply Z.leb_le. lia. }
  assert (start ≤ end_)%nat as Hse.
  { apply partition_point_mono. intros p Hp. unfold pf, pl in *. zbool. apply Z.leb_le. slia. }
  assert (end_ ≤ length q)%nat as Hel by apply partition_point_le.
  pose proof (partition_point_take pf q) as Hpre. fold start in Hpre.
  pose proof (partition_point_drop _ pl q Hq) as Hpost. fold end_ in Hpost.
  assert (Forall (λ p, pl p = false) (drop end_ q)) as Hpost'.
  { apply Hpost. intros x y Hxy Hy. unfold pl in *. zbool. apply Z.leb_le. lia. }
  set (pre := take start q) in *. set (post := drop end_ q) in *.
  set (mid := take (end_ - start) (drop start q)).
  assert (q = pre ++ mid ++ post) as Hsplit.
  { unfold pre, mid, post. rewrite <- (take_drop start q) at 1. f_equal.
    rewrite <- (take_drop (end_ - start) (drop start q)) at 1. f_equal.
    rewrite drop_drop. f_equal. lia. }
  assert (length pre = start) as Hlp by (unfold pre; rewrite length_take; lia).
  assert (start + length mid = end_)%nat as Hlm.
  { unfold mid. rewrite length_take, length_drop. lia. }
  assert (Forall (λ p, ¬ covered ack p) pre) as Hnpre.
  { assert (Forall (λ p, 0 ≤ f_number p) pre) as Hn by (by apply Forall_take).
    clear -Hpre Hn. apply Forall_forall. intros p Hp Hc%covers_spec.
    rewrite Forall_forall in Hpre, Hn. specialize (Hpre p Hp). specialize (Hn p Hp).
    unfold pf in Hpre. zbool. slia. }
  assert (Forall (λ p, ¬ covered ack p) post) as Hnpost.
  { apply Forall_forall. intros p Hp Hc%Hpl. rewrite Forall_forall in Hpost'.
    specialize (Hpost' p Hp). congruence. }
  clearbody pre mid post. rewrite <- Hlp. replace end_ with (length pre + length mid)%nat by lia.
  subst q. rewrite scan_mid, !filter_app.
  assert (∀ l, Forall (λ p, ¬ covered ack p) l → filter (λ p, f_number p = Packet.largest ack) l = []) as Hl.
  { intros l Hf. apply filter_false. eapply list.Forall_impl; [exact Hf|]. intros p Hp He. apply Hp, covers_spec; auto. }
  rewrite (filter_true (λ p, ¬ covered ack p) pre), (filter_true (λ p, ¬ covered ack p) post) by done.
  rewrite (filter_false (covered ack) pre), (filter_false (covered ack) post) by done.
  by rewrite (Hl pre), (Hl post), !app_nil_r.
Qed.

(** ** Detection *)

Definition lost_rule (largest : option Z) (now : Instant) (ld : Duration) (p : InFlight) : bool :=
  overtaken largest p || stale largest now ld p.
Definition doomed (largest : option Z) (now : Instant) (ld pt : Duration) (p : InFlight) : bool :=
  lost_rule largest now ld p || (pt <=? since now (f_sent p)).

Definition write_off (largest : option Z) (now : Instant) (ld : Duration) (p : InFlight) : Gone :=
  {| g_number := f_number p; g_bytes := f_bytes p; g_sent := f_sent p;
     g_cause := if lost_rule largest now ld p then Lost else Silent |}.

(** Both tests are monotone, so the doomed are a prefix of the flight. *)
Lemma doomed_mono largest now ld pt p q :
  before p q → doomed largest now ld pt q = true → doomed largest now ld pt p = true.
Proof.
  intros [Hn Hs]. unfold doomed, lost_rule, overtaken, stale.
  rewrite !orb_true_iff, !andb_true_iff, !Z.leb_le. destruct largest as [l|].
  - rewrite !Z.leb_le, !Z.ltb_lt. intros [[?|[? ?]]|?]; slia.
  - intros [[?|[? ?]]|?]; [done|done|slia].
Qed.

(** What the loop leaves alone. *)
Definition same_path (d d' : LossDetector) : Prop :=
  rtt d' = rtt d ∧ largest_acked d' = largest_acked d ∧ arrived d' = arrived d ∧ silence d' = silence d ∧
  revived d' = revived d ∧ spurious d' = spurious d.

Lemma retire_spec d p c :
  same_path d (retire d p c) ∧ sent (retire d p c) = sent d ∧
  gone (retire d p c) = gone d ++ [{| g_number := f_number p; g_bytes := f_bytes p; g_sent := f_sent p; g_cause := c |}] ∧
  (length (written_off (retire d p c)) ≤ 64)%nat.
Proof.
  unfold retire. split_and!; try (by case_decide).
  simpl. unfold trim. rewrite length_drop. lia.
Qed.

Lemma note_silence_spec d p :
  same_path d (note_silence d p) ∧ sent (note_silence d p) = sent d ∧
  gone (note_silence d p) = gone d ∧ written_off (note_silence d p) = written_off d.
Proof. unfold note_silence. by case_match. Qed.

Lemma same_path_trans d1 d2 d3 : same_path d1 d2 → same_path d2 d3 → same_path d1 d3.
Proof. unfold same_path. naive_solver congruence. Qed.

Lemma detect_loop_spec now ld pt q d ab :
  ascending q →
  let dm p := doomed (largest_acked d) now ld pt p = true in
  let '(d', ab') := detect_loop now ld pt q d ab in
  same_path d d' ∧ sent d' = filter (λ p, ¬ dm p) q ∧
  gone d' = gone d ++ (write_off (largest_acked d) now ld <$> filter dm q) ∧
  ((length (written_off d) ≤ 64)%nat → (length (written_off d') ≤ 64)%nat) ∧
  ab' = ab || existsb (λ p, negb (lost_rule (largest_acked d) now ld p)) (filter dm q).
Proof.
  intros Hq; revert d ab; induction Hq as [|p q Hq IH Hp]; intros d ab; simpl.
  { rewrite app_nil_r, orb_false_r. done. }
  assert (∀ d1 ab1 c, same_path d d1 → gone d1 = gone d →
    ab1 = ab || negb (lost_rule (largest_acked d) now ld p) →
    (c = if lost_rule (largest_acked d) now ld p then Lost else Silent) →
    doomed (largest_acked d) now ld pt p = true →
    let '(d', ab') := detect_loop now ld pt q (retire d1 p c) ab1 in
    same_path d d' ∧ sent d' = filter (λ p, ¬ doomed (largest_acked d) now ld pt p = true) (p :: q) ∧
    gone d' = gone d ++ (write_off (largest_acked d) now ld <$> filter (λ p, doomed (largest_acked d) now ld pt p = true) (p :: q)) ∧
    ((length (written_off d) ≤ 64)%nat → (length (written_off d') ≤ 64)%nat) ∧
    ab' = ab || existsb (λ p, negb (lost_rule (largest_acked d) now ld p))
                  (filter (λ p, doomed (largest_acked d) now ld pt p = true) (p :: q))) as Hstep.
  { intros d1 ab1 c Hd1 Hg1 Hab1 Hc Hdoom. destruct (retire_spec d1 p c) as (Hsp & Hs & Hg & Hw).
    pose proof (same_path_trans _ _ _ Hd1 Hsp) as Hsp'. pose proof Hsp' as (_ & Hla & _).
    specialize (IH (retire d1 p c) ab1). cbv zeta in IH.
    destruct (detect_loop now ld pt q (retire d1 p c) ab1) as [d' ab'].
    destruct IH as (H1 & H2 & H3 & H4 & H5). rewrite Hla in H2, H3, H5. split_and!.
    - by eapply same_path_trans.
    - by rewrite filter_cons_False by (rewrite Hdoom; tauto).
    - rewrite filter_cons_True by done. rewrite H3, Hg, Hg1, <- app_assoc. simpl.
      unfold write_off at 2. by rewrite Hc.
    - auto.
    - rewrite filter_cons_True by done. simpl. by rewrite H5, Hab1, orb_assoc. }
  fold (lost_rule (largest_acked d) now ld p).
  destruct (lost_rule (largest_acked d) now ld p) eqn:El.
  { apply (Hstep d ab Lost); try done; [by rewrite orb_false_r|]. unfold doomed. by rewrite El. }
  destruct (pt <=? since now (f_sent p)) eqn:Et.
  { destruct (note_silence_spec d p) as (Hn1 & _ & Hn3 & _).
    apply Hstep; try done; [by rewrite orb_true_r|]. unfold doomed. by rewrite El, Et. }
  assert (Forall (λ x, ¬ doomed (largest_acked d) now ld pt x = true) (p :: q)) as Hnone.
  { assert (doomed (largest_acked d) now ld pt p = false) as Hpf.
    { unfold doomed. by rewrite El, Et. }
    constructor; [by rewrite Hpf|]. eapply list.Forall_impl; [exact Hp|].
    intros x Hx Hd. rewrite (doomed_mono _ _ _ _ _ _ Hx Hd) in Hpf. done. }
  split_and!; simpl; try done.
  - symmetry. by apply filter_true.
  - rewrite filter_false; [by rewrite app_nil_r|done].
  - rewrite filter_false by done. by rewrite orb_false_r.
Qed.

(** Whatever the instants: a front of the flight goes, up to the first packet that is not doomed. *)
Lemma detect_loop_front now ld pt q d ab :
  let '(d', ab') := detect_loop now ld pt q d ab in
  ∃ k, same_path d d' ∧ sent d' = drop k q ∧ Forall (λ p, doomed (largest_acked d) now ld pt p = true) (take k q) ∧
    Forall (λ p, doomed (largest_acked d) now ld pt p = false) (option_list (head (drop k q))) ∧
    gone d' = gone d ++ (write_off (largest_acked d) now ld <$> take k q) ∧
    ((length (written_off d) ≤ 64)%nat → (length (written_off d') ≤ 64)%nat).
Proof.
  revert d ab; induction q as [|p q IH]; intros d ab; simpl; [exists O; simpl; rewrite app_nil_r; done|].
  fold (lost_rule (largest_acked d) now ld p).
  destruct (lost_rule (largest_acked d) now ld p) eqn:El; [|destruct (pt <=? since now (f_sent p)) eqn:Et].
  1: pose proof (retire_spec d p Lost) as (Hsp & _ & Hg & Hw); specialize (IH (retire d p Lost) ab).
  2: pose proof (retire_spec (note_silence d p) p Silent) as (Hsp & _ & Hg & Hw); destruct (note_silence_spec d p) as (Hn & _ & Hng & _);
    rewrite Hng in Hg; apply (same_path_trans _ _ _ Hn) in Hsp; specialize (IH (retire (note_silence d p) p Silent) true).
  1,2: destruct (detect_loop _ _ _ q _ _) as [d' ab']; destruct IH as (k & H1 & H2 & H3 & H4 & H5 & H6); pose proof Hsp as (_ & Hla & _);
    rewrite Hla in *; exists (S k); split; [by eapply same_path_trans|]; split; [done|]; split; [constructor; [|done]; unfold doomed; by rewrite El, ?Et|]; split; [done|];
    split; [|auto]; rewrite H5, Hg, <- app_assoc; simpl; unfold write_off at 2; by rewrite El.
  exists O. simpl. rewrite app_nil_r. split_and!; try done. constructor; [|done]. unfold doomed. by rewrite El, Et.
Qed.

(** [detect] in one step: the doomed go, in order, and the probe count rises when the timer,
    rather than the two loss rules, gave up any of them. *)
Definition doomed_in (d : LossDetector) (now : Instant) (p : InFlight) : Prop :=
  doomed (largest_acked d) now (loss_delay (rtt d)) (probe_timeout d) p = true.
#[export] Instance doomed_in_dec d now p : Decision (doomed_in d now p).
Proof. unfold doomed_in. apply _. Defined.

Lemma detect_spec d now :
  ascending (sent d) → let d' := detect d now in
  rtt d' = rtt d ∧ largest_acked d' = largest_acked d ∧ arrived d' = arrived d ∧
  revived d' = revived d ∧ spurious d' = spurious d ∧
  sent d' = filter (λ p, ¬ doomed_in d now p) (sent d) ∧
  gone d' = gone d ++ (write_off (largest_acked d) now (loss_delay (rtt d)) <$> filter (doomed_in d now) (sent d)) ∧
  ((length (written_off d) ≤ 64)%nat → (length (written_off d') ≤ 64)%nat) ∧
  silence d' = silence d +
    (if existsb (λ p, negb (lost_rule (largest_acked d) now (loss_delay (rtt d)) p))
          (filter (doomed_in d now) (sent d)) then 1 else 0).
Proof.
  intros Hq. unfold detect, doomed_in. simpl.
  pose proof (detect_loop_spec now (loss_delay (rtt d)) (probe_timeout d) (sent d) d false Hq) as H.
  destruct (detect_loop _ _ _ _ d false) as [d' ab]. cbv zeta in H.
  destruct H as ((? & ? & ? & Hs & ? & ?) & ? & ? & ? & ->). simpl.
  destruct (existsb _ _); simpl; split_and!; try done; rewrite Hs; lia.
Qed.

(** The same whatever the instants. *)
Lemma detect_front d now :
  let d' := detect d now in ∃ k,
  rtt d' = rtt d ∧ largest_acked d' = largest_acked d ∧ arrived d' = arrived d ∧
  sent d' = drop k (sent d) ∧ Forall (doomed_in d now) (take k (sent d)) ∧
  Forall (λ p, ¬ doomed_in d now p) (option_list (head (drop k (sent d)))) ∧
  gone d' = gone d ++ (write_off (largest_acked d) now (loss_delay (rtt d)) <$> take k (sent d)) ∧
  ((length (written_off d) ≤ 64)%nat → (length (written_off d') ≤ 64)%nat) ∧ silence d ≤ silence d'.
Proof.
  unfold detect, doomed_in. pose proof (detect_loop_front now (loss_delay (rtt d)) (probe_timeout d) (sent d) d false) as H.
  destruct (detect_loop _ _ _ _ d false) as [d' ab]. destruct H as (k & (? & ? & ? & Hs & _) & ? & ? & Hh & ? & ?). exists k.
  assert (Forall (λ p, ¬ doomed (largest_acked d) now (loss_delay (rtt d)) (probe_timeout d) p = true) (option_list (head (drop k (sent d))))).
  { eapply list.Forall_impl; [exact Hh|]. simpl. intros p ->. done. }
  destruct ab; simpl; split_and!; try done; lia.
Qed.

(** ** The estimator *)

Record rtt_wf (lo hi : Z) (r : Rtt) : Prop := {
  wf_smoothed : ∀ s, smoothed r = Some s → lo ≤ s ≤ hi;
  wf_latest : 0 ≤ latest_adjusted r ≤ hi;
  wf_var : 0 ≤ var r ≤ hi;
  wf_min : ∀ m t, min_adjusted r = Some (m, t) → lo ≤ m ≤ hi
}.

Definition adjusted (taken delay : Duration) : Z := Z.max (sat_sub (micros taken) (micros delay)) 1.

Lemma rtt_default_wf lo hi : 0 ≤ hi → rtt_wf lo hi rtt_default.
Proof. intros. split; simpl; (done || lia). Qed.

Lemma sample_wf lo hi r taken delay now :
  0 ≤ lo → lo ≤ adjusted taken delay ≤ hi → rtt_wf lo hi r → rtt_wf lo hi (sample r taken delay now).
Proof.
  intros Hlo Ha [Hs Hl Hv Hm]. destruct r as [sm v la mi]. unfold sample. fold (adjusted taken delay).
  set (a := adjusted taken delay) in *. clearbody a. simpl in *.
  set (rep := match mi with None => _ | _ => _ end). clearbody rep.
  destruct rep, sm as [s|]; simpl; (try specialize (Hs s eq_refl)); split; simpl; intros; simplify_eq;
    solve [lia | dlia | eauto].
Qed.

(** ** Reachable detectors *)

Inductive event :=
| Seal (p : InFlight)
| Ack (ack : Packet.AckBody) (now : Instant)
| Expire (now : Instant)
| Migrate.

Definition step (d : LossDetector) (e : event) : LossDetector :=
  match e with
  | Seal p => sealed d p
  | Ack ack now => (acknowledged d ack now).2
  | Expire now => expire d now
  | Migrate => migrated d
  end.

(** The endpoint seals under ascending numbers at ascending instants, and admits only
    acknowledgements of numbers it has sealed ([checked]). *)
Inductive reachable : Z → Instant → LossDetector → Prop :=
| reach_new t : reachable 0 t new
| reach_seal n t d p : reachable n t d → n ≤ f_number p → t ≤ f_sent p →
    reachable (f_number p + 1) (f_sent p) (step d (Seal p))
| reach_ack n t d ack now : reachable n t d → t ≤ now →
    0 ≤ Packet.largest ack ∧ 0 ≤ Packet.delay ack → checked ack n = Some ack → reachable n now (step d (Ack ack now))
| reach_expire n t d now : reachable n t d → t ≤ now → reachable n now (step d (Expire now))
| reach_migrate n t d : reachable n t d → reachable n t (step d Migrate).

Record sound (n : Z) (d : LossDetector) : Prop := {
  inv_numbered : numbered (sent d);
  inv_below : Forall (λ p, 0 ≤ f_number p < n) (sent d);
  inv_bounded : len (sent d) ≤ MAX_TRACKED;
  inv_written : (length (written_off d) ≤ 64)%nat;
  inv_largest : ∀ l, largest_acked d = Some l → l < n;
  inv_rtt : rtt_wf 1 U64_MAX (rtt d);
  inv_silence : 0 ≤ silence d;
  inv_next : 0 ≤ n
}.
(** And the instants in order. *)
Definition timed (t : Instant) (d : LossDetector) : Prop := ascending (sent d) ∧ Forall (λ p, f_sent p ≤ t) (sent d).

(** Between operations nothing in flight is already overtaken. *)
Definition standing (d : LossDetector) : Prop :=
  Forall (λ p, overtaken (largest_acked d) p = false) (sent d).

Lemma adjusted_bound taken delay : 0 ≤ delay → 1 ≤ adjusted taken delay ≤ U64_MAX.
Proof.
  intros. unfold adjusted, micros, as_micros. assert (0 ≤ delay / 1000) by dlia.
  generalize dependent (delay / 1000). generalize (taken / 1000). intros. slia.
Qed.

Lemma loss_delay_pos r : MIN_LOSS_DELAY ≤ loss_delay r.
Proof. unfold loss_delay. lia. Qed.

Lemma probe_timeout_pos d : rtt_wf 1 U64_MAX (rtt d) → 0 ≤ silence d → 0 < probe_timeout d.
Proof.
  intros [Hs _ [Hv _] _] H0. unfold probe_timeout, dur_sat_mul.
  assert (0 < rtt_probe_timeout (rtt d)).
  { unfold rtt_probe_timeout, MAX_ACK_DELAY, TIMER_GRANULARITY. destruct (smoothed (rtt d)) as [s|]; simpl.
    - specialize (Hs s eq_refl). slia.
    - unfold micros, as_micros, INITIAL_RTT. assert (0 ≤ from_millis 333 / 1000) by dlia. slia. }
  assert (0 < Z.shiftl 1 (Z.min (silence d) MAX_PTO_BACKOFF)).
  { rewrite Z.shiftl_1_l. apply Z.pow_pos_nonneg; unfold MAX_PTO_BACKOFF; lia. }
  assert (0 < DURATION_MAX) by (vm_compute; done). nia.
Qed.

Lemma ascending_filter P `{∀ p : InFlight, Decision (P p)} q : ascending q → ascending (filter P q).
Proof. apply StronglySorted_filter. Qed.

Lemma Forall_filter_keep {A} (Q P : A → Prop) `{∀ x, Decision (P x)} l : Forall Q l → Forall Q (filter P l).
Proof.
  rewrite !Forall_forall. intros Hq x Hx. apply list_elem_of_filter in Hx as [_ Hx]. auto.
Qed.

Lemma numbered_drop k q : numbered q → numbered (drop k q).
Proof. revert q; induction k as [|k IH]; intros q Hq; [done|]. destruct Hq; [constructor|]. by apply IH. Qed.

Lemma standing_head largest q : numbered q → Forall (λ p, overtaken largest p = false) (option_list (head q)) → Forall (λ p, overtaken largest p = false) q.
Proof.
  intros Hq Hh. destruct Hq as [|p q _ Hp]; [done|]. inversion Hh as [|? ? Ho _]; subst. constructor; [done|]. eapply list.Forall_impl; [exact Hp|]. simpl.
  intros x Hx. unfold overtaken in *. destruct largest as [l|]; [|done]. zbool. apply Z.leb_gt. lia.
Qed.

Lemma detect_sound n d now : sound n d → sound n (detect d now) ∧ standing (detect d now).
Proof.
  intros [Ha Hb Hbd Hw Hl Hr Hs Hn]. destruct (detect_front d now) as (k & Er & El & _ & Es & _ & Hh & _ & Hwo & Esil).
  split; [split|]; rewrite ?Es, ?El, ?Er; try done; try lia; auto.
  - by apply numbered_drop.
  - by apply Forall_drop.
  - rewrite length_drop. lia.
  - unfold standing. rewrite Es, El. apply standing_head; [by apply numbered_drop|]. eapply list.Forall_impl; [exact Hh|]. simpl.
    intros p Hp. destruct (overtaken _ p) eqn:E; [|done]. contradict Hp. unfold doomed_in, doomed, lost_rule. by rewrite E.
Qed.

Lemma clear_sound n d : sound n d → sound n (clear d).
Proof. by intros []. Qed.

Lemma detect_timed t d now : timed t d → t ≤ now → timed now (detect d now).
Proof.
  intros [Ha Ht] Hnow. destruct (detect_spec d now Ha) as (_ & _ & _ & _ & _ & Es & _). unfold timed. rewrite Es.
  split; [by apply ascending_filter|]. apply Forall_filter_keep. eapply list.Forall_impl; [exact Ht|]. simpl. lia.
Qed.

(** What an overflowing flight sheds. *)
Lemma overflow_spec q d :
  let k := (length q - 4096)%nat in let d' := overflow q d in
  same_path d d' ∧ sent d' = drop k q ∧
  gone d' = gone d ++ ((λ p, {| g_number := f_number p; g_bytes := f_bytes p;
                               g_sent := f_sent p; g_cause := Overflowed |}) <$> take k q) ∧
  ((length (written_off d) ≤ 64)%nat → (length (written_off d') ≤ 64)%nat).
Proof.
  revert d; induction q as [|p q IH]; intros d; [by simpl; rewrite app_nil_r|].
  cbv zeta. replace (overflow (p :: q) d) with
    (if 4096 <? len (p :: q) then overflow q (retire d p Overflowed) else d <| sent := p :: q |>) by done.
  destruct (Z.ltb_spec 4096 (len (p :: q))) as [Hlt|Hge].
  - destruct (retire_spec d p Overflowed) as (Hsp & _ & Hg & Hw).
    destruct (IH (retire d p Overflowed)) as (H1 & H2 & H3 & H4).
    simpl in Hlt. replace (length (p :: q) - 4096)%nat with (S (length q - 4096)) by (simpl; lia).
    split; [exact (same_path_trans _ _ _ Hsp H1)|]. split; [exact H2|]. split; [|auto].
    rewrite H3, Hg, <- app_assoc. done.
  - replace (length (p :: q) - 4096)%nat with O by lia. rewrite take_0, drop_0. simpl.
    by rewrite app_nil_r.
Qed.

Lemma ascending_snoc q p : ascending q → Forall (λ x, before x p) q → ascending (q ++ [p]).
Proof.
  intros Hq. induction Hq as [|x q Hq IH Hx]; intros Hall; simpl; [repeat constructor|].
  apply list.Forall_cons in Hall as [Hxp Hall]. constructor; [by apply IH|].
  apply Forall_app. split; [done|by constructor].
Qed.

Lemma ascending_drop k q : ascending q → ascending (drop k q).
Proof.
  revert q; induction k as [|k IH]; intros q Hq; [done|]. destruct Hq; [constructor|]. by apply IH.
Qed.

Lemma overtaken_fresh l n p : l < n → n ≤ f_number p → overtaken (Some l) p = false.
Proof. intros. unfold overtaken, PACKET_THRESHOLD. apply Z.leb_gt. lia. Qed.

Lemma numbered_snoc q p : numbered q → Forall (λ x, f_number x < f_number p) q → numbered (q ++ [p]).
Proof.
  intros Hq. induction Hq as [|x q Hq IH Hx]; intros Hall; simpl; [repeat constructor|].
  apply list.Forall_cons in Hall as [Hxp Hall]. constructor; [by apply IH|]. apply Forall_app. split; [done|by constructor].
Qed.

Lemma seal_sound n d p :
  sound n d → standing d → n ≤ f_number p → sound (f_number p + 1) (sealed d p) ∧ standing (sealed d p).
Proof.
  intros [Ha Hb Hbd Hw Hl Hr Hs Hn] Hst Hp. unfold sealed.
  destruct (overflow_spec (sent (clear d) ++ [p]) (clear d)) as (Hsp & Es & _ & Hwo).
  destruct Hsp as (Er & El & _ & Esil & _). simpl in *.
  assert (numbered (sent d ++ [p])) as Ha'.
  { apply numbered_snoc; [done|]. eapply list.Forall_impl; [exact Hb|]. simpl. lia. }
  split; [split|].
  - rewrite Es. by apply numbered_drop.
  - rewrite Es. apply Forall_drop, Forall_app. split; [|constructor; [lia|constructor]].
    eapply list.Forall_impl; [exact Hb|]. simpl. lia.
  - rewrite Es, length_drop. unfold MAX_TRACKED. lia.
  - auto.
  - rewrite El. intros l Hll. specialize (Hl l Hll). lia.
  - by rewrite Er.
  - by rewrite Esil.
  - lia.
  - unfold standing. rewrite Es, El. apply Forall_drop, Forall_app. split; [done|].
    constructor; [|constructor]. destruct (largest_acked d) as [l|] eqn:E; [|done].
    apply (overtaken_fresh l n); auto.
Qed.

Lemma seal_timed n t d p : sound n d → timed t d → n ≤ f_number p → t ≤ f_sent p → timed (f_sent p) (sealed d p).
Proof.
  intros [_ Hb _ _ _ _ _ _] [Ha Ht] Hn Hs. unfold sealed, timed. destruct (overflow_spec (sent (clear d) ++ [p]) (clear d)) as (_ & -> & _ & _). simpl.
  assert (Forall (λ x, before x p ∧ f_sent x ≤ f_sent p) (sent d)) as Hall.
  { apply Forall_forall. intros x Hx. rewrite Forall_forall in Hb, Ht. specialize (Hb x Hx). specialize (Ht x Hx). unfold before. simpl in *. lia. }
  apply Forall_and in Hall as [H1 H2]. split; [by apply ascending_drop, ascending_snoc|]. apply Forall_drop, Forall_app. split; [done|by repeat constructor].
Qed.

(** What an acknowledgement finds in the flight, before detection runs. *)
Definition sample_of (q : list InFlight) (ack : Packet.AckBody) (now : Instant) : option Duration :=
  match filter (λ p, f_number p = Packet.largest ack) q with
  | p :: _ => Some (since now (f_sent p))
  | [] => None
  end.
Definition sampled (r : Rtt) (q : list InFlight) (ack : Packet.AckBody) (now : Instant) : Rtt :=
  match sample_of q ack now with
  | Some taken => sample r taken (Packet.delay ack) now
  | None => r
  end.
Definition highest (l : option Z) (ack : Packet.AckBody) : Z :=
  match l with None => Packet.largest ack | Some seen => Z.max seen (Packet.largest ack) end.

Lemma drop_below_length f l : (length (drop_below f l) ≤ length l)%nat.
Proof. induction l as [|w l IH]; simpl; [lia|]. case_match; simpl; lia. Qed.

Lemma count_covered_length ack l : (length (count_covered ack l).1.1 ≤ length l)%nat.
Proof.
  induction l as [|w l IH]; simpl; [lia|]. destruct (count_covered ack l) as [[kept k] rev].
  simpl in *. case_match; simpl; lia.
Qed.

Lemma count_spurious_spec d ack :
  let d' := count_spurious d ack in
  sent d' = sent d ∧ rtt d' = rtt d ∧ largest_acked d' = largest_acked d ∧ arrived d' = arrived d ∧
  gone d' = gone d ∧ silence d' = silence d ∧ (length (written_off d') ≤ length (written_off d))%nat.
Proof.
  unfold count_spurious.
  pose proof (count_covered_length ack (drop_below (sat_sub (Packet.largest ack) 64) (written_off d))) as H.
  pose proof (drop_below_length (sat_sub (Packet.largest ack) 64) (written_off d)) as H'.
  destruct (count_covered _ _) as [[kept k] rev]. simpl in *. split_and!; (done || lia).
Qed.

Lemma acknowledged_spec n d ack now :
  sound n d → 0 ≤ Packet.largest ack ∧ 0 ≤ Packet.delay ack → checked ack n = Some ack →
  ∃ d1, acknowledged d ack now = (sample_of (sent d) ack now, detect d1 now) ∧ sound n d1 ∧
    sent d1 = filter (λ p, ¬ covered ack p) (sent d) ∧
    arrived d1 = arrival <$> filter (covered ack) (sent d) ∧ gone d1 = [] ∧ silence d1 = 0 ∧
    largest_acked d1 = Some (highest (largest_acked d) ack) ∧
    rtt d1 = sampled (rtt d) (sent d) ack now.
Proof.
  intros [Ha Hb Hbd Hw Hl Hr Hs Hn] [Hl0 Hd0] Hc. unfold acknowledged. simpl.
  rewrite scan_whole by (done || (eapply list.Forall_impl; [exact Hb|]; simpl; lia)).
  simpl. rewrite reverse_involutive. fold (sample_of (sent d) ack now).
  match goal with |- context [count_spurious ?x ack] =>
    destruct (count_spurious_spec x ack) as (E1 & E2 & E3 & E4 & E5 & E6 & E7); set (dc := count_spurious x ack) in * end.
  clearbody dc. simpl in *.
  set (d1 := match sample_of (sent d) ack now with Some _ => _ | None => dc end). exists d1.
  assert (sent d1 = sent dc ∧ arrived d1 = arrived dc ∧ gone d1 = gone dc ∧ silence d1 = silence dc ∧
    largest_acked d1 = largest_acked dc ∧ written_off d1 = written_off dc ∧
    rtt d1 = sampled (rtt d) (sent d) ack now) as (F1 & F2 & F3 & F4 & F5 & F6 & F7).
  { unfold d1, sampled. destruct (sample_of (sent d) ack now); simpl; rewrite ?E2; split_and!; done. }
  clearbody d1. rewrite F1, F2, F3, F4, F5, E1, E3, E4, E5, E6. split; [done|]. split; [|split_and!; try done].
  split; rewrite ?F1, ?F5, ?F6, ?F7, ?F4, ?E1, ?E3, ?E6.
  - by apply StronglySorted_filter.
  - by apply Forall_filter_keep.
  - pose proof (length_filter (λ p, ¬ covered ack p) (sent d)). lia.
  - lia.
  - intros l [= <-]. unfold checked in Hc. destruct (Z.ltb_spec (Packet.largest ack) n); [|done].
    destruct (largest_acked d) as [seen|] eqn:Es; simpl; [specialize (Hl seen eq_refl)|]; lia.
  - unfold sampled. destruct (sample_of _ _ _); [|done]. apply sample_wf; [lia| |done]. by apply adjusted_bound.
  - lia.
  - done.
Qed.

Lemma filter_timed t d d1 (P : InFlight → Prop) `{∀ p, Decision (P p)} : timed t d → sent d1 = filter P (sent d) → timed t d1.
Proof. intros [Ha Ht] Es. unfold timed. rewrite Es. split; [by apply ascending_filter|by apply Forall_filter_keep]. Qed.

Lemma timed_later t t' d : timed t d → t ≤ t' → timed t' d.
Proof. intros [Ha Ht] Hle. split; [done|]. eapply list.Forall_impl; [exact Ht|]. simpl. lia. Qed.

Lemma migrated_sound n d : sound n d → sound n (migrated d) ∧ standing (migrated d).
Proof.
  intros [Ha Hb Hbd Hw Hl Hr Hs Hn]. split.
  - split; simpl; first [done | lia | apply rtt_default_wf; lia].
  - unfold standing. simpl. by apply Forall_forall.
Qed.

Lemma new_sound : sound 0 new ∧ standing new.
Proof. split; [|constructor]. split; simpl; first [done | lia | apply rtt_default_wf; lia | constructor]. Qed.

Lemma reachable_inv n t d : reachable n t d → sound n d ∧ standing d ∧ timed t d.
Proof.
  induction 1 as [t|n t d p _ (IH & Hst & Hti) Hp Ht|n t d ack now _ (IH & Hst & Hti) Ht Hack Hc|n t d now _ (IH & Hst & Hti) Ht|n t d _ (IH & Hst & Hti)].
  - split_and!; [apply new_sound..|]. split; constructor.
  - destruct (seal_sound n d p) as [? ?]; try done. split_and!; [done..|]. by apply (seal_timed n t).
  - destruct (acknowledged_spec n d ack now) as (d1 & E & Hb1 & Es & _); try done. simpl. rewrite E.
    destruct (detect_sound n d1 now Hb1) as [? ?]. split_and!; [done..|]. eapply detect_timed; [by eapply filter_timed|done].
  - destruct (detect_sound n (clear d) now) as [? ?]; [by apply clear_sound|]. split_and!; [done..|]. by apply (detect_timed t).
  - destruct (migrated_sound n d IH) as [? ?]. split_and!; done.
Qed.

(** Where every packet of the flight is after an operation, with its bytes and its instant. *)
Definition of_flight (p : InFlight) : Z * Z * Instant := (f_number p, f_bytes p, f_sent p).
Definition fate (d : LossDetector) : list (Z * Z * Instant) :=
  (of_flight <$> sent d) ++ ((λ a, (a_number a, a_bytes a, a_sent a)) <$> arrived d) ++
  ((λ g, (g_number g, g_bytes g, g_sent g)) <$> gone d).

Lemma sealed_fate d p : fate (sealed d p) ≡ₚ of_flight <$> sent d ++ [p].
Proof.
  unfold fate, sealed.
  destruct (overflow_spec (sent (clear d) ++ [p]) (clear d)) as ((_ & _ & E3 & _) & E1 & E2 & _).
  rewrite E1, E2, E3. simpl. rewrite <- list_fmap_compose. unfold compose. simpl.
  rewrite Permutation_app_comm. rewrite <- (fmap_app of_flight), take_drop. done.
Qed.

Lemma detect_fate d now : gone d = [] → fate (detect d now) ≡ₚ (of_flight <$> sent d) ++ ((λ a, (a_number a, a_bytes a, a_sent a)) <$> arrived d).
Proof.
  intros Hg. destruct (detect_front d now) as (k & _ & _ & F3 & F4 & _ & _ & F5 & _). unfold fate. rewrite F3, F4, F5, Hg, app_nil_l, <- !list_fmap_compose.
  unfold compose, write_off; simpl. rewrite app_assoc, (Permutation_app_comm _ (_ <$> take k _)), app_assoc. rewrite <- (fmap_app of_flight), take_drop. done.
Qed.

Lemma expire_fate d now : fate (expire d now) ≡ₚ of_flight <$> sent d.
Proof. unfold expire. rewrite detect_fate by done. simpl. by rewrite app_nil_r. Qed.

Lemma acknowledged_fate n d ack now :
  sound n d → 0 ≤ Packet.largest ack ∧ 0 ≤ Packet.delay ack → checked ack n = Some ack →
  fate (acknowledged d ack now).2 ≡ₚ of_flight <$> sent d.
Proof.
  intros Hb Hack Hc. destruct (acknowledged_spec n d ack now) as (d1 & E & _ & E1 & E2 & E3 & _); try done. rewrite E. simpl.
  rewrite detect_fate, E1, E2 by done. rewrite <- list_fmap_compose. unfold compose, arrival; simpl.
  rewrite Permutation_app_comm, <- (fmap_app of_flight). by rewrite filter_app_complement.
Qed.

(** Numbers spent on packets the flight does not follow are no matter. *)
Lemma sound_mono n n' d : n ≤ n' → sound n d → sound n' d.
Proof.
  intros Hn [Ha Hb Hbd Hw Hl Hr Hs H0]. split; try (done || lia).
  - eapply list.Forall_impl; [exact Hb|]. simpl. lia.
  - intros l Hll. specialize (Hl l Hll). lia.
Qed.

(** Bytes in flight are bytes that stay, arrive or are given up. *)
Lemma fate_bytes d q :
  fate d ≡ₚ of_flight <$> q →
  sum_by f_bytes q = sum_by f_bytes (sent d) + sum_by a_bytes (arrived d) + sum_by g_bytes (gone d).
Proof.
  intros Hp. apply (sum_by_perm (λ x, x.1.2)) in Hp. unfold fate in Hp.
  rewrite !sum_by_app, !sum_by_fmap, Z.add_assoc in Hp. symmetry. exact Hp.
Qed.

(** Whatever holds of the bytes of the flight holds of the bytes of its fate. *)
Lemma fate_nonneg d q :
  fate d ≡ₚ of_flight <$> q → Forall (λ p, 0 ≤ f_bytes p) q →
  Forall (λ p, 0 ≤ f_bytes p) (sent d) ∧ Forall (λ a, 0 ≤ a_bytes a) (arrived d) ∧
  Forall (λ g, 0 ≤ g_bytes g) (gone d).
Proof.
  intros Hp Hq. assert (Forall (λ x : Z * Z * Instant, 0 ≤ x.1.2) (of_flight <$> q)) as H by (by apply Forall_fmap).
  rewrite <- Hp in H. unfold fate in H. rewrite !Forall_app, !Forall_fmap in H. done.
Qed.

(** ** Properties *)

(** C28: reading an acknowledgement through the bounded backward walk does to the flight what
    reading it against every packet would.  For a reachable detector the packets reported
    arrived are exactly the covered ones, oldest first; the round trip sampled is that of the
    packet the acknowledgement names as largest; the estimator takes that sample and no other;
    what stays in flight is what neither arrived nor fails the two loss rules or the probe
    timer, judged by the estimate after the sample; and the rest are given up, in order, with
    the cause that doomed them. *)
Theorem acknowledgement_retires_exactly n t d ack now
    (H : reachable n t d ∧ t ≤ now ∧ (0 ≤ Packet.largest ack ∧ 0 ≤ Packet.delay ack) ∧
         checked ack n = Some ack) :
  let '(smp, d') := acknowledged d ack now in
  let left := filter (λ p, ¬ covered ack p) (sent d) in
  let r := sampled (rtt d) (sent d) ack now in
  let largest := Some (highest (largest_acked d) ack) in
  let dm p := doomed largest now (loss_delay r) (dur_sat_mul (rtt_probe_timeout r) 1) p = true in
  smp = sample_of (sent d) ack now ∧ rtt d' = r ∧ largest_acked d' = largest ∧
  arrived d' = arrival <$> filter (covered ack) (sent d) ∧
  sent d' = filter (λ p, ¬ dm p) left ∧
  gone d' = write_off largest now (loss_delay r) <$> filter dm left.
Proof.
  destruct H as (Hr & Ht & Hack & Hc). destruct (reachable_inv _ _ _ Hr) as (Hb & _ & Hti).
  destruct (acknowledged_spec n d ack now) as (d1 & E & Hb1 & E1 & E2 & E3 & E4 & E5 & E6); try done.
  rewrite E. destruct (detect_spec d1 now (proj1 (filter_timed t d d1 _ Hti E1))) as (F1 & F2 & F3 & _ & _ & F4 & F5 & _).
  assert (probe_timeout d1 = dur_sat_mul (rtt_probe_timeout (rtt d1)) 1) as Hpt.
  { unfold probe_timeout. by rewrite E4. }
  rewrite F1, F2, F3, F4, F5, E1, E2, E3, E5, E6. rewrite E6 in Hpt.
  split_and!; try done; [|simpl; f_equal]; apply list_filter_iff; intros p; unfold doomed_in;
    by rewrite E5, E6, Hpt.
Qed.

(** No operation loses or invents a packet of the flight, and the tables stay bounded.
    From a reachable detector, a seal, an acknowledgement or an expiry splits the flight
    (with the packet just sealed) between what stays in flight, what arrived and what is
    given up, byte counts included; a migration touches no packet; and at most [MAX_TRACKED]
    packets are followed and 64 written-off numbers remembered. *)
Theorem flight_is_conserved n t d e
    (H : reachable n t d ∧
         match e with
         | Seal p => n ≤ f_number p ∧ t ≤ f_sent p
         | Ack ack now => t ≤ now ∧ (0 ≤ Packet.largest ack ∧ 0 ≤ Packet.delay ack) ∧ checked ack n = Some ack
         | Expire now => t ≤ now
         | Migrate => True
         end) :
  let d' := step d e in
  match e with
  | Migrate => sent d' = sent d
  | Seal p => fate d' ≡ₚ of_flight <$> sent d ++ [p]
  | _ => fate d' ≡ₚ of_flight <$> sent d
  end ∧ len (sent d') ≤ MAX_TRACKED ∧ len (written_off d') ≤ 64.
Proof.
  destruct H as [Hr He]. destruct (reachable_inv _ _ _ Hr) as (Hb & _ & _). cbv zeta.
  assert (∃ n' t', reachable n' t' (step d e)) as (n' & t' & ([_ _ Hl Hw _ _ _ _] & _)%reachable_inv).
  { destruct e as [p|ack now|now|].
    - destruct He. eexists _, _. by apply (reach_seal n t).
    - destruct He as (? & ? & ?). eexists _, _. by apply (reach_ack n t).
    - eexists _, _. by apply (reach_expire n t).
    - eexists _, _. by apply (reach_migrate n t). }
  split; [|split; [done|lia]]. clear Hl Hw n' t'. destruct e as [p|ack now|now|]; simpl.
  - apply sealed_fate.
  - destruct He as (? & ? & ?). by apply (acknowledged_fate n).
  - apply expire_fate.
  - done.
Qed.

(** The loss timer is exact.  Waking a reachable detector before the instant
    [deadline] names changes nothing of the flight, and waking it at that instant or later
    always gives up a packet, so a host that sleeps until then neither spins nor oversleeps. *)
Theorem expiry_is_exact n t d dl now (H : reachable n t d ∧ deadline d = Some dl) :
  (now < dl → sent (expire d now) = sent d ∧ gone (expire d now) = []) ∧
  (dl ≤ now → gone (expire d now) ≠ []).
Proof.
  destruct H as [(Hb & Hst & Ha & _)%reachable_inv Hd]. destruct Hb as [_ _ _ _ _ Hw Hs _].
  destruct (detect_spec (clear d) now Ha) as (_ & _ & _ & _ & _ & F4 & F5 & _).
  unfold expire. rewrite F4, F5. clear F4 F5. simpl.
  unfold standing, deadline in *. destruct (sent d) as [|p q] eqn:Eq; [done|].
  apply list.Forall_cons in Hst as [Hp _]. injection Hd as Hd.
  assert (doomed_in (clear d) now p ↔ dl ≤ now) as Hiff.
  { unfold doomed_in, doomed, lost_rule, stale. simpl. rewrite Hp. simpl.
    pose proof (probe_timeout_pos d Hw Hs). pose proof (loss_delay_pos (rtt d)).
    replace (probe_timeout (clear d)) with (probe_timeout d) by done.
    unfold MIN_LOSS_DELAY, from_millis in *. rewrite orb_true_iff, andb_true_iff, !Z.leb_le.
    destruct (match largest_acked d with Some l => f_number p <? l | None => false end); unfold since; lia. }
  split; intros Hn.
  - assert (Forall (λ x, ¬ doomed_in (clear d) now x) (p :: q)) as Hnone.
    { inversion Ha; subst. constructor; [by rewrite Hiff; lia|]. eapply list.Forall_impl; [eassumption|].
      intros x Hx Hdm. assert (doomed_in (clear d) now p) as Hdp%Hiff by (eapply doomed_mono; eassumption). lia. }
    rewrite filter_true, filter_false by done. done.
  - rewrite filter_cons_True by (by apply Hiff). done.
Qed.

(** The estimator is an average of its samples.  After any run of samples whose adjusted
    values (the round trip less the peer's own delay, at least one microsecond) lie between
    [lo] and [hi], the smoothed round trip and the windowed minimum lie in that range, the
    variation does not exceed it, and so a packet is never declared lost by age later than
    nine eighths of the largest sample, nor a probe sent later than five times it and the
    peer's longest delay. *)
Theorem estimator_within_samples lo hi (samples : list (Duration * Duration * Instant))
    (H : 1 ≤ lo ∧ samples ≠ [] ∧
         Forall (λ s, lo ≤ adjusted s.1.1 s.1.2 ≤ hi) samples) :
  let r := foldl (λ r s, sample r s.1.1 s.1.2 s.2) rtt_default samples in
  (∃ s, smoothed r = Some s ∧ lo ≤ s ≤ hi) ∧ (∃ m t, min_adjusted r = Some (m, t) ∧ lo ≤ m ≤ hi) ∧
  0 ≤ var r ≤ hi ∧
  MIN_LOSS_DELAY ≤ loss_delay r ≤ Z.max (from_micros (hi * 9 / 8)) MIN_LOSS_DELAY ∧
  from_micros lo + MAX_ACK_DELAY < rtt_probe_timeout r ≤
    from_micros (hi + Z.max (4 * hi) TIMER_GRANULARITY) + MAX_ACK_DELAY.
Proof.
  destruct H as (Hlo & Hne & Hall). cbv zeta. set (r := foldl _ _ _).
  assert (∀ l r0, rtt_wf lo hi r0 → Forall (λ s, lo ≤ adjusted s.1.1 s.1.2 ≤ hi) l →
    rtt_wf lo hi (foldl (λ r s, sample r s.1.1 s.1.2 s.2) r0 l)) as Hfold.
  { induction l as [|x l IH]; intros r0 Hr0 Hl; [done|].
    apply list.Forall_cons in Hl as [Hx Hl]. apply IH; [|done]. apply sample_wf; [lia|done|done]. }
  assert (0 ≤ hi) by (destruct Hall as [|x l Hx _]; [done|lia]).
  destruct (Hfold samples rtt_default) as [Hs Hl Hv Hm]; [by apply rtt_default_wf|done|]. fold r in Hs, Hl, Hv, Hm.
  assert ((∃ s, smoothed r = Some s) ∧ ∃ m t, min_adjusted r = Some (m, t)) as ((s & Es) & m & t & Em).
  { unfold r. destruct samples as [|x l] using rev_ind; [done|]. rewrite foldl_app. simpl.
    set (r0 := foldl _ _ _). destruct r0 as [sm v la mi]. unfold sample; simpl.
    destruct mi as [[m0 s0]|]; simpl; [destruct (_ || _); simpl|]; destruct sm; simpl; eauto 6. }
  specialize (Hs s Es). split; [eauto|]. split; [exists m, t; eauto|]. split; [done|].
  unfold loss_delay, rtt_probe_timeout, MIN_LOSS_DELAY, TIMER_GRANULARITY, MAX_ACK_DELAY. rewrite Es. simpl.
  assert (Z.max (Z.max s (latest_adjusted r)) (var r) * 9 / 8 ≤ hi * 9 / 8) by (apply Z.div_le_mono; lia).
  split; slia.
Qed.

(** ** Witnesses *)

(** Six packets sealed a millisecond apart. *)
Definition demo_packet (i : Z) : InFlight :=
  {| f_number := i; f_bytes := 1000 + i; f_sent := from_millis i; f_limited := Application |}.
Definition demo_seal (i : Z) (d : LossDetector) : LossDetector := step d (Seal (demo_packet i)).
Definition demo : LossDetector :=
  demo_seal 5 (demo_seal 4 (demo_seal 3 (demo_seal 2 (demo_seal 1 (demo_seal 0 new))))).
Definition demo_ack : Packet.AckBody :=
  {| Packet.largest := 4; Packet.delay := from_millis 2; Packet.map := 1 |}.

Lemma demo_seal_reachable i t d :
  reachable i t d → t ≤ from_millis i → reachable (i + 1) (from_millis i) (demo_seal i d).
Proof. intros Hr Ht. apply (reach_seal i t d (demo_packet i)); simpl; [done|lia|done]. Qed.

Lemma demo_reachable : reachable 6 (from_millis 5) demo.
Proof.
  apply (demo_seal_reachable 5 (from_millis 4)); [|by vm_compute].
  apply (demo_seal_reachable 4 (from_millis 3)); [|by vm_compute].
  apply (demo_seal_reachable 3 (from_millis 2)); [|by vm_compute].
  apply (demo_seal_reachable 2 (from_millis 1)); [|by vm_compute].
  apply (demo_seal_reachable 1 (from_millis 0)); [|by vm_compute].
  apply (demo_seal_reachable 0 0); [constructor|by vm_compute].
Qed.

Lemma acknowledgement_retires_exactly_witness :
  let '(smp, d') := acknowledged demo demo_ack (from_millis 30) in
  smp = Some (from_millis 26) ∧ (a_number <$> arrived d') = [3; 4] ∧ (f_number <$> sent d') = [5] ∧
  ((λ g, (g_number g, g_cause g)) <$> gone d') = [(0, Lost); (1, Lost); (2, Lost)] ∧
  sent d' = filter (λ p, ¬ doomed (Some 4) (from_millis 30) (loss_delay (rtt d'))
              (dur_sat_mul (rtt_probe_timeout (rtt d')) 1) p = true)
              (filter (λ p, ¬ covered demo_ack p) (sent demo)).
Proof.
  pose proof (acknowledgement_retires_exactly 6 (from_millis 5) demo demo_ack (from_millis 30)) as W.
  set (r := acknowledged demo demo_ack (from_millis 30)) in *.
  assert (r.1 = Some (from_millis 26) ∧ (a_number <$> arrived r.2) = [3; 4] ∧ (f_number <$> sent r.2) = [5] ∧
    ((λ g, (g_number g, g_cause g)) <$> gone r.2) = [(0, Lost); (1, Lost); (2, Lost)]) as F
    by (split_and!; vm_compute; reflexivity).
  clearbody r. destruct r as [smp d']. destruct W as (_ & Er & _ & _ & Es & _).
  { split; [exact demo_reachable|]. split; [slia|]. split; [split; simpl; slia|done]. }
  rewrite <- Er in Es. destruct F as (F1 & F2 & F3 & F4). split_and!; [done..|exact Es].
Defined.

Lemma flight_is_conserved_witness :
  fate (step demo (Ack demo_ack (from_millis 30))) ≡ₚ of_flight <$> sent demo ∧
  fate (step demo (Ack demo_ack (from_millis 30))) ≠ of_flight <$> sent demo.
Proof.
  split; [|vm_compute; discriminate].
  destruct (flight_is_conserved 6 (from_millis 5) demo (Ack demo_ack (from_millis 30))) as [W _]; [|exact W].
  split; [exact demo_reachable|]. split; [slia|]. split; [split; simpl; slia|done].
Defined.

Lemma expiry_is_exact_witness :
  deadline demo = Some (from_millis (333 + 1 + 25)) ∧
  sent (expire demo (from_millis 358)) = sent demo ∧ gone (expire demo (from_millis 359)) ≠ [].
Proof.
  assert (deadline demo = Some (from_millis 359)) as Hd by (by vm_compute).
  pose proof (expiry_is_exact 6 (from_millis 5) demo (from_millis 359) (from_millis 358) (conj demo_reachable Hd)) as [W1 _].
  pose proof (expiry_is_exact 6 (from_millis 5) demo (from_millis 359) (from_millis 359) (conj demo_reachable Hd)) as [_ W2].
  split; [exact Hd|]. split; [apply W1; by vm_compute|apply W2; by vm_compute].
Defined.

Lemma estimator_within_samples_witness :
  let r := foldl (λ r s, sample r s.1.1 s.1.2 s.2) rtt_default
             [(from_millis 40, from_millis 10, 0); (from_millis 80, from_millis 20, 5)] in
  smoothed r = Some 33750 ∧ loss_delay r ≤ from_micros 67500.
Proof.
  destruct (estimator_within_samples 30000 60000
    [(from_millis 40, from_millis 10, 0); (from_millis 80, from_millis 20, 5)]) as (_ & _ & _ & [_ W] & _).
  { split; [lia|]. split; [done|]. repeat constructor; by vm_compute. }
  split; [by vm_compute|]. etrans; [exact W|by vm_compute].
Defined.

End Loss.
