(* ===== verification/Congestion.v ===== *)
(** * Congestion control ([crates/dgram/src/congestion.rs])

    New Reno over bytes with a token-bucket pacer and a delay trigger.  [Pacer] is the bucket,
    [Congestion] the window; both are pure functions of the instants they are handed.

    The theorems show that the instant the pacer names is one it will release at, that the
    pacer never lets more through than a burst and the window's own rate, that the window stays
    between two of the smallest datagrams and the ceiling of the largest, with the avoidance
    loop always reaching its exit, and that a flight lost together costs one halving, which a
    late acknowledgement gives back. *)

From S2P Require Import Prelude Packet Loss.

Module Congestion.

Definition INITIAL_DATAGRAMS : Z := 10.
Definition MIN_DATAGRAMS : Z := 2.
Definition MAX_DATAGRAMS : Z := 512.
Definition BURST_DATAGRAMS : Z := 10.
Definition PACE_NUMERATOR : Z := 5.
Definition PACE_DENOMINATOR : Z := 4.
Definition INITIAL_PACE : Duration := from_millis 100.
Definition OVERSHOOT_SAMPLES : Z := 3.
Definition OVERSHOOT_FLOOR : Duration := from_millis 4.
Definition OVERSHOOT_CEILING : Duration := from_millis 16.

(** [usize::try_from(x).unwrap_or(usize::MAX)] and its [u64] twin, of a [u128]. *)
Definition narrow (x : Z) : Z := Z.min USIZE_MAX x.

(** [a.div_ceil(b)]. *)
Definition div_ceil (a b : Z) : Z := (a + b - 1) / b.

(** ** The pacer *)

Record Pacer := mkPacer { tokens : Z; refilled : option Instant }.
#[export] Instance Pacer_settable : Settable Pacer := λ p, mkPacer (tokens p) (refilled p).

Definition pacer_new : Pacer := {| tokens := 0; refilled := None |}.

Definition available (p : Pacer) (now : Instant) (window burst : Z) (srtt : option Duration) : Z :=
  match refilled p with
  | None => burst
  | Some refilled =>
      let elapsed := Loss.micros (since now refilled) in
      let gained := match srtt with
                    | Some srtt =>
                        let srtt := Z.max (Loss.micros srtt) 1 in
                        elapsed * PACE_NUMERATOR * window / (PACE_DENOMINATOR * srtt)
                    | None => elapsed * window / Loss.micros INITIAL_PACE
                    end in
      Z.min (sat_add USIZE_MAX (tokens p) (narrow gained)) burst
  end.

Definition spend (p : Pacer) (bytes : Z) (now : Instant) (window burst : Z) (srtt : option Duration) : Pacer :=
  p <| tokens := sat_sub (available p now window burst srtt) bytes |> <| refilled := Some now |>.

Definition pacer_ready (p : Pacer) (now : Instant) (bytes window burst : Z) (srtt : option Duration) : Instant :=
  let short := sat_sub bytes (available p now window burst srtt) in
  if short =? 0 then now
  else
    let window := Z.max window 1 in
    let wait := match srtt with
                | Some srtt =>
                    div_ceil (Loss.micros srtt * PACE_DENOMINATOR * short) (PACE_NUMERATOR * window)
                | None => div_ceil (Loss.micros INITIAL_PACE * short) window
                end in
    now + from_micros (narrow wait).

(** ** The window *)

Record Undo := mkUndo { u_window : Z; u_ssthresh : Z }.

Record Congestion := mkCongestion {
  window : Z;
  ssthresh : Z;
  in_flight : Z;
  credit : Z;
  recovery_start : option Instant;
  undo : option Undo;
  datagram : Z;
  overshoot : Z;
  pacer : Pacer;
  srtt : option Duration
}.
#[export] Instance Congestion_settable : Settable Congestion := λ c,
  mkCongestion (window c) (ssthresh c) (in_flight c) (credit c) (recovery_start c) (undo c)
    (datagram c) (overshoot c) (pacer c) (srtt c).

Definition new (datagram : Z) : Congestion :=
  {| window := datagram * INITIAL_DATAGRAMS; ssthresh := USIZE_MAX; in_flight := 0; credit := 0;
     recovery_start := None; undo := None; datagram := datagram; overshoot := 0;
     pacer := pacer_new; srtt := None |}.

Definition set_datagram (c : Congestion) (bytes : Z) : Congestion := c <| datagram := bytes |>.

Definition minimum (c : Congestion) : Z :=
  let floor := datagram c * MIN_DATAGRAMS in if floor <? window c then floor else window c.
Definition ceiling (c : Congestion) : Z := datagram c * MAX_DATAGRAMS.
Definition initial (c : Congestion) : Z := datagram c * INITIAL_DATAGRAMS.
Definition burst (c : Congestion) : Z :=
  let burst := datagram c * BURST_DATAGRAMS in if window c <? burst then window c else burst.

Definition writable (c : Congestion) (now : Instant) (bytes : Z) : bool :=
  (in_flight c + bytes <=? window c) &&
  (bytes <=? available (pacer c) now (window c) (burst c) (srtt c)).

Definition ready (c : Congestion) (now : Instant) (bytes : Z) : option Instant :=
  if window c <? in_flight c + bytes then None
  else Some (pacer_ready (pacer c) now bytes (window c) (burst c) (srtt c)).

Definition sealed (c : Congestion) (bytes : Z) (now : Instant) : Loss.Limited * Congestion :=
  let limited := if in_flight c + bytes + datagram c <=? window c then Loss.Application else Loss.Window in
  let c := c <| in_flight := in_flight c + bytes |> in
  (limited, c <| pacer := spend (pacer c) bytes now (window c) (burst c) (srtt c) |>).

Definition check_overshoot (c : Congestion) (rtt : Loss.Rtt) : Congestion :=
  match Loss.minimum_adjusted rtt with
  | None => c
  | Some minimum =>
      let trigger := minimum + clamp (minimum / 8) OVERSHOOT_FLOOR OVERSHOOT_CEILING in
      if Loss.rtt_latest rtt <=? trigger then c <| overshoot := 0 |>
      else
        let c := c <| overshoot := overshoot c + 1 |> in
        if OVERSHOOT_SAMPLES <=? overshoot c then c <| ssthresh := Z.max (window c) (initial c) |> else c
  end.

(** [while self.credit >= self.window], one datagram per window acknowledged. *)
Fixpoint avoid (fuel : nat) (c : Congestion) : Congestion :=
  match fuel with
  | O => c
  | S fuel =>
      if window c <=? credit c then
        let c := c <| credit := credit c - window c |> in
        avoid fuel (c <| window := Z.min (window c + datagram c) (ceiling c) |>)
      else c
  end.

(** Each turn takes at least the lesser of window and ceiling, so this many are
    enough: [avoidance_terminates]. *)
Definition avoid_fuel (c : Congestion) : nat :=
  Z.to_nat (credit c / Z.max 1 (Z.min (window c) (ceiling c)) + 1).

Definition acknowledged (c : Congestion) (bytes : Z) (sent : Instant) (rtt : Loss.Rtt)
    (limited : Loss.Limited) : Congestion :=
  let c := c <| in_flight := sat_sub (in_flight c) bytes |> in
  let c := c <| srtt := Loss.rtt_smoothed rtt |> in
  let c := match recovery_start c with
           | Some start => if start <? sent then c <| recovery_start := None |> else c
           | None => c
           end in
  let c := if window c <? ssthresh c then check_overshoot c rtt else c in
  match limited with
  | Loss.Application => c
  | Loss.Window =>
      if window c <? ssthresh c then c <| window := Z.min (window c + bytes) (ceiling c) |>
      else
        let c := c <| credit := credit c + bytes |> in
        avoid (avoid_fuel c) c
  end.

Definition remember (c : Congestion) : Congestion :=
  c <| undo := Some {| u_window := window c; u_ssthresh := ssthresh c |} |>.

Definition lost (c : Congestion) (bytes : Z) (sent now : Instant) : Congestion :=
  let c := c <| in_flight := sat_sub (in_flight c) bytes |> in
  if match recovery_start c with Some start => sent <? start | None => false end then c
  else
    let c := remember c in
    let c := c <| recovery_start := Some now |> in
    let c := c <| window := Z.max (window c / 2) (minimum c) |> in
    c <| ssthresh := window c |> <| credit := 0 |> <| overshoot := 0 |>.

Definition spurious (c : Congestion) : Congestion :=
  match undo c with
  | None => c
  | Some u =>
      let c := c <| undo := None |> in
      let c := c <| window := Z.min (Z.max (window c) (u_window u)) (ceiling c) |> in
      c <| ssthresh := Z.max (ssthresh c) (u_ssthresh u) |> <| recovery_start := None |>
        <| credit := 0 |> <| overshoot := 0 |>
  end.

Definition abandoned (c : Congestion) (bytes : Z) : Congestion :=
  c <| in_flight := sat_sub (in_flight c) bytes |>.

Definition collapse (c : Congestion) (now : Instant) : Congestion :=
  let c := remember c in
  let c := c <| ssthresh := Z.max (window c / 2) (initial c) |> in
  let c := c <| window := minimum c |> in
  c <| credit := 0 |> <| recovery_start := Some now |> <| overshoot := 0 |>.

Definition migrated (c : Congestion) : Congestion :=
  c <| window := initial c |> <| ssthresh := USIZE_MAX |> <| credit := 0 |>
    <| recovery_start := None |> <| undo := None |> <| overshoot := 0 |> <| srtt := None |>
    <| pacer := pacer_new |>.

(** ** The pacer's rate *)

(** Bytes per microsecond, as a numerator and a denominator. *)
Definition pace_num (window : Z) (srtt : option Duration) : Z :=
  match srtt with Some _ => PACE_NUMERATOR * window | None => window end.
Definition pace_den (srtt : option Duration) : Z :=
  match srtt with Some s => PACE_DENOMINATOR * Z.max (Loss.micros s) 1 | None => Loss.micros INITIAL_PACE end.

Lemma available_rate p now w b srtt r :
  refilled p = Some r →
  available p now w b srtt =
  Z.min (sat_add USIZE_MAX (tokens p)
           (narrow (Loss.micros (since now r) * pace_num w srtt / pace_den srtt))) b.
Proof.
  intros Hr. unfold available, pace_num, pace_den. rewrite Hr.
  destruct srtt; [|done]. by rewrite (Z.mul_assoc _ PACE_NUMERATOR).
Qed.

Lemma pace_den_pos srtt : 0 < pace_den srtt.
Proof. destruct srtt; simpl; [unfold PACE_DENOMINATOR; lia|by vm_compute]. Qed.

Lemma micros_nonneg now r : 0 ≤ Loss.micros (since now r).
Proof.
  unfold Loss.micros, as_micros. assert (0 ≤ since now r / 1000) by (apply Z.div_pos; slia). lia.
Qed.

(** A longest wait fills the bucket: the largest elapsed time there is buys a whole window. *)
Lemma pace_covers w srtt b :
  0 ≤ b ≤ w → (∀ s, srtt = Some s → 1000 ≤ s) → pace_den srtt * b ≤ U64_MAX * pace_num w srtt.
Proof.
  intros Hb Hs. destruct srtt as [s|]; simpl.
  - unfold PACE_DENOMINATOR, PACE_NUMERATOR, Loss.micros, as_micros.
    set (m := Z.max _ 1). assert (1 ≤ m ≤ U64_MAX) by lia. clearbody m. nia.
  - change (Loss.micros INITIAL_PACE) with 100000. nia.
Qed.

Lemma div_ceil_spec a b : 0 < b → a ≤ b * div_ceil a b ∧ ∀ k, a ≤ b * k → div_ceil a b ≤ k.
Proof.
  intros Hb. unfold div_ceil. pose proof (Z.div_mod (a + b - 1) b). pose proof (Z.mod_pos_bound (a + b - 1) b).
  split; [nia|]. intros k Hk. apply Z.lt_succ_r, Z.div_lt_upper_bound; nia.
Qed.

(** Moving the clock on by whole microseconds moves the elapsed time by as many. *)
Lemma micros_later now r k :
  r ≤ now → 0 ≤ k → Loss.micros (since (now + from_micros k) r) = Z.min U64_MAX (Loss.micros (since now r) + k).
Proof.
  intros Hr Hk. unfold Loss.micros, as_micros, since, from_micros.
  rewrite !Z.max_r by lia. replace (now + k * 1000 - r) with (now - r + k * 1000) by lia.
  rewrite Z.div_add by lia. lia.
Qed.

Lemma wait_suffices p now bytes w b srtt r :
  refilled p = Some r → 0 ≤ tokens p → r ≤ now → 0 < bytes ≤ b → b ≤ w ≤ USIZE_MAX → (∀ s, srtt = Some s → 1000 ≤ s) →
  let t := pacer_ready p now bytes w b srtt in now ≤ t ∧ bytes ≤ available p t w b srtt.
Proof.
  intros Hr Htok Hnow Hby Hw Hs. cbv zeta. unfold pacer_ready.
  destruct (Z.eqb_spec (sat_sub bytes (available p now w b srtt)) 0) as [Hz|Hz]; [slia|].
  set (short := sat_sub _ _) in *.
  set (wait := match srtt with Some _ => _ | None => _ end).
  assert (wait = div_ceil (pace_den srtt * short) (pace_num w srtt)) as Hwait.
  { unfold wait, pace_den, pace_num. rewrite (Z.max_l w 1) by lia. destruct srtt as [s|]; [|done].
    specialize (Hs s eq_refl). rewrite (Z.max_l (Loss.micros s) 1).
    - f_equal. lia.
    - unfold Loss.micros, as_micros. assert (1 ≤ s / 1000) by (apply Z.div_le_lower_bound; lia). lia. }
  clearbody wait. subst wait. set (num := pace_num w srtt) in *. set (den := pace_den srtt) in *.
  assert (0 < den) by apply pace_den_pos.
  assert (0 < num) by (unfold num, pace_num, PACE_NUMERATOR; destruct srtt; lia).
  assert (den * b ≤ U64_MAX * num) as Hcov by (apply pace_covers; [lia|done]).
  pose proof (available_rate p now w b srtt r Hr) as Hav.
  assert (short = sat_sub bytes (available p now w b srtt)) as Hshort by done.
  rewrite Hav in Hshort. fold num den in Hshort. clearbody short. clear Hav.
  set (e := Loss.micros (since now r)) in *. assert (0 ≤ e) by apply micros_nonneg.
  destruct (div_ceil_spec (den * short) num) as [Hge Hle]; [done|].
  set (wait := div_ceil _ _) in *.
  assert (0 < short ≤ b) as Hsh.
  { assert (0 ≤ e * num / den) by (apply Z.div_pos; nia).
    unfold narrow in *; autounfold with width in *; lia. }
  assert (wait ≤ U64_MAX) by (apply Hle; nia).
  assert (0 ≤ wait) by nia. assert (narrow wait = wait) as -> by (unfold narrow; lia).
  split; [slia|]. rewrite (available_rate p _ w b srtt r Hr), micros_later by lia. fold e num den.
  assert (e * num / den + short ≤ (e + wait) * num / den) as Hmore.
  { rewrite <- Z.div_add by lia. apply Z.div_le_mono; nia. }
  assert (b ≤ U64_MAX * num / den) as Hfull by (apply Z.div_le_lower_bound; lia).
  unfold narrow in *; autounfold with width in *.
  destruct (Z.le_gt_cases (e + wait) U64_MAX).
  - replace (Z.min U64_MAX (e + wait)) with (e + wait) by lia. lia.
  - replace (Z.min U64_MAX (e + wait)) with U64_MAX by lia. lia.
Qed.

(** ** Properties of the pacer *)

(** The instant [ready] names is one the datagram may leave at.  Whenever the window has
    room for it and it is no larger than a burst, waiting until then makes [writable] true:
    the rounding up leaves the bucket not one byte short, through every saturation of the
    arithmetic, whether or not a round trip has been measured. *)
Theorem ready_is_writable c now bytes t
    (H : ready c now bytes = Some t ∧ 0 < bytes ≤ burst c ∧ window c ≤ USIZE_MAX ∧ 0 ≤ tokens (pacer c) ∧
         (∀ r, refilled (pacer c) = Some r → r ≤ now) ∧ (∀ s, srtt c = Some s → 1000 ≤ s)) :
  now ≤ t ∧ writable c t bytes = true.
Proof.
  destruct H as (Hr & Hb & Hw & Ht & Hre & Hs). unfold ready in Hr.
  destruct (Z.ltb_spec (window c) (in_flight c + bytes)); [done|]. injection Hr as <-.
  assert (burst c ≤ window c) as Hbw by (unfold burst; case_match eqn:E; zbool; lia).
  enough (now ≤ pacer_ready (pacer c) now bytes (window c) (burst c) (srtt c) ∧
    bytes ≤ available (pacer c) (pacer_ready (pacer c) now bytes (window c) (burst c) (srtt c))
              (window c) (burst c) (srtt c)) as [? ?].
  { split; [done|]. unfold writable. rewrite andb_true_iff, !Z.leb_le. lia. }
  destruct (refilled (pacer c)) as [r|] eqn:Er.
  - apply (wait_suffices _ _ _ _ _ _ r); auto.
  - assert (∀ t', available (pacer c) t' (window c) (burst c) (srtt c) = burst c) as Hav.
    { intros t'. unfold available. by rewrite Er. }
    unfold pacer_ready. rewrite Hav. destruct (Z.eqb_spec (sat_sub bytes (burst c)) 0); [|slia].
    rewrite Hav. lia.
Qed.

(** A sequence of sends, each as large as the bucket allows or smaller, in order of time. *)
Fixpoint conforming (p : Pacer) (w b : Z) (srtt : option Duration) (sends : list (Z * Instant)) : Prop :=
  match sends with
  | [] => True
  | (bytes, now) :: rest =>
      0 ≤ bytes ≤ available p now w b srtt ∧ (∀ r, refilled p = Some r → r ≤ now) ∧
      conforming (spend p bytes now w b srtt) w b srtt rest
  end.

Definition last_instant (t : Instant) (sends : list (Z * Instant)) : Instant := default t (last sends.*2).

Lemma last_instant_cons t x sends : last_instant t (x :: sends) = last_instant x.2 sends.
Proof. unfold last_instant. rewrite fmap_cons, last_cons. by destruct (last sends.*2). Qed.

Lemma conforming_rate p w b srtt sends r :
  0 ≤ w → refilled p = Some r → 0 ≤ tokens p → conforming p w b srtt sends →
  sum_by fst sends * (pace_den srtt * 1000) ≤
  tokens p * (pace_den srtt * 1000) + (last_instant r sends - r) * pace_num w srtt.
Proof.
  intros Hw. revert p r. induction sends as [|[bytes now] sends IH]; intros p r Hr Ht Hc.
  { unfold last_instant; simpl. pose proof (pace_den_pos srtt). nia. }
  destruct Hc as (Hb & Hnow & Hc). specialize (Hnow r Hr).
  assert (0 ≤ tokens (spend p bytes now w b srtt)) as Ht' by (simpl; slia).
  specialize (IH (spend p bytes now w b srtt) now eq_refl Ht' Hc). rewrite last_instant_cons. simpl sum_by. simpl snd.
  rewrite (available_rate p now w b srtt r Hr) in Hb. simpl tokens in IH.
  rewrite (available_rate p now w b srtt r Hr) in IH. pose proof (pace_den_pos srtt).
  assert (0 ≤ pace_num w srtt) by (unfold pace_num, PACE_NUMERATOR; destruct srtt; lia).
  set (num := pace_num w srtt) in *. set (den := pace_den srtt) in *. set (e := Loss.micros _) in *.
  assert (e * 1000 ≤ now - r).
  { unfold e, Loss.micros, as_micros, since. rewrite Z.max_r by lia.
    pose proof (Z.mul_div_le (now - r) 1000). lia. }
  assert (e * num / den * den ≤ e * num) by (pose proof (Z.mul_div_le (e * num) den); lia).
  set (g := e * num / den) in *. clearbody g e num den.
  assert (sat_sub (Z.min (sat_add USIZE_MAX (tokens p) (narrow g)) b) bytes + bytes ≤ tokens p + g) as Htok.
  { unfold narrow in *. slia. }
  set (k := sat_sub _ _) in *. clearbody k. simpl. nia.
Qed.

(** The pacer is a token bucket.  However sends are spaced, as long as each takes no more
    than [available] says, what leaves between the first and the last of them is at most one
    burst and what the window's rate (five quarters of it per round trip, or one per 100 ms
    before a round trip is known) allows for the time between them. *)
Theorem pacing_is_bounded p w b srtt bytes now sends
    (H : 0 ≤ w ∧ conforming p w b srtt ((bytes, now) :: sends)) :
  sum_by fst ((bytes, now) :: sends) * (pace_den srtt * 1000) ≤
  b * (pace_den srtt * 1000) + (last_instant now sends - now) * pace_num w srtt.
Proof.
  destruct H as (Hw & Hb & _ & Hc).
  pose proof (conforming_rate (spend p bytes now w b srtt) w b srtt sends now Hw eq_refl) as IH.
  assert (available p now w b srtt ≤ b) as Hav by (unfold available; case_match; lia).
  pose proof (pace_den_pos srtt). simpl in *. specialize (IH ltac:(slia) Hc).
  assert (sat_sub (available p now w b srtt) bytes + bytes ≤ b) by slia. nia.
Qed.

(** ** The window *)

(** What can be asked of the controller. *)
Inductive op :=
| Datagram (bytes : Z)
| Sealed (bytes : Z) (now : Instant)
| Acknowledged (bytes : Z) (sent : Instant) (rtt : Loss.Rtt) (limited : Loss.Limited)
| Lost (bytes : Z) (sent now : Instant)
| Spurious
| Abandoned (bytes : Z)
| Collapse (now : Instant)
| Migrated.

Definition apply_op (c : Congestion) (o : op) : Congestion :=
  match o with
  | Datagram bytes => set_datagram c bytes
  | Sealed bytes now => (sealed c bytes now).2
  | Acknowledged bytes sent rtt limited => acknowledged c bytes sent rtt limited
  | Lost bytes sent now => lost c bytes sent now
  | Spurious => spurious c
  | Abandoned bytes => abandoned c bytes
  | Collapse now => collapse c now
  | Migrated => migrated c
  end.

(** Sizes are never negative, and the datagram stays between the least and the most the path
    search can settle on. *)
Definition op_ok (lo hi : Z) (o : op) : Prop :=
  match o with
  | Datagram bytes => lo ≤ bytes ≤ hi
  | Sealed bytes _ | Acknowledged bytes _ _ _ | Lost bytes _ _ | Abandoned bytes => 0 ≤ bytes
  | _ => True
  end.

Record bounded (lo hi : Z) (c : Congestion) : Prop := {
  b_datagram : lo ≤ datagram c ≤ hi;
  b_window : MIN_DATAGRAMS * lo ≤ window c ≤ MAX_DATAGRAMS * hi;
  b_undo : ∀ u, undo c = Some u → MIN_DATAGRAMS * lo ≤ u_window u ≤ MAX_DATAGRAMS * hi;
  b_credit : 0 ≤ credit c;
  b_in_flight : 0 ≤ in_flight c;
  b_tokens : 0 ≤ tokens (pacer c)
}.

Ltac unfold_windows :=
  unfold ceiling, initial, minimum, MIN_DATAGRAMS, MAX_DATAGRAMS, INITIAL_DATAGRAMS in *.

Lemma avoid_spec fuel c :
  0 < window c → 0 < datagram c → 0 ≤ credit c →
  credit c / Z.min (window c) (ceiling c) < Z.of_nat fuel →
  let c' := avoid fuel c in
  credit c' < window c' ∧ 0 ≤ credit c' ∧ datagram c' = datagram c ∧ undo c' = undo c ∧
  in_flight c' = in_flight c ∧ pacer c' = pacer c ∧
  Z.min (window c) (ceiling c) ≤ window c' ≤ Z.max (window c) (ceiling c) ∧
  ∀ more, avoid (fuel + more) c = c'.
Proof.
  revert c; induction fuel as [|fuel IH]; intros c Hw Hd Hc Hf.
  { assert (0 ≤ credit c / Z.min (window c) (ceiling c)); [|lia].
    apply Z.div_pos; unfold_windows; lia. }
  cbv zeta. simpl. destruct (Z.leb_spec (window c) (credit c)) as [Hle|Hlt].
  2:{ split_and!; try (done || lia). }
  set (c1 := c <| credit := _ |>). set (c2 := c1 <| window := _ |>).
  assert (ceiling c2 = ceiling c) as Hce by done.
  assert (0 < ceiling c) by (unfold_windows; lia).
  assert (window c2 = Z.min (window c + datagram c) (ceiling c)) as Hw2 by done.
  assert (credit c2 = credit c - window c) as Hc2 by done.
  destruct (IH c2) as (H1 & H2 & H3 & H4 & H5 & H6 & H7 & H8); [lia|done|lia| |].
  { rewrite Hce, Hw2, Hc2. set (m := Z.min (window c) (ceiling c)) in *.
    assert (m ≤ Z.min (Z.min (window c + datagram c) (ceiling c)) (ceiling c)) by lia.
    apply Z.le_lt_trans with ((credit c + -1 * m) / m).
    - etrans; [|apply Z.div_le_mono with (a := credit c - window c); lia].
      apply Z.div_le_compat_l; lia.
    - rewrite Z.div_add by lia. rewrite Nat2Z.inj_succ in Hf. lia. }
  assert (datagram c2 = datagram c ∧ undo c2 = undo c ∧ in_flight c2 = in_flight c ∧ pacer c2 = pacer c)
    as (? & ? & ? & ?) by done.
  clearbody c2. rewrite Hce in H7. split_and!; first [done | lia | congruence].
Qed.

Lemma avoid_fuel_enough c :
  0 < window c → 0 < datagram c → 0 ≤ credit c →
  credit c / Z.min (window c) (ceiling c) < Z.of_nat (avoid_fuel c).
Proof.
  intros Hw Hd Hc. unfold avoid_fuel.
  assert (0 < ceiling c) by (unfold_windows; lia).
  rewrite (Z.max_r 1) by lia.
  assert (0 ≤ credit c / Z.min (window c) (ceiling c)) by (apply Z.div_pos; lia). lia.
Qed.

Lemma check_overshoot_spec c r :
  let c' := check_overshoot c r in
  window c' = window c ∧ datagram c' = datagram c ∧ credit c' = credit c ∧ undo c' = undo c ∧
  in_flight c' = in_flight c ∧ pacer c' = pacer c.
Proof. unfold check_overshoot. repeat case_match; done. Qed.

(** The state [acknowledged] reaches before it grows the window. *)
Lemma acknowledged_cases c bytes sent r limited :
  ∃ c1, window c1 = window c ∧ datagram c1 = datagram c ∧ credit c1 = credit c ∧ undo c1 = undo c ∧
    in_flight c1 = sat_sub (in_flight c) bytes ∧ pacer c1 = pacer c ∧
    acknowledged c bytes sent r limited =
    match limited with
    | Loss.Application => c1
    | Loss.Window =>
        if window c1 <? ssthresh c1 then c1 <| window := Z.min (window c1 + bytes) (ceiling c1) |>
        else let c2 := c1 <| credit := credit c1 + bytes |> in avoid (avoid_fuel c2) c2
    end.
Proof.
  unfold acknowledged. set (c0 := c <| in_flight := _ |> <| srtt := _ |>).
  set (c01 := match recovery_start c0 with Some _ => _ | None => _ end).
  assert (window c01 = window c ∧ datagram c01 = datagram c ∧ credit c01 = credit c ∧ undo c01 = undo c ∧
    in_flight c01 = sat_sub (in_flight c) bytes ∧ pacer c01 = pacer c) as (? & ? & ? & ? & ? & ?).
  { unfold c01. repeat case_match; done. }
  clearbody c01. exists (if window c01 <? ssthresh c01 then check_overshoot c01 r else c01).
  destruct (check_overshoot_spec c01 r) as (? & ? & ? & ? & ? & ?).
  destruct (window c01 <? ssthresh c01); split_and!; try congruence; done.
Qed.

Lemma apply_op_bounded lo hi c o :
  0 < lo → op_ok lo hi o → bounded lo hi c → bounded lo hi (apply_op c o).
Proof.
  intros Hlo Ho [Hd Hw Hu Hc Hi Ht]. destruct o as [b|b now|b s r l|b s now| |b|now|]; simpl in *.
  - by split.
  - split; simpl; try (done || lia). slia.
  - destruct (acknowledged_cases c b s r l) as (c1 & E1 & E2 & E3 & E4 & E5 & E6 & ->).
    assert (0 ≤ sat_sub (in_flight c) b) by slia.
    destruct l; [split; rewrite ?E1, ?E2, ?E3, ?E4, ?E5, ?E6; done|].
    destruct (_ <? _); cbv zeta.
    { split; simpl; rewrite ?E1, ?E2, ?E3, ?E4, ?E5, ?E6; try done. unfold_windows. rewrite E2. lia. }
    set (c2 := c1 <| credit := _ |>).
    assert (0 < window c2 ∧ 0 < datagram c2 ∧ 0 ≤ credit c2) as (? & ? & ?).
    { simpl. rewrite E1, E2, E3. unfold_windows. lia. }
    destruct (avoid_spec (avoid_fuel c2) c2) as (G1 & G2 & G3 & G4 & G5 & G6 & G7 & _); try done.
    { by apply avoid_fuel_enough. }
    split; rewrite ?G3, ?G4, ?G5, ?G6; simpl; rewrite ?E2, ?E4, ?E5, ?E6; try done.
    clear -E1 E2 G7 Hd Hw Hlo. unfold c2 in *. unfold_windows. simpl in *. rewrite E1, E2 in G7. lia.
  - unfold lost. destruct (match recovery_start _ with Some _ => _ | None => _ end).
    { split; simpl; try done. slia. }
    assert (0 ≤ window c / 2 ≤ window c) by (unfold_windows; dlia).
    split; simpl; try (done || lia || slia).
    + unfold_windows. simpl. case_match eqn:E; zbool; dlia.
    + intros u [= <-]. done.
  - unfold spurious. destruct (undo c) as [u|] eqn:E; [|by split; rewrite ?E].
    specialize (Hu u eq_refl). split; simpl; try (done || lia). unfold_windows. simpl. lia.
  - split; simpl; try done. slia.
  - unfold collapse. split; simpl; try (done || lia).
    + unfold_windows. simpl. case_match eqn:E; zbool; lia.
    + intros u [= <-]. done.
  - unfold migrated. split; simpl; try (done || lia). unfold_windows. lia.
Qed.

(** What each packet's fate takes off the bytes in flight. *)
Lemma acknowledged_in_flight lo hi c bytes sent r limited :
  0 < lo → bounded lo hi c → 0 ≤ bytes →
  in_flight (acknowledged c bytes sent r limited) = sat_sub (in_flight c) bytes.
Proof.
  intros Hlo [Hd Hw _ Hc _ _] Hb.
  destruct (acknowledged_cases c bytes sent r limited) as (c1 & E1 & E2 & E3 & E4 & E5 & E6 & ->).
  destruct limited; [done|]. destruct (_ <? _); [done|]. cbv zeta.
  set (c2 := c1 <| credit := _ |>).
  assert (0 < window c2 ∧ 0 < datagram c2 ∧ 0 ≤ credit c2) as (? & ? & ?).
  { simpl. rewrite E1, E2, E3. unfold_windows. lia. }
  destruct (avoid_spec (avoid_fuel c2) c2) as (_ & _ & _ & _ & -> & _); try done.
  by apply avoid_fuel_enough.
Qed.

Lemma lost_in_flight c bytes sent now : in_flight (lost c bytes sent now) = sat_sub (in_flight c) bytes.
Proof. unfold lost. by case_match. Qed.

Lemma spurious_in_flight c : in_flight (spurious c) = in_flight c.
Proof. unfold spurious. by case_match. Qed.

(** The window is always of a usable size.  Whatever sequence of seals,
    acknowledgements, losses, late acknowledgements, silences, collapses, migrations and
    changes of datagram size a controller opened at [lo] goes through, its window stays
    between two datagrams of the smallest size and 512 of the largest, and the bytes in
    flight, the credit and the bucket are never driven below nothing. *)
Theorem window_stays_bounded lo hi ops
    (H : 0 < lo ≤ hi ∧ Forall (op_ok lo hi) ops) :
  let c := foldl apply_op (new lo) ops in
  MIN_DATAGRAMS * lo ≤ window c ≤ MAX_DATAGRAMS * hi ∧ 0 ≤ in_flight c ∧ 0 ≤ credit c ∧
  0 ≤ tokens (pacer c) ∧ 0 < burst c ≤ window c.
Proof.
  destruct H as [Hlo Hall]. cbv zeta.
  assert (bounded lo hi (new lo)) as H0.
  { split; simpl; try (done || lia). unfold_windows. lia. }
  revert H0. generalize (new lo). induction ops as [|o ops IH]; intros c Hc; simpl.
  - destruct Hc as [Hd Hw _ Hcr Hi Ht]. split_and!; try (done || lia);
      unfold burst, BURST_DATAGRAMS; unfold_windows; case_match eqn:E; zbool; lia.
  - apply list.Forall_cons in Hall as [Ho Hall]. apply IH; [done|]. apply apply_op_bounded; [lia|done|done].
Qed.

(** Congestion avoidance always leaves its loop.  An acknowledgement read by a sender the
    window stopped, past slow start, ends with less credit than a window (the loop's exit
    condition), running the loop any longer would change nothing, and the window it leaves
    lies between what it was and its ceiling. *)
Theorem avoidance_terminates c more
    (H : 0 < window c ∧ 0 < datagram c ∧ 0 ≤ credit c) :
  let c' := avoid (avoid_fuel c) c in
  avoid (avoid_fuel c + more) c = c' ∧ 0 ≤ credit c' < window c' ∧
  Z.min (window c) (ceiling c) ≤ window c' ≤ Z.max (window c) (ceiling c).
Proof.
  destruct H as (Hw & Hd & Hc).
  destruct (avoid_spec (avoid_fuel c) c Hw Hd Hc) as (? & ? & _ & _ & _ & _ & ? & Hm).
  { by apply avoid_fuel_enough. }
  cbv zeta. by rewrite Hm.
Qed.

(** The window a fresh loss leaves. *)
Definition halved (c : Congestion) : Z := Z.max (window c / 2) (minimum c).

Lemma echo_losses c flight start :
  recovery_start c = Some start → Forall (λ l : Z * Instant * Instant, l.1.2 < start) flight →
  let c' := foldl (λ c l, lost c l.1.1 l.1.2 l.2) c flight in
  window c' = window c ∧ ssthresh c' = ssthresh c ∧ undo c' = undo c ∧
  recovery_start c' = recovery_start c ∧ datagram c' = datagram c.
Proof.
  revert c; induction flight as [|[[b s] now] flight IH]; intros c Hr Hall; [done|].
  apply list.Forall_cons in Hall as [Hs Hall]. simpl in Hs |- *.
  assert (lost c b s now = c <| in_flight := sat_sub (in_flight c) b |>) as ->.
  { unfold lost. simpl. rewrite Hr. destruct (Z.ltb_spec s start); [done|lia]. }
  destruct (IH (c <| in_flight := sat_sub (in_flight c) b |>)) as (? & ? & ? & ? & ?); [done|done|].
  split_and!; done.
Qed.

(** A flight lost together costs one answer.  A loss that begins an episode halves the
    window, to no less than two datagrams and never to more than it was; every other packet
    sealed before that moment may then be lost too, at any time, without moving it again; and
    if the peer turns out to have had one of them, [spurious] gives the whole window and
    threshold back. *)
Theorem one_answer_per_flight c bytes sent now flight
    (H : (∀ start, recovery_start c = Some start → start ≤ sent) ∧ 0 ≤ window c ≤ ceiling c ∧
         Forall (λ l : Z * Instant * Instant, l.1.2 < now) flight) :
  let c' := foldl (λ c l, lost c l.1.1 l.1.2 l.2) (lost c bytes sent now) flight in
  window c' = halved c ∧ window c' ≤ window c ∧ ssthresh c' = window c' ∧
  window (spurious c') = window c ∧ ssthresh (spurious c') = Z.max (window c') (ssthresh c) ∧
  recovery_start (spurious c') = None.
Proof.
  destruct H as (Hr & Hw & Hall). cbv zeta.
  assert (window (lost c bytes sent now) = halved c ∧ ssthresh (lost c bytes sent now) = halved c ∧
    undo (lost c bytes sent now) = Some {| u_window := window c; u_ssthresh := ssthresh c |} ∧
    recovery_start (lost c bytes sent now) = Some now ∧ datagram (lost c bytes sent now) = datagram c)
    as (E1 & E2 & E3 & E4 & E5).
  { unfold lost. simpl. destruct (recovery_start c) as [st|] eqn:Es; [|done].
    specialize (Hr st eq_refl). destruct (Z.ltb_spec sent st); [lia|done]. }
  destruct (echo_losses (lost c bytes sent now) flight now E4 Hall) as (F1 & F2 & F3 & _ & F5).
  set (c' := foldl _ _ _) in *. clearbody c'.
  assert (halved c ≤ window c) by (unfold halved, minimum; case_match eqn:E; zbool; dlia).
  unfold spurious. rewrite F3, E3. simpl. unfold ceiling in *. simpl. rewrite F1, F2, F5, E1, E2, E5.
  split_and!; (done || lia).
Qed.

(** ** Witnesses *)

Definition demo : Congestion := (sealed (new 1200) 12000 0).2.

Lemma ready_is_writable_witness :
  let c := demo <| in_flight := 0 |> in
  ready c 5 1200 = Some (5 + from_micros 10000) ∧ writable c 5 1200 = false ∧
  writable c (5 + from_micros 10000) 1200 = true.
Proof.
  cbv zeta. assert (ready (demo <| in_flight := 0 |>) 5 1200 = Some (5 + from_micros 10000)) as Hr by (by vm_compute).
  split; [exact Hr|]. split; [by vm_compute|].
  apply (ready_is_writable (demo <| in_flight := 0 |>) 5 1200 (5 + from_micros 10000)).
  split; [exact Hr|]. split; [by vm_compute|]. split; [by vm_compute|]. split; [by vm_compute|].
  split; [intros r [= <-]; lia|done].
Defined.

Lemma pacing_is_bounded_witness :
  (12000 + 1200) * (100000 * 1000) ≤ 12000 * (100000 * 1000) + (from_millis 10 - 0) * 12000.
Proof.
  apply (pacing_is_bounded pacer_new 12000 12000 None 12000 0 [(1200, from_millis 10)]).
  split; [lia|]. split; [by vm_compute|]. split; [done|]. split; [by vm_compute|].
  split; [intros r [= <-]; by vm_compute|done].
Defined.

Lemma window_stays_bounded_witness :
  2400 ≤ window (foldl apply_op (new 1200) (repeat (Lost 1200 0 0) 9)) ≤ 512 * 1452 ∧
  window (foldl apply_op (new 1200) (repeat (Lost 1200 0 0) 9)) = 2400.
Proof.
  split; [|by vm_compute].
  apply (window_stays_bounded 1200 1452 (repeat (Lost 1200 0 0) 9)).
  split; [lia|]. repeat constructor; simpl; lia.
Defined.

Lemma avoidance_terminates_witness :
  let c := (new 1200) <| credit := 40000 |> in
  window (avoid (avoid_fuel c) c) = 14400 + 1200 ∧ credit (avoid (avoid_fuel c) c) < window (avoid (avoid_fuel c) c).
Proof.
  cbv zeta. split; [by vm_compute|].
  apply (avoidance_terminates ((new 1200) <| credit := 40000 |>) 7). by vm_compute.
Defined.

Lemma one_answer_per_flight_witness :
  let c' := foldl (λ c l, lost c l.1.1 l.1.2 l.2) (lost (new 1200) 1200 3 10) [(1200, 4, 11); (1200, 5, 50)] in
  window c' = 6000 ∧ window (spurious c') = 12000.
Proof.
  destruct (one_answer_per_flight (new 1200) 1200 3 10 [(1200, 4, 11); (1200, 5, 50)]) as (W1 & _ & _ & W2 & _).
  { split; [done|]. split; [by vm_compute|]. repeat constructor. }
  split; [etrans; [exact W1|by vm_compute]|exact W2].
Defined.

End Congestion.
