(* ===== verification/Mtu.v ===== *)
(** * The width of the path ([crates/dgram/src/mtu.rs])

    The search over four candidate datagram sizes, with the suspicion that a path has stopped
    carrying a size it had accepted.

    The theorems show that the width in force and every probe stay between the base size and the
    largest datagram, that a connection whose kernel may fragment never probes and never leaves
    the base size, that the width moves only on the evidence the design names (up on a probe that
    came back, down on two lost confirmations with something small getting through, or on the
    kernel's own word), and that the search settles on the widest candidate a path carries. *)

From S2P Require Import Prelude Packet.

Module Mtu.

Definition CANDIDATES : list Z := [1400; 1500; 4000; 8900].
Definition CANDIDATE_LOSSES : Z := 2.
Definition PMTU_BLACKHOLE_LOSSES : Z := 3.
Definition PMTU_BLACKHOLE_SILENCES : Z := 2.
Definition CONFIRM_LOSSES : Z := 2.
Definition PROBE_SPACING : Duration := from_secs 1.
Definition COOLDOWN : Duration := from_secs 60.
Definition SEARCH_RETRY : Duration := from_secs 60.

Inductive Fragmentation := Refused | Permitted.

Inductive Search :=
| Unproven
| Asking (candidate : Z) (outstanding : option Z) (lost : Z) (due : option Instant)
| Settled
| Confirming (due : Instant) (outstanding : option Z) (lost : Z)
| Cooling (until : Instant).

Record Mtu := mkMtu {
  plpmtu : Z;
  search : Search;
  next : nat;
  blackhole : Z;
  silences : Z;
  suspect : Z;
  small_arrived : bool;
  fragmentation : Fragmentation
}.
#[export] Instance Mtu_settable : Settable Mtu := λ m,
  mkMtu (plpmtu m) (search m) (next m) (blackhole m) (silences m) (suspect m) (small_arrived m)
    (fragmentation m).

Definition new (fragmentation : Fragmentation) : Mtu :=
  {| plpmtu := Packet.BASE_DATAGRAM;
     search := match fragmentation with Refused => Unproven | Permitted => Settled end;
     next := 0; blackhole := 0; silences := 0; suspect := USIZE_MAX; small_arrived := false;
     fragmentation := fragmentation |}.

Definition datagram (m : Mtu) : Z := plpmtu m.

(** The loop of [begin], over the candidates from [next] on. *)
Fixpoint begin_from (rest : list Z) (m : Mtu) : Mtu :=
  match rest with
  | candidate :: rest =>
      if plpmtu m <? candidate then m <| search := Asking candidate None 0 None |>
      else begin_from rest (m <| next := S (next m) |>)
  | [] => m <| search := Settled |>
  end.
Definition begin (m : Mtu) : Mtu := begin_from (drop (next m) CANDIDATES) m.

Definition proven (m : Mtu) : Mtu := match search m with Unproven => begin m | _ => m end.

Definition migrated (m : Mtu) : Mtu := new (fragmentation m).

Definition poll (m : Mtu) (now : Instant) : option Z * Mtu :=
  let m := match search m with
           | Cooling until => if until <=? now then begin m else m
           | _ => m
           end in
  match search m with
  | Asking candidate None _ due =>
      if match due with None => true | Some due => due <=? now end then (Some candidate, m) else (None, m)
  | Confirming due None lost =>
      if due <=? now then
        (Some (plpmtu m), m <| search := Confirming (now + PROBE_SPACING) None lost |>)
      else (None, m)
  | _ => (None, m)
  end.

Definition confirming (m : Mtu) : bool :=
  match search m with Confirming _ _ _ => true | _ => false end.

Definition probing (m : Mtu) (number : Z) : Mtu :=
  match search m with
  | Asking candidate _ lost due => m <| search := Asking candidate (Some number) lost due |>
  | Confirming due _ lost => m <| search := Confirming due (Some number) lost |>
  | Unproven | Settled | Cooling _ => m
  end.

Definition deadline (m : Mtu) : option Instant :=
  match search m with
  | Cooling until => Some until
  | Asking _ None _ due => due
  | Confirming due None _ => Some due
  | _ => None
  end.

Definition withdraw (m : Mtu) : Mtu :=
  let m := m <| blackhole := 0 |> <| silences := 0 |> <| suspect := USIZE_MAX |> <| small_arrived := false |> in
  if confirming m then begin m else m.

Definition acknowledged (m : Mtu) (number bytes : Z) : Mtu :=
  let m := if bytes <=? Packet.BASE_DATAGRAM then m <| small_arrived := true |> else m in
  let '(answered, m) :=
    match search m with
    | Asking candidate (Some outstanding) _ _ =>
        if outstanding =? number then
          (true, m <| plpmtu := Z.min candidate Packet.MAX_DATAGRAM |> <| next := S (next m) |>)
        else (false, m)
    | Confirming _ (Some outstanding) _ => (outstanding =? number, m)
    | _ => (false, m)
    end in
  let m := if answered || (suspect m <=? bytes) then withdraw m else m in
  if answered then begin m else m.

Definition narrowed (m : Mtu) (carries : Z) (now : Instant) : Mtu :=
  m <| plpmtu := carries |> <| blackhole := 0 |> <| suspect := USIZE_MAX |> <| small_arrived := false |>
    <| next := O |> <| search := Cooling (now + COOLDOWN) |>.

Definition confirmed_lost (m : Mtu) (lost : Z) (now : Instant) : Mtu :=
  if lost <? CONFIRM_LOSSES then m <| search := Confirming (now + PROBE_SPACING) None lost |>
  else if negb (small_arrived m) then withdraw m
  else narrowed m Packet.BASE_DATAGRAM now.

Definition probe_gone (m : Mtu) (number : Z) (now : Instant) : bool * Mtu :=
  match search m with
  | Asking candidate (Some outstanding) lost _ =>
      if outstanding =? number then
        (true, m <| search :=
                      if CANDIDATE_LOSSES <=? lost + 1 then Cooling (now + SEARCH_RETRY)
                      else Asking candidate None (lost + 1) (Some (now + PROBE_SPACING)) |>)
      else (false, m)
  | Confirming _ (Some outstanding) lost =>
      if outstanding =? number then (true, confirmed_lost m (lost + 1) now) else (false, m)
  | _ => (false, m)
  end.

Definition oversize (m : Mtu) (bytes : Z) : bool :=
  (Packet.BASE_DATAGRAM <? bytes) && (Packet.BASE_DATAGRAM <? plpmtu m).

Definition suspected (m : Mtu) (bytes : Z) (now : Instant) : Mtu :=
  if negb (oversize m bytes) then m
  else
    let m := m <| blackhole := blackhole m + 1 |> <| suspect := Z.min (suspect m) bytes |> in
    if (blackhole m <? PMTU_BLACKHOLE_LOSSES) || negb (small_arrived m) then m
    else if negb (confirming m) then m <| search := Confirming now None 0 |> else m.

Definition lost (m : Mtu) (number bytes : Z) (now : Instant) : Mtu :=
  let '(gone, m) := probe_gone m number now in
  if gone then m else suspected m bytes now.

Definition silent (m : Mtu) (number bytes : Z) (now : Instant) : Mtu :=
  let '(gone, m) := probe_gone m number now in
  if gone then m
  else if negb (oversize m bytes) then m
  else
    let m := m <| silences := silences m + 1 |> in
    if silences m <? PMTU_BLACKHOLE_SILENCES then m
    else suspected (m <| silences := 0 |>) bytes now.

Definition forgotten (m : Mtu) (number : Z) (now : Instant) : Mtu := (probe_gone m number now).2.

Definition refused (m : Mtu) (carries : Z) (now : Instant) : Mtu :=
  let carries := clamp carries Packet.BASE_DATAGRAM Packet.MAX_DATAGRAM in
  if plpmtu m <=? carries then m else narrowed m carries now.

(** ** Every operation *)

Inductive event :=
| Proven
| Migrated
| Poll (now : Instant)
| Probing (number : Z)
| Acknowledged (number bytes : Z)
| Lost (number bytes : Z) (now : Instant)
| Silent (number bytes : Z) (now : Instant)
| Forgotten (number : Z) (now : Instant)
| KernelRefused (carries : Z) (now : Instant).

Definition step (m : Mtu) (e : event) : Mtu :=
  match e with
  | Proven => proven m
  | Migrated => migrated m
  | Poll now => (poll m now).2
  | Probing number => probing m number
  | Acknowledged number bytes => acknowledged m number bytes
  | Lost number bytes now => lost m number bytes now
  | Silent number bytes now => silent m number bytes now
  | Forgotten number now => forgotten m number now
  | KernelRefused carries now => refused m carries now
  end.

Record inv (m : Mtu) : Prop := {
  inv_width : Packet.BASE_DATAGRAM ≤ plpmtu m ≤ Packet.MAX_DATAGRAM;
  inv_asking : ∀ c o l d, search m = Asking c o l d → plpmtu m < c ∧ c ∈ CANDIDATES;
  inv_confirming : confirming m = true → Packet.BASE_DATAGRAM < plpmtu m;
  inv_permitted : fragmentation m = Permitted → search m = Settled ∧ plpmtu m = Packet.BASE_DATAGRAM
}.

(** [begin] moves only the search and its position. *)
Definition asks_from (rest : list Z) (width : Z) : Search :=
  match filter (λ c, width < c) rest with
  | c :: _ => Asking c None 0 None
  | [] => Settled
  end.

Lemma begin_spec m :
  let m' := begin m in
  plpmtu m' = plpmtu m ∧ fragmentation m' = fragmentation m ∧ blackhole m' = blackhole m ∧
  suspect m' = suspect m ∧ small_arrived m' = small_arrived m ∧ silences m' = silences m ∧
  search m' = asks_from (drop (next m) CANDIDATES) (plpmtu m).
Proof.
  unfold begin. generalize (drop (next m) CANDIDATES) as rest. intros rest. revert m.
  induction rest as [|c rest IH]; intros m; [done|]. simpl. unfold asks_from.
  destruct (Z.ltb_spec (plpmtu m) c).
  - rewrite filter_cons_True by done. done.
  - rewrite filter_cons_False by lia. fold (asks_from rest (plpmtu m)).
    exact (IH (m <| next := S (next m) |>)).
Qed.

Lemma asks_from_asking rest w c o l d :
  asks_from rest w = Asking c o l d → w < c ∧ c ∈ rest.
Proof.
  unfold asks_from. destruct (filter (λ c, w < c) rest) as [|x xs] eqn:E; [done|]. intros [= -> _ _ _].
  assert (c ∈ filter (λ c, w < c) rest) as [? ?]%list_elem_of_filter by (rewrite E; by constructor).
  done.
Qed.

Lemma asks_from_not_confirming rest w m : search m = asks_from rest w → confirming m = false.
Proof. unfold confirming, asks_from. intros ->. by destruct (filter _ _). Qed.

Lemma begin_inv m :
  Packet.BASE_DATAGRAM ≤ plpmtu m ≤ Packet.MAX_DATAGRAM → fragmentation m = Refused → inv (begin m).
Proof.
  intros Hw Hf. destruct (begin_spec m) as (E1 & E2 & _ & _ & _ & _ & E7).
  split; rewrite ?E1, ?E2, ?Hf; try done.
  - intros c o l d. rewrite E7. intros [? He]%asks_from_asking. split; [done|].
    by eapply subseteq_drop.
  - by rewrite (asks_from_not_confirming _ _ _ E7).
Qed.

Lemma withdraw_inv m : inv m → inv (withdraw m).
Proof.
  intros [Hw Ha Hc Hp]. unfold withdraw. set (m0 := m <| blackhole := _ |> <| silences := _ |> <| suspect := _ |> <| small_arrived := _ |>).
  destruct (confirming m0) eqn:E.
  - apply begin_inv; [done|]. destruct (fragmentation m) eqn:Ef; [done|].
    destruct (Hp eq_refl) as [Hs _]. unfold confirming in E. simpl in E. by rewrite Hs in E.
  - by split.
Qed.

Lemma narrowed_inv m w now :
  Packet.BASE_DATAGRAM ≤ w ≤ Packet.MAX_DATAGRAM → fragmentation m = Refused → inv (narrowed m w now).
Proof. intros Hw Hf. split; simpl; (done || congruence). Qed.

Lemma not_permitted m : inv m → search m ≠ Settled → fragmentation m = Refused.
Proof. intros [_ _ _ Hp] Hs. destruct (fragmentation m); [done|]. by destruct (Hp eq_refl). Qed.

Lemma probe_gone_inv m number now : inv m → inv (probe_gone m number now).2.
Proof.
  intros Hi. pose proof (not_permitted m Hi) as Hf. pose proof Hi as [Hw Ha Hc Hp]. unfold probe_gone.
  destruct (search m) as [|c o l d| |d o l|u] eqn:Es; try done.
  - destruct o as [o|]; [|done]. destruct (o =? number); [|done].
    specialize (Hf ltac:(discriminate)). split; simpl; try done.
    + intros c' o' l' d'. case_match; intros [= -> _ _ _]. by apply (Ha _ _ _ _ eq_refl).
    + unfold confirming. simpl. destruct (CANDIDATE_LOSSES <=? l + 1); done.
    + congruence.
  - destruct o as [o|]; [|done]. destruct (o =? number); [|done].
    specialize (Hf ltac:(discriminate)). unfold confirmed_lost. simpl. case_match.
    + split; simpl; try (done || congruence). intros _. apply Hc. unfold confirming. by rewrite Es.
    + destruct (negb (small_arrived m)); [by apply withdraw_inv|].
      apply narrowed_inv; [|done]. unfold Packet.BASE_DATAGRAM, Packet.MAX_DATAGRAM. lia.
Qed.

Lemma suspected_inv m bytes now : inv m → inv (suspected m bytes now).
Proof.
  intros [Hw Ha Hc Hp]. unfold suspected, oversize.
  destruct (Z.ltb_spec Packet.BASE_DATAGRAM bytes); [|done].
  destruct (Z.ltb_spec Packet.BASE_DATAGRAM (plpmtu m)) as [Hov|]; [|done]. simpl.
  assert (fragmentation m = Refused) as Hf.
  { destruct (fragmentation m); [done|]. destruct (Hp eq_refl). lia. }
  case_match; [by split|]. unfold confirming at 1. simpl. destruct (search m) eqn:Es; simpl;
    split; simpl; rewrite ?Hf, ?Es; try done.
Qed.

Lemma withdraw_premise m : fragmentation (withdraw m) = fragmentation m ∧ plpmtu (withdraw m) = plpmtu m.
Proof.
  unfold withdraw. case_match; [|done].
  match goal with |- context [begin ?x] => destruct (begin_spec x) as (F1 & F2 & _) end. done.
Qed.

(** What an acknowledgement does: nothing about the width unless it answers the probe in the
    air, and then [begin] starts over from the width it settled. *)
Lemma ack_cases m number bytes :
  let m' := acknowledged m number bytes in
  (∃ m0, plpmtu m0 = plpmtu m ∧ search m0 = search m ∧ fragmentation m0 = fragmentation m ∧
     next m0 = next m ∧ (m' = m0 ∨ m' = withdraw m0)) ∨
  (∃ m0, (plpmtu m0 = plpmtu m ∨
          ∃ c l d, search m = Asking c (Some number) l d ∧ plpmtu m0 = Z.min c Packet.MAX_DATAGRAM) ∧
     search m ≠ Settled ∧ fragmentation m0 = fragmentation m ∧ m' = begin m0).
Proof.
  unfold acknowledged. set (m1 := if bytes <=? _ then _ else m).
  assert (plpmtu m1 = plpmtu m ∧ search m1 = search m ∧ fragmentation m1 = fragmentation m ∧ next m1 = next m)
    as (E1 & E2 & E3 & E4) by (unfold m1; by case_match).
  clearbody m1. cbv zeta.
  assert (∀ b : bool, (∃ m0, plpmtu m0 = plpmtu m ∧ search m0 = search m ∧ fragmentation m0 = fragmentation m ∧
     next m0 = next m ∧ ((if b then withdraw m1 else m1) = m0 ∨ (if b then withdraw m1 else m1) = withdraw m0))) as Hno.
  { intros b. exists m1. split_and!; try done. destruct b; auto. }
  assert (∀ m2, fragmentation (withdraw m2) = fragmentation m2 ∧ plpmtu (withdraw m2) = plpmtu m2) as Hwd.
  { apply withdraw_premise. }
  rewrite E2. destruct (search m) as [|c o l d| |d o l|u] eqn:Es; try (left; apply Hno).
  - destruct o as [o|]; [|left; apply Hno]. destruct (Z.eqb_spec o number) as [->|]; [|left; apply Hno].
    right. simpl. set (m2 := m1 <| plpmtu := _ |> <| next := _ |>). exists (withdraw m2).
    destruct (Hwd m2) as [-> ->]. split_and!; try done. right. by exists c, l, d.
  - destruct o as [o|]; [|left; apply Hno]. destruct (Z.eqb_spec o number) as [->|]; [|left; apply Hno].
    right. simpl. exists (withdraw m1). destruct (Hwd m1) as [-> ->]. split_and!; try done. by left.
Qed.

Lemma candidate_bound c : c ∈ CANDIDATES → Packet.BASE_DATAGRAM < c ≤ Packet.MAX_DATAGRAM.
Proof.
  unfold CANDIDATES, Packet.BASE_DATAGRAM, Packet.MAX_DATAGRAM. rewrite !elem_of_cons, elem_of_nil. lia.
Qed.

Lemma acknowledged_inv m number bytes : inv m → inv (acknowledged m number bytes).
Proof.
  intros Hi. pose proof Hi as [Hw Ha Hc Hp].
  destruct (ack_cases m number bytes) as [(m0 & E1 & E2 & E3 & E4 & Hm)|(m0 & Hm0 & Hs & Hf & ->)].
  - assert (inv m0) as Hi0.
    { split; unfold confirming in *; rewrite ?E1, ?E2, ?E3; done. }
    destruct Hm as [->| ->]; [done|by apply withdraw_inv].
  - apply begin_inv; [|rewrite Hf; by apply not_permitted].
    destruct Hm0 as [->|(c & l & d & Hsm & ->)]; [done|].
    destruct (Ha _ _ _ _ Hsm) as [? ?%candidate_bound]. lia.
Qed.

Lemma search_step_inv m e : inv m → inv (step m e).
Proof.
  intros Hi. pose proof Hi as [Hw Ha Hc Hp].
  destruct e as [| |now|n|n b|n b now|n b now|n now|c now]; simpl.
  - unfold proven. destruct (search m) eqn:Es; try done. apply begin_inv; [done|].
    apply not_permitted; [done|by rewrite Es].
  - unfold migrated. destruct (fragmentation m); split; simpl; done.
  - unfold poll. set (m1 := match search m with Cooling _ => _ | _ => _ end).
    assert (inv m1) as Hi1.
    { unfold m1. destruct (search m) eqn:Es; try done. case_match; [|done]. apply begin_inv; [done|].
      apply not_permitted; [done|by rewrite Es]. }
    clearbody m1. clear -Hi1. pose proof (not_permitted m1 Hi1) as Hf. pose proof Hi1 as [Hw Ha Hc Hp].
    unfold confirming in Hc. destruct (search m1) as [|c o l d| |d o l|u] eqn:Es; try done.
    + destruct o; [done|]. by repeat case_match.
    + destruct o; [done|]. case_match; [|done]. specialize (Hf ltac:(discriminate)).
      split; simpl; (done || congruence).
  - unfold probing. pose proof (not_permitted m Hi) as Hf. unfold confirming in Hc.
    destruct (search m) as [|c o l d| |d o l|u] eqn:Es; try done.
    + specialize (Hf ltac:(discriminate)). split; simpl; try (done || congruence).
      intros ? ? ? ? [= -> _ -> ->]. by eapply Ha.
    + specialize (Hf ltac:(discriminate)). split; simpl; (done || congruence).
  - by apply acknowledged_inv.
  - unfold lost. pose proof (probe_gone_inv m n now Hi) as Hg. destruct (probe_gone m n now) as [[] m1]; [done|].
    by apply suspected_inv.
  - unfold silent. pose proof (probe_gone_inv m n now Hi) as Hg. destruct (probe_gone m n now) as [[] m1]; [done|].
    simpl in Hg. destruct (oversize m1 b); [|done]. simpl. destruct Hg. case_match; [by split|]. apply suspected_inv. by split.
  - by apply probe_gone_inv.
  - unfold refused. destruct (Z.leb_spec (plpmtu m) (clamp c Packet.BASE_DATAGRAM Packet.MAX_DATAGRAM)); [done|].
    unfold Packet.BASE_DATAGRAM, Packet.MAX_DATAGRAM in *. apply narrowed_inv;
      unfold Packet.BASE_DATAGRAM, Packet.MAX_DATAGRAM; [slia|].
    destruct (fragmentation m); [done|]. destruct (Hp eq_refl). slia.
Qed.

(** No event changes what the kernel does with an oversize datagram. *)
Lemma probe_gone_premise m n now : fragmentation (probe_gone m n now).2 = fragmentation m.
Proof.
  unfold probe_gone, confirmed_lost. repeat case_match; simpl; try done. apply withdraw_premise.
Qed.

Lemma suspected_premise m b now :
  fragmentation (suspected m b now) = fragmentation m ∧ plpmtu (suspected m b now) = plpmtu m.
Proof. unfold suspected. repeat case_match; done. Qed.

Lemma step_premise m e : fragmentation (step m e) = fragmentation m.
Proof.
  destruct e as [| |now|n|n b|n b now|n b now|n now|c now]; simpl.
  - unfold proven. case_match; try done. apply begin_spec.
  - unfold migrated. done.
  - unfold poll. set (m1 := match search m with Cooling _ => _ | _ => _ end).
    assert (fragmentation m1 = fragmentation m) as <-.
    { unfold m1. repeat case_match; try done. apply begin_spec. }
    clearbody m1. repeat case_match; done.
  - unfold probing. by case_match.
  - destruct (ack_cases m n b) as [(m0 & _ & _ & Hf & _ & [->| ->])|(m0 & _ & _ & Hf & ->)].
    + done.
    + by rewrite (proj1 (withdraw_premise m0)).
    + rewrite <- Hf. apply begin_spec.
  - unfold lost. pose proof (probe_gone_premise m n now) as H. destruct (probe_gone m n now) as [[] m1]; [done|].
    by rewrite (proj1 (suspected_premise m1 b now)).
  - unfold silent. pose proof (probe_gone_premise m n now) as H. destruct (probe_gone m n now) as [[] m1]; [done|].
    simpl in H. repeat case_match; try done. by rewrite (proj1 (suspected_premise _ b now)).
  - apply probe_gone_premise.
  - unfold refused. by case_match.
Qed.

(** Any history of a search. *)
Definition history (f : Fragmentation) (events : list event) : Mtu := foldl step (new f) events.

Lemma history_inv f events : inv (history f events).
Proof.
  unfold history. assert (inv (new f)) as H0 by (destruct f; split; done).
  revert H0. generalize (new f). induction events as [|e events IH]; intros m Hm; [done|].
  apply IH. by apply search_step_inv.
Qed.

(** ** Properties *)

(** The width in force is always one a datagram can have.  After any history it lies
    between the base size and the largest datagram, and a probe the search offers is above the
    base size and no larger than the largest datagram. *)
Theorem width_stays_in_bounds f events now :
  let m := history f events in
  Packet.BASE_DATAGRAM ≤ datagram m ≤ Packet.MAX_DATAGRAM ∧
  match (poll m now).1 with
  | Some size => Packet.BASE_DATAGRAM < size ≤ Packet.MAX_DATAGRAM
  | None => True
  end.
Proof.
  cbv zeta. pose proof (history_inv f events) as Hi. split; [by destruct Hi|].
  pose proof (search_step_inv _ (Poll now) Hi) as Hi'. revert Hi'. simpl. unfold poll.
  set (m1 := match search (history f events) with Cooling _ => _ | _ => _ end).
  destruct (search m1) as [|c o l d| |d o l|u] eqn:Es; try done; (destruct o as [o|]; [done|]).
  - case_match; [|done]. intros [_ Ha _ _]. by destruct (Ha _ _ _ _ Es) as [_ ?%candidate_bound].
  - case_match; [|done]. intros [Hw _ Hc _]. simpl in *. specialize (Hc eq_refl). lia.
Qed.

(** Where the kernel may fragment, a probe proves nothing, and none is ever sent: after
    any history of events such a connection still sends the base size, offers no probe and
    asks for no timer. *)
Theorem fragmenting_path_never_probes events now :
  let m := history Permitted events in
  datagram m = Packet.BASE_DATAGRAM ∧ (poll m now).1 = None ∧ deadline m = None.
Proof.
  cbv zeta. pose proof (history_inv Permitted events) as [_ _ _ Hp].
  assert (fragmentation (history Permitted events) = Permitted) as Hf.
  { unfold history. generalize (eq_refl : fragmentation (new Permitted) = Permitted).
    generalize (new Permitted). clear. induction events as [|e events IH]; intros m Hm; [done|].
    apply IH. by rewrite step_premise. }
  destruct (Hp Hf) as [Hs Hw]. unfold datagram, poll, deadline. rewrite Hs. simpl. by rewrite Hs.
Qed.

(** The packet an event says is gone. *)
Definition gone_number (e : event) : option Z :=
  match e with
  | Lost n _ _ | Silent n _ _ | Forgotten n _ => Some n
  | _ => None
  end.

(** What may move the width, and to what. *)
Inductive evidence (m : Mtu) : event → Z → Prop :=
| probe_came_back n b c l d :
    search m = Asking c (Some n) l d → plpmtu m < c → evidence m (Acknowledged n b) c
| another_path : evidence m Migrated Packet.BASE_DATAGRAM
| kernel_said c now :
    c < plpmtu m → evidence m (KernelRefused c now) (Z.max Packet.BASE_DATAGRAM c)
| confirmations_lost e n d l :
    gone_number e = Some n → search m = Confirming d (Some n) l → CONFIRM_LOSSES ≤ l + 1 →
    small_arrived m = true → evidence m e Packet.BASE_DATAGRAM.

Lemma probe_gone_width m e n now :
  gone_number e = Some n →
  plpmtu (probe_gone m n now).2 = plpmtu m ∨ evidence m e (plpmtu (probe_gone m n now).2).
Proof.
  intros He. unfold probe_gone. destruct (search m) as [|c o l d| |d o l|u] eqn:Es; auto.
  - destruct o as [o|]; [|auto]. destruct (o =? n); auto.
  - destruct o as [o|]; [|auto]. destruct (Z.eqb_spec o n) as [->|]; [|auto]. simpl.
    unfold confirmed_lost. destruct (Z.ltb_spec (l + 1) CONFIRM_LOSSES); [auto|].
    destruct (small_arrived m) eqn:Esm; simpl; [|left; apply withdraw_premise].
    right. by eapply confirmations_lost.
Qed.

(** The width moves only on evidence.  After any history, an event leaves the width
    alone unless it is the acknowledgement of the outstanding probe of a wider candidate
    (which becomes the width), a migration, the kernel naming less than the width (which it
    becomes, floored at the base size), or the loss, by whatever cause, of the second
    confirmation probe while something small has arrived (which drops it to the base size).
    Losing data, however much, is never enough. *)
Theorem width_moves_only_on_evidence f events e :
  let m := history f events in
  datagram (step m e) = datagram m ∨ evidence m e (datagram (step m e)).
Proof.
  cbv zeta. pose proof (history_inv f events) as [Hw Ha _ _]. set (m := history f events) in *. clearbody m.
  unfold datagram. destruct e as [| |now|n|n b|n b now|n b now|n now|c now]; simpl.
  - left. unfold proven. case_match; try done. apply begin_spec.
  - right. constructor.
  - left. unfold poll. set (m1 := match search m with Cooling _ => _ | _ => _ end).
    assert (plpmtu m1 = plpmtu m) as <-.
    { unfold m1. repeat case_match; try done. apply begin_spec. }
    clearbody m1. repeat case_match; done.
  - left. unfold probing. by case_match.
  - destruct (ack_cases m n b) as [(m0 & E1 & _ & _ & _ & [->| ->])|(m0 & Hm0 & _ & _ & ->)].
    + by left.
    + left. by rewrite (proj2 (withdraw_premise m0)).
    + rewrite (proj1 (begin_spec m0)). destruct Hm0 as [->|(c & l & d & Hs & ->)]; [by left|].
      right. destruct (Ha _ _ _ _ Hs) as [? ?%candidate_bound].
      rewrite Z.min_l by lia. by eapply probe_came_back.
  - unfold lost. pose proof (probe_gone_width m (Lost n b now) n now eq_refl) as H.
    destruct (probe_gone m n now) as [[] m1]; [done|]. by rewrite (proj2 (suspected_premise m1 b now)).
  - unfold silent. pose proof (probe_gone_width m (Silent n b now) n now eq_refl) as H.
    destruct (probe_gone m n now) as [[] m1]; [done|].
    destruct (negb (oversize m1 b)); [done|]. case_match; [done|]. by rewrite (proj2 (suspected_premise _ b now)).
  - by apply probe_gone_width.
  - unfold refused. destruct (Z.leb_spec (plpmtu m) (clamp c Packet.BASE_DATAGRAM Packet.MAX_DATAGRAM)) as [|Hlt]; [by left|].
    right. simpl. replace (clamp c _ _) with (Z.max Packet.BASE_DATAGRAM c) in * by slia. constructor. lia.
Qed.

(** A path that carries datagrams of up to [width] bytes: a probe it carries is acknowledged,
    one it does not is lost, and the host asks again a probe spacing later. *)
Definition round (width : Z) (s : Mtu * Z * Instant) : Mtu * Z * Instant :=
  let '(m, number, now) := s in
  let '(ask, m) := poll m now in
  let m := match ask with
           | Some size =>
               let m := probing m number in
               if size <=? width then acknowledged m number size else lost m number size now
           | None => m
           end in
  (m, number + 1, now + PROBE_SPACING).

Definition widest (width : Z) : Z :=
  foldl (λ best c, if c <=? width then c else best) Packet.BASE_DATAGRAM CANDIDATES.

(** The search after its first [k] candidates were accepted. *)
Definition accepted (k : nat) : Mtu :=
  {| plpmtu := default Packet.BASE_DATAGRAM (CANDIDATES !! pred k);
     search := match CANDIDATES !! k with Some c => Asking c None 0 None | None => Settled end;
     next := k; blackhole := 0; silences := 0; suspect := USIZE_MAX; small_arrived := false;
     fragmentation := Refused |}.
Definition rank (k : nat) : Mtu :=
  match k with O => proven (new Refused) | _ => accepted k end.

Lemma round_accept width k c number now :
  CANDIDATES !! k = Some c → c ≤ width →
  round width (rank k, number, now) = (rank (S k), number + 1, now + PROBE_SPACING).
Proof.
  intros Hk Hw. do 4 (destruct k as [|k]; [injection Hk as <-; unfold round; simpl;
    rewrite (proj2 (Z.leb_le _ width)) by done; unfold acknowledged; simpl; rewrite Z.eqb_refl; reflexivity|]).
  by destruct k.
Qed.

Lemma round_reject width k c number now :
  CANDIDATES !! k = Some c → width < c →
  ∃ m, round width (round width (rank k, number, now)) = (m, number + 1 + 1, now + PROBE_SPACING + PROBE_SPACING) ∧
    plpmtu m = plpmtu (rank k) ∧ search m = Cooling (now + PROBE_SPACING + SEARCH_RETRY).
Proof.
  intros Hk Hw. do 4 (destruct k as [|k]; [injection Hk as <-; unfold round; simpl;
    rewrite (proj2 (Z.leb_gt _ width)) by done; unfold lost, probe_gone; simpl; rewrite !Z.eqb_refl; simpl;
    unfold poll; simpl; rewrite Z.leb_refl; simpl; rewrite (proj2 (Z.leb_gt _ width)) by done;
    rewrite !Z.eqb_refl; simpl; eexists; split_and!; reflexivity|]).
  by destruct k.
Qed.

(** At rest, a round asks nothing. *)
Lemma round_rest width m number now :
  (search m = Settled ∨ ∃ until, search m = Cooling until ∧ now < until) →
  round width (m, number, now) = (m, number + 1, now + PROBE_SPACING).
Proof.
  intros [Hs|(u & Hs & Hu)]; unfold round, poll; rewrite Hs; simpl; [by rewrite Hs|].
  rewrite (proj2 (Z.leb_gt u now)) by done. by rewrite Hs.
Qed.

(** The rest of the rounds once candidate [k] is wider than the path. *)
Ltac refused_at k c :=
  match goal with
  | |- context [round ?w (round ?w (rank k, ?n, ?t))] =>
      let m := fresh "m" in let E1 := fresh "E" in let E2 := fresh "E" in
      destruct (round_reject w k c n t) as (m & -> & E1 & E2); [done|done|];
      repeat (rewrite round_rest;
              [|right; eexists; split; [exact E2|clear; unfold PROBE_SPACING, SEARCH_RETRY; slia]]);
      repeat match goal with |- context [?a <=? w] => destruct (Z.leb_spec a w); [lia|] end;
      unfold datagram; rewrite E1; split; [reflexivity|eauto]
  end.

(** The search finds the path.  From the first proof that a path carries anything, five
    rounds of asking settle the width on the widest candidate the path carries (the base size
    if it carries none), whatever its width, and the search is then at rest, settled or
    cooling, with no probe in the air. *)
Theorem search_finds_the_width width number now :
  let '(m, _, _) := Nat.iter 5 (round width) (proven (new Refused), number, now) in
  datagram m = widest width ∧ (search m = Settled ∨ ∃ until, search m = Cooling until).
Proof.
  change (proven (new Refused)) with (rank 0). unfold widest, CANDIDATES. simpl foldl.
  replace (Nat.iter 5 (round width) (rank 0, number, now)) with
    (round width (round width (round width (round width (round width (rank 0, number, now)))))) by done.
  destruct (Z.leb_spec 1400 width); [rewrite (round_accept width 0 1400) by done|by refused_at 0%nat 1400].
  destruct (Z.leb_spec 1500 width); [rewrite (round_accept width 1 1500) by done|by refused_at 1%nat 1500].
  destruct (Z.leb_spec 4000 width); [rewrite (round_accept width 2 4000) by done|by refused_at 2%nat 4000].
  destruct (Z.leb_spec 8900 width); [rewrite (round_accept width 3 8900) by done|by refused_at 3%nat 8900].
  rewrite round_rest by (by left). split; [done|by left].
Qed.

End Mtu.
