(* ===== verification/Endpoint.v ===== *)
(** * One end of a connection ([crates/dgram/src/endpoint.rs])

    [Endpoint] composes the key schedule, the replay window, the path validator, the congestion
    controller, the loss detector and the MTU search.  Operations that seal return [None] where
    the code would panic (an assertion of an encoder failing) and otherwise the result with the
    state after it; a datagram sealed is returned rather than appended to a buffer, and a frame
    received is the plaintext at the range the code names.

    [Run] drives an endpoint through any sequence of its public operations.  The theorems show
    that it never panics and numbers what it emits 0, 1, 2, ..., so no key ever sees a packet
    number twice; that the congestion controller counts exactly the bytes of the flight; that
    a datagram that does not authenticate, or was seen before, changes nothing but keys; that a
    frame sealed by one end is received by the other across any rotation in reach; that a closed
    endpoint says nothing more; and that an unproven address is never sent more than three times
    what it authentically sent. *)

From S2P Require Import Prelude Window Keys Packet Path Loss Congestion Mtu.

Module Endpoint.
Section Endpoint.
Context `{C : Crypto}.

Inductive SendError :=
| TooLarge (actual limit : Z)
| Exhausted
| Closed
| Blocked.

Inductive RecvError :=
| Malformed (m : Packet.MalformedPacket)
| WrongConnection
| UnknownEpoch
| Auth
| Replayed (number : Z).

Inductive Received :=
| RFrame (payload : list Z)
| RNothing
| RMigrated (to : SocketAddr)
| RClosed.

Record Answer := mkAnswer { to : SocketAddr; token : list Z }.

Inductive AckDebt := Settled | Owed (at_ since : Instant) (eliciting : Z).

Definition ACK_EVERY : Z := 2.
Definition KEEPALIVE : Duration := from_secs 1.

Record Endpoint := mkEndpoint {
  cid : list Z;
  keys : Keys.KeySchedule;
  next : Z;
  window : Window.ReplayWindow;
  path : Path.PathValidator;
  answer : option Answer;
  closed : bool;
  role : Keys.Direction;
  sealed_since_poll : bool;
  quiet_since : option Instant;
  congestion : Congestion.Congestion;
  loss : Loss.LossDetector;
  mtu : Mtu.Mtu;
  debt : AckDebt;
  rekey_every : Z;
  rekey_at : Z
}.
#[export] Instance Endpoint_settable : Settable Endpoint := λ e,
  mkEndpoint (cid e) (keys e) (next e) (window e) (path e) (answer e) (closed e) (role e)
    (sealed_since_poll e) (quiet_since e) (congestion e) (loss e) (mtu e) (debt e)
    (rekey_every e) (rekey_at e).

Definition new (cid root : list Z) (path : Path.PathValidator) (sending : Keys.Direction)
    (fragmentation : Mtu.Fragmentation) : Endpoint :=
  {| cid := cid; keys := Keys.new root sending; next := 0; window := Window.new; path := path;
     answer := None; closed := false; role := sending; sealed_since_poll := false;
     quiet_since := None; congestion := Congestion.new Packet.BASE_DATAGRAM; loss := Loss.new;
     mtu := Mtu.new fragmentation; debt := Settled; rekey_every := Keys.REKEY_AFTER;
     rekey_at := Keys.REKEY_AFTER |}.

Definition connect (cid root : list Z) (peer : SocketAddr) (fragmentation : Mtu.Fragmentation) : Endpoint :=
  new cid root (Path.dialled peer) Keys.ClientToServer fragmentation.

Definition listen (cid root : list Z) (peer : SocketAddr) (fragmentation : Mtu.Fragmentation) : Endpoint :=
  new cid root (Path.claimed peer) Keys.ServerToClient fragmentation.

Definition set_rekey_every (e : Endpoint) (packets : Z) : Endpoint :=
  let every := if packets =? 0 then 1 else packets in
  e <| rekey_every := every |> <| rekey_at := sat_add U64_MAX (next e) every |>.

Definition overhead : Z := Z.of_nat Packet.HEADER_BYTES + Z.of_nat Packet.TAG_BYTES.

Definition next_nonce (e : Endpoint) : Z * Z := (Keys.send_epoch (keys e), next e).

Definition payload_limit (e : Endpoint) : Z := Mtu.datagram (mtu e) - overhead.

Definition admits (e : Endpoint) (to : SocketAddr) (bytes : Z) : bool :=
  Loss.admits (loss e) && Path.may_send (path e) to bytes.

Definition ready (e : Endpoint) (now : Instant) (frame_len : Z) : option Instant :=
  let bytes := frame_len + overhead in
  if negb (admits e (Path.current (path e)) bytes) then None
  else Congestion.ready (congestion e) now bytes.

Definition writable (e : Endpoint) (now : Instant) (frame_len : Z) : bool :=
  let bytes := frame_len + overhead in
  negb (closed e) && admits e (Path.current (path e)) bytes && Congestion.writable (congestion e) now bytes.

Definition tracked (k : Packet.Kind) : bool :=
  match k with Packet.Frame | Packet.Probe => true | _ => false end.

(** ** What the flight's fate does to the controller and the search *)

Definition absorb_arrived (rtt : Loss.Rtt) (s : Congestion.Congestion * Mtu.Mtu) (a : Loss.Arrived)
    : Congestion.Congestion * Mtu.Mtu :=
  (Congestion.acknowledged s.1 (Loss.a_bytes a) (Loss.a_sent a) rtt (Loss.a_limited a),
   Mtu.acknowledged s.2 (Loss.a_number a) (Loss.a_bytes a)).

Definition absorb_gone (now : Instant) (s : Congestion.Congestion * Mtu.Mtu) (g : Loss.Gone)
    : Congestion.Congestion * Mtu.Mtu :=
  match Loss.g_cause g with
  | Loss.Lost =>
      (Congestion.lost s.1 (Loss.g_bytes g) (Loss.g_sent g) now,
       Mtu.lost s.2 (Loss.g_number g) (Loss.g_bytes g) now)
  | Loss.Silent =>
      (Congestion.abandoned s.1 (Loss.g_bytes g),
       Mtu.silent s.2 (Loss.g_number g) (Loss.g_bytes g) now)
  | Loss.Overflowed =>
      (Congestion.abandoned s.1 (Loss.g_bytes g), Mtu.forgotten s.2 (Loss.g_number g) now)
  end.

Definition absorb (e : Endpoint) (now : Instant) : Endpoint :=
  let c := if Loss.revived (loss e) then Congestion.spurious (congestion e) else congestion e in
  let s := foldl (absorb_arrived (Loss.rtt (loss e))) (c, mtu e) (Loss.arrived (loss e)) in
  let s := foldl (absorb_gone now) s (Loss.gone (loss e)) in
  let c := Congestion.set_datagram s.1 (Mtu.datagram s.2) in
  let c := if Loss.persistent (loss e) then Congestion.collapse c now else c in
  e <| congestion := c |> <| mtu := s.2 |>.

Definition expire (e : Endpoint) (now : Instant) : Endpoint :=
  absorb (e <| loss := Loss.expire (loss e) now |>) now.

(** ** Sealing *)

(** The rekey [seal_with] makes first; [None] is [Exhausted]. *)
Definition rekey (e : Endpoint) : option Endpoint :=
  if rekey_at e <=? next e then
    match Keys.rotate (keys e) with
    | (None, _) => None
    | (Some _, k) => Some (e <| keys := k |> <| rekey_at := sat_add U64_MAX (next e) (rekey_every e) |>)
    end
  else Some e.

(** The bookkeeping of a datagram of [bytes] that left for [to]. *)
Definition book (e : Endpoint) (kind : Packet.Kind) (to : SocketAddr) (now : Instant) (bytes : Z) : Endpoint :=
  let number := next e in
  let e := e <| path := Path.spent (path e) to bytes |> in
  let e := e <| next := next e + 1 |> <| sealed_since_poll := true |> in
  if tracked kind then
    let '(limited, c) := Congestion.sealed (congestion e) bytes now in
    let e := e <| congestion := c |> in
    let e := e <| loss := Loss.sealed (loss e)
                            {| Loss.f_number := number; Loss.f_bytes := bytes;
                               Loss.f_sent := now; Loss.f_limited := limited |} |> in
    absorb e now
  else e.

Definition seal (e : Endpoint) (kind : Packet.Kind) (body : list Z) (to : SocketAddr) (now : Instant)
    : option (result (list Z) SendError * Endpoint) :=
  if closed e then Some (Err Closed, e)
  else if tracked kind && negb (Loss.admits (loss e)) then Some (Err Blocked, e)
  else match rekey e with
       | None => Some (Err Exhausted, e)
       | Some e =>
           let header := {| Packet.kind := kind; Packet.cid := cid e;
                            Packet.epoch := Keys.send_epoch (keys e); Packet.number := next e |} in
           head ← Packet.encode header;
           let '(payload, tag) := Keys.seal (Keys.sending (keys e)) head (next e) body in
           let out := head ++ payload ++ tag in
           let bytes := len out in
           if negb (Path.may_send (path e) to bytes) then Some (Err Blocked, e)
           else Some (Ok out, book e kind to now bytes)
       end.

Definition send (e : Endpoint) (frame : list Z) (now : Instant)
    : option (result (SocketAddr * list Z) SendError * Endpoint) :=
  let limit := payload_limit e in
  if limit <? len frame then Some (Err (TooLarge (len frame) limit), e)
  else if negb (writable e now (len frame)) then
    Some (Err (if closed e then Closed else Blocked), e)
  else
    let to := Path.current (path e) in
    '(r, e) ← seal e Packet.Frame frame to now;
    Some (let? out := r in Ok (to, out), e).

Definition close (e : Endpoint) (now : Instant) : option (result (SocketAddr * list Z) SendError * Endpoint) :=
  let to := Path.current (path e) in
  '(r, e) ← seal e Packet.Close [] to now;
  Some (let? out := r in Ok (to, out), e <| closed := true |>).

Definition rotate (e : Endpoint) : result Z SendError * Endpoint :=
  let '(r, k) := Keys.rotate (keys e) in (ok_or r Exhausted, e <| keys := k |>).

(** ** Polling *)

Definition acknowledge (e : Endpoint) (now : Instant) : option (option (SocketAddr * list Z) * Endpoint) :=
  match debt e with
  | Settled => Some (None, e)
  | Owed at_ since_ _ =>
      if now <? at_ then Some (None, e)
      else match Window.acknowledgement (window e) with
           | None => Some (None, e)
           | Some (largest, map) =>
               body ← Packet.ack_encode
                        {| Packet.largest := largest; Packet.delay := since now since_; Packet.map := map |};
               let to := Path.current (path e) in
               '(r, e) ← seal e Packet.Ack body to now;
               match r with
               | Err _ => Some (None, e)
               | Ok out => Some (Some (to, out), e <| debt := Settled |>)
               end
           end
  end.

Definition probe_path_mtu (e : Endpoint) (now : Instant) : option (option (SocketAddr * list Z) * Endpoint) :=
  let confirming := Mtu.confirming (mtu e) in
  let '(candidate, m) := Mtu.poll (mtu e) now in
  let e := e <| mtu := m |> in
  match candidate with
  | None => Some (None, e)
  | Some candidate =>
      if negb confirming && negb (Congestion.writable (congestion e) now candidate) then Some (None, e)
      else
        let padding := candidate - overhead in
        let to := Path.current (path e) in
        let number := next e in
        '(r, e) ← seal e Packet.Probe (replicate (Z.to_nat padding) 0) to now;
        match r with
        | Err _ => Some (None, e)
        | Ok out => Some (Some (to, out), e <| mtu := Mtu.probing (mtu e) number |>)
        end
  end.

Definition keepalive (e : Endpoint) (now : Instant) : option (option (SocketAddr * list Z) * Endpoint) :=
  if negb (bool_decide (role e = Keys.ClientToServer)) || closed e then Some (None, e)
  else if sealed_since_poll e then
    Some (None, e <| sealed_since_poll := false |> <| quiet_since := Some now |>)
  else
    let quiet := default now (quiet_since e) in
    let e := e <| quiet_since := Some quiet |> in
    if since now quiet <? KEEPALIVE then Some (None, e)
    else
      let to := Path.current (path e) in
      '(r, e) ← seal e Packet.Alive [] to now;
      match r with
      | Err _ => Some (None, e)
      | Ok out => Some (Some (to, out), e <| quiet_since := Some now |> <| sealed_since_poll := false |>)
      end.

(** The answer to a challenge, taken whether or not it can be sealed. *)
Definition respond (e : Endpoint) (now : Instant) : option (option (SocketAddr * list Z) * Endpoint) :=
  match answer e with
  | None => Some (None, e)
  | Some a =>
      '(r, e) ← seal (e <| answer := None |>) Packet.Response (token a) (to a) now;
      match r with
      | Err _ => Some (None, e)
      | Ok out => Some (Some (to a, out), e)
      end
  end.

(** [fill1] and [fill2] are what entropy the path validator is given. *)
Definition poll_transmit (e : Endpoint) (now : Instant) (fill1 fill2 : option (list Z))
    : option (option (SocketAddr * list Z) * Endpoint) :=
  let e := expire e now in
  '(sent, e) ← respond e now;
  if sent is Some _ then Some (sent, e) else
  '(sent, e) ← acknowledge e now;
  if sent is Some _ then Some (sent, e) else
  let '(challenge, p) := Path.poll_challenge (path e) now fill1 fill2 in
  let e := e <| path := p |> in
  match challenge with
  | Some (to, token) =>
      let cost := overhead + len token in
      if negb (Path.may_send (path e) to cost) then Some (None, e)
      else
        '(r, e) ← seal e Packet.Challenge token to now;
        match r with
        | Err _ => Some (None, e)
        | Ok out => Some (Some (to, out), e)
        end
  | None =>
      '(sent, e) ← probe_path_mtu e now;
      if sent is Some _ then Some (sent, e) else keepalive e now
  end.

Definition poll_deadline (e : Endpoint) : option Instant :=
  if closed e then None
  else
    let owed := match debt e with Owed at_ _ _ => Some at_ | Settled => None end in
    let keepalive := if decide (role e = Keys.ClientToServer)
                     then (λ since, since + KEEPALIVE) <$> quiet_since e else None in
    foldr Path.min_deadline None
      [Loss.deadline (loss e); owed; Mtu.deadline (mtu e); Path.challenge_deadline (path e); keepalive].

(** ** Receiving *)

Definition owe_acknowledgement (e : Endpoint) (now : Instant) (kind : Packet.Kind) : Endpoint :=
  let eliciting := match debt e with Settled => 1 | Owed _ _ n => sat_add U8_MAX n 1 end in
  let at_ := if bool_decide (kind = Packet.Probe) || (ACK_EVERY <=? eliciting) then now
             else match debt e with
                  | Settled => now + Loss.MAX_ACK_DELAY
                  | Owed at_ _ _ => at_
                  end in
  e <| debt := Owed at_ now eliciting |>.

(** Authenticate: the plaintext and the schedule after it, whose cache of keys ahead may have
    been filled.  The key a datagram ahead of the epoch opened under is not yet followed. *)
Definition unseal (k : Keys.KeySchedule) (header : Packet.Header) (datagram : list Z)
    : result (list Z) RecvError * Keys.KeySchedule :=
  let body_end := (length datagram - Packet.TAG_BYTES)%nat in
  let head := take Packet.HEADER_BYTES datagram in
  let payload := slice Packet.HEADER_BYTES body_end datagram in
  let tag := drop body_end datagram in
  let try key := ok_or (Keys.open key head (Packet.number header) payload tag) Auth in
  match Keys.reach k (Packet.epoch header) with
  | Keys.Current | Keys.Previous =>
      (let? key := ok_or (Keys.reading k (Keys.reach k (Packet.epoch header))) UnknownEpoch in try key, k)
  | Keys.Ahead n =>
      let '(key, k) := Keys.peek_ahead k n in
      (let? key := ok_or key UnknownEpoch in try key, k)
  | Keys.Unreachable => (Err UnknownEpoch, k)
  end.

(** Then move the keys on, if the datagram was ahead of them; [false] is a failure. *)
Definition follow (k : Keys.KeySchedule) (r : Keys.Reach) : bool * Keys.KeySchedule :=
  match r with
  | Keys.Ahead n => prod_map (λ o, bool_decide (is_Some o)) id (Keys.follow k n)
  | _ => (true, k)
  end.

(** What a datagram that passed every check does, by its kind. *)
Definition deliver (e : Endpoint) (kind : Packet.Kind) (payload : list Z) (from : SocketAddr) (now : Instant)
    : Received * Endpoint :=
  match kind with
  | Packet.Frame => (RFrame payload, e)
  | Packet.Challenge =>
      (RNothing,
       if (length payload =? 8)%nat then e <| answer := Some {| to := from; token := payload |} |> else e)
  | Packet.Response =>
      if negb (length payload =? 8)%nat then (RNothing, e)
      else
        let '(r, p) := Path.answered (path e) from payload in
        let e := e <| path := p |> in
        match r with
        | None | Some Path.Validated => (RNothing, e)
        | Some (Path.Migrated moved) =>
            let e := (rotate e).2 in
            let e := e <| mtu := Mtu.migrated (mtu e) |> in
            let c := Congestion.set_datagram (congestion e) (Mtu.datagram (mtu e)) in
            let e := e <| congestion := Congestion.migrated c |> <| loss := Loss.migrated (loss e) |> in
            (RMigrated moved, e)
        end
  | Packet.Ack =>
      (RNothing,
       match a ← Packet.ack_decode payload; Loss.checked a (next e) with
       | None => e
       | Some ack =>
           let e := absorb (e <| loss := (Loss.acknowledged (loss e) ack now).2 |>) now in
           e <| mtu := Mtu.proven (mtu e) |>
       end)
  | Packet.Alive | Packet.Probe => (RNothing, e)
  | Packet.Close => (RClosed, e <| closed := true |>)
  end.

Definition recv (e : Endpoint) (from : SocketAddr) (now : Instant) (datagram : list Z)
    : result Received RecvError * Endpoint :=
  match Packet.decode datagram with
  | Err m => (Err (Malformed m), e)
  | Ok header =>
      if negb (bool_decide (Packet.cid header = cid e)) then (Err WrongConnection, e)
      else
        let reach := Keys.reach (keys e) (Packet.epoch header) in
        let '(opened, k) := unseal (keys e) header datagram in
        let e := e <| keys := k |> in
        match opened with
        | Err err => (Err err, e)
        | Ok payload =>
            let '(followed, k) := follow (keys e) reach in
            let e := e <| keys := k |> in
            if negb followed then (Err UnknownEpoch, e)
            else
                match Window.admit_ (window e) (Packet.number header) with
                | (Window.Fresh, w) =>
                    let e := e <| window := w |> in
                    let e := e <| path := (Path.arrived (path e) from (len datagram) now).2 |> in
                    let e := if Packet.ack_eliciting (Packet.kind header)
                             then owe_acknowledgement e now (Packet.kind header) else e in
                    let '(r, e) := deliver e (Packet.kind header) payload from now in
                    (Ok r, e)
                | (_, w) => (Err (Replayed (Packet.number header)), e <| window := w |>)
                end
        end
  end.

(** [accept]: constructed and fed in one call; the offer comes back either way, and what is
    kept is the endpoint only when the datagram opened. *)
Definition accept (cid root : list Z) (from : SocketAddr) (now : Instant) (datagram : list Z)
    (fragmentation : Mtu.Fragmentation) : result (Endpoint * list Z * Received) (list Z * RecvError) :=
  match recv (new cid root (Path.claimed from) Keys.ServerToClient fragmentation) from now datagram with
  | (Ok received, e) => Ok (e, root, received)
  | (Err error, _) => Err (root, error)
  end.

Definition path_refused (e : Endpoint) (carries : Z) (now : Instant) : Endpoint :=
  let e := e <| mtu := Mtu.refused (mtu e) carries now |> in
  e <| congestion := Congestion.set_datagram (congestion e) (Mtu.datagram (mtu e)) |>.

(** ** The controller counts the flight *)

Abbreviation window_ok := (Congestion.bounded Packet.BASE_DATAGRAM Packet.MAX_DATAGRAM).

(** Taking [n] bytes out of the flight, the controller staying in bounds. *)
Definition takes (n : Z) (s s' : Congestion.Congestion * Mtu.Mtu) : Prop :=
  window_ok s.1 → Mtu.inv s.2 → n ≤ Congestion.in_flight s.1 →
  window_ok s'.1 ∧ Mtu.inv s'.2 ∧ Congestion.in_flight s'.1 = Congestion.in_flight s.1 - n.

Lemma base_pos : 0 < Packet.BASE_DATAGRAM.
Proof. done. Qed.

Lemma absorb_arrived_takes rtt s a :
  0 ≤ Loss.a_bytes a → takes (Loss.a_bytes a) s (absorb_arrived rtt s a).
Proof.
  intros Hb Hc Hm Hle. unfold absorb_arrived. simpl. split_and!.
  - by apply (Congestion.apply_op_bounded _ _ _
      (Congestion.Acknowledged (Loss.a_bytes a) (Loss.a_sent a) rtt (Loss.a_limited a)) base_pos).
  - by apply (Mtu.search_step_inv _ (Mtu.Acknowledged (Loss.a_number a) (Loss.a_bytes a))).
  - rewrite (Congestion.acknowledged_in_flight _ _ _ _ _ _ _ base_pos Hc Hb). slia.
Qed.

Lemma absorb_gone_takes now s g :
  0 ≤ Loss.g_bytes g → takes (Loss.g_bytes g) s (absorb_gone now s g).
Proof.
  intros Hb Hc Hm Hle. unfold absorb_gone. destruct (Loss.g_cause g); simpl; split_and!.
  - by apply (Congestion.apply_op_bounded _ _ _
      (Congestion.Lost (Loss.g_bytes g) (Loss.g_sent g) now) base_pos).
  - by apply (Mtu.search_step_inv _ (Mtu.Lost (Loss.g_number g) (Loss.g_bytes g) now)).
  - rewrite Congestion.lost_in_flight. slia.
  - by apply (Congestion.apply_op_bounded _ _ _ (Congestion.Abandoned (Loss.g_bytes g)) base_pos).
  - by apply (Mtu.search_step_inv _ (Mtu.Silent (Loss.g_number g) (Loss.g_bytes g) now)).
  - slia.
  - by apply (Congestion.apply_op_bounded _ _ _ (Congestion.Abandoned (Loss.g_bytes g)) base_pos).
  - by apply (Mtu.search_step_inv _ (Mtu.Forgotten (Loss.g_number g) now)).
  - slia.
Qed.

Lemma fold_takes {A} (f : Congestion.Congestion * Mtu.Mtu → A → Congestion.Congestion * Mtu.Mtu)
    (size : A → Z) l s :
  (∀ s a, 0 ≤ size a → takes (size a) s (f s a)) → Forall (λ a, 0 ≤ size a) l →
  takes (sum_by size l) s (foldl f s l).
Proof.
  intros Hf Hl. revert s. induction Hl as [|a l Ha Hl IH]; intros s Hc Hm Hle; simpl in *.
  - split_and!; [done|done|lia].
  - pose proof (sum_by_nonneg size l Hl).
    destruct (Hf s a Ha Hc Hm) as (Hc1 & Hm1 & E1); [lia|].
    destruct (IH (f s a) Hc1 Hm1) as (? & ? & ?); [lia|]. split_and!; [done|done|lia].
Qed.

(** [absorb] settles the flight with the controller, and touches nothing else. *)
Lemma absorb_spec e now :
  window_ok (congestion e) → Mtu.inv (mtu e) →
  Forall (λ a, 0 ≤ Loss.a_bytes a) (Loss.arrived (loss e)) →
  Forall (λ g, 0 ≤ Loss.g_bytes g) (Loss.gone (loss e)) →
  sum_by Loss.a_bytes (Loss.arrived (loss e)) + sum_by Loss.g_bytes (Loss.gone (loss e)) ≤
    Congestion.in_flight (congestion e) →
  ∃ c m, absorb e now = e <| congestion := c |> <| mtu := m |> ∧ window_ok c ∧ Mtu.inv m ∧
    Congestion.in_flight c = Congestion.in_flight (congestion e) -
      sum_by Loss.a_bytes (Loss.arrived (loss e)) - sum_by Loss.g_bytes (Loss.gone (loss e)).
Proof.
  intros Hc Hm Ha Hg Hle. unfold absorb.
  set (c0 := if Loss.revived (loss e) then _ else _).
  assert (window_ok c0 ∧ Congestion.in_flight c0 = Congestion.in_flight (congestion e)) as [Hc0 E0].
  { unfold c0. destruct (Loss.revived (loss e)); [|done]. split; [|apply Congestion.spurious_in_flight].
    by apply (Congestion.apply_op_bounded _ _ _ Congestion.Spurious base_pos). }
  clearbody c0. pose proof (sum_by_nonneg _ _ Ha). pose proof (sum_by_nonneg _ _ Hg).
  destruct (fold_takes (absorb_arrived (Loss.rtt (loss e))) Loss.a_bytes (Loss.arrived (loss e)) (c0, mtu e))
    as (Hc1 & Hm1 & E1); simpl; try (done || lia).
  { intros. by apply absorb_arrived_takes. }
  set (s1 := foldl (absorb_arrived _) _ _) in *. clearbody s1. simpl in E1.
  destruct (fold_takes (absorb_gone now) Loss.g_bytes (Loss.gone (loss e)) s1)
    as (Hc2 & Hm2 & E2); try (done || lia).
  { intros. by apply absorb_gone_takes. }
  set (s2 := foldl (absorb_gone _) _ _) in *. clearbody s2.
  assert (window_ok (Congestion.set_datagram s2.1 (Mtu.datagram s2.2))) as Hc3.
  { apply (Congestion.apply_op_bounded _ _ _ (Congestion.Datagram (Mtu.datagram s2.2)) base_pos); [|done].
    by destruct Hm2. }
  eexists _, _. split; [reflexivity|]. destruct (Loss.persistent (loss e)); split_and!; try done; simpl; try lia.
  by apply (Congestion.apply_op_bounded _ _ _ (Congestion.Collapse now) base_pos).
Qed.

(** ** The invariant of an endpoint *)

(** What does not depend on the flight. *)
Record shell (root : list Z) (e : Endpoint) : Prop := {
  sh_cid : length (cid e) = 8%nat ∧ Forall is_byte (cid e);
  sh_keys : Keys.coherent root (keys e) ∧ Keys.sending_dir (keys e) = role e;
  sh_next : 0 ≤ next e ≤ rekey_at e;
  sh_rekey : rekey_at e ≤ (Keys.send_epoch (keys e) + 1) * Keys.REKEY_AFTER ∧
             1 ≤ rekey_every e ≤ Keys.REKEY_AFTER;
  sh_top : 0 ≤ Window.top (window e) ≤ Packet.MAX_PACKET_NUMBER
}.

Record inv (root : list Z) (e : Endpoint) : Prop := {
  inv_shell : shell root e;
  inv_loss : Loss.sound (next e) (loss e) ∧ Loss.standing (loss e);
  inv_bytes : Forall (λ p, 0 ≤ Loss.f_bytes p) (Loss.sent (loss e));
  inv_flight : Congestion.in_flight (congestion e) = sum_by Loss.f_bytes (Loss.sent (loss e));
  inv_window : window_ok (congestion e);
  inv_mtu : Mtu.inv (mtu e)
}.

Lemma epoch_bound root e : shell root e → 0 ≤ Keys.send_epoch (keys e) ≤ U8_MAX.
Proof. by intros [_ [((H & _) & _) _] _ _ _]. Qed.

Lemma endpoint_new_inv cid root v d f :
  length cid = 8%nat → Forall is_byte cid → inv root (new cid root v d f).
Proof.
  intros Hl Hb. pose proof Loss.new_sound.
  split; [|done|constructor|done| |apply (Mtu.history_inv f [])].
  - split; try done. split; [apply Keys.new_coherent|done].
  - split; simpl; (done || lia || (unfold Congestion.MIN_DATAGRAMS, Congestion.MAX_DATAGRAMS,
      Congestion.INITIAL_DATAGRAMS, Packet.BASE_DATAGRAM, Packet.MAX_DATAGRAM; lia)).
Qed.

(** Settling an operation of the loss detector with the controller. *)
Lemma settle_inv root e q now :
  shell root e → Loss.sound (next e) (loss e) → Loss.standing (loss e) →
  Loss.fate (loss e) ≡ₚ Loss.of_flight <$> q → Forall (λ p, 0 ≤ Loss.f_bytes p) q →
  window_ok (congestion e) → Mtu.inv (mtu e) →
  Congestion.in_flight (congestion e) = sum_by Loss.f_bytes q →
  ∃ c m, absorb e now = e <| congestion := c |> <| mtu := m |> ∧ inv root (absorb e now).
Proof.
  intros Hsh Hb Hs Hf Hq Hw Hm Hfl.
  pose proof (Loss.fate_bytes _ _ Hf) as Hsum. destruct (Loss.fate_nonneg _ _ Hf Hq) as (H1 & H2 & H3).
  pose proof (sum_by_nonneg _ _ H1).
  destruct (absorb_spec e now) as (c & m & E & Hc & Hm' & Hin); try (done || lia).
  exists c, m. split; [exact E|]. rewrite E. split; simpl; try done; [by destruct Hsh|lia].
Qed.

Lemma expire_inv root e now :
  inv root e → ∃ l c m, expire e now = e <| loss := l |> <| congestion := c |> <| mtu := m |> ∧
    inv root (expire e now).
Proof.
  intros [Hsh [Hb Hs] Hby Hfl Hw Hm]. unfold expire.
  destruct (Loss.detect_sound (next e) (Loss.clear (loss e)) now) as [Hb' Hs']; [by apply Loss.clear_sound|].
  destruct (settle_inv root (e <| loss := Loss.expire (loss e) now |>) (Loss.sent (loss e)) now)
    as (c & m & E & Hi'); simpl; try done; [by destruct Hsh|apply Loss.expire_fate|].
  by exists (Loss.expire (loss e) now), c, m.
Qed.

(** ** Sealing *)

(** After [rekey] there is a number left under the key in use, and it fits 48 bits. *)
Lemma rekey_spec root e e1 :
  inv root e → rekey e = Some e1 →
  ∃ k r, e1 = e <| keys := k |> <| rekey_at := r |> ∧ inv root e1 ∧ next e1 < rekey_at e1.
Proof.
  intros Hi He. pose proof Hi as [Hsh Hl Hb Hf Hw Hm]. pose proof (epoch_bound _ _ Hsh) as Hep.
  pose proof Hsh as [Hcid [Hk Hd] Hn [Hr Hev] Ht].
  unfold rekey in He. destruct (Z.leb_spec (rekey_at e) (next e)) as [Hle|Hlt].
  2:{ injection He as <-. exists (keys e), (rekey_at e). split; [by destruct e|done]. }
  destruct (Keys.rotate_epoch (keys e)) as [E1 E2]. rewrite Keys.epoch_next_spec in E1, E2.
  pose proof (Keys.rotate_coherent root _ Hk) as Hk'.
  assert (Keys.sending_dir (Keys.rotate (keys e)).2 = role e) as Hd'.
  { rewrite <- Hd. unfold Keys.rotate. by repeat case_match. }
  destruct (Keys.rotate (keys e)) as [[ep|] k]; [|done]. simpl in *. injection He as <-.
  eexists _, _. split; [reflexivity|].
  destruct (Z.leb_spec (Keys.send_epoch (keys e) + 1) U8_MAX); [|done]. injection E1 as ->.
  unfold sat_add, Keys.REKEY_AFTER in *. change (2 ^ 40) with 1099511627776 in *.
  split; [|simpl; lia]. split; simpl; try done. split; simpl; unfold Keys.REKEY_AFTER;
    change (2 ^ 40) with 1099511627776; try done; [lia|]. rewrite E2. lia.
Qed.

Lemma book_inv root e kind to now bytes :
  inv root e → next e < rekey_at e → 0 ≤ bytes →
  ∃ c l m, book e kind to now bytes =
    e <| path := Path.spent (path e) to bytes |> <| next := next e + 1 |> <| sealed_since_poll := true |>
      <| congestion := c |> <| loss := l |> <| mtu := m |> ∧
    inv root (book e kind to now bytes).
Proof.
  intros [Hsh [Hb Hs] Hbs Hf Hw Hm] Hr Hby. unfold book.
  set (e1 := e <| path := _ |> <| next := _ |> <| sealed_since_poll := _ |>).
  assert (∀ c l, shell root (e1 <| congestion := c |> <| loss := l |>)) as Hsh1.
  { intros c l. destruct Hsh. split; simpl; try done. lia. }
  destruct (tracked kind).
  2:{ exists (congestion e), (loss e), (mtu e). split; [by destruct e|]. split; try done; [apply (Hsh1 (congestion e) (loss e))|].
      split; [|done]. by apply (Loss.sound_mono (next e)); [simpl; lia|]. }
  destruct (Congestion.sealed (congestion e1) bytes now) as [limited c1] eqn:Ec.
  set (p := {| Loss.f_number := next e; Loss.f_bytes := bytes; Loss.f_sent := now; Loss.f_limited := limited |}).
  destruct (Loss.seal_sound (next e) (loss e) p Hb Hs) as [Hb1 Hs1]; [simpl; lia|].
  assert (window_ok c1) as Hc1.
  { change (congestion e1) with (congestion e) in Ec. replace c1 with (Congestion.sealed (congestion e) bytes now).2 by (by rewrite Ec).
    by apply (Congestion.apply_op_bounded _ _ _ (Congestion.Sealed bytes now)). }
  destruct (settle_inv root (e1 <| congestion := c1 |> <| loss := Loss.sealed (loss e) p |>)
    (Loss.sent (loss e) ++ [p]) now) as (c & m & E & Hi'); simpl; try done.
  - apply Loss.sealed_fate.
  - apply Forall_app. split; [done|by constructor].
  - rewrite sum_by_app. simpl. rewrite <- Hf. unfold Congestion.sealed in Ec. injection Ec as <- <-. simpl. lia.
  - by exists c, (Loss.sealed (loss e) p), m.
Qed.

Context `{!CryptoLaws C}.

(** A datagram of [e], under its next number and the key of the epoch [ep] it names. *)
Definition sealed_as (root : list Z) (e : Endpoint) (ep : Z) (kind : Packet.Kind) (body out : list Z) : Prop :=
  ∃ head, let header := {| Packet.kind := kind; Packet.cid := cid e; Packet.epoch := ep; Packet.number := next e |} in
    Packet.header_ok header ∧ Packet.encode header = Some head ∧
    out = head ++ (Keys.seal (Keys.key_at root (role e) ep) head (next e) body).1 ++
          (Keys.seal (Keys.key_at root (role e) ep) head (next e) body).2.

(** What every operation leaves alone. *)
Definition framed (e e' : Endpoint) : Prop :=
  cid e' = cid e ∧ role e' = role e ∧ window e' = window e ∧ closed e' = closed e.

Lemma seal_spec root e kind body to now :
  inv root e →
  ∃ r e', seal e kind body to now = Some (r, e') ∧ inv root e' ∧ framed e e' ∧
    match r with
    | Ok out => closed e = false ∧ next e' = next e + 1 ∧
        sealed_as root e (Keys.send_epoch (keys e')) kind body out ∧
        Path.may_send (path e) to (len out) = true ∧ path e' = Path.spent (path e) to (len out)
    | Err _ => next e' = next e ∧ path e' = path e
    end.
Proof.
  intros Hi. unfold seal.
  destruct (closed e) eqn:Ecl; [by exists (Err Closed), e|].
  destruct (tracked kind && negb (Loss.admits (loss e))); [by exists (Err Blocked), e|].
  destruct (rekey e) as [e1|] eqn:Ere; [|by exists (Err Exhausted), e].
  destruct (rekey_spec root e e1 Hi Ere) as (k & r & He1 & Hi1 & Hlt).
  pose proof (inv_shell _ _ Hi1) as Hsh. pose proof (epoch_bound _ _ Hsh) as Hep.
  pose proof Hsh as [[Hcl Hcb] [Hk Hd] Hn [Hr _] _].
  set (header := {| Packet.kind := kind; Packet.cid := cid e1; Packet.epoch := Keys.send_epoch (keys e1);
                    Packet.number := next e1 |}).
  assert (Packet.header_ok header) as Hok.
  { split; [done|]. split; [done|]. unfold is_byte, Packet.MAX_PACKET_NUMBER, Keys.REKEY_AFTER in *. simpl. lia. }
  assert (∃ head, Packet.encode header = Some head) as [head Hhead].
  { unfold Packet.encode. destruct Hok as (_ & _ & _ & ? & ?). rewrite (proj2 (Z.leb_le _ _)) by done. eauto. }
  rewrite Hhead. simpl. destruct (Keys.seal _ _ _ _) as [payload tag] eqn:Es.
  assert (framed e e1) as Hfr by (by rewrite He1).
  assert (next e1 = next e ∧ path e1 = path e) as [En Ep] by (by rewrite He1).
  destruct (Path.may_send (path e1) to (len (head ++ payload ++ tag))) eqn:Em; simpl.
  2:{ exists (Err Blocked), e1. split; [done|]. done. }
  destruct (book_inv root e1 kind to now (len (head ++ payload ++ tag))) as (c & l & m & Eb & Hib); [done|done|lia|].
  eexists _, _. split; [reflexivity|]. split; [done|]. rewrite Eb. split; [done|]. simpl. rewrite En, Ep.
  split_and!; try done; [|by rewrite <- Ep].
  destruct Hfr as (Ec & Er & _). exists head. rewrite <- Ec, <- Er, <- En.
  assert (Keys.sending (keys e1) = Keys.key_at root (role e1) (Keys.send_epoch (keys e1))) as Hkey.
  { destruct Hk as (_ & Hkk & _). unfold Keys.sending. by rewrite Hkk, Hd. }
  rewrite Hkey in Es. rewrite Es. done.
Qed.

(** The number a datagram carries, as anyone may read it off the wire. *)
Definition wire_number (out : list Z) : option Z :=
  match Packet.decode out with Ok h => Some (Packet.number h) | Err _ => None end.

Lemma sealed_as_number root e ep kind body out :
  sealed_as root e ep kind body out → wire_number out = Some (next e).
Proof.
  intros (head & Hok & Hh & ->). unfold wire_number.
  rewrite (Packet.decode_encode _ _ _ Hok Hh); [done|].
  rewrite length_app. unfold Keys.seal. rewrite length_tag. unfold Packet.TAG_BYTES. lia.
Qed.

(** ** Runs *)

Abbreviation ledger := (SocketAddr → Z).

(** What was sent to addresses that have not answered. *)
Definition at_risk (v : Path.PathValidator) (risked : ledger) (outs : list (SocketAddr * list Z)) : ledger :=
  foldl (λ f o, if Path.unproven v o.1 is Some _ then Path.Trace.add f o.1 (len o.2) else f) risked outs.

(** The two ledgers agree with the validator's own accounts. *)
Definition paid (e : Endpoint) (heard risked : ledger) : Prop :=
  ∃ issued believed, Path.inv (Path.Trace.mk (path e) heard risked issued believed).

(** From [e], emitting [outs], to [e']. *)
Record evolves (root : list Z) (e e' : Endpoint) (outs : list (SocketAddr * list Z)) : Prop := {
  ev_inv : inv root e';
  ev_cid : cid e' = cid e;
  ev_role : role e' = role e;
  ev_numbers : (λ o, wire_number o.2) <$> outs = Some <$> seqZ (next e) (len outs);
  ev_next : next e' = next e + len outs;
  ev_closed : closed e = true → outs = [] ∧ closed e' = true;
  ev_paid : ∀ heard risked, paid e heard risked → paid e' heard (at_risk (path e') risked outs)
}.

(** An operation that cannot panic. *)
Definition safe (root : list Z) (e : Endpoint)
    (x : option (option (SocketAddr * list Z) * Endpoint)) : Prop :=
  ∃ sent e', x = Some (sent, e') ∧ evolves root e e' (option_list sent).

(** Internal changes: nothing emitted, nothing numbered, the path as it was. *)
Lemma evolves_silent root e e' :
  inv root e' → framed e e' → next e' = next e → path e' = path e → evolves root e e' [].
Proof.
  intros Hi (H1 & H2 & H3 & H4) Hn Hp. split; try done; [simpl; lia|by rewrite H4|].
  intros heard risked. unfold paid. by rewrite Hp.
Qed.

Lemma evolves_trans root e e1 e2 outs :
  evolves root e e1 [] → evolves root e1 e2 outs → evolves root e e2 outs.
Proof.
  intros [Hi1 Hc1 Hr1 _ Hn1 Hcl1 Hp1] [Hi2 Hc2 Hr2 Hnum2 Hn2 Hcl2 Hp2]. simpl in *.
  split; try congruence.
  - by rewrite Hnum2, Hn1, Z.add_0_r.
  - lia.
  - intros Hcl. apply Hcl2. by apply Hcl1.
  - intros heard risked Hp. by apply Hp2, Hp1.
Qed.

(** A seal as one step of a run. *)
Lemma seal_evolves root e kind body to now :
  inv root e →
  ∃ r e', seal e kind body to now = Some (r, e') ∧ framed e e' ∧
    evolves root e e' (match r with Ok out => [(to, out)] | Err _ => [] end) ∧
    match r with
    | Ok out => sealed_as root e (Keys.send_epoch (keys e')) kind body out
    | Err _ => True
    end.
Proof.
  intros Hi. destruct (seal_spec root e kind body to now Hi) as (r & e' & -> & Hi' & Hf & Hr).
  exists r, e'. split; [done|]. split; [done|]. destruct r as [out|err].
  2:{ destruct Hr as [Hn Hp]. split; [|done]. by apply evolves_silent. }
  destruct Hr as (Hcl & Hn & Hs & Hm & Hp). split; [|done].
  destruct Hf as (H1 & H2 & H3 & H4). split; [done|done|done| |simpl; lia|by rewrite Hcl|].
  - simpl. by rewrite (sealed_as_number _ _ _ _ _ _ Hs).
  - intros heard risked (iss & bl & Hinv). exists iss, bl.
    apply (Path.send_inv _ to (len out)) in Hinv; [|lia]. simpl in Hinv. rewrite Hm in Hinv. unfold at_risk. simpl.
    assert (is_Some (Path.unproven (path e') to) ↔ is_Some (Path.unproven (path e) to)) as Hun.
    { rewrite Hp. unfold Path.unproven, Path.spent. simpl. destruct (decide (to = Path.current (path e))); simpl.
      - rewrite decide_True by done. destruct (Path.standing (path e)); by rewrite ?is_Some_alt.
      - rewrite decide_False by done. destruct (Path.candidate (path e)) as [[a c]|]; [|done].
        destruct (decide (a = to)) as [->|]; simpl; [rewrite decide_True by done|rewrite decide_False by done]; done. }
    rewrite Hp in *. destruct (Path.unproven (Path.spent _ _ _) to), (Path.unproven (path e) to); try done;
      destruct Hun as [H5 H6]; [by destruct (H5 (mk_is_Some _ _ eq_refl))|by destruct (H6 (mk_is_Some _ _ eq_refl))].
Qed.

Lemma evolves_after root e e1 e2 outs :
  evolves root e e1 outs → inv root e2 → framed e1 e2 → next e2 = next e1 → path e2 = path e1 →
  evolves root e e2 outs.
Proof.
  intros [Hi Hc Hr Hnum Hn Hcl Hp] Hi2 (F1 & F2 & F3 & F4) Hn2 Hp2.
  split; try congruence; [intros H; specialize (Hcl H) as [? ?]; split; congruence|].
  intros heard risked Hpd. specialize (Hp heard risked Hpd). unfold paid in *. by rewrite Hp2.
Qed.

(** Fields no invariant reads. *)
Ltac same_inv H := destruct H as [[] ? ? ? ? ?]; split; simpl in *; try done; split; simpl in *; done.

Lemma respond_safe root e now : inv root e → safe root e (respond e now).
Proof.
  intros Hi. unfold respond.
  destruct (answer e) as [a|]; [|exists None, e; split; [done|by apply evolves_silent]].
  assert (inv root (e <| answer := None |>)) as Hi1 by same_inv Hi.
  destruct (seal_evolves root (e <| answer := None |>) Packet.Response (token a) (to a) now Hi1)
    as (r & e' & -> & Hf & Hev & _). simpl.
  assert (evolves root e (e <| answer := None |>) []) as Hev0.
  { by apply evolves_silent. }
  destruct r as [out|err]; eexists _, _; (split; [reflexivity|]); by eapply evolves_trans.
Qed.

Lemma acknowledge_safe root e now : inv root e → safe root e (acknowledge e now).
Proof.
  intros Hi. unfold acknowledge.
  assert (safe root e (Some (None, e))) as Hnone by (exists None, e; split; [done|by apply evolves_silent]).
  destruct (debt e) as [|at_ s n]; [done|]. destruct (now <? at_); [done|].
  unfold Window.acknowledgement. destruct (negb _); [done|].
  unfold Packet.ack_encode. simpl.
  pose proof (sh_top _ _ (inv_shell _ _ Hi)) as Htop. rewrite (proj2 (Z.leb_le _ _)) by lia. simpl.
  match goal with |- context [seal e Packet.Ack ?b ?a now] =>
    destruct (seal_evolves root e Packet.Ack b a now Hi) as (r & e' & -> & Hf & Hev & _) end.
  simpl. destruct r as [out|err]; eexists _, _; (split; [reflexivity|]); [|done].
  eapply evolves_after; [exact Hev| |done..]. pose proof (ev_inv _ _ _ _ Hev) as Hi'. same_inv Hi'.
Qed.

Lemma probe_safe root e now : inv root e → safe root e (probe_path_mtu e now).
Proof.
  intros Hi. unfold probe_path_mtu.
  pose proof (Mtu.search_step_inv (mtu e) (Mtu.Poll now) (inv_mtu _ _ Hi)) as Hm. simpl in Hm.
  destruct (Mtu.poll (mtu e) now) as [cand m]. simpl in Hm.
  assert (inv root (e <| mtu := m |>)) as Hi1 by same_inv Hi.
  assert (evolves root e (e <| mtu := m |>) []) as Hev0.
  { by apply evolves_silent. }
  assert (safe root e (Some (None, e <| mtu := m |>))) as Hnone by (by eexists _, _).
  destruct cand as [cand|]; [|done]. destruct (_ && _); [done|]. simpl.
  match goal with |- context [seal ?x Packet.Probe ?b ?a now] =>
    destruct (seal_evolves root x Packet.Probe b a now Hi1) as (r & e' & -> & Hf & Hev & _) end.
  pose proof (evolves_trans _ _ _ _ _ Hev0 Hev) as Hev1. simpl.
  destruct r as [out|err]; eexists _, _; (split; [reflexivity|]); [|done].
  eapply evolves_after; [exact Hev1| |done..]. pose proof (ev_inv _ _ _ _ Hev) as Hi'.
  pose proof (Mtu.search_step_inv _ (Mtu.Probing (next e)) (inv_mtu _ _ Hi')) as Hm'. simpl in Hm'. same_inv Hi'.
Qed.

Lemma keepalive_safe root e now : inv root e → safe root e (keepalive e now).
Proof.
  intros Hi. unfold keepalive.
  destruct (_ || _); [exists None, e; split; [done|by apply evolves_silent]|].
  destruct (sealed_since_poll e).
  { eexists None, _; split; [reflexivity|]. apply evolves_silent; try done. same_inv Hi. }
  set (e1 := e <| quiet_since := _ |>).
  assert (inv root e1) as Hi1 by (unfold e1; same_inv Hi).
  assert (evolves root e e1 []) as Hev0.
  { by apply evolves_silent. }
  clearbody e1. destruct (_ <? _); [by eexists _, _|].
  destruct (seal_evolves root e1 Packet.Alive [] (Path.current (path e1)) now Hi1) as (r & e' & -> & Hf & Hev & _).
  pose proof (evolves_trans _ _ _ _ _ Hev0 Hev) as Hev1. simpl.
  destruct r as [out|err]; eexists _, _; (split; [reflexivity|]); [|done].
  eapply evolves_after; [exact Hev1| |done..]. pose proof (ev_inv _ _ _ _ Hev) as Hi'. same_inv Hi'.
Qed.

Lemma poll_transmit_safe root e now fill1 fill2 :
  inv root e → safe root e (poll_transmit e now fill1 fill2).
Proof.
  intros Hi. unfold poll_transmit.
  destruct (expire_inv root e now Hi) as (l & c & m & Ex & Hix).
  assert (evolves root e (expire e now) []) as Hev0 by (apply evolves_silent; [done|by rewrite Ex..]).
  set (e0 := expire e now) in *. clearbody e0. clear Ex.
  destruct (respond_safe root e0 now Hix) as (s1 & e1 & -> & Hev1). simpl.
  pose proof (evolves_trans _ _ _ _ _ Hev0 Hev1) as Hev01.
  destruct s1 as [s1|]; [by eexists _, _|].
  destruct (acknowledge_safe root e1 now (ev_inv _ _ _ _ Hev1)) as (s2 & e2 & -> & Hev2). simpl.
  pose proof (evolves_trans _ _ _ _ _ Hev01 Hev2) as Hev02.
  destruct s2 as [s2|]; [by eexists _, _|]. simpl in Hev02.
  destruct (Path.poll_challenge (path e2) now fill1 fill2) as [ch p] eqn:Ep.
  assert (evolves root e (e2 <| path := p |>) []) as Hev3.
  { eapply evolves_trans; [exact Hev02|]. pose proof (ev_inv _ _ _ _ Hev2) as Hi2.
    split; try done; [same_inv Hi2|simpl; lia|].
    intros heard risked (iss & bl & Hinv). apply (Path.poll_inv _ now fill1 fill2) in Hinv. simpl in Hinv.
    rewrite Ep in Hinv. eexists _, _. exact Hinv. }
  set (e3 := e2 <| path := p |>) in *. clearbody e3. pose proof (ev_inv _ _ _ _ Hev3) as Hi3.
  destruct ch as [[a tk]|].
  - destruct (negb _); [by eexists _, _|].
    destruct (seal_evolves root e3 Packet.Challenge tk a now Hi3) as (r & e' & -> & _ & Hev & _). simpl.
    pose proof (evolves_trans _ _ _ _ _ Hev3 Hev) as Hev4.
    destruct r as [out|err]; by eexists _, _.
  - destruct (probe_safe root e3 now Hi3) as (s4 & e4 & -> & Hev4). simpl.
    pose proof (evolves_trans _ _ _ _ _ Hev3 Hev4) as Hev04.
    destruct s4 as [s4|]; [by eexists _, _|].
    destruct (keepalive_safe root e4 now (ev_inv _ _ _ _ Hev4)) as (s5 & e5 & -> & Hev5).
    eexists _, _. split; [done|]. by eapply evolves_trans.
Qed.

Lemma send_safe root e frame now :
  inv root e →
  ∃ r e', send e frame now = Some (r, e') ∧
    evolves root e e' (match r with Ok o => [o] | Err _ => [] end).
Proof.
  intros Hi. unfold send.
  assert (evolves root e e []) as Hev0 by (by apply evolves_silent).
  destruct (_ <? _); [by eexists _, _|]. destruct (negb _); [by eexists _, _|].
  destruct (seal_evolves root e Packet.Frame frame (Path.current (path e)) now Hi) as (r & e' & -> & _ & Hev & _).
  simpl. destruct r; by eexists _, _.
Qed.

Lemma close_safe root e now :
  inv root e →
  ∃ r e', close e now = Some (r, e') ∧
    evolves root e e' (match r with Ok o => [o] | Err _ => [] end).
Proof.
  intros Hi. unfold close.
  destruct (seal_evolves root e Packet.Close [] (Path.current (path e)) now Hi) as (r & e' & -> & _ & Hev & _).
  simpl. eexists _, _. split; [reflexivity|].
  assert (inv root (e' <| closed := true |>)) as Hi'.
  { pose proof (ev_inv _ _ _ _ Hev) as Hi'. same_inv Hi'. }
  destruct Hev as [_ ? ? ? ? Hcl ?]. destruct r; (split; try done; intros H; by destruct (Hcl H)).
Qed.

(** Keys that differ only in what they read. *)
Lemma keys_inv root e k :
  inv root e → Keys.coherent root k → Keys.sending_dir k = Keys.sending_dir (keys e) →
  Keys.send_epoch (keys e) ≤ Keys.send_epoch k → inv root (e <| keys := k |>).
Proof.
  intros [[? [? Hd] ? [? ?] ?] ? ? ? ? ?] Hk Hdir Hep. split; simpl; try done. split; simpl; try done.
  - split; [done|congruence].
  - split; [|done]. unfold Keys.REKEY_AFTER in *. change (2 ^ 40) with 1099511627776 in *. lia.
Qed.

Lemma rotate_inv root e :
  inv root e → inv root (rotate e).2.
Proof.
  intros Hi. unfold rotate. pose proof (proj1 (sh_keys _ _ (inv_shell _ _ Hi))) as Hk.
  pose proof (Keys.rotate_coherent root _ Hk). destruct (Keys.rotate_epoch (keys e)) as [_ E].
  assert (Keys.sending_dir (Keys.rotate (keys e)).2 = Keys.sending_dir (keys e)) as Hd.
  { unfold Keys.rotate. by repeat case_match. }
  destruct (Keys.rotate (keys e)) as [r k]. simpl in *. apply keys_inv; try done.
  rewrite E, Keys.epoch_next_spec. destruct (_ <=? _); simpl; lia.
Qed.

Lemma path_refused_inv root e carries now : inv root e → inv root (path_refused e carries now).
Proof.
  intros Hi. pose proof (Mtu.search_step_inv _ (Mtu.KernelRefused carries now) (inv_mtu _ _ Hi)) as Hm. simpl in Hm.
  destruct Hi as [[] ? ? Hf Hw _]. unfold path_refused. split; simpl; [by split|done|done|done| |done].
  apply (Congestion.apply_op_bounded _ _ _ (Congestion.Datagram (Mtu.plpmtu (Mtu.refused (mtu e) carries now)))); [done| |done].
  by destruct Hm.
Qed.

(** ** Receiving *)

(** Opening a datagram fills the cache at most. *)
Lemma unseal_same k header d : Keys.same_but_cache k (unseal k header d).2.
Proof.
  unfold unseal. destruct (Keys.reach k (Packet.epoch header)) as [| |n|]; try done.
  pose proof (Keys.peek_same_but_cache k n) as H. by destruct (Keys.peek_ahead k n).
Qed.

Lemma unseal_coherent root k header d : Keys.coherent root k → Keys.coherent root (unseal k header d).2.
Proof.
  intros Hk. unfold unseal. destruct (Keys.reach k (Packet.epoch header)) as [| |n|]; try done.
  pose proof (Keys.peek_coherent root k n Hk) as H. by destruct (Keys.peek_ahead k n).
Qed.

Lemma unseal_bytes k header d payload :
  Forall is_byte d → (unseal k header d).1 = Ok payload → Forall is_byte payload.
Proof.
  intros Hb. unfold unseal.
  assert (∀ key, ok_or (Keys.open key (take Packet.HEADER_BYTES d) (Packet.number header)
    (slice Packet.HEADER_BYTES (length d - Packet.TAG_BYTES) d) (drop (length d - Packet.TAG_BYTES) d)) Auth = Ok payload →
    Forall is_byte payload) as Hopen.
  { intros key Hk. unfold Keys.open in Hk. destruct (decrypt _ _ _ _ _) as [b|] eqn:E; [|done]. simplify_eq/=.
    eapply decrypt_bytes; [|exact E]. unfold slice. by apply Forall_take, Forall_drop. }
  destruct (Keys.reach k (Packet.epoch header)) as [| |n|].
  1,2: cbn [fst]; intros (key & _ & Hk)%result_bind_ok; by apply (Hopen key).
  - destruct (Keys.peek_ahead k n) as [key k']. cbn [fst]. intros (key' & _ & Hk)%result_bind_ok. by apply (Hopen key').
  - done.
Qed.

(** Following a datagram that opened never fails, and moves only the reading half. *)
Lemma follow_ok root k k' ep :
  Keys.coherent root k → Keys.coherent root k' → Keys.same_but_cache k k' → 0 ≤ ep ≤ U8_MAX →
  ∃ k2, follow k' (Keys.reach k ep) = (true, k2) ∧ Keys.coherent root k2 ∧
    Keys.send k2 = Keys.send k ∧ Keys.sending_dir k2 = Keys.sending_dir k.
Proof.
  intros Hk Hk' (E1 & E2 & E3 & E4 & E5 & E6) Hep. destruct (Keys.reach k ep) as [| |n|] eqn:Er.
  1,2,4: by exists k'.
  destruct (Keys.reach_ahead root _ _ _ Hk Er) as [-> Hn].
  assert (Keys.recv_epoch k' = Keys.recv_epoch k) as Hre by (unfold Keys.recv_epoch; by rewrite E4).
  destruct (Keys.follow_spec root k' (ep - Keys.recv_epoch k)) as (k2 & Hf & Hc & _ & Hd & _ & _ & Hs & _);
    [done|done|lia|].
  unfold follow. rewrite Hf. exists k2. simpl. split_and!; try done; congruence.
Qed.

(** A migration measures everything anew, but forgets nothing of the flight. *)
Lemma migrate_inv root e p :
  inv root e →
  inv root (e <| path := p |> <| mtu := Mtu.migrated (mtu e) |>
    <| congestion := Congestion.migrated (Congestion.set_datagram (congestion e) (Mtu.datagram (Mtu.migrated (mtu e)))) |>
    <| loss := Loss.migrated (loss e) |>).
Proof.
  intros [[] [Hb Hs] Hby Hfl Hw Hm]. destruct (Loss.migrated_sound _ _ Hb) as [Hb' Hs'].
  pose proof (Mtu.search_step_inv _ Mtu.Migrated Hm) as Hm'. simpl in Hm'.
  split; simpl; [by split|done|done|done| |done].
  apply (Congestion.apply_op_bounded _ _ _ Congestion.Migrated); [done|done|].
  apply (Congestion.apply_op_bounded _ _ _ (Congestion.Datagram (Mtu.datagram (Mtu.migrated (mtu e))))); [done| |done].
  by destruct Hm'.
Qed.

Lemma ack_inv root e ack now :
  inv root e → 0 ≤ Packet.largest ack ∧ 0 ≤ Packet.delay ack →
  Loss.checked ack (next e) = Some ack →
  ∃ c m l, absorb (e <| loss := (Loss.acknowledged (loss e) ack now).2 |>) now =
    e <| loss := l |> <| congestion := c |> <| mtu := m |> ∧
  inv root (absorb (e <| loss := (Loss.acknowledged (loss e) ack now).2 |>) now).
Proof.
  intros [Hsh [Hb Hs] Hby Hfl Hw Hm] Hack Hc.
  pose proof (Loss.acknowledged_fate _ _ _ now Hb Hack Hc) as Hfate.
  destruct (Loss.acknowledged_spec _ _ _ now Hb Hack Hc) as (d1 & E & Hb1 & _).
  destruct (Loss.detect_sound (next e) d1 now Hb1) as [Hb2 Hs2].
  rewrite E in *. simpl in *.
  destruct (settle_inv root (e <| loss := Loss.detect d1 now |>) (Loss.sent (loss e)) now)
    as (c & m & Ea & Hi'); simpl; try done; [by destruct Hsh|].
  by exists c, m, (Loss.detect d1 now).
Qed.

Lemma ack_decode_ok payload ack :
  Forall is_byte payload → Packet.ack_decode payload = Some ack → 0 ≤ Packet.largest ack ∧ 0 ≤ Packet.delay ack.
Proof.
  intros Hb. unfold Packet.ack_decode. case_decide as Hl; [|done]. intros [= <-]. simpl.
  assert (Forall is_byte (replicate 2 0 ++ take 6 payload)) as H1.
  { apply Forall_app. split; [by repeat constructor|by apply Forall_take]. }
  assert (Forall is_byte (slice 6 10 payload)) as H2 by (by apply Forall_take, Forall_drop).
  apply from_be_bound in H1 as [H1 _], H2 as [H2 _].
  split; [exact H1|]. unfold from_micros. lia.
Qed.

(** What a datagram's kind makes of it. *)
Lemma deliver_evolves root e kind payload from now :
  inv root e → Forall is_byte payload → evolves root e (deliver e kind payload from now).2 [].
Proof.
  intros Hi Hb. pose proof (evolves_silent root e e Hi ltac:(done) eq_refl eq_refl) as Hsame.
  destruct kind; cbn [deliver snd]; try done.
  - destruct (_ =? _)%nat; [|done]. apply evolves_silent; try done. same_inv Hi.
  - destruct (negb _); [done|]. destruct (Path.answered (path e) from payload) as [r p] eqn:Ea.
    assert (∀ heard risked e', path e' = p → paid e heard risked → paid e' heard risked) as Hpaid.
    { intros heard risked e' <- (iss & bl & Hinv). apply (Path.answer_inv _ from payload) in Hinv. simpl in Hinv.
      rewrite Ea in Hinv. eexists _, _. exact Hinv. }
    assert (inv root (e <| path := p |>)) as Hip by same_inv Hi.
    destruct r as [[|moved]|]; simpl.
    + split; try done; [simpl; lia|]. intros. by apply Hpaid.
    + apply rotate_inv in Hip. unfold rotate in *. simpl in *.
      destruct (Keys.rotate (keys e)) as [r k]. simpl in *. apply (migrate_inv _ _ p) in Hip. simpl in *.
      split; try done; [simpl; lia|]. intros. by apply Hpaid.
    + split; try done; [simpl; lia|]. intros. by apply Hpaid.
  - assert (inv root (e <| closed := true |>)) as Hi' by same_inv Hi.
    split; try done. simpl; lia.
  - destruct (Packet.ack_decode payload) as [ack|] eqn:Ea; cbn [mbind option_bind]; [|done].
    pose proof (ack_decode_ok _ _ Hb Ea) as Hack.
    destruct (Loss.checked ack (next e)) as [ack'|] eqn:Ec; [|done].
    assert (ack' = ack) as -> by (unfold Loss.checked in Ec; case_match; congruence).
    destruct (ack_inv root e ack now Hi Hack Ec) as (c & m & l & E & Hi').
    rewrite E in *. apply evolves_silent; try done.
    pose proof (Mtu.search_step_inv _ Mtu.Proven (inv_mtu _ _ Hi')) as Hm. simpl in Hm. same_inv Hi'.
Qed.

(** What [recv] does, by how it ends. *)
Lemma recv_spec root e from now d :
  inv root e → Forall is_byte d →
  let '(r, e') := recv e from now d in
  inv root e' ∧ cid e' = cid e ∧ role e' = role e ∧ next e' = next e ∧
  (closed e = true → closed e' = true) ∧
  match r with
  | Ok _ => ∀ heard risked, paid e heard risked → paid e' (Path.Trace.add heard from (len d)) risked
  | Err err => ∃ k, e' = e <| keys := k |> ∧ Keys.send k = Keys.send (keys e) ∧
      ((∀ n, err ≠ Replayed n) → Keys.same_but_cache (keys e) k)
  end.
Proof.
  intros Hi Hb. unfold recv.
  assert (∀ err, inv root e ∧ cid e = cid e ∧ role e = role e ∧ next e = next e ∧ (closed e = true → closed e = true) ∧
    ∃ k, e = e <| keys := k |> ∧ Keys.send k = Keys.send (keys e) ∧
      ((∀ n, err ≠ Replayed n) → Keys.same_but_cache (keys e) k)) as Hsame.
  { intros err. split_and!; try done. exists (keys e). by destruct e. }
  destruct (Packet.decode d) as [h|m] eqn:Ed; [|apply Hsame].
  destruct (Packet.encode_decode d h Hb Ed) as (Hh & _ & _).
  destruct (negb _); [apply Hsame|]. clear Hsame.
  pose proof (unseal_same (keys e) h d) as Hsc. pose proof (λ p, unseal_bytes (keys e) h d p Hb) as Hby.
  pose proof (sh_keys _ _ (inv_shell _ _ Hi)) as [Hk Hd].
  pose proof (unseal_coherent root (keys e) h d Hk) as Hk1.
  destruct (unseal (keys e) h d) as [opened k]. simpl in *.
  assert (inv root (e <| keys := k |>)) as Hik.
  { destruct Hsc as (E1 & _ & E3 & _). apply keys_inv; try done. unfold Keys.send_epoch. rewrite E1. lia. }
  destruct opened as [payload|err].
  2:{ split_and!; try done. exists k. split_and!; try done. apply Hsc. }
  destruct (follow_ok root (keys e) k (Packet.epoch h) Hk Hk1 Hsc) as (k2 & Hf & Hk2 & E1 & E2).
  { destruct Hh as (_ & _ & Hbyte & _). unfold is_byte in Hbyte. lia. }
  rewrite Hf. simpl.
  assert (inv root (e <| keys := k2 |>)) as Hik2.
  { apply keys_inv; try done. unfold Keys.send_epoch. rewrite E1. lia. }
  assert (0 ≤ Packet.number h ≤ Packet.MAX_PACKET_NUMBER) as Hnum by apply Hh.
  pose proof (sh_top _ _ (inv_shell _ _ Hi)) as Htop.
  pose proof (Window.admit_top (window e) (Packet.number h) ltac:(lia) ltac:(lia)) as Hw.
  destruct (Window.admit_ (window e) (Packet.number h)) as [ad w] eqn:Ead. simpl in Hw.
  destruct ad.
  2,3: assert (w = window e) as -> by (unfold Window.admit_ in Ead; repeat case_match; by simplify_eq);
    split_and!; try done; exists k2; (split; [by destruct e|split; [done|]]); intros Hn; by destruct (Hn (Packet.number h)).
  set (e1 := (e <| keys := k |> <| keys := k2 |> <| window := w |>)).
  set (p := (Path.arrived (path e1) from (len d) now).2). set (e2 := e1 <| path := p |>).
  set (e3 := if Packet.ack_eliciting (Packet.kind h) then _ else _).
  assert (inv root e3 ∧ path e3 = p ∧ cid e3 = cid e ∧ role e3 = role e ∧ next e3 = next e ∧ closed e3 = closed e)
    as (Hi3 & P3 & C3 & R3 & N3 & L3).
  { destruct Hik2 as [[] ? ? ? ? ?]. unfold e3, e2, e1.
    destruct (Packet.ack_eliciting (Packet.kind h)); (split; [|split_and!; reflexivity]);
      (split; simpl in *; [split; simpl in *; (done || lia)|done..]). }
  clearbody e3. pose proof (deliver_evolves root e3 (Packet.kind h) payload from now Hi3 (Hby _ eq_refl)) as Hev.
  destruct (deliver e3 (Packet.kind h) payload from now) as [r e4]. simpl in Hev.
  destruct Hev as [Hi4 C4 R4 _ N4 L4 P4]. simpl in N4. split_and!; try congruence; try done.
  - rewrite N4. lia.
  - intros Hcl. apply L4. congruence.
  - intros heard risked (iss & bl & Hinv). apply (P4 _ risked).
    apply (Path.arrive_inv _ from (len d) now) in Hinv; [|lia].
    eexists _, _. rewrite P3. exact Hinv.
Qed.

(** ** Any history of an endpoint *)

(** How an endpoint begins. *)
Inductive fresh (root : list Z) : Endpoint → Prop :=
| fresh_connect cid peer f :
    length cid = 8%nat → Forall is_byte cid → fresh root (connect cid root peer f)
| fresh_listen cid peer f :
    length cid = 8%nat → Forall is_byte cid → fresh root (listen cid root peer f)
| fresh_rekey e n : fresh root e → 0 ≤ n ≤ Keys.REKEY_AFTER → fresh root (set_rekey_every e n).

Inductive event :=
| Send (frame : list Z) (now : Instant)
| CloseNow (now : Instant)
| Rotate
| Poll (now : Instant) (fill1 fill2 : option (list Z))
| Recv (from : SocketAddr) (now : Instant) (datagram : list Z)
| Refuse (carries : Z) (now : Instant).

(** The endpoint, what it emitted, what each address authentically sent it, and what each
    was sent while it had not answered. *)
Record world := mkWorld {
  ep : Endpoint;
  outs : list (SocketAddr * list Z);
  heard : ledger;
  risked : ledger
}.

Definition emit (w : world) (e : Endpoint) (os : list (SocketAddr * list Z)) : world :=
  {| ep := e; outs := outs w ++ os; heard := heard w; risked := at_risk (path e) (risked w) os |}.

Definition ok_list {A E} (r : result A E) : list A := match r with Ok a => [a] | Err _ => [] end.

Definition step (w : world) (v : event) : option world :=
  match v with
  | Send frame now => '(r, e) ← send (ep w) frame now; Some (emit w e (ok_list r))
  | CloseNow now => '(r, e) ← close (ep w) now; Some (emit w e (ok_list r))
  | Rotate => Some (emit w (rotate (ep w)).2 [])
  | Poll now fill1 fill2 => '(o, e) ← poll_transmit (ep w) now fill1 fill2; Some (emit w e (option_list o))
  | Recv from now datagram =>
      let '(r, e) := recv (ep w) from now datagram in
      Some {| ep := e; outs := outs w; risked := risked w;
              heard := if r is Ok _ then Path.Trace.add (heard w) from (len datagram) else heard w |}
  | Refuse carries now => Some (emit w (path_refused (ep w) carries now) [])
  end.

Fixpoint run (w : world) (vs : list event) : option world :=
  match vs with
  | [] => Some w
  | v :: vs => w ← step w v; run w vs
  end.

Definition begin (e : Endpoint) : world := {| ep := e; outs := []; heard := λ _, 0; risked := λ _, 0 |}.

(** What arrives is bytes.  The instants may be any: the threads that share an endpoint read the
    clock before they take its lock. *)
Definition event_ok (v : event) : Prop := if v is Recv _ _ d then Forall is_byte d else True.

Record good (root : list Z) (w : world) : Prop := {
  g_inv : inv root (ep w);
  g_numbers : (λ o, wire_number o.2) <$> outs w = Some <$> seqZ 0 (next (ep w));
  g_count : next (ep w) = len (outs w);
  g_paid : paid (ep w) (heard w) (risked w)
}.

Lemma fresh_good root e : fresh root e → good root (begin e).
Proof.
  intros Hf.
  assert (inv root e ∧ next e = 0 ∧ ∃ peer, path e = Path.dialled peer ∨ path e = Path.claimed peer)
    as (Hi & Hn & Hp).
  { induction Hf as [cid peer f Hl Hb|cid peer f Hl Hb|e n Hf (Hi & Hn & Hp) Hr].
    - split; [by apply endpoint_new_inv|]. split; [done|]. exists peer. by left.
    - split; [by apply endpoint_new_inv|]. split; [done|]. exists peer. by right.
    - split; [|done]. pose proof (epoch_bound _ _ (inv_shell _ _ Hi)).
      assert (1 ≤ (if n =? 0 then 1 else n) ≤ Keys.REKEY_AFTER) as Hev.
      { destruct (Z.eqb_spec n 0); [by vm_compute|lia]. }
      destruct Hi as [[] ? ? ? ? ?]. split; try done. split; try done; simpl; unfold sat_add, Keys.REKEY_AFTER in *;
        change (2 ^ 40) with 1099511627776 in *; [|split; [|done]]; rewrite Hn in *; lia. }
  split; simpl; [done|by rewrite Hn|by rewrite Hn|].
  exists [], []. apply Path.init_inv in Hp. exact Hp.
Qed.

Lemma emit_good root w e os :
  good root w → evolves root (ep w) e os → good root (emit w e os).
Proof.
  intros [Hi Hnum Hc Hp] [Hi' _ _ Hnum' Hn' _ Hp']. split; simpl; [done| | |by apply Hp'].
  - rewrite fmap_app, Hnum, Hnum', Hn'. pose proof (sh_next _ _ (inv_shell _ _ Hi)).
    rewrite (seqZ_app 0 (next (ep w)) (len os)) by lia. by rewrite fmap_app.
  - rewrite length_app. lia.
Qed.

Lemma step_good root w v :
  good root w → event_ok v →
  ∃ w', step w v = Some w' ∧ good root w' ∧
    (closed (ep w) = true → closed (ep w') = true ∧ outs w' = outs w).
Proof.
  intros Hg Hd. pose proof (g_inv _ _ Hg) as Hi.
  assert (∀ e os, evolves root (ep w) e os → good root (emit w e os) ∧
    (closed (ep w) = true → closed (ep (emit w e os)) = true ∧ outs (emit w e os) = outs w)) as Hemit.
  { intros e os Hev. split; [by eapply emit_good|]. intros Hcl. destruct (ev_closed _ _ _ _ Hev Hcl) as [-> ?].
    split; [done|]. simpl. by rewrite app_nil_r. }
  destruct v as [frame now|now| |now f1 f2|from now d|carries now]; simpl in Hd |- *.
  - destruct (send_safe root (ep w) frame now Hi) as (r & e & -> & Hev). eexists. split; [done|]. by apply Hemit.
  - destruct (close_safe root (ep w) now Hi) as (r & e & -> & Hev). eexists. split; [done|]. by apply Hemit.
  - eexists. split; [done|]. apply Hemit. apply evolves_silent; [by apply rotate_inv|..];
      unfold rotate; by destruct (Keys.rotate _).
  - destruct (poll_transmit_safe root (ep w) now f1 f2 Hi) as (o & e & -> & Hev). eexists. split; [done|]. by apply Hemit.
  - pose proof (recv_spec root (ep w) from now d Hi Hd) as Hr.
    destruct (recv (ep w) from now d) as [r e]. destruct Hr as (Hi' & _ & _ & Hn & Hcl & Hp).
    eexists. split; [done|]. split; [|auto]. destruct Hg as [_ Hnum Hc Hpd].
    split; simpl; [done|by rewrite Hn|by rewrite Hn|]. destruct r as [r|err]; [by apply Hp|].
    destruct Hp as (k & -> & _). done.
  - eexists. split; [done|]. apply Hemit. apply evolves_silent; [by apply path_refused_inv|done..].
Qed.

Lemma run_good root w vs :
  good root w → Forall event_ok vs →
  ∃ w', run w vs = Some w' ∧ good root w' ∧
    (closed (ep w) = true → closed (ep w') = true ∧ outs w' = outs w).
Proof.
  revert w. induction vs as [|v vs IH]; intros w Hg Ho; simpl; [by eexists|].
  apply list.Forall_cons in Ho as [Hd Ho]. destruct (step_good root w v Hg Hd) as (w1 & -> & Hg1 & Hcl1). simpl.
  destruct (IH w1 Hg1 Ho) as (w2 & -> & Hg2 & Hcl2). exists w2. split; [done|]. split; [done|].
  intros Hcl. destruct (Hcl1 Hcl) as [Hc1 Ho1]. destruct (Hcl2 Hc1) as [Hc2 Ho2]. split; [done|congruence].
Qed.

(** A world an endpoint over [root] can be in. *)
Definition reached (root : list Z) (w : world) : Prop :=
  ∃ e vs, fresh root e ∧ Forall event_ok vs ∧ run (begin e) vs = Some w.

Lemma reached_good root w : reached root w → good root w.
Proof.
  intros (e & vs & Hf & Ho & Hr). destruct (run_good root (begin e) vs (fresh_good _ _ Hf) Ho) as (w' & Hr' & Hg & _). congruence.
Qed.

Lemma reached_intro root e vs :
  fresh root e → Forall event_ok vs → reached root (default (begin e) (run (begin e) vs)).
Proof.
  intros Hf Ho. destruct (run_good root (begin e) vs (fresh_good _ _ Hf) Ho) as (w & Hr & _). rewrite Hr. by exists e, vs.
Qed.

(** ** Across the wire *)

Lemma unseal_sealed root k e ep kind body out :
  sealed_as root e ep kind body out → Keys.coherent root k → role e = Keys.opposite (Keys.sending_dir k) →
  Keys.reach k ep ≠ Keys.Unreachable → 0 ≤ ep ≤ U8_MAX →
  (unseal k {| Packet.kind := kind; Packet.cid := cid e; Packet.epoch := ep; Packet.number := next e |} out).1 = Ok body.
Proof.
  intros (head & Hok & Hh & ->) Hk Hd Hr Hep. pose proof (Packet.length_encode _ _ Hok Hh) as Hl.
  set (key := Keys.key_at root (role e) ep). set (payload := (Keys.seal key head (next e) body).1).
  set (tag := (Keys.seal key head (next e) body).2).
  assert (length tag = Packet.TAG_BYTES) as Ht by apply length_tag.
  assert (length (head ++ payload ++ tag) - Packet.TAG_BYTES = length head + length payload)%nat as He.
  { rewrite !length_app. lia. }
  unfold unseal. simpl. rewrite He.
  assert (take Packet.HEADER_BYTES (head ++ payload ++ tag) = head) as -> by (by apply take_app_length').
  assert (drop (length head + length payload) (head ++ payload ++ tag) = tag) as ->.
  { rewrite app_assoc. apply drop_app_length'. by rewrite length_app. }
  assert (slice Packet.HEADER_BYTES (length head + length payload) (head ++ payload ++ tag) = payload) as ->.
  { unfold slice. rewrite drop_app_length' by done. rewrite Hl. apply take_app_length'. lia. }
  assert (ok_or (Keys.open key head (next e) payload tag) Auth = Ok body) as Hopen.
  { unfold payload, tag. by rewrite Keys.seal_open. }
  pose proof Hk as (_ & _ & _ & Hrk & Hp & _). unfold key in Hopen. rewrite Hd in Hopen.
  destruct (Keys.reach k ep) as [| |n|] eqn:Er; [| | |done].
  - unfold Keys.reach in Er. destruct (Z.eqb_spec ep (Keys.recv_epoch k)) as [->|]; [|repeat case_match; done].
    simpl. by rewrite Hrk.
  - unfold Keys.reach in Er. destruct (Z.eqb_spec ep (Keys.recv_epoch k)); [done|].
    destruct (Keys.recv_previous k) as [[r c]|] eqn:Epr; [|repeat case_match; done].
    destruct (Z.eqb_spec r ep) as [->|]; [|repeat case_match; done].
    destruct (Hp ep c eq_refl) as [_ ->]. simpl. rewrite Epr. done.
  - destruct (Keys.reach_ahead root _ _ _ Hk Er) as [-> Hn].
    pose proof (Keys.peek_spec root k (ep - Keys.recv_epoch k) Hk Hn ltac:(lia)) as Hpk.
    destruct (Keys.peek_ahead k _) as [key' k']. simpl in Hpk |- *. subst key'.
    replace (Keys.recv_epoch k + (ep - Keys.recv_epoch k)) with ep by lia. done.
Qed.

(** ** Properties *)

(** C6: no packet number is ever used twice, and sealing never panics.  From a fresh endpoint
    (dialled or listening, at any rekey interval up to the default), whatever it is asked to
    send, poll, close or rotate and at whatever instants, whatever arrives and whatever the
    kernel refuses, every
    operation completes, and the datagrams it emits carry on the wire the numbers
    0, 1, 2, ... in order, each once, across every rotation and migration.  The numbers stay
    within the 48 bits the header gives them, so a key never meets a nonce again. *)
Theorem numbers_never_repeat root e vs (H : fresh root e ∧ Forall event_ok vs) :
  ∃ w, run (begin e) vs = Some w ∧
    (λ o, wire_number o.2) <$> outs w = Some <$> seqZ 0 (len (outs w)) ∧
    len (outs w) ≤ Packet.MAX_PACKET_NUMBER + 1.
Proof.
  destruct H as [Hf Ho].
  destruct (run_good root (begin e) vs (fresh_good _ _ Hf) Ho) as (w & Hr & [Hi Hn Hc _] & _).
  exists w. rewrite <- Hc. split_and!; [done|done|].
  pose proof (inv_shell _ _ Hi) as Hs. pose proof (epoch_bound _ _ Hs). destruct Hs as [_ _ ? [? ?] _].
  unfold Packet.MAX_PACKET_NUMBER, Keys.REKEY_AFTER in *. lia.
Qed.

(** C26: the congestion controller counts the flight exactly.  In any state an endpoint can
    reach, the bytes the controller holds in flight are the bytes of the packets the loss
    detector follows, through losses, overflows, silences and migrations (so no saturating
    subtraction ever hides a discrepancy); the window stays between two base datagrams and
    512 of the largest; and the payload a frame may have fits a datagram the path search
    allows. *)
Theorem flight_is_counted root w (H : reached root w) :
  Congestion.in_flight (congestion (ep w)) = sum_by Loss.f_bytes (Loss.sent (loss (ep w))) ∧
  Congestion.MIN_DATAGRAMS * Packet.BASE_DATAGRAM ≤ Congestion.window (congestion (ep w))
    ≤ Congestion.MAX_DATAGRAMS * Packet.MAX_DATAGRAM ∧
  Packet.BASE_DATAGRAM - overhead ≤ payload_limit (ep w) ≤ Packet.MAX_PAYLOAD.
Proof.
  destruct (reached_good _ _ H) as [[_ _ _ Hf [_ Hw _ _ _ _] [Hm _ _ _]] _ _ _].
  split_and!; [done|lia|lia|..]; unfold payload_limit, Mtu.datagram, overhead, Packet.MAX_PAYLOAD; lia.
Qed.

(** C27: a datagram that is refused changes nothing but keys.  When [recv] returns an error
    in any reachable state, the endpoint is as it was in every field but the key schedule,
    and the sending half of that is untouched too; and unless the refusal is of a replayed
    number (a datagram that did authenticate), only the cache of keys ahead can differ. *)
Theorem refusal_changes_only_keys root now w from d
    (H : reached root w ∧ Forall is_byte d) :
  match recv (ep w) from now d with
  | (Ok _, _) => True
  | (Err err, e') => ∃ k, e' = (ep w) <| keys := k |> ∧ Keys.send k = Keys.send (keys (ep w)) ∧
      ((∀ n, err ≠ Replayed n) → Keys.same_but_cache (keys (ep w)) k)
  end.
Proof.
  destruct H as [Hr Hd]. pose proof (recv_spec root (ep w) from now d (g_inv _ _ (reached_good _ _ Hr))) as Hs.
  specialize (Hs Hd). destruct (recv (ep w) from now d) as [[r|err] e']; [done|]. apply Hs.
Qed.

(** C12: a frame sealed by one end opens at the other.  Whatever the two ends of a connection
    have been through, a frame one of them sends is received by the other as that same frame,
    provided the datagram arrives unchanged, its epoch is one the receiver can reach (in use,
    just retired, or up to four rotations ahead) and its number is fresh to the window. *)
Theorem frames_cross_the_wire root now now' a b frame to out a' from
    (H : reached root a ∧ reached root b ∧ cid (ep a) = cid (ep b) ∧
         role (ep a) = Keys.opposite (role (ep b)) ∧
         send (ep a) frame now = Some (Ok (to, out), a') ∧
         Keys.reach (keys (ep b)) (Keys.send_epoch (keys a')) ≠ Keys.Unreachable ∧
         (Window.admit_ (window (ep b)) (next (ep a))).1 = Window.Fresh) :
  (recv (ep b) from now' out).1 = Ok (RFrame frame).
Proof.
  destruct H as (Ha & Hb & Hcid & Hrole & Hsend & Hreach & Hfresh).
  apply reached_good in Ha as [Hia _ _ _], Hb as [Hib _ _ _].
  unfold send in Hsend. destruct (_ <? _); [done|]. destruct (negb _); [done|].
  destruct (seal_spec root (ep a) Packet.Frame frame (Path.current (path (ep a))) now Hia)
    as (r & e' & Hseal & Hi' & _ & Hr).
  rewrite Hseal in Hsend. simpl in Hsend. destruct r as [o|]; simplify_eq/=.
  destruct Hr as (_ & _ & Hs & _). pose proof (epoch_bound _ _ (inv_shell _ _ Hi')) as Hep.
  set (ep' := Keys.send_epoch (keys a')) in *.
  pose proof (sh_keys _ _ (inv_shell _ _ Hib)) as [Hk Hd].
  set (h := {| Packet.kind := Packet.Frame; Packet.cid := cid (ep a); Packet.epoch := ep'; Packet.number := next (ep a) |}).
  assert (Packet.decode out = Ok h) as Hdec.
  { destruct Hs as (head & Hok & Hh & ->). apply Packet.decode_encode; try done.
    rewrite length_app. unfold Keys.seal. rewrite length_tag. unfold Packet.TAG_BYTES. lia. }
  pose proof (unseal_sealed root (keys (ep b)) (ep a) ep' Packet.Frame frame out Hs Hk) as Hun.
  rewrite Hd in Hun. specialize (Hun Hrole Hreach Hep). fold h in Hun.
  pose proof (unseal_same (keys (ep b)) h out) as Hsame. pose proof (unseal_coherent root _ h out Hk) as Hk1.
  unfold recv. rewrite Hdec. change (Packet.cid h) with (cid (ep a)). change (Packet.epoch h) with ep'.
  change (Packet.number h) with (next (ep a)). change (Packet.kind h) with Packet.Frame.
  rewrite bool_decide_true by done. simpl.
  destruct (unseal (keys (ep b)) h out) as [opened k1]. simpl in *. subst opened.
  destruct (follow_ok root (keys (ep b)) k1 ep' Hk Hk1 Hsame Hep) as (k2 & -> & _). simpl.
  destruct (Window.admit_ (window (ep b)) (next (ep a))) as [ad w]. simpl in Hfresh. by subst ad.
Qed.

(** A closed endpoint says nothing more.  Once an endpoint has closed, or been told its
    peer did, no sequence of operations makes it emit another datagram or reopens it. *)
Theorem closing_is_final root w vs
    (H : reached root w ∧ closed (ep w) = true ∧ Forall event_ok vs) :
  ∃ w', run w vs = Some w' ∧ closed (ep w') = true ∧ outs w' = outs w.
Proof.
  destruct H as (Hr & Hc & Ho). apply reached_good in Hr.
  destruct (run_good root w vs Hr Ho) as (w' & -> & _ & Hcl). exists w'. split; [done|]. by apply Hcl.
Qed.

(** C23: no endpoint is an amplifier.  In any reachable state, what was emitted to an address
    that had not answered a challenge is at most three times the authenticated bytes that
    address sent, whatever kinds of datagram were emitted and whatever was polled between. *)
Theorem endpoint_is_no_amplifier root w a (H : reached root w) :
  risked w a ≤ Path.AMPLIFICATION_LIMIT * heard w a.
Proof. apply reached_good in H as [_ _ _ (iss & bl & Hamp & _)]. apply Hamp. Qed.

End Endpoint.

(** ** Witnesses *)

(** Two ends of a connection over a cipher that satisfies the laws. *)
Module Demo.
#[local] Existing Instance Keys.Toy.toy.
#[local] Existing Instance Keys.Toy.toy_laws.
Definition cid0 : list Z := [1; 2; 3; 4; 5; 6; 7; 8].
Definition root0 : list Z := [9; 9].
Definition client0 : Endpoint := set_rekey_every (connect cid0 root0 (V4 1 1) Mtu.Refused) 1.
Definition server0 : Endpoint := listen cid0 root0 (V4 2 2) Mtu.Refused.
Definition script : list event := [Send [1; 2; 3] 0; Send [4] 5; CloseNow 4; Send [5] 7].

Lemma client_fresh : fresh root0 client0.
Proof.
  apply fresh_rekey; [|by vm_compute]. apply fresh_connect; [done|].
  unfold cid0. forall_list (unfold is_byte; lia).
Qed.
Lemma server_fresh : fresh root0 server0.
Proof. apply fresh_listen; [done|]. unfold cid0. forall_list (unfold is_byte; lia). Qed.

Lemma script_ok : Forall event_ok script.
Proof. unfold script. by repeat constructor. Qed.

(** The client after its first send, its second datagram, a server that has heard nothing,
    and a client that has closed. *)
Definition sender : world := default (begin client0) (run (begin client0) [Send [1; 2; 3] 0]).
Definition outcome : Type := option (result (SocketAddr * list Z) SendError * Endpoint).
Definition to_of (o : outcome) : option SocketAddr := match o with Some (Ok (a, _), _) => Some a | _ => None end.
Definition out_of (o : outcome) : list Z := match o with Some (Ok (_, out), _) => out | _ => [] end.
Definition state_of (o : outcome) : Endpoint := match o with Some (_, e) => e | None => client0 end.
Lemma outcome_ok o a : to_of o = Some a → o = Some (Ok (a, out_of o), state_of o).
Proof. destruct o as [[[[b out]|err] e]|]; simpl; try done. by intros [= ->]. Qed.

Definition second_out : list Z := out_of (send (ep sender) [4] 5).
Definition second_state : Endpoint := state_of (send (ep sender) [4] 5).
Lemma second_sent : send (ep sender) [4] 5 = Some (Ok (V4 1 1, second_out), second_state).
Proof. unfold second_out, second_state. apply outcome_ok. vm_compute. reflexivity. Qed.
Definition receiver : world := begin server0.
Definition closed_world : world :=
  default (begin client0) (run (begin client0) [Send [1; 2; 3] 0; CloseNow 6]).

Lemma sender_reached : reached root0 sender.
Proof. apply reached_intro; [exact client_fresh|by repeat constructor]. Qed.
Lemma receiver_reached : reached root0 receiver.
Proof. exists server0, []. split; [exact server_fresh|]. done. Qed.
Lemma closed_reached : reached root0 closed_world.
Proof. apply reached_intro; [exact client_fresh|by repeat constructor]. Qed.

Definition polls : list event :=
  [Recv (V4 2 2) 5 second_out; Poll (from_millis 30) (Some [1; 1; 1; 1; 1; 1; 1; 1]) None].
Definition polled : world := default (begin server0) (run (begin server0) polls).
Lemma second_bytes : Forall is_byte second_out.
Proof. vm_compute. repeat first [apply List.Forall_nil|apply List.Forall_cons; [split; [discriminate|reflexivity]|]]. Qed.
Lemma polled_reached : reached root0 polled.
Proof. apply reached_intro; [exact server_fresh|]. constructor; [exact second_bytes|by repeat constructor]. Qed.
End Demo.

Lemma numbers_never_repeat_witness :
  ∃ w, run (C := Keys.Toy.toy) (begin (C := Keys.Toy.toy) Demo.client0) Demo.script = Some w ∧
    (λ o, wire_number o.2) <$> outs (C := Keys.Toy.toy) w = [Some 0; Some 1; Some 2].
Proof.
  destruct (numbers_never_repeat (C := Keys.Toy.toy) (CryptoLaws0 := Keys.Toy.toy_laws) Demo.root0 Demo.client0 Demo.script
    (conj Demo.client_fresh Demo.script_ok)) as (w & Hr & Hn & _).
  exists w. split; [exact Hr|].
  assert (length (outs (C := Keys.Toy.toy) w) = 3%nat) as Hl.
  { assert (Some (length (outs (C := Keys.Toy.toy) w)) = Some 3%nat) as [= ->]; [|done].
    change (Some (length (outs (C := Keys.Toy.toy) w))) with ((λ w, length (outs (C := Keys.Toy.toy) w)) <$> Some w).
    rewrite <- Hr. vm_compute. reflexivity. }
  rewrite Hl in Hn. exact Hn.
Defined.

Lemma flight_is_counted_witness :
  Congestion.in_flight (congestion (ep (C := Keys.Toy.toy) Demo.sender)) = 35 ∧
  Congestion.in_flight (congestion (ep (C := Keys.Toy.toy) Demo.sender)) =
    sum_by Loss.f_bytes (Loss.sent (loss (ep (C := Keys.Toy.toy) Demo.sender))).
Proof.
  split; [vm_compute; reflexivity|].
  apply (flight_is_counted (C := Keys.Toy.toy) (CryptoLaws0 := Keys.Toy.toy_laws) Demo.root0 Demo.sender Demo.sender_reached).
Defined.

Lemma refusal_changes_only_keys_witness :
  let bad := take 34 Demo.second_out ++ [0] in
  match recv (C := Keys.Toy.toy) (ep (C := Keys.Toy.toy) Demo.receiver) (V4 2 2) 5 bad with
  | (Err Auth, e') => ∃ k, e' = assign (keys (C := Keys.Toy.toy)) (λ _, k) (ep (C := Keys.Toy.toy) Demo.receiver)
  | _ => False
  end.
Proof.
  intros bad. assert (Forall is_byte bad) as Hb.
  { unfold bad. apply Forall_app. split; [apply Forall_take, Demo.second_bytes|by repeat constructor]. }
  pose proof (refusal_changes_only_keys (C := Keys.Toy.toy) (CryptoLaws0 := Keys.Toy.toy_laws) Demo.root0 5 Demo.receiver
    (V4 2 2) bad (conj Demo.receiver_reached Hb)) as W.
  assert ((recv (C := Keys.Toy.toy) (ep (C := Keys.Toy.toy) Demo.receiver) (V4 2 2) 5 bad).1 = Err Auth) as Hr
    by (vm_compute; reflexivity).
  destruct (recv _ _ _ bad) as [r e']. simpl in Hr. subst r. destruct W as (k & -> & _). by exists k.
Defined.

Lemma frames_cross_the_wire_witness :
  (recv (C := Keys.Toy.toy) (ep (C := Keys.Toy.toy) Demo.receiver) (V4 2 2) 5 Demo.second_out).1 = Ok (RFrame [4]).
Proof.
  apply (frames_cross_the_wire (C := Keys.Toy.toy) (CryptoLaws0 := Keys.Toy.toy_laws) Demo.root0 5 5 Demo.sender Demo.receiver
    [4] (V4 1 1) Demo.second_out Demo.second_state (V4 2 2)).
  split; [exact Demo.sender_reached|]. split; [exact Demo.receiver_reached|]. split; [vm_compute; reflexivity|].
  split; [vm_compute; reflexivity|]. split; [exact Demo.second_sent|].
  assert (Keys.send_epoch (C := Keys.Toy.toy) (keys (C := Keys.Toy.toy) Demo.second_state) = 1) as -> by (vm_compute; reflexivity).
  split; [vm_compute; discriminate|vm_compute; reflexivity].
Defined.

Lemma closing_is_final_witness :
  closed (ep (C := Keys.Toy.toy) Demo.closed_world) = true ∧
  ∃ w', run (C := Keys.Toy.toy) Demo.closed_world [Send [7] 8; Poll (from_secs 9) None None] = Some w' ∧
    outs (C := Keys.Toy.toy) w' = outs (C := Keys.Toy.toy) Demo.closed_world.
Proof.
  assert (closed (ep (C := Keys.Toy.toy) Demo.closed_world) = true) as Hc by (vm_compute; reflexivity).
  split; [exact Hc|].
  destruct (closing_is_final (C := Keys.Toy.toy) (CryptoLaws0 := Keys.Toy.toy_laws) Demo.root0 Demo.closed_world
    [Send [7] 8; Poll (from_secs 9) None None]) as (w' & Hr & _ & Ho).
  { split; [exact Demo.closed_reached|]. split; [exact Hc|by repeat constructor]. }
  exists w'. split; [exact Hr|exact Ho].
Defined.

Lemma endpoint_is_no_amplifier_witness :
  risked (C := Keys.Toy.toy) Demo.polled (V4 2 2) = 50 ∧ heard (C := Keys.Toy.toy) Demo.polled (V4 2 2) = 33 ∧
  risked (C := Keys.Toy.toy) Demo.polled (V4 2 2) ≤ Path.AMPLIFICATION_LIMIT * heard (C := Keys.Toy.toy) Demo.polled (V4 2 2).
Proof.
  split; [vm_compute; reflexivity|]. split; [vm_compute; reflexivity|].
  apply (endpoint_is_no_amplifier (C := Keys.Toy.toy) (CryptoLaws0 := Keys.Toy.toy_laws) Demo.root0
    Demo.polled (V4 2 2) Demo.polled_reached).
Defined.

End Endpoint.
