(* ===== verification/Drain.v ===== *)
(** * Polling a connection dry ([crates/server/src/dgram.rs], the loops around [poll_transmit])

    Every thread that drives a connection polls it until it has nothing more to say, at one instant.
    The loop has no bound of its own: it ends because every poll that emits a datagram uses up
    something the endpoint owed at that instant (an answer, an acknowledgement, a challenge, a probe
    of the path, a keep-alive), and only packets that were in flight before can add to it.

    The theorem shows that it ends, after how many polls at most, and that to the endpoint it is a
    history like any other. *)

From S2P Require Import Prelude Window Keys Packet Path Loss Congestion Mtu Endpoint.
Import(hints) Endpoint.

Module Drain.
Section Drain.
Context `{C : Crypto}.
Abbreviation Endpoint := Endpoint.Endpoint.

(** [fills]: what entropy the polls are given. *)
Fixpoint drain (fuel : nat) (e : Endpoint) (now : Instant) (fills : nat → option (list Z) * option (list Z)) : option (list (SocketAddr * list Z) * Endpoint) :=
  match fuel with
  | O => None
  | S fuel =>
      '(sent, e) ← Endpoint.poll_transmit e now (fills O).1 (fills O).2;
      match sent with
      | None => Some ([], e)
      | Some d => '(ds, e) ← drain fuel e now (λ i, fills (S i)); Some (d :: ds, e)
      end
  end.

Lemma drain_fuel fuel fuel' e now fills os e' : (fuel ≤ fuel')%nat → drain fuel e now fills = Some (os, e') → drain fuel' e now fills = Some (os, e').
Proof.
  revert fuel' e fills os e'; induction fuel as [|fuel IH]; intros [|fuel'] e fills os e' Hf; try done; [lia|]. cbn [drain].
  destruct (Endpoint.poll_transmit e now _ _) as [[[d|] e1]|]; cbn [mbind option_bind]; try done. destruct (drain fuel e1 now _) as [[ds e2]|] eqn:E; [|done]. rewrite (IH fuel' _ _ _ _ ltac:(lia) E). done.
Qed.

(** ** What an endpoint owes at an instant *)

Definition due_now (now : Instant) (p : Path.Probe) : nat := match Path.probe_deadline p with Some d => if now <? d then 0 else 1 | None => 0 end.
Definition challenges (v : Path.PathValidator) (now : Instant) : nat :=
  (match Path.standing v with Path.Claimed p => due_now now p | Path.Proven => 0 end + match Path.candidate v with Some (_, c) => due_now now (Path.probe c) | None => 0 end)%nat.
Definition probes (m : Mtu.Mtu) (now : Instant) : nat := if (Mtu.poll m now).1 is Some _ then 1 else 0.
Definition old (e : Endpoint) (now : Instant) : nat := length (filter (λ p, Loss.f_sent p < now) (Loss.sent (Endpoint.loss e))).
Definition quiet (e : Endpoint) (now : Instant) : nat :=
  if bool_decide (Endpoint.role e = Keys.ClientToServer) && negb (Endpoint.closed e) && negb (Endpoint.sealed_since_poll e) && (Endpoint.KEEPALIVE <=? since now (default now (Endpoint.quiet_since e))) then 1 else 0.
Definition answers (e : Endpoint) : nat := if Endpoint.answer e is Some _ then 1 else 0.
Definition debts (e : Endpoint) : nat := if Endpoint.debt e is Endpoint.Owed _ _ _ then 1 else 0.

Definition owes (e : Endpoint) (now : Instant) : nat :=
  (2 * old e now + probes (Endpoint.mtu e) now + answers e + debts e + challenges (Endpoint.path e) now + quiet e now)%nat.

(** ** No operation adds to it *)

Lemma probes_le m now : (probes m now ≤ 1)%nat.
Proof. unfold probes. case_match; lia. Qed.
Lemma due_le now p : (due_now now p ≤ 1)%nat.
Proof. unfold due_now. repeat case_match; lia. Qed.
Lemma quiet_le e now : (quiet e now ≤ 1)%nat.
Proof. unfold quiet. case_match; lia. Qed.
Lemma filter_le {A} (P : A → Prop) `{∀ x, Decision (P x)} l : (length (filter P l) ≤ length l)%nat.
Proof. apply length_filter. Qed.

Lemma due_charge now b p : due_now now (Path.charge b p) = due_now now p.
Proof. done. Qed.
Lemma challenges_spent v to b now : challenges (Path.spent v to b) now = challenges v now.
Proof.
  unfold challenges, Path.spent. destruct (decide (to = Path.current v)); cbn [Path.standing Path.candidate]; [by destruct (Path.standing v)|].
  destruct (Path.candidate v) as [[a [p|p]]|]; [destruct (decide (a = to))..|]; done.
Qed.
Lemma challenge_due p now fill t p' : Path.challenge p now fill = (t, p') → (due_now now p' + (if t is Some _ then 1 else 0) ≤ due_now now p)%nat.
Proof.
  unfold Path.challenge. destruct (Path.probe_deadline p) as [d|] eqn:Ed; [|intros [= <- <-]; unfold due_now; rewrite Ed; lia].
  destruct (now <? d) eqn:En; [intros [= <- <-]; unfold due_now; rewrite Ed, En; lia|].
  assert (due_now now p = 1%nat) as -> by (unfold due_now; by rewrite Ed, En).
  assert (∀ q, Path.due q = Some (now + Path.PROBE_INTERVAL) → due_now now q = 0%nat) as Hz.
  { intros q Hq. unfold due_now, Path.probe_deadline. rewrite Hq. destruct (_ <? Path.PROBE_LIMIT); [|done]. destruct (Z.ltb_spec now (now + Path.PROBE_INTERVAL)) as [|H]; [done|]. unfold Path.PROBE_INTERVAL, from_millis in H. lia. }
  destruct (Path.token p); [|destruct fill]; intros [= <- <-]; rewrite Hz by done; lia.
Qed.
Lemma poll_challenge_due v now f1 f2 t v' : Path.poll_challenge v now f1 f2 = (t, v') → (challenges v' now + (if t is Some _ then 1 else 0) ≤ challenges v now)%nat.
Proof.
  assert (∀ v t v', Path.poll_candidate v now f2 = (t, v') → (challenges v' now + (if t is Some _ then 1 else 0) ≤ challenges v now)%nat) as Hc.
  { clear. intros v t v'. unfold Path.poll_candidate, challenges. destruct (Path.candidate v) as [[a c]|] eqn:Ec; [|intros [= <- <-]; rewrite Ec; lia].
    destruct (Path.challenge (Path.probe c) now f2) as [t1 p1] eqn:E. pose proof (challenge_due _ _ _ _ _ E) as Hd.
    assert (Path.probe (Path.map_probe (λ _, p1) c) = p1) as Hp by (by destruct c).
    destruct t1; [|destruct (_ <=? _)]; intros [= <- <-]; cbn [Path.standing Path.candidate]; rewrite ?Hp; lia. }
  unfold Path.poll_challenge. destruct (Path.standing v) as [|p] eqn:Es; [apply Hc|].
  destruct (Path.challenge p now f1) as [t1 p1] eqn:E. pose proof (challenge_due _ _ _ _ _ E) as Hd.
  set (v1 := {| Path.current := Path.current v; Path.standing := Path.Claimed p1; Path.candidate := Path.candidate v |}).
  assert (challenges v1 now + (if t1 is Some _ then 1 else 0) ≤ challenges v now)%nat as H1 by (unfold challenges, v1; cbn [Path.standing Path.candidate]; rewrite Es; lia).
  destruct t1; [intros [= <- <-]; exact H1|]. intros H2%Hc. lia.
Qed.

(** The two that settle what became of packets. *)
Lemma absorb_nothing e now : Loss.arrived (Endpoint.loss e) = [] → Loss.gone (Endpoint.loss e) = [] → Endpoint.mtu (Endpoint.absorb e now) = Endpoint.mtu e.
Proof. intros Ha Hg. unfold Endpoint.absorb. by rewrite Ha, Hg. Qed.

(** A packet given up by age was sealed before. *)
Lemma doomed_is_old d now p : Loss.rtt_wf 1 U64_MAX (Loss.rtt d) → 0 ≤ Loss.silence d → Loss.overtaken (Loss.largest_acked d) p = false → Loss.doomed_in d now p → Loss.f_sent p < now.
Proof.
  intros Hr Hs Ho Hd. pose proof (Loss.probe_timeout_pos d Hr Hs). pose proof (Loss.loss_delay_pos (Loss.rtt d)). unfold Loss.MIN_LOSS_DELAY, from_millis in *.
  unfold Loss.doomed_in, Loss.doomed, Loss.lost_rule, Loss.stale in Hd. rewrite Ho in Hd. cbn [orb] in Hd. apply orb_true_iff in Hd as [[_ Hd]%andb_true_iff|Hd]; apply Z.leb_le in Hd; unfold since in Hd; lia.
Qed.

Lemma expire_owes root e now : Endpoint.inv root e → (2 * old (Endpoint.expire e now) now + probes (Endpoint.mtu (Endpoint.expire e now)) now ≤ 2 * old e now + probes (Endpoint.mtu e) now)%nat.
Proof.
  intros [_ [Hb Hst] _ _ _ _]. unfold Endpoint.expire, Loss.expire. destruct (Loss.detect_front (Loss.clear (Endpoint.loss e)) now) as (k & _ & _ & Ha & Es & Hd & _ & Hg & _). cbn in Ha, Hg. set (d := Loss.detect (Loss.clear (Endpoint.loss e)) now) in *.
  set (e1 := e <| Endpoint.loss := d |>). assert (Endpoint.loss (Endpoint.absorb e1 now) = d) as El by done.
  assert (old e now = k `min` length (Loss.sent (Endpoint.loss e)) + old (Endpoint.absorb e1 now) now)%nat as Ho.
  { unfold old. rewrite El, Es. cbn. rewrite <- (take_drop k (Loss.sent (Endpoint.loss e))) at 1. rewrite filter_app, length_app. f_equal. rewrite filter_true; [by rewrite length_take|].
    destruct Hb as [_ _ _ _ _ Hr Hs _]. apply Forall_forall. intros p Hp. rewrite Forall_forall in Hd. pose proof (Forall_take _ k _ Hst) as Hst'. rewrite Forall_forall in Hst'.
    apply (doomed_is_old (Loss.clear (Endpoint.loss e)) now p Hr Hs); [by apply Hst'|by apply Hd]. }
  pose proof (probes_le (Endpoint.mtu (Endpoint.absorb e1 now)) now). destruct (Nat.eq_dec (k `min` length (Loss.sent (Endpoint.loss e)))%nat 0%nat) as [Hz|]; [|lia].
  rewrite (absorb_nothing e1 now); [change (Endpoint.mtu e1) with (Endpoint.mtu e); lia|exact Ha|]. change (Endpoint.loss e1) with d. rewrite Hg. cbn. rewrite (nil_length_inv (take k _)); [done|by rewrite length_take].
Qed.

(** A seal leaves everything owed as it is, but for the quiet it ends. *)
Record undisturbed (now : Instant) (e e' : Endpoint) : Prop := {
  un_old : old e' now = old e now;
  un_mtu : Endpoint.mtu e' = Endpoint.mtu e;
  un_answer : Endpoint.answer e' = Endpoint.answer e;
  un_debt : Endpoint.debt e' = Endpoint.debt e;
  un_path : challenges (Endpoint.path e') now = challenges (Endpoint.path e) now;
  un_quiet : (quiet e' now ≤ quiet e now)%nat
}.
Lemma undisturbed_owes now e e' : undisturbed now e e' → (owes e' now ≤ owes e now)%nat.
Proof. intros [H1 H2 H3 H4 H5 H6]. unfold owes, answers, debts. rewrite H1, H2, H3, H4, H5. lia. Qed.

Lemma quiet_sealed e now : Endpoint.sealed_since_poll e = true → quiet e now = 0%nat.
Proof. intros H. unfold quiet. by rewrite H, andb_false_r. Qed.

Lemma book_undisturbed e kind to now bytes : (Endpoint.tracked kind = true → Loss.admits (Endpoint.loss e) = true) → undisturbed now e (Endpoint.book e kind to now bytes).
Proof.
  intros Ha. unfold Endpoint.book. destruct (Endpoint.tracked kind) eqn:Ek.
  2:{ split; try done; cbn; [apply challenges_spent|]. rewrite quiet_sealed by done. lia. }
  destruct (Congestion.sealed _ bytes now) as [limited c] eqn:Ec. set (p := Loss.mkInFlight _ _ _ _). set (e1 := e <| Endpoint.path := _ |> <| Endpoint.next := _ |> <| Endpoint.sealed_since_poll := _ |> <| Endpoint.congestion := c |>).
  change (Endpoint.loss e1) with (Endpoint.loss e). set (d := Loss.sealed (Endpoint.loss e) p). set (e2 := e1 <| Endpoint.loss := d |>).
  assert (Loss.sent d = Loss.sent (Endpoint.loss e) ++ [p] ∧ Loss.arrived d = [] ∧ Loss.gone d = []) as (D1 & D2 & D3).
  { unfold d, Loss.sealed. destruct (Loss.overflow_spec (Loss.sent (Loss.clear (Endpoint.loss e)) ++ [p]) (Loss.clear (Endpoint.loss e))) as ((_ & _ & E3 & _) & E1 & E2 & _).
    specialize (Ha eq_refl). unfold Loss.admits, Loss.MAX_TRACKED in Ha. apply Z.ltb_lt in Ha. cbv zeta. rewrite E1, E2, E3, length_app. cbn [length].
    change (Loss.sent (Loss.clear (Endpoint.loss e))) with (Loss.sent (Endpoint.loss e)). replace (length (Loss.sent (Endpoint.loss e)) + 1 - 4096)%nat with O by lia. by rewrite drop_0, take_0. }
  split; try done.
  - unfold old. change (Endpoint.loss (Endpoint.absorb e2 now)) with d. rewrite D1, filter_app, length_app. rewrite (filter_false _ [p]); [cbn; lia|]. constructor; [cbn; lia|constructor].
  - by rewrite (absorb_nothing e2 now D2 D3).
  - apply challenges_spent.
  - rewrite quiet_sealed by done. lia.
Qed.

Lemma seal_undisturbed e kind body to now r e' : Endpoint.seal e kind body to now = Some (r, e') → undisturbed now e e'.
Proof.
  assert (∀ e, undisturbed now e e) as Hid by done. unfold Endpoint.seal. destruct (Endpoint.closed e); [intros [= <- <-]; apply Hid|]. destruct (Endpoint.tracked kind && negb (Loss.admits (Endpoint.loss e))) eqn:Et; [intros [= <- <-]; apply Hid|].
  destruct (Endpoint.rekey e) as [e1|] eqn:Er; [|intros [= <- <-]; apply Hid].
  assert (undisturbed now e e1 ∧ Endpoint.loss e1 = Endpoint.loss e) as [H1 Hl].
  { unfold Endpoint.rekey in Er. destruct (_ <=? _); [|by injection Er as <-]. destruct (Keys.rotate _) as [[ep|] k]; [|done]. by injection Er as <-. }
  destruct (Packet.encode _) as [head|]; [|done]. cbn [mbind option_bind]. destruct (Keys.seal _ _ _ _) as [payload tag]. destruct (negb (Path.may_send _ _ _)); intros [= <- <-]; [done|].
  assert (Endpoint.tracked kind = true → Loss.admits (Endpoint.loss e1) = true) as Ha by (rewrite Hl; destruct (Endpoint.tracked kind), (Loss.admits _); done).
  destruct H1 as [A1 A2 A3 A4 A5 A6], (book_undisturbed e1 kind to now (len (head ++ payload ++ tag)) Ha) as [B1 B2 B3 B4 B5 B6]. split; try congruence. lia.
Qed.

(** What the parts of a poll do to it: [n] is what they emit. *)
Definition settles (now : Instant) (e : Endpoint) (x : option (option (SocketAddr * list Z) * Endpoint)) : Prop :=
  ∀ sent e', x = Some (sent, e') → (owes e' now + (if sent is Some _ then 1 else 0) ≤ owes e now)%nat.

Lemma respond_settles e now : settles now e (Endpoint.respond e now).
Proof.
  intros sent e'. unfold Endpoint.respond. destruct (Endpoint.answer e) as [a|] eqn:Ea; [|intros [= <- <-]; lia].
  assert (owes (e <| Endpoint.answer := None |>) now + 1 = owes e now)%nat as H0 by (unfold owes, answers, old, debts, quiet; cbn; rewrite Ea; lia).
  destruct (Endpoint.seal _ _ _ _ _) as [[r e1]|] eqn:Es; [|done]. apply seal_undisturbed, undisturbed_owes in Es. cbn [mbind option_bind]. destruct r; intros [= <- <-]; lia.
Qed.

Lemma acknowledge_settles e now : settles now e (Endpoint.acknowledge e now).
Proof.
  intros sent e'. unfold Endpoint.acknowledge. destruct (Endpoint.debt e) as [|at_ since_ n] eqn:Ed; [intros [= <- <-]; lia|].
  destruct (now <? at_); [intros [= <- <-]; lia|]. destruct (Window.acknowledgement _) as [[l map]|]; [|intros [= <- <-]; lia].
  destruct (Packet.ack_encode _) as [body|]; [|done]. cbn [mbind option_bind]. destruct (Endpoint.seal _ _ _ _ _) as [[r e1]|] eqn:Es; [|done]. apply seal_undisturbed in Es. cbn [mbind option_bind].
  destruct r; intros [= <- <-]; [|apply undisturbed_owes in Es; lia]. pose proof (undisturbed_owes _ _ _ Es) as Ho. destruct Es as [_ _ _ Hd _ _].
  assert (owes (e1 <| Endpoint.debt := Endpoint.Settled |>) now + 1 = owes e1 now)%nat by (unfold owes, answers, old, debts, quiet; cbn; rewrite Hd, Ed; lia). lia.
Qed.

Lemma poll_again m now c m' : Mtu.poll m now = (c, m') → (probes m' now ≤ if c is Some _ then 1 else 0)%nat.
Proof.
  intros Hp. destruct c; [apply probes_le|]. unfold Mtu.poll in Hp. set (m1 := match Mtu.search m with Mtu.Cooling _ => _ | _ => m end) in Hp.
  assert (m' = m1) as -> by (destruct (Mtu.search m1) as [|? [?|] ? [?|]| |? [?|] ?|]; try destruct (_ <=? _); simplify_eq/=; done).
  assert (probes m1 now = 0%nat) as ->; [|lia]. unfold probes, Mtu.poll. subst m1. set (m1 := match Mtu.search m with Mtu.Cooling _ => _ | _ => m end) in *.
  assert (match Mtu.search m1 with Mtu.Cooling until => if until <=? now then Mtu.begin m1 else m1 | _ => m1 end = m1) as Hm.
  { unfold m1. destruct (Mtu.search m) as [| | | |u] eqn:Es; rewrite ?Es; try done. destruct (u <=? now) eqn:Eu; [|by rewrite Es, Eu].
    unfold Mtu.begin. assert (∀ l m, match Mtu.search (Mtu.begin_from l m) with Mtu.Cooling _ => False | _ => True end) as Hb.
    { clear. induction l as [|c l IH]; intros m; cbn; [done|]. destruct (_ <? _); [done|apply IH]. }
    specialize (Hb (drop (Mtu.next m) Mtu.CANDIDATES) m). by destruct (Mtu.search (Mtu.begin_from _ m)). }
  rewrite Hm. destruct (Mtu.search m1) as [|? [?|] ? [?|]| |? [?|] ?|]; try destruct (_ <=? _); simplify_eq/=; done.
Qed.
Lemma probing_asks_no_more m now c m' n : Mtu.poll m now = (Some c, m') → probes (Mtu.probing m' n) now = 0%nat.
Proof.
  unfold Mtu.poll. set (m1 := match Mtu.search m with Mtu.Cooling _ => _ | _ => m end). clearbody m1. intros Hp.
  assert (∃ x, Mtu.search (Mtu.probing m' n) = x ∧ match x with Mtu.Asking _ (Some _) _ _ | Mtu.Confirming _ (Some _) _ => True | _ => False end) as (x & Hx & Hm).
  { eexists. split; [reflexivity|]. destruct (Mtu.search m1) as [|? [?|] ? [?|]| |? [?|] ?|] eqn:Es; try destruct (_ <=? _); simplify_eq/=; unfold Mtu.probing; rewrite ?Es; done. }
  unfold probes, Mtu.poll. rewrite !Hx. destruct x as [|? [?|] ? ?| |? [?|] ?|]; cbn in Hm; try done; by rewrite Hx.
Qed.

Lemma probe_settles e now : settles now e (Endpoint.probe_path_mtu e now).
Proof.
  intros sent e'. unfold Endpoint.probe_path_mtu. destruct (Mtu.poll (Endpoint.mtu e) now) as [c m] eqn:Ep. pose proof (poll_again _ _ _ _ Ep) as Hp.
  assert (probes (Endpoint.mtu e) now = if c is Some _ then 1 else 0)%nat as H0 by (unfold probes; by rewrite Ep).
  set (e1 := e <| Endpoint.mtu := m |>). assert (owes e1 now + probes (Endpoint.mtu e) now = owes e now + probes m now)%nat as H1 by (unfold owes, e1, answers, old, debts, quiet; cbn; lia).
  destruct c as [c|]; cbn in H0, Hp; [|intros [= <- <-]; lia]. destruct (negb _ && negb _); [intros [= <- <-]; lia|].
  destruct (Endpoint.seal _ _ _ _ _) as [[r e2]|] eqn:Es; [|done]. apply seal_undisturbed in Es. cbn [mbind option_bind]. pose proof (undisturbed_owes _ _ _ Es) as Ho.
  destruct r; intros [= <- <-]; [|lia]. destruct Es as [_ Hm _ _ _ _]. rewrite Hm. change (Endpoint.mtu e1) with m.
  pose proof (probing_asks_no_more _ _ _ _ (Endpoint.next e1) Ep) as Hz.
  assert (owes (e2 <| Endpoint.mtu := Mtu.probing m (Endpoint.next e1) |>) now + probes (Endpoint.mtu e2) now = owes e2 now + probes (Mtu.probing m (Endpoint.next e1)) now)%nat by (unfold owes, answers, old, debts, quiet; cbn; lia).
  rewrite Hm in *. change (Endpoint.mtu e1) with m in *. change (Endpoint.next e1) with (Endpoint.next e) in *. lia.
Qed.

Lemma keepalive_settles e now : settles now e (Endpoint.keepalive e now).
Proof.
  assert (∀ x q, q = now → owes (x <| Endpoint.quiet_since := Some q |> <| Endpoint.sealed_since_poll := false |>) now + quiet x now = owes x now)%nat as Hq.
  { intros x q ->. assert (quiet (x <| Endpoint.quiet_since := Some now |> <| Endpoint.sealed_since_poll := false |>) now = 0%nat) as Hz.
    { unfold quiet. cbn. destruct (Z.leb_spec Endpoint.KEEPALIVE (since now now)) as [H|]; [|by rewrite andb_false_r]. unfold Endpoint.KEEPALIVE, from_secs, since in H. lia. }
    unfold owes. rewrite Hz. unfold answers, old, debts. cbn. lia. }
  intros sent e'. unfold Endpoint.keepalive. destruct (negb _ || _) eqn:Er; [intros [= <- <-]; lia|]. apply orb_false_iff in Er as [Er Ec]. apply negb_false_iff in Er.
  destruct (Endpoint.sealed_since_poll e) eqn:Es; [intros [= <- <-]; specialize (Hq e now eq_refl); change (owes (e <| Endpoint.sealed_since_poll := false |> <| Endpoint.quiet_since := Some now |>) now) with (owes (e <| Endpoint.quiet_since := Some now |> <| Endpoint.sealed_since_poll := false |>) now); lia|].
  set (e1 := e <| Endpoint.quiet_since := Some (default now (Endpoint.quiet_since e)) |>). assert (owes e1 now = owes e now) as H1 by done.
  destruct (since now (default now (Endpoint.quiet_since e)) <? Endpoint.KEEPALIVE) eqn:Ek; [intros [= <- <-]; lia|].
  assert (quiet e1 now = 1%nat) as H2 by (unfold quiet; cbn; by rewrite Er, Ec, Es, Z.leb_antisym, Ek).
  destruct (Endpoint.seal _ _ _ _ _) as [[r e2]|] eqn:Ese; [|done]. cbn [mbind option_bind]. apply seal_undisturbed in Ese. pose proof (undisturbed_owes _ _ _ Ese) as Ho.
  destruct r; intros [= <- <-]; [|lia]. specialize (Hq e2 now eq_refl). destruct Ese as [A1 A2 A3 A4 A5 A6].
  assert (owes e2 now + 1 ≤ owes e1 now + quiet e2 now)%nat as Hd by (unfold owes, answers, debts; rewrite A1, A2, A3, A4, A5; lia). lia.
Qed.

(** Every poll that emits uses up something owed, and none adds to it. *)
Lemma poll_settles root e now f1 f2 : Endpoint.inv root e → settles now e (Endpoint.poll_transmit e now f1 f2).
Proof.
  intros Hi sent e'. unfold Endpoint.poll_transmit. destruct (Endpoint.expire_inv root e now Hi) as (l & c & m & Ex & _). pose proof (expire_owes root e now Hi) as He.
  assert (owes (Endpoint.expire e now) now ≤ owes e now)%nat as H0.
  { unfold owes. rewrite Ex in *. change (challenges _ now) with (challenges (Endpoint.path e) now) at 1. unfold answers, debts, quiet. cbn in *. lia. }
  set (e0 := Endpoint.expire e now) in *. clearbody e0. clear Ex He Hi.
  destruct (Endpoint.respond e0 now) as [[s1 e1]|] eqn:E1; [|done]. apply respond_settles in E1. cbn [mbind option_bind]. destruct s1; [intros [= <- <-]; lia|].
  destruct (Endpoint.acknowledge e1 now) as [[s2 e2]|] eqn:E2; [|done]. apply acknowledge_settles in E2. cbn [mbind option_bind]. destruct s2; [intros [= <- <-]; lia|].
  destruct (Path.poll_challenge _ _ _ _) as [ch p] eqn:E3. apply poll_challenge_due in E3. set (e3 := e2 <| Endpoint.path := p |>).
  assert (owes e3 now + challenges (Endpoint.path e2) now = owes e2 now + challenges p now)%nat as H3 by (unfold owes, e3, answers, old, debts, quiet; cbn; lia). clearbody e3.
  destruct ch as [[to tk]|].
  - destruct (negb _); [intros [= <- <-]; lia|]. destruct (Endpoint.seal _ _ _ _ _) as [[r e4]|] eqn:Es; [|done]. apply seal_undisturbed, undisturbed_owes in Es. cbn [mbind option_bind]. destruct r; intros [= <- <-]; lia.
  - destruct (Endpoint.probe_path_mtu e3 now) as [[s4 e4]|] eqn:E4; [|done]. apply probe_settles in E4. cbn [mbind option_bind]. destruct s4; [intros [= <- <-]; lia|]. intros E5%keepalive_settles. lia.
Qed.

Lemma owes_bounded root e now : Endpoint.inv root e → Z.of_nat (owes e now) ≤ 8198.
Proof.
  intros [_ [[_ _ Hb _ _ _ _ _] _] _ _ _ _]. unfold Loss.MAX_TRACKED in Hb. pose proof (filter_le (λ p, Loss.f_sent p < now) (Loss.sent (Endpoint.loss e))). pose proof (probes_le (Endpoint.mtu e) now). pose proof (quiet_le e now).
  assert (challenges (Endpoint.path e) now ≤ 2)%nat.
  { unfold challenges. destruct (Path.standing _) as [|p], (Path.candidate _) as [[? c]|]; try pose proof (due_le now p); try pose proof (due_le now (Path.probe c)); lia. }
  unfold owes, old, answers, debts. repeat case_match; lia.
Qed.

Context `{!CryptoLaws C}.

(** Polling dry, as a history of the endpoint: it ends, with every poll accounted for. *)
Lemma drain_ends root w now fuel fills : Endpoint.good root w → (owes (Endpoint.ep w) now < fuel)%nat →
  ∃ vs w', drain fuel (Endpoint.ep w) now fills = Some (drop (length (Endpoint.outs w)) (Endpoint.outs w'), Endpoint.ep w') ∧
    Forall (λ v, ∃ f1 f2, v = Endpoint.Poll now f1 f2) vs ∧ Endpoint.run w vs = Some w' ∧ Endpoint.outs w `prefix_of` Endpoint.outs w' ∧
    (length (Endpoint.outs w') - length (Endpoint.outs w) ≤ owes (Endpoint.ep w) now)%nat.
Proof.
  revert w fills; induction fuel as [|fuel IH]; intros w fills Hg Hf; [lia|]. cbn [drain].
  destruct (Endpoint.step_good root w (Endpoint.Poll now (fills 0%nat).1 (fills 0%nat).2) Hg I) as (w1 & Hs & Hg1 & _). pose proof Hs as Hs0. cbn [Endpoint.step] in Hs.
  destruct (Endpoint.poll_transmit (Endpoint.ep w) now _ _) as [[sent e1]|] eqn:Ep; [|done]. cbn [mbind option_bind] in Hs |- *. injection Hs as <-. pose proof (poll_settles root _ now _ _ (Endpoint.g_inv _ _ Hg) _ _ Ep) as Ho. destruct sent as [d|].
  - change (owes e1 now + 1 ≤ owes (Endpoint.ep w) now)%nat in Ho. destruct (IH _ (λ i, fills (S i)) Hg1) as (vs & w' & Hd & Hv & Hr & Hpre & Hl); [cbn [Endpoint.emit Endpoint.ep]; lia|]. cbn [Endpoint.emit Endpoint.ep Endpoint.outs option_list] in Hd, Hl, Hpre. rewrite Hd. cbn [mbind option_bind].
    exists (Endpoint.Poll now (fills 0%nat).1 (fills 0%nat).2 :: vs), w'. change (option_list (Some d)) with [d] in *. destruct Hpre as [k Hk]. rewrite length_app in *. cbn [length] in *. split_and!.
    + rewrite Hk. replace (length (Endpoint.outs w) + 1)%nat with (length (Endpoint.outs w ++ [d])) by (by rewrite length_app). rewrite drop_app_length, <- app_assoc, drop_app_length. done.
    + constructor; [by eexists _, _|done].
    + cbn [Endpoint.run Endpoint.step]. rewrite Ep. exact Hr.
    + exists (d :: k). by rewrite Hk, <- app_assoc.
    + lia.
  - exists [Endpoint.Poll now (fills 0%nat).1 (fills 0%nat).2], (Endpoint.emit w e1 []). cbn [Endpoint.run Endpoint.step]. rewrite Ep. cbn [mbind option_bind Endpoint.emit Endpoint.ep Endpoint.outs]. rewrite app_nil_r, drop_all. split_and!; [done|constructor; [by eexists _, _|done]|done|done|lia].
Qed.

Lemma reached_run root w vs w' : Endpoint.reached root w → Forall Endpoint.event_ok vs → Endpoint.run w vs = Some w' → Endpoint.reached root w'.
Proof.
  intros (e & us & Hf & Hu & Hr) Hv Hr'. exists e, (us ++ vs). split; [done|]. split; [by apply Forall_app|]. revert Hr. generalize (Endpoint.begin e). clear Hf Hu. induction us as [|u us IH]; intros w0; cbn.
  - by intros [= ->].
  - destruct (Endpoint.step w0 u); [|done]. cbn. apply IH.
Qed.

(** Enough for any endpoint. *)
Definition POLLS : nat := Z.to_nat 8199.

Lemma polling_ends root w now fills (H : Endpoint.reached root w) :
  ∃ os w', (∀ fuel, (owes (Endpoint.ep w) now < fuel)%nat → drain fuel (Endpoint.ep w) now fills = Some (os, Endpoint.ep w')) ∧
    (length os ≤ owes (Endpoint.ep w) now < POLLS)%nat ∧ Endpoint.reached root w' ∧ Endpoint.outs w' = Endpoint.outs w ++ os.
Proof.
  pose proof (Endpoint.reached_good _ _ H) as Hg. pose proof (owes_bounded root _ now (Endpoint.g_inv _ _ Hg)) as Hb.
  destruct (drain_ends root w now (S (owes (Endpoint.ep w) now)) fills Hg) as (vs & w' & Hd & Hv & Hr & [os Hos] & Hl); [lia|].
  rewrite Hos, drop_app_length in Hd. exists os, w'. split_and!; [|rewrite Hos, length_app in Hl; lia|unfold POLLS; lia| |done].
  - intros fuel Hf. by apply (drain_fuel (S (owes (Endpoint.ep w) now))).
  - apply (reached_run root w vs); [done| |done]. eapply list.Forall_impl; [exact Hv|]. by intros v (? & ? & ->).
Qed.

(** C30: polling a connection dry always ends.  In any state an endpoint can reach, at any instant
    and whatever entropy the polls are given, the loop comes to a poll that emits nothing, without a
    panic, after at most one datagram for each thing owed at that instant, and never more than 8198;
    what it emits is what the endpoint emits, and the state it leaves is one the endpoint can reach. *)
Theorem polling_dry_ends root w now fills (H : Endpoint.reached root w) :
  ∃ os w', (∀ fuel, (owes (Endpoint.ep w) now < fuel)%nat → drain fuel (Endpoint.ep w) now fills = Some (os, Endpoint.ep w')) ∧
    (length os ≤ owes (Endpoint.ep w) now < POLLS)%nat ∧ Endpoint.reached root w' ∧ Endpoint.outs w' = Endpoint.outs w ++ os.
Proof. by apply polling_ends. Qed.

End Drain.

(** A server that has heard one frame owes an acknowledgement and a challenge. *)
Definition heard : Endpoint.world (C := Keys.Toy.toy) := default (Endpoint.begin Endpoint.Demo.server0) (Endpoint.run (Endpoint.begin Endpoint.Demo.server0) [Endpoint.Recv (V4 2 2) 5 Endpoint.Demo.second_out]).
Lemma heard_reached : Endpoint.reached (C := Keys.Toy.toy) Endpoint.Demo.root0 heard.
Proof. apply (Endpoint.reached_intro (CryptoLaws0 := Keys.Toy.toy_laws)); [exact Endpoint.Demo.server_fresh|]. constructor; [exact Endpoint.Demo.second_bytes|constructor]. Qed.
Definition token : list Z := [1; 2; 3; 4; 5; 6; 7; 8].
Lemma polling_dry_ends_witness : ∃ os w', drain (C := Keys.Toy.toy) POLLS (Endpoint.ep heard) (from_secs 2) (λ _, (Some token, None)) = Some (os, Endpoint.ep (C := Keys.Toy.toy) w') ∧ len os = 2 ∧
  Endpoint.outs w' = os.
Proof.
  destruct (polling_dry_ends (C := Keys.Toy.toy) (CryptoLaws0 := Keys.Toy.toy_laws) Endpoint.Demo.root0 heard (from_secs 2) (λ _, (Some token, None)) heard_reached) as (os & w' & Hd & [_ Hp] & _ & Ho).
  exists os, w'. specialize (Hd POLLS Hp). split; [exact Hd|]. split; [|exact Ho].
  assert (Some (len os) = Some 2) as [= ->]; [|reflexivity]. change (Some (len os)) with ((λ x, len x.1) <$> Some (os, Endpoint.ep w')). rewrite <- Hd. vm_compute. reflexivity.
Defined.

End Drain.
