(* ===== verification/Timer.v ===== *)
(** * When the head of a forwarded stream is owed again ([crates/forward/src/timer.rs])

    The smoothed round trip, Karn's rule and the one fast retransmit per stalled
    acknowledgement.  The theorems show that the wait between retransmissions stays between its
    floor and its ceiling and never shrinks while attempts go unanswered, and that a timer armed
    when [remaining] says is due exactly then. *)

From S2P Require Import Prelude.

Module Timer.

Definition INITIAL : Duration := from_millis 250.
Definition MIN : Duration := from_millis 50.
Definition MAX : Duration := from_secs 2.

Inductive Progress := Advanced | Stalled | Repeated.

Record Timer := mkTimer {
  srtt : option Duration;
  sample : option (Z * Instant);
  waiting : option Instant;
  attempts : Z;
  acked : Z;
  retried : bool
}.
#[export] Instance Timer_settable : Settable Timer := λ t,
  mkTimer (srtt t) (sample t) (waiting t) (attempts t) (acked t) (retried t).

Definition new : Timer :=
  {| srtt := None; sample := None; waiting := None; attempts := 0; acked := 0; retried := false |}.

Definition arm (t : Timer) (now : Instant) : Timer :=
  match waiting t with None => t <| waiting := Some now |> | Some _ => t end.

Definition interval (t : Timer) : Duration :=
  let base := match srtt t with None => INITIAL | Some srtt => srtt * 2 end in
  clamp (dur_sat_mul base (Z.shiftl 1 (Z.min (attempts t) 5))) MIN MAX.

Definition due (t : Timer) (now : Instant) : bool :=
  match waiting t with
  | Some since_ => interval t <=? since now since_
  | None => false
  end.

Definition remaining (t : Timer) (now : Instant) : option Duration :=
  (λ since_, sat_sub (interval t) (since now since_)) <$> waiting t.

Definition expired (t : Timer) : Timer :=
  t <| attempts := sat_add U32_MAX (attempts t) 1 |> <| waiting := None |> <| sample := None |>.

Definition transmitted (t : Timer) (fresh_end : option Z) (now : Instant) : Timer :=
  let t := arm t now in
  match fresh_end, sample t with
  | Some end_, None => t <| sample := Some (end_, now) |>
  | _, _ => t
  end.

Definition observe (t : Timer) (taken : Duration) : Timer :=
  t <| srtt := Some (match srtt t with None => taken | Some s => s * 7 / 8 + taken / 8 end) |>.

Definition acknowledged (t : Timer) (off : Z) (now : Instant) (owed : bool) : Progress * Timer :=
  let t := match sample t with
           | Some (end_, sent) =>
               if end_ <=? off then (observe t (since now sent)) <| sample := None |> else t
           | None => t
           end in
  let '(progress, t) :=
    if acked t <? off then (Advanced, t <| acked := off |> <| attempts := 0 |> <| retried := false |>)
    else if retried t then (Repeated, t)
    else (Stalled, t <| retried := true |>) in
  let t := t <| waiting := if owed then Some now else None |> in
  (progress, if owed then t else t <| sample := None |>).

(** ** Lemmas *)

Lemma interval_bounds t : MIN ≤ interval t ≤ MAX.
Proof. unfold interval. assert (MIN ≤ MAX) by (by vm_compute). slia. Qed.

Lemma arm_waiting t now : is_Some (waiting (arm t now)).
Proof. unfold arm. destruct (waiting t) eqn:E; [by rewrite E|done]. Qed.

Lemma transmitted_waiting t f now : is_Some (waiting (transmitted t f now)).
Proof.
  unfold transmitted. pose proof (arm_waiting t now) as H. destruct f; [|done].
  by destruct (sample (arm t now)).
Qed.

Lemma acknowledged_waiting t off now owed :
  waiting (acknowledged t off now owed).2 = if owed then Some now else None.
Proof. unfold acknowledged. repeat case_match; simplify_eq/=; done. Qed.

(** Nothing but an acknowledgement of progress resets the backoff. *)
Lemma interval_mono t t' :
  srtt t' = srtt t → 0 ≤ attempts t ≤ attempts t' → (∀ d, srtt t = Some d → 0 ≤ d) → interval t ≤ interval t'.
Proof.
  intros Hsr Hab Hs. unfold interval. rewrite Hsr, !Z.shiftl_1_l.
  assert (0 ≤ match srtt t with None => INITIAL | Some d => d * 2 end) as Hb.
  { destruct (srtt t) as [d|]; [specialize (Hs d eq_refl); lia|by vm_compute]. }
  set (base := match srtt t with None => INITIAL | Some d => d * 2 end) in *. clearbody base.
  assert (2 ^ Z.min (attempts t) 5 ≤ 2 ^ Z.min (attempts t') 5) by (apply Z.pow_le_mono_r; lia).
  assert (base * 2 ^ Z.min (attempts t) 5 ≤ base * 2 ^ Z.min (attempts t') 5) by (apply Z.mul_le_mono_nonneg_l; lia).
  slia.
Qed.

(** ** Properties *)

(** The retransmission timer is exact and bounded.  A timer that is waiting becomes due
    at the instant [remaining] names and not before, which is between 50 ms and 2 s after it
    was armed; an attempt that expires unanswered never makes the next wait shorter; and one
    not waiting is never due. *)
Theorem retransmission_is_timely t now later
    (H : now ≤ later ∧ 0 ≤ attempts t ≤ U32_MAX ∧ (∀ d, srtt t = Some d → 0 ≤ d)) :
  match waiting t, remaining t now with
  | Some armed, Some rest =>
      (armed ≤ now → (due t later = true ↔ now + rest ≤ later ∨ due t now = true)) ∧
      0 ≤ rest ≤ MAX ∧ MIN ≤ interval t ≤ MAX ∧ interval t ≤ interval (expired t)
  | None, None => due t later = false
  | _, _ => False
  end.
Proof.
  destruct H as (Hl & Ha & Hs). unfold remaining, due. destruct (waiting t) as [armed|] eqn:Ew; simpl; [|done].
  pose proof (interval_bounds t) as Hi. assert (0 < MIN) by (by vm_compute). split; [|split_and!; try slia].
  - intros Hn. rewrite !Z.leb_le. slia.
  - apply interval_mono; [done| |done]. simpl. slia.
Qed.

Lemma retransmission_is_timely_witness :
  let t := arm new 0 in
  remaining t 0 = Some (from_millis 250) ∧ due t (from_millis 249) = false ∧ due t (from_millis 250) = true.
Proof.
  cbv zeta. split; [by vm_compute|]. split; [by vm_compute|].
  pose proof (retransmission_is_timely (arm new 0) 0 (from_millis 250)) as W. simpl in W.
  destruct W as [W _]; [split_and!; [by vm_compute|lia|lia|done]|]. apply W; [lia|]. left. by vm_compute.
Defined.

End Timer.
