(* ===== verification/Send.v ===== *)
(** * The half of a stream that owes bytes ([crates/forward/src/send.rs], and [SackRuns] of
    [crates/proto/src/lib.rs])

    Offsets are absolute positions in the stream.  [VecDeque::as_slices] may cut the buffer
    anywhere: where is the argument [front] of the operations that look at the slices.  Bytes
    appended to the caller's buffer are returned beside the segment that describes them.

    The theorems show that the three offsets stay ordered and the buffer bounded, that every
    segment offered is a piece of what was written at the offset it names, that the head is
    always offered again once the timer is due, and that a probe the caller could not send is
    no longer owed. *)

From S2P Require Import Prelude Timer.

Definition FORWARD_WINDOW : Z := 256 * 1024.
Definition MAX_HELD_SEGMENTS : Z := 256.
Definition MAX_FORWARD_CHUNK : Z := 32 * 1024.
Definition CHUNK_WINDOW : Z := 32 * 1024.
Definition INITIAL_WINDOW : Z := CHUNK_WINDOW.
Definition MAX_ACK_RUNS : Z := 32.

(** [Contradiction]. *)
Inductive Contradiction := Contradicted.

Module Sack.
(** [gap] and [len] are [NonZeroU32]. *)
Record SackRun := mkRun { gap : Z; run : Z }.

(** [SackRuns::new] and [from_slice]. *)
Definition from_slice (runs : list SackRun) : option (list SackRun) :=
  if len runs <=? MAX_ACK_RUNS then Some runs else None.

(** [SackRuns::absolute]. *)
Fixpoint absolute (runs : list SackRun) (cursor : Z) : list (Z * Z) :=
  match runs with
  | [] => []
  | r :: rest =>
      let start := sat_add U64_MAX cursor (gap r) in
      let end_ := sat_add U64_MAX start (run r) in
      (start, end_) :: absolute rest end_
  end.
End Sack.

Record Segment := mkSegment { off : Z; fin : bool; length_ : Z }.

Module Send.

Record Sender := mkSender {
  base : Z;
  buffer : list Z;
  next : Z;
  cursor : Z;
  send_fin : option Z;
  fin_sent : bool;
  fin_acked : bool;
  window : Z;
  held : list (Z * Z);
  timer : Timer.Timer
}.
#[export] Instance Sender_settable : Settable Sender := λ s,
  mkSender (base s) (buffer s) (next s) (cursor s) (send_fin s) (fin_sent s) (fin_acked s)
    (window s) (held s) (timer s).

Inductive Owed :=
| Repair (off_ n : Z)
| Fresh (off_ n : Z)
| End_ (off_ : Z)
| Probe (off_ : Z)
| Nothing.

Definition new : Sender :=
  {| base := 0; buffer := []; next := 0; cursor := 0; send_fin := None; fin_sent := false;
     fin_acked := false; window := INITIAL_WINDOW; held := []; timer := Timer.new |}.

Definition end_ (s : Sender) : Z := base s + len (buffer s).

Definition writable (s : Sender) : Z :=
  if send_fin s is Some _ then 0 else FORWARD_WINDOW - len (buffer s).

Definition write (s : Sender) (bytes : list Z) (now : Instant) : Z * Sender :=
  let take_ := Z.min (writable s) (len bytes) in
  let s := s <| buffer := buffer s ++ take (Z.to_nat take_) bytes |> in
  (take_, if 0 <? take_ then s <| timer := Timer.arm (timer s) now |> else s).

Definition finish (s : Sender) : Sender :=
  if send_fin s is None then s <| send_fin := Some (end_ s) |> else s.

Definition unheld (s : Sender) (off : Z) : Z :=
  foldl (λ off r, if (r.1 <=? off) && (off <? r.2) then r.2 else off) off (held s).

Definition next_held (s : Sender) (off : Z) : option Z :=
  fst <$> List.find (λ r : Z * Z, off <? r.1) (held s).

Definition awaiting_ack (s : Sender) : bool :=
  (base s <? end_ s) || (bool_decide (is_Some (send_fin s)) && negb (fin_acked s)).

Definition owed (s : Sender) (woken : bool) (budget : Z) : Owed :=
  let e := end_ s in
  let later :=
    let granted := sat_add U64_MAX (base s) (window s) in
    let limit := Z.min e granted in
    if next s <? limit then Fresh (next s) (Z.min (limit - next s) budget)
    else if bool_decide (send_fin s = Some e) && (next s =? e) && negb (fin_sent s) && negb (fin_acked s)
    then End_ e
    else if woken && (next s =? base s) && (next s <? e) then Probe (base s)
    else Nothing in
  if cursor s <? next s then
    let off := unheld s (cursor s) in
    if off <? next s then
      let stop := Z.min (default (next s) (next_held s off)) (next s) in
      Repair off (Z.min (stop - off) budget)
    else later
  else later.

(** [front] is the length of the first of the deque's two slices. *)
Definition fill (s : Sender) (off_ len_ : Z) (front : nat) : option (Segment * list Z) :=
  let start := Z.to_nat (off_ - base s) in
  let fr := take front (buffer s) in
  let bk := drop front (buffer s) in
  let bytes :=
    if (start <? length fr)%nat then
      let take_ := Nat.min (Z.to_nat len_) (length fr - start) in slice start (start + take_) fr
    else
      let start := (start - length fr)%nat in
      let take_ := Nat.min (Z.to_nat len_) (length bk - start) in slice start (start + take_) bk in
  let fin_ := bool_decide (send_fin s = Some (off_ + len bytes)) in
  if (0 <? len bytes) || fin_ then Some ({| off := off_; fin := fin_; length_ := len bytes |}, bytes)
  else None.

Definition poll_transmit (s : Sender) (now : Instant) (budget : Z) (front : nat)
    : option (Segment * list Z) * Sender :=
  let budget := Z.min budget MAX_FORWARD_CHUNK in
  if budget =? 0 then (None, s)
  else
    let woken := Timer.due (timer s) now in
    let s := if woken
             then s <| cursor := base s |> <| fin_sent := false |> <| timer := Timer.expired (timer s) |>
             else s in
    (match owed s woken budget with
     | Repair off n | Fresh off n => fill s off n front
     | End_ off => fill s off 0 front
     | Probe off => fill s off 1 front
     | Nothing => None
     end, s).

Definition transmitted (s : Sender) (segment : Segment) (now : Instant) : Sender :=
  let e := off segment + length_ segment in
  let fresh := if next s <? e then Some e else None in
  let s := s <| next := Z.max (next s) e |> in
  let s := s <| cursor := Z.max (cursor s) e |> in
  let s := if fin segment then s <| fin_sent := true |> else s in
  s <| timer := Timer.transmitted (timer s) fresh now |>.

(** The loop over the runs: [None] is a run past what was sent. *)
Fixpoint take_runs (limit : Z) (runs : list (Z * Z)) (acc : list (Z * Z)) : option (list (Z * Z)) :=
  match runs with
  | [] => Some acc
  | r :: rest => if limit <? r.2 then None else take_runs limit rest (acc ++ [r])
  end.

Definition on_ack (s : Sender) (off_ window_ : Z) (runs : list Sack.SackRun) (now : Instant)
    : result () Contradiction * Sender :=
  if off_ <? base s then (Ok (), s)
  else
    let e := end_ s in
    let s :=
      if base s <? off_ then
        let advance := Z.min off_ e - base s in
        let s := s <| buffer := drop (Z.to_nat advance) (buffer s) |> in
        let s := s <| base := base s + advance |> in
        let s := s <| next := Z.max (next s) (base s) |> in
        let s := s <| cursor := Z.max (cursor s) (base s) |> in
        if match send_fin s with Some f => f <? off_ | None => false end
        then s <| fin_acked := true |> else s
      else s in
    match take_runs (next s) (Sack.absolute runs off_) [] with
    | None => (Err Contradicted, s <| held := [] |>)
    | Some l =>
        let s := s <| held := l |> in
        let s := s <| window := window_ |> in
        let awaiting := awaiting_ack s in
        let '(progress, t) := Timer.acknowledged (timer s) off_ now awaiting in
        let s := s <| timer := t |> in
        (Ok (),
         if match progress with Timer.Stalled => true | _ => false end && (0 <? window_) && awaiting
         then s <| cursor := base s |> <| fin_sent := false |> else s)
    end.

Definition is_done (s : Sender) : bool := bool_decide (is_Some (send_fin s)) && fin_acked s.
Definition deadline (s : Sender) (now : Instant) : option Duration := Timer.remaining (timer s) now.

(** ** The sender against the stream it carries *)

(** Offsets are 64 bits wide; no stream is anywhere near that long. *)
Definition STREAM_LIMIT : Z := 2 ^ 62.

Record inv (W : list Z) (s : Sender) : Prop := {
  i_order : 0 ≤ base s ≤ cursor s ∧ cursor s ≤ next s ≤ len W;
  i_buffer : buffer s = drop (Z.to_nat (base s)) W;
  i_size : len (buffer s) ≤ FORWARD_WINDOW;
  i_fin : ∀ f, send_fin s = Some f → f = len W;
  i_held : Forall (λ r : Z * Z, base s < r.1 < r.2 ∧ r.2 ≤ next s) (held s);
  i_limit : len W ≤ STREAM_LIMIT;
  i_window : 0 ≤ window s
}.

Lemma inv_end W s : inv W s → end_ s = len W.
Proof. intros [Ho Hb _ _ _ _ _]. unfold end_. rewrite Hb, length_drop. lia. Qed.

Lemma sender_new_inv : inv [] new.
Proof. split; simpl; (done || lia). Qed.

Lemma write_inv W s bytes now :
  inv W s → len W + len bytes ≤ STREAM_LIMIT →
  let '(n, s') := write s bytes now in
  inv (W ++ take (Z.to_nat n) bytes) s' ∧ 0 ≤ n ≤ len bytes ∧ (send_fin s ≠ None → n = 0).
Proof.
  intros [Ho Hb Hs Hf Hh Hl Hwi] Hlim. unfold write.
  assert (0 ≤ writable s ≤ FORWARD_WINDOW - len (buffer s) ∧ (send_fin s ≠ None → writable s = 0)) as [Hw Hwf].
  { unfold writable. destruct (send_fin s); split; try done; lia. }
  set (n := Z.min (writable s) (len bytes)) in *.
  assert (0 ≤ n ≤ len bytes ∧ n ≤ writable s) as [Hn Hnw] by lia.
  assert (length (take (Z.to_nat n) bytes) = Z.to_nat n) as Hlt by (rewrite length_take; lia).
  assert (inv (W ++ take (Z.to_nat n) bytes) (s <| buffer := buffer s ++ take (Z.to_nat n) bytes |>)) as Hi.
  { split; simpl; rewrite ?length_app, ?Hlt; try lia; [|idtac|done].
    - rewrite Hb, drop_app_le by lia. done.
    - intros f Hff. rewrite (Hf f Hff), Hwf in * by (by rewrite Hff). lia. }
  split; [|split; [lia|intros H; specialize (Hwf H); lia]].
  destruct (0 <? n); [by destruct Hi|done].
Qed.

Lemma finish_inv W s : inv W s → inv W (finish s).
Proof.
  intros Hi. pose proof (inv_end _ _ Hi) as He. destruct Hi. unfold finish.
  destruct (send_fin s) eqn:E; split; simpl; try done; rewrite ?E; try done. by intros f [= <-].
Qed.

(** Wherever the deque wraps, [fill] gives a piece of the stream at the offset asked for. *)
Lemma fill_spec W s off_ n front :
  inv W s → base s ≤ off_ ≤ len W → 0 ≤ n →
  ∃ k, Z.of_nat k ≤ n ∧ off_ + Z.of_nat k ≤ len W ∧ (0 < n → off_ < len W → (0 < k)%nat) ∧
    let bytes := slice (Z.to_nat off_) (Z.to_nat off_ + k) W in
    let fin_ := bool_decide (send_fin s = Some (off_ + Z.of_nat k)) in
    length bytes = k ∧
    fill s off_ n front =
      if (0 <? Z.of_nat k) || fin_ then Some ({| off := off_; fin := fin_; length_ := Z.of_nat k |}, bytes) else None.
Proof.
  intros [Ho Hb Hs Hf Hh Hl _] Hoff Hn.
  set (start := Z.to_nat (off_ - base s)).
  assert (length (buffer s) = length W - Z.to_nat (base s))%nat as Hlb by (by rewrite Hb, length_drop).
  assert (∀ k, (start + k ≤ length (buffer s))%nat →
    take k (drop start (buffer s)) = slice (Z.to_nat off_) (Z.to_nat off_ + k) W) as Hslice.
  { intros k Hk. unfold slice. rewrite Hb, drop_drop. do 2 f_equal; [|f_equal]; unfold start; lia. }
  assert (∃ k, Z.of_nat k ≤ n ∧ (start + k ≤ length (buffer s))%nat ∧ (0 < n → off_ < len W → (0 < k)%nat) ∧
    fill s off_ n front =
      let bytes := take k (drop start (buffer s)) in
      let fin_ := bool_decide (send_fin s = Some (off_ + len bytes)) in
      if (0 <? len bytes) || fin_ then Some ({| off := off_; fin := fin_; length_ := len bytes |}, bytes) else None)
    as (k & Hk1 & Hk2 & Hk3 & Hfill).
  { unfold fill. fold start. destruct (Nat.ltb_spec start (length (take front (buffer s)))) as [Hlt|Hge].
    - rewrite length_take in Hlt. set (k := Nat.min (Z.to_nat n) (length (take front (buffer s)) - start)).
      assert (k ≤ length (take front (buffer s)) - start)%nat as Hkl by lia. rewrite length_take in Hkl.
      exists k. split; [lia|]. split; [lia|].
      split; [intros; unfold k; rewrite length_take; lia|].
      assert (slice start (start + k) (take front (buffer s)) = take k (drop start (buffer s))) as ->; [|done].
      unfold slice. rewrite skipn_firstn_comm, take_take. f_equal. lia.
    - set (st := (start - length (take front (buffer s)))%nat).
      set (k := Nat.min (Z.to_nat n) (length (drop front (buffer s)) - st)).
      rewrite length_take in Hge.
      assert (st = start - Nat.min front (length (buffer s)))%nat as Hst by (unfold st; by rewrite length_take).
      assert (start ≤ length (buffer s))%nat as Hsl by (unfold start; lia).
      exists k. assert (k = Nat.min (Z.to_nat n) (length (buffer s) - front - st))%nat as Hk by (unfold k; by rewrite length_drop).
      split; [lia|]. split; [lia|]. split; [unfold start in *; lia|].
      assert (slice st (st + k) (drop front (buffer s)) = take k (drop start (buffer s))) as ->; [|done].
      unfold slice. replace (st + k - st)%nat with k by lia.
      destruct (decide (front ≤ length (buffer s))%nat).
      + rewrite drop_drop. do 2 f_equal. lia.
      + assert (k = 0)%nat as -> by lia. done. }
  exists k. rewrite Hslice in Hfill by done.
  assert (length (slice (Z.to_nat off_) (Z.to_nat off_ + k) W) = k) as Hlen.
  { unfold slice. rewrite length_take, length_drop. unfold start in *. lia. }
  split; [done|]. split; [unfold start in *; lia|]. split; [done|]. cbv zeta. split; [done|].
  rewrite Hfill. cbv zeta. by rewrite Hlen.
Qed.

Lemma unheld_ge s off_ : Forall (λ r : Z * Z, r.1 < r.2) (held s) → off_ ≤ unheld s off_.
Proof.
  unfold unheld. intros H. revert off_. induction H as [|r l Hr Hl IH]; intros off_; simpl; [lia|].
  etrans; [|apply IH]. destruct (Z.leb_spec r.1 off_), (Z.ltb_spec off_ r.2); simpl; lia.
Qed.

Lemma unheld_below s off_ : Forall (λ r : Z * Z, off_ < r.1) (held s) → unheld s off_ = off_.
Proof.
  unfold unheld. induction 1 as [|r l Hr Hl IH]; simpl; [done|].
  rewrite (proj2 (Z.leb_gt _ _)) by lia. done.
Qed.

Lemma next_held_gt s off_ x : next_held s off_ = Some x → off_ < x.
Proof.
  unfold next_held. destruct (List.find _ _) as [r|] eqn:E; simpl; [|done]. intros [= <-].
  apply find_some in E as [_ E]. by apply Z.ltb_lt.
Qed.

(** Where what is owed starts, and how much of it there is. *)
Definition span (o : Owed) : option (Z * Z) :=
  match o with
  | Repair off n | Fresh off n => Some (off, n)
  | End_ off => Some (off, 0)
  | Probe off => Some (off, 1)
  | Nothing => None
  end.

Lemma owed_spec W s woken budget :
  inv W s → 0 < budget →
  match span (owed s woken budget) with
  | Some (off_, n) => base s ≤ off_ ≤ len W ∧ 0 ≤ n ≤ budget ∧ off_ + n ≤ len W ∧
      (∀ off n, owed s woken budget = Fresh off n → off + n ≤ base s + window s) ∧
      (n = 0 → send_fin s = Some (len W))
  | None => True
  end.
Proof.
  intros Hi Hb. pose proof (inv_end _ _ Hi) as He. destruct Hi as [Ho _ _ Hf Hh Hl _]. unfold owed. rewrite He.
  assert (Forall (λ r : Z * Z, r.1 < r.2) (held s)) as Hh' by (eapply list.Forall_impl; [exact Hh|]; simpl; lia).
  match goal with |- context [if cursor s <? next s then (if _ then _ else ?l) else ?l] =>
    assert (match span l with
      | Some (off_, n) => base s ≤ off_ ≤ len W ∧ 0 ≤ n ≤ budget ∧ off_ + n ≤ len W ∧
          (∀ off n, l = Fresh off n → off + n ≤ base s + window s) ∧ (n = 0 → send_fin s = Some (len W))
      | None => True end) as Hlater end.
  { destruct (Z.ltb_spec (next s) (Z.min (len W) (sat_add U64_MAX (base s) (window s)))); simpl.
    - split_and!; try lia. intros off n [= <- <-]. slia.
    - destruct (bool_decide (send_fin s = Some (len W))) eqn:Ef; simpl.
      + apply bool_decide_eq_true in Ef. destruct ((next s =? len W) && negb (fin_sent s) && negb (fin_acked s)); simpl.
        * split_and!; (done || lia).
        * destruct (woken && (next s =? base s) && (next s <? len W)) eqn:E; [|done]. zbool. simpl.
          split_and!; (done || lia).
      + destruct (woken && (next s =? base s) && (next s <? len W)) eqn:E; [|done]. zbool. simpl.
        split_and!; (done || lia). }
  destruct (Z.ltb_spec (cursor s) (next s)); [|done].
  destruct (Z.ltb_spec (unheld s (cursor s)) (next s)); [|done]. simpl.
  pose proof (unheld_ge s (cursor s) Hh'). set (o := unheld s (cursor s)) in *.
  assert (o < Z.min (default (next s) (next_held s o)) (next s)).
  { destruct (next_held s o) as [x|] eqn:Ex; simpl; [apply next_held_gt in Ex|]; lia. }
  split_and!; try lia. done.
Qed.

(** What the woken sender looks like. *)
Lemma woken_inv W s :
  inv W s → inv W (s <| cursor := base s |> <| fin_sent := false |> <| timer := Timer.expired (timer s) |>).
Proof. intros [Ho ? ? ? ? ? ?]. split; simpl; try done. lia. Qed.

Lemma poll_spec W s now budget front :
  inv W s → 0 ≤ budget →
  let '(o, s') := poll_transmit s now budget front in
  inv W s' ∧ base s' = base s ∧ next s' = next s ∧ send_fin s' = send_fin s ∧ window s' = window s ∧
  match o with
  | Some (seg, bytes) =>
      base s ≤ off seg ∧ off seg + length_ seg ≤ len W ∧ length_ seg = len bytes ∧
      len bytes ≤ Z.min budget MAX_FORWARD_CHUNK ∧
      bytes = slice (Z.to_nat (off seg)) (Z.to_nat (off seg + length_ seg)) W ∧
      (fin seg = true → send_fin s = Some (len W) ∧ off seg + length_ seg = len W) ∧
      (0 < length_ seg ∨ fin seg = true)
  | None => True
  end.
Proof.
  intros Hi Hbu. unfold poll_transmit. destruct (Z.eqb_spec (Z.min budget MAX_FORWARD_CHUNK) 0) as [|Hnz]; [done|].
  set (b := Z.min budget MAX_FORWARD_CHUNK) in *. assert (0 < b) by (unfold b, MAX_FORWARD_CHUNK in *; lia).
  set (woken := Timer.due (timer s) now). set (s1 := if woken then _ else s).
  assert (inv W s1 ∧ base s1 = base s ∧ next s1 = next s ∧ send_fin s1 = send_fin s ∧ window s1 = window s)
    as (Hi1 & E1 & E2 & E3 & E4).
  { unfold s1. destruct woken; [|done]. split; [by apply woken_inv|done]. }
  clearbody s1. split; [done|]. split; [done|]. split; [done|]. split; [done|]. split; [done|].
  pose proof (owed_spec W s1 woken b Hi1 ltac:(lia)) as Hsp.
  assert (∀ off_ n, base s1 ≤ off_ ≤ len W ∧ 0 ≤ n ≤ b →
    match fill s1 off_ n front with
    | Some (seg, bytes) =>
      base s ≤ off seg ∧ off seg + length_ seg ≤ len W ∧ length_ seg = len bytes ∧ len bytes ≤ b ∧
      bytes = slice (Z.to_nat (off seg)) (Z.to_nat (off seg + length_ seg)) W ∧
      (fin seg = true → send_fin s = Some (len W) ∧ off seg + length_ seg = len W) ∧
      (0 < length_ seg ∨ fin seg = true)
    | None => True end) as Hfill.
  { intros off_ n [Hoff Hn]. destruct (fill_spec W s1 off_ n front Hi1 Hoff) as (k & Hk1 & Hk2 & _ & Hlen & ->); [lia|].
    destruct ((0 <? Z.of_nat k) || _) eqn:E; [|done]. simpl. destruct (i_order _ _ Hi1).
    split_and!; try lia.
    - f_equal. lia.
    - intros Hfin%bool_decide_eq_true. rewrite E3 in Hfin. pose proof (i_fin _ _ Hi1) as Hf. rewrite E3 in Hf.
      specialize (Hf _ Hfin). rewrite <- Hf. done.
    - apply orb_true_iff in E as [E|E]; [left; by apply Z.ltb_lt|by right]. }
  destruct (owed s1 woken b); simpl in Hsp; try done; apply Hfill; lia.
Qed.

Lemma transmitted_inv W s seg now :
  inv W s → base s ≤ off seg → 0 ≤ length_ seg → off seg + length_ seg ≤ len W →
  let s' := transmitted s seg now in
  inv W s' ∧ base s' = base s ∧ next s' = Z.max (next s) (off seg + length_ seg) ∧ send_fin s' = send_fin s ∧
  window s' = window s.
Proof.
  intros [Ho Hb Hs Hf Hh Hl Hwi] Hoff Hn He. unfold transmitted. cbv zeta.
  set (s1 := if fin seg then _ else _).
  assert (base s1 = base s ∧ next s1 = Z.max (next s) (off seg + length_ seg) ∧
    cursor s1 = Z.max (cursor s) (off seg + length_ seg) ∧ buffer s1 = buffer s ∧ send_fin s1 = send_fin s ∧
    held s1 = held s ∧ window s1 = window s) as (E1 & E2 & E3 & E4 & E5 & E6 & E7) by (unfold s1; by destruct (fin seg)).
  clearbody s1. split; [|done]. split; simpl; rewrite ?E1, ?E2, ?E3, ?E4, ?E5, ?E6, ?E7; try done; [lia|].
  eapply list.Forall_impl; [exact Hh|]. simpl. lia.
Qed.

Lemma take_runs_spec limit l acc :
  take_runs limit l acc = if decide (Forall (λ r : Z * Z, r.2 ≤ limit) l) then Some (acc ++ l) else None.
Proof.
  revert acc; induction l as [|r l IH]; intros acc; cbn [take_runs].
  - rewrite decide_True by constructor. by rewrite app_nil_r.
  - destruct (Z.ltb_spec limit r.2).
    + rewrite decide_False; [done|]. rewrite list.Forall_cons. lia.
    + rewrite IH. destruct (decide (Forall _ l)).
      * rewrite decide_True by (by constructor). by rewrite <- app_assoc.
      * rewrite decide_False; [done|]. rewrite list.Forall_cons. tauto.
Qed.

Definition run_ok (r : Sack.SackRun) : Prop := 0 < Sack.gap r ∧ 0 < Sack.run r.

(** Runs that fit below a limit the offsets can express lie above the acknowledged offset. *)
Lemma absolute_above runs c limit :
  Forall run_ok runs → limit < U64_MAX → Forall (λ r : Z * Z, r.2 ≤ limit) (Sack.absolute runs c) →
  Forall (λ r : Z * Z, c < r.1 < r.2) (Sack.absolute runs c).
Proof.
  intros Hr Hl. revert c. induction Hr as [|r runs [Hg Hn] Hr IH]; intros c Hall; simpl in *; [constructor|].
  apply list.Forall_cons in Hall as [He Hall]. simpl in He.
  set (st := sat_add U64_MAX c (Sack.gap r)) in *. set (e := sat_add U64_MAX st (Sack.run r)) in *.
  assert (c < st < e) as Hlt by (unfold e, st in *; slia).
  constructor; [done|]. eapply list.Forall_impl; [exact (IH e Hall)|]. simpl. lia.
Qed.

(** The sender after the cumulative part of an acknowledgement. *)
Lemma on_ack_spec W s off_ window_ runs now :
  inv W s → 0 ≤ off_ → 0 ≤ window_ → Forall run_ok runs →
  let '(r, s') := on_ack s off_ window_ runs now in
  inv W s' ∧ send_fin s' = send_fin s ∧ base s' = Z.max (base s) (Z.min off_ (len W)) ∧
  next s' = Z.max (next s) (base s') ∧
  (off_ < base s → s' = s ∧ r = Ok ()) ∧
  (base s ≤ off_ → (r = Ok () ↔ Forall (λ r : Z * Z, r.2 ≤ next s') (Sack.absolute runs off_))) ∧
  (base s ≤ off_ → r = Ok () → window s' = window_) ∧
  (len W < off_ → is_Some (send_fin s) → fin_acked s' = true) ∧
  (fin_acked s' = true → fin_acked s = true ∨ len W < off_ ∧ is_Some (send_fin s)).
Proof.
  intros Hi Hoff Hwn Hruns. pose proof (inv_end _ _ Hi) as He. pose proof Hi as [Ho Hb Hs Hf Hh Hl Hwi]. unfold on_ack.
  destruct (Z.ltb_spec off_ (base s)) as [Hlt|Hge]; [split_and!; try (done || lia); auto|]. rewrite He.
  set (s1 := if base s <? off_ then _ else s).
  assert (base s1 = Z.max (base s) (Z.min off_ (len W)) ∧ next s1 = Z.max (next s) (base s1) ∧
    cursor s1 = Z.max (cursor s) (base s1) ∧ buffer s1 = drop (Z.to_nat (base s1)) W ∧ send_fin s1 = send_fin s ∧
    window s1 = window s ∧ (len W < off_ → is_Some (send_fin s) → fin_acked s1 = true) ∧
    (fin_acked s1 = true → fin_acked s = true ∨ len W < off_ ∧ is_Some (send_fin s)))
    as (E1 & E2 & E3 & E4 & E5 & E6 & E7 & E8).
  { unfold s1. destruct (Z.ltb_spec (base s) off_) as [Hl'|Hg'].
    - match goal with |- context [if ?c then _ <| fin_acked := true |> else _] => destruct c eqn:Ec end; simpl;
        (split; [lia|]; split; [done|]; split; [done|]; split; [rewrite Hb, drop_drop; f_equal; lia|]);
        simpl in Ec; (split; [done|]; split; [done|]; split; [done || (intros Hlo [f Hff]; rewrite Hff in Ec;
           rewrite (Hf f Hff) in Ec; zbool; lia)|]); [|auto].
      intros _. right. destruct (send_fin s) as [f|]; [|done]. specialize (Hf f eq_refl). zbool. split; [lia|done].
    - split; [lia|]. split; [lia|]. split; [lia|]. split; [done|]. split; [done|]. split; [done|]. split; [lia|auto]. }
  clearbody s1.
  assert (∀ h w t, 0 ≤ w → Forall (λ r : Z * Z, base s1 < r.1 < r.2 ∧ r.2 ≤ next s1) h →
    inv W (s1 <| held := h |> <| window := w |> <| timer := t |>)) as Hinv.
  { intros h w t Hw0 Hhh. split; simpl; try done.
    - lia.
    - rewrite E4, length_drop. rewrite Hb, length_drop in Hs. lia.
    - rewrite E5. done. }
  rewrite take_runs_spec. destruct (decide _) as [Hall|Hno].
  2:{ split_and!; try (done || lia). specialize (Hinv [] (window s1) (timer s1) ltac:(by rewrite E6) ltac:(constructor)). by destruct Hinv. }
  simpl. assert (Forall (λ r : Z * Z, base s1 < r.1 < r.2 ∧ r.2 ≤ next s1) (Sack.absolute runs off_)) as Hh1.
  { pose proof (absolute_above runs off_ (next s1) Hruns ltac:(unfold STREAM_LIMIT in Hl; lia) Hall) as Hab.
    apply Forall_forall. intros r Hr. rewrite Forall_forall in Hab, Hall. specialize (Hab r Hr). specialize (Hall r Hr). lia. }
  destruct (Timer.acknowledged _ _ _ _) as [pr t]. specialize (Hinv _ window_ t Hwn Hh1).
  set (s2 := s1 <| held := _ |> <| window := _ |> <| timer := t |>) in *.
  assert (base s2 = base s1 ∧ next s2 = next s1 ∧ send_fin s2 = send_fin s1 ∧ window s2 = window_ ∧ fin_acked s2 = fin_acked s1)
    as (F1 & F2 & F3 & F4 & F5) by done.
  clearbody s2. rewrite <- F2 in Hall.
  destruct (_ && _); simpl; (split; [|split; [congruence|]; split; [lia|]; split; [lia|]; split; [lia|]; split; [done|]; split; [done|]; split; by rewrite F5]);
    [|done]. destruct Hinv as [? ? ? ? ? ? ?]. split; simpl; try done. lia.
Qed.

(** An acknowledgement that is taken starts the wait for the next one, if one is awaited. *)
Lemma on_ack_waiting s off_ window_ runs now :
  let '(r, s') := on_ack s off_ window_ runs now in
  base s ≤ off_ → r = Ok () → Timer.waiting (timer s') = if awaiting_ack s' then Some now else None.
Proof.
  unfold on_ack. destruct (Z.ltb_spec off_ (base s)); [lia|].
  set (s1 := if _ <? _ then _ else s). destruct (take_runs _ _ _); [|done].
  set (s2 := s1 <| held := _ |> <| window := _ |>).
  pose proof (Timer.acknowledged_waiting (timer s2) off_ now (awaiting_ack s2)) as Hw.
  destruct (Timer.acknowledged _ _ _ _) as [pr t]. simpl in Hw.
  intros _ _. destruct (_ && _ && _); simpl; rewrite Hw; done.
Qed.

Lemma poll_fin_acked s now budget front : fin_acked (poll_transmit s now budget front).2 = fin_acked s.
Proof. unfold poll_transmit. destruct (_ =? 0); [done|]. by destruct (Timer.due _ _). Qed.

Lemma transmitted_fin_acked s seg now : fin_acked (transmitted s seg now) = fin_acked s.
Proof. unfold transmitted. by destruct (fin seg). Qed.

(** ** Any history of a sender *)

Inductive op :=
| Write (bytes : list Z) (now : Instant)
| Finish
| Poll (now : Instant) (budget : Z) (front : nat)
| Transmit (now : Instant) (budget : Z) (front : nat)
| OnAck (off_ window_ : Z) (runs : list Sack.SackRun) (now : Instant).

(** The sender and everything it has accepted to carry.  A segment is reported transmitted when
    it was sent ([Transmit]) and not when the sink refused it ([Poll]). *)
Definition step (x : Sender * list Z) (o : op) : Sender * list Z :=
  let '(s, W) := x in
  match o with
  | Write bytes now => let '(n, s) := write s bytes now in (s, W ++ take (Z.to_nat n) bytes)
  | Finish => (finish s, W)
  | Poll now budget front => ((poll_transmit s now budget front).2, W)
  | Transmit now budget front =>
      let '(o, s) := poll_transmit s now budget front in
      (match o with Some (seg, _) => transmitted s seg now | None => s end, W)
  | OnAck off_ window_ runs now => ((on_ack s off_ window_ runs now).2, W)
  end.

(** What the types guarantee, and no more: the peer may acknowledge anything. *)
Definition op_ok (o : op) : Prop :=
  match o with
  | Poll _ budget _ | Transmit _ budget _ => 0 ≤ budget
  | OnAck off_ window_ runs _ => 0 ≤ off_ ∧ 0 ≤ window_ ∧ Forall run_ok runs
  | _ => True
  end.
Definition written (o : op) : Z := match o with Write bytes _ => len bytes | _ => 0 end.

Lemma sender_step_inv s W o :
  inv W s → op_ok o → len W + written o ≤ STREAM_LIMIT →
  let '(s', W') := step (s, W) o in inv W' s' ∧ len W' ≤ len W + written o.
Proof.
  intros Hi Ho Hl. destruct o as [bytes now| |now b f|now b f|off_ w runs now]; cbn [step op_ok written] in *.
  - pose proof (write_inv W s bytes now Hi Hl) as H. destruct (write s bytes now) as [n s'].
    destruct H as (Hi' & Hn & _). split; [exact Hi'|]. rewrite length_app, length_take. lia.
  - split; [by apply finish_inv|lia].
  - pose proof (poll_spec W s now b f Hi Ho) as H. destruct (poll_transmit s now b f) as [o s']. split; [apply H|lia].
  - pose proof (poll_spec W s now b f Hi Ho) as H. destruct (poll_transmit s now b f) as [o s'].
    destruct H as (Hi' & E1 & _ & _ & _ & H). split; [|lia]. destruct o as [[seg bytes]|]; [|done].
    destruct H as (? & ? & ? & _). apply (transmitted_inv W s' seg now Hi'); lia.
  - pose proof (on_ack_spec W s off_ w runs now Hi) as H. destruct Ho as (Ho & Hwn & Hr). specialize (H Ho Hwn Hr).
    destruct (on_ack s off_ w runs now) as [r s']. split; [apply H|lia].
Qed.

Lemma steps_inv ops s W :
  inv W s → Forall op_ok ops → len W + sum_by written ops ≤ STREAM_LIMIT →
  let '(s', W') := foldl step (s, W) ops in inv W' s'.
Proof.
  revert s W; induction ops as [|o ops IH]; intros s W Hi Hok Hl; [done|].
  apply list.Forall_cons in Hok as [Ho Hok]. simpl in Hl. cbn [foldl].
  assert (0 ≤ sum_by written ops).
  { apply sum_by_nonneg, Forall_forall. intros x _. destruct x; simpl; lia. }
  pose proof (sender_step_inv s W o Hi Ho ltac:(lia)) as H1. destruct (step (s, W) o) as [s' W'].
  destruct H1 as [Hi' HW]. apply IH; [done|done|lia].
Qed.

(** ** Properties *)

(** A sender only ever offers the stream it was given.  After any history of writes,
    polls, transmissions and acknowledgements, however wrong the acknowledgements are, the
    three offsets are in order within what was written, the buffer holds exactly the bytes
    from [base] on and no more than [FORWARD_WINDOW] of them, and a segment offered at any
    instant, budget and wrap of the deque is the piece of the stream at the offset it names:
    never empty unless it is the end, no longer than the budget or a chunk, and marked as the
    end exactly at the end of a finished stream. *)
Theorem segments_are_of_the_stream ops now budget front
    (H : Forall op_ok ops ∧ sum_by written ops ≤ STREAM_LIMIT ∧ 0 ≤ budget) :
  let '(s, W) := foldl step (new, []) ops in
  (0 ≤ base s ≤ cursor s ∧ cursor s ≤ next s ≤ len W) ∧
  buffer s = drop (Z.to_nat (base s)) W ∧ len (buffer s) ≤ FORWARD_WINDOW ∧
  match (poll_transmit s now budget front).1 with
  | Some (seg, bytes) =>
      base s ≤ off seg ∧ off seg + length_ seg ≤ len W ∧ length_ seg = len bytes ∧
      len bytes ≤ Z.min budget MAX_FORWARD_CHUNK ∧
      bytes = slice (Z.to_nat (off seg)) (Z.to_nat (off seg + length_ seg)) W ∧
      (fin seg = true → send_fin s = Some (len W) ∧ off seg + length_ seg = len W) ∧
      (0 < length_ seg ∨ fin seg = true)
  | None => True
  end.
Proof.
  destruct H as (Hok & Hl & Hb). pose proof (steps_inv ops new [] sender_new_inv Hok Hl) as Hi.
  destruct (foldl step (new, []) ops) as [s W]. split; [apply Hi|]. split; [apply Hi|]. split; [apply Hi|].
  pose proof (poll_spec W s now budget front Hi Hb) as Hp. destruct (poll_transmit s now budget front) as [o s'].
  apply Hp.
Qed.

(** The head is what a woken sender owes, when it owes anything. *)
Lemma woken_head W s now budget front :
  inv W s → awaiting_ack s = true → Timer.due (timer s) now = true → 0 < budget →
  ∃ seg bytes s', poll_transmit s now budget front = (Some (seg, bytes), s') ∧ off seg = base s ∧
    (base s < len W → 0 < length_ seg).
Proof.
  intros Hi Ha Hd Hb. unfold poll_transmit. set (b := Z.min budget MAX_FORWARD_CHUNK).
  assert (0 < b) by (unfold b, MAX_FORWARD_CHUNK; lia). destruct (Z.eqb_spec b 0) as [|Hb0]; [lia|]. rewrite Hd.
  set (s1 := s <| cursor := _ |> <| fin_sent := _ |> <| timer := _ |>).
  assert (inv W s1) as Hi1 by (by apply woken_inv). pose proof (inv_end _ _ Hi) as He.
  assert (base s1 = base s ∧ cursor s1 = base s ∧ next s1 = next s ∧ window s1 = window s ∧ fin_sent s1 = false ∧
    end_ s1 = len W ∧ send_fin s1 = send_fin s ∧ fin_acked s1 = fin_acked s) as (E1 & E2 & E3 & E4 & E5 & E6 & E7 & E8)
    by (split_and!; try done; by apply inv_end).
  clearbody s1. pose proof Hi as [Ho _ _ Hf _ Hl Hw]. pose proof (i_held _ _ Hi1) as Hh. rewrite E1 in Hh.
  assert (∃ n, span (owed s1 true b) = Some (base s, n) ∧ 0 ≤ n ∧ (base s < len W → 0 < n) ∧
    (base s = len W → send_fin s = Some (len W))) as (n & Hsp & Hn0 & Hn & Hfin).
  { unfold owed. rewrite E1, E2, E3, E4, E5, E6, E7, E8.
    rewrite unheld_below by (eapply list.Forall_impl; [exact Hh|]; simpl; lia).
    unfold awaiting_ack in Ha. rewrite He in Ha.
    destruct (Z.ltb_spec (base s) (next s)).
    - simpl. eexists. split; [done|].
      assert (base s < default (next s) (next_held s1 (base s))).
      { destruct (next_held s1 (base s)) as [x|] eqn:Ex; simpl; [by apply next_held_gt in Ex|lia]. }
      split_and!; lia.
    - assert (next s = base s) as Hnb by lia. rewrite Hnb, Z.eqb_refl.
      destruct (Z.ltb_spec (base s) (Z.min (len W) (sat_add U64_MAX (base s) (window s)))); simpl.
      { eexists. split; [done|]. split_and!; lia. }
      destruct (Z.ltb_spec (base s) (len W)); simpl in Ha.
      + destruct (Z.eqb_spec (base s) (len W)); [lia|]. rewrite andb_false_r. simpl. eexists. split; [done|]. split_and!; lia.
      + assert (base s = len W) as Hbl by lia. destruct (send_fin s) as [f|] eqn:Ef; [|done]. simpl in Ha.
        rewrite (Hf f eq_refl), bool_decide_true, Hbl, Z.eqb_refl by done. rewrite Ha. simpl.
        eexists. split; [done|]. split_and!; (done || lia). }
  destruct (fill_spec W s1 (base s) n front Hi1) as (k & Hk1 & Hk2 & Hk3 & Hlen & Hfill); [lia|lia|].
  assert (match owed s1 true b with
     | Repair off n | Fresh off n => fill s1 off n front
     | End_ off => fill s1 off 0 front | Probe off => fill s1 off 1 front | Nothing => None end
     = fill s1 (base s) n front) as ->.
  { destruct (owed s1 true b); simpl in Hsp; by simplify_eq. }
  rewrite Hfill. destruct (Z.ltb_spec (base s) (len W)) as [Hlt|Hge].
  - specialize (Hk3 ltac:(auto) Hlt). destruct (Z.ltb_spec 0 (Z.of_nat k)); [|lia]. simpl.
    eexists _, _, _. split; [done|]. simpl. split; [done|lia].
  - assert (k = 0)%nat as -> by lia. rewrite E7, Z.add_0_r, (Hfin ltac:(lia)).
    assert (base s = len W) as Hbl by lia. rewrite bool_decide_true by (by rewrite Hbl). simpl.
    eexists _, _, _. split; [done|]. simpl. split; [done|lia].
Qed.

(** The head of a stalled stream is always offered again.  In any state a sender can
    reach, if bytes or the end are unacknowledged and the retransmission timer is due, the
    next poll with room for a byte offers a segment from [base], the oldest byte the peer may
    be missing, whatever runs the peer says it holds and even when its window is shut; with
    bytes in hand the segment is never empty. *)
Theorem due_head_is_offered ops s W now budget front
    (H : Forall op_ok ops ∧ sum_by written ops ≤ STREAM_LIMIT ∧ foldl step (new, []) ops = (s, W) ∧
         awaiting_ack s = true ∧ Timer.due (timer s) now = true ∧ 0 < budget) :
  ∃ seg bytes, (poll_transmit s now budget front).1 = Some (seg, bytes) ∧ off seg = base s ∧
    (base s < len W → 0 < length_ seg).
Proof.
  destruct H as (Hok & Hl & Hf & Ha & Hd & Hb). pose proof (steps_inv ops new [] sender_new_inv Hok Hl) as Hi.
  rewrite Hf in Hi.
  destruct (woken_head W s now budget front Hi Ha Hd Hb) as (seg & bytes & s' & -> & ? & ?). eauto.
Qed.

(** A window probe the sink refuses is not owed again.  When the peer's window is shut and
    nothing is in flight, the poll that finds the timer due offers the one-byte probe but has
    already spent the timer; if the caller cannot send the segment and so never reports it
    transmitted, no later poll offers anything and no deadline is named, until the peer or the
    local socket acts. *)
Theorem refused_probe_is_forgotten s now budget front
    (H : window s = 0 ∧ 0 ≤ base s ∧ next s = base s ∧ cursor s = base s ∧ base s < end_ s ∧ end_ s ≤ U64_MAX ∧
         Timer.due (timer s) now = true ∧ 0 < budget) :
  let '(o, s') := poll_transmit s now budget front in
  (∃ seg bytes, o = Some (seg, bytes) ∧ off seg = base s ∧ length_ seg = 1) ∧
  ∀ later budget' front', (poll_transmit s' later budget' front').1 = None ∧ deadline s' later = None.
Proof.
  destruct H as (Hw & Hb0 & Hn & Hc & He & Hu & Hd & Hb). unfold poll_transmit at 1.
  destruct (Z.eqb_spec (Z.min budget MAX_FORWARD_CHUNK) 0); [unfold MAX_FORWARD_CHUNK in *; lia|]. rewrite Hd.
  set (s' := s <| cursor := _ |> <| fin_sent := _ |> <| timer := _ |>).
  assert (∀ woken b, owed s' woken b = if woken then Probe (base s) else Nothing) as Howed.
  { intros woken b. unfold owed. replace (end_ s') with (end_ s) by done.
    replace (cursor s') with (base s) by done. replace (next s') with (next s) by done.
    replace (base s') with (base s) by done. replace (window s') with (window s) by done. rewrite Hn, Hw, Z.ltb_irrefl.
    rewrite (proj2 (Z.ltb_ge _ _)) by slia. rewrite Z.eqb_refl, (proj2 (Z.ltb_lt _ _)) by done.
    rewrite (proj2 (Z.eqb_neq _ _)) by lia. rewrite andb_false_r. simpl. by rewrite !andb_true_r. }
  rewrite Howed. split.
  - unfold fill. rewrite Z.sub_diag. simpl. unfold end_ in He.
    destruct (buffer s) as [|x l] eqn:Ebuf; [simpl in He; lia|]. destruct front as [|front]; simpl; eexists _, _; done.
  - intros later budget' front'. split; [|done]. unfold poll_transmit. destruct (_ =? 0); [done|].
    replace (Timer.due (timer s') later) with false by done. by rewrite Howed.
Qed.

(** An acknowledgement of bytes that were written but never sent is taken at its word. *)
Theorem acknowledging_unsent_bytes_is_believed W s off_ window_ now :
  inv W s → next s < off_ ≤ len W → 0 ≤ window_ →
  (on_ack s off_ window_ [] now).1 = Ok () ∧ base (on_ack s off_ window_ [] now).2 = off_.
Proof.
  intros Hi Hoff Hw. pose proof (i_order _ _ Hi).
  pose proof (on_ack_spec W s off_ window_ [] now Hi ltac:(lia) Hw ltac:(constructor)) as H0.
  destruct (on_ack s off_ window_ [] now) as [r s']. destruct H0 as (_ & _ & Hb & _ & _ & Hr & _).
  simpl. split; [apply Hr; [lia|constructor]|lia].
Qed.

(** ** Witnesses *)

Definition demo_ops : list op := [Write [10; 11; 12; 13] 0; Transmit 0 3 2; Finish; OnAck 1 9 [] 1].

Lemma segments_are_of_the_stream_witness :
  match (poll_transmit (foldl step (new, []) demo_ops).1 2 5 7).1 with
  | Some (seg, bytes) => seg = {| off := 2; fin := true; length_ := 2 |} ∧
      bytes = slice 2 4 (foldl step (new, []) demo_ops).2
  | None => False
  end.
Proof.
  pose proof (segments_are_of_the_stream demo_ops 2 5 7) as W.
  destruct (foldl step (new, []) demo_ops) as [s st] eqn:E.
  destruct W as (_ & _ & _ & W).
  { split; [unfold demo_ops; forall_list (simpl; split_and?; (lia || done || constructor))|]. split; [by vm_compute|lia]. }
  assert ((poll_transmit s 2 5 7).1 = Some ({| off := 2; fin := true; length_ := 2 |}, [12; 13])) as Hp.
  { replace s with (foldl step (new, []) demo_ops).1 by (by rewrite E). by vm_compute. }
  cbn [fst snd]. rewrite Hp in W |- *. split; [done|]. apply W.
Defined.

Lemma due_head_is_offered_witness :
  ∃ seg bytes, (poll_transmit (foldl step (new, []) demo_ops).1 (from_secs 3) 5 7).1 = Some (seg, bytes) ∧ off seg = 1.
Proof.
  set (s := (foldl step (new, []) demo_ops).1).
  assert (base s = 1 ∧ awaiting_ack s = true ∧ Timer.due (timer s) (from_secs 3) = true) as (Hb & Ha & Hd)
    by (split_and!; vm_compute; reflexivity).
  destruct (due_head_is_offered demo_ops s (foldl step (new, []) demo_ops).2 (from_secs 3) 5 7) as (seg & bytes & Hp & Ho & _).
  - split; [unfold demo_ops; forall_list (simpl; split_and?; (lia || done || constructor))|]. split; [vm_compute; discriminate|].
    split; [unfold s; by destruct (foldl step (new, []) demo_ops)|]. split; [exact Ha|]. split; [exact Hd|lia].
  - exists seg, bytes. split; [exact Hp|]. rewrite Ho. exact Hb.
Defined.

Definition shut : Sender := (write (new <| window := 0 |>) [7; 8] 0).2.

Lemma refused_probe_is_forgotten_witness :
  Timer.due (timer shut) (from_secs 1) = true ∧
  ∀ later, (poll_transmit (poll_transmit shut (from_secs 1) 9 0).2 later 9 0).1 = None.
Proof.
  assert (Timer.due (timer shut) (from_secs 1) = true) as Hd by (vm_compute; reflexivity).
  assert (window shut = 0 ∧ base shut = 0 ∧ next shut = 0 ∧ cursor shut = 0 ∧ end_ shut = 2) as (E1 & E2 & E3 & E4 & E5)
    by (split_and!; vm_compute; reflexivity).
  split; [exact Hd|].
  pose proof (refused_probe_is_forgotten shut (from_secs 1) 9 0) as W. rewrite E1, E2, E3, E4, E5 in W.
  destruct (poll_transmit shut (from_secs 1) 9 0) as [o s']. destruct W as [_ W]; [split_and!; (exact Hd || lia)|].
  intros later. apply W.
Defined.

End Send.
