(* ===== verification/Recv.v ===== *)
(** * The half of a stream that owes a socket ([crates/forward/src/recv.rs])

    Segments past a gap are kept in order of offset, as the [BTreeMap] keeps them.  The pool of
    emptied buffers ([spare]) and the retained vector of runs are allocations and hold no
    contents between calls; they are not part of the state.

    The theorem of this file bounds what a peer can make a receiver hold, whatever it sends. *)

From S2P Require Import Prelude Timer Send.

Module Recv.

Record Receiver := mkReceiver {
  next : Z;
  ready : list Z;
  held : list (Z * list Z);
  held_bytes : Z;
  recv_fin : option Z;
  finished : bool;
  ack_owed : bool
}.
#[export] Instance Receiver_settable : Settable Receiver := λ r,
  mkReceiver (next r) (ready r) (held r) (held_bytes r) (recv_fin r) (finished r) (ack_owed r).

Record Ack := mkAck { ack_off : Z; ack_window : Z; ack_held : list Sack.SackRun }.

Definition new : Receiver :=
  {| next := 0; ready := []; held := []; held_bytes := 0; recv_fin := None; finished := false;
     ack_owed := false |}.

Definition readable_len (r : Receiver) : Z := len (ready r).

Definition window (r : Receiver) : Z :=
  let used := sat_add USIZE_MAX (len (ready r)) (held_bytes r) in
  Z.min U32_MAX (sat_sub FORWARD_WINDOW used).

Definition admits (r : Receiver) (n : Z) : bool := len (ready r) + n <=? FORWARD_WINDOW.

Definition consume (r : Receiver) (n : Z) : Receiver :=
  let before := window r in
  let taken := Z.min n (len (ready r)) in
  let r := r <| ready := drop (Z.to_nat taken) (ready r) |> in
  if (before <? CHUNK_WINDOW) && (CHUNK_WINDOW <=? window r) then r <| ack_owed := true |> else r.

(** A run is dropped when it does not fit the relative form. *)
Definition push_run (runs : list Sack.SackRun) (cursor : Z) (r : Z * Z) : list Sack.SackRun * Z :=
  let gap := sat_sub r.1 cursor in
  let n := sat_sub r.2 r.1 in
  if (gap <=? U32_MAX) && (n <=? U32_MAX) && negb (gap =? 0) && negb (n =? 0)
  then (runs ++ [Sack.mkRun gap n], r.2) else (runs, cursor).

(** The loop of [held_runs]; the run left open is returned for the last push. *)
Fixpoint merge_runs (held : list (Z * list Z)) (runs : list Sack.SackRun) (cursor : Z) (open : option (Z * Z))
    : list Sack.SackRun * Z * option (Z * Z) :=
  match held with
  | [] => (runs, cursor, open)
  | (off_, bytes) :: rest =>
      let e := sat_add U64_MAX off_ (len bytes) in
      let '(runs, cursor, open) :=
        match open with
        | Some (start, seen) =>
            if off_ <=? seen then (runs, cursor, Some (start, Z.max seen e))
            else let '(runs, cursor) := push_run runs cursor (start, seen) in (runs, cursor, Some (off_, e))
        | None => (runs, cursor, Some (off_, e))
        end in
      if len runs =? MAX_ACK_RUNS then (runs, cursor, open)
      else merge_runs rest runs cursor open
  end.

(** [None] is the [expect] failing. *)
Definition held_runs (r : Receiver) : option (list Sack.SackRun) :=
  let '(runs, cursor, open) := merge_runs (held r) [] (next r) None in
  let runs := match open with
              | Some run => if len runs <? MAX_ACK_RUNS then (push_run runs cursor run).1 else runs
              | None => runs
              end in
  Sack.from_slice runs.

(** [None] is a panic; [Some (None, _)] that no acknowledgement is owed. *)
Definition poll_ack (r : Receiver) : option (option Ack * Receiver) :=
  if ack_owed r then
    let r := r <| ack_owed := false |> in
    runs ← held_runs r;
    Some (Some {| ack_off := next r; ack_window := window r; ack_held := runs |}, r)
  else Some (None, r).

Definition held_past (r : Receiver) (e : Z) : bool :=
  existsb (λ s : Z * list Z, e <? sat_add U64_MAX s.1 (len s.2)) (held r).

(** [entry(off).or_insert_with(..)] and the replacement of a shorter segment: the segments
    after, and by how many bytes they grew. *)
Fixpoint put (off_ : Z) (bytes : list Z) (held : list (Z * list Z)) : list (Z * list Z) * Z :=
  match held with
  | [] => ([(off_, bytes)], len bytes)
  | (o, b) :: rest =>
      if off_ =? o then
        if len b <? len bytes then ((o, bytes) :: rest, len bytes - len b) else ((o, b) :: rest, 0)
      else if off_ <? o then ((off_, bytes) :: (o, b) :: rest, len bytes)
      else let '(rest, n) := put off_ bytes rest in ((o, b) :: rest, n)
  end.

Definition hold (r : Receiver) (off_ : Z) (bytes : list Z) : Receiver :=
  if (len bytes =? 0) || (MAX_HELD_SEGMENTS <=? len (held r))
     || (sat_add U64_MAX (next r) FORWARD_WINDOW <=? off_)
     || (FORWARD_WINDOW <? len (ready r) + held_bytes r + len bytes) then r
  else
    let '(h, grew) := put off_ bytes (held r) in
    r <| held := h |> <| held_bytes := held_bytes r + grew |>.

Fixpoint drain_held (h : list (Z * list Z)) (r : Receiver) : Receiver :=
  match h with
  | [] => r <| held := [] |>
  | (off_, bytes) :: rest =>
      if next r <? off_ then r <| held := h |>
      else
        let r := r <| held_bytes := held_bytes r - len bytes |> in
        let e := sat_add U64_MAX off_ (len bytes) in
        drain_held rest
          (if next r <? e then
             r <| ready := ready r ++ drop (Z.to_nat (next r - off_)) bytes |> <| next := e |>
           else r)
  end.

Definition settle_end (r : Receiver) : Receiver :=
  if negb (finished r) && bool_decide (recv_fin r = Some (next r))
  then r <| next := next r + 1 |> <| finished := true |> else r.

(** What [on_data] does with bytes that are news. *)
Definition place (r : Receiver) (off_ e : Z) (bytes : list Z) : Receiver :=
  if next r <? e then
    if next r <? off_ then hold r off_ bytes
    else
      let fresh := drop (Z.to_nat (next r - off_)) bytes in
      if admits r (len fresh) then
        let r := r <| ready := ready r ++ fresh |> <| next := e |> in
        drain_held (held r) r
      else r
  else r.

Definition on_data (r : Receiver) (off_ : Z) (fin_ : bool) (bytes : list Z) : result () Contradiction * Receiver :=
  let e := sat_add U64_MAX off_ (len bytes) in
  let checked :=
    match recv_fin r with
    | Some known =>
        if (known <? e) || (fin_ && negb (e =? known)) then Err Contradicted else Ok r
    | None =>
        if fin_ then
          if (e <? next r) || held_past r e then Err Contradicted else Ok (r <| recv_fin := Some e |>)
        else Ok r
    end in
  match checked with
  | Err c => (Err c, r)
  | Ok r => (Ok (), settle_end (place (r <| ack_owed := true |>) off_ e bytes))
  end.

(** ** What a peer can make it hold *)

Definition held_size (h : list (Z * list Z)) : Z := sum_by (λ s, len s.2) h.

Record bounded (r : Receiver) : Prop := {
  b_sum : held_bytes r = held_size (held r);
  b_held : held_bytes r ≤ FORWARD_WINDOW;
  b_segments : len (held r) ≤ MAX_HELD_SEGMENTS;
  b_ready : len (ready r) + held_bytes r ≤ 2 * FORWARD_WINDOW
}.

Lemma put_size off_ bytes h :
  held_size (put off_ bytes h).1 = held_size h + (put off_ bytes h).2 ∧
  0 ≤ (put off_ bytes h).2 ≤ len bytes ∧ len (put off_ bytes h).1 ≤ len h + 1.
Proof.
  unfold held_size. induction h as [|[o b] h IH]; simpl.
  - lia.
  - destruct (off_ =? o); [destruct (Z.ltb_spec (len b) (len bytes)); simpl; lia|].
    destruct (off_ <? o); [simpl; lia|]. destruct (put off_ bytes h) as [h' n]. simpl in *. lia.
Qed.

Lemma held_size_nonneg h : 0 ≤ held_size h.
Proof. apply sum_by_nonneg. apply Forall_forall. intros. lia. Qed.

Lemma hold_bounded r off_ bytes : bounded r → bounded (hold r off_ bytes).
Proof.
  intros [Hs Hh Hseg Hr]. unfold hold. destruct (_ || _) eqn:E; [by split|]. zbool.
  destruct (put_size off_ bytes (held r)) as (G1 & G2 & G3). destruct (put off_ bytes (held r)) as [h n]. simpl in *.
  split; simpl; unfold FORWARD_WINDOW, MAX_HELD_SEGMENTS in *; lia.
Qed.

Lemma drain_bounded h r :
  held_bytes r = held_size h → held_bytes r ≤ FORWARD_WINDOW → len h ≤ MAX_HELD_SEGMENTS →
  len (ready r) + held_bytes r ≤ 2 * FORWARD_WINDOW → bounded (drain_held h r).
Proof.
  revert r; induction h as [|[o b] h IH]; intros r Hs Hh Hseg Hr; simpl; [by split|].
  destruct (next r <? o); [by split|].
  pose proof (held_size_nonneg h). simpl in Hseg. unfold held_size in Hs. simpl in Hs. fold (held_size h) in Hs.
  apply IH; [| |lia|]; case_match; simpl; rewrite ?length_app, ?length_drop; lia.
Qed.

Lemma on_data_bounded r off_ fin_ bytes : bounded r → bounded (on_data r off_ fin_ bytes).2.
Proof.
  intros Hb. unfold on_data.
  set (checked := match recv_fin r with Some _ => _ | None => _ end).
  assert (match checked with Ok r' => held r' = held r ∧ held_bytes r' = held_bytes r ∧ ready r' = ready r | Err _ => True end) as Hc.
  { unfold checked. repeat case_match; simplify_eq/=; done. }
  destruct checked as [r'|c]; [|done]. destruct Hc as (E1 & E2 & E3). simpl.
  set (r0 := r' <| ack_owed := true |>).
  assert (bounded r0) as Hb0 by (destruct Hb; split; unfold r0; simpl; by rewrite ?E1, ?E2, ?E3).
  clearbody r0. unfold settle_end.
  assert (bounded (place r0 off_ (sat_add U64_MAX off_ (len bytes)) bytes)) as Hp.
  { unfold place. destruct (_ <? _); [|done]. destruct (_ <? _); [by apply hold_bounded|].
    destruct (admits r0 _) eqn:Ea; [|done]. unfold admits in Ea. zbool. destruct Hb0.
    apply drain_bounded; simpl; try done. rewrite length_app. lia. }
  destruct (_ && _); [|done]. by destruct Hp.
Qed.

Inductive event := Data (off_ : Z) (fin_ : bool) (bytes : list Z) | Consume (n : Z) | PollAck.

Definition step (r : Receiver) (v : event) : Receiver :=
  match v with
  | Data off_ fin_ bytes => (on_data r off_ fin_ bytes).2
  | Consume n => consume r n
  | PollAck => r <| ack_owed := false |>
  end.

(** A peer cannot make a receiver hold more than it agreed to.  Whatever segments arrive,
    at whatever offsets and in whatever order, and however slowly the socket reads, at most
    256 segments of [FORWARD_WINDOW] bytes in all wait past a gap, and with the bytes already
    in order they are never more than twice [FORWARD_WINDOW]. *)
Theorem receiver_memory_is_bounded vs :
  let r := foldl step new vs in
  held_bytes r = held_size (held r) ∧ held_bytes r ≤ FORWARD_WINDOW ∧ len (held r) ≤ MAX_HELD_SEGMENTS ∧
  readable_len r + held_bytes r ≤ 2 * FORWARD_WINDOW.
Proof.
  cbv zeta. assert (bounded new) as H0 by (split; by vm_compute).
  revert H0. generalize new. induction vs as [|v vs IH]; intros r Hr; simpl; [by destruct Hr|].
  apply IH. destruct v as [o f b|n|]; simpl.
  - by apply on_data_bounded.
  - unfold consume. destruct Hr as [? ? ? ?].
    destruct (_ && _); split; simpl; try done; rewrite length_drop; lia.
  - by destruct Hr.
Qed.

(** ** The receiver against the stream it is sent *)

(** Bytes placed in order: [next] without the offset the end occupies. *)
Definition placed (r : Receiver) : Z := next r - (if finished r then 1 else 0).

(** [piece W limit off bytes]: [bytes] are the stream's at [off], and were sent. *)
Definition piece (W : list Z) (limit off_ : Z) (bytes : list Z) : Prop :=
  0 ≤ off_ ∧ off_ + len bytes ≤ limit ∧ bytes = slice (Z.to_nat off_) (Z.to_nat off_ + length bytes) W.

(** [W] was written by the other side, which sent the first [limit] bytes of it; the socket
    has taken [D]. *)
Record inv (W : list Z) (limit : Z) (D : list Z) (r : Receiver) : Prop := {
  j_prefix : D ++ ready r = take (Z.to_nat (placed r)) W;
  j_order : 0 ≤ placed r ≤ limit;
  j_limit : limit ≤ len W ≤ Send.STREAM_LIMIT;
  j_held : Forall (λ s, piece W limit s.1 s.2) (held r);
  j_fin : ∀ f, recv_fin r = Some f → f = len W;
  j_done : finished r = true → recv_fin r = Some (placed r)
}.

Lemma piece_mono W X limit limit' off_ bytes :
  piece W limit off_ bytes → limit ≤ limit' → limit ≤ len W → piece (W ++ X) limit' off_ bytes.
Proof.
  intros (Ho & He & Hb) Hl Hw. split; [done|]. split; [lia|]. rewrite Hb at 1. unfold slice.
  rewrite drop_app_le by lia. rewrite take_app_le; [done|]. rewrite length_drop. lia.
Qed.

Lemma inv_mono W X limit limit' D r :
  inv W limit D r → limit ≤ limit' ≤ len (W ++ X) → len (W ++ X) ≤ Send.STREAM_LIMIT →
  (recv_fin r ≠ None → X = []) → inv (W ++ X) limit' D r.
Proof.
  intros [Hp Ho Hl Hh Hf Hd] Hlim HX Hfin. split; try done.
  - rewrite Hp, take_app_le by lia. done.
  - lia.
  - lia.
  - eapply list.Forall_impl; [exact Hh|]. intros s Hs. apply (piece_mono _ _ limit); [done|lia|lia].
  - intros f Hff. rewrite Hfin by (by rewrite Hff). rewrite app_nil_r. by apply Hf.
Qed.

(** A segment that reaches past what is placed extends the prefix by what it adds. *)
Lemma extend_prefix W limit D ready n off_ bytes :
  D ++ ready = take (Z.to_nat n) W → piece W limit off_ bytes → off_ ≤ n → n ≤ off_ + len bytes →
  limit ≤ len W →
  D ++ (ready ++ drop (Z.to_nat (n - off_)) bytes) = take (Z.to_nat (off_ + len bytes)) W.
Proof.
  intros Hp (Ho & He & Hb) Hn Hne Hl. rewrite app_assoc, Hp.
  assert (drop (Z.to_nat (n - off_)) bytes = take (Z.to_nat (off_ + len bytes - n)) (drop (Z.to_nat n) W)) as ->.
  { rewrite Hb at 1. unfold slice. rewrite skipn_firstn_comm, drop_drop. f_equal; [lia|f_equal; lia]. }
  rewrite take_take_drop. f_equal. lia.
Qed.

Lemma drain_inv W limit D h r :
  finished r = false → D ++ ready r = take (Z.to_nat (next r)) W → 0 ≤ next r ≤ limit →
  limit ≤ len W ≤ Send.STREAM_LIMIT → Forall (λ s, piece W limit s.1 s.2) h →
  (∀ f, recv_fin r = Some f → f = len W) →
  let r' := drain_held h r in
  inv W limit D r' ∧ next r ≤ next r' ∧ recv_fin r' = recv_fin r ∧ finished r' = false ∧ ack_owed r' = ack_owed r.
Proof.
  intros Hnf Hp Hn Hl Hh Hf. revert r Hnf Hp Hn Hf. induction Hh as [|[o b] h Hb Hh IH]; intros r Hnf Hp Hn Hf; simpl.
  - split; [|done]. split; unfold placed; simpl; rewrite ?Hnf, ?Z.sub_0_r; try done.
  - destruct (Z.ltb_spec (next r) o) as [Hlt|Hge].
    { split; [|done]. split; unfold placed; simpl; rewrite ?Hnf, ?Z.sub_0_r; try done. by constructor. }
    destruct Hb as (Hb0 & Hbe & Hbs). simpl in Hb0, Hbe, Hbs.
    assert (sat_add U64_MAX o (len b) = o + len b) as -> by (unfold Send.STREAM_LIMIT in *; slia).
    set (r1 := if _ <? _ then _ else _).
    assert (finished r1 = false ∧ D ++ ready r1 = take (Z.to_nat (next r1)) W ∧ 0 ≤ next r1 ≤ limit ∧
      next r ≤ next r1 ∧ recv_fin r1 = recv_fin r ∧ ack_owed r1 = ack_owed r) as (G1 & G2 & G3 & G4 & G5 & G6).
    { unfold r1. simpl. destruct (Z.ltb_spec (next r) (o + len b)); simpl; [|done].
      split; [done|]. split; [by apply (extend_prefix W limit); [done| |lia|lia|lia]|]. split_and!; (done || lia). }
    clearbody r1. specialize (IH r1 G1 G2 G3). rewrite G5, G6 in IH. specialize (IH Hf). cbv zeta in IH.
    destruct IH as (? & ? & ? & ? & ?). split; [done|]. split; [lia|]. done.
Qed.

Lemma put_forall (P : Z → list Z → Prop) off_ bytes h :
  P off_ bytes → Forall (λ s, P s.1 s.2) h → Forall (λ s, P s.1 s.2) (put off_ bytes h).1.
Proof.
  intros HP. induction 1 as [|[o b] h Hb Hh IH]; simpl; [by repeat constructor|].
  destruct (Z.eqb_spec off_ o) as [->|].
  - destruct (_ <? _); simpl; by constructor.
  - destruct (off_ <? o); simpl; [by repeat constructor|]. destruct (put off_ bytes h); simpl in *. by constructor.
Qed.

Lemma place_inv W limit D r off_ bytes :
  inv W limit D r → piece W limit off_ bytes →
  let r' := place r off_ (off_ + len bytes) bytes in
  inv W limit D r' ∧ next r ≤ next r' ∧ recv_fin r' = recv_fin r ∧ finished r' = finished r ∧
  ack_owed r' = ack_owed r ∧
  (off_ ≤ placed r → len (ready r) + len bytes ≤ FORWARD_WINDOW → off_ + len bytes ≤ placed r').
Proof.
  intros Hi Hp. pose proof Hi as [Hpre Ho Hl Hh Hf Hd]. pose proof Hp as (Hp0 & Hpe & _). unfold place.
  destruct (Z.ltb_spec (next r) (off_ + len bytes)) as [Hlt|Hge].
  2:{ split; [done|]. split; [lia|]. do 3 (split; [done|]). intros _ _.
      unfold placed in *. destruct (finished r); [|lia]. specialize (Hf _ (Hd eq_refl)). lia. }
  assert (finished r = false) as Hnf.
  { destruct (finished r) eqn:E; [|done]. unfold placed in *. rewrite E in *. specialize (Hf _ (Hd eq_refl)). lia. }
  unfold placed in *. rewrite Hnf, Z.sub_0_r in *.
  destruct (Z.ltb_spec (next r) off_) as [Hgap|Hno].
  - unfold hold. destruct (_ || _).
    + split; [done|]. split; [lia|]. do 3 (split; [done|]). lia.
    + pose proof (put_forall (piece W limit) off_ bytes (held r) Hp Hh) as Hput.
      destruct (put off_ bytes (held r)) as [h n]. simpl in Hput.
      split; [|simpl; split; [lia|]; do 3 (split; [done|]); lia].
      split; unfold placed; simpl; rewrite ?Hnf, ?Z.sub_0_r; done.
  - destruct (admits r _) eqn:Ea.
    + cbv zeta. set (r1 := r <| ready := _ |> <| next := _ |>).
      destruct (drain_inv W limit D (held r1) r1) as (G1 & G2 & G3 & G4 & G5); try done.
      { by apply (extend_prefix W limit); [done| |lia|lia|lia]. }
      { unfold r1. simpl. lia. }
      assert (next r1 = off_ + len bytes ∧ finished r1 = false) as [H1 H2] by done. rewrite G3, G4, G5, H1 in *.
      split; [done|]. split; [lia|]. do 3 (split; [done|]). lia.
    + split; [done|]. split; [lia|]. do 3 (split; [done|]). intros Hop Hroom. unfold admits in Ea. zbool.
      rewrite length_drop in Ea. lia.
Qed.

(** Arriving pieces of one stream never contradict it, whatever their order. *)
Lemma on_data_inv W limit D r off_ fin_ bytes :
  inv W limit D r → piece W limit off_ bytes → (fin_ = true → off_ + len bytes = len W) →
  let '(res, r') := on_data r off_ fin_ bytes in
  res = Ok () ∧ inv W limit D r' ∧ next r ≤ next r' ∧ placed r ≤ placed r' ∧ ack_owed r' = true ∧
  (recv_fin r' ≠ None → recv_fin r ≠ None ∨ fin_ = true) ∧
  (off_ ≤ placed r → len (ready r) + len bytes ≤ FORWARD_WINDOW →
     off_ + len bytes ≤ placed r' ∧ (fin_ = true → finished r' = true)).
Proof.
  intros Hi Hp Hfin. pose proof Hi as [Hpre Ho Hl Hh Hf Hd]. pose proof Hp as (Hp0 & Hpe & _). unfold on_data.
  assert (sat_add U64_MAX off_ (len bytes) = off_ + len bytes) as -> by (unfold Send.STREAM_LIMIT in *; slia).
  set (checked := match recv_fin r with Some _ => _ | None => _ end).
  assert (∃ r1, checked = Ok r1 ∧ (r1 = r ∨ r1 = r <| recv_fin := Some (off_ + len bytes) |> ∧ fin_ = true) ∧
    (fin_ = true → recv_fin r1 = Some (len W))) as (r1 & -> & Hr1 & Hfin1).
  { unfold checked. destruct (recv_fin r) as [f|] eqn:Ef.
    - rewrite (Hf f eq_refl). destruct (Z.ltb_spec (len W) (off_ + len bytes)); [lia|]. simpl. exists r.
      destruct fin_; simpl; [|split_and!; [done|by left|done]]. rewrite Hfin, Z.eqb_refl by done.
      rewrite Ef, (Hf f) by done. auto.
    - destruct fin_; [|exists r; split_and!; [done|by left|done]]. rewrite Hfin by done.
      assert (finished r = false) as Hnf by (destruct (finished r); [by specialize (Hd eq_refl)|done]).
      unfold placed in *. rewrite Hnf in *. destruct (Z.ltb_spec (len W) (next r)); [lia|]. simpl.
      assert (held_past r (len W) = false) as ->; [|eexists; split_and!; [done|by right|done]].
      unfold held_past. apply not_true_iff_false. intros Hx. apply existsb_exists in Hx as (s & Hs & Hlt).
      rewrite Forall_forall in Hh. specialize (Hh s ltac:(by apply list_elem_of_In)). destruct Hh as (? & ? & _). zbool.
      unfold Send.STREAM_LIMIT in *. slia. }
  set (r2 := r1 <| ack_owed := true |>).
  assert (inv W limit D r2) as Hi2.
  { unfold r2. destruct Hr1 as [->|[-> Hft]]; split; unfold placed; simpl; try done.
    - intros f [= <-]. by apply Hfin.
    - intros Hdn. rewrite Hfin by done. specialize (Hd Hdn). rewrite <- (Hf _ Hd). done. }
  assert (next r2 = next r ∧ placed r2 = placed r ∧ ready r2 = ready r ∧ finished r2 = finished r) as (E1 & E2 & E3 & E4)
    by (unfold r2, placed; destruct Hr1 as [->|[-> _]]; done).
  assert (recv_fin r2 ≠ None → recv_fin r ≠ None ∨ fin_ = true) as E5
    by (unfold r2; destruct Hr1 as [->|[-> ?]]; simpl; tauto).
  assert (fin_ = true → recv_fin r2 = Some (len W)) as E6 by done.
  assert (ack_owed r2 = true) as E7 by done.
  clearbody r2. destruct (place_inv W limit D r2 off_ bytes Hi2 Hp) as (Hi3 & F1 & F2 & F3 & F4 & F5).
  cbv zeta in *. set (r3 := place r2 off_ (off_ + len bytes) bytes) in *. clearbody r3.
  split; [done|]. rewrite E2, E3 in F5. unfold settle_end.
  assert (placed r ≤ placed r3) as Hpl by (unfold placed in *; rewrite F3, E4 in *; lia).
  destruct (negb (finished r3) && _) eqn:Eb.
  - zbool. match goal with H : bool_decide _ = true |- _ => apply bool_decide_eq_true in H; rename H into Hrf end.
    match goal with H : finished r3 = false |- _ => rename H into Hnf end.
    pose proof Hi3 as [K1 K2 K3 K4 K5 K6]. unfold placed in *. rewrite Hnf, Z.sub_0_r in *. simpl. split.
    + split; unfold placed; simpl; rewrite ?Z.add_simpl_r; done.
    + rewrite Z.add_simpl_r. split; [lia|]. split; [lia|]. split; [congruence|]. split; [by rewrite F2|]. intros; split; [lia|done].
  - split; [done|]. split; [lia|]. split; [done|]. split; [congruence|]. split; [by rewrite F2|]. intros Ha Hb.
    specialize (F5 Ha Hb). split; [done|]. intros Hft. destruct (finished r3) eqn:Ef3; [done|]. simpl in Eb.
    apply bool_decide_eq_false in Eb. destruct Eb. rewrite F2, E6 by done. f_equal.
    pose proof (j_order _ _ _ _ Hi3). unfold placed in *. rewrite Ef3 in *. specialize (Hfin Hft). lia.
Qed.

(** ** What an acknowledgement says *)

(** Where the last of the runs ends. *)
Definition reach (runs : list Sack.SackRun) (c : Z) : Z :=
  foldl (λ c r, sat_add U64_MAX (sat_add U64_MAX c (Sack.gap r)) (Sack.run r)) c runs.

Lemma absolute_snoc runs x c :
  Sack.absolute (runs ++ [x]) c = Sack.absolute runs c ++ Sack.absolute [x] (reach runs c).
Proof. revert c; induction runs as [|r runs IH]; intros c; simpl; [done|]. by rewrite IH. Qed.

Lemma reach_snoc runs x c :
  reach (runs ++ [x]) c = sat_add U64_MAX (sat_add U64_MAX (reach runs c) (Sack.gap x)) (Sack.run x).
Proof. unfold reach. by rewrite foldl_app. Qed.

(** The runs so far are well formed and, read back from [c], end below [limit]. *)
Definition runs_fit (limit c : Z) (runs : list Sack.SackRun) (cursor : Z) : Prop :=
  Forall Send.run_ok runs ∧ cursor = reach runs c ∧ 0 ≤ cursor ∧
  Forall (λ r : Z * Z, r.2 ≤ limit) (Sack.absolute runs c).

Lemma push_run_fits limit c runs cursor r :
  runs_fit limit c runs cursor → 0 ≤ r.1 → r.2 ≤ limit → limit ≤ Send.STREAM_LIMIT →
  let '(runs', cursor') := push_run runs cursor r in
  runs_fit limit c runs' cursor' ∧ len runs' ≤ len runs + 1.
Proof.
  intros (Hr & Hc & H0 & Ha) H1 H2 Hl. unfold push_run. destruct (_ && _) eqn:E; [|split; [done|lia]]. zbool.
  assert (sat_sub r.1 cursor = r.1 - cursor ∧ sat_sub r.2 r.1 = r.2 - r.1 ∧ cursor < r.1 < r.2) as (E1 & E2 & E3) by slia.
  rewrite E1, E2. split; [|rewrite length_app; simpl; lia]. unfold Send.STREAM_LIMIT in Hl.
  change (2 ^ 62) with 4611686018427387904 in Hl. split; [apply Forall_app; split; [done|]; apply Forall_singleton; split; simpl; lia|].
  rewrite reach_snoc, absolute_snoc, <- Hc. cbn [Sack.gap Sack.run Sack.absolute].
  assert (sat_add U64_MAX (sat_add U64_MAX cursor (r.1 - cursor)) (r.2 - r.1) = r.2) as -> by (destruct r; slia).
  split; [done|]. split; [lia|]. apply Forall_app; split; [done|]. by apply Forall_singleton.
Qed.

Lemma merge_runs_fit W limit c h runs cursor open :
  Forall (λ s, piece W limit s.1 s.2) h → limit ≤ Send.STREAM_LIMIT → runs_fit limit c runs cursor →
  len runs < MAX_ACK_RUNS → (∀ s e, open = Some (s, e) → 0 ≤ s ∧ e ≤ limit) →
  let '(runs', cursor', open') := merge_runs h runs cursor open in
  runs_fit limit c runs' cursor' ∧ len runs' ≤ MAX_ACK_RUNS ∧ (∀ s e, open' = Some (s, e) → 0 ≤ s ∧ e ≤ limit).
Proof.
  intros Hh Hl. revert runs cursor open. induction Hh as [|[o b] h (Hb0 & Hbe & _) Hh IH]; intros runs cursor open Hf Hn Ho; simpl.
  - split; [done|]. split; [lia|done].
  - simpl in Hb0, Hbe. assert (sat_add U64_MAX o (len b) = o + len b) as -> by (unfold Send.STREAM_LIMIT in *; slia).
    destruct (match open with Some _ => _ | None => _ end) as [[runs1 cursor1] open1] eqn:E.
    assert (runs_fit limit c runs1 cursor1 ∧ len runs1 ≤ MAX_ACK_RUNS ∧ (∀ s e, open1 = Some (s, e) → 0 ≤ s ∧ e ≤ limit))
      as (G1 & G2 & G3).
    { destruct open as [[st seen]|].
      - destruct (Ho st seen eq_refl) as [Hs He]. destruct (o <=? seen).
        + simplify_eq. split; [done|]. split; [lia|]. intros s e [= <- <-]. lia.
        + pose proof (push_run_fits limit c runs cursor (st, seen) Hf Hs He Hl) as Hp.
          destruct (push_run runs cursor (st, seen)) as [rs cu]. simplify_eq. destruct Hp as [Hp1 Hp2].
          split; [done|]. split; [lia|]. intros s e [= <- <-]. lia.
      - simplify_eq. split; [done|]. split; [lia|]. intros s e [= <- <-]. lia. }
    destruct (Z.eqb_spec (len runs1) MAX_ACK_RUNS); [done|]. apply IH; [done|lia|done].
Qed.

(** An acknowledgement is never refused by its own list of runs, whatever is held. *)
Lemma push_run_len runs cursor r : len (push_run runs cursor r).1 ≤ len runs + 1.
Proof. unfold push_run. destruct (_ && _); cbn; rewrite ?length_app; cbn; lia. Qed.
Lemma merge_runs_len h runs cursor open : len runs < MAX_ACK_RUNS → len (merge_runs h runs cursor open).1.1 ≤ MAX_ACK_RUNS.
Proof.
  revert runs cursor open. induction h as [|[o b] h IH]; intros runs cursor open Hn; simpl; [lia|].
  destruct (match open with Some _ => _ | None => _ end) as [[runs1 cursor1] open1] eqn:E. assert (len runs1 ≤ len runs + 1) as Hl.
  { destruct open as [[st seen]|]; [|simplify_eq; lia]. destruct (o <=? seen); [simplify_eq; lia|]. pose proof (push_run_len runs cursor (st, seen)) as Hp. destruct (push_run runs cursor (st, seen)) as [rs cu]. simplify_eq. done. }
  destruct (Z.eqb_spec (len runs1) MAX_ACK_RUNS); [cbn; lia|]. apply IH. lia.
Qed.
Lemma poll_ack_total r : is_Some (poll_ack r).
Proof.
  unfold poll_ack. destruct (ack_owed r); [|by eexists]. unfold held_runs. simpl. pose proof (merge_runs_len (held r) [] (next r) None ltac:(done)) as Hm. destruct (merge_runs (held r) [] (next r) None) as [[runs cursor] open]. cbn in Hm.
  unfold Sack.from_slice. rewrite (proj2 (Z.leb_le _ _)); [by eexists|]. destruct open as [run|]; [|done]. destruct (Z.ltb_spec (len runs) MAX_ACK_RUNS); [|done]. pose proof (push_run_len runs cursor run). lia.
Qed.

(** An acknowledgement the other side can take: it never names what was not sent. *)
Definition ack_fits (limit : Z) (a : Ack) : Prop :=
  0 ≤ ack_off a ∧ 0 ≤ ack_window a ∧ len (ack_held a) ≤ MAX_ACK_RUNS ∧ Forall Send.run_ok (ack_held a) ∧
  Forall (λ r : Z * Z, r.2 ≤ limit) (Sack.absolute (ack_held a) (ack_off a)).

Lemma poll_ack_inv W limit D r :
  inv W limit D r →
  ∃ o r', poll_ack r = Some (o, r') ∧ inv W limit D r' ∧ next r' = next r ∧ recv_fin r' = recv_fin r ∧
    finished r' = finished r ∧ ready r' = ready r ∧
    if ack_owed r then ∃ a, o = Some a ∧ ack_off a = next r ∧ ack_fits limit a else o = None.
Proof.
  intros Hi. pose proof Hi as [_ Ho Hl Hh _ _]. unfold poll_ack. destruct (ack_owed r); [|by eauto 20].
  assert (0 ≤ next r) as Hn by (unfold placed in Ho; destruct (finished r); lia).
  unfold held_runs. simpl.
  pose proof (merge_runs_fit W limit (next r) (held r) [] (next r) None Hh ltac:(lia)) as Hm.
  destruct (merge_runs (held r) [] (next r) None) as [[runs cursor] open].
  destruct Hm as (Hf & Hlen & Hop); [split; [constructor|]; split; [done|]; split; [done|constructor]|unfold MAX_ACK_RUNS; simpl; lia|done|].
  set (runs' := match open with Some _ => _ | None => _ end).
  assert (len runs' ≤ MAX_ACK_RUNS ∧ ∃ cu, runs_fit limit (next r) runs' cu) as (Hlen' & cu & Hr & _ & _ & Ha).
  { unfold runs'. destruct open as [[st e]|]; [|by eauto]. destruct (Z.ltb_spec (len runs) MAX_ACK_RUNS); [|by eauto].
    destruct (Hop st e eq_refl) as [Hs He]. pose proof (push_run_fits limit (next r) runs cursor (st, e) Hf Hs He ltac:(lia)) as Hp.
    destruct (push_run runs cursor (st, e)) as [rs c']. destruct Hp as [Hp1 Hp2]. simpl. split; [lia|eauto]. }
  clearbody runs'. unfold Sack.from_slice. rewrite (proj2 (Z.leb_le _ _)) by done. simpl.
  eexists _, _. split; [done|]. split; [by destruct Hi|]. do 4 (split; [done|]).
  eexists. split; [done|]. split; [done|]. split; [done|]. simpl. split; [|done]. unfold window. slia.
Qed.

Lemma consume_inv W limit D r n :
  inv W limit D r → 0 ≤ n →
  let taken := take (Z.to_nat (Z.min n (readable_len r))) (ready r) in
  let r' := consume r n in
  inv W limit (D ++ taken) r' ∧ next r' = next r ∧ recv_fin r' = recv_fin r ∧ finished r' = finished r ∧
  ready r' = drop (Z.to_nat (Z.min n (readable_len r))) (ready r).
Proof.
  intros [Hp Ho Hl Hh Hf Hd] Hn. cbv zeta. unfold consume, readable_len.
  assert (∀ r', held r' = held r → next r' = next r → finished r' = finished r → recv_fin r' = recv_fin r →
    ready r' = drop (Z.to_nat (Z.min n (len (ready r)))) (ready r) →
    inv W limit (D ++ take (Z.to_nat (Z.min n (len (ready r)))) (ready r)) r') as Hmk.
  { intros r' E1 E2 E3 E4 E5. split; unfold placed in *; rewrite ?E1, ?E2, ?E3, ?E4, ?E5; try done.
    by rewrite <- app_assoc, take_drop. }
  destruct (_ && _); (split; [by apply Hmk|done]).
Qed.

End Recv.
