(* ===== verification/Stream.v ===== *)
(** * A forwarded stream, end to end ([crates/forward/src/lib.rs])

    [Stream] is the code's type: the two halves and the operations that hand each call to one
    of them.  The rest of the file joins two streams by a network that may lose, duplicate and
    reorder whatever crosses it, in both directions, and shows what the pair promises: the
    bytes read on one side are the bytes written on the other, in order and once each; neither
    side ever takes the other for a liar; nothing is forgotten before it is placed; and once
    the network lets packets through again, a stream that was closed is completed, unless the
    caller refused what it offered. *)

From S2P Require Import Prelude Timer Send Recv.

Module Stream.

Record Stream := mkStream { send : Send.Sender; recv : Recv.Receiver }.
#[export] Instance Stream_settable : Settable Stream := λ s, mkStream (send s) (recv s).

Definition new : Stream := {| send := Send.new; recv := Recv.new |}.

Definition writable (st : Stream) : Z := Send.writable (send st).
Definition write (st : Stream) (bytes : list Z) (now : Instant) : Z * Stream :=
  let '(n, s) := Send.write (send st) bytes now in (n, st <| send := s |>).
Definition finish (st : Stream) : Stream := st <| send := Send.finish (send st) |>.
Definition poll_transmit (st : Stream) (now : Instant) (budget : Z) (front : nat)
    : option (Segment * list Z) * Stream :=
  let '(o, s) := Send.poll_transmit (send st) now budget front in (o, st <| send := s |>).
Definition transmitted (st : Stream) (segment : Segment) (now : Instant) : Stream :=
  st <| send := Send.transmitted (send st) segment now |>.
Definition on_ack (st : Stream) (off_ window_ : Z) (held : list Sack.SackRun) (now : Instant)
    : result () Contradiction * Stream :=
  let '(r, s) := Send.on_ack (send st) off_ window_ held now in (r, st <| send := s |>).
Definition on_data (st : Stream) (off_ : Z) (fin_ : bool) (bytes : list Z) : result () Contradiction * Stream :=
  let '(r, v) := Recv.on_data (recv st) off_ fin_ bytes in (r, st <| recv := v |>).
Definition poll_ack (st : Stream) : option (option Recv.Ack * Stream) :=
  '(a, v) ← Recv.poll_ack (recv st); Some (a, st <| recv := v |>).
(** Both slices of [readable], end to end. *)
Definition readable (st : Stream) : list Z := Recv.ready (recv st).
Definition consume (st : Stream) (n : Z) : Stream := st <| recv := Recv.consume (recv st) n |>.
Definition peer_finished (st : Stream) : bool := Recv.finished (recv st).
Definition is_done (st : Stream) : bool :=
  Send.is_done (send st) && Recv.finished (recv st) && (Recv.readable_len (recv st) =? 0).
Definition deadline (st : Stream) (now : Instant) : option Duration := Send.deadline (send st) now.

(** ** Two streams and the network between them *)

(** One direction of the network: what was accepted for it and what the socket at the far
    end took, every segment and every acknowledgement ever sent, newest first. *)
Record Wire := mkWire {
  written : list Z;
  taken : list Z;
  packets : list (Segment * list Z);
  acks : list Recv.Ack
}.
#[export] Instance Wire_settable : Settable Wire := λ w, mkWire (written w) (taken w) (packets w) (acks w).

Inductive event :=
| Write (bytes : list Z) (now : Instant)
| Finish
| Transmit (now : Instant) (budget : Z) (front : nat)
| Refused (now : Instant) (budget : Z) (front : nat)
| Deliver (i : nat)
| PollAck
| AckArrives (i : nat) (now : Instant)
| Consume (n : Z).

(** One event of the direction from [a] to [b].  Any segment or acknowledgement ever sent may
    arrive, at any time and any number of times.  [None] is a panic or a [Contradiction], on
    which the callers reset the stream. *)
Definition step (x : Stream * Stream * Wire) (e : event) : option (Stream * Stream * Wire) :=
  let '(a, b, w) := x in
  match e with
  | Write bytes now =>
      let '(n, a) := write a bytes now in
      Some (a, b, w <| written := written w ++ take (Z.to_nat n) bytes |>)
  | Finish => Some (finish a, b, w)
  | Transmit now budget front =>
      match poll_transmit a now budget front with
      | (Some (seg, bytes), a) => Some (transmitted a seg now, b, w <| packets := (seg, bytes) :: packets w |>)
      | (None, a) => Some (a, b, w)
      end
  | Refused now budget front => Some ((poll_transmit a now budget front).2, b, w)
  | Deliver i =>
      match packets w !! i with
      | Some (seg, bytes) =>
          match on_data b (off seg) (fin seg) bytes with
          | (Ok _, b) => Some (a, b, w)
          | (Err _, _) => None
          end
      | None => Some (a, b, w)
      end
  | PollAck =>
      '(o, b) ← poll_ack b;
      Some (a, b, match o with Some ack => w <| acks := ack :: acks w |> | None => w end)
  | AckArrives i now =>
      match acks w !! i with
      | Some ack =>
          match on_ack a (Recv.ack_off ack) (Recv.ack_window ack) (Recv.ack_held ack) now with
          | (Ok _, a) => Some (a, b, w)
          | (Err _, _) => None
          end
      | None => Some (a, b, w)
      end
  | Consume n =>
      let got := take (Z.to_nat (Z.min n (len (readable b)))) (readable b) in
      Some (a, consume b n, w <| taken := taken w ++ got |>)
  end.

(** What the types of the arguments guarantee. *)
Definition event_ok (e : event) : Prop :=
  match e with
  | Transmit _ budget _ | Refused _ budget _ => 0 ≤ budget
  | Consume n => 0 ≤ n
  | _ => True
  end.
Definition offered (e : event) : Z := match e with Write bytes _ => len bytes | _ => 0 end.

(** ** One direction is correct *)

(** A packet is a piece of the stream, and says it is the end only at the end of a stream
    that was finished. *)
Definition packet_ok (W : list Z) (s : Send.Sender) (p : Segment * list Z) : Prop :=
  Recv.piece W (Send.next s) (off p.1) p.2 ∧
  (fin p.1 = true → Send.send_fin s ≠ None ∧ off p.1 + len p.2 = len W).

Definition ack_ok (s : Send.Sender) (r : Recv.Receiver) (a : Recv.Ack) : Prop :=
  Recv.ack_fits (Send.next s) a ∧ Recv.ack_off a ≤ Recv.next r.

Record inv (s : Send.Sender) (r : Recv.Receiver) (w : Wire) : Prop := {
  v_send : Send.inv (written w) s;
  v_recv : Recv.inv (written w) (Send.next s) (taken w) r;
  v_packets : Forall (packet_ok (written w) s) (packets w);
  v_acks : Forall (ack_ok s r) (acks w);
  v_base : Send.base s ≤ Recv.placed r;
  v_fin : Recv.recv_fin r ≠ None → Send.send_fin s ≠ None;
  v_done : Send.fin_acked s = true → Recv.finished r = true
}.

Lemma wire_new_inv : inv Send.new Recv.new (mkWire [] [] [] []).
Proof. split; simpl; done. Qed.

Lemma packet_ok_mono W X s s' p :
  packet_ok W s p → Send.next s ≤ Send.next s' → Send.next s ≤ len W →
  (Send.send_fin s ≠ None → Send.send_fin s' ≠ None ∧ X = []) → packet_ok (W ++ X) s' p.
Proof.
  intros [Hp Hf] Hn Hl HX. split; [by apply (Recv.piece_mono _ _ (Send.next s))|].
  intros Hfin. destruct (Hf Hfin) as [Hs He]. destruct (HX Hs) as [? ->]. by rewrite app_nil_r.
Qed.

Lemma ack_ok_mono s s' r r' a :
  ack_ok s r a → Send.next s ≤ Send.next s' → Recv.next r ≤ Recv.next r' → ack_ok s' r' a.
Proof.
  intros [(H1 & H2 & H3 & H4 & H5) Ho] Hn Hr. split; [|lia]. split; [done|]. split; [done|]. split; [done|]. split; [done|].
  eapply list.Forall_impl; [exact H5|]. simpl. lia.
Qed.

(** What a step of the sender must keep for the direction to stay correct. *)
Lemma inv_sender s s' r w X :
  inv s r w → Send.inv (written w ++ X) s' →
  Send.base s' ≤ Recv.placed r → Send.next s ≤ Send.next s' →
  (Send.send_fin s ≠ None → Send.send_fin s' ≠ None ∧ X = []) →
  (Send.fin_acked s' = true → Recv.finished r = true) →
  inv s' r (w <| written := written w ++ X |>).
Proof.
  intros [Hs Hr Hp Ha Hb Hf Hd] Hi Hb' Hn HX Hd'.
  pose proof (Send.i_order _ _ Hs). pose proof (Send.i_order _ _ Hi). split; simpl; try done.
  - apply (Recv.inv_mono _ _ (Send.next s)); [done|lia|apply Hi|]. intros H1. apply HX. by apply Hf.
  - eapply list.Forall_impl; [exact Hp|]. intros p Hpk. apply (packet_ok_mono _ _ s); [done|done|lia|done].
  - eapply list.Forall_impl; [exact Ha|]. intros a Hak. by apply (ack_ok_mono s _ r).
  - intros H1. apply HX. by apply Hf.
Qed.

(** The same for a step that writes nothing. *)
Lemma inv_sender_same s s' r w :
  inv s r w → Send.inv (written w) s' →
  Send.base s' ≤ Recv.placed r → Send.next s ≤ Send.next s' →
  (Send.send_fin s ≠ None → Send.send_fin s' ≠ None) →
  (Send.fin_acked s' = true → Recv.finished r = true) → inv s' r w.
Proof.
  intros Hv Hi Hb Hn Hf Hd. pose proof (inv_sender s s' r w [] Hv) as H. rewrite app_nil_r in H.
  replace w with (w <| written := written w |>) by (by destruct w). apply H; auto.
Qed.

Lemma inv_receiver s r r' w :
  inv s r w → Recv.inv (written w) (Send.next s) (taken w) r' → Recv.next r ≤ Recv.next r' →
  Recv.placed r ≤ Recv.placed r' → (Recv.recv_fin r' ≠ None → Send.send_fin s ≠ None) →
  (Recv.finished r = true → Recv.finished r' = true) → inv s r' w.
Proof.
  intros [Hs Hr Hp Ha Hb Hf Hd] Hi Hn Hpl Hf' Hfin. split; try done.
  - eapply list.Forall_impl; [exact Ha|]. intros a Hak. by apply (ack_ok_mono s _ r).
  - lia.
  - auto.
Qed.

Lemma finished_stays W limit D r r' :
  Recv.inv W limit D r → Recv.inv W limit D r' → Recv.next r ≤ Recv.next r' →
  Recv.finished r = true → Recv.finished r' = true.
Proof.
  intros [_ _ _ _ Hf Hd] [_ Ho Hl _ _ _] Hn Hfin. specialize (Hf _ (Hd Hfin)). unfold Recv.placed in *. rewrite Hfin in *.
  destruct (Recv.finished r'); [done|]. lia.
Qed.

(** What is known of the state after an event: it is there, the direction is still correct,
    and the other halves of the two streams were not touched. *)
Definition stays (a b : Stream) (x : option (Stream * Stream * Wire)) (P : Stream → Stream → Wire → Prop) : Prop :=
  ∃ a' b' w', x = Some (a', b', w') ∧ inv (send a') (recv b') w' ∧ recv a' = recv a ∧ send b' = send b ∧ P a' b' w'.

Lemma write_stays a b w bytes now :
  inv (send a) (recv b) w → len (written w) + len bytes ≤ Send.STREAM_LIMIT →
  stays a b (step (a, b, w) (Write bytes now)) (λ _ _ w', len (written w') ≤ len (written w) + len bytes).
Proof.
  intros Hv Hl. cbn [step]. unfold write.
  pose proof (Send.write_inv _ _ bytes now (v_send _ _ _ Hv) Hl) as H.
  destruct (Send.write (send a) bytes now) as [n s'] eqn:E. destruct H as (Hi & Hn & Hz).
  assert (Send.base s' = Send.base (send a) ∧ Send.next s' = Send.next (send a) ∧ Send.send_fin s' = Send.send_fin (send a) ∧
    Send.fin_acked s' = Send.fin_acked (send a)) as (E1 & E2 & E3 & E4).
  { unfold Send.write in E. by destruct (0 <? _); simplify_eq/=. }
  eexists _, _, _. split; [done|]. simpl. split; [|split; [done|]; split; [done|]; rewrite length_app, length_take; lia].
  apply (inv_sender (send a)); [done|done| | | |].
  - rewrite E1. apply Hv.
  - lia.
  - rewrite E3. intros Hf. split; [done|]. by rewrite (Hz Hf).
  - rewrite E4. apply Hv.
Qed.

Lemma finish_stays a b w :
  inv (send a) (recv b) w →
  stays a b (step (a, b, w) Finish) (λ a' _ w', written w' = written w ∧ is_Some (Send.send_fin (send a'))).
Proof.
  intros Hv. cbn [step]. eexists _, _, _. split; [done|]. simpl.
  assert (Send.base (Send.finish (send a)) = Send.base (send a) ∧ Send.next (Send.finish (send a)) = Send.next (send a) ∧
    is_Some (Send.send_fin (Send.finish (send a))) ∧ Send.fin_acked (Send.finish (send a)) = Send.fin_acked (send a))
    as (E1 & E2 & E3 & E4) by (unfold Send.finish; destruct (Send.send_fin (send a)) eqn:E; rewrite ?E; done).
  split; [|done]. apply (inv_sender_same (send a)); [done|apply Send.finish_inv, Hv|rewrite E1; apply Hv|lia|intros _; by apply not_eq_None_Some|].
  rewrite E4. apply Hv.
Qed.

(** A segment that is polled and sent joins the packets; one that is refused leaves only the
    poll's effect. *)
Lemma transmit_stays a b w now budget front :
  inv (send a) (recv b) w → 0 ≤ budget →
  stays a b (step (a, b, w) (Transmit now budget front)) (λ a' b' w',
    written w' = written w ∧ taken w' = taken w ∧ acks w' = acks w ∧ recv b' = recv b ∧
    Send.send_fin (send a') = Send.send_fin (send a) ∧ Send.base (send a') = Send.base (send a) ∧
    match (Send.poll_transmit (send a) now budget front).1 with
    | Some p => packets w' = p :: packets w ∧ packet_ok (written w) (send a') p ∧ len p.2 ≤ MAX_FORWARD_CHUNK
    | None => True
    end).
Proof.
  intros Hv Hb. cbn [step]. unfold poll_transmit.
  pose proof (Send.poll_spec _ _ now budget front (v_send _ _ _ Hv) Hb) as Hp.
  pose proof (Send.poll_fin_acked (send a) now budget front) as Hfa.
  destruct (Send.poll_transmit (send a) now budget front) as [o s1]. simpl in Hfa.
  destruct Hp as (Hi1 & E1 & E2 & E3 & _ & Hp).
  assert (inv s1 (recv b) w) as Hv1.
  { apply (inv_sender_same (send a)); [done|done|rewrite E1; apply Hv|lia|by rewrite E3|rewrite Hfa; apply Hv]. }
  destruct o as [[seg bytes]|]; [|by eexists _, _, _; simpl; eauto 10].
  destruct Hp as (P1 & P2 & P3 & P4 & P5 & P6 & _).
  pose proof (Send.i_order _ _ Hi1) as Hord.
  destruct (Send.transmitted_inv (written w) s1 seg now Hi1) as (Hi2 & F1 & F2 & F3 & _); [lia|lia|lia|].
  pose proof (Send.transmitted_fin_acked s1 seg now) as Hfa2.
  set (s2 := Send.transmitted s1 seg now) in *.
  assert (packet_ok (written w) s2 (seg, bytes)) as Hok.
  { clearbody s2. split; simpl.
    - split; [lia|]. split; [lia|]. rewrite P5 at 1. f_equal. lia.
    - intros Hf. destruct (P6 Hf) as [P7 P8]. rewrite F3, E3, P7. split; [done|lia]. }
  exists (a <| send := s2 |>), b, (w <| packets := (seg, bytes) :: packets w |>). split; [done|].
  clearbody s2. simpl. split.
  - assert (inv s2 (recv b) w) as Hv2.
    { apply (inv_sender_same s1); [done|done|rewrite F1; apply Hv1|lia|by rewrite F3|rewrite Hfa2; apply Hv1]. }
    destruct Hv2. split; try done. by constructor.
  - split; [done|]. split; [done|]. split; [done|]. split; [done|]. split; [done|]. split; [done|].
    split; [congruence|]. split; [congruence|]. split; [done|]. split; [done|lia].
Qed.

Lemma refused_stays a b w now budget front :
  inv (send a) (recv b) w → 0 ≤ budget →
  stays a b (step (a, b, w) (Refused now budget front)) (λ _ _ w', w' = w).
Proof.
  intros Hv Hb. cbn [step]. unfold poll_transmit.
  pose proof (Send.poll_spec _ _ now budget front (v_send _ _ _ Hv) Hb) as Hp.
  pose proof (Send.poll_fin_acked (send a) now budget front) as Hfa.
  destruct (Send.poll_transmit (send a) now budget front) as [o s1]. simpl in Hfa.
  destruct Hp as (Hi1 & E1 & E2 & E3 & _ & _). eexists _, _, _. split; [done|]. simpl. split; [|done].
  apply (inv_sender_same (send a)); [done|done|rewrite E1; apply Hv|lia|by rewrite E3|rewrite Hfa; apply Hv].
Qed.

Lemma deliver_stays a b w i :
  inv (send a) (recv b) w →
  stays a b (step (a, b, w) (Deliver i)) (λ a' b' w', w' = w ∧ a' = a ∧
    ∀ p, packets w !! i = Some p →
      Recv.ack_owed (recv b') = true ∧ Recv.placed (recv b) ≤ Recv.placed (recv b') ∧
      (off p.1 ≤ Recv.placed (recv b) → len (readable b) + len p.2 ≤ FORWARD_WINDOW →
        off p.1 + len p.2 ≤ Recv.placed (recv b') ∧ (fin p.1 = true → Recv.finished (recv b') = true))).
Proof.
  intros Hv. cbn [step]. destruct (packets w !! i) as [[seg bytes]|] eqn:Ei.
  2:{ eexists _, _, _. split; [done|]. split; [done|]. split; [done|]. split; [done|]. split; [done|]. split; [done|]. intros p [=]. }
  pose proof (v_packets _ _ _ Hv) as Hpk. rewrite Forall_lookup in Hpk. destruct (Hpk i _ Ei) as [Hpc Hpf]. simpl in Hpc, Hpf.
  unfold on_data.
  pose proof (Recv.on_data_inv _ _ _ _ (off seg) (fin seg) bytes (v_recv _ _ _ Hv) Hpc ltac:(intros; by apply Hpf)) as H.
  destruct (Recv.on_data (recv b) (off seg) (fin seg) bytes) as [res r']. destruct H as (-> & Hr & Hn & Hp & Ho & Hf & Hx).
  eexists _, _, _. split; [done|]. simpl. split.
  - apply (inv_receiver _ (recv b)); [done|done|done|done| |].
    + intros H1. destruct (Hf H1) as [H2|H2]; [by apply (v_fin _ _ _ Hv)|by apply Hpf].
    + by eapply finished_stays; [apply Hv| |].
  - split; [done|]. split; [done|]. split; [done|]. split; [done|]. intros p [= <-]. simpl. done.
Qed.

Lemma poll_ack_stays a b w :
  inv (send a) (recv b) w →
  stays a b (step (a, b, w) PollAck) (λ a' b' w',
    a' = a ∧ written w' = written w ∧ taken w' = taken w ∧ packets w' = packets w ∧
    Recv.next (recv b') = Recv.next (recv b) ∧ Recv.finished (recv b') = Recv.finished (recv b) ∧
    readable b' = readable b ∧
    (Recv.ack_owed (recv b) = true → ∃ ack, acks w' !! 0%nat = Some ack ∧ Recv.ack_off ack = Recv.next (recv b))).
Proof.
  intros Hv. cbn [step]. unfold poll_ack.
  destruct (Recv.poll_ack_inv _ _ _ _ (v_recv _ _ _ Hv)) as (o & r' & -> & Hr & E1 & E2 & E3 & E4 & Ho). simpl.
  assert (inv (send a) r' w) as Hv'.
  { apply (inv_receiver _ (recv b)); [done|done|lia|unfold Recv.placed; by rewrite E1, E3| |by rewrite E3].
    rewrite E2. apply Hv. }
  eexists _, _, _. split; [done|]. simpl. unfold readable. simpl.
  destruct (Recv.ack_owed (recv b)).
  - destruct Ho as (ack & -> & Hoff & Hfit). split; [|by eauto 20].
    destruct Hv'. split; try done. simpl. constructor; [|done]. split; [done|lia].
  - subst o. split; [done|]. by split_and!.
Qed.

Lemma ack_arrives_stays a b w i now :
  inv (send a) (recv b) w →
  stays a b (step (a, b, w) (AckArrives i now)) (λ a' b' w', w' = w ∧ b' = b ∧
    Send.send_fin (send a') = Send.send_fin (send a) ∧ Send.base (send a) ≤ Send.base (send a') ∧
    ∀ ack, acks w !! i = Some ack →
      Z.min (Recv.ack_off ack) (len (written w)) ≤ Send.base (send a') ∧
      (len (written w) < Recv.ack_off ack → is_Some (Send.send_fin (send a)) → Send.fin_acked (send a') = true) ∧
      (Send.base (send a) ≤ Recv.ack_off ack →
        Timer.waiting (Send.timer (send a')) = if Send.awaiting_ack (send a') then Some now else None)).
Proof.
  intros Hv. cbn [step]. destruct (acks w !! i) as [ack|] eqn:Ei.
  2:{ eexists _, _, _. split; [done|]. split; [done|]. do 5 (split; [done|]). split; [lia|]. intros ? [=]. }
  pose proof (v_acks _ _ _ Hv) as Ha. rewrite Forall_lookup in Ha. destruct (Ha i _ Ei) as [(H1 & H2 & _ & H4 & H5) Hle].
  unfold on_ack.
  pose proof (Send.on_ack_spec _ _ _ (Recv.ack_window ack) (Recv.ack_held ack) now (v_send _ _ _ Hv) H1 H2 H4) as Hs.
  pose proof (Send.on_ack_waiting (send a) (Recv.ack_off ack) (Recv.ack_window ack) (Recv.ack_held ack) now) as Hw.
  destruct (Send.on_ack (send a) _ _ _ now) as [res s']. destruct Hs as (Hi & S1 & S2 & S3 & S4 & S5 & _ & S7 & S8).
  assert (res = Ok ()) as ->.
  { destruct (Z.lt_ge_cases (Recv.ack_off ack) (Send.base (send a))); [by apply S4|]. apply S5; [done|].
    eapply list.Forall_impl; [exact H5|]. simpl. lia. }
  pose proof (v_recv _ _ _ Hv) as [_ Ho Hl _ Hf Hd]. pose proof (v_base _ _ _ Hv) as Hb.
  eexists _, _, _. split; [done|]. simpl. split.
  - apply (inv_sender_same (send a)); [done|done| |lia|by rewrite S1|].
    + rewrite S2. unfold Recv.placed in *. destruct (Recv.finished (recv b)); [|lia]. specialize (Hf _ (Hd eq_refl)). lia.
    + intros H. destruct (S8 H) as [H'|[H' _]]; [by apply (v_done _ _ _ Hv)|].
      unfold Recv.placed in *. destruct (Recv.finished (recv b)); [done|lia].
  - do 5 (split; [done|]). split; [lia|]. intros ? [= <-]. split; [lia|]. split; [done|]. intros. by apply Hw.
Qed.

Lemma consume_stays a b w n :
  inv (send a) (recv b) w → 0 ≤ n →
  stays a b (step (a, b, w) (Consume n)) (λ a' b' w',
    a' = a ∧ written w' = written w ∧ packets w' = packets w ∧ acks w' = acks w ∧
    readable b' = drop (Z.to_nat (Z.min n (len (readable b)))) (readable b) ∧
    Recv.placed (recv b') = Recv.placed (recv b)).
Proof.
  intros Hv Hn. cbn [step].
  destruct (Recv.consume_inv _ _ _ _ n (v_recv _ _ _ Hv) Hn) as (Hr & E1 & E2 & E3 & E4). cbv zeta in *.
  eexists _, _, _. split; [done|]. unfold consume, readable in *. simpl. split.
  - destruct Hv as [? ? ? Ha ? ? ?]. split; simpl; try done.
    + eapply list.Forall_impl; [exact Ha|]. intros ack Hak. apply (ack_ok_mono (send a) _ (recv b)); [done|lia|lia].
    + unfold Recv.placed in *. by rewrite E1, E3.
    + by rewrite E2.
    + by rewrite E3.
  - do 6 (split; [done|]). split; [exact E4|]. unfold Recv.placed. by rewrite E1, E3.
Qed.

(** Every event of a correct direction goes through. *)
Lemma step_stays a b w e :
  inv (send a) (recv b) w → event_ok e → len (written w) + offered e ≤ Send.STREAM_LIMIT →
  stays a b (step (a, b, w) e) (λ _ _ w', len (written w') ≤ len (written w) + offered e).
Proof.
  assert (∀ x P, stays a b x P → (∀ a' b' w', P a' b' w' → written w' = written w) →
    stays a b x (λ _ _ w', len (written w') ≤ len (written w) + 0)) as Hsame.
  { intros x P (a' & b' & w' & Hx & Hi & Ha & Hb & HP) Hw. exists a', b', w'. split_and!; try done. rewrite (Hw _ _ _ HP). lia. }
  intros Hv Hok Hl. destruct e; simpl in Hok, Hl; cbn [offered].
  - by apply write_stays.
  - eapply Hsame; [by apply finish_stays|]. by intros ??? [? _].
  - eapply Hsame; [by apply transmit_stays|]. by intros ??? [? _].
  - eapply Hsame; [by apply refused_stays|]. by intros ??? ->.
  - eapply Hsame; [by apply deliver_stays|]. by intros ??? [-> _].
  - eapply Hsame; [by apply poll_ack_stays|]. by intros ??? (_ & ? & _).
  - eapply Hsame; [by apply ack_arrives_stays|]. by intros ??? [-> _].
  - eapply Hsame; [by apply consume_stays|]. by intros ??? (_ & ? & _).
Qed.

Fixpoint steps (x : Stream * Stream * Wire) (es : list event) : option (Stream * Stream * Wire) :=
  match es with
  | [] => Some x
  | e :: es => x ← step x e; steps x es
  end.

Lemma steps_app x es fs : steps x (es ++ fs) = x ← steps x es; steps x fs.
Proof. revert x; induction es as [|e es IH]; intros x; simpl; [done|]. destruct (step x e); simpl; [apply IH|done]. Qed.

(** One undisturbed exchange: the socket reads what is there, and whatever is due is sent,
    delivered and acknowledged. *)
Definition round (now : Instant) (budget : Z) (front : nat) : list event :=
  [Consume Send.STREAM_LIMIT; Transmit now budget front; Deliver 0; PollAck; AckArrives 0 now].

(** Such an exchange moves a due stream on: by a byte at least, or to its end. *)
Lemma round_progress a b w now budget front :
  inv (send a) (recv b) w → Send.awaiting_ack (send a) = true → Timer.due (Send.timer (send a)) now = true → 0 < budget →
  stays a b (steps (a, b, w) (round now budget front)) (λ a' b' w',
    written w' = written w ∧ Send.send_fin (send a') = Send.send_fin (send a) ∧
    (Send.base (send a) < Send.base (send a') ∨ Send.fin_acked (send a') = true) ∧
    Timer.waiting (Send.timer (send a')) = if Send.awaiting_ack (send a') then Some now else None).
Proof.
  intros Hv Haw Hdue Hbud. unfold round. cbn [steps].
  destruct (consume_stays a b w Send.STREAM_LIMIT Hv ltac:(done)) as (a1 & b1 & w1 & -> & V1 & _ & B1 & C1). cbn [mbind option_bind].
  destruct C1 as (-> & W1 & _ & _ & R1 & P1).
  assert (len (readable b) ≤ Send.STREAM_LIMIT) as Hrl.
  { pose proof (v_recv _ _ _ Hv) as [Hp _ Hl _ _ _]. apply (f_equal length) in Hp.
    rewrite length_app, length_take in Hp. unfold readable. lia. }
  assert (readable b1 = []) as Hr1 by (rewrite R1; apply drop_ge; lia). clear R1.
  destruct (Send.woken_head _ _ now budget front (v_send _ _ _ V1) Haw Hdue Hbud) as (seg & bytes & s' & Hpoll & Hoff & Hpos).
  destruct (transmit_stays a b1 w1 now budget front V1 ltac:(lia)) as (a2 & b2 & w2 & -> & V2 & A2 & B2 & C2). cbn [mbind option_bind].
  rewrite Hpoll in C2. destruct C2 as (W2 & _ & _ & E2 & F2 & G2 & K2 & Hpk & Hch). simpl in Hch.
  destruct (deliver_stays a2 b2 w2 0 V2) as (a3 & b3 & w3 & -> & V3 & _ & B3 & -> & -> & C3). cbn [mbind option_bind].
  specialize (C3 (seg, bytes) ltac:(by rewrite K2)). simpl in C3. destruct C3 as (O3 & P3 & D3).
  pose proof (v_base _ _ _ V1) as Hb1. unfold readable in D3, Hr1. rewrite E2, Hr1 in D3. rewrite E2 in P3.
  specialize (D3 ltac:(lia) ltac:(simpl; unfold MAX_FORWARD_CHUNK, FORWARD_WINDOW in *; lia)). destruct D3 as [D3 Dfin].
  destruct (poll_ack_stays a2 b3 w2 V3) as (a4 & b4 & w4 & -> & V4 & _ & B4 & -> & W4 & _ & _ & N4 & _ & _ & C4). cbn [mbind option_bind].
  destruct (C4 O3) as (ack & Hack & Hao).
  destruct (ack_arrives_stays a2 b4 w4 0 now V4) as (a5 & b5 & w5 & -> & V5 & A5 & B5 & -> & -> & F5 & G5 & C5). cbn [mbind option_bind].
  destruct (C5 ack Hack) as (M5 & N5 & T5).
  assert (Send.base (send a2) ≤ Recv.placed (recv b3)) as Hb3 by (apply V3).
  assert (Recv.placed (recv b3) ≤ Recv.next (recv b3)) as Hpn by (unfold Recv.placed; destruct (Recv.finished _); lia).
  exists a5, b4, w4. split; [done|]. split; [done|]. split; [congruence|]. split; [congruence|].
  split; [congruence|]. split; [congruence|]. split; [|apply T5; lia].
  destruct Hpk as [(Hp0 & Hpe & _) Hpf]. simpl in Hp0, Hpe, Hpf.
  pose proof (Send.i_order _ _ (v_send _ _ _ V2)). pose proof (Send.i_order _ _ (v_send _ _ _ V1)).
  rewrite W4, W2, W1 in *. destruct (Z.lt_ge_cases (Send.base (send a)) (len (written w))) as [Hlt|Hge].
  - left. specialize (Hpos Hlt). pose proof (Send.poll_spec _ _ now budget front (v_send _ _ _ V1) ltac:(lia)) as Hps.
    rewrite Hpoll in Hps. destruct Hps as (_ & _ & _ & _ & _ & _ & _ & Hlen & _). lia.
  - right. assert (is_Some (Send.send_fin (send a))) as Hsf.
    { unfold Send.awaiting_ack in Haw. rewrite (Send.inv_end _ _ (v_send _ _ _ V1)), W1 in Haw.
      rewrite (proj2 (Z.ltb_ge _ _)) in Haw by lia. simpl in Haw. apply andb_prop in Haw as [Haw _]. by apply bool_decide_eq_true in Haw. }
    apply N5; [|congruence]. pose proof (Send.poll_spec _ _ now budget front (v_send _ _ _ V1) ltac:(lia)) as Hps.
    rewrite Hpoll in Hps. destruct Hps as (_ & _ & _ & _ & _ & _ & _ & Hlen & _ & _ & _ & Hne).
    assert (fin seg = true) as Hfin by (destruct Hne; [lia|done]). specialize (Dfin Hfin).
    unfold Recv.placed in *. rewrite Dfin in *. lia.
Qed.

(** Exchanges as far apart as a retransmission can be. *)
Fixpoint rounds (k : nat) (now : Instant) (budget : Z) (front : nat) : list event :=
  match k with
  | O => []
  | S k => round now budget front ++ rounds k (now + Timer.MAX) budget front
  end.

Lemma due_after t now : Timer.waiting t = Some now → Timer.due t (now + Timer.MAX) = true.
Proof.
  intros H. unfold Timer.due. rewrite H. apply Z.leb_le. pose proof (Timer.interval_bounds t).
  assert (0 < Timer.MIN) by (by vm_compute). slia.
Qed.

Lemma unfinished_awaits s : is_Some (Send.send_fin s) → Send.fin_acked s = false → Send.awaiting_ack s = true.
Proof. intros Hf Ha. unfold Send.awaiting_ack. rewrite Ha, bool_decide_true by done. apply orb_true_r. Qed.

Lemma rounds_complete n a b w now budget front :
  inv (send a) (recv b) w → is_Some (Send.send_fin (send a)) →
  Send.fin_acked (send a) = true ∨ Timer.due (Send.timer (send a)) now = true → 0 < budget →
  len (written w) - Send.base (send a) < Z.of_nat n →
  ∃ k, (k ≤ n)%nat ∧ stays a b (steps (a, b, w) (rounds k now budget front)) (λ a' b' w',
    written w' = written w ∧ Send.is_done (send a') = true).
Proof.
  revert a b w now. induction n as [|n IH]; intros a b w now Hv Hf Hd Hb Hn.
  { pose proof (Send.i_order _ _ (v_send _ _ _ Hv)). lia. }
  destruct (Send.fin_acked (send a)) eqn:Ea.
  { exists O. split; [lia|]. exists a, b, w. split_and!; try done. unfold Send.is_done. by rewrite Ea, bool_decide_true. }
  destruct Hd as [Hd|Hd]; [done|].
  destruct (round_progress a b w now budget front Hv (unfinished_awaits _ Hf Ea) Hd Hb)
    as (a1 & b1 & w1 & E1 & V1 & A1 & B1 & W1 & F1 & P1 & T1).
  assert (∃ k, (k ≤ n)%nat ∧ stays a1 b1 (steps (a1, b1, w1) (rounds k (now + Timer.MAX) budget front)) (λ a' b' w',
    written w' = written w1 ∧ Send.is_done (send a') = true)) as (k & Hk & a2 & b2 & w2 & E2 & V2 & A2 & B2 & W2 & D2).
  { destruct (Send.fin_acked (send a1)) eqn:Ea1.
    - exists O. split; [lia|]. exists a1, b1, w1. split_and!; try done. unfold Send.is_done. by rewrite Ea1, F1, bool_decide_true.
    - apply IH; [done|by rewrite F1| |done|rewrite W1; destruct P1; [lia|done]].
      right. apply due_after. rewrite T1, unfinished_awaits by (by rewrite ?F1). done. }
  exists (S k). split; [lia|]. exists a2, b2, w2. cbn [rounds]. rewrite steps_app, E1. cbn [mbind option_bind].
  split; [done|]. split; [done|]. split; [congruence|]. split; [congruence|]. split; [congruence|done].
Qed.

(** *** A sender nobody refused has its timer set *)

(** The sender of a direction was offered no chance it did not take, and nothing happened to it
    after [t]. *)
Definition undisturbed (t : Instant) (e : event) : Prop :=
  match e with
  | Refused _ _ _ => False
  | Write _ now | Transmit now _ _ | AckArrives _ now => now ≤ t
  | _ => True
  end.

(** What is unacknowledged is either waited for, since no later than [t], or is an end that is
    offered whoever asks. *)
Record timed (t : Instant) (s : Send.Sender) : Prop := {
  tm_waits : Send.awaiting_ack s = true →
    is_Some (Timer.waiting (Send.timer s)) ∨ Send.buffer s = [] ∧ Send.fin_sent s = false;
  tm_fin : Send.fin_sent s = true → is_Some (Send.send_fin s);
  tm_since : ∀ since_, Timer.waiting (Send.timer s) = Some since_ → since_ ≤ t
}.

Lemma transmitted_timer tm f now : Timer.waiting (Timer.transmitted tm f now) = Some (default now (Timer.waiting tm)).
Proof.
  unfold Timer.transmitted, Timer.arm. destruct (Timer.waiting tm) as [x|] eqn:E; destruct f; try (by rewrite E); try done; (destruct (Timer.sample _); [|]; cbn; by rewrite ?E).
Qed.

Lemma timed_same t s s' : timed t s → Send.buffer s' = Send.buffer s → Send.base s' = Send.base s → Send.send_fin s' = Send.send_fin s →
  Send.fin_acked s' = Send.fin_acked s → Send.fin_sent s' = Send.fin_sent s → Send.timer s' = Send.timer s → timed t s'.
Proof.
  intros [T1 T2 T3] E1 E2 E3 E4 E5 E6. split; rewrite ?E1, ?E3, ?E5, ?E6; try done.
  unfold Send.awaiting_ack, Send.end_ in *. by rewrite E1, E2, E3, E4.
Qed.

Lemma timed_write t s bytes now : timed t s → now ≤ t → timed t (Send.write s bytes now).2.
Proof.
  intros Ht Hn. pose proof Ht as [T1 T2 T3]. unfold Send.write. destruct (Z.ltb_spec 0 (Z.min (Send.writable s) (len bytes))) as [H|H]; cbn [snd].
  - split; cbn; [intros _; left; apply Timer.arm_waiting|done|]. intros x. unfold Timer.arm. destruct (Timer.waiting (Send.timer s)) eqn:E; [rewrite E|cbn]; intros [= <-]; auto.
  - eapply timed_same; [exact Ht|..]; try done. cbn. replace (Z.to_nat _) with O by lia. by rewrite take_0, app_nil_r.
Qed.

Lemma timed_finish t s : timed t s → timed t (Send.finish s).
Proof.
  intros Ht. pose proof Ht as [T1 T2 T3]. unfold Send.finish. destruct (Send.send_fin s) as [f|] eqn:E; [done|]. split; cbn; try done. intros _.
  unfold Send.awaiting_ack, Send.end_ in *. destruct (Send.buffer s) as [|x l] eqn:Eb.
  - right. split; [done|]. destruct (Send.fin_sent s); [by destruct (T2 eq_refl)|done].
  - destruct T1 as [?|[? _]]; [|by left|done]. cbn [length]. by rewrite (proj2 (Z.ltb_lt _ _)) by lia.
Qed.

Lemma timed_ack t s off_ window_ runs now : timed t s → now ≤ t → (Send.on_ack s off_ window_ runs now).1 = Ok () → timed t (Send.on_ack s off_ window_ runs now).2.
Proof.
  intros Ht Hn Hok. pose proof (Send.on_ack_waiting s off_ window_ runs now) as Hw.
  assert (Send.fin_sent (Send.on_ack s off_ window_ runs now).2 = true → is_Some (Send.send_fin (Send.on_ack s off_ window_ runs now).2)) as Hf.
  { clear -Ht. unfold Send.on_ack. destruct (_ <? _); [apply Ht|]. set (s1 := if _ <? off_ then _ else s).
    assert (Send.fin_sent s1 = Send.fin_sent s ∧ Send.send_fin s1 = Send.send_fin s) as [E1 E2] by (unfold s1; repeat case_match; done). clearbody s1.
    destruct (Send.take_runs _ _ _); [|cbn; rewrite E1, E2; apply Ht]. destruct (Timer.acknowledged _ _ _ _) as [pr tm]. destruct (_ && _); cbn; [done|]. rewrite E1, E2. apply Ht. }
  destruct (Z.lt_ge_cases off_ (Send.base s)) as [Hl|Hl].
  { unfold Send.on_ack. by rewrite (proj2 (Z.ltb_lt _ _)) by done. }
  destruct (Send.on_ack s off_ window_ runs now) as [r s']. cbn [fst snd] in *. specialize (Hw Hl Hok). split; [|done|]; rewrite Hw; destruct (Send.awaiting_ack s'); try done.
  - intros _. by left.
  - by intros x [= <-].
Qed.

(** An end with nothing before it is offered whenever it is asked for. *)
Lemma end_offered W s now budget front : Send.inv W s → Send.awaiting_ack s = true → Send.buffer s = [] → Send.fin_sent s = false → 0 < budget →
  is_Some (Send.poll_transmit s now budget front).1.
Proof.
  intros Hi Ha Hb Hs Hbud. destruct (Timer.due (Send.timer s) now) eqn:Hd.
  { destruct (Send.woken_head W s now budget front Hi Ha Hd Hbud) as (seg & bytes & s' & -> & _). done. }
  pose proof (Send.inv_end _ _ Hi) as He. pose proof (Send.i_order _ _ Hi) as Ho. unfold Send.end_ in He. rewrite Hb in He. cbn [length] in He.
  unfold Send.poll_transmit. rewrite (proj2 (Z.eqb_neq _ _)) by (unfold MAX_FORWARD_CHUNK; lia). rewrite Hd. cbn [fst].
  unfold Send.awaiting_ack, Send.end_ in Ha. rewrite Hb in Ha. cbn [length] in Ha. rewrite (proj2 (Z.ltb_ge _ _)) in Ha by lia. cbn [orb] in Ha.
  apply andb_prop in Ha as [Hf Ha]. apply bool_decide_eq_true in Hf as [f Hf]. pose proof (Send.i_fin _ _ Hi f Hf) as ->.
  unfold Send.owed, Send.end_. rewrite Hb, Hs, Ha, Hf. cbn [length]. rewrite (proj2 (Z.ltb_ge (Send.cursor s) _)) by lia. rewrite (proj2 (Z.ltb_ge (Send.next s) _)) by slia.
  rewrite bool_decide_true by (f_equal; lia). rewrite (proj2 (Z.eqb_eq _ _)) by lia. cbn [andb negb]. unfold Send.fill. rewrite Hb, take_nil, drop_nil. cbn [length].
  assert (∀ n m, slice n m ([] : list Z) = []) as Hsl by (intros n m; unfold slice; by rewrite drop_nil, take_nil).
  match goal with |- context [if (?a <? 0)%nat then ?x else ?y] => replace (if (a <? 0)%nat then x else y) with ([] : list Z) by (rewrite !Hsl; by destruct (_ <? 0)%nat) end.
  cbn [length]. rewrite bool_decide_true by (rewrite Hf; f_equal; lia). by rewrite orb_true_r.
Qed.

Lemma due_later tm since_ now : Timer.waiting tm = Some since_ → since_ ≤ now → Timer.due tm (now + Timer.MAX) = true.
Proof. intros H Hl. unfold Timer.due. rewrite H. apply Z.leb_le. pose proof (Timer.interval_bounds tm). assert (0 < Timer.MIN) by (by vm_compute). slia. Qed.

(** What a poll does to the sender besides offering. *)
Lemma poll_shape s now budget front :
  let s' := (Send.poll_transmit s now budget front).2 in
  Send.buffer s' = Send.buffer s ∧ Send.base s' = Send.base s ∧ Send.send_fin s' = Send.send_fin s ∧ Send.fin_acked s' = Send.fin_acked s ∧
  (Send.fin_sent s' = true → Send.fin_sent s = true) ∧
  (s' = s ∨ Timer.due (Send.timer s) now = true ∧ 0 ≠ Z.min budget MAX_FORWARD_CHUNK ∧ Timer.waiting (Send.timer s') = None).
Proof.
  unfold Send.poll_transmit. destruct (Z.eqb_spec (Z.min budget MAX_FORWARD_CHUNK) 0); [cbn; by split_and!; try left|].
  destruct (Timer.due (Send.timer s) now); cbn [snd]; [|by split_and!; try left]. cbn. split_and!; try done. right. split_and!; (done || lia).
Qed.

(** The sender after a poll whose offer, if there was one, was taken. *)
Definition offered_and_taken (s : Send.Sender) (now : Instant) (budget : Z) (front : nat) : Send.Sender :=
  match Send.poll_transmit s now budget front with (Some (seg, _), s') => Send.transmitted s' seg now | (None, s') => s' end.

Lemma taken_waits s seg now : Timer.waiting (Send.timer (Send.transmitted s seg now)) = Some (default now (Timer.waiting (Send.timer s))).
Proof. unfold Send.transmitted. destruct (fin seg); cbn [Send.timer]; apply transmitted_timer. Qed.

Lemma timed_transmit W t s now budget front : Send.inv W s → timed t s → now ≤ t → 0 ≤ budget → timed t (offered_and_taken s now budget front).
Proof.
  intros Hi Ht Hn Hb. pose proof Ht as [T1 T2 T3]. unfold offered_and_taken. pose proof (Send.poll_spec W s now budget front Hi Hb) as Hp.
  pose proof (poll_shape s now budget front) as (E1 & E2 & E3 & E4 & E5 & E6).
  destruct (Send.poll_transmit s now budget front) as [[[seg bytes]|] s'] eqn:Ep; cbn [snd] in *.
  - destruct Hp as (_ & _ & _ & _ & _ & _ & _ & _ & _ & _ & Hfin & _). split; rewrite ?taken_waits; [by left|..].
    + unfold Send.transmitted. destruct (fin seg); cbn; rewrite E3; [|auto]. intros _. by rewrite (proj1 (Hfin eq_refl)).
    + intros x [= <-]. destruct E6 as [->|(_ & _ & ->)]; [|done]. destruct (Timer.waiting (Send.timer s)) eqn:Ew; [by apply T3|done].
  - destruct E6 as [->|(Hd & Hz & Hw)]; [done|]. split; [|by rewrite E3; auto|by rewrite Hw].
    intros Ha. exfalso. unfold Send.awaiting_ack, Send.end_ in Ha. rewrite E1, E2, E3, E4 in Ha.
    destruct (Send.woken_head W s now budget front Hi Ha Hd ltac:(unfold MAX_FORWARD_CHUNK in *; lia)) as (? & ? & ? & E & _). by rewrite Ep in E.
Qed.

(** So a closed half is waited for after a poll, unless it is acknowledged. *)
Lemma waits_after W s now budget front : Send.inv W s → is_Some (Send.send_fin s) → 0 < budget →
  Send.fin_acked s = true ∨ Timer.due (Send.timer s) now = true ∨ timed now s →
  let s' := offered_and_taken s now budget front in
  Send.fin_acked s' = true ∨ Timer.due (Send.timer s') (now + Timer.MAX) = true.
Proof.
  intros Hi Hf Hb H s'. pose proof (poll_shape s now budget front) as (_ & _ & _ & E4 & _ & E6). unfold s', offered_and_taken.
  destruct (Send.fin_acked s) eqn:Ea.
  { left. destruct (Send.poll_transmit s now budget front) as [[[seg bytes]|] s1]; cbn [snd] in E4; [by rewrite Send.transmitted_fin_acked|done]. }
  pose proof (unfinished_awaits s Hf Ea) as Haw. destruct H as [H|H]; [done|]. right.
  destruct (Send.poll_transmit s now budget front) as [[[seg bytes]|] s1] eqn:Ep; cbn [snd] in *.
  - apply (due_later _ (default now (Timer.waiting (Send.timer s1)))); [apply taken_waits|]. destruct E6 as [->|(_ & _ & ->)]; [|done].
    destruct H as [H|[_ _ H]].
    + unfold Send.poll_transmit in Ep. rewrite (proj2 (Z.eqb_neq _ _)), H in Ep by (unfold MAX_FORWARD_CHUNK; lia). apply (f_equal snd) in Ep. cbn [snd] in Ep. rewrite <- Ep. done.
    + destruct (Timer.waiting (Send.timer s)) eqn:Ew; [by apply H|done].
  - destruct (Timer.due (Send.timer s) now) eqn:Hd.
    { destruct (Send.woken_head W s now budget front Hi Haw Hd Hb) as (? & ? & ? & E & _). by rewrite Ep in E. }
    destruct E6 as [->|[? _]]; [|done]. destruct H as [H|[H1 _ H2]]; [done|]. destruct (H1 Haw) as [[x Hx]|[Hbuf Hs]].
    + by apply (due_later _ x); [|apply H2].
    + destruct (end_offered W s now budget front Hi Haw Hbuf Hs Hb) as [? E]. by rewrite Ep in E.
Qed.

Lemma transmit_is a b w now budget front : ∃ w', step (a, b, w) (Transmit now budget front) = Some (a <| send := offered_and_taken (send a) now budget front |>, b, w').
Proof. cbn [step]. unfold poll_transmit, offered_and_taken. destruct (Send.poll_transmit (send a) now budget front) as [[[seg bytes]|] s']; by eexists. Qed.

Lemma timed_step t a b w e a' b' w' : inv (send a) (recv b) w → event_ok e → undisturbed t e → timed t (send a) →
  step (a, b, w) e = Some (a', b', w') → timed t (send a').
Proof.
  intros Hv Hok Hu Ht E. destruct e as [bytes now| |now budget front|now budget front|i| |i now|n]; cbn [undisturbed event_ok] in *.
  - cbn [step] in E. unfold write in E. pose proof (timed_write t (send a) bytes now Ht Hu) as H. destruct (Send.write (send a) bytes now) as [m s']. by simplify_eq/=.
  - cbn [step] in E. simplify_eq/=. by apply timed_finish.
  - destruct (transmit_is a b w now budget front) as [w1 E1]. rewrite E1 in E. simplify_eq/=. by apply (timed_transmit (written w)); [apply Hv|..].
  - done.
  - cbn [step] in E. repeat case_match; by simplify_eq/=.
  - cbn [step] in E. destruct (poll_ack b) as [[o b1]|]; by simplify_eq/=.
  - cbn [step] in E. destruct (acks w !! i) as [ack|]; [|by simplify_eq/=]. unfold on_ack in E.
    pose proof (timed_ack t (send a) (Recv.ack_off ack) (Recv.ack_window ack) (Recv.ack_held ack) now Ht Hu) as H.
    destruct (Send.on_ack _ _ _ _ _) as [[u|] s']; cbn [fst snd] in H; simplify_eq/=. apply H. by destruct u.
  - cbn [step] in E. by simplify_eq/=.
Qed.

(** ** The pair, both ways *)

Record Pair := mkPair { A : Stream; B : Stream; ab : Wire; ba : Wire }.
Inductive side := Forth | Back.

Definition near (d : side) (p : Pair) : Stream := match d with Forth => A p | Back => B p end.
Definition far (d : side) (p : Pair) : Stream := match d with Forth => B p | Back => A p end.
Definition wire (d : side) (p : Pair) : Wire := match d with Forth => ab p | Back => ba p end.
Definition other (d : side) : side := match d with Forth => Back | Back => Forth end.

Definition start : Pair := mkPair new new (mkWire [] [] [] []) (mkWire [] [] [] []).

Definition pair_step (p : Pair) (v : side * event) : option Pair :=
  '(x, y, w) ← step (near v.1 p, far v.1 p, wire v.1 p) v.2;
  Some (match v.1 with Forth => mkPair x y w (ba p) | Back => mkPair y x (ab p) w end).

Fixpoint run (p : Pair) (vs : list (side * event)) : option Pair :=
  match vs with
  | [] => Some p
  | v :: vs => p ← pair_step p v; run p vs
  end.

Definition pair_inv (p : Pair) : Prop := ∀ d, inv (send (near d p)) (recv (far d p)) (wire d p).

Lemma pair_step_inv p v :
  pair_inv p → event_ok v.2 → (∀ d, len (written (wire d p)) + offered v.2 ≤ Send.STREAM_LIMIT) →
  ∃ p', pair_step p v = Some p' ∧ pair_inv p' ∧
    (∀ d, len (written (wire d p')) ≤ len (written (wire d p)) + offered v.2).
Proof.
  intros Hi Hok Hl. destruct v as [d e]. simpl in Hok, Hl.
  destruct (step_stays _ _ _ e (Hi d) Hok (Hl d)) as (x & y & w & E & V & Ex & Ey & Hw).
  unfold pair_step. cbn [fst snd]. rewrite E. cbn [mbind option_bind]. eexists. split; [done|].
  assert (0 ≤ offered e) by (destruct e; simpl; lia).
  pose proof (Hi Forth) as HF. pose proof (Hi Back) as HB.
  destruct d; simpl in *; (split; [intros [|]; simpl; by rewrite ?Ex, ?Ey|intros [|]; simpl; lia]).
Qed.

Lemma pair_run_inv vs p :
  pair_inv p → Forall (λ v, event_ok v.2) vs →
  (∀ d, len (written (wire d p)) + sum_by (λ v, offered v.2) vs ≤ Send.STREAM_LIMIT) →
  ∃ p', run p vs = Some p' ∧ pair_inv p'.
Proof.
  revert p; induction vs as [|v vs IH]; intros p Hi Hok Hl; [by eauto|].
  apply list.Forall_cons in Hok as [Ho Hok]. simpl in Hl.
  assert (0 ≤ sum_by (λ v : side * event, offered v.2) vs).
  { apply sum_by_nonneg, Forall_forall. intros [? x] _. destruct x; simpl; lia. }
  destruct (pair_step_inv p v Hi Ho) as (p' & E & Hi' & Hw); [intros d; specialize (Hl d); lia|].
  simpl. rewrite E. simpl. apply IH; [done|done|]. intros d. specialize (Hl d). specialize (Hw d). lia.
Qed.

Lemma start_inv : pair_inv start.
Proof. intros [|]; apply wire_new_inv. Qed.

(** Events of one direction are events of that direction alone. *)
Lemma run_side d es p x y w :
  steps (near d p, far d p, wire d p) es = Some (x, y, w) →
  ∃ p', run p ((d,.) <$> es) = Some p' ∧ near d p' = x ∧ far d p' = y ∧ wire d p' = w.
Proof.
  revert p; induction es as [|e es IH]; intros p H; cbn [steps] in H.
  { simplify_eq. by eauto 10. }
  rewrite fmap_cons. cbn [run]. unfold pair_step. cbn [fst snd].
  destruct (step _ e) as [[[x1 y1] w1]|]; cbn [mbind option_bind] in *; [|done].
  set (p1 := match d with Forth => _ | Back => _ end).
  assert (near d p1 = x1 ∧ far d p1 = y1 ∧ wire d p1 = w1) as (E1 & E2 & E3) by (unfold p1; by destruct d).
  apply IH. by rewrite E1, E2, E3.
Qed.

Lemma timed_pair t d p v p' : pair_inv p → event_ok v.2 → (∀ d, len (written (wire d p)) + offered v.2 ≤ Send.STREAM_LIMIT) →
  (v.1 = d → undisturbed t v.2) → timed t (send (near d p)) → pair_step p v = Some p' → timed t (send (near d p')).
Proof.
  intros Hi Hok Hl Hu Ht E. destruct v as [c e]. cbn [fst snd] in *. unfold pair_step in E. cbn [fst snd] in E.
  destruct (step_stays _ _ _ e (Hi c) Hok (Hl c)) as (x & y & w & Es & _ & _ & Ey & _). rewrite Es in E. cbn [mbind option_bind] in E.
  pose proof (λ Hc, timed_step t _ _ _ e x y w (Hi c) Hok Hc) as Hstep. injection E as <-.
  destruct c, d; cbn [near far] in *; first [by apply Hstep; auto|cbn; by rewrite Ey].
Qed.

Lemma timed_run t d p vs p' : pair_inv p → Forall (λ v, event_ok v.2) vs →
  (∀ d, len (written (wire d p)) + sum_by (λ v, offered v.2) vs ≤ Send.STREAM_LIMIT) →
  Forall (λ v, v.1 = d → undisturbed t v.2) vs → timed t (send (near d p)) → run p vs = Some p' → timed t (send (near d p')).
Proof.
  revert p. induction vs as [|v vs IH]; intros p Hi Hok Hl Hu Ht E; [by injection E as <-|].
  apply list.Forall_cons in Hok as [Ho Hok]. apply list.Forall_cons in Hu as [Hu1 Hu]. cbn [sum_by foldr] in Hl. fold (sum_by (λ v : side * event, offered v.2) vs) in Hl.
  assert (0 ≤ sum_by (λ v : side * event, offered v.2) vs).
  { apply sum_by_nonneg, Forall_forall. intros [? x] _. destruct x; simpl; lia. }
  destruct (pair_step_inv p v Hi Ho) as (p1 & E1 & Hi1 & Hw); [intros c; specialize (Hl c); lia|].
  cbn [run] in E. rewrite E1 in E. cbn [mbind option_bind] in E. apply (IH p1); try done.
  - intros c. specialize (Hl c). specialize (Hw c). lia.
  - apply (timed_pair t d p v p1); try done. intros c. specialize (Hl c). lia.
Qed.

Lemma timed_new t : timed t Send.new.
Proof. by split. Qed.

(** ** Properties *)

(** C4: a forwarded connection arrives as it was written.  Whatever the sockets at both ends
    write, read and close, in whatever order, and however the network loses, repeats and
    reorders what crosses it, neither stream ever panics or finds the other contradicting
    itself; in each direction what the far socket was given is a prefix of what the near one
    wrote, in order and without repetition; the far side reports the end only when every byte
    is there and the near side was closed; the near side forgets a byte only once the far side
    has placed it; and when it considers its half closed, all of it has arrived. *)
Theorem connection_is_faithful vs
    (H : Forall (λ v, event_ok v.2) vs ∧ sum_by (λ v, offered v.2) vs ≤ Send.STREAM_LIMIT) :
  ∃ p, run start vs = Some p ∧ ∀ d,
    let a := near d p in let b := far d p in
    let sent := written (wire d p) in let got := taken (wire d p) ++ readable b in
    got `prefix_of` sent ∧
    (peer_finished b = true → got = sent ∧ Send.send_fin (send a) = Some (len sent)) ∧
    Send.buffer (send a) = drop (Z.to_nat (Send.base (send a))) sent ∧ Send.base (send a) ≤ len got ∧
    (Send.is_done (send a) = true → got = sent ∧ peer_finished b = true).
Proof.
  destruct H as [Hok Hl].
  destruct (pair_run_inv vs start start_inv Hok ltac:(intros [|]; simpl; lia)) as (p & Hp & Hi).
  exists p. split; [done|]. intros d. specialize (Hi d). cbv zeta. unfold readable, peer_finished.
  destruct Hi as [Hs [Rp Ro Rl _ Rf Rd] _ _ Hb Hf Hd].
  assert (Recv.finished (recv (far d p)) = true →
    taken (wire d p) ++ Recv.ready (recv (far d p)) = written (wire d p) ∧
    Send.send_fin (send (near d p)) = Some (len (written (wire d p)))) as Hfin.
  { intros H. pose proof (Rf _ (Rd H)) as Hpl. split.
    - rewrite Rp, Hpl, Nat2Z.id. apply take_ge. lia.
    - destruct (Send.send_fin (send (near d p))) as [f|] eqn:Ef; [by rewrite (Send.i_fin _ _ Hs f Ef)|].
      destruct Hf; [by rewrite (Rd H)|done]. }
  split; [rewrite Rp; apply prefix_take|]. split; [exact Hfin|]. split; [apply Hs|]. split.
  - rewrite Rp, length_take. lia.
  - unfold Send.is_done. intros [_ Ha]%andb_prop. split; [by apply Hfin, Hd|by apply Hd].
Qed.

(** C10: a closed stream is completed as soon as the network allows.  From any state two streams can
    reach in which one side has closed its half: if none of that side's offers was refused, or if
    its timer is due, or the close is already acknowledged (a probe of a closed window that its
    caller could not send leaves a timer that is never due again by itself), then from any later
    instant on, one poll and, two seconds apart, exchanges in which the far socket reads and one
    segment and its acknowledgement get through complete the half after at most one exchange per
    byte still unacknowledged and one for the end: the near side is done with it, the far side has
    seen its end, and every byte written was placed. *)
Theorem closed_stream_completes vs p d now budget front
    (H : Forall (λ v, event_ok v.2) vs ∧ sum_by (λ v, offered v.2) vs ≤ Send.STREAM_LIMIT ∧ run start vs = Some p ∧
         is_Some (Send.send_fin (send (near d p))) ∧
         (Forall (λ v, v.1 = d → undisturbed now v.2) vs ∨ Timer.due (Send.timer (send (near d p))) now = true ∨
          Send.fin_acked (send (near d p)) = true) ∧ 0 < budget) :
  let sent := written (wire d p) in
  ∃ k p', Z.of_nat k ≤ len sent - Send.base (send (near d p)) + 1 ∧
    run p ((d,.) <$> Transmit now budget front :: rounds k (now + Timer.MAX) budget front) = Some p' ∧
    Send.is_done (send (near d p')) = true ∧ peer_finished (far d p') = true ∧
    taken (wire d p') ++ readable (far d p') = sent.
Proof.
  destruct H as (Hok & Hl & Hr & Hf & Hd & Hb).
  destruct (pair_run_inv vs start start_inv Hok ltac:(intros [|]; simpl; lia)) as (p0 & Hp & Hi).
  rewrite Hr in Hp. simplify_eq. cbv zeta.
  assert (Send.fin_acked (send (near d p0)) = true ∨ Timer.due (Send.timer (send (near d p0))) now = true ∨ timed now (send (near d p0))) as Hw.
  { destruct Hd as [Hu|[Hd|Hd]]; [right; right|by right; left|by left].
    apply (timed_run now d start vs p0); try done; [apply start_inv|intros [|]; simpl; lia|destruct d; apply timed_new]. }
  specialize (Hi d). pose proof (Send.i_order _ _ (v_send _ _ _ Hi)) as Ho.
  pose proof (waits_after _ _ now budget front (v_send _ _ _ Hi) Hf Hb Hw) as Hafter.
  destruct (transmit_stays _ _ _ now budget front Hi ltac:(lia)) as (a1 & b1 & w1 & E1 & V1 & _ & _ & W1 & _ & _ & _ & F1 & B1 & _).
  destruct (transmit_is (near d p0) (far d p0) (wire d p0) now budget front) as [w' E2]. rewrite E1 in E2. assert (a1 = (near d p0) <| send := offered_and_taken (send (near d p0)) now budget front |>) as Ea by congruence. clear E2.
  assert (send a1 = offered_and_taken (send (near d p0)) now budget front) as Es by (by rewrite Ea). cbv zeta in Hafter. rewrite <- Es in Hafter. clear Ea Es.
  destruct (rounds_complete (Z.to_nat (len (written (wire d p0)) - Send.base (send (near d p0)) + 1))
    _ _ _ (now + Timer.MAX) budget front V1 ltac:(by rewrite F1) Hafter Hb ltac:(rewrite W1, B1; lia)) as (k & Hk & a & b & w & Hs & V & _ & _ & HW & HD).
  destruct (run_side d (Transmit now budget front :: rounds k (now + Timer.MAX) budget front) p0 a b w) as (p' & Hrun & X1 & X2 & X3).
  { cbn [steps]. rewrite E1. cbn [mbind option_bind]. exact Hs. }
  exists k, p'. rewrite X1, X2, X3. split; [lia|]. split; [done|]. split; [done|].
  assert (Recv.finished (recv b) = true) as Hfin.
  { apply (v_done _ _ _ V). unfold Send.is_done in HD. by apply andb_prop in HD as [_ ?]. }
  split; [done|]. destruct (v_recv _ _ _ V) as [Rp _ Rl _ Rf Rd]. unfold readable.
  rewrite Rp, (Rf _ (Rd Hfin)), Nat2Z.id, HW, W1. apply take_ge. lia.
Qed.

(** ** Witnesses *)

(** The second segment arrives first, and twice; the first is lost. *)
Definition demo : list (side * event) :=
  [(Forth, Write [1; 2; 3; 4; 5] 0); (Back, Write [9] 0); (Forth, Transmit 0 2 0); (Forth, Transmit 0 2 1);
   (Forth, Deliver 0); (Forth, Deliver 0); (Forth, PollAck); (Forth, AckArrives 0 1); (Forth, Finish);
   (Back, Transmit 1 9 0); (Back, Deliver 0)].

Lemma demo_ok : Forall (λ v, event_ok v.2) demo ∧ sum_by (λ v, offered v.2) demo ≤ Send.STREAM_LIMIT.
Proof. split; [unfold demo; forall_list (simpl; (lia || done))|vm_compute; discriminate]. Qed.

Lemma connection_is_faithful_witness :
  ∃ p, run start demo = Some p ∧ taken (ab p) ++ readable (B p) `prefix_of` [1; 2; 3; 4; 5] ∧
    taken (ba p) ++ readable (A p) `prefix_of` [9] ∧ readable (A p) = [9].
Proof.
  destruct (connection_is_faithful demo demo_ok) as (p & Hp & Hd). exists p. split; [exact Hp|].
  assert ((λ p, (written (ab p), written (ba p), readable (A p))) <$> run start demo = Some ([1; 2; 3; 4; 5], [9], [9])) as E
    by (vm_compute; reflexivity).
  rewrite Hp in E. cbn in E. injection E as E1 E2 E3.
  pose proof (proj1 (Hd Forth)) as H1. pose proof (proj1 (Hd Back)) as H2. cbn [wire far] in H1, H2. rewrite E1 in H1. rewrite E2 in H2.
  split; [exact H1|]. split; [exact H2|exact E3].
Defined.

Lemma closed_stream_completes_witness :
  ∃ p k p', run start demo = Some p ∧ Z.of_nat k ≤ 6 ∧
    run p ((Forth,.) <$> Transmit (from_secs 1) 2 0 :: rounds k (from_secs 3) 2 0) = Some p' ∧ taken (ab p') ++ readable (B p') = [1; 2; 3; 4; 5].
Proof.
  assert ((λ p, (written (ab p), Send.base (send (A p)), Send.send_fin (send (A p)))) <$> run start demo = Some ([1; 2; 3; 4; 5], 0, Some 5)) as E
    by (vm_compute; reflexivity).
  destruct (run start demo) as [p|] eqn:Hp; [|discriminate E].
  cbn in E. injection E as E1 E2 E3.
  destruct (closed_stream_completes demo p Forth (from_secs 1) 2 0) as (k & p' & Hk & Hrun & _ & _ & Hgot).
  - split; [exact (proj1 demo_ok)|]. split; [exact (proj2 demo_ok)|]. split; [exact Hp|].
    cbn [near]. rewrite E3. split; [done|]. split; [left; unfold demo; forall_list (cbn; intros ?; first [done|by vm_compute])|lia].
  - cbn [near wire far] in *. rewrite E1, E2 in *. exists p, k, p'.
    split; [reflexivity|]. split; [simpl in Hk; lia|]. split; [exact Hrun|exact Hgot].
Defined.

End Stream.
