(* ===== verification/Codec.v ===== *)
(** * Reading and writing one frame's body ([crates/proto/src/lib.rs], the [Cursor] and the
    [Field] trait; strings as [std] has them)

    A decoder is a function of the cursor; it returns the value and the cursor moved past it.
    An encoder returns the bytes it appends.  The trait [Field] is a record of operations, and
    [Lawful] is what every implementation of it promises: what it writes it reads back, in no
    more bytes than its hint, and what it reads it would write as the very same bytes. *)

From S2P Require Import Prelude.

Module Codec.

Inductive DecodeError :=
| Truncated
| Oversize (actual limit : Z)
| BadVersion (stated : Z)
| BadTag (tag : Z)
| InvalidField
| BadUtf8
| TrailingBytes
| Io.

(** [ScrollBand], which one encoding error carries. *)
Record ScrollBand := mkBand { top : Z; bottom : Z; lines : Z }.

Inductive EncodeError :=
| EOversize
| BadTerm
| BadEnv
| BadCommand
| BadSessionName
| BadPattern
| BadMatch
| BadForwardTarget
| RowCount (expected actual : Z)
| RowIndex (row : Z)
| BadDeferred
| BadScroll (band : ScrollBand).

(** ** Strings

    A [String] is its bytes, which are UTF-8. *)

Definition between (lo x hi : Z) : bool := (lo <=? x) && (x <=? hi).
Definition cont (b : Z) : bool := between 128 b 191.

(** [str::from_utf8] and [str::chars]: the scalar values, or [None] when the bytes are not
    UTF-8 (no overlong forms, no surrogates, nothing past U+10FFFF). *)
Fixpoint chars (s : list Z) : option (list Z) :=
  match s with
  | [] => Some []
  | a :: r =>
      if a <? 128 then cons a <$> chars r
      else if between 194 a 223 then
        match r with
        | b :: r => if cont b then cons ((a - 192) * 64 + (b - 128)) <$> chars r else None
        | _ => None
        end
      else if between 224 a 239 then
        match r with
        | b :: c :: r =>
            if cont b && cont c && (negb (a =? 224) || (160 <=? b)) && (negb (a =? 237) || (b <=? 159))
            then cons ((a - 224) * 4096 + (b - 128) * 64 + (c - 128)) <$> chars r else None
        | _ => None
        end
      else if between 240 a 244 then
        match r with
        | b :: c :: d :: r =>
            if cont b && cont c && cont d && (negb (a =? 240) || (144 <=? b)) && (negb (a =? 244) || (b <=? 143))
            then cons ((a - 240) * 262144 + (b - 128) * 4096 + (c - 128) * 64 + (d - 128)) <$> chars r else None
        | _ => None
        end
      else None
  end.

Definition utf8 (s : list Z) : bool := bool_decide (is_Some (chars s)).

(** [char::is_control]: C0, DEL and C1. *)
Definition is_control (c : Z) : bool := (c <? 32) || between 127 c 159.
Definition has_control (s : list Z) : bool := existsb is_control (default [] (chars s)).

Definition is_ascii_digit (b : Z) : bool := between 48 b 57.
Definition is_ascii_alphabetic (b : Z) : bool := between 65 b 90 || between 97 b 122.
Definition is_ascii_alphanumeric (b : Z) : bool := is_ascii_alphabetic b || is_ascii_digit b.

(** ** The cursor *)

Record Cursor := mkCursor { bytes : list Z; pos : Z }.

Definition dec (A : Type) : Type := Cursor → result (A * Cursor) DecodeError.
Definition dret {A} (a : A) : dec A := λ c, Ok (a, c).
Definition dfail {A} (e : DecodeError) : dec A := λ _, Err e.
Definition dbind {A B} (g : dec A) (k : A → dec B) : dec B :=
  λ c, match g c with Ok (a, c) => k a c | Err e => Err e end.
(** [o.ok_or(e)?]. *)
Definition dsome {A} (o : option A) (e : DecodeError) : dec A :=
  match o with Some a => dret a | None => dfail e end.
(** [if bad { return Err(e) }]. *)
Definition dcheck (bad : bool) (e : DecodeError) : dec () := if bad then dfail e else dret ().

Notation "'let!' x := g 'in' k" := (dbind g (λ x, k))
  (at level 10, x pattern, g at level 100, k at level 200) : braid_scope.

Definition cursor_new (bs : list Z) : Cursor := {| bytes := bs; pos := 0 |}.
Definition remaining (c : Cursor) : Z := sat_sub (len (bytes c)) (pos c).
Definition exhausted (c : Cursor) : bool := len (bytes c) <=? pos c.

Definition take_ (n : Z) : dec (list Z) := λ c,
  match checked_add USIZE_MAX (pos c) n with
  | None => Err InvalidField
  | Some e =>
      if e <=? len (bytes c)
      then Ok (slice (Z.to_nat (pos c)) (Z.to_nat e) (bytes c), {| bytes := bytes c; pos := e |})
      else Err Truncated
  end.

(** The length is proved by [take], so the conversion to an array never fails. *)
Definition array (n : Z) : dec (list Z) := take_ n.
Definition u8 : dec Z := let! b := take_ 1 in dret (b !!! 0%nat).
Definition u16 : dec Z := let! b := array 2 in dret (from_be b).
Definition u32 : dec Z := let! b := array 4 in dret (from_be b).
Definition u64 : dec Z := let! b := array 8 in dret (from_be b).
Definition str (n : Z) : dec (list Z) :=
  let! b := take_ n in if utf8 b then dret b else dfail BadUtf8.
Definition reject_control (s : list Z) : dec () := dcheck (has_control s) InvalidField.

Definition put_u8 (v : Z) : list Z := to_be 1 v.
Definition put_u16 (v : Z) : list Z := to_be 2 v.
Definition put_u32 (v : Z) : list Z := to_be 4 v.
Definition put_u64 (v : Z) : list Z := to_be 8 v.

(** The loops [for _ in 0..count] and [for x in value]. *)
Fixpoint times {A} (n : nat) (g : dec A) : dec (list A) :=
  match n with
  | O => dret []
  | S n => let! a := g in let! l := times n g in dret (a :: l)
  end.
Fixpoint each {A} (f : A → result (list Z) EncodeError) (l : list A) : result (list Z) EncodeError :=
  match l with
  | [] => Ok []
  | a :: l => let? x := f a in let? y := each f l in Ok (x ++ y)
  end.

(** ** The trait *)

Record Field (V : Type) := mkField {
  hint : V → Z;
  put : V → result (list Z) EncodeError;
  get : dec V
}.
Arguments hint {V} f.
Arguments put {V} f.
Arguments get {V} f.
Arguments mkField {V}.

(** ** What decoders and encoders are to each other *)

Definition rest (c : Cursor) : list Z := drop (Z.to_nat (pos c)) (bytes c).
Definition good (c : Cursor) : Prop :=
  Forall is_byte (bytes c) ∧ len (bytes c) ≤ USIZE_MAX ∧ 0 ≤ pos c ≤ len (bytes c).

(** [g] reads [x] as [v], whatever follows. *)
Definition reads {A} (g : dec A) (x : list Z) (v : A) : Prop :=
  ∀ c y, good c → rest c = x ++ y → ∃ c', g c = Ok (v, c') ∧ good c' ∧ rest c' = y.

(** Whatever [g] reads, the value and the bytes it took are related by [P]. *)
Definition canon {A} (g : dec A) (P : A → list Z → Prop) : Prop :=
  ∀ c v c', good c → g c = Ok (v, c') →
  ∃ x, rest c = x ++ rest c' ∧ good c' ∧ Forall is_byte x ∧ P v x.

(** What an implementation of the trait promises for the values [ok] that its type can hold. *)
Class Lawful {V} (F : Field V) (ok : V → Prop) : Prop := {
  field_writes : ∀ v x, ok v → put F v = Ok x → Forall is_byte x ∧ len x ≤ hint F v ∧ reads (get F) x v;
  field_canon : canon (get F) (λ v x, ok v ∧ put F v = Ok x)
}.

Lemma reads_ret {A} (v : A) : reads (dret v) [] v.
Proof. intros c y Hc Hr. by exists c. Qed.

Lemma reads_bind {A B} (g : dec A) (k : A → dec B) x y v w :
  reads g x v → reads (k v) y w → reads (dbind g k) (x ++ y) w.
Proof.
  intros Hg Hk c z Hc Hr. rewrite <- app_assoc in Hr. destruct (Hg c _ Hc Hr) as (c1 & E1 & H1 & R1).
  destruct (Hk c1 _ H1 R1) as (c2 & E2 & H2 & R2). exists c2. unfold dbind. by rewrite E1.
Qed.

(** The last step. *)
Lemma reads_last {A B} (g : dec A) (k : A → dec B) x v w :
  reads g x v → reads (k v) [] w → reads (dbind g k) x w.
Proof. intros Hg Hk. rewrite <- (app_nil_r x). by eapply reads_bind. Qed.

(** A step that reads nothing. *)
Lemma reads_pure {A B} (g : dec A) (k : A → dec B) y v w :
  reads g [] v → reads (k v) y w → reads (dbind g k) y w.
Proof. intros Hg Hk. by apply (reads_bind g k [] y v w). Qed.

Lemma reads_check b e : b = false → reads (dcheck b e) [] ().
Proof. intros ->. apply reads_ret. Qed.

Lemma reads_some {A} (o : option A) e v : o = Some v → reads (dsome o e) [] v.
Proof. intros ->. apply reads_ret. Qed.

Lemma reads_take n x : n = len x → reads (take_ n) x x.
Proof.
  intros -> c y (Hb & Hl & Hp) Hr. unfold rest in Hr.
  assert (pos c + len x ≤ len (bytes c)) as Hle.
  { apply (f_equal length) in Hr. rewrite length_drop, length_app in Hr. lia. }
  unfold take_, checked_add. destruct (Z.leb_spec (pos c + len x) USIZE_MAX); [|lia].
  destruct (Z.leb_spec (pos c + len x) (len (bytes c))); [|lia].
  exists {| bytes := bytes c; pos := pos c + len x |}. split; [|split; [split; [done|]; simpl; split; [done|lia]|]].
  - assert (slice (Z.to_nat (pos c)) (Z.to_nat (pos c + len x)) (bytes c) = x) as ->; [|done].
    unfold slice. rewrite Hr. replace (Z.to_nat (pos c + len x) - Z.to_nat (pos c))%nat with (length x) by lia.
    by rewrite take_app_length.
  - unfold rest. simpl. replace (Z.to_nat (pos c + len x)) with (Z.to_nat (pos c) + length x)%nat by lia.
    rewrite <- drop_drop, Hr. by rewrite drop_app_length.
Qed.

Lemma canon_take n : 0 ≤ n → canon (take_ n) (λ v x, v = x ∧ len x = n).
Proof.
  intros Hn c v c' (Hb & Hl & Hp) H. unfold take_ in H. destruct (checked_add _ _ _) as [e|] eqn:E; [|done].
  unfold checked_add in E. destruct (pos c + n <=? USIZE_MAX); [|done]. injection E as <-.
  destruct (pos c + n <=? len (bytes c)) eqn:El; [|done]. zbool. simplify_eq.
  assert (slice (Z.to_nat (pos c)) (Z.to_nat (pos c + n)) (bytes c) = take (Z.to_nat n) (rest c)) as ->.
  { unfold slice, rest. f_equal. lia. }
  exists (take (Z.to_nat n) (rest c)). split; [|split; [split; [done|]; simpl; split; [done|lia]|]].
  - unfold rest at 3. simpl. replace (Z.to_nat (pos c + n)) with (Z.to_nat (pos c) + Z.to_nat n)%nat by lia.
    rewrite <- drop_drop. fold (rest c). by rewrite take_drop.
  - split; [by apply Forall_take, Forall_drop|]. split; [done|]. rewrite length_take. unfold rest. rewrite length_drop. lia.
Qed.

Lemma canon_ret {A} (v : A) : canon (dret v) (λ w x, w = v ∧ x = []).
Proof. intros c w c' Hc [= <- <-]. by exists []. Qed.

Lemma canon_check b e : canon (dcheck b e) (λ _ x, b = false ∧ x = []).
Proof. intros c w c' Hc H. unfold dcheck in H. destruct b; [done|]. destruct w. injection H as <-. by exists []. Qed.

Lemma canon_some {A} (o : option A) e : canon (dsome o e) (λ w x, o = Some w ∧ x = []).
Proof. intros c w c' Hc H. destruct o as [a|]; [|done]. injection H as <- <-. by exists []. Qed.

Lemma canon_bind {A B} (g : dec A) (k : A → dec B) P Q :
  canon g P → (∀ a x, P a x → canon (k a) (Q a)) →
  canon (dbind g k) (λ w z, ∃ a x y, z = x ++ y ∧ Forall is_byte x ∧ Forall is_byte y ∧ P a x ∧ Q a w y).
Proof.
  intros Hg Hk c w c' Hc H. unfold dbind in H. destruct (g c) as [[a c1]|] eqn:E; [|done].
  destruct (Hg _ _ _ Hc E) as (x & R1 & H1 & B1 & HP). destruct (Hk a x HP _ _ _ H1 H) as (y & R2 & H2 & B2 & HQ).
  exists (x ++ y). split; [by rewrite R1, R2, app_assoc|]. split; [done|]. split; [by apply Forall_app|]. eauto 10.
Qed.

Lemma canon_fail {A} e : canon (dfail e : dec A) (λ _ _, False).
Proof. intros c v c' _ [=]. Qed.

Lemma canon_if {A} (b : bool) (g h : dec A) P Q :
  canon g P → canon h Q → canon (if b then g else h) (λ v x, b = true ∧ P v x ∨ b = false ∧ Q v x).
Proof.
  intros Hg Hh c v c' Hc H. destruct b; [destruct (Hg c v c' Hc H) as (x & ? & ? & ? & ?)|destruct (Hh c v c' Hc H) as (x & ? & ? & ? & ?)];
    exists x; split_and!; auto.
Qed.

Lemma canon_impl {A} (g : dec A) (P Q : A → list Z → Prop) :
  canon g P → (∀ v x, Forall is_byte x → P v x → Q v x) → canon g Q.
Proof. intros Hg HPQ c v c' Hc H. destruct (Hg c v c' Hc H) as (x & ? & ? & ? & ?). exists x. auto. Qed.

(** ** Primitives *)

Lemma reads_be n v m : 0 ≤ v < 256 ^ Z.of_nat n → m = Z.of_nat n →
  reads (let! b := take_ m in dret (from_be b)) (to_be n v) v.
Proof.
  intros Hv ->. rewrite <- (app_nil_r (to_be n v)).
  eapply reads_bind; [apply reads_take; by rewrite length_to_be|]. rewrite from_to_be by done. apply reads_ret.
Qed.

Lemma canon_be n m : m = Z.of_nat n →
  canon (let! b := take_ m in dret (from_be b)) (λ v x, 0 ≤ v < 256 ^ Z.of_nat n ∧ x = to_be n v).
Proof.
  intros ->. eapply canon_impl; [eapply canon_bind; [apply canon_take; lia|intros; apply canon_ret]|].
  intros v z _ (a & x & y & -> & Hx & _ & [-> Hl] & -> & ->). rewrite app_nil_r.
  assert (length x = n) as <- by lia. split; [by apply from_be_bound|by rewrite to_from_be].
Qed.

Lemma to_be_one v : 0 ≤ v < 256 → to_be 1 v = [v].
Proof.
  intros Hv. rewrite <- (to_from_be [v]) by (by apply Forall_singleton). done.
Qed.

Lemma reads_u8 v : 0 ≤ v < 256 → reads u8 (put_u8 v) v.
Proof.
  intros Hv. unfold u8, put_u8. rewrite to_be_one by done. apply (reads_bind _ _ [v] [] [v]); [by apply reads_take|].
  apply reads_ret.
Qed.

Lemma canon_u8 : canon u8 (λ v x, 0 ≤ v < 256 ∧ x = put_u8 v).
Proof.
  eapply canon_impl; [eapply canon_bind; [apply canon_take; lia|intros; apply canon_ret]|].
  intros v z _ (a & x & y & -> & Hx & _ & [-> Hl] & -> & ->). rewrite app_nil_r.
  destruct x as [|b [|]]; simpl in Hl; [lia| |lia]. apply list.Forall_cons in Hx as [Hx _].
  change ([b] !!! 0%nat) with b. split; [exact Hx|]. unfold put_u8. by rewrite to_be_one.
Qed.

Lemma reads_u16 v : 0 ≤ v ≤ U16_MAX → reads u16 (put_u16 v) v.
Proof. intros Hv. apply reads_be; [simpl; lia|done]. Qed.
Lemma reads_u32 v : 0 ≤ v ≤ U32_MAX → reads u32 (put_u32 v) v.
Proof. intros Hv. apply reads_be; [simpl; lia|done]. Qed.
Lemma reads_u64 v : 0 ≤ v ≤ U64_MAX → reads u64 (put_u64 v) v.
Proof. intros Hv. apply reads_be; [simpl; lia|done]. Qed.

Lemma canon_u16 : canon u16 (λ v x, 0 ≤ v ≤ U16_MAX ∧ x = put_u16 v).
Proof. eapply canon_impl; [by apply (canon_be 2)|]. intros v x _ [Hv ->]. split; [simpl in Hv; lia|done]. Qed.
Lemma canon_u32 : canon u32 (λ v x, 0 ≤ v ≤ U32_MAX ∧ x = put_u32 v).
Proof. eapply canon_impl; [by apply (canon_be 4)|]. intros v x _ [Hv ->]. split; [simpl in Hv; lia|done]. Qed.
Lemma canon_u64 : canon u64 (λ v x, 0 ≤ v ≤ U64_MAX ∧ x = put_u64 v).
Proof. eapply canon_impl; [by apply (canon_be 8)|]. intros v x _ [Hv ->]. split; [simpl in Hv; lia|done]. Qed.

(** A string field: its bytes are UTF-8. *)
Definition is_str (s : list Z) : Prop := Forall is_byte s ∧ utf8 s = true.

Lemma reads_str n s : is_str s → n = len s → reads (str n) s s.
Proof.
  intros [Hb Hu] ->. rewrite <- (app_nil_r s) at 2. eapply reads_bind; [by apply reads_take|].
  rewrite Hu. apply reads_ret.
Qed.

Lemma canon_str n : 0 ≤ n → canon (str n) (λ s x, is_str s ∧ len s = n ∧ x = s).
Proof.
  intros Hn. eapply canon_impl.
  { eapply (canon_bind _ _ _ (λ a w y, utf8 a = true ∧ w = a ∧ y = [])); [by apply canon_take|]. intros a ? _.
    destruct (utf8 a) eqn:E; [|intros c w c' _ [=]]. eapply canon_impl; [apply canon_ret|]. by intros w y _ [-> ->]. }
  intros v z _ (a & x & y & -> & Hx & _ & [-> Hl] & Hu & -> & ->). rewrite app_nil_r. done.
Qed.

Lemma reads_times {A} (f : A → result (list Z) EncodeError) (g : dec A) (l : list A) x :
  (∀ a y, a ∈ l → f a = Ok y → reads g y a) → each f l = Ok x → reads (times (length l) g) x l.
Proof.
  revert x; induction l as [|a l IH]; intros x Hf Hx; simpl in *.
  - injection Hx as <-. apply reads_ret.
  - apply result_bind_ok in Hx as (y & Hy & Hx). apply result_bind_ok in Hx as (z & Hz & Hx). injection Hx as <-.
    eapply reads_bind; [apply Hf; [left|done]|].
    rewrite <- (app_nil_r z). eapply reads_bind; [apply IH; [|done]; intros b w Hb; apply Hf; by right|]. apply reads_ret.
Qed.

Lemma canon_times {A} (f : A → result (list Z) EncodeError) (g : dec A) (ok : A → Prop) n :
  canon g (λ a x, ok a ∧ f a = Ok x) →
  canon (times n g) (λ l x, length l = n ∧ Forall ok l ∧ each f l = Ok x).
Proof.
  intros Hg. induction n as [|n IH]; simpl.
  { eapply canon_impl; [apply canon_ret|]. intros l x _ [-> ->]. by split. }
  eapply canon_impl.
  { eapply canon_bind; [exact Hg|]. intros a ? _. eapply canon_bind; [exact IH|]. intros l ? _. apply canon_ret. }
  intros v z _ (a & x & y & -> & _ & _ & [Ha Hx] & l & y1 & y2 & -> & _ & _ & (Hl & Hok & Hy) & -> & ->).
  rewrite app_nil_r. simpl. rewrite Hl, Hx. simpl. rewrite Hy. simpl. split; [done|]. split; [by constructor|done].
Qed.

Lemma each_bytes {A} (f : A → result (list Z) EncodeError) l x :
  (∀ a y, a ∈ l → f a = Ok y → Forall is_byte y) → each f l = Ok x → Forall is_byte x.
Proof.
  revert x; induction l as [|a l IH]; intros x Hf Hx; simpl in *; [injection Hx as <-; constructor|].
  apply result_bind_ok in Hx as (y & Hy & Hx). apply result_bind_ok in Hx as (z & Hz & Hx). injection Hx as <-.
  apply Forall_app. split; [eapply Hf; [left|done]|]. apply IH; [|done]. intros b w Hb. apply Hf. by right.
Qed.

Lemma each_size {A} (f : A → result (list Z) EncodeError) (size : A → Z) l x :
  (∀ a y, a ∈ l → f a = Ok y → len y ≤ size a) → each f l = Ok x → len x ≤ sum_by size l.
Proof.
  revert x; induction l as [|a l IH]; intros x Hf Hx; simpl in *; [injection Hx as <-; simpl; lia|].
  apply result_bind_ok in Hx as (y & Hy & Hx). apply result_bind_ok in Hx as (z & Hz & Hx). injection Hx as <-.
  rewrite length_app. specialize (IH z (λ b w Hb, Hf b w (list_elem_of_further b a l Hb)) Hz).
  specialize (Hf a y (list_elem_of_here a l) Hy). lia.
Qed.

(** ** Automation for the fields *)

Create HintDb codec.
#[export] Hint Resolve reads_ret reads_u8 reads_u16 reads_u32 reads_u64 reads_str reads_take reads_check reads_some : codec.
#[export] Hint Resolve to_be_bytes Forall_app_2 : codec.
#[export] Hint Extern 1 (Forall is_byte (put_u8 _)) => apply to_be_bytes : codec.
#[export] Hint Extern 1 (Forall is_byte (put_u16 _)) => apply to_be_bytes : codec.
#[export] Hint Extern 1 (Forall is_byte (put_u32 _)) => apply to_be_bytes : codec.
#[export] Hint Extern 1 (Forall is_byte (put_u64 _)) => apply to_be_bytes : codec.

(** Walk a decoder along the bytes its encoder wrote. *)
Ltac reads_step :=
  cbv zeta;
  lazymatch goal with
  | |- reads (dret _) [] _ => apply reads_ret
  | |- reads (dbind (dcheck _ _) _) _ _ => eapply reads_pure; [apply reads_check|]
  | |- reads (dbind (reject_control _) _) _ _ => eapply reads_pure; [apply reads_check|]
  | |- reads (dbind (dsome _ _) _) _ _ => eapply reads_pure; [apply reads_some|]
  | |- reads (dsome _ _) _ _ => apply reads_some
  | |- reads (dbind _ _) (_ ++ _) _ => eapply reads_bind
  | |- reads (dbind _ _) _ _ => eapply reads_last
  | |- reads u8 _ _ => apply reads_u8
  | |- reads u16 _ _ => apply reads_u16
  | |- reads u32 _ _ => apply reads_u32
  | |- reads u64 _ _ => apply reads_u64
  | |- reads (str _) _ _ => apply reads_str
  | |- reads (array _) _ _ => apply reads_take
  | |- reads (take_ _) _ _ => apply reads_take
  end.

(** Take a decoder apart into what each of its steps tells. *)
Ltac canon_step :=
  cbv zeta;
  lazymatch goal with
  | |- canon (dbind _ _) _ => eapply canon_bind; [|let a := fresh "a" in let x := fresh "x" in let H := fresh "P" in intros a x H]
  | |- canon (dret _) _ => apply canon_ret
  | |- canon (dfail _) _ => apply canon_fail
  | |- canon (if _ then _ else _) _ => apply canon_if
  | |- canon (dcheck _ _) _ => apply canon_check
  | |- canon (reject_control _) _ => apply canon_check
  | |- canon (dsome _ _) _ => apply canon_some
  | |- canon u8 _ => apply canon_u8
  | |- canon u16 _ => apply canon_u16
  | |- canon u32 _ => apply canon_u32
  | |- canon u64 _ => apply canon_u64
  | |- canon (str _) _ => apply canon_str; (lia || (cbv beta in *; destruct_and?; lia))
  | |- canon (array _) _ => apply canon_take; (lia || (cbv beta in *; destruct_and?; lia))
  | |- canon (take_ _) _ => apply canon_take; (lia || (cbv beta in *; destruct_and?; lia))
  end.

(** What [canon_step] leaves of a whole decoder, taken apart. *)
Ltac canon_inv :=
  cbv beta in *;
  repeat match goal with
  | H : ∃ _, _ |- _ => destruct H as [? H]
  | H : _ ∧ _ |- _ => destruct H as [? H]
  | H : _ ∨ _ |- _ => destruct H as [H|H]
  | H : False |- _ => destruct H
  end; zbool; subst; rewrite ?app_nil_r, ?app_nil_l.

(** A conversion the encoder makes before it writes a count or a length. *)
Definition try_from (m v : Z) (e : EncodeError) : result Z EncodeError := if v <=? m then Ok v else Err e.

Lemma try_from_ok m v e w : try_from m v e = Ok w ↔ w = v ∧ v ≤ m.
Proof. unfold try_from. destruct (Z.leb_spec v m); split; intros; simplify_eq; try done; [by destruct_and?; subst|lia]. Qed.

(** Sizes of what was written. *)
Ltac lens := rewrite ?length_app, ?length_to_be; simpl; rewrite ?length_app, ?length_to_be; simpl.

End Codec.
