(* ===== verification/Fields.v ===== *)
(** * The fields of the messages ([crates/proto/src/lib.rs])

    The values messages carry, and for each kind of field the implementation of the trait that
    writes and reads it.  A type the code makes impossible to build out of range (a [NonZero], a
    [GridSize] checked by its constructor, a [String]) is its plain value here, with the range as
    the predicate of its [Lawful] instance: the encoder is lawful on every value the type can
    hold, and the decoder yields no other.

    Nothing here reaches a terminal, an environment or a resolver unchecked: what a decoder
    yields has passed the control and name checks its encoder makes. *)

From S2P Require Import Prelude Send Codec.

Module Fields.
Import Codec.

Definition PROTOCOL_VERSION : Z := 17.
Definition MIN_PROTOCOL_VERSION : Z := 16.
Definition MANAGEMENT_VERSION : Z := 14.
Definition MAX_FRAME : Z := 1024 * 1024.
Definition MAX_OUTPUT_CHUNK : Z := 64 * 1024.
Definition MAX_INPUT_CHUNK : Z := 64 * 1024.
Definition CAPABILITY_BYTES : Z := 32.
Definition MAX_CLIENT_FRAME : Z := 68 * 1024.
Definition MAX_TERM : Z := 64.
Definition MAX_ENV : Z := 4096.
Definition MAX_ENV_VARS : Z := 16.
Definition MAX_SESSIONS : Z := 256.
Definition MAX_COMMAND : Z := 128.
Definition MAX_COMMAND_WORDS : Z := 16.
Definition MAX_SESSION_NAME : Z := 64.
Definition MAX_PATTERN : Z := 256.
Definition MAX_MATCHES : Z := 256.
Definition MAX_MATCH_LINE : Z := 512.
Definition MAX_FORWARD_HOST : Z := 255.

(** ** Versions *)

Record VersionRange := mkRange { oldest : Z; newest : Z }.

Definition local_range : VersionRange := {| oldest := MIN_PROTOCOL_VERSION; newest := PROTOCOL_VERSION |}.

Definition range_new (o n : Z) : option VersionRange :=
  if (o =? 0) || (n <? o) then None else Some {| oldest := o; newest := n |}.

(** [Err] is [RejectReason::Version], which carries both ranges. *)
Definition negotiate (self client : VersionRange) : result Z (VersionRange * VersionRange) :=
  let n := if newest self <? newest client then newest self else newest client in
  let o := if oldest client <? oldest self then oldest self else oldest client in
  if n <? o then Err (self, client) else Ok n.

(** ** Values *)

Record GridSize := mkGrid { cols : Z; rows : Z }.
Definition MAX_COLS : Z := 1024.
Definition MAX_ROWS : Z := 512.
Definition grid_new (c r : Z) : option GridSize :=
  if negb (between 1 c MAX_COLS) || negb (between 1 r MAX_ROWS) then None else Some {| cols := c; rows := r |}.

(** [NonZeroU64::new] and [NonZeroU32::new], under [CmdSeq], [Generation], [ScreenVersion] and
    [StreamId]. *)
Definition from_u64 (v : Z) : option Z := if v =? 0 then None else Some v.

(** [CmdSeq::next] and its likes. *)
Definition seq_next (m v : Z) : Z := sat_add m v 1.

Record DatagramOffer := mkOffer { ip : list Z; port : Z; cid : list Z; secret : list Z }.
Record ConfirmedOutput := mkConfirmed { generation : Z; next_off : Z }.
Record ResumeRequest := mkResume {
  session_id : list Z; capability : list Z; confirmed_output : ConfirmedOutput; client : list Z
}.
Record ForwardTarget := mkTarget { host : list Z; target_port : Z }.
Record SessionSummary := mkSummary {
  s_session_id : list Z; size : GridSize; attachments : Z; active_unix : Z; command : list Z
}.
Record SessionName := mkSessionName { n_session_id : list Z; name : list Z }.
Record SearchMatch := mkMatch { m_session_id : list Z; distance : Z; line : list Z }.

Inductive InputCue := Opaque_ | Echoing (room : Z).

Inductive DetachReason := Requested | Replaced.
Definition detach_to_wire (r : DetachReason) : Z := match r with Requested => 0 | Replaced => 1 end.
Definition detach_from_wire (v : Z) : option DetachReason :=
  if v =? 0 then Some Requested else if v =? 1 then Some Replaced else None.

Inductive ForwardResetReason := Refused | Unreachable | Closed | Limit | Internal.
Definition reset_to_wire (r : ForwardResetReason) : Z :=
  match r with Refused => 0 | Unreachable => 1 | Closed => 2 | Limit => 3 | Internal => 4 end.
Definition reset_from_wire (v : Z) : option ForwardResetReason :=
  if v =? 0 then Some Refused else if v =? 1 then Some Unreachable else if v =? 2 then Some Closed
  else if v =? 3 then Some Limit else if v =? 4 then Some Internal else None.

Inductive RejectReason :=
| RVersion (server client : VersionRange)
| UnknownSession
| SequenceGap
| InputBacklog
| RInternal
| TooManySessions
| TooManyAttachments.
Definition reject_to_wire (r : RejectReason) : Z :=
  match r with
  | RVersion _ _ => 0 | UnknownSession => 1 | SequenceGap => 2 | InputBacklog => 3 | RInternal => 4
  | TooManySessions => 5 | TooManyAttachments => 6
  end.
Definition is_terminal (r : RejectReason) : bool :=
  match r with RVersion _ _ | UnknownSession | TooManySessions | TooManyAttachments => true | _ => false end.

(** ** Fields of a fixed size *)

Definition U16 : Field Z := {| hint := λ _, 2; put := λ v, Ok (put_u16 v); get := u16 |}.
Definition U32 : Field Z := {| hint := λ _, 4; put := λ v, Ok (put_u32 v); get := u32 |}.
Definition U64 : Field Z := {| hint := λ _, 8; put := λ v, Ok (put_u64 v); get := u64 |}.

(** [i32::to_be_bytes] and [i32::from_be_bytes]: two's complement. *)
Definition I32 : Field Z :=
  {| hint := λ _, 4;
     put := λ v, Ok (to_be 4 (v mod 2 ^ 32));
     get := let! b := array 4 in
            let v := from_be b in dret (if v <? 2 ^ 31 then v else v - 2 ^ 32) |}.

Definition Grid : Field GridSize :=
  {| hint := λ _, 4;
     put := λ v, Ok (put_u16 (cols v) ++ put_u16 (rows v));
     get := let! c := u16 in let! r := u16 in dsome (grid_new c r) InvalidField |}.

(** [Seq], [Gen] and [ScreenVer]: a [NonZeroU64]. *)
Definition NonZero64 : Field Z :=
  {| hint := λ _, 8; put := λ v, Ok (put_u64 v); get := let! v := u64 in dsome (from_u64 v) InvalidField |}.
Definition Seq : Field Z := NonZero64.
Definition Gen : Field Z := NonZero64.
Definition ScreenVer : Field Z := NonZero64.

Definition OptSeq : Field (option Z) :=
  {| hint := λ _, 8; put := λ v, Ok (put_u64 (default 0 v)); get := let! v := u64 in dret (from_u64 v) |}.

Definition Off : Field Z := {| hint := λ _, 8; put := λ v, Ok (put_u64 v); get := u64 |}.

Definition StreamNum : Field Z :=
  {| hint := λ _, 4; put := λ v, Ok (put_u32 v); get := let! v := u32 in dsome (from_u64 v) InvalidField |}.

(** [Client], [Session] and [Cap]: an array. *)
Definition Bytes (n : Z) : Field (list Z) := {| hint := λ _, n; put := λ v, Ok v; get := array n |}.
Definition Client : Field (list Z) := Bytes 16.
Definition Session : Field (list Z) := Bytes 16.
Definition Cap : Field (list Z) := Bytes CAPABILITY_BYTES.

Definition OFFER_BYTES : Z := 16 + 2 + 8 + 32.
Definition encode_offer (o : option DatagramOffer) : list Z :=
  match o with
  | None => put_u8 0
  | Some o => put_u8 1 ++ ip o ++ put_u16 (port o) ++ cid o ++ secret o
  end.
Definition decode_offer : dec (option DatagramOffer) :=
  let! b := u8 in
  if b =? 0 then dret None
  else if b =? 1 then
    let! i := array 16 in let! p := u16 in let! c := array 8 in let! s := array 32 in
    dret (Some {| ip := i; port := p; cid := c; secret := s |})
  else dfail InvalidField.
Definition Offer : Field (option DatagramOffer) :=
  {| hint := λ _, 1 + OFFER_BYTES; put := λ v, Ok (encode_offer v); get := decode_offer |}.

Definition encode_cue (c : InputCue) : list Z :=
  match c with Opaque_ => put_u8 0 | Echoing room => put_u8 1 ++ put_u16 room end.
Definition decode_cue : dec InputCue :=
  let! b := u8 in
  if b =? 0 then dret Opaque_
  else if b =? 1 then let! room := u16 in dret (Echoing room)
  else dfail InvalidField.
Definition Cue : Field InputCue := {| hint := λ _, 3; put := λ v, Ok (encode_cue v); get := decode_cue |}.

Definition Detach : Field DetachReason :=
  {| hint := λ _, 1; put := λ v, Ok (put_u8 (detach_to_wire v));
     get := let! b := u8 in dsome (detach_from_wire b) InvalidField |}.
Definition Reset_ : Field ForwardResetReason :=
  {| hint := λ _, 1; put := λ v, Ok (put_u8 (reset_to_wire v));
     get := let! b := u8 in dsome (reset_from_wire b) InvalidField |}.

Definition FORWARD_FIN : Z := 1.
(** [!FORWARD_FIN] at eight bits is 254. *)
Definition Fin : Field bool :=
  {| hint := λ _, 1; put := λ v : bool, Ok (put_u8 (if v then FORWARD_FIN else 0));
     get := let! flags := u8 in
            let! _ := dcheck (negb (Z.land flags (U8_MAX - FORWARD_FIN) =? 0)) InvalidField in
            dret (negb (Z.land flags FORWARD_FIN =? 0)) |}.

Definition Request : Field ResumeRequest :=
  {| hint := λ _, 80;
     put := λ v, Ok (session_id v ++ capability v ++ put_u64 (generation (confirmed_output v)) ++
                     put_u64 (next_off (confirmed_output v)) ++ client v);
     get := let! s := array 16 in let! cap := array CAPABILITY_BYTES in
            let! g := u64 in let! g := dsome (from_u64 g) InvalidField in
            let! o := u64 in let! c := array 16 in
            dret {| session_id := s; capability := cap;
                    confirmed_output := {| generation := g; next_off := o |}; client := c |} |}.

Definition Range : Field VersionRange :=
  {| hint := λ _, 4; put := λ v, Ok (put_u16 (oldest v) ++ put_u16 (newest v));
     get := let! o := u16 in let! n := u16 in dsome (range_new o n) InvalidField |}.

Definition Ver : Field Z :=
  {| hint := λ _, 2; put := λ v, Ok (put_u16 v);
     get := let! stated := u16 in
            let! _ := dcheck ((stated <? oldest local_range) || (newest local_range <? stated)) (BadVersion stated) in
            dret stated |}.

Definition Refusal : Field RejectReason :=
  {| hint := λ _, 9;
     put := λ v, Ok (put_u8 (reject_to_wire v) ++
       match v with
       | RVersion server client =>
           put_u16 (oldest server) ++ put_u16 (newest server) ++ put_u16 (oldest client) ++ put_u16 (newest client)
       | _ => []
       end);
     get := let! b := u8 in
       if b =? 0 then
         let! so := u16 in let! sn := u16 in let! s := dsome (range_new so sn) InvalidField in
         let! co := u16 in let! cn := u16 in let! c := dsome (range_new co cn) InvalidField in
         dret (RVersion s c)
       else if b =? 1 then dret UnknownSession else if b =? 2 then dret SequenceGap
       else if b =? 3 then dret InputBacklog else if b =? 4 then dret RInternal
       else if b =? 5 then dret TooManySessions else if b =? 6 then dret TooManyAttachments
       else dfail InvalidField |}.

(** ** Fields measured by what they hold *)

Definition Chunk (MAX : Z) : Field (list Z) :=
  {| hint := λ v, 4 + len v;
     put := λ v,
       if MAX <? len v then Err EOversize
       else let? n := try_from U32_MAX (len v) EOversize in Ok (put_u32 n ++ v);
     get := let! n := u32 in
            let limit := Z.min MAX U32_MAX in
            let! _ := dcheck (limit <? n) (Oversize n limit) in
            take_ n |}.

Definition valid_term (t : list Z) : bool :=
  negb (len t =? 0) && (len t <=? MAX_TERM) &&
  forallb (λ b, is_ascii_alphanumeric b || (b =? 45) || (b =? 43) || (b =? 46) || (b =? 95)) t.

Definition valid_env_name (n : list Z) : bool :=
  match n with
  | [] => false
  | b :: r => (is_ascii_alphabetic b || (b =? 95)) && forallb (λ b, is_ascii_alphanumeric b || (b =? 95)) r
  end.

Definition Term : Field (list Z) :=
  {| hint := λ v, 2 + len v;
     put := λ v,
       if negb (valid_term v) then Err BadTerm
       else let? n := try_from U16_MAX (len v) BadTerm in Ok (put_u16 n ++ v);
     get := let! n := u16 in
            let! _ := dcheck (MAX_TERM <? n) InvalidField in
            let! t := str n in
            let! _ := dcheck (negb (valid_term t)) InvalidField in
            dret t |}.

Definition Pattern : Field (list Z) :=
  {| hint := λ v, 2 + len v;
     put := λ v,
       if (len v =? 0) || (MAX_PATTERN <? len v) || has_control v then Err BadPattern
       else let? n := try_from U16_MAX (len v) BadPattern in Ok (put_u16 n ++ v);
     get := let! n := u16 in
            let! _ := dcheck (MAX_PATTERN <? n) InvalidField in
            let! p := str n in
            let! _ := reject_control p in
            let! _ := dcheck (len p =? 0) InvalidField in
            dret p |}.

(** One variable of [encode_env]. *)
Definition encode_var (nv : list Z * list Z) : result (list Z) EncodeError :=
  if negb (valid_env_name nv.1) || has_control nv.2 then Err BadEnv
  else
    let? n := try_from U8_MAX (len nv.1) EOversize in
    let? v := try_from U16_MAX (len nv.2) EOversize in
    Ok (put_u8 n ++ nv.1 ++ put_u16 v ++ nv.2).
Definition var_size (nv : list Z * list Z) : Z := len nv.1 + len nv.2 + 3.
Definition encode_env (env : list (list Z * list Z)) : result (list Z) EncodeError :=
  if MAX_ENV_VARS <? len env then Err BadEnv
  else if MAX_ENV <? sum_by var_size env then Err BadEnv
  else
    let? count := try_from U8_MAX (len env) BadEnv in
    let? vars := each encode_var env in
    Ok (put_u8 count ++ vars).
Fixpoint decode_vars (n : nat) (total : Z) : dec (list (list Z * list Z)) :=
  match n with
  | O => dret []
  | S n =>
      let! name_len := u8 in
      let! name := str name_len in
      let! value_len := u16 in
      let! value := str value_len in
      let total := total + (name_len + value_len + 3) in
      let! _ := dcheck ((MAX_ENV <? total) || negb (valid_env_name name)) InvalidField in
      let! _ := reject_control value in
      let! env := decode_vars n total in
      dret ((name, value) :: env)
  end.
Definition decode_env : dec (list (list Z * list Z)) :=
  let! count := u8 in
  let! _ := dcheck (MAX_ENV_VARS <? count) InvalidField in
  decode_vars (Z.to_nat count) 0.
Definition Env : Field (list (list Z * list Z)) :=
  {| hint := λ v, 1 + sum_by var_size v; put := encode_env; get := decode_env |}.

Definition encode_word (w : list Z) : result (list Z) EncodeError :=
  let? n := try_from U16_MAX (len w) BadCommand in Ok (put_u16 n ++ w).
Definition word_size (w : list Z) : Z := len w + 2.
Definition encode_command (command : list (list Z)) : result (list Z) EncodeError :=
  if MAX_COMMAND_WORDS <? len command then Err BadCommand
  else if MAX_COMMAND <? sum_by word_size command then Err BadCommand
  else if existsb (λ w, len w =? 0) command then Err BadCommand
  else
    let? count := try_from U8_MAX (len command) BadCommand in
    let? words := each encode_word command in
    Ok (put_u8 count ++ words).
Fixpoint decode_words (n : nat) (total : Z) : dec (list (list Z)) :=
  match n with
  | O => dret []
  | S n =>
      let! size := u16 in
      let! word := str size in
      let total := total + (size + 2) in
      let! _ := dcheck ((MAX_COMMAND <? total) || (len word =? 0)) InvalidField in
      let! command := decode_words n total in
      dret (word :: command)
  end.
Definition decode_command : dec (list (list Z)) :=
  let! count := u8 in
  let! _ := dcheck (MAX_COMMAND_WORDS <? count) InvalidField in
  decode_words (Z.to_nat count) 0.
Definition Command : Field (list (list Z)) :=
  {| hint := λ v, 1 + sum_by word_size v; put := encode_command; get := decode_command |}.

Definition encode_forward_target (t : ForwardTarget) : result (list Z) EncodeError :=
  if (len (host t) =? 0) || (MAX_FORWARD_HOST <? len (host t)) || has_control (host t) || (target_port t =? 0)
  then Err BadForwardTarget
  else let? n := try_from U8_MAX (len (host t)) BadForwardTarget in
       Ok (put_u8 n ++ host t ++ put_u16 (target_port t)).
Definition decode_forward_target : dec ForwardTarget :=
  let! n := u8 in
  let! h := str n in
  let! _ := reject_control h in
  let! p := u16 in
  let! _ := dcheck ((len h =? 0) || (p =? 0)) InvalidField in
  dret {| host := h; target_port := p |}.
Definition Target : Field ForwardTarget :=
  {| hint := λ v, 3 + len (host v); put := encode_forward_target; get := decode_forward_target |}.

(** A list led by its count: how [Sessions], [Names] and [Matches] are laid out. *)
Definition put_counted {A} (max : Z) (f : A → result (list Z) EncodeError) (l : list A) : result (list Z) EncodeError :=
  if max <? len l then Err EOversize
  else let? count := try_from U16_MAX (len l) EOversize in let? all := each f l in Ok (put_u16 count ++ all).
Definition get_counted {A} (max : Z) (g : dec A) : dec (list A) :=
  let! count := u16 in
  let! _ := dcheck (max <? count) InvalidField in
  times (Z.to_nat count) g.

Definition put_session (s : SessionSummary) : result (list Z) EncodeError :=
  if (MAX_COMMAND <? len (command s)) || has_control (command s) then Err BadSessionName
  else
    let? n := try_from U8_MAX (len (command s)) BadSessionName in
    Ok (s_session_id s ++ put_u16 (cols (size s)) ++ put_u16 (rows (size s)) ++ put_u16 (attachments s) ++
        put_u64 (active_unix s) ++ put_u8 n ++ command s).
Definition get_session : dec SessionSummary :=
  let! id := array 16 in
  let! c := u16 in let! r := u16 in let! g := dsome (grid_new c r) InvalidField in
  let! a := u16 in
  let! t := u64 in
  let! n := u8 in
  let! _ := dcheck (MAX_COMMAND <? n) InvalidField in
  let! cmd := str n in
  let! _ := reject_control cmd in
  dret {| s_session_id := id; size := g; attachments := a; active_unix := t; command := cmd |}.
Definition Sessions : Field (list SessionSummary) :=
  {| hint := λ v, 2 + sum_by (λ s, 31 + len (command s)) v;
     put := put_counted MAX_SESSIONS put_session; get := get_counted MAX_SESSIONS get_session |}.

Definition Name : Field (list Z) :=
  {| hint := λ v, 1 + len v;
     put := λ v,
       let? n := try_from U8_MAX (len v) BadSessionName in
       if (MAX_SESSION_NAME <? n) || has_control v then Err BadSessionName else Ok (put_u8 n ++ v);
     get := let! n := u8 in
            let! _ := dcheck (MAX_SESSION_NAME <? n) InvalidField in
            let! s := str n in
            let! _ := reject_control s in
            dret s |}.

Definition put_name (n : SessionName) : result (list Z) EncodeError :=
  if len (name n) =? 0 then Err BadSessionName
  else let? x := put Name (name n) in Ok (n_session_id n ++ x).
Definition get_name : dec SessionName :=
  let! id := array 16 in
  let! s := get Name in
  let! _ := dcheck (len s =? 0) InvalidField in
  dret {| n_session_id := id; name := s |}.
Definition Names : Field (list SessionName) :=
  {| hint := λ v, 2 + sum_by (λ n, 17 + len (name n)) v;
     put := put_counted MAX_SESSIONS put_name; get := get_counted MAX_SESSIONS get_name |}.

Definition put_match (m : SearchMatch) : result (list Z) EncodeError :=
  if (MAX_MATCH_LINE <? len (line m)) || has_control (line m) then Err BadMatch
  else let? n := try_from U16_MAX (len (line m)) BadMatch in
       Ok (m_session_id m ++ put_u32 (distance m) ++ put_u16 n ++ line m).
Definition get_match : dec SearchMatch :=
  let! id := array 16 in
  let! d := u32 in
  let! n := u16 in
  let! _ := dcheck (MAX_MATCH_LINE <? n) InvalidField in
  let! l := str n in
  let! _ := reject_control l in
  dret {| m_session_id := id; distance := d; line := l |}.
Definition Matches : Field (list SearchMatch) :=
  {| hint := λ v, 2 + sum_by (λ m, 24 + len (line m)) v;
     put := put_counted MAX_MATCHES put_match; get := get_counted MAX_MATCHES get_match |}.

Definition put_run (r : Sack.SackRun) : result (list Z) EncodeError := Ok (put_u32 (Sack.gap r) ++ put_u32 (Sack.run r)).
Definition get_run : dec Sack.SackRun :=
  let! g := u32 in let! g := dsome (from_u64 g) InvalidField in
  let! n := u32 in let! n := dsome (from_u64 n) InvalidField in
  dret (Sack.mkRun g n).
Definition SackField : Field (list Sack.SackRun) :=
  {| hint := λ v, 1 + 8 * len v;
     put := λ v,
       let? count := try_from U8_MAX (len v) EOversize in
       if MAX_ACK_RUNS <? len v then Err EOversize
       else let? runs := each put_run v in Ok (put_u8 count ++ runs);
     get := let! count := u8 in
            let! _ := dcheck (MAX_ACK_RUNS <? count) InvalidField in
            let! runs := times (Z.to_nat count) get_run in
            dsome (Sack.from_slice runs) InvalidField |}.

(** ** Their laws *)

Definition is_u16 (v : Z) : Prop := 0 ≤ v ≤ U16_MAX.
Definition is_u32 (v : Z) : Prop := 0 ≤ v ≤ U32_MAX.
Definition is_u64 (v : Z) : Prop := 0 ≤ v ≤ U64_MAX.
Definition is_array (n : Z) (v : list Z) : Prop := Forall is_byte v ∧ len v = n.
Definition is_range (r : VersionRange) : Prop := 1 ≤ oldest r ≤ newest r ∧ newest r ≤ U16_MAX.
Definition is_grid (g : GridSize) : Prop := 1 ≤ cols g ≤ MAX_COLS ∧ 1 ≤ rows g ≤ MAX_ROWS.
#[export] Hint Unfold is_u16 is_u32 is_u64 : width.

(** Open a law: the encoder's output is known, and both sides are unfolded. *)
Ltac law :=
  lazymatch goal with |- Lawful (?F _) _ => unfold F | |- Lawful ?F _ => unfold F end; split; [intros v x Hok Hput; cbn [put get hint] in *|cbn [put get hint]].
Ltac wrote := match goal with H : Ok _ = Ok _ |- _ => injection H as <- end.
Tactic Notation "sizes" := split; [auto 20 with codec|]; split; [unfold put_u8, put_u16, put_u32, put_u64; lens; lia|].

Lemma range_new_spec o n r : range_new o n = Some r ↔ r = {| oldest := o; newest := n |} ∧ o ≠ 0 ∧ o ≤ n.
Proof.
  unfold range_new. destruct (Z.eqb_spec o 0), (Z.ltb_spec n o); simpl; split; intros; destruct_and?; simplify_eq; try done; try lia.
Qed.

Lemma grid_new_spec c r g :
  grid_new c r = Some g ↔ g = {| cols := c; rows := r |} ∧ 1 ≤ c ≤ MAX_COLS ∧ 1 ≤ r ≤ MAX_ROWS.
Proof.
  unfold grid_new, between. destruct (Z.leb_spec 1 c), (Z.leb_spec c MAX_COLS), (Z.leb_spec 1 r), (Z.leb_spec r MAX_ROWS);
    simpl; split; intros; destruct_and?; simplify_eq; try done; try lia.
Qed.

Lemma from_u64_spec v w : from_u64 v = Some w ↔ w = v ∧ v ≠ 0.
Proof. unfold from_u64. destruct (Z.eqb_spec v 0); split; intros; destruct_and?; simplify_eq; done. Qed.

#[export] Instance U16_lawful : Lawful U16 is_u16.
Proof. law; [wrote; sizes; by apply reads_u16|]. eapply canon_impl; [apply canon_u16|]. by intros v x _ [? ->]. Qed.
#[export] Instance U32_lawful : Lawful U32 is_u32.
Proof. law; [wrote; sizes; by apply reads_u32|]. eapply canon_impl; [apply canon_u32|]. by intros v x _ [? ->]. Qed.
#[export] Instance U64_lawful : Lawful U64 is_u64.
Proof. law; [wrote; sizes; by apply reads_u64|]. eapply canon_impl; [apply canon_u64|]. by intros v x _ [? ->]. Qed.
#[export] Instance Off_lawful : Lawful Off is_u64.
Proof. law; [wrote; sizes; by apply reads_u64|]. eapply canon_impl; [apply canon_u64|]. by intros v x _ [? ->]. Qed.

#[export] Instance I32_lawful : Lawful I32 (λ v, - 2 ^ 31 ≤ v < 2 ^ 31).
Proof.
  law.
  - wrote. sizes. eapply reads_last; [apply reads_take; by rewrite length_to_be|]. cbv zeta.
    pose proof (Z.mod_pos_bound v (2 ^ 32) ltac:(lia)). rewrite from_to_be by (simpl; lia).
    assert ((if v mod 2 ^ 32 <? 2 ^ 31 then v mod 2 ^ 32 else v mod 2 ^ 32 - 2 ^ 32) = v) as ->; [|apply reads_ret].
    destruct (Z.lt_ge_cases v 0).
    + assert (v mod 2 ^ 32 = v + 2 ^ 32) as -> by (symmetry; apply Z.mod_unique with (-1); lia). zcase; lia.
    + rewrite Z.mod_small by lia. zcase; lia.
  - eapply canon_impl; [repeat canon_step|]. intros v z Hz Hx. canon_inv.
    match goal with H : Forall is_byte ?x, L : len ?x = 4 |- _ => pose proof (from_be_bound x H) as Hb; pose proof (to_from_be x H) as Ht;
      assert (length x = 4)%nat as Hl by lia; rewrite Hl in Hb, Ht; simpl in Hb end.
    zcase; (split; [lia|]).
    + rewrite Z.mod_small by lia. by rewrite Ht.
    + match goal with |- context [from_be ?x - _] =>
        assert ((from_be x - 2 ^ 32) mod 2 ^ 32 = from_be x) as -> by (symmetry; apply Z.mod_unique with (-1); lia) end. by rewrite Ht.
Qed.

#[export] Instance Grid_lawful : Lawful Grid is_grid.
Proof.
  law.
  - wrote. sizes. destruct Hok. repeat reads_step; unfold MAX_COLS, MAX_ROWS in *; try lia. apply grid_new_spec. by destruct v.
  - eapply canon_impl; [repeat canon_step|]. intros v z Hz Hx. canon_inv.
    match goal with H : grid_new _ _ = _ |- _ => apply grid_new_spec in H as (-> & ? & ?) end. done.
Qed.

#[export] Instance NonZero64_lawful : Lawful NonZero64 (λ v, 0 < v ≤ U64_MAX).
Proof.
  law.
  - wrote. sizes. repeat reads_step; [lia|]. apply from_u64_spec. lia.
  - eapply canon_impl; [repeat canon_step|]. intros v z Hz Hx. canon_inv.
    match goal with H : from_u64 _ = _ |- _ => apply from_u64_spec in H as (-> & ?) end. split; [lia|done].
Qed.
#[export] Instance Seq_lawful : Lawful Seq (λ v, 0 < v ≤ U64_MAX) := NonZero64_lawful.
#[export] Instance Gen_lawful : Lawful Gen (λ v, 0 < v ≤ U64_MAX) := NonZero64_lawful.
#[export] Instance ScreenVer_lawful : Lawful ScreenVer (λ v, 0 < v ≤ U64_MAX) := NonZero64_lawful.

#[export] Instance OptSeq_lawful : Lawful OptSeq (λ o, ∀ v, o = Some v → 0 < v ≤ U64_MAX).
Proof.
  law.
  - wrote. sizes. assert (0 ≤ default 0 v ≤ U64_MAX) as Hv by (destruct v as [w|]; [specialize (Hok w eq_refl)|]; simpl; lia).
    eapply reads_last; [by apply reads_u64|]. assert (from_u64 (default 0 v) = v) as ->; [|apply reads_ret].
    destruct v as [w|]; [|done]. specialize (Hok w eq_refl). apply from_u64_spec. simpl. lia.
  - eapply canon_impl; [repeat canon_step|]. intros v z Hz Hx. canon_inv. split.
    + intros w Hw. apply from_u64_spec in Hw. lia.
    + unfold from_u64. zcase; subst; done.
Qed.

#[export] Instance StreamNum_lawful : Lawful StreamNum (λ v, 0 < v ≤ U32_MAX).
Proof.
  law.
  - wrote. sizes. repeat reads_step; [lia|]. apply from_u64_spec. lia.
  - eapply canon_impl; [repeat canon_step|]. intros v z Hz Hx. canon_inv.
    match goal with H : from_u64 _ = _ |- _ => apply from_u64_spec in H as (-> & ?) end. split; [lia|done].
Qed.

Lemma Bytes_lawful n : 0 ≤ n → Lawful (Bytes n) (is_array n).
Proof.
  intros Hn. law.
  - wrote. destruct Hok as [Hb Hl]. split; [done|]. split; [lia|]. by apply reads_take.
  - eapply canon_impl; [by apply canon_take|]. by intros v x Hx [-> ?].
Qed.
#[export] Instance Client_lawful : Lawful Client (is_array 16) := Bytes_lawful 16 ltac:(done).
#[export] Instance Session_lawful : Lawful Session (is_array 16) := Bytes_lawful 16 ltac:(done).
#[export] Instance Cap_lawful : Lawful Cap (is_array CAPABILITY_BYTES) := Bytes_lawful CAPABILITY_BYTES ltac:(done).

Definition is_offer (o : DatagramOffer) : Prop :=
  is_array 16 (ip o) ∧ is_u16 (port o) ∧ is_array 8 (cid o) ∧ is_array 32 (secret o).

#[export] Instance Offer_lawful : Lawful Offer (λ o, ∀ v, o = Some v → is_offer v).
Proof.
  law.
  - wrote. unfold OFFER_BYTES. destruct v as [o|]; simpl.
    + destruct (Hok o eq_refl) as ([? ?] & ? & [? ?] & [? ?]). sizes. unfold decode_offer, is_u16 in *.
      repeat reads_step; simpl; repeat reads_step; simpl; try lia. destruct o; apply reads_ret.
    + sizes. unfold decode_offer. repeat reads_step; [lia|]. apply reads_ret.
  - eapply canon_impl; [unfold decode_offer; repeat canon_step|]. intros v z Hz Hx. canon_inv.
    + split; [done|]. done.
    + split; [|done]. intros o [= <-]. by repeat split.
Qed.

#[export] Instance Cue_lawful : Lawful Cue (λ v, match v with Echoing room => is_u16 room | Opaque_ => True end).
Proof.
  law.
  - wrote. destruct v as [|room]; simpl; sizes; unfold decode_cue; repeat reads_step; simpl; repeat reads_step; (lia || done).
  - eapply canon_impl; [unfold decode_cue; repeat canon_step|]. intros v z Hz Hx. by canon_inv.
Qed.

#[export] Instance Detach_lawful : Lawful Detach (λ _, True).
Proof.
  law.
  - wrote. sizes. destruct v; repeat reads_step; (lia || done).
  - eapply canon_impl; [repeat canon_step|]. intros v z Hz Hx. canon_inv. split; [done|].
    match goal with H : detach_from_wire ?a = _ |- _ => unfold detach_from_wire in H end. repeat case_match; zbool; simplify_eq/=; done.
Qed.

#[export] Instance Reset_lawful : Lawful Reset_ (λ _, True).
Proof.
  law.
  - wrote. sizes. destruct v; repeat reads_step; (lia || done).
  - eapply canon_impl; [repeat canon_step|]. intros v z Hz Hx. canon_inv. split; [done|].
    match goal with H : reset_from_wire ?a = _ |- _ => unfold reset_from_wire in H end. repeat case_match; zbool; simplify_eq/=; done.
Qed.

(** Only the lowest bit of a flags byte may be set. *)
Lemma flags_low b : 0 ≤ b < 256 → Z.land b (U8_MAX - FORWARD_FIN) = 0 → b = 0 ∨ b = 1.
Proof.
  intros Hb Hl. pose proof (Z.land_ones b 1 ltac:(lia)) as Hm. change (Z.ones 1) with 1 in Hm.
  assert (Z.land b 255 = b) as H8 by (change 255 with (Z.ones 8); rewrite Z.land_ones by lia; apply Z.mod_small; lia).
  assert (b = Z.lor (Z.land b 254) (Z.land b 1)) as Hs.
  { rewrite <- Z.land_lor_distr_r. change (Z.lor 254 1) with 255. done. }
  change (U8_MAX - FORWARD_FIN) with 254 in Hl. rewrite Hl, Z.lor_0_l, Hm in Hs.
  pose proof (Z.mod_pos_bound b (2 ^ 1) ltac:(lia)). lia.
Qed.

#[export] Instance Fin_lawful : Lawful Fin (λ _, True).
Proof.
  law.
  - wrote. sizes. destruct v; simpl; repeat reads_step; (done || lia).
  - eapply canon_impl; [repeat canon_step|]. intros v z Hz Hx. canon_inv. split; [done|].
    match goal with H : Z.land ?a _ = 0 |- _ => destruct (flags_low a ltac:(lia) H) as [->| ->] end; done.
Qed.

Definition is_request (r : ResumeRequest) : Prop :=
  is_array 16 (session_id r) ∧ is_array CAPABILITY_BYTES (capability r) ∧
  0 < generation (confirmed_output r) ≤ U64_MAX ∧ is_u64 (next_off (confirmed_output r)) ∧ is_array 16 (client r).

#[export] Instance Request_lawful : Lawful Request is_request.
Proof.
  law.
  - wrote. destruct Hok as ([? ?] & [? ?] & ? & ? & [? ?]). unfold is_u64, CAPABILITY_BYTES in *. sizes.
    repeat reads_step; try lia; [apply from_u64_spec; split; [done|lia]|]. destruct v as [? ? [? ?] ?]. apply reads_ret.
  - eapply canon_impl; [unfold CAPABILITY_BYTES; repeat canon_step|]. intros v z Hz Hx. canon_inv.
    match goal with H : from_u64 _ = _ |- _ => apply from_u64_spec in H as (-> & ?) end.
    split; [|done]. repeat split; simpl; (done || lia).
Qed.

#[export] Instance Range_lawful : Lawful Range is_range.
Proof.
  law.
  - wrote. sizes. destruct Hok. repeat reads_step; try lia. apply range_new_spec. split; [by destruct v|lia].
  - eapply canon_impl; [repeat canon_step|]. intros v z Hz Hx. canon_inv.
    match goal with H : range_new _ _ = _ |- _ => apply range_new_spec in H as (-> & ? & ?) end.
    split; [split; simpl; lia|done].
Qed.

#[export] Instance Ver_lawful : Lawful Ver (λ v, MIN_PROTOCOL_VERSION ≤ v ≤ PROTOCOL_VERSION).
Proof.
  law; unfold MIN_PROTOCOL_VERSION, PROTOCOL_VERSION in *.
  - wrote. sizes. repeat reads_step; [lia|]. simpl. apply orb_false_intro; apply Z.ltb_ge; unfold MIN_PROTOCOL_VERSION, PROTOCOL_VERSION; lia.
  - eapply canon_impl; [repeat canon_step|]. intros v z Hz Hx. canon_inv. simpl in *.
    unfold MIN_PROTOCOL_VERSION, PROTOCOL_VERSION in *. split; [lia|done].
Qed.

#[export] Instance Refusal_lawful : Lawful Refusal (λ v, match v with RVersion s c => is_range s ∧ is_range c | _ => True end).
Proof.
  law.
  - wrote. destruct v as [s c| | | | | |]; simpl; [|sizes; repeat reads_step; simpl; try lia; apply reads_ret ..].
    destruct Hok as [[? ?] [? ?]]. sizes. repeat reads_step; simpl; [lia|].
    repeat reads_step; try lia; [apply range_new_spec; split; [by destruct s|lia]|apply range_new_spec; split; [by destruct c|lia]].
  - eapply canon_impl; [repeat canon_step|]. intros v z Hz Hx. canon_inv;
      repeat match goal with H : range_new _ _ = _ |- _ => apply range_new_spec in H as (-> & ? & ?) end;
      simpl; rewrite ?app_nil_r; (split; [|done]); [repeat split; simpl; lia|done..].
Qed.

(** What an encoder with checks and conversions wrote, and that it passed them. *)
Ltac puts :=
  repeat match goal with
  | H : (if ?b then Err _ else _) = Ok _ |- _ => destruct b eqn:?; [discriminate H|]
  | H : result_bind _ _ = Ok _ |- _ => apply result_bind_ok in H as (? & ? & H)
  | H : try_from _ _ _ = Ok _ |- _ => apply try_from_ok in H as [-> ?]
  end; zbool; try wrote.
Ltac run_put :=
  repeat match goal with
  | |- context [try_from ?m ?v ?e] => rewrite (proj2 (try_from_ok m v e v)) by (split; [done|lia]); cbn [result_bind]
  | |- context [if ?b then Err _ else _] => replace b with false by (symmetry; rewrite ?orb_false_iff, ?negb_false_iff, ?Z.ltb_ge, ?Z.eqb_neq; split_and?; (done || lia))
  end.

Lemma Chunk_lawful MAX : 0 ≤ MAX → Lawful (Chunk MAX) (Forall is_byte).
Proof.
  intros HM. law.
  - puts. sizes. repeat reads_step; [lia|apply Z.ltb_ge; lia|done].
  - eapply canon_impl; [repeat canon_step|]. intros v z Hz Hx. canon_inv. split; [done|]. run_put. done.
Qed.
#[export] Instance Chunk_input_lawful : Lawful (Chunk MAX_INPUT_CHUNK) (Forall is_byte) := Chunk_lawful MAX_INPUT_CHUNK ltac:(done).
#[export] Instance Chunk_forward_lawful : Lawful (Chunk MAX_FORWARD_CHUNK) (Forall is_byte) := Chunk_lawful MAX_FORWARD_CHUNK ltac:(done).
#[export] Instance Chunk_output_lawful : Lawful (Chunk MAX_OUTPUT_CHUNK) (Forall is_byte) := Chunk_lawful MAX_OUTPUT_CHUNK ltac:(done).

#[export] Instance Term_lawful : Lawful Term (λ v, is_str v ∧ valid_term v = true).
Proof.
  law.
  - destruct Hok as [Hs Hv]. puts. pose proof Hs as [Hb _]. sizes. pose proof Hv as Hv'. unfold valid_term in Hv'. zbool.
    repeat reads_step; try done; [lia|by apply Z.ltb_ge|by rewrite Hv].
  - eapply canon_impl; [repeat canon_step|]. intros v z Hz Hx. canon_inv. split; [done|]. unfold MAX_TERM in *. run_put. done.
Qed.

#[export] Instance Pattern_lawful : Lawful Pattern (λ v, is_str v ∧ 0 < len v ≤ MAX_PATTERN ∧ has_control v = false).
Proof.
  law; unfold MAX_PATTERN in *.
  - destruct Hok as (Hs & Hl & Hc). puts. pose proof Hs as [Hb _]. sizes.
    repeat reads_step; try done; [lia|by apply Z.ltb_ge|apply Z.eqb_neq; lia].
  - eapply canon_impl; [repeat canon_step|]. intros v z Hz Hx. canon_inv. split; [split_and!; (done || lia)|].
    run_put. done.
Qed.

Definition is_var (nv : list Z * list Z) : Prop :=
  is_str nv.1 ∧ is_str nv.2 ∧ valid_env_name nv.1 = true ∧ has_control nv.2 = false ∧ len nv.1 ≤ U8_MAX.

Lemma encode_var_spec nv x :
  is_str nv.1 → is_str nv.2 → encode_var nv = Ok x →
  is_var nv ∧ len nv.2 ≤ U16_MAX ∧ x = put_u8 (len nv.1) ++ nv.1 ++ put_u16 (len nv.2) ++ nv.2.
Proof. intros H1 H2 Hput. unfold encode_var in Hput. puts. by repeat split; try apply H1; try apply H2. Qed.

Lemma var_size_nonneg env : 0 ≤ sum_by var_size env.
Proof. apply sum_by_nonneg, Forall_forall. intros nv _. unfold var_size. lia. Qed.

Lemma vars_reads env total x :
  Forall (λ nv, is_str nv.1 ∧ is_str nv.2) env → each encode_var env = Ok x →
  total + sum_by var_size env ≤ MAX_ENV → reads (decode_vars (length env) total) x env.
Proof.
  intros Hok. revert total x. induction Hok as [|nv env [H1 H2] Hok IH]; intros total x Hx Ht; cbn [each length decode_vars] in *.
  { injection Hx as <-. apply reads_ret. }
  apply result_bind_ok in Hx as (y & Hy & Hx). apply result_bind_ok in Hx as (z & Hz & Hx). injection Hx as <-.
  destruct (encode_var_spec nv y H1 H2 Hy) as ((_ & _ & Hv & Hc & Hl) & Hl2 & ->).
  pose proof (var_size_nonneg env). simpl in Ht. unfold var_size at 1 in Ht. rewrite <- !app_assoc.
  repeat reads_step; try done; try lia.
  - apply orb_false_intro; [apply Z.ltb_ge; lia|by rewrite Hv].
  - apply IH; [done|lia].
  - destruct nv. apply reads_ret.
Qed.

Lemma vars_canon n total :
  canon (decode_vars n total) (λ env x, length env = n ∧ Forall is_var env ∧ each encode_var env = Ok x ∧
    (env ≠ [] → total + sum_by var_size env ≤ MAX_ENV)).
Proof.
  revert total. induction n as [|n IH]; intros total; cbn [decode_vars].
  { eapply canon_impl; [apply canon_ret|]. by intros env x _ [-> ->]. }
  eapply canon_impl; [repeat first [canon_step|apply IH]|]. intros v z Hz Hx. canon_inv.
  cbn [length]. split; [lia|].
  match goal with |- Forall is_var ((?a, ?b) :: ?e) ∧ _ =>
    assert (is_var (a, b)) as Hvar by (unfold is_var; cbn [fst snd]; split_and!; (done || lia));
    assert (encode_var (a, b) = Ok (put_u8 (len a) ++ a ++ put_u16 (len b) ++ b)) as Hev end.
  { unfold encode_var. cbn [fst snd]. run_put. done. }
  split; [by constructor|]. cbn [each sum_by foldr]. rewrite Hev. cbn [result_bind].
  match goal with H : each encode_var _ = Ok _ |- _ => rewrite H end. cbn [result_bind]. rewrite <- !app_assoc.
  split; [done|]. intros _. unfold var_size at 1. cbn [fst snd].
  match goal with H : ?e ≠ [] → _ |- context [foldr _ _ ?e] => destruct e; [simpl; lia|specialize (H ltac:(done)); unfold sum_by in H; lia] end.
Qed.

#[export] Instance Env_lawful : Lawful Env (Forall (λ nv, is_str nv.1 ∧ is_str nv.2)).
Proof.
  law; unfold encode_env, decode_env in *.
  - puts. match goal with H : each encode_var _ = Ok _ |- _ => rename H into He end. unfold MAX_ENV_VARS in *.
    assert (∀ nv y, nv ∈ v → encode_var nv = Ok y → Forall is_byte y ∧ len y ≤ var_size nv) as Hev.
    { intros nv y Hin Hy. rewrite Forall_forall in Hok. destruct (Hok nv Hin) as [H1 H2].
      destruct (encode_var_spec nv y H1 H2 Hy) as (_ & _ & ->). destruct H1, H2. split; [auto 20 with codec|].
      unfold var_size, put_u8, put_u16. lens. lia. }
    split; [apply Forall_app; split; [auto with codec|eapply each_bytes; [|done]; intros; by eapply Hev]|].
    split.
    + pose proof (each_size encode_var var_size v _ (λ a y Hin Hy, proj2 (Hev a y Hin Hy)) He). unfold put_u8. lens. lia.
    + repeat reads_step; [lia|apply Z.ltb_ge; lia|]. rewrite Nat2Z.id. by apply vars_reads.
  - eapply canon_impl; [repeat first [canon_step|apply vars_canon]|]. intros v z Hz Hx. canon_inv.
    match goal with H : Forall is_var ?v |- _ => rename H into Hvars end.
    split; [eapply list.Forall_impl; [exact Hvars|]; by intros nv (? & ? & _)|].
    assert (sum_by var_size v ≤ MAX_ENV) as Hsum.
    { destruct v as [|nv v]; [done|]. match goal with H : _ ≠ [] → _ |- _ => specialize (H ltac:(done)) end. lia. }
    unfold MAX_ENV_VARS in *. run_put. match goal with H : each encode_var _ = Ok _ |- _ => rewrite H end. cbn [result_bind].
    do 3 f_equal. lia.
Qed.

Lemma encode_word_spec w x : encode_word w = Ok x → len w ≤ U16_MAX ∧ x = put_u16 (len w) ++ w.
Proof. intros Hput. unfold encode_word in Hput. puts. done. Qed.

Lemma words_reads command total x :
  Forall is_str command → existsb (λ w, len w =? 0) command = false → each encode_word command = Ok x →
  total + sum_by word_size command ≤ MAX_COMMAND → reads (decode_words (length command) total) x command.
Proof.
  intros Hok. revert total x. induction Hok as [|w command Hw Hok IH]; intros total x Hne Hx Ht; cbn [each length decode_words existsb] in *.
  { injection Hx as <-. apply reads_ret. }
  apply result_bind_ok in Hx as (y & Hy & Hx). apply result_bind_ok in Hx as (z & Hz & Hx). injection Hx as <-.
  destruct (encode_word_spec w y Hy) as (Hl & ->). apply orb_false_elim in Hne as [Hw0 Hne].
  assert (0 ≤ sum_by word_size command) by (apply sum_by_nonneg, Forall_forall; intros; unfold word_size; lia).
  simpl in Ht. unfold word_size at 1 in Ht. rewrite <- !app_assoc. repeat reads_step; try done; try lia.
  apply IH; [done|done|lia].
Qed.

Lemma words_canon n total :
  canon (decode_words n total) (λ command x, length command = n ∧ Forall is_str command ∧
    existsb (λ w, len w =? 0) command = false ∧ each encode_word command = Ok x ∧
    (command ≠ [] → total + sum_by word_size command ≤ MAX_COMMAND)).
Proof.
  revert total. induction n as [|n IH]; intros total; cbn [decode_words].
  { eapply canon_impl; [apply canon_ret|]. by intros env x _ [-> ->]. }
  eapply canon_impl; [repeat first [canon_step|apply IH]|]. intros v z Hz Hx. canon_inv.
  cbn [length]. split; [lia|]. split; [by constructor|]. cbn [existsb each sum_by foldr].
  split; [apply orb_false_intro; [by apply Z.eqb_neq|done]|].
  match goal with |- context [encode_word ?w] =>
    assert (encode_word w = Ok (put_u16 (len w) ++ w)) as -> by (unfold encode_word; run_put; done) end. cbn [result_bind].
  match goal with H : each encode_word _ = Ok _ |- _ => rewrite H end. cbn [result_bind]. rewrite <- !app_assoc.
  split; [done|]. intros _. unfold word_size at 1.
  match goal with H : ?e ≠ [] → _ |- context [foldr _ _ ?e] => destruct e; [simpl; lia|specialize (H ltac:(done)); unfold sum_by in H; lia] end.
Qed.

#[export] Instance Command_lawful : Lawful Command (Forall is_str).
Proof.
  law; unfold encode_command, decode_command in *.
  - puts. match goal with H : each encode_word _ = Ok _ |- _ => rename H into He end. unfold MAX_COMMAND_WORDS in *.
    assert (∀ w y, w ∈ v → encode_word w = Ok y → Forall is_byte y ∧ len y ≤ word_size w) as Hew.
    { intros w y Hin Hy. rewrite Forall_forall in Hok. destruct (Hok w Hin) as [H1 _].
      destruct (encode_word_spec w y Hy) as (_ & ->). split; [auto 20 with codec|]. unfold word_size, put_u16. lens. lia. }
    split; [apply Forall_app; split; [auto with codec|eapply each_bytes; [|done]; intros; by eapply Hew]|]. split.
    + pose proof (each_size encode_word word_size v _ (λ a y Hin Hy, proj2 (Hew a y Hin Hy)) He). unfold put_u8. lens. lia.
    + repeat reads_step; [lia|apply Z.ltb_ge; lia|]. rewrite Nat2Z.id. by apply words_reads.
  - eapply canon_impl; [repeat first [canon_step|apply words_canon]|]. intros v z Hz Hx. canon_inv.
    split; [done|]. assert (sum_by word_size v ≤ MAX_COMMAND) as Hsum.
    { destruct v as [|nv v]; [done|]. match goal with H : _ ≠ [] → _ |- _ => specialize (H ltac:(done)) end. lia. }
    unfold MAX_COMMAND_WORDS in *. run_put. match goal with H : each encode_word _ = Ok _ |- _ => rewrite H end. cbn [result_bind].
    do 3 f_equal. lia.
Qed.

Definition is_target (t : ForwardTarget) : Prop := is_str (host t) ∧ is_u16 (target_port t).

#[export] Instance Target_lawful :
  Lawful Target (λ t, is_target t ∧ has_control (host t) = false ∧ 0 < len (host t) ≤ MAX_FORWARD_HOST ∧ target_port t ≠ 0).
Proof.
  law; unfold encode_forward_target, decode_forward_target, MAX_FORWARD_HOST in *.
  - destruct Hok as ([Hs Hp] & Hc & Hl & Hz). puts. pose proof Hs as [Hb _]. unfold is_u16 in Hp. sizes.
    repeat reads_step; try done; try lia. destruct v. apply reads_ret.
  - eapply canon_impl; [repeat canon_step|]. intros v z Hz Hx. canon_inv. simpl.
    split; [unfold is_target, is_u16; simpl; split_and!; (done || lia)|]. run_put. done.
Qed.

(** A counted list is as lawful as its elements. *)
Lemma counted_lawful {A} max (f : A → result (list Z) EncodeError) (g : dec A) (size : A → Z) ok :
  0 ≤ max ≤ U16_MAX →
  (∀ a x, ok a → f a = Ok x → Forall is_byte x ∧ len x ≤ size a ∧ reads g x a) →
  canon g (λ a x, ok a ∧ f a = Ok x) →
  Lawful {| hint := λ v, 2 + sum_by size v; put := put_counted max f; get := get_counted max g |} (Forall ok).
Proof.
  intros Hmax Hf Hg. split; cbn [put get hint]; unfold put_counted, get_counted.
  - intros v x Hok Hput. rewrite Forall_forall in Hok. puts.
    match goal with H : each f v = Ok _ |- _ => rename H into He end.
    split; [apply Forall_app; split; [auto with codec|eapply each_bytes; [|done]; intros a y Hin Hy; by apply (Hf a y (Hok a Hin))]|].
    split.
    + pose proof (each_size f size v _ (λ a y Hin Hy, proj1 (proj2 (Hf a y (Hok a Hin) Hy))) He). unfold put_u16. lens. lia.
    + repeat reads_step; [lia|apply Z.ltb_ge; lia|]. rewrite Nat2Z.id. eapply reads_times; [|done].
      intros a y Hin Hy. by apply (Hf a y (Hok a Hin)).
  - eapply canon_impl; [repeat first [canon_step|eapply canon_times; exact Hg]|]. intros v z Hz Hx. canon_inv.
    split; [done|]. run_put. match goal with H : each f _ = Ok _ |- _ => rewrite H end. cbn [result_bind]. do 3 f_equal. lia.
Qed.

Definition is_summary (s : SessionSummary) : Prop :=
  is_array 16 (s_session_id s) ∧ is_grid (size s) ∧ is_u16 (attachments s) ∧ is_u64 (active_unix s) ∧
  is_str (command s) ∧ len (command s) ≤ MAX_COMMAND ∧ has_control (command s) = false.

#[export] Instance Sessions_lawful : Lawful Sessions (Forall is_summary).
Proof.
  apply counted_lawful; [done| |].
  - intros s x Hok Hput. destruct Hok as ([? ?] & [? ?] & ? & ? & Hs & ? & ?). unfold put_session in Hput. puts.
    pose proof Hs as [Hb _]. unfold is_u16, is_u64, MAX_COMMAND, MAX_COLS, MAX_ROWS in *. sizes. unfold get_session.
    repeat reads_step; try done; try (unfold MAX_COMMAND; lia).
    + apply grid_new_spec. unfold MAX_COLS, MAX_ROWS. split; [done|lia].
    + destruct s as [? [] ? ? ?]. apply reads_ret.
  - eapply canon_impl; [unfold get_session; repeat canon_step|]. intros v z Hz Hx. canon_inv.
    match goal with H : grid_new _ _ = _ |- _ => apply grid_new_spec in H as (-> & ? & ?) end.
    unfold MAX_COMMAND in *. split; [unfold is_summary, is_array, is_u16, is_u64, MAX_COMMAND; simpl; split_and!; (done || lia)|].
    unfold put_session, MAX_COMMAND. simpl. run_put. done.
Qed.

#[export] Instance Name_lawful : Lawful Name (λ v, is_str v ∧ len v ≤ MAX_SESSION_NAME ∧ has_control v = false).
Proof.
  law; unfold MAX_SESSION_NAME in *.
  - destruct Hok as (Hs & Hl & Hc). puts. pose proof Hs as [Hb _]. sizes.
    repeat reads_step; try done; [lia|by apply Z.ltb_ge].
  - eapply canon_impl; [repeat canon_step|]. intros v z Hz Hx. canon_inv. split; [split_and!; (done || lia)|].
    run_put. done.
Qed.

Definition is_name (n : SessionName) : Prop :=
  is_array 16 (n_session_id n) ∧ is_str (name n) ∧ len (name n) ≤ MAX_SESSION_NAME ∧ has_control (name n) = false.

#[export] Instance Names_lawful : Lawful Names (Forall (λ n, is_name n ∧ 0 < len (name n))).
Proof.
  apply counted_lawful; [done| |].
  - intros s x [([? ?] & Hs & ? & ?) Hne] Hput. unfold put_name in Hput.
    destruct (len (name s) =? 0) eqn:E0; [done|]. apply result_bind_ok in Hput as (y & Hy & Hput). injection Hput as <-.
    destruct (field_writes (F := Name) (name s) y) as (B1 & B2 & B3); [done|done|]. cbn [hint Name] in B2.
    split; [auto 20 with codec|]. split; [lens; lia|]. unfold get_name.
    eapply reads_bind; [by apply reads_take|]. eapply reads_last; [exact B3|]. repeat reads_step; [done|]. destruct s; apply reads_ret.
  - eapply canon_impl; [unfold get_name; repeat first [apply field_canon|canon_step]|]. intros v z Hz Hx. canon_inv.
    split; [unfold is_name, is_array; simpl; split_and!; (done || lia)|]. unfold put_name. cbn [name n_session_id].
    run_put. match goal with H : put Name _ = Ok _ |- _ => rewrite H end. done.
Qed.

Definition is_match (m : SearchMatch) : Prop :=
  is_array 16 (m_session_id m) ∧ is_u32 (distance m) ∧ is_str (line m) ∧ len (line m) ≤ MAX_MATCH_LINE ∧
  has_control (line m) = false.

#[export] Instance Matches_lawful : Lawful Matches (Forall is_match).
Proof.
  apply counted_lawful; [done| |].
  - intros s x Hok Hput. destruct Hok as ([? ?] & ? & Hs & ? & ?). unfold put_match in Hput. puts.
    pose proof Hs as [Hb _]. unfold is_u32, MAX_MATCH_LINE in *. sizes. unfold get_match, MAX_MATCH_LINE.
    repeat reads_step; try done; try lia. destruct s; apply reads_ret.
  - eapply canon_impl; [unfold get_match; repeat canon_step|]. intros v z Hz Hx. canon_inv. unfold MAX_MATCH_LINE in *.
    split; [unfold is_match, is_array, is_u32, MAX_MATCH_LINE; simpl; split_and!; (done || lia)|].
    unfold put_match, MAX_MATCH_LINE. simpl. run_put. done.
Qed.

Definition is_run (r : Sack.SackRun) : Prop := 0 < Sack.gap r ≤ U32_MAX ∧ 0 < Sack.run r ≤ U32_MAX.

#[export] Instance Sack_lawful : Lawful SackField (λ v, Forall is_run v ∧ len v ≤ MAX_ACK_RUNS).
Proof.
  law; unfold MAX_ACK_RUNS in *.
  - destruct Hok as [Hok Hl]. puts. match goal with H : each put_run v = Ok _ |- _ => rename H into He end.
    rewrite Forall_forall in Hok.
    assert (∀ a y, a ∈ v → put_run a = Ok y → Forall is_byte y ∧ len y ≤ 8 ∧ reads get_run y a) as Hr.
    { intros a y Hin Hy. destruct (Hok a Hin). unfold put_run in Hy. injection Hy as <-. sizes. unfold get_run.
      repeat reads_step; try lia; [apply from_u64_spec; split; [done|lia] ..|]. destruct a. apply reads_ret. }
    split; [apply Forall_app; split; [auto with codec|eapply each_bytes; [|done]; intros; by eapply Hr]|]. split.
    + pose proof (each_size put_run (λ _, 8) v _ (λ a y Hin Hy, proj1 (proj2 (Hr a y Hin Hy))) He) as Hs.
      assert (∀ l : list Sack.SackRun, sum_by (λ _, 8) l = 8 * len l) as Hsum
        by (induction l as [|? ? IHl]; simpl in *; [done|rewrite IHl; lia]).
      rewrite Hsum in Hs. unfold put_u8. lens. lia.
    + repeat reads_step; [lia|apply Z.ltb_ge; lia| |].
      * rewrite Nat2Z.id. eapply reads_times; [|done]. intros; by eapply Hr.
      * unfold Sack.from_slice, MAX_ACK_RUNS. by rewrite (proj2 (Z.leb_le _ _)) by lia.
  - assert (canon get_run (λ a x, is_run a ∧ put_run a = Ok x)) as Hg.
    { eapply canon_impl; [unfold get_run; repeat canon_step|]. intros v z Hz Hx. canon_inv.
      repeat match goal with H : from_u64 _ = _ |- _ => apply from_u64_spec in H as (-> & ?) end.
      split; [split; simpl; lia|done]. }
    eapply canon_impl; [repeat first [canon_step|eapply canon_times; exact Hg]|]. intros v z Hz Hx. canon_inv.
    match goal with H : Sack.from_slice _ = Some _ |- _ => unfold Sack.from_slice, MAX_ACK_RUNS in H; case_match; simplify_eq end.
    zbool. split; [done|]. run_put. match goal with H : each put_run _ = Ok _ |- _ => rewrite H end. cbn [result_bind]. do 3 f_equal. lia.
Qed.

End Fields.
