(* ===== verification/Message.v ===== *)
(** * Client messages and frames ([crates/proto/src/lib.rs], the [messages!] macro at
    [ClientMessage], and the frame around a message)

    [encode] and [decode] are what the macro generates from the list of messages: the tag, then
    each field in wire order under the codec its name is bound to.  A reader is the bytes it will
    give before it is closed.

    The theorems show that a message decodes to what was encoded, whatever a later version
    appended; that nothing decodes which the encoder would refuse, so no string reaches a
    terminal, an environment or a resolver that a peer could not have sent lawfully; that every
    client message fits the bound a daemon reads by; and that frames written one after the other
    are read back one by one. *)

From S2P Require Import Prelude Send Codec Fields.

Module Message.
Import Codec Fields.

Definition LENGTH_PREFIX : Z := 4.
Definition CLIENT_TAG_BASE : Z := 1.

Inductive ClientMessage :=
| Hello (versions : VersionRange) (size : GridSize) (term : list Z) (env : list (list Z * list Z))
    (command : list (list Z)) (client : list Z)
| HelloForward (versions : VersionRange) (client : list Z)
| Resume (versions : VersionRange) (seq : Z) (request : ResumeRequest)
| Input (seq : Z) (bytes : list Z)
| Resize (seq : Z) (size : GridSize)
| RequestRepaint (seq : Z)
| ScreenAck (generation version : Z)
| Close (seq : Z)
| Detach (seq : Z)
| Pong (token consumed : Z)
| Consumed (off : Z)
| ListSessions
| KillSession (session_id : list Z)
| Search (pattern : list Z) (limit : Z)
| ForwardOpen (seq stream : Z) (target : ForwardTarget)
| ForwardData (stream off : Z) (fin : bool) (bytes : list Z)
| ForwardAck (stream off window : Z) (held : list Sack.SackRun)
| ForwardReset (stream : Z) (reason : ForwardResetReason)
| RenameSession (session_id name : list Z)
| ListNames.

(** [ClientTag::V as u8], the position of the message in the list. *)
Definition client_tag (m : ClientMessage) : Z :=
  match m with
  | Hello _ _ _ _ _ _ => 0 | HelloForward _ _ => 1 | Resume _ _ _ => 2 | Input _ _ => 3 | Resize _ _ => 4
  | RequestRepaint _ => 5 | ScreenAck _ _ => 6 | Close _ => 7 | Detach _ => 8 | Pong _ _ => 9
  | Consumed _ => 10 | ListSessions => 11 | KillSession _ => 12 | Search _ _ => 13 | ForwardOpen _ _ _ => 14
  | ForwardData _ _ _ _ => 15 | ForwardAck _ _ _ _ => 16 | ForwardReset _ _ => 17 | RenameSession _ _ => 18
  | ListNames => 19
  end.

(** [put_field!] and [get_field!] of a field appended in version [since]. *)
Definition put_since {V} (spoken since_ : Z) (F : Field V) (v : V) : result (list Z) EncodeError :=
  if since_ <=? spoken then put F v else Ok [].
Definition get_since {V} (spoken since_ : Z) (F : Field V) (d : V) : dec V := λ c,
  if (spoken <? since_) || exhausted c then Ok (d, c) else get F c.

(** The fields in wire order, each with [?]. *)
Fixpoint in_order (l : list (result (list Z) EncodeError)) : result (list Z) EncodeError :=
  match l with
  | [] => Ok []
  | r :: l => let? x := r in let? y := in_order l in Ok (x ++ y)
  end.

Definition put_fields (m : ClientMessage) (spoken : Z) : result (list Z) EncodeError :=
  in_order match m with
  | Hello versions size term env command client =>
      [put Range versions; put Grid size; put Term term; put Env env; put Command command; put Client client]
  | HelloForward versions client => [put Range versions; put Client client]
  | Resume versions seq request => [put Range versions; put Seq seq; put Request request]
  | Input seq bytes => [put Seq seq; put (Chunk MAX_INPUT_CHUNK) bytes]
  | Resize seq size => [put Seq seq; put Grid size]
  | RequestRepaint seq => [put Seq seq]
  | ScreenAck generation version => [put Gen generation; put ScreenVer version]
  | Close seq => [put Seq seq]
  | Detach seq => [put Seq seq]
  | Pong token consumed => [put U64 token; put Off consumed]
  | Consumed off => [put Off off]
  | ListSessions => []
  | KillSession session_id => [put Session session_id]
  | Search pattern limit => [put Pattern pattern; put U16 limit]
  | ForwardOpen seq stream target => [put Seq seq; put StreamNum stream; put Target target]
  | ForwardData stream off fin bytes => [put StreamNum stream; put Off off; put Fin fin; put (Chunk MAX_FORWARD_CHUNK) bytes]
  | ForwardAck stream off window held => [put StreamNum stream; put Off off; put U32 window; put_since spoken 14 SackField held]
  | ForwardReset stream reason => [put StreamNum stream; put Reset_ reason]
  | RenameSession session_id name => [put Session session_id; put Name name]
  | ListNames => []
  end.

(** [seal_frame] over the prefix [open_frame_into] reserved. *)
Definition seal_frame (frame : list Z) : result (list Z) EncodeError :=
  let length := len frame - LENGTH_PREFIX in
  if U32_MAX <? length then Err EOversize
  else if (length =? 0) || (MAX_FRAME <? length) then Err EOversize
  else Ok (put_u32 length ++ drop (Z.to_nat LENGTH_PREFIX) frame).

Definition encode (m : ClientMessage) (spoken : Z) : result (list Z) EncodeError :=
  let? fields := put_fields m spoken in
  seal_frame (replicate (Z.to_nat LENGTH_PREFIX) 0 ++ put_u8 (client_tag m + CLIENT_TAG_BASE) ++ fields).

(** The fields of the message a tag names. *)
Definition get_fields (tag spoken : Z) : dec ClientMessage :=
  if tag =? 1 then
    let! versions := get Range in let! size := get Grid in let! term := get Term in let! env := get Env in
    let! command := get Command in let! client := get Client in dret (Hello versions size term env command client)
  else if tag =? 2 then let! versions := get Range in let! client := get Client in dret (HelloForward versions client)
  else if tag =? 3 then
    let! versions := get Range in let! seq := get Seq in let! request := get Request in dret (Resume versions seq request)
  else if tag =? 4 then let! seq := get Seq in let! bytes := get (Chunk MAX_INPUT_CHUNK) in dret (Input seq bytes)
  else if tag =? 5 then let! seq := get Seq in let! size := get Grid in dret (Resize seq size)
  else if tag =? 6 then let! seq := get Seq in dret (RequestRepaint seq)
  else if tag =? 7 then let! generation := get Gen in let! version := get ScreenVer in dret (ScreenAck generation version)
  else if tag =? 8 then let! seq := get Seq in dret (Close seq)
  else if tag =? 9 then let! seq := get Seq in dret (Detach seq)
  else if tag =? 10 then let! token := get U64 in let! consumed := get Off in dret (Pong token consumed)
  else if tag =? 11 then let! off := get Off in dret (Consumed off)
  else if tag =? 12 then dret ListSessions
  else if tag =? 13 then let! session_id := get Session in dret (KillSession session_id)
  else if tag =? 14 then let! pattern := get Pattern in let! limit := get U16 in dret (Search pattern limit)
  else if tag =? 15 then
    let! seq := get Seq in let! stream := get StreamNum in let! target := get Target in dret (ForwardOpen seq stream target)
  else if tag =? 16 then
    let! stream := get StreamNum in let! off := get Off in let! fin := get Fin in
    let! bytes := get (Chunk MAX_FORWARD_CHUNK) in dret (ForwardData stream off fin bytes)
  else if tag =? 17 then
    let! stream := get StreamNum in let! off := get Off in let! window := get U32 in
    let! held := get_since spoken 14 SackField [] in dret (ForwardAck stream off window held)
  else if tag =? 18 then let! stream := get StreamNum in let! reason := get Reset_ in dret (ForwardReset stream reason)
  else if tag =? 19 then let! session_id := get Session in let! name := get Name in dret (RenameSession session_id name)
  else if tag =? 20 then dret ListNames
  else dfail (BadTag tag).

Definition decode (payload : list Z) (spoken : Z) : result ClientMessage DecodeError :=
  match (let! tag := u8 in get_fields tag spoken) (cursor_new payload) with
  | Ok (m, _) => Ok m
  | Err e => Err e
  end.

(** ** Frames off a stream *)

(** [read_exact] of a stream that ends after [input]. *)
Definition read_exact (n : Z) (input : list Z) : result (list Z * list Z) DecodeError :=
  if n <=? len input then Ok (take (Z.to_nat n) input, drop (Z.to_nat n) input) else Err Truncated.

(** [read_frame]: the payload and what the stream still holds. *)
Definition read_frame (limit : Z) (input : list Z) : result (list Z * list Z) DecodeError :=
  let? (header, input) := read_exact 4 input in
  let length := from_be header in
  if (length =? 0) || (limit <? length) then Err (Oversize length limit)
  else read_exact length input.

(** A daemon's loop over a connection: [n] messages at [spoken]. *)
Fixpoint read_messages (n : nat) (spoken : Z) (input : list Z) : result (list ClientMessage * list Z) DecodeError :=
  match n with
  | O => Ok ([], input)
  | S n =>
      let? (payload, input) := read_frame MAX_CLIENT_FRAME input in
      let? m := decode payload spoken in
      let? (ms, input) := read_messages n spoken input in
      Ok (m :: ms, input)
  end.

(** ** What a message may hold *)

Definition is_seq (v : Z) : Prop := 0 < v ≤ U64_MAX.
Definition is_stream (v : Z) : Prop := 0 < v ≤ U32_MAX.

(** Every field is one its Rust type can hold and its codec lets through. *)
Definition is_message (m : ClientMessage) : Prop :=
  match m with
  | Hello versions size term env command client =>
      is_range versions ∧ is_grid size ∧ (is_str term ∧ valid_term term = true) ∧
      Forall (λ nv, is_str nv.1 ∧ is_str nv.2) env ∧ Forall is_str command ∧ is_array 16 client
  | HelloForward versions client => is_range versions ∧ is_array 16 client
  | Resume versions seq request => is_range versions ∧ is_seq seq ∧ is_request request
  | Input seq bytes => is_seq seq ∧ Forall is_byte bytes
  | Resize seq size => is_seq seq ∧ is_grid size
  | RequestRepaint seq | Close seq | Detach seq => is_seq seq
  | ScreenAck generation version => is_seq generation ∧ is_seq version
  | Pong token consumed => is_u64 token ∧ is_u64 consumed
  | Consumed off => is_u64 off
  | ListSessions | ListNames => True
  | KillSession session_id => is_array 16 session_id
  | Search pattern limit =>
      (is_str pattern ∧ 0 < len pattern ≤ MAX_PATTERN ∧ has_control pattern = false) ∧ is_u16 limit
  | ForwardOpen seq stream target =>
      is_seq seq ∧ is_stream stream ∧ is_target target ∧ has_control (host target) = false ∧
      0 < len (host target) ≤ MAX_FORWARD_HOST ∧ target_port target ≠ 0
  | ForwardData stream off _ bytes => is_stream stream ∧ is_u64 off ∧ Forall is_byte bytes
  | ForwardAck stream off window held =>
      is_stream stream ∧ is_u64 off ∧ is_u32 window ∧ Forall is_run held ∧ len held ≤ MAX_ACK_RUNS
  | ForwardReset stream _ => is_stream stream
  | RenameSession session_id name =>
      is_array 16 session_id ∧ is_str name ∧ len name ≤ MAX_SESSION_NAME ∧ has_control name = false
  end.

(** ** Lemmas *)

Lemma field_reads {V} (F : Field V) ok `{!Lawful F ok} v x : ok v → put F v = Ok x → reads (get F) x v.
Proof. intros Hv Hx. by apply (field_writes v x). Qed.
Lemma field_bytes {V} (F : Field V) ok `{!Lawful F ok} v x : ok v → put F v = Ok x → Forall is_byte x.
Proof. intros Hv Hx. by apply (field_writes v x). Qed.
Lemma field_size {V} (F : Field V) ok `{!Lawful F ok} v x : ok v → put F v = Ok x → len x ≤ hint F v.
Proof. intros Hv Hx. by apply (field_writes v x). Qed.

Lemma since_reads {V} (F : Field V) spoken since_ d x v :
  since_ ≤ spoken → x ≠ [] → reads (get F) x v → reads (get_since spoken since_ F d) x v.
Proof.
  intros Hs Hx Hr c y Hc Hrest. unfold get_since. rewrite (proj2 (Z.ltb_ge _ _)) by done.
  destruct (exhausted c) eqn:E; [|by apply Hr]. unfold exhausted in E. zbool. unfold rest in Hrest.
  rewrite drop_ge in Hrest by (destruct Hc; lia). by destruct x.
Qed.

Lemma canon_since {V} (F : Field V) ok `{!Lawful F ok} spoken since_ d :
  canon (get_since spoken since_ F d) (λ v x, ok v ∧ put F v = Ok x ∧ since_ ≤ spoken ∨ v = d ∧ x = []).
Proof.
  intros c v c' Hc H. unfold get_since in H. destruct (Z.ltb_spec spoken since_) as [Hs|Hs]; simpl in H.
  - injection H as <- <-. exists []. split_and!; try done. by right.
  - destruct (exhausted c); [injection H as <- <-; exists []; split_and!; try done; by right|].
    destruct (field_canon c v c' Hc H) as (x & ? & ? & ? & ? & ?). exists x. split_and!; try done. left. done.
Qed.

(** Fields the encoder accepted are no longer than what bounds them. *)
Lemma put_sizes :
  (∀ v x, is_str v ∧ valid_term v = true → put Term v = Ok x → len x ≤ 66) ∧
  (∀ v x, Forall (λ nv, is_str nv.1 ∧ is_str nv.2) v → put Env v = Ok x → len x ≤ 4097) ∧
  (∀ v x, Forall is_str v → put Command v = Ok x → len x ≤ 129) ∧
  (∀ M v x, put (Chunk M) v = Ok x → len x ≤ 4 + M).
Proof.
  split_and!; intros *.
  - intros Hok Hput. pose proof (field_size Term _ _ _ Hok Hput) as Hs. cbn [hint Term] in Hs.
    destruct Hok as [_ Hv]. unfold valid_term, MAX_TERM in Hv. zbool. lia.
  - intros Hok Hput. pose proof (field_size Env _ _ _ Hok Hput) as Hs. cbn [hint put Env] in *. unfold encode_env, MAX_ENV in Hput. puts; lia.
  - intros Hok Hput. pose proof (field_size Command _ _ _ Hok Hput) as Hs. cbn [hint put Command] in *.
    unfold encode_command, MAX_COMMAND in Hput. puts; lia.
  - intros Hput. cbn [put Chunk] in Hput. puts. unfold put_u32. lens. lia.
Qed.

(** What fields in order wrote. *)
Ltac orders :=
  repeat match goal with
  | H : in_order _ = Ok _ |- _ => cbn [in_order] in H
  | H : result_bind _ _ = Ok _ |- _ => apply result_bind_ok in H as (? & ? & H)
  | H : Ok _ = Ok _ |- _ => injection H as <-
  end.
Ltac tags :=
  repeat match goal with
  | |- context [?a =? ?b] => let r := eval vm_compute in (a =? b) in change (a =? b) with r; cbv iota
  end.
Ltac holds := cbv beta; unfold is_seq, is_stream in *; first [assumption|exact I|tauto].

Lemma fields_reads m spoken x :
  is_message m → 14 ≤ spoken → put_fields m spoken = Ok x →
  reads (get_fields (client_tag m + CLIENT_TAG_BASE) spoken) x m.
Proof.
  intros Hm Hs Hx. unfold put_fields in Hx. unfold get_fields.
  destruct m; cbn [client_tag is_message] in *; tags; orders;
    repeat first [apply reads_ret|eapply reads_bind; [first [eapply field_reads; [typeclasses eauto| |eassumption]; holds|idtac]|]].
  match goal with H : put_since _ _ _ _ = Ok _ |- _ =>
    unfold put_since in H; rewrite (proj2 (Z.leb_le _ _)) in H by done; rename H into Hsack end.
  eapply since_reads; [done| |eapply field_reads; [typeclasses eauto| |eassumption]; holds].
  intros ->. cbn [put SackField] in Hsack. puts.
  match goal with H : Ok _ = Ok [] |- _ => injection H as H; by apply (f_equal length) in H; rewrite length_app in H end.
Qed.

Lemma since_put {V} (F : Field V) spoken since_ v x :
  put_since spoken since_ F v = Ok x → put F v = Ok x ∨ x = [].
Proof. unfold put_since. destruct (since_ <=? spoken); [by left|]. intros [= <-]. by right. Qed.

Lemma fields_bytes m spoken x : is_message m → put_fields m spoken = Ok x → Forall is_byte x.
Proof.
  intros Hm Hx. unfold put_fields in Hx. destruct m; cbn [is_message] in *; orders; repeat (apply Forall_app; split); try apply List.Forall_nil;
    try (eapply field_bytes; [typeclasses eauto| |eassumption]; holds).
  match goal with H : put_since _ _ _ _ = Ok _ |- _ => apply since_put in H as [H| ->]; [|constructor] end.
  eapply field_bytes; [typeclasses eauto| |eassumption]; holds.
Qed.

(** The size of every field of a message at once. *)
Ltac measure :=
  destruct put_sizes as (Hterm & Henv & Hcommand & Hchunk);
  repeat match goal with
  | H : put Term _ = Ok _ |- _ => apply Hterm in H; [|holds]
  | H : put Env _ = Ok _ |- _ => apply Henv in H; [|holds]
  | H : put Command _ = Ok _ |- _ => apply Hcommand in H; [|holds]
  | H : put (Chunk _) _ = Ok _ |- _ => apply Hchunk in H
  | H : put ?F ?v = Ok ?x |- _ =>
      let Hs := fresh "Hsize" in
      assert (len x ≤ hint F v) as Hs by (eapply field_size; [typeclasses eauto| |eassumption]; holds); clear H; cbn in Hs
  end.

Lemma fields_size m spoken x : is_message m → put_fields m spoken = Ok x → len x < MAX_CLIENT_FRAME.
Proof.
  intros Hm Hx. unfold put_fields, MAX_CLIENT_FRAME in *. destruct m; cbn [is_message] in *; orders;
    try (match goal with H : put_since _ _ _ _ = Ok _ |- _ => apply since_put in H as [H| ->] end);
    measure; rewrite ?length_app; simpl;
    unfold MAX_INPUT_CHUNK, MAX_FORWARD_CHUNK, MAX_PATTERN, MAX_FORWARD_HOST, MAX_ACK_RUNS, MAX_SESSION_NAME in *; lia.
Qed.

(** What was decoded would be encoded as the bytes it was decoded from, with the count of an
    absent last field spelled out. *)
Lemma fields_canon tag spoken :
  canon (get_fields tag spoken) (λ m x, is_message m ∧ tag = client_tag m + CLIENT_TAG_BASE ∧
    ∃ y, put_fields m spoken = Ok y ∧ (y = x ∨ y = x ++ [0])).
Proof.
  assert (∀ m x, put_fields m spoken = Ok x → ∃ y, put_fields m spoken = Ok y ∧ (y = x ∨ y = x ++ [0])) as Hsame by eauto.
  eapply canon_impl.
  { unfold get_fields. repeat first [apply field_canon|apply canon_since; typeclasses eauto|canon_step]. }
  intros m x _ Hx. cbv beta in Hx. canon_inv; cbn [is_message client_tag]; unfold is_seq, is_stream;
    (split; [split_and?; first [assumption|done|lia]|]; split; [done|]).
  all: try (apply Hsame; unfold put_fields; cbn [in_order];
    repeat match goal with H : put _ _ = Ok _ |- _ => rewrite H; clear H; cbn [result_bind] end; by rewrite ?app_nil_r).
  - apply Hsame. unfold put_fields, put_since. cbn [in_order]. rewrite (proj2 (Z.leb_le _ _)) by done.
    repeat match goal with H : put _ _ = Ok _ |- _ => rewrite H; clear H; cbn [result_bind] end. by rewrite ?app_nil_r.
  - unfold put_fields, put_since. cbn [in_order].
    repeat match goal with H : put _ _ = Ok _ |- _ => rewrite H; clear H; cbn [result_bind] end. rewrite ?app_nil_r.
    destruct (14 <=? spoken); cbn [result_bind]; eexists; (split; [done|]); [right|left]; rewrite ?app_nil_r; [|done].
    by rewrite <- !app_assoc.
Qed.

Definition body (m : ClientMessage) (fields : list Z) : list Z := put_u8 (client_tag m + CLIENT_TAG_BASE) ++ fields.

Lemma tag_range m : 0 ≤ client_tag m + CLIENT_TAG_BASE < 256.
Proof. unfold CLIENT_TAG_BASE. destruct m; simpl; lia. Qed.

(** Encoding goes through exactly when the fields do. *)
Lemma encode_spec m spoken fields :
  is_message m → put_fields m spoken = Ok fields →
  encode m spoken = Ok (put_u32 (len (body m fields)) ++ body m fields) ∧ 0 < len (body m fields) ≤ MAX_CLIENT_FRAME ∧
  Forall is_byte (body m fields).
Proof.
  intros Hm Hf. pose proof (fields_size m spoken fields Hm Hf) as Hs. unfold MAX_CLIENT_FRAME in *.
  assert (len (body m fields) = 1 + len fields) as Hl by (unfold body, put_u8; lens; lia).
  unfold encode. rewrite Hf. cbn [result_bind]. fold (body m fields). unfold seal_frame, LENGTH_PREFIX, MAX_FRAME.
  rewrite length_app, length_replicate.
  replace (Z.of_nat (Z.to_nat 4 + length (body m fields)) - 4) with (len (body m fields)) by lia.
  destruct (Z.ltb_spec U32_MAX (len (body m fields))); [lia|]. destruct (Z.eqb_spec (len (body m fields)) 0); [lia|].
  destruct (Z.ltb_spec (1024 * 1024) (len (body m fields))); [lia|]. simpl. split; [done|]. split; [lia|].
  unfold body. apply Forall_app. split; [auto with codec|by eapply fields_bytes].
Qed.

Lemma encode_inv m spoken frame :
  is_message m → encode m spoken = Ok frame →
  ∃ fields, put_fields m spoken = Ok fields ∧ frame = put_u32 (len (body m fields)) ++ body m fields.
Proof.
  intros Hm He. unfold encode in He. destruct (put_fields m spoken) as [fields|] eqn:Hf; [|done].
  exists fields. split; [done|]. destruct (encode_spec m spoken fields Hm Hf) as [He' _]. unfold encode in He'.
  rewrite Hf in He'. congruence.
Qed.

Lemma decode_body m spoken fields extra :
  is_message m → 14 ≤ spoken → put_fields m spoken = Ok fields → Forall is_byte extra →
  len (body m fields ++ extra) ≤ USIZE_MAX → decode (body m fields ++ extra) spoken = Ok m.
Proof.
  intros Hm Hs Hf Hx Hl. destruct (encode_spec m spoken fields Hm Hf) as (_ & _ & Hb). unfold decode.
  assert (reads (let! tag := u8 in get_fields tag spoken) (body m fields) m) as Hr.
  { eapply reads_bind; [apply reads_u8, tag_range|]. by apply fields_reads. }
  destruct (Hr (cursor_new (body m fields ++ extra)) extra) as (c' & -> & _); [|done|done].
  split; [by apply Forall_app|]. simpl. lia.
Qed.

(** The header of a frame, read back. *)
Lemma read_header size rest limit :
  0 ≤ size ≤ U32_MAX →
  read_frame limit (put_u32 size ++ rest) =
    if (size =? 0) || (limit <? size) then Err (Oversize size limit) else read_exact size rest.
Proof.
  intros Hz. unfold read_frame, read_exact at 1, put_u32. rewrite length_app, length_to_be, (proj2 (Z.leb_le _ _)) by lia.
  cbn [result_bind]. replace (Z.to_nat 4) with (length (to_be 4 size)) by (by rewrite length_to_be).
  rewrite take_app_length, drop_app_length, from_to_be by (simpl; lia). done.
Qed.

Lemma read_frame_whole payload rest limit :
  0 < len payload ≤ limit → limit ≤ U32_MAX →
  read_frame limit (put_u32 (len payload) ++ payload ++ rest) = Ok (payload, rest).
Proof.
  intros Hp Hl. rewrite read_header by lia. destruct (Z.eqb_spec (len payload) 0); [lia|].
  destruct (Z.ltb_spec limit (len payload)); [lia|]. cbn [orb]. unfold read_exact.
  rewrite (proj2 (Z.leb_le _ _)) by (rewrite length_app; lia). by rewrite Nat2Z.id, take_app_length, drop_app_length.
Qed.

(** ** Properties *)

(** C34: a client message survives the wire, and outlives the version it was written for.  At
    every version that is spoken, what a well-formed message encodes to is a frame of its
    length and a body, the body fits the bound a daemon reads client frames by, and the body
    decodes to the same message even when a later version appended bytes to it. *)
Theorem client_message_round_trip m spoken frame extra
    (H : is_message m ∧ MANAGEMENT_VERSION ≤ spoken ∧ encode m spoken = Ok frame ∧ Forall is_byte extra ∧
         len extra ≤ MAX_FRAME) :
  ∃ payload, frame = put_u32 (len payload) ++ payload ∧ 0 < len payload ≤ MAX_CLIENT_FRAME ∧
    decode (payload ++ extra) spoken = Ok m.
Proof.
  destruct H as (Hm & Hs & He & Hx & Hl). destruct (encode_inv m spoken frame Hm He) as (fields & Hf & ->).
  exists (body m fields). split; [done|]. destruct (encode_spec m spoken fields Hm Hf) as (_ & Hsize & _).
  split; [done|]. apply decode_body; try done. unfold MAX_FRAME, MAX_CLIENT_FRAME in *. rewrite length_app. lia.
Qed.

(** C35: nothing decodes that the encoder would refuse.  Whatever bytes arrive, at any version,
    if they decode then the message is well formed (its strings are UTF-8 without control
    characters where they may reach a terminal or a resolver, its [TERM] is a terminfo name, its
    numbers are in range and its lists bounded), it can be encoded, and its encoding is a prefix
    of the bytes that arrived, but for the count of an acknowledgement's runs when the peer left
    them out. *)
Theorem decoded_message_is_lawful payload spoken m
    (H : Forall is_byte payload ∧ len payload ≤ USIZE_MAX ∧ decode payload spoken = Ok m) :
  is_message m ∧ ∃ x y, encode m spoken = Ok (put_u32 (len y) ++ y) ∧ x `prefix_of` payload ∧ (y = x ∨ y = x ++ [0]).
Proof.
  destruct H as (Hb & Hl & Hd). unfold decode in Hd.
  destruct (dbind u8 (λ tag, get_fields tag spoken) (cursor_new payload)) as [[m' c']|e] eqn:E; [|done]. injection Hd as ->.
  assert (good (cursor_new payload)) as Hg by (split; [done|]; simpl; lia).
  destruct (canon_bind u8 (λ tag, get_fields tag spoken) _ _ canon_u8 (λ tag _ _, fields_canon tag spoken) _ _ _ Hg E)
    as (x & Hrest & _ & _ & tag & x1 & x2 & -> & _ & _ & [_ ->] & Hm & -> & y & Hy & Hyx). unfold rest in Hrest. simpl in Hrest.
  split; [done|]. exists (put_u8 (client_tag m + CLIENT_TAG_BASE) ++ x2), (body m y).
  destruct (encode_spec m spoken y Hm Hy) as (He & _ & _). split; [done|]. split; [by eexists|].
  unfold body. destruct Hyx as [->| ->]; [by left|right]. by rewrite app_assoc.
Qed.

(** Messages written one after the other are read back one by one.  A stream that holds the
    frames of a list of messages, and then anything, gives a daemon those messages in order and
    leaves what follows; and a stream that ends inside a frame, or claims a frame of no bytes or
    of more than the bound, is refused without a message. *)
Theorem frames_are_delimited ms frames spoken tail
    (H : MANAGEMENT_VERSION ≤ spoken ∧ Forall2 (λ m f, is_message m ∧ encode m spoken = Ok f) ms frames) :
  read_messages (length ms) spoken (concat frames ++ tail) = Ok (ms, tail) ∧
  (∀ n, len tail < 4 → read_messages (S (length ms) + n) spoken (concat frames ++ tail) = Err Truncated) ∧
  (∀ n size rest, tail = put_u32 size ++ rest → 0 ≤ size ≤ U32_MAX → size = 0 ∨ MAX_CLIENT_FRAME < size →
     read_messages (S (length ms) + n) spoken (concat frames ++ tail) = Err (Oversize size MAX_CLIENT_FRAME)).
Proof.
  destruct H as [Hs Hms].
  assert (∀ n, read_messages (length ms + n) spoken (concat frames ++ tail) =
    let? (l, input) := read_messages n spoken tail in Ok (ms ++ l, input)) as Hall.
  { intros n. induction Hms as [|m f ms frames [Hm He] Hms IH]; cbn [length Nat.add concat].
    { simpl. by destruct (read_messages n spoken tail) as [[? ?]|]. }
    destruct (encode_inv m spoken f Hm He) as (fields & Hf & ->).
    destruct (encode_spec m spoken fields Hm Hf) as (_ & Hsize & _). unfold MAX_CLIENT_FRAME in Hsize.
    cbn [read_messages]. rewrite <- !app_assoc, read_frame_whole by (unfold MAX_CLIENT_FRAME; lia). cbn [result_bind].
    rewrite <- (app_nil_r (body m fields)) at 1. rewrite decode_body; [|done|done|done|constructor|rewrite app_nil_r; lia].
    cbn [result_bind]. rewrite IH. by destruct (read_messages n spoken tail) as [[? ?]|]. }
  split; [|split].
  - specialize (Hall 0%nat). rewrite Nat.add_0_r in Hall. rewrite Hall. simpl. by rewrite app_nil_r.
  - intros n Ht. replace (S (length ms) + n)%nat with (length ms + S n)%nat by lia. rewrite Hall. cbn [read_messages].
    unfold read_frame, read_exact at 1. by rewrite (proj2 (Z.leb_gt _ _)) by lia.
  - intros n size rest -> Hz Hbad. replace (S (length ms) + n)%nat with (length ms + S n)%nat by lia. rewrite Hall. cbn [read_messages].
    rewrite read_header by done.
    assert ((size =? 0) || (MAX_CLIENT_FRAME <? size) = true) as ->; [|done].
    apply orb_true_iff. destruct Hbad; [left; by apply Z.eqb_eq|right; by apply Z.ltb_lt].
Qed.

(** Negotiation picks the newest version both sides speak, and refuses, telling both
    ranges, exactly when there is none. *)
Theorem negotiation_is_best server client :
  match negotiate server client with
  | Ok v => (oldest server ≤ v ≤ newest server ∧ oldest client ≤ v ≤ newest client) ∧
      ∀ v', oldest server ≤ v' ≤ newest server → oldest client ≤ v' ≤ newest client → v' ≤ v
  | Err ranges => ranges = (server, client) ∧
      ∀ v, ¬ (oldest server ≤ v ≤ newest server ∧ oldest client ≤ v ≤ newest client)
  end.
Proof.
  unfold negotiate. destruct (Z.ltb_spec (newest server) (newest client)), (Z.ltb_spec (oldest client) (oldest server));
    match goal with |- context [?a <? ?b] => destruct (Z.ltb_spec a b) end; (split; [|intros]); (done || lia).
Qed.

(** ** Witnesses *)

Definition demo : list ClientMessage :=
  [Search [97; 195; 169] 5; ForwardAck 1 2 3 [Sack.mkRun 4 5]; Input 7 [104; 105]].
Definition demo_frames : list (list Z) :=
  [[0; 0; 0; 8; 14; 0; 3; 97; 195; 169; 0; 5];
   [0; 0; 0; 26; 17; 0; 0; 0; 1; 0; 0; 0; 0; 0; 0; 0; 2; 0; 0; 0; 3; 1; 0; 0; 0; 4; 0; 0; 0; 5];
   [0; 0; 0; 15; 4; 0; 0; 0; 0; 0; 0; 0; 7; 0; 0; 0; 2; 104; 105]].

Ltac byte_list := forall_list (unfold is_byte; lia).

Lemma demo_encodes : Forall2 (λ m f, is_message m ∧ encode m 17 = Ok f) demo demo_frames.
Proof.
  repeat constructor; try (vm_compute; reflexivity); try (simpl; unfold is_seq; lia).
  all: try (vm_compute; discriminate).
Qed.

Lemma client_message_round_trip_witness :
  encode (Search [97; 195; 169] 5) 17 = Ok [0; 0; 0; 8; 14; 0; 3; 97; 195; 169; 0; 5] ∧
  decode ([14; 0; 3; 97; 195; 169; 0; 5] ++ [1; 2; 3]) 17 = Ok (Search [97; 195; 169] 5).
Proof.
  pose proof demo_encodes as Hall. apply Forall2_cons in Hall as [[Hm He] _]. split; [exact He|].
  destruct (client_message_round_trip (Search [97; 195; 169] 5) 17 [0; 0; 0; 8; 14; 0; 3; 97; 195; 169; 0; 5] [1; 2; 3])
    as (payload & Hp & _ & Hd).
  - split; [exact Hm|]. split; [vm_compute; discriminate|]. split; [exact He|]. split; [byte_list|vm_compute; discriminate].
  - replace [14; 0; 3; 97; 195; 169; 0; 5] with payload; [exact Hd|].
    apply (f_equal (drop 4)) in Hp. unfold put_u32 in Hp. rewrite drop_app_ge in Hp by (rewrite length_to_be; lia).
    rewrite length_to_be in Hp. symmetry. exact Hp.
Defined.

Lemma decoded_message_is_lawful_witness :
  decode [18; 0; 0; 0; 9; 2; 255] 17 = Ok (ForwardReset 9 Closed) ∧ is_message (ForwardReset 9 Closed).
Proof.
  assert (decode [18; 0; 0; 0; 9; 2; 255] 17 = Ok (ForwardReset 9 Closed)) as Hd by (vm_compute; reflexivity).
  split; [exact Hd|]. apply (decoded_message_is_lawful [18; 0; 0; 0; 9; 2; 255] 17).
  split; [byte_list|]. split; [vm_compute; discriminate|exact Hd].
Defined.

Lemma frames_are_delimited_witness :
  read_messages 3 17 (concat demo_frames ++ [9; 9]) = Ok (demo, [9; 9]) ∧
  read_messages 4 17 (concat demo_frames ++ [9; 9]) = Err Truncated.
Proof.
  destruct (frames_are_delimited demo demo_frames 17 [9; 9]) as (H1 & H2 & _).
  - split; [vm_compute; discriminate|exact demo_encodes].
  - split; [exact H1|]. apply (H2 0%nat). simpl. lia.
Defined.

End Message.
