(* ===== verification/Text.v ===== *)
(** * Row text ([crates/proto/src/screen.rs], [push_row_text], and what the row code uses of
    [std]'s strings)

    A string is its bytes.  Cutting a string at a character boundary gives strings, and what the
    encoder writes for a row's text is that text with every control character blanked in place:
    the same length, the same characters elsewhere, and nothing a terminal would obey. *)

From S2P Require Import Prelude Codec.

Module Text.
Import Codec.

(** [str::is_char_boundary] and [str::get(a..b)]. *)
Definition is_char_boundary (s : list Z) (i : Z) : bool :=
  if i =? 0 then true
  else if i <? len s then negb (cont (s !!! Z.to_nat i)) else i =? len s.
Definition str_get (a b : Z) (s : list Z) : option (list Z) :=
  if (a <=? b) && is_char_boundary s a && is_char_boundary s b
  then Some (slice (Z.to_nat a) (Z.to_nat b) s) else None.

(** [trim_end_matches(' ')]. *)
Fixpoint trim_end (s : list Z) : list Z :=
  match s with
  | [] => []
  | b :: r => match trim_end r with [] => if b =? 32 then [] else [b] | r' => b :: r' end
  end.

(** ** Blanking *)

Definition is_c0 (b : Z) : bool := between 0 b 31 || (b =? 127).

(** The scan: [at_] is the byte looked at, [copied] how far the output has got. *)
Fixpoint scan_text (fuel : nat) (bytes : list Z) (at_ copied : nat) (out : list Z) : list Z :=
  match fuel with
  | O => out ++ drop copied bytes
  | S fuel =>
      match bytes !! at_ with
      | None => out ++ drop copied bytes
      | Some b =>
          if is_c0 b then scan_text fuel bytes (at_ + 1) (at_ + 1) (out ++ slice copied at_ bytes ++ [32])
          else if (b =? 194) && match bytes !! (at_ + 1)%nat with Some c => between 128 c 159 | None => false end
          then scan_text fuel bytes (at_ + 2) (at_ + 2) (out ++ slice copied at_ bytes ++ [194; 160])
          else scan_text fuel bytes (at_ + 1) copied out
      end
  end.

(** The loop looks at each byte at most once. *)
Definition push_row_text (bytes : list Z) : list Z :=
  if negb (existsb (λ b, is_c0 b || (b =? 194)) bytes) then bytes
  else scan_text (S (length bytes)) bytes O O [].

(** ** What it amounts to *)

(** Each character on its own: a C0 control or DEL becomes a space, a C1 control the no-break
    space, which is as long. *)
Definition blank_char (c : Z) : Z := if is_control c then (if c <? 128 then 32 else 160) else c.

(** The same, byte by byte. *)
Fixpoint blank (s : list Z) : list Z :=
  match s with
  | [] => []
  | b :: r =>
      if is_c0 b then 32 :: blank r
      else if b =? 194 then
        match r with
        | c :: r' => if between 128 c 159 then 194 :: 160 :: blank r' else b :: blank r
        | [] => [b]
        end
      else b :: blank r
  end.

Lemma scan_text_blank fuel bytes at_ copied out :
  (copied ≤ at_ ≤ length bytes)%nat → (length bytes - at_ < fuel)%nat →
  scan_text fuel bytes at_ copied out = out ++ slice copied at_ bytes ++ blank (drop at_ bytes).
Proof.
  revert at_ copied out. induction fuel as [|fuel IH]; intros at_ copied out Hc Hf; [lia|]. cbn [scan_text].
  destruct (bytes !! at_) as [b|] eqn:E.
  - pose proof (lookup_lt_Some _ _ _ E). rewrite (drop_S bytes b at_ E). cbn [blank].
    destruct (is_c0 b) eqn:E0.
    { rewrite IH by lia. rewrite (slice_nil (at_ + 1)) by lia. rewrite Nat.add_1_r. by rewrite <- !app_assoc. }
    assert (slice copied (at_ + 1) bytes = slice copied at_ bytes ++ [b]) as Hs.
    { rewrite <- (slice_app copied at_ (at_ + 1)) by lia. f_equal. rewrite (slice_cons at_ (at_ + 1) bytes b E) by lia.
      by rewrite slice_nil by lia. }
    destruct (Z.eqb_spec b 194) as [->|Hb]; cbn [andb].
    + rewrite Nat.add_1_r in *. destruct (bytes !! S at_) as [c|] eqn:Ec.
      * pose proof (lookup_lt_Some _ _ _ Ec). rewrite (drop_S bytes c (S at_) Ec). destruct (between 128 c 159).
        -- rewrite IH by lia. rewrite (slice_nil (at_ + 2)) by lia. replace (at_ + 2)%nat with (S (S at_)) by lia. by rewrite <- !app_assoc.
        -- rewrite IH by lia. rewrite Hs, (drop_S bytes c (S at_) Ec). by rewrite <- !app_assoc.
      * rewrite IH by lia. rewrite Hs. apply lookup_ge_None in Ec. rewrite (drop_ge bytes (S at_)) by lia. by rewrite <- !app_assoc.
    + rewrite IH by lia. rewrite Hs, Nat.add_1_r. by rewrite <- !app_assoc.
  - apply lookup_ge_None in E. rewrite (drop_ge bytes at_) by lia. cbn [blank]. rewrite app_nil_r. f_equal.
    symmetry. apply slice_to_end. lia.
Qed.

Lemma blank_plain s : existsb (λ b, is_c0 b || (b =? 194)) s = false → blank s = s.
Proof.
  induction s as [|b s IH]; [done|]. cbn [existsb blank]. intros H. apply orb_false_elim in H as [Hb Hs].
  apply orb_false_elim in Hb as [-> ->]. by rewrite IH.
Qed.

(** The optimised routine is the plain one. *)
Lemma push_row_text_blank s : push_row_text s = blank s.
Proof.
  unfold push_row_text. destruct (existsb _ s) eqn:E; cbn [negb]; [|by rewrite blank_plain].
  rewrite scan_text_blank by lia. rewrite slice_nil by lia. by rewrite drop_0.
Qed.

(** ** Characters *)

(** [p] is the encoding of the one character [c]. *)
Record encodes (p : list Z) (c : Z) : Prop := {
  enc_lead : ∃ b t, p = b :: t ∧ cont b = false ∧ Forall (λ b, cont b = true) t;
  enc_chars : ∀ q, chars (p ++ q) = cons c <$> chars q;
  enc_blank : ∃ p', length p' = length p ∧ (∀ q, blank (p ++ q) = p' ++ blank q) ∧
    (∀ q, chars (p' ++ q) = cons (blank_char c) <$> chars q) ∧ (Forall is_byte p → Forall is_byte p') ∧
    (is_control c = false → p' = p) ∧ cont <$> p' = cont <$> p
}.

Ltac split_chars :=
  repeat match goal with
  | H : context [if ?b then _ else _] |- _ => destruct b eqn:?; try discriminate H
  | H : (_ <$> ?o) = Some _ |- _ => destruct o eqn:?; simpl in H; [injection H as H; subst|discriminate H]
  | H : match ?r with [] => _ | _ :: _ => _ end = Some _ |- _ => destruct r; [discriminate H|]
  end.

Ltac bools := unfold between, cont, is_c0, is_control, blank_char in *; repeat zcase; simpl in *; try done; try lia.

Lemma encodes_1 a : 0 ≤ a < 128 → encodes [a] a.
Proof.
  intros Ha. split.
  - exists a, []. split_and!; [done| |done]. unfold cont, between. zcase; [lia|done].
  - intros q. cbn [chars app]. by rewrite (proj2 (Z.ltb_lt _ _)) by lia.
  - exists [blank_char a]. split; [done|]. assert (blank_char a < 128) by (unfold blank_char, is_control, between; repeat zcase; simpl; lia).
    split_and!.
    + intros q. cbn [app blank]. destruct (is_c0 a) eqn:E.
      * f_equal. unfold is_c0, blank_char, is_control, between in *. repeat zcase; simpl in *; (done || lia).
      * destruct (Z.eqb_spec a 194); [lia|]. f_equal. unfold is_c0, blank_char, is_control, between in *. repeat zcase; simpl in *; (done || lia).
    + intros q. cbn [chars app]. by rewrite (proj2 (Z.ltb_lt _ _)) by lia.
    + intros _. repeat constructor; unfold is_byte, blank_char, is_control, between; repeat zcase; simpl; lia.
    + intros Hc. unfold blank_char. by rewrite Hc.
    + simpl. f_equal. unfold cont, between. repeat zcase; (done || lia).
Qed.

(** A byte past 127 that is no lead of a C1 control passes the blanking unchanged. *)
Lemma blank_high b q : 128 ≤ b → b ≠ 194 → blank (b :: q) = b :: blank q.
Proof.
  intros Hb Hn. cbn [blank]. rewrite (proj2 (Z.eqb_neq b 194) Hn).
  assert (is_c0 b = false) as -> by (unfold is_c0, between; repeat zcase; simpl; (done || lia)). done.
Qed.

Lemma cont_range b : cont b = true ↔ 128 ≤ b ≤ 191.
Proof. unfold cont, between. repeat zcase; simpl; split; intros; (done || lia). Qed.

Lemma encodes_2 a b : between 194 a 223 = true → cont b = true → encodes [a; b] ((a - 192) * 64 + (b - 128)).
Proof.
  intros Ha Hb. assert (194 ≤ a ≤ 223) as Ha' by (unfold between in Ha; zbool; lia). pose proof (proj1 (cont_range b) Hb) as Hb'.
  assert (∀ a b q, 194 ≤ a ≤ 223 → cont b = true → chars ([a; b] ++ q) = cons ((a - 192) * 64 + (b - 128)) <$> chars q) as Hc.
  { intros a0 b0 q H1 H2. cbn [chars app]. rewrite (proj2 (Z.ltb_ge a0 128)) by lia.
    assert (between 194 a0 223 = true) as -> by (unfold between; repeat zcase; (done || lia)). by rewrite H2. }
  split.
  - exists a, [b]. split_and!; [done| |by repeat constructor]. unfold cont, between. repeat zcase; (done || lia).
  - intros q. by apply Hc.
  - destruct (decide (a = 194 ∧ b ≤ 159)) as [[-> Hb9]|Hn].
    + exists [194; 160]. split; [done|]. split_and!.
      * intros q. change ([194; b] ++ q) with (194 :: b :: q). cbn [blank]. change (is_c0 194) with false. cbv iota.
        change (194 =? 194) with true. assert (between 128 b 159 = true) as -> by (unfold between; repeat zcase; (done || lia)). done.
      * intros q. rewrite Hc by (done || lia). do 2 f_equal. unfold blank_char, is_control, between. repeat zcase; simpl; (done || lia).
      * intros _. by repeat constructor.
      * unfold is_control, between. repeat zcase; simpl; (done || lia).
      * simpl. by rewrite Hb.
    + exists [a; b]. split; [done|]. split_and!; [| |done..].
      * intros q. change ([a; b] ++ q) with (a :: b :: q). change ([a; b] ++ blank q) with (a :: b :: blank q).
        destruct (Z.eq_dec a 194) as [->|].
        -- cbn [blank]. change (is_c0 194) with false. change (194 =? 194) with true. cbv iota.
           assert (between 128 b 159 = false) as -> by (unfold between; repeat zcase; (done || lia)).
           f_equal. apply blank_high; lia.
        -- rewrite blank_high by lia. f_equal. apply blank_high; lia.
      * intros q. rewrite Hc by (done || lia). do 2 f_equal. unfold blank_char, is_control, between. repeat zcase; simpl; (done || lia).
Qed.

(** Longer encodings hold no control and no byte the blanking looks for. *)
Lemma encodes_long a t c :
  224 ≤ a ≤ 244 → Forall (λ b, cont b = true) t → 160 ≤ c → (∀ q, chars ((a :: t) ++ q) = cons c <$> chars q) →
  encodes (a :: t) c.
Proof.
  intros Ha Ht Hc Hq. assert (blank_char c = c) as E.
  { unfold blank_char, is_control, between. repeat zcase; simpl; (done || lia). }
  split.
  - exists a, t. split_and!; [done| |done]. unfold cont, between. repeat zcase; (done || lia).
  - done.
  - exists (a :: t). split; [done|]. rewrite E. split_and!; [|done..]. intros q.
    change ((a :: t) ++ q) with (a :: (t ++ q)). rewrite blank_high by lia. change ((a :: t) ++ blank q) with (a :: (t ++ blank q)). f_equal.
    clear -Ht. induction Ht as [|b t Hb Ht IH]; [done|]. apply cont_range in Hb.
    change ((b :: t) ++ q) with (b :: (t ++ q)). rewrite blank_high by lia. by rewrite IH.
Qed.

Lemma chars_cons s cs :
  Forall is_byte s → chars s = Some cs → s = [] ∧ cs = [] ∨
  ∃ p q c cs', s = p ++ q ∧ cs = c :: cs' ∧ chars q = Some cs' ∧ encodes p c.
Proof.
  intros Hb. destruct s as [|a s]; [by intros [= <-]; left|]. intros H. right. cbn [chars] in H.
  apply list.Forall_cons in Hb as [Ha _]. unfold is_byte in Ha.
  destruct (Z.ltb_spec a 128).
  { destruct (chars s) as [cs'|] eqn:E; [|done]. injection H as <-. exists [a], s, a, cs'. split_and!; try done. apply encodes_1; lia. }
  destruct (between 194 a 223) eqn:E2.
  { destruct s as [|b s]; [done|]. destruct (cont b) eqn:Eb; [|done]. destruct (chars s) as [cs'|] eqn:E; [|done]. injection H as <-.
    eexists [a; b], s, _, cs'. split_and!; try done. by apply encodes_2. }
  destruct (between 224 a 239) eqn:E3.
  { destruct s as [|b [|c s]]; [done..|]. destruct (_ && _ && _ && _) eqn:Eb; [|done]. destruct (chars s) as [cs'|] eqn:E; [|done].
    injection H as <-. eexists [a; b; c], s, _, cs'. split_and!; try done.
    assert (cont b = true ∧ cont c = true) as [Hb Hc] by (zbool; done).
    apply encodes_long; [unfold between in E3; zbool; lia|by repeat constructor| |].
    - apply cont_range in Hb, Hc. unfold between in *. zbool. destruct (Z.eqb_spec a 224); simpl in *; zbool; lia.
    - intros q. cbn [chars app]. by rewrite (proj2 (Z.ltb_ge a 128)), E2, E3, Eb by lia. }
  destruct (between 240 a 244) eqn:E4; [|done].
  destruct s as [|b [|c [|d s]]]; [done..|]. destruct (_ && _ && _ && _ && _) eqn:Eb; [|done]. destruct (chars s) as [cs'|] eqn:E; [|done].
  injection H as <-. eexists [a; b; c; d], s, _, cs'. split_and!; try done.
  assert (cont b = true ∧ cont c = true ∧ cont d = true) as (Hb & Hc & Hd) by (zbool; done).
  apply encodes_long; [unfold between in E4; zbool; lia|by repeat constructor| |].
  - apply cont_range in Hb, Hc, Hd. unfold between in *. zbool. destruct (Z.eqb_spec a 240); simpl in *; zbool; lia.
  - intros q. cbn [chars app]. by rewrite (proj2 (Z.ltb_ge a 128)), E2, E3, E4, Eb by lia.
Qed.

(** Induction on the characters of a string. *)
Lemma chars_ind (P : list Z → list Z → Prop) :
  P [] [] →
  (∀ p q c cs, encodes p c → Forall is_byte (p ++ q) → chars q = Some cs → P q cs → P (p ++ q) (c :: cs)) →
  ∀ s cs, Forall is_byte s → chars s = Some cs → P s cs.
Proof.
  intros H0 HS s. remember (length s) as n eqn:En. revert s En. induction n as [n IH] using lt_wf_ind. intros s -> cs Hb Hs.
  destruct (chars_cons s cs Hb Hs) as [[-> ->]|(p & q & c & cs' & -> & -> & Hq & Hp)]; [done|].
  apply HS; [done..|]. apply Forall_app in Hb as [_ Hb]. eapply IH; [|done|done|done].
  destruct (enc_lead p c Hp) as (b & t & -> & _). rewrite length_app. simpl. lia.
Qed.

(** Blanking acts on each character alone and keeps its length. *)
Lemma blank_chars s cs : Forall is_byte s → chars s = Some cs →
  chars (blank s) = Some (blank_char <$> cs) ∧ length (blank s) = length s ∧ Forall is_byte (blank s).
Proof.
  intros Hb Hs. revert s cs Hb Hs. apply chars_ind; [done|]. intros p q c cs Hp Hb Hq (IH1 & IH2 & IH3).
  apply Forall_app in Hb as [Hbp _]. destruct (enc_blank p c Hp) as (p' & Hl & H1 & H2 & H3 & _).
  rewrite H1, H2, IH1. split; [done|]. rewrite !length_app, Hl, IH2. split; [done|]. apply Forall_app. auto.
Qed.

Lemma blank_char_inert c : is_control (blank_char c) = false.
Proof. unfold blank_char. destruct (is_control c) eqn:E; [|done]. by destruct (c <? 128). Qed.

Lemma utf8_chars s : utf8 s = true ↔ ∃ cs, chars s = Some cs.
Proof. unfold utf8. rewrite bool_decide_eq_true. done. Qed.

Lemma blank_ok s : is_str s → is_str (blank s) ∧ length (blank s) = length s ∧ has_control (blank s) = false.
Proof.
  intros [Hb Hu]. apply utf8_chars in Hu as [cs Hs]. destruct (blank_chars s cs Hb Hs) as (H1 & H2 & H3).
  split; [split; [done|apply utf8_chars; eauto]|]. split; [done|]. unfold has_control. rewrite H1. simpl.
  clear. induction cs as [|c cs IH]; [done|]. rewrite fmap_cons. cbn [existsb]. by rewrite blank_char_inert, IH.
Qed.

Lemma blank_inert s : is_str s → has_control s = false → blank s = s.
Proof.
  intros [Hb Hu]. apply utf8_chars in Hu as [cs Hs]. unfold has_control. rewrite Hs. simpl. revert s cs Hb Hs.
  apply (chars_ind (λ s cs, existsb is_control cs = false → blank s = s)); [done|].
  intros p q c cs Hp Hb Hq IH Hc. cbn [existsb] in Hc. apply orb_false_elim in Hc as [Hc Hcs]. specialize (IH Hcs).
  destruct (enc_blank p c Hp) as (p' & _ & H1 & _ & _ & H2 & _). by rewrite H1, (H2 Hc), IH.
Qed.

(** ** Cutting at a boundary *)

Lemma boundary_range s i : is_char_boundary s i = true → 0 ≤ i → i ≤ len s.
Proof. unfold is_char_boundary. repeat zcase; intros; zbool; try done; lia. Qed.

Lemma boundary_end s : is_char_boundary s (len s) = true.
Proof. unfold is_char_boundary. repeat zcase; (done || lia). Qed.

(** A boundary past the first character is a boundary of the rest. *)
Lemma boundary_app p c q i : encodes p c → 0 < i → is_char_boundary (p ++ q) i = true →
  len p ≤ i ∧ is_char_boundary q (i - len p) = true.
Proof.
  intros Hp Hi H. destruct (enc_lead p c Hp) as (b & t & -> & Hb & Ht).
  destruct (Z.lt_ge_cases i (len (b :: t))) as [Hlt|Hge].
  - exfalso. unfold is_char_boundary in H. rewrite length_app in H. destruct (Z.eqb_spec i 0); [lia|].
    destruct (Z.ltb_spec i (Z.of_nat (length (b :: t) + length q))); [|lia]. rewrite lookup_total_app_l in H by lia.
    replace (Z.to_nat i) with (S (Z.to_nat (i - 1))) in H by lia.
    assert (∃ x, t !! Z.to_nat (i - 1) = Some x) as [x Hx] by (apply lookup_lt_is_Some; simpl in Hlt; lia).
    change ((b :: t) !!! S (Z.to_nat (i - 1))) with (t !!! Z.to_nat (i - 1)) in H.
    rewrite (list_lookup_total_correct _ _ _ Hx) in H. rewrite Forall_lookup in Ht. by rewrite (Ht _ _ Hx) in H.
  - split; [done|]. unfold is_char_boundary in *. rewrite length_app in H. destruct (Z.eqb_spec i 0); [lia|].
    destruct (Z.eqb_spec (i - len (b :: t)) 0); [done|].
    destruct (Z.ltb_spec i (Z.of_nat (length (b :: t) + length q))), (Z.ltb_spec (i - len (b :: t)) (len q)); try lia.
    + rewrite lookup_total_app_r in H by lia. by replace (Z.to_nat (i - len (b :: t))) with (Z.to_nat i - length (b :: t))%nat by lia.
    + zbool. apply Z.eqb_eq. lia.
Qed.

Lemma boundary_cut s cs i : Forall is_byte s → chars s = Some cs → 0 ≤ i → is_char_boundary s i = true →
  ∃ a b, chars (take (Z.to_nat i) s) = Some a ∧ chars (drop (Z.to_nat i) s) = Some b ∧ cs = a ++ b.
Proof.
  intros Hb Hs. revert i. revert s cs Hb Hs.
  apply (chars_ind (λ s cs, ∀ i, 0 ≤ i → is_char_boundary s i = true →
    ∃ a b, chars (take (Z.to_nat i) s) = Some a ∧ chars (drop (Z.to_nat i) s) = Some b ∧ cs = a ++ b)).
  - intros i _ _. rewrite take_nil, drop_nil. by exists [], [].
  - intros p q c cs Hp Hb Hq IH i Hi H. destruct (Z.eq_dec i 0) as [->|].
    { exists [], (c :: cs). rewrite take_0, drop_0. split_and!; [done| |done]. rewrite (enc_chars p c Hp), Hq. done. }
    destruct (boundary_app p c q i Hp ltac:(lia) H) as [Hge H']. destruct (IH (i - len p) ltac:(lia) H') as (a & b & Ha & Hd & ->).
    exists (c :: a), b. rewrite take_app_ge, drop_app_ge by lia.
    replace (Z.to_nat i - length p)%nat with (Z.to_nat (i - len p)) by lia. rewrite (enc_chars p c Hp), Ha. done.
Qed.

(** A boundary of the rest of a cut string is one of the string. *)
Lemma boundary_drop s i j : 0 ≤ i → 0 ≤ j → is_char_boundary s (i + j) = true → is_char_boundary s i = true →
  is_char_boundary (drop (Z.to_nat i) s) j = true.
Proof.
  intros Hi Hj H Hd. unfold is_char_boundary in *. rewrite length_drop. destruct (Z.eqb_spec j 0); [done|].
  destruct (Z.eqb_spec (i + j) 0); [lia|].
  destruct (Z.ltb_spec (i + j) (len s)), (Z.ltb_spec j (Z.of_nat (length s - Z.to_nat i))); try lia.
  - rewrite lookup_total_drop. by replace (Z.to_nat i + Z.to_nat j)%nat with (Z.to_nat (i + j)) by lia.
  - zbool. apply Z.eqb_eq. lia.
Qed.

Lemma boundary_take s i j : 0 ≤ j ≤ i → i ≤ len s → is_char_boundary s j = true →
  is_char_boundary (take (Z.to_nat i) s) j = true.
Proof.
  intros Hj Hi H. unfold is_char_boundary in *. rewrite length_take. destruct (Z.eqb_spec j 0); [done|].
  destruct (Z.ltb_spec j (Z.of_nat (Z.to_nat i `min` length s))); [|apply Z.eqb_eq; lia].
  destruct (Z.ltb_spec j (len s)); [|lia]. by rewrite lookup_total_take_lt by lia.
Qed.

Lemma str_take s i : is_str s → 0 ≤ i → is_char_boundary s i = true → is_str (take (Z.to_nat i) s).
Proof.
  intros [Hb Hu] Hi H. apply utf8_chars in Hu as [cs Hs]. destruct (boundary_cut s cs i Hb Hs Hi H) as (a & b & Ha & _).
  split; [by apply Forall_take|]. apply utf8_chars. eauto.
Qed.

Lemma str_drop s i : is_str s → 0 ≤ i → is_char_boundary s i = true → is_str (drop (Z.to_nat i) s).
Proof.
  intros [Hb Hu] Hi H. apply utf8_chars in Hu as [cs Hs]. destruct (boundary_cut s cs i Hb Hs Hi H) as (a & b & _ & Hd & _).
  split; [by apply Forall_drop|]. apply utf8_chars. eauto.
Qed.

Lemma str_get_some a b s : 0 ≤ a ≤ b → is_char_boundary s a = true → is_char_boundary s b = true →
  str_get a b s = Some (slice (Z.to_nat a) (Z.to_nat b) s).
Proof. intros Hab Ha Hb. unfold str_get. rewrite Ha, Hb, (proj2 (Z.leb_le a b)) by lia. done. Qed.

Lemma str_slice s a b : is_str s → 0 ≤ a ≤ b → is_char_boundary s a = true → is_char_boundary s b = true →
  is_str (slice (Z.to_nat a) (Z.to_nat b) s).
Proof.
  intros Hs Hab Ha Hb. unfold slice. replace (Z.to_nat b - Z.to_nat a)%nat with (Z.to_nat (b - a)) by lia.
  apply str_take; [apply str_drop; (done || lia)|lia|]. apply boundary_drop; [lia|lia| |done]. by replace (a + (b - a)) with b by lia.
Qed.

(** ** Blanking and cutting *)

Lemma blank_app s t : is_str s → blank (s ++ t) = blank s ++ blank t.
Proof.
  intros [Hb Hu]. apply utf8_chars in Hu as [cs Hs]. revert s cs Hb Hs.
  apply (chars_ind (λ s _, blank (s ++ t) = blank s ++ blank t)); [done|].
  intros p q c cs Hp Hb Hq IH. destruct (enc_blank p c Hp) as (p' & _ & H1 & _).
  rewrite <- app_assoc, !H1, IH. by rewrite app_assoc.
Qed.

(** Blanking moves no character boundary. *)
Lemma blank_boundary s i : is_str s → 0 ≤ i → is_char_boundary (blank s) i = is_char_boundary s i.
Proof.
  intros Hs Hi0. destruct (blank_ok s Hs) as (_ & Hl & _). unfold is_char_boundary. rewrite Hl.
  assert (cont <$> blank s = cont <$> s) as He.
  { destruct Hs as [Hb Hu]. apply utf8_chars in Hu as [cs Hs]. clear Hl. revert s cs Hb Hs.
    apply (chars_ind (λ s _, cont <$> blank s = cont <$> s)); [done|]. intros p q c cs Hp _ _ IH.
    destruct (enc_blank p c Hp) as (p' & _ & H1 & _ & _ & _ & H2). by rewrite H1, !fmap_app, H2, IH. }
  destruct (Z.eqb_spec i 0); [done|]. destruct (Z.ltb_spec i (len s)) as [Hi|]; [|done]. f_equal.
  destruct (lookup_lt_is_Some_2 s (Z.to_nat i)) as [x Hx]; [lia|]. destruct (lookup_lt_is_Some_2 (blank s) (Z.to_nat i)) as [y Hy]; [lia|].
  rewrite (list_lookup_total_correct _ _ _ Hx), (list_lookup_total_correct _ _ _ Hy).
  apply (f_equal (lookup (Z.to_nat i))) in He. rewrite !list_lookup_fmap, Hx, Hy in He. by injection He.
Qed.

Lemma blank_cut s i : is_str s → 0 ≤ i → is_char_boundary s i = true →
  blank (take (Z.to_nat i) s) = take (Z.to_nat i) (blank s) ∧ blank (drop (Z.to_nat i) s) = drop (Z.to_nat i) (blank s).
Proof.
  intros Hs Hi H. pose proof (str_take s i Hs Hi H) as Ht. pose proof (boundary_range s i H Hi) as Hle.
  destruct (blank_ok _ Ht) as (_ & Hl & _). rewrite length_take in Hl.
  rewrite <- (take_drop (Z.to_nat i) s) at 2 4. rewrite !blank_app by done.
  rewrite take_app_length', drop_app_length' by lia. done.
Qed.

Lemma blank_slice s a b : is_str s → 0 ≤ a ≤ b → is_char_boundary s a = true → is_char_boundary s b = true →
  blank (slice (Z.to_nat a) (Z.to_nat b) s) = slice (Z.to_nat a) (Z.to_nat b) (blank s).
Proof.
  intros Hs Hab Ha Hb. unfold slice. replace (Z.to_nat b - Z.to_nat a)%nat with (Z.to_nat (b - a)) by lia.
  rewrite <- (proj2 (blank_cut s a Hs ltac:(lia) Ha)). apply blank_cut; [apply str_drop; (done || lia)|lia|].
  apply boundary_drop; [lia|lia| |done]. by replace (a + (b - a)) with b by lia.
Qed.

(** ** Trimming *)

Lemma trim_end_prefix s : ∃ n, s = trim_end s ++ replicate n 32.
Proof.
  induction s as [|b s [n IH]]; [by exists O|]. cbn [trim_end]. destruct (trim_end s) as [|x t] eqn:E.
  - destruct (Z.eqb_spec b 32) as [->|]; [exists (S n); by rewrite IH at 1|]. exists n. by rewrite IH at 1.
  - exists n. rewrite IH at 1. done.
Qed.

Lemma trim_end_boundary s : is_char_boundary s (len (trim_end s)) = true.
Proof.
  destruct (trim_end_prefix s) as [n Hn]. set (t := trim_end s) in *. clearbody t. subst s. destruct n as [|n].
  - rewrite app_nil_r. apply boundary_end.
  - unfold is_char_boundary. rewrite length_app, length_replicate. destruct (Z.eqb_spec (len t) 0); [done|].
    destruct (Z.ltb_spec (len t) (Z.of_nat (length t + S n))); [|lia].
    rewrite Nat2Z.id, lookup_total_app_r, Nat.sub_diag by lia. done.
Qed.

End Text.
