(* ===== verification/Modes.v ===== *)
(** * Terminal modes of a repaint ([crates/proto/src/screen.rs], [ModeSet] and [CursorShape])

    A set of modes is the 32-bit word it travels as; bit [i] is mode [REPAINT_MODES[i]].  Mouse
    reporting is two groups of modes a terminal holds one value of each: [select] is the only
    writer of a group and [selections] what a terminal would act on.

    The theorem shows that selecting a mode leaves exactly that mode of its group on, whatever
    the word was, and no other mode touched. *)

From S2P Require Import Prelude.

Module Modes.

Definition REPAINT_MODES : list Z :=
  [1; 7; 66; 1000; 1002; 1003; 1004; 1005; 1006; 1007; 1015; 1016; 1036; 1049; 2004; 2027; 5; 9; 45; 67].

Definition EXCLUSIVE_MODES : list (list Z) := [[9; 1000; 1002; 1003]; [1005; 1015; 1006; 1016]].

(** The loop of [mode_index]; [None] is its panic, which is a failed build. *)
Fixpoint mode_index_from (l : list Z) (index : nat) (mode : Z) : option nat :=
  match l with
  | [] => None
  | m :: l => if m =? mode then Some index else mode_index_from l (S index) mode
  end.
Definition mode_index (mode : Z) : option nat := mode_index_from REPAINT_MODES O mode.

(** [EXCLUSIVE_MODES] as positions. *)
Definition EXCLUSIVE : list (list nat) := (λ group : list Z, omap mode_index group) <$> EXCLUSIVE_MODES.

(** ** A set of modes *)

Definition MASK : Z :=
  if len REPAINT_MODES =? 32 then U32_MAX else Z.shiftl 1 (len REPAINT_MODES) - 1.

Definition empty : Z := 0.
Definition from_bits (bits : Z) : Z := Z.land bits MASK.
(** [!m] at 32 bits is [U32_MAX - m]. *)
Definition decode (bits : Z) : option Z :=
  if negb (Z.land bits (U32_MAX - MASK) =? 0) then None else Some bits.

Definition set (s : Z) (index : nat) (on : bool) : Z :=
  let bit := Z.shiftl 1 (Z.of_nat index) in
  if on then Z.lor s bit else Z.land s (U32_MAX - bit).
Definition get (s : Z) (index : nat) : bool := negb (Z.land s (Z.shiftl 1 (Z.of_nat index)) =? 0).

(** Each mode number paired with whether it is set. *)
Definition iter (s : Z) : list (Z * bool) := imap (λ index mode, (mode, get s index)) REPAINT_MODES.

Definition RESET_ON_EXIT : Z :=
  foldl (λ s '(index, mode), if (mode =? 7) || (mode =? 1007) || (mode =? 1036) || (mode =? 2027) then s else set s index true)
    empty (imap pair REPAINT_MODES).
Definition EXCLUSIVE_MASK : Z := foldl (λ s index, set s index true) empty (concat EXCLUSIVE).

(** The last member of a group that is set. *)
Definition selected_of (s : Z) (group : list nat) : option Z :=
  '(_, index) ← list_find (λ index, get s index = true) (reverse group); REPAINT_MODES !! index.
Definition selections (s : Z) : list (option Z) := selected_of s <$> EXCLUSIVE.

(** [None] is a panic: a group out of range, or a mode the group does not name. *)
Definition select (s : Z) (group : nat) (mode : option Z) : option Z :=
  members ← EXCLUSIVE !! group;
  selected ← match mode with
             | None => Some None
             | Some mode => '(_, index) ← list_find (λ index, REPAINT_MODES !! index = Some mode) members; Some (Some index)
             end;
  Some (foldl (λ s index, set s index (bool_decide (Some index = selected))) s members).

(** ** The cursor's shape *)

Inductive CursorShape := Unset | Block | Underline | Bar.
#[export] Instance CursorShape_eq_dec : EqDecision CursorShape.
Proof. solve_decision. Defined.
Definition shape_to_wire (c : CursorShape) : Z := match c with Unset => 0 | Block => 1 | Underline => 2 | Bar => 3 end.
Definition shape_from_wire (v : Z) : option CursorShape :=
  if v =? 0 then Some Unset else if v =? 1 then Some Block else if v =? 2 then Some Underline
  else if v =? 3 then Some Bar else None.
Definition decscusr (c : CursorShape) (blinking : bool) : Z :=
  match c with
  | Unset => 0
  | Block => if blinking then 2 - 1 else 2
  | Underline => if blinking then 4 - 1 else 4
  | Bar => if blinking then 6 - 1 else 6
  end.

(** ** Bits *)

Definition is_set (s : Z) : Prop := 0 ≤ s < 2 ^ 20.
#[export] Instance is_set_dec s : Decision (is_set s).
Proof. unfold is_set. apply _. Defined.

Lemma get_testbit s i : get s i = Z.testbit s (Z.of_nat i).
Proof. apply land_bit. lia. Qed.

Lemma not_bit i : (i < 32)%nat → U32_MAX - Z.shiftl 1 (Z.of_nat i) = Z.ldiff (Z.ones 32) (2 ^ Z.of_nat i).
Proof.
  intros Hi. rewrite Z.shiftl_1_l. change U32_MAX with (Z.ones 32). apply Z.sub_nocarry_ldiff.
  apply Z.bits_inj'. intros n Hn. rewrite Z.ldiff_spec, Z.bits_0. destruct (Z.eq_dec n (Z.of_nat i)) as [->|].
  - rewrite Z.ones_spec_low by lia. by rewrite andb_false_r.
  - by rewrite Z.pow2_bits_false by lia.
Qed.

Lemma get_after_set s i j on : is_set s → (i < 32)%nat → (j < 32)%nat →
  get (set s i on) j = if decide (i = j) then on else get s j.
Proof.
  intros Hs Hi Hj. rewrite !get_testbit. unfold set. destruct on.
  - rewrite Z.shiftl_1_l, Z.lor_spec. destruct (decide (i = j)) as [->|].
    + by rewrite Z.pow2_bits_true, orb_true_r by lia.
    + by rewrite Z.pow2_bits_false, orb_false_r by lia.
  - rewrite not_bit, Z.land_spec, Z.ldiff_spec, Z.ones_spec_low by lia. cbn [andb]. destruct (decide (i = j)) as [->|].
    + by rewrite Z.pow2_bits_true, andb_false_r by lia.
    + by rewrite Z.pow2_bits_false, andb_true_r by lia.
Qed.

Lemma is_set_bits s : 0 ≤ s → (∀ n, 20 ≤ n → Z.testbit s n = false) → is_set s.
Proof.
  intros H0 H. split; [done|]. destruct (Z.eq_dec s 0) as [->|]; [done|]. apply Z.log2_lt_pow2; [lia|].
  apply Z.nle_gt. intros Hle. specialize (H _ Hle). by rewrite Z.bit_log2 in H by lia.
Qed.

Lemma set_is_set s i on : is_set s → (i < 20)%nat → is_set (set s i on).
Proof.
  intros Hs Hi. assert (∀ n, 20 ≤ n → Z.testbit s n = false) as Hh.
  { intros n Hn. apply Z.testbit_false; [lia|]. rewrite Z.div_small; [done|]. destruct Hs. split; [lia|].
    eapply Z.lt_le_trans; [eassumption|]. apply Z.pow_le_mono_r; lia. }
  apply is_set_bits; unfold set.
  - destruct on; [apply Z.lor_nonneg; split; [apply Hs|by apply Z.shiftl_nonneg]|]. apply Z.land_nonneg. left. apply Hs.
  - intros n Hn. destruct on.
    + by rewrite Z.shiftl_1_l, Z.lor_spec, Hh, Z.pow2_bits_false by lia.
    + by rewrite Z.land_spec, Hh by lia.
Qed.

(** A sequence of writes: each position holds what was last written there. *)
Lemma get_sets (f : nat → bool) l s j : is_set s → Forall (λ i, (i < 20)%nat) l → (j < 20)%nat →
  is_set (foldl (λ s i, set s i (f i)) s l) ∧
  get (foldl (λ s i, set s i (f i)) s l) j = if decide (j ∈ l) then f j else get s j.
Proof.
  intros Hs Hl Hj. revert s Hs. induction Hl as [|i l Hi Hl IH]; intros s Hs; [done|]. cbn [foldl].
  destruct (IH (set s i (f i)) (set_is_set s i _ Hs Hi)) as [H1 H2]. split; [done|]. rewrite H2, get_after_set by (done || lia).
  destruct (decide (j ∈ l)) as [Hin|Hni]; [by rewrite decide_True by (by right)|]. destruct (decide (i = j)) as [->|Hij].
  - by rewrite decide_True by left.
  - rewrite decide_False; [done|]. intros Hin. apply elem_of_cons in Hin as [->|]; done.
Qed.

(** What [selections] reads off a set. *)
Lemma selected_ext s t group : (∀ j, j ∈ group → get s j = get t j) → selected_of s group = selected_of t group.
Proof.
  intros H. unfold selected_of. f_equal. assert (∀ j, j ∈ reverse group → get s j = get t j) as H'.
  { intros j Hj. apply H. by apply elem_of_reverse. }
  clear H. induction (reverse group) as [|x l IH]; [done|]. simpl.
  destruct (decide (get s x = true)) as [E|E], (decide (get t x = true)) as [E'|E']; try done;
    rewrite (H' x) in E by left; try done. rewrite IH; [done|]. intros j Hj. apply H'. by right.
Qed.

Definition member (g : nat) (mode : option Z) : Prop :=
  ∃ group, EXCLUSIVE_MODES !! g = Some group ∧ match mode with None => True | Some m => m ∈ group end.

(** What a group and a choice in it fix, position by position; [t0] is a word that reads as the choice. *)
Definition group_fact (g : nat) (mode : option Z) (group : list Z) (members : list nat) (sel : option nat) (t0 : Z) : Prop :=
  EXCLUSIVE !! g = Some members ∧ Forall (λ i, (i < 20)%nat) members ∧
  Forall (λ jm, (jm.2 ∈ group ↔ jm.1 ∈ members) ∧ (jm.2 ∈ group → bool_decide (Some jm.1 = sel) = bool_decide (mode = Some jm.2)))
    (imap pair REPAINT_MODES) ∧
  Forall (λ j, get t0 j = bool_decide (Some j = sel)) members ∧ selected_of t0 members = mode ∧
  Forall (λ j, (j < 20)%nat ∧ j ∉ members) (default [] (EXCLUSIVE !! (1 - g)%nat)).
#[local] Instance group_fact_dec g mode group members sel t0 : Decision (group_fact g mode group members sel t0).
Proof. unfold group_fact. apply _. Defined.

Lemma group_facts s g mode group :
  EXCLUSIVE_MODES !! g = Some group → match mode with None => True | Some m => m ∈ group end →
  ∃ members sel t0, group_fact g mode group members sel t0 ∧ (g < 2)%nat ∧
    select s g mode = Some (foldl (λ s index, set s index (bool_decide (Some index = sel))) s members).
Proof.
  intros Hg Hm. destruct g as [|[|g]]; [..|done]; injection Hg as <-; (destruct mode as [m|];
    [cbv iota beta in Hm; rewrite !elem_of_cons, elem_of_nil in Hm; destruct Hm as [->|[->|[->|[->|[]]]]]|]).
  all: match goal with
    | |- ∃ _ _ _, group_fact ?g None _ _ _ _ ∧ _ => exists (EXCLUSIVE !!! g), None, 0
    | |- ∃ _ _ _, group_fact ?g (Some ?m) _ _ _ _ ∧ _ =>
        exists (EXCLUSIVE !!! g), (mode_index m), (set 0 (default O (mode_index m)) true) end.
  all: split; [apply (bool_decide_unpack _); vm_compute; exact I|split; [lia|reflexivity]].
Qed.

(** Selecting a mode of an exclusive group (or turning the group off) never panics for a
    member, whatever the word held: afterwards the group reads as exactly that mode, with that one
    bit of it set, the other group reads as it did, and no mode outside the group has changed. *)
Theorem selecting_is_exclusive s g mode :
  is_set s ∧ member g mode →
  ∃ s' group, EXCLUSIVE_MODES !! g = Some group ∧ select s g mode = Some s' ∧ is_set s' ∧
    selections s' !! g = Some mode ∧ (∀ h, h ≠ g → selections s' !! h = selections s !! h) ∧
    (∀ j m, REPAINT_MODES !! j = Some m → get s' j = if decide (m ∈ group) then bool_decide (mode = Some m) else get s j).
Proof.
  intros [Hs (group & Hg & Hm)].
  destruct (group_facts s g mode group Hg Hm) as (members & sel & t0 & (Hmem & Hlt & Hpos & Ht0 & Hread & Hother) & Hg2 & Hsel).
  rewrite Forall_forall in Ht0, Hother. set (s' := foldl _ s members) in Hsel. exists s', group.
  assert (∀ j, (j < 20)%nat → get s' j = if decide (j ∈ members) then bool_decide (Some j = sel) else get s j) as Hget
    by (intros j Hj; by apply (get_sets (λ index, bool_decide (Some index = sel)) members s j Hs Hlt Hj)).
  assert (is_set s') as Hs' by (apply (get_sets (λ index, bool_decide (Some index = sel)) members s O Hs Hlt); lia).
  clearbody s'. split; [done|]. split; [done|]. split; [done|]. unfold selections. split_and!.
  - rewrite list_lookup_fmap, Hmem. simpl. f_equal. rewrite <- Hread. apply selected_ext. intros j Hj.
    rewrite Ht0, Hget by (try done; rewrite Forall_forall in Hlt; auto). by rewrite decide_True.
  - intros h Hh. rewrite !list_lookup_fmap. destruct (EXCLUSIVE !! h) as [other|] eqn:Eh; [|done]. simpl. f_equal.
    apply selected_ext. intros j Hj. pose proof (lookup_lt_Some _ _ _ Eh) as Hlh. change (length EXCLUSIVE) with 2%nat in Hlh.
    replace (1 - g)%nat with h in Hother by lia. rewrite Eh in Hother. destruct (Hother j Hj). rewrite Hget by done. rewrite decide_False by done. done.
  - intros j m Hj. rewrite Forall_lookup in Hpos. destruct (Hpos j (j, m)) as [H1 H2]; [by rewrite list_lookup_imap, Hj|].
    cbn [fst snd] in *. rewrite Hget by (by apply lookup_lt_Some in Hj).
    destruct (decide (m ∈ group)), (decide (j ∈ members)); tauto.
Qed.

Lemma selecting_is_exclusive_witness :
  ∃ s', select 0xfffff 1 (Some 1006) = Some s' ∧ selections s' = [Some 1003; Some 1006].
Proof.
  destruct (selecting_is_exclusive 0xfffff 1 (Some 1006)) as (s' & group & _ & H1 & _ & H2 & H3 & _).
  - split; [vm_compute; done|]. exists [1005; 1015; 1006; 1016]. split; [reflexivity|]. apply (bool_decide_unpack _). vm_compute. exact I.
  - exists s'. split; [exact H1|]. apply list_eq. intros [|[|i]]; [rewrite (H3 0%nat) by lia; reflexivity|exact H2|].
    unfold selections. rewrite list_lookup_fmap. reflexivity.
Defined.

(** A word off the wire is taken exactly when it names no mode past the table. *)
Lemma decode_spec bits : 0 ≤ bits ≤ U32_MAX → decode bits = if decide (is_set bits) then Some bits else None.
Proof.
  intros Hb. unfold decode. change MASK with (Z.ones 20). change (U32_MAX - Z.ones 20) with (Z.shiftl (Z.ones 12) 20).
  assert (Z.land bits (Z.shiftl (Z.ones 12) 20) = Z.shiftl (Z.shiftr bits 20) 20) as ->.
  { apply Z.bits_inj'. intros n Hn. rewrite Z.land_spec. destruct (Z.lt_ge_cases n 20).
    - rewrite !Z.shiftl_spec_low by lia. apply andb_false_r.
    - rewrite !Z.shiftl_spec, Z.shiftr_spec by lia.
      replace (n - 20 + 20) with n by lia. destruct (Z.lt_ge_cases n 32).
      + rewrite Z.ones_spec_low by lia. apply andb_true_r.
      + rewrite Z.ones_spec_high by lia. rewrite andb_false_r. symmetry. apply Z.testbit_false; [lia|].
        rewrite Z.div_small; [done|]. split; [lia|]. eapply Z.le_lt_trans; [apply Hb|]. eapply Z.lt_le_trans; [|apply (Z.pow_le_mono_r 2 32); lia]. done. }
  rewrite Z.shiftl_mul_pow2, Z.shiftr_div_pow2 by lia. destruct (decide (is_set bits)) as [[H0 H1]|H].
  - rewrite Z.div_small by done. done.
  - destruct (Z.eqb_spec (bits / 2 ^ 20 * 2 ^ 20) 0) as [E|]; [|done]. exfalso. apply H. split; [lia|].
    pose proof (Z.div_mod bits (2 ^ 20) ltac:(lia)). pose proof (Z.mod_pos_bound bits (2 ^ 20) ltac:(lia)). lia.
Qed.

End Modes.
