(* ===== verification/Rows.v ===== *)
(** * Rows and sticky state on the wire ([crates/proto/src/screen.rs], the codecs)

    What the encoder writes of a chunk of a row and of the sticky state, and what the decoder
    takes.  The encoder repairs rather than refuses: controls in row text are blanked, a title
    that could not be shown is left out, the oldest deferred sequences are dropped.  What a
    decoder yields is a row whose runs lie inside its text at character boundaries, whose text no
    terminal would obey, and which the encoder would write as the same bytes. *)

From S2P Require Import Prelude Codec Text Screen Fields.

Module Rows.
Import Codec Text Screen.

Definition encode_style_color (c : StyleColor) : list Z :=
  match c with
  | Default => put_u8 0
  | Palette index => put_u8 1 ++ put_u8 index
  | Rgb r g b => put_u8 2 ++ put_u8 r ++ put_u8 g ++ put_u8 b
  end.
Definition decode_style_color : dec StyleColor :=
  let! b := u8 in
  if b =? 0 then dret Default
  else if b =? 1 then let! index := u8 in dret (Palette index)
  else if b =? 2 then let! r := u8 in let! g := u8 in let! b := u8 in dret (Rgb r g b)
  else dfail InvalidField.

(** One run of [encode_row_chunk]. *)
Definition encode_run (run : StyleRun) : result (list Z) EncodeError :=
  let? run_bytes := try_from U16_MAX (r_bytes run) EOversize in
  if MAX_RUN_BYTES <? run_bytes then Err EOversize
  else Ok (put_u16 (r_cells run) ++ put_u16 run_bytes ++ put_u8 (attrs (r_style run)) ++
           put_u8 (underline_to_wire (underline (r_style run))) ++ encode_style_color (fg (r_style run)) ++
           encode_style_color (bg (r_style run)) ++ encode_style_color (underline_color (r_style run))).

Definition encode_row_chunk (c : RowChunk) : result (list Z) EncodeError :=
  if c_cells c * MAX_CLUSTER_BYTES <? len (c_text c) then Err EOversize
  else
    let? n := try_from U32_MAX (len (c_text c)) EOversize in
    let? count := try_from U16_MAX (len (c_runs c)) EOversize in
    let? body := each encode_run (c_runs c) in
    Ok (put_u32 n ++ push_row_text (c_text c) ++ put_u16 (c_cells c) ++ put_u16 count ++ body).

(** The loop of [decode_row_frame] over its runs. *)
Fixpoint decode_runs (n : nat) (txt : list Z) (cells_ covered_cells covered_bytes : Z) : dec (list StyleRun) :=
  match n with
  | O => dret []
  | S n =>
      let! run_cells := u16 in
      let! run_bytes := u16 in
      let! _ := dcheck (MAX_RUN_BYTES <? run_bytes) InvalidField in
      let! a := u8 in
      let! u := u8 in let! u := dsome (underline_from_wire u) InvalidField in
      let! f := decode_style_color in
      let! b := decode_style_color in
      let! uc := decode_style_color in
      let covered_cells := covered_cells + run_cells in
      let! covered_bytes := dsome (checked_add USIZE_MAX covered_bytes run_bytes) InvalidField in
      let! _ := dcheck ((cells_ <? covered_cells) || negb (is_char_boundary txt covered_bytes)) InvalidField in
      let! runs := decode_runs n txt cells_ covered_cells covered_bytes in
      dret ({| r_cells := run_cells; r_bytes := run_bytes;
               r_style := {| fg := f; bg := b; underline_color := uc; attrs := a; underline := u |} |} :: runs)
  end.

Definition decode_row_frame (cols : Z) : dec RowFrame :=
  let! n := u32 in
  let! _ := dcheck (cols * MAX_CLUSTER_BYTES <? n) InvalidField in
  let! txt := str n in
  let! _ := reject_control txt in
  let! cells_ := u16 in
  let! _ := dcheck (cols <? cells_) InvalidField in
  let! _ := dcheck (cells_ * MAX_CLUSTER_BYTES <? n) InvalidField in
  let! count := u16 in
  let! _ := dcheck (cols <? count) InvalidField in
  let! runs_ := decode_runs (Z.to_nat count) txt cells_ 0 0 in
  dret {| text := txt; runs := runs_; cells := cells_ |}.

(** ** Sticky state *)

Record StickyState := mkSticky {
  title : option (list Z); kitty_keyboard : Z; bell : bool; saved_cursor : option (Z * Z); pending_wrap : bool;
  deferred : list (list Z)
}.

(** The loop of [deferred_start], newest first; [index] is where the kept entries start. *)
Fixpoint deferred_from (n : nat) (newest : list (list Z)) (index : nat) (total : Z) : nat :=
  match newest with
  | [] => index
  | entry :: newest =>
      let total := total + (len entry + 2) in
      if (MAX_DEFERRED_BYTES <? total) || (MAX_DEFERRED <? Z.of_nat (n - (index - 1))) then index
      else deferred_from n newest (index - 1) total
  end.
Definition deferred_start (l : list (list Z)) : nat := deferred_from (length l) (reverse l) (length l) 0.
Definition kept_deferred (s : StickyState) : list (list Z) := drop (deferred_start (deferred s)) (deferred s).

Definition wire_title (s : StickyState) : option (list Z) :=
  t ← title s; if (len t <=? MAX_TITLE) && negb (has_control t) then Some t else None.

Definition entry_size (entry : list Z) : Z := len entry + 2.
Definition sticky_bytes (s : StickyState) : Z :=
  match wire_title s with None => 1 | Some t => 3 + len t end + 1 + 1 +
  match saved_cursor s with Some _ => 5 | None => 1 end + 1 + 1 + sum_by entry_size (kept_deferred s).

Definition encode_cursor (c : option (Z * Z)) : list Z :=
  match c with Some (x, y) => put_u8 1 ++ put_u16 x ++ put_u16 y | None => put_u8 0 end.
Definition decode_cursor : dec (option (Z * Z)) :=
  let! b := u8 in
  if b =? 0 then dret None
  else if b =? 1 then let! x := u16 in let! y := u16 in dret (Some (x, y))
  else dfail InvalidField.

Definition bool_byte (b : bool) : Z := if b then 1 else 0.
Definition decode_bool : dec bool :=
  let! b := u8 in if b =? 0 then dret false else if b =? 1 then dret true else dfail InvalidField.

Definition encode_entry (entry : list Z) : result (list Z) EncodeError :=
  if has_control entry then Err BadDeferred
  else let? n := try_from U16_MAX (len entry) BadDeferred in Ok (put_u16 n ++ entry).

Definition encode_title (t : option (list Z)) : result (list Z) EncodeError :=
  match t with
  | Some t => let? n := try_from U16_MAX (len t) EOversize in Ok (put_u8 1 ++ put_u16 n ++ t)
  | None => Ok (put_u8 0)
  end.

Definition encode_sticky (s : StickyState) : result (list Z) EncodeError :=
  let? t := encode_title (wire_title s) in
  let? count := try_from U8_MAX (len (kept_deferred s)) BadDeferred in
  let? entries := each encode_entry (kept_deferred s) in
  Ok (t ++ put_u8 (kitty_keyboard s) ++ put_u8 (bool_byte (bell s)) ++ encode_cursor (saved_cursor s) ++
      put_u8 (bool_byte (pending_wrap s)) ++ put_u8 count ++ entries).

Definition decode_title : dec (option (list Z)) :=
  let! b := u8 in
  if b =? 0 then dret None
  else if b =? 1 then
    let! n := u16 in
    let! _ := dcheck (MAX_TITLE <? n) InvalidField in
    let! t := str n in
    let! _ := reject_control t in
    dret (Some t)
  else dfail InvalidField.

Fixpoint decode_deferred (n : nat) (total : Z) : dec (list (list Z)) :=
  match n with
  | O => dret []
  | S n =>
      let! size := u16 in
      let total := total + (size + 2) in
      let! _ := dcheck (MAX_DEFERRED_BYTES <? total) InvalidField in
      let! entry := str size in
      let! _ := reject_control entry in
      let! l := decode_deferred n total in
      dret (entry :: l)
  end.

Definition decode_sticky : dec StickyState :=
  let! t := decode_title in
  let! k := u8 in
  let! b := decode_bool in
  let! sc := decode_cursor in
  let! pw := decode_bool in
  let! count := u8 in
  let! _ := dcheck (MAX_DEFERRED <? count) InvalidField in
  let! d := decode_deferred (Z.to_nat count) 0 in
  dret {| title := t; kitty_keyboard := k; bell := b; saved_cursor := sc; pending_wrap := pw; deferred := d |}.

(** ** Colours and runs *)

Definition color_ok (c : StyleColor) : Prop :=
  match c with Default => True | Palette i => is_byte i | Rgb r g b => is_byte r ∧ is_byte g ∧ is_byte b end.
Definition style_ok (s : CellStyle) : Prop :=
  color_ok (fg s) ∧ color_ok (bg s) ∧ color_ok (underline_color s) ∧ is_byte (attrs s).
Definition run_ok (r : StyleRun) : Prop :=
  0 ≤ r_cells r ≤ U16_MAX ∧ 0 ≤ r_bytes r ≤ MAX_RUN_BYTES ∧ style_ok (r_style r).

Lemma len_put_u8 v : len (put_u8 v) = 1.
Proof. unfold put_u8. by rewrite length_to_be. Qed.
Lemma len_put_u16 v : len (put_u16 v) = 2.
Proof. unfold put_u16. by rewrite length_to_be. Qed.
Lemma len_put_u32 v : len (put_u32 v) = 4.
Proof. unfold put_u32. by rewrite length_to_be. Qed.
Lemma len_put_u64 v : len (put_u64 v) = 8.
Proof. unfold put_u64. by rewrite length_to_be. Qed.
(** Exact lengths of what was written. *)
Ltac measure := rewrite ?length_app, ?Nat2Z.inj_add, ?len_put_u8, ?len_put_u16, ?len_put_u32, ?len_put_u64.

Lemma color_writes c : Forall is_byte (encode_style_color c) ∧ len (encode_style_color c) = color_len c.
Proof. destruct c; cbn [encode_style_color color_len]; (split; [auto 20 with codec|by measure]). Qed.

Lemma color_reads c : color_ok c → reads decode_style_color (encode_style_color c) c.
Proof.
  intros Hc. unfold decode_style_color. destruct c; cbn [encode_style_color color_ok] in *; unfold is_byte in *; destruct_and?;
    repeat reads_step; simpl; try lia; repeat reads_step; (done || lia).
Qed.

Lemma color_canon : canon decode_style_color (λ c x, color_ok c ∧ x = encode_style_color c).
Proof.
  eapply canon_impl; [unfold decode_style_color; repeat canon_step|]. intros v z Hz Hx. canon_inv; (split; [|done]); unfold color_ok, is_byte; auto; lia.
Qed.

Lemma underline_wire u v : underline_from_wire v = Some u ↔ v = underline_to_wire u.
Proof.
  unfold underline_from_wire. split; [repeat zcase; intros; simplify_eq/=; done|]. intros ->. by destruct u.
Qed.
Lemma underline_byte u : 0 ≤ underline_to_wire u < 256.
Proof. destruct u; simpl; lia. Qed.

Definition run_size (r : StyleRun) : Z := run_style_len r.

Lemma run_writes r x : encode_run r = Ok x → Forall is_byte x ∧ len x = run_style_len r.
Proof.
  intros Hput. unfold encode_run in Hput. Fields.puts.
  destruct (color_writes (fg (r_style r))), (color_writes (bg (r_style r))), (color_writes (underline_color (r_style r))).
  split; [auto 20 with codec|]. measure. unfold run_style_len, RUN_FIXED. lia.
Qed.

Lemma runs_writes l x : each encode_run l = Ok x → Forall is_byte x ∧ len x = style_len l.
Proof.
  revert x. induction l as [|r l IH]; intros x Hx; cbn [each] in Hx; [by injection Hx as <-|].
  apply result_bind_ok in Hx as (y & Hy & Hx). apply result_bind_ok in Hx as (z & Hz & Hx). injection Hx as <-.
  destruct (run_writes r y Hy), (IH z Hz). split; [by apply Forall_app|]. rewrite length_app. unfold style_len in *. cbn [sum_by foldr]. unfold sum_by in *. lia.
Qed.

(** Where runs [l] may lie in [txt], after [cc] columns and [cb] bytes. *)
Fixpoint runs_fit (txt : list Z) (cells_ cc cb : Z) (l : list StyleRun) : Prop :=
  match l with
  | [] => True
  | r :: l => cc + r_cells r ≤ cells_ ∧ is_char_boundary txt (cb + r_bytes r) = true ∧
      runs_fit txt cells_ (cc + r_cells r) (cb + r_bytes r) l
  end.

Lemma runs_reads txt cells_ l cc cb x :
  Forall run_ok l → runs_fit txt cells_ cc cb l → 0 ≤ cb → len txt ≤ U32_MAX → each encode_run l = Ok x →
  reads (decode_runs (length l) txt cells_ cc cb) x l.
Proof.
  intros Hok. revert cc cb x. induction Hok as [|r l Hr Hok IH]; intros cc cb x Hfit Hcb Ht Hx; cbn [each length decode_runs runs_fit] in *.
  { injection Hx as <-. apply reads_ret. }
  apply result_bind_ok in Hx as (y & Hy & Hx). apply result_bind_ok in Hx as (z & Hz & Hx). injection Hx as <-.
  destruct Hfit as (Hc & Hb & Hfit). destruct Hr as (H1 & H2 & (H3 & H4 & H5 & H6)). unfold MAX_RUN_BYTES in *.
  unfold encode_run, MAX_RUN_BYTES in Hy. Fields.puts. rewrite <- !app_assoc.
  pose proof (boundary_range _ _ Hb ltac:(lia)). pose proof (underline_byte (underline (r_style r))). unfold is_byte in H6.
  unfold MAX_RUN_BYTES. repeat reads_step; try lia; try (by apply color_reads).
  - by apply underline_wire.
  - unfold checked_add. by rewrite (proj2 (Z.leb_le _ _)) by lia.
  - rewrite Hb. apply orb_false_intro; [apply Z.ltb_ge; lia|done].
  - apply IH; (done || lia).
  - destruct r as [? ? []]. apply reads_ret.
Qed.

Lemma runs_canon n txt cells_ cc cb : 0 ≤ cb →
  canon (decode_runs n txt cells_ cc cb) (λ l x, length l = n ∧ Forall run_ok l ∧ runs_fit txt cells_ cc cb l ∧ each encode_run l = Ok x).
Proof.
  revert cc cb. induction n as [|n IH]; intros cc cb Hcb; cbn [decode_runs].
  { eapply canon_impl; [apply canon_ret|]. by intros l x _ [-> ->]. }
  eapply canon_impl.
  { repeat first [apply color_canon|canon_step|apply IH]. cbv beta in *. unfold checked_add in *. destruct_and?. case_match; simplify_eq. lia. }
  intros v z Hz Hx. canon_inv.
  match goal with H : checked_add _ _ _ = Some _ |- _ => unfold checked_add in H; case_match; simplify_eq end.
  match goal with H : underline_from_wire _ = Some _ |- _ => apply underline_wire in H as -> end.
  cbn [length runs_fit each]. split; [lia|]. unfold MAX_RUN_BYTES in *.
  split; [constructor; [unfold run_ok, style_ok, is_byte, MAX_RUN_BYTES; simpl; split_and!; (done || lia)|done]|].
  cbn [r_cells r_bytes]. split; [split_and!; (done || lia)|]. unfold encode_run at 1, MAX_RUN_BYTES. cbn [r_cells r_bytes r_style fg bg underline_color attrs underline].
  Fields.run_put. cbn [result_bind]. match goal with H : each encode_run _ = Ok _ |- _ => rewrite H end. cbn [result_bind].
  by rewrite <- !app_assoc.
Qed.

(** ** Rows *)

(** A row that fits a grid of [cols] columns: what the encoder may be given. *)
Record frame_fits (cols : Z) (f : RowFrame) : Prop := {
  fits_text : is_str (text f);
  fits_bytes : len (text f) ≤ cells f * MAX_CLUSTER_BYTES;
  fits_cells : 0 ≤ cells f ≤ cols;
  fits_count : len (runs f) ≤ cols;
  fits_runs : Forall run_ok (runs f);
  fits_tile : runs_fit (text f) (cells f) 0 0 (runs f)
}.

(** What a row is once it has crossed the wire. *)
Definition frame_of (c : RowChunk) : RowFrame := {| text := c_text c; runs := c_runs c; cells := c_cells c |}.
Definition inert (f : RowFrame) : RowFrame := {| text := blank (text f); runs := runs f; cells := cells f |}.
Definition chunk_whole (f : RowFrame) : RowChunk := {| c_text := text f; c_runs := runs f; c_cells := cells f; c_col := 0; c_byte := 0 |}.

Lemma runs_fit_ext txt txt' cells_ cc cb l : (∀ i, 0 ≤ i → is_char_boundary txt' i = is_char_boundary txt i) → 0 ≤ cb → Forall run_ok l →
  runs_fit txt cells_ cc cb l → runs_fit txt' cells_ cc cb l.
Proof.
  intros He Hcb Hok. revert cc cb Hcb. induction Hok as [|r l Hr Hok IH]; intros cc cb Hcb; [done|]. cbn [runs_fit].
  destruct Hr as (? & ? & _). intros (? & ? & ?). rewrite He by lia. split_and!; [done..|]. apply IH; (done || lia).
Qed.

Lemma chunk_writes c x : encode_row_chunk c = Ok x → is_str (c_text c) → Forall is_byte x ∧ len x = chunk_encoded_len c.
Proof.
  intros Hput Hs. unfold encode_row_chunk in Hput. Fields.puts. match goal with H : each encode_run _ = Ok _ |- _ => destruct (runs_writes _ _ H) end.
  rewrite push_row_text_blank. destruct (blank_ok _ Hs) as ([Hb _] & Hl & _). split; [auto 20 with codec|]. measure. rewrite Hl.
  unfold chunk_encoded_len, CHUNK_FIXED. lia.
Qed.

Lemma frame_reads cols c x : 0 ≤ cols ≤ U16_MAX → frame_fits cols (frame_of c) → encode_row_chunk c = Ok x →
  reads (decode_row_frame cols) x (inert (frame_of c)).
Proof.
  intros Hcols [Hs Hb Hc Hn Hr Ht] Hput. cbn [text runs cells frame_of] in *. unfold MAX_CLUSTER_BYTES in *.
  unfold encode_row_chunk in Hput. Fields.puts. rewrite push_row_text_blank. destruct (blank_ok _ Hs) as (Hbs & Hl & Hctl).
  unfold decode_row_frame, MAX_CLUSTER_BYTES. repeat reads_step; try done; try lia.
  rewrite Nat2Z.id. apply runs_reads; [done| |lia|lia|done]. eapply runs_fit_ext; [|lia|done|exact Ht].
  intros i Hi. by apply blank_boundary.
Qed.

Lemma frame_canon cols : 0 ≤ cols ≤ U16_MAX →
  canon (decode_row_frame cols) (λ f x, frame_fits cols f ∧ has_control (text f) = false ∧ encode_row_chunk (chunk_whole f) = Ok x).
Proof.
  intros Hcols. eapply canon_impl; [unfold decode_row_frame, MAX_CLUSTER_BYTES; repeat first [apply runs_canon; lia|canon_step]|].
  intros v z Hz Hx. canon_inv. cbn [text]. split; [|split; [done|]].
  - split; cbn [text runs cells]; unfold MAX_CLUSTER_BYTES; (done || lia).
  - unfold encode_row_chunk, chunk_whole, MAX_CLUSTER_BYTES. cbn [c_text c_runs c_cells text runs cells]. Fields.run_put.
    match goal with H : each encode_run _ = Ok _ |- _ => rewrite H end. cbn [result_bind].
    rewrite push_row_text_blank, blank_inert by done. 
    match goal with H : length ?l = Z.to_nat ?c |- _ => replace (Z.of_nat (length l)) with c by lia end. done.
Qed.

(** ** Sticky state *)

(** The newest deferred entries within both bounds, and no more could be kept. *)
Lemma deferred_from_spec l newest index total :
  newest = reverse (take index l) → (index ≤ length l)%nat → total = sum_by entry_size (drop index l) →
  total ≤ MAX_DEFERRED_BYTES → Z.of_nat (length l - index) ≤ MAX_DEFERRED →
  let start := deferred_from (length l) newest index total in
  (start ≤ index)%nat ∧ sum_by entry_size (drop start l) ≤ MAX_DEFERRED_BYTES ∧ Z.of_nat (length l - start) ≤ MAX_DEFERRED ∧
  (start = O ∨ MAX_DEFERRED_BYTES < sum_by entry_size (drop (start - 1) l) ∨ MAX_DEFERRED < Z.of_nat (length l - (start - 1))).
Proof.
  revert index total. induction newest as [|entry newest IH]; intros index total Hn Hi -> Hb Hc; cbv zeta; cbn [deferred_from].
  { destruct index as [|index]; [split; [done|]; split; [done|]; split; [done|]; by left|]. exfalso. apply (f_equal length) in Hn.
    rewrite length_reverse, length_take in Hn. cbn [length] in Hn. lia. }
  destruct index as [|index]; [done|]. destruct (lookup_lt_is_Some_2 l index) as [x Hx]; [lia|].
  rewrite (take_S_r l index x Hx), reverse_app in Hn. simpl in Hn. injection Hn as -> ->.
  replace (S index - 1)%nat with index by lia.
  assert (sum_by entry_size (drop index l) = sum_by entry_size (drop (S index) l) + (len x + 2)) as Es.
  { rewrite (drop_S l x index Hx). cbn [sum_by foldr]. unfold entry_size at 1, sum_by. lia. }
  destruct (_ || _) eqn:E.
  - split_and!; [lia|done|done|]. right. apply orb_prop in E as [E|E]; zbool; [left|right];
      replace (S index - 1)%nat with index by lia; lia.
  - zbool. rewrite <- Es. destruct (IH index (sum_by entry_size (drop index l))) as (? & ? & ? & ?); [done|lia|done|lia|lia|].
    split_and!; (done || lia).
Qed.

Lemma deferred_start_spec l :
  sum_by entry_size (drop (deferred_start l) l) ≤ MAX_DEFERRED_BYTES ∧ Z.of_nat (length l - deferred_start l) ≤ MAX_DEFERRED ∧
  (deferred_start l = O ∨ MAX_DEFERRED_BYTES < sum_by entry_size (drop (deferred_start l - 1) l) ∨
   MAX_DEFERRED < Z.of_nat (length l - (deferred_start l - 1))).
Proof.
  unfold deferred_start. destruct (deferred_from_spec l (reverse l) (length l) 0) as (_ & ? & ? & ?); try done.
  - by rewrite firstn_all.
  - by rewrite drop_ge by lia.
  - unfold MAX_DEFERRED. lia.
Qed.

(** What the Rust types hold of a sticky state. *)
Record sticky_typed (s : StickyState) : Prop := {
  st_title : ∀ t, title s = Some t → is_str t;
  st_kitty : is_byte (kitty_keyboard s);
  st_cursor : ∀ x y, saved_cursor s = Some (x, y) → Fields.is_u16 x ∧ Fields.is_u16 y;
  st_deferred : Forall is_str (deferred s)
}.

(** What crosses: a title fit to show, and the newest deferred entries. *)
Definition wire_sticky (s : StickyState) : StickyState :=
  {| title := wire_title s; kitty_keyboard := kitty_keyboard s; bell := bell s; saved_cursor := saved_cursor s;
     pending_wrap := pending_wrap s; deferred := kept_deferred s |}.

Lemma wire_title_ok s t : sticky_typed s → wire_title s = Some t → is_str t ∧ len t ≤ MAX_TITLE ∧ has_control t = false.
Proof.
  intros Hs H. unfold wire_title in H. destruct (title s) as [t'|] eqn:E; [|done]. simpl in H. case_match; simplify_eq. zbool.
  split; [by eapply st_title|done].
Qed.

Lemma deferred_reads l total x : Forall is_str l → each encode_entry l = Ok x → total + sum_by entry_size l ≤ MAX_DEFERRED_BYTES →
  reads (decode_deferred (length l) total) x l ∧ Forall is_byte x ∧ len x = sum_by entry_size l.
Proof.
  intros Hok. revert total x. induction Hok as [|e l He Hok IH]; intros total x Hx Ht; cbn [each length decode_deferred] in *.
  { injection Hx as <-. split; [apply reads_ret|]. by split. }
  apply result_bind_ok in Hx as (y & Hy & Hx). apply result_bind_ok in Hx as (z & Hz & Hx). injection Hx as <-.
  unfold encode_entry in Hy. Fields.puts. rewrite <- !app_assoc. cbn [sum_by foldr] in Ht. fold (sum_by entry_size l) in Ht. unfold entry_size at 1 in Ht.
  assert (0 ≤ sum_by entry_size l) by (apply sum_by_nonneg, Forall_forall; intros; unfold entry_size; lia).
  destruct (IH (total + (len e + 2)) z Hz ltac:(lia)) as (H1 & H2 & H3). pose proof He as [Hb _]. split; [|split].
  - repeat reads_step; try done; lia.
  - auto 20 with codec.
  - measure. cbn [sum_by foldr]. fold (sum_by entry_size l). unfold entry_size at 1. lia.
Qed.

Lemma deferred_canon n total :
  canon (decode_deferred n total) (λ l x, length l = n ∧ Forall is_str l ∧ each encode_entry l = Ok x ∧
    (l ≠ [] → total + sum_by entry_size l ≤ MAX_DEFERRED_BYTES)).
Proof.
  revert total. induction n as [|n IH]; intros total; cbn [decode_deferred].
  { eapply canon_impl; [apply canon_ret|]. by intros l x _ [-> ->]. }
  eapply canon_impl; [repeat first [canon_step|apply IH]|]. intros v z Hz Hx. canon_inv.
  cbn [length each]. split; [lia|]. split; [by constructor|]. unfold encode_entry at 1.
  Fields.run_put. cbn [result_bind].
  match goal with H : each encode_entry _ = Ok _ |- _ => rewrite H end. cbn [result_bind]. rewrite <- !app_assoc. split; [done|].
  intros _. cbn [sum_by foldr]. unfold entry_size at 1.
  match goal with H : ?e ≠ [] → _ |- context [foldr _ _ ?e] => destruct e; [simpl; lia|specialize (H ltac:(done)); unfold sum_by in H; lia] end.
Qed.

Lemma title_writes t x : (∀ t', t = Some t' → is_str t' ∧ len t' ≤ MAX_TITLE ∧ has_control t' = false) → encode_title t = Ok x →
  Forall is_byte x ∧ len x = match t with None => 1 | Some t => 3 + len t end ∧ reads decode_title x t.
Proof.
  intros Ht Hx. unfold decode_title. destruct t as [t|]; cbn [encode_title] in Hx.
  - destruct (Ht t eq_refl) as (Hs & Hl & Hc). pose proof Hs as [Hb _]. Fields.puts. split; [auto 20 with codec|]. split; [measure; lia|].
    unfold MAX_TITLE in *. repeat reads_step; simpl; try lia. repeat reads_step; (done || lia).
  - injection Hx as <-. split; [auto with codec|]. split; [by measure|]. repeat reads_step; [lia|]. apply reads_ret.
Qed.

Lemma title_canon : canon decode_title (λ t x, (∀ t', t = Some t' → is_str t' ∧ len t' ≤ MAX_TITLE ∧ has_control t' = false) ∧ encode_title t = Ok x).
Proof.
  eapply canon_impl; [unfold decode_title; repeat canon_step|]. intros v z Hz Hx. canon_inv; (split; [intros t' [=]; subst|]).
  - done.
  - split_and!; (done || lia).
  - unfold encode_title. Fields.run_put. done.
Qed.

Lemma cursor_writes c : (∀ x y, c = Some (x, y) → Fields.is_u16 x ∧ Fields.is_u16 y) →
  Forall is_byte (encode_cursor c) ∧ len (encode_cursor c) = match c with Some _ => 5 | None => 1 end ∧ reads decode_cursor (encode_cursor c) c.
Proof.
  intros Hc. unfold decode_cursor. destruct c as [[x y]|]; cbn [encode_cursor].
  - destruct (Hc x y eq_refl) as [[? ?] [? ?]]. split; [auto 20 with codec|]. split; [by measure|].
    repeat reads_step; simpl; try lia. repeat reads_step; (done || lia).
  - split; [auto with codec|]. split; [by measure|]. repeat reads_step; [lia|]. apply reads_ret.
Qed.

Lemma cursor_canon : canon decode_cursor (λ c x, (∀ a b, c = Some (a, b) → Fields.is_u16 a ∧ Fields.is_u16 b) ∧ x = encode_cursor c).
Proof.
  eapply canon_impl; [unfold decode_cursor; repeat canon_step|]. intros v z Hz Hx. canon_inv; (split; [|done]); intros a b [= ]; subst; done.
Qed.

Lemma bool_reads b : reads decode_bool (put_u8 (bool_byte b)) b.
Proof. unfold decode_bool. destruct b; repeat reads_step; simpl; (lia || apply reads_ret). Qed.

Lemma bool_canon : canon decode_bool (λ b x, x = put_u8 (bool_byte b)).
Proof. eapply canon_impl; [unfold decode_bool; repeat canon_step|]. intros v z Hz Hx. by canon_inv. Qed.

Lemma kept_str s : sticky_typed s → Forall is_str (kept_deferred s).
Proof. intros Hs. apply Forall_drop, st_deferred, Hs. Qed.

Lemma kept_bounds s : sum_by entry_size (kept_deferred s) ≤ MAX_DEFERRED_BYTES ∧ len (kept_deferred s) ≤ MAX_DEFERRED.
Proof.
  destruct (deferred_start_spec (deferred s)) as (H1 & H2 & _). unfold kept_deferred. split; [done|]. rewrite length_drop. lia.
Qed.

(** What is within the bounds is kept whole. *)
Lemma kept_all l : sum_by entry_size l ≤ MAX_DEFERRED_BYTES → len l ≤ MAX_DEFERRED → deferred_start l = O.
Proof.
  intros H1 H2. destruct (deferred_start_spec l) as (_ & _ & [?|[H|H]]); [done| |lia]. exfalso.
  rewrite <- (take_drop (deferred_start l - 1) l) in H1. rewrite sum_by_app in H1.
  assert (0 ≤ sum_by entry_size (take (deferred_start l - 1) l)) by (apply sum_by_nonneg, Forall_forall; intros; unfold entry_size; lia). lia.
Qed.

(** The sticky state crosses as [wire_sticky] in exactly the bytes it was counted at; encoding
    fails only on a kept entry that carries a control. *)
Lemma sticky_writes s x : sticky_typed s → encode_sticky s = Ok x →
  Forall is_byte x ∧ len x = sticky_bytes s ∧ reads decode_sticky x (wire_sticky s).
Proof.
  intros Hs Hput. unfold encode_sticky in Hput. Fields.puts. destruct (kept_bounds s) as [Hb1 Hb2]. unfold MAX_DEFERRED in Hb2.
  match goal with H : encode_title _ = Ok _ |- _ => destruct (title_writes _ _ (λ t, wire_title_ok s t Hs) H) as (T1 & T2 & T3) end.
  match goal with H : each encode_entry _ = Ok _ |- _ =>
    destruct (deferred_reads _ 0 _ (kept_str s Hs) H ltac:(lia)) as (D1 & D2 & D3) end.
  destruct (cursor_writes (saved_cursor s) (st_cursor s Hs)) as (C1 & C2 & C3). pose proof (st_kitty s Hs) as Hk. unfold is_byte in Hk.
  split; [auto 20 with codec|]. split; [measure; rewrite T2, C2; unfold sticky_bytes; lia|].
  unfold decode_sticky. repeat first [reads_step|exact T3|exact C3|apply bool_reads|rewrite Nat2Z.id; exact D1]; try lia.
  unfold MAX_DEFERRED. lia.
Qed.

(** What a decoder yields. *)
Record sticky_legal (s : StickyState) : Prop := {
  sl_typed : sticky_typed s;
  sl_title : wire_title s = title s;
  sl_kept : kept_deferred s = deferred s
}.

Lemma sticky_canon : canon decode_sticky (λ s x, sticky_legal s ∧ encode_sticky s = Ok x).
Proof.
  eapply canon_impl.
  { unfold decode_sticky. repeat first [apply title_canon|apply cursor_canon|apply bool_canon|apply deferred_canon|canon_step]. }
  intros v z Hz Hx. canon_inv. unfold MAX_DEFERRED in *.
  match goal with |- sticky_legal {| title := ?t; deferred := ?d |} ∧ _ =>
    assert (sum_by entry_size d ≤ MAX_DEFERRED_BYTES) as Hsum
      by (destruct d; [done|]; match goal with H : _ ≠ [] → _ |- _ => specialize (H ltac:(done)) end; lia);
    assert (deferred_start d = O) as Hst by (apply kept_all; [done|unfold MAX_DEFERRED; lia]) end.
  match goal with H : ∀ t', _ = Some t' → _ |- _ => rename H into Ht end.
  match goal with |- sticky_legal ?s ∧ _ => assert (kept_deferred s = deferred s) as Hkept by (unfold kept_deferred; cbn [deferred]; by rewrite Hst);
    assert (wire_title s = title s) as Htitle end.
  { unfold wire_title. cbn [title]. match goal with |- context [?o ≫= _] => destruct o as [t|]; [|done] end. simpl.
    destruct (Ht t eq_refl) as (_ & Hl & ->). by rewrite (proj2 (Z.leb_le _ _)) by done. }
  split; [split; [|done|done]|].
  - split; cbn [title kitty_keyboard saved_cursor deferred]; [|done|done|done]. intros t' Ht'. by apply Ht.
  - unfold encode_sticky. rewrite Hkept, Htitle. cbn [title kitty_keyboard bell saved_cursor pending_wrap deferred].
    match goal with H : encode_title _ = Ok _ |- _ => rewrite H end. cbn [result_bind]. Fields.run_put.
    match goal with H : each encode_entry _ = Ok _ |- _ => rewrite H end. cbn [result_bind].
    match goal with H : length ?l = Z.to_nat ?c |- _ => replace (Z.of_nat (length l)) with c by lia end. done.
Qed.

End Rows.
