(* ===== verification/Pieces.v ===== *)
(** * Screens in pieces ([crates/proto/src/lib.rs], [encode_screen_parts_into], [ScreenPart] and
    the row spans of a piece)

    A screen is a header and rows, or the ranges of runs of them that changed; [spans] cuts every
    update into entries a piece can carry, [plan_cuts] decides how many go into each piece before a
    byte is written, and [write_pieces] writes them.  An iterator is the list it yields.

    The theorems show that every piece fits the budget it was cut to and decodes, that the decoded
    pieces name each other by count and index, and that the rows they carry, put one after the
    other, are exactly the chunks of the updates; and that a screen of rows whose runs are small
    enough is always written. *)

From S2P Require Import Prelude Send Codec Fields Message Text Screen Modes Rows.

Module Pieces.
Import Codec Text Screen Rows.

(** ** Vocabulary *)

Record RowSpan := mkSpan { sp_row : Z; sp_chunk : bool; sp_col : Z; sp_byte : Z; sp_clear : bool; sp_frame : RowFrame }.

Record RowUpdate := mkUpdate { u_row : Z; u_frame : RowFrame; u_runs : nat * nat; u_clear : bool }.
Definition update_whole (row : Z) (frame : RowFrame) : RowUpdate :=
  {| u_row := row; u_frame := frame; u_runs := (O, length (runs frame)); u_clear := false |}.

Record RowEntry := mkEntry { e_row : Z; e_chunk : bool; e_clear : bool; e_frame : RowChunk }.

Record ScreenHeader := mkHeader {
  h_generation : Z; h_version : Z; h_next_off : Z; h_size : Fields.GridSize; h_cursor : option (Z * Z);
  h_visible : bool; h_shape : Modes.CursorShape; h_blinking : bool; h_modes : Z; h_sticky : StickyState
}.

Inductive ScreenPart :=
| Head (header : ScreenHeader) (base : option Z) (scroll : option ScrollBand) (pieces : Z) (rows : list RowSpan)
| Tail (generation version pieces index : Z) (rows : list RowSpan).

Definition is_applicable (b : ScrollBand) (rows : Z) : bool :=
  (top b <? bottom b) && (bottom b <=? rows) && (0 <? lines b) && (lines b <=? bottom b - top b).

Definition PART_TAG : Z := 1.
Definition PART_KIND : Z := 1.
Definition PART_BASE : Z := 8.
Definition PART_SCROLL : Z := 7.
Definition PART_PIECES : Z := 2.
Definition PART_INDEX : Z := 2.
Definition PART_GENERATION : Z := 8.
Definition PART_VERSION : Z := 8.
Definition PART_ROW_COUNT : Z := 2.
Definition PART_ROW_HEAD : Z := 8.
Definition ROW_CHUNK_FLAG : Z := 0x8000.
Definition ROW_CLEAR_TAIL_FLAG : Z := 0x4000.
Definition ROW_INDEX_MASK : Z := U16_MAX - Z.lor ROW_CHUNK_FLAG ROW_CLEAR_TAIL_FLAG.
Definition HEAD_FIXED : Z :=
  Message.LENGTH_PREFIX + PART_TAG + PART_KIND + PART_BASE + PART_SCROLL + PART_PIECES + PART_ROW_COUNT.
Definition TAIL_FIXED : Z :=
  Message.LENGTH_PREFIX + PART_TAG + PART_KIND + PART_GENERATION + PART_VERSION + PART_PIECES + PART_INDEX + PART_ROW_COUNT.
Definition SERVER_TAG_BASE : Z := 0x81.
(** [ServerTag::Screen], the position of the message in the list. *)
Definition SCREEN_TAG : Z := 10.

(** ** Cutting *)

Definition screen_prefix (h : ScreenHeader) : Z := 64 + sticky_bytes (h_sticky h).

(** The erase belongs to the last chunk of an update. *)
Fixpoint mark (row : Z) (cut clear : bool) (cs : list RowChunk) : list RowEntry :=
  match cs with
  | [] => []
  | [c] => [{| e_row := row; e_chunk := cut; e_clear := clear; e_frame := c |}]
  | c :: cs => {| e_row := row; e_chunk := cut; e_clear := false; e_frame := c |} :: mark row cut clear cs
  end.

(** What [Spans] yields of one update. *)
Definition entries_of (budget : Z) (u : RowUpdate) : list RowEntry :=
  let it := span (u_frame u) (u_runs u) budget in
  let cut := budget <? span_len (u_frame u) (u_runs u) in
  match all_chunks it with
  | [] => if u_clear u
          then [{| e_row := u_row u; e_chunk := cut; e_clear := true;
                   e_frame := {| c_text := []; c_runs := []; c_cells := 0; c_col := (start it).1; c_byte := (start it).2 |} |}]
          else []
  | cs => mark (u_row u) cut (u_clear u) cs
  end.
Definition spans (budget : Z) (rows : list RowUpdate) : list RowEntry := concat (entries_of budget <$> rows).

Definition entry_cost (e : RowEntry) : Z := PART_ROW_HEAD + chunk_encoded_len (e_frame e).

(** How many entries go into each piece, and its size: decided before a byte is written. *)
Fixpoint plan_cuts (budget : Z) (l : list RowEntry) (used : Z) (count : nat) : result (list (nat * Z)) EncodeError :=
  match l with
  | [] => Ok [(count, used)]
  | e :: l =>
      let cost := entry_cost e in
      let full := (budget <? used + cost) && negb ((count =? 0)%nat && (used =? TAIL_FIXED)) in
      let used' := if full then TAIL_FIXED else used in
      let count' := if full then O else count in
      if budget <? used' + cost then Err EOversize
      else
        let? cuts := plan_cuts budget l (used' + cost) (S count') in
        Ok (if full then (count, used) :: cuts else cuts)
  end.

Definition encode_scroll (s : option ScrollBand) : list Z :=
  match s with
  | None => put_u8 0
  | Some band => put_u8 1 ++ put_u16 (top band) ++ put_u16 (bottom band) ++ put_u16 (lines band)
  end.
Definition encode_header (h : ScreenHeader) : result (list Z) EncodeError :=
  let? sticky := encode_sticky (h_sticky h) in
  Ok (put_u64 (h_generation h) ++ put_u64 (h_version h) ++ put_u64 (h_next_off h) ++
      put_u16 (Fields.cols (h_size h)) ++ put_u16 (Fields.rows (h_size h)) ++ encode_cursor (h_cursor h) ++
      put_u8 (bool_byte (h_visible h)) ++ put_u8 (Modes.shape_to_wire (h_shape h)) ++ put_u8 (bool_byte (h_blinking h)) ++
      put_u32 (h_modes h) ++ sticky).

Definition encode_entry_row (e : RowEntry) : result (list Z) EncodeError :=
  if negb (Z.land (e_row e) (U16_MAX - ROW_INDEX_MASK) =? 0) then Err (RowIndex (e_row e))
  else
    let named := e_row e in
    let named := if e_chunk e then Z.lor named ROW_CHUNK_FLAG else named in
    let named := if e_clear e then Z.lor named ROW_CLEAR_TAIL_FLAG else named in
    let? chunk := encode_row_chunk (e_frame e) in
    Ok (put_u16 named ++ put_u16 (c_col (e_frame e)) ++ put_u32 (c_byte (e_frame e)) ++ chunk).
Definition encode_part_rows (count : Z) (l : list RowEntry) : result (list Z) EncodeError :=
  let? count := try_from U16_MAX count EOversize in
  let? body := each encode_entry_row l in
  Ok (put_u16 count ++ body).

(** What a [Head] and a [Tail] write before their rows. *)
Definition put_head (h : ScreenHeader) (base : option Z) (scroll : option ScrollBand) (pieces : Z) : result (list Z) EncodeError :=
  let? header := encode_header h in
  Ok (put_u8 0 ++ header ++ put_u64 (default 0 base) ++ encode_scroll scroll ++ put_u16 pieces).
Definition put_tail (generation version pieces index : Z) : list Z :=
  put_u8 1 ++ put_u64 generation ++ put_u64 version ++ put_u16 pieces ++ put_u16 index.

Fixpoint write_pieces (h : ScreenHeader) (base : option Z) (scroll : option ScrollBand) (pieces index : Z)
    (cuts : list (nat * Z)) (l : list RowEntry) : result (list (list Z)) EncodeError :=
  match cuts with
  | [] => Ok []
  | (count, _) :: cuts =>
      let? front := if index =? 0 then put_head h base scroll pieces
                    else Ok (put_tail (h_generation h) (h_version h) pieces index) in
      let? rows := encode_part_rows (Z.of_nat count) (take count l) in
      let? frame := Message.seal_frame (replicate (Z.to_nat Message.LENGTH_PREFIX) 0 ++
                      put_u8 (SCREEN_TAG + SERVER_TAG_BASE) ++ front ++ rows) in
      let? frames := write_pieces h base scroll pieces (index + 1) cuts (drop count l) in
      Ok (frame :: frames)
  end.

Definition encode_screen_parts (h : ScreenHeader) (base : option Z) (scroll : option ScrollBand) (rows : list RowUpdate)
    (budget : Z) : result (list (list Z)) EncodeError :=
  if match scroll with Some band => negb (is_applicable band (Fields.rows (h_size h))) | None => false end
  then Err (BadScroll (default (mkBand 0 0 0) scroll))
  else
    let head_fixed := HEAD_FIXED + screen_prefix h in
    if budget <? head_fixed then Err EOversize
    else
      let entries := spans (budget - TAIL_FIXED - PART_ROW_HEAD) rows in
      let? cuts := plan_cuts budget entries head_fixed O in
      let? pieces := try_from U16_MAX (len cuts) EOversize in
      if match scroll with Some _ => negb (pieces =? 1) | None => false end then Err EOversize
      else write_pieces h base scroll pieces 0 cuts entries.

(** ** A piece on its own *)

Definition span_borrow (s : RowSpan) : RowEntry :=
  let w := whole (sp_frame s) in
  {| e_row := sp_row s; e_chunk := sp_chunk s; e_clear := sp_clear s;
     e_frame := {| c_text := c_text w; c_runs := c_runs w; c_cells := c_cells w; c_col := sp_col s; c_byte := sp_byte s |} |}.
Definition span_encoded_len (s : RowSpan) : Z := PART_ROW_HEAD + row_encoded_len (sp_frame s).

Definition put_screen_part (p : ScreenPart) : result (list Z) EncodeError :=
  match p with
  | Head h base scroll pieces rows =>
      let? front := put_head h base scroll pieces in
      let? body := encode_part_rows (len rows) (span_borrow <$> rows) in Ok (front ++ body)
  | Tail generation version pieces index rows =>
      let? body := encode_part_rows (len rows) (span_borrow <$> rows) in
      Ok (put_tail generation version pieces index ++ body)
  end.

Definition decode_scroll (rows : Z) : dec (option ScrollBand) :=
  let! b := u8 in
  if b =? 0 then dret None
  else if b =? 1 then
    let! t := u16 in let! bo := u16 in let! l := u16 in
    let band := {| top := t; bottom := bo; lines := l |} in
    let! _ := dcheck (negb (is_applicable band rows)) InvalidField in
    dret (Some band)
  else dfail InvalidField.

Definition outside (size : Fields.GridSize) (c : option (Z * Z)) : bool :=
  match c with Some (x, y) => (Fields.cols size <=? x) || (Fields.rows size <=? y) | None => false end.

Definition decode_header : dec ScreenHeader :=
  let! g := u64 in let! g := dsome (Fields.from_u64 g) InvalidField in
  let! v := u64 in let! v := dsome (Fields.from_u64 v) InvalidField in
  let! o := u64 in
  let! c := u16 in let! r := u16 in let! size := dsome (Fields.grid_new c r) InvalidField in
  let! cursor := decode_cursor in
  let! _ := dcheck (outside size cursor) InvalidField in
  let! visible := decode_bool in
  let! shape := u8 in let! shape := dsome (Modes.shape_from_wire shape) InvalidField in
  let! blinking := decode_bool in
  let! modes := u32 in let! modes := dsome (Modes.decode modes) InvalidField in
  let! sticky := decode_sticky in
  let! _ := dcheck (outside size (saved_cursor sticky)) InvalidField in
  dret {| h_generation := g; h_version := v; h_next_off := o; h_size := size; h_cursor := cursor; h_visible := visible;
          h_shape := shape; h_blinking := blinking; h_modes := modes; h_sticky := sticky |}.

(** The loop of [decode_part_rows]; [previous] is the row and column of the span before. *)
Definition descends (previous : option (Z * Z)) (row col : Z) : bool :=
  match previous with
  | Some (last_row, last_col) => (row <? last_row) || (row =? last_row) && (col <=? last_col)
  | None => false
  end.
Definition decode_span (grid : option Fields.GridSize) (cols : Z) (previous : option (Z * Z)) : dec RowSpan :=
  let! named := u16 in
  let chunk := negb (Z.land named ROW_CHUNK_FLAG =? 0) in
  let clear := negb (Z.land named ROW_CLEAR_TAIL_FLAG =? 0) in
  let row := Z.land named ROW_INDEX_MASK in
  let! col := u16 in
  let! byte := u32 in
  let! _ := dcheck (match grid with Some grid => Fields.rows grid <=? row | None => false end) InvalidField in
  let! _ := dcheck (descends previous row col) InvalidField in
  let! frame := decode_row_frame cols in
  let! _ := dcheck ((cols <? col + cells frame) || (cols * MAX_CLUSTER_BYTES <? byte + len (text frame))) InvalidField in
  dret {| sp_row := row; sp_chunk := chunk; sp_col := col; sp_byte := byte; sp_clear := clear; sp_frame := frame |}.
Fixpoint decode_spans (n : nat) (grid : option Fields.GridSize) (cols : Z) (previous : option (Z * Z)) : dec (list RowSpan) :=
  match n with
  | O => dret []
  | S n =>
      let! s := decode_span grid cols previous in
      let! l := decode_spans n grid cols (Some (sp_row s, sp_col s)) in
      dret (s :: l)
  end.
Definition decode_part_rows (grid : option Fields.GridSize) : dec (list RowSpan) :=
  let! count := u16 in
  let! _ := dcheck (match grid with Some grid => Fields.rows grid | None => Fields.MAX_ROWS end <? count) InvalidField in
  let cols := match grid with Some grid => Fields.cols grid | None => Fields.MAX_COLS end in
  decode_spans (Z.to_nat count) grid cols None.

Definition decode_screen_part : dec ScreenPart :=
  let! kind := u8 in
  if kind =? 0 then
    let! h := decode_header in
    let! base := u64 in
    let! scroll := decode_scroll (Fields.rows (h_size h)) in
    let! pieces := u16 in
    let! _ := dcheck ((pieces =? 0) || (match scroll with Some _ => true | None => false end && negb (pieces =? 1))) InvalidField in
    let! rows := decode_part_rows (Some (h_size h)) in
    dret (Head h (Fields.from_u64 base) scroll pieces rows)
  else if kind =? 1 then
    let! g := u64 in let! g := dsome (Fields.from_u64 g) InvalidField in
    let! v := u64 in let! v := dsome (Fields.from_u64 v) InvalidField in
    let! pieces := u16 in
    let! index := u16 in
    let! _ := dcheck ((pieces <? 2) || (index =? 0) || (pieces <=? index)) InvalidField in
    let! rows := decode_part_rows None in
    dret (Tail g v pieces index rows)
  else dfail InvalidField.

Definition part_hint (p : ScreenPart) : Z :=
  match p with
  | Head h _ _ _ rows => PART_KIND + (screen_prefix h + PART_BASE + PART_SCROLL) + PART_PIECES + PART_ROW_COUNT + sum_by span_encoded_len rows
  | Tail _ _ _ _ rows => PART_KIND + (PART_GENERATION + PART_VERSION + PART_INDEX) + PART_PIECES + PART_ROW_COUNT + sum_by span_encoded_len rows
  end.
Definition Piece : Field ScreenPart := {| hint := part_hint; put := put_screen_part; get := decode_screen_part |}.

(** ** Spans of a piece *)

Definition named_row (row : Z) (chunk clear : bool) : Z :=
  let named := if chunk then Z.lor row ROW_CHUNK_FLAG else row in
  if clear then Z.lor named ROW_CLEAR_TAIL_FLAG else named.

Lemma high_bits row n : 0 ≤ row < 2 ^ 14 → 14 ≤ n → Z.testbit row n = false.
Proof.
  intros Hr Hn. apply Z.testbit_false; [lia|]. rewrite Z.div_small; [done|]. split; [lia|]. eapply Z.lt_le_trans; [apply Hr|].
  apply Z.pow_le_mono_r; lia.
Qed.

Lemma named_bits row chunk clear n : 0 ≤ n →
  Z.testbit (named_row row chunk clear) n = Z.testbit row n || chunk && (n =? 15) || clear && (n =? 14).
Proof.
  intros Hn. unfold named_row. change ROW_CHUNK_FLAG with (2 ^ 15). change ROW_CLEAR_TAIL_FLAG with (2 ^ 14).
  destruct chunk, clear; cbn [andb]; rewrite ?Z.lor_spec, ?Z.pow2_bits_eqb, ?orb_false_r, 1?(Z.eqb_sym 15), 1?(Z.eqb_sym 14) by lia; done.
Qed.

Lemma named_reads row chunk clear : 0 ≤ row < 2 ^ 14 →
  0 ≤ named_row row chunk clear ≤ U16_MAX ∧
  negb (Z.land (named_row row chunk clear) ROW_CHUNK_FLAG =? 0) = chunk ∧
  negb (Z.land (named_row row chunk clear) ROW_CLEAR_TAIL_FLAG =? 0) = clear ∧
  Z.land (named_row row chunk clear) ROW_INDEX_MASK = row.
Proof.
  intros Hr. change ROW_CHUNK_FLAG with (Z.shiftl 1 15). change ROW_CLEAR_TAIL_FLAG with (Z.shiftl 1 14).
  change ROW_INDEX_MASK with (Z.ones 14). rewrite !land_bit by lia. rewrite !named_bits by lia. rewrite !high_bits by (done || lia).
  split_and!.
  - unfold named_row. destruct chunk, clear; rewrite ?Z.lor_nonneg; unfold ROW_CHUNK_FLAG, ROW_CLEAR_TAIL_FLAG; lia.
  - enough (named_row row chunk clear < 2 ^ 16) by lia. apply Z.nle_gt. intros Hle.
    assert (16 ≤ Z.log2 (named_row row chunk clear)) as Hl by (apply Z.log2_le_pow2; lia).
    pose proof (Z.bit_log2 (named_row row chunk clear) ltac:(lia)) as Hb. rewrite named_bits, high_bits in Hb by lia.
    destruct (Z.eqb_spec (Z.log2 (named_row row chunk clear)) 15), (Z.eqb_spec (Z.log2 (named_row row chunk clear)) 14); try lia.
  - by destruct chunk, clear.
  - by destruct chunk, clear.
  - apply Z.bits_inj'. intros n Hn. rewrite Z.land_spec, named_bits by done. destruct (Z.lt_ge_cases n 14).
    + rewrite Z.ones_spec_low by lia. rewrite (proj2 (Z.eqb_neq n 15)), (proj2 (Z.eqb_neq n 14)) by lia.
      by rewrite !andb_false_r, !orb_false_r, andb_true_r.
    + rewrite Z.ones_spec_high by lia. by rewrite andb_false_r, high_bits by lia.
Qed.

(** An entry that lies inside a grid of [cols] columns (and [rows] rows, where the piece knows). *)
Record entry_fits (rows cols : Z) (e : RowEntry) : Prop := {
  ef_row : 0 ≤ e_row e < rows;
  ef_frame : frame_fits cols (frame_of (e_frame e));
  ef_col : 0 ≤ c_col (e_frame e) ∧ c_col (e_frame e) + c_cells (e_frame e) ≤ cols;
  ef_byte : 0 ≤ c_byte (e_frame e) ∧ c_byte (e_frame e) + len (c_text (e_frame e)) ≤ cols * MAX_CLUSTER_BYTES
}.

(** What an entry is once decoded. *)
Definition entry_span (e : RowEntry) : RowSpan :=
  {| sp_row := e_row e; sp_chunk := e_chunk e; sp_col := c_col (e_frame e); sp_byte := c_byte (e_frame e);
     sp_clear := e_clear e; sp_frame := inert (frame_of (e_frame e)) |}.

(** Entries in the order a piece states them. *)
Fixpoint ascending (previous : option (Z * Z)) (l : list RowEntry) : Prop :=
  match l with
  | [] => True
  | e :: l => descends previous (e_row e) (c_col (e_frame e)) = false ∧ ascending (Some (e_row e, c_col (e_frame e))) l
  end.

Definition grid_rows (grid : option Fields.GridSize) : Z := match grid with Some g => Fields.rows g | None => Fields.MAX_ROWS end.
Definition grid_cols (grid : option Fields.GridSize) : Z := match grid with Some g => Fields.cols g | None => Fields.MAX_COLS end.
(** Rows a span may name: a tail knows no grid, and takes any the mask leaves. *)
Definition row_limit (grid : option Fields.GridSize) : Z := match grid with Some g => Fields.rows g | None => 2 ^ 14 end.
Definition grid_ok (grid : option Fields.GridSize) : Prop := ∀ g, grid = Some g → Fields.is_grid g.

Lemma grid_bounds grid : grid_ok grid → 1 ≤ grid_rows grid ≤ 512 ∧ 1 ≤ grid_cols grid ≤ 1024 ∧ grid_rows grid ≤ row_limit grid ≤ 2 ^ 14.
Proof. destruct grid as [g|]; intros H; [destruct (H g eq_refl)|]; unfold row_limit, grid_rows, grid_cols, Fields.MAX_ROWS, Fields.MAX_COLS in *; lia. Qed.

Lemma entry_writes e x : is_str (c_text (e_frame e)) → encode_entry_row e = Ok x → Forall is_byte x ∧ len x = entry_cost e.
Proof.
  intros Hs Hput. unfold encode_entry_row in Hput. Fields.puts.
  match goal with H : encode_row_chunk _ = Ok _ |- _ => destruct (chunk_writes _ _ H Hs) end.
  split; [auto 20 with codec|]. measure. unfold entry_cost, PART_ROW_HEAD. lia.
Qed.

Lemma entries_writes l x : Forall (λ e, is_str (c_text (e_frame e))) l → each encode_entry_row l = Ok x →
  Forall is_byte x ∧ len x = sum_by entry_cost l.
Proof.
  intros Hl. revert x. induction Hl as [|e l Hle Hl IH]; intros x Hx; cbn [each] in Hx; [by injection Hx as <-|].
  apply result_bind_ok in Hx as (y & Hy & Hx). apply result_bind_ok in Hx as (z & Hz & Hx). injection Hx as <-.
  destruct (entry_writes e y Hle Hy), (IH z Hz). split; [by apply Forall_app|].
  rewrite length_app. cbn [sum_by foldr]. unfold sum_by in *. lia.
Qed.

Lemma entry_reads grid previous e x :
  grid_ok grid → entry_fits (row_limit grid) (grid_cols grid) e → descends previous (e_row e) (c_col (e_frame e)) = false →
  encode_entry_row e = Ok x → reads (decode_span grid (grid_cols grid) previous) x (entry_span e).
Proof.
  intros Hg [Hrow Hf [Hc1 Hc2] [Hb1 Hb2]] Hd Hput. destruct (grid_bounds grid Hg) as (Hgr & Hgc & Hgl). unfold MAX_CLUSTER_BYTES in *.
  unfold encode_entry_row in Hput. Fields.puts. change (if e_clear e then _ else _) with (named_row (e_row e) (e_chunk e) (e_clear e)).
  destruct (named_reads (e_row e) (e_chunk e) (e_clear e) ltac:(lia)) as (N1 & N2 & N3 & N4).
  destruct (fits_cells _ _ Hf) as [Hc0 _]. cbn [cells frame_of] in Hc0. destruct (blank_ok _ (fits_text _ _ Hf)) as (_ & Hl & _). cbn [text frame_of] in Hl.
  unfold decode_span, MAX_CLUSTER_BYTES. repeat first [eapply frame_reads; [lia|exact Hf|eassumption]|reads_step]; try lia; rewrite ?N4; try done.
  - destruct grid; [|done]. cbn [row_limit] in *. lia.
  - cbn [cells text inert frame_of]. rewrite Hl. lia.
  - unfold entry_span. rewrite N2, N3. apply reads_ret.
Qed.

Lemma spans_reads grid previous l x :
  grid_ok grid → Forall (entry_fits (row_limit grid) (grid_cols grid)) l → ascending previous l →
  each encode_entry_row l = Ok x → reads (decode_spans (length l) grid (grid_cols grid) previous) x (entry_span <$> l).
Proof.
  intros Hg Hl. revert previous x. induction Hl as [|e l He Hl IH]; intros previous x Ha Hx; cbn [each length decode_spans ascending] in *.
  { injection Hx as <-. apply reads_ret. }
  apply result_bind_ok in Hx as (y & Hy & Hx). apply result_bind_ok in Hx as (z & Hz & Hx). injection Hx as <-. destruct Ha as [Hd Ha].
  eapply reads_bind; [by apply entry_reads|]. cbn [entry_span sp_row sp_col]. eapply reads_last; [by apply IH|]. apply reads_ret.
Qed.

Lemma part_rows_reads grid l x :
  grid_ok grid → Forall (entry_fits (row_limit grid) (grid_cols grid)) l → ascending None l → len l ≤ grid_rows grid →
  encode_part_rows (len l) l = Ok x →
  reads (decode_part_rows grid) x (entry_span <$> l) ∧ Forall is_byte x ∧ len x = PART_ROW_COUNT + sum_by entry_cost l.
Proof.
  intros Hg Hl Ha Hn Hput. destruct (grid_bounds grid Hg) as [Hgr _]. unfold encode_part_rows in Hput. Fields.puts.
  match goal with H : each encode_entry_row _ = Ok _ |- _ => rename H into He end. split; [|].
  - unfold decode_part_rows. repeat reads_step; [lia|fold (grid_rows grid); lia|]. rewrite Nat2Z.id. by apply spans_reads.
  - destruct (entries_writes l _ (list.Forall_impl _ _ _ Hl (λ e He, fits_text _ _ (ef_frame _ _ _ He))) He).
    split; [auto with codec|]. measure. unfold PART_ROW_COUNT. lia.
Qed.

(** ** The header *)

Definition cursor_in (size : Fields.GridSize) (c : option (Z * Z)) : Prop :=
  ∀ x y, c = Some (x, y) → 0 ≤ x < Fields.cols size ∧ 0 ≤ y < Fields.rows size.

Record header_ok (h : ScreenHeader) : Prop := {
  ho_generation : 0 < h_generation h ≤ U64_MAX;
  ho_version : 0 < h_version h ≤ U64_MAX;
  ho_next_off : Fields.is_u64 (h_next_off h);
  ho_size : Fields.is_grid (h_size h);
  ho_cursor : cursor_in (h_size h) (h_cursor h);
  ho_modes : Modes.is_set (h_modes h);
  ho_sticky : sticky_typed (h_sticky h);
  ho_saved : cursor_in (h_size h) (saved_cursor (h_sticky h))
}.
Definition wire_header (h : ScreenHeader) : ScreenHeader :=
  {| h_generation := h_generation h; h_version := h_version h; h_next_off := h_next_off h; h_size := h_size h;
     h_cursor := h_cursor h; h_visible := h_visible h; h_shape := h_shape h; h_blinking := h_blinking h;
     h_modes := h_modes h; h_sticky := wire_sticky (h_sticky h) |}.

Lemma shape_wire c v : Modes.shape_from_wire v = Some c ↔ v = Modes.shape_to_wire c.
Proof. unfold Modes.shape_from_wire. split; [repeat zcase; intros; simplify_eq/=; done|]. intros ->. by destruct c. Qed.
Lemma shape_byte c : 0 ≤ Modes.shape_to_wire c < 256.
Proof. destruct c; simpl; lia. Qed.

Lemma inside size c : cursor_in size c → outside size c = false.
Proof.
  intros H. destruct c as [[x y]|]; [|done]. destruct (H x y eq_refl). apply orb_false_intro; apply Z.leb_gt; lia.
Qed.

Lemma modes_u32 m : Modes.is_set m → 0 ≤ m ≤ U32_MAX.
Proof. intros [? ?]. lia. Qed.

Lemma header_writes h x : header_ok h → encode_header h = Ok x →
  Forall is_byte x ∧ len x ≤ 40 + sticky_bytes (h_sticky h) ∧ reads decode_header x (wire_header h).
Proof.
  intros [Hg Hv Ho [Hs1 Hs2] Hc Hm Hst Hsc] Hput. unfold encode_header in Hput. Fields.puts. unfold Fields.is_u64, Fields.MAX_COLS, Fields.MAX_ROWS in *.
  assert (∀ x y, h_cursor h = Some (x, y) → Fields.is_u16 x ∧ Fields.is_u16 y) as Hc16.
  { intros a b E. destruct (Hc a b E). unfold Fields.is_u16. lia. }
  destruct (cursor_writes (h_cursor h) Hc16) as (C1 & C2 & C3). pose proof (modes_u32 _ Hm).
  match goal with H : encode_sticky _ = Ok _ |- _ => destruct (sticky_writes _ _ Hst H) as (T1 & T2 & T3) end.
  split; [auto 20 with codec|]. split; [measure; rewrite C2, T2; case_match; lia|]. pose proof (shape_byte (h_shape h)).
  unfold decode_header. repeat first [exact C3|exact T3|apply bool_reads|reads_step]; try lia.
  - apply Fields.from_u64_spec. lia.
  - apply Fields.from_u64_spec. lia.
  - apply Fields.grid_new_spec. unfold Fields.MAX_COLS, Fields.MAX_ROWS. split; [by destruct (h_size h)|lia].
  - by apply inside.
  - by apply shape_wire.
  - rewrite Modes.decode_spec by done. by rewrite decide_True.
  - by apply inside.
Qed.

Lemma header_canon : canon decode_header (λ h x, header_ok h ∧ sticky_legal (h_sticky h) ∧ encode_header h = Ok x).
Proof.
  eapply canon_impl.
  { unfold decode_header. repeat first [apply cursor_canon|apply sticky_canon|apply bool_canon|canon_step]. }
  intros v z Hz Hx. canon_inv.
  repeat match goal with
  | H : Fields.from_u64 _ = Some _ |- _ => apply Fields.from_u64_spec in H as (-> & ?)
  | H : Fields.grid_new _ _ = Some _ |- _ => apply Fields.grid_new_spec in H as (-> & ? & ?)
  | H : Modes.shape_from_wire _ = Some _ |- _ => apply shape_wire in H as ->
  | H : Modes.decode _ = Some _ |- _ => rewrite Modes.decode_spec in H by lia; case_decide; simplify_eq
  end.
  match goal with H : sticky_legal _ |- _ => pose proof (sl_typed _ H) as Hst end.
  assert (∀ size c, (∀ a b, c = Some (a, b) → Fields.is_u16 a ∧ Fields.is_u16 b) → outside size c = false → cursor_in size c) as Hin.
  { intros size c Hc Ho a b ->. destruct (Hc a b eq_refl) as [[? ?] [? ?]]. unfold outside in Ho. zbool. lia. }
  split; [|split; [done|]].
  - split; cbn [h_generation h_version h_next_off h_size h_cursor h_modes h_sticky]; try lia; try done.
    + by apply Hin.
    + apply Hin; [apply st_cursor, Hst|done].
  - unfold encode_header. cbn [h_generation h_version h_next_off h_size h_cursor h_visible h_shape h_blinking h_modes h_sticky].
    match goal with H : encode_sticky _ = Ok _ |- _ => rewrite H end. done.
Qed.

Definition band_ok (rows : Z) (s : option ScrollBand) : Prop :=
  ∀ b, s = Some b → is_applicable b rows = true ∧ 0 ≤ top b.

Lemma band_u16 rows b : rows ≤ U16_MAX → is_applicable b rows = true → 0 ≤ top b →
  Fields.is_u16 (top b) ∧ Fields.is_u16 (bottom b) ∧ Fields.is_u16 (lines b).
Proof. intros Hr Hb Ht. unfold is_applicable in Hb. zbool. unfold Fields.is_u16. lia. Qed.

Lemma scroll_writes rows s : rows ≤ U16_MAX → band_ok rows s →
  Forall is_byte (encode_scroll s) ∧ len (encode_scroll s) ≤ PART_SCROLL ∧ reads (decode_scroll rows) (encode_scroll s) s.
Proof.
  intros Hr Hs. unfold decode_scroll, PART_SCROLL. destruct s as [b|]; cbn [encode_scroll].
  - destruct (Hs b eq_refl) as [Ha Ht]. destruct (band_u16 rows b Hr Ha Ht) as (? & ? & ?). unfold Fields.is_u16 in *.
    split; [auto 20 with codec|]. split; [by measure|]. repeat reads_step; simpl; [lia|]. repeat reads_step; try lia.
    + destruct b. cbn [top bottom lines] in *. by rewrite Ha.
    + destruct b. apply reads_ret.
  - split; [auto with codec|]. split; [by measure|]. repeat reads_step; [lia|]. apply reads_ret.
Qed.

Lemma scroll_canon rows : canon (decode_scroll rows) (λ s x, band_ok rows s ∧ x = encode_scroll s).
Proof.
  eapply canon_impl; [unfold decode_scroll; repeat canon_step|]. intros v z Hz Hx. canon_inv; (split; [|done]); intros b [= <-].
  split; [done|]. simpl. lia.
Qed.

(** ** What a decoder yields of a piece *)

Record span_ok (grid : option Fields.GridSize) (s : RowSpan) : Prop := {
  so_row : 0 ≤ sp_row s < 2 ^ 14 ∧ ∀ g, grid = Some g → sp_row s < Fields.rows g;
  so_frame : frame_fits (grid_cols grid) (sp_frame s) ∧ has_control (text (sp_frame s)) = false;
  so_col : 0 ≤ sp_col s ∧ sp_col s + cells (sp_frame s) ≤ grid_cols grid;
  so_byte : 0 ≤ sp_byte s ∧ sp_byte s + len (text (sp_frame s)) ≤ grid_cols grid * MAX_CLUSTER_BYTES
}.
Fixpoint spans_sorted (previous : option (Z * Z)) (l : list RowSpan) : Prop :=
  match l with
  | [] => True
  | s :: l => descends previous (sp_row s) (sp_col s) = false ∧ spans_sorted (Some (sp_row s, sp_col s)) l
  end.
Definition rows_ok (grid : option Fields.GridSize) (l : list RowSpan) : Prop :=
  Forall (span_ok grid) l ∧ spans_sorted None l ∧ len l ≤ grid_rows grid.

Definition part_ok (p : ScreenPart) : Prop :=
  match p with
  | Head h base scroll pieces rows =>
      header_ok h ∧ sticky_legal (h_sticky h) ∧ (∀ b, base = Some b → 0 < b ≤ U64_MAX) ∧ band_ok (Fields.rows (h_size h)) scroll ∧
      1 ≤ pieces ≤ U16_MAX ∧ (scroll ≠ None → pieces = 1) ∧ rows_ok (Some (h_size h)) rows
  | Tail generation version pieces index rows =>
      0 < generation ≤ U64_MAX ∧ 0 < version ≤ U64_MAX ∧ 1 ≤ index < pieces ∧ pieces ≤ U16_MAX ∧ rows_ok None rows
  end.

Lemma mask_range v : 0 ≤ Z.land v ROW_INDEX_MASK < 2 ^ 14.
Proof. change ROW_INDEX_MASK with (Z.ones 14). rewrite Z.land_ones by lia. apply Z.mod_pos_bound. lia. Qed.

(** Painted to its end: a span that does not end in unstyled spaces, which a row is written without. *)
Definition painted_span (s : RowSpan) : Prop := painted_bytes (sp_frame s) = len (text (sp_frame s)).
Definition part_rows (p : ScreenPart) : list RowSpan := match p with Head _ _ _ _ rows => rows | Tail _ _ _ _ rows => rows end.
Definition painted (p : ScreenPart) : Prop := Forall painted_span (part_rows p).

Lemma named_again v : 0 ≤ v ≤ U16_MAX →
  named_row (Z.land v ROW_INDEX_MASK) (negb (Z.land v ROW_CHUNK_FLAG =? 0)) (negb (Z.land v ROW_CLEAR_TAIL_FLAG =? 0)) = v.
Proof.
  intros Hv. apply Z.bits_inj'. intros n Hn. rewrite named_bits by done. change ROW_CHUNK_FLAG with (Z.shiftl 1 15). change ROW_CLEAR_TAIL_FLAG with (Z.shiftl 1 14). rewrite !land_bit by lia.
  change ROW_INDEX_MASK with (Z.ones 14). rewrite Z.land_spec. destruct (Z.lt_ge_cases n 14).
  - rewrite Z.ones_spec_low by lia. rewrite (proj2 (Z.eqb_neq n 15)), (proj2 (Z.eqb_neq n 14)) by lia. by rewrite !andb_false_r, !orb_false_r, andb_true_r.
  - rewrite Z.ones_spec_high by lia. rewrite andb_false_r. cbn [orb]. destruct (Z.eqb_spec n 15) as [->|]; [by rewrite andb_true_r, andb_false_r, orb_false_r|]. rewrite andb_false_r. cbn [orb].
    destruct (Z.eqb_spec n 14) as [->|]; [by rewrite andb_true_r|]. rewrite andb_false_r. symmetry. apply Z.testbit_false; [lia|]. rewrite Z.div_small; [done|]. split; [lia|]. apply Z.lt_le_trans with (2 ^ 16); [lia|]. apply Z.pow_le_mono_r; lia.
Qed.
Lemma row_mask v : Z.land (Z.land v ROW_INDEX_MASK) (U16_MAX - ROW_INDEX_MASK) = 0.
Proof. rewrite <- Z.land_assoc. change (Z.land ROW_INDEX_MASK (U16_MAX - ROW_INDEX_MASK)) with 0. apply Z.land_0_r. Qed.
Lemma whole_painted f : painted_bytes f = len (text f) → c_text (whole f) = text f.
Proof. intros H. unfold whole. cbn. rewrite H. apply take_ge. lia. Qed.

Lemma span_canon grid previous : grid_ok grid →
  canon (decode_span grid (grid_cols grid) previous) (λ s x, span_ok grid s ∧ descends previous (sp_row s) (sp_col s) = false ∧ (painted_span s → encode_entry_row (span_borrow s) = Ok x)).
Proof.
  intros Hg. destruct (grid_bounds grid Hg) as (_ & Hc & _). eapply canon_impl.
  { unfold decode_span. repeat first [apply frame_canon; lia|canon_step]. }
  intros v z Hz Hx. canon_inv. cbn [sp_row sp_col]. split; [|split; [done|]].
  - split; cbn [sp_row sp_col sp_byte sp_frame]; try done; try lia. split; [apply mask_range|]. intros g ->. lia.
  - unfold painted_span. cbn [sp_frame]. intros Hp. unfold encode_entry_row, span_borrow. cbn [e_row e_chunk e_clear e_frame sp_row sp_chunk sp_clear sp_frame sp_col sp_byte c_col c_byte].
    rewrite row_mask. cbn [Z.eqb negb]. match goal with H : encode_row_chunk (chunk_whole ?f) = Ok _ |- _ => rewrite (whole_painted f Hp); unfold encode_row_chunk, chunk_whole in *; cbn [c_text c_runs c_cells whole] in *; rewrite H end.
    cbn [result_bind]. match goal with |- context [Z.land ?v ROW_CLEAR_TAIL_FLAG] => pose proof (named_again v ltac:(done)) as Hv end.
    unfold named_row in Hv. rewrite Hv. done.
Qed.

Lemma spans_canon n grid previous : grid_ok grid →
  canon (decode_spans n grid (grid_cols grid) previous) (λ l x, length l = n ∧ Forall (span_ok grid) l ∧ spans_sorted previous l ∧ (Forall painted_span l → each encode_entry_row (span_borrow <$> l) = Ok x)).
Proof.
  intros Hg. revert previous. induction n as [|n IH]; intros previous; cbn [decode_spans].
  { eapply canon_impl; [apply canon_ret|]. by intros l x _ [-> ->]. }
  eapply canon_impl; [repeat first [by apply span_canon|canon_step|apply IH]|]. intros v z Hz Hx. canon_inv. cbn [length spans_sorted].
  split; [lia|]. split; [by constructor|]. split; [done|]. intros [Hp1 Hp2]%list.Forall_cons. cbn [fmap list_fmap each].
  repeat match goal with H : _ → _ = Ok _ |- _ => rewrite H by done; clear H; cbn [result_bind] end. done.
Qed.

Lemma part_rows_canon grid : grid_ok grid → canon (decode_part_rows grid) (λ l x, rows_ok grid l ∧ (Forall painted_span l → encode_part_rows (len l) (span_borrow <$> l) = Ok x)).
Proof.
  intros Hg. eapply canon_impl; [unfold decode_part_rows; fold (grid_rows grid) (grid_cols grid); repeat first [by apply spans_canon|canon_step]|].
  intros v z Hz Hx. canon_inv. split; [split; [done|]; split; [done|]; lia|]. intros Hp. unfold encode_part_rows, try_from.
  match goal with H : length v = Z.to_nat ?c |- _ => replace (len v) with c by lia end. rewrite (proj2 (Z.leb_le _ _)) by lia. cbn [result_bind].
  match goal with H : _ → each _ _ = Ok _ |- _ => by rewrite H end.
Qed.

Lemma part_canon : canon decode_screen_part (λ p x, part_ok p ∧ (painted p → put_screen_part p = Ok x)).
Proof.
  eapply canon_impl.
  { unfold decode_screen_part. repeat first [apply header_canon|apply scroll_canon|apply part_rows_canon|canon_step].
    - intros g [= <-]. cbv beta in *. destruct_and?. by apply ho_size.
    - by intros g [=]. }
  intros v z Hz Hx. canon_inv; (split; [cbn [part_ok]|unfold painted; cbn [part_rows put_screen_part]; intros Hp]).
  - split_and!; try done; try lia.
    + intros b Hb. apply Fields.from_u64_spec in Hb. lia.
    + intros Hs. repeat match goal with H : context [match ?o with Some _ => _ | None => _ end] |- _ => destruct o end; [|done].
      match goal with H : true && negb _ = false |- _ => cbn [andb] in H end. zbool. done.
  - unfold put_head. match goal with H : encode_header _ = Ok _ |- _ => rewrite H end. cbn [result_bind]. match goal with H : _ → encode_part_rows _ _ = Ok _ |- _ => rewrite (H Hp) end. cbn [result_bind].
    match goal with |- context [Fields.from_u64 ?b] => assert (default 0 (Fields.from_u64 b) = b) as -> by (unfold Fields.from_u64; destruct (Z.eqb_spec b 0); simpl; lia) end. by rewrite <- !app_assoc.
  - repeat match goal with H : Fields.from_u64 _ = Some _ |- _ => apply Fields.from_u64_spec in H as (-> & ?) end.
    split_and!; try done; lia.
  - repeat match goal with H : Fields.from_u64 _ = Some _ |- _ => apply Fields.from_u64_spec in H as (-> & ?) end.
    match goal with H : _ → encode_part_rows _ _ = Ok _ |- _ => rewrite (H Hp) end. cbn [result_bind]. unfold put_tail. by rewrite <- !app_assoc.
Qed.

(** ** The chunks of a row fit its grid *)

(** No more than [MAX_CLUSTER_BYTES] a column, run by run and in the tail. *)
Record row_tight (r : RowFrame) : Prop := {
  rt_runs : Forall (λ x, run_ok x ∧ r_bytes x ≤ r_cells x * MAX_CLUSTER_BYTES) (runs r);
  rt_tail : painted_bytes r - styled_bytes r ≤ (cells r - styled_cells r) * MAX_CLUSTER_BYTES
}.

Lemma sum_tight l : Forall (λ x, run_ok x ∧ r_bytes x ≤ r_cells x * MAX_CLUSTER_BYTES) l →
  sum_by r_bytes l ≤ sum_by r_cells l * MAX_CLUSTER_BYTES.
Proof. unfold MAX_CLUSTER_BYTES. induction 1 as [|x l [_ Hx] _ IH]; simpl in *; lia. Qed.

Lemma sum_count l : Forall (λ run, 0 < r_cells run ∧ 0 ≤ r_bytes run) l → len l ≤ sum_by r_cells l.
Proof. induction 1 as [|x l [Hx _] _ IH]; simpl in *; lia. Qed.

Lemma runs_fit_sums txt cells_ cc cb l :
  (∀ j, (j ≤ length l)%nat → cc + sum_by r_cells (take j l) ≤ cells_ ∧ is_char_boundary txt (cb + sum_by r_bytes (take j l)) = true) →
  runs_fit txt cells_ cc cb l.
Proof.
  revert cc cb. induction l as [|x l IH]; intros cc cb H; [done|]. cbn [runs_fit].
  destruct (H 1%nat) as [H1 H2]; [simpl; lia|]. simpl in H1, H2. rewrite Z.add_0_r in H1, H2. split_and!; [done..|].
  apply IH. intros j Hj. destruct (H (S j)) as [H3 H4]; [simpl; lia|]. simpl in H3, H4. rewrite !Z.add_assoc in H3, H4. done.
Qed.

Section fit.
Context (r : RowFrame) (Hr : row_ok r) (Ht : row_tight r) (width : Z) (Hw : cells r ≤ width).

Lemma slice_sums a j : byte_at r (a + j) = byte_at r a + sum_by r_bytes (slice a (a + j) (runs r)) ∧
  col_at r (a + j) = col_at r a + sum_by r_cells (slice a (a + j) (runs r)).
Proof. unfold byte_at, col_at. rewrite !(at_split r _ a (a + j)) by lia. done. Qed.

(** The chunk from run [a] to run [b], ended at [tb] and [tc], fits. *)
Lemma chunk_fits a b tb tc : (a ≤ b ≤ length (runs r))%nat → byte_at r b ≤ tb ≤ len (text r) → col_at r b ≤ tc ≤ cells r →
  is_char_boundary (text r) tb = true → tb - byte_at r b ≤ (tc - col_at r b) * MAX_CLUSTER_BYTES →
  frame_fits width (frame_of (chunk_of r a b tb tc)).
Proof.
  intros Hab Htb Htc Hbd Htail. pose proof (byte_at_mono r Hr a b ltac:(lia)). pose proof (col_at_mono r Hr a b ltac:(lia)).
  pose proof (byte_at_nonneg r Hr a). pose proof (col_at_nonneg r Hr a).
  destruct (slice_sums a (b - a)) as [Sb Sc]. replace (a + (b - a))%nat with b in * by lia.
  pose proof (rt_runs r Ht) as Hruns. assert (Forall (λ x, run_ok x ∧ r_bytes x ≤ r_cells x * MAX_CLUSTER_BYTES) (slice a b (runs r))) as Hsl
    by (by apply Forall_take, Forall_drop).
  pose proof (sum_tight _ Hsl). assert (len (slice a b (runs r)) ≤ sum_by r_cells (slice a b (runs r))).
  { apply sum_count, Forall_take, Forall_drop, ok_runs, Hr. }
  unfold MAX_CLUSTER_BYTES in *. split; unfold MAX_CLUSTER_BYTES; cbn [frame_of chunk_of text runs cells c_text c_runs c_cells].
  - apply str_slice; [apply Hr|lia|apply (ok_cuts r Hr)|done].
  - rewrite length_slice. lia.
  - lia.
  - lia.
  - eapply list.Forall_impl; [exact Hsl|]. simpl. tauto.
  - apply runs_fit_sums. intros j Hj. rewrite length_slice in Hj. rewrite take_of_slice by lia. destruct (slice_sums a j) as [Sbj Scj].
    pose proof (col_at_mono r Hr (a + j) b ltac:(lia)). pose proof (byte_at_mono r Hr (a + j) b ltac:(lia)). pose proof (byte_at_mono r Hr a (a + j) ltac:(lia)).
    split; [lia|]. rewrite Z.add_0_l. unfold slice at 1. replace (Z.to_nat tb - Z.to_nat (byte_at r a))%nat with (Z.to_nat (tb - byte_at r a)) by lia.
    apply boundary_take; [lia|rewrite length_drop; lia|].
    apply boundary_drop; [lia|lia| |apply (ok_cuts r Hr)]. rewrite <- Sbj. apply (ok_cuts r Hr).
Qed.

Lemma limit_tight b : (b ≤ length (runs r))%nat → limit r b - byte_at r b ≤ (edge r b - col_at r b) * MAX_CLUSTER_BYTES.
Proof.
  intros Hb. unfold limit, edge. destruct (Nat.eqb_spec b (length (runs r))) as [->|]; [|lia].
  destruct (at_all r Hr) as [-> ->]. apply (rt_tail r Ht).
Qed.

Lemma byte_at_tight a : byte_at r a ≤ col_at r a * MAX_CLUSTER_BYTES.
Proof. apply sum_tight, Forall_take, (rt_runs r Ht). Qed.

(** Every chunk of a cut fits, and ends inside the row. *)
Lemma cut_fits bud e k cs : (e ≤ length (runs r))%nat → cut_list r bud e k cs →
  Forall (λ c, frame_fits width (frame_of c) ∧ 0 ≤ c_col c ∧ c_col c + c_cells c ≤ width ∧ 0 ≤ c_byte c ∧
               c_byte c + len (c_text c) ≤ width * MAX_CLUSTER_BYTES) cs.
Proof.
  intros He. assert (∀ a b tb tc, (a ≤ b ≤ e)%nat → byte_at r b ≤ tb ≤ len (text r) → col_at r b ≤ tc ≤ cells r →
    is_char_boundary (text r) tb = true → tb - byte_at r b ≤ (tc - col_at r b) * MAX_CLUSTER_BYTES →
    let c := chunk_of r a b tb tc in frame_fits width (frame_of c) ∧ 0 ≤ c_col c ∧ c_col c + c_cells c ≤ width ∧ 0 ≤ c_byte c ∧
      c_byte c + len (c_text c) ≤ width * MAX_CLUSTER_BYTES) as Hone.
  { intros a b tb tc Hab Htb Htc Hbd Htail c. split; [apply chunk_fits; (done || lia)|]. unfold c. cbn [chunk_of c_col c_cells c_byte c_text].
    pose proof (byte_at_nonneg r Hr a). pose proof (col_at_nonneg r Hr a). pose proof (byte_at_mono r Hr a b ltac:(lia)).
    pose proof (byte_at_tight b). unfold MAX_CLUSTER_BYTES in *. rewrite length_slice. lia. }
  induction 1 as [k Hk Hemp|k c Hk Hemp Hfit|k k' cs c Hk Hfit Hstop Hend Hcs IH];
    [constructor|apply list.Forall_singleton|apply list.Forall_cons; split; [|done]].
  - destruct (limit_range r Hr e He e ltac:(lia)) as [? ?]. apply Hone; [lia|done|done|by apply limit_boundary|by apply limit_tight].
  - pose proof (byte_at_le r Hr k'). pose proof (col_at_le r Hr k'). apply Hone; [lia|lia|lia|apply (ok_cuts r Hr)|lia].
Qed.

End fit.

(** ** The entries of a screen *)

Record update_ok (size : Fields.GridSize) (u : RowUpdate) : Prop := {
  uo_row : 0 ≤ u_row u < Fields.rows size;
  uo_frame : row_ok (u_frame u);
  uo_tight : row_tight (u_frame u);
  uo_cells : cells (u_frame u) ≤ Fields.cols size;
  uo_range : ((u_runs u).1 ≤ (u_runs u).2 ≤ length (runs (u_frame u)))%nat
}.

Lemma mark_frames row cut clear cs : e_frame <$> mark row cut clear cs = cs.
Proof. induction cs as [|c [|d cs] IH]; [done..|]. cbn [mark]. rewrite fmap_cons. f_equal. exact IH. Qed.
Lemma mark_row row cut clear cs : Forall (λ e, e_row e = row ∧ e_chunk e = cut) (mark row cut clear cs).
Proof. induction cs as [|c [|d cs] IH]; [constructor|repeat constructor|]. cbn [mark]. constructor; [done|exact IH]. Qed.

(** The chunks an update was cut into, or the empty one that carries its erase. *)
Definition frames_of (budget : Z) (u : RowUpdate) : list RowChunk :=
  match all_chunks (span (u_frame u) (u_runs u) budget) with
  | [] => if u_clear u
          then [{| c_text := []; c_runs := []; c_cells := 0; c_col := col_at (u_frame u) (u_runs u).1; c_byte := byte_at (u_frame u) (u_runs u).1 |}]
          else []
  | cs => cs
  end.

Lemma entries_mark budget size u : update_ok size u →
  entries_of budget u = mark (u_row u) (budget <? span_len (u_frame u) (u_runs u)) (u_clear u) (frames_of budget u).
Proof.
  intros [Hrow Hf Ht Hc Hr]. unfold entries_of, frames_of. destruct (u_runs u) as [a b] eqn:E. cbn [fst snd] in *.
  destruct (all_chunks _) eqn:Ea; [|done]. destruct (u_clear u) eqn:Ecl; [|done]. cbn [mark]. rewrite span_at by done.
  unfold start. cbn [cut_at cell byte fst snd]. by rewrite narrow_at.
Qed.

Lemma frames_fit budget size u : update_ok size u →
  Forall (λ c, frame_fits (Fields.cols size) (frame_of c) ∧ 0 ≤ c_col c ∧ c_col c + c_cells c ≤ Fields.cols size ∧ 0 ≤ c_byte c ∧
               c_byte c + len (c_text c) ≤ Fields.cols size * MAX_CLUSTER_BYTES) (frames_of budget u).
Proof.
  intros [Hrow Hf Ht Hc Hr]. unfold frames_of. destruct (u_runs u) as [a b] eqn:E. cbn [fst snd] in *.
  pose proof (all_chunks_cut (u_frame u) budget a b Hf Hr) as Hcut. destruct (all_chunks _) as [|c cs] eqn:Ea.
  - destruct (u_clear u); [|constructor]. apply list.Forall_singleton. cbn [c_col c_cells c_byte c_text].
    pose proof (col_at_le _ Hf a). pose proof (col_at_nonneg _ Hf a). pose proof (byte_at_nonneg _ Hf a).
    pose proof (byte_at_tight _ Ht a). unfold MAX_CLUSTER_BYTES in *.
    split; [|simpl; lia]. split; unfold MAX_CLUSTER_BYTES; cbn [frame_of text runs cells c_text c_runs c_cells]; try (simpl; lia); try done.
  - apply (cut_fits (u_frame u) Hf Ht (Fields.cols size) Hc budget b a); [lia|exact Hcut].
Qed.

Lemma entries_fit budget size u : update_ok size u →
  Forall (λ e, entry_fits (Fields.rows size) (Fields.cols size) e ∧ e_row e = u_row u) (entries_of budget u).
Proof.
  intros Hu. rewrite (entries_mark _ size) by done. pose proof (frames_fit budget size u Hu) as Hfit.
  pose proof (mark_row (u_row u) (budget <? span_len (u_frame u) (u_runs u)) (u_clear u) (frames_of budget u)) as Hrow.
  rewrite <- (mark_frames (u_row u) (budget <? span_len (u_frame u) (u_runs u)) (u_clear u) (frames_of budget u)) in Hfit at 1.
  rewrite Forall_fmap in Hfit. eapply list.Forall_impl; [apply Forall_and; exact (conj Hrow Hfit)|].
  intros e [[H1 _] (H2 & H3 & H4 & H5 & H6)]. split; [|done]. split; [rewrite H1; apply Hu|done..].
Qed.

(** Neighbours are of different rows, or together too large for a piece. *)
Definition apart (budget : Z) (e f : RowEntry) : Prop :=
  e_row e < e_row f ∨ e_row e = e_row f ∧ budget + CHUNK_FIXED < chunk_encoded_len (e_frame e) + chunk_encoded_len (e_frame f).

Lemma mark_apart budget row cut clear cs : packed budget cs → Sorted (apart budget) (mark row cut clear cs).
Proof.
  induction cs as [|c [|d cs] IH]; intros Hp; [constructor|repeat constructor|]. cbn [packed] in Hp. destruct Hp as [Hcd Hp].
  specialize (IH Hp). change (mark row cut clear (c :: d :: cs)) with
    ({| e_row := row; e_chunk := cut; e_clear := false; e_frame := c |} :: mark row cut clear (d :: cs)).
  constructor; [done|]. destruct cs; cbn [mark]; constructor; by right.
Qed.

Lemma entries_apart budget size u : update_ok size u → Sorted (apart budget) (entries_of budget u).
Proof.
  intros Hu. rewrite (entries_mark _ size) by done. apply mark_apart. destruct Hu as [Hrow Hf Ht Hc Hr]. unfold frames_of.
  destruct (u_runs u) as [a b] eqn:E. cbn [fst snd] in *. pose proof (all_chunks_cut (u_frame u) budget a b Hf Hr) as Hcut.
  destruct (all_chunks _) as [|c cs] eqn:Ea; [by destruct (u_clear u)|]. apply (cut_packed (u_frame u) Hf budget b ltac:(lia) a _ Hcut).
Qed.

Lemma Sorted_app_join {A} (R : A → A → Prop) l1 l2 : Sorted R l1 → Sorted R l2 → (∀ x y, x ∈ l1 → y ∈ l2 → R x y) → Sorted R (l1 ++ l2).
Proof.
  intros H1 H2 Hx. induction H1 as [|x l1 H1 IH Hd]; [done|]. simpl. constructor; [apply IH; intros; apply Hx; [by right|done]|].
  destruct Hd; simpl; [|by constructor]. destruct l2 as [|y l2]; constructor. apply Hx; left.
Qed.

Lemma Sorted_app_inv {A} (R : A → A → Prop) l1 l2 : Sorted R (l1 ++ l2) → Sorted R l1 ∧ Sorted R l2.
Proof.
  induction l1 as [|x l1 IH]; simpl; intros H; [split; [constructor|done]|]. apply Sorted_inv in H as [H Hd]. destruct (IH H). split; [|done].
  constructor; [done|]. destruct l1; constructor. by inversion Hd.
Qed.

Definition sorted_rows (rows : list RowUpdate) : Prop := StronglySorted (λ u v, u_row u < u_row v) rows.

Lemma spans_apart budget size rows : Forall (update_ok size) rows → sorted_rows rows →
  Sorted (apart budget) (spans budget rows) ∧ Forall (entry_fits (Fields.rows size) (Fields.cols size)) (spans budget rows).
Proof.
  unfold spans. induction 1 as [|u rows Hu Hrows IH]; intros Hs; [by split|]. apply StronglySorted_inv in Hs as [Hs Hlt].
  destruct (IH Hs) as [IH1 IH2]. rewrite fmap_cons. cbn [concat]. pose proof (entries_fit budget size u Hu) as Hfit. split.
  - apply Sorted_app_join; [by eapply entries_apart|done|]. intros x y Hx Hy. left. rewrite Forall_forall in Hfit. destruct (Hfit x Hx) as [_ ->].
    apply list_elem_of_In, in_concat in Hy as (l & Hl & Hy). apply list_elem_of_In in Hl, Hy. apply list_elem_of_fmap in Hl as (v & -> & Hv).
    rewrite Forall_forall in Hlt, Hrows. pose proof (entries_fit budget size v (Hrows v Hv)) as Hfv. rewrite Forall_forall in Hfv.
    destruct (Hfv y Hy) as [_ ->]. by apply Hlt.
  - apply Forall_app. split; [|done]. eapply list.Forall_impl; [exact Hfit|]. simpl. tauto.
Qed.

(** ** The cut into pieces *)

Definition cost (g : list RowEntry) : Z := sum_by entry_cost g.

Lemma entry_cost_pos e : 0 < entry_cost e.
Proof.
  unfold entry_cost, PART_ROW_HEAD, chunk_encoded_len, CHUNK_FIXED, style_len.
  assert (0 ≤ sum_by run_style_len (c_runs (e_frame e))); [|lia]. apply sum_by_nonneg, Forall_forall. intros x _.
  unfold run_style_len, RUN_FIXED, color_len. repeat case_match; lia.
Qed.

Lemma cost_nonneg g : 0 ≤ cost g.
Proof. apply sum_by_nonneg, Forall_forall. intros e _. pose proof (entry_cost_pos e). lia. Qed.

(** The plan groups the entries in order; only the first group may be empty. *)
Lemma plan_cuts_groups budget l used count cuts : plan_cuts budget l used count = Ok cuts →
  ∃ g gs, l = g ++ concat gs ∧
    cuts = ((count + length g)%nat, used + cost g) :: ((λ g, (length g, TAIL_FIXED + cost g)) <$> gs) ∧
    (g ≠ [] → used + cost g ≤ budget) ∧ Forall (λ g, g ≠ [] ∧ TAIL_FIXED + cost g ≤ budget) gs.
Proof.
  revert used count cuts. induction l as [|e l IH]; intros used count cuts H; cbn [plan_cuts] in H.
  { injection H as <-. exists [], []. cbn. rewrite Nat.add_0_r, Z.add_0_r. by split_and!. }
  destruct ((budget <? used + entry_cost e) && negb ((count =? 0)%nat && (used =? TAIL_FIXED))); cbv zeta iota in H;
    match type of H with (if ?b then _ else _) = _ => destruct b eqn:Eb; [discriminate H|] end; apply result_bind_ok in H as (cuts' & Hc & H); injection H as <-; zbool;
    destruct (IH _ _ _ Hc) as (g & gs & -> & -> & Hg & Hgs).
  - exists [], ((e :: g) :: gs). split; [done|]. rewrite fmap_cons. cbn [length]. unfold cost in *. cbn [sum_by foldr]. rewrite Nat.add_0_r, Z.add_0_r.
    split; [unfold sum_by; rewrite Z.add_assoc; done|]. split; [done|]. constructor; [|done]. split; [done|]. destruct g as [|f g]; [simpl; lia|].
    specialize (Hg ltac:(done)). unfold sum_by in *. cbn [foldr] in *. lia.
  - exists (e :: g), gs. split; [done|]. unfold cost in *. cbn [sum_by foldr length]. split; [unfold sum_by; rewrite Z.add_assoc, Nat.add_succ_r; done|].
    split; [|done]. intros _. destruct g as [|f g]; [simpl; lia|]. specialize (Hg ltac:(done)). unfold sum_by in *. cbn [foldr] in *. lia.
Qed.

(** Two entries of one row never share a piece. *)
Lemma group_rows budget g : Sorted (apart (budget - TAIL_FIXED - PART_ROW_HEAD)) g → TAIL_FIXED + cost g ≤ budget →
  Sorted (λ e f, e_row e < e_row f) g.
Proof.
  intros Hs. induction Hs as [|e g Hs IH Hd]; intros Hc; [constructor|]. unfold cost in *. cbn [sum_by foldr] in Hc. pose proof (entry_cost_pos e).
  pose proof (cost_nonneg g) as Hg. unfold cost, sum_by in *. constructor; [apply IH; lia|]. destruct Hd as [|f g Hef]; constructor.
  destruct Hef as [?|[_ Hx]]; [done|]. exfalso. simpl in Hc. pose proof (cost_nonneg g) as Hg'. unfold cost, sum_by in Hg'.
  unfold entry_cost, PART_ROW_HEAD, CHUNK_FIXED in *. lia.
Qed.

Lemma rows_ascending previous g : Sorted (λ e f, e_row e < e_row f) g →
  (∀ r c e, previous = Some (r, c) → head g = Some e → r < e_row e) → ascending previous g.
Proof.
  intros Hs. revert previous. induction Hs as [|e g Hs IH Hd]; intros previous Hp; [done|]. cbn [ascending]. split.
  - destruct previous as [[r c]|]; [|done]. specialize (Hp r c e eq_refl eq_refl). unfold descends.
    rewrite (proj2 (Z.ltb_ge _ _)), (proj2 (Z.eqb_neq _ _)) by lia. done.
  - apply IH. intros r c f [= <- <-] Hf. destruct Hd; simplify_eq/=. done.
Qed.

Lemma rows_count lo hi g : Sorted (λ e f, e_row e < e_row f) g → Forall (λ e, e_row e < hi) g →
  (∀ e, head g = Some e → lo ≤ e_row e) → lo ≤ hi → len g ≤ hi - lo.
Proof.
  intros Hs. revert lo. induction Hs as [|e g Hs IH Hd]; intros lo Hh Hl Hlh; [simpl; lia|]. apply list.Forall_cons in Hh as [He Hh].
  specialize (Hl e eq_refl). cbn [length]. enough (len g ≤ hi - (e_row e + 1)) by lia.
  apply IH; [done| |lia]. intros f Hf. destruct Hd; simplify_eq/=. lia.
Qed.

Lemma seal_frame_inv payload f : Message.seal_frame (replicate (Z.to_nat Message.LENGTH_PREFIX) 0 ++ payload) = Ok f →
  f = put_u32 (len payload) ++ payload ∧ 0 < len payload ≤ Fields.MAX_FRAME.
Proof.
  unfold Message.seal_frame, Message.LENGTH_PREFIX. rewrite length_app, length_replicate. intros H.
  replace (Z.of_nat (Z.to_nat 4 + length payload) - 4) with (len payload) in H by lia.
  destruct (U32_MAX <? len payload); [done|]. destruct (_ || _) eqn:E; [done|]. zbool. injection H as <-.
  split; [done|lia].
Qed.

(** ** What each piece says *)

Definition part_of (h : ScreenHeader) (base : option Z) (scroll : option ScrollBand) (pieces index : Z) (g : list RowEntry) : ScreenPart :=
  if index =? 0 then Head (wire_header h) base scroll pieces (entry_span <$> g)
  else Tail (h_generation h) (h_version h) pieces index (entry_span <$> g).

Fixpoint numbered {A} (index : Z) (l : list A) : list (Z * A) :=
  match l with [] => [] | x :: l => (index, x) :: numbered (index + 1) l end.

(** The screen a server may send: the header, the base of a delta and the band of a scroll. *)
Record screen_ok (h : ScreenHeader) (base : option Z) (scroll : option ScrollBand) : Prop := {
  sc_header : header_ok h;
  sc_base : ∀ b, base = Some b → 0 < b ≤ U64_MAX;
  sc_top : ∀ b, scroll = Some b → 0 ≤ top b
}.

Lemma frame_fits_mono cols cols' f : cols ≤ cols' → frame_fits cols f → frame_fits cols' f.
Proof. intros H [? ? ? ? ? ?]. split; (done || lia). Qed.
Lemma entry_fits_mono rows rows' cols cols' e : rows ≤ rows' → cols ≤ cols' → entry_fits rows cols e → entry_fits rows' cols' e.
Proof.
  intros Hr Hc [? Hf ? ?]. unfold MAX_CLUSTER_BYTES in *. split; unfold MAX_CLUSTER_BYTES; [lia|by eapply frame_fits_mono|lia|lia].
Qed.

(** A piece decodes to what it was made of, in no more bytes than were planned for it. *)
Lemma piece_reads_spans h base scroll pieces index g front body :
  screen_ok h base scroll → band_ok (Fields.rows (h_size h)) scroll →
  0 ≤ index < pieces → pieces ≤ U16_MAX → (scroll ≠ None → pieces = 1) →
  let grid := if index =? 0 then Some (h_size h) else None in
  Forall (entry_fits (row_limit grid) (grid_cols grid)) g → ascending None g → len g ≤ grid_rows grid →
  (if index =? 0 then put_head h base scroll pieces else Ok (put_tail (h_generation h) (h_version h) pieces index)) = Ok front →
  encode_part_rows (len g) g = Ok body →
  reads decode_screen_part (front ++ body) (part_of h base scroll pieces index g) ∧ Forall is_byte (front ++ body) ∧
  Message.LENGTH_PREFIX + PART_TAG + len (front ++ body) ≤ (if index =? 0 then HEAD_FIXED + screen_prefix h else TAIL_FIXED) + cost g.
Proof.
  intros [Hh Hb _] Hband Hi Hp Hone grid Hg Ha Hn Hfront Hbody. pose proof (ho_size h Hh) as Hsize. pose proof Hsize as [Hs1 Hs2]. unfold grid in *.
  unfold part_of. destruct (Z.eqb_spec index 0) as [->|Hne].
  - destruct (part_rows_reads (Some (h_size h)) g body) as (R1 & R2 & R3); [by intros ? [= <-]|done|done|done|done|].
    unfold put_head in Hfront. Fields.puts. match goal with H : encode_header _ = Ok _ |- _ => destruct (header_writes h _ Hh H) as (T1 & T2 & T3) end.
    unfold Fields.MAX_ROWS in *. destruct (scroll_writes (Fields.rows (h_size h)) scroll ltac:(lia) Hband) as (C1 & C2 & C3).
    assert (0 ≤ default 0 base ≤ U64_MAX) as Hbase by (destruct base as [b|]; [specialize (Hb b eq_refl)|]; simpl; lia).
    split; [|split; [auto 20 with codec|]].
    + rewrite <- !app_assoc. unfold decode_screen_part. repeat reads_step; simpl; [lia|].
      repeat first [exact T3|exact C3|exact R1|reads_step]; try lia.
      * apply orb_false_intro; [apply Z.eqb_neq; lia|]. destruct scroll; [|done]. by rewrite Hone.
      * assert (Fields.from_u64 (default 0 base) = base) as ->; [|apply reads_ret]. destruct base as [b|]; [|done].
        specialize (Hb b eq_refl). apply Fields.from_u64_spec. simpl. lia.
    + measure. unfold HEAD_FIXED, screen_prefix, Message.LENGTH_PREFIX, PART_TAG, PART_KIND, PART_BASE, PART_SCROLL, PART_PIECES, PART_ROW_COUNT, cost in *. lia.
  - unfold Fields.MAX_ROWS, Fields.MAX_COLS in *. destruct (part_rows_reads None g body) as (R1 & R2 & R3);
      [by intros ? [=]|done|done|done|done|].
    injection Hfront as <-. destruct (ho_generation h Hh), (ho_version h Hh). unfold put_tail. split; [|split; [auto 20 with codec|]].
    + rewrite <- !app_assoc. unfold decode_screen_part. repeat reads_step; simpl; [lia|].
      repeat first [exact R1|reads_step]; try lia; apply Fields.from_u64_spec; lia.
    + measure. unfold TAIL_FIXED, Message.LENGTH_PREFIX, PART_TAG, PART_KIND, PART_GENERATION, PART_VERSION, PART_PIECES, PART_INDEX, PART_ROW_COUNT, cost in *. lia.
Qed.

Lemma group_count size g : Fields.is_grid size → Forall (entry_fits (Fields.rows size) (Fields.cols size)) g →
  Sorted (λ e f, e_row e < e_row f) g → len g ≤ Fields.rows size.
Proof.
  intros [_ Hr] Hg Hs. rewrite <- (Z.sub_0_r (Fields.rows size)). apply rows_count; [done| | |lia].
  - eapply list.Forall_impl; [exact Hg|]. intros e He. apply He.
  - intros e He. destruct g; simplify_eq/=. apply list.Forall_cons in Hg as [He _]. apply He.
Qed.

Lemma piece_reads h base scroll pieces index g front body :
  screen_ok h base scroll → band_ok (Fields.rows (h_size h)) scroll →
  0 ≤ index < pieces → pieces ≤ U16_MAX → (scroll ≠ None → pieces = 1) →
  Forall (entry_fits (Fields.rows (h_size h)) (Fields.cols (h_size h))) g → Sorted (λ e f, e_row e < e_row f) g →
  (if index =? 0 then put_head h base scroll pieces else Ok (put_tail (h_generation h) (h_version h) pieces index)) = Ok front →
  encode_part_rows (len g) g = Ok body →
  reads decode_screen_part (front ++ body) (part_of h base scroll pieces index g) ∧ Forall is_byte (front ++ body) ∧
  Message.LENGTH_PREFIX + PART_TAG + len (front ++ body) ≤ (if index =? 0 then HEAD_FIXED + screen_prefix h else TAIL_FIXED) + cost g.
Proof.
  intros Hok Hband Hi Hp Hone Hg Hs Hfront Hbody. pose proof (ho_size h (sc_header _ _ _ Hok)) as Hsize.
  pose proof (group_count _ g Hsize Hg Hs) as Hn. destruct Hsize as [Hs1 Hs2].
  unfold Fields.MAX_ROWS, Fields.MAX_COLS in *. apply piece_reads_spans; try done.
  - eapply list.Forall_impl; [exact Hg|]. intros e. apply entry_fits_mono; case_match; cbn [row_limit grid_cols]; unfold Fields.MAX_COLS; lia.
  - apply rows_ascending; [done|by intros ? ? ? [=]].
  - case_match; cbn [grid_rows]; unfold Fields.MAX_ROWS; lia.
Qed.

(** The pieces written of a plan's groups. *)
Lemma write_pieces_groups h base scroll pieces index groups cuts l frames :
  fst <$> cuts = length <$> groups → l = concat groups → write_pieces h base scroll pieces index cuts l = Ok frames →
  Forall2 (λ ig f, ∃ front body,
    (if ig.1 =? 0 then put_head h base scroll pieces else Ok (put_tail (h_generation h) (h_version h) pieces ig.1)) = Ok front ∧
    encode_part_rows (len ig.2) ig.2 = Ok body ∧
    f = put_u32 (len (put_u8 (SCREEN_TAG + SERVER_TAG_BASE) ++ front ++ body)) ++ put_u8 (SCREEN_TAG + SERVER_TAG_BASE) ++ front ++ body ∧
    len (put_u8 (SCREEN_TAG + SERVER_TAG_BASE) ++ front ++ body) ≤ Fields.MAX_FRAME) (numbered index groups) frames.
Proof.
  revert index cuts l frames. induction groups as [|g gs IH]; intros index cuts l frames Hc -> Hw; (destruct cuts as [|[n size] cuts]; [try discriminate Hc|]).
  { cbn in Hw. injection Hw as <-. constructor. }
  { discriminate Hc. }
  injection Hc as -> Hc. cbn [write_pieces concat] in Hw. rewrite take_app_length, drop_app_length in Hw.
  apply result_bind_ok in Hw as (front & Hf & Hw). apply result_bind_ok in Hw as (body & Hb & Hw).
  apply result_bind_ok in Hw as (frame & Hs & Hw). apply result_bind_ok in Hw as (rest & Hr & Hw). injection Hw as <-.
  apply seal_frame_inv in Hs as [-> Hlen]. cbn [numbered]. constructor; [exists front, body; split_and!; try done; lia|]. by eapply IH.
Qed.

(** What a frame of a piece is: its length, its tag, and bytes that decode to [p]. *)
Definition carries (budget : Z) (f : list Z) (p : ScreenPart) : Prop :=
  len f ≤ budget ∧ ∃ x, f = put_u32 (len (put_u8 (SCREEN_TAG + SERVER_TAG_BASE) ++ x)) ++ put_u8 (SCREEN_TAG + SERVER_TAG_BASE) ++ x ∧
    len (put_u8 (SCREEN_TAG + SERVER_TAG_BASE) ++ x) ≤ Fields.MAX_FRAME ∧ Forall is_byte x ∧ reads decode_screen_part x p.

Lemma numbered_lookup {A} index (l : list A) i : numbered index l !! i = (λ x, (index + Z.of_nat i, x)) <$> l !! i.
Proof.
  revert index i. induction l as [|x l IH]; intros index i; [done|]. destruct i as [|i]; cbn [numbered lookup list_lookup]; [simpl; do 2 f_equal; lia|].
  change ((numbered (index + 1) l) !! i = (λ x, (index + Z.of_nat (S i), x)) <$> l !! i). rewrite IH. destruct (l !! i); simpl; [|done]. do 2 f_equal. lia.
Qed.

Lemma plan_groups budget h rows cuts :
  HEAD_FIXED + screen_prefix h ≤ budget →
  plan_cuts budget (spans (budget - TAIL_FIXED - PART_ROW_HEAD) rows) (HEAD_FIXED + screen_prefix h) O = Ok cuts →
  ∃ groups, concat groups = spans (budget - TAIL_FIXED - PART_ROW_HEAD) rows ∧ fst <$> cuts = length <$> groups ∧ length cuts = length groups ∧
    groups ≠ [] ∧ ∀ i g, groups !! i = Some g →
      (if (Z.of_nat i =? 0) then HEAD_FIXED + screen_prefix h else TAIL_FIXED) + cost g ≤ budget ∧ (i ≠ O → g ≠ []).
Proof.
  intros Hb H. destruct (plan_cuts_groups _ _ _ _ _ H) as (g & gs & Hl & -> & Hg & Hgs). exists (g :: gs).
  split; [done|]. split; [rewrite !fmap_cons, <- list_fmap_compose; done|]. split; [cbn [length]; by rewrite length_fmap|]. split; [done|].
  intros [|i] g' Hi; simpl in Hi.
  - injection Hi as <-. split; [|done]. simpl. destruct g; [unfold cost; simpl; lia|]. by apply Hg.
  - rewrite (proj2 (Z.eqb_neq _ _)) by lia. rewrite Forall_lookup in Hgs. by destruct (Hgs i g' Hi).
Qed.

Lemma head_over_tail h : sticky_typed (h_sticky h) → TAIL_FIXED ≤ HEAD_FIXED + screen_prefix h.
Proof.
  intros Hs. unfold screen_prefix, sticky_bytes. assert (0 ≤ sum_by entry_size (kept_deferred (h_sticky h)))
    by (apply sum_by_nonneg, Forall_forall; intros; unfold entry_size; lia).
  unfold TAIL_FIXED, HEAD_FIXED, Message.LENGTH_PREFIX, PART_TAG, PART_KIND, PART_GENERATION, PART_VERSION, PART_PIECES, PART_INDEX, PART_ROW_COUNT, PART_BASE, PART_SCROLL.
  repeat case_match; lia.
Qed.

(** Any stretch of the entries that fits one piece names each row once. *)
Lemma stretch_ok size budget rows l1 g l2 :
  Forall (update_ok size) rows → sorted_rows rows → spans (budget - TAIL_FIXED - PART_ROW_HEAD) rows = l1 ++ g ++ l2 → TAIL_FIXED + cost g ≤ budget →
  Forall (entry_fits (Fields.rows size) (Fields.cols size)) g ∧ Sorted (λ e f, e_row e < e_row f) g.
Proof.
  intros Hu Hs E Hc. destruct (spans_apart (budget - TAIL_FIXED - PART_ROW_HEAD) size rows Hu Hs) as [Ha Hf]. rewrite E in *.
  apply Sorted_app_inv in Ha as [_ Ha]. apply Sorted_app_inv in Ha as [Ha _]. rewrite !Forall_app in Hf. split; [tauto|].
  by eapply group_rows.
Qed.

Lemma concat_lookup {A} (gs : list (list A)) i g : gs !! i = Some g → ∃ l1 l2, concat gs = l1 ++ g ++ l2.
Proof.
  intros H. exists (concat (take i gs)), (concat (drop (S i) gs)). rewrite <- (take_drop_middle gs i g H) at 1. rewrite concat_app. done.
Qed.

Lemma screen_parts_carry h base scroll rows budget frames :
  screen_ok h base scroll → Forall (update_ok (h_size h)) rows → sorted_rows rows →
  encode_screen_parts h base scroll rows budget = Ok frames →
  ∃ groups, concat groups = spans (budget - TAIL_FIXED - PART_ROW_HEAD) rows ∧ groups ≠ [] ∧ (∀ i g, groups !! i = Some g → i ≠ O → g ≠ []) ∧
    len frames ≤ U16_MAX ∧ (scroll ≠ None → length frames = 1%nat) ∧
    Forall2 (λ ig f, carries budget f (part_of h base scroll (len frames) ig.1 ig.2)) (numbered 0 groups) frames.
Proof.
  intros Hok Hu Hs H. pose proof Hok as [Hh _ Htop]. unfold encode_screen_parts in H.
  destruct (match scroll with Some _ => _ | None => _ end) eqn:Eband in H; [done|]. assert (band_ok (Fields.rows (h_size h)) scroll) as Hband.
  { intros b ->. split; [by apply negb_false_iff|by apply Htop]. }
  destruct (budget <? _) eqn:Eb; [done|]. zbool. apply result_bind_ok in H as (cuts & Hc & H). apply result_bind_ok in H as (pieces & Hp & H).
  apply try_from_ok in Hp as [-> Hp]. destruct (match scroll with Some _ => _ | None => _ end) eqn:Eone in H; [done|].
  destruct (plan_groups budget h rows cuts Eb Hc) as (groups & Hg & Hfst & Hlen & Hne & Hfit).
  pose proof (write_pieces_groups _ _ _ _ _ groups _ _ _ Hfst (eq_sym Hg) H) as Hw.
  assert (length frames = length cuts) as Hlf.
  { apply Forall2_length in Hw. rewrite <- Hw, Hlen. clear. generalize 0. induction groups; intros; [done|]. simpl. by f_equal. }
  assert (scroll ≠ None → len cuts = 1) as Hone by (destruct scroll; [intros _; by zbool|done]).
  exists groups. split; [done|]. split; [done|]. split; [by intros i g Hi; apply Hfit|]. split; [lia|]. split; [intros Hsc; specialize (Hone Hsc); lia|].
  rewrite Hlf. apply Forall2_same_length_lookup. split; [by eapply Forall2_length|].
  intros i [j g] f Hi Hf. rewrite Forall2_lookup in Hw. specialize (Hw i). rewrite Hi, Hf in Hw. inversion Hw as [? ? (front & body & H1 & H2 & -> & H4)|]; subst.
  rewrite numbered_lookup in Hi. destruct (groups !! i) as [g'|] eqn:Ei; [|done]. injection Hi as <- <-. cbn [fst snd] in *. rewrite Z.add_0_l in *.
  destruct (Hfit i g' Ei) as [Hcost _]. pose proof (head_over_tail h (ho_sticky h Hh)). destruct (concat_lookup groups i g' Ei) as (l1 & l2 & Hcat).
  destruct (stretch_ok (h_size h) budget rows l1 g' l2 Hu Hs) as [Hef Hsr]; [by rewrite <- Hg, Hcat|case_match; lia|].
  pose proof (lookup_lt_Some _ _ _ Ei). destruct (piece_reads h base scroll (len cuts) (Z.of_nat i) g' front body) as (R1 & R2 & R3); try done; [lia|].
  split; [|by exists (front ++ body)]. unfold Message.LENGTH_PREFIX, PART_TAG in R3. rewrite length_app in R3. measure. lia.
Qed.

(** ** A piece on its own, there and back *)

(** A row as it is written: without the unstyled spaces it ends in. *)
Definition unpadded (f : RowFrame) : RowFrame := {| text := take (Z.to_nat (painted_bytes f)) (text f); runs := runs f; cells := cells f |}.
Definition unpadded_span (s : RowSpan) : RowSpan :=
  {| sp_row := sp_row s; sp_chunk := sp_chunk s; sp_col := sp_col s; sp_byte := sp_byte s; sp_clear := sp_clear s; sp_frame := unpadded (sp_frame s) |}.
Definition unpadded_part (p : ScreenPart) : ScreenPart :=
  match p with
  | Head h base scroll pieces rows => Head h base scroll pieces (unpadded_span <$> rows)
  | Tail generation version pieces index rows => Tail generation version pieces index (unpadded_span <$> rows)
  end.
Lemma unpadded_painted p : painted p → unpadded_part p = p.
Proof.
  assert (∀ l, Forall painted_span l → unpadded_span <$> l = l) as Hl.
  { induction 1 as [|s l Hs _ IH]; [done|]. rewrite fmap_cons, IH. f_equal. destruct s as [? ? ? ? ? [txt rs c]]. unfold painted_span in Hs. cbn [sp_frame text] in Hs. unfold unpadded_span, unpadded. cbn [sp_row sp_chunk sp_col sp_byte sp_clear sp_frame text runs cells]. rewrite Hs, take_ge by lia. done. }
  unfold painted. destruct p; cbn [part_rows unpadded_part]; intros H; by rewrite (Hl _ H).
Qed.

Lemma runs_fit_end txt cells_ cc cb l : runs_fit txt cells_ cc cb l → is_char_boundary txt cb = true → is_char_boundary txt (cb + sum_by r_bytes l) = true.
Proof.
  revert cc cb. induction l as [|r l IH]; intros cc cb; cbn [runs_fit sum_by foldr]; [by rewrite Z.add_0_r|]. intros (_ & Hb & Hf) _. rewrite Z.add_assoc. by eapply IH.
Qed.
Lemma runs_fit_take txt p cells_ cc cb l : Forall run_ok l → 0 ≤ cb → cb + sum_by r_bytes l ≤ p ≤ len txt → runs_fit txt cells_ cc cb l → runs_fit (take (Z.to_nat p) txt) cells_ cc cb l.
Proof.
  intros Hl. revert cc cb. induction Hl as [|r l (H1 & H2 & _) Hl IH]; intros cc cb Hcb; cbn [runs_fit sum_by foldr]; [done|]. fold (sum_by r_bytes l). intros Hp (Hc & Hb & Hf).
  assert (0 ≤ sum_by r_bytes l) by (apply sum_by_nonneg; eapply list.Forall_impl; [exact Hl|]; intros x (_ & ? & _); lia).
  split; [done|]. split; [apply boundary_take; (done || lia)|]. apply IH; (done || lia).
Qed.
Lemma fits_painted cols f : frame_fits cols f → sum_by r_bytes (runs f) ≤ painted_bytes f ≤ len (text f) ∧ 0 ≤ painted_bytes f ∧ is_char_boundary (text f) (painted_bytes f) = true.
Proof.
  intros [Hs _ _ _ Hr Ht]. pose proof (runs_fit_end _ _ _ _ _ Ht) as He. rewrite Z.add_0_l in He. specialize (He eq_refl).
  assert (0 ≤ sum_by r_bytes (runs f)) as H0 by (apply sum_by_nonneg; eapply list.Forall_impl; [exact Hr|]; intros x (_ & ? & _); lia).
  pose proof (boundary_range _ _ He H0) as Hle. pose proof (trim_end_boundary (text f)) as Hb.
  assert (len (trim_end (text f)) ≤ len (text f)) as Hl by (destruct (trim_end_prefix (text f)) as [n Hn]; rewrite Hn at 2; rewrite length_app; lia).
  unfold painted_bytes, styled_bytes. rewrite (Z.min_l (sum_by r_bytes (runs f))) by lia. rewrite Z.min_l by lia. split; [lia|]. split; [lia|]. destruct (Z.max_spec (sum_by r_bytes (runs f)) (len (trim_end (text f)))) as [[_ ->]|[_ ->]]; done.
Qed.
Lemma unpadded_fits cols f : frame_fits cols f → frame_fits cols (unpadded f).
Proof.
  intros H. destruct (fits_painted cols f H) as (P1 & P2 & P3). destruct H as [Hs Hb Hc Hn Hr Ht]. unfold unpadded. split; cbn [text runs cells]; try done.
  - by apply str_take.
  - rewrite length_take. lia.
  - by apply runs_fit_take.
Qed.
Lemma unpadded_inert cols f : frame_fits cols f → has_control (text f) = false → inert (unpadded f) = unpadded f.
Proof.
  intros H Hc. destruct (fits_painted cols f H) as (_ & P2 & P3). pose proof (blank_inert _ (fits_text _ _ H) Hc) as Hb. pose proof (str_take _ _ (fits_text _ _ H) P2 P3) as Hs. unfold inert, unpadded. cbn [text runs cells]. f_equal.
  rewrite <- (take_drop (Z.to_nat (painted_bytes f)) (text f)) in Hb at 1 2. rewrite (blank_app _ _ Hs) in Hb. apply app_inj_1 in Hb as [Hb _]; [done|]. by apply blank_ok.
Qed.

Lemma borrow_fits grid s : span_ok grid s → entry_fits (row_limit grid) (grid_cols grid) (span_borrow s) ∧ entry_span (span_borrow s) = unpadded_span s.
Proof.
  intros [[Hr Hg] [Hf Hc] Hcol Hbyte]. assert (frame_of (e_frame (span_borrow s)) = unpadded (sp_frame s)) as Hsame by done. destruct (fits_painted _ _ Hf) as (P1 & P2 & _).
  assert (len (c_text (e_frame (span_borrow s))) ≤ len (text (sp_frame s))) as Hlen by (cbn; rewrite length_take; lia). split.
  - split; rewrite ?Hsame; [|by apply unpadded_fits|done|cbn [c_byte e_frame span_borrow] in *; lia]. cbn [e_row span_borrow]. destruct grid as [g|]; cbn [row_limit]; [specialize (Hg g eq_refl)|]; lia.
  - unfold entry_span. rewrite Hsame. by rewrite (unpadded_inert _ _ Hf Hc).
Qed.

Lemma borrow_rows grid l : rows_ok grid l →
  Forall (entry_fits (row_limit grid) (grid_cols grid)) (span_borrow <$> l) ∧ ascending None (span_borrow <$> l) ∧
  len (span_borrow <$> l) ≤ grid_rows grid ∧ entry_span <$> (span_borrow <$> l) = unpadded_span <$> l.
Proof.
  intros (Hl & Hs & Hn). split; [|split; [|split; [by rewrite length_fmap|]]].
  - apply Forall_fmap. eapply list.Forall_impl; [exact Hl|]. intros s H1. by apply borrow_fits.
  - clear -Hs. revert Hs. generalize (@None (Z * Z)). induction l as [|s l IH]; intros previous; [done|]. intros [H1 H2]. split; [done|]. by apply IH.
  - clear -Hl. induction Hl as [|s l H1 Hand IH]; [done|]. rewrite !fmap_cons, IH. f_equal. by apply (borrow_fits grid).
Qed.

Lemma part_reads p x : part_ok p → put_screen_part p = Ok x → reads decode_screen_part x (unpadded_part p) ∧ Forall is_byte x.
Proof.
  intros Hok Hput. destruct p as [h base scroll pieces rows|generation version pieces index rows]; cbn [put_screen_part part_ok unpadded_part] in *; Fields.puts.
  - destruct Hok as (Hh & Hl & Hb & Hband & Hn & Hone & Hrows). destruct (borrow_rows _ _ Hrows) as (B1 & B2 & B3 & B4).
    destruct (piece_reads_spans h base scroll pieces 0 (span_borrow <$> rows) x0 x1) as (R1 & R2 & _); try done; try lia.
    + split; [done|done|]. intros b Eb. by apply (Hband b).
    + by rewrite length_fmap.
    + split; [|done]. unfold part_of in R1. rewrite B4 in R1. replace (wire_header h) with h in R1; [done|].
      unfold wire_header, wire_sticky. destruct Hl as [_ E1 E2]. rewrite E1, E2. by destruct h as [? ? ? ? ? ? ? ? ? []].
  - destruct Hok as (Hg & Hv & Hi & Hn & Hrows). destruct (borrow_rows _ _ Hrows) as (B1 & B2 & B3 & B4).
    match goal with H : encode_part_rows _ _ = Ok ?b |- _ =>
      destruct (part_rows_reads None (span_borrow <$> rows) b) as (R1 & R2 & _); [by intros ? [=]|done|done|done|by rewrite length_fmap|] end.
    rewrite B4 in R1. split; [|unfold put_tail; auto 20 with codec]. unfold put_tail, decode_screen_part. rewrite <- !app_assoc.
    repeat reads_step; simpl; [lia|]. repeat first [exact R1|reads_step]; try lia; apply Fields.from_u64_spec; lia.
Qed.

(** ** A cut that cannot fail *)

(** Every run of the updates, and every tail, fits a piece of its own. *)
Definition cuttable (bud : Z) (u : RowUpdate) : Prop :=
  Forall (λ x, CHUNK_FIXED + r_bytes x + run_style_len x ≤ bud) (runs (u_frame u)) ∧
  CHUNK_FIXED + (painted_bytes (u_frame u) - styled_bytes (u_frame u)) ≤ bud.

Lemma cut_small r bud e k cs : row_ok r → (e ≤ length (runs r))%nat →
  Forall (λ x, CHUNK_FIXED + r_bytes x + run_style_len x ≤ bud) (runs r) → CHUNK_FIXED + (painted_bytes r - styled_bytes r) ≤ bud → CHUNK_FIXED ≤ bud →
  cut_list r bud e k cs → Forall (λ c, chunk_encoded_len c ≤ bud) cs.
Proof.
  intros Hr He Hx Ht Hb0. assert (∀ k, (S k ≤ e)%nat → chunk_encoded_len (chunk_of r k (S k) (byte_at r (S k)) (col_at r (S k))) ≤ bud) as Hone.
  { intros j Hj. destruct (one_run r e He j Hj) as (x & E & Eb). rewrite chunk_len by (done || (pose proof (byte_at_mono r Hr j (S j) ltac:(lia)); pose proof (byte_at_le r Hr (S j)); lia)).
    rewrite E, Eb. rewrite Forall_lookup in Hx. specialize (Hx j x). unfold style_len. cbn [sum_by foldr]. 
    assert (runs r !! j = Some x) as Hj'. { destruct (lookup_lt_is_Some_2 (runs r) j) as [y Hy]; [lia|]. rewrite (slice_cons j _ _ y Hy) in E by lia. by injection E as ->. }
    specialize (Hx Hj'). lia. }
  induction 1 as [k Hk Hemp|k c Hk Hemp Hfit|k k' cs c Hk Hfit Hstop Hend Hcs IH];
    [constructor|apply list.Forall_singleton|apply list.Forall_cons; split; [|done]].
  - destruct Hfit as [?|[->|[HSk Hne]]]; [done| |].
    + unfold c. destruct (limit_range r Hr e He e ltac:(lia)) as [? _]. rewrite chunk_len by done. rewrite slice_nil by lia. unfold style_len. simpl.
      unfold limit. destruct (Nat.eqb_spec e (length (runs r))) as [->|]; [destruct (at_all r Hr) as [_ ->]; lia|lia].
    + unfold c, limit, edge. destruct (Nat.eqb_spec e (length (runs r))); [done|]. rewrite <- HSk. apply Hone. lia.
  - destruct Hfit as [?| ->]; [done|]. apply Hone. lia.
Qed.

Lemma entries_small bud size u : update_ok size u → cuttable bud u → Forall (λ e, entry_cost e ≤ PART_ROW_HEAD + bud) (entries_of bud u).
Proof.
  intros Hu [Hx Ht]. assert (Forall (λ c, chunk_encoded_len c ≤ bud) (frames_of bud u)) as Hf.
  { destruct Hu as [_ Hf _ _ Hr]. assert (CHUNK_FIXED ≤ bud) as Hb0 by (pose proof (painted_range (u_frame u)); lia). unfold frames_of.
    destruct (u_runs u) as [a b] eqn:E. cbn [fst snd] in *. pose proof (all_chunks_cut (u_frame u) bud a b Hf Hr) as Hcut.
    destruct (all_chunks _) as [|c cs] eqn:Ea; [|by eapply (cut_small (u_frame u)); [..|exact Hcut]; (done || lia)].
    destruct (u_clear u); [|constructor]. apply list.Forall_singleton. unfold chunk_encoded_len, style_len. simpl. lia. }
  rewrite (entries_mark _ size) by done.
  rewrite <- (mark_frames (u_row u) (bud <? span_len (u_frame u) (u_runs u)) (u_clear u) (frames_of bud u)) in Hf at 1.
  rewrite Forall_fmap in Hf. eapply list.Forall_impl; [exact Hf|]. intros e He. unfold entry_cost. simpl in *. lia.
Qed.

Lemma plan_succeeds budget l used count : Forall (λ e, TAIL_FIXED + entry_cost e ≤ budget) l →
  ∃ cuts, plan_cuts budget l used count = Ok cuts ∧ (length cuts ≤ S (length l))%nat.
Proof.
  intros Hl. revert used count. induction Hl as [|e l He Hl IH]; intros used count; cbn [plan_cuts]; [eexists; split; [done|simpl; lia]|]. cbv zeta.
  destruct ((budget <? used + entry_cost e) && negb ((count =? 0)%nat && (used =? TAIL_FIXED))) eqn:E.
  - rewrite (proj2 (Z.ltb_ge _ _)) by lia. destruct (IH (TAIL_FIXED + entry_cost e) 1%nat) as (cuts & -> & ?). eexists. split; [done|simpl; lia].
  - destruct (budget <? used + entry_cost e) eqn:E2; [|destruct (IH (used + entry_cost e) (S count)) as (cuts & -> & ?); eexists; split; [done|simpl; lia]].
    cbn [andb] in E. apply negb_false_iff, andb_prop in E as [_ E]. zbool. lia.
Qed.

Lemma each_succeeds {A} (f : A → result (list Z) EncodeError) l : Forall (λ a, ∃ x, f a = Ok x) l → ∃ x, each f l = Ok x.
Proof. induction 1 as [|a l [x Hx] Hl [y Hy]]; cbn [each]; [by eexists|]. rewrite Hx. cbn [result_bind]. rewrite Hy. by eexists. Qed.

Lemma entry_succeeds rows cols e : rows ≤ 2 ^ 14 → cols ≤ U16_MAX → entry_fits rows cols e → ∃ x, encode_entry_row e = Ok x.
Proof.
  intros Hr Hc [Hrow [_ Hb Hcells Hn Hruns _] _ _]. cbn [frame_of text runs cells] in *. unfold MAX_CLUSTER_BYTES in *. unfold encode_entry_row.
  assert (Z.land (e_row e) (U16_MAX - ROW_INDEX_MASK) = 0) as ->.
  { change (U16_MAX - ROW_INDEX_MASK) with (Z.shiftl (Z.ones 2) 14). apply Z.bits_inj'. intros n Hn'. rewrite Z.land_spec, Z.bits_0.
    destruct (Z.lt_ge_cases n 14); [rewrite Z.shiftl_spec_low by lia; apply andb_false_r|]. by rewrite high_bits by lia. }
  simpl. unfold encode_row_chunk, MAX_CLUSTER_BYTES. rewrite (proj2 (Z.ltb_ge _ _)) by lia. Fields.run_put.
  destruct (each_succeeds encode_run (c_runs (e_frame e))) as [x ->].
  { eapply list.Forall_impl; [exact Hruns|]. intros x (_ & Hx & _). unfold encode_run, MAX_RUN_BYTES in *. Fields.run_put. by eexists. }
  by eexists.
Qed.

Lemma seal_frame_fits payload : 0 < len payload ≤ Fields.MAX_FRAME →
  ∃ f, Message.seal_frame (replicate (Z.to_nat Message.LENGTH_PREFIX) 0 ++ payload) = Ok f.
Proof.
  intros Hp. unfold Message.seal_frame, Message.LENGTH_PREFIX. rewrite length_app, length_replicate.
  replace (Z.of_nat (Z.to_nat 4 + length payload) - 4) with (len payload) by lia. cbv zeta. unfold Fields.MAX_FRAME in *.
  rewrite (proj2 (Z.ltb_ge _ _)) by lia. rewrite (proj2 (orb_false_iff _ _)) by (split; [apply Z.eqb_neq|apply Z.ltb_ge]; unfold Fields.MAX_FRAME; lia).
  by eexists.
Qed.

Lemma sticky_succeeds s : sticky_typed s → Forall (λ entry, has_control entry = false) (kept_deferred s) → ∃ x, encode_sticky s = Ok x.
Proof.
  intros Hs Hk. destruct (kept_bounds s) as [Hb1 Hb2]. unfold MAX_DEFERRED, MAX_DEFERRED_BYTES in *. unfold encode_sticky.
  assert (∃ t, encode_title (wire_title s) = Ok t) as [t ->].
  { destruct (wire_title s) as [t|] eqn:E; cbn [encode_title]; [|by eexists]. destruct (wire_title_ok s t Hs E) as (_ & Hl & _).
    unfold MAX_TITLE in Hl. Fields.run_put. by eexists. }
  cbn [result_bind]. Fields.run_put. destruct (each_succeeds encode_entry (kept_deferred s)) as [x ->]; [|by eexists].
  rewrite Forall_forall in *. intros e He. unfold encode_entry. rewrite Hk by done.
  assert (entry_size e ≤ sum_by entry_size (kept_deferred s)) as Hle.
  { apply list_elem_of_split in He as (l1 & l2 & ->). rewrite sum_by_app. cbn [sum_by foldr]. fold (sum_by entry_size l2).
    assert (∀ l, 0 ≤ sum_by entry_size l) as Hn by (intros; apply sum_by_nonneg, Forall_forall; intros; unfold entry_size; lia).
    pose proof (Hn l1). pose proof (Hn l2). lia. }
  unfold entry_size at 1 in Hle. Fields.run_put. by eexists.
Qed.

Lemma write_succeeds h base scroll pieces index groups cuts l :
  fst <$> cuts = length <$> groups → l = concat groups →
  Forall (λ ig, ∃ front body,
    (if ig.1 =? 0 then put_head h base scroll pieces else Ok (put_tail (h_generation h) (h_version h) pieces ig.1)) = Ok front ∧
    encode_part_rows (len ig.2) ig.2 = Ok body ∧ PART_TAG + len (front ++ body) ≤ Fields.MAX_FRAME) (numbered index groups) →
  ∃ frames, write_pieces h base scroll pieces index cuts l = Ok frames.
Proof.
  revert index cuts l. induction groups as [|g gs IH]; intros index cuts l Hc -> Hw; (destruct cuts as [|[n size] cuts]; [try discriminate Hc|]).
  { by eexists. }
  { discriminate Hc. }
  injection Hc as -> Hc. cbn [write_pieces concat]. rewrite take_app_length, drop_app_length. cbn [numbered] in Hw.
  apply list.Forall_cons in Hw as [(front & body & H1 & H2 & H3) Hw]. cbn [fst snd] in *. rewrite H1. cbn [result_bind]. rewrite H2. cbn [result_bind].
  destruct (seal_frame_fits (put_u8 (SCREEN_TAG + SERVER_TAG_BASE) ++ front ++ body)) as [f ->].
  { unfold PART_TAG in H3. rewrite length_app in *. measure. lia. }
  cbn [result_bind]. destruct (IH (index + 1) cuts (concat gs) Hc eq_refl Hw) as [frames ->]. by eexists.
Qed.

Lemma group_succeeds h g : header_ok h → Forall (entry_fits (Fields.rows (h_size h)) (Fields.cols (h_size h))) g →
  Sorted (λ e f, e_row e < e_row f) g → ∃ x, encode_part_rows (len g) g = Ok x.
Proof.
  intros Hh Hg Hs. pose proof (group_count _ g (ho_size h Hh) Hg Hs) as Hn. destruct (ho_size h Hh) as [Hs1 Hs2].
  unfold Fields.MAX_ROWS, Fields.MAX_COLS in *.
  unfold encode_part_rows. Fields.run_put. destruct (each_succeeds encode_entry_row g) as [x ->]; [|by eexists].
  eapply list.Forall_impl; [exact Hg|]. intros e. apply entry_succeeds; lia.
Qed.

Lemma front_succeeds h base pieces index : header_ok h → Forall (λ entry, has_control entry = false) (kept_deferred (h_sticky h)) →
  ∃ x, (if index =? 0 then put_head h base None pieces else Ok (put_tail (h_generation h) (h_version h) pieces index)) = Ok x.
Proof.
  intros Hh Hk. destruct (index =? 0); [|by eexists]. destruct (sticky_succeeds _ (ho_sticky h Hh) Hk) as [x Hx].
  unfold put_head, encode_header. rewrite Hx. by eexists.
Qed.

(** A screen whose header fits the budget and whose runs and tails each fit a piece is always
    written, when it has fewer chunks than a piece count can name: cutting does not fail on a
    colourful row, however wide. *)
Theorem cuttable_screen_is_written h base rows budget :
  screen_ok h base None ∧ Forall (update_ok (h_size h)) rows ∧ sorted_rows rows ∧
  Forall (λ entry, has_control entry = false) (kept_deferred (h_sticky h)) ∧
  HEAD_FIXED + screen_prefix h ≤ budget ≤ Fields.MAX_FRAME ∧
  Forall (cuttable (budget - TAIL_FIXED - PART_ROW_HEAD)) rows ∧
  len (spans (budget - TAIL_FIXED - PART_ROW_HEAD) rows) < U16_MAX →
  ∃ frames, encode_screen_parts h base None rows budget = Ok frames.
Proof.
  intros (Hok & Hu & Hs & Hk & [Hb1 Hb2] & Hc & Hn). unfold encode_screen_parts. rewrite (proj2 (Z.ltb_ge _ _)) by done. cbv zeta.
  set (l := spans _ rows) in *. assert (Forall (λ e, TAIL_FIXED + entry_cost e ≤ budget) l) as Hl.
  { unfold l, spans. clear -Hu Hc. induction Hu as [|u rows Hu Hrows IH]; [constructor|]. apply list.Forall_cons in Hc as [Hc1 Hc2].
    rewrite fmap_cons. apply Forall_app. split; [|by apply IH]. eapply list.Forall_impl; [by eapply entries_small|]. intros e. simpl. unfold PART_ROW_HEAD. lia. }
  destruct (plan_succeeds budget l (HEAD_FIXED + screen_prefix h) O Hl) as (cuts & Hcuts & Hlen). rewrite Hcuts. cbn [result_bind].
  rewrite (proj2 (try_from_ok _ _ _ (len cuts))) by (split; [done|lia]). cbn [result_bind].
  destruct (plan_groups budget h rows cuts Hb1 Hcuts) as (groups & Hg & Hfst & Hlg & _ & Hfit). fold l in Hg.
  apply (write_succeeds _ _ _ _ _ groups); [done|done|]. apply Forall_lookup. intros i [j g] Hi. rewrite numbered_lookup in Hi.
  destruct (groups !! i) as [g'|] eqn:Ei; [|done]. injection Hi as <- <-. cbn [fst snd]. rewrite Z.add_0_l. pose proof Hok as [Hh _ _].
  destruct (Hfit i g' Ei) as [Hcost _]. pose proof (head_over_tail h (ho_sticky h Hh)). destruct (concat_lookup groups i g' Ei) as (l1 & l2 & Hcat).
  destruct (stretch_ok (h_size h) budget rows l1 g' l2 Hu Hs) as [Hef Hsr]; [fold l; by rewrite <- Hg, Hcat|case_match; lia|].
  destruct (group_succeeds h g' Hh Hef Hsr) as [body Hbody]. destruct (front_succeeds h base (len cuts) (Z.of_nat i) Hh Hk) as [front Hfront].
  exists front, body. split; [done|]. split; [done|]. pose proof (lookup_lt_Some _ _ _ Ei).
  destruct (piece_reads h base None (len cuts) (Z.of_nat i) g' front body) as (_ & _ & R3); try done; [lia|lia|].
  unfold Message.LENGTH_PREFIX in R3. lia.
Qed.

End Pieces.
