(* ===== verification/ServerMessage.v ===== *)
(** * Server messages ([crates/proto/src/lib.rs], the [messages!] macro at [ServerMessage],
    [peek_output] and the borrowed encoder [put_output])

    The other list of the macro: tags from [SERVER_TAG_BASE], and a [Screen] whose field is one
    piece of a screen.

    The theorems show that a message decodes to what was encoded, but for the unstyled spaces a row
    of a screen ends in; that whatever decodes is well formed, a screen's pieces included, and is
    encoded again as it came; that the copy-free reader of output agrees with the decoder on every
    payload; and that the frames a screen was cut into are messages a client decodes ([Cuts] says
    what it makes of them). *)

From S2P Require Import Prelude Send Codec Fields Message Text Screen Modes Rows Pieces.

Module ServerMessage.
Import Codec Fields.
Import Pieces (ScreenPart, Piece, SERVER_TAG_BASE, SCREEN_TAG).

Inductive ServerMessage :=
| Hello (version : Z) (size : GridSize) (session_id capability : list Z) (offer : option DatagramOffer)
| HelloForward (version : Z) (session_id capability : list Z) (offer : option DatagramOffer)
| Output (off : Z) (cue : InputCue) (echo_ack : option Z) (bytes : list Z)
| Exit (code : Z)
| Reject (reason : RejectReason)
| CommandAck (highest : option Z)
| Detached (reason : DetachReason)
| Ping (token : Z) (echo_ack : option Z) (interval_ms : Z)
| SessionList (sessions : list SessionSummary)
| SearchResults (matches : list SearchMatch)
| Screen (part : ScreenPart)
| ForwardData (stream off : Z) (fin : bool) (bytes : list Z)
| ForwardAck (stream off window : Z) (held : list Sack.SackRun)
| ForwardReset (stream : Z) (reason : ForwardResetReason)
| OutputSkipped (bytes : Z)
| SessionNames (names : list SessionName).

(** [ServerTag::V as u8], the position of the message in the list. *)
Definition server_tag (m : ServerMessage) : Z :=
  match m with
  | Hello _ _ _ _ _ => 0 | HelloForward _ _ _ _ => 1 | Output _ _ _ _ => 2 | Exit _ => 3 | Reject _ => 4
  | CommandAck _ => 5 | Detached _ => 6 | Ping _ _ _ => 7 | SessionList _ => 8 | SearchResults _ => 9
  | Screen _ => SCREEN_TAG | ForwardData _ _ _ _ => 11 | ForwardAck _ _ _ _ => 12 | ForwardReset _ _ => 13
  | OutputSkipped _ => 14 | SessionNames _ => 15
  end.

Definition put_fields (m : ServerMessage) (spoken : Z) : result (list Z) EncodeError :=
  Message.in_order match m with
  | Hello version size session_id capability offer =>
      [put Ver version; put Grid size; put Session session_id; put Cap capability; put Offer offer]
  | HelloForward version session_id capability offer =>
      [put Ver version; put Session session_id; put Cap capability; put Offer offer]
  | Output off cue echo_ack bytes => [put Off off; put Cue cue; put OptSeq echo_ack; put (Chunk MAX_OUTPUT_CHUNK) bytes]
  | Exit code => [put I32 code]
  | Reject reason => [put Refusal reason]
  | CommandAck highest => [put OptSeq highest]
  | Detached reason => [put Fields.Detach reason]
  | Ping token echo_ack interval_ms => [put U64 token; put OptSeq echo_ack; put U16 interval_ms]
  | SessionList sessions => [put Sessions sessions]
  | SearchResults matches => [put Matches matches]
  | Screen part => [put Piece part]
  | ForwardData stream off fin bytes => [put StreamNum stream; put Off off; put Fin fin; put (Chunk MAX_FORWARD_CHUNK) bytes]
  | ForwardAck stream off window held =>
      [put StreamNum stream; put Off off; put U32 window; Message.put_since spoken 14 SackField held]
  | ForwardReset stream reason => [put StreamNum stream; put Reset_ reason]
  | OutputSkipped bytes => [put U64 bytes]
  | SessionNames names => [put Names names]
  end.

Definition encode (m : ServerMessage) (spoken : Z) : result (list Z) EncodeError :=
  let? fields := put_fields m spoken in
  Message.seal_frame (replicate (Z.to_nat Message.LENGTH_PREFIX) 0 ++ put_u8 (server_tag m + SERVER_TAG_BASE) ++ fields).

(** [put_output], generated for the hot shape, and the name it is called by. *)
Definition put_output (off : Z) (cue : InputCue) (echo_ack : option Z) (bytes : list Z) : result (list Z) EncodeError :=
  let? a := put Off off in
  let? b := put Cue cue in
  let? c := put OptSeq echo_ack in
  let? d := put (Chunk MAX_OUTPUT_CHUNK) bytes in
  Message.seal_frame (replicate (Z.to_nat Message.LENGTH_PREFIX) 0 ++ put_u8 (2 + SERVER_TAG_BASE) ++ a ++ b ++ c ++ d).
Definition encode_output_into (off : Z) (cue : InputCue) (echo_ack : option Z) (bytes : list Z) : result (list Z) EncodeError :=
  put_output off cue echo_ack bytes.

(** The fields of the message a tag names. *)
Definition get_fields (tag spoken : Z) : dec ServerMessage :=
  if tag =? 0x81 then
    let! version := get Ver in let! size := get Grid in let! session_id := get Session in let! capability := get Cap in
    let! offer := get Offer in dret (Hello version size session_id capability offer)
  else if tag =? 0x82 then
    let! version := get Ver in let! session_id := get Session in let! capability := get Cap in
    let! offer := get Offer in dret (HelloForward version session_id capability offer)
  else if tag =? 0x83 then
    let! off := get Off in let! cue := get Cue in let! echo_ack := get OptSeq in
    let! bytes := get (Chunk MAX_OUTPUT_CHUNK) in dret (Output off cue echo_ack bytes)
  else if tag =? 0x84 then let! code := get I32 in dret (Exit code)
  else if tag =? 0x85 then let! reason := get Refusal in dret (Reject reason)
  else if tag =? 0x86 then let! highest := get OptSeq in dret (CommandAck highest)
  else if tag =? 0x87 then let! reason := get Fields.Detach in dret (Detached reason)
  else if tag =? 0x88 then
    let! token := get U64 in let! echo_ack := get OptSeq in let! interval_ms := get U16 in dret (Ping token echo_ack interval_ms)
  else if tag =? 0x89 then let! sessions := get Sessions in dret (SessionList sessions)
  else if tag =? 0x8a then let! matches := get Matches in dret (SearchResults matches)
  else if tag =? 0x8b then let! part := get Piece in dret (Screen part)
  else if tag =? 0x8c then
    let! stream := get StreamNum in let! off := get Off in let! fin := get Fin in
    let! bytes := get (Chunk MAX_FORWARD_CHUNK) in dret (ForwardData stream off fin bytes)
  else if tag =? 0x8d then
    let! stream := get StreamNum in let! off := get Off in let! window := get U32 in
    let! held := Message.get_since spoken 14 SackField [] in dret (ForwardAck stream off window held)
  else if tag =? 0x8e then let! stream := get StreamNum in let! reason := get Reset_ in dret (ForwardReset stream reason)
  else if tag =? 0x8f then let! bytes := get U64 in dret (OutputSkipped bytes)
  else if tag =? 0x90 then let! names := get Names in dret (SessionNames names)
  else dfail (BadTag tag).

Definition decode (payload : list Z) (spoken : Z) : result ServerMessage DecodeError :=
  match (let! tag := u8 in get_fields tag spoken) (cursor_new payload) with
  | Ok (m, _) => Ok m
  | Err e => Err e
  end.

(** An [Output] whose payload stays in the frame; [None] is another message. *)
Record OutputRef := mkOutputRef { o_off : Z; o_cue : InputCue; o_echo_ack : option Z; o_bytes : list Z }.
Definition peek_output (payload : list Z) : option (result OutputRef DecodeError) :=
  match u8 (cursor_new payload) with
  | Err _ => None
  | Ok (tag, c) =>
      if negb (tag =? 2 + SERVER_TAG_BASE) then None
      else Some (let? (r, _) :=
        (let! off := get Off in
         let! cue := get Cue in
         let! echo_ack := get OptSeq in
         let! length := u32 in
         let limit := Z.min MAX_OUTPUT_CHUNK U32_MAX in
         let! _ := dcheck (limit <? length) (Oversize length limit) in
         let! bytes := Codec.take_ length in
         dret (mkOutputRef off cue echo_ack bytes)) c in Ok r)
  end.

(** ** What a message may hold *)

(** Every field is one its Rust type can hold and its codec lets through. *)
Definition is_message (m : ServerMessage) : Prop :=
  match m with
  | Hello version size session_id capability offer =>
      (MIN_PROTOCOL_VERSION ≤ version ≤ PROTOCOL_VERSION) ∧ is_grid size ∧ is_array 16 session_id ∧
      is_array CAPABILITY_BYTES capability ∧ (∀ v, offer = Some v → is_offer v)
  | HelloForward version session_id capability offer =>
      (MIN_PROTOCOL_VERSION ≤ version ≤ PROTOCOL_VERSION) ∧ is_array 16 session_id ∧
      is_array CAPABILITY_BYTES capability ∧ (∀ v, offer = Some v → is_offer v)
  | Output off cue echo_ack bytes =>
      is_u64 off ∧ match cue with Echoing room => is_u16 room | Opaque_ => True end ∧
      (∀ v, echo_ack = Some v → 0 < v ≤ U64_MAX) ∧ Forall is_byte bytes
  | Exit code => - 2 ^ 31 ≤ code < 2 ^ 31
  | Reject reason => match reason with RVersion s c => is_range s ∧ is_range c | _ => True end
  | CommandAck highest => ∀ v, highest = Some v → 0 < v ≤ U64_MAX
  | Detached _ => True
  | Ping token echo_ack interval_ms => is_u64 token ∧ (∀ v, echo_ack = Some v → 0 < v ≤ U64_MAX) ∧ is_u16 interval_ms
  | SessionList sessions => Forall is_summary sessions
  | SearchResults matches => Forall is_match matches
  | Screen part => Pieces.part_ok part
  | ForwardData stream off _ bytes => Message.is_stream stream ∧ is_u64 off ∧ Forall is_byte bytes
  | ForwardAck stream off window held =>
      Message.is_stream stream ∧ is_u64 off ∧ is_u32 window ∧ Forall is_run held ∧ len held ≤ MAX_ACK_RUNS
  | ForwardReset stream _ => Message.is_stream stream
  | OutputSkipped bytes => is_u64 bytes
  | SessionNames names => Forall (λ n, is_name n ∧ 0 < len (name n)) names
  end.

(** A row is written without the unstyled spaces it ends in, so a piece that holds such a row is
    read back without them; every other message is read back as it was. *)
Definition as_written (m : ServerMessage) : ServerMessage := match m with Screen part => Screen (Pieces.unpadded_part part) | _ => m end.
(** No row of a screen's piece ends in unstyled spaces. *)
Definition exact (m : ServerMessage) : Prop := match m with Screen part => Pieces.painted part | _ => True end.

(** ** Lemmas *)

Ltac holds := cbv beta; unfold Message.is_stream in *; first [assumption|exact I|tauto].
Ltac known := first [eapply Message.field_reads; [typeclasses eauto| |eassumption]; holds|idtac].

Lemma server_fields_reads m spoken x :
  is_message m → 14 ≤ spoken → put_fields m spoken = Ok x →
  reads (get_fields (server_tag m + SERVER_TAG_BASE) spoken) x (as_written m).
Proof.
  intros Hm Hs Hx. unfold put_fields in Hx. unfold get_fields.
  destruct m; cbn [server_tag is_message as_written] in *; Message.tags; Message.orders;
    repeat first [apply reads_ret|eapply reads_bind; [known|]].
  - eapply Pieces.part_reads; eassumption.
  - match goal with H : Message.put_since _ _ _ _ = Ok _ |- _ =>
      unfold Message.put_since in H; rewrite (proj2 (Z.leb_le _ _)) in H by done; rename H into Hsack end.
    eapply Message.since_reads; [done| |known]. intros ->. cbn [put SackField] in Hsack. puts.
    match goal with H : Ok _ = Ok [] |- _ => injection H as H; by apply (f_equal length) in H; rewrite length_app in H end.
Qed.

Lemma server_fields_bytes m spoken x : is_message m → put_fields m spoken = Ok x → Forall is_byte x.
Proof.
  intros Hm Hx. unfold put_fields in Hx. destruct m; cbn [is_message] in *; Message.orders; repeat (apply Forall_app; split); try apply List.Forall_nil;
    try (eapply Message.field_bytes; [typeclasses eauto| |eassumption]; holds).
  - by eapply Pieces.part_reads.
  - match goal with H : Message.put_since _ _ _ _ = Ok _ |- _ => apply Message.since_put in H as [H| ->]; [|constructor] end.
    eapply Message.field_bytes; [typeclasses eauto| |eassumption]; holds.
Qed.

(** A message was encoded as the bytes it was decoded from, with the count of an absent last field
    spelled out; a screen with rows ending in unstyled spaces is shorter when written again. *)
Lemma server_fields_canon tag spoken :
  canon (get_fields tag spoken) (λ m x, is_message m ∧ tag = server_tag m + SERVER_TAG_BASE ∧
    (exact m → ∃ y, put_fields m spoken = Ok y ∧ (y = x ∨ y = x ++ [0] ∧ len x = 16 ∧ ∃ stream off window, m = ForwardAck stream off window []))).
Proof.
  assert (∀ m x, put_fields m spoken = Ok x → exact m → ∃ y, put_fields m spoken = Ok y ∧ (y = x ∨ y = x ++ [0] ∧ len x = 16 ∧ ∃ stream off window, m = ForwardAck stream off window []))
    as Hsame by eauto.
  eapply canon_impl.
  { unfold get_fields. repeat first [apply field_canon|apply Message.canon_since; typeclasses eauto|apply Pieces.part_canon|canon_step]. }
  intros m x _ Hx. cbv beta in Hx. canon_inv; cbn [is_message server_tag]; unfold Message.is_stream;
    (split; [split_and?; first [assumption|done|lia]|]; split; [done|]).
  all: try (apply Hsame; unfold put_fields; cbn [Message.in_order];
    repeat match goal with H : put _ _ = Ok _ |- _ => rewrite H; clear H; cbn [result_bind] end; by rewrite ?app_nil_r).
  - intros Hp. eexists. split; [|by left]. unfold put_fields. cbn [Message.in_order put Piece].
    match goal with H : Pieces.painted _ → _ |- _ => rewrite (H Hp) end. cbn [result_bind]. by rewrite ?app_nil_r.
  - apply Hsame. unfold put_fields, Message.put_since. cbn [Message.in_order]. rewrite (proj2 (Z.leb_le _ _)) by done.
    repeat match goal with H : put _ _ = Ok _ |- _ => rewrite H; clear H; cbn [result_bind] end. by rewrite ?app_nil_r.
  - intros _. unfold put_fields, Message.put_since. cbn [Message.in_order].
    repeat match goal with H : put _ _ = Ok _ |- _ => rewrite H; cbn [result_bind] end. rewrite ?app_nil_r.
    destruct (14 <=? spoken); cbn [result_bind]; eexists; (split; [done|]); [right|left; by rewrite ?app_nil_r].
    rewrite <- !app_assoc. split; [done|]. split; [|by do 3 eexists]. cbn [put StreamNum Off U32] in *. repeat match goal with H : Ok _ = Ok ?x |- _ => is_var x; injection H as <- end. Rows.measure. done.
Qed.

Lemma as_written_exact m : exact m → as_written m = m.
Proof. destruct m; try done. cbn [exact as_written]. intros H. by rewrite (Pieces.unpadded_painted _ H). Qed.

Lemma server_tag_range m : 0 ≤ server_tag m + SERVER_TAG_BASE < 256.
Proof. unfold SERVER_TAG_BASE, SCREEN_TAG. destruct m; simpl; unfold SCREEN_TAG; lia. Qed.

Lemma decode_reads tag spoken x m extra : 0 ≤ tag < 256 → Forall is_byte x → reads (get_fields tag spoken) x m → Forall is_byte extra →
  len ((put_u8 tag ++ x) ++ extra) ≤ USIZE_MAX → decode ((put_u8 tag ++ x) ++ extra) spoken = Ok m.
Proof.
  intros Ht Hb Hx Hex Hl. unfold decode.
  assert (reads (let! tag := u8 in get_fields tag spoken) (put_u8 tag ++ x) m) as Hr by (eapply reads_bind; [by apply reads_u8|done]).
  destruct (Hr (cursor_new ((put_u8 tag ++ x) ++ extra)) extra) as (c' & -> & _); [|done|done].
  split; [cbn [bytes cursor_new]; auto 10 with codec|simpl; lia].
Qed.

Lemma encode_frame m spoken frame : encode m spoken = Ok frame →
  ∃ fields, put_fields m spoken = Ok fields ∧
    let payload := put_u8 (server_tag m + SERVER_TAG_BASE) ++ fields in
    frame = put_u32 (len payload) ++ payload ∧ 0 < len payload ≤ MAX_FRAME.
Proof.
  unfold encode. intros H. apply result_bind_ok in H as (fields & Hf & H). exists fields. split; [done|]. by apply Pieces.seal_frame_inv.
Qed.

Lemma first_byte b payload : u8 (cursor_new (b :: payload)) = Ok (b, {| bytes := b :: payload; pos := 1 |}).
Proof.
  unfold u8, dbind, take_, checked_add. cbn [pos cursor_new bytes]. rewrite (proj2 (Z.leb_le (0 + 1) USIZE_MAX)) by lia.
  rewrite (proj2 (Z.leb_le _ _)) by (cbn [length]; lia). done.
Qed.

(** ** Properties *)

(** C39: a server message survives the wire: what a well-formed message encodes to, at every version
    spoken, is a frame a client reads, and its payload decodes to the same message even when a
    later version appended bytes to it; but a row of a screen comes without the unstyled spaces it
    ended in, which are not written, so a screen with such a row is read as the screen without
    them, and one with none as itself. *)
Theorem server_message_round_trip m spoken frame extra
    (H : is_message m ∧ MANAGEMENT_VERSION ≤ spoken ∧ encode m spoken = Ok frame ∧ Forall is_byte extra ∧ len extra ≤ MAX_FRAME) :
  (∃ payload, Message.read_frame MAX_FRAME (frame ++ extra) = Ok (payload, extra) ∧ decode (payload ++ extra) spoken = Ok (as_written m)) ∧
  (exact m → as_written m = m).
Proof.
  destruct H as (Hm & Hs & He & Hb & Hl). destruct (encode_frame m spoken frame He) as (fields & Hf & -> & Hsize).
  split; [|apply as_written_exact]. eexists. split.
  - rewrite <- app_assoc. apply Message.read_frame_whole; [done|]. unfold MAX_FRAME. lia.
  - apply decode_reads; [apply server_tag_range|by eapply server_fields_bytes|by apply server_fields_reads|done|].
    unfold MAX_FRAME in *. rewrite length_app. lia.
Qed.

(** C40: nothing decodes that is not well formed.  Whatever payload arrives, at any version, if it
    decodes then every field of the message is in range, every string a client shows is UTF-8
    without control characters and every screen piece lies inside its grid.  And the message, a
    screen too, is encoded again as a prefix of the bytes that arrived, with two exceptions: the
    count of an acknowledgement's runs is written where the peer left it out, and a screen with a
    row that ends in unstyled spaces, which are not written, is not said to be. *)
Theorem decoded_server_message_is_lawful payload spoken m
    (H : Forall is_byte payload ∧ len payload ≤ MAX_FRAME ∧ decode payload spoken = Ok m) :
  is_message m ∧
  (exact m → ∃ x y, encode m spoken = Ok (put_u32 (len y) ++ y) ∧ x `prefix_of` payload ∧
     (y = x ∨ y = x ++ [0] ∧ ∃ stream off window, m = ForwardAck stream off window [])).
Proof.
  destruct H as (Hb & Hl & Hd). unfold decode in Hd.
  destruct (dbind u8 (λ tag, get_fields tag spoken) (cursor_new payload)) as [[m' c']|e] eqn:E; [|done]. injection Hd as ->.
  assert (good (cursor_new payload)) as Hg by (split; [done|]; unfold MAX_FRAME in Hl; simpl; lia).
  destruct (canon_bind u8 (λ tag, get_fields tag spoken) _ _ canon_u8 (λ tag _ _, server_fields_canon tag spoken) _ _ _ Hg E)
    as (x & Hrest & _ & _ & tag & x1 & x2 & -> & _ & _ & [_ ->] & Hm & -> & Hy). unfold rest in Hrest. simpl in Hrest.
  split; [done|]. intros Hex. destruct (Hy Hex) as (y & Hy' & Hyx). clear Hy. rename Hy' into Hy.
  exists (put_u8 (server_tag m + SERVER_TAG_BASE) ++ x2), (put_u8 (server_tag m + SERVER_TAG_BASE) ++ y). split; [|split; [by eexists|]].
  - unfold encode. rewrite Hy. cbn [result_bind].
    destruct (Pieces.seal_frame_fits (put_u8 (server_tag m + SERVER_TAG_BASE) ++ y)) as [f Hf].
    { change (drop (Z.to_nat 0) payload) with payload in Hrest. apply (f_equal length) in Hrest. rewrite !length_app in *. unfold MAX_FRAME in *. pose proof (Rows.len_put_u8 (server_tag m + SERVER_TAG_BASE)).
      destruct Hyx as [->|[-> [? _]]]; rewrite ?length_app; cbn [length]; lia. }
    rewrite Hf. by apply Pieces.seal_frame_inv in Hf as [-> _].
  - destruct Hyx as [->|(-> & _ & Hack)]; [by left|right]. by rewrite app_assoc.
Qed.

(** The copy-free reader of output agrees with the decoder on every payload: it reads what the
    decoder reads, fails with the decoder's error, and passes over exactly what does not begin
    with the tag of an output. *)
Theorem peek_output_agrees payload spoken :
  match peek_output payload with
  | Some r => decode payload spoken = (let? o := r in Ok (Output (o_off o) (o_cue o) (o_echo_ack o) (o_bytes o)))
  | None => head payload ≠ Some (2 + SERVER_TAG_BASE)
  end.
Proof.
  unfold peek_output. destruct (u8 (cursor_new payload)) as [[tag c]|e] eqn:E.
  - destruct (Z.eqb_spec tag (2 + SERVER_TAG_BASE)) as [->|Hne]; cbn [negb].
    + assert (decode payload spoken = match get_fields (2 + SERVER_TAG_BASE) spoken c with Ok (m, _) => Ok m | Err e => Err e end) as ->
        by (unfold decode, dbind; by rewrite E).
      assert (get_fields (2 + SERVER_TAG_BASE) spoken c = (let! off := get Off in let! cue := get Cue in let! echo_ack := get OptSeq in
        let! bytes := get (Chunk MAX_OUTPUT_CHUNK) in dret (Output off cue echo_ack bytes)) c) as -> by reflexivity.
      cbn [get Chunk]. unfold dbind, dcheck, result_bind, dret, dfail. repeat case_match; simplify_eq/=; done.
    + destruct payload as [|b payload]; [done|]. rewrite first_byte in E. intros [= ->]. by injection E as <- _.
  - destruct payload as [|b payload]; [done|]. by rewrite first_byte in E.
Qed.

(** The borrowed encoder of output writes what the encoder of messages writes. *)
Theorem put_output_agrees off cue echo_ack bytes spoken :
  encode_output_into off cue echo_ack bytes = encode (Output off cue echo_ack bytes) spoken.
Proof.
  unfold encode_output_into, put_output, encode, put_fields. cbn [Message.in_order server_tag].
  destruct (put Off off) as [a|]; [|done]. destruct (put Cue cue) as [b|]; [|done]. destruct (put OptSeq echo_ack) as [c|]; [|done].
  destruct (put (Chunk MAX_OUTPUT_CHUNK) bytes) as [d|]; [|done]. cbn [result_bind]. by rewrite app_nil_r.
Qed.

(** What a piece says of itself. *)
Definition piece_place (p : ScreenPart) : Z * Z :=
  match p with Pieces.Head _ _ _ pieces _ => (0, pieces) | Pieces.Tail _ _ pieces index _ => (index, pieces) end.

(** Each frame of a cut screen fits the budget, is read as one frame and decodes, at any version, to
    a piece that names its own place and how many there are; a piece after the first is never
    empty; and the pieces carry the chunks the encoder made of the rows, in order. *)
Lemma frames_carry h base scroll rows budget frames
    (H : Pieces.screen_ok h base scroll ∧ Forall (Pieces.update_ok (Pieces.h_size h)) rows ∧ Pieces.sorted_rows rows ∧
         Pieces.encode_screen_parts h base scroll rows budget = Ok frames) :
  ∃ parts, concat (Pieces.part_rows <$> parts) =
      Pieces.entry_span <$> Pieces.spans (budget - Pieces.TAIL_FIXED - Pieces.PART_ROW_HEAD) rows ∧
    (∀ i p, parts !! i = Some p → piece_place p = (Z.of_nat i, len frames) ∧ (i ≠ O → Pieces.part_rows p ≠ [])) ∧
    Forall2 (λ f p, len f ≤ budget ∧ ∃ payload, Message.read_frame MAX_FRAME f = Ok (payload, []) ∧
      ∀ spoken, decode payload spoken = Ok (Screen p)) frames parts.
Proof.
  destruct H as (Hok & Hu & Hs & He). destruct (Pieces.screen_parts_carry _ _ _ _ _ _ Hok Hu Hs He) as (groups & Hg & _ & Hne & _ & _ & Hf).
  exists ((λ ig, Pieces.part_of h base scroll (len frames) ig.1 ig.2) <$> Pieces.numbered 0 groups). split; [|split].
  - rewrite <- Hg. generalize 0. clear. induction groups as [|g gs IH]; intros i; [done|]. cbn [Pieces.numbered]. rewrite !fmap_cons.
    cbn [concat]. rewrite IH, fmap_app. f_equal. simpl. unfold Pieces.part_of. by case_match.
  - intros i p Hi. rewrite list_lookup_fmap, Pieces.numbered_lookup in Hi. destruct (groups !! i) as [g|] eqn:Ei; [|done].
    injection Hi as <-. cbn [fst snd]. rewrite Z.add_0_l. unfold Pieces.part_of. destruct (Z.eqb_spec (Z.of_nat i) 0) as [E|E]; cbn [piece_place].
    + split; [by rewrite E|lia].
    + split; [done|]. intros Hi. cbn [Pieces.part_rows]. specialize (Hne i g Ei Hi). by destruct g.
  - rewrite Forall2_fmap_r. apply Forall2_flip. eapply Forall2_impl; [exact Hf|]. intros [i g] f (Hl & x & -> & Hsize & Hb & Hr). split; [done|].
    exists (put_u8 (SCREEN_TAG + SERVER_TAG_BASE) ++ x). split.
    + rewrite <- (app_nil_r (put_u32 _ ++ _)), <- app_assoc. apply Message.read_frame_whole; [|unfold MAX_FRAME; lia]. split; [|done]. Rows.measure. lia.
    + intros spoken. rewrite <- (app_nil_r (put_u8 _ ++ x)). apply decode_reads; [unfold SCREEN_TAG, SERVER_TAG_BASE; lia|done| |constructor|].
      * change (get_fields (SCREEN_TAG + SERVER_TAG_BASE) spoken) with (let! part := get Piece in dret (Screen part)).
        eapply reads_last; [exact Hr|apply reads_ret].
      * rewrite app_nil_r. unfold MAX_FRAME in *. lia.
Qed.

End ServerMessage.
