(* ===== verification/Mask.v ===== *)
(** * Sets of rows ([crates/vt/src/lib.rs], [RowMask])

    A set of row indices as 64-bit words.  The lemmas relate every operation to [get]; the
    iterators yield the rows of a mask, or of either of two, in ascending order. *)

From S2P Require Import Prelude.

Module Mask.

Create HintDb mask.

Record RowMask := mkMask { words : list Z }.

Definition BITS : Z := 64.
Definition empty_ : RowMask := {| words := [] |}.
Definition words_for (rows : Z) : nat := Z.to_nat ((rows + (BITS - 1)) / BITS).
Definition position (row : Z) : nat * Z := (Z.to_nat (row / BITS), Z.shiftl 1 (row mod BITS)).

Definition resize {A} (n : nat) (x : A) (l : list A) : list A := take n l ++ replicate (n - length l) x.

Definition with_rows (rows : Z) : RowMask := {| words := replicate (words_for rows) 0 |}.
Definition reset (m : RowMask) (rows : Z) : RowMask := {| words := resize (words_for rows) 0 [] |}.

Definition set_ (m : RowMask) (row : Z) : RowMask :=
  let '(word, bit) := position row in
  let ws := if (length (words m) <=? word)%nat then resize (S word) 0 (words m) else words m in
  {| words := <[word := Z.lor (ws !!! word) bit]> ws |}.
Definition get (m : RowMask) (row : Z) : bool :=
  let '(word, bit) := position row in
  match words m !! word with Some slot => negb (Z.land slot bit =? 0) | None => false end.

(** [for row in 0..rows { mask.set(row) }], from any row. *)
Definition set_range (m : RowMask) (from n : Z) : RowMask := foldl set_ m (seqZ from n).
Definition filled (rows : Z) : RowMask := set_range (with_rows rows) 0 rows.

Fixpoint zip_or (a b : list Z) : list Z :=
  match a, b with
  | x :: a, y :: b => Z.lor x y :: zip_or a b
  | a, _ => a
  end.
Definition union_ (m other : RowMask) : RowMask :=
  let ws := if (length (words m) <? length (words other))%nat then resize (length (words other)) 0 (words m) else words m in
  {| words := zip_or ws (words other) |}.
Definition clear_all (m : RowMask) : RowMask := {| words := (λ _, 0) <$> words m |}.
Definition is_empty (m : RowMask) : bool := forallb (λ w, w =? 0) (words m).

(** [u64::trailing_zeros] of a word that is not zero. *)
Fixpoint trailing_zeros (fuel : nat) (w : Z) : Z :=
  match fuel with
  | O => 0
  | S fuel => if Z.odd w then 0 else 1 + trailing_zeros fuel (Z.shiftr w 1)
  end.

(** The rows of one word; a row past [u16] ends them. *)
Fixpoint word_bits (fuel : nat) (base w : Z) : list Z :=
  match fuel with
  | O => []
  | S fuel =>
      if w =? 0 then []
      else
        let bit := trailing_zeros 64 w in
        if base + bit <=? U16_MAX then (base + bit) :: word_bits fuel base (Z.land w (w - 1)) else []
  end.
Fixpoint bits (index : Z) (ws : list Z) : list Z :=
  match ws with [] => [] | w :: ws => word_bits 65 (index * BITS) w ++ bits (index + 1) ws end.

Definition iter (m : RowMask) : list Z := bits 0 (words m).
Definition iter_either (m other : RowMask) : list Z :=
  bits 0 ((λ index, Z.lor (default 0 (words m !! index)) (default 0 (words other !! index))) <$>
          seq 0 (length (words m) `max` length (words other))).

(** ** Rows and bits *)

Definition is_mask (m : RowMask) : Prop := Forall (λ w, 0 ≤ w < 2 ^ BITS) (words m).

(** The bit of a row, in the list of words. *)
Definition bit_of (ws : list Z) (row : Z) : bool := Z.testbit (default 0 (ws !! Z.to_nat (row / BITS))) (row mod BITS).

Lemma row_mod row : 0 ≤ row mod BITS < 64.
Proof. apply Z.mod_pos_bound. done. Qed.

Lemma get_word m row : get m row = bit_of (words m) row.
Proof.
  unfold get, bit_of, position. destruct (words m !! Z.to_nat (row / BITS)); simpl; [|by rewrite Z.bits_0].
  apply land_bit, row_mod.
Qed.

Lemma lookup_resize n (l : list Z) i : (i < n)%nat → resize n 0 l !! i = Some (default 0 (l !! i)).
Proof.
  intros Hi. unfold resize. destruct (decide (i < length l)%nat) as [Hl|Hl].
  - destruct (lookup_lt_is_Some_2 l i Hl) as [x Hx]. rewrite lookup_app_l by (rewrite length_take; lia). by rewrite lookup_take_lt, Hx by lia.
  - rewrite lookup_app_r by (rewrite length_take; lia). rewrite lookup_replicate_2 by (rewrite length_take; lia).
    by rewrite (lookup_ge_None_2 l i) by lia.
Qed.

Lemma same_row a b : 0 ≤ a → 0 ≤ b → Z.to_nat (a / BITS) = Z.to_nat (b / BITS) → a mod BITS = b mod BITS → a = b.
Proof. intros Ha Hb H1 H2. pose proof (Z.div_pos a BITS Ha ltac:(done)). pose proof (Z.div_pos b BITS Hb ltac:(done)). rewrite (Z.div_mod a BITS), (Z.div_mod b BITS) by done. f_equal; [f_equal; lia|done]. Qed.

Lemma get_marked m row r : 0 ≤ row → 0 ≤ r → get (set_ m row) r = (r =? row) || get m r.
Proof.
  intros Hrow Hr. rewrite !get_word. unfold set_, bit_of, position. cbn [words]. set (k := Z.to_nat (row / BITS)). set (n := Z.to_nat (r / BITS)).
  set (ws := if (length (words m) <=? k)%nat then resize (S k) 0 (words m) else words m).
  assert (∀ i, default 0 (ws !! i) = default 0 (words m !! i)) as Hd.
  { intros i. unfold ws. destruct (Nat.leb_spec (length (words m)) k); [|done]. destruct (decide (i < S k)%nat); [by rewrite lookup_resize|].
    rewrite !(proj2 (lookup_ge_None _ _)); [done|lia|]. unfold resize. rewrite length_app, length_take, length_replicate. lia. }
  assert (k < length ws)%nat as Hk.
  { unfold ws. destruct (Nat.leb_spec (length (words m)) k); [|done]. unfold resize. rewrite length_app, length_take, length_replicate. lia. }
  destruct (decide (n = k)) as [E|E].
  - rewrite E, list_lookup_insert_eq by done. cbn [default from_option id]. rewrite Z.lor_spec, Z.shiftl_1_l.
    assert (ws !!! k = default 0 (words m !! k)) as ->.
    { rewrite <- Hd. destruct (lookup_lt_is_Some_2 ws k Hk) as [x Hx]. rewrite Hx. by rewrite (list_lookup_total_correct _ _ _ Hx). }
    rewrite orb_comm. f_equal. pose proof (row_mod row). rewrite Z.pow2_bits_eqb by lia.
    destruct (Z.eqb_spec (row mod BITS) (r mod BITS)) as [Em|Em], (Z.eqb_spec r row) as [->|Hne]; try done. exfalso. apply Hne. by apply same_row.
  - rewrite list_lookup_insert_ne, Hd by done. destruct (Z.eqb_spec r row) as [->|]; [done|done].
Qed.

Lemma get_set_range m from n r : 0 ≤ from → 0 ≤ r → get (set_range m from n) r = (bool_decide (from ≤ r < from + n)) || get m r.
Proof.
  intros Hf Hr. unfold set_range. assert (∀ l m, Forall (λ x, 0 ≤ x) l → get (foldl set_ m l) r = bool_decide (r ∈ l) || get m r) as H.
  { induction l as [|x l IH]; intros m' Hl; cbn [foldl].
    - rewrite bool_decide_eq_false_2 by set_solver. done.
    - apply list.Forall_cons in Hl as [Hx Hl]. rewrite IH, get_marked by done. rewrite orb_assoc. f_equal.
      destruct (Z.eqb_spec r x) as [->|]; [rewrite orb_true_r; symmetry; apply bool_decide_eq_true; left|].
      rewrite orb_false_r. apply bool_decide_ext. rewrite elem_of_cons. tauto. }
  rewrite H; [|apply Forall_forall; intros x Hx; apply elem_of_seqZ in Hx; lia]. f_equal. apply bool_decide_ext. rewrite elem_of_seqZ. done.
Qed.

Lemma get_zeros n r : get {| words := replicate n 0 |} r = false.
Proof.
  rewrite get_word. unfold bit_of. cbn [words]. destruct (replicate n 0 !! Z.to_nat (r / BITS)) as [x|] eqn:E; simpl; [|apply Z.bits_0].
  apply lookup_replicate in E as [-> _]. apply Z.bits_0.
Qed.
Lemma get_empty r : get empty_ r = false.
Proof. apply (get_zeros O). Qed.
Lemma get_reset m rows r : get (reset m rows) r = false.
Proof. unfold reset, resize. rewrite firstn_nil, Nat.sub_0_r. apply get_zeros. Qed.
Lemma get_filled rows r : 0 ≤ rows → 0 ≤ r → get (filled rows) r = bool_decide (r < rows).
Proof.
  intros Hn Hr. unfold filled, with_rows. rewrite get_set_range by lia. rewrite get_zeros, orb_false_r. apply bool_decide_ext. lia.
Qed.
Lemma get_clear_all m r : get (clear_all m) r = false.
Proof.
  rewrite get_word. unfold bit_of, clear_all. cbn [words]. rewrite list_lookup_fmap. destruct (words m !! _); apply Z.bits_0.
Qed.

Lemma lookup_zip_or a b i : (length b ≤ length a)%nat → default 0 (zip_or a b !! i) = Z.lor (default 0 (a !! i)) (default 0 (b !! i)).
Proof.
  revert b i. induction a as [|x a IH]; intros [|y b] i Hl; cbn [zip_or length] in *; [done|lia|simpl; by rewrite Z.lor_0_r|].
  destruct i; [done|]. simpl. apply IH. lia.
Qed.
Lemma length_resize {A} n (x : A) l : length (resize n x l) = n.
Proof. unfold resize. rewrite length_app, length_take, length_replicate. lia. Qed.

Lemma get_union m other r : get (union_ m other) r = get m r || get other r.
Proof.
  rewrite !get_word. unfold bit_of, union_. cbn [words]. set (i := Z.to_nat (r / BITS)).
  destruct (Nat.ltb_spec (length (words m)) (length (words other))) as [Hl|Hl]; (rewrite lookup_zip_or; [|rewrite ?length_resize; lia]); rewrite Z.lor_spec; [|done].
  f_equal. f_equal. destruct (decide (i < length (words other))%nat); [by rewrite lookup_resize|].
  rewrite !(proj2 (lookup_ge_None _ _)); [done|lia|rewrite length_resize; lia].
Qed.

Lemma is_empty_spec m : is_empty m = true → ∀ r, get m r = false.
Proof.
  intros H r. rewrite get_word. unfold bit_of. destruct (words m !! Z.to_nat (r / BITS)) as [w|] eqn:E; simpl; [|apply Z.bits_0].
  unfold is_empty in H. rewrite forallb_forall in H. specialize (H w ltac:(apply list_elem_of_In; by eapply list_elem_of_lookup_2)). zbool. subst w. apply Z.bits_0.
Qed.

(** ** Iteration *)

Lemma trailing_spec fuel w : 0 ≤ w → Z.log2 w < Z.of_nat fuel → w ≠ 0 →
  let t := trailing_zeros fuel w in 0 ≤ t < Z.of_nat fuel ∧ Z.testbit w t = true ∧ ∀ i, 0 ≤ i < t → Z.testbit w i = false.
Proof.
  revert w. induction fuel as [|fuel IH]; intros w Hw Hl Hne; [pose proof (Z.log2_nonneg w); lia|]. cbn [trailing_zeros].
  destruct (Z.odd w) eqn:E; [split; [lia|]; split; [by rewrite Z.bit0_odd|lia]|]. rewrite Z.shiftr_div_pow2 by lia. change (2 ^ 1) with 2.
  assert (w = 2 * (w / 2)) as Hd by (pose proof (Zmod_odd w) as Hm; rewrite E in Hm; pose proof (Z.div_mod w 2 ltac:(done)); lia).
  assert (Z.log2 (w / 2) < Z.of_nat fuel) as Hl2 by (rewrite Hd, Z.log2_double in Hl; lia).
  destruct (IH (w / 2) ltac:(lia) Hl2 ltac:(lia)) as (Ht & Hb & Hlow). set (t := trailing_zeros fuel (w / 2)) in *.
  assert (∀ i, 0 ≤ i → Z.testbit w (1 + i) = Z.testbit (w / 2) i) as Hs by (intros i Hi; replace (1 + i) with (Z.succ i) by lia; rewrite Hd at 1; apply Z.double_bits_succ).
  split; [lia|]. split; [rewrite Hs; [done|lia]|]. intros i Hi. destruct (Z.eq_dec i 0) as [->|]; [by rewrite Z.bit0_odd|].
  replace i with (1 + (i - 1)) by lia. rewrite Hs by lia. apply Hlow. lia.
Qed.

(** [w & (w - 1)] takes the lowest bit away. *)
Lemma lowest_cleared w t : 0 < w → 0 ≤ t → Z.testbit w t = true → (∀ i, 0 ≤ i < t → Z.testbit w i = false) →
  ∀ i, 0 ≤ i → Z.testbit (Z.land w (w - 1)) i = Z.testbit w i && negb (i =? t).
Proof.
  intros Hw Ht Hb Hlow. assert (w = Z.shiftl (Z.shiftr w t) t) as Hs.
  { apply Z.bits_inj'. intros i Hi. rewrite Z.shiftl_spec by done. destruct (Z.lt_ge_cases i t) as [Hlt|Hge].
    - rewrite Hlow by lia. by rewrite Z.testbit_neg_r by lia.
    - rewrite Z.shiftr_spec by lia. f_equal. lia. }
  set (h := Z.shiftr w t) in *. assert (Z.odd h = true) as Ho by (rewrite <- Z.bit0_odd; unfold h; by rewrite Z.shiftr_spec, Z.add_0_l).
  assert (Z.testbit (w - 1) t = false ∧ ∀ i, t < i → Z.testbit (w - 1) i = Z.testbit w i) as [H1 H2].
  { assert (w - 1 = Z.shiftl (h - 1) t + Z.ones t) as E by (rewrite Z.ones_equiv; rewrite Hs at 1; rewrite !Z.shiftl_mul_pow2 by done; lia).
    assert (w - 1 = Z.lor (Z.shiftl (h - 1) t) (Z.ones t)) as El.
    { assert (Z.land (Z.shiftl (h - 1) t) (Z.ones t) = 0) as E0.
      { apply Z.bits_inj'. intros i Hi. rewrite Z.land_spec, Z.bits_0, Z.shiftl_spec by done.
        destruct (Z.lt_ge_cases i t); rewrite ?(Z.testbit_neg_r _ (i - t)), ?(Z.ones_spec_high t i) by lia; rewrite ?andb_false_r; done. }
      rewrite E, Z.add_nocarry_lxor by done. by apply Z.lxor_lor. }
    assert (h - 1 = 2 * (h / 2)) as Eh by (pose proof (Zmod_odd h) as Hm; rewrite Ho in Hm; pose proof (Z.div_mod h 2 ltac:(done)); lia).
    split.
    - rewrite El, Z.lor_spec, Z.shiftl_spec, Z.ones_spec_high, orb_false_r, Z.sub_diag, Eh by lia. by rewrite Z.testbit_even_0.
    - intros i Hi. rewrite El, Z.lor_spec, Z.shiftl_spec, Z.ones_spec_high, orb_false_r, Eh by lia. rewrite Hs, Z.shiftl_spec by lia.
      replace (i - t) with (Z.succ (i - t - 1)) by lia. rewrite Z.double_bits_succ.
      rewrite (Z.div_mod h 2) at 2 by done. rewrite Zmod_odd, Ho. by rewrite Z.testbit_odd_succ by lia. }
  intros i Hi. rewrite Z.land_spec. destruct (Z.eqb_spec i t) as [->|Hne]; [by rewrite H1, !andb_false_r|]. rewrite andb_true_r.
  destruct (Z.lt_ge_cases i t); [by rewrite Hlow by lia|]. rewrite H2 by lia. apply andb_diag.
Qed.

Lemma seqZ_split a n k : 0 ≤ k ≤ n → seqZ a n = seqZ a k ++ seqZ (a + k) (n - k).
Proof. intros H. replace n with (k + (n - k)) at 1 by lia. by rewrite seqZ_app by lia. Qed.

Lemma filter_none (P : Z → bool) l : Forall (λ x, P x = false) l → filter (λ x, P x = true) l = [].
Proof. intros H. induction H as [|x l Hx H IH]; [done|]. rewrite filter_cons, Hx. by rewrite decide_False. Qed.
Lemma filter_agree (P Q : Z → bool) l : Forall (λ x, P x = Q x) l → filter (λ x, P x = true) l = filter (λ x, Q x = true) l.
Proof. intros H. induction H as [|x l Hx H IH]; [done|]. rewrite !filter_cons, Hx, IH. done. Qed.

Lemma word_bits_spec fuel lo w base : 0 ≤ w < 2 ^ 64 → 0 ≤ lo ≤ 64 → (∀ i, 0 ≤ i < lo → Z.testbit w i = false) →
  64 - lo < Z.of_nat fuel → base + 63 ≤ U16_MAX →
  word_bits fuel base w = filter (λ r, Z.testbit w (r - base) = true) (seqZ (base + lo) (64 - lo)).
Proof.
  revert lo w. induction fuel as [|fuel IH]; intros lo w Hw Hlo Hlow Hf Hbase; [lia|]. cbn [word_bits].
  destruct (Z.eqb_spec w 0) as [->|Hne]; [rewrite (filter_none (λ r, Z.testbit 0 (r - base))); [done|]; apply Forall_forall; intros; apply Z.bits_0|].
  assert (Z.log2 w < 64) as Hlog by (apply Z.log2_lt_pow2; lia).
  destruct (trailing_spec 64 w ltac:(lia) Hlog Hne) as (Ht & Hb & Hz). set (t := trailing_zeros 64 w) in *.
  assert (lo ≤ t) as Hlt by (apply Z.nlt_ge; intros ?; rewrite Hlow in Hb; [done|lia]).
  rewrite (proj2 (Z.leb_le _ _)) by lia. pose proof (lowest_cleared w t ltac:(lia) ltac:(lia) Hb Hz) as Hc.
  rewrite (seqZ_split (base + lo) (64 - lo) (t - lo)) by lia. rewrite filter_app.
  rewrite (filter_none (λ r, Z.testbit w (r - base)) (seqZ (base + lo) (t - lo))) by (apply Forall_forall; intros x Hx; apply elem_of_seqZ in Hx; apply Hz; lia).
  cbn [app]. replace (base + lo + (t - lo)) with (base + t) by lia. rewrite (seqZ_cons (base + t)) by lia.
  rewrite filter_cons, decide_True by (by replace (base + t - base) with t by lia). f_equal.
  rewrite (IH (t + 1)); [|split; [apply Z.land_nonneg; lia|]|lia| |lia|done].
  - replace (Z.succ (base + t)) with (base + (t + 1)) by lia. replace (Z.pred (64 - lo - (t - lo))) with (64 - (t + 1)) by lia.
    apply (filter_agree (λ r, Z.testbit (Z.land w (w - 1)) (r - base)) (λ r, Z.testbit w (r - base))), Forall_forall. intros x Hx. apply elem_of_seqZ in Hx.
    rewrite Hc by lia. rewrite (proj2 (Z.eqb_neq _ _)) by lia. apply andb_true_r.
  - destruct (Z.eq_dec (Z.land w (w - 1)) 0) as [->|]; [lia|]. assert (0 ≤ Z.land w (w - 1)) by (apply Z.land_nonneg; lia).
    apply Z.log2_lt_pow2; [lia|]. pose proof (Z.log2_land w (w - 1)). lia.
  - intros i Hi. rewrite Hc by lia. destruct (Z.eqb_spec i t); [apply andb_false_r|]. rewrite Hz by lia. done.
Qed.

Lemma bit_of_word w ws r : 0 ≤ r < 64 → bit_of (w :: ws) r = Z.testbit w r.
Proof. intros H. unfold bit_of, BITS. rewrite Z.div_small, Z.mod_small by lia. done. Qed.
Lemma bit_of_next w ws r : 64 ≤ r → bit_of (w :: ws) r = bit_of ws (r - 64).
Proof.
  intros H. unfold bit_of, BITS. replace r with (r - 64 + 1 * 64) at 1 2 by lia. rewrite Z.div_add, Z.mod_add by done.
  pose proof (Z.div_pos (r - 64) 64 ltac:(lia) ltac:(lia)). replace (Z.to_nat ((r - 64) / 64 + 1)) with (S (Z.to_nat ((r - 64) / 64))) by lia. done.
Qed.

Lemma bits_spec index ws : 0 ≤ index → Forall (λ w, 0 ≤ w < 2 ^ 64) ws → index + len ws ≤ 1024 →
  bits index ws = filter (λ r, bit_of ws (r - index * 64) = true) (seqZ (index * 64) (64 * len ws)).
Proof.
  intros Hi Hw. revert index Hi. induction Hw as [|w ws Hw Hws IH]; intros index Hi Hn; [done|]. cbn [bits length] in *. unfold BITS.
  rewrite (seqZ_split (index * 64) _ 64) by lia. rewrite filter_app. f_equal.
  - rewrite (word_bits_spec 65 0) by lia. rewrite Z.add_0_r.
    apply (filter_agree (λ r, Z.testbit w (r - index * 64)) (λ r, bit_of (w :: ws) (r - index * 64))), Forall_forall. intros x Hx.
    apply elem_of_seqZ in Hx. by rewrite bit_of_word by lia.
  - rewrite IH by lia. replace (index * 64 + 64) with ((index + 1) * 64) by lia. replace (64 * Z.of_nat (S (length ws)) - 64) with (64 * len ws) by lia.
    apply (filter_agree (λ r, bit_of ws (r - (index + 1) * 64)) (λ r, bit_of (w :: ws) (r - index * 64))), Forall_forall. intros x Hx.
    apply elem_of_seqZ in Hx. rewrite bit_of_next by lia. f_equal. lia.
Qed.

(** A mask as its operations build it: words of 64 bits, no more of them than [u16] rows fill. *)
Record mask_ok (m : RowMask) : Prop := {
  mo_words : Forall (λ w, 0 ≤ w < 2 ^ 64) (words m);
  mo_len : len (words m) ≤ 1024
}.

Lemma word_lor_range x y : 0 ≤ x < 2 ^ 64 → 0 ≤ y < 2 ^ 64 → 0 ≤ Z.lor x y < 2 ^ 64.
Proof.
  intros Hx Hy. split; [apply Z.lor_nonneg; lia|]. destruct (Z.eq_dec (Z.lor x y) 0) as [->|Hne]; [lia|].
  pose proof (proj2 (Z.lor_nonneg x y) ltac:(lia)). apply Z.log2_lt_pow2; [lia|]. rewrite Z.log2_lor by lia.
  destruct (Z.eq_dec x 0) as [->|], (Z.eq_dec y 0) as [->|]; [done|..]; apply Z.max_lub_lt; (apply Z.log2_lt_pow2; lia) || (simpl; lia).
Qed.

(** The rows in either of two masks, each once, ascending. *)
Lemma iter_either_spec m other : mask_ok m → mask_ok other →
  iter_either m other = filter (λ r, get m r || get other r = true) (seqZ 0 (64 * Z.of_nat (length (words m) `max` length (words other)))).
Proof.
  intros [Hm Lm] [Ho Lo]. unfold iter_either. set (n := (length (words m) `max` length (words other))%nat).
  set (f := λ index, Z.lor (default 0 (words m !! index)) (default 0 (words other !! index))).
  assert (∀ ws i, Forall (λ w, 0 ≤ w < 2 ^ 64) ws → 0 ≤ default 0 (ws !! i) < 2 ^ 64) as Hd.
  { intros ws i H. destruct (ws !! i) as [x|] eqn:E; simpl; [|lia]. by eapply Forall_lookup_1 in H. }
  rewrite (bits_spec 0 (f <$> seq 0 n)); [|done| |rewrite length_fmap, length_seq; lia].
  2:{ apply Forall_fmap, Forall_forall. intros i _. apply word_lor_range; by apply Hd. }
  rewrite length_fmap, length_seq. apply (filter_agree (λ r, bit_of (f <$> seq 0 n) (r - 0 * 64)) (λ r, get m r || get other r)), Forall_forall.
  intros x Hx. apply elem_of_seqZ in Hx. rewrite Z.sub_0_r, !get_word. unfold bit_of. rewrite list_lookup_fmap.
  assert (0 ≤ x / BITS) by (apply Z.div_pos; [lia|done]). assert (x / BITS < Z.of_nat n) by (apply Z.div_lt_upper_bound; [done|unfold BITS; lia]).
  rewrite lookup_seq_lt by lia. cbn [fmap option_fmap option_map default from_option id]. unfold f. rewrite Nat.add_0_l. apply Z.lor_spec.
Qed.

Lemma zeros_ok n : (n ≤ 1024)%nat → mask_ok {| words := replicate n 0 |}.
Proof. intros H. split; cbn [words]; [by apply Forall_replicate|rewrite length_replicate; lia]. Qed.
Lemma words_for_le rows : 0 ≤ rows ≤ U16_MAX → (words_for rows ≤ 1024)%nat.
Proof. intros H. unfold words_for, BITS. assert ((rows + (64 - 1)) / 64 < 1025) by (apply Z.div_lt_upper_bound; lia). lia. Qed.
Lemma resize_ok n l : Forall (λ w, 0 ≤ w < 2 ^ 64) l → Forall (λ w, 0 ≤ w < 2 ^ 64) (resize n 0 l).
Proof. intros H. apply Forall_app. split; [by apply Forall_take|by apply Forall_replicate]. Qed.

Lemma empty_ok : mask_ok empty_.
Proof. by apply (zeros_ok O), Nat.le_0_l. Qed.
Lemma reset_ok m rows : 0 ≤ rows ≤ U16_MAX → mask_ok (reset m rows).
Proof. intros H. unfold reset, resize. rewrite firstn_nil, Nat.sub_0_r. by apply zeros_ok, words_for_le. Qed.
Lemma clear_ok m : mask_ok m → mask_ok (clear_all m).
Proof. intros [Hm Hl]. split; cbn [clear_all words]; [apply Forall_fmap, Forall_forall; intros; simpl; lia|by rewrite length_fmap]. Qed.

Lemma set_ok m row : mask_ok m → 0 ≤ row ≤ U16_MAX → mask_ok (set_ m row).
Proof.
  intros [Hm Hl] Hr. unfold set_, position. set (k := Z.to_nat (row / BITS)).
  assert (k < 1024)%nat as Hk. { assert (0 ≤ row / BITS < 1024) by (split; [apply Z.div_pos; [lia|done]|apply Z.div_lt_upper_bound; [done|unfold BITS; lia]]). lia. }
  set (ws := if (length (words m) <=? k)%nat then resize (S k) 0 (words m) else words m).
  assert (Forall (λ w, 0 ≤ w < 2 ^ 64) ws ∧ (k < length ws ≤ 1024)%nat) as [Hws Hlen].
  { unfold ws. destruct (Nat.leb_spec (length (words m)) k); [rewrite length_resize; split; [by apply resize_ok|lia]|split; [done|lia]]. }
  split; cbn [words]; [|rewrite length_insert; lia]. apply Forall_insert; [done|]. apply word_lor_range.
  - destruct (lookup_lt_is_Some_2 ws k ltac:(lia)) as [x Hx]. rewrite (list_lookup_total_correct _ _ _ Hx). by eapply Forall_lookup_1 in Hws.
  - rewrite Z.shiftl_1_l. pose proof (row_mod row). split; [lia|]. apply Z.pow_lt_mono_r; lia.
Qed.

Lemma set_range_ok m from n : mask_ok m → 0 ≤ from → from + n ≤ U16_MAX + 1 → mask_ok (set_range m from n).
Proof.
  intros Hm Hf Hn. unfold set_range. assert (Forall (λ x, 0 ≤ x ≤ U16_MAX) (seqZ from n)) as Hl
    by (apply Forall_forall; intros x Hx; apply elem_of_seqZ in Hx; lia).
  revert m Hm. induction Hl as [|x l Hx Hl IH]; intros m Hm; cbn [foldl]; [done|]. apply IH. by apply set_ok.
Qed.
Lemma filled_ok rows : 0 ≤ rows ≤ U16_MAX → mask_ok (filled rows).
Proof. intros H. apply set_range_ok; [by apply zeros_ok, words_for_le|lia|lia]. Qed.

Lemma union_ok m other : mask_ok m → mask_ok other → mask_ok (union_ m other).
Proof.
  intros [Hm Lm] [Ho Lo]. assert (∀ a b, Forall (λ w, 0 ≤ w < 2 ^ 64) a → Forall (λ w, 0 ≤ w < 2 ^ 64) b →
    Forall (λ w, 0 ≤ w < 2 ^ 64) (zip_or a b) ∧ length (zip_or a b) = length a) as Hz.
  { intros a b Ha. revert b. induction Ha as [|x a Hx Ha IH]; intros [|y b] Hb; cbn [zip_or]; [done|done|by split; [constructor|]|].
    apply list.Forall_cons in Hb as [Hy Hb]. destruct (IH b Hb). split; [constructor; [by apply word_lor_range|done]|simpl; lia]. }
  unfold union_. destruct (Nat.ltb_spec (length (words m)) (length (words other))).
  - destruct (Hz _ _ (resize_ok (length (words other)) (words m) Hm) Ho) as [H1 H2]. split; cbn [words]; [done|rewrite H2, length_resize; lia].
  - destruct (Hz _ _ Hm Ho) as [H1 H2]. split; cbn [words]; [done|lia].
Qed.

#[export] Hint Resolve empty_ok reset_ok clear_ok set_ok filled_ok union_ok set_range_ok : mask.

End Mask.
