(* ===== verification/Splice.v ===== *)
(** * Patching a row ([crates/client/src/render.rs], [boundary] and [splice_into])

    A client holds each row as it crossed the wire and patches it with the spans a piece carries.
    [wire] is what a server's row is once it has crossed; [update_span] is the one span an update
    amounts to, however it was cut.

    The lemmas show that a span built by [RowFrame::changed_span] against a row, spliced into what
    a client holds of that row, gives exactly the new row ([splice_partial]); that a whole row
    replaces anything a client may be holding ([splice_whole]); and that a row reported unchanged
    is the same on the wire ([unchanged_wire]). *)

From S2P Require Import Prelude Codec Fields Message Text Screen Modes Rows Pieces.

Module Splice.
Import Codec Text Screen Rows Pieces.

(** ** Operations *)

Fixpoint boundary_from (l : list StyleRun) (index : nat) (cells_ at_ col byte : Z) : option nat :=
  match l with
  | [] => if (cells_ =? col) && (at_ =? byte) then Some index else None
  | run :: l =>
      if (cells_ =? col) && (at_ =? byte) then Some index
      else if (col <? cells_) || (byte <? at_) then None
      else
        match checked_add U16_MAX cells_ (r_cells run), checked_add USIZE_MAX at_ (r_bytes run) with
        | Some cells_, Some at_ => boundary_from l (S index) cells_ at_ col byte
        | _, _ => None
        end
  end.
(** The run that begins at a column and a byte, if one does. *)
Definition boundary (row : RowFrame) (col byte : Z) : option nat :=
  if (len (text row) <? byte) || negb (is_char_boundary (text row) byte) then None
  else boundary_from (runs row) O 0 0 col byte.

(** [get(..n)] and [get(n..)] of a slice of runs. *)
Definition runs_upto (n : nat) (l : list StyleRun) : option (list StyleRun) :=
  if (n <=? length l)%nat then Some (take n l) else None.
Definition runs_from (n : nat) (l : list StyleRun) : option (list StyleRun) :=
  if (n <=? length l)%nat then Some (drop n l) else None.

(** The row [span] leaves of [row]; [None] leaves it as it was. *)
Definition splice_into (row : RowFrame) (span : RowSpan) : option RowFrame :=
  let frame := sp_frame span in
  let byte := sp_byte span in
  first ← boundary row (sp_col span) byte;
  past_col ← checked_add U16_MAX (sp_col span) (cells frame);
  past_byte ← checked_add USIZE_MAX byte (len (text frame));
  match (if sp_clear span then None else boundary row past_col past_byte) with
  | Some end_ =>
      head ← str_get 0 byte (text row);
      tail ← str_get past_byte (len (text row)) (text row);
      head_runs ← runs_upto first (runs row);
      tail_runs ← runs_from end_ (runs row);
      Some {| text := head ++ text frame ++ tail; runs := head_runs ++ runs frame ++ tail_runs; cells := cells row |}
  | None =>
      if (first =? 0)%nat && (byte =? 0) then Some frame
      else
        head ← str_get 0 byte (text row);
        head_runs ← runs_upto first (runs row);
        Some {| text := head ++ text frame; runs := head_runs ++ runs frame; cells := past_col |}
  end.

(** The rows of [write_scroll]: a band moves up and leaves blank rows behind. *)
Definition scroll_rows (b : ScrollBand) (rows : list RowFrame) : list RowFrame :=
  let n := Z.to_nat (lines b) in
  let band := slice (Z.to_nat (top b)) (Z.to_nat (bottom b)) rows in
  if (top b <=? bottom b) && (bottom b <=? len rows) && (n <=? length band)%nat then
    let rotated := drop n band ++ take n band in
    take (Z.to_nat (top b)) rows ++ (take (length band - n) rotated ++ replicate n default_row) ++ drop (Z.to_nat (bottom b)) rows
  else rows.

#[export] Instance RowFrame_inhabited : Inhabited RowFrame := populate default_row.

(** ** Vocabulary of the proofs *)

(** A server's row, as it is once it has crossed. *)
Definition wire (r : RowFrame) : RowFrame := inert (frame_of (whole r)).

(** The rows a band moves, and what moving them leaves. *)
Definition in_band (s : option ScrollBand) (i : Z) : bool :=
  match s with Some b => (top b <=? i) && (i <? bottom b) | None => false end.

Definition scrolled (s : option ScrollBand) (C : list RowFrame) : list RowFrame :=
  match s with Some b => scroll_rows b C | None => C end.

(** An update of a row as wide as the grid, that erases only past its end and says something. *)
Record update_full (size : Fields.GridSize) (u : RowUpdate) : Prop := {
  uf_ok : update_ok size u;
  uf_cells : cells (u_frame u) = Fields.cols size;
  uf_clear : u_clear u = true → (u_runs u).2 = length (runs (u_frame u));
  uf_says : (u_runs u).1 = O ∨ ((u_runs u).1 < (u_runs u).2)%nat ∨ u_clear u = true
}.

(** The one span an update amounts to. *)
Definition update_span (u : RowUpdate) : RowSpan :=
  let r := u_frame u in
  let '(a, b) := u_runs u in
  {| sp_row := u_row u; sp_chunk := false; sp_col := col_at r a; sp_byte := byte_at r a; sp_clear := u_clear u;
     sp_frame := inert (frame_of (chunk_of r a b (limit r b) (edge r b))) |}.

(** A row a server sends: its runs tile it, it is no denser than the wire allows and as wide as the grid. *)
Record row_good (cols : Z) (r : RowFrame) : Prop := {
  rg_ok : row_ok r;
  rg_tight : row_tight r;
  rg_cells : cells r = cols
}.

(** ** Boundaries *)

Abbreviation positive := (Forall (λ run, 0 < r_cells run ∧ 0 ≤ r_bytes run)).

Lemma sums_nonneg l : positive l → 0 ≤ sum_by r_cells l ∧ 0 ≤ sum_by r_bytes l.
Proof. intros H. split; apply sum_by_nonneg; eapply list.Forall_impl; [exact H|simpl; lia|exact H|simpl; lia]. Qed.

Lemma boundary_from_at l index c b k : positive l → (k ≤ length l)%nat →
  c + sum_by r_cells (take k l) ≤ U16_MAX → b + sum_by r_bytes (take k l) ≤ USIZE_MAX →
  boundary_from l index c b (c + sum_by r_cells (take k l)) (b + sum_by r_bytes (take k l)) = Some (index + k)%nat.
Proof.
  intros Hl. revert index c b k. induction Hl as [|x l Hx Hl IH]; intros index c b k Hk Hc Hb.
  { destruct k; [|simpl in Hk; lia]. simpl. rewrite !Z.add_0_r, !Z.eqb_refl, Nat.add_0_r. done. }
  destruct k as [|k]; cbn [boundary_from take sum_by foldr] in *.
  { rewrite !Z.add_0_r, !Z.eqb_refl, Nat.add_0_r. done. }
  fold (sum_by r_cells (take k l)) (sum_by r_bytes (take k l)) in *. cbn [length] in Hk.
  destruct (sums_nonneg (take k l) ltac:(by apply Forall_take)) as [Nc Nb].
  rewrite (proj2 (Z.eqb_neq c _)) by lia. rewrite !(proj2 (Z.ltb_ge _ _)) by lia. cbn [andb orb].
  unfold checked_add. rewrite !(proj2 (Z.leb_le _ _)) by lia.
  rewrite !Z.add_assoc, IH by lia. f_equal. lia.
Qed.

Lemma boundary_from_inv l index c b col byte j : positive l → boundary_from l index c b col byte = Some j →
  ∃ k, j = (index + k)%nat ∧ (k ≤ length l)%nat ∧ col = c + sum_by r_cells (take k l) ∧ byte = b + sum_by r_bytes (take k l).
Proof.
  intros Hl. revert index c b. induction Hl as [|x l Hx Hl IH]; intros index c b H; cbn [boundary_from] in H.
  { destruct (_ && _) eqn:E; [|done]. injection H as <-. zbool. exists O. simpl. split_and!; lia. }
  destruct (_ && _) eqn:E; [injection H as <-; zbool; exists O; simpl; split_and!; lia|].
  destruct (_ || _); [done|]. unfold checked_add in H. destruct (c + r_cells x <=? U16_MAX); [|done].
  destruct (b + r_bytes x <=? USIZE_MAX); [|done]. destruct (IH _ _ _ H) as (k & -> & Hk & -> & ->).
  exists (S k). cbn [take sum_by foldr length]. fold (sum_by r_cells (take k l)) (sum_by r_bytes (take k l)). split_and!; lia.
Qed.

Lemma boundary_inv row col byte j : positive (runs row) → boundary row col byte = Some j →
  (j ≤ length (runs row))%nat ∧ col = col_at row j ∧ byte = byte_at row j ∧ byte ≤ len (text row) ∧ is_char_boundary (text row) byte = true.
Proof.
  intros Hp H. unfold boundary in H. destruct (_ || _) eqn:E; [done|]. apply orb_false_elim in E as [E1 E2]. zbool.
  apply boundary_from_inv in H as (k & -> & Hk & -> & ->); [|done]. split_and!; try done; try lia. 
Qed.

Lemma boundary_at row k : positive (runs row) → (k ≤ length (runs row))%nat → col_at row k ≤ U16_MAX →
  byte_at row k ≤ len (text row) → len (text row) ≤ USIZE_MAX → is_char_boundary (text row) (byte_at row k) = true →
  boundary row (col_at row k) (byte_at row k) = Some k.
Proof.
  intros Hp Hk Hc Hb Hl Hbd. unfold boundary. rewrite Hbd, (proj2 (Z.ltb_ge _ _)) by done. cbn [negb orb].
  pose proof (boundary_from_at (runs row) O 0 0 k Hp Hk) as E. rewrite !Z.add_0_l in E. apply E; unfold col_at, byte_at in *; lia.
Qed.

(** ** Rows on the wire *)

Section wired.
Context (r : RowFrame) (Hr : row_ok r).

Lemma wire_text : text (wire r) = take (Z.to_nat (painted_bytes r)) (blank (text r)).
Proof.
  cbn [wire inert frame_of whole text c_text]. pose proof (painted_range r). pose proof (byte_at_painted r Hr 0). pose proof (byte_at_nonneg r Hr 0).
  apply blank_cut; [apply Hr|lia|by apply painted_boundary].
Qed.

Lemma wire_len : len (text (wire r)) = painted_bytes r.
Proof.
  rewrite wire_text, length_take. destruct (blank_ok _ (ok_text r Hr)) as (_ & -> & _). pose proof (painted_range r).
  pose proof (byte_at_painted r Hr 0). pose proof (byte_at_nonneg r Hr 0). lia.
Qed.

Lemma wire_slice a b : 0 ≤ a ≤ b → b ≤ painted_bytes r → is_char_boundary (text r) a = true → is_char_boundary (text r) b = true →
  slice (Z.to_nat a) (Z.to_nat b) (text (wire r)) = blank (slice (Z.to_nat a) (Z.to_nat b) (text r)).
Proof.
  intros Hab Hb Ba Bb. rewrite wire_text, blank_slice by (done || apply Hr). unfold slice. rewrite !take_drop_commute, take_take. do 2 f_equal. lia.
Qed.

Lemma wire_boundary i : 0 ≤ i ≤ painted_bytes r → is_char_boundary (text r) i = true → is_char_boundary (text (wire r)) i = true.
Proof.
  intros Hi Hb. rewrite wire_text. destruct (blank_ok _ (ok_text r Hr)) as (_ & Hl & _). pose proof (painted_range r).
  apply boundary_take; [lia|lia|]. rewrite blank_boundary by (apply Hr || lia). done.
Qed.

(** The runs of a row are found where they are, in the row a client holds. *)
Lemma wire_at k : (k ≤ length (runs r))%nat → boundary (wire r) (col_at r k) (byte_at r k) = Some k.
Proof.
  intros Hk. pose proof (byte_at_painted r Hr k). pose proof (byte_at_nonneg r Hr k). pose proof (col_at_le r Hr k). destruct (ok_cells r Hr).
  pose proof (painted_range r). pose proof (ok_width r Hr). apply (boundary_at (wire r)); [apply (ok_runs r Hr)|done|change (col_at r k ≤ U16_MAX); lia| |rewrite wire_len; lia|].
  - rewrite wire_len. done.
  - apply wire_boundary; [change (0 ≤ byte_at r k ≤ painted_bytes r); lia|apply (ok_cuts r Hr)].
Qed.

Lemma limit_painted b : (b ≤ length (runs r))%nat → limit r b ≤ painted_bytes r.
Proof. intros Hb. unfold limit. case_match; [lia|by apply byte_at_painted]. Qed.

(** The text of an update's span is that stretch of the row on the wire. *)
Lemma span_text row a b clear : (a ≤ b ≤ length (runs r))%nat →
  let sp := update_span {| u_row := row; u_frame := r; u_runs := (a, b); u_clear := clear |} in
  text (sp_frame sp) = slice (Z.to_nat (byte_at r a)) (Z.to_nat (limit r b)) (text (wire r)) ∧
  len (text (sp_frame sp)) = limit r b - byte_at r a.
Proof.
  intros Hab sp. destruct (limit_range r Hr b ltac:(lia) a ltac:(lia)) as [Hl _]. pose proof (limit_painted b ltac:(lia)).
  pose proof (byte_at_nonneg r Hr a).
  assert (text (sp_frame sp) = slice (Z.to_nat (byte_at r a)) (Z.to_nat (limit r b)) (text (wire r))) as E.
  { unfold sp. cbn [update_span u_frame u_runs sp_frame inert frame_of chunk_of text c_text].
    rewrite wire_slice; [done|lia|lia|apply (ok_cuts r Hr)|by apply limit_boundary]. }
  split; [done|]. rewrite E, length_slice. pose proof wire_len. lia.
Qed.

End wired.

Lemma wire_ends r : row_ok r → str_get 0 (len (text (wire r))) (text (wire r)) = Some (text (wire r)).
Proof.
  intros Hr. rewrite str_get_some by (done || lia || apply boundary_end). f_equal. rewrite slice_0, take_ge by lia. done.
Qed.

Lemma wire_cells r : cells (wire r) = cells r.
Proof. done. Qed.

Lemma whole_span row r : row_ok r →
  update_span (update_whole row r) = {| sp_row := row; sp_chunk := false; sp_col := 0; sp_byte := 0; sp_clear := false; sp_frame := wire r |}.
Proof.
  intros Hr. unfold update_whole, update_span. cbn [u_frame u_runs u_row u_clear]. f_equal. unfold inert, wire, frame_of, whole, chunk_of. cbn [text runs cells c_text c_runs c_cells].
  unfold limit, edge. rewrite Nat.eqb_refl. change (byte_at r 0) with 0. change (col_at r 0) with 0. rewrite Z.sub_0_r, slice_0, slice_all. done.
Qed.

(** ** Rows a client may hold *)

(** What every row of a client is, whatever it was patched with: its runs tile a part of it, and
    a row styled to the last column ends there. *)
Record held (cols : Z) (row : RowFrame) : Prop := {
  hd_runs : positive (runs row);
  hd_cells : styled_cells row ≤ cells row ≤ cols;
  hd_full : styled_cells row = cols → sum_by r_bytes (runs row) = len (text row)
}.

Lemma held_default cols : 0 < cols → held cols {| text := []; runs := []; cells := 0 |}.
Proof. intros H. split; unfold styled_cells; simpl; [constructor|lia|lia]. Qed.

(** A client's row has nothing past a run boundary at the last column. *)
Lemma held_last cols row byte j : held cols row → boundary row cols byte = Some j →
  j = length (runs row) ∧ byte = len (text row) ∧ cells row = cols.
Proof.
  intros [Hp Hc Hf] H. apply boundary_inv in H as (Hj & Ec & Eb & _); [|done]. unfold col_at, byte_at, styled_cells in *.
  pose proof (sum_by_app r_cells (take j (runs row)) (drop j (runs row))) as S. rewrite take_drop in S.
  assert (drop j (runs row) = []) as Ed.
  { destruct (drop j (runs row)) as [|x l] eqn:E; [done|]. exfalso. pose proof (Forall_drop _ j _ Hp) as Hd. rewrite E in Hd.
    apply list.Forall_cons in Hd as [Hx Hd]. cbn [sum_by foldr] in S. fold (sum_by r_cells l) in S. pose proof (sums_nonneg l Hd). lia. }
  rewrite Ed in S. cbn [sum_by foldr] in S. assert (j = length (runs row)) as -> by (apply (f_equal length) in Ed; rewrite length_drop in Ed; simpl in Ed; lia).
  rewrite firstn_all in *. split; [done|]. split; [|lia]. rewrite Eb. apply Hf. lia.
Qed.

(** A whole row replaces anything. *)
Lemma splice_whole cols row index r : held cols row → row_good cols r → 0 < cols ≤ U16_MAX →
  splice_into row (update_span (update_whole index r)) = Some (wire r).
Proof.
  intros Hh [Hr Ht Hc] Hcols. rewrite whole_span by done. unfold splice_into. cbn [sp_col sp_byte sp_clear sp_frame].
  assert (boundary row 0 0 = Some O) as ->.
  { unfold boundary. rewrite (proj2 (Z.ltb_ge _ _)) by lia. simpl. by destruct (runs row). }
  cbn [mbind option_bind]. unfold checked_add. pose proof (wire_len r Hr). pose proof (painted_range r). pose proof (ok_width r Hr).
  rewrite wire_cells, !(proj2 (Z.leb_le _ _)) by lia. cbn [mbind option_bind]. rewrite !Z.add_0_l, Hc.
  destruct (boundary row cols (len (text (wire r)))) as [j|] eqn:E; [|done]. destruct (held_last _ _ _ _ Hh E) as (-> & Eb & Ec).
  rewrite Eb, (str_get_some 0 0), (str_get_some (len (text row))) by (lia || done || apply boundary_end). cbn [mbind option_bind]. unfold runs_upto, runs_from.
  rewrite Nat.leb_refl. cbn [Nat.leb mbind option_bind]. rewrite slice_nil, slice_nil, drop_all by lia. rewrite !app_nil_r, take_0, Ec. cbn [app].
  rewrite <- Hc, <- (wire_cells r). by destruct (wire r).
Qed.

(** A span a server sends: a stretch of runs with its text, or one that reaches the end of its row. *)
Record span_shape (cols : Z) (sp : RowSpan) : Prop := {
  ss_runs : positive (runs (sp_frame sp));
  ss_cells : styled_cells (sp_frame sp) ≤ cells (sp_frame sp);
  ss_fits : sp_col sp + cells (sp_frame sp) ≤ cols;
  ss_full : styled_cells (sp_frame sp) = cells (sp_frame sp) → sum_by r_bytes (runs (sp_frame sp)) = len (text (sp_frame sp));
  ss_end : styled_cells (sp_frame sp) = cells (sp_frame sp) ∨ sp_clear sp = true ∨ sp_col sp + cells (sp_frame sp) = cols
}.

Lemma str_get_len a b s t : 0 ≤ a → str_get a b s = Some t → b ≤ len s → len t = b - a ∧ a ≤ b.
Proof. unfold str_get. intros Ha H Hb. destruct (_ && _) eqn:E; [|done]. injection H as <-. zbool. rewrite length_slice. lia. Qed.

(** Whatever a client patches with such a span, it holds a row. *)
Lemma splice_held cols row sp row' : held cols row → span_shape cols sp → splice_into row sp = Some row' → held cols row'.
Proof.
  intros Hh [Sr Sc Sf Su Se] H. pose proof Hh as [Hp Hc Hf]. unfold splice_into in H.
  destruct (boundary row (sp_col sp) (sp_byte sp)) as [first|] eqn:E1; [|done]. cbn [mbind option_bind] in H.
  apply boundary_inv in E1 as (Hj & Ec & Eb & Hb & _); [|done]. unfold checked_add in H.
  destruct (sp_col sp + cells (sp_frame sp) <=? U16_MAX); [|done]. cbn [mbind option_bind] in H.
  destruct (sp_byte sp + len (text (sp_frame sp)) <=? USIZE_MAX); [|done]. cbn [mbind option_bind] in H.
  assert (0 ≤ byte_at row first) as Nb by (apply sums_nonneg; by apply Forall_take).
  assert (positive (take first (runs row))) as Hpt by (by apply Forall_take).
  unfold styled_cells, runs_upto, runs_from in *.
  destruct (if sp_clear sp then None else boundary row _ _) as [j|] eqn:E2.
  - destruct (sp_clear sp) eqn:Ecl; [done|]. pose proof E2 as E3. apply boundary_inv in E2 as (Hj2 & Ec2 & Eb2 & Hb2 & _); [|done].
    destruct (str_get 0 (sp_byte sp) (text row)) as [hd|] eqn:G1; [|done]. cbn [mbind option_bind] in H.
    destruct (str_get _ (len (text row)) (text row)) as [tl|] eqn:G2; [|done]. cbn [mbind option_bind] in H.
    rewrite !(proj2 (Nat.leb_le _ _)) in H by done. cbn [mbind option_bind] in H. injection H as <-.
    apply str_get_len in G1 as [L1 _]; [|lia|done]. apply str_get_len in G2 as [L2 _]; [|lia|lia].
    pose proof (sum_by_app r_cells (take j (runs row)) (drop j (runs row))) as S1. pose proof (sum_by_app r_bytes (take j (runs row)) (drop j (runs row))) as S2.
    rewrite take_drop in S1, S2. unfold col_at, byte_at in *.
    split; cbn [runs text cells]; unfold styled_cells; cbn [runs]; rewrite ?sum_by_app, ?length_app.
    + repeat (apply Forall_app; split); [done|done|by apply Forall_drop].
    + destruct Se as [Se|[Se|Se]]; [lia|done|]. rewrite Se in E3. destruct (held_last _ _ _ _ Hh E3) as (-> & _ & ?). rewrite drop_all. simpl. lia.
    + intros Hs. destruct Se as [Se|[Se|Se]]; [specialize (Su Se); specialize (Hf ltac:(lia)); lia|done|].
      rewrite Se in E3. destruct (held_last _ _ _ _ Hh E3) as (-> & Eb3 & _). rewrite drop_all in *. simpl in *. specialize (Su ltac:(lia)). lia.
  - destruct (_ && _) eqn:E3.
    + injection H as <-. zbool. apply Nat.eqb_eq in H. subst first. change (col_at row 0) with 0 in Ec. split; unfold styled_cells; [done|lia|].
      intros Hs. apply Su. lia.
    + destruct (str_get 0 (sp_byte sp) (text row)) as [hd|] eqn:G1; [|done]. cbn [mbind option_bind] in H.
      rewrite !(proj2 (Nat.leb_le _ _)) in H by done. cbn [mbind option_bind] in H. injection H as <-.
      apply str_get_len in G1 as [L1 _]; [|lia|done]. unfold col_at, byte_at in *.
      split; cbn [runs text cells]; unfold styled_cells; cbn [runs]; rewrite ?sum_by_app, ?length_app.
      * by apply Forall_app.
      * lia.
      * intros Hs. specialize (Su ltac:(lia)). lia.
Qed.

(** Every update amounts to such a span. *)
Lemma update_shape size u : update_full size u → span_shape (Fields.cols size) (update_span u).
Proof.
  intros [[Hrow Hr Ht Hc Hab] Ew Hclear _]. destruct u as [row r [a b] clear]. cbn [u_row u_frame u_runs u_clear fst snd] in *.
  destruct (limit_range r Hr b ltac:(lia) b ltac:(lia)) as [Hl He]. destruct (slice_sums r a (b - a)) as [Sb Sc].
  replace (a + (b - a))%nat with b in * by lia. destruct (span_text r Hr row a b clear Hab) as [_ Hlen].
  split; cbn [update_span u_frame u_runs sp_frame sp_col sp_clear u_clear]; unfold styled_cells; cbn [inert frame_of chunk_of runs cells text c_text c_runs c_cells].
  - by apply Forall_take, Forall_drop, ok_runs.
  - lia.
  - lia.
  - intros Hs. cbn [update_span u_frame u_runs sp_frame inert frame_of chunk_of text c_text] in Hlen. rewrite Hlen.
    unfold limit, edge in *. destruct (Nat.eqb_spec b (length (runs r))) as [->|]; [|lia].
    pose proof (rt_tail r Ht) as Htail. destruct (at_all r Hr) as [E1 E2]. pose proof (painted_range r). unfold MAX_CLUSTER_BYTES in *. lia.
  - unfold edge. destruct (Nat.eqb_spec b (length (runs r))) as [->|]; [|left; lia]. right. right. lia.
Qed.

(** ** What a comparison of two rows found *)

Section changed.
Context (r q : RowFrame) (Hr : row_ok r) (Hq : row_ok q).

(** Runs [a] to [b] of the two rows have the same extents; and the same text and style too. *)
Definition extents (n : nat) : Prop := ∀ j, (j ≤ n)%nat → byte_at r j = byte_at q j ∧ col_at r j = col_at q j.
Definition same (a b : nat) : Prop :=
  slice a b (runs r) = slice a b (runs q) ∧
  slice (Z.to_nat (byte_at r a)) (Z.to_nat (byte_at r b)) (text r) = slice (Z.to_nat (byte_at r a)) (Z.to_nat (byte_at r b)) (text q).

Lemma same_nil a b : (b ≤ a)%nat → same a b.
Proof. intros H. pose proof (byte_at_mono r Hr b a H). split; rewrite !slice_nil by lia; done. Qed.

Lemma same_app a b c : (a ≤ b ≤ c)%nat → same a b → same b c → same a c.
Proof.
  intros H [R1 T1] [R2 T2]. pose proof (byte_at_mono r Hr a b ltac:(lia)). pose proof (byte_at_mono r Hr b c ltac:(lia)).
  split; [rewrite <- !(slice_app a b c) by lia; congruence|].
  rewrite <- !(slice_app (Z.to_nat (byte_at r a)) (Z.to_nat (byte_at r b)) (Z.to_nat (byte_at r c))) by lia. congruence.
Qed.

Lemma at_succ (s : RowFrame) j x : runs s !! j = Some x → byte_at s (S j) = byte_at s j + r_bytes x ∧ col_at s (S j) = col_at s j + r_cells x.
Proof. intros H. unfold byte_at, col_at. rewrite (take_S_r _ _ x H), !sum_by_app. simpl. lia. Qed.

(** What the loop knows at run [i]. *)
Record seen (i : nat) (d : Diff) : Prop := {
  se_extents : extents i;
  se_byte : d_byte d = byte_at r i;
  se_spans : match d_first d with
    | None => same O i
    | Some f => (f < d_last d ≤ i)%nat ∧ same O f ∧ same (d_last d) i
    end
}.

Lemma compare_seen mine theirs i d : mine = drop i (runs r) → theirs = drop i (runs q) → seen i d →
  let n := (length (runs r) `min` length (runs q))%nat in
  (i ≤ n)%nat →
  let d' := compare_runs mine theirs r q i d in
  d_aligned d' = d_aligned d ∧ seen n d' ∨
  d_aligned d' = false ∧ ∃ f, d_first d' = Some f ∧ (f ≤ n)%nat ∧ extents f ∧ same O f.
Proof.
  revert theirs i d. induction mine as [|m mine IH]; intros theirs i d Em Et [Hx Hb Hs] n Hi.
  { left. split; [done|]. assert (i = n) as <-; [|by split]. apply (f_equal length) in Em. rewrite length_drop in Em. simpl in Em. lia. }
  destruct theirs as [|t theirs].
  { left. split; [done|]. assert (i = n) as <-; [|by split]. apply (f_equal length) in Et. rewrite length_drop in Et. simpl in Et. lia. }
  assert (runs r !! i = Some m) as Lm by (rewrite <- (Nat.add_0_r i), <- lookup_drop, <- Em; done).
  assert (runs q !! i = Some t) as Lt by (rewrite <- (Nat.add_0_r i), <- lookup_drop, <- Et; done).
  pose proof (lookup_lt_Some _ _ _ Lm). pose proof (lookup_lt_Some _ _ _ Lt). cbn [compare_runs].
  destruct (at_succ r i m Lm) as [Br Cr]. destruct (at_succ q i t Lt) as [Bq Cq]. destruct (Hx i ltac:(lia)) as [Ebi Eci].
  set (differs := negb _ || _ || _). set (first := if differs then _ else _). cbv zeta. 
  destruct ((r_cells m =? r_cells t) && (r_bytes m =? r_bytes t)) eqn:Ep; cbn [negb].
  - zbool. match goal with |- context [compare_runs mine theirs r q (S i) ?d2] => pose proof (IH theirs (S i) d2) as IH' end.
    cbv zeta in IH'. apply IH'.
    + rewrite (drop_S _ _ _ Lm) in Em. by injection Em.
    + rewrite (drop_S _ _ _ Lt) in Et. by injection Et.
    + assert (extents (S i)) as Hx' by (intros j Hj; destruct (decide (j ≤ i)%nat); [by apply Hx|replace j with (S i) by lia; lia]).
      split; cbn [d_byte d_first d_last]; [done|lia|]. unfold first. destruct differs eqn:Ed.
      * destruct (d_first d) as [f|] eqn:Ef; unfold default, from_option, id; [destruct Hs as (? & ? & ?); split; [lia|]|split; [lia|]]; (split; [done|by apply same_nil]).
      * unfold differs in Ed. cbn [negb orb] in Ed. apply orb_false_elim in Ed as [Es Et']. zbool. rewrite bool_decide_eq_true in *.
        assert (same i (S i)) as Hsame.
        { split; [rewrite !(slice_cons i (S i) _ _ Lm), !(slice_cons i (S i) _ _ Lt) by lia; rewrite !slice_nil by lia; f_equal; destruct m, t; simpl in *; congruence|].
          rewrite Hb, <- Br in Et'. pose proof (byte_at_nonneg r Hr i). pose proof (byte_at_mono r Hr i (S i) ltac:(lia)).
          rewrite !str_get_some in Et'; [by injection Et'|lia| | |lia| |]; try apply (ok_cuts r Hr); [rewrite Ebi; apply (ok_cuts q Hq)|].
          replace (byte_at r (S i)) with (byte_at q (S i)) by lia. apply (ok_cuts q Hq). }
        destruct (d_first d) as [f|] eqn:Ef; [destruct Hs as (? & ? & ?); split; [lia|]; split; [done|]|]; (eapply (same_app _ i); [lia|done|done]).
    + lia.
  - right. cbn [d_aligned d_first]. split; [done|]. unfold first, differs. cbn [negb orb].
    destruct (d_first d) as [f|] eqn:Ef; unfold default, from_option, id; eexists; (split; [done|]).
    + destruct Hs as (? & ? & ?). split; [lia|]. split; [|done]. intros j Hj. apply Hx. lia.
    + split; [lia|]. by split.
Qed.

(** The rows end alike. *)
Definition tail_same : Prop :=
  let n := length (runs r) in
  length (runs q) = n ∧ extents n ∧ cells r = cells q ∧
  slice (Z.to_nat (byte_at r n)) (Z.to_nat (painted_bytes r)) (text r) = slice (Z.to_nat (byte_at r n)) (Z.to_nat (painted_bytes q)) (text q).

Lemma changed_cases :
  match changed_span r q with
  | None => same O (length (runs r)) ∧ tail_same
  | Some (a, b) => (a ≤ b ≤ length (runs r))%nat ∧ (a ≤ length (runs q))%nat ∧ extents a ∧ same O a ∧
      (b = length (runs r) ∨ (a < b)%nat ∧ same b (length (runs r)) ∧ tail_same)
  end.
Proof.
  unfold changed_span. set (n := (length (runs r) `min` length (runs q))%nat). set (d0 := {| d_first := None |}).
  assert (seen O d0) as H0.
  { split; [|done|by apply same_nil]. intros j Hj. by replace j with O by lia. }
  pose proof (compare_seen (runs r) (runs q) O d0 eq_refl eq_refl H0 ltac:(lia)) as Hc. cbv zeta in Hc. fold n in Hc.
  set (d := compare_runs _ _ r q O d0) in *. set (tail := negb _ || negb _).
  assert (d_aligned d = true → tail = false → seen n d ∧ n = length (runs r) ∧ tail_same) as Hok.
  { intros Ha Ht. destruct Hc as [[Ea Hs]|[Ea _]]; [|congruence]. rewrite Ea in Ha. cbn [d0 d_aligned] in Ha. apply Nat.eqb_eq in Ha.
    assert (n = length (runs r)) as En by lia. split; [done|]. split; [done|]. destruct Hs as [Hx Hb _]. unfold tail in Ht.
    apply orb_false_elim in Ht as [Hcell Htxt]. zbool. rewrite bool_decide_eq_true in Htxt. rewrite Hb, En in Htxt. rewrite En in Hx.
    split; [lia|]. split; [done|]. split; [done|]. destruct (Hx (length (runs r)) ltac:(lia)) as [E _].
    pose proof (byte_at_nonneg r Hr (length (runs r))). pose proof (byte_at_painted r Hr (length (runs r))). pose proof (byte_at_painted q Hq (length (runs r))).
    rewrite !str_get_some in Htxt; [by injection Htxt|lia| |by apply painted_boundary|lia|apply (ok_cuts r Hr)|by apply painted_boundary].
    rewrite E. apply (ok_cuts q Hq). }
  destruct (negb (d_aligned d) || tail) eqn:E; cbn [mbind option_bind].
  - assert (∃ f, default n (d_first d) = f ∧ (f ≤ n)%nat ∧ extents f ∧ same O f) as (f & -> & Hf & Hx & Hs).
    { destruct Hc as [[_ [Hx _ Hs]]|[_ (f & -> & ? & ? & ?)]]; [|by exists f]. destruct (d_first d) as [f|]; [|by exists n].
      destruct Hs as (? & ? & ?). exists f. split_and!; [done|lia| |done]. intros j Hj. apply Hx. lia. }
    split; [lia|]. split; [lia|]. split; [done|]. split; [done|]. left. lia.
  - apply orb_false_elim in E as [Ea Et]. apply negb_false_iff in Ea. destruct (Hok Ea Et) as ([Hx _ Hs] & En & Htail). rewrite En in *.
    destruct (d_first d) as [f|]; cbn [mbind option_bind]; [|done]. destruct Hs as (? & ? & ?).
    rewrite Nat.max_l by lia. pose proof Htail as (? & _). split; [lia|]. split; [lia|]. split; [intros j Hj; apply Hx; lia|]. split; [done|].
    right. split; [lia|done].
Qed.

Lemma same_wire a b : (a ≤ b)%nat → extents b → same a b → 
  slice (Z.to_nat (byte_at r a)) (Z.to_nat (byte_at r b)) (text (wire r)) = slice (Z.to_nat (byte_at r a)) (Z.to_nat (byte_at r b)) (text (wire q)).
Proof.
  intros Hab Hx [_ Ht]. destruct (Hx a Hab) as [Ea _], (Hx b ltac:(lia)) as [Eb _]. pose proof (byte_at_mono r Hr a b Hab). pose proof (byte_at_nonneg r Hr a).
  pose proof (byte_at_painted r Hr b). pose proof (byte_at_painted q Hq b).
  rewrite !wire_slice; [by rewrite Ht|done|lia|lia| | |done|lia|lia| |]; try apply (ok_cuts r Hr); rewrite ?Ea, ?Eb; apply (ok_cuts q Hq).
Qed.

(** Two rows that agree from run [b] on agree there on the wire. *)
Lemma tail_wire b : (b ≤ length (runs r))%nat → same b (length (runs r)) → tail_same →
  drop (Z.to_nat (byte_at r b)) (text (wire r)) = drop (Z.to_nat (byte_at r b)) (text (wire q)).
Proof.
  intros Hb Hs (El & Hx & Ec & Ht). set (n := length (runs r)) in *. pose proof (byte_at_mono r Hr b n Hb). pose proof (byte_at_nonneg r Hr b).
  pose proof (byte_at_painted r Hr n). pose proof (byte_at_painted q Hq n). destruct (Hx n ltac:(lia)) as [E _].
  assert (∀ s, row_ok s → byte_at r n ≤ painted_bytes s → drop (Z.to_nat (byte_at r b)) (text (wire s)) =
    slice (Z.to_nat (byte_at r b)) (Z.to_nat (byte_at r n)) (text (wire s)) ++
    slice (Z.to_nat (byte_at r n)) (Z.to_nat (painted_bytes s)) (text (wire s))) as Hd.
  { intros s Hs' Hle. rewrite slice_app by lia. symmetry. apply slice_to_end. pose proof (wire_len s Hs'). lia. }
  rewrite (Hd r Hr), (Hd q Hq) by lia. f_equal; [by apply same_wire|].
  rewrite !wire_slice, Ht; [done|done|lia|lia|rewrite E; apply (ok_cuts q Hq)|by apply painted_boundary|done|lia|lia|apply (ok_cuts r Hr)|by apply painted_boundary].
Qed.

Lemma unchanged_wire : changed_span r q = None → wire r = wire q.
Proof.
  intros H. pose proof changed_cases as Hc. rewrite H in Hc. destruct Hc as [Hs Ht]. pose proof (tail_wire O ltac:(lia) Hs Ht) as E.
  destruct Ht as (El & _ & Ec & _), Hs as [Er _]. unfold slice in Er. rewrite !drop_0, Nat.sub_0_r, !take_ge in Er by lia.
  change (byte_at r 0) with 0 in E. rewrite !drop_0 in E. unfold wire, inert, frame_of, whole in *. cbn in *. congruence.
Qed.

End changed.

(** A span built against the row a client holds gives the row it was built of. *)
Lemma splice_partial cols row r q a b : row_good cols r → row_good cols q → changed_span r q = Some (a, b) →
  splice_into (wire q) (update_span {| u_row := row; u_frame := r; u_runs := (a, b); u_clear := (b =? length (runs r))%nat |}) = Some (wire r).
Proof.
  intros [Hr Htr Hcr] [Hq _ Hcq] H. pose proof (changed_cases r q Hr Hq) as Hc. rewrite H in Hc. destruct Hc as (Hab & Haq & Hx & Hs & Hend).
  destruct (Hx a ltac:(lia)) as [Ba Ca]. destruct (limit_range r Hr b ltac:(lia) a ltac:(lia)) as [Hl He]. destruct (ok_cells r Hr) as [_ Lc].
  pose proof (ok_width r Hr) as Lw. pose proof (col_at_nonneg r Hr a). pose proof (byte_at_nonneg r Hr a). pose proof (byte_at_painted q Hq a).
  set (u := {| u_row := row |}). destruct (span_text r Hr row a b (b =? length (runs r))%nat Hab) as [Et El]. fold u in Et, El. unfold splice_into.
  change (sp_col (update_span u)) with (col_at r a). change (sp_byte (update_span u)) with (byte_at r a).
  change (sp_clear (update_span u)) with (b =? length (runs r))%nat. change (cells (sp_frame (update_span u))) with (edge r b - col_at r a).
  change (runs (sp_frame (update_span u))) with (slice a b (runs r)). set (f := sp_frame (update_span u)) in *.
  rewrite Ca, Ba, (wire_at q Hq a Haq), <- Ca, <- Ba. cbn [mbind option_bind]. unfold checked_add. rewrite El.
  replace (col_at r a + (edge r b - col_at r a)) with (edge r b) by lia. replace (byte_at r a + (limit r b - byte_at r a)) with (limit r b) by lia.
  rewrite !(proj2 (Z.leb_le _ _)) by lia. cbn [mbind option_bind].
  assert (str_get 0 (byte_at r a) (text (wire q)) = Some (take (Z.to_nat (byte_at r a)) (text (wire r)))) as Hhead.
  { rewrite str_get_some; [|lia|done|rewrite Ba; apply wire_boundary; [done|lia|apply (ok_cuts q Hq)]]. f_equal. rewrite <- !slice_0. symmetry.
    by apply (same_wire r q Hr Hq O a); [lia|..]. }
  assert (runs_upto a (runs q) = Some (take a (runs r))) as Hruns.
  { unfold runs_upto. rewrite (proj2 (Nat.leb_le _ _)) by done. f_equal. destruct Hs as [Er _]. by rewrite !slice_0 in Er. }
  assert (edge r (length (runs r)) = cols ∧ limit r (length (runs r)) = painted_bytes r) as [Ee Eli] by (unfold edge, limit; by rewrite Nat.eqb_refl).
  assert (∀ w, text w = text (wire r) → runs w = runs r → cells w = cells r → Some w = Some (wire r)) as Hw
    by (intros w W1 W2 W3; f_equal; destruct w; cbn in *; rewrite W1, W2, W3; done).
  pose proof (wire_len r Hr) as Lr. change (runs (wire q)) with (runs q). destruct (Nat.eqb_spec b (length (runs r))) as [->|Hb].
  - destruct (_ && _) eqn:E0.
    + apply andb_prop in E0 as [E0 _]. apply Nat.eqb_eq in E0. subst a. apply Hw.
      * rewrite Et, Eli. change (byte_at r 0) with 0. rewrite slice_to_end by lia. apply drop_0.
      * unfold f, u. cbn [update_span u_frame u_runs sp_frame inert frame_of chunk_of runs c_runs]. apply slice_all.
      * unfold f, u. cbn [update_span u_frame u_runs sp_frame inert frame_of chunk_of cells c_cells]. change (col_at r 0) with 0. lia.
    + rewrite Hhead. cbn [mbind option_bind]. rewrite Hruns. cbn [mbind option_bind]. apply Hw; cbn [text runs cells].
      * rewrite Et, Eli, slice_to_end by lia. apply take_drop.
      * rewrite slice_to_end by lia. apply take_drop.
      * lia.
  - destruct Hend as [?|(_ & Hsb & Htail)]; [done|]. pose proof Htail as (Eq & Hxn & Ecell & _). destruct (Hxn b ltac:(lia)) as [Bb Cb].
    assert (edge r b = col_at r b ∧ limit r b = byte_at r b) as [-> Elb] by (unfold edge, limit; by rewrite (proj2 (Nat.eqb_neq _ _))).
    rewrite Elb in *. rewrite Cb, Bb, (wire_at q Hq b ltac:(lia)), <- Bb. cbn [mbind option_bind]. rewrite Hhead. cbn [mbind option_bind].
    pose proof (byte_at_painted q Hq b). pose proof (wire_len q Hq).
    rewrite str_get_some; [|lia|rewrite Bb; apply wire_boundary; [done|lia|apply (ok_cuts q Hq)]|apply boundary_end]. cbn [mbind option_bind].
    rewrite slice_to_end by lia. rewrite <- (tail_wire r q Hr Hq b ltac:(lia) Hsb Htail), Hruns. cbn [mbind option_bind].
    unfold runs_from. rewrite (proj2 (Nat.leb_le _ _)) by lia. cbn [mbind option_bind]. apply Hw; cbn [text runs cells].
    + rewrite Et. rewrite app_assoc, <- take_slice by lia. apply take_drop.
    + destruct Hsb as [Er _]. rewrite !slice_to_end in Er by lia. rewrite <- Er, app_assoc, <- take_slice by lia. apply take_drop.
    + done.
Qed.

(** ** Scrolling *)

Lemma scroll_length b rows : length (scroll_rows b rows) = length rows.
Proof.
  unfold scroll_rows. destruct (_ && _) eqn:E; [|done]. apply andb_prop in E as [E E3]. apply Nat.leb_le in E3. zbool.
  rewrite length_slice in *. rewrite !length_app, !length_take, length_replicate, length_app, length_take, !length_drop, length_slice. lia.
Qed.

Lemma scroll_lookup b rows i : is_applicable b (len rows) = true → 0 ≤ top b → 0 ≤ i < len rows →
  scroll_rows b rows !!! Z.to_nat i =
    if (top b <=? i) && (i <? bottom b - lines b) then rows !!! Z.to_nat (i + lines b)
    else if (top b <=? i) && (i <? bottom b) then default_row else rows !!! Z.to_nat i.
Proof.
  intros Ha Ht Hi. unfold is_applicable in Ha. zbool. unfold scroll_rows. set (band := slice _ _ rows).
  assert (length band = Z.to_nat (bottom b) - Z.to_nat (top b))%nat as Lb by (unfold band; rewrite length_slice; lia).
  rewrite !(proj2 (Z.leb_le _ _)), (proj2 (Nat.leb_le _ _)) by lia. cbn [andb].
  assert (length (take (length band - Z.to_nat (lines b)) (drop (Z.to_nat (lines b)) band ++ take (Z.to_nat (lines b)) band)) =
    length band - Z.to_nat (lines b))%nat as Lt by (rewrite length_take, length_app, length_take, length_drop; lia).
  destruct (Z.leb_spec (top b) i) as [G1|G1]; cbn [andb].
  2:{ rewrite lookup_total_app_l by (rewrite length_take; lia). apply lookup_total_take_lt. lia. }
  rewrite lookup_total_app_r, length_take by (rewrite length_take; lia). replace (Z.to_nat i - Z.to_nat (top b) `min` length rows)%nat with (Z.to_nat (i - top b)) by lia.
  destruct (Z.ltb_spec i (bottom b - lines b)) as [G2|G2]; [|destruct (Z.ltb_spec i (bottom b)) as [G3|G3]].
  - rewrite lookup_total_app_l by (rewrite length_app, Lt; lia). rewrite lookup_total_app_l by lia. rewrite lookup_total_take_lt by lia.
    rewrite lookup_total_app_l by (rewrite length_drop; lia). unfold band, slice. rewrite lookup_total_drop, lookup_total_take_lt, lookup_total_drop by lia. f_equal. lia.
  - rewrite lookup_total_app_l by (rewrite length_app, Lt, length_replicate; lia). rewrite lookup_total_app_r by lia.
    by rewrite lookup_total_replicate_2 by lia.
  - rewrite lookup_total_app_r by (rewrite length_app, Lt, length_replicate; lia). rewrite length_app, Lt, length_replicate, lookup_total_drop. f_equal. lia.
Qed.

End Splice.
