(* ===== verification/Ledger.v ===== *)
(** * What a client has confirmed ([crates/server/src/screen.rs])

    The ledger decides what a repaint sends: the rows that differ from the screen the client last
    confirmed, a band of rows that moved, or the whole screen.  [plan] is the one operation that
    decides and records; [confirm] takes an acknowledgement of the screen in flight.

    Buffers that are only reused ([named], the plan's own vector) are not state here.  A read past
    the end of a vector would panic in the code; every read below is of a row the ledger has just
    compared with the height of the frame, and the hashes are those of the rows ([hashes_fresh]).

    The lemmas show that a delta is right for every client that may receive it: whatever the
    client holds in the rows some unconfirmed screen touched, applying the band and then the named
    rows gives it the frame ([delta_rebuilds]). *)

From S2P Require Import Prelude Codec Fields Message Text Screen Modes Rows Pieces Mask Splice.

Module Ledger.
Import Codec Text Screen Rows Pieces Splice.
Import(hints) Mask.

(** ** Plans *)

Inductive RowPlan := Whole | Span (runs : nat * nat) (clear_tail : bool).
Record PlannedRow := mkPlanned { p_row : Z; p_sending : RowPlan }.
Definition planned_update (p : PlannedRow) (frame : RowFrame) : RowUpdate :=
  match p_sending p with
  | Whole => update_whole (p_row p) frame
  | Span runs clear => {| u_row := p_row p; u_frame := frame; u_runs := runs; u_clear := clear |}
  end.

Record Plan := mkPlan { full : bool; base : Z; scroll : option ScrollBand; plan_rows : list PlannedRow }.
#[export] Instance Plan_settable : Settable Plan := λ p, mkPlan (full p) (base p) (scroll p) (plan_rows p).
(** [ScreenVersion::initial]. *)
Definition INITIAL : Z := 1.
Definition plan_default : Plan := {| full := true; base := INITIAL; scroll := None; plan_rows := [] |}.

Record ScreenLedger := mkLedger {
  confirmed : option (Z * Z);
  confirmed_rows : list RowFrame;
  pending : option (Z * Z);
  pending_rows : list RowFrame;
  damage : Mask.RowMask;
  in_flight_damage : Mask.RowMask;
  sent_unconfirmed : Mask.RowMask;
  confirmed_hashes : list Z;
  frame_hashes : list Z;
  the_plan : Plan
}.

#[export] Instance ScreenLedger_settable : Settable ScreenLedger := λ l,
  mkLedger (confirmed l) (confirmed_rows l) (pending l) (pending_rows l) (damage l) (in_flight_damage l) (sent_unconfirmed l)
    (confirmed_hashes l) (frame_hashes l) (the_plan l).

Definition new : ScreenLedger :=
  {| confirmed := None; confirmed_rows := []; pending := None; pending_rows := []; damage := Mask.empty_;
     in_flight_damage := Mask.empty_; sent_unconfirmed := Mask.empty_; confirmed_hashes := []; frame_hashes := [];
     the_plan := plan_default |}.

Definition note_damage (l : ScreenLedger) (dirty : Mask.RowMask) : ScreenLedger :=
  l <| damage := Mask.union_ (damage l) dirty |>.

Definition invalidate (l : ScreenLedger) (rows : Z) : ScreenLedger :=
  l <| confirmed := None |> <| confirmed_rows := [] |> <| confirmed_hashes := [] |> <| pending := None |>
    <| damage := Mask.filled rows |> <| in_flight_damage := Mask.reset (in_flight_damage l) rows |>
    <| sent_unconfirmed := Mask.reset (sent_unconfirmed l) rows |>.

Definition release_in_flight (l : ScreenLedger) : ScreenLedger :=
  match pending l with
  | None => l
  | Some _ =>
      l <| pending := None |> <| damage := Mask.union_ (damage l) (in_flight_damage l) |>
        <| in_flight_damage := Mask.clear_all (in_flight_damage l) |>
  end.

Definition in_flight (l : ScreenLedger) : bool := bool_decide (is_Some (pending l)).

Definition confirm (l : ScreenLedger) (generation version : Z) : bool * ScreenLedger :=
  if bool_decide (pending l = Some (generation, version)) then
    (true,
     l <| pending := None |> <| in_flight_damage := Mask.clear_all (in_flight_damage l) |>
       <| sent_unconfirmed := Mask.clear_all (sent_unconfirmed l) |>
       <| confirmed_rows := pending_rows l |> <| pending_rows := confirmed_rows l |>
       <| confirmed_hashes := [] |> <| confirmed := Some (generation, version) |>)
  else (false, l).

Definition carry_every (l : ScreenLedger) (rows : Z) : ScreenLedger :=
  l <| sent_unconfirmed := Mask.set_range (sent_unconfirmed l) 0 rows |>.

(** Rows the buffer already has slots for are copied field by field, the rest cloned. *)
Definition snapshot (into rows : list RowFrame) : list RowFrame :=
  let held := length (take (length rows) into) in
  ((λ '(slot, row), {| text := text row; runs := runs row; cells := cells row |}) <$> zip (take (length rows) into) rows) ++ drop held rows.

(** ** Hashes *)

Definition word (v : Z) : Z := v mod 2 ^ 64.
Definition rotate_left (v n : Z) : Z := Z.lor (word (Z.shiftl v n)) (Z.shiftr v (64 - n)).
Definition mix (hash w : Z) : Z := word (Z.lxor (rotate_left hash 5) w * 0x517cc1b727220a95).

(** [u64::from_ne_bytes], on a little-endian machine. *)
Definition from_le (bytes : list Z) : Z := foldr (λ b v, b + 256 * v) 0 bytes.
Fixpoint hash_text (fuel : nat) (hash : Z) (bytes : list Z) : Z :=
  match fuel with
  | O => hash
  | S fuel =>
      if (8 <=? length bytes)%nat then hash_text fuel (mix hash (from_le (take 8 bytes))) (drop 8 bytes)
      else foldl (λ hash byte, mix hash (Z.lor byte 0x100)) hash bytes
  end.

Definition colour_key (c : StyleColor) : Z :=
  match c with
  | Default => 0
  | Palette index => Z.lor (Z.shiftl 1 24) index
  | Rgb r g b => Z.lor (Z.lor (Z.lor (Z.shiftl 2 24) (Z.shiftl r 16)) (Z.shiftl g 8)) b
  end.
Definition style_key (s : CellStyle) : Z :=
  Z.lxor (Z.lxor (Z.lxor (Z.lxor (rotate_left (colour_key (fg s)) 21) (rotate_left (colour_key (bg s)) 42))
    (colour_key (underline_color s))) (Z.shiftl (attrs s) 56)) (Z.shiftl (underline_to_wire (underline s)) 48).
Definition row_hash (r : RowFrame) : Z :=
  let hash := hash_text (S (length (text r))) (cells r) (text r) in
  foldl (λ hash run, mix (mix hash (Z.lor (r_cells run) (Z.shiftl (r_bytes run) 16))) (style_key (r_style run))) hash (runs r).
Definition hash_rows (rows : list RowFrame) : list Z := row_hash <$> rows.

(** ** The band that moved *)

(** [partition_point]: how many of an ascending list come before. *)
Fixpoint partition_point {A} (f : A → bool) (l : list A) : nat :=
  match l with [] => O | x :: l => if f x then S (partition_point f l) else O end.
Definition within (named : list PlannedRow) (top_ bottom_ : Z) : nat :=
  let from := partition_point (λ one, p_row one <? top_) named in
  partition_point (λ one, p_row one <? bottom_) (drop from named).

Definition cost (b : ScrollBand) (named : list PlannedRow) (carried : Mask.RowMask) : Z :=
  let revealed := bottom b - lines b in
  let inherited := len (filter (λ row, Mask.get carried (row + lines b) = true) (seqZ (top b) (revealed - top b))) in
  let inside := within named (top b) (bottom b) in
  lines b + inherited + Z.of_nat (length named - inside).

Section band.
Context (old new_ : list RowFrame) (old_hashes new_hashes : list Z) (count : Z) (named : list PlannedRow) (carried : Mask.RowMask).

Definition matches (lines_ row : Z) : bool :=
  new_hashes !!! Z.to_nat row =? old_hashes !!! Z.to_nat (row + lines_).

(** [while row < last && ..]: one past the last row of a run of matches. *)
Fixpoint run_end (fuel : nat) (lines_ last row : Z) : Z :=
  match fuel with
  | O => row
  | S fuel => if (row <? last) && matches lines_ row then run_end fuel lines_ last (row + 1) else row
  end.

Definition consider (best : option (Z * ScrollBand)) (lines_ top_ row : Z) : option (Z * ScrollBand) :=
  let found := {| top := top_; bottom := Z.min (row + lines_) count; lines := lines_ |} in
  let found_cost := cost found named carried in
  if match best with None => true | Some (lowest, _) => found_cost <? lowest end &&
     forallb (λ at_, bool_decide (new_ !!! Z.to_nat at_ = old !!! Z.to_nat (at_ + lines_))) (seqZ top_ (row - top_))
  then Some (found_cost, found) else best.

(** One shift, from row [row] on. *)
Fixpoint scan (fuel : nat) (lines_ last row : Z) (best : option (Z * ScrollBand)) : option (Z * ScrollBand) :=
  match fuel with
  | O => best
  | S fuel =>
      if row <? last then
        if negb (matches lines_ row) then scan fuel lines_ last (row + 1) best
        else
          let row' := run_end (Z.to_nat (last - row)) lines_ last row in
          scan fuel lines_ last row' (consider best lines_ row row')
      else best
  end.

Fixpoint shifts (l : list Z) (best : option (Z * ScrollBand)) : option (Z * ScrollBand) :=
  match l with
  | [] => best
  | lines_ :: l =>
      if match best with Some (lowest, _) => lowest <=? lines_ | None => false end then best
      else
        let last := count - lines_ in
        shifts l (scan (Z.to_nat last) lines_ last 0 best)
  end.

Definition band : option ScrollBand :=
  let limit := Z.min (Z.min (len named) U16_MAX) count in
  '(lowest, found) ← shifts (seqZ 1 (limit - 1)) None;
  if lowest <? len named then Some found else None.

End band.

(** ** Deciding *)

Definition partial_ (frame : RowFrame) (range : nat * nat) : RowPlan :=
  Span range (range.2 =? length (runs frame))%nat.

(** The rows a delta without a band names. *)
Definition planned (l : ScreenLedger) (rows : list RowFrame) (row : Z) : option PlannedRow :=
  let frame_row := rows !!! Z.to_nat row in
  if Mask.get (sent_unconfirmed l) row then Some {| p_row := row; p_sending := Whole |}
  else
    range ← changed_span frame_row (confirmed_rows l !!! Z.to_nat row);
    Some {| p_row := row; p_sending := partial_ frame_row range |}.
Fixpoint take_while {A} (f : A → bool) (l : list A) : list A :=
  match l with [] => [] | x :: l => if f x then x :: take_while f l else [] end.

Definition whole_rows (from n : Z) : list PlannedRow := (λ row, {| p_row := row; p_sending := Whole |}) <$> seqZ from n.

(** Rewrite the plan around the band that moved. *)
Definition scroll_to (l : ScreenLedger) (b : ScrollBand) : ScreenLedger :=
  let revealed := bottom b - lines b in
  let carried := sent_unconfirmed l in
  let rows := plan_rows (the_plan l) in
  let named :=
    filter (λ one, p_row one < top b) rows ++
    ((λ row, {| p_row := row; p_sending := Whole |}) <$> filter (λ row, Mask.get carried (row + lines b) = true) (seqZ (top b) (revealed - top b))) ++
    whole_rows revealed (bottom b - revealed) ++
    filter (λ one, bottom b ≤ p_row one) rows in
  l <| the_plan := (the_plan l) <| scroll := Some b |> <| plan_rows := named |> |>
    <| sent_unconfirmed := Mask.set_range carried (top b) (bottom b - top b) |>.

(** The search for a band, when the rows named so far could pay for one. *)
Definition seek_band (l : ScreenLedger) (rows : list RowFrame) (count : Z) : ScreenLedger :=
  if 1 <? len (plan_rows (the_plan l)) then
    let l := match confirmed_hashes l with [] => l <| confirmed_hashes := hash_rows (confirmed_rows l) |> | _ => l end in
    let l := l <| frame_hashes := hash_rows rows |> in
    match band (confirmed_rows l) rows (confirmed_hashes l) (frame_hashes l) count (plan_rows (the_plan l)) (sent_unconfirmed l) with
    | Some found => scroll_to l found
    | None => l
    end
  else l.

Definition plan_delta (l : ScreenLedger) (rows : list RowFrame) (h : ScreenHeader) : bool * ScreenLedger :=
  match confirmed l with
  | None => (false, l)
  | Some (generation, base_) =>
      if negb (generation =? h_generation h) || negb (length (confirmed_rows l) =? length rows)%nat then (false, l)
      else if U16_MAX <? len rows then (false, l)
      else
        let count := len rows in
        let l := l <| the_plan := (the_plan l) <| base := base_ |> |> in
        if Mask.is_empty (damage l) && Mask.is_empty (sent_unconfirmed l) then (true, l)
        else
          let named := omap (planned l rows) (take_while (λ row, row <? count) (Mask.iter_either (damage l) (sent_unconfirmed l))) in
          let l := l <| the_plan := (the_plan l) <| plan_rows := plan_rows (the_plan l) ++ named |> |> in
          let l := seek_band l rows count in
          (len (plan_rows (the_plan l)) <? len rows, l)
  end.

Definition plan (l : ScreenLedger) (rows : list RowFrame) (h : ScreenHeader) : ScreenLedger :=
  let l := release_in_flight l in
  let l := l <| the_plan := (the_plan l) <| plan_rows := [] |> <| scroll := None |> <| base := INITIAL |> |> in
  let '(delta, l) := plan_delta l rows h in
  let l := l <| the_plan := (the_plan l) <| full := negb delta |> |> in
  let l :=
    if full (the_plan l) then
      let l := l <| the_plan := (the_plan l) <| plan_rows := [] |> <| scroll := None |> |> in
      if len rows <=? U16_MAX then carry_every l (len rows) else l
    else l <| sent_unconfirmed := foldl (λ m named, Mask.set_ m (p_row named)) (sent_unconfirmed l) (plan_rows (the_plan l)) |> in
  l <| pending := Some (h_generation h, h_version h) |>
    <| damage := Mask.clear_all (in_flight_damage l) |> <| in_flight_damage := damage l |>
    <| pending_rows := snapshot (pending_rows l) rows |>.

(** ** The search for a band *)

Lemma snapshot_rows into rows : snapshot into rows = rows.
Proof.
  unfold snapshot. revert into. induction rows as [|r rows IH]; intros [|x into]; cbn [length take zip zip_with fmap list_fmap app drop]; [done..|].
  f_equal; [by destruct r|apply IH].
Qed.

(** A band that can be applied, and whose rows did move. *)
Definition moved (old new_ : list RowFrame) (count : Z) (b : ScrollBand) : Prop :=
  is_applicable b count = true ∧ 0 ≤ top b ∧
  ∀ i, top b ≤ i < bottom b - lines b → new_ !!! Z.to_nat i = old !!! Z.to_nat (i + lines b).

Section band_sound.
Context (old new_ : list RowFrame) (old_hashes new_hashes : list Z) (count : Z) (named : list PlannedRow) (carried : Mask.RowMask).

Definition best_ok (best : option (Z * ScrollBand)) : Prop := ∀ c b, best = Some (c, b) → moved old new_ count b.

Lemma run_end_range fuel n last row : row ≤ last →
  row ≤ run_end old_hashes new_hashes fuel n last row ≤ last.
Proof.
  revert row. induction fuel as [|fuel IH]; intros row H; cbn [run_end]; [lia|]. destruct (_ && _) eqn:E; [|lia]. zbool. specialize (IH (row + 1)). lia.
Qed.

Lemma consider_ok best n t row : best_ok best → 0 ≤ t < row → 0 < n → row ≤ count - n →
  best_ok (consider old new_ count named carried best n t row).
Proof.
  intros Hb Ht Hn Hr. unfold consider. destruct (_ && _) eqn:E; [|done]. intros c b [= <- <-]. apply andb_prop in E as [_ E].
  rewrite Z.min_l by lia. split; [|split; [simpl; lia|]]; cbn [top bottom lines].
  - unfold is_applicable. cbn [top bottom lines]. rewrite !andb_true_iff, !Z.ltb_lt, !Z.leb_le. lia.
  - intros i Hi. rewrite forallb_forall in E. specialize (E i ltac:(apply list_elem_of_In, elem_of_seqZ; lia)). by rewrite bool_decide_eq_true in E.
Qed.

Lemma scan_ok fuel n last row best : best_ok best → 0 ≤ row → 0 < n → last = count - n →
  best_ok (scan old new_ old_hashes new_hashes count named carried fuel n last row best).
Proof.
  intros Hb Hr Hn El. revert row best Hr Hb. induction fuel as [|fuel IH]; intros row best Hr Hb; cbn [scan]; [done|].
  destruct (Z.ltb_spec row last) as [Hlt|]; [|done]. destruct (matches _ _ n row) eqn:Em; cbn [negb]; [|apply IH; [lia|done]]. cbv zeta.
  replace (Z.to_nat (last - row)) with (S (Z.to_nat (last - row - 1))) by lia. cbn [run_end]. rewrite Em, (proj2 (Z.ltb_lt _ _)) by done. cbn [andb].
  pose proof (run_end_range (Z.to_nat (last - row - 1)) n last (row + 1) ltac:(lia)). apply IH; [lia|]. apply consider_ok; (done || lia).
Qed.

Lemma band_sound b : band old new_ old_hashes new_hashes count named carried = Some b → moved old new_ count b.
Proof.
  unfold band. assert (∀ l best, Forall (λ n, 0 < n) l → best_ok best → best_ok (shifts old new_ old_hashes new_hashes count named carried l best)) as H.
  { induction l as [|n l IH]; intros best Hl Hb; cbn [shifts]; [done|]. apply list.Forall_cons in Hl as [Hn Hl].
    destruct (match best with Some _ => _ | None => _ end); [done|]. apply IH; [done|]. by apply scan_ok. }
  specialize (H (seqZ 1 (Z.min (Z.min (len named) U16_MAX) count - 1)) None ltac:(apply Forall_forall; intros x Hx; apply elem_of_seqZ in Hx; lia) ltac:(by intros ? ? [=])).
  destruct (shifts _ _ _ _ _ _ _ _ None) as [[c found]|]; cbn [mbind option_bind]; [|done]. destruct (_ <? _); [|done]. intros [= <-]. by eapply H.
Qed.

End band_sound.

(** ** The rows a delta looks at *)

Lemma seqZ_sorted a n : StronglySorted Z.lt (seqZ a n).
Proof.
  destruct (Z.lt_ge_cases n 0) as [|Hn]; [rewrite seqZ_nil by lia; constructor|]. revert a. pattern n. apply natlike_ind; [constructor| |done].
  intros m Hm IH a. rewrite seqZ_cons by lia. rewrite Z.pred_succ. constructor; [apply IH|]. apply Forall_forall. intros x Hx. apply elem_of_seqZ in Hx. lia.
Qed.
Lemma sorted_filter {A} (R : A → A → Prop) (P : A → Prop) `{∀ x, Decision (P x)} l : StronglySorted R l → StronglySorted R (filter P l).
Proof.
  induction 1 as [|x l Hl IH Hx]; [constructor|]. rewrite filter_cons. case_decide; [|done]. constructor; [done|].
  rewrite Forall_forall in *. intros y Hy. apply list_elem_of_filter in Hy as [_ Hy]. by apply Hx.
Qed.
Lemma take_while_sorted c l : StronglySorted Z.lt l → take_while (λ r, r <? c) l = filter (λ r, r < c) l.
Proof.
  induction 1 as [|x l Hl IH Hx]; [done|]. cbn [take_while]. rewrite filter_cons. destruct (Z.ltb_spec x c); [rewrite decide_True by done; by f_equal|].
  rewrite decide_False by lia. clear IH Hl. induction Hx as [|y l Hy Hx IH]; [done|]. rewrite filter_cons, decide_False by lia. done.
Qed.

Lemma looked_spec m other c : Mask.mask_ok m → Mask.mask_ok other →
  let l := take_while (λ row, row <? c) (Mask.iter_either m other) in
  StronglySorted Z.lt l ∧ ∀ i, i ∈ l ↔ 0 ≤ i < c ∧ (Mask.get m i = true ∨ Mask.get other i = true).
Proof.
  intros Hm Ho l. unfold l. rewrite Mask.iter_either_spec by done. set (N := 64 * _).
  assert (StronglySorted Z.lt (filter (λ r, Mask.get m r || Mask.get other r = true) (seqZ 0 N))) as Hs by apply sorted_filter, seqZ_sorted.
  rewrite take_while_sorted by done. split; [by apply sorted_filter|]. intros i. rewrite !list_elem_of_filter, elem_of_seqZ, orb_true_iff.
  split; [intros; destruct_and!; split; [lia|done]|]. intros [Hi Hg]. split; [lia|]. split; [done|]. split; [lia|].
  assert (∀ k, Mask.mask_ok k → Mask.get k i = true → (Z.to_nat (i / 64) < length (Mask.words k))%nat) as Hw.
  { intros k _ Hk. rewrite Mask.get_word in Hk. unfold Mask.bit_of, Mask.BITS in Hk.
    destruct (Mask.words k !! Z.to_nat (i / 64)) eqn:E; [by eapply lookup_lt_Some|]. simpl in Hk. by rewrite Z.bits_0 in Hk. }
  assert (Z.to_nat (i / 64) < length (Mask.words m) `max` length (Mask.words other))%nat as Hlt.
  { destruct Hg as [Hg|Hg]; [specialize (Hw m Hm Hg)|specialize (Hw other Ho Hg)]; lia. }
  pose proof (Z.div_mod i 64 ltac:(done)). pose proof (Z.mod_pos_bound i 64 ltac:(done)). pose proof (Z.div_pos i 64 ltac:(lia) ltac:(done)). unfold N. lia.
Qed.

(** Rows named in ascending order. *)
Definition ascends (l : list PlannedRow) : Prop := StronglySorted (λ p q, p_row p < p_row q) l.
(** What naming row [i] of [F] as [p] stands for, against [old]: carried rows are whole, others differ. *)
Definition names (old F : list RowFrame) (carried : Mask.RowMask) (p : PlannedRow) : Prop :=
  p_sending p = Whole ∨
  Mask.get carried (p_row p) = false ∧ ∃ range, changed_span (F !!! Z.to_nat (p_row p)) (old !!! Z.to_nat (p_row p)) = Some range ∧
    p_sending p = partial_ (F !!! Z.to_nat (p_row p)) range.

Lemma planned_row l F i p : planned l F i = Some p → p_row p = i ∧ names (confirmed_rows l) F (sent_unconfirmed l) p.
Proof.
  unfold planned. destruct (Mask.get (sent_unconfirmed l) i) eqn:E; [intros [= <-]; split; [done|by left]|].
  destruct (changed_span _ _) as [range|] eqn:Ec; [|done]. cbn [mbind option_bind]. intros [= <-]. split; [done|]. right. split; [done|]. by exists range.
Qed.

Lemma omap_ascends l F rows : StronglySorted Z.lt rows → ascends (omap (planned l F) rows).
Proof.
  induction 1 as [|i rows Hs IH Hi]; [constructor|]. cbn [omap list_omap]. destruct (planned l F i) as [p|] eqn:E; [|done].
  constructor; [done|]. apply Forall_forall. intros q Hq. apply list_elem_of_omap in Hq as (j & Hj & Eq). rewrite Forall_forall in Hi.
  apply planned_row in E as [-> _]. apply planned_row in Eq as [-> _]. by apply Hi.
Qed.

(** ** What a delta says *)

Section delta.
Context (old F : list RowFrame) (carried : Mask.RowMask).

(** A row that need not be named: no unconfirmed screen touched it and it did not change. *)
Definition quiet (i : Z) : Prop :=
  Mask.get carried i = false ∧
  (F !!! Z.to_nat i = old !!! Z.to_nat i ∨ changed_span (F !!! Z.to_nat i) (old !!! Z.to_nat i) = None).

(** The rows named, and what is true of the others. *)
Record delta_spec (s : option ScrollBand) (rows : list PlannedRow) : Prop := {
  ds_sorted : ascends rows;
  ds_range : Forall (λ p, 0 ≤ p_row p < len F) rows;
  ds_names : Forall (λ p, names old F carried p ∧ (in_band s (p_row p) = true → p_sending p = Whole)) rows;
  ds_moved : ∀ b, s = Some b → moved old F (len F) b;
  ds_rest : ∀ i, 0 ≤ i < len F → Forall (λ p, p_row p ≠ i) rows →
    match s with
    | Some b => if in_band s i then i < bottom b - lines b ∧ Mask.get carried (i + lines b) = false else quiet i
    | None => quiet i
    end
}.

(** The rows named without a band. *)
Lemma named_spec l dmg : confirmed_rows l = old → sent_unconfirmed l = carried → Mask.mask_ok dmg → Mask.mask_ok carried →
  (∀ i, 0 ≤ i < len F → Mask.get dmg i = false → F !!! Z.to_nat i = old !!! Z.to_nat i) →
  delta_spec None (omap (planned l F) (take_while (λ row, row <? len F) (Mask.iter_either dmg carried))).
Proof.
  intros Eo Ec Hd Hc Hsame. destruct (looked_spec dmg carried (len F) Hd Hc) as [Hs Hin]. set (looked := take_while _ _) in *.
  assert (∀ p, p ∈ omap (planned l F) looked → 0 ≤ p_row p < len F ∧ names old F carried p) as Hp.
  { intros p Hp. apply list_elem_of_omap in Hp as (i & Hi & E). apply planned_row in E as [-> E]. rewrite Eo, Ec in E. split; [by apply Hin|done]. }
  split; [by apply omap_ascends|apply Forall_forall; intros; by apply Hp|apply Forall_forall; intros; split; [by apply Hp|done]|done|].
  intros i Hi Hno. rewrite Forall_forall in Hno. destruct (decide (i ∈ looked)) as [Hl|Hl].
  - destruct (planned l F i) as [p|] eqn:E.
    { exfalso. apply (Hno p); [apply list_elem_of_omap; by exists i|]. by apply planned_row in E as [-> _]. }
    unfold planned in E. rewrite Eo, Ec in E. destruct (Mask.get carried i) eqn:Eg; [done|]. split; [done|]. right. by destruct (changed_span _ _).
  - rewrite Hin in Hl. assert (Mask.get dmg i = false ∧ Mask.get carried i = false) as [Hg1 Hg2] by (destruct (Mask.get dmg i), (Mask.get carried i); tauto).
    split; [done|]. left. by apply Hsame.
Qed.

Lemma ascends_app l1 l2 : ascends l1 → ascends l2 → (∀ p q, p ∈ l1 → q ∈ l2 → p_row p < p_row q) → ascends (l1 ++ l2).
Proof.
  intros H1 H2 H. induction H1 as [|p l1 H1 IH Hp]; [done|]. cbn [app]. constructor; [apply IH; intros; apply H; [by right|done]|].
  apply Forall_app. split; [done|]. apply Forall_forall. intros q Hq. apply H; [left|done].
Qed.
Lemma whole_ascends rows : StronglySorted Z.lt rows → ascends ((λ row, {| p_row := row; p_sending := Whole |}) <$> rows).
Proof.
  induction 1 as [|i rows Hs IH Hi]; [constructor|]. rewrite fmap_cons. constructor; [done|]. by apply Forall_fmap.
Qed.

(** The rows named around a band. *)
Lemma scroll_spec l b : sent_unconfirmed l = carried → moved old F (len F) b → delta_spec None (plan_rows (the_plan l)) →
  delta_spec (Some b) (plan_rows (the_plan (scroll_to l b))).
Proof.
  intros Ec Hm [Hs Hr Hn _ Hq]. pose proof Hm as (Ha & Ht & Hrows). unfold is_applicable in Ha. zbool.
  unfold scroll_to. cbn [assign the_plan plan_rows]. cbv zeta. rewrite Ec. set (rows := plan_rows (the_plan l)) in *.
  set (mid := filter (λ row, Mask.get carried (row + lines b) = true) (seqZ (top b) (bottom b - lines b - top b))).
  unfold whole_rows. set (W := λ row, {| p_row := row; p_sending := Whole |}).
  assert (∀ p, p ∈ W <$> mid → top b ≤ p_row p < bottom b - lines b ∧ p_sending p = Whole ∧ Mask.get carried (p_row p + lines b) = true) as M1.
  { intros p Hp. apply list_elem_of_fmap in Hp as (i & -> & Hi). apply list_elem_of_filter in Hi as [Hg Hi]. apply elem_of_seqZ in Hi. simpl. split; [lia|done]. }
  assert (∀ p, p ∈ W <$> seqZ (bottom b - lines b) (bottom b - (bottom b - lines b)) → bottom b - lines b ≤ p_row p < bottom b ∧ p_sending p = Whole) as M2.
  { intros p Hp. apply list_elem_of_fmap in Hp as (i & -> & Hi). apply elem_of_seqZ in Hi. simpl. split; [lia|done]. }
  rewrite Forall_forall in Hr. rewrite Forall_forall in Hn.
  assert (∀ p, p ∈ filter (λ one, p_row one < top b) rows ++ (W <$> mid) ++ (W <$> seqZ (bottom b - lines b) (bottom b - (bottom b - lines b))) ++ filter (λ one, bottom b ≤ p_row one) rows →
    (p ∈ rows ∧ (p_row p < top b ∨ bottom b ≤ p_row p)) ∨ (top b ≤ p_row p < bottom b ∧ p_sending p = Whole)) as Hall.
  { intros p Hp. rewrite !elem_of_app, !list_elem_of_filter in Hp. destruct Hp as [[? ?]|[Hp|[Hp|[? ?]]]]; [left; auto| | |left; auto].
    - destruct (M1 p Hp) as (? & ? & _). right. split; [lia|done].
    - destruct (M2 p Hp) as (? & ?). right. split; [lia|done]. }
  split.
  - apply ascends_app; [by apply sorted_filter|apply ascends_app; [apply whole_ascends, sorted_filter, seqZ_sorted|apply ascends_app; [apply whole_ascends, seqZ_sorted|by apply sorted_filter|]|]|].
    + intros p q Hp Hq'. apply M2 in Hp as [? _]. apply list_elem_of_filter in Hq' as [? _]. lia.
    + intros p q Hp Hq'. apply M1 in Hp as (? & _). apply elem_of_app in Hq' as [Hq'|Hq']; [apply M2 in Hq' as [? _]; lia|]. apply list_elem_of_filter in Hq' as [? _]. lia.
    + intros p q Hp Hq'. apply list_elem_of_filter in Hp as [? _]. rewrite !elem_of_app in Hq'. destruct Hq' as [Hq'|[Hq'|Hq']].
      * apply M1 in Hq' as (? & _). lia.
      * apply M2 in Hq' as [? _]. lia.
      * apply list_elem_of_filter in Hq' as [? _]. lia.
  - apply Forall_forall. intros p Hp. destruct (Hall p Hp) as [[Hp' _]|[? _]]; [by apply Hr|lia].
  - apply Forall_forall. intros p Hp. destruct (Hall p Hp) as [[Hp' Hout]|[? Hw]]; [|by split; [left|]].
    split; [by apply Hn|]. cbn [in_band]. intros Hin. zbool. lia.
  - by intros ? [= <-].
  - intros i Hi Hno. rewrite Forall_forall in Hno. cbn [in_band]. destruct ((top b <=? i) && (i <? bottom b)) eqn:E.
    + zbool. assert (i < bottom b - lines b) as Hlt.
      { apply Z.nle_gt. intros Hge. apply (Hno (W i)); [|done]. rewrite !elem_of_app. right; right; left. apply list_elem_of_fmap. exists i. split; [done|]. apply elem_of_seqZ. lia. }
      split; [done|]. destruct (Mask.get carried (i + lines b)) eqn:Eg; [|done]. exfalso. apply (Hno (W i)); [|done]. rewrite !elem_of_app. right; left.
      apply list_elem_of_fmap. exists i. split; [done|]. apply list_elem_of_filter. split; [done|]. apply elem_of_seqZ. lia.
    + apply Hq; [done|]. apply Forall_forall. intros p Hp Ep. apply (Hno p); [|done]. rewrite !elem_of_app, !list_elem_of_filter. apply andb_false_iff in E as [E|E]; zbool.
      * left. split; [lia|done].
      * right; right; right. split; [lia|done].
Qed.

(** For every client that holds the confirmed rows where nothing unconfirmed touched them, and
    anything it may hold elsewhere, the band and the named rows give the frame. *)
Lemma delta_rebuilds cols s rows C :
  delta_spec s rows → length old = length F → Forall (row_good cols) F → Forall (row_good cols) old → 0 < cols ≤ U16_MAX →
  length C = length F → Forall (held cols) C →
  (∀ i, 0 ≤ i < len F → Mask.get carried i = false → C !!! Z.to_nat i = wire (old !!! Z.to_nat i)) →
  let C1 := scrolled s C in
  Forall (λ p, splice_into (C1 !!! Z.to_nat (p_row p)) (update_span (planned_update p (F !!! Z.to_nat (p_row p)))) =
    Some (wire (F !!! Z.to_nat (p_row p)))) rows ∧
  ∀ i, 0 ≤ i < len F → Forall (λ p, p_row p ≠ i) rows → C1 !!! Z.to_nat i = wire (F !!! Z.to_nat i).
Proof.
  intros [Hs Hr Hn Hm Hq] Lo HF Ho Hcols LC HC Hagree C1.
  assert (∀ i, 0 ≤ i < len F → in_band s i = false → C1 !!! Z.to_nat i = C !!! Z.to_nat i) as Hout.
  { intros i Hi. unfold C1, scrolled. destruct s as [b|]; [|done]. cbn [in_band]. destruct (Hm b eq_refl) as (Ha & Ht & _). intros E.
    rewrite scroll_lookup, E by (done || rewrite LC; (done || lia)). unfold is_applicable in Ha. zbool.
    assert ((top b <=? i) && (i <? bottom b - lines b) = false) as ->; [|done]. apply andb_false_iff in E as [?|?]; zbool; apply andb_false_iff; rewrite Z.leb_gt, Z.ltb_ge; lia. }
  assert (∀ i, 0 ≤ i < len F → held cols (C1 !!! Z.to_nat i)) as Hheld.
  { assert (∀ i, 0 ≤ i < len F → held cols (C !!! Z.to_nat i)) as H0 by (intros i Hi; apply Forall_at; [done|lia]).
    intros i Hi. unfold C1, scrolled. destruct s as [b|]; [|by apply H0]. destruct (Hm b eq_refl) as (Ha & Ht & _).
    rewrite scroll_lookup by (done || rewrite LC; (done || lia)). unfold is_applicable in Ha. zbool.
    destruct (_ && _) eqn:E; [zbool; apply H0; lia|]. case_match; [apply held_default; lia|by apply H0]. }
  assert (∀ i, 0 ≤ i < len F → quiet i → C !!! Z.to_nat i = wire (F !!! Z.to_nat i)) as Hquiet.
  { intros i Hi [Hg Hsame]. rewrite Hagree by done. destruct Hsame as [->|Hc]; [done|]. symmetry.
    apply unchanged_wire; [..|done]; apply (rg_ok cols), Forall_at; try done; lia. }
  split.
  - apply Forall_forall. intros p Hp. rewrite Forall_forall in Hr, Hn. specialize (Hr p Hp). destruct (Hn p Hp) as [Hname Hband].
    destruct Hname as [Ew|(Hg & [a b] & Hc & Ep)]; unfold planned_update.
    + rewrite Ew. apply (splice_whole cols); [by apply Hheld|by apply Forall_at|done].
    + rewrite Ep. unfold partial_. cbn [snd]. rewrite Hout; [|done|].
      * rewrite Hagree by done. apply (splice_partial cols); [by apply Forall_at|apply Forall_at; [done|lia]|done].
      * destruct (in_band s (p_row p)); [|done]. by rewrite Hband in Ep by done.
  - intros i Hi Hno. specialize (Hq i Hi Hno). destruct (in_band s i) eqn:E.
    + destruct s as [b|]; [|done]. destruct Hq as [Hlt Hg]. destruct (Hm b eq_refl) as (Ha & Ht & Hmv). cbn [in_band] in E. zbool.
      unfold C1, scrolled. rewrite scroll_lookup by (done || rewrite LC; (done || lia)). rewrite (proj2 (Z.leb_le _ _)), (proj2 (Z.ltb_lt i (bottom b - lines b))) by lia.
      cbn [andb]. unfold is_applicable in Ha. zbool. rewrite Hagree by (done || lia). by rewrite Hmv by lia.
    + rewrite Hout by done. apply Hquiet; [done|]. by destruct s.
Qed.

(** Every named row is an update an encoder takes. *)
Lemma planned_ok size s rows : delta_spec s rows → length old = length F → Forall (row_good (Fields.cols size)) F → Forall (row_good (Fields.cols size)) old →
  Fields.rows size = len F →
  let us := (λ p, planned_update p (F !!! Z.to_nat (p_row p))) <$> rows in
  Forall (update_full size) us ∧ sorted_rows us.
Proof.
  intros [Hs Hr Hn _ _] Lo HF Ho Hsize us.
  split.
  - unfold us. apply Forall_fmap, Forall_forall. intros p Hp. rewrite Forall_forall in Hr, Hn. specialize (Hr p Hp). destruct (Hn p Hp) as [Hname _].
    pose proof (Forall_at _ F _ HF Hr) as [G1 G2 G3]. unfold compose, planned_update. destruct Hname as [->|(_ & [a b] & Hc & ->)].
    + split; [split; cbn; [lia|done|done|lia|lia]|done|done|by left].
    + pose proof (changed_cases _ _ G1 (rg_ok _ _ (Forall_at _ old (p_row p) Ho ltac:(lia)))) as Hcc. rewrite Hc in Hcc. destruct Hcc as (Hab & _ & _ & _ & Hend).
      unfold partial_. split; [split; cbn; [lia|done|done|lia|lia]|done|cbn; intros E; by apply Nat.eqb_eq in E|]. cbn. right.
      destruct Hend as [->|[? _]]; [right; apply Nat.eqb_refl|by left].
  - unfold us, sorted_rows. clear -Hs. induction Hs as [|p rows Hs IH Hp]; [constructor|]. rewrite fmap_cons. constructor; [done|].
    apply Forall_fmap. eapply list.Forall_impl; [exact Hp|]. intros q Hq. unfold compose, planned_update. by repeat case_match.
Qed.

End delta.

(** ** The ledger and the emulator *)

(** [F] is the emulator's rows now: every row in which they differ from the confirmed screen, or
    from the screen in flight, is one the ledger knows of. *)
Record tracks (l : ScreenLedger) (F : list RowFrame) : Prop := {
  tk_damage : Mask.mask_ok (damage l);
  tk_flight : Mask.mask_ok (in_flight_damage l);
  tk_carried : Mask.mask_ok (sent_unconfirmed l);
  tk_confirmed : ∀ n, confirmed l = Some n → length (confirmed_rows l) = length F ∧
    ∀ i, 0 ≤ i < len F → Mask.get (damage l) i = false → Mask.get (in_flight_damage l) i = false →
      F !!! Z.to_nat i = confirmed_rows l !!! Z.to_nat i;
  tk_pending : ∀ n, pending l = Some n → length (pending_rows l) = length F ∧
    ∀ i, 0 ≤ i < len F → Mask.get (damage l) i = false → F !!! Z.to_nat i = pending_rows l !!! Z.to_nat i;
  tk_idle : pending l = None → ∀ i, Mask.get (in_flight_damage l) i = false;
  tk_hashes : confirmed_hashes l = [] ∨ confirmed_hashes l = hash_rows (confirmed_rows l)
}.

Ltac unset := cbn [assign damage in_flight_damage sent_unconfirmed confirmed confirmed_rows pending pending_rows confirmed_hashes frame_hashes the_plan
  full base scroll plan_rows].

Lemma tracks_new F : tracks new F.
Proof. split; cbn; auto with mask; try done. Qed.

Lemma tracks_damage l F F' dirty : tracks l F → length F' = length F → Mask.mask_ok dirty →
  (∀ i, 0 ≤ i < len F → Mask.get dirty i = false → F' !!! Z.to_nat i = F !!! Z.to_nat i) → tracks (note_damage l dirty) F'.
Proof.
  intros [T1 T2 T3 T4 T5 T6 T7] Hl Hd Hs. unfold note_damage. split; unset; auto with mask.
  - intros n Hn. destruct (T4 n Hn) as [H1 H2]. split; [lia|]. intros i Hi. rewrite Mask.get_union. intros [G1 G2]%orb_false_elim G3. rewrite Hs by (done || lia). apply H2; (done || lia).
  - intros n Hn. destruct (T5 n Hn) as [H1 H2]. split; [lia|]. intros i Hi. rewrite Mask.get_union. intros [G1 G2]%orb_false_elim. rewrite Hs by (done || lia). apply H2; (done || lia).
Qed.

Lemma tracks_invalidate l F rows : 0 ≤ rows ≤ U16_MAX → tracks (invalidate l rows) F.
Proof.
  intros Hr. unfold invalidate. split; unset; auto with mask; try done.
  intros _ i. apply Mask.get_reset.
Qed.

Lemma tracks_release l F : tracks l F → tracks (release_in_flight l) F ∧ pending (release_in_flight l) = None.
Proof.
  intros T. unfold release_in_flight. destruct (pending l) as [n|] eqn:E; [|done]. destruct T as [T1 T2 T3 T4 T5 T6 T7].
  split; [|done]. split; unset; auto with mask; try done.
  - intros m Hm. destruct (T4 m Hm) as [H1 H2]. split; [done|]. intros i Hi. rewrite Mask.get_union. intros [G1 G2]%orb_false_elim _. by apply H2.
  - intros _ i. apply Mask.get_clear_all.
Qed.

Lemma tracks_confirm l F g v : tracks l F → tracks (confirm l g v).2 F.
Proof.
  intros T. unfold confirm. destruct (bool_decide _) eqn:E; [|done]. rewrite bool_decide_eq_true in E. destruct T as [T1 T2 T3 T4 T5 T6 T7]. cbn [snd].
  destruct (T5 _ E) as [H1 H2]. split; unset; auto with mask; try done.
  intros _ i. apply Mask.get_clear_all.
Qed.

(** What deciding changes of a ledger: the plan, the hashes, and more rows carried. *)
Record decides (l l' : ScreenLedger) : Prop := {
  dc_confirmed : confirmed l' = confirmed l;
  dc_rows : confirmed_rows l' = confirmed_rows l;
  dc_pending : pending l' = pending l;
  dc_damage : damage l' = damage l;
  dc_flight : in_flight_damage l' = in_flight_damage l;
  dc_carried : Mask.mask_ok (sent_unconfirmed l) → Mask.mask_ok (sent_unconfirmed l');
  dc_more : ∀ i, 0 ≤ i → Mask.get (sent_unconfirmed l) i = true → Mask.get (sent_unconfirmed l') i = true;
  dc_hashes : confirmed_hashes l = [] ∨ confirmed_hashes l = hash_rows (confirmed_rows l) →
              confirmed_hashes l' = [] ∨ confirmed_hashes l' = hash_rows (confirmed_rows l')
}.

Lemma decides_refl l : decides l l.
Proof. by split. Qed.
Lemma decides_trans l1 l2 l3 : decides l1 l2 → decides l2 l3 → decides l1 l3.
Proof. intros [] []. split; try congruence; auto. Qed.

Lemma decides_plan l p : decides l (l <| the_plan := p |>).
Proof. split; unset; auto. Qed.

Lemma scroll_decides l b count : is_applicable b count = true → 0 ≤ top b → count ≤ U16_MAX →
  decides l (scroll_to l b) ∧ ∀ i, in_band (Some b) i = true → Mask.get (sent_unconfirmed (scroll_to l b)) i = true.
Proof.
  intros Ha Ht Hc. unfold is_applicable in Ha. zbool. unfold scroll_to. split; [split; unset; auto|unset].
  - intros Hm. apply Mask.set_range_ok; [done|lia|lia].
  - intros i Hi Hg. rewrite Mask.get_set_range, Hg by lia. apply orb_true_r.
  - intros i Hi. cbn [in_band] in Hi. zbool. rewrite Mask.get_set_range by lia. apply orb_true_intro. left. apply bool_decide_eq_true. lia.
Qed.

(** What a search leaves: the plan as it was, or rewritten around a band that moved. *)
Lemma seek_spec l F : len F ≤ U16_MAX → scroll (the_plan l) = None →
  delta_spec (confirmed_rows l) F (sent_unconfirmed l) None (plan_rows (the_plan l)) →
  let l' := seek_band l F (len F) in
  decides l l' ∧ base (the_plan l') = base (the_plan l) ∧
  delta_spec (confirmed_rows l) F (sent_unconfirmed l) (scroll (the_plan l')) (plan_rows (the_plan l')) ∧
  ∀ i, in_band (scroll (the_plan l')) i = true → Mask.get (sent_unconfirmed l') i = true.
Proof.
  intros Hn Hs Hd l'. unfold l', seek_band. destruct (1 <? len (plan_rows (the_plan l))).
  2:{ split; [apply decides_refl|]. rewrite Hs. by split_and!. }
  set (l1 := match confirmed_hashes l with [] => _ | _ => l end). set (l2 := l1 <| frame_hashes := hash_rows F |>).
  assert (decides l l2 ∧ the_plan l2 = the_plan l ∧ sent_unconfirmed l2 = sent_unconfirmed l) as (D & Ep & Ec).
  { unfold l2, l1. destruct (confirmed_hashes l) eqn:E; (split; [split; unset; auto|done]). }
  pose proof (dc_rows _ _ D) as Er. destruct (band _ _ _ _ _ _ _) as [b|] eqn:Eb.
  - apply band_sound in Eb. rewrite Er in Eb. pose proof Eb as (Ha & Ht & _).
    destruct (scroll_decides l2 b (len F) Ha Ht Hn) as [D2 Hin]. split; [by eapply decides_trans|]. unfold scroll_to at 1 2. unset. rewrite Ep.
    split; [done|]. split; [|exact Hin]. apply scroll_spec; [done|done|by rewrite Ep].
  - split; [done|]. rewrite Ep, Hs. by split_and!.
Qed.

Lemma plan_delta_spec l F h : tracks l F → pending l = None → scroll (the_plan l) = None → plan_rows (the_plan l) = [] →
  let '(d, l') := plan_delta l F h in
  decides l l' ∧
  (d = true → confirmed l = Some (h_generation h, base (the_plan l')) ∧ length (confirmed_rows l) = length F ∧ len F ≤ U16_MAX ∧
    delta_spec (confirmed_rows l) F (sent_unconfirmed l) (scroll (the_plan l')) (plan_rows (the_plan l')) ∧
    ∀ i, in_band (scroll (the_plan l')) i = true → Mask.get (sent_unconfirmed l') i = true).
Proof.
  intros T Hidle Hs Hp. unfold plan_delta. destruct (confirmed l) as [[g b]|] eqn:Ec; [|by split; [apply decides_refl|]].
  destruct (negb _ || negb _) eqn:E1; [by split; [apply decides_refl|]|]. apply orb_false_elim in E1 as [E1 E2]. apply negb_false_iff in E1, E2. apply Nat.eqb_eq in E2. zbool.
  destruct (Z.ltb_spec U16_MAX (len F)) as [|Hn]; [by split; [apply decides_refl|]|]. cbv zeta. set (l1 := l <| the_plan := _ |>).
  assert (decides l l1) as D1 by apply decides_plan.
  assert (∀ i, 0 ≤ i < len F → Mask.get (damage l) i = false → F !!! Z.to_nat i = confirmed_rows l !!! Z.to_nat i) as Hsame.
  { intros i Hi Hg. apply (tk_confirmed l F T _ Ec); [done|done|]. by apply (tk_idle l F T). }
  destruct (Mask.is_empty (damage l1) && Mask.is_empty (sent_unconfirmed l1)) eqn:Ee.
  - split; [done|]. intros _. apply andb_prop in Ee as [G1 G2]. pose proof (Mask.is_empty_spec _ G1) as Q1. pose proof (Mask.is_empty_spec _ G2) as Q2.
    unfold l1. unset. rewrite Hs, Hp, E1. split; [done|]. split; [done|]. split; [done|]. split; [|done]. split; try done; [constructor|].
    intros i Hi _. split; [apply Q2|]. left. apply Hsame; [done|apply Q1].
  - set (l2 := l1 <| the_plan := _ |>). assert (decides l l2) as D2 by (eapply decides_trans; [exact D1|apply decides_plan]).
    destruct (seek_spec l2 F Hn) as (D3 & Eb & Hd & Hin).
    + unfold l2, l1. unset. done.
    + unfold l2, l1. unset. rewrite Hp. cbn [app]. apply named_spec; [done|done|apply T|apply T|exact Hsame].
    + split; [by eapply decides_trans|]. intros _. split; [rewrite Eb; unfold l2, l1; unset; by rewrite E1|]. split; [done|]. split; [done|]. split; [exact Hd|exact Hin].
Qed.

(** The rows a plan names, and what carries over to the next. *)
Record plan_result (l l' : ScreenLedger) (F : list RowFrame) (h : ScreenHeader) : Prop := {
  pr_tracks : tracks l' F;
  pr_pending : pending l' = Some (h_generation h, h_version h);
  pr_rows : pending_rows l' = F;
  pr_confirmed : confirmed l' = confirmed l;
  pr_confirmed_rows : confirmed_rows l' = confirmed_rows l;
  pr_more : ∀ i, 0 ≤ i → Mask.get (sent_unconfirmed l) i = true → Mask.get (sent_unconfirmed l') i = true;
  pr_delta : full (the_plan l') = false →
    confirmed l = Some (h_generation h, base (the_plan l')) ∧ length (confirmed_rows l) = length F ∧ len F ≤ U16_MAX ∧
    delta_spec (confirmed_rows l) F (sent_unconfirmed l) (scroll (the_plan l')) (plan_rows (the_plan l')) ∧
    ∀ i, 0 ≤ i → in_band (scroll (the_plan l')) i = true ∨ Exists (λ p, p_row p = i) (plan_rows (the_plan l')) →
      Mask.get (sent_unconfirmed l') i = true
}.

Lemma mark_rows m rows : Forall (λ p, 0 ≤ p_row p ≤ U16_MAX) rows →
  let m' := foldl (λ m named, Mask.set_ m (p_row named)) m rows in
  (Mask.mask_ok m → Mask.mask_ok m') ∧ ∀ i, 0 ≤ i → Mask.get m i = true ∨ Exists (λ p, p_row p = i) rows → Mask.get m' i = true.
Proof.
  intros Hr. revert m. induction Hr as [|p rows Hp Hr IH]; intros m; cbn [foldl].
  { split; [done|]. intros i _ [?|H]; [done|]. by inversion H. }
  destruct (IH (Mask.set_ m (p_row p))) as [IH1 IH2]. split; [auto with mask|]. intros i Hi H. apply IH2; [done|]. rewrite Mask.get_marked by lia.
  destruct H as [->|H]; [left; apply orb_true_r|]. apply Exists_cons in H as [->|H]; [left; by rewrite Z.eqb_refl|by right].
Qed.

Lemma plan_spec l F h : tracks l F → plan_result l (plan l F h) F h.
Proof.
  intros T. unfold plan. destruct (tracks_release l F T) as [T0 Hidle].
  assert (confirmed (release_in_flight l) = confirmed l ∧ confirmed_rows (release_in_flight l) = confirmed_rows l ∧
    sent_unconfirmed (release_in_flight l) = sent_unconfirmed l) as (R1 & R2 & R3) by (unfold release_in_flight; by case_match).
  set (l0 := release_in_flight l) in *. cbv zeta. set (l1 := l0 <| the_plan := _ |>).
  assert (tracks l1 F) as T1 by (destruct T0; by split). 
  pose proof (plan_delta_spec l1 F h T1 Hidle eq_refl eq_refl) as Hd. destruct (plan_delta l1 F h) as [d l2]. destruct Hd as [[D1 D2 D3 D4 D5 D6 D7 D8] Hd].
  unset. set (l3 := if negb d then _ else _).
  assert (confirmed l3 = confirmed l2 ∧ confirmed_rows l3 = confirmed_rows l2 ∧ damage l3 = damage l2 ∧ in_flight_damage l3 = in_flight_damage l2 ∧
    confirmed_hashes l3 = confirmed_hashes l2 ∧ full (the_plan l3) = negb d ∧ (d = true → the_plan l3 = (the_plan l2) <| full := false |>))
    as (L1 & L2 & L3 & L4 & L5 & L6 & L7).
  { unfold l3. destruct d; cbn [negb]; [by unset; split_and!|]. destruct (len F <=? U16_MAX); unfold carry_every; unset; by split_and!. }
  assert (Mask.mask_ok (sent_unconfirmed l3) ∧ (∀ i, 0 ≤ i → Mask.get (sent_unconfirmed l2) i = true → Mask.get (sent_unconfirmed l3) i = true) ∧
    (d = true → ∀ i, 0 ≤ i → Exists (λ p, p_row p = i) (plan_rows (the_plan l2)) → Mask.get (sent_unconfirmed l3) i = true)) as (M1 & M2 & M3).
  { specialize (D6 (tk_carried _ _ T1)). unfold l3. destruct d; cbn [negb].
    - destruct (Hd eq_refl) as (_ & _ & Hn & [_ Hr _ _ _] & _). unset.
      destruct (mark_rows (sent_unconfirmed l2) (plan_rows (the_plan l2))) as [K1 K2]; [eapply list.Forall_impl; [exact Hr|]; simpl; lia|].
      split; [by apply K1|]. split; [intros i Hi Hg; apply K2; auto|]. intros _ i Hi He. apply K2; auto.
    - destruct (Z.leb_spec (len F) U16_MAX); unfold carry_every; unset; [|by split_and!]. split; [|split; [|done]].
      + apply Mask.set_range_ok; [done|lia|lia].
      + intros i Hi Hg. rewrite Mask.get_set_range, Hg by lia. apply orb_true_r. }
  pose proof (tk_confirmed _ _ T1) as Tc. pose proof (tk_idle _ _ T1 Hidle) as Ti. split; unset; rewrite ?snapshot_rows, ?L1, ?L2, ?D1, ?D2; try done.
  - split; unset; rewrite ?snapshot_rows, ?L1, ?L2, ?L3, ?L4, ?L5, ?D1, ?D2, ?D4, ?D5; try done.
    + apply Mask.clear_ok, T1.
    + apply T1.
    + intros n Hn. destruct (Tc n Hn) as [Hl Hr]. split; [done|]. intros i Hi _ Hg. apply Hr; [done|done|apply Ti].
    + rewrite <- D2. apply D8, T1.
  - intros i Hi Hg. apply M2; [done|]. apply D7; [done|]. unfold l1. unset. by rewrite R3.
  - rewrite L6. intros Hfull. apply negb_false_iff in Hfull. destruct (Hd Hfull) as (H1 & H2 & H3 & H4 & H5). rewrite L7 by done. unset.
    unfold l1 in H1, H2, H4. revert H1 H2 H4. unset. rewrite R1, R2, R3. intros H1 H2 H4. split_and!; try done.
    intros i Hi [Hb|He]; [by apply M2, H5|by apply M3].
Qed.

End Ledger.
