(* ===== verification/Assembly.v ===== *)
(** * Assembling a screen ([crates/client/src/render.rs], [Screen::part] and what it calls)

    A client paints the pieces of a screen as they come and takes the screen's version only once
    every piece is in.  What is modelled is the client's own copy of the screen and the state of
    the assembly; the escape sequences written to the terminal ([open_frame], [write_modes],
    [write_cursor] and the like), and with them [Observed], [frame_open] and the buffers that are
    only reused, are not, and a write to the terminal does not fail.

    [part] takes any piece in any state: pieces of another screen, duplicates, tails that overtake
    their head. *)

From S2P Require Import Prelude Codec Fields Message Text Screen Modes Rows Pieces Mask Splice.

Module Assembly.
Import Codec Text Screen Rows Pieces Splice.

(** ** State *)

#[export] Instance GridSize_eq_dec : EqDecision Fields.GridSize.
Proof. solve_decision. Defined.

Record ConfirmedScreen := mkConfirmed {
  cs_generation : Z; cs_version : option Z; cs_size : Fields.GridSize; cs_cursor : option (Z * Z); cs_visible : bool;
  cs_shape : Modes.CursorShape; cs_blinking : bool; cs_modes : Z; cs_sticky : StickyState; cs_rows : list RowFrame
}.
#[export] Instance ConfirmedScreen_settable : Settable ConfirmedScreen := λ c,
  mkConfirmed (cs_generation c) (cs_version c) (cs_size c) (cs_cursor c) (cs_visible c) (cs_shape c) (cs_blinking c)
    (cs_modes c) (cs_sticky c) (cs_rows c).

Inductive PartMismatch := NoScreen | WrongBase | Unscrollable | OutsideGrid.
Record Assembled := mkAssembled { as_generation : Z; as_version : Z; as_next_off : Z }.

Inductive Coverage := CDelta | CWhole.
#[export] Instance Coverage_eq_dec : EqDecision Coverage.
Proof. solve_decision. Defined.
Record Head_ := mkHead { hd_next_off : Z; hd_coverage : Coverage }.
Record Assembly_ := mkAssembly { a_named : Z * Z; a_head : option Head_; a_predicted : bool }.
#[export] Instance Assembly_settable : Settable Assembly_ := λ a, mkAssembly (a_named a) (a_head a) (a_predicted a).

(** The part of [Painter] that is more than a buffer. *)
Record Painter := mkPainter {
  applied : list bool; covered : list bool; held_tails : list (Z * list RowSpan); chunks : list RowSpan
}.
#[export] Instance Painter_settable : Settable Painter := λ p, mkPainter (applied p) (covered p) (held_tails p) (chunks p).

(** [shown] is [ShownSinceScreen::Passthrough]. *)
Record Screen_ := mkScreen {
  confirmed : option ConfirmedScreen; pending : option Assembly_; trusted : bool; shown : bool; painter : Painter
}.
#[export] Instance Screen_settable : Settable Screen_ := λ s, mkScreen (confirmed s) (pending s) (trusted s) (shown s) (painter s).

Definition new : Screen_ :=
  {| confirmed := None; pending := None; trusted := false; shown := false;
     painter := {| applied := []; covered := []; held_tails := []; chunks := [] |} |}.

Definition HELD_TAILS : nat := 16.
Definition HELD_CHUNK_BYTES : Z := 1024 * 1024.

Definition abandon (s : Screen_) : Screen_ :=
  s <| pending := None |> <| painter := (painter s) <| held_tails := [] |> <| chunks := [] |> |>.
Definition invalidate (s : Screen_) : Screen_ := abandon (s <| trusted := false |>).
(** [observe], as far as it bears on the screen: bytes that went past. *)
Definition observe (s : Screen_) (bytes : list Z) : Screen_ :=
  match bytes with [] => s | _ => s <| shown := true |> end.

(** ** Ordering of screens *)

Definition name_lt (a b : Z * Z) : bool := (a.1 <? b.1) || (a.1 =? b.1) && (a.2 <? b.2).
Definition name_le (a b : Z * Z) : bool := (a.1 <? b.1) || (a.1 =? b.1) && (a.2 <=? b.2).

Definition superseded (s : Screen_) (named : Z * Z) : bool :=
  match pending s with Some a => name_lt named (a_named a) | None => false end ||
  match confirmed s with
  | Some c => match cs_version c with Some v => name_le named (cs_generation c, v) | None => false end
  | None => false
  end.

(** ** Rows *)

Definition rows_fit (rows : list RowSpan) (held_ cols : Z) : bool :=
  forallb (λ row, (sp_row row <? held_) && (cells (sp_frame row) <=? cols) &&
                  (sp_chunk row || (sp_col row + cells (sp_frame row) <=? cols))) rows.

(** The loop of [hold_chunks]; [held_] counts the text of every chunk seen. *)
Fixpoint hold_loop (rows : list RowSpan) (held_ : Z) (cs : list RowSpan) : list RowSpan * list RowSpan :=
  match rows with
  | [] => ([], cs)
  | row :: rows =>
      if negb (sp_chunk row) then let '(whole_, cs) := hold_loop rows held_ cs in (row :: whole_, cs)
      else
        let held_ := held_ + len (text (sp_frame row)) in
        if HELD_CHUNK_BYTES <? held_ then hold_loop rows held_ cs
        else hold_loop rows held_ (cs ++ [row])
  end.
Definition hold_chunks (rows cs : list RowSpan) : list RowSpan * list RowSpan :=
  if forallb (λ row, negb (sp_chunk row)) rows then (rows, cs)
  else hold_loop rows (sum_by (λ span, len (text (sp_frame span))) cs) cs.

(** [covered] is consulted only for a whole screen. *)
Definition cover (coverage : Coverage) (cov : list bool) (index : nat) : list bool :=
  match coverage with CDelta => cov | CWhole => <[index := true]> cov end.

Definition write_part_row (coverage : Coverage) (state : list RowFrame * list bool) (span : RowSpan) : list RowFrame * list bool :=
  let '(rows, cov) := state in
  let index := Z.to_nat (sp_row span) in
  match rows !! index with
  | None => state
  | Some current =>
      match splice_into current span with
      | None => state
      | Some patched => (<[index := patched]> rows, cover coverage cov index)
      end
  end.
Definition write_part_rows (coverage : Coverage) (rows : list RowFrame) (cov : list bool) (spans_ : list RowSpan) :
    list RowFrame * list bool := foldl (write_part_row coverage) (rows, cov) spans_.

(** ** Joining chunks *)

Definition key_le (a b : RowSpan) : bool := (sp_row a <? sp_row b) || (sp_row a =? sp_row b) && (sp_col a <=? sp_col b).
(** [sort_by_key], which is stable. *)
Fixpoint insert_span (x : RowSpan) (l : list RowSpan) : list RowSpan :=
  match l with
  | [] => [x]
  | y :: l => if key_le x y then x :: y :: l else y :: insert_span x l
  end.
Definition sort_spans (l : list RowSpan) : list RowSpan := foldr insert_span [] l.

Definition set_chunk (s : RowSpan) (b : bool) : RowSpan :=
  {| sp_row := sp_row s; sp_chunk := b; sp_col := sp_col s; sp_byte := sp_byte s; sp_clear := sp_clear s; sp_frame := sp_frame s |}.

(** One turn of the loop; the newest row is the head of the list. *)
Definition join_step (joined : list RowSpan) (span : RowSpan) : list RowSpan :=
  match joined with
  | last :: rest_ =>
      if sp_row last =? sp_row span then
        if sp_chunk last || negb (sp_col last + cells (sp_frame last) =? sp_col span) ||
           negb (sp_byte last + len (text (sp_frame last)) =? sp_byte span)
        then set_chunk last true :: rest_
        else
          {| sp_row := sp_row last; sp_chunk := sp_chunk last; sp_col := sp_col last; sp_byte := sp_byte last; sp_clear := sp_clear span;
             sp_frame := {| text := text (sp_frame last) ++ text (sp_frame span); runs := runs (sp_frame last) ++ runs (sp_frame span);
                            cells := sat_add U16_MAX (cells (sp_frame last)) (cells (sp_frame span)) |} |} :: rest_
      else set_chunk span false :: joined
  | [] => [set_chunk span false]
  end.
Definition join_spans (cs : list RowSpan) : list RowSpan := reverse (foldl join_step [] (sort_spans cs)).

Definition joined_fits (held_ cols : Z) (span : RowSpan) : bool :=
  let frame := sp_frame span in
  negb (sp_chunk span) && (sp_row span <? held_) && (sp_col span + cells frame <=? cols) &&
  (len (text frame) <=? cells frame * MAX_CLUSTER_BYTES) && (styled_bytes frame <=? len (text frame)) && (styled_cells frame <=? cells frame).

Definition write_joined_rows (coverage : Coverage) (cols : Z) (rows : list RowFrame) (cov : list bool) (cs : list RowSpan) :
    list RowFrame * list bool :=
  write_part_rows coverage rows cov (filter (λ span, joined_fits (len rows) cols span = true) (join_spans cs)).

(** ** Pieces *)

Definition base_fits (screen : ConfirmedScreen) (trusted_ : bool) (h : ScreenHeader) (base : Z) (scroll : option ScrollBand)
    (terminal_rows : Z) : result () PartMismatch :=
  if negb trusted_ || negb (cs_generation screen =? h_generation h) || negb (bool_decide (cs_version screen = Some base)) ||
     negb (bool_decide (cs_size screen = h_size h))
  then Err WrongBase
  else if match scroll with Some _ => true | None => false end && (terminal_rows <? Fields.rows (cs_size screen))
  then Err Unscrollable
  else Ok ().

Definition head_on_base (s : Screen_) (screen : ConfirmedScreen) (h : ScreenHeader) (base : Z) (scroll : option ScrollBand)
    (rows : list RowSpan) (terminal_rows : Z) : result ConfirmedScreen PartMismatch :=
  let? _ := base_fits screen (trusted s) h base scroll terminal_rows in
  if negb (rows_fit rows (len (cs_rows screen)) (Fields.cols (cs_size screen))) then Err OutsideGrid
  else Ok (match scroll with Some band => screen <| cs_rows := scroll_rows band (cs_rows screen) |> | None => screen end).

(** The rows a whole screen is painted over: the client's own, while they still describe the terminal. *)
Definition whole_base (s : Screen_) (h : ScreenHeader) (previous : option ConfirmedScreen) (drawn : bool) : list RowFrame :=
  match previous with
  | Some screen =>
      if trusted s && negb (shown s) && negb drawn && bool_decide (cs_size screen = h_size h) &&
         (len (cs_rows screen) =? Fields.rows (h_size h))
      then cs_rows screen
      else replicate (Z.to_nat (Fields.rows (h_size h))) default_row
  | None => replicate (Z.to_nat (Fields.rows (h_size h))) default_row
  end.
Definition head_whole (s : Screen_) (h : ScreenHeader) (rows : list RowSpan) (previous : option ConfirmedScreen) (drawn : bool) :
    result ConfirmedScreen PartMismatch :=
  if negb (rows_fit rows (Fields.rows (h_size h)) (Fields.cols (h_size h))) then Err OutsideGrid
  else Ok {| cs_generation := h_generation h; cs_version := None; cs_size := h_size h; cs_cursor := h_cursor h; cs_visible := h_visible h;
             cs_shape := h_shape h; cs_blinking := h_blinking h; cs_modes := h_modes h; cs_sticky := h_sticky h;
             cs_rows := whole_base s h previous drawn |}.

(** [applied] with the head's own piece in. *)
Definition applied_first (pieces : Z) : list bool :=
  match replicate (Z.to_nat pieces) false with [] => [] | _ :: l => true :: l end.

Definition head (s : Screen_) (h : ScreenHeader) (base : option Z) (scroll : option ScrollBand) (pieces : Z) (rows : list RowSpan)
    (terminal_rows : Z) (drawn : bool) : result Head_ PartMismatch * Screen_ :=
  let opened :=
    match base, confirmed s with
    | Some _, None => Err NoScreen
    | Some base, Some screen => head_on_base s screen h base scroll rows terminal_rows
    | None, previous => head_whole s h rows previous drawn
    end in
  match opened with
  | Err mismatch => (Err mismatch, s)
  | Ok screen =>
      let coverage := match base with Some _ => CDelta | None => CWhole end in
      let cov := match coverage with CWhole => replicate (Z.to_nat (Fields.rows (h_size h))) false | CDelta => [] end in
      let '(whole_, cs) := hold_chunks rows (chunks (painter s)) in
      let '(painted_, cov) := write_part_rows coverage (cs_rows screen) cov whole_ in
      let screen :=
        {| cs_generation := h_generation h; cs_version := cs_version screen; cs_size := h_size h; cs_cursor := h_cursor h;
           cs_visible := h_visible h; cs_shape := h_shape h; cs_blinking := h_blinking h; cs_modes := h_modes h; cs_sticky := h_sticky h;
           cs_rows := painted_ |} in
      (Ok {| hd_next_off := h_next_off h; hd_coverage := coverage |},
       s <| confirmed := Some screen |> <| trusted := true |> <| shown := false |>
         <| painter := {| applied := applied_first pieces; covered := cov; held_tails := held_tails (painter s); chunks := cs |} |>)
  end.

(** A tail's rows, once its head is in. *)
Definition write_piece (s : Screen_) (screen : ConfirmedScreen) (coverage : Coverage) (index : Z) (rows : list RowSpan) : Screen_ :=
  let '(whole_, cs) := hold_chunks rows (chunks (painter s)) in
  let '(painted_, cov) := write_part_rows coverage (cs_rows screen) (covered (painter s)) whole_ in
  s <| confirmed := Some (screen <| cs_rows := painted_ |>) |>
    <| painter := (painter s) <| chunks := cs |> <| covered := cov |> <| applied := <[Z.to_nat index := true]> (applied (painter s)) |> |>.

(** The loop of [absorb_held]. *)
Fixpoint absorb_loop (s : Screen_) (coverage : Coverage) (orphans : list (Z * list RowSpan)) : result () PartMismatch * Screen_ :=
  match orphans with
  | [] => (Ok (), s)
  | (index, rows) :: orphans =>
      match confirmed s with
      | None => (Ok (), s)
      | Some screen =>
          if negb (bool_decide (applied (painter s) !! Z.to_nat index = Some false)) then absorb_loop s coverage orphans
          else if negb (rows_fit rows (len (cs_rows screen)) (Fields.cols (cs_size screen))) then (Err OutsideGrid, s)
          else absorb_loop (write_piece s screen coverage index rows) coverage orphans
      end
  end.

(** The tails held are drained, those after a refusal too. *)
Definition absorb_held (s : Screen_) (hd : Head_) : result () PartMismatch * Screen_ :=
  match pending s with
  | None => (Ok (), s)
  | Some assembly =>
      let '(refused, s) :=
        match confirmed s with
        | None => (Ok (), s)
        | Some _ => absorb_loop (s <| painter := (painter s) <| held_tails := [] |> |>) (hd_coverage hd) (held_tails (painter s))
        end in
      (refused, s <| pending := Some (assembly <| a_head := Some hd |>) |>)
  end.

Definition settle (s : Screen_) : result (option Assembled) PartMismatch * Screen_ :=
  match pending s with
  | None => (Ok None, s)
  | Some assembly =>
      match a_head assembly with
      | None => (Ok None, s)
      | Some hd =>
          if negb (forallb id (applied (painter s))) then (Ok None, s)
          else
            let joined :=
              match chunks (painter s) with
              | [] => Some s
              | cs =>
                  match confirmed s with
                  | None => None
                  | Some screen =>
                      let '(painted_, cov) := write_joined_rows (hd_coverage hd) (Fields.cols (cs_size screen)) (cs_rows screen) (covered (painter s)) cs in
                      Some (s <| confirmed := Some (screen <| cs_rows := painted_ |>) |>
                              <| painter := (painter s) <| covered := cov |> <| chunks := [] |> |>)
                  end
              end in
            match joined with
            | None => (Ok None, s)
            | Some s =>
                if bool_decide (hd_coverage hd = CWhole) && negb (forallb id (covered (painter s))) then (Ok None, s)
                else
                  let s := abandon s in
                  match confirmed s with
                  | None => (Ok None, s)
                  | Some screen =>
                      if a_predicted assembly then (Ok None, s)
                      else
                        (Ok (Some {| as_generation := (a_named assembly).1; as_version := (a_named assembly).2; as_next_off := hd_next_off hd |}),
                         s <| confirmed := Some (screen <| cs_version := Some (a_named assembly).2 |>) |>)
                  end
            end
      end
  end.

Definition part_name (p : ScreenPart) : Z * Z :=
  match p with Head h _ _ _ _ => (h_generation h, h_version h) | Tail generation version _ _ _ => (generation, version) end.

Definition part (s : Screen_) (p : ScreenPart) (terminal_rows : Z) (drawn : bool) : result (option Assembled) PartMismatch * Screen_ :=
  let named := part_name p in
  if superseded s named then (Ok None, s)
  else
    let s := match pending s with
             | Some assembly => if bool_decide (a_named assembly = named) then s else abandon s
             | None => abandon s
             end in
    let assembly := default {| a_named := named; a_head := None; a_predicted := false |} (pending s) in
    let assembly := if drawn then assembly <| a_predicted := true |> else assembly in
    let s := s <| pending := Some assembly |> in
    match p with
    | Head h base scroll pieces rows =>
        match a_head assembly with
        | Some _ => (Ok None, s)
        | None =>
            match head s h base scroll pieces rows terminal_rows drawn with
            | (Err mismatch, s) => (Err mismatch, abandon s)
            | (Ok hd, s) =>
                match absorb_held s hd with
                | (Err mismatch, s) => (Err mismatch, s)
                | (Ok _, s) => settle s
                end
            end
        end
    | Tail _ _ pieces index rows =>
        match a_head assembly with
        | None =>
            let tails := held_tails (painter s) in
            if (length tails <? HELD_TAILS)%nat && negb (existsb (λ t, t.1 =? index) tails)
            then (Ok None, s <| painter := (painter s) <| held_tails := tails ++ [(index, rows)] |> |>)
            else (Ok None, s)
        | Some hd =>
            if negb (pieces =? len (applied (painter s))) || negb (bool_decide (applied (painter s) !! Z.to_nat index = Some false))
            then (Ok None, s)
            else
              match confirmed s with
              | None => (Ok None, s)
              | Some screen =>
                  if negb (rows_fit rows (len (cs_rows screen)) (Fields.cols (cs_size screen))) then (Err OutsideGrid, s)
                  else settle (write_piece s screen (hd_coverage hd) index rows)
              end
        end
    end.

(** ** Rows on their way to a target *)

(** Every span of [todo] still leads its row to [T]; every other row is there. *)
Record pend (T rows : list RowFrame) (todo : list RowSpan) : Prop := {
  pe_length : length rows = length T;
  pe_distinct : NoDup (sp_row <$> todo);
  pe_todo : Forall (λ sp, 0 ≤ sp_row sp < len T ∧ splice_into (rows !!! Z.to_nat (sp_row sp)) sp = Some (T !!! Z.to_nat (sp_row sp))) todo;
  pe_done : ∀ i, 0 ≤ i < len T → i ∉ sp_row <$> todo → rows !!! Z.to_nat i = T !!! Z.to_nat i
}.

Lemma pend_perm T rows todo todo' : todo ≡ₚ todo' → pend T rows todo → pend T rows todo'.
Proof.
  intros Hp [H1 H2 H3 H4]. split; [done|by rewrite <- Hp|by rewrite <- Hp|]. intros i Hi Hn. apply H4; [done|]. by rewrite Hp.
Qed.

Lemma pend_all T rows : pend T rows [] → rows = T.
Proof.
  intros [H1 _ _ H4]. apply list_eq_same_length with (length T); [done|done|]. intros i x y Hi Hx Hy.
  specialize (H4 (Z.of_nat i) ltac:(lia) ltac:(simpl; set_solver)). rewrite Nat2Z.id in H4.
  by rewrite (list_lookup_total_correct _ _ _ Hx), (list_lookup_total_correct _ _ _ Hy) in H4.
Qed.

(** What painting spans does to the marks of a whole screen. *)
Definition cover_all (coverage : Coverage) (cov : list bool) (l : list RowSpan) : list bool :=
  foldl (λ cov sp, cover coverage cov (Z.to_nat (sp_row sp))) cov l.

Lemma write_pend coverage T rows cov l rest_ : pend T rows (l ++ rest_) →
  let '(rows', cov') := write_part_rows coverage rows cov l in pend T rows' rest_ ∧ cov' = cover_all coverage cov l.
Proof.
  revert rows cov. induction l as [|sp l IH]; intros rows cov Hp; [done|]. pose proof Hp as [H1 H2 H3 H4]. cbn [app] in *. rewrite fmap_cons in H2, H4.
  apply NoDup_cons in H2 as [Hnew H2]. apply list.Forall_cons in H3 as [[Hr Hs] H3]. unfold write_part_rows. cbn [foldl]. unfold write_part_row at 2.
  destruct (lookup_lt_is_Some_2 rows (Z.to_nat (sp_row sp))) as [cur Hcur]; [lia|]. rewrite Hcur. rewrite (list_lookup_total_correct _ _ _ Hcur) in Hs. rewrite Hs.
  apply IH. split; [by rewrite length_insert|done| |].
  - rewrite Forall_forall in *. intros q Hq. destruct (H3 q Hq) as [Hqr Hqs]. split; [done|]. rewrite list_lookup_total_insert_ne; [done|].
    intros E. apply Hnew. apply list_elem_of_fmap. exists q. split; [lia|done].
  - intros i Hi Hn. destruct (Z.eq_dec i (sp_row sp)) as [->|Hne]; [by rewrite list_lookup_total_insert_eq by lia|].
    rewrite list_lookup_total_insert_ne by lia. apply H4; [done|]. by rewrite not_elem_of_cons.
Qed.

(** Whatever is painted, the rows stay rows and those not named stay as they were. *)
Lemma write_held coverage cols rows cov l : Forall (held cols) rows → Forall (span_shape cols) l →
  let rows' := (write_part_rows coverage rows cov l).1 in
  Forall (held cols) rows' ∧ length rows' = length rows ∧
  ∀ i, 0 ≤ i → i ∉ sp_row <$> l → Forall (λ sp, 0 ≤ sp_row sp) l → rows' !!! Z.to_nat i = rows !!! Z.to_nat i.
Proof.
  intros Hr Hl. revert rows cov Hr. induction Hl as [|sp l Hsp Hl IH]; intros rows cov Hr; [done|]. unfold write_part_rows. cbn [foldl].
  assert (∃ rows1 cov1, write_part_row coverage (rows, cov) sp = (rows1, cov1) ∧ Forall (held cols) rows1 ∧ length rows1 = length rows ∧
    ∀ i, 0 ≤ i → i ≠ sp_row sp → 0 ≤ sp_row sp → rows1 !!! Z.to_nat i = rows !!! Z.to_nat i) as (rows1 & cov1 & -> & Hh & Hlen & Hsame).
  { unfold write_part_row. destruct (rows !! Z.to_nat (sp_row sp)) as [cur|] eqn:Ec; [|by exists rows, cov].
    destruct (splice_into cur sp) as [r|] eqn:Es; [|by exists rows, cov]. eexists _, _. split; [done|]. split; [|split; [by rewrite length_insert|]].
    - apply Forall_insert; [done|]. eapply splice_held; [|exact Hsp|exact Es]. by eapply Forall_lookup_1 in Hr.
    - intros i Hi Hne Hp. rewrite list_lookup_total_insert_ne; [done|lia]. }
  destruct (IH rows1 cov1 Hh) as (I1 & I2 & I3). unfold write_part_rows in *. cbv zeta. split; [done|]. split; [lia|].
  intros i Hi Hn Hpos. rewrite fmap_cons, not_elem_of_cons in Hn. apply list.Forall_cons in Hpos as [Hp0 Hpos]. destruct Hn. rewrite I3 by done. by apply Hsame.
Qed.

(** ** Chunks held back *)

Definition plain (l : list RowSpan) : list RowSpan := filter (λ sp, sp_chunk sp = false) l.
Definition cut_ (l : list RowSpan) : list RowSpan := filter (λ sp, sp_chunk sp = true) l.
Definition text_bytes (l : list RowSpan) : Z := sum_by (λ span, len (text (sp_frame span))) l.

Lemma text_bytes_nonneg l : 0 ≤ text_bytes l.
Proof. apply sum_by_nonneg, Forall_forall. lia. Qed.

Lemma hold_chunks_spec rows cs : text_bytes cs + text_bytes (cut_ rows) ≤ HELD_CHUNK_BYTES → hold_chunks rows cs = (plain rows, cs ++ cut_ rows).
Proof.
  intros Hb. unfold hold_chunks. destruct (forallb _ rows) eqn:E.
  - clear Hb. assert (plain rows = rows ∧ cut_ rows = []) as [-> ->]; [|by rewrite app_nil_r]. unfold plain, cut_.
    induction rows as [|r rows IH]; [done|]. cbn [forallb] in E. apply andb_prop in E as [E1 E2]. apply negb_true_iff in E1. destruct (IH E2) as [H1 H2].
    rewrite !filter_cons, E1, H1, H2. done.
  - clear E. fold (text_bytes cs). assert (∀ h, h + text_bytes (cut_ rows) ≤ HELD_CHUNK_BYTES → hold_loop rows h cs = (plain rows, cs ++ cut_ rows)) as H; [|by apply H].
    clear Hb. revert cs. induction rows as [|r rows IH]; intros cs h Hb; cbn [hold_loop]; [by rewrite app_nil_r|]. unfold plain, cut_ in *. rewrite !filter_cons in *.
    destruct (sp_chunk r) eqn:Ec; cbn [negb] in *.
    + rewrite (decide_True (P := true = true)) in * by done. rewrite (decide_False (P := true = false)) by done.
      unfold text_bytes in Hb. cbn [sum_by foldr] in Hb. fold (text_bytes (filter (λ sp, sp_chunk sp = true) rows)) in Hb.
      pose proof (text_bytes_nonneg (filter (λ sp, sp_chunk sp = true) rows)). rewrite (proj2 (Z.ltb_ge _ _)) by (unfold text_bytes, sum_by in *; lia).
      rewrite IH by (unfold text_bytes, sum_by in *; lia). by rewrite <- app_assoc.
    + rewrite (decide_False (P := false = true)) in * by done. rewrite (decide_True (P := false = false)) by done. by rewrite IH.
Qed.

(** ** Which pieces are in *)

(** Spans of the pieces not yet in that are not chunks, and the chunks of the pieces that are in. *)
Definition missing (parts : list (list RowSpan)) (flags : list bool) : list RowSpan :=
  concat (zip_with (λ rows (flag : bool), if flag then [] else plain rows) parts flags).
Definition gathered (parts : list (list RowSpan)) (flags : list bool) : list RowSpan :=
  concat (zip_with (λ rows (flag : bool), if flag then cut_ rows else []) parts flags).

Lemma piece_in parts flags i rows : parts !! i = Some rows → flags !! i = Some false →
  missing parts flags ≡ₚ plain rows ++ missing parts (<[i := true]> flags) ∧
  gathered parts (<[i := true]> flags) ≡ₚ gathered parts flags ++ cut_ rows.
Proof.
  unfold missing, gathered. revert flags i. induction parts as [|p parts IH]; intros flags i Hp Hf; [done|]. destruct flags as [|f flags]; [done|].
  destruct i as [|i]; cbn in Hp, Hf.
  - injection Hp as ->. injection Hf as ->. cbn. split; [done|]. by rewrite Permutation_app_comm.
  - destruct (IH flags i Hp Hf) as [H1 H2]. cbn. split.
    + rewrite H1, !app_assoc. apply Permutation_app_tail, Permutation_app_comm.
    + by rewrite H2, app_assoc.
Qed.

Lemma all_in parts flags : length flags = length parts → forallb id flags = true →
  missing parts flags = [] ∧ gathered parts flags = cut_ (concat parts).
Proof.
  unfold missing, gathered. revert flags. induction parts as [|p parts IH]; intros [|f flags] Hl Hf; try done. cbn [forallb] in Hf. apply andb_prop in Hf as [E Hf].
  unfold id in E. subst f. injection Hl as Hl. destruct (IH flags Hl Hf) as [H1 H2]. cbn. split; [done|]. rewrite H2. unfold cut_. by rewrite filter_app.
Qed.

Lemma none_in parts : missing parts (replicate (length parts) false) = plain (concat parts) ∧ gathered parts (replicate (length parts) false) = [].
Proof.
  unfold missing, gathered. induction parts as [|p parts [H1 H2]]; [done|]. cbn. rewrite H1, H2. unfold plain. by rewrite filter_app.
Qed.

End Assembly.
