(* ===== verification/Converge.v ===== *)
(** * Assembled screens are the screens that were sent

    What a server promises of the screens it has sent ([history_ok], the interface between
    [Ledger] and [Assembly]), and the invariant of a client that receives their pieces in any
    order, each at most once, with any lost ([client_ok]).

    A screen is [spoiled] once a later one of its generation was sent against an older base: the
    server had moved on without the client's acknowledgement, and will not take it any more.  A
    client's copy of every other screen it assembles is exact ([part_ok]). *)

From S2P Require Import Prelude Codec Fields Message Text Screen Modes Rows Pieces Mask Splice Assembly.

Module Converge.
Import Codec Text Screen Rows Pieces Splice Assembly.

(** ** What was sent *)

(** A screen as its pieces say it: [st_spans] is one span a row, joined where it was cut, and
    [st_target] the rows it describes. *)
Record sent := mkSent {
  st_name : Z * Z; st_size : Fields.GridSize; st_base : option Z; st_scroll : option ScrollBand;
  st_parts : list ScreenPart; st_spans : list RowSpan; st_target : list RowFrame
}.
Definition rows_of (S : sent) : list (list RowSpan) := part_rows <$> st_parts S.
Definition flat (S : sent) : list RowSpan := concat (rows_of S).
Definition joined (S : sent) : list RowSpan := join_spans (cut_ (flat S)).
Definition coverage_of (S : sent) : Coverage := match st_base S with Some _ => CDelta | None => CWhole end.
Definition touches (S : sent) (i : Z) : Prop := i ∈ sp_row <$> st_spans S ∨ in_band (st_scroll S) i = true.

Record sent_ok (S : sent) : Prop := {
  so_grid : Fields.is_grid (st_size S);
  so_target : len (st_target S) = Fields.rows (st_size S);
  so_head : ∃ h rows, st_parts S !! O = Some (Head h (st_base S) (st_scroll S) (len (st_parts S)) rows) ∧
    (h_generation h, h_version h) = st_name S ∧ h_size h = st_size S;
  so_tail : ∀ i p, st_parts S !! i = Some p → i ≠ O →
    p = Tail (st_name S).1 (st_name S).2 (len (st_parts S)) (Z.of_nat i) (part_rows p);
  so_spans : plain (flat S) ++ joined S ≡ₚ st_spans S;
  so_join : ∀ l, l ≡ₚ cut_ (flat S) → join_spans l = joined S;
  so_bytes : text_bytes (cut_ (flat S)) ≤ HELD_CHUNK_BYTES;
  so_fit : rows_fit (flat S) (Fields.rows (st_size S)) (Fields.cols (st_size S)) = true;
  so_joined : Forall (λ sp, joined_fits (Fields.rows (st_size S)) (Fields.cols (st_size S)) sp = true) (joined S);
  so_shape : Forall (span_shape (Fields.cols (st_size S))) (st_spans S);
  so_rows : Forall (λ sp, 0 ≤ sp_row sp < Fields.rows (st_size S)) (st_spans S);
  so_band : ∀ b, st_scroll S = Some b → is_applicable b (Fields.rows (st_size S)) = true ∧ 0 ≤ top b;
  so_whole : st_base S = None → st_scroll S = None ∧ (∀ i, 0 ≤ i < Fields.rows (st_size S) → i ∈ sp_row <$> st_spans S) ∧
    ∀ C, length C = length (st_target S) → Forall (held (Fields.cols (st_size S))) C → pend (st_target S) C (st_spans S)
}.

(** ** Painting one screen *)

Section painting.
Context (S : sent) (HS : sent_ok S) (good : Prop).

Definition todo (flags : list bool) : list RowSpan := missing (rows_of S) flags ++ joined S.

Record painting (flags : list bool) (rows : list RowFrame) (cov : list bool) (cs : list RowSpan) : Prop := {
  pa_flags : length flags = length (st_parts S);
  pa_rows : len rows = Fields.rows (st_size S);
  pa_held : Forall (held (Fields.cols (st_size S))) rows;
  pa_chunks : cs ≡ₚ gathered (rows_of S) flags;
  pa_pend : good → pend (st_target S) rows (todo flags);
  pa_cover : good → st_base S = None → len cov = Fields.rows (st_size S) ∧
    ∀ i, 0 ≤ i < Fields.rows (st_size S) → i ∉ sp_row <$> todo flags → cov !! Z.to_nat i = Some true
}.

Lemma gathered_bytes parts flags : text_bytes (gathered parts flags) ≤ text_bytes (cut_ (concat parts)).
Proof.
  unfold gathered, text_bytes, cut_. revert flags. induction parts as [|p parts IH]; intros flags; [done|]. cbn [concat]. rewrite filter_app, sum_by_app.
  pose proof (text_bytes_nonneg (cut_ p)) as H1. pose proof (text_bytes_nonneg (cut_ (concat parts))) as H2. unfold text_bytes, cut_ in H1, H2.
  destruct flags as [|f flags]; cbn [zip_with concat]; [simpl; lia|]. rewrite sum_by_app. specialize (IH flags). destruct f; [unfold cut_; lia|simpl; lia].
Qed.

Lemma piece_spans i pr : rows_of S !! i = Some pr → Forall (λ sp, sp ∈ st_spans S) (plain pr).
Proof.
  intros H. apply Forall_forall. intros sp Hsp. rewrite <- (so_spans S HS), elem_of_app. left. unfold plain, flat in *. rewrite list_elem_of_filter in *.
  destruct Hsp as [H1 H2]. split; [done|]. apply list_elem_of_In, in_concat. exists pr. split; apply list_elem_of_In; [by eapply list_elem_of_lookup_2|done].
Qed.

Lemma joined_spans : Forall (λ sp, sp ∈ st_spans S) (joined S).
Proof. apply Forall_forall. intros sp Hsp. rewrite <- (so_spans S HS), elem_of_app. by right. Qed.

Lemma spans_sub l : Forall (λ sp, sp ∈ st_spans S) l → Forall (span_shape (Fields.cols (st_size S))) l ∧ Forall (λ sp, 0 ≤ sp_row sp < Fields.rows (st_size S)) l.
Proof.
  rewrite Forall_forall. intros H. split; apply Forall_forall; intros sp Hsp; [apply (proj1 (Forall_forall _ _) (so_shape S HS))|apply (proj1 (Forall_forall _ _) (so_rows S HS))]; auto.
Qed.

Lemma untouched l i : Forall (λ sp, sp ∈ st_spans S) l → ¬ touches S i → i ∉ sp_row <$> l.
Proof.
  intros Hl Hi Hn. apply Hi. left. apply list_elem_of_fmap in Hn as (sp & -> & Hsp). rewrite Forall_forall in Hl. apply list_elem_of_fmap. exists sp. auto.
Qed.

(** The marks of a whole screen, once spans were painted. *)
Lemma cover_spec cov l : Forall (λ sp, 0 ≤ sp_row sp < len cov) l →
  len (cover_all CWhole cov l) = len cov ∧
  ∀ i, 0 ≤ i → cov !! Z.to_nat i = Some true ∨ i ∈ sp_row <$> l → cover_all CWhole cov l !! Z.to_nat i = Some true.
Proof.
  unfold cover_all. revert cov. induction l as [|sp l IH]; intros cov Hl; cbn [foldl].
  { split; [done|]. intros i _ [?|H]; [done|]. by apply elem_of_nil in H. }
  apply list.Forall_cons in Hl as [Hsp Hl]. cbn [cover]. destruct (IH (<[Z.to_nat (sp_row sp) := true]> cov)) as [I1 I2].
  { rewrite length_insert. done. }
  rewrite length_insert in I1. split; [done|]. intros i Hi H. apply I2; [done|]. rewrite fmap_cons, elem_of_cons in H.
  destruct (Z.eq_dec i (sp_row sp)) as [->|Hne]; [left; apply list_lookup_insert_eq; lia|]. rewrite list_lookup_insert_ne by lia.
  destruct H as [?|[?|?]]; [by left|done|by right].
Qed.

(** Spans that were still to be painted are painted. *)
Lemma paint_spans t t' rows cov l : len rows = Fields.rows (st_size S) → Forall (held (Fields.cols (st_size S))) rows →
  Forall (λ sp, sp ∈ st_spans S) l → t ≡ₚ l ++ t' →
  (good → pend (st_target S) rows t) →
  (good → st_base S = None → len cov = Fields.rows (st_size S) ∧
     ∀ i, 0 ≤ i < Fields.rows (st_size S) → i ∉ sp_row <$> t → cov !! Z.to_nat i = Some true) →
  let '(rows', cov') := write_part_rows (coverage_of S) rows cov l in
  len rows' = Fields.rows (st_size S) ∧ Forall (held (Fields.cols (st_size S))) rows' ∧
  (∀ i, 0 ≤ i → ¬ touches S i → rows' !!! Z.to_nat i = rows !!! Z.to_nat i) ∧
  (good → pend (st_target S) rows' t') ∧
  (good → st_base S = None → len cov' = Fields.rows (st_size S) ∧
     ∀ i, 0 ≤ i < Fields.rows (st_size S) → i ∉ sp_row <$> t' → cov' !! Z.to_nat i = Some true).
Proof.
  intros Hlen Hheld Hl Ht Hp Hc. destruct (spans_sub l Hl) as [Hshape Hrange].
  destruct (write_held (coverage_of S) _ rows cov l Hheld Hshape) as (W1 & W2 & W3).
  destruct (write_part_rows (coverage_of S) rows cov l) as [rows' cov'] eqn:E. cbn [fst] in *. split; [lia|]. split; [done|]. split.
  { intros i Hi Hn. apply W3; [done|by apply untouched|]. eapply list.Forall_impl; [exact Hrange|]. simpl. lia. }
  assert (good → pend (st_target S) rows' t' ∧ cov' = cover_all (coverage_of S) cov l) as Hg.
  { intros G. specialize (Hp G). pose proof (write_pend (coverage_of S) (st_target S) rows cov l t' (pend_perm _ _ _ _ Ht Hp)) as Hw. by rewrite E in Hw. }
  split; [intros G; by apply Hg|]. intros G Hb. destruct (Hg G) as [_ ->]. destruct (Hc G Hb) as [C1 C2]. unfold coverage_of. rewrite Hb.
  destruct (cover_spec cov l) as [K1 K2]; [by rewrite C1|]. split; [lia|]. intros i Hi Hn. apply K2; [lia|].
  destruct (decide (i ∈ sp_row <$> l)); [by right|left]. apply C2; [done|]. rewrite Ht, fmap_app, elem_of_app. tauto.
Qed.

(** A piece that was not in yet. *)
Lemma paint_piece flags rows cov cs i pr : painting flags rows cov cs → rows_of S !! i = Some pr → flags !! i = Some false →
  let '(whole_, cs') := hold_chunks pr cs in
  let '(rows', cov') := write_part_rows (coverage_of S) rows cov whole_ in
  painting (<[i := true]> flags) rows' cov' cs' ∧ ∀ j, 0 ≤ j → ¬ touches S j → rows' !!! Z.to_nat j = rows !!! Z.to_nat j.
Proof.
  intros [P1 P2 P3 P4 P5 P6] Hpr Hf. destruct (piece_in (rows_of S) flags i pr Hpr Hf) as [M1 M2]. rewrite hold_chunks_spec.
  2:{ pose proof (gathered_bytes (rows_of S) (<[i := true]> flags)) as Hb. pose proof (so_bytes S HS). unfold text_bytes, flat in *. rewrite (sum_by_perm _ _ _ M2), sum_by_app in Hb.
      rewrite (sum_by_perm _ _ _ P4). lia. }
  pose proof (paint_spans (todo flags) (todo (<[i := true]> flags)) rows cov (plain pr) P2 P3 (piece_spans i pr Hpr)) as Hs.
  assert (todo flags ≡ₚ plain pr ++ todo (<[i := true]> flags)) as Ht by (unfold todo; by rewrite M1, app_assoc).
  specialize (Hs Ht P5 P6). destruct (write_part_rows _ _ _ _) as [rows' cov']. destruct Hs as (S1 & S2 & S3 & S4 & S5). split; [|done].
  split; try done; [by rewrite length_insert|]. by rewrite M2, P4.
Qed.

Lemma filter_all {A} (f : A → bool) l : Forall (λ x, f x = true) l → filter (λ x, f x = true) l = l.
Proof. induction 1 as [|x l Hx Hl IH]; [done|]. rewrite filter_cons, decide_True by done. by f_equal. Qed.

(** Every piece is in, and the chunks are joined. *)
Lemma paint_joined flags rows cov cs : painting flags rows cov cs → forallb id flags = true →
  let '(rows', cov') := write_joined_rows (coverage_of S) (Fields.cols (st_size S)) rows cov cs in
  len rows' = Fields.rows (st_size S) ∧ Forall (held (Fields.cols (st_size S))) rows' ∧
  (∀ j, 0 ≤ j → ¬ touches S j → rows' !!! Z.to_nat j = rows !!! Z.to_nat j) ∧
  (good → rows' = st_target S) ∧ (good → st_base S = None → forallb id cov' = true).
Proof.
  intros [P1 P2 P3 P4 P5 P6] Hall. destruct (all_in (rows_of S) flags) as [A1 A2]; [unfold rows_of; by rewrite length_fmap|done|].
  unfold write_joined_rows. rewrite (so_join S HS cs) by (rewrite P4, A2; done). rewrite P2, filter_all by apply (so_joined S HS).
  pose proof (paint_spans (todo flags) [] rows cov (joined S) P2 P3 joined_spans) as Hs. unfold todo in *. rewrite A1, app_nil_r in *. cbn [app] in *.
  specialize (Hs ltac:(done) P5 P6). destruct (write_part_rows _ _ _ _) as [rows' cov']. destruct Hs as (S1 & S2 & S3 & S4 & S5). split_and!; try done.
  - intros G. by apply pend_all, S4.
  - intros G Hb. destruct (S5 G Hb) as [C1 C2]. apply forallb_forall. intros x Hx. apply list_elem_of_In, list_elem_of_lookup in Hx as [i Hi].
    specialize (C2 (Z.of_nat i) ltac:(apply lookup_lt_Some in Hi; lia) ltac:(simpl; set_solver)). rewrite Nat2Z.id in C2. unfold id. congruence.
Qed.

End painting.

(** ** Histories *)

(** A later screen of the generation was sent against an older base. *)
Definition spoiled (H : list sent) (n : Z * Z) : Prop :=
  ∃ S b, S ∈ H ∧ st_base S = Some b ∧ (st_name S).1 = n.1 ∧ b < n.2 < (st_name S).2.
Definition good (H : list sent) (S : sent) : Prop := st_base S = None ∨ ¬ spoiled H (st_name S).

(** What a server promises of what it sent: every delta, applied to its base with any rows that
    earlier deltas on that base touched, gives its target; and a base is never spoiled. *)
Class History (H : list sent) : Prop := {
  hi_sent : Forall sent_ok H;
  hi_names : NoDup (st_name <$> H);
  hi_base : ∀ S b, S ∈ H → st_base S = Some b → ∃ B, B ∈ H ∧ st_name B = ((st_name S).1, b) ∧ st_size B = st_size S ∧
    b < (st_name S).2 ∧ ¬ spoiled H (st_name B) ∧
    ∀ C, length C = length (st_target S) → Forall (held (Fields.cols (st_size S))) C →
      (∀ i, 0 ≤ i < len C → C !!! Z.to_nat i = st_target B !!! Z.to_nat i ∨
         ∃ S', S' ∈ H ∧ (st_name S').1 = (st_name S).1 ∧ st_base S' = Some b ∧ (st_name S').2 < (st_name S).2 ∧ touches S' i) →
      pend (st_target S) (scrolled (st_scroll S) C) (st_spans S)
}.

#[export] Instance touches_dec S i : Decision (touches S i).
Proof. unfold touches. apply _. Defined.

Section client.
Context (H : list sent) `{!History H}.

Lemma sent_of S : S ∈ H → sent_ok S.
Proof. intros HS. by apply (proj1 (Forall_forall _ _) (hi_sent (H := H))). Qed.

Lemma same_sent S S' : S ∈ H → S' ∈ H → st_name S = st_name S' → S = S'.
Proof.
  intros H1 H2 E. apply list_elem_of_lookup in H1 as [i Hi], H2 as [j Hj].
  assert (i = j) as ->; [|congruence]. eapply (NoDup_lookup (st_name <$> H)); [apply hi_names|by rewrite list_lookup_fmap, Hi|by rewrite list_lookup_fmap, Hj; simpl; rewrite E].
Qed.

(** Rows that a screen on base [n] touched, of those whose head was delivered. *)
Definition touched (D : list (Z * Z)) (n : Z * Z) (i : Z) : Prop :=
  ∃ S, S ∈ H ∧ st_name S ∈ D ∧ (st_name S).1 = n.1 ∧ st_base S = Some n.2 ∧ touches S i.

(** The client's screen: a version it holds is that screen, but for rows of deltas on it. *)
Record screen_ok (D : list (Z * Z)) (c : ConfirmedScreen) : Prop := {
  sk_grid : Fields.is_grid (cs_size c);
  sk_rows : len (cs_rows c) = Fields.rows (cs_size c);
  sk_held : Forall (held (Fields.cols (cs_size c))) (cs_rows c);
  sk_version : ∀ v, cs_version c = Some v → ∃ B, B ∈ H ∧ st_name B = (cs_generation c, v) ∧ st_size B = cs_size c ∧
    (good H B → ∀ i, 0 ≤ i < len (cs_rows c) →
       cs_rows c !!! Z.to_nat i = st_target B !!! Z.to_nat i ∨ touched D (st_name B) i)
}.

Record assembling (D : list (Z * Z)) (s : Screen_) (hd : Head_) (c : ConfirmedScreen) (S : sent) : Prop := {
  am_in : S ∈ H;
  am_seen : st_name S ∈ D;
  am_confirmed : confirmed s = Some c;
  am_trusted : trusted s = true;
  am_generation : cs_generation c = (st_name S).1;
  am_size : cs_size c = st_size S;
  am_version : cs_version c = st_base S;
  am_coverage : hd_coverage hd = coverage_of S;
  am_painting : painting S (good H S) (applied (painter s)) (cs_rows c) (covered (painter s)) (chunks (painter s))
}.

Definition client_ok (D : list (Z * Z)) (s : Screen_) : Prop :=
  (∀ c, trusted s = true → confirmed s = Some c → screen_ok D c) ∧
  match pending s with
  | None => held_tails (painter s) = [] ∧ chunks (painter s) = []
  | Some a =>
      match a_head a with
      | None => chunks (painter s) = [] ∧
          Forall (λ t, ∃ S, S ∈ H ∧ st_name S = a_named a ∧ rows_of S !! Z.to_nat t.1 = Some t.2) (held_tails (painter s))
      | Some hd => held_tails (painter s) = [] ∧ ∃ c S, st_name S = a_named a ∧ assembling D s hd c S
      end
  end.

Ltac unset := cbn [assign confirmed pending trusted shown painter applied covered held_tails chunks a_named a_head a_predicted
  cs_generation cs_version cs_size cs_cursor cs_visible cs_shape cs_blinking cs_modes cs_sticky cs_rows].

Lemma touched_more D D' n i : D ⊆ D' → touched D n i → touched D' n i.
Proof. intros Hs (S & ? & ? & ?). exists S. auto. Qed.

Lemma screen_more D D' c : D ⊆ D' → screen_ok D c → screen_ok D' c.
Proof.
  intros Hs [S1 S2 S3 S4]. split; try done. intros v Hv. destruct (S4 v Hv) as (B & ? & ? & ? & Hb). exists B. split_and!; try done.
  intros G i Hi. destruct (Hb G i Hi); [by left|right]. by eapply touched_more.
Qed.

(** Rows patched by a delta on the version that is held. *)
Lemma screen_patched D c rows S : screen_ok D c → S ∈ H → st_name S ∈ D → cs_generation c = (st_name S).1 → cs_version c = st_base S →
  len rows = Fields.rows (cs_size c) → Forall (held (Fields.cols (cs_size c))) rows →
  (∀ i, 0 ≤ i → ¬ touches S i → rows !!! Z.to_nat i = cs_rows c !!! Z.to_nat i) → screen_ok D (c <| cs_rows := rows |>).
Proof.
  intros [S1 S2 S3 S4] HS HD Hg Hv Hl Hh Hr. split; unset; try done. intros v Ev. destruct (S4 v Ev) as (B & B1 & B2 & B3 & B4). exists B. split_and!; try done.
  intros G i Hi. destruct (decide (touches S i)) as [Ht|Ht].
  - right. exists S. rewrite B2. cbn [fst snd]. split_and!; try done; congruence.
  - rewrite Hr by (done || lia). apply B4; [done|lia].
Qed.

(** What an acknowledgement says: the version is held, and a screen the server still wants is exact. *)
Definition acknowledged (S : sent) (x : Assembled) (s : Screen_) : Prop :=
  (as_generation x, as_version x) = st_name S ∧
  ∃ c, confirmed s = Some c ∧ cs_generation c = as_generation x ∧ cs_version c = Some (as_version x) ∧ cs_size c = st_size S ∧
    (good H S → cs_rows c = st_target S).

Lemma settle_ok D s a hd c S : pending s = Some a → a_head a = Some hd → held_tails (painter s) = [] → st_name S = a_named a →
  screen_ok D c → assembling D s hd c S →
  ∃ o, (settle s).1 = Ok o ∧ client_ok D (settle s).2 ∧ (∀ x, o = Some x → acknowledged S x (settle s).2) ∧
    (good H S → a_predicted a = false → forallb id (applied (painter s)) = true → is_Some o).
Proof.
  intros Hp Hh Ht Hn Hc Ha. pose proof Ha as [A1 A2 A3 A0 A4 A5 A6 A7 A8]. unfold settle. rewrite Hp, Hh.
  destruct (forallb id (applied (painter s))) eqn:Hall; cbn [negb fst snd].
  2:{ exists None. split_and!; try done. unfold client_ok. rewrite Hp, Hh, A3. split; [by intros ? _ [= <-]|]. eauto. }
  pose proof (paint_joined S (sent_of S A1) _ _ _ _ _ A8 Hall) as Hj. rewrite <- A7, <- A5 in Hj.
  destruct (write_joined_rows _ _ _ _ _) as [rows' cov'] eqn:Ew. destruct Hj as (J1 & J2 & J3 & J4 & J5).
  assert (∃ s', match chunks (painter s) with
     | [] => Some s
     | _ => match confirmed s with
         | None => None
         | Some screen => let '(painted_, cov) := write_joined_rows (hd_coverage hd) (Fields.cols (cs_size screen)) (cs_rows screen) (covered (painter s)) (chunks (painter s)) in
             Some (s <| confirmed := Some (screen <| cs_rows := painted_ |>) |> <| painter := (painter s) <| covered := cov |> <| chunks := [] |> |>)
         end end = Some s' ∧ confirmed s' = Some (c <| cs_rows := rows' |>) ∧ covered (painter s') = cov') as (s' & Ej & C1 & C2).
  { destruct (chunks (painter s)) as [|k ks] eqn:Ek.
    - cbn in Ew. injection Ew as <- <-. exists s. split_and!; try done. rewrite A3. by destruct c.
    - rewrite A3, Ew. eexists. split; [done|]. by unset. }
  destruct (chunks (painter s)) as [|k ks] eqn:Ek; [injection Ej as <-|rewrite Ej; clear Ej]; rewrite C2.
  all: replace (bool_decide (hd_coverage hd = CWhole) && negb (forallb id cov')) with false
    by (rewrite A7; unfold coverage_of in *; destruct (st_base S) eqn:Eb; [done|]; rewrite bool_decide_true by done; rewrite J5; [done|by left|done]).
  all: unfold abandon; unset; rewrite C1.
  all: assert (screen_ok D (c <| cs_rows := rows' |>)) as Hpt by (eapply screen_patched; eauto; congruence).
  all: destruct (a_predicted a) eqn:Ep; cbn [fst snd]; [exists None; split_and!; try done; unfold client_ok; unset; rewrite C1; split; [by intros ? _ [= <-]|done]|].
  all: eexists; split; [done|]; split; [|split; [|eauto]].
  all: try (intros x [= <-]; unset; rewrite <- Hn; split; [by destruct (st_name S)|]; eexists; split; [done|]; unset; split_and!; try done; congruence).
  all: unfold client_ok; unset; split; [|done]; intros ? _ [= <-]; destruct Hpt as [P1 P2 P3 P4]; split; unset; try done.
  all: intros v [= <-]; exists S; split_and!; try done; [rewrite <- Hn, A4; by destruct (st_name S)|]; intros G i Hi; left; by rewrite J4.
Qed.

(** ** One piece *)

Lemma piece_fits S i pr : sent_ok S → rows_of S !! i = Some pr → rows_fit pr (Fields.rows (st_size S)) (Fields.cols (st_size S)) = true.
Proof.
  intros HS Hi. pose proof (so_fit S HS) as Hf. unfold rows_fit, flat in *. rewrite forallb_forall in *. intros sp Hsp. apply Hf, in_concat.
  exists pr. split; [by eapply list_elem_of_In, list_elem_of_lookup_2|done].
Qed.

Lemma write_piece_ok D s hd c S i pr : screen_ok D c → assembling D s hd c S → rows_of S !! Z.to_nat i = Some pr →
  applied (painter s) !! Z.to_nat i = Some false →
  let s' := write_piece s c (hd_coverage hd) i pr in
  pending s' = pending s ∧ held_tails (painter s') = held_tails (painter s) ∧
  applied (painter s') = <[Z.to_nat i := true]> (applied (painter s)) ∧ ∃ c', screen_ok D c' ∧ assembling D s' hd c' S.
Proof.
  intros Hc [A1 A2 A3 A0 A4 A5 A6 A7 A8] Hr Hf. pose proof (paint_piece S (sent_of S A1) _ _ _ _ _ _ _ A8 Hr Hf) as Hp. unfold write_piece. rewrite A7.
  destruct (hold_chunks pr _) as [whole_ cs]. destruct (write_part_rows _ _ _ _) as [rows' cov']. destruct Hp as [P1 P2]. cbv zeta. unset.
  split_and!; try done. exists (c <| cs_rows := rows' |>). split.
  - eapply screen_patched; eauto; rewrite A5; apply P1.
  - split; unset; done.
Qed.

Definition of_piece (S : sent) (t : Z * list RowSpan) : Prop := rows_of S !! Z.to_nat t.1 = Some t.2.

Lemma absorb_ok D s hd c S orphans : screen_ok D c → assembling D s hd c S → Forall (of_piece S) orphans →
  ∃ s' c', absorb_loop s (hd_coverage hd) orphans = (Ok (), s') ∧ screen_ok D c' ∧ assembling D s' hd c' S ∧
    pending s' = pending s ∧ held_tails (painter s') = held_tails (painter s).
Proof.
  intros Hc Ha Ho. revert s c Hc Ha. induction Ho as [|[i pr] orphans Hi Ho IH]; intros s c Hc Ha; cbn [absorb_loop]; [by exists s, c|].
  pose proof Ha as [A1 A2 A3 A0 A4 A5 A6 A7 A8]. rewrite A3. case_bool_decide as Hf; cbn [negb]; [|by apply IH with c].
  rewrite (pa_rows _ _ _ _ _ _ A8), A5, (piece_fits S _ pr) by (done || by apply sent_of). cbn [negb].
  destruct (write_piece_ok D s hd c S i pr Hc Ha Hi Hf) as (W1 & W2 & W3 & c' & W4 & W5).
  destruct (IH _ c' W4 W5) as (s' & c'' & I1 & I2 & I3 & I4 & I5). exists s', c''. split_and!; try done; congruence.
Qed.

(** ** A head *)

Lemma scrolled_ok S rows : sent_ok S → len rows = Fields.rows (st_size S) → Forall (held (Fields.cols (st_size S))) rows →
  let rows' := scrolled (st_scroll S) rows in
  len rows' = Fields.rows (st_size S) ∧ Forall (held (Fields.cols (st_size S))) rows' ∧
  ∀ i, 0 ≤ i → ¬ touches S i → rows' !!! Z.to_nat i = rows !!! Z.to_nat i.
Proof.
  intros HS Hl Hh. unfold touches, scrolled, in_band. destruct (st_scroll S) as [b|] eqn:Eb; [|done].
  destruct (so_band S HS b Eb) as [B1 B2]. rewrite <- Hl in B1. cbv zeta. rewrite scroll_length. split; [done|].
  pose proof (so_grid S HS) as [Hcols _]. split.
  - apply (proj2 (Forall_lookup_total (held (Fields.cols (st_size S))) _)). intros i Hi. rewrite scroll_length in Hi. pose proof (scroll_lookup b rows (Z.of_nat i) B1 B2 ltac:(lia)) as E.
    rewrite Nat2Z.id in E. rewrite E. unfold is_applicable in B1. zbool.
    repeat case_match; zbool; try (apply held_default; lia); apply (proj1 (Forall_lookup_total (held (Fields.cols (st_size S))) _) Hh); lia.
  - intros i Hi Hn. destruct (decide (i < len rows)) as [Hlt|Hge].
    + rewrite scroll_lookup by (done || lia). unfold is_applicable in B1. zbool.
      destruct (Z.leb_spec (top b) i), (Z.ltb_spec i (bottom b - lines b)), (Z.ltb_spec i (bottom b)); cbn [andb] in *; try done; try lia; exfalso; apply Hn; by right.
    + by rewrite !list_lookup_total_alt, !lookup_ge_None_2 by (rewrite ?scroll_length; lia).
Qed.

(** The screen a head starts from. *)
Record opened (D : list (Z * Z)) (S : sent) (c : ConfirmedScreen) : Prop := {
  op_generation : cs_generation c = (st_name S).1;
  op_size : cs_size c = st_size S;
  op_version : cs_version c = st_base S;
  op_screen : screen_ok D c;
  op_pend : good H S → pend (st_target S) (cs_rows c) (st_spans S)
}.

Lemma opened_delta D c S b : S ∈ H → st_name S ∉ D → screen_ok D c → st_base S = Some b → cs_generation c = (st_name S).1 → cs_size c = st_size S →
  cs_version c = Some b → opened (st_name S :: D) S (c <| cs_rows := scrolled (st_scroll S) (cs_rows c) |>).
Proof.
  intros HS Hnew Hc Hb Hg Hsz Hv. pose proof Hc as [S1 S2 S3 S4]. rewrite Hsz in S2, S3.
  destruct (scrolled_ok S (cs_rows c) (sent_of S HS) S2 S3) as (R1 & R2 & R3). split; unset; try done; [congruence| |].
  { eapply (screen_patched _ _ _ S); [eapply screen_more; [|done]; set_solver|done|set_solver|done|congruence|by rewrite Hsz..|done]. }
  intros G. destruct (hi_base S b HS Hb) as (B & B1 & B2 & B3 & B4 & B5 & B6). destruct (S4 b Hv) as (B' & C1 & C2 & C3 & C4).
  assert (B' = B) as -> by (apply same_sent; [done|done|]; rewrite B2, C2, Hg; done).
  destruct G as [G|G]; [congruence|]. pose proof (so_target S (sent_of S HS)). apply B6; [lia|done|]. intros i Hi.
  destruct (C4 ltac:(by right) i Hi) as [?|(S' & T1 & T2 & T3 & T4 & T5)]; [by left|right]. rewrite B2 in T3, T4. cbn [fst snd] in *.
  exists S'. split_and!; try done. destruct (Z.lt_trichotomy (st_name S').2 (st_name S).2) as [?|[E|E]]; [done| |].
  - exfalso. apply Hnew. replace (st_name S) with (st_name S'); [done|]. apply injective_projections; done.
  - exfalso. apply G. exists S', b. split_and!; done || lia.
Qed.

Lemma opened_whole D s S h previous drawn c : S ∈ H → (∀ c, trusted s = true → previous = Some c → screen_ok D c) → st_base S = None →
  (h_generation h, h_version h) = st_name S → h_size h = st_size S →
  head_whole s h (default [] (rows_of S !! O)) previous drawn = Ok c → opened D S c.
Proof.
  intros HS Hprev Hb Hn Hsz. unfold head_whole. destruct (negb _); [done|]. intros [= <-].
  pose proof (sent_of S HS) as HSo. pose proof (so_grid S HSo) as Hgrid. destruct Hgrid as [G1 G2].
  assert (len (whole_base s h previous drawn) = Fields.rows (st_size S) ∧ Forall (held (Fields.cols (st_size S))) (whole_base s h previous drawn)) as [W1 W2].
  { assert (len (replicate (Z.to_nat (Fields.rows (h_size h))) default_row) = Fields.rows (st_size S) ∧
      Forall (held (Fields.cols (st_size S))) (replicate (Z.to_nat (Fields.rows (h_size h))) default_row)) as Hd.
    { rewrite length_replicate, Hsz. split; [lia|]. apply Forall_replicate, held_default. lia. }
    unfold whole_base. destruct previous as [c|]; [|done]. destruct (_ && _) eqn:E; [|done]. apply andb_prop in E as [E E1]. apply andb_prop in E as [E0 E2].
    assert (trusted s = true) as Et by (destruct (trusted s); done). apply bool_decide_eq_true in E2. clear E0. zbool. destruct (Hprev c Et eq_refl) as [_ _ P3 _]. rewrite E2, Hsz in *. done. }
  split; unset; [by rewrite <- Hn|done|done| |].
  - split; unset; rewrite ?Hsz; done.
  - intros _. destruct (so_whole S HSo Hb) as (_ & _ & Hp). pose proof (so_target S HSo). apply Hp; [lia|done].
Qed.

Lemma painting_open D S c cov : S ∈ H → opened D S c → (st_base S = None → cov = replicate (Z.to_nat (Fields.rows (st_size S))) false) →
  painting S (good H S) (replicate (length (st_parts S)) false) (cs_rows c) cov [].
Proof.
  intros HS [O1 O2 O3 [S1 S2 S3 _] O5] Hcov. destruct (none_in (rows_of S)) as [N1 N2]. assert (length (rows_of S) = length (st_parts S)) as Hl by (unfold rows_of; by rewrite length_fmap). rewrite Hl in N1, N2.
  pose proof (so_spans S (sent_of S HS)) as Hs. assert (todo S (replicate (length (st_parts S)) false) ≡ₚ st_spans S) as Ht by (unfold todo; by rewrite N1).
  rewrite O2 in *. split; [by rewrite length_replicate|done|done|by rewrite N2| |].
  - intros G. eapply pend_perm; [by symmetry|]. by apply O5.
  - intros G Hb. destruct (so_whole S (sent_of S HS) Hb) as (_ & Hall & _). rewrite Hcov, length_replicate by done. pose proof (so_grid S (sent_of S HS)) as [_ ?].
    split; [lia|]. intros i Hi Hn. exfalso. apply Hn. rewrite Ht. by apply Hall.
Qed.

Lemma head_ok D s S h rows tr drawn : S ∈ H → st_name S ∉ D → part_rows <$> st_parts S !! O = Some rows →
  (h_generation h, h_version h) = st_name S → h_size h = st_size S →
  (∀ c, trusted s = true → confirmed s = Some c → screen_ok D c) → chunks (painter s) = [] →
  match head s h (st_base S) (st_scroll S) (len (st_parts S)) rows tr drawn with
  | (Err _, s') => s' = s
  | (Ok hd, s') => pending s' = pending s ∧ held_tails (painter s') = held_tails (painter s) ∧ ∃ c, screen_ok (st_name S :: D) c ∧
      assembling (st_name S :: D) s' hd c S ∧ applied (painter s') = <[O := true]> (replicate (length (st_parts S)) false)
  end.
Proof.
  intros HS Hnew Hrows Hn Hsz Hc Hch. unfold head. set (o := match st_base S with Some _ => _ | None => _ end).
  assert (rows_of S !! O = Some rows) as Hr by (unfold rows_of; by rewrite list_lookup_fmap).
  destruct o as [screen|e] eqn:Eo; [|done]. assert (opened (st_name S :: D) S screen) as Ho.
  { subst o. destruct (st_base S) as [b|] eqn:Eb.
    - destruct (confirmed s) as [c|] eqn:Ec; [|done]. unfold head_on_base, base_fits in Eo. destruct (_ || _) eqn:Ef; [done|]. rewrite !orb_false_iff, !negb_false_iff in Ef.
      destruct Ef as (((F0 & F1) & F2) & F3). apply bool_decide_eq_true in F2, F3. zbool. destruct (_ && _); [done|]. cbn [result_bind] in Eo.
      destruct (negb _); [done|]. assert (screen = c <| cs_rows := scrolled (st_scroll S) (cs_rows c) |>) as ->.
      { destruct (st_scroll S); injection Eo as <-; [done|by destruct c]. }
      apply opened_delta with b; auto; [|congruence]. rewrite <- Hn. cbn. lia.
    - eapply opened_whole; [done|intros c Ht Hp; eapply screen_more; [|by apply Hc]; set_solver|done|done|done|]. rewrite Hr. cbn [default from_option]. exact Eo. }
  clear Eo. clearbody o. pose proof Ho as [O1 O2 O3 O4 O5].
  set (cov := match match st_base S with Some _ => CDelta | None => CWhole end with CDelta => [] | CWhole => _ end).
  assert (painting S (good H S) (replicate (length (st_parts S)) false) (cs_rows screen) cov []) as Hp.
  { eapply painting_open; [done|done|]. intros Hb. subst cov. by rewrite Hb, Hsz. }
  assert (replicate (length (st_parts S)) false !! O = Some false) as Hf.
  { apply lookup_replicate_2. destruct (st_parts S !! O) eqn:E; [by apply lookup_lt_Some in E|done]. }
  pose proof (paint_piece S (sent_of S HS) (good H S) _ _ _ _ O rows Hp Hr Hf) as Hpp. fold (coverage_of S). rewrite Hch.
  destruct (hold_chunks rows []) as [whole_ cs]. destruct (write_part_rows _ _ _ _) as [rows' cov'] eqn:Ew. destruct Hpp as [P1 P2].
  unset. split; [done|]. split; [done|].
  assert (screen_ok (st_name S :: D) (screen <| cs_rows := rows' |>)) as Hs.
  { eapply (screen_patched _ _ _ S); [done|done|set_solver|done|done|rewrite O2; apply P1..|done]. }
  assert (applied_first (len (st_parts S)) = <[O := true]> (replicate (length (st_parts S)) false)) as Ea.
  { unfold applied_first. rewrite Nat2Z.id. by destruct (length (st_parts S)). }
  eexists. split; cycle 1.
  - split; [|exact Ea]. split; unset; rewrite ?Ea; try done; [set_solver|by rewrite <- Hn].
  - destruct Hs as [K1 K2 K3 K4]. revert K1 K2 K3 K4. unset. rewrite O1, O2, <- Hsz, <- Hn. intros K1 K2 K3 K4. split; unset; [exact K1|exact K2|exact K3|exact K4].
Qed.

(** ** Any piece *)

Lemma client_more D D' s : D ⊆ D' → client_ok D s → client_ok D' s.
Proof.
  intros Hs [C1 C2]. split; [intros c Ht Hc; eapply screen_more; eauto|]. destruct (pending s) as [a|]; [|done]. destruct (a_head a) as [hd|]; [|done].
  destruct C2 as (C2 & c & S & C3 & [A1 A2 A3 A0 A4 A5 A6 A7 A8]). split; [done|]. exists c, S. split; [done|]. split; auto.
Qed.

Lemma abandon_ok D s : client_ok D s → client_ok D (abandon s).
Proof. intros [C1 C2]. split; [done|]. done. Qed.

Lemma assembling_pending D s hd c S a : assembling D s hd c S → assembling D (s <| pending := a |>) hd c S.
Proof. intros [A1 A2 A3 A0 A4 A5 A6 A7 A8]. by split. Qed.

(** [part] up to where it looks at the piece: the assembly is the one of the screen named. *)
Lemma enter_ok D s S (drawn : bool) : client_ok D s → S ∈ H →
  let s1 := match pending s with Some a => if bool_decide (a_named a = st_name S) then s else abandon s | None => abandon s end in
  let a0 := default {| a_named := st_name S; a_head := None; a_predicted := false |} (pending s1) in
  let a := if drawn then a0 <| a_predicted := true |> else a0 in
  a_named a = st_name S ∧ (∀ c, trusted s1 = true → confirmed s1 = Some c → screen_ok D c) ∧
  match a_head a with
  | None => chunks (painter s1) = [] ∧ Forall (of_piece S) (held_tails (painter s1))
  | Some hd => held_tails (painter s1) = [] ∧ ∃ c, screen_ok D c ∧ assembling D s1 hd c S
  end.
Proof.
  intros Hc HS. cbv zeta. destruct (pending s) as [a|] eqn:Ep.
  2:{ unfold abandon; unset. cbn [default from_option]. destruct drawn; unset; (split; [done|]); (split; [apply Hc|done]). }
  case_bool_decide as En.
  2:{ unfold abandon; unset. cbn [default from_option]; unfold id. destruct drawn; unset; (split; [done|]); (split; [apply Hc|done]). }
  rewrite Ep. cbn [default from_option]; unfold id. destruct Hc as [C1 C2]. rewrite Ep in C2.
  assert (a_head (if drawn then a <| a_predicted := true |> else a) = a_head a ∧ a_named (if drawn then a <| a_predicted := true |> else a) = a_named a) as [-> ->]
    by (by destruct drawn). split; [done|]. split; [done|]. destruct (a_head a) as [hd|].
  - destruct C2 as (C2 & c & S' & E & Ha). split; [done|]. exists c. assert (S' = S) as -> by (apply same_sent; [apply Ha|done|congruence]).
    split; [apply C1; apply Ha|done].
  - destruct C2 as (C2 & C3). split; [done|]. eapply list.Forall_impl; [exact C3|]. intros t (S' & T1 & T2 & T3). unfold of_piece.
    assert (S' = S) as -> by (apply same_sent; [done|done|congruence]). done.
Qed.

Definition delivered (D : list (Z * Z)) (S : sent) (i : nat) : list (Z * Z) := match i with O => st_name S :: D | _ => D end.

Lemma piece_named S i p : sent_ok S → st_parts S !! i = Some p → part_name p = st_name S ∧
  match p with
  | Head h base scroll pieces rows => i = O ∧ base = st_base S ∧ scroll = st_scroll S ∧ pieces = len (st_parts S) ∧
      (h_generation h, h_version h) = st_name S ∧ h_size h = st_size S ∧ part_rows <$> st_parts S !! O = Some rows
  | Tail g v pieces index rows => i ≠ O ∧ pieces = len (st_parts S) ∧ index = Z.of_nat i ∧ of_piece S (index, rows)
  end.
Proof.
  intros HS Hp. destruct i as [|i].
  - destruct (so_head S HS) as (h & rows & E & N1 & N2). rewrite E in Hp. injection Hp as <-. rewrite E. cbn. done.
  - pose proof (so_tail S HS _ p Hp ltac:(done)) as E. rewrite E. cbn [part_name]. split; [by destruct (st_name S)|]. split_and!; try done.
    unfold of_piece, rows_of. cbn [fst snd]. rewrite Nat2Z.id, list_lookup_fmap, Hp, E. done.
Qed.

(** Any piece of any screen sent keeps the client's promise, and what it acknowledges it holds. *)
Lemma part_ok D s S i p tr drawn : client_ok D s → S ∈ H → st_parts S !! i = Some p → (i = O → st_name S ∉ D) →
  let '(r, s') := part s p tr drawn in client_ok (delivered D S i) s' ∧ ∀ x, r = Ok (Some x) → acknowledged S x s'.
Proof.
  intros Hc HS Hp Hnew. pose proof (sent_of S HS) as HSo. destruct (piece_named S i p HSo Hp) as [Hname Hshape].
  assert (D ⊆ delivered D S i) as Hsub by (destruct i; set_solver).
  unfold part. rewrite Hname. destruct (superseded s (st_name S)); [split; [by eapply client_more|done]|].
  pose proof (enter_ok D s S drawn Hc HS) as He. cbv zeta in He. set (s1 := match pending s with Some _ => _ | None => _ end) in *.
  set (a := if drawn then _ else _) in *. clearbody s1 a. destruct He as (E1 & E2 & E3).
  assert (client_ok D (s1 <| pending := Some a |>)) as Hc2.
  { split; [done|]. unset. destruct (a_head a) as [hd|].
    - destruct E3 as (E3 & c & E4 & E5). split; [done|]. exists c, S. split; [done|]. by apply assembling_pending.
    - destruct E3 as [E3 E4]. split; [done|]. eapply list.Forall_impl; [exact E4|]. intros t Ht. by exists S. }
  destruct p as [h base scroll pieces rows|g v pieces index rows].
  - destruct Hshape as (-> & -> & -> & -> & N1 & N2 & N3). destruct (a_head a) as [hd|] eqn:Ea; [split; [by eapply client_more|done]|].
    destruct E3 as [E3 E4]. match goal with |- context [head ?x h ?b ?sc ?n rows tr drawn] => pose proof (head_ok D x S h rows tr drawn HS (Hnew eq_refl) N3 N1 N2 E2 E3) as Hh; destruct (head x h b sc n rows tr drawn) as [[hd|e] s2] end.
    2:{ subst s2. split; [|done]. eapply client_more; [exact Hsub|]. by apply abandon_ok. }
    destruct Hh as (H2 & H3 & c & H4 & H5 & H6). unset. revert H2 H3. unset. intros H2 H3. unfold absorb_held. rewrite H2, (am_confirmed _ _ _ _ _ H5).
    destruct (absorb_ok (st_name S :: D) (s2 <| painter := (painter s2) <| held_tails := [] |> |>) hd c S (held_tails (painter s2))) as (s3 & c3 & A1 & A2 & A3 & A4 & A5).
    { done. } { destruct H5. by split. } { by rewrite H3. }
    rewrite A1. destruct (settle_ok (st_name S :: D) (s3 <| pending := Some (a <| a_head := Some hd |>) |>) (a <| a_head := Some hd |>) hd c3 S) as (o & O1 & O2 & O3 & _); try done.
    { by apply assembling_pending. }
    destruct (settle _) as [r s4]. cbn [fst snd] in *. subst r. split; [done|]. intros x [= ->]. by apply O3.
  - destruct Hshape as (Hi & -> & -> & Hof). replace (delivered D S i) with D by (by destruct i). destruct (a_head a) as [hd|] eqn:Ea.
    + destruct E3 as (E3 & c & E4 & E5). destruct (_ || _) eqn:Ef; [done|]. apply orb_false_iff in Ef as [_ Ef]. apply negb_false_iff, bool_decide_eq_true in Ef. revert Ef. unset. intros Ef.
      rewrite (am_confirmed _ _ _ _ _ E5), (pa_rows _ _ _ _ _ _ (am_painting _ _ _ _ _ E5)), (am_size _ _ _ _ _ E5), (piece_fits S (Z.to_nat (Z.of_nat i))) by done. cbn [negb].
      destruct (write_piece_ok D (s1 <| pending := Some a |>) hd c S (Z.of_nat i) rows E4 ltac:(by apply assembling_pending) Hof Ef) as (W1 & W2 & W3 & c' & W4 & W5).
      destruct (settle_ok D (write_piece (s1 <| pending := Some a |>) c (hd_coverage hd) (Z.of_nat i) rows) a hd c' S) as (o & O1 & O2 & O3 & _); try done.
      { by rewrite W2. }
      destruct (settle _) as [r s4]. cbn [fst snd] in *. subst r. split; [done|]. intros x [= ->]. by apply O3.
    + destruct (_ && _); [|done]. split; [|done]. unset. destruct Hc2 as [K1 K2]. split; [done|]. revert K2. unset. rewrite Ea. destruct E3 as [E3 E4]. intros _. split; [done|].
      apply Forall_app. split; [eapply list.Forall_impl; [exact E4|]; intros t Ht; by exists S|]. apply Forall_singleton. by exists S.
Qed.

(** ** A whole screen, its head first *)

(** An assembly under way, of a screen the server still wants. *)
Record collecting (D : list (Z * Z)) (s : Screen_) (S : sent) (flags : list bool) : Prop := {
  co_good : good H S;
  co_client : client_ok D s;
  co_seen : st_name S ∈ D;
  co_pending : ∃ a hd, pending s = Some a ∧ a_named a = st_name S ∧ a_head a = Some hd ∧ a_predicted a = false;
  co_applied : applied (painter s) = flags
}.

Lemma not_superseded D s S flags : S ∈ H → collecting D s S flags → superseded s (st_name S) = false.
Proof.
  intros HS [_ [_ C2] _ (a & hd & Hp & Hn & Hh & _) _]. rewrite Hp, Hh in C2. destruct C2 as (_ & c & S' & E & Ha).
  assert (S' = S) as -> by (apply same_sent; [apply Ha|done|congruence]). unfold superseded, name_lt, name_le. rewrite Hp, Hn, !Z.ltb_irrefl, andb_false_r, (am_confirmed _ _ _ _ _ Ha), (am_version _ _ _ _ _ Ha), (am_generation _ _ _ _ _ Ha).
  cbn [orb]. destruct (st_base S) as [b|] eqn:Eb; [|done]. destruct (hi_base S b HS Eb) as (_ & _ & _ & _ & Hlt & _). cbn [fst snd]. rewrite Z.ltb_irrefl, Z.eqb_refl. cbn [orb andb]. apply Z.leb_gt. lia.
Qed.

Lemma settle_waits s a hd : pending s = Some a → a_head a = Some hd → forallb id (applied (painter s)) = false → settle s = (Ok None, s).
Proof. intros Hp Hh Hf. unfold settle. by rewrite Hp, Hh, Hf. Qed.

(** A tail that was missing. *)
Lemma collect_tail D s S flags i p tr : S ∈ H → collecting D s S flags → st_parts S !! i = Some p → i ≠ O → flags !! i = Some false →
  let '(r, s') := part s p tr false in
  if forallb id (<[i := true]> flags) then ∃ x, r = Ok (Some x) ∧ acknowledged S x s' else r = Ok None ∧ collecting D s' S (<[i := true]> flags).
Proof.
  intros HS Hco Hp Hi Hf. pose proof (sent_of S HS) as HSo. destruct (piece_named S i p HSo Hp) as [Hname Hshape]. destruct p as [|g v pieces index rows]; [by destruct Hshape|].
  pose proof (part_ok D s S i _ tr false (co_client _ _ _ _ Hco) HS Hp ltac:(done)) as Hpart. replace (delivered D S i) with D in Hpart by (by destruct i).
  pose proof (not_superseded D s S flags HS Hco) as Hsup. destruct Hshape as (_ & -> & -> & Hof). destruct Hco as [Hgood Hc Hseen (a & hd & Hpe & Hn & Hh & Hpr) Happ].
  revert Hpart. unfold part. rewrite Hname, Hsup, Hpe, bool_decide_true by done. rewrite Hpe. cbn [default from_option]. change (@id Assembly_ a) with a. rewrite Hh. unset.
  destruct Hc as [C1 C2]. rewrite Hpe, Hh in C2. destruct C2 as (C2 & c & S' & E & Ha). assert (S' = S) as -> by (apply same_sent; [apply Ha|done|congruence]).
  pose proof (pa_flags _ _ _ _ _ _ (am_painting _ _ _ _ _ Ha)) as Hlen. rewrite Hlen, Z.eqb_refl, Happ, Nat2Z.id, bool_decide_true by done. cbn [negb orb].
  rewrite (am_confirmed _ _ _ _ _ Ha), (pa_rows _ _ _ _ _ _ (am_painting _ _ _ _ _ Ha)), (am_size _ _ _ _ _ Ha), (piece_fits S (Z.to_nat (Z.of_nat i))) by done. cbn [negb].
  destruct (write_piece_ok D (s <| pending := Some a |>) hd c S (Z.of_nat i) rows) as (W1 & W2 & W3 & c' & W4 & W5).
  { apply C1; apply Ha. } { by apply assembling_pending. } { done. } { by rewrite Nat2Z.id, <- Happ in *. }
  revert W1 W2 W3 W5. rewrite Nat2Z.id. set (s2 := write_piece _ _ _ _ _). intros W1 W2 W3 W5. revert W1 W2 W3. unset. rewrite Happ. intros W1 W2 W3.
  destruct (settle_ok D s2 a hd c' S W1 Hh ltac:(by rewrite W2) ltac:(done) W4 W5) as (o & O1 & O2 & O3 & O4).
  destruct (forallb id (<[i := true]> flags)) eqn:Eall.
  - destruct O4 as [x Hx]; [done|done|by rewrite W3|]. destruct (settle s2) as [r s']. cbn [fst snd] in *. intros _. exists x. subst. split; [done|]. by apply O3.
  - pose proof (settle_waits s2 a hd W1 Hh ltac:(by rewrite W3)) as Ew. rewrite Ew in *. cbn [fst snd] in *. intros _. split; [done|]. split; [done|done|done| |done]. exists a, hd. by rewrite Hn.
Qed.

Lemma collect_tails D S tr l : S ∈ H → ∀ s flags, collecting D s S flags → NoDup l → Forall (λ i, i ≠ O ∧ flags !! i = Some false ∧ is_Some (st_parts S !! i)) l →
  (∀ i, flags !! i = Some false → i ∈ l) → l ≠ [] →
  ∃ x s', foldl (λ rs i, match st_parts S !! i with Some p => part rs.2 p tr false | None => rs end) (Ok None, s) l = (Ok (Some x), s') ∧ acknowledged S x s'.
Proof.
  intros HS. generalize (Ok None : result (option Assembled) PartMismatch) as r0. induction l as [|i l IH]; intros r0 s flags Hco Hnd Hl Hall Hne; [done|]. clear Hne. apply NoDup_cons in Hnd as [Hi Hnd].
  apply list.Forall_cons in Hl as [(H1 & H2 & [p Hp]) Hl]. cbn [foldl snd]. rewrite Hp. pose proof (collect_tail D s S flags i p tr HS Hco Hp H1 H2) as Hs.
  destruct (part s p tr false) as [r s']. destruct (forallb id (<[i := true]> flags)) eqn:Ef.
  - destruct Hs as (x & -> & Hx). destruct l as [|j l]; [by exists x, s'|]. exfalso. apply list.Forall_cons in Hl as [(_ & Hj & _) _].
    assert (<[i := true]> flags !! j = Some false) as Hjf by (rewrite list_lookup_insert_ne; [done|set_solver]).
    apply list_elem_of_lookup_2, list_elem_of_In in Hjf. by apply (proj1 (forallb_forall _ _) Ef) in Hjf.
  - destruct Hs as [-> Hco']. assert (∃ j, <[i := true]> flags !! j = Some false) as [j Hj].
    { clear -Ef. induction (<[i := true]> flags) as [|f fl IHf]; [done|]. cbn [forallb] in Ef. destruct f; [|by exists O]. destruct (IHf Ef) as [j Hj]. by exists (S j). }
    assert (∀ k, <[i := true]> flags !! k = Some false → k ≠ i ∧ flags !! k = Some false) as Hk.
    { intros k Hk. destruct (decide (k = i)) as [->|]; [|by rewrite list_lookup_insert_ne in Hk]. rewrite list_lookup_insert_eq in Hk by (by eapply lookup_lt_Some). done. }
    apply (IH (Ok None) s' (<[i := true]> flags)); try done.
    + rewrite Forall_forall in *. intros k Hk2. destruct (Hl k Hk2) as (K1 & K2 & K3). split_and!; try done. rewrite list_lookup_insert_ne; [done|]. intros ->. done.
    + intros k Hk2. destruct (Hk k Hk2) as [K1 K2]. apply Hall in K2. rewrite elem_of_cons in K2. destruct K2; [by subst|done].
    + intros ->. destruct (Hk j Hj) as [K1 K2]. apply Hall in K2. set_solver.
Qed.

(** The head of a whole screen always opens. *)
Lemma collect_head D s S p tr : S ∈ H → st_base S = None → st_name S ∉ D → client_ok D s → superseded s (st_name S) = false →
  (∀ a, pending s = Some a → a_named a ≠ st_name S) → st_parts S !! O = Some p →
  let flags := <[O := true]> (replicate (length (st_parts S)) false) in
  let '(r, s') := part s p tr false in
  if forallb id flags then ∃ x, r = Ok (Some x) ∧ acknowledged S x s' else r = Ok None ∧ collecting (st_name S :: D) s' S flags.
Proof.
  intros HS Hb Hnew Hc Hsup Hother Hp flags. pose proof (sent_of S HS) as HSo. destruct (piece_named S O p HSo Hp) as [Hname Hshape]. destruct p as [h base scroll pieces rows|]; [|by destruct Hshape as [? _]].
  destruct Hshape as (_ & -> & -> & -> & N1 & N2 & N3). assert (good H S) as Hg by (by left). unfold part. rewrite Hname, Hsup.
  assert (match pending s with Some a => if bool_decide (a_named a = st_name S) then s else abandon s | None => abandon s end = abandon s) as ->.
  { destruct (pending s) as [a|] eqn:E; [|done]. rewrite bool_decide_false; [done|]. by apply Hother. }
  set (a := {| a_named := st_name S; a_head := None; a_predicted := false |}). change (default a (pending (abandon s))) with a. change (if false then a <| a_predicted := true |> else a) with a. change (a_head a) with (@None Head_).
  pose proof (abandon_ok D s Hc) as [C1 _]. set (s1 := (abandon s) <| pending := Some a |>).
  pose proof (head_ok D s1 S h rows tr false HS Hnew N3 N1 N2 ltac:(exact C1) eq_refl) as Hh.
  assert (∃ hd s2, head s1 h (st_base S) (st_scroll S) (len (st_parts S)) rows tr false = (Ok hd, s2)) as (hd & s2 & Eh).
  { unfold head. rewrite Hb. unfold head_whole. rewrite N2, (piece_fits S O) by (done || unfold rows_of; by rewrite list_lookup_fmap). cbn [negb].
    destruct (hold_chunks _ _) as [whole_ cs]. destruct (write_part_rows _ _ _ _) as [rows' cov']. eexists _, _. done. }
  rewrite Eh in *. destruct Hh as (P2 & P3 & c & P4 & P5 & P6). unfold absorb_held. rewrite P2, (am_confirmed _ _ _ _ _ P5), P3. change (pending s1) with (Some a). change (held_tails (painter s1)) with (@nil (Z * list RowSpan)). cbn [absorb_loop].
  set (s3 := (s2 <| painter := _ |>) <| pending := _ |>). set (a3 := a <| a_head := Some hd |>).
  assert (assembling (st_name S :: D) s3 hd c S) as P7 by (unfold s3; apply assembling_pending; destruct P5; by split).
  destruct (settle_ok (st_name S :: D) s3 a3 hd c S eq_refl eq_refl eq_refl eq_refl P4 P7) as (o & O1 & O2 & O3 & O4).
  assert (applied (painter s3) = flags) as Ea by exact P6. destruct (forallb id flags) eqn:Eall.
  - destruct O4 as [x Hx]; [done|done|by rewrite Ea|]. destruct (settle s3) as [r s']. cbn [fst snd] in *. exists x. subst. split; [done|]. by apply O3.
  - pose proof (settle_waits s3 a3 hd eq_refl eq_refl ltac:(by rewrite Ea)) as Ew. rewrite Ew in *. cbn [fst snd] in *. split; [done|]. split; [done|done|set_solver| |done]. by exists a3, hd.
Qed.

(** The pieces of a screen, delivered in an order. *)
Definition deliver (S : sent) (tr : Z) (order : list nat) (s : Screen_) : result (option Assembled) PartMismatch * Screen_ :=
  foldl (λ rs i, match st_parts S !! i with Some p => part rs.2 p tr false | None => rs end) (Ok None, s) order.

(** A whole screen of which every piece arrives, the head first and the rest in any order, is
    acknowledged with the server's rows by any client that is not already past it. *)
Lemma whole_arrives D s S tr l : S ∈ H → st_base S = None → st_name S ∉ D → client_ok D s → superseded s (st_name S) = false →
  (∀ a, pending s = Some a → a_named a ≠ st_name S) → l ≡ₚ seq 1 (length (st_parts S) - 1) →
  ∃ x s', deliver S tr (O :: l) s = (Ok (Some x), s') ∧ acknowledged S x s' ∧ ∃ c, confirmed s' = Some c ∧ cs_rows c = st_target S.
Proof.
  intros HS Hb Hnew Hc Hsup Hother Hl. destruct (so_head S (sent_of S HS)) as (h & rows & Hp & _).
  pose proof (collect_head D s S _ tr HS Hb Hnew Hc Hsup Hother Hp) as Hh. cbv zeta in Hh. unfold deliver. cbn [foldl snd]. rewrite Hp. set (p := Head _ _ _ _ _) in *. clearbody p.
  assert (∀ x s', acknowledged S x s' → ∃ c, confirmed s' = Some c ∧ cs_rows c = st_target S) as Hrows.
  { intros x s' (_ & c & Hconf & _ & _ & _ & Ht). exists c. split; [done|]. apply Ht. by left. }
  set (n := length (st_parts S)) in *. assert (0 < n)%nat as Hn by (by apply lookup_lt_Some in Hp). destruct (part s p tr false) as [r s']. destruct (forallb id _) eqn:Ef in Hh.
  - destruct Hh as (x & -> & Hx). destruct (decide (n = 1)%nat) as [E1|Hne].
    + rewrite E1 in Hl. apply Permutation_nil_r in Hl. subst l. exists x, s'. split; [done|]. split; [done|]. by eapply Hrows.
    + exfalso. assert (<[O := true]> (replicate n false) !! 1%nat = Some false) as E by (rewrite list_lookup_insert_ne by done; apply lookup_replicate_2; lia).
      apply list_elem_of_lookup_2, list_elem_of_In in E. by apply (proj1 (forallb_forall _ _) Ef) in E.
  - destruct Hh as [-> Hco]. assert (∀ i, <[O := true]> (replicate n false) !! i = Some false ↔ (1 ≤ i < n)%nat) as Hfl.
    { intros i. destruct (decide (i = O)) as [->|Hi]; [rewrite list_lookup_insert_eq by (by rewrite length_replicate); split; [done|lia]|].
      rewrite list_lookup_insert_ne by done. rewrite lookup_replicate. split; [intros [_ ?]; lia|]. intros ?. split; [done|lia]. }
    assert (∀ i, i ∈ l ↔ (1 ≤ i < n)%nat) as Hin by (intros i; rewrite Hl, elem_of_seq; lia).
    destruct (collect_tails (st_name S :: D) S tr l HS s' _ Hco) as (x & s'' & E & Hx).
    + rewrite Hl. apply NoDup_seq.
    + apply Forall_forall. intros i Hi. apply Hin in Hi. split_and!; [lia|by apply Hfl|]. apply lookup_lt_is_Some_2. fold n. lia.
    + intros i Hi. by apply Hin, Hfl.
    + intros ->. assert (n = 1)%nat as E1 by (destruct (decide (n = 1)%nat); [done|]; exfalso; specialize (proj2 (Hin 1%nat) ltac:(lia)); set_solver). rewrite E1 in Ef. done.
    + exists x, s''. split; [exact E|]. split; [done|]. by eapply Hrows.
Qed.

(** ** What else happens to a client *)

Lemma invalidate_ok D s : client_ok D (invalidate s).
Proof. split; [|done]. intros c E. done. Qed.

Lemma observe_ok D s bytes_ : client_ok D s → client_ok D (observe s bytes_).
Proof.
  intros [C1 C2]. destruct bytes_; [done|]. split; [done|]. unfold observe. unset. destruct (pending s) as [a|]; [|done]. destruct (a_head a) as [hd|]; [|done].
  destruct C2 as (C2 & c & S & E & [A1 A2 A3 A0 A4 A5 A6 A7 A8]). split; [done|]. exists c, S. split; [done|]. by split.
Qed.

End client.

(** More screens were sent. *)
Lemma client_grows H H' D s : H ⊆ H' → client_ok H D s → client_ok H' D s.
Proof.
  intros Hs. assert (∀ S, good H' S → good H S) as Hg.
  { intros S [?|G]; [by left|right]. intros (S' & b & ? & ?). apply G. exists S', b. split; [by apply Hs|done]. }
  assert (∀ n i, touched H D n i → touched H' D n i) as Ht by (intros n i (S & ? & ?); exists S; split; [by apply Hs|done]).
  assert (∀ c, screen_ok H D c → screen_ok H' D c) as Hc.
  { intros c [S1 S2 S3 S4]. split; try done. intros v Hv. destruct (S4 v Hv) as (B & ? & ? & ? & Hb). exists B. split_and!; auto. intros G i Hi. destruct (Hb (Hg B G) i Hi); auto. }
  intros [C1 C2]. split; [auto|]. destruct (pending s) as [a|]; [|done]. destruct (a_head a) as [hd|].
  - destruct C2 as (C2 & c & S & E & [A1 A2 A3 A0 A4 A5 A6 A7 [P1 P2 P3 P4 P5 P6]]). split; [done|]. exists c, S. split; [done|]. split; auto. split; auto.
  - destruct C2 as [C2 C3]. split; [done|]. eapply list.Forall_impl; [exact C3|]. intros t (S & ? & ?). exists S. split; [by apply Hs|done].
Qed.

End Converge.
