(* ===== verification/Cuts.v ===== *)
(** * A screen cut into pieces is one a client assembles

    What [encode_screen_parts] writes of a list of updates ([Pieces]) satisfies what [Converge]
    asks of a screen that was sent: each update is one span, or chunks that join to it whatever
    order they come in.  The lemmas here connect the encoder of the protocol with the client's
    [hold_chunks], [join_spans] and [write_joined_rows]; [screen_pieces_decode] says of the frames
    on the wire that what a client joins of them is what was sent. *)

From S2P Require Import Prelude Codec Fields Message Text Screen Modes Rows Pieces ServerMessage Mask Splice Assembly Converge.

Module Cuts.
Import Codec Text Screen Rows Pieces Splice Assembly Converge.

(** ** Sorting chunks *)

Definition key_lt (a b : RowSpan) : Prop := sp_row a < sp_row b ∨ sp_row a = sp_row b ∧ sp_col a < sp_col b.

Lemma key_le_spec a b : key_le a b = true ↔ sp_row a < sp_row b ∨ sp_row a = sp_row b ∧ sp_col a ≤ sp_col b.
Proof. unfold key_le. rewrite orb_true_iff, andb_true_iff, Z.ltb_lt, Z.eqb_eq, Z.leb_le. done. Qed.

Lemma insert_comm x y l : key_lt x y ∨ key_lt y x → insert_span x (insert_span y l) = insert_span y (insert_span x l).
Proof.
  intros H. unfold key_lt in H. assert (∀ a b, key_le a b = false ↔ sp_row b < sp_row a ∨ sp_row a = sp_row b ∧ sp_col b < sp_col a) as Hf.
  { intros a b. rewrite <- not_true_iff_false, key_le_spec. lia. }
  induction l as [|z l IH]; cbn [insert_span].
  - destruct (key_le x y) eqn:E1, (key_le y x) eqn:E2; rewrite ?key_le_spec, ?Hf in *; try done; lia.
  - destruct (key_le y z) eqn:Ey, (key_le x z) eqn:Ex; cbn [insert_span]; rewrite ?Ey, ?Ex.
    + destruct (key_le x y) eqn:E1, (key_le y x) eqn:E2; try done; rewrite ?key_le_spec, ?Hf in *; lia.
    + destruct (key_le x y) eqn:E1; [rewrite ?key_le_spec, ?Hf in *; lia|]. done.
    + destruct (key_le y x) eqn:E2; [rewrite ?key_le_spec, ?Hf in *; lia|]. done.
    + by rewrite IH.
Qed.

Lemma sort_sorted l : StronglySorted key_lt l → sort_spans l = l.
Proof.
  unfold sort_spans. induction 1 as [|x l Hl IH Hx]; [done|]. cbn [foldr]. rewrite IH. destruct l as [|y l]; [done|]. cbn [insert_span].
  apply list.Forall_cons in Hx as [Hxy _]. rewrite (proj2 (key_le_spec x y)); [done|]. unfold key_lt in Hxy. lia.
Qed.

Lemma sorted_pairs l i j x y : StronglySorted key_lt l → l !! i = Some x → l !! j = Some y → i ≠ j → key_lt x y ∨ key_lt y x.
Proof.
  intros Hs. revert i j. induction Hs as [|z l Hl IH Hz]; intros i j Hi Hj Hne; [done|]. rewrite Forall_forall in Hz.
  destruct i as [|i], j as [|j]; cbn in Hi, Hj; [done| | |by eapply IH; eauto; lia].
  - injection Hi as ->. left. by apply Hz, list_elem_of_lookup_2 with j.
  - injection Hj as ->. right. by apply Hz, list_elem_of_lookup_2 with i.
Qed.

(** Chunks of distinct places sort to the same list however they came. *)
Lemma sort_perm l L : l ≡ₚ L → StronglySorted key_lt L → sort_spans l = L.
Proof.
  intros Hp Hs. trans (sort_spans L); [|by apply sort_sorted]. symmetry. unfold sort_spans. apply (foldr_permutation (=) insert_span [] L l); [|exact (symmetry Hp)].
  intros i x j y b Hne Hi Hj. by eapply insert_comm, sorted_pairs.
Qed.

(** ** The chunks of one update *)

Fixpoint wide (cs : list RowChunk) : Prop :=
  match cs with c :: (_ :: _) as t => 0 < c_cells c ∧ wide t | _ => True end.

Lemma cut_wide r bud e k cs : row_ok r → (e ≤ length (runs r))%nat → cut_list r bud e k cs → wide cs.
Proof.
  intros Hr He. induction 1 as [k Hk Hemp|k c Hk Hemp Hfit|k k' cs c Hk Hfit Hstop Hend Hcs IH]; [done|done|]. cbn [wide]. destruct cs; [done|].
  split; [|done]. unfold c. cbn [chunk_of c_cells]. destruct (slice_sums r k (k' - k)) as [_ Sc]. replace (k + (k' - k))%nat with k' in * by lia.
  assert (positive (slice k k' (runs r))) as Hp by (by apply Forall_take, Forall_drop, ok_runs). apply sum_count in Hp. rewrite length_slice in Hp. lia.
Qed.

Lemma span_len_eq r a b : row_ok r → (a ≤ b ≤ length (runs r))%nat →
  span_len r (a, b) = CHUNK_FIXED + (limit r b - byte_at r a) + style_len (slice a b (runs r)).
Proof.
  intros Hr Hab. unfold span_len, clamp_runs. cbn [fst snd]. rewrite Nat.min_l by lia. replace (a `max` (b `min` length (runs r)))%nat with b by lia.
  rewrite run_start_at by done. cbn [snd]. unfold limit. destruct (Nat.eqb_spec b (length (runs r))) as [->|].
  - pose proof (byte_at_painted r Hr a). unfold sat_sub. lia.
  - destruct (slice_sums r a (b - a)) as [Sb _]. replace (a + (b - a))%nat with b in * by lia. lia.
Qed.

Record frames_said (bud : Z) (u : RowUpdate) (cs : list RowChunk) : Prop := {
  fs_some : cs ≠ [];
  fs_tiles : tiles (col_at (u_frame u) (u_runs u).1) (byte_at (u_frame u) (u_runs u).1) cs;
  fs_text : concat (c_text <$> cs) = slice (Z.to_nat (byte_at (u_frame u) (u_runs u).1)) (Z.to_nat (limit (u_frame u) (u_runs u).2)) (text (u_frame u));
  fs_runs : concat (c_runs <$> cs) = slice (u_runs u).1 (u_runs u).2 (runs (u_frame u));
  fs_cells : sum_by c_cells cs = edge (u_frame u) (u_runs u).2 - col_at (u_frame u) (u_runs u).1;
  fs_packed : packed bud cs;
  fs_wide : wide cs;
  fs_strs : Forall (λ c, is_str (c_text c) ∧ 0 ≤ c_cells c) cs
}.

Lemma frames_say bud size u : update_full size u → frames_said bud u (frames_of bud u).
Proof.
  intros [Hu _ _ Hsay]. pose proof (frames_fit bud size u Hu) as Hfit. pose proof Hu as [Hrow Hr Ht Hc Hab].
  assert (Forall (λ c, is_str (c_text c) ∧ 0 ≤ c_cells c) (frames_of bud u)) as Hstr.
  { eapply list.Forall_impl; [exact Hfit|]. intros c [[F1 _ F3 _ _ _] _]. split; [exact F1|]. cbn in F3. lia. }
  clear Hfit Hu. destruct u as [row r [a b] clear]. cbn [u_frame u_runs u_clear fst snd] in *. pose proof (all_chunks_cut r bud a b Hr Hab) as Hcut.
  destruct (cut_concat r Hr bud b ltac:(lia) a _ Hcut) as (C1 & C2 & C3).
  pose proof (cut_tiles r Hr bud b ltac:(lia) a _ Hcut) as C4. pose proof (cut_packed r Hr bud b ltac:(lia) a _ Hcut) as C5.
  pose proof (cut_wide r bud b a _ Hr ltac:(lia) Hcut) as C6. revert Hstr. unfold frames_of. cbn [u_frame u_runs u_clear fst snd].
  set (l := all_chunks _) in *. clearbody l. destruct l as [|c cs]; [|intros; by split].
  cbn [sum_by foldr concat fmap list_fmap] in C1, C2, C3. assert (clear = true) as ->.
  { inversion Hcut as [k Hk Hemp| |]; subst. destruct (empty_chunk r Hr b ltac:(lia) a Hemp ltac:(lia)) as (-> & _).
    destruct Hsay as [?|[?|?]]; [lia|lia|done]. }
  intros Hstr. by split; cbn [tiles packed wide u_frame u_runs fst snd sum_by foldr concat fmap list_fmap c_text c_runs c_cells c_col c_byte app].
Qed.

(** A row that fits one chunk is one chunk. *)
Lemma frames_one bud size u : update_full size u → span_len (u_frame u) (u_runs u) ≤ bud → ∃ c, frames_of bud u = [c].
Proof.
  intros Hu Hl. destruct (frames_say bud size u Hu) as [F1 _ F3 F4 _ F6 _ _]. destruct Hu as [[_ Hr _ _ Hab] _ _ _].
  destruct (frames_of bud u) as [|c [|d cs]]; [done|by exists c|]. exfalso. cbn [packed] in F6. destruct F6 as [F6 _].
  destruct (u_runs u) as [a b]. cbn [fst snd] in *. rewrite span_len_eq in Hl by done. destruct (limit_range (u_frame u) Hr b ltac:(lia) a ltac:(lia)) as [Hlim _].
  apply (f_equal length) in F3. rewrite length_slice in F3. cbn [fmap list_fmap concat] in F3, F4. rewrite !length_app in F3. pose proof (byte_at_nonneg (u_frame u) Hr a).
  rewrite <- F4 in Hl. unfold style_len, chunk_encoded_len in *. rewrite !sum_by_app in Hl.
  assert (0 ≤ sum_by run_style_len (concat (c_runs <$> cs))).
  { apply sum_by_nonneg, Forall_forall. intros x _. unfold run_style_len, RUN_FIXED, color_len. repeat case_match; lia. }
  unfold style_len in *. lia.
Qed.

(** ** Joining them *)

Definition join_to (last : RowSpan) (clear : bool) (cs : list RowChunk) : RowSpan :=
  {| sp_row := sp_row last; sp_chunk := false; sp_col := sp_col last; sp_byte := sp_byte last; sp_clear := clear;
     sp_frame := {| text := text (sp_frame last) ++ blank (concat (c_text <$> cs)); runs := runs (sp_frame last) ++ concat (c_runs <$> cs);
                    cells := cells (sp_frame last) + sum_by c_cells cs |} |}.

Lemma join_more last clear cs acc : cs ≠ [] → sp_chunk last = false → Forall (λ c, is_str (c_text c) ∧ 0 ≤ c_cells c) cs →
  tiles (sp_col last + cells (sp_frame last)) (sp_byte last + len (text (sp_frame last))) cs →
  cells (sp_frame last) + sum_by c_cells cs ≤ U16_MAX →
  foldl join_step (last :: acc) (entry_span <$> mark (sp_row last) true clear cs) = join_to last clear cs :: acc.
Proof.
  revert last. induction cs as [|c cs IH]; intros last Hne Hch Hs Ht Hc; [done|]. apply list.Forall_cons in Hs as [[Hstr Hpos] Hs]. cbn [tiles] in Ht.
  destruct Ht as (T1 & T2 & T3). cbn [sum_by foldr] in Hc. fold (sum_by c_cells cs) in Hc.
  assert (0 ≤ sum_by c_cells cs) as Hn by (apply sum_by_nonneg; eapply list.Forall_impl; [exact Hs|]; simpl; tauto).
  destruct (blank_ok _ Hstr) as (_ & Hbl & _).
  assert (∀ cl, join_step (last :: acc) (entry_span {| e_row := sp_row last; e_chunk := true; e_clear := cl; e_frame := c |}) = join_to last cl [c] :: acc) as Hstep.
  { intros cl. cbn [join_step entry_span sp_row sp_col sp_byte sp_clear sp_frame inert frame_of e_row e_frame e_clear text runs cells].
    rewrite Z.eqb_refl, Hch, T1, T2, !Z.eqb_refl. cbn [orb negb]. unfold join_to, sat_add. cbn [fmap list_fmap concat sum_by foldr]. rewrite !app_nil_r.
    do 3 f_equal. lia. }
  destruct cs as [|d cs].
  - cbn [mark fmap list_fmap foldl]. rewrite Hstep. done.
  - cbn [mark fmap list_fmap foldl]. change (sp_row last) with (sp_row (join_to last false [c])) at 2. rewrite Hstep. rewrite IH; try done.
    + unfold join_to. cbn [sp_row sp_col sp_byte sp_frame text runs cells sum_by foldr]. f_equal. f_equal.
      cbn [fmap list_fmap concat]. rewrite !app_nil_r, (blank_app (c_text c)), <- !app_assoc by done. f_equal. lia.
    + cbn [join_to sp_col sp_byte sp_frame cells text fmap list_fmap concat sum_by foldr]. rewrite app_nil_r, length_app, Hbl.
      replace (sp_col last + (cells (sp_frame last) + (c_cells c + 0))) with (c_col c + c_cells c) by lia.
      replace (sp_byte last + Z.of_nat (length (text (sp_frame last)) + length (c_text c))) with (c_byte c + len (c_text c)) by lia.
      rewrite T1, T2 in *. exact T3.
    + cbn [join_to sp_frame cells fmap list_fmap sum_by foldr] in *. lia.
Qed.

Definition is_cut (bud : Z) (u : RowUpdate) : bool := bud <? span_len (u_frame u) (u_runs u).

(** The chunks of an update, in order, join to its one span. *)
Lemma join_update bud size u acc : update_full size u → Fields.cols size ≤ U16_MAX → is_cut bud u = true → Forall (λ s, sp_row s ≠ u_row u) acc →
  foldl join_step acc (entry_span <$> entries_of bud u) = update_span u :: acc.
Proof.
  intros Hu Hcols Hcut Hacc. destruct (frames_say bud size u Hu) as [F1 F2 F3 F4 F5 _ _ F8]. rewrite (entries_mark _ size) by apply Hu.
  fold (is_cut bud u). rewrite Hcut. destruct Hu as [[_ Hr _ Hc Hab] _ _ _]. destruct (limit_range (u_frame u) Hr _ (proj2 Hab) _ (proj1 Hab)) as [_ Hedge].
  pose proof (col_at_nonneg (u_frame u) Hr (u_runs u).1).
  destruct (frames_of bud u) as [|c cs] eqn:Ef; [done|]. clear F1. cbn [tiles] in F2. destruct F2 as (T1 & T2 & T3). apply list.Forall_cons in F8 as [[Hstr Hpos] Hs].
  destruct (blank_ok _ Hstr) as (_ & Hbl & _).
  assert (∀ cl, join_step acc (entry_span {| e_row := u_row u; e_chunk := true; e_clear := cl; e_frame := c |}) =
    set_chunk (entry_span {| e_row := u_row u; e_chunk := true; e_clear := cl; e_frame := c |}) false :: acc) as Hstep.
  { intros cl. unfold join_step. destruct acc as [|s acc]; [done|]. apply list.Forall_cons in Hacc as [Hne _]. by rewrite (proj2 (Z.eqb_neq (sp_row s) _)) by exact Hne. }
  assert (∀ sp, sp_row sp = u_row u → sp_chunk sp = false → sp_col sp = c_col c → sp_byte sp = c_byte c → sp_clear sp = u_clear u →
    sp_frame sp = {| text := blank (concat (c_text <$> c :: cs)); runs := concat (c_runs <$> c :: cs); cells := sum_by c_cells (c :: cs) |} → sp = update_span u) as Hup.
  { intros [] E1 E2 E3 E4 E5 E6. cbn [sp_row sp_chunk sp_col sp_byte sp_clear sp_frame] in *. subst. rewrite F3, F4, F5, T1, T2. unfold update_span. by destruct (u_runs u). }
  destruct cs as [|d cs].
  - cbn [mark fmap list_fmap foldl]. rewrite Hstep. f_equal. apply Hup; try done. cbn [set_chunk entry_span sp_frame inert frame_of e_frame text runs cells fmap list_fmap concat sum_by foldr].
    rewrite !app_nil_r, Z.add_0_r. done.
  - change (mark (u_row u) true (u_clear u) (c :: d :: cs)) with
      ({| e_row := u_row u; e_chunk := true; e_clear := false; e_frame := c |} :: mark (u_row u) true (u_clear u) (d :: cs)).
    rewrite fmap_cons. cbn [foldl]. rewrite Hstep. set (last := set_chunk _ false).
    assert (cells (sp_frame last) = c_cells c ∧ len (text (sp_frame last)) = len (c_text c)) as [L1 L2] by (split; [done|]; cbn; by rewrite Hbl).
    cbn [sum_by foldr] in F5. change (u_row u) with (sp_row last). rewrite join_more; try done.
    + f_equal. apply Hup; try done. unfold join_to. cbn [last set_chunk entry_span sp_frame inert frame_of e_frame text runs cells]. cbn [fmap list_fmap concat].
      rewrite (blank_app (c_text c)) by done. done.
    + rewrite L1, L2. cbn [last set_chunk entry_span sp_col sp_byte e_frame]. rewrite T1, T2. exact T3.
    + rewrite L1. cbn [sum_by foldr]. lia.
Qed.

(** An update that was not cut is its one span. *)
Lemma plain_update bud size u : update_full size u → is_cut bud u = false → entry_span <$> entries_of bud u = [update_span u].
Proof.
  intros Hu Hcut. destruct (frames_say bud size u Hu) as [_ F2 F3 F4 F5 _ _ _]. rewrite (entries_mark _ size) by apply Hu. fold (is_cut bud u). rewrite Hcut.
  destruct (frames_one bud size u Hu) as [c Ec]; [unfold is_cut in Hcut; by zbool|]. rewrite Ec in *. cbn [mark fmap list_fmap]. f_equal. cbn [tiles] in F2.
  destruct F2 as (T1 & T2 & _). cbn [fmap list_fmap concat sum_by foldr] in F3, F4, F5. rewrite app_nil_r in F3, F4. rewrite Z.add_0_r in F5.
  unfold update_span, entry_span. cbn [e_row e_chunk e_clear e_frame]. destruct (u_runs u) as [a b]. cbn [fst snd] in *. unfold inert, frame_of, chunk_of.
  cbn [text runs cells c_text c_runs c_cells]. by rewrite F3, F4, F5, T1, T2.
Qed.

(** ** The chunks of a screen *)

Section screen.
Context (bud : Z) (size : Fields.GridSize) (Hcols : Fields.cols size ≤ U16_MAX).

Definition uncut (us : list RowUpdate) : list RowUpdate := filter (λ u, is_cut bud u = false) us.
Definition cuts (us : list RowUpdate) : list RowUpdate := filter (λ u, is_cut bud u = true) us.
Definition chunks_of (us : list RowUpdate) : list RowSpan := concat ((λ u, entry_span <$> entries_of bud u) <$> us).

Lemma entry_chunks u : update_full size u → Forall (λ sp, sp_chunk sp = is_cut bud u ∧ sp_row sp = u_row u) (entry_span <$> entries_of bud u).
Proof.
  intros Hu. rewrite (entries_mark _ size) by apply Hu. fold (is_cut bud u). apply Forall_fmap. eapply list.Forall_impl; [apply mark_row|]. intros e [E1 E2]. done.
Qed.

Lemma filter_kept {A} (P : A → Prop) `{∀ x, Decision (P x)} l : Forall P l → filter P l = l.
Proof. induction 1 as [|x l Hx Hl IH]; [done|]. rewrite filter_cons, decide_True by done. by f_equal. Qed.
Lemma filter_gone {A} (P : A → Prop) `{∀ x, Decision (P x)} l : Forall (λ x, ¬ P x) l → filter P l = [].
Proof. induction 1 as [|x l Hx Hl IH]; [done|]. by rewrite filter_cons, decide_False by done. Qed.

Lemma spans_split us : Forall (update_full size) us →
  plain (entry_span <$> spans bud us) = update_span <$> uncut us ∧ cut_ (entry_span <$> spans bud us) = chunks_of (cuts us).
Proof.
  unfold spans, plain, cut_, uncut, cuts, chunks_of. induction 1 as [|u us Hu Hus [IH1 IH2]]; [done|]. rewrite !fmap_cons. cbn [concat]. rewrite fmap_app, !filter_app, IH1, IH2, !filter_cons.
  pose proof (entry_chunks u Hu) as Hc. destruct (is_cut bud u) eqn:E.
  - rewrite (filter_gone (λ sp, sp_chunk sp = false) (entry_span <$> _)) by (eapply list.Forall_impl; [exact Hc|]; intros sp [-> _]; done).
    rewrite (filter_kept (λ sp, sp_chunk sp = true) (entry_span <$> _)) by (eapply list.Forall_impl; [exact Hc|]; intros sp [-> _]; done). cbn [app].
    rewrite (decide_False (P := true = false)), (decide_True (P := true = true)) by done. done.
  - rewrite (filter_gone (λ sp, sp_chunk sp = true) (entry_span <$> _)) by (eapply list.Forall_impl; [exact Hc|]; intros sp [-> _]; done).
    rewrite (filter_kept (λ sp, sp_chunk sp = false) (entry_span <$> _)) by (eapply list.Forall_impl; [exact Hc|]; intros sp [-> _]; done).
    rewrite (plain_update bud size u Hu E), (decide_True (P := false = false)), (decide_False (P := false = true)) by done. done.
Qed.

Lemma join_all us acc : Forall (λ u, update_full size u ∧ is_cut bud u = true) us → sorted_rows us → Forall (λ s, Forall (λ u, sp_row s < u_row u) us) acc →
  foldl join_step acc (chunks_of us) = reverse (update_span <$> us) ++ acc.
Proof.
  intros Hu. revert acc. unfold chunks_of, sorted_rows. induction Hu as [|u us [Hu Hc] Hus IH]; intros acc Hs Hacc; [done|]. rewrite !fmap_cons. cbn [concat]. apply StronglySorted_inv in Hs as [Hs Hlt].
  rewrite foldl_app, (join_update bud size u); [|done|done|done|].
  2:{ eapply list.Forall_impl; [exact Hacc|]. intros s Hx. apply list.Forall_cons in Hx as [? _]. lia. }
  rewrite IH, reverse_cons, <- app_assoc; [done|done|]. constructor.
  - unfold update_span. destruct (u_runs u). exact Hlt.
  - eapply list.Forall_impl; [exact Hacc|]. intros s Hx. by apply list.Forall_cons in Hx as [_ ?].
Qed.

(** Chunks of a row start further and further right. *)
Lemma mark_sorted row cl cs col byte_ : tiles col byte_ cs → wide cs → Forall (λ c, 0 ≤ c_cells c) cs →
  StronglySorted key_lt (entry_span <$> mark row true cl cs) ∧ Forall (λ sp, sp_row sp = row ∧ col ≤ sp_col sp) (entry_span <$> mark row true cl cs).
Proof.
  revert col byte_. induction cs as [|c cs IH]; intros col byte_ Ht Hw Hp; [split; constructor|]. cbn [tiles] in Ht. destruct Ht as (T1 & T2 & T3).
  apply list.Forall_cons in Hp as [Hc Hp]. destruct cs as [|d cs].
  - cbn [mark fmap list_fmap]. split; [repeat constructor|]. apply Forall_singleton. cbn. lia.
  - cbn [wide] in Hw. destruct Hw as [Hpos Hw]. destruct (IH _ _ T3 Hw Hp) as [I1 I2].
    change (mark row true cl (c :: d :: cs)) with ({| e_row := row; e_chunk := true; e_clear := false; e_frame := c |} :: mark row true cl (d :: cs)).
    rewrite fmap_cons. split; constructor; try done.
    + eapply list.Forall_impl; [exact I2|]. intros sp [S1 S2]. right. cbn. lia.
    + cbn. lia.
    + eapply list.Forall_impl; [exact I2|]. simpl. lia.
Qed.

Lemma sorted_join l1 l2 : StronglySorted key_lt l1 → StronglySorted key_lt l2 → (∀ x y, x ∈ l1 → y ∈ l2 → key_lt x y) → StronglySorted key_lt (l1 ++ l2).
Proof.
  induction 1 as [|x l Hl IH Hx]; intros H2 H12; [done|]. cbn [app]. constructor; [apply IH; [done|]; intros; apply H12; [by right|done]|].
  apply Forall_app. split; [done|]. apply Forall_forall. intros y Hy. apply H12; [left|done].
Qed.

Lemma chunks_sorted us : Forall (λ u, update_full size u ∧ is_cut bud u = true) us → sorted_rows us →
  StronglySorted key_lt (chunks_of us) ∧ Forall (λ sp, Exists (λ u, sp_row sp = u_row u) us) (chunks_of us).
Proof.
  unfold chunks_of, sorted_rows. induction 1 as [|u us [Hu Hc] Hus IH]; intros Hs; [split; constructor|]. apply StronglySorted_inv in Hs as [Hs Hlt]. destruct (IH Hs) as [I1 I2].
  rewrite fmap_cons. cbn [concat]. destruct (frames_say bud size u Hu) as [_ F2 _ _ _ _ F7 F8].
  destruct (mark_sorted (u_row u) (u_clear u) (frames_of bud u) _ _ F2 F7) as [M1 M2]; [eapply list.Forall_impl; [exact F8|]; simpl; tauto|].
  assert (entries_of bud u = mark (u_row u) true (u_clear u) (frames_of bud u)) as -> by (rewrite (entries_mark _ size) by apply Hu; fold (is_cut bud u); by rewrite Hc). split.
  - apply sorted_join; [done|done|]. intros x y Hx Hy. rewrite Forall_forall in M2, I2. destruct (M2 x Hx) as [Ex _].
    specialize (I2 y Hy). apply Exists_exists in I2 as (v & Hv & Ev). rewrite Forall_forall in Hlt. specialize (Hlt v Hv). left. lia.
  - apply Forall_app. split; [eapply list.Forall_impl; [exact M2|]; intros sp [E _]; by left|]. eapply list.Forall_impl; [exact I2|]. intros sp E. by right.
Qed.

Lemma sorted_filter_rows (P : RowUpdate → Prop) `{∀ u, Decision (P u)} us : sorted_rows us → sorted_rows (filter P us).
Proof.
  unfold sorted_rows. induction 1 as [|u us Hs IH Hu]; [constructor|]. rewrite filter_cons. case_decide; [|done]. constructor; [done|].
  rewrite Forall_forall in *. intros v Hv. apply list_elem_of_filter in Hv as [_ Hv]. by apply Hu.
Qed.

(** However the chunks of a screen came, they join to the spans of the rows that were cut. *)
Lemma join_any us l : Forall (update_full size) us → sorted_rows us → l ≡ₚ cut_ (entry_span <$> spans bud us) →
  join_spans l = update_span <$> cuts us.
Proof.
  intros Hu Hs Hp. rewrite (proj2 (spans_split us Hu)) in Hp.
  assert (Forall (λ u, update_full size u ∧ is_cut bud u = true) (cuts us)) as Hc.
  { apply Forall_forall. intros u H. apply list_elem_of_filter in H as [? H]. rewrite Forall_forall in Hu. auto. }
  assert (sorted_rows (cuts us)) as Hsc by (by apply sorted_filter_rows). destruct (chunks_sorted (cuts us) Hc Hsc) as [Hk _].
  unfold join_spans. rewrite (sort_perm l _ Hp Hk), join_all by done. by rewrite app_nil_r, reverse_involutive.
Qed.

Lemma split_perm us : uncut us ++ cuts us ≡ₚ us.
Proof.
  unfold uncut, cuts. induction us as [|u us IH]; [done|]. rewrite !filter_cons. destruct (is_cut bud u) eqn:E.
  - rewrite decide_False, decide_True by done. rewrite <- Permutation_middle. by rewrite IH.
  - rewrite decide_True, decide_False by done. cbn [app]. by rewrite IH.
Qed.

End screen.

(** ** A screen that was sent *)

(** The rows of a whole screen. *)
Definition every (F : list RowFrame) : list RowUpdate := (λ i, update_whole i (F !!! Z.to_nat i)) <$> seqZ 0 (len F).

Definition sent_screen (h : ScreenHeader) (base : option Z) (scroll : option ScrollBand) (us : list RowUpdate) (F : list RowFrame)
    (groups : list (list RowEntry)) : sent :=
  {| st_name := (h_generation h, h_version h); st_size := h_size h; st_base := base; st_scroll := scroll;
     st_parts := (λ ig, part_of h base scroll (len groups) ig.1 ig.2) <$> numbered 0 groups;
     st_spans := update_span <$> us; st_target := wire <$> F |}.

(** What a client can hold of a screen's chunks until it joins them. *)
Definition holdable (bud : Z) (us : list RowUpdate) : Prop := text_bytes (cut_ (entry_span <$> spans bud us)) ≤ HELD_CHUNK_BYTES.

Record sendable (h : ScreenHeader) (base : option Z) (scroll : option ScrollBand) (us : list RowUpdate) (bud : Z) (F : list RowFrame)
    (groups : list (list RowEntry)) : Prop := {
  sd_grid : Fields.is_grid (h_size h);
  sd_rows : len F = Fields.rows (h_size h);
  sd_updates : Forall (update_full (h_size h)) us;
  sd_sorted : sorted_rows us;
  sd_groups : concat groups = spans bud us;
  sd_some : groups ≠ [];
  sd_band : ∀ b, scroll = Some b → is_applicable b (Fields.rows (h_size h)) = true ∧ 0 ≤ top b;
  sd_hold : holdable bud us;
  sd_whole : base = None → scroll = None ∧ Forall (row_good (Fields.cols (h_size h))) F ∧ us = every F
}.

Lemma part_of_rows h base scroll n i g : part_rows (part_of h base scroll n i g) = entry_span <$> g.
Proof. unfold part_of. by destruct (i =? 0). Qed.

Lemma numbered_length {A} i (l : list A) : length (numbered i l) = length l.
Proof. revert i. induction l; intros; [done|]. cbn [numbered length]. by f_equal. Qed.

Lemma sent_flat h base scroll us F groups : flat (sent_screen h base scroll us F groups) = entry_span <$> concat groups.
Proof.
  unfold flat, rows_of. cbn [st_parts sent_screen]. generalize (len groups), 0. intros n. induction groups as [|g gs IH]; intros i; [done|].
  cbn [numbered]. rewrite !fmap_cons. cbn [concat fst snd]. by rewrite part_of_rows, IH, fmap_app.
Qed.



(** The one span of an update is one the client takes. *)
Lemma update_fits size u : Fields.is_grid size → update_full size u →
  joined_fits (Fields.rows size) (Fields.cols size) (update_span u) = true ∧ 0 ≤ sp_row (update_span u) < Fields.rows size.
Proof.
  intros _ Hu. pose proof (update_shape size u Hu) as [_ Ss Sf _ _]. destruct Hu as [[Hrow Hr Ht Hc Hab] _ _ _]. destruct u as [row r [a b] clear].
  cbn [u_row u_frame u_runs fst snd] in *. destruct (limit_range r Hr b ltac:(lia) b ltac:(lia)) as [Hl He].
  pose proof (chunk_fits r Hr Ht (Fields.cols size) Hc a b (limit r b) (edge r b) Hab Hl He (limit_boundary r Hr b) (limit_tight r Hr Ht b ltac:(lia))) as [F1 F2 F3 _ _ _].
  unfold joined_fits. cbn [update_span u_row u_frame u_runs u_clear sp_row sp_chunk sp_col sp_frame] in *. split; [|done].
  cbn [inert frame_of text runs cells c_text c_runs c_cells] in *. destruct (blank_ok _ F1) as (_ & -> & _). cbn [negb andb].
  rewrite !andb_true_iff, Z.ltb_lt, !Z.leb_le. unfold styled_bytes. cbn [text]. split_and!; try lia; try done. cbn [inert frame_of text]. destruct (blank_ok _ F1) as (_ & -> & _). lia.
Qed.

Lemma entry_rows_fit size l : Forall (entry_fits (Fields.rows size) (Fields.cols size)) l → rows_fit (entry_span <$> l) (Fields.rows size) (Fields.cols size) = true.
Proof.
  intros Hl. unfold rows_fit. apply forallb_forall. intros sp Hsp. apply list_elem_of_In, list_elem_of_fmap in Hsp as (e & -> & He). rewrite Forall_forall in Hl.
  destruct (Hl e He) as [E1 [_ _ E2 _ _ _] E3 _]. cbn [entry_span sp_row sp_frame sp_col sp_chunk inert frame_of cells] in *.
  rewrite !andb_true_iff, Z.ltb_lt, Z.leb_le, orb_true_iff, Z.leb_le. lia.
Qed.

Lemma every_rows F : u_row <$> every F = seqZ 0 (len F).
Proof. unfold every. rewrite <- list_fmap_compose. apply list_fmap_id. Qed.

Lemma sent_screen_ok h base scroll us bud F groups : sendable h base scroll us bud F groups → sent_ok (sent_screen h base scroll us F groups).
Proof.
  intros [D1 D2 D3 D4 D5 D6 D7 D8 D9]. pose proof D1 as [Hcols Hrows]. assert (Fields.cols (h_size h) ≤ U16_MAX) as Hc16 by (unfold Fields.MAX_COLS in *; lia).
  assert (flat (sent_screen h base scroll us F groups) = entry_span <$> spans bud us) as Ef by (by rewrite sent_flat, D5).
  assert (∀ l, l ≡ₚ cut_ (entry_span <$> spans bud us) → join_spans l = update_span <$> cuts bud us) as Hj by (intros l; by apply (join_any bud (h_size h))).
  assert (joined (sent_screen h base scroll us F groups) = update_span <$> cuts bud us) as Ej by (unfold joined; rewrite Ef; by apply Hj).
  assert (length (st_parts (sent_screen h base scroll us F groups)) = length groups) as El by (cbn [st_parts sent_screen]; by rewrite length_fmap, numbered_length).
  assert (∀ i p, st_parts (sent_screen h base scroll us F groups) !! i = Some p → ∃ g, p = part_of h base scroll (len groups) (Z.of_nat i) g) as Hp.
  { intros i p. cbn [st_parts sent_screen]. rewrite list_lookup_fmap, numbered_lookup. destruct (groups !! i) as [g|]; [|done]. intros [= <-]. exists g. cbn. by rewrite Z.add_0_l. }
  split; rewrite ?El, ?Ej, ?Ef; cbn [st_name st_size st_base st_scroll st_spans st_target sent_screen fst snd].
  - done.
  - by rewrite length_fmap.
  - destruct groups as [|g gs]; [done|]. exists (wire_header h), (entry_span <$> g). split; [done|]. by destruct h.
  - intros i p Hi Hne. destruct (Hp i p Hi) as [g ->]. rewrite part_of_rows. unfold part_of. by rewrite (proj2 (Z.eqb_neq _ _)) by lia.
  - rewrite (proj1 (spans_split bud (h_size h) us D3)), <- fmap_app. by rewrite split_perm.
  - exact Hj.
  - exact D8.
  - apply entry_rows_fit. by apply spans_apart; [eapply list.Forall_impl; [exact D3|]; intros u Hu; apply Hu|].
  - apply Forall_fmap, Forall_forall. intros u Hu. apply list_elem_of_filter in Hu as [_ Hu]. rewrite Forall_forall in D3. by apply update_fits, D3.
  - apply Forall_fmap. eapply list.Forall_impl; [exact D3|]. intros u. apply update_shape.
  - apply Forall_fmap. eapply list.Forall_impl; [exact D3|]. intros u Hu. by apply update_fits.
  - exact D7.
  - intros Hb. destruct (D9 Hb) as (W1 & W2 & W3). split; [done|].
    assert (sp_row <$> (update_span <$> us) = seqZ 0 (len F)) as Er.
    { rewrite W3, <- every_rows, <- list_fmap_compose. apply list_fmap_ext. intros i u _. unfold compose, update_span. by destruct (u_runs u). }
    split; [intros i Hi; rewrite Er; apply elem_of_seqZ; lia|]. intros C Hlen Hheld. rewrite length_fmap in *. split.
    + by rewrite length_fmap.
    + rewrite Er. apply NoDup_seqZ.
    + rewrite W3. unfold every. rewrite <- list_fmap_compose. apply Forall_fmap, Forall_forall. intros i Hi. apply elem_of_seqZ in Hi. unfold compose. cbn [sp_row update_span update_whole u_row u_frame u_runs u_clear]. rewrite length_fmap. split; [lia|].
      rewrite (list_lookup_total_fmap wire F (Z.to_nat i)) by lia. change (splice_into (C !!! Z.to_nat i) (update_span (update_whole i (F !!! Z.to_nat i))) = Some (wire (F !!! Z.to_nat i))).
      eapply splice_whole; [apply (Forall_at _ C); [done|lia]|by apply (Forall_at _ F)|]. unfold Fields.MAX_COLS in *. lia.
    + intros i Hi. rewrite Er, elem_of_seqZ, length_fmap in *. lia.
Qed.

End Cuts.
