(* ===== verification/Wire.v ===== *)
(** * The payload of a datagram ([crates/proto/src/wire.rs])

    A codec tag, then the payload as it is or deflated.  The compressor and the decompressor are
    [miniz_oxide]'s: [Deflate] is what the code calls of them and [DeflateLaws] what it relies on.
    A buffer is the list of its bytes; the thread's own codec state is reset before every use, so
    a call starts from [dinit], and the capacity a buffer keeps is not modelled. *)

From S2P Require Import Prelude Codec.

Module Wire.
Import Codec.

Definition PACK_TAG : Z := 1.
Definition TAG_STORED : Z := 0.
Definition TAG_DEFLATE : Z := 1.
Definition DEFLATE_FLOOR : Z := 256.
Definition INFLATE_GUESS : Z := 1024.
Definition INFLATE_RATIO : Z := 8.
Definition INFLATE_RETAIN : Z := 128 * 1024.

(** ** The library *)

Inductive TINFLStatus := Done | HasMoreOutput | Failed.

(** [compress] answers when it took the whole payload and finished within the room given;
    [decompress] is given the input left, the bytes written so far and how far the output reaches. *)
Class Deflate := {
  compress : list Z → Z → option (list Z);
  dstate : Type;
  dinit : dstate;
  decompress : dstate → list Z → list Z → Z → TINFLStatus * Z * list Z * dstate
}.

Section codec.
Context `{Deflate}.

Definition room_for (out : list Z) (n : Z) : list Z :=
  if len out <? n then out ++ replicate (Z.to_nat (n - len out)) 0 else out.

(** What a compressor that did not finish wrote past the tag is cut off by [store_from]. *)
Definition deflate_into (payload out : list Z) (at_ : Z) : bool * list Z :=
  let out := <[Z.to_nat at_ := TAG_DEFLATE]> (room_for out (at_ + len payload)) in
  match compress payload (len payload - 1) with
  | None => (false, out)
  | Some written => (true, take (Z.to_nat (at_ + 1)) out ++ written)
  end.
Definition store_from (payload out : list Z) (at_ : Z) : list Z := take (Z.to_nat at_) out ++ [TAG_STORED] ++ payload.
Definition store (payload out : list Z) : list Z := store_from payload out 0.
Definition pack_from (payload out : list Z) (at_ : Z) : list Z :=
  if DEFLATE_FLOOR <=? len payload then
    match deflate_into payload out at_ with
    | (true, out) => out
    | (false, out) => store_from payload out at_
    end
  else store_from payload out at_.
Definition pack (payload out : list Z) : list Z := pack_from payload out 0.

(** One turn a doubling of the room. *)
Fixpoint inflate_loop (fuel : nat) (limit : Z) (state : dstate) (input filled : list Z) (room : Z) : result (list Z) DecodeError :=
  match fuel with
  | O => Err InvalidField
  | S fuel =>
      let '(status, read, written, state) := decompress state input filled room in
      let filled := filled ++ written in
      match status with
      | Done => if read =? len input then Ok filled else Err InvalidField
      | HasMoreOutput =>
          if (read <=? len input) && (room <? limit)
          then inflate_loop fuel limit state (drop (Z.to_nat read) input) filled (Z.min (sat_mul USIZE_MAX room 2) limit)
          else Err InvalidField
      | Failed => Err InvalidField
      end
  end.
Definition first_room (body : list Z) (limit : Z) : Z := Z.min (Z.max (sat_mul USIZE_MAX (len body) INFLATE_RATIO) INFLATE_GUESS) limit.
Definition inflate_fuel (limit : Z) : nat := S (S (Z.to_nat (Z.log2 limit))).
Definition inflate_into (body : list Z) (limit : Z) : result (list Z) DecodeError :=
  inflate_loop (inflate_fuel limit) limit dinit body [] (first_room body limit).

Definition unpack (datagram_body : list Z) (limit : Z) : result (list Z) DecodeError :=
  match datagram_body with
  | [] => Err Truncated
  | tag :: body =>
      if tag =? TAG_STORED then if limit <? len body then Err InvalidField else Ok body
      else if tag =? TAG_DEFLATE then inflate_into body limit
      else Err InvalidField
  end.

End codec.

(** ** What is relied on *)

(** [decoding s i o y]: from state [s] with [i] to read and [o] written, [y] is still to come. *)
Class DeflateLaws `(D : Deflate) := {
  decoding : dstate → list Z → list Z → list Z → Prop;
  compress_room p n b : compress p n = Some b → len b ≤ n;
  compress_starts p n b : compress p n = Some b → decoding dinit b [] p;
  decompress_done s i o y room : decoding s i o y → len o + len y ≤ room → ∃ s', decompress s i o room = (Done, len i, y, s');
  decompress_more s i o y room : decoding s i o y → len o ≤ room < len o + len y →
    ∃ k s', decompress s i o room = (HasMoreOutput, k, take (Z.to_nat (room - len o)) y, s') ∧ 0 ≤ k ≤ len i ∧
      decoding s' (drop (Z.to_nat k) i) (o ++ take (Z.to_nat (room - len o)) y) (drop (Z.to_nat (room - len o)) y);
  decompress_fits s i o room st k w s' : decompress s i o room = (st, k, w, s') → len o ≤ room → len (o ++ w) ≤ room
}.

Section laws.
Context `{D : Deflate} `{!DeflateLaws D}.

(** Every turn doubles the room, so the output is reached before the fuel is out. *)
Lemma inflate_finishes fuel limit s i o y room : decoding s i o y → len o ≤ room ≤ limit → 0 < room → len o + len y ≤ limit → limit ≤ USIZE_MAX →
  limit ≤ room * 2 ^ (Z.of_nat fuel - 1) → (0 < fuel)%nat → inflate_loop fuel limit s i o room = Ok (o ++ y).
Proof.
  revert s i o y room. induction fuel as [|fuel IH]; intros s i o y room Hd Hr Hpos Hl Hu Hf Hfuel; [lia|]. cbn [inflate_loop].
  destruct (decide (len o + len y ≤ room)) as [Hfit|Hmore].
  - destruct (decompress_done s i o y room Hd Hfit) as [s' ->]. by rewrite Z.eqb_refl.
  - destruct (decompress_more s i o y room Hd ltac:(lia)) as (k & s' & -> & Hk & Hd'). rewrite (proj2 (Z.leb_le _ _)), (proj2 (Z.ltb_lt room limit)) by lia. cbn [andb].
    assert (0 < fuel)%nat as Hf2.
    { destruct fuel; [|lia]. exfalso. rewrite Z.sub_diag, Z.pow_0_r in Hf. lia. }
    replace (Z.of_nat (S fuel) - 1) with (Z.succ (Z.of_nat fuel - 1)) in Hf by lia. rewrite Z.pow_succ_r in Hf by lia. unfold sat_mul.
    rewrite IH with (y := drop (Z.to_nat (room - len o)) y); try done; try lia.
    + f_equal. by rewrite <- app_assoc, take_drop.
    + rewrite length_app, length_take. lia.
    + rewrite length_app, length_take, length_drop. lia.
    + pose proof (Z.pow_pos_nonneg 2 (Z.of_nat fuel - 1) ltac:(lia) ltac:(lia)). destruct (Z.min_spec (Z.min USIZE_MAX (room * 2)) limit) as [[? ->]|[? ->]]; nia.
Qed.

Lemma pack_shape payload out at_ : 0 ≤ at_ ≤ len out →
  (∃ b, compress payload (len payload - 1) = Some b ∧ pack_from payload out at_ = take (Z.to_nat at_) out ++ TAG_DEFLATE :: b ∧ DEFLATE_FLOOR ≤ len payload) ∨
  pack_from payload out at_ = take (Z.to_nat at_) out ++ TAG_STORED :: payload.
Proof.
  intros Ha. unfold pack_from, deflate_into, store_from. destruct (Z.leb_spec DEFLATE_FLOOR (len payload)) as [Hp|]; [|by right].
  unfold DEFLATE_FLOOR in *. assert (∃ rest_, <[Z.to_nat at_ := TAG_DEFLATE]> (room_for out (at_ + len payload)) = take (Z.to_nat at_) out ++ TAG_DEFLATE :: rest_) as [rest_ ->].
  { assert (at_ < len (room_for out (at_ + len payload))) as Hlt.
    { unfold room_for. destruct (Z.ltb_spec (len out) (at_ + len payload)); [rewrite length_app, length_replicate; lia|lia]. }
    rewrite insert_take_drop by lia. eexists. f_equal. unfold room_for. destruct (_ <? _); [|done]. rewrite take_app_le by lia. done. }
  destruct (compress _ _) as [b|] eqn:E.
  - left. exists b. split; [done|]. split; [|lia]. cbn [app]. rewrite (take_app_ge (take _ out)) by (rewrite length_take; lia).
    replace (Z.to_nat (at_ + 1) - length (take (Z.to_nat at_) out))%nat with 1%nat by (rewrite length_take; lia). cbn [take]. by rewrite <- app_assoc.
  - right. by rewrite take_app_le, take_ge by (rewrite length_take; lia).
Qed.

Lemma pack_unpacked payload out at_ : 0 ≤ at_ ≤ len out →
  ∃ body, pack_from payload out at_ = take (Z.to_nat at_) out ++ body ∧ len body ≤ len payload + PACK_TAG ∧
    ∀ limit, 0 < limit ≤ USIZE_MAX → len payload ≤ limit → unpack body limit = Ok payload.
Proof.
  intros Ha. destruct (pack_shape payload out at_ Ha) as [(b & Hb & -> & Hfloor)| ->]; eexists; (split; [done|]); cbn [length]; unfold PACK_TAG.
  - pose proof (compress_room _ _ _ Hb). unfold DEFLATE_FLOOR in *. split; [lia|]. intros limit Hl Hp. cbn [unpack]. change (TAG_DEFLATE =? TAG_STORED) with false. rewrite Z.eqb_refl. cbn [andb].
    unfold inflate_into, first_room, sat_mul, INFLATE_RATIO, INFLATE_GUESS. rewrite (inflate_finishes _ limit dinit b [] payload); [done|by eapply compress_starts|simpl; lia|lia|simpl; lia|lia| |unfold inflate_fuel; lia].
    unfold inflate_fuel. pose proof (Z.log2_spec limit ltac:(lia)) as [_ Hlog]. pose proof (Z.log2_nonneg limit).
    replace (Z.of_nat (S (S (Z.to_nat (Z.log2 limit)))) - 1) with (Z.succ (Z.log2 limit)) by lia.
    pose proof (Z.pow_pos_nonneg 2 (Z.succ (Z.log2 limit)) ltac:(lia) ltac:(lia)). assert (1 ≤ Z.min (Z.max (Z.min USIZE_MAX (len b * 8)) 1024) limit) by lia. nia.
  - split; [lia|]. intros limit Hl Hp. cbn [unpack]. rewrite Z.eqb_refl. by rewrite (proj2 (Z.ltb_ge _ _)) by lia.
Qed.

(** A packed payload unpacks to itself: whatever the compressor decides, the datagram's body
    is a tag and at most the payload's own length, and a reader that accepts payloads of that
    length gets it back, in at most one turn a doubling of its room. *)
Theorem pack_unpacks payload out at_ limit :
  0 ≤ at_ ≤ len out ∧ 0 < limit ≤ USIZE_MAX ∧ len payload ≤ limit →
  ∃ body, pack_from payload out at_ = take (Z.to_nat at_) out ++ body ∧ len body ≤ len payload + PACK_TAG ∧ unpack body limit = Ok payload.
Proof. intros (Ha & Hl & Hp). destruct (pack_unpacked payload out at_ Ha) as (body & E & Hb & Hu). exists body. split_and!; auto. Qed.

(** Nothing unpacks to more than the reader accepts. *)
Lemma inflate_bounded fuel limit s i o room y : len o ≤ room ≤ limit → limit ≤ USIZE_MAX → 0 ≤ room → inflate_loop fuel limit s i o room = Ok y → len y ≤ limit.
Proof.
  revert s i o room. induction fuel as [|fuel IH]; intros s i o room Hr Hu Hpos; cbn [inflate_loop]; [done|].
  destruct (decompress s i o room) as [[[st k] w] s'] eqn:E. apply decompress_fits in E; [|lia]. destruct st; [|destruct (_ && _)|]; try done.
  - destruct (k =? len i); [|done]. intros [= <-]. lia.
  - apply IH; unfold sat_mul; lia.
Qed.

Lemma unpack_bounded body limit y : 0 ≤ limit ≤ USIZE_MAX → unpack body limit = Ok y → len y ≤ limit.
Proof.
  intros Hl. destruct body as [|tag body]; [done|]. cbn [unpack]. destruct (tag =? TAG_STORED).
  - destruct (Z.ltb_spec limit (len body)); [done|]. by intros [= <-].
  - destruct (tag =? TAG_DEFLATE); [|done]. unfold inflate_into, first_room, INFLATE_GUESS, sat_mul. apply inflate_bounded; simpl; lia.
Qed.

End laws.

(** ** A codec that has the laws *)

(** Runs of one byte: the byte, then how many, in four. *)
Definition run_expand (b : list Z) : list Z := replicate (Z.to_nat (from_be (drop 1 b))) (b !!! O).
Definition toy_deflate : Deflate := {|
  compress p n := if bool_decide (p = run_expand ((p !!! O) :: to_be 4 (len p)) ∧ len p < 2 ^ 32 ∧ 5 ≤ n) then Some ((p !!! O) :: to_be 4 (len p)) else None;
  dstate := option (list Z);
  dinit := None;
  decompress s i o room :=
    let y := match s with Some y => y | None => run_expand i end in
    if len o + len y <=? room then (Done, len i, y, Some [])
    else (HasMoreOutput, len i, take (Z.to_nat (room - len o)) y, Some (drop (Z.to_nat (room - len o)) y))
|}.

#[export] Instance toy_laws : DeflateLaws toy_deflate.
Proof.
  refine {| decoding := λ (s : @dstate toy_deflate) i o y, match s with Some y' => y' = y | None => run_expand i = y end |}; cbn [compress decompress dinit toy_deflate].
  - intros p n b. case_bool_decide as E; [|done]. intros [= <-]. cbn [length]. rewrite length_to_be. lia.
  - intros p n b. case_bool_decide as E; [|done]. intros [= <-]. symmetry. apply E.
  - intros s i o y room Hd Hr. assert (match s with Some y => y | None => run_expand i end = y) as -> by (by destruct s). rewrite (proj2 (Z.leb_le _ _)) by done. by eexists.
  - intros s i o y room Hd Hr. assert (match s with Some y => y | None => run_expand i end = y) as -> by (by destruct s). rewrite (proj2 (Z.leb_gt _ _)) by lia.
    eexists _, _. split; [done|]. split; [lia|done].
  - intros s i o room st k w s' E Ho. set (y := match s with Some y => y | None => _ end) in *. clearbody y.
    destruct (Z.leb_spec (len o + len y) room); injection E as <- <- <- <-; rewrite length_app; [lia|rewrite length_take; lia].
Defined.

(** Witness of [pack_unpacks]. *)
Lemma pack_unpacks_witness :
  ∃ body, @pack_from toy_deflate (replicate 300 32) [9; 9; 9; 9; 7] 4 = [9; 9; 9; 9] ++ body ∧ len body ≤ 301 ∧ @unpack toy_deflate body 1000 = Ok (replicate 300 32).
Proof. apply (@pack_unpacks toy_deflate toy_laws (replicate 300 32) [9; 9; 9; 9; 7] 4 1000). rewrite length_replicate. simpl. lia. Defined.

End Wire.
