(* ===== verification/Backlog.v ===== *)
(** * Output kept for replay ([crates/server/src/backlog.rs])

    A ring of the newest output bytes, which grows into its capacity.  Lengths and positions are
    [nat]s: they are bounded by a vector's length, so the code's saturating arithmetic on them does
    not saturate.  Offsets are 64 bits wide.

    [ring_ok] says what the ring stands for: the newest [capacity] bytes of everything pushed. *)

From S2P Require Import Prelude.

Module Backlog.

Record BacklogRing := mkRing { buf : list Z; capacity : nat; base : Z; len_ : nat; head : nat }.
#[export] Instance BacklogRing_settable : Settable BacklogRing := λ r, mkRing (buf r) (capacity r) (base r) (len_ r) (head r).

Definition FLOOR : nat := 16 * 1024.

Definition new (capacity : nat) : BacklogRing := {| buf := []; capacity := capacity; base := 0; len_ := 0; head := 0 |}.

(** [while size < needed], one turn a doubling. *)
Fixpoint double_to (fuel size needed : nat) : nat :=
  match fuel with
  | O => size
  | S fuel => if (size <? needed)%nat then double_to fuel (size * 2) needed else size
  end.

Definition grow_for (r : BacklogRing) (extra : nat) : BacklogRing :=
  let needed := ((len_ r + extra) `min` capacity r)%nat in
  if (needed <=? length (buf r))%nat then r
  else
    let size := double_to needed (length (buf r) `max` FLOOR) needed in
    let size := (size `min` capacity r)%nat in
    let first := ((length (buf r) - head r) `min` len_ r)%nat in
    r <| buf := slice (head r) (head r + first) (buf r) ++ take (len_ r - first) (buf r) ++ replicate (size - len_ r) 0 |> <| head := O |>.

Definition advance (base : Z) (n : nat) : Z := default base (checked_add U64_MAX base (Z.of_nat n)).

Definition push (r : BacklogRing) (input : list Z) : BacklogRing :=
  match input with
  | [] => r
  | _ =>
      if (capacity r =? 0)%nat then r <| base := advance (base r) (length input) |>
      else
        let r := grow_for r (length input) in
        let n := length (buf r) in
        let skip := (length input - n)%nat in
        let bytes := drop skip input in
        let overwrite := (len_ r + length bytes - n)%nat in
        let r := if (0 <? overwrite)%nat then r <| head := ((head r + overwrite) mod n)%nat |> <| len_ := (len_ r - overwrite)%nat |> else r in
        let r := r <| base := advance (base r) (skip + overwrite) |> in
        let tail := ((head r + len_ r) mod n)%nat in
        let first := (length bytes `min` (n - tail))%nat in
        let b := take tail (buf r) ++ take first bytes ++ drop (tail + first) (buf r) in
        let b := if (first <? length bytes)%nat then drop first bytes ++ drop (length bytes - first) b else b in
        r <| buf := b |> <| len_ := (len_ r + length bytes)%nat |>
  end.

Definition replay_from (r : BacklogRing) (off : Z) : option (list Z * list Z) :=
  start ← checked_sub off (base r);
  let start := Z.to_nat start in
  if (len_ r <? start)%nat then None
  else
    match buf r with
    | [] => if (0 <? capacity r)%nat then Some ([], []) else None
    | _ =>
        let physical := ((head r + start) mod length (buf r))%nat in
        let first_len := ((len_ r - start) `min` (length (buf r) - physical))%nat in
        let second_len := (len_ r - start - first_len)%nat in
        Some (slice physical (physical + first_len) (buf r), take second_len (buf r))
    end.

(** ** What a ring stands for *)

(** The byte [i] places after the head. *)
Definition at_ (r : BacklogRing) (i : nat) : Z := buf r !!! ((head r + i) mod length (buf r))%nat.

Record ring_ok (r : BacklogRing) (hist : list Z) : Prop := {
  ro_buf : (length (buf r) ≤ capacity r)%nat;
  ro_head : buf r = [] ∧ head r = O ∧ len_ r = O ∨ (head r < length (buf r))%nat;
  ro_len : (len_ r ≤ length (buf r))%nat;
  ro_kept : len_ r = (length hist `min` capacity r)%nat;
  ro_base : base r + Z.of_nat (len_ r) = len hist;
  ro_bytes : ∀ i, (i < len_ r)%nat → hist !! (length hist - len_ r + i)%nat = Some (at_ r i)
}.

Lemma wrap x n : (0 < n)%nat → (x < 2 * n)%nat → (x mod n = if x <? n then x else x - n)%nat.
Proof.
  intros Hn Hx. destruct (Nat.ltb_spec x n); [by apply Nat.mod_small|]. replace x with (x - n + 1 * n)%nat at 1 by lia. rewrite Nat.Div0.mod_add. apply Nat.mod_small. lia.
Qed.

Lemma ring_new capacity : ring_ok (new capacity) [].
Proof. split; cbn; try lia; by left. Qed.

Lemma double_to_spec fuel size needed : (needed ≤ size + fuel)%nat → (0 < size)%nat → (needed ≤ double_to fuel size needed ∧ size ≤ double_to fuel size needed)%nat.
Proof.
  revert size. induction fuel as [|fuel IH]; intros size Hf Hs; cbn [double_to]; [lia|]. destruct (Nat.ltb_spec size needed); [|lia].
  destruct (IH (size * 2)%nat ltac:(lia) ltac:(lia)). lia.
Qed.

Ltac unset := cbn [assign buf capacity base len_ head].

(** Growing keeps what is held, and makes all the room the capacity allows. *)
Lemma grow_ok r hist extra : ring_ok r hist → (0 < capacity r)%nat → (0 < extra)%nat →
  ring_ok (grow_for r extra) hist ∧ capacity (grow_for r extra) = capacity r ∧ (0 < length (buf (grow_for r extra)))%nat ∧
  ((len_ r + extra) `min` capacity r ≤ length (buf (grow_for r extra)))%nat.
Proof.
  intros Hok Hc He. pose proof Hok as [R1 R2 R3 R4 R5 R6]. unfold grow_for. destruct (Nat.leb_spec ((len_ r + extra) `min` capacity r) (length (buf r))) as [Hle|Hgt]; [split; [done|lia]|].
  set (first := ((length (buf r) - head r) `min` len_ r)%nat). set (needed := ((len_ r + extra) `min` capacity r)%nat) in *.
  destruct (double_to_spec needed (length (buf r) `max` FLOOR)%nat needed ltac:(lia) ltac:(unfold FLOOR; lia)) as [D1 D2].
  set (size := double_to _ _ _) in *. unset.
  assert (length (slice (head r) (head r + first) (buf r)) = first) as L1.
  { rewrite length_slice. destruct R2 as [(E & ? & ?)|?]; [rewrite E; unfold first; rewrite E; cbn [length]; lia|lia]. }
  assert (length (take (len_ r - first) (buf r)) = len_ r - first)%nat as L2 by (rewrite length_take; lia).
  assert (length (slice (head r) (head r + first) (buf r) ++ take (len_ r - first) (buf r) ++ replicate (size `min` capacity r - len_ r) 0%Z) = size `min` capacity r)%nat as L3.
  { rewrite !length_app, L1, L2, length_replicate. lia. }
  rewrite L3. split; [|lia]. split; unset; rewrite ?L3; try done; try lia. intros i Hi. rewrite R6 by done. f_equal. unfold at_. unset. rewrite L3, Nat.add_0_l.
  rewrite (wrap i) by lia. rewrite (proj2 (Nat.ltb_lt _ _)) by lia. destruct R2 as [(E & ? & ?)|Hh]; [lia|]. rewrite wrap by lia. destruct (Nat.ltb_spec i first) as [H1|H1].
  - rewrite lookup_total_app_l by lia. unfold slice. rewrite lookup_total_take_lt by lia. rewrite lookup_total_drop. by rewrite (proj2 (Nat.ltb_lt _ _)) by lia.
  - rewrite lookup_total_app_r, L1 by lia. rewrite lookup_total_app_l, lookup_total_take_lt by lia. rewrite (proj2 (Nat.ltb_ge _ _)) by lia. f_equal. lia.
Qed.

(** The bytes written after the newest are read back in order, and the rest stay. *)
Lemma write_at (b bytes : list Z) tail j : (tail < length b)%nat → (length bytes ≤ length b)%nat → (j < length b)%nat →
  let first := (length bytes `min` (length b - tail))%nat in
  let b1 := take tail b ++ take first bytes ++ drop (tail + first) b in
  let b2 := if (first <? length bytes)%nat then drop first bytes ++ drop (length bytes - first) b1 else b1 in
  length b2 = length b ∧
  b2 !!! j = if (tail <=? j)%nat && (j <? tail + length bytes)%nat then bytes !!! (j - tail)%nat
             else if (j + length b <? tail + length bytes)%nat then bytes !!! (j + length b - tail)%nat else b !!! j.
Proof.
  intros Ht Hb Hj first. assert (first = length bytes `min` (length b - tail))%nat as Ef by done. clearbody first. intros b1 b2. assert (length b1 = length b) as L1 by (unfold b1; rewrite !length_app, !length_take, length_drop; lia).
  assert (length b2 = length b) as L2.
  { unfold b2. destruct (Nat.ltb_spec first (length bytes)); [|done]. rewrite length_app, !length_drop, L1. lia. }
  split; [done|].
  assert (∀ k, (k < length b)%nat → b1 !!! k = if (tail <=? k)%nat && (k <? tail + first)%nat then bytes !!! (k - tail)%nat else b !!! k) as H1.
  { intros k Hk. unfold b1. destruct (Nat.leb_spec tail k) as [G1|G1]; cbn [andb].
    - rewrite lookup_total_app_r, length_take, Nat.min_l by (rewrite ?length_take; lia). destruct (Nat.ltb_spec k (tail + first)) as [G2|G2].
      + rewrite lookup_total_app_l, lookup_total_take_lt by (rewrite ?length_take; lia). done.
      + rewrite lookup_total_app_r, length_take by (rewrite length_take; lia). rewrite lookup_total_drop. f_equal. lia.
    - rewrite lookup_total_app_l, lookup_total_take_lt by (rewrite ?length_take; lia). done. }
  unfold b2. destruct (Nat.ltb_spec first (length bytes)) as [Hf|Hf].
  - destruct (Nat.ltb_spec j (length bytes - first)) as [G|G].
    + rewrite lookup_total_app_l, lookup_total_drop by (rewrite length_drop; lia). rewrite (proj2 (Nat.leb_gt _ _)), (proj2 (Nat.ltb_lt (j + _) _)) by lia. cbn [andb]. f_equal. lia.
    + rewrite lookup_total_app_r, length_drop, lookup_total_drop by (rewrite length_drop; lia). replace (length bytes - first + (j - (length bytes - first)))%nat with j by lia.
      rewrite H1 by done. rewrite (proj2 (Nat.ltb_ge (j + _) _)) by lia. destruct (Nat.leb_spec tail j); cbn [andb]; [|done].
      rewrite !(proj2 (Nat.ltb_lt j _)) by lia. done.
  - rewrite H1 by done. rewrite (proj2 (Nat.ltb_ge (j + _) _)) by lia. replace (length bytes) with first by lia. done.
Qed.

(** In the ring's own order: [l] bytes from [h] stay, and the bytes come after them. *)
Lemma ring_write (b bytes : list Z) h l : (h < length b)%nat → (l + length bytes ≤ length b)%nat →
  let n := length b in
  let tail := ((h + l) mod n)%nat in
  let first := (length bytes `min` (n - tail))%nat in
  let b1 := take tail b ++ take first bytes ++ drop (tail + first) b in
  let b2 := if (first <? length bytes)%nat then drop first bytes ++ drop (length bytes - first) b1 else b1 in
  length b2 = n ∧ ∀ i, (i < l + length bytes)%nat → b2 !!! ((h + i) mod n)%nat = if (i <? l)%nat then b !!! ((h + i) mod n)%nat else bytes !!! (i - l)%nat.
Proof.
  intros Hh Hl n. assert (n = length b) as En by done. clearbody n. rewrite <- En in *. intros tail.
  assert (tail = if (h + l <? n)%nat then (h + l)%nat else (h + l - n)%nat) as Et by (unfold tail; apply wrap; lia). clearbody tail.
  assert (tail < n)%nat as Ht by (rewrite Et; destruct (Nat.ltb_spec (h + l) n); lia).
  pose proof (λ j Hj, write_at b bytes tail j ltac:(lia) ltac:(lia) Hj) as Hw. cbv zeta in Hw. rewrite <- En in Hw. cbv zeta.
  set (b2 := if (_ <? length bytes)%nat then _ else _) in *. clearbody b2. split; [by apply (Hw O); lia|]. intros i Hi.
  rewrite (wrap (h + i)) by lia. set (j := if (h + i <? n)%nat then (h + i)%nat else (h + i - n)%nat). assert (j = if (h + i <? n)%nat then (h + i)%nat else (h + i - n)%nat) as Ej by done. clearbody j.
  assert (j < n)%nat as Hj by (rewrite Ej; destruct (Nat.ltb_spec (h + i) n); lia). destruct (Hw j Hj) as [_ ->].
  destruct (Nat.ltb_spec (h + i) n), (Nat.ltb_spec (h + l) n), (Nat.ltb_spec i l), (Nat.leb_spec tail j), (Nat.ltb_spec j (tail + length bytes)), (Nat.ltb_spec (j + n) (tail + length bytes));
    cbn [andb]; try lia; try done; f_equal; lia.
Qed.

Lemma ring_advances b n : 0 ≤ b → b + Z.of_nat n ≤ U64_MAX → advance b n = b + Z.of_nat n.
Proof. intros H1 H2. unfold advance, checked_add. by rewrite (proj2 (Z.leb_le _ _)). Qed.

(** The ring after the head moved past what will be overwritten. *)
Lemma drop_oldest r hist n : ring_ok r hist → (0 < length (buf r))%nat → (n ≤ len_ r)%nat →
  let r' := if (0 <? n)%nat then r <| head := ((head r + n) mod length (buf r))%nat |> <| len_ := (len_ r - n)%nat |> else r in
  buf r' = buf r ∧ capacity r' = capacity r ∧ base r' = base r ∧ (head r' < length (buf r))%nat ∧ len_ r' = (len_ r - n)%nat ∧
  ∀ i, (i < len_ r - n)%nat → at_ r' i = at_ r (n + i).
Proof.
  intros [R1 R2 R3 R4 R5 R6] Hb Hn. assert (head r < length (buf r))%nat as Hh by (destruct R2 as [(E & _)|?]; [rewrite E in Hb; simpl in Hb; lia|done]).
  destruct (Nat.ltb_spec 0 n) as [Hp|Hp]; cbv zeta; unset.
  - split_and!; try done; [apply Nat.mod_upper_bound; lia|]. intros i Hi. unfold at_. unset. f_equal. rewrite Nat.Div0.add_mod_idemp_l. f_equal. lia.
  - replace n with O by lia. rewrite Nat.sub_0_r. by split_and!.
Qed.

Lemma push_ok r hist input : ring_ok r hist → len hist + len input ≤ U64_MAX → ring_ok (push r input) (hist ++ input) ∧ capacity (push r input) = capacity r.
Proof.
  intros Hok Hu. unfold push. destruct input as [|x input0] eqn:Ei; [by rewrite app_nil_r|]. rewrite <- Ei in *. assert (0 < length input)%nat as Hin by (rewrite Ei; simpl; lia). clear Ei x input0.
  destruct (Nat.eqb_spec (capacity r) 0) as [Hc|Hc].
  { destruct Hok as [R1 R2 R3 R4 R5 R6]. split; [|done]. split; unset; try done; rewrite ?length_app; try lia. rewrite ring_advances; lia. }
  destruct (grow_ok r hist (length input) Hok ltac:(lia) Hin) as (Hg & Gc & Gp & Gn).
  assert (len_ (grow_for r (length input)) = len_ r) as Gl by (rewrite !ro_kept with (hist := hist), Gc by done; done).
  set (g := grow_for r (length input)) in *. clearbody g. cbv zeta. set (skip := (length input - length (buf g))%nat). set (bytes := drop skip input).
  assert (length bytes = length input - skip ∧ skip = length input - length (buf g))%nat as [Lb Es] by (unfold bytes; by rewrite length_drop).
  pose proof Hg as [R1 R2 R3 R4 R5 R6]. set (over := (len_ g + length bytes - length (buf g))%nat). assert (over = len_ g + length bytes - length (buf g))%nat as Eo by done.
  destruct (drop_oldest g hist over Hg Gp ltac:(lia)) as (D1 & D2 & D3 & D4 & D5 & D6). set (g1 := if (0 <? over)%nat then _ else g) in *. clearbody g1 over.
  unset. rewrite D1, D3, D5. destruct (ring_write (buf g) bytes (head g1) (len_ g - over) D4 ltac:(lia)) as [W1 W2]. cbv zeta in W1, W2.
  set (b2 := if (_ <? length bytes)%nat then _ else _) in *. clearbody b2. split; [|congruence]. split; unset; rewrite ?W1, ?D2, ?length_app; try lia; [rewrite ring_advances; lia|].
  intros i Hi. unfold at_. unset. rewrite W1, W2 by done. destruct (Nat.ltb_spec i (len_ g - over)) as [Hold|Hnew].
  - rewrite lookup_app_l by lia. replace (length hist + length input - (len_ g - over + length bytes) + i)%nat with (length hist - len_ g + (over + i))%nat by lia.
    rewrite R6, <- D6 by lia. unfold at_. by rewrite D1.
  - rewrite lookup_app_r by lia. unfold bytes. rewrite lookup_total_drop. destruct (lookup_lt_is_Some_2 input (skip + (i - (len_ g - over)))%nat) as [x Hx]; [lia|].
    rewrite (list_lookup_total_correct _ _ _ Hx), <- Hx. f_equal. rewrite length_drop. lia.
Qed.

Lemma pushes_ok chunks r hist : ring_ok r hist → len hist + len (concat chunks) ≤ U64_MAX →
  ring_ok (foldl push r chunks) (hist ++ concat chunks) ∧ capacity (foldl push r chunks) = capacity r.
Proof.
  revert r hist. induction chunks as [|c chunks IH]; intros r hist Hok Hu; cbn [foldl concat] in *; [by rewrite app_nil_r|]. rewrite length_app in Hu.
  destruct (push_ok r hist c Hok ltac:(lia)) as [H1 H2]. destruct (IH (push r c) (hist ++ c) H1) as [I1 I2]; [rewrite length_app; lia|]. rewrite app_assoc. split; [done|congruence].
Qed.

(** The two stretches of a replay are the ring's bytes from there on. *)
Lemma stretches r hist start : ring_ok r hist → (0 < length (buf r))%nat → (start ≤ len_ r)%nat →
  let physical := ((head r + start) mod length (buf r))%nat in
  let first_len := ((len_ r - start) `min` (length (buf r) - physical))%nat in
  slice physical (physical + first_len) (buf r) ++ take (len_ r - start - first_len) (buf r) = drop (length hist - len_ r + start) hist.
Proof.
  intros [R1 R2 R3 R4 R5 R6] Hb Hs. destruct R2 as [(E & _)|Hh]; [rewrite E in Hb; simpl in Hb; lia|]. intros physical.
  assert (physical = if (head r + start <? length (buf r))%nat then (head r + start)%nat else (head r + start - length (buf r))%nat) as Ep by (apply wrap; lia). clearbody physical.
  assert (physical < length (buf r))%nat as Hp by (rewrite Ep; destruct (Nat.ltb_spec (head r + start) (length (buf r))); lia).
  intros first_len. assert (first_len = (len_ r - start) `min` (length (buf r) - physical))%nat as Ef by done. clearbody first_len.
  assert (length (slice physical (physical + first_len) (buf r)) = first_len) as L1 by (rewrite length_slice; lia).
  apply list_eq_same_length with (len_ r - start)%nat; [rewrite length_drop; lia|rewrite length_app, L1, length_take; lia|]. intros i x y Hi Hx Hy.
  rewrite lookup_drop in Hy. replace (length hist - len_ r + start + i)%nat with (length hist - len_ r + (start + i))%nat in Hy by lia. rewrite R6 in Hy by lia. injection Hy as <-.
  unfold at_. rewrite (wrap (head r + (start + i))) by lia. apply list_lookup_total_correct in Hx. rewrite <- Hx. destruct (Nat.ltb_spec i first_len).
  - rewrite lookup_total_app_l by lia. unfold slice. rewrite lookup_total_take_lt, lookup_total_drop by lia. f_equal.
    destruct (Nat.ltb_spec (head r + start) (length (buf r))), (Nat.ltb_spec (head r + (start + i)) (length (buf r))); lia.
  - rewrite lookup_total_app_r, L1, lookup_total_take_lt by lia. f_equal.
    destruct (Nat.ltb_spec (head r + start) (length (buf r))), (Nat.ltb_spec (head r + (start + i)) (length (buf r))); lia.
Qed.

(** C13: A resuming client is given exactly the output it missed: after any reads of any sizes, the
    ring answers an offset with the bytes from there on, whenever that offset is among the newest
    [capacity] bytes, and refuses only offsets older than those or beyond the output. *)
Theorem replay_is_what_was_missed cap chunks off :
  (0 < cap)%nat ∧ len (concat chunks) ≤ U64_MAX ∧ 0 ≤ off →
  let hist := concat chunks in
  match replay_from (foldl push (new cap) chunks) off with
  | Some (a, b) => a ++ b = drop (Z.to_nat off) hist ∧ len hist - Z.of_nat cap ≤ off ≤ len hist
  | None => off < len hist - Z.of_nat cap ∨ len hist < off
  end.
Proof.
  intros (Hc & Hu & Ho) hist. destruct (pushes_ok chunks (new cap) [] (ring_new cap) ltac:(simpl; lia)) as [Hok Ec]. set (r := foldl push (new cap) chunks) in *. cbn [app] in Hok. fold hist in Hok.
  pose proof Hok as [R1 R2 R3 R4 R5 R6]. cbn [new capacity] in Ec. rewrite Ec in *. fold hist in Hu. unfold replay_from, checked_sub.
  destruct (Z.leb_spec (base r) off) as [Hb|Hb]; cbn [mbind option_bind]; [|left; lia]. destruct (Nat.ltb_spec (len_ r) (Z.to_nat (off - base r))); [right; lia|].
  destruct (buf r) as [|x l] eqn:Eb.
  - rewrite Ec, (proj2 (Nat.ltb_lt _ _)) by done. cbn [length] in R3. split; [|lia]. cbn [app]. rewrite drop_ge; [done|lia].
  - rewrite <- Eb. split; [|lia]. assert (0 < length (buf r))%nat as Hlen by (rewrite Eb; simpl; lia). rewrite (stretches r hist _ Hok Hlen) by lia. f_equal. lia.
Qed.

(** Witness: a ring of three bytes after five, asked for the last two. *)
Lemma replay_is_what_was_missed_witness :
  match replay_from (foldl push (new 3) [[1; 2]; [3; 4; 5]]) 3 with
  | Some (a, b) => a ++ b = drop (Z.to_nat 3) [1; 2; 3; 4; 5] ∧ 5 - 3 ≤ 3 ≤ 5
  | None => 3 < 5 - 3 ∨ 5 < 3
  end.
Proof. apply (replay_is_what_was_missed 3 [[1; 2]; [3; 4; 5]] 3). simpl. lia. Defined.

End Backlog.
