(* ===== verification/Defer.v ===== *)
(** * Deferred sequences ([crates/server/src/defer.rs])

    OSC sequences of output that a client is not sent, kept so the next screen can carry them: a
    scanner over the output and a bounded log.  A body is a list of UTF-8 bytes. *)

From S2P Require Import Prelude Codec.

Module Defer.
Import Codec.

Definition OSC_SCAN_LIMIT : nat := 4096.
Definition DEFERRED_ENTRIES : nat := 16.
Definition DEFERRED_BYTES : Z := 4096.
Definition ESC : Z := 0x1b.
Definition BEL : Z := 0x07.

Inductive Osc := Ground | Escape | Body | BodyEscape.
#[export] Instance Osc_eq_dec : EqDecision Osc.
Proof. solve_decision. Defined.

Record DeferredOsc := mkDeferred {
  scan : Osc; partial_ : list Z; truncated : bool; entries : list (Z * list Z); bytes : Z; next : Z
}.
#[export] Instance DeferredOsc_settable : Settable DeferredOsc := λ d,
  mkDeferred (scan d) (partial_ d) (truncated d) (entries d) (bytes d) (next d).

Definition new : DeferredOsc := {| scan := Ground; partial_ := []; truncated := false; entries := []; bytes := 0; next := 0 |}.
Definition mark (d : DeferredOsc) : Z := next d.

(** ** Which sequences are kept *)

Inductive DeferredKind := Sticky (number : Z) | Event.
#[export] Instance DeferredKind_eq_dec : EqDecision DeferredKind.
Proof. solve_decision. Defined.

Definition SEMICOLON : Z := 59.
(** What comes before the first semicolon, and after it. *)
Fixpoint split_once (s : list Z) : list Z * option (list Z) :=
  match s with
  | [] => ([], None)
  | b :: s => if b =? SEMICOLON then ([], Some s) else let '(h, t) := split_once s in (b :: h, t)
  end.

(** [str::parse::<u16>]; the strings it is given are too short to overflow. *)
Definition parse_u16 (s : list Z) : option Z :=
  let digits := match s with b :: rest => if b =? 43 then rest else s | [] => [] end in
  match digits with
  | [] => None
  | _ => if forallb is_ascii_digit digits then
           let v := foldl (λ v b, 10 * v + (b - 48)) 0 digits in if v <=? U16_MAX then Some v else None
         else None
  end.

Definition clipboard_write (body : list Z) : option DeferredKind :=
  rest ← (split_once body).2;
  data ← (split_once rest).2;
  if bool_decide (data = [63]) then None else Some Event.

Definition deferred_command (body : list Z) : option DeferredKind :=
  let head := (split_once body).1 in
  if (len head =? 0) || (3 <? len head) then None
  else
    number ← parse_u16 head;
    if bool_decide (number ∈ [0; 1; 2; 7]) then Some (Sticky number)
    else if bool_decide (number ∈ [8; 9; 133; 777]) then Some Event
    else if number =? 52 then clipboard_write body
    else None.

(** ** The log *)

Definition since (d : DeferredOsc) (from : Z) : list (list Z) := snd <$> filter (λ e, from ≤ e.1) (entries d).

(** How many of the newest fit. *)
Fixpoint carried (newest : list (list Z)) (total budget : Z) : nat :=
  match newest with
  | [] => O
  | entry :: newest =>
      let total := total + (len entry + 2) in
      if total <=? budget then S (carried newest total budget) else O
  end.
Definition carry (d : DeferredOsc) (from budget : Z) : list (list Z) :=
  let owed := since d from in
  drop (length owed - carried (reverse owed) 0 budget) owed.

Fixpoint forget (l : list (Z * list Z)) (bytes mark : Z) : list (Z * list Z) * Z :=
  match l with
  | (at_, dropped) :: l' => if at_ <? mark then forget l' (bytes - len dropped) mark else (l, bytes)
  | [] => ([], bytes)
  end.
Definition forget_before (d : DeferredOsc) (mark : Z) : DeferredOsc :=
  let '(l, b) := forget (entries d) (bytes d) mark in d <| entries := l |> <| bytes := b |>.

(** Oldest first, until both bounds hold. *)
Fixpoint evict (l : list (Z * list Z)) (bytes : Z) : list (Z * list Z) * Z :=
  if (DEFERRED_ENTRIES <? length l)%nat || (DEFERRED_BYTES <? bytes) then
    match l with
    | [] => ([], bytes)
    | (_, dropped) :: l => evict l (bytes - len dropped)
    end
  else (l, bytes).

Definition stale (number : Z) (kept : list Z) : bool := bool_decide (deferred_command kept = Some (Sticky number)).
Definition record (d : DeferredOsc) (command : DeferredKind) (body : list Z) : DeferredOsc :=
  let d :=
    match command with
    | Sticky number =>
        d <| entries := filter (λ e, stale number e.2 = false) (entries d) |>
          <| bytes := bytes d - sum_by (λ e, len e.2) (filter (λ e, stale number e.2 = true) (entries d)) |>
    | Event => d
    end in
  let '(l, b) := evict (entries d ++ [(next d, body)]) (bytes d + len body) in
  d <| entries := l |> <| bytes := b |> <| next := next d + 1 |>.

(** ** The scanner *)

Definition abandon (d : DeferredOsc) : DeferredOsc := d <| scan := Ground |> <| partial_ := [] |> <| truncated := false |>.

Definition finish (d : DeferredOsc) : DeferredOsc :=
  let body := partial_ d in
  let was := truncated d in
  let d := abandon d in
  if was then d
  else if negb (utf8 body) then d
  else if has_control body then d
  else match deferred_command body with None => d | Some command => record d command body end.

Definition push (d : DeferredOsc) (byte : Z) : DeferredOsc :=
  if (length (partial_ d) <? OSC_SCAN_LIMIT)%nat then d <| partial_ := partial_ d ++ [byte] |> else d <| truncated := true |>.

Definition step (d : DeferredOsc) (byte : Z) : DeferredOsc :=
  match scan d with
  | Ground => if byte =? ESC then d <| scan := Escape |> else d
  | Escape =>
      if byte =? 93 then d <| partial_ := [] |> <| truncated := false |> <| scan := Body |>
      else if byte =? ESC then d <| scan := Escape |> else d <| scan := Ground |>
  | Body =>
      if byte =? BEL then finish d
      else if byte =? ESC then d <| scan := BodyEscape |>
      else if between 0 byte 31 then abandon d
      else push d byte
  | BodyEscape => if byte =? 92 then finish d else if byte =? ESC then d else abandon d
  end.

Fixpoint position (b : Z) (l : list Z) : option nat :=
  match l with [] => None | x :: l => if x =? b then Some O else S <$> position b l end.

(** The run between escapes is skipped rather than stepped. *)
Fixpoint feed_loop (fuel : nat) (d : DeferredOsc) (rest_ : list Z) : DeferredOsc :=
  match fuel, rest_ with
  | O, _ | _, [] => d
  | S fuel, byte :: tail =>
      match scan d with
      | Ground =>
          match position ESC rest_ with
          | None => d
          | Some escape => feed_loop fuel (d <| scan := Escape |>) (drop (escape + 1) rest_)
          end
      | _ => feed_loop fuel (step d byte) tail
      end
  end.
Definition feed (d : DeferredOsc) (input : list Z) : DeferredOsc := feed_loop (length input) d input.

(** ** Skipping is stepping *)

Lemma ground_skips d l : scan d = Ground →
  foldl step d l = match position ESC l with None => d | Some escape => foldl step (d <| scan := Escape |>) (drop (escape + 1) l) end.
Proof.
  intros Hs. induction l as [|b l IH]; [done|]. cbn [foldl position]. unfold step at 2. rewrite Hs. destruct (b =? ESC); [done|]. rewrite IH. by destruct (position ESC l).
Qed.

Lemma feed_steps fuel d l : (length l ≤ fuel)%nat → feed_loop fuel d l = foldl step d l.
Proof.
  revert d l. induction fuel as [|fuel IH]; intros d l Hl; [by destruct l; [|simpl in Hl; lia]|]. destruct l as [|b l]; [by destruct fuel|]. cbn [feed_loop].
  destruct (scan d) eqn:E; try (cbn [foldl]; apply IH; simpl in Hl; lia).
  rewrite (ground_skips d (b :: l) E). destruct (position ESC (b :: l)) as [n|]; [|done]. apply IH. rewrite length_drop. simpl in *. lia.
Qed.

(** ** The log's bounds *)

Record log_ok (d : DeferredOsc) : Prop := {
  lo_partial : (length (partial_ d) ≤ OSC_SCAN_LIMIT)%nat;
  lo_typed : Forall is_byte (partial_ d);
  lo_entries : (length (entries d) ≤ DEFERRED_ENTRIES)%nat;
  lo_bytes : bytes d = sum_by (λ e, len e.2) (entries d) ∧ bytes d ≤ DEFERRED_BYTES;
  lo_marks : StronglySorted Z.lt (fst <$> entries d) ∧ Forall (λ e, 0 ≤ e.1 < next d) (entries d) ∧ 0 ≤ next d;
  lo_bodies : Forall (λ e, is_str e.2 ∧ has_control e.2 = false) (entries d)
}.

Ltac unset := cbn [assign scan partial_ truncated entries bytes next].

Lemma log_new : log_ok new.
Proof. split; cbn; try done; try lia. split_and!; [apply SSorted_nil|constructor|lia]. Qed.

Lemma evict_spec l b : b = sum_by (λ e, len e.2) l →
  ∃ k, (evict l b).1 = drop k l ∧ (evict l b).2 = sum_by (λ e, len e.2) (drop k l) ∧ (length (drop k l) ≤ DEFERRED_ENTRIES)%nat ∧ (evict l b).2 ≤ DEFERRED_BYTES.
Proof.
  revert b. induction l as [|[m x] l IH]; intros b ->.
  - exists O. cbn. unfold DEFERRED_BYTES. split_and!; try done; lia.
  - cbn [evict]. destruct ((_ <? _)%nat || _) eqn:E.
    + cbn [sum_by foldr snd]. destruct (IH (len x + foldr (λ e acc, len e.2 + acc) 0 l - len x)) as (k & I1 & I2 & I3 & I4); [unfold sum_by; lia|]. exists (S k). done.
    + apply orb_false_elim in E as [E1 E2]. apply Nat.ltb_ge in E1. zbool. exists O. done.
Qed.

Lemma sorted_drop k l : StronglySorted Z.lt l → StronglySorted Z.lt (drop k l).
Proof. intros H. revert k. induction H as [|x l Hl IH Hx]; intros [|k]; cbn [drop]; [constructor..|by constructor|apply IH]. Qed.
Lemma sorted_snoc l x : StronglySorted Z.lt l → Forall (λ y, y < x) l → StronglySorted Z.lt (l ++ [x]).
Proof.
  induction 1 as [|y l Hl IH Hy]; intros Hx; cbn [app]; [repeat constructor|]. apply list.Forall_cons in Hx as [? Hx]. constructor; [by apply IH|]. apply Forall_app. split; [done|by repeat constructor].
Qed.
Lemma kept_sorted (P : Z * list Z → Prop) `{∀ x, Decision (P x)} l : StronglySorted Z.lt (fst <$> l) → StronglySorted Z.lt (fst <$> filter P l).
Proof.
  induction l as [|e l IH]; [done|]. rewrite fmap_cons. intros Hs. apply StronglySorted_inv in Hs as [Hs He]. rewrite filter_cons. case_decide; [|by apply IH]. rewrite fmap_cons. constructor; [by apply IH|].
  rewrite Forall_forall in *. intros x Hx. apply He. apply list_elem_of_fmap in Hx as (y & -> & Hy). apply list_elem_of_filter in Hy as [_ Hy]. apply list_elem_of_fmap. by exists y.
Qed.

Lemma sum_split (f : list Z → bool) (l : list (Z * list Z)) :
  sum_by (λ e, len e.2) l = sum_by (λ e, len e.2) (filter (λ e, f e.2 = false) l) + sum_by (λ e, len e.2) (filter (λ e, f e.2 = true) l).
Proof.
  induction l as [|e l IH]; [done|]. rewrite !filter_cons. destruct (f e.2) eqn:E.
  - rewrite (decide_False (P := true = false)), (decide_True (P := true = true)) by done. cbn [sum_by foldr] in *. unfold sum_by in *. lia.
  - rewrite (decide_True (P := false = false)), (decide_False (P := false = true)) by done. cbn [sum_by foldr] in *. unfold sum_by in *. lia.
Qed.

Lemma record_ok d command body : log_ok d → is_str body → has_control body = false → log_ok (record d command body).
Proof.
  intros [L1 L2 L3 [L4 L5] (L6 & L7 & L8) L9] Hs Hc. unfold record. set (d1 := match command with Sticky _ => _ | Event => d end).
  assert (partial_ d1 = partial_ d ∧ next d1 = next d ∧ bytes d1 = sum_by (λ e, len e.2) (entries d1) ∧
    StronglySorted Z.lt (fst <$> entries d1) ∧ Forall (λ e, 0 ≤ e.1 < next d) (entries d1) ∧ Forall (λ e, is_str e.2 ∧ has_control e.2 = false) (entries d1)) as (E1 & E2 & E3 & E4 & E5 & E6).
  { unfold d1. destruct command; [|done]. unset. split_and!; try done.
    - rewrite L4, (sum_split (stale number)). lia.
    - by apply kept_sorted.
    - apply Forall_forall. intros e He. apply list_elem_of_filter in He as [_ He]. rewrite Forall_forall in L7. by apply L7.
    - apply Forall_forall. intros e He. apply list_elem_of_filter in He as [_ He]. rewrite Forall_forall in L9. by apply L9. }
  clearbody d1. destruct (evict_spec (entries d1 ++ [(next d1, body)]) (bytes d1 + len body)) as (k & V1 & V2 & V3 & V4); [rewrite sum_by_app, E3; cbn [sum_by foldr snd]; lia|].
  destruct (evict _ _) as [l b]. cbn [fst snd] in *. subst l. rewrite E2 in *. split; unset; rewrite ?E1, ?E2; try done.
  - split_and!; [|apply Forall_drop, Forall_app; split|lia].
    + rewrite fmap_drop, fmap_app. apply sorted_drop, sorted_snoc; [done|]. apply Forall_fmap. eapply list.Forall_impl; [exact E5|]. simpl. lia.
    + eapply list.Forall_impl; [exact E5|]. simpl. lia.
    + apply Forall_singleton. cbn. lia.
  - apply Forall_drop, Forall_app. split; [done|]. by apply Forall_singleton.
Qed.

Lemma abandon_logged d : log_ok d → log_ok (abandon d).
Proof. intros [L1 L2 L3 L4 L5 L6]. split; unset; try done. cbn. unfold OSC_SCAN_LIMIT. lia. Qed.

Lemma step_ok d b : log_ok d → is_byte b → log_ok (step d b).
Proof.
  intros Hd Hb. assert (log_ok (finish d)) as Hf.
  { unfold finish. pose proof (abandon_logged d Hd) as Ha. destruct (truncated d); [done|]. destruct (utf8 (partial_ d)) eqn:Eu; cbn [negb]; [|done]. destruct (has_control _) eqn:Ec; [done|].
    destruct (deferred_command _); [|done]. apply record_ok; [done| |done]. split; [apply Hd|done]. }
  assert (∀ s, log_ok (d <| scan := s |>)) as Hs by (intros s; destruct Hd; by split). pose proof (abandon_logged d Hd) as Ha.
  unfold step. destruct (scan d); repeat case_match; try done; try apply Hs.
  - destruct Hd as [L1 L2 L3 L4 L5 L6]. split; unset; try done. cbn. unfold OSC_SCAN_LIMIT. lia.
  - unfold push. destruct Hd as [L1 L2 L3 L4 L5 L6]. destruct (Nat.ltb_spec (length (partial_ d)) OSC_SCAN_LIMIT); split; unset; try done.
    + rewrite length_app. simpl. lia.
    + apply Forall_app. split; [done|]. by apply Forall_singleton.
Qed.

(** Whatever a program writes, in whatever reads it comes: feeding the scanner is stepping it
    byte by byte, so where the reads fall makes no difference; and the log stays within its bounds,
    its byte count is the length of what it holds, marks ascend, and every body is text without
    control characters, so a screen that carries it encodes. *)
Theorem feed_is_bounded_and_seamless inputs :
  Forall (Forall is_byte) inputs →
  let d := foldl feed new inputs in d = foldl step new (concat inputs) ∧ log_ok d.
Proof.
  intros Hb d. assert (∀ e, log_ok e → foldl feed e inputs = foldl step e (concat inputs) ∧ log_ok (foldl feed e inputs)) as H; [|by apply H, log_new].
  clear d. induction Hb as [|i inputs Hi Hb IH]; intros e He; [done|]. cbn [foldl concat]. rewrite foldl_app. unfold feed at 2 4. rewrite feed_steps by done.
  apply IH. clear IH. revert e He. induction Hi as [|b i Hx Hi IH]; intros e He; [done|]. cbn [foldl]. apply IH. by apply step_ok.
Qed.

(** Witness: a title cut across two reads. *)
Lemma feed_is_bounded_and_seamless_witness :
  let inputs := [[27; 93; 48; 59]; [104; 105; 7]] in
  foldl feed new inputs = foldl step new (concat inputs) ∧ log_ok (foldl feed new inputs).
Proof. apply (feed_is_bounded_and_seamless [[27; 93; 48; 59]; [104; 105; 7]]). repeat constructor; lia. Defined.

Example feed_title : entries (foldl feed new [[27; 93; 48; 59]; [104; 105; 7]]) = [(0, [48; 59; 104; 105])].
Proof. by vm_compute. Qed.
Example feed_clipboard_read : entries (feed new [27; 93; 53; 50; 59; 99; 59; 63; 7]) = [].
Proof. by vm_compute. Qed.

(** ** What a screen is given *)

Lemma carried_newest l total budget : 0 ≤ total →
  let k := carried l total budget in
  (k ≤ length l)%nat ∧ (k ≠ O → total + sum_by (λ e, len e + 2) (take k l) ≤ budget) ∧
  (∀ x, l !! k = Some x → budget < total + sum_by (λ e, len e + 2) (take (S k) l)).
Proof.
  revert total. induction l as [|x l IH]; intros total Ht; cbn [carried]; [by split_and!|]. destruct (Z.leb_spec (total + (len x + 2)) budget) as [H|H].
  - destruct (IH (total + (len x + 2)) ltac:(lia)) as (I1 & I2 & I3). set (k := carried l _ _) in *. split_and!; [simpl; lia| |].
    + intros _. change (take (S k) (x :: l)) with (x :: take k l). cbn [sum_by foldr]. fold (sum_by (λ e : list Z, len e + 2) (take k l)).
      destruct (decide (k = O)) as [E|Hk]; [rewrite E, take_0; change (sum_by _ []) with 0; lia|]. specialize (I2 Hk). lia.
    + intros y Hy. specialize (I3 y Hy). change (take (S (S k)) (x :: l)) with (x :: take (S k) l). cbn [sum_by foldr]. fold (sum_by (λ e : list Z, len e + 2) (take (S k) l)). lia.
  - split_and!; [lia|done|]. intros y _. cbn [take sum_by foldr]. rewrite take_0. cbn [foldr]. lia.
Qed.

Lemma take_reverse {A} (l : list A) k : (k ≤ length l)%nat → take k (reverse l) = reverse (drop (length l - k) l).
Proof.
  intros Hk. rewrite <- (take_drop (length l - k) l) at 1. rewrite reverse_app, take_app_le by (rewrite length_reverse, length_drop; lia). apply take_ge. rewrite length_reverse, length_drop. lia.
Qed.

(** What a screen carries is the newest that fit: a suffix of what is owed, within the budget, that no older one could join. *)
Lemma carry_spec d from budget : ∃ k,
  carry d from budget = drop k (since d from) ∧ (k ≤ length (since d from))%nat ∧
  (carry d from budget ≠ [] → sum_by (λ e, len e + 2) (carry d from budget) ≤ budget) ∧
  (∀ j, (j < k)%nat → budget < sum_by (λ e, len e + 2) (drop j (since d from))).
Proof.
  unfold carry. set (owed := since d from). destruct (carried_newest (reverse owed) 0 budget ltac:(lia)) as (C1 & C2 & C3). set (n := carried _ _ _) in *. rewrite length_reverse in C1.
  exists (length owed - n)%nat. split; [done|]. split; [lia|].
  assert (∀ m, (m ≤ length owed)%nat → sum_by (λ e, len e + 2) (take m (reverse owed)) = sum_by (λ e, len e + 2) (drop (length owed - m) owed)) as Hsum.
  { intros m Hm. rewrite take_reverse by done. apply sum_by_perm, reverse_Permutation. }
  split.
  - intros Hne. rewrite <- Hsum by done. apply C2. intros E. apply Hne. rewrite E, Nat.sub_0_r. apply drop_all.
  - intros j Hj. destruct (lookup_lt_is_Some_2 (reverse owed) n) as [x Hx]; [rewrite length_reverse; lia|]. specialize (C3 x Hx). rewrite Hsum in C3 by lia.
    assert (sum_by (λ e, len e + 2) (drop (length owed - S n) owed) ≤ sum_by (λ e, len e + 2) (drop j owed)); [|lia].
    replace (length owed - S n)%nat with (j + (length owed - S n - j))%nat by lia. rewrite <- drop_drop. rewrite <- (take_drop (length owed - S n - j) (drop j owed)) at 2. rewrite sum_by_app.
    assert (0 ≤ sum_by (λ e, len e + 2) (take (length owed - S n - j) (drop j owed))) by (apply sum_by_nonneg, Forall_forall; lia). lia.
Qed.

End Defer.
