(* ===== verification/Link.v ===== *)
(** * Pacing one client ([crates/server/src/link.rs], [crates/server/src/gate.rs])

    A smoothed round trip, the probe in flight, and the intervals derived from them; and when a
    client that is sent whole screens may have the byte stream again.  The clock is an argument. *)

From S2P Require Import Prelude.

Module Link.

Definition REPAINT_FLOOR : Duration := from_millis 16.
Definition REPAINT_CEILING : Duration := from_millis 250.
Definition PING_FLOOR : Duration := from_millis 250.
Definition PING_CEILING : Duration := from_secs 2.
Definition PING_DEAD_INTERVALS : Z := 5.
Definition PING_DEAD_FLOOR : Duration := from_secs 5.
Definition RTT_SHIFT : Z := 3.
Definition IDLE_BACKOFF_STEPS : Z := 3.
Definition STREAM_LIMIT : Z := 256 * 1024.

Record LinkTiming := mkLink {
  srtt : option Duration; outstanding : option (Z * Instant); next_token : Z; last_probe : Instant; last_answer : Instant;
  idle_probes : Z; quiet : bool
}.
#[export] Instance LinkTiming_settable : Settable LinkTiming := λ l,
  mkLink (srtt l) (outstanding l) (next_token l) (last_probe l) (last_answer l) (idle_probes l) (quiet l).

Definition new (now : Instant) : LinkTiming :=
  {| srtt := None; outstanding := None; next_token := 1; last_probe := now; last_answer := now; idle_probes := 0; quiet := true |}.

Definition stirred (l : LinkTiming) : LinkTiming := l <| quiet := false |> <| idle_probes := 0 |>.

Definition repaint_interval (l : LinkTiming) : Duration :=
  match srtt l with
  | None => Z.min REPAINT_CEILING (from_millis 33)
  | Some srtt => clamp (srtt / 2) REPAINT_FLOOR REPAINT_CEILING
  end.
Definition ack_timeout (l : LinkTiming) : Duration :=
  clamp (match srtt l with None => REPAINT_CEILING | Some srtt => srtt * 2 end) REPAINT_CEILING (from_secs 2).
Definition ping_interval (l : LinkTiming) : Duration :=
  let paced := match srtt l with None => PING_CEILING | Some srtt => clamp (srtt * 2) PING_FLOOR PING_CEILING end in
  Z.min (paced * Z.shiftl 1 (idle_probes l)) PING_CEILING.
Definition interval_ms (l : LinkTiming) : Z :=
  let ms := as_millis (ping_interval l) in if ms <=? U16_MAX then ms else U16_MAX.
Definition is_dead (l : LinkTiming) (now : Instant) : bool :=
  Z.max (ping_interval l * PING_DEAD_INTERVALS) PING_DEAD_FLOOR <? since now (last_answer l).

Definition probe (l : LinkTiming) (now : Instant) : option Z * LinkTiming :=
  if since now (last_probe l) <? ping_interval l then (None, l)
  else
    let token := next_token l in
    (Some token, l <| next_token := (next_token l + 1) mod 2 ^ 64 |> <| last_probe := now |> <| outstanding := Some (token, now) |> <| quiet := true |>).

Definition smooth (old : option Duration) (sample : Duration) : Duration :=
  match old with
  | None => sample
  | Some srtt => sat_sub (srtt + sat_sub sample srtt / Z.shiftl 1 RTT_SHIFT) (sat_sub srtt sample / Z.shiftl 1 RTT_SHIFT)
  end.
Definition answered (l : LinkTiming) (token : Z) (now : Instant) : LinkTiming :=
  let l := l <| last_answer := now |> in
  match outstanding l with
  | None => l
  | Some (sent_token, sent_at) =>
      if negb (sent_token =? token) then l
      else
        let l := l <| outstanding := None |> in
        let l := if quiet l then l <| idle_probes := Z.min (idle_probes l + 1) IDLE_BACKOFF_STEPS |> else l in
        l <| srtt := Some (smooth (srtt l) (since now sent_at)) |>
  end.

(** ** Leaving a sync episode *)

Definition DATAGRAM_WINDOW : Z := STREAM_LIMIT / 2.
Inductive CatchUp := CStream (drained : bool) | CDatagram (drained : bool) (outstanding : Z).
Definition caught_up (c : CatchUp) : bool :=
  match c with CStream drained => drained | CDatagram drained outstanding => drained && (outstanding <=? DATAGRAM_WINDOW) end.
Definition may_return_to_passthrough (c : CatchUp) (now : Instant) (last_output : option Instant) (quiescence : Duration) : bool :=
  caught_up c || match last_output with None => true | Some last => quiescence <=? since now last end.

(** ** Bounds *)

Inductive event := Probe (now : Instant) | Answer (token : Z) (now : Instant) | Stir.
Definition run (l : LinkTiming) (e : event) : LinkTiming :=
  match e with Probe now => (probe l now).2 | Answer token now => answered l token now | Stir => stirred l end.

Record link_ok (l : LinkTiming) : Prop := {
  lk_srtt : ∀ s, srtt l = Some s → 0 ≤ s;
  lk_idle : 0 ≤ idle_probes l ≤ IDLE_BACKOFF_STEPS;
  lk_token : 0 ≤ next_token l < 2 ^ 64
}.

(** The estimate moves an eighth of the way, never past the sample. *)
Lemma smooth_between old sample : 0 ≤ old → 0 ≤ sample →
  Z.min old sample ≤ smooth (Some old) sample ≤ Z.max old sample ∧ Z.abs (smooth (Some old) sample - old) ≤ Z.abs (sample - old) / 8.
Proof.
  intros Ho Hs. unfold smooth, sat_sub, RTT_SHIFT. change (Z.shiftl 1 3) with 8. destruct (Z.le_ge_cases old sample).
  - rewrite (Z.max_r 0 (sample - old)), (Z.max_l 0 (old - sample)) by lia. change (0 / 8) with 0. pose proof (Z.div_pos (sample - old) 8 ltac:(lia) ltac:(lia)).
    pose proof (Z.div_le_upper_bound (sample - old) 8 (sample - old) ltac:(lia) ltac:(lia)). rewrite (Z.abs_eq (sample - old)) by lia. lia.
  - rewrite (Z.max_l 0 (sample - old)), (Z.max_r 0 (old - sample)) by lia. change (0 / 8) with 0. pose proof (Z.div_pos (old - sample) 8 ltac:(lia) ltac:(lia)).
    pose proof (Z.div_le_upper_bound (old - sample) 8 (old - sample) ltac:(lia) ltac:(lia)). rewrite (Z.abs_neq (sample - old)) by lia. rewrite Z.opp_sub_distr, Z.add_comm. change (sample + - old) with (sample - old).
    replace (old + - sample) with (old - sample) by lia. replace (- sample + old) with (old - sample) by lia. lia.
Qed.

Lemma run_ok l e : link_ok l → link_ok (run l e).
Proof.
  intros [L1 L2 L3]. unfold IDLE_BACKOFF_STEPS in *. destruct e as [now|token now|]; cbn [run].
  - unfold probe. destruct (_ <? _); [done|]. cbn [snd]. split; cbn; try done. pose proof (Z.mod_pos_bound (next_token l + 1) (2 ^ 64) ltac:(done)). lia.
  - unfold answered. cbn [outstanding assign]. destruct (outstanding l) as [[t at_]|]; [|by split]. destruct (negb _); [by split|].
    assert (∀ o, 0 ≤ smooth (srtt l) o ∨ o < 0) as Hs.
    { intros o. destruct (Z.lt_ge_cases o 0) as [|Ho]; [by right|left]. destruct (srtt l) as [s|] eqn:E; [|done]. specialize (L1 s eq_refl). pose proof (smooth_between s o L1 Ho). lia. }
    specialize (Hs (since now at_)). assert (0 ≤ since now at_) by (unfold since; lia). unfold IDLE_BACKOFF_STEPS in *. cbn [quiet assign]. destruct (quiet l); split; cbn; unfold IDLE_BACKOFF_STEPS; try lia; intros s [= <-]; destruct Hs; lia.
  - split; cbn; unfold IDLE_BACKOFF_STEPS; try lia. done.
Qed.

Lemma run_all events l : link_ok l → link_ok (foldl run l events).
Proof. revert l. induction events as [|e events IH]; intros l Hl; [done|]. cbn [foldl]. by apply IH, run_ok. Qed.

Lemma link_new now : link_ok (new now).
Proof. split; cbn; unfold IDLE_BACKOFF_STEPS; try lia. done. Qed.

(** However probes, answers and output interleave: a repaint waits between 16 and 250
    milliseconds, an unanswered screen holds the next back between 250 milliseconds and two
    seconds, probes go out every quarter second to two seconds and the wire carries that interval
    exactly, backing off at most doubles it, and no client is called dead within five seconds of
    its last answer. *)
Theorem repaints_are_paced now events :
  let l := foldl run (new now) events in
  link_ok l ∧
  REPAINT_FLOOR ≤ repaint_interval l ≤ REPAINT_CEILING ∧ REPAINT_CEILING ≤ ack_timeout l ≤ from_secs 2 ∧
  PING_FLOOR ≤ ping_interval l ≤ PING_CEILING ∧ interval_ms l = as_millis (ping_interval l) ∧
  (∀ n, 0 ≤ n → ping_interval (l <| idle_probes := n + 1 |>) ≤ 2 * ping_interval (l <| idle_probes := n |>)) ∧
  ∀ t, t ≤ last_answer l + PING_DEAD_FLOOR → is_dead l t = false.
Proof.
  intros l. assert (link_ok l) as Hok by apply run_all, link_new. split; [done|]. destruct Hok as [L1 L2 L3].
  assert (PING_FLOOR ≤ ping_interval l ≤ PING_CEILING) as Hping.
  { unfold ping_interval. assert (1 ≤ Z.shiftl 1 (idle_probes l)) by (rewrite Z.shiftl_1_l; pose proof (Z.pow_pos_nonneg 2 (idle_probes l) ltac:(lia) ltac:(lia)); lia).
    unfold PING_FLOOR, PING_CEILING, clamp, from_millis, from_secs. destruct (srtt l); nia. }
  split_and!; try apply Hping.
  - unfold repaint_interval, REPAINT_FLOOR, REPAINT_CEILING, clamp, from_millis. destruct (srtt l); lia.
  - unfold repaint_interval, REPAINT_FLOOR, REPAINT_CEILING, clamp, from_millis. destruct (srtt l); lia.
  - unfold ack_timeout, REPAINT_CEILING, clamp, from_millis, from_secs. destruct (srtt l); lia.
  - unfold ack_timeout, REPAINT_CEILING, clamp, from_millis, from_secs. destruct (srtt l); lia.
  - unfold interval_ms. rewrite (proj2 (Z.leb_le _ _)); [done|]. unfold as_millis, PING_CEILING, from_secs in *.
    apply Z.div_le_upper_bound; lia.
  - intros n Hn. unfold ping_interval. cbn [srtt idle_probes assign]. rewrite !Z.shiftl_1_l, Z.pow_add_r by lia. pose proof (Z.pow_pos_nonneg 2 n ltac:(lia) ltac:(lia)).
    set (paced := match srtt l with Some _ => _ | None => _ end). assert (0 ≤ paced) by (unfold paced, clamp, PING_FLOOR, PING_CEILING, from_millis, from_secs; destruct (srtt l); lia).
    assert (0 ≤ PING_CEILING) by (unfold PING_CEILING, from_secs; lia). rewrite Z.pow_1_r. nia.
  - intros t Ht. unfold is_dead. apply Z.ltb_ge. unfold since, PING_DEAD_FLOOR, PING_DEAD_INTERVALS, from_secs in *. lia.
Qed.

End Link.
