(* ===== verification/Sink.v ===== *)
(** * The queue in front of one client ([crates/server/src/sink.rs])

    Producers queue frames under a lock, and a thread of its own writes them.  An operation that
    holds the lock is one definition and one step; the thread is a state machine whose states are
    the places at which it gives the lock up ([Doing]), so that producers run between any two.  What
    the transport answers each call is an argument.  The lock is never poisoned: no operation panics
    while it is held ([sink_refines_spec]).

    A buffer waiting to be reused is its capacity, which is all that is read of it.

    [Spec] is what a producer may rely on: a list of entries, each taken whole and in order, with a
    screen replaced where it stands; [sink_refines_spec] says that the thread and the queue keep it.
    What they hold is bounded by the lanes' rooms and two screens ([held_bytes_are_bounded]). *)

From S2P Require Import Prelude.
From S2P Require Import Codec Fields Message Pieces ServerMessage.

Module Sink.

Definition STREAM_LIMIT : Z := 256 * 1024.
Definition CONTROL_SLACK : Z := 64 * 1024.
Definition BATCH : Z := 32 * 1024.
Definition VECTORED : nat := 64.
Definition SPARE_FRAMES : Z := Z.of_nat VECTORED.
Definition SPARE_SCREENS : Z := 2.
Definition SCREEN_LIMIT : Z := 512 * 1024.
Definition FORWARD_LANE : Z := 64 * 1024.
Definition CEILING : Z := STREAM_LIMIT + CONTROL_SLACK + SCREEN_LIMIT + FORWARD_LANE.

(** ** Frames and the pools they come back to *)

Record Frame := mkFrame { data : list Z; capacity : Z }.
Definition size (f : Frame) : Z := len (data f).

Definition recycle (spare : list Z) (c : Z) : list Z :=
  if (len spare <? SPARE_FRAMES) && (c <=? Fields.MAX_OUTPUT_CHUNK) then spare ++ [c] else spare.
Definition keep_screen (screens : list Z) (c : Z) : list Z :=
  if len screens <? SPARE_SCREENS then screens ++ [c] else screens.
Definition keep (frames screens : list Z) (c : Z) : list Z * list Z :=
  if Fields.MAX_OUTPUT_CHUNK <? c then (frames, keep_screen screens c) else (recycle frames c, screens).
(** [keep] of every buffer of a vector being drained. *)
Definition keep_all (frames screens : list Z) (l : list Frame) : list Z * list Z :=
  foldl (λ p f, keep p.1 p.2 (capacity f)) (frames, screens) l.

(** A set of indices in a 64-bit word. *)
Definition contains (set index : Z) : bool := (index <? 64) && negb (Z.land set (Z.shiftl 1 index) =? 0).
Definition insert (set index : Z) : Z := Z.lor set (Z.shiftl 1 index).

Inductive Coding := Raw | Packed.
#[export] Instance Coding_dec : EqDecision Coding.
Proof. solve_decision. Defined.
Record Cut := mkCut { cut_pieces : list Frame; cut_coding : Coding }.

Inductive SinkError := Full | Unusable.
Inductive Position := Back | Front.
Inductive Slot := Stream (f : Frame) | Control (f : Frame) | Forward (f : Frame) | Screen.
Definition bytes (s : Slot) : Z := match s with Stream f | Control f | Forward f => size f | Screen => 0 end.
Definition into_frame (s : Slot) : option Frame := match s with Stream f | Control f | Forward f => Some f | Screen => None end.
Inductive ScreenPressure := Clear | Over.
Definition is_terminal (m : ServerMessage.ServerMessage) : bool :=
  match m with ServerMessage.Exit _ | ServerMessage.Detached _ | ServerMessage.Reject _ => true | _ => false end.

(** ** Lanes *)

Record Lane := mkLane { queued : Z; taken : Z }.
#[export] Instance Lane_settable : Settable Lane := λ l, mkLane (queued l) (taken l).
Definition empty_lane : Lane := {| queued := 0; taken := 0 |}.
Definition charged (l : Lane) : Z := queued l + taken l.
Definition take_ (l : Lane) (n : Z) : option Lane := q ← checked_sub (queued l) n; Some {| queued := q; taken := taken l + n |}.
Definition take_all (l : Lane) : Lane := {| queued := 0; taken := taken l + queued l |}.
Definition release (l : Lane) : Lane := l <| taken := 0 |>.

(** ** Batches *)

Record Batch := mkBatch { frames : list Frame; codings : list Coding; owed : Z; sent : Z; at_ : nat; ahead : Z }.
#[export] Instance Batch_settable : Settable Batch := λ b, mkBatch (frames b) (codings b) (owed b) (sent b) (at_ b) (ahead b).
Definition new_batch : Batch := {| frames := []; codings := []; owed := 0; sent := 0; at_ := O; ahead := 0 |}.
Definition push_frame (b : Batch) (f : Frame) (c : Coding) : Batch :=
  b <| owed := owed b + size f |> <| frames := frames b ++ [f] |> <| codings := codings b ++ [c] |>.
Definition is_spent (b : Batch) : bool := sent b =? owed b.
Definition clear (b : Batch) : Batch := new_batch.

(** [rest] is what [frames] holds from [at_] on. *)
Fixpoint advance_loop (rest : list Frame) (b : Batch) : Batch :=
  match rest with
  | [] => b
  | f :: rest =>
      let end_ := ahead b + size f in
      if sent b <? end_ then b else advance_loop rest (b <| ahead := end_ |> <| at_ := S (at_ b) |>)
  end.
Definition advance (b : Batch) (taken : Z) : Batch :=
  let b := b <| sent := sent b + taken |> in advance_loop (drop (at_ b) (frames b)) b.

(** The slices filled, in order, and which are packed; [room] is how many more there are. *)
Fixpoint remainder_loop (rest : list (Frame * Coding)) (room : nat) (offset : Z) (filled : Z) (packed : Z) (out : list (list Z)) : option (list (list Z) * Z) :=
  match rest, room with
  | [], _ | _, O => Some (out, packed)
  | (f, c) :: rest, S room =>
      if size f <? offset then None
      else remainder_loop rest room 0 (filled + 1) (if decide (c = Packed) then insert packed filled else packed) (out ++ [drop (Z.to_nat offset) (data f)])
  end.
Definition remainder (b : Batch) : option (list (list Z) * Z) :=
  offset ← checked_sub (sent b) (ahead b);
  if (length (frames b) <? at_ b)%nat || (length (codings b) <? at_ b)%nat then None
  else remainder_loop (zip (drop (at_ b) (frames b)) (drop (at_ b) (codings b))) VECTORED offset 0 0 [].

(** ** The queue *)

Record Queue := mkQueue {
  order : list Slot; pieces : list Frame; coding : Coding; screen : Lane; stream : Lane; forward : Lane;
  forward_entries : Z; in_flight : bool; spare : list Z; screens : list Z; closed : bool
}.
#[export] Instance Queue_settable : Settable Queue :=
  λ q, mkQueue (order q) (pieces q) (coding q) (screen q) (stream q) (forward q) (forward_entries q) (in_flight q) (spare q) (screens q) (closed q).
Definition new_queue : Queue :=
  {| order := []; pieces := []; coding := Raw; screen := empty_lane; stream := empty_lane; forward := empty_lane;
     forward_entries := 0; in_flight := false; spare := []; screens := []; closed := false |}.

Definition outstanding (q : Queue) : Z := sat_sub (len (order q)) (forward_entries q) + (if in_flight q then 1 else 0).

Fixpoint fill_loop (todo : list Slot) (q : Queue) (b : Batch) : option (Queue * Batch) :=
  if owed b <? BATCH then
    match todo with
    | [] => Some (q, b)
    | slot :: rest =>
        let q := q <| order := rest |> in
        match slot with
        | Stream f | Control f =>
            l ← take_ (stream q) (size f);
            fill_loop rest (q <| stream := l |>) (push_frame b f Raw)
        | Forward f =>
            l ← take_ (forward q) (size f);
            n ← checked_sub (forward_entries q) 1;
            fill_loop rest (q <| forward := l |> <| forward_entries := n |>) (push_frame b f Raw)
        | Screen =>
            let c := coding q in
            fill_loop rest (q <| screen := take_all (screen q) |> <| pieces := [] |>) (foldl (λ b f, push_frame b f c) b (pieces q))
        end
    end
  else Some (q, b).
Definition fill (q : Queue) (b : Batch) : option (Queue * Batch) :=
  '(q, b) ← fill_loop (order q) q b;
  Some (q <| in_flight := true |>, b).

Definition recycle_pieces (q : Queue) : Queue :=
  let '(s, t) := keep_all (spare q) (screens q) (pieces q) in
  q <| pieces := [] |> <| spare := s |> <| screens := t |>.

Definition admit_ (q : Queue) (slot : Slot) (limit : Z) (p : Position) : result Queue Slot :=
  let forward_ := match slot with Forward _ => true | _ => false end in
  let lane := if forward_ then forward q else stream q in
  if limit <? sat_add USIZE_MAX (charged lane) (bytes slot) then Err slot
  else
    let lane := lane <| queued := queued lane + bytes slot |> in
    let q := if forward_ then q <| forward := lane |> <| forward_entries := forward_entries q + 1 |> else q <| stream := lane |> in
    Ok (q <| order := match p with Back => order q ++ [slot] | Front => slot :: order q end |>).

(** *** Shared between the threads: the queue and its mirror *)

Record Shared := mkShared { queue : Queue; m_closed : bool; m_outstanding : Z }.
Definition new_shared : Shared := {| queue := new_queue; m_closed := false; m_outstanding := 0 |}.
Definition publish (q : Queue) : Shared := {| queue := q; m_closed := closed q; m_outstanding := outstanding q |}.
(** A change of the queue that is not published. *)
Definition unpublished (s : Shared) (q : Queue) : Shared := {| queue := q; m_closed := m_closed s; m_outstanding := m_outstanding s |}.

Definition close (s : Shared) : Shared := publish ((queue s) <| closed := true |>).

(** What a turn of the loop under the lock came to: [None] waits. *)
Definition take (s : Shared) (b : Batch) : option (option bool * Shared * Batch) :=
  match order (queue s) with
  | [] => Some (if closed (queue s) then Some false else None, s, b)
  | _ => '(q, b) ← fill (queue s) b; Some (Some true, publish q, b)
  end.

Definition settle (s : Shared) (failed : bool) : Shared :=
  publish ((queue s) <| in_flight := false |> <| closed := closed (queue s) || failed |>).

Definition retire (s : Shared) (b : Batch) : Shared * Batch :=
  let q := queue s in
  let q := q <| stream := release (stream q) |> <| forward := release (forward q) |> <| screen := release (screen q) |> in
  let '(sp, sc) := keep_all (spare q) (screens q) (frames b) in
  (unpublished s (q <| spare := sp |> <| screens := sc |>), clear b).

(** *** What producers call *)

(** [grown] is the capacity encoding leaves a buffer of the given one. *)
Definition send (s : Shared) (version : Z) (message : ServerMessage.ServerMessage) (grown : Z → Z) : result () SinkError * Shared :=
  let q := queue s in
  if closed q then (Err Unusable, s)
  else
    let c := grown (default 0 (last (spare q))) in
    let q := q <| spare := removelast (spare q) |> in
    match ServerMessage.encode message version with
    | Err _ => (Err Unusable, unpublished s (q <| spare := recycle (spare q) c |>))
    | Ok frame =>
        match admit_ q (Control (mkFrame frame c)) (STREAM_LIMIT + CONTROL_SLACK) (if is_terminal message then Front else Back) with
        | Ok q => (Ok (), publish q)
        | Err refused =>
            (Err Full,
             unpublished s match into_frame refused with Some f => q <| spare := recycle (spare q) (capacity f) |> | None => q end)
        end
    end.

Definition push (s : Shared) (slot : Slot) (limit : Z) (p : Position) : result () SinkError * Shared :=
  if closed (queue s) then (Err Unusable, s)
  else match admit_ (queue s) slot limit p with Ok q => (Ok (), publish q) | Err _ => (Err Full, s) end.
Definition send_output (s : Shared) (f : Frame) : result () SinkError * Shared := push s (Stream f) STREAM_LIMIT Back.
Definition send_forward (s : Shared) (f : Frame) : result () SinkError * Shared := push s (Forward f) FORWARD_LANE Back.

Definition send_screen (s : Shared) (cut : Cut) : result ScreenPressure SinkError * Shared :=
  let q := queue s in
  if closed q then (Err Unusable, s)
  else if bool_decide (cut_pieces cut = []) then (Ok Clear, s)
  else
    let q := if bool_decide (pieces q = []) then q <| order := order q ++ [Screen] |> else q in
    let q := recycle_pieces q in
    let q := q <| screen := (screen q) <| queued := sum_by size (cut_pieces cut) |> |> <| pieces := cut_pieces cut |> <| coding := cut_coding cut |> in
    (Ok (if SCREEN_LIMIT <? charged (screen q) then Over else Clear), publish q).

(** One turn over a slot: the buffers given back, the room kept, and whether it stays. *)
Fixpoint discard_loop (l : list Slot) (spare screens : list Z) (kept : Z) (out : list Slot) : list Z * list Z * Z * list Slot :=
  match l with
  | [] => (spare, screens, kept, out)
  | slot :: l =>
      match slot with
      | Stream f => let '(spare, screens) := keep spare screens (capacity f) in discard_loop l spare screens kept out
      | Control f => discard_loop l spare screens (kept + size f) (out ++ [slot])
      | Forward _ | Screen => discard_loop l spare screens kept (out ++ [slot])
      end
  end.
Definition discard_stream (s : Shared) : Shared :=
  let q := queue s in
  let '(sp, sc, kept, l) := discard_loop (order q) (spare q) (screens q) 0 [] in
  publish (q <| spare := sp |> <| screens := sc |> <| order := l |> <| stream := (stream q) <| queued := kept |> |>).

Definition is_drained (s : Shared) : bool := negb (m_closed s) && (m_outstanding s =? 0).
Definition is_closed (s : Shared) : bool := m_closed s.
Definition reclaim (s : Shared) (mine : list Z) : list Z * Shared := (mine ++ spare (queue s), unpublished s ((queue s) <| spare := [] |>)).
Definition reclaim_screens (s : Shared) (mine : list Z) : list Z * Shared :=
  (foldl keep_screen mine (screens (queue s)), unpublished s ((queue s) <| screens := [] |>)).

(** ** The writer *)

Inductive IoError := Interrupted | WouldBlock | OtherError.
Inductive Pump := Done | Blocked | Failed.

(** [pump]: what one answer of [write_frames] makes of the batch; [None] goes round again. *)
Definition pump_turn (b : Batch) (answer : result Z IoError) : Batch * option Pump :=
  match answer with
  | Ok n => if n =? 0 then (b, Some Failed) else (advance b n, None)
  | Err Interrupted => (b, None)
  | Err WouldBlock => (b, Some Blocked)
  | Err OtherError => (b, Some Failed)
  end.
(** And what the answer of [flush] makes of a spent one. *)
Definition pump_flush (answer : result () IoError) : Pump :=
  match answer with Ok () => Done | Err WouldBlock => Blocked | Err _ => Failed end.

(** Where the thread is: at the head of its loop, in [take], in [pump], in [settle], in
    [park_blocked], in the two calls of [last_words], or past its loop. *)
Inductive Doing := Top | Taking | Pumping | Settling (failed : bool) | Parked | LastTaking | LastPumping | Ended.

Record Writer := mkWriter { batch : Batch; doing : Doing }.

(** What happens next to the thread: the transport answers a write or a flush, a wait is over
    ([Woken]; the deadline of [park_blocked] has [passed] or not), or it simply goes on. *)
Inductive Answer := Wrote (a : result Z IoError) | Flushed (a : result () IoError) | Woken (passed : bool) | On.

(** The state [pump] is left in, in the loop and in [last_words]. *)
Definition pumped (b : Batch) (p : Pump) : Writer :=
  {| batch := b; doing := match p with Done => Settling false | Blocked => Parked | Failed => Settling true end |}.

(** One step of the thread; the bytes the transport took with it.  An answer the thread is not
    waiting for changes nothing. *)
Definition work (s : Shared) (w : Writer) (a : Answer) : option (Shared * Writer * list Z) :=
  let b := batch w in
  match doing w, a with
  | Top, On =>
      if is_spent b then let '(s, b) := retire s b in Some (s, mkWriter b Taking, [])
      else Some (s, mkWriter b Pumping, [])
  | Taking, On =>
      '(r, s, b) ← take s b;
      Some (s, mkWriter b (match r with None => Taking | Some false => Ended | Some true => Pumping end), [])
  | Pumping, Wrote r =>
      if is_spent b then Some (s, w, [])
      else
        '(slices, packed) ← remainder b;
        let '(b, p) := pump_turn b r in
        Some (s, match p with None => mkWriter b Pumping | Some p => pumped b p end,
              match r with Ok n => firstn (Z.to_nat n) (concat slices) | Err _ => [] end)
  | Pumping, Flushed r => Some (s, if is_spent b then pumped b (pump_flush r) else w, [])
  | Settling failed, On => Some (settle s failed, mkWriter b (if failed then Ended else Top), [])
  | Parked, Woken passed =>
      Some (s, if closed (queue s) then mkWriter (clear b) LastTaking else if passed then mkWriter b Top else w, [])
  | LastTaking, On =>
      '(r, s, b) ← take s b;
      Some (s, mkWriter b (match r with None => LastTaking | Some false => Ended | Some true => LastPumping end), [])
  | LastPumping, Wrote r =>
      if is_spent b then Some (s, w, [])
      else
        '(slices, packed) ← remainder b;
        let '(b, p) := pump_turn b r in
        Some (s, mkWriter b (match p with None => LastPumping | Some _ => Ended end),
              match r with Ok n => firstn (Z.to_nat n) (concat slices) | Err _ => [] end)
  | LastPumping, Flushed r => Some (s, if is_spent b then mkWriter b Ended else w, [])
  | _, _ => Some (s, w, [])
  end.

(** ** What a producer may rely on *)

(** What waits: a frame of one of the lanes, or a whole screen. *)
Inductive Entry := EStream (d : list Z) | EControl (d : list Z) | EForward (d : list Z) | EScreen (c : Coding) (ds : list (list Z)).
Definition is_screen (e : Entry) : bool := match e with EScreen _ _ => true | _ => false end.
Definition is_stream (e : Entry) : bool := match e with EStream _ => true | _ => false end.
Definition forward_of (e : Entry) : option (list Z) := match e with EForward d => Some d | _ => None end.
Definition control_of (e : Entry) : option (list Z) := match e with EControl d => Some d | _ => None end.
(** The frames an entry is sent as, and the bytes of them. *)
Definition frames_of (e : Entry) : list (Coding * list Z) :=
  match e with EStream d | EControl d | EForward d => [(Raw, d)] | EScreen c ds => pair c <$> ds end.
Definition bytes_of (l : list Entry) : list Z := concat ((l ≫= frames_of).*2).

(** A screen takes the place of the one that waits, or the last. *)
Definition place (e : Entry) (l : list Entry) : list Entry :=
  if existsb is_screen l then (λ x, if is_screen x then e else x) <$> l else l ++ [e].

(** [wrote] is what the transport took, [pending] what the writer still owes of what it took from
    the queue, [took] all that it ever took, [given] the frames that were accepted. *)
Record Spec := mkSpec { wrote : list Z; pending : list Z; waiting : list Entry; took : list Entry; given : list Entry; shut : bool }.
Definition spec_new : Spec := mkSpec [] [] [] [] [] false.

Inductive Event :=
| ESend (m : ServerMessage.ServerMessage) (grown : Z → Z) | EOutput (f : Frame) | EForwarded (f : Frame) | EScreened (cut : Cut)
| EDiscard | EReclaim | EReclaimScreens | EClose | EWork (a : Answer).

(** What may change nothing: a call refused, a step of the writer that moves no byte.  A screen is
    refused only when the client is gone, and neither a close nor a discard is. *)
Definition may_idle (p : Spec) (e : Event) : Prop :=
  match e with
  | EClose | EDiscard => False
  | EScreened cut => shut p = true ∨ cut_pieces cut = []
  | _ => True
  end.

Inductive spec_step (version : Z) : Spec → Event → Spec → Prop :=
| sp_idle p e : may_idle p e → spec_step version p e p
| sp_output w d l t g f : spec_step version (mkSpec w d l t g false) (EOutput f) (mkSpec w d (l ++ [EStream (data f)]) t (g ++ [EStream (data f)]) false)
| sp_forward w d l t g f : spec_step version (mkSpec w d l t g false) (EForwarded f) (mkSpec w d (l ++ [EForward (data f)]) t (g ++ [EForward (data f)]) false)
| sp_send w d l t g m x grown :
    ServerMessage.encode m version = Ok x →
    spec_step version (mkSpec w d l t g false) (ESend m grown)
      (mkSpec w d (if is_terminal m then EControl x :: l else l ++ [EControl x]) t (g ++ [EControl x]) false)
| sp_screen w d l t g cut :
    cut_pieces cut ≠ [] →
    spec_step version (mkSpec w d l t g false) (EScreened cut) (mkSpec w d (place (EScreen (cut_coding cut) (data <$> cut_pieces cut)) l) t g false)
| sp_discard w d l t g c : spec_step version (mkSpec w d l t g c) EDiscard (mkSpec w d (base.filter (λ e, is_stream e = false) l) t g c)
| sp_close w d l t g c : spec_step version (mkSpec w d l t g c) EClose (mkSpec w d l t g true)
| sp_commit w l1 l2 t g c a :
    l1 ≠ [] → spec_step version (mkSpec w [] (l1 ++ l2) t g c) (EWork a) (mkSpec w (bytes_of l1) l2 (t ++ l1) g c)
| sp_deliver w d1 d2 l t g c a : spec_step version (mkSpec w (d1 ++ d2) l t g c) (EWork a) (mkSpec (w ++ d1) d2 l t g c)
| sp_broken w d l t g c a : spec_step version (mkSpec w d l t g c) (EWork a) (mkSpec w d l t g true)
| sp_abandon w d l t g a : spec_step version (mkSpec w d l t g true) (EWork a) (mkSpec w [] l t g true).

Inductive spec_reaches (version : Z) : list Event → Spec → Prop :=
| spec_start : spec_reaches version [] spec_new
| spec_next es e p p' : spec_reaches version es p → spec_step version p e p' → spec_reaches version (es ++ [e]) p'.

(** ** The sink with its writer *)

Record Sink := mkSink { shared : Shared; writer : Writer; s_wrote : list Z; s_took : list Entry; s_given : list Entry }.
Definition sink_new : Sink := mkSink new_shared (mkWriter new_batch Top) [] [] [].

Definition entry (q : Queue) (s : Slot) : Entry :=
  match s with
  | Stream f => EStream (data f) | Control f => EControl (data f) | Forward f => EForward (data f)
  | Screen => EScreen (coding q) (data <$> pieces q)
  end.
Definition entries (q : Queue) : list Entry := entry q <$> order q.
Definition unsent (b : Batch) : list Z := drop (Z.to_nat (sent b)) (concat (data <$> frames b)).
Definition abs (s : Sink) : Spec :=
  mkSpec (s_wrote s) (unsent (batch (writer s))) (entries (queue (shared s))) (s_took s) (s_given s) (closed (queue (shared s))).

(** The entry a producer's call adds to [given]. *)
Definition gave {A} (r : result A SinkError * Shared) (s : Sink) (e : Entry) : Sink :=
  mkSink r.2 (writer s) (s_wrote s) (s_took s) (match r.1 with Ok _ => s_given s ++ [e] | Err _ => s_given s end).
Definition with_shared (s : Sink) (x : Shared) : Sink := mkSink x (writer s) (s_wrote s) (s_took s) (s_given s).

Definition step (version : Z) (s : Sink) (e : Event) : option Sink :=
  let x := shared s in
  match e with
  | ESend m grown => Some (gave (send x version m grown) s (EControl (match ServerMessage.encode m version with Ok d => d | Err _ => [] end)))
  | EOutput f => Some (gave (send_output x f) s (EStream (data f)))
  | EForwarded f => Some (gave (send_forward x f) s (EForward (data f)))
  | EScreened cut => Some (with_shared s (send_screen x cut).2)
  | EDiscard => Some (with_shared s (discard_stream x))
  | EReclaim => Some (with_shared s (reclaim x []).2)
  | EReclaimScreens => Some (with_shared s (reclaim_screens x []).2)
  | EClose => Some (with_shared s (close x))
  | EWork a =>
      '(x', w, out) ← work x (writer s) a;
      let q := queue x in
      Some (mkSink x' w (s_wrote s ++ out) (s_took s ++ firstn (length (order q) - length (order (queue x'))) (entries q)) (s_given s))
  end.

(** A transport says it took no more than it was offered. *)
Definition honest (s : Sink) (e : Event) : bool :=
  match e with
  | EWork (Wrote (Ok n)) =>
      match remainder (batch (writer s)) with Some (slices, _) => (0 <=? n) && (n <=? len (concat slices)) | None => true end
  | _ => true
  end.

Inductive reaches (version : Z) : list Event → Sink → Prop :=
| reach_start : reaches version [] sink_new
| reach_next es e s s' : reaches version es s → honest s e = true → step version s e = Some s' → reaches version (es ++ [e]) s'.

(** ** Invariants *)

Definition stream_bytes (s : Slot) : Z := match s with Stream f | Control f => size f | _ => 0 end.
Definition forward_bytes (s : Slot) : Z := match s with Forward f => size f | _ => 0 end.
Definition forward_count (s : Slot) : Z := match s with Forward _ => 1 | _ => 0 end.
Definition screen_count (s : Slot) : Z := match s with Screen => 1 | _ => 0 end.

Record queue_ok (q : Queue) : Prop := {
  qo_stream : queued (stream q) = sum_by stream_bytes (order q);
  qo_forward : queued (forward q) = sum_by forward_bytes (order q);
  qo_entries : forward_entries q = sum_by forward_count (order q);
  qo_screen : queued (screen q) = sum_by size (pieces q);
  qo_slot : sum_by screen_count (order q) = if bool_decide (pieces q = []) then 0 else 1;
  qo_taken : 0 ≤ taken (stream q) ∧ 0 ≤ taken (forward q) ∧ 0 ≤ taken (screen q);
  qo_stream_limit : charged (stream q) ≤ STREAM_LIMIT + CONTROL_SLACK;
  qo_forward_limit : charged (forward q) ≤ FORWARD_LANE;
  qo_spare : len (spare q) ≤ SPARE_FRAMES ∧ Forall (λ c, c ≤ Fields.MAX_OUTPUT_CHUNK) (spare q);
  qo_screens : len (screens q) ≤ SPARE_SCREENS
}.

Record batch_ok (b : Batch) : Prop := {
  bo_codings : length (codings b) = length (frames b);
  bo_owed : owed b = sum_by size (frames b);
  bo_at : (at_ b ≤ length (frames b))%nat;
  bo_ahead : ahead b = sum_by size (firstn (at_ b) (frames b));
  bo_sent : ahead b ≤ sent b ≤ owed b;
  bo_cursor : ∀ f, frames b !! at_ b = Some f → sent b ≤ ahead b + size f
}.

(** What the lanes hold of the batch the writer has. *)
Definition lent (q : Queue) : Z := taken (stream q) + taken (forward q) + taken (screen q).

Definition doing_ok (q : Queue) (b : Batch) (d : Doing) : Prop :=
  match d with
  | Top => in_flight q = false → is_spent b = true
  | Taking => b = new_batch
  | LastTaking => b = new_batch ∧ closed q = true
  | Pumping | Parked => in_flight q = true
  | Settling failed => in_flight q = true ∧ (failed = false → is_spent b = true)
  | LastPumping => in_flight q = true ∧ closed q = true
  | Ended => closed q = true
  end.

Record sink_ok (s : Sink) : Prop := {
  so_queue : queue_ok (queue (shared s));
  so_mirror : shared s = publish (queue (shared s));
  so_batch : batch_ok (batch (writer s));
  so_lent : owed (batch (writer s)) ≤ lent (queue (shared s));
  so_doing : doing_ok (queue (shared s)) (batch (writer s)) (doing (writer s));
  so_flight : in_flight (queue (shared s)) = false → closed (queue (shared s)) = false → is_spent (batch (writer s)) = true
}.

(** ** Lemmas *)

#[local] Arguments sum_by : simpl never.

Lemma sum_by_cons {A} (f : A → Z) x l : sum_by f (x :: l) = f x + sum_by f l.
Proof. done. Qed.
Lemma sum_by_one {A} (f : A → Z) x : sum_by f [x] = f x.
Proof. unfold sum_by. cbn. lia. Qed.

Lemma size_nonneg f : 0 ≤ size f.
Proof. unfold size. lia. Qed.
Lemma sum_size_nonneg l : 0 ≤ sum_by size l.
Proof. apply sum_by_nonneg, Forall_true. intros f. apply size_nonneg. Qed.
Lemma sum_slots_nonneg l :
  0 ≤ sum_by stream_bytes l ∧ 0 ≤ sum_by forward_bytes l ∧ 0 ≤ sum_by forward_count l ∧ 0 ≤ sum_by screen_count l.
Proof.
  split_and!; apply sum_by_nonneg, Forall_true; intros [f|f|f|]; cbn; try lia; apply size_nonneg.
Qed.

Lemma concat_size (l : list Frame) : len (concat (data <$> l)) = sum_by size l.
Proof. induction l as [|f l IH]; [done|]. cbn. rewrite length_app, Nat2Z.inj_add, sum_by_cons, IH. done. Qed.

(** *** Pools *)

Definition pools_ok (p : list Z * list Z) : Prop :=
  (len p.1 ≤ SPARE_FRAMES ∧ Forall (λ c, c ≤ Fields.MAX_OUTPUT_CHUNK) p.1) ∧ len p.2 ≤ SPARE_SCREENS.

Lemma recycle_pool l c : len l ≤ SPARE_FRAMES ∧ Forall (λ c, c ≤ Fields.MAX_OUTPUT_CHUNK) l →
  len (recycle l c) ≤ SPARE_FRAMES ∧ Forall (λ c, c ≤ Fields.MAX_OUTPUT_CHUNK) (recycle l c).
Proof.
  intros [H1 H2]. unfold recycle. destruct (_ && _) eqn:E; [|done]. zbool. rewrite length_app. cbn [length].
  split; [lia|]. apply Forall_app. split; [done|]. by apply Forall_singleton.
Qed.

Lemma keep_screen_pool l c : len l ≤ SPARE_SCREENS → len (keep_screen l c) ≤ SPARE_SCREENS.
Proof. intros H. unfold keep_screen. zcase; [rewrite length_app; cbn [length]; lia|done]. Qed.

Lemma keep_pools p c : pools_ok p → pools_ok (keep p.1 p.2 c).
Proof.
  intros [H1 H2]. unfold keep. zcase; split; cbn [fst snd]; try done; [by apply keep_screen_pool|by apply recycle_pool].
Qed.

Lemma keep_all_pools a b l : pools_ok (a, b) → pools_ok (keep_all a b l).
Proof.
  unfold keep_all. generalize (a, b) as p. clear a b. induction l as [|f l IH]; intros p Hp; [done|]. cbn. by apply IH, keep_pools.
Qed.

Lemma queue_pools q : queue_ok q → pools_ok (spare q, screens q).
Proof. intros H. split; [apply (qo_spare q H)|apply (qo_screens q H)]. Qed.

(** *** Batches *)

Lemma new_batch_ok : batch_ok new_batch.
Proof. split; cbn; lia || done. Qed.

Lemma unsent_new : unsent new_batch = [].
Proof. done. Qed.

Lemma unsent_length b : batch_ok b → len (unsent b) = owed b - sent b.
Proof.
  intros [? Ho ? Ha Hs ?]. unfold unsent. rewrite length_drop. pose proof (concat_size (frames b)).
  pose proof (sum_size_nonneg (firstn (at_ b) (frames b))). lia.
Qed.

Lemma unsent_cursor b : batch_ok b →
  unsent b = drop (Z.to_nat (sent b - ahead b)) (concat (data <$> drop (at_ b) (frames b))).
Proof.
  intros [? Ho ? Ha Hs ?]. unfold unsent. rewrite <- (take_drop (at_ b) (frames b)) at 1. rewrite fmap_app, concat_app.
  pose proof (concat_size (firstn (at_ b) (frames b))) as Hc. pose proof (sum_size_nonneg (firstn (at_ b) (frames b))).
  rewrite drop_app_ge by lia. f_equal. lia.
Qed.

Lemma is_spent_unsent b : batch_ok b → is_spent b = true ↔ unsent b = [].
Proof.
  intros H. pose proof (unsent_length b H) as Hl. unfold is_spent. rewrite Z.eqb_eq. split.
  - intros E. apply nil_length_inv. lia.
  - intros E. rewrite E in Hl. cbn [length] in Hl. lia.
Qed.

Lemma advance_loop_same rest b :
  frames (advance_loop rest b) = frames b ∧ codings (advance_loop rest b) = codings b ∧ owed (advance_loop rest b) = owed b ∧ sent (advance_loop rest b) = sent b.
Proof. revert b. induction rest as [|f rest IH]; intros b; [done|]. cbn [advance_loop]. zcase; [done|]. exact (IH (b <| ahead := ahead b + size f |> <| at_ := S (at_ b) |>)). Qed.

Lemma advance_loop_ok rest b :
  rest = drop (at_ b) (frames b) → length (codings b) = length (frames b) → owed b = sum_by size (frames b) → (at_ b ≤ length (frames b))%nat →
  ahead b = sum_by size (firstn (at_ b) (frames b)) → ahead b ≤ sent b ≤ owed b → batch_ok (advance_loop rest b).
Proof.
  revert b. induction rest as [|f rest IH]; intros b Hr Hc Ho Hat Ha Hs.
  - cbn [advance_loop]. split; try done. intros f Hf. symmetry in Hr. apply (f_equal length) in Hr. rewrite length_drop in Hr. cbn in Hr. apply lookup_lt_Some in Hf. lia.
  - assert (frames b !! at_ b = Some f) as Hf by (rewrite <- (Nat.add_0_r (at_ b)), <- lookup_drop, <- Hr; done).
    cbn [advance_loop]. destruct (Z.ltb_spec (sent b) (ahead b + size f)).
    + split; try done. intros g Hg. rewrite Hf in Hg. injection Hg as <-. lia.
    + pose proof (lookup_lt_Some _ _ _ Hf). apply IH; try done.
      * rewrite (drop_S _ _ _ Hf) in Hr. by injection Hr.
      * change (ahead b + size f = sum_by size (firstn (S (at_ b)) (frames b))). rewrite (take_S_r _ _ _ Hf), sum_by_app, sum_by_one. lia.
      * cbn. lia.
Qed.

Lemma advance_spec b n : batch_ok b → 0 ≤ n ≤ len (unsent b) → batch_ok (advance b n) ∧ unsent (advance b n) = drop (Z.to_nat n) (unsent b).
Proof.
  intros Hb Hn. pose proof (unsent_length b Hb) as Hl. pose proof Hb as [Hc Ho Hat Ha Hs _].
  unfold advance. split.
  - apply advance_loop_ok; cbn; try done. lia.
  - unfold unsent. destruct (advance_loop_same (drop (at_ b) (frames b)) (b <| sent := sent b + n |>)) as (E1 & _ & _ & E4).
    cbn [at_ frames assign] in *. rewrite E1, E4. cbn. rewrite drop_drop. f_equal. pose proof (sum_size_nonneg (firstn (at_ b) (frames b))). lia.
Qed.

(** *** What is offered *)

(** The bytes from the cursor on, the first frame without those already taken. *)
Definition from_offset (offset : Z) (ds : list (list Z)) : list (list Z) :=
  match ds with [] => [] | d :: ds => drop (Z.to_nat offset) d :: ds end.

Lemma from_offset_0 ds : from_offset 0 ds = ds.
Proof. by destruct ds. Qed.

Lemma insert_bit set i j : 0 ≤ i → 0 ≤ j → Z.testbit (insert set i) j = Z.testbit set j || bool_decide (i = j).
Proof.
  intros Hi Hj. unfold insert. rewrite Z.lor_spec, Z.shiftl_1_l, Z.pow2_bits_eqb by lia. f_equal.
  case_bool_decide; [by apply Z.eqb_eq|by apply Z.eqb_neq].
Qed.

Lemma remainder_loop_spec rest room offset filled packed out :
  0 ≤ filled → 0 ≤ offset → (∀ x, head rest = Some x → offset ≤ size x.1) →
  ∃ packed', remainder_loop rest room offset filled packed out = Some (out ++ firstn room (from_offset offset (data <$> rest.*1)), packed') ∧
    ∀ i, 0 ≤ i → Z.testbit packed' i = Z.testbit packed i || bool_decide (filled ≤ i ∧ firstn room rest.*2 !! Z.to_nat (i - filled) = Some Packed).
Proof.
  revert room offset filled packed out. induction rest as [|[f c] rest IH]; intros room offset filled packed out Hf Ho Hh.
  - exists packed. cbn [remainder_loop fmap list_fmap from_offset]. destruct room; rewrite app_nil_r; (split; [done|]); intros i Hi;
      rewrite bool_decide_eq_false_2 by (intros [_ H]; by rewrite ?lookup_nil in H); by rewrite orb_false_r.
  - destruct room as [|room].
    { exists packed. cbn [remainder_loop firstn]. rewrite app_nil_r. split; [done|]. intros i Hi. rewrite bool_decide_eq_false_2 by (intros [_ H]; by rewrite ?lookup_nil in H). by rewrite orb_false_r. }
    cbn [remainder_loop]. assert (offset ≤ size f) by (by apply (Hh (f, c))).
    destruct (Z.ltb_spec (size f) offset); [lia|].
    destruct (IH room 0 (filled + 1) (if decide (c = Packed) then insert packed filled else packed) (out ++ [drop (Z.to_nat offset) (data f)])) as (p & E & Hp); [lia|lia|intros x _; apply size_nonneg|].
    exists p. rewrite E. split; [rewrite <- app_assoc, from_offset_0; done|]. intros i Hi. rewrite (Hp i Hi).
    rewrite fmap_cons. cbn [firstn snd].
    assert (bool_decide (filled ≤ i ∧ (c :: firstn room rest.*2) !! Z.to_nat (i - filled) = Some Packed) =
            bool_decide (filled = i ∧ c = Packed) || bool_decide (filled + 1 ≤ i ∧ firstn room rest.*2 !! Z.to_nat (i - (filled + 1)) = Some Packed)) as ->.
    { apply eq_bool_prop_intro. rewrite orb_True, !bool_decide_spec. destruct (decide (filled = i)) as [->|].
      - rewrite Z.sub_diag. cbn. split; [intros [_ [= ->]]; by left|]. intros [[_ ->]|[? _]]; [done|lia].
      - split.
        + intros [H1 H2]. right. replace (Z.to_nat (i - filled)) with (S (Z.to_nat (i - (filled + 1)))) in H2 by lia. split; [lia|done].
        + intros [[? _]|[H1 H2]]; [done|]. split; [lia|]. by replace (Z.to_nat (i - filled)) with (S (Z.to_nat (i - (filled + 1)))) by lia. }
    rewrite orb_assoc. f_equal. destruct (decide (c = Packed)) as [->|Hc].
    + rewrite insert_bit by lia. f_equal. apply bool_decide_ext. naive_solver.
    + rewrite bool_decide_eq_false_2 by naive_solver. by rewrite orb_false_r.
Qed.

Lemma from_offset_concat offset (l : list Frame) :
  (∀ f, head l = Some f → offset ≤ size f) → concat (from_offset offset (data <$> l)) = drop (Z.to_nat offset) (concat (data <$> l)).
Proof.
  destruct l as [|f l]; intros H; [by destruct (Z.to_nat offset)|]. specialize (H f eq_refl). unfold size in H.
  cbn [from_offset fmap list_fmap concat]. rewrite drop_app_le by lia. done.
Qed.

Lemma concat_prefix {A} n (l : list (list A)) : concat (firstn n l) `prefix_of` concat l.
Proof. exists (concat (drop n l)). by rewrite <- concat_app, take_drop. Qed.

(** What a transport is offered is the front of what is owed, and its set names the packed frames. *)
Lemma remainder_spec b : batch_ok b →
  ∃ slices packed, remainder b = Some (slices, packed) ∧ concat slices `prefix_of` unsent b ∧
    ∀ i, (i < length slices)%nat → contains packed (Z.of_nat i) = true ↔ codings b !! (at_ b + i)%nat = Some Packed.
Proof.
  intros Hb. pose proof Hb as [Hc Ho Hat Ha Hs Hcur]. unfold remainder, checked_sub.
  destruct (Z.leb_spec (ahead b) (sent b)); [|lia]. cbn [mbind option_bind]. rewrite Hc.
  destruct (Nat.ltb_spec (length (frames b)) (at_ b)); [lia|]. cbn [orb].
  assert (∀ f, head (drop (at_ b) (frames b)) = Some f → sent b - ahead b ≤ size f) as Hhead.
  { intros f Hf. rewrite head_lookup, lookup_drop, Nat.add_0_r in Hf. specialize (Hcur f Hf). lia. }
  assert (length (drop (at_ b) (frames b)) = length (drop (at_ b) (codings b))) as Hlen by (rewrite !length_drop; lia).
  set (z := zip (drop (at_ b) (frames b)) (drop (at_ b) (codings b))).
  assert (z.*1 = drop (at_ b) (frames b)) as Hz1 by (apply fst_zip; lia).
  assert (z.*2 = drop (at_ b) (codings b)) as Hz2 by (apply snd_zip; lia).
  destruct (remainder_loop_spec z VECTORED (sent b - ahead b) 0 0 []) as (packed & E & Hp); [lia|lia| |].
  { intros x Hx. apply Hhead. rewrite <- Hz1. destruct z as [|y z']; [done|]. cbn in *. congruence. }
  exists (firstn VECTORED (from_offset (sent b - ahead b) (data <$> z.*1))), packed. rewrite E, Hz1. split_and!; [done| |].
  - rewrite unsent_cursor, <- from_offset_concat by done. apply concat_prefix.
  - intros i Hi. rewrite length_take in Hi. unfold contains. rewrite land_bit by lia. unfold VECTORED in Hi.
    destruct (Z.ltb_spec (Z.of_nat i) 64); [|lia]. rewrite andb_true_l, Hp, Hz2, Z.bits_0, orb_false_l, bool_decide_eq_true by lia.
    rewrite Z.sub_0_r, Nat2Z.id, lookup_take_lt by (unfold VECTORED; lia). rewrite lookup_drop. split; [by intros [_ ?]|]. intros ?. split; [lia|done].
Qed.

(** *** Taking from the queue *)

Lemma push_all l c b :
  foldl (λ b f, push_frame b f c) b l =
  mkBatch (frames b ++ l) (codings b ++ replicate (length l) c) (owed b + sum_by size l) (sent b) (at_ b) (ahead b).
Proof.
  revert b. induction l as [|f l IH]; intros b.
  - cbn. rewrite !app_nil_r, Z.add_0_r. by destruct b.
  - cbn [foldl]. rewrite IH. cbn. rewrite <- !app_assoc, <- Z.add_assoc. done.
Qed.

Lemma entries_same q q' (l : list Slot) : coding q = coding q' → pieces q = pieces q' → entry q <$> l = entry q' <$> l.
Proof. intros H1 H2. apply list_fmap_ext. intros _ [f|f|f|] _; cbn; congruence. Qed.

Lemma entries_no_screen q q' (l : list Slot) : sum_by screen_count l = 0 → entry q <$> l = entry q' <$> l.
Proof.
  induction l as [|s l IH]; [done|]. rewrite sum_by_cons. intros H.
  destruct (sum_slots_nonneg l) as (_ & _ & _ & ?). rewrite !fmap_cons. destruct s; cbn [screen_count] in H; try lia; f_equal; apply IH; lia.
Qed.

(** A batch being filled. *)
Record filling (b : Batch) : Prop := {
  fi_codings : length (codings b) = length (frames b);
  fi_owed : owed b = sum_by size (frames b)
}.

Definition coded (b : Batch) : list (Coding * list Z) := zip (codings b) (data <$> frames b).

Lemma push_filling b f c : filling b → filling (push_frame b f c) ∧ coded (push_frame b f c) = coded b ++ [(c, data f)].
Proof.
  intros [H1 H2]. split.
  - split; unfold push_frame; cbn [frames codings owed assign].
    + cbn. rewrite !length_app, H1. done.
    + cbn. rewrite sum_by_app, sum_by_one, H2. done.
  - unfold coded. cbn. rewrite fmap_app, zip_with_app by (rewrite length_fmap; lia). done.
Qed.

Lemma push_all_filling b l c : filling b →
  filling (foldl (λ b f, push_frame b f c) b l) ∧ coded (foldl (λ b f, push_frame b f c) b l) = coded b ++ (pair c <$> (data <$> l)).
Proof.
  revert b. induction l as [|f l IH]; intros b Hb; [by rewrite app_nil_r|]. cbn [foldl fmap list_fmap].
  destruct (push_filling b f c Hb) as [H1 H2]. destruct (IH _ H1) as [H3 H4]. split; [done|]. by rewrite H4, H2, <- app_assoc.
Qed.

(** The slot at the front leaves, and its bytes move to what is taken of its lane. *)
Lemma pop_stream q s f rest : queue_ok q → order q = s :: rest → s = Stream f ∨ s = Control f →
  take_ (stream q) (size f) = Some (mkLane (queued (stream q) - size f) (taken (stream q) + size f)) ∧
  queue_ok (q <| order := rest |> <| stream := mkLane (queued (stream q) - size f) (taken (stream q) + size f) |>).
Proof.
  intros [Hs Hf He Hp Hslot Ht Hsl Hfl Hsp Hsc] Ho Hf'. rewrite Ho, sum_by_cons in *. pose proof (sum_slots_nonneg rest). pose proof (size_nonneg f).
  assert (stream_bytes s = size f ∧ forward_bytes s = 0 ∧ forward_count s = 0 ∧ screen_count s = 0) as (E1 & E2 & E3 & E4) by (by destruct Hf' as [->| ->]).
  rewrite E1, E2, E3, E4 in *. split.
  - unfold take_, checked_sub. destruct (Z.leb_spec (size f) (queued (stream q))); [done|lia].
  - split; cbn; try done; unfold charged in *; cbn in *; lia.
Qed.

Lemma pop_forward q f rest : queue_ok q → order q = Forward f :: rest →
  take_ (forward q) (size f) = Some (mkLane (queued (forward q) - size f) (taken (forward q) + size f)) ∧
  checked_sub (forward_entries q) 1 = Some (forward_entries q - 1) ∧
  queue_ok (q <| order := rest |> <| forward := mkLane (queued (forward q) - size f) (taken (forward q) + size f) |> <| forward_entries := forward_entries q - 1 |>).
Proof.
  intros [Hs Hf He Hp Hslot Ht Hsl Hfl Hsp Hsc] Ho. rewrite Ho, sum_by_cons in *. pose proof (sum_slots_nonneg rest). pose proof (size_nonneg f).
  cbn [stream_bytes forward_bytes forward_count screen_count] in *. split_and!.
  - unfold take_, checked_sub. destruct (Z.leb_spec (size f) (queued (forward q))); [done|lia].
  - unfold checked_sub. destruct (Z.leb_spec 1 (forward_entries q)); [done|lia].
  - split; cbn; try done; unfold charged in *; cbn in *; lia.
Qed.

Lemma pop_screen q rest : queue_ok q → order q = Screen :: rest →
  sum_by screen_count rest = 0 ∧ queue_ok (q <| order := rest |> <| screen := take_all (screen q) |> <| pieces := [] |>).
Proof.
  intros [Hs Hf He Hp Hslot Ht Hsl Hfl Hsp Hsc] Ho. rewrite Ho, sum_by_cons in *. pose proof (sum_slots_nonneg rest). pose proof (sum_size_nonneg (pieces q)).
  cbn [stream_bytes forward_bytes forward_count screen_count] in *.
  assert (sum_by screen_count rest = 0) by (case_bool_decide; lia). split; [done|].
  split; cbn; try done; unfold charged in *; cbn in *; try lia.
Qed.

(** [l] went from the front of the queue into the batch. *)
Record moved (q : Queue) (b : Batch) (q' : Queue) (b' : Batch) (l : list Entry) : Prop := {
  mv_queue : queue_ok q';
  mv_entries : entries q = l ++ entries q';
  mv_filling : filling b';
  mv_coded : coded b' = coded b ++ (l ≫= frames_of);
  mv_cursor : sent b' = sent b ∧ at_ b' = at_ b ∧ ahead b' = ahead b;
  mv_lent : lent q' - owed b' = lent q - owed b;
  mv_closed : closed q' = closed q
}.

Lemma moved_refl q b : queue_ok q → filling b → moved q b q b [].
Proof. intros Hq Hb. split; try done. by rewrite app_nil_r. Qed.

Lemma moved_trans q b q1 b1 q2 b2 l1 l2 : moved q b q1 b1 l1 → moved q1 b1 q2 b2 l2 → moved q b q2 b2 (l1 ++ l2).
Proof.
  intros [A1 A2 A3 A4 (A5 & A6 & A7) A8 A9] [B1 B2 B3 B4 (B5 & B6 & B7) B8 B9]. split; try done.
  - by rewrite A2, B2, app_assoc.
  - by rewrite B4, A4, bind_app, app_assoc.
  - split_and!; congruence.
  - lia.
  - congruence.
Qed.

Lemma moved_frame q b q' f e s rest : queue_ok q' → filling b → order q = s :: rest → order q' = rest → coding q' = coding q → pieces q' = pieces q →
  entry q s = e → frames_of e = [(Raw, data f)] → lent q' = lent q + size f → closed q' = closed q → moved q b q' (push_frame b f Raw) [e].
Proof.
  intros Hq Hb Ho Ho' Hc Hp He Hfr Hl Hcl. destruct (push_filling b f Raw Hb) as [H1 H2]. split; try done.
  - unfold entries. rewrite Ho, Ho'. cbn. rewrite He. f_equal. by apply entries_same.
  - cbn [mbind list_bind]. by rewrite app_nil_r, H2, Hfr.
  - cbn. lia.
Qed.

Lemma fill_loop_spec todo q b : todo = order q → queue_ok q → filling b →
  ∃ q' b' l, fill_loop todo q b = Some (q', b') ∧ moved q b q' b' l ∧ (todo ≠ [] → owed b < BATCH → l ≠ []).
Proof.
  revert q b. induction todo as [|s rest IH]; intros q b Ho Hq Hb; cbn [fill_loop]; symmetry in Ho.
  { exists q, b, []. split_and!; [by destruct (_ <? _)|by apply moved_refl|done]. }
  destruct (Z.ltb_spec (owed b) BATCH); [|exists q, b, []; split_and!; [done|by apply moved_refl|lia]].
  assert (∀ q1 b1 l1, order q1 = rest → l1 ≠ [] → moved q b q1 b1 l1 →
    ∃ q' b' l, fill_loop rest q1 b1 = Some (q', b') ∧ moved q b q' b' l ∧ (s :: rest ≠ [] → owed b < BATCH → l ≠ [])) as Hnext.
  { intros q1 b1 l1 Ho1 Hl1 Hm. destruct (IH q1 b1) as (q' & b' & l & E & Hm' & _); [done|apply Hm|apply Hm|].
    exists q', b', (l1 ++ l). split_and!; [done|by eapply moved_trans|]. intros _ _ [-> _]%app_nil. done. }
  destruct s as [f|f|f|].
  - destruct (pop_stream q (Stream f) f rest Hq Ho) as [E Hq1]; [by left|]. cbn [stream assign] in *. rewrite E. cbn [mbind option_bind].
    apply (Hnext _ _ [EStream (data f)]); [done|done|]. eapply moved_frame; try done. unfold lent. cbn. lia.
  - destruct (pop_stream q (Control f) f rest Hq Ho) as [E Hq1]; [by right|]. cbn [stream assign] in *. rewrite E. cbn [mbind option_bind].
    apply (Hnext _ _ [EControl (data f)]); [done|done|]. eapply moved_frame; try done. unfold lent. cbn. lia.
  - destruct (pop_forward q f rest Hq Ho) as (E & E' & Hq1). cbn [forward forward_entries assign] in *. rewrite E. cbn [mbind option_bind]. rewrite E'. cbn [mbind option_bind].
    apply (Hnext _ _ [EForward (data f)]); [done|done|]. eapply moved_frame; try done. unfold lent. cbn. lia.
  - destruct (pop_screen q rest Hq Ho) as [H0 Hq1]. destruct (push_all_filling b (pieces q) (coding q) Hb) as [Hb1 Hc1].
    apply (Hnext _ _ [EScreen (coding q) (data <$> pieces q)]); [done|done|]. split; try done.
    + unfold entries. rewrite Ho. cbn. f_equal. by apply entries_no_screen.
    + cbn [mbind list_bind frames_of]. by rewrite app_nil_r.
    + by rewrite push_all.
    + rewrite push_all. unfold lent. cbn. rewrite <- (qo_screen q Hq). lia.
Qed.

Lemma coded_bytes b : filling b → concat (data <$> frames b) = concat (coded b).*2.
Proof. intros [H1 _]. unfold coded. by rewrite snd_zip by (rewrite length_fmap; lia). Qed.

Lemma take_spec s : queue_ok (queue s) → s = publish (queue s) →
  ∃ r s' b', take s new_batch = Some (r, s', b') ∧ queue_ok (queue s') ∧ s' = publish (queue s') ∧ batch_ok b' ∧ closed (queue s') = closed (queue s) ∧
    owed b' - lent (queue s') = - lent (queue s) ∧
    match r with
    | Some true => in_flight (queue s') = true ∧ ∃ l, l ≠ [] ∧ entries (queue s) = l ++ entries (queue s') ∧ unsent b' = bytes_of l ∧ coded b' = l ≫= frames_of
    | Some false => s' = s ∧ b' = new_batch ∧ order (queue s) = [] ∧ closed (queue s) = true
    | None => s' = s ∧ b' = new_batch ∧ order (queue s) = [] ∧ closed (queue s) = false
    end.
Proof.
  intros Hq Hs. unfold take. destruct (order (queue s)) as [|x o] eqn:Ho.
  { exists (if closed (queue s) then Some false else None), s, new_batch. pose proof new_batch_ok. split_and!; try done. by destruct (closed (queue s)) eqn:E. }
  unfold fill. destruct (fill_loop_spec (order (queue s)) (queue s) new_batch) as (q' & b' & l & E & [M1 M2 M3 M4 (M5 & M6 & M7) M8 M9] & Hne); [done|done|done|].
  rewrite Ho in *. rewrite E. cbn [mbind option_bind].
  exists (Some true), (publish (q' <| in_flight := true |>)), b'. pose proof M3 as [F1 F2].
  split_and!; try done.
  - destruct M1. split; done.
  - pose proof (sum_size_nonneg (frames b')). cbn in M5, M6, M7. split; rewrite ?M6, ?M7, ?M5; cbn; try done; try lia. intros f _. pose proof (size_nonneg f). lia.
  - change (lent (queue (publish (q' <| in_flight := true |>)))) with (lent q'). cbn in M8. lia.
  - exists l. split_and!; [by apply Hne|done| |done]. unfold unsent. rewrite M5. cbn [sent new_batch Z.to_nat]. rewrite drop_0, coded_bytes, M4 by done. done.
Qed.

(** *** Producers *)

Definition put_at {A} (p : Position) (x : A) (l : list A) : list A := match p with Back => l ++ [x] | Front => x :: l end.

(** The lane a slot is charged to, and the room it may fill. *)
Definition lane_of (q : Queue) (s : Slot) : Lane := match s with Forward _ => forward q | _ => stream q end.
Definition lane_room (s : Slot) : Z := match s with Forward _ => FORWARD_LANE | _ => STREAM_LIMIT + CONTROL_SLACK end.

Lemma admit_refuses q slot limit p : limit < USIZE_MAX →
  (∃ s, admit_ q slot limit p = Err s) ↔ limit < charged (lane_of q slot) + bytes slot.
Proof.
  intros Hl. unfold admit_. replace (if match slot with Forward _ => true | _ => false end then forward q else stream q) with (lane_of q slot) by (by destruct slot).
  unfold sat_add. destruct (Z.ltb_spec limit (USIZE_MAX `min` (charged (lane_of q slot) + bytes slot))).
  - split; [lia|eauto].
  - split; [by intros [? ?]|lia].
Qed.

Lemma admit_err q slot limit p s : admit_ q slot limit p = Err s → s = slot.
Proof. unfold admit_. destruct (_ <? _); [congruence|done]. Qed.

Lemma admit_ok q slot limit p q' : queue_ok q → slot ≠ Screen → limit ≤ lane_room slot → admit_ q slot limit p = Ok q' →
  queue_ok q' ∧ entries q' = put_at p (entry q slot) (entries q) ∧ lent q' = lent q ∧ closed q' = closed q ∧ in_flight q' = in_flight q.
Proof.
  intros [Hs Hf He Hp Hslot Ht Hsl Hfl Hsp Hsc] Hns Hr. unfold admit_.
  replace (if match slot with Forward _ => true | _ => false end then forward q else stream q) with (lane_of q slot) by (by destruct slot).
  unfold sat_add. destruct (Z.ltb_spec limit (USIZE_MAX `min` (charged (lane_of q slot) + bytes slot))); [done|]. intros [= <-].
  assert (lane_room slot < USIZE_MAX) by (by destruct slot).
  split_and!; [| |by destruct slot|by destruct slot|by destruct slot].
  - destruct slot; try done; unfold lane_of, lane_room, charged in *; split; cbn; try done; destruct p; rewrite ?sum_by_app, ?sum_by_one, ?sum_by_cons; cbn in *; unfold charged; cbn; lia.
  - unfold entries. destruct slot; try done; cbn; destruct p; unfold put_at; rewrite ?fmap_app; done.
Qed.

Lemma queue_ok_pools q s t : queue_ok q → pools_ok (s, t) → queue_ok (q <| spare := s |> <| screens := t |>).
Proof. intros [] [? ?]. split; done. Qed.
Lemma queue_ok_spare q s : queue_ok q → len s ≤ SPARE_FRAMES ∧ Forall (λ c, c ≤ Fields.MAX_OUTPUT_CHUNK) s → queue_ok (q <| spare := s |>).
Proof. intros [] ?. split; done. Qed.
Lemma queue_ok_closed q c : queue_ok q → queue_ok (q <| closed := c |>).
Proof. intros []. split; done. Qed.

Lemma removelast_pool l : len l ≤ SPARE_FRAMES ∧ Forall (λ c, c ≤ Fields.MAX_OUTPUT_CHUNK) l →
  len (removelast l) ≤ SPARE_FRAMES ∧ Forall (λ c, c ≤ Fields.MAX_OUTPUT_CHUNK) (removelast l).
Proof.
  destruct l as [|x l _] using rev_ind; [done|]. rewrite removelast_last, length_app. intros [H1 H2]. split; [lia|]. by apply Forall_app in H2 as [? _].
Qed.

(** What a producer's call may do to the queue: the shape shared by every refinement below. *)
Record serves (s s' : Shared) (l : list Entry) (c : bool) : Prop := {
  sv_queue : queue_ok (queue s');
  sv_mirror : s' = publish (queue s');
  sv_entries : entries (queue s') = l;
  sv_lent : lent (queue s') = lent (queue s);
  sv_closed : closed (queue s') = c;
  sv_flight : in_flight (queue s') = in_flight (queue s)
}.

Lemma serves_refl s : queue_ok (queue s) → s = publish (queue s) → serves s s (entries (queue s)) (closed (queue s)).
Proof. by split. Qed.

(** A change of the pools alone. *)
Lemma serves_pools s q : s = publish (queue s) → queue_ok q → order q = order (queue s) → pieces q = pieces (queue s) → coding q = coding (queue s) →
  screen q = screen (queue s) → stream q = stream (queue s) → forward q = forward (queue s) → forward_entries q = forward_entries (queue s) →
  in_flight q = in_flight (queue s) → closed q = closed (queue s) →
  serves s (unpublished s q) (entries (queue s)) (closed (queue s)).
Proof.
  intros Hs Hq Ho Hp Hc H1 H2 H3 H4 H5 H6. split; cbn; try done.
  - rewrite Hs. unfold unpublished, publish, outstanding. cbn. by rewrite Ho, H4, H5, H6.
  - unfold entries. rewrite Ho. by apply entries_same.
  - unfold lent. by rewrite H1, H2, H3.
Qed.

Lemma push_spec s slot limit p : queue_ok (queue s) → s = publish (queue s) → slot ≠ Screen → limit ≤ lane_room slot →
  let r := push s slot limit p in
  match r.1 with
  | Ok _ => closed (queue s) = false ∧ serves s r.2 (put_at p (entry (queue s) slot) (entries (queue s))) false
  | Err _ => r.2 = s
  end.
Proof.
  intros Hq Hs Hn Hr. unfold push. destruct (closed (queue s)) eqn:Ec; [done|]. destruct (admit_ (queue s) slot limit p) as [q|] eqn:E; [|done].
  eapply admit_ok in E as (H1 & H2 & H3 & H4 & H5); [|done..]. cbn. split; [done|]. split; cbn; try done; congruence.
Qed.

Lemma send_spec s v m grown : queue_ok (queue s) → s = publish (queue s) →
  let r := send s v m grown in
  match r.1 with
  | Ok _ => closed (queue s) = false ∧
      ∃ x, ServerMessage.encode m v = Ok x ∧ serves s r.2 (put_at (if is_terminal m then Front else Back) (EControl x) (entries (queue s))) false
  | Err _ => serves s r.2 (entries (queue s)) (closed (queue s))
  end.
Proof.
  intros Hq Hs. unfold send. destruct (closed (queue s)) eqn:Ec; [rewrite <- Ec; by apply serves_refl|].
  set (c := grown _). set (q := (queue s) <| spare := removelast (spare (queue s)) |>).
  pose proof (removelast_pool _ (qo_spare _ Hq)) as Hp. assert (queue_ok q) as Hq1 by (by apply queue_ok_spare).
  destruct (ServerMessage.encode m v) as [x|].
  - destruct (admit_ q _ _ _) as [q'|refused] eqn:E.
    + eapply admit_ok in E as (H1 & H2 & H3 & H4 & H5); [|done..]. cbn [fst snd]. split; [done|]. exists x. split; [done|].
      split; [done|done|exact H2|exact H3|exact (eq_trans H4 Ec)|exact H5].
    + apply admit_err in E as ->. cbn [fst snd into_frame]. rewrite <- Ec. apply serves_pools; try done. apply queue_ok_spare; [done|]. by apply recycle_pool.
  - cbn [fst snd]. rewrite <- Ec. apply serves_pools; try done. apply queue_ok_spare; [done|]. by apply recycle_pool.
Qed.

Lemma existsb_screen q l : existsb is_screen (entry q <$> l) = (0 <? sum_by screen_count l).
Proof.
  induction l as [|s l IH]; [done|]. cbn [fmap list_fmap existsb]. rewrite sum_by_cons. destruct (sum_slots_nonneg l) as (_ & _ & _ & ?).
  destruct s; cbn; try done. symmetry. apply Z.ltb_lt. lia.
Qed.

Lemma send_screen_spec s cut : queue_ok (queue s) → s = publish (queue s) →
  let r := send_screen s cut in
  match r.1 with
  | Ok p =>
      closed (queue s) = false ∧
      (cut_pieces cut = [] ∧ r.2 = s ∨
       cut_pieces cut ≠ [] ∧ serves s r.2 (place (EScreen (cut_coding cut) (data <$> cut_pieces cut)) (entries (queue s))) false ∧
       (p = Clear ↔ charged (screen (queue r.2)) ≤ SCREEN_LIMIT))
  | Err _ => closed (queue s) = true ∧ r.2 = s
  end.
Proof.
  intros Hq Hs. unfold send_screen. destruct (closed (queue s)) eqn:Ec; [done|]. case_bool_decide as Hne; [by split; [|left]|].
  cbn [fst snd]. split; [done|]. right. split; [done|].
  set (q := queue s) in *. set (q1 := if bool_decide (pieces q = []) then _ else q).
  pose proof (keep_all_pools (spare q) (screens q) (pieces q) (queue_pools q Hq)) as Hpool.
  assert (spare q1 = spare q ∧ screens q1 = screens q ∧ pieces q1 = pieces q) as (E1 & E2 & E3) by (unfold q1; by case_bool_decide).
  unfold recycle_pieces. rewrite E1, E2, E3. destruct (keep_all (spare q) (screens q) (pieces q)) as [sp sc].
  assert (sum_by stream_bytes (order q1) = sum_by stream_bytes (order q) ∧ sum_by forward_bytes (order q1) = sum_by forward_bytes (order q) ∧
          sum_by forward_count (order q1) = sum_by forward_count (order q) ∧ sum_by screen_count (order q1) = 1 ∧
          ∀ q2, coding q2 = cut_coding cut → pieces q2 = cut_pieces cut → entry q2 <$> order q1 = place (EScreen (cut_coding cut) (data <$> cut_pieces cut)) (entries q)) as (S1 & S2 & S3 & S4 & S5).
  { pose proof (qo_slot q Hq) as Hslot. unfold place, entries. rewrite existsb_screen. unfold q1. case_bool_decide.
    - cbn. rewrite !sum_by_app, !sum_by_one, Hslot. cbn. split_and!; try lia. intros q2 H2 H3. rewrite fmap_app. cbn. rewrite H2, H3. f_equal. by apply entries_no_screen.
    - split_and!; try done. rewrite Hslot. cbn. intros q2 H2 H3. rewrite <- list_fmap_compose. apply list_fmap_ext. intros _ [f|f|f|] _; cbn; congruence. }
  assert (stream q1 = stream q ∧ forward q1 = forward q ∧ screen q1 = screen q ∧ forward_entries q1 = forward_entries q ∧ in_flight q1 = in_flight q ∧ closed q1 = closed q)
    as (T1 & T2 & T3 & T4 & T5 & T6) by (unfold q1; by case_bool_decide).
  clearbody q1. destruct Hq. split.
  - split; [split|..]; cbn; rewrite ?T1, ?T2, ?T3, ?T4, ?T5, ?T6, ?S1, ?S2, ?S3, ?S4; try done.
    + by rewrite bool_decide_eq_false_2.
    + apply Hpool.
    + apply Hpool.
    + by apply S5.
    + unfold lent. cbn. by rewrite T1, T2, ?T3.
  - cbn. destruct (Z.ltb_spec SCREEN_LIMIT (charged ((screen q1) <| queued := sum_by size (cut_pieces cut) |>))); split; done || lia.
Qed.

(** The case of a slot that a discard leaves where it is. *)
Ltac stays s k :=
  lazymatch goal with
  | IH : ∀ spare screens kept out, pools_ok _ → _, Hp : pools_ok (?spare, ?screens) |- context [discard_loop ?l _ _ _ (?out ++ _)] =>
      specialize (IH spare screens k (out ++ [s]) Hp); destruct (discard_loop _ _ _ _ _) as [[[? ?] ?] ?];
      destruct IH as (? & m & H2 & ? & ? & ? & ? & ? & H8); split; [done|]; exists (s :: m); rewrite !sum_by_cons;
      cbn [stream_bytes forward_bytes forward_count screen_count]; split_and!; try done; try lia;
      [by rewrite H2, <- app_assoc|intros q; cbn; by rewrite H8]
  end.

(** [discard_loop] keeps what is not output, in order, and counts what of it is control. *)
Lemma discard_loop_spec l spare screens kept out : pools_ok (spare, screens) →
  let '(sp, sc, k, o) := discard_loop l spare screens kept out in
  pools_ok (sp, sc) ∧ ∃ m, o = out ++ m ∧ k = kept + sum_by stream_bytes m ∧ sum_by stream_bytes m ≤ sum_by stream_bytes l ∧
    sum_by forward_bytes m = sum_by forward_bytes l ∧ sum_by forward_count m = sum_by forward_count l ∧ sum_by screen_count m = sum_by screen_count l ∧
    ∀ q, entry q <$> m = base.filter (λ e, is_stream e = false) (entry q <$> l).
Proof.
  revert spare screens kept out. induction l as [|s l IH]; intros spare screens kept out Hp; cbn [discard_loop].
  { split; [done|]. exists []. rewrite app_nil_r. split_and!; try done. unfold sum_by. cbn. lia. }
  destruct s as [f|f|f|].
  - pose proof (keep_pools _ (capacity f) Hp) as Hp1. cbn [fst snd] in Hp1. destruct (keep spare screens (capacity f)) as [sp1 sc1].
    specialize (IH sp1 sc1 kept out Hp1). destruct (discard_loop _ _ _ _ _) as [[[sp sc] k] o]. destruct IH as (H1 & m & H2 & H3 & H4 & H5 & H6 & H7 & H8).
    split; [done|]. exists m. rewrite !sum_by_cons. cbn [stream_bytes forward_bytes forward_count screen_count]. pose proof (size_nonneg f).
    split_and!; try done; lia.
  - stays (Control f) (kept + size f).
  - stays (Forward f) kept.
  - stays Screen kept.
Qed.

Lemma discard_spec s : queue_ok (queue s) → s = publish (queue s) →
  serves s (discard_stream s) (base.filter (λ e, is_stream e = false) (entries (queue s))) (closed (queue s)).
Proof.
  intros Hq Hs. unfold discard_stream. pose proof (discard_loop_spec (order (queue s)) (spare (queue s)) (screens (queue s)) 0 [] (queue_pools _ Hq)) as H.
  destruct (discard_loop _ _ _ _ _) as [[[sp sc] k] o]. destruct H as (H1 & m & -> & -> & H4 & H5 & H6 & H7 & H8).
  rewrite Z.add_0_l, app_nil_l. destruct Hq as [Q1 Q2 Q3 Q4 Q5 Q6 Q7 Q8 Q9 Q10]. unfold charged in *. split; [split|..]; cbn; try done; try congruence; try apply H1; unfold charged; cbn; try lia.
  all: unfold entries; cbn; rewrite <- H8; by apply entries_same.
Qed.

Lemma reclaim_spec s : queue_ok (queue s) → s = publish (queue s) →
  serves s (reclaim s []).2 (entries (queue s)) (closed (queue s)) ∧ serves s (reclaim_screens s []).2 (entries (queue s)) (closed (queue s)).
Proof. intros Hq Hs. split; cbn [reclaim reclaim_screens snd]; apply serves_pools; try done; destruct Hq; split; cbn; try done. Qed.

Lemma close_spec s : queue_ok (queue s) → serves s (close s) (entries (queue s)) true.
Proof. intros Hq. split; try done. by apply queue_ok_closed. Qed.

(** *** The writer *)

Lemma retired_spec s b : queue_ok (queue s) → s = publish (queue s) →
  let r := retire s b in
  r.2 = new_batch ∧ queue_ok (queue r.1) ∧ r.1 = publish (queue r.1) ∧ lent (queue r.1) = 0 ∧ order (queue r.1) = order (queue s) ∧
  entries (queue r.1) = entries (queue s) ∧ closed (queue r.1) = closed (queue s) ∧ in_flight (queue r.1) = in_flight (queue s).
Proof.
  intros Hq Hs. unfold retire. cbn [spare screens assign]. pose proof (keep_all_pools _ _ (frames b) (queue_pools _ Hq)) as Hp.
  cbn. destruct (keep_all (spare (queue s)) (screens (queue s)) (frames b)) as [sp sc]. cbn [fst snd].
  split_and!; try done.
  - destruct Hq as [Q1 Q2 Q3 Q4 Q5 Q6 Q7 Q8 Q9 Q10]. unfold charged in *. split; cbn; try done; try apply Hp; unfold charged; cbn; lia.
  - rewrite Hs at 1. done.
Qed.

Lemma settle_spec s failed : queue_ok (queue s) → queue_ok (queue (settle s failed)) ∧ settle s failed = publish (queue (settle s failed)) ∧
  lent (queue (settle s failed)) = lent (queue s) ∧ order (queue (settle s failed)) = order (queue s) ∧ entries (queue (settle s failed)) = entries (queue s).
Proof. intros []. split_and!; try done; split; done. Qed.

Lemma serves_sink s x l c g : sink_ok s → serves (shared s) x l c → (closed (queue (shared s)) = true → c = true) →
  let s' := mkSink x (writer s) (s_wrote s) (s_took s) g in
  sink_ok s' ∧ abs s' = mkSpec (s_wrote s) (unsent (batch (writer s))) l (s_took s) g c.
Proof.
  intros [] [] Hc s'. split.
  - split; cbn; try done; [lia| |].
    + unfold doing_ok in *. rewrite sv_flight0. destruct (doing (writer s)); naive_solver congruence.
    + rewrite sv_flight0. intros H1 H2. apply so_flight0; [done|]. destruct (closed (queue (shared s))); [|done]. rewrite sv_closed0, Hc in H2; done.
  - unfold abs, s'. cbn. congruence.
Qed.

(** One offer and its answer: what is left is owed, what was taken is the front of what was. *)
Lemma turn_spec b slices packed n : batch_ok b → remainder b = Some (slices, packed) → 0 ≤ n ≤ len (concat slices) →
  batch_ok (advance b n) ∧ unsent b = firstn (Z.to_nat n) (concat slices) ++ unsent (advance b n).
Proof.
  intros Hb E Hn. destruct (remainder_spec b Hb) as (sl & p & E' & [rest Hpre] & _). rewrite E in E'. injection E' as <- <-.
  destruct (advance_spec b n Hb) as [H1 H2]; [rewrite Hpre, length_app; lia|]. split; [done|].
  rewrite H2, Hpre, drop_app_le, app_assoc, take_drop by lia. done.
Qed.

Lemma owed_advance b n : owed (advance b n) = owed b.
Proof. exact (proj1 (proj2 (proj2 (advance_loop_same (drop (at_ b) (frames b)) (b <| sent := sent b + n |>))))). Qed.

(** A step of the thread that leaves the queue alone. *)
Lemma writer_step v s b d a out : sink_ok s → batch_ok b → owed b ≤ owed (batch (writer s)) →
  unsent (batch (writer s)) = out ++ unsent b → doing_ok (queue (shared s)) b d →
  let s' := mkSink (shared s) (mkWriter b d) (s_wrote s ++ out) (s_took s ++ firstn (length (order (queue (shared s))) - length (order (queue (shared s)))) (entries (queue (shared s)))) (s_given s) in
  sink_ok s' ∧ spec_step v (abs s) (EWork a) (abs s').
Proof.
  intros [Q M B L D F] Hb Ho Hu Hd s'. split.
  - split; cbn; try done; [lia|]. intros H1 H2. apply is_spent_unsent; [done|]. specialize (F H1 H2). rewrite is_spent_unsent in F by done.
    rewrite F in Hu. symmetry in Hu. by apply app_nil in Hu as [_ ?].
  - unfold abs, s'. cbn. rewrite Nat.sub_diag. cbn. rewrite app_nil_r, Hu. apply sp_deliver.
Qed.

(** The sink after a step of its writer. *)
Definition after (s : Sink) (x : Shared) (w : Writer) (out : list Z) : Sink :=
  mkSink x w (s_wrote s ++ out) (s_took s ++ firstn (length (order (queue (shared s))) - length (order (queue x))) (entries (queue (shared s)))) (s_given s).

(** The thread goes on and takes nothing more from the queue. *)
Lemma stays_put v s d a : sink_ok s → doing_ok (queue (shared s)) (batch (writer s)) d →
  let s' := after s (shared s) (mkWriter (batch (writer s)) d) [] in sink_ok s' ∧ spec_step v (abs s) (EWork a) (abs s').
Proof. intros Hs Hd. eapply writer_step; try done; apply Hs. Qed.

Lemma take_refines v s a : sink_ok s → batch (writer s) = new_batch →
  ∃ r x b, take (shared s) (batch (writer s)) = Some (r, x, b) ∧ closed (queue x) = closed (queue (shared s)) ∧
    match r with
    | None => closed (queue x) = false ∧ b = new_batch
    | Some false => closed (queue x) = true ∧ b = new_batch
    | Some true => in_flight (queue x) = true
    end ∧
    ∀ d, doing_ok (queue x) b d → sink_ok (after s x (mkWriter b d) []) ∧ spec_step v (abs s) (EWork a) (abs (after s x (mkWriter b d) [])).
Proof.
  intros Hs Hb. pose proof Hs as [Q M B L D F]. rewrite Hb in *. destruct (take_spec (shared s) Q M) as (r & x & b & E & Q' & M' & B' & Hc & Hl & Hr).
  exists r, x, b. split; [done|]. split; [done|]. destruct r as [[]|].
  - destruct Hr as (Hfl & l & Hne & He & Hu & _). split; [done|]. intros d Hd. split.
    + split; cbn; try done; [cbn in L; lia|]. by rewrite Hfl.
    + unfold abs, after. cbn. rewrite Hb, unsent_new, He, Hc, Hu, app_nil_r.
      replace (length (order (queue (shared s))) - length (order (queue x)))%nat with (length l).
      * rewrite take_app_length. by apply sp_commit.
      * apply (f_equal length) in He. rewrite length_app in He. unfold entries in He. rewrite !length_fmap in He. lia.
  - destruct Hr as (-> & -> & Ho & Hcl). split; [done|]. intros d Hd. rewrite <- Hb. apply stays_put; [done|]. by rewrite Hb.
  - destruct Hr as (-> & -> & Ho & Hcl). split; [done|]. intros d Hd. rewrite <- Hb. apply stays_put; [done|]. by rewrite Hb.
Qed.

(** One turn of [pump], wherever it leads. *)
Lemma turn_refines v s r : sink_ok s → in_flight (queue (shared s)) = true → honest s (EWork (Wrote r)) = true →
  ∃ slices packed, remainder (batch (writer s)) = Some (slices, packed) ∧
    let b := (pump_turn (batch (writer s)) r).1 in
    batch_ok b ∧
    ∀ d, doing_ok (queue (shared s)) b d →
      let s' := after s (shared s) (mkWriter b d) (match r with Ok n => firstn (Z.to_nat n) (concat slices) | Err _ => [] end) in
      sink_ok s' ∧ spec_step v (abs s) (EWork (Wrote r)) (abs s').
Proof.
  intros Hs Hfl Hh. pose proof (so_batch s Hs) as Hb. destruct (remainder_spec _ Hb) as (slices & packed & E & _). exists slices, packed. split; [done|].
  cbn in Hh. destruct r as [n|e]; cbn [pump_turn].
  - rewrite E in Hh. zbool. destruct (turn_spec _ _ _ n Hb E) as [H1 H2]; [lia|]. destruct (Z.eqb_spec n 0) as [->|Hn]; cbn [fst].
    + split; [done|]. intros d Hd. cbn [Z.to_nat]. rewrite take_0. by apply stays_put.
    + split; [done|]. intros d Hd. apply writer_step; try done. by rewrite owed_advance.
  - destruct e; cbn [fst]; (split; [done|]); intros d Hd; by apply stays_put.
Qed.

(** The batch is given back at the head of the loop, and what it came to is noted at its end. *)
Lemma retire_refines v s a : sink_ok s → is_spent (batch (writer s)) = true →
  let '(x, b) := retire (shared s) (batch (writer s)) in
  let s' := after s x (mkWriter b Taking) [] in sink_ok s' ∧ spec_step v (abs s) (EWork a) (abs s').
Proof.
  intros Hs Hsp. pose proof Hs as [Q M B L D F]. pose proof (retired_spec (shared s) (batch (writer s)) Q M) as H.
  destruct (retire (shared s) (batch (writer s))) as [x b]. cbn [fst snd] in H. destruct H as (-> & Q' & M' & L' & O' & E' & C' & F').
  split.
  - pose proof new_batch_ok. split; cbn; try done. lia.
  - unfold abs, after. cbn. rewrite O', Nat.sub_diag. cbn. apply is_spent_unsent in Hsp as ->; [|done].
    rewrite unsent_new, E', C', !app_nil_r. by apply sp_idle.
Qed.

Lemma settle_refines v s a failed : sink_ok s → doing (writer s) = Settling failed →
  let s' := after s (settle (shared s) failed) (mkWriter (batch (writer s)) (if failed then Ended else Top)) [] in
  sink_ok s' ∧ spec_step v (abs s) (EWork a) (abs s').
Proof.
  intros Hs Hd. pose proof Hs as [Q M B L D F]. rewrite Hd in D. cbn [doing_ok] in D. destruct D as [D1 D2].
  destruct (settle_spec (shared s) failed Q) as (Q' & M' & L' & O' & E'). split.
  - unfold after. split; cbn [shared writer batch doing]; try done.
    + destruct failed; cbn; [by rewrite orb_true_r|]. intros _. by apply D2.
    + intros _ Hc. destruct failed; [|by apply D2]. cbn in Hc. by rewrite orb_true_r in Hc.
  - unfold abs, after. cbn [s_wrote s_took s_given shared writer batch]. rewrite O', Nat.sub_diag, E', !app_nil_r. destruct failed.
    + cbn. rewrite orb_true_r. apply sp_broken.
    + cbn. rewrite orb_false_r. by apply sp_idle.
Qed.

(** A blocked writer of a closed sink forgets what it owes. *)
Lemma abandon_refines v s a : sink_ok s → closed (queue (shared s)) = true →
  let s' := after s (shared s) (mkWriter (clear (batch (writer s))) LastTaking) [] in
  sink_ok s' ∧ spec_step v (abs s) (EWork a) (abs s').
Proof.
  intros Hs Hc. pose proof Hs as [Q M B L D F]. split.
  - pose proof new_batch_ok. pose proof (qo_taken _ Q). split; cbn; try done. unfold lent. lia.
  - unfold abs, after, clear. cbn [s_wrote s_took s_given shared writer batch]. rewrite Nat.sub_diag, unsent_new, Hc. cbn. rewrite !app_nil_r. apply sp_abandon.
Qed.

Lemma work_refines v s a : sink_ok s → honest s (EWork a) = true →
  ∃ s', step v s (EWork a) = Some s' ∧ sink_ok s' ∧ spec_step v (abs s) (EWork a) (abs s').
Proof.
  intros Hs Hh. pose proof Hs as [Q M B L D F]. cbn [step]. unfold work.
  assert (∀ out, out = [] → ∃ s', Some (after s (shared s) (writer s) out) = Some s' ∧ sink_ok s' ∧ spec_step v (abs s) (EWork a) (abs s')) as Hidle.
  { intros out ->. eexists. split; [done|]. replace (writer s) with (mkWriter (batch (writer s)) (doing (writer s))) by (by destruct (writer s)). by apply stays_put. }
  specialize (Hidle [] eq_refl). unfold after in Hidle.
  destruct (doing (writer s)) as [| | |failed| | | |] eqn:Hd; destruct a as [r|r|passed|]; cbn [mbind option_bind]; try exact Hidle; cbn [doing_ok] in D.
  - destruct (is_spent (batch (writer s))) eqn:Es; cbn [mbind option_bind].
    + pose proof (retire_refines v s On Hs Es) as H. destruct (retire _ _) as [x b]. eexists. by split.
    + eexists. split; [done|]. apply stays_put; [done|]. cbn. destruct (in_flight (queue (shared s))); [done|]. by specialize (D eq_refl).
  - destruct (take_refines v s On Hs D) as (r & x & b & E & Hc & Hr & H). rewrite E. cbn [mbind option_bind]. eexists. split; [done|]. apply H. destruct r as [[]|]; cbn; naive_solver.
  - destruct (is_spent (batch (writer s))); [exact Hidle|]. destruct (turn_refines v s r Hs D Hh) as (sl & p & E & Hb & H). rewrite E. cbn [mbind option_bind].
    destruct (pump_turn (batch (writer s)) r) as [b q] eqn:Ep. cbn [fst] in *. eexists. split; [done|]. destruct q as [[]|]; apply H; cbn; try done; split; try done.
    by destruct r as [n|[]]; cbn in Ep; [destruct (n =? 0)|..].
  - destruct (is_spent (batch (writer s))) eqn:Es; [|exact Hidle]. eexists. split; [done|]. unfold pumped. apply stays_put; [done|]. by destruct r as [[]|[]].
  - eexists. split; [done|]. by apply settle_refines.
  - destruct (closed (queue (shared s))) eqn:Ec; [eexists; split; [done|]; by apply abandon_refines|]. destruct passed; [|exact Hidle].
    eexists. split; [done|]. apply stays_put; [done|]. cbn. congruence.
  - destruct D as [D1 D2]. destruct (take_refines v s On Hs D1) as (r & x & b & E & Hc & Hr & H). rewrite E. cbn [mbind option_bind]. eexists. split; [done|]. apply H.
    destruct r as [[]|]; cbn; naive_solver congruence.
  - destruct (is_spent (batch (writer s))); [exact Hidle|]. destruct D as [D1 D2]. destruct (turn_refines v s r Hs D1 Hh) as (sl & p & E & Hb & H). rewrite E. cbn [mbind option_bind].
    destruct (pump_turn (batch (writer s)) r) as [b q] eqn:Ep. cbn [fst] in *. eexists. split; [done|]. by destruct q as [[]|]; apply H.
  - destruct (is_spent (batch (writer s))) eqn:Es; [|exact Hidle]. eexists. split; [done|]. apply stays_put; [done|]. apply D.
Qed.

Lemma step_refines v s e : sink_ok s → honest s e = true → ∃ s', step v s e = Some s' ∧ sink_ok s' ∧ spec_step v (abs s) e (abs s').
Proof.
  intros Hs Hh. pose proof Hs as [Q M _ _ _ _]. pose proof (serves_refl _ Q M) as Hsame.
  destruct e as [m grown|f|f|cut| | | | |a]; [..|by apply work_refines]; cbn [step]; eexists; (split; [done|]); unfold gave, with_shared.
  - pose proof (send_spec (shared s) v m grown Q M) as H. cbn zeta in H. destruct (send (shared s) v m grown) as [[u|e] x]; cbn [fst snd] in *.
    + destruct H as (Hc & d & Hd & H). rewrite Hd. eapply serves_sink in H as [H1 ->]; [|done|congruence]. split; [done|]. unfold abs. rewrite Hc.
      destruct (is_terminal m) eqn:E; cbn [put_at]; [|].
      * pose proof (sp_send v (s_wrote s) (unsent (batch (writer s))) (entries (queue (shared s))) (s_took s) (s_given s) m d grown Hd) as X. by rewrite E in X.
      * pose proof (sp_send v (s_wrote s) (unsent (batch (writer s))) (entries (queue (shared s))) (s_took s) (s_given s) m d grown Hd) as X. by rewrite E in X.
    + eapply serves_sink in H as [H1 ->]; [|done..]. split; [done|]. by apply sp_idle.
  - pose proof (push_spec (shared s) (Stream f) STREAM_LIMIT Back Q M) as H. cbn zeta in H. unfold send_output. destruct (push _ _ _ _) as [[u|e] x]; cbn [fst snd] in *.
    + destruct H as [Hc H]; [done|done|]. eapply serves_sink in H as [H1 ->]; [|done|congruence]. split; [done|]. unfold abs. rewrite Hc. apply sp_output.
    + rewrite H by done. eapply serves_sink in Hsame as [H1 ->]; [|done..]. split; [done|]. by apply sp_idle.
  - pose proof (push_spec (shared s) (Forward f) FORWARD_LANE Back Q M) as H. cbn zeta in H. unfold send_forward. destruct (push _ _ _ _) as [[u|e] x]; cbn [fst snd] in *.
    + destruct H as [Hc H]; [done|done|]. eapply serves_sink in H as [H1 ->]; [|done|congruence]. split; [done|]. unfold abs. rewrite Hc. apply sp_forward.
    + rewrite H by done. eapply serves_sink in Hsame as [H1 ->]; [|done..]. split; [done|]. by apply sp_idle.
  - pose proof (send_screen_spec (shared s) cut Q M) as H. cbn zeta in H. destruct (send_screen (shared s) cut) as [[p|e] x]; cbn [fst snd] in *.
    + destruct H as (Hc & [[Hn ->]|(Hn & H & _)]).
      * eapply serves_sink in Hsame as [H1 ->]; [|done..]. split; [done|]. apply sp_idle. by right.
      * eapply serves_sink in H as [H1 ->]; [|done|congruence]. split; [done|]. unfold abs. rewrite Hc. by apply sp_screen.
    + destruct H as [Hc ->]. eapply serves_sink in Hsame as [H1 ->]; [|done..]. split; [done|]. apply sp_idle. by left.
  - pose proof (discard_spec _ Q M) as H. eapply serves_sink in H as [H1 ->]; [|done..]. split; [done|]. apply sp_discard.
  - destruct (reclaim_spec _ Q M) as [H _]. eapply serves_sink in H as [H1 ->]; [|done..]. split; [done|]. by apply sp_idle.
  - destruct (reclaim_spec _ Q M) as [_ H]. eapply serves_sink in H as [H1 ->]; [|done..]. split; [done|]. by apply sp_idle.
  - pose proof (close_spec _ Q) as H. eapply serves_sink in H as [H1 ->]; [|done..]. split; [done|]. apply sp_close.
Qed.

Lemma sink_new_ok : sink_ok sink_new.
Proof. pose proof new_batch_ok. by split. Qed.

Lemma reaches_ok v es s : reaches v es s → sink_ok s ∧ spec_reaches v es (abs s).
Proof.
  induction 1 as [|es e s s' _ [IH1 IH2] Hh Hst]; [split; [apply sink_new_ok|constructor]|].
  destruct (step_refines v s e IH1 Hh) as (s'' & E & H1 & H2). rewrite Hst in E. injection E as <-. split; [done|]. by eapply spec_next.
Qed.

(** *** The specification's own invariant *)

Record spec_ok (p : Spec) : Prop := {
  sk_forwards : omap forward_of (given p) = omap forward_of (took p ++ waiting p);
  sk_controls : omap control_of (given p) ≡ₚ omap control_of (took p ++ waiting p);
  sk_bytes : shut p = false → bytes_of (took p) = wrote p ++ pending p
}.

Lemma bytes_of_app l1 l2 : bytes_of (l1 ++ l2) = bytes_of l1 ++ bytes_of l2.
Proof. unfold bytes_of. by rewrite bind_app, fmap_app, concat_app. Qed.

Lemma omap_place {B} (f : Entry → option B) c ds (l : list Entry) : (∀ c ds, f (EScreen c ds) = None) → omap f (place (EScreen c ds) l) = omap f l.
Proof.
  intros H. unfold place. destruct (existsb is_screen l).
  - clear -H. induction l as [|x l IH]; [done|]. cbn. rewrite IH. destruct x; cbn; try done. by rewrite !H.
  - rewrite omap_app. cbn. rewrite H. by rewrite app_nil_r.
Qed.

Lemma omap_discard {B} (f : Entry → option B) (l : list Entry) : (∀ d, f (EStream d) = None) → omap f (base.filter (λ e, is_stream e = false) l) = omap f l.
Proof.
  intros H. induction l as [|x l IH]; [done|].
  destruct x; [rewrite filter_cons_False by done; cbn; by rewrite H|..]; rewrite filter_cons_True by done; cbn; by rewrite IH.
Qed.

Lemma spec_step_ok v p e p' : spec_ok p → spec_step v p e p' → spec_ok p'.
Proof.
  intros [F C B] Hst. destruct Hst as [|w d l t g f|w d l t g f|w d l t g m x grown Hx|w d l t g cut Hcut|w d l t g c|w d l t g c|w l1 l2 t g c a Hl|w d1 d2 l t g c a|w d l t g c a|w d l t g a];
    cbn [given took waiting shut wrote pending] in *; try done.
  - rewrite !omap_app in *. split; cbn; rewrite ?omap_app; cbn; rewrite ?app_nil_r; done.
  - rewrite !omap_app in *. split; cbn; rewrite ?omap_app; cbn; rewrite ?app_nil_r; [by rewrite F, app_assoc|done|done].
  - rewrite !omap_app in *. split; cbn; rewrite ?omap_app; [|destruct (is_terminal m); cbn|done].
    + destruct (is_terminal m); cbn; rewrite ?omap_app; cbn; rewrite ?app_nil_r; done.
    + rewrite C, <- Permutation_cons_append. by rewrite <- Permutation_middle.
    + rewrite ?omap_app, C. cbn. by rewrite app_assoc.
  - split; cbn; [| |done]; by rewrite omap_app, omap_place, <- omap_app.
  - split; cbn; [| |done]; by rewrite omap_app, omap_discard, <- omap_app.
  - split; cbn [given took waiting shut wrote pending]; [by rewrite <- app_assoc in *|by rewrite <- app_assoc|]. intros Hs. specialize (B Hs). rewrite app_nil_r in B. by rewrite bytes_of_app, B.
  - split; cbn [given took waiting shut wrote pending]; [done|done|]. intros Hs. by rewrite <- app_assoc, B.
Qed.

Lemma spec_reaches_ok v es p : spec_reaches v es p → spec_ok p.
Proof. induction 1; [done|]. by eapply spec_step_ok. Qed.

(** ** What is shown *)

(** C19: the lock-protected queue and the thread that drains it keep the promise of [Spec]: whatever
    producers call and however the transport answers, no step panics, and each is a step of the
    specification or changes nothing it can see: frames are taken whole from the front, a screen
    replaces the one waiting where it stands, an ending message goes ahead of everything, and the
    bytes written are always the front of the bytes owed. *)
Theorem sink_refines_spec v es s : reaches v es s → spec_reaches v es (abs s) ∧ ∀ e, honest s e = true → is_Some (step v s e).
Proof.
  intros H. apply reaches_ok in H as [H1 H2]. split; [done|]. intros e He. destruct (step_refines v s e H1 He) as (s' & -> & _). done.
Qed.

(** C20: no accepted frame of a forwarded connection and no accepted control message is ever dropped
    from the queue: the former are taken or waiting in the order they were accepted, the latter each
    once; and while the client is there, what was taken has been written, byte for byte and in order,
    up to what the writer still owes. *)
Theorem nothing_accepted_is_lost v es s : reaches v es s →
  let q := queue (shared s) in
  omap forward_of (s_given s) = omap forward_of (s_took s ++ entries q) ∧
  omap control_of (s_given s) ≡ₚ omap control_of (s_took s ++ entries q) ∧
  (closed q = false → bytes_of (s_took s) = s_wrote s ++ unsent (batch (writer s))).
Proof. intros H. apply reaches_ok in H as [_ H]. by apply spec_reaches_ok in H as [? ? ?]. Qed.

Lemma bytes_lanes l : sum_by bytes l = sum_by stream_bytes l + sum_by forward_bytes l.
Proof. induction l as [|x l IH]; [done|]. rewrite !sum_by_cons, IH. destruct x; cbn; lia. Qed.

(** *** What screens come to *)

Lemma take_all_twice l : take_all (take_all l) = take_all l.
Proof. unfold take_all. cbn. by rewrite Z.add_0_r. Qed.

Lemma fill_screen todo q b q' b' : fill_loop todo q b = Some (q', b') → closed q' = closed q ∧ (screen q' = screen q ∨ screen q' = take_all (screen q)).
Proof.
  revert q b. induction todo as [|x todo IH]; intros q b; cbn [fill_loop]; (destruct (_ <? _); [|intros [= <- _]; by split; [|left]]); [intros [= <- _]; by split; [|left]|].
  destruct x as [f|f|f|]; repeat (first [destruct (take_ _ _)|destruct (checked_sub _ _)]; cbn [mbind option_bind]; [|done]); intros E; apply IH in E as [E1 E2]; try done.
  split; [done|]. right. cbn in E2. rewrite take_all_twice in E2. by destruct E2.
Qed.
Lemma take_screen s b r s' b' : take s b = Some (r, s', b') → closed (queue s') = closed (queue s) ∧
  (screen (queue s') = screen (queue s) ∨ r = Some true ∧ screen (queue s') = take_all (screen (queue s))).
Proof.
  unfold take. destruct (order (queue s)) as [|x l]; [intros [= _ <- _]; by split; [|left]|]. unfold fill.
  destruct (fill_loop _ _ _) as [[q c]|] eqn:E; [|done]. cbn [mbind option_bind]. intros [= <- <- _]. cbn. apply fill_screen in E as [E1 E2]. split; [done|]. naive_solver.
Qed.

(** While every screen comes to [B] bytes at most, as many wait and as many are with the writer. *)
Record screens_fit (B : Z) (s : Sink) : Prop := {
  sf_queued : 0 ≤ queued (screen (queue (shared s))) ≤ B;
  sf_charged : charged (screen (queue (shared s))) ≤ 2 * B;
  sf_open : closed (queue (shared s)) = false → taken (screen (queue (shared s))) ≤ B;
  sf_taking : doing (writer s) = Taking → taken (screen (queue (shared s))) = 0
}.

Lemma fits_same B s x w a b g : screens_fit B s → screen (queue x) = screen (queue (shared s)) →
  (closed (queue x) = false → closed (queue (shared s)) = false) → (doing w = Taking → doing (writer s) = Taking) → screens_fit B (mkSink x w a b g).
Proof. intros [J1 J2 J3 J4] E Hc Hd. split; cbn; rewrite E; auto. Qed.

Lemma push_screen s slot limit p : screen (queue (push s slot limit p).2) = screen (queue s) ∧ closed (queue (push s slot limit p).2) = closed (queue s).
Proof. unfold push, admit_. destruct (closed (queue s)) eqn:E; [done|]. destruct (_ <? _); [done|]. cbn. by destruct slot. Qed.
Lemma send_screen_same s v m grown : screen (queue (send s v m grown).2) = screen (queue s) ∧ closed (queue (send s v m grown).2) = closed (queue s).
Proof.
  unfold send, admit_. destruct (closed (queue s)) eqn:E; [done|]. destruct (ServerMessage.encode m v); [|done]. cbn [bytes]. destruct (_ <? _); done.
Qed.
Lemma discard_screen s : screen (queue (discard_stream s)) = screen (queue s) ∧ closed (queue (discard_stream s)) = closed (queue s).
Proof. unfold discard_stream. by destruct (discard_loop _ _ _ _ _) as [[[? ?] ?] ?]. Qed.
Lemma recycle_screen q : screen (recycle_pieces q) = screen q ∧ closed (recycle_pieces q) = closed q.
Proof. unfold recycle_pieces. by destruct (keep_all _ _ _). Qed.

Lemma screen_fits B s cut : screens_fit B s → sum_by size (cut_pieces cut) ≤ B → screens_fit B (with_shared s (send_screen (shared s) cut).2).
Proof.
  intros J Hb. unfold with_shared, send_screen. destruct (closed (queue (shared s))) eqn:Ec; [by eapply fits_same|]. case_bool_decide; [by eapply fits_same|]. cbn [snd].
  set (q1 := if bool_decide _ then _ else _). assert (screen q1 = screen (queue (shared s)) ∧ closed q1 = closed (queue (shared s))) as [E1 E2] by (unfold q1; by case_bool_decide).
  clearbody q1. destruct (recycle_screen q1) as [R1 R2]. destruct J as [J1 J2 J3 J4]. specialize (J3 Ec). pose proof (sum_size_nonneg (cut_pieces cut)).
  split; unfold charged; cbn [shared writer queue publish screen]; cbn; rewrite ?R1, ?E1; try lia; auto.
Qed.

Lemma work_fits B s a x w out t : sink_ok s → screens_fit B s → work (shared s) (writer s) a = Some (x, w, out) → screens_fit B (mkSink x w (s_wrote s ++ out) t (s_given s)).
Proof.
  intros Hs J. pose proof J as [J1 J2 J3 J4]. pose proof (qo_taken _ (so_queue s Hs)) as (_ & _ & Ht). pose proof (so_doing s Hs) as Hd. unfold work.
  assert (∀ r x b d, take (shared s) (batch (writer s)) = Some (r, x, b) → (r = Some true → closed (queue (shared s)) = false → taken (screen (queue (shared s))) = 0) →
    (d = Taking → r ≠ Some true ∧ doing (writer s) = Taking) → screens_fit B (mkSink x (mkWriter b d) (s_wrote s ++ []) t (s_given s))) as Htake.
  { intros r y b d E H0 Hdo. apply take_screen in E as [E1 [E2|[-> E2]]].
    - eapply fits_same; [done|done|by rewrite E1|]. cbn. intros ->. by apply Hdo.
    - split; unfold charged in *; cbn; rewrite ?E1, E2; cbn; try lia.
      + intros Hc. rewrite H0 by done. lia.
      + intros ->. by destruct (Hdo eq_refl). }
  assert (∀ b d, d ≠ Taking → screens_fit B (mkSink (shared s) (mkWriter b d) (s_wrote s ++ out) t (s_given s))) as Hkeep by (intros b d ?; by eapply fits_same).
  assert (screens_fit B (mkSink (shared s) (writer s) (s_wrote s ++ out) t (s_given s))) as Hidle by (by eapply fits_same).
  destruct (doing (writer s)) as [| | |failed| | | |] eqn:E; destruct a as [r|r|passed|]; cbn [mbind option_bind doing_ok] in *; try (intros [= <- <- _]; exact Hidle).
  - destruct (is_spent (batch (writer s))); [|intros [= <- <- _]; by apply Hkeep]. unfold retire. destruct (keep_all _ _ _). intros [= <- <- _].
    split; unfold charged in *; cbn; try lia.
  - destruct (take _ _) as [[[y z] b]|] eqn:Et; [|done]. cbn [mbind option_bind]. intros [= <- <- <-]. eapply Htake; [done|intros _ _; by apply J4|]. by destruct y as [[]|].
  - destruct (is_spent _); [intros [= <- <- _]; exact Hidle|]. destruct (remainder _) as [[sl pk]|]; [|done]. cbn [mbind option_bind]. destruct (pump_turn _ _) as [b [p|]]; intros [= <- <- _]; apply Hkeep; by try destruct p.
  - destruct (is_spent _); intros [= <- <- _]; [|exact Hidle]. apply Hkeep. by destruct (pump_flush r).
  - intros [= <- <- _]. eapply fits_same; [done|done| |by destruct failed]. cbn. by destruct (closed (queue (shared s))).
  - destruct (closed _); [intros [= <- <- _]; by apply Hkeep|]. destruct passed; intros [= <- <- _]; [by apply Hkeep|exact Hidle].
  - destruct (take _ _) as [[[y z] b]|] eqn:Et; [|done]. cbn [mbind option_bind]. intros [= <- <- <-]. eapply Htake; [done|destruct Hd; congruence|]. by destruct y as [[]|].
  - destruct (is_spent _); [intros [= <- <- _]; exact Hidle|]. destruct (remainder _) as [[sl pk]|]; [|done]. cbn [mbind option_bind]. destruct (pump_turn _ _) as [b p]. intros [= <- <- _]. apply Hkeep. clear. by destruct p.
  - destruct (is_spent _); intros [= <- <- _]; [by apply Hkeep|exact Hidle].
Qed.

Lemma reaches_fit B v es s : 0 ≤ B → reaches v es s → (∀ cut, EScreened cut ∈ es → sum_by size (cut_pieces cut) ≤ B) → screens_fit B s.
Proof.
  intros H0. induction 1 as [|es e s s' Hr IH Hh Hst]; intros He; [split; unfold charged; cbn; lia|].
  assert (screens_fit B s) as J by (apply IH; intros cut Hc; apply He, elem_of_app; by left).
  assert (∀ cut, e = EScreened cut → sum_by size (cut_pieces cut) ≤ B) as Hcut by (intros cut ->; apply He, elem_of_app; right; by apply list_elem_of_singleton).
  apply reaches_ok in Hr as [Hs _]. destruct e as [m grown|f|f|cut| | | | |a]; cbn [step] in Hst; try injection Hst as <-.
  - destruct (send_screen_same (shared s) v m grown) as [E1 E2]. eapply fits_same; [done|done|by rewrite E2|done].
  - destruct (push_screen (shared s) (Stream f) STREAM_LIMIT Back) as [E1 E2]. eapply fits_same; [done|done|unfold send_output; by rewrite E2|done].
  - destruct (push_screen (shared s) (Forward f) FORWARD_LANE Back) as [E1 E2]. eapply fits_same; [done|done|unfold send_forward; by rewrite E2|done].
  - by apply screen_fits, Hcut.
  - destruct (discard_screen (shared s)) as [E1 E2]. eapply fits_same; [done|done|by rewrite E2|done].
  - by eapply fits_same.
  - by eapply fits_same.
  - by eapply fits_same.
  - destruct (work _ _ _) as [[[x w] out]|] eqn:Ew; [|done]. cbn [mbind option_bind] in Hst. injection Hst as <-. by eapply work_fits.
Qed.

(** C37: what one client makes the daemon hold is bounded.  Output and control messages, waiting or
    with the writer, stay within their room and forwarded frames within theirs, and a frame of any
    of the three is refused exactly when its lane has no room for it.  A screen is never refused,
    only reported as pressure, but it replaces the one that waits: so the sink never holds more
    than two screens, and all that is queued and all the writer holds come to no more than the
    lanes' rooms and twice the largest screen that was sent; and to no more than [CEILING] when a
    screen is sent and no pressure reported.  The buffers kept for reuse stay within their pools. *)
Theorem held_bytes_are_bounded v es s : reaches v es s →
  let q := queue (shared s) in
  let held q := sum_by bytes (order q) + sum_by size (pieces q) + owed (batch (writer s)) in
  charged (stream q) ≤ STREAM_LIMIT + CONTROL_SLACK ∧ charged (forward q) ≤ FORWARD_LANE ∧
  (∀ B, 0 ≤ B → (∀ cut, EScreened cut ∈ es → sum_by size (cut_pieces cut) ≤ B) →
     charged (screen q) ≤ 2 * B ∧ held q ≤ STREAM_LIMIT + CONTROL_SLACK + FORWARD_LANE + 2 * B) ∧
  (∀ cut x, send_screen (shared s) cut = (Ok Clear, x) → cut_pieces cut ≠ [] → held (queue x) ≤ CEILING) ∧
  pools_ok (spare q, screens q) ∧
  (∀ f, closed q = false → (send_output (shared s) f).1 = Err Full ↔ STREAM_LIMIT < charged (stream q) + size f) ∧
  (∀ m grown d, closed q = false → ServerMessage.encode m v = Ok d →
     (send (shared s) v m grown).1 = Err Full ↔ STREAM_LIMIT + CONTROL_SLACK < charged (stream q) + len d) ∧
  (∀ f, closed q = false → (send_forward (shared s) f).1 = Err Full ↔ FORWARD_LANE < charged (forward q) + size f).
Proof.
  intros Hr q held. pose proof (λ B H0, reaches_fit B v es s H0 Hr) as Hfit. apply reaches_ok in Hr as [[Q M B L _ _] _]. fold q in Q, L. pose proof (qo_taken q Q). pose proof Q as [Q1 Q2 _ Q4 _ _ Q7 Q8 _ _].
  assert (∀ q' b, queue_ok q' → b ≤ lent q' → sum_by bytes (order q') + sum_by size (pieces q') + b ≤ CEILING - SCREEN_LIMIT + charged (screen q')) as Hsum.
  { intros q' b [P1 P2 _ P4 _ _ P7 P8 _ _] Hb. rewrite bytes_lanes. unfold lent, charged, CEILING, SCREEN_LIMIT in *. lia. }
  split_and!; try done; [| |by apply queue_pools|..].
  - intros N H0 Hn. pose proof (sf_charged _ _ (Hfit N H0 Hn)) as Hc. fold q in Hc. split; [done|]. pose proof (Hsum q _ Q L) as Hx. unfold held. unfold CEILING, SCREEN_LIMIT in Hx. lia.
  - intros cut x E Hne. pose proof (send_screen_spec (shared s) cut Q M) as Hs. cbn zeta in Hs. rewrite E in Hs. cbn [fst snd] in Hs.
    destruct Hs as (_ & [[? _]|(_ & Hs & Hp)]); [done|]. assert (charged (screen (queue x)) ≤ SCREEN_LIMIT) by (by apply Hp).
    pose proof (Hsum (queue x) (owed (batch (writer s))) (sv_queue _ _ _ _ Hs)) as Hx. rewrite (sv_lent _ _ _ _ Hs) in Hx. specialize (Hx L). unfold held. lia.
  - intros f Hc. unfold send_output, push. fold q. rewrite Hc. pose proof (admit_refuses q (Stream f) STREAM_LIMIT Back) as Ha. cbn [lane_of bytes] in Ha. rewrite <- Ha by done.
    destruct (admit_ _ _ _ _) as [|sl]; cbn; split; [done|by intros [? ?]|eauto|done].
  - intros m grown d Hc Hd. unfold send. fold q. rewrite Hc, Hd. set (q1 := q <| spare := _ |>). set (slot := Control _).
    pose proof (admit_refuses q1 slot (STREAM_LIMIT + CONTROL_SLACK) (if is_terminal m then Front else Back)) as Ha. change (charged (lane_of q1 slot) + bytes slot) with (charged (stream q) + len d) in Ha. rewrite <- Ha by done.
    destruct (admit_ _ _ _ _) as [|sl]; cbn; split; [done|by intros [? ?]|eauto|done].
  - intros f Hc. unfold send_forward, push. fold q. rewrite Hc. pose proof (admit_refuses q (Forward f) FORWARD_LANE Back) as Ha. cbn [lane_of bytes] in Ha. rewrite <- Ha by done.
    destruct (admit_ _ _ _ _) as [|sl]; cbn; split; [done|by intros [? ?]|eauto|done].
Qed.

Lemma forwards_count l : sum_by forward_count l ≤ len l.
Proof. induction l as [|y l IH]; [done|]. rewrite sum_by_cons. destruct y; cbn [forward_count length]; lia. Qed.

Lemma no_more_forwards l : sum_by forward_count l = len l → Forall (λ s, ∃ f, s = Forward f) l.
Proof.
  induction l as [|x l IH]; [constructor|]. rewrite sum_by_cons. cbn [length]. intros H. pose proof (forwards_count l).
  destruct x; cbn [forward_count] in H; try lia. constructor; [eauto|]. apply IH. lia.
Qed.

(** A sink that says it is drained has written everything it ever took, and nothing waits but
    segments of forwarded connections, which the connection still owes; a closed one never says so. *)
Theorem drained_means_written v es s : reaches v es s → is_drained (shared s) = true →
  closed (queue (shared s)) = false ∧ s_wrote s = bytes_of (s_took s) ∧ Forall (λ e, ∃ d, e = EForward d) (entries (queue (shared s))).
Proof.
  intros H Hd. apply reaches_ok in H as [[Q M B L D F] H]. apply spec_reaches_ok in H as [_ _ Hb]. cbn [abs shut took wrote pending] in Hb.
  unfold is_drained in Hd. rewrite M in Hd. cbn [publish m_closed m_outstanding] in Hd. apply andb_prop in Hd as [Hc Ho]. apply negb_true_iff in Hc. apply Z.eqb_eq in Ho.
  split; [done|]. unfold outstanding, sat_sub in Ho. destruct (in_flight (queue (shared s))) eqn:Ef; [lia|]. split.
  - rewrite Hb by done. specialize (F eq_refl Hc). apply is_spent_unsent in F as ->; [|done]. by rewrite app_nil_r.
  - rewrite (qo_entries _ Q) in Ho. pose proof (forwards_count (order (queue (shared s)))).
    apply Forall_fmap. eapply Forall_impl; [apply no_more_forwards; lia|]. cbn. intros x [f ->]. by exists (data f).
Qed.

(** ** At a concrete sink *)

(** The sink after a list of events, if every transport answer in it is one. *)
Definition run (version : Z) (es : list Event) : option Sink :=
  foldl (λ o e, s ← o; if honest s e then step version s e else None) (Some sink_new) es.

Lemma run_reaches v es s : run v es = Some s → reaches v es s.
Proof.
  unfold run. revert s. induction es as [|e es IH] using rev_ind; intros s; [intros [= <-]; constructor|].
  rewrite foldl_app. cbn. destruct (foldl _ _ es) as [s0|]; [|done]. cbn. destruct (honest s0 e) eqn:Eh; [|done]. intros E. eapply reach_next; [by apply IH|done|done].
Qed.

(** Output, a segment and two screens are queued; the first batch is cut short, the rest of it and
    then an ending message are written. *)
Definition demo : list Event :=
  [EOutput (mkFrame [1; 2; 3] 8); EForwarded (mkFrame [4; 5] 8); EScreened (mkCut [mkFrame [6] 8; mkFrame [7] 8] Packed);
   EOutput (mkFrame [8] 8); EScreened (mkCut [mkFrame [9; 9] 8] Raw); EWork On; EWork On; EWork (Wrote (Ok 4)); EWork (Wrote (Err WouldBlock));
   EWork (Woken true); ESend (ServerMessage.Exit 0) (λ _, 64); EWork On; EWork (Wrote (Ok 4)); EWork (Flushed (Ok ())); EWork On; EWork On; EWork On;
   EWork (Wrote (Ok 9)); EWork (Flushed (Ok ())); EWork On].
Definition demo_end : Sink := default sink_new (run 1 demo).

Lemma demo_runs : run 1 demo = Some demo_end.
Proof. vm_compute. reflexivity. Qed.

Lemma sink_refines_spec_witness : spec_reaches 1 demo (abs demo_end) ∧ s_wrote demo_end = [1; 2; 3; 4; 5; 9; 9; 8] ++ skipn 8 (s_wrote demo_end).
Proof. split; [apply (sink_refines_spec 1 demo demo_end), run_reaches, demo_runs|vm_compute; reflexivity]. Defined.

Lemma nothing_accepted_is_lost_witness : omap forward_of (s_given demo_end) = omap forward_of (s_took demo_end ++ entries (queue (shared demo_end))).
Proof. apply (nothing_accepted_is_lost 1 demo demo_end), run_reaches, demo_runs. Defined.

Lemma held_bytes_are_bounded_witness : charged (stream (queue (shared demo_end))) ≤ STREAM_LIMIT + CONTROL_SLACK ∧ charged (screen (queue (shared demo_end))) ≤ 4.
Proof.
  destruct (held_bytes_are_bounded 1 demo demo_end) as (H1 & _ & H2 & _); [apply run_reaches, demo_runs|]. split; [exact H1|]. apply (H2 2); [done|].
  assert (Forall (λ e, match e with EScreened cut => sum_by size (cut_pieces cut) ≤ 2 | _ => True end) demo) as Hd by (repeat constructor; by vm_compute).
  intros cut Hc. rewrite Forall_forall in Hd. exact (Hd _ Hc).
Defined.

Lemma drained_means_written_witness : is_drained (shared demo_end) = true ∧ s_wrote demo_end = bytes_of (s_took demo_end).
Proof.
  split; [vm_compute; reflexivity|]. apply (drained_means_written 1 demo demo_end); [apply run_reaches, demo_runs|vm_compute; reflexivity].
Defined.

End Sink.
