(* ===== verification/Attachment.v ===== *)
(** * One attached client ([crates/server/src/attachment.rs], and the pass of [Actor::repaint] over one)

    What a session keeps per client: the order of its commands ([CommandGate], [EchoAck]), whether
    it is sent the byte stream or screens, the numbering of those screens, and how one is cut.

    What the sink ([Sink]) answers ([drained], the result of a send) is an argument, and so is the
    clock.  Buffer pools are not state, and writing the log is left out.  A path's
    [PayloadLimit] is the number it holds when it is read. *)

From S2P Require Import Prelude Codec Fields Message Text Screen Modes Rows Pieces ServerMessage Mask Splice Ledger Wire Defer Link.

Module Attachment.
Import Codec Text Screen Rows Pieces Splice.

Definition ECHO_TIMEOUT : Duration := from_millis 50.
Definition ECHO_HISTORY : nat := 64.
Definition HEADER_SLOP : Z := 128.
Definition OUTPUT_MESSAGE : Z := 24.
Definition OUTPUT_OVERHEAD : Z := Message.LENGTH_PREFIX + OUTPUT_MESSAGE.

(** ** Commands *)

Inductive Admission := Fresh | Duplicate | Gap.
#[export] Instance Admission_eq_dec : EqDecision Admission.
Proof. solve_decision. Defined.

(** [CommandGate] is the number it expects. *)
Definition gate_new : Z := 1.
Definition gate_check (next seq : Z) : Admission := if seq =? next then Fresh else if seq <? next then Duplicate else Gap.
Definition gate_commit (next : Z) : Z := Fields.seq_next U64_MAX next.
Definition gate_admit (next seq : Z) : Admission * Z :=
  let admission := gate_check next seq in
  (admission, if bool_decide (admission = Fresh) then gate_commit next else next).

Record EchoAck := mkEcho { e_pending : list (Z * Instant); e_published : option Z }.
#[export] Instance EchoAck_settable : Settable EchoAck := λ e, mkEcho (e_pending e) (e_published e).
Definition echo_new : EchoAck := {| e_pending := []; e_published := None |}.
Definition recorded (e : EchoAck) (seq : Z) (at_ : Instant) : EchoAck :=
  let kept := if (length (e_pending e) =? ECHO_HISTORY)%nat then drop 1 (e_pending e) else e_pending e in
  e <| e_pending := kept ++ [(seq, at_)] |>.
Fixpoint publish (l : list (Z * Instant)) (last : option Z) (now : Instant) : list (Z * Instant) * option Z :=
  match l with
  | [] => ([], last)
  | (seq, at_) :: l' => if since now at_ <? ECHO_TIMEOUT then (l, last) else publish l' (Some seq) now
  end.
Definition published (e : EchoAck) (now : Instant) : option Z * EchoAck :=
  let '(l, last) := publish (e_pending e) (e_published e) now in (last, {| e_pending := l; e_published := last |}).

Record ClientStream := mkStream { gate : Z; highest_command : option Z; echo : EchoAck }.
#[export] Instance ClientStream_settable : Settable ClientStream := λ s, mkStream (gate s) (highest_command s) (echo s).
Definition stream_new : ClientStream := {| gate := gate_new; highest_command := None; echo := echo_new |}.
Definition check (s : ClientStream) (seq : Z) : Admission := gate_check (gate s) seq.
Definition admit_ (s : ClientStream) (seq : Z) : Admission * ClientStream :=
  let '(admission, next) := gate_admit (gate s) seq in (admission, s <| gate := next |>).
Definition applied (s : ClientStream) (seq : Z) (at_ : Instant) : ClientStream :=
  s <| gate := gate_commit (gate s) |> <| echo := recorded (echo s) seq at_ |>.
Definition echo_ack (s : ClientStream) (now : Instant) : option Z * ClientStream :=
  let '(last, e) := published (echo s) now in (last, s <| echo := e |>).
Definition acknowledged (s : ClientStream) (seq : Z) : option Z * ClientStream :=
  let newer := match highest_command s with None => true | Some highest => highest <? seq end in
  let s := if newer then s <| highest_command := Some seq |> else s in (highest_command s, s).

(** ** Cutting a screen *)

Inductive Framing := Stream | Datagram (budget : Z).
Definition frame_budget (f : Framing) : Z := match f with Stream => Fields.MAX_OUTPUT_CHUNK | Datagram budget => budget end.
Definition output_chunk (f : Framing) : Z := frame_budget f - OUTPUT_OVERHEAD.
Definition screen_budget (f : Framing) : Z := match f with Stream => Fields.MAX_FRAME | Datagram budget => budget end.
Definition deferred_budget (f : Framing) : Z := sat_sub (screen_budget f) (MAX_TITLE + HEADER_SLOP).

Definition RATIO_ONE : Z := 256.
Definition RATIO_START : Z := 2 * RATIO_ONE.
Definition RATIO_CEILING : Z := 6 * RATIO_ONE.
Inductive Packing := Exact | Packed (ratio : Z).
Definition packing_of (f : Framing) : Packing := match f with Stream => Exact | Datagram _ => Packed RATIO_START end.

Inductive Fidelity := FExact | FLossy.

(** The first run too wide for a piece. *)
Fixpoint first_wide (l : list StyleRun) (budget : Z) : option nat :=
  match l with [] => None | run :: l => if budget <? r_bytes run then Some O else S <$> first_wide l budget end.
Definition shortened (u : RowUpdate) (budget : Z) : RowUpdate :=
  let '(start, end_) := u_runs u in
  let kept := match first_wide (slice (start `min` end_) end_ (runs (u_frame u))) budget with
              | Some offset => (start + offset)%nat | None => end_ end in
  let kept :=
    if (kept =? end_)%nat && (end_ =? length (runs (u_frame u)))%nat &&
       (budget <? len (text (u_frame u)) - styled_bytes (u_frame u))
    then (end_ - 1)%nat else kept in
  if (kept =? end_)%nat then u
  else {| u_row := u_row u; u_frame := u_frame u; u_runs := (start, kept); u_clear := true |}.
Definition degraded (u : RowUpdate) (fidelity : Fidelity) (budget : Z) : RowUpdate :=
  match fidelity with FExact => u | FLossy => shortened u budget end.

Definition cut_whole (h : ScreenHeader) (rows : list RowFrame) (budget : Z) (fidelity : Fidelity) : result (list (list Z)) EncodeError :=
  let? count := try_from U16_MAX (len rows) EOversize in
  encode_screen_parts h None None
    ((λ row, degraded (update_whole row (rows !!! Z.to_nat row)) fidelity budget) <$> seqZ 0 count) budget.
Definition cut (h : ScreenHeader) (plan : Ledger.Plan) (rows : list RowFrame) (whole_ : bool) (budget : Z) (fidelity : Fidelity) :
    result (list (list Z)) EncodeError :=
  if whole_ then cut_whole h rows budget fidelity
  else
    match encode_screen_parts h (Some (Ledger.base plan)) (Ledger.scroll plan)
            ((λ named, degraded (Ledger.planned_update named (rows !!! Z.to_nat (Ledger.p_row named))) fidelity budget) <$> Ledger.plan_rows plan) budget with
    | Err EOversize => match Ledger.scroll plan with Some _ => cut_whole h rows budget fidelity | None => Err EOversize end
    | r => r
    end.
Definition attempt (h : ScreenHeader) (plan : Ledger.Plan) (rows : list RowFrame) (whole_ : bool) (budget : Z) : result (list (list Z)) EncodeError :=
  match cut h plan rows whole_ budget FExact with
  | Err EOversize => cut h plan rows whole_ budget FLossy
  | r => r
  end.

(** [payload_limit] of [dgram.rs]. *)
Definition payload_limit (budget : Z) : Z := sat_sub (budget + Wire.PACK_TAG) Message.LENGTH_PREFIX.

Definition observed (ratio measured : Z) : Z := if measured <? ratio then measured else ratio + (measured - ratio) / 4.

(** What a cut is sent as.  [Unsealed] is a cut whose packing a frame would not hold, of which some
    buffers keep what they held before; it takes a payload of [MAX_FRAME] bytes. *)
Inductive Cut := Raw (pieces : list (list Z)) | Carried (pieces : list (list Z)) | Unsealed.

(** ** The attachment *)

Inductive OutputMode := Passthrough | AwaitingScreen | ScreenSent.
#[export] Instance OutputMode_dec : EqDecision OutputMode.
Proof. solve_decision. Defined.
Inductive ScreenPressure := Clear | Over.
#[export] Instance ScreenPressure_dec : EqDecision ScreenPressure.
Proof. solve_decision. Defined.
Inductive SinkError := Full | Unusable | Closed.

Record Attachment := mkAttachment {
  stream : ClientStream; framing : Framing; ledger : Ledger.ScreenLedger; link : Link.LinkTiming; size : Fields.GridSize; mode : OutputMode;
  generation : Z; version : Z; screen_sent_at : Instant; last_repaint : Instant; repaint_pending : bool; consumed : Z;
  deferred_from : Z; deferred_sent : Z; encode_failures : Z; pressure : ScreenPressure; packing : Packing
}.
#[export] Instance Attachment_set : Settable Attachment := λ a,
  mkAttachment (stream a) (framing a) (ledger a) (link a) (size a) (mode a) (generation a) (version a) (screen_sent_at a) (last_repaint a)
    (repaint_pending a) (consumed a) (deferred_from a) (deferred_sent a) (encode_failures a) (pressure a) (packing a).

Definition attachment_new (stream : ClientStream) (framing : Framing) (size : Fields.GridSize) (generation : Z) (now : Instant) : Attachment :=
  {| stream := stream; framing := framing; ledger := Ledger.new; link := Link.new now; size := size; mode := Passthrough;
     generation := generation; version := Ledger.INITIAL; screen_sent_at := now; last_repaint := now; repaint_pending := false; consumed := 0;
     deferred_from := 0; deferred_sent := 0; encode_failures := 0; pressure := Clear; packing := packing_of framing |}.

Definition fits (a : Attachment) (grid : Fields.GridSize) : bool :=
  (Fields.cols (size a) =? Fields.cols grid) && (Fields.rows (size a) =? Fields.rows grid).
Definition consume (a : Attachment) (off : Z) : Attachment := if consumed a <? off then a <| consumed := off |> else a.

Definition regrid (a : Attachment) (generation_ rows : Z) : Attachment :=
  let a := a <| generation := generation_ |> <| ledger := Ledger.release_in_flight (Ledger.invalidate (ledger a) rows) |> in
  if bool_decide (mode a = ScreenSent) then a <| mode := AwaitingScreen |> else a.
Definition restart (a : Attachment) (generation_ rows : Z) : Attachment := (regrid a generation_ rows) <| version := Ledger.INITIAL |>.
Definition is_syncing (a : Attachment) : bool := bool_decide (mode a ≠ Passthrough).
Definition resumed (a : Attachment) : Attachment := a <| mode := Passthrough |>.

(** Which pass: the paced one numbers a new screen, the one after [restart] does not. *)
Inductive Painted := Due | One.
Definition painting (a : Attachment) (painted : Painted) (now : Instant) : (Z * Z) * Attachment :=
  let a := match painted with Due => a <| version := Fields.seq_next U64_MAX (version a) |> | One => a end in
  let a := a <| repaint_pending := false |> <| last_repaint := now |> in
  ((generation a, version a), a).
Definition owed_deferred (a : Attachment) (log : Defer.DeferredOsc) : list (list Z) := Defer.carry log (deferred_from a) (deferred_budget (framing a)).
Definition sent_ (a : Attachment) (mark : Z) (now : Instant) : Attachment :=
  let a := a <| deferred_sent := mark |> <| screen_sent_at := now |> in
  if bool_decide (mode a ≠ Passthrough) then a <| mode := ScreenSent |> else a.
Definition confirm (a : Attachment) (generation_ version_ : Z) : Attachment :=
  let '(taken, l) := Ledger.confirm (ledger a) generation_ version_ in
  let a := a <| ledger := l |> in
  if taken then a <| deferred_from := deferred_sent a |> else a.
Definition catch_up (a : Attachment) (offset : Z) (drained : bool) : Link.CatchUp :=
  match framing a with
  | Stream => Link.CStream drained
  | Datagram _ => Link.CDatagram drained (sat_sub offset (consumed a))
  end.
Definition settle (a : Attachment) (caught_up : bool) (grid : Fields.GridSize) : Attachment :=
  if caught_up then a <| mode := if fits a grid then Passthrough else ScreenSent |> else a <| repaint_pending := true |>.
Definition settle_before_output (a : Attachment) (offset : Z) (now : Instant) (last_output : option Instant) (grid : Fields.GridSize) (drained : bool) : Attachment :=
  if negb (bool_decide (mode a = ScreenSent)) then a
  else settle a (Link.may_return_to_passthrough (catch_up a offset drained) now last_output (Link.repaint_interval (link a))) grid.

Definition ack_hold (a : Attachment) (now : Instant) : Duration :=
  if Ledger.in_flight (ledger a) then sat_sub (Link.ack_timeout (link a)) (since now (screen_sent_at a)) else 0.
Definition screen_hold (a : Attachment) (drained : bool) : Duration :=
  if bool_decide (pressure a = Over) && negb drained then Link.repaint_interval (link a) else 0.
Definition repaint_hold (a : Attachment) (now : Instant) (drained : bool) : Duration :=
  Z.max (Z.max (sat_sub (Link.repaint_interval (link a)) (since now (last_repaint a))) (ack_hold a now)) (screen_hold a drained).
Definition repaint_due (a : Attachment) (now : Instant) (drained : bool) : bool := repaint_pending a && (repaint_hold a now drained =? 0).
Definition wants (painted : Painted) (a : Attachment) (now : Instant) (drained : bool) : bool :=
  match painted with Due => repaint_due a now drained | One => repaint_pending a && (ack_hold a now =? 0) end.
Definition begin_sync (a : Attachment) (mark : Z) : Attachment :=
  let a :=
    if bool_decide (mode a = Passthrough)
    then (if negb (Ledger.in_flight (ledger a)) then a <| deferred_from := mark |> else a) <| mode := AwaitingScreen |>
    else a in
  a <| repaint_pending := true |>.
Definition next_deadline (ping : Duration) (hold : option Duration) : Duration := match hold with Some hold => Z.min ping hold | None => ping end.
Definition deadline (a : Attachment) (now : Instant) (drained : bool) : Duration :=
  next_deadline (sat_sub (Link.ping_interval (link a)) (since now (Link.last_probe (link a))))
    (if repaint_pending a then Some (repaint_hold a now drained) else None).

(** *** Output *)

(** What the sink answers each frame, in order; [None] is [Ok]. *)
Fixpoint output_loop (fuel : nat) (a : Attachment) (chunk_budget offset : Z) (bytes : list Z) (cue : Fields.InputCue) (ack : option Z) (mark : Z)
    (answers : list (option SinkError)) (out : list (list Z)) : result () SinkError * Attachment * list (list Z) :=
  match bytes with
  | [] => (Ok (), a, out)
  | _ =>
      match fuel with
      | O => (Ok (), a, out)
      | S fuel =>
          let now_ := take (Z.to_nat chunk_budget) bytes in
          let rest_ := drop (Z.to_nat chunk_budget) bytes in
          let chunk := match rest_ with [] => cue | _ => Fields.Opaque_ end in
          match ServerMessage.encode_output_into offset chunk ack now_ with
          | Err _ => (Err Unusable, a, out)
          | Ok frame =>
              match default None (head answers) with
              | Some Full => (Ok (), begin_sync a mark, out)
              | Some error => (Err error, a, out)
              | None =>
                  match checked_add U64_MAX offset (len now_) with
                  | None => (Err Unusable, a, out ++ [frame])
                  | Some offset => output_loop fuel a chunk_budget offset rest_ cue ack mark (tail answers) (out ++ [frame])
                  end
              end
          end
      end
  end.
Definition push_output (a : Attachment) (offset : Z) (bytes : list Z) (cue : Fields.InputCue) (now : Instant) (mark : Z) (answers : list (option SinkError)) :
    result () SinkError * Attachment * list (list Z) :=
  let a := match bytes with [] => a | _ => a <| link := Link.stirred (link a) |> end in
  if match framing a with Datagram _ => Link.STREAM_LIMIT <? sat_sub offset (consumed a) | Stream => false end
  then (Ok (), begin_sync a mark, [])
  else
    let '(ack, s) := echo_ack (stream a) now in
    let a := a <| stream := s |> in
    output_loop (length bytes) a (output_chunk (framing a)) offset bytes cue ack mark answers [].

(** ** Packing *)

Section packing.
Context `{Wire.Deflate}.

(** A piece as the datagram carries it: the length prefix, then the packed payload. *)
Definition carried_of (piece : list Z) : result (list Z) EncodeError :=
  Message.seal_frame (Wire.pack_from (drop (Z.to_nat Message.LENGTH_PREFIX) piece) (replicate (Z.to_nat Message.LENGTH_PREFIX) 0) Message.LENGTH_PREFIX).

Fixpoint measure_loop (pieces : list (list Z)) (limit worst : Z) (fits : bool) (done_ : list (list Z)) : Z * bool * option (list (list Z)) :=
  match pieces with
  | [] => (clamp worst RATIO_ONE RATIO_CEILING, fits, Some (reverse done_))
  | piece :: pieces =>
      match carried_of piece with
      | Err _ => (RATIO_ONE, false, None)
      | Ok carried =>
          let payload := drop (Z.to_nat Message.LENGTH_PREFIX) piece in
          let packed := len carried - Message.LENGTH_PREFIX in
          measure_loop pieces limit (Z.min worst (sat_mul USIZE_MAX (len payload) RATIO_ONE / Z.max packed 1)) (fits && (packed <=? limit)) (carried :: done_)
      end
  end.
Definition measure (pieces : list (list Z)) (limit : Z) : Z * bool * option (list (list Z)) := measure_loop pieces limit RATIO_CEILING true [].

(** One turn a halving of the budget planned for; [None] when out of fuel. *)
Fixpoint pieces_loop (fuel : nat) (h : ScreenHeader) (plan : Ledger.Plan) (rows : list RowFrame) (whole_ : bool) (budget limit planned ratio : Z) :
    option (result Cut EncodeError * Z) :=
  match fuel with
  | O => None
  | S fuel =>
      let planned := Z.max planned budget in
      match attempt h plan rows whole_ planned with
      | Err e => Some (Err e, ratio)
      | Ok [] => Some (Ok (Raw []), ratio)
      | Ok parts =>
          let '(measured, fits, carried) := measure parts limit in
          let ratio := observed ratio measured in
          if fits || (planned <=? budget)
          then Some (Ok (match carried with Some pieces => Carried pieces | None => Unsealed end), ratio)
          else pieces_loop fuel h plan rows whole_ budget limit (planned / 2) ratio
      end
  end.
Definition pieces_fuel (planned : Z) : nat := S (S (Z.to_nat (Z.log2 planned))).

Definition screen_pieces (budget : Z) (packing : Packing) (h : ScreenHeader) (plan : Ledger.Plan) (rows : list RowFrame) (fits : bool) :
    option (result Cut EncodeError * Packing) :=
  let whole_ := Ledger.full plan || (bool_decide (is_Some (Ledger.scroll plan)) && negb fits) in
  match packing with
  | Exact => Some (let? pieces := attempt h plan rows whole_ budget in Ok (Raw pieces), Exact)
  | Packed ratio =>
      let limit := payload_limit budget in
      let planned := sat_mul USIZE_MAX limit ratio / RATIO_ONE in
      '(r, ratio) ← pieces_loop (pieces_fuel (Z.max planned budget)) h plan rows whole_ budget limit planned ratio;
      Some (r, Packed ratio)
  end.

(** *** A screen *)

Definition ENCODE_ATTEMPTS : Z := 2.
Inductive Painting := Sent | Withheld.

(** A frame of the emulator, as far as an attachment reads it. *)
Record RepaintFrame := mkFrame { f_size : Fields.GridSize; f_rows : list RowFrame; f_dirty : Mask.RowMask }.

(** The cut, if the loop ended, and whether the sink took it. *)
Definition push_screen (a : Attachment) (h : ScreenHeader) (frame : RepaintFrame) (answer : result ScreenPressure SinkError) :
    option (result Painting SinkError * Attachment * option Cut) :=
  let fits_ := fits a (f_size frame) in
  let budget := screen_budget (framing a) in
  let l := Ledger.plan (ledger a) (f_rows frame) h in
  '(encoded, p) ← screen_pieces budget (packing a) h (Ledger.the_plan l) (f_rows frame) fits_;
  let a := a <| ledger := l |> <| packing := p |> in
  Some
    match encoded with
    | Err _ =>
        let a := a <| ledger := Ledger.release_in_flight l |> <| encode_failures := sat_add U32_MAX (encode_failures a) 1 |> in
        (Ok Withheld, if encode_failures a <? ENCODE_ATTEMPTS then a <| repaint_pending := true |> else a, None)
    | Ok encoded =>
        let a := a <| encode_failures := 0 |> in
        match answer with
        | Ok pressure_ => (Ok Sent, a <| pressure := pressure_ |>, Some encoded)
        | Err error => (Err error, a <| ledger := Ledger.release_in_flight l |>, None)
        end
    end.

(** The header of the pass, as it is set for one attachment. *)
Definition stamped (header : ScreenHeader) (named : Z * Z) (owed : list (list Z)) : ScreenHeader :=
  let s := h_sticky header in
  {| h_generation := named.1; h_version := named.2; h_next_off := h_next_off header; h_size := h_size header; h_cursor := h_cursor header;
     h_visible := h_visible header; h_shape := h_shape header; h_blinking := h_blinking header; h_modes := h_modes header;
     h_sticky := {| title := title s; kitty_keyboard := kitty_keyboard s; bell := bell s; saved_cursor := saved_cursor s;
                    pending_wrap := pending_wrap s; deferred := owed |} |}.

(** The body of [Actor::repaint]'s loop; [header] is the one built for the pass. *)
Definition repaint_one (a : Attachment) (painted : Painted) (header : ScreenHeader) (frame : RepaintFrame) (log : Defer.DeferredOsc)
    (offset : Z) (last_output : option Instant) (grid : Fields.GridSize) (now : Instant) (drained : bool) (answer : result ScreenPressure SinkError) :
    option (result () SinkError * Attachment * option Cut) :=
  let a := a <| ledger := Ledger.note_damage (ledger a) (f_dirty frame) |> in
  if negb (wants painted a now drained) then Some (Ok (), a, None)
  else
    let '(named, a) := painting a painted now in
    let header := stamped header named (owed_deferred a log) in
    '(r, a, c) ← push_screen a header frame answer;
    Some
      match r with
      | Err error => (Err error, a, c)
      | Ok Withheld => (Ok (), a, c)
      | Ok Sent =>
          let a := sent_ a (Defer.mark log) now in
          (Ok (),
           if is_syncing a
           then settle a (Link.may_return_to_passthrough (catch_up a offset drained) now last_output (Link.repaint_interval (link a))) grid
           else a, c)
      end.

End packing.

(** ** Commands are applied once, in order *)

(** What an admission makes of each command that arrives, and those it applies. *)
Fixpoint admitted (next : Z) (seqs : list Z) : list Z * Z :=
  match seqs with
  | [] => ([], next)
  | seq :: seqs =>
      let '(admission, next') := gate_admit next seq in
      let '(l, final) := admitted next' seqs in
      (if bool_decide (admission = Fresh) then seq :: l else l, final)
  end.

Lemma gate_fresh next : gate_check next next = Fresh.
Proof. unfold gate_check. by rewrite Z.eqb_refl. Qed.

(** Commands are applied exactly once and in order: whatever arrives, in whatever order and
    however often it is replayed, the commands applied are the next numbers in sequence, so no
    number is applied twice or skipped; every command that did not show a gap has been applied by
    then; and a client that goes on replaying from the first unapplied command gets through. *)
Theorem commands_apply_once next seqs :
  0 < next ∧ next + len seqs ≤ U64_MAX →
  let '(l, final) := admitted next seqs in
  l = seqZ next (final - next) ∧ next ≤ final ≤ next + len seqs ∧
  (∀ before seq after, seqs = before ++ seq :: after → gate_check (admitted next before).2 seq ≠ Gap → seq < final) ∧
  (admitted final (seqZ final (U64_MAX - final))).1 = seqZ final (U64_MAX - final).
Proof.
  intros [Hn Hb]. assert (∀ n k, 0 < n → 0 ≤ k → n + k ≤ U64_MAX → (admitted n (seqZ n k)).1 = seqZ n k) as Hrest.
  { intros n k Hn0 Hk. revert n Hn0. pattern k. apply natlike_ind; [done| |done]. intros x Hx IH n Hn0 Hu. rewrite seqZ_cons, Z.pred_succ by lia. cbn [admitted]. unfold gate_admit. rewrite gate_fresh.
    rewrite bool_decide_true by done. unfold gate_commit, Fields.seq_next, sat_add. replace (Z.min U64_MAX (n + 1)) with (Z.succ n) by lia.
    specialize (IH (Z.succ n) ltac:(lia) ltac:(lia)). destruct (admitted (Z.succ n) _) as [l f]. cbn [fst] in *. by rewrite IH. }
  revert next Hn Hb. induction seqs as [|seq seqs IH]; intros next Hn Hb.
  { cbn [admitted]. rewrite Z.sub_diag. split; [done|]. cbn in *. split; [lia|]. split; [intros [|? ?]; done|]. apply Hrest; lia. }
  cbn [admitted]. unfold gate_admit. cbn [length] in Hb. destruct (Z.eq_dec seq next) as [->|Hne].
  - rewrite gate_fresh, !bool_decide_true by done. assert (gate_commit next = next + 1) as Ec by (unfold gate_commit, Fields.seq_next, sat_add; lia). rewrite Ec.
    specialize (IH (next + 1) ltac:(lia) ltac:(lia)). destruct (admitted (next + 1) seqs) as [l final] eqn:Ea. destruct IH as (I1 & I2 & I3 & I4).
    split; [|split; [cbn [length]; lia|split; [|done]]].
    + rewrite I1, (seqZ_cons next) by lia. f_equal. f_equal; lia.
    + intros [|b before] seq after E; cbn [app] in E; injection E as -> E; [intros _; lia|]. cbn [admitted]. unfold gate_admit. rewrite gate_fresh, !bool_decide_true, Ec by done.
      specialize (I3 before seq after E). destruct (admitted (b + 1) before). done.
  - assert (gate_check next seq ≠ Fresh) as Hf by (unfold gate_check; rewrite (proj2 (Z.eqb_neq _ _)) by done; by destruct (seq <? next)). rewrite !bool_decide_false by done.
    specialize (IH next Hn ltac:(lia)). destruct (admitted next seqs) as [l final] eqn:Ea. destruct IH as (I1 & I2 & I3 & I4).
    split; [done|]. split; [cbn [length]; lia|]. split; [|done]. intros [|b before] s after E; cbn [app] in E; injection E as -> E.
    + cbn [admitted snd]. unfold gate_check. rewrite (proj2 (Z.eqb_neq _ _)) by done. destruct (Z.ltb_spec s next); [lia|done].
    + cbn [admitted]. unfold gate_admit. rewrite !bool_decide_false by done. specialize (I3 before s after E). destruct (admitted next before). done.
Qed.

(** Witness: a command replayed, a gap, and the replay that fills it. *)
Lemma commands_apply_once_witness :
  let '(l, final) := admitted 1 [1; 1; 3; 2; 3] in l = seqZ 1 (final - 1) ∧ 1 ≤ final ≤ 1 + 5.
Proof.
  pose proof (commands_apply_once 1 [1; 1; 3; 2; 3] ltac:(simpl; lia)) as H. destruct (admitted 1 [1; 1; 3; 2; 3]) as [l final]. split; apply H.
Defined.

Example admitted_once : admitted 1 [1; 1; 3; 2; 3] = ([1; 2; 3], 4).
Proof. by vm_compute. Qed.

(** ** A wakeup has something to do *)

(** The actor's sleep is never a busy loop: when an attachment's deadline is zero, either a
    repaint is due, which the next pass serves, or a probe is, which is sent and starts the
    interval again; and an armed repaint wakes the actor no later than it may go. *)
Theorem deadline_zero_has_work a now drained :
  (deadline a now drained = 0 → wants Due a now drained = true ∨ (Link.probe (link a) now).1 ≠ None) ∧
  (repaint_pending a = true → deadline a now drained ≤ repaint_hold a now drained) ∧
  (wants Due a now drained = true → deadline a now drained ≤ 0).
Proof.
  unfold deadline, next_deadline, wants, repaint_due. destruct (repaint_pending a) eqn:Ep; cbn [andb].
  - split; [|split; [intros _; lia|intros E; zbool; lia]]. intros E.
    destruct (Z.eq_dec (repaint_hold a now drained) 0) as [->|Hne]; [by left|right]. assert (0 ≤ repaint_hold a now drained) by (unfold repaint_hold, sat_sub; lia).
    unfold Link.probe. rewrite (proj2 (Z.ltb_ge _ _)); [done|]. unfold sat_sub in *. lia.
  - split; [|done]. intros E. right. unfold Link.probe. rewrite (proj2 (Z.ltb_ge _ _)); [done|]. unfold sat_sub in *. lia.
Qed.

(** ** A plain row too wide for a piece *)

Lemma plan_costs budget l used count cuts : TAIL_FIXED ≤ used → plan_cuts budget l used count = Ok cuts → Forall (λ e, TAIL_FIXED + entry_cost e ≤ budget) l.
Proof.
  revert used count cuts. induction l as [|e l IH]; intros used count cuts Hu H; [constructor|]. cbn [plan_cuts] in H.
  set (full := (budget <? used + entry_cost e) && _) in H. set (used' := if full then TAIL_FIXED else used) in H.
  assert (TAIL_FIXED ≤ used') as Hu' by (unfold used'; by destruct full). destruct (Z.ltb_spec budget (used' + entry_cost e)) as [|Hfit]; [done|].
  apply result_bind_ok in H as (cs & H & _). pose proof (entry_cost_pos e). constructor; [lia|]. eapply (IH _ _ cs); [|exact H]. lia.
Qed.

Lemma plain_chunks r bud : row_ok r → runs r = [] → all_chunks (span r (O, O) bud) = [chunk_of r 0 0 (limit r 0) (edge r 0)].
Proof.
  intros Hr E. pose proof (all_chunks_cut r bud 0 0 Hr ltac:(lia)) as Hc. inversion Hc as [k Hk|k c Hk|k k' cs c Hk]; subst; [lia|done|lia].
Qed.

(** A row with no style run keeps every byte under the lossy cut, which drops only runs and what follows one. *)
Lemma plain_not_shortened row r budget : runs r = [] → shortened (update_whole row r) budget = update_whole row r.
Proof.
  intros E. unfold shortened, update_whole. cbn [u_runs u_frame u_row u_clear]. rewrite E. cbn [length]. change (first_wide (slice (0 `min` 0) 0 []) budget) with (@None nat).
  cbn [Nat.eqb andb]. by destruct (budget <? _).
Qed.

(** One unstyled row wider than a piece withholds the whole screen, at any fidelity: the lossy
    cut, which exists so that such a row costs only its own end, returns a row without style runs
    as it was, and the encoder refuses it again. *)
Theorem wide_plain_row_withholds_the_screen h plan rows budget i :
  sticky_typed (h_sticky h) ∧ 0 ≤ i < len rows ∧ len rows ≤ U16_MAX ∧ row_ok (rows !!! Z.to_nat i) ∧ runs (rows !!! Z.to_nat i) = [] ∧
  budget < TAIL_FIXED + PART_ROW_HEAD + CHUNK_FIXED + painted_bytes (rows !!! Z.to_nat i) →
  ∀ pieces, attempt h plan rows true budget ≠ Ok pieces.
Proof.
  intros (Hs & Hi & Hw & Hr & He & Hb) pieces. set (r := rows !!! Z.to_nat i) in *.
  assert (∀ fid pieces, cut_whole h rows budget fid ≠ Ok pieces) as Hcut.
  { clear pieces. intros fid pieces H. unfold cut_whole in H. apply result_bind_ok in H as (count & Hc & H). apply try_from_ok in Hc as [-> _]. unfold encode_screen_parts in H.
    destruct (Z.ltb_spec budget (HEAD_FIXED + screen_prefix h)) as [|Hhead]; [done|]. apply result_bind_ok in H as (cuts & Hp & _).
    apply plan_costs in Hp; [|by apply head_over_tail]. rewrite Forall_forall in Hp. set (bud := budget - TAIL_FIXED - PART_ROW_HEAD) in *.
    set (c := chunk_of r 0 0 (limit r 0) (edge r 0)). set (e := {| e_row := i; e_chunk := bud <? span_len r (O, O); e_clear := false; e_frame := c |}).
    assert (limit r 0 = painted_bytes r) as El by (unfold limit; by rewrite He). destruct (limit_range r Hr O ltac:(lia) O ltac:(lia)) as [Hl _]. specialize (Hp e). assert (TAIL_FIXED + entry_cost e ≤ budget) as Hbad.
    { apply Hp. unfold spans. apply list_elem_of_In, in_concat. exists [e]. split; [|by left]. apply list_elem_of_In, list_elem_of_fmap. exists (update_whole i r). split.
      - unfold entries_of, update_whole. cbn [u_frame u_runs u_row u_clear]. rewrite He. cbn [length]. by rewrite plain_chunks.
      - apply list_elem_of_fmap. exists i. split; [|apply elem_of_seqZ; lia]. destruct fid; cbn [degraded]; [done|]. fold r. by rewrite plain_not_shortened. }
    unfold entry_cost, e in Hbad. cbn [e_frame] in Hbad. unfold c in Hbad. rewrite (chunk_len r Hr), El in Hbad by done. change (byte_at r 0) with 0 in Hbad.
    unfold style_len in Hbad. rewrite slice_nil in Hbad by lia. cbn [sum_by foldr] in Hbad. lia. }
  unfold attempt, cut. destruct (cut_whole h rows budget FExact) as [x|e] eqn:E; [by apply Hcut in E|]. by destruct e.
Qed.

(** ** The cut ends, in pieces the path carries *)

(** What the encoder makes of an update is what it makes of its range within the row's runs. *)
Definition clamped (u : RowUpdate) : RowUpdate :=
  {| u_row := u_row u; u_frame := u_frame u; u_runs := clamp_runs (u_frame u) (u_runs u); u_clear := u_clear u |}.

Lemma clamp_twice r a b : clamp_runs r (clamp_runs r (a, b)) = clamp_runs r (a, b).
Proof. unfold clamp_runs. cbn [fst snd]. f_equal; lia. Qed.

Lemma entries_clamped bud u : entries_of bud (clamped u) = entries_of bud u.
Proof.
  unfold entries_of, clamped. cbn [u_row u_frame u_runs u_clear]. destruct (u_runs u) as [a b].
  assert (span (u_frame u) (clamp_runs (u_frame u) (a, b)) bud = span (u_frame u) (a, b) bud) as -> by (unfold span; by rewrite clamp_twice).
  assert (span_len (u_frame u) (clamp_runs (u_frame u) (a, b)) = span_len (u_frame u) (a, b)) as -> by (unfold span_len; by rewrite clamp_twice). done.
Qed.

Lemma parts_clamped h base scroll us bud : encode_screen_parts h base scroll (clamped <$> us) bud = encode_screen_parts h base scroll us bud.
Proof.
  unfold encode_screen_parts, spans. rewrite <- list_fmap_compose. rewrite (list_fmap_ext (entries_of (bud - TAIL_FIXED - PART_ROW_HEAD) ∘ clamped) (entries_of (bud - TAIL_FIXED - PART_ROW_HEAD)) us); [done|].
  intros i u _. unfold compose. apply entries_clamped.
Qed.

(** A row of the frame, degraded or not, is an update the encoder takes once its range is clamped. *)
Definition row_fine (size : Fields.GridSize) (r : RowFrame) : Prop := row_ok r ∧ row_tight r ∧ cells r ≤ Fields.cols size.

Lemma degraded_ok sz u fid bud : 0 ≤ u_row u < Fields.rows sz → row_fine sz (u_frame u) → update_ok sz (clamped (degraded u fid bud)) ∧ u_row (clamped (degraded u fid bud)) = u_row u.
Proof.
  intros Hr (H1 & H2 & H3). assert (u_frame (degraded u fid bud) = u_frame u ∧ u_row (degraded u fid bud) = u_row u) as [E1 E2].
  { unfold degraded, shortened. destruct fid; [done|]. destruct (u_runs u). by destruct (_ =? _)%nat. }
  unfold clamped. rewrite E1, E2. split; [|done]. split; cbn [u_row u_frame u_runs]; try done. unfold clamp_runs. cbn [fst snd]. lia.
Qed.

Lemma parts_fit h base scroll us bud frames : screen_ok h base scroll → sorted_rows us → Forall (λ u, ∃ v fid b, u = degraded v fid b ∧ 0 ≤ u_row v < Fields.rows (h_size h) ∧ row_fine (h_size h) (u_frame v)) us →
  encode_screen_parts h base scroll us bud = Ok frames → Forall (λ f, len f ≤ bud ∧ Message.LENGTH_PREFIX < len f) frames.
Proof.
  intros Hok Hs Hu H. rewrite <- parts_clamped in H. apply screen_parts_carry in H; [|done| |].
  - destruct H as (groups & _ & _ & _ & _ & _ & Hf). clear -Hf. apply Forall_forall. intros f Hin. apply list_elem_of_lookup in Hin as [i Hi].
    destruct (Forall2_lookup_r _ _ _ _ _ Hf Hi) as (ig & _ & H1 & x & -> & H2). split; [done|]. unfold Message.LENGTH_PREFIX. rewrite !length_app. unfold put_u32, put_u8. rewrite !length_to_be. lia.
  - apply Forall_fmap. eapply list.Forall_impl; [exact Hu|]. intros u (v & fid & b & -> & Hr & Hf). by apply degraded_ok.
  - unfold sorted_rows in *. clear -Hs. induction Hs as [|u us Hs IH Hx]; [constructor|]. rewrite fmap_cons. constructor; [done|]. apply Forall_fmap. exact Hx.
Qed.

(** The rows a plan may name, and the header it may be sent under. *)
Record cut_ready (h : ScreenHeader) (plan : Ledger.Plan) (rows : list RowFrame) : Prop := {
  cr_header : ∀ base scroll, base = None ∧ scroll = None ∨ base = Some (Ledger.base plan) ∧ scroll = Ledger.scroll plan → screen_ok h base scroll;
  cr_height : len rows = Fields.rows (h_size h);
  cr_rows : Forall (row_fine (h_size h)) rows;
  cr_sorted : Ledger.ascends (Ledger.plan_rows plan);
  cr_range : Forall (λ p, 0 ≤ Ledger.p_row p < len rows) (Ledger.plan_rows plan)
}.

Lemma degraded_row u fid b : u_row (degraded u fid b) = u_row u.
Proof. unfold degraded, shortened. destruct fid; [done|]. destruct (u_runs u). by destruct (_ =? _)%nat. Qed.

Lemma cut_within h plan rows whole_ bud fid frames : cut_ready h plan rows → cut h plan rows whole_ bud fid = Ok frames → Forall (λ f, len f ≤ bud ∧ Message.LENGTH_PREFIX < len f) frames.
Proof.
  intros [C1 C2 C3 C4 C5]. assert (cut_whole h rows bud fid = Ok frames → Forall (λ f, len f ≤ bud ∧ Message.LENGTH_PREFIX < len f) frames) as Hw.
  { unfold cut_whole. intros H. apply result_bind_ok in H as (n & Hn & H). apply try_from_ok in Hn as [-> _]. eapply parts_fit; [apply C1; by left| | |exact H].
    - unfold sorted_rows. pose proof (Ledger.seqZ_sorted 0 (len rows)) as Hs. revert Hs. generalize (seqZ 0 (len rows)). clear. intros l Hs. induction Hs as [|i l Hs IH Hi]; [constructor|].
      rewrite fmap_cons. constructor; [done|]. apply Forall_fmap. eapply list.Forall_impl; [exact Hi|]. intros j Hj. unfold compose. rewrite !degraded_row. exact Hj.
    - apply Forall_fmap, Forall_forall. intros i Hi. apply elem_of_seqZ in Hi. eexists _, _, _. split; [done|]. cbn. split; [lia|]. apply (Forall_at _ rows); [done|lia]. }
  unfold cut. destruct whole_; [exact Hw|]. destruct (encode_screen_parts _ _ _ _ _) as [x|e] eqn:E.
  - intros [= ->]. eapply parts_fit; [apply C1; by right| | |exact E].
    + unfold sorted_rows. revert C4. unfold Ledger.ascends. clear. generalize (Ledger.plan_rows plan). intros l Hs. induction Hs as [|p l Hs IH Hp]; [constructor|]. rewrite fmap_cons. constructor; [done|].
      apply Forall_fmap. eapply list.Forall_impl; [exact Hp|]. intros q Hq. unfold compose. rewrite !degraded_row. unfold Ledger.planned_update. by repeat case_match.
    + apply Forall_fmap. eapply list.Forall_impl; [exact C5|]. intros p Hp. eexists _, _, _. split; [done|].
      assert (u_row (Ledger.planned_update p (rows !!! Z.to_nat (Ledger.p_row p))) = Ledger.p_row p ∧ u_frame (Ledger.planned_update p (rows !!! Z.to_nat (Ledger.p_row p))) = rows !!! Z.to_nat (Ledger.p_row p)) as [-> ->]
        by (unfold Ledger.planned_update; by case_match). cbv beta in Hp. rewrite <- C2. split; [exact Hp|]. by apply (Forall_at _ rows).
  - destruct e; try done. destruct (Ledger.scroll plan); [exact Hw|done].
Qed.

Lemma attempt_fits h plan rows whole_ bud frames : cut_ready h plan rows → attempt h plan rows whole_ bud = Ok frames → Forall (λ f, len f ≤ bud ∧ Message.LENGTH_PREFIX < len f) frames.
Proof.
  intros Hc. unfold attempt. destruct (cut h plan rows whole_ bud FExact) as [x|e] eqn:E; [intros [= <-]; by eapply cut_within|]. destruct e; try done. by apply cut_within.
Qed.

Section carried.
Context `{D : Wire.Deflate} `{!Wire.DeflateLaws D}.

(** A piece packs to no more than its own length and a tag, and unpacks to its payload. *)
Lemma piece_carried piece f : Message.LENGTH_PREFIX < len piece → carried_of piece = Ok f →
  ∃ body, f = put_u32 (len body) ++ body ∧ len body ≤ len piece - Message.LENGTH_PREFIX + Wire.PACK_TAG ∧
    ∀ limit, len piece ≤ limit ≤ USIZE_MAX → Wire.unpack body limit = Ok (drop (Z.to_nat Message.LENGTH_PREFIX) piece).
Proof.
  unfold Message.LENGTH_PREFIX. intros Hp. unfold carried_of, Message.seal_frame, Message.LENGTH_PREFIX. set (payload := drop (Z.to_nat 4) piece).
  assert (len payload = len piece - 4) as Lp by (unfold payload; rewrite length_drop; lia).
  destruct (Wire.pack_unpacked payload (replicate (Z.to_nat 4) 0) 4 ltac:(rewrite length_replicate; lia)) as (body & -> & H2 & H3).
  rewrite take_ge by (rewrite length_replicate; lia).
  rewrite length_app, length_replicate. replace (Z.of_nat (Z.to_nat 4 + length body) - 4) with (len body) by lia.
  destruct (_ <? _); [done|]. destruct (_ || _); [done|]. intros [= <-]. exists body. split; [done|]. split; [lia|]. intros limit Hl. apply H3; lia.
Qed.

Lemma measure_spec pieces limit worst fits_ done_ : Forall (λ f, Message.LENGTH_PREFIX < len f) pieces →
  let '(_, fits', carried) := measure_loop pieces limit worst fits_ done_ in
  ∀ l, carried = Some l → ∃ l', l = reverse done_ ++ l' ∧ Forall2 (λ p f, carried_of p = Ok f) pieces l' ∧
    (fits' = true → fits_ = true ∧ Forall (λ f, len f - Message.LENGTH_PREFIX ≤ limit) l').
Proof.
  revert worst fits_ done_. induction pieces as [|p pieces IH]; intros worst fits_ done_ Hp; cbn [measure_loop].
  { intros l [= <-]. exists []. rewrite app_nil_r. split; [done|]. split; [constructor|]. done. }
  apply list.Forall_cons in Hp as [_ Hp]. destruct (carried_of p) as [f|] eqn:E; [|done].
  match goal with |- context [measure_loop pieces limit ?w ?b ?d] => pose proof (IH w b d Hp) as Hi; destruct (measure_loop pieces limit w b d) as [[m fits'] carried] end.
  intros l Hl. destruct (Hi l Hl) as (l' & -> & H2 & H3). exists (f :: l'). split; [by rewrite reverse_cons, <- app_assoc|]. split; [by constructor|].
  intros Hf. destruct (H3 Hf) as [H4 H5]. apply andb_prop in H4 as [H4 H6]. zbool. split; [done|]. by constructor.
Qed.

(** What a cut is, on the wire: each frame a packed piece of a screen cut to a budget at least the path's. *)
Lemma pieces_loop_spec fuel h plan rows whole_ budget limit planned ratio : cut_ready h plan rows → limit = payload_limit budget → Message.LENGTH_PREFIX ≤ budget →
  0 ≤ planned → planned ≤ budget ∧ (1 ≤ fuel)%nat ∨ (Z.to_nat (Z.log2 (Z.max planned budget)) + 2 ≤ fuel)%nat →
  ∃ r ratio', pieces_loop fuel h plan rows whole_ budget limit planned ratio = Some (r, ratio') ∧
    ∀ frames, r = Ok (Carried frames) → ∃ bud parts, budget ≤ bud ∧ attempt h plan rows whole_ bud = Ok parts ∧
      Forall2 (λ p f, carried_of p = Ok f) parts frames ∧ Forall (λ f, len f - Message.LENGTH_PREFIX ≤ limit) frames.
Proof.
  intros Hready -> Hb. revert planned ratio. induction fuel as [|fuel IH]; intros planned ratio Hpl Hfuel; [lia|]. cbn [pieces_loop]. set (P := Z.max planned budget) in *.
  destruct (attempt h plan rows whole_ P) as [parts|e] eqn:Ea; [|by eexists _, _]. pose proof (attempt_fits _ _ _ _ _ _ Hready Ea) as Hfit. destruct parts as [|p0 parts0] eqn:Ep; [by eexists _, _|]. rewrite <- Ep in *. clear Ep p0 parts0.
  unfold measure. pose proof (measure_spec parts (payload_limit budget) RATIO_CEILING true []) as Hm. destruct (measure_loop _ _ _ _ _) as [[measured fits_] carried].
  specialize (Hm ltac:(eapply list.Forall_impl; [exact Hfit|]; simpl; tauto)). destruct (fits_ || (P <=? budget)) eqn:Estop.
  - eexists _, _. split; [done|]. intros frames. destruct carried as [l|]; [|done]. intros [= <-]. destruct (Hm l eq_refl) as (l' & El & M2 & M3). cbn in El. subst l'. exists P, parts. split; [lia|]. split; [done|]. split; [done|].
    destruct fits_; [by apply M3|]. cbn [orb] in Estop. zbool. apply Forall_forall. intros f Hf. apply list_elem_of_lookup in Hf as [i Hi]. destruct (Forall2_lookup_r _ _ _ _ _ M2 Hi) as (p & Hp & Hc).
    rewrite Forall_lookup in Hfit. destruct (Hfit i p Hp) as [F1 F2]. destruct (piece_carried p f F2 Hc) as (body & -> & B2 & _). unfold payload_limit, sat_sub, Wire.PACK_TAG, Message.LENGTH_PREFIX in *.
    rewrite length_app. unfold put_u32. rewrite length_to_be. lia.
  - apply orb_false_elim in Estop as [-> Estop]. zbool. assert (0 ≤ budget) by (unfold Message.LENGTH_PREFIX in Hb; lia). apply IH; [apply Z.div_pos; lia|].
    destruct Hfuel as [Hfuel|Hfuel]; [lia|]. destruct (Z.le_gt_cases (P / 2) budget) as [Hle|Hgt]; [left; lia|right].
    rewrite Z.max_l, <- Z.div2_div, Z.div2_spec, Z.log2_shiftr by lia. pose proof (Z.log2_pos P ltac:(unfold Message.LENGTH_PREFIX in Hb; lia)). lia.
Qed.
(** C32: Cutting a screen for a datagram path ends, and every frame it makes is one the path
    carries: the loop halves what it plans for until the packed pieces fit, at latest at the
    path's own budget, where a piece packs to at most itself and a tag; and each frame unpacks to
    the payload of the piece it was made from. *)
Theorem packed_screens_fit_the_path budget ratio h plan rows fits_ :
  cut_ready h plan rows ∧ Message.LENGTH_PREFIX ≤ budget ∧ 0 ≤ ratio →
  ∃ r p, screen_pieces budget (Packed ratio) h plan rows fits_ = Some (r, p) ∧
    ∀ frames, r = Ok (Carried frames) → ∃ whole_ bud parts, budget ≤ bud ∧ attempt h plan rows whole_ bud = Ok parts ∧
      Forall2 (λ piece f, ∃ body, f = put_u32 (len body) ++ body ∧ len body ≤ payload_limit budget ∧
        ∀ limit, len piece ≤ limit ≤ USIZE_MAX → Wire.unpack body limit = Ok (drop (Z.to_nat Message.LENGTH_PREFIX) piece)) parts frames.
Proof.
  intros (Hready & Hb & Hr). unfold screen_pieces. set (whole_ := _ || _). set (planned := sat_mul _ _ _ / _).
  assert (0 ≤ planned) as Hp by (unfold planned, sat_mul, payload_limit, sat_sub, RATIO_ONE; apply Z.div_pos; [|lia]; apply Z.min_glb; [lia|]; apply Z.mul_nonneg_nonneg; lia).
  destruct (pieces_loop_spec (pieces_fuel (Z.max planned budget)) h plan rows whole_ budget (payload_limit budget) planned ratio Hready eq_refl Hb Hp ltac:(right; unfold pieces_fuel; lia)) as (r & ratio' & -> & Hspec).
  cbn [mbind option_bind]. eexists _, _. split; [done|]. intros frames E. destruct (Hspec frames E) as (bud & parts & B1 & B2 & B3 & B4). exists whole_, bud, parts. split; [done|]. split; [done|].
  pose proof (attempt_fits _ _ _ _ _ _ Hready B2) as Hfit. rewrite Forall_lookup in Hfit, B4. apply Forall2_same_length_lookup. split; [by eapply Forall2_length|]. intros i x f Hx Hf.
  pose proof (Forall2_lookup_lr _ _ _ _ _ _ B3 Hx Hf) as Hc. destruct (Hfit i x Hx) as [F1 F2]. destruct (piece_carried x f F2 Hc) as (body & -> & C2 & C3). exists body. split; [done|]. split; [|done]. specialize (B4 i _ Hf). rewrite length_app in B4. unfold put_u32 in B4. rewrite length_to_be in B4. unfold Message.LENGTH_PREFIX in B4. lia.
Qed.

End carried.

End Attachment.
