(* ===== verification/Sync.v ===== *)
(** * A session and its client stay in step

    The composition of the screen protocol: one attachment ([Attachment], with its [Ledger]) that
    paints the frames of an emulator, the screens it sent ([Converge.sent], cut by [Pieces]), and
    a client that assembles whatever pieces reach it ([Assembly]).  [step] is one thing that
    happens at either end or between them: pieces are lost, overtake each other and arrive of
    screens long superseded; acknowledgements arrive late or never.

    The one promise asked of the transport is that a piece that opens a screen is delivered at
    most once.  The emulator's rows are as wide as its grid and it marks every row it changes; a
    screen counts as sent only when the cut was exact (the lossy one keeps less than the frame), and
    when what is cut across pieces is no more than a client holds. *)

From S2P Require Import Prelude Codec Fields Message Text Screen Modes Rows Pieces ServerMessage Mask Splice Ledger Assembly Converge Cuts Wire Defer Link Attachment.

Module Sync.
Import Codec Text Screen Rows Pieces Splice Assembly Converge Cuts.
Import(hints) Attachment.

(** ** What was sent *)

Definition older (n m : Z * Z) : Prop := n.1 < m.1 ∨ n.1 = m.1 ∧ n.2 < m.2.

Definition named_updates (plan : Ledger.Plan) (F : list RowFrame) : list RowUpdate :=
  (λ p, Ledger.planned_update p (F !!! Z.to_nat (Ledger.p_row p))) <$> Ledger.plan_rows plan.

(** The frames a cut made, and the pieces they decode to. *)
Definition pieces_of (bud : Z) (h : ScreenHeader) (base : option Z) (scroll : option ScrollBand) (us : list RowUpdate)
    (groups : list (list RowEntry)) (frames : list (list Z)) : Prop :=
  concat groups = spans (bud - TAIL_FIXED - PART_ROW_HEAD) us ∧ groups ≠ [] ∧
  Forall2 (λ ig f, carries bud f (part_of h base scroll (len groups) ig.1 ig.2)) (numbered 0 groups) frames.

(** A screen as it left: a delta on the plan's base, or every row. *)
Inductive ships (h : ScreenHeader) (plan : Ledger.Plan) (F : list RowFrame) (bud : Z) (frames : list (list Z)) : sent → Prop :=
  | ships_delta groups : Ledger.full plan = false →
      pieces_of bud h (Some (Ledger.base plan)) (Ledger.scroll plan) (named_updates plan F) groups frames →
      holdable (bud - TAIL_FIXED - PART_ROW_HEAD) (named_updates plan F) →
      ships h plan F bud frames (sent_screen h (Some (Ledger.base plan)) (Ledger.scroll plan) (named_updates plan F) F groups)
  | ships_whole groups :
      pieces_of bud h None None (every F) groups frames → holdable (bud - TAIL_FIXED - PART_ROW_HEAD) (every F) →
      ships h plan F bud frames (sent_screen h None None (every F) F groups).

Lemma ships_screen h plan F bud frames S : ships h plan F bud frames S →
  st_name S = (h_generation h, h_version h) ∧ st_size S = h_size h ∧ st_target S = wire <$> F ∧ length (st_parts S) = length frames.
Proof.
  assert (∀ base scroll us groups, pieces_of bud h base scroll us groups frames →
    length (st_parts (sent_screen h base scroll us F groups)) = length frames) as Hl.
  { intros base scroll us groups (_ & _ & Hf). cbn [st_parts sent_screen]. rewrite length_fmap. by eapply Forall2_length. }
  intros [groups _ Hp _|groups Hp _]; (split_and!; [done..|by eapply Hl]).
Qed.

Lemma parts_pieces h base scroll us bud frames : Pieces.screen_ok h base scroll → Forall (update_ok (h_size h)) us → sorted_rows us →
  encode_screen_parts h base scroll us bud = Ok frames → ∃ groups, pieces_of bud h base scroll us groups frames.
Proof.
  intros Hok Hu Hs He. destruct (screen_parts_carry _ _ _ _ _ _ Hok Hu Hs He) as (groups & H1 & H2 & _ & _ & _ & H3). exists groups. split; [done|]. split; [done|].
  pose proof (Forall2_length _ _ _ H3) as Hl. rewrite numbered_length in Hl. by rewrite Hl.
Qed.

Lemma every_sorted F : sorted_rows (every F).
Proof.
  unfold every, sorted_rows. pose proof (Ledger.seqZ_sorted 0 (len F)) as Hs. revert Hs. generalize (seqZ 0 (len F)). intros l. induction 1 as [|i l Hs IH Hi]; [constructor|].
  rewrite fmap_cons. constructor; [done|]. by apply Forall_fmap.
Qed.

Lemma every_full size F : Forall (row_good (Fields.cols size)) F → len F = Fields.rows size → Forall (update_full size) (every F).
Proof.
  intros HF Hl. unfold every. apply Forall_fmap, Forall_forall. intros i Hi. apply elem_of_seqZ in Hi. pose proof (Forall_at _ F i HF ltac:(lia)) as [G1 G2 G3].
  split; [split; cbn; [lia|done|done|lia|lia]|done|done|by left].
Qed.

(** An exact cut is a screen that ships. *)
Lemma cut_ships h plan F whole_ bud frames : Pieces.screen_ok h None None →
  (Ledger.full plan = false → Pieces.screen_ok h (Some (Ledger.base plan)) (Ledger.scroll plan) ∧
     Forall (update_full (h_size h)) (named_updates plan F) ∧ sorted_rows (named_updates plan F)) →
  (Ledger.full plan = true → whole_ = true) → Forall (row_good (Fields.cols (h_size h))) F → len F = Fields.rows (h_size h) →
  (∀ us, us = every F ∨ Ledger.full plan = false ∧ us = named_updates plan F → holdable (bud - TAIL_FIXED - PART_ROW_HEAD) us) →
  Attachment.cut h plan F whole_ bud Attachment.FExact = Ok frames → ∃ S, ships h plan F bud frames S.
Proof.
  intros Hw Hd Hfull HF Hl Hhold. assert (Attachment.cut_whole h F bud Attachment.FExact = Ok frames → ∃ S, ships h plan F bud frames S) as Hwhole.
  { unfold Attachment.cut_whole. intros H. apply result_bind_ok in H as (n & Hn & H). apply try_from_ok in Hn as [-> _].
    destruct (parts_pieces h None None (every F) bud frames Hw) as [groups Hg]; [|apply every_sorted|exact H|].
    - eapply list.Forall_impl; [by apply every_full|]. intros u Hu. apply Hu.
    - exists (sent_screen h None None (every F) F groups). apply ships_whole; [done|]. apply Hhold. by left. }
  unfold Attachment.cut. destruct whole_; [exact Hwhole|]. assert (Ledger.full plan = false) as Ef by (destruct (Ledger.full plan); [by specialize (Hfull eq_refl)|done]).
  destruct (Hd Ef) as (D1 & D2 & D3). destruct (encode_screen_parts _ _ _ _ _) as [x|e] eqn:E.
  - intros [= ->]. destruct (parts_pieces _ _ _ (named_updates plan F) bud frames D1) as [groups Hg]; [|done|exact E|].
    + eapply list.Forall_impl; [exact D2|]. intros u Hu. apply Hu.
    + eexists. eapply ships_delta; [done|exact Hg|]. apply Hhold. by right.
  - destruct e; try done. destruct (Ledger.scroll plan); [exact Hwhole|done].
Qed.

(** ** A history grows *)

Record next_sent (H : list sent) (S : sent) : Prop := {
  ns_ok : sent_ok S;
  ns_last : Forall (λ S', older (st_name S') (st_name S)) H;
  ns_bases : ∀ b S' b', st_base S = Some b → S' ∈ H → (st_name S').1 = (st_name S).1 → st_base S' = Some b' → b' ≤ b;
  ns_base : ∀ b, st_base S = Some b → ∃ B, B ∈ H ∧ st_name B = ((st_name S).1, b) ∧ st_size B = st_size S ∧ b < (st_name S).2 ∧
    ¬ spoiled H (st_name B) ∧
    ∀ C, length C = length (st_target S) → Forall (held (Fields.cols (st_size S))) C →
      (∀ i, 0 ≤ i < len C → C !!! Z.to_nat i = st_target B !!! Z.to_nat i ∨
         ∃ S', S' ∈ H ∧ (st_name S').1 = (st_name S).1 ∧ st_base S' = Some b ∧ touches S' i) →
      pend (st_target S) (scrolled (st_scroll S) C) (st_spans S)
}.

Lemma history_nil : History [].
Proof. split; [constructor|constructor|]. intros S b H. by apply elem_of_nil in H. Qed.

Lemma history_add H S : History H → next_sent H S → History (S :: H).
Proof.
  intros [Hs Hn Hb] [N1 N2 N3 N4]. rewrite Forall_forall in N2. split; [by constructor| |].
  - rewrite fmap_cons. apply NoDup_cons. split; [|done]. intros Hin. apply list_elem_of_fmap in Hin as (S' & E & HS'). specialize (N2 S' HS'). rewrite E in N2. unfold older in N2. lia.
  - intros X b HX Hbase. apply elem_of_cons in HX as [->|HX].
    + destruct (N4 b Hbase) as (B & B1 & B2 & B3 & B4 & B5 & B6). exists B. split; [by right|]. split_and!; try done.
      * intros (S' & b' & HS' & E1 & E2 & E3). apply elem_of_cons in HS' as [->|HS']; [|apply B5; by exists S', b']. rewrite Hbase in E1. injection E1 as <-. rewrite B2 in E3. cbn [snd] in E3. lia.
      * intros C C1 C2 C3. apply B6; [done|done|]. intros i Hi. destruct (C3 i Hi) as [?|(S' & HS' & E1 & E2 & E3 & E4)]; [by left|right]. apply elem_of_cons in HS' as [->|HS']; [lia|]. by exists S'.
    + destruct (Hb X b HX Hbase) as (B & B1 & B2 & B3 & B4 & B5 & B6). exists B. split; [by right|]. split_and!; try done.
      * intros (S' & b' & HS' & E1 & E2 & E3). apply elem_of_cons in HS' as [->|HS']; [|apply B5; by exists S', b']. rewrite B2 in E2, E3. cbn [fst snd] in *.
        specialize (N3 b' X b E1 HX (eq_sym E2) Hbase). lia.
      * intros C C1 C2 C3. apply B6; [done|done|]. intros i Hi. destruct (C3 i Hi) as [?|(S' & HS' & E1 & E2 & E3 & E4)]; [by left|right]. apply elem_of_cons in HS' as [->|HS']; [|by exists S'].
        specialize (N2 X HX). unfold older in N2. lia.
Qed.

(** ** The server *)

(** What is true of the screen in flight and of the confirmed one, of those sent ([H], newest first). *)
Record in_flight_ok (rows : list RowFrame) (g : Z) (grid : Fields.GridSize) (H : list sent) (n : Z * Z) : Prop := {
  if_generation : n.1 = g;
  if_good : Forall (row_good (Fields.cols grid)) rows;
  if_sent : ∃ S, S ∈ H ∧ st_name S = n ∧ st_size S = grid ∧ st_target S = wire <$> rows;
  if_latest : ∀ S, S ∈ H → st_name S = n ∨ older (st_name S) n
}.
Record confirmed_ok (rows : list RowFrame) (carried : Mask.RowMask) (g : Z) (grid : Fields.GridSize) (H : list sent) (n : Z * Z) : Prop := {
  cf_generation : n.1 = g;
  cf_good : Forall (row_good (Fields.cols grid)) rows;
  cf_sent : ∃ S, S ∈ H ∧ st_name S = n ∧ st_size S = grid ∧ st_target S = wire <$> rows;
  cf_after : ∀ S b, S ∈ H → (st_name S).1 = n.1 → n.2 < (st_name S).2 → st_base S = Some b → b = n.2;
  cf_touched : ∀ S i, S ∈ H → (st_name S).1 = n.1 → st_base S = Some n.2 → 0 ≤ i → touches S i → Mask.get carried i = true
}.

(** [n] is the generation and version of the attachment; [fresh], that no screen has that name. *)
Record server_ok (l : Ledger.ScreenLedger) (n : Z * Z) (grid : Fields.GridSize) (F : list RowFrame) (H : list sent) (fresh : bool) : Prop := {
  sv_grid : Fields.is_grid grid;
  sv_good : Forall (row_good (Fields.cols grid)) F;
  sv_rows : len F = Fields.rows grid;
  sv_tracks : Ledger.tracks l F;
  sv_history : History H;
  sv_last : ∀ S, S ∈ H → older (st_name S) n ∨ fresh = false ∧ st_name S = n;
  sv_pending : ∀ m, Ledger.pending l = Some m → in_flight_ok (Ledger.pending_rows l) n.1 grid H m;
  sv_confirmed : ∀ m, Ledger.confirmed l = Some m → confirmed_ok (Ledger.confirmed_rows l) (Ledger.sent_unconfirmed l) n.1 grid H m
}.

Lemma server_number l g v v' grid F H fresh : v < v' → server_ok l (g, v) grid F H fresh → server_ok l (g, v') grid F H true.
Proof.
  intros Hv [S1 S2 S3 S4 S5 S6 S7 S8]. split; try done. intros S HS. left. unfold older. cbn [fst snd]. destruct (S6 S HS) as [Ho|[_ ->]]; [|cbn; lia]. unfold older in Ho. cbn [fst snd] in Ho. lia.
Qed.

Lemma server_damage l n grid F F' H fresh dirty : server_ok l n grid F H fresh → length F' = length F → Forall (row_good (Fields.cols grid)) F' → Mask.mask_ok dirty →
  (∀ i, 0 ≤ i < len F → Mask.get dirty i = false → F' !!! Z.to_nat i = F !!! Z.to_nat i) → server_ok (Ledger.note_damage l dirty) n grid F' H fresh.
Proof. intros [S1 S2 S3 S4 S5 S6 S7 S8] Hl HF Hm Hd. split; try done; [lia|]. by eapply Ledger.tracks_damage. Qed.

Lemma server_release l n grid F H fresh : server_ok l n grid F H fresh → server_ok (Ledger.release_in_flight l) n grid F H fresh.
Proof.
  intros [S1 S2 S3 S4 S5 S6 S7 S8]. destruct (Ledger.tracks_release l F S4) as [T1 T2]. split; try done; [by rewrite T2|].
  unfold Ledger.release_in_flight. by destruct (Ledger.pending l).
Qed.

Lemma server_regrid l g' v' grid' F' H rows : History H → (∀ S, S ∈ H → (st_name S).1 < g') → Fields.is_grid grid' → Forall (row_good (Fields.cols grid')) F' →
  len F' = Fields.rows grid' → 0 ≤ rows ≤ U16_MAX → server_ok (Ledger.release_in_flight (Ledger.invalidate l rows)) (g', v') grid' F' H true.
Proof.
  intros HH Hg G1 G2 G3 Hr. apply server_release. split; try done; [by apply Ledger.tracks_invalidate|]. intros S HS. left. left. by apply Hg.
Qed.

(** What a plan leaves, before anything was sent of it. *)
Lemma confirmed_more rows carried carried' g grid H n : confirmed_ok rows carried g grid H n → (∀ i, 0 ≤ i → Mask.get carried i = true → Mask.get carried' i = true) →
  confirmed_ok rows carried' g grid H n.
Proof. intros [C1 C2 C3 C4 C5] Hm. split; try done. intros S i HS E1 E2 Hi Ht. apply Hm; [done|]. by eapply C5. Qed.

Lemma server_withhold l n grid F H fresh h : server_ok l n grid F H fresh → server_ok (Ledger.release_in_flight (Ledger.plan l F h)) n grid F H fresh.
Proof.
  intros [S1 S2 S3 S4 S5 S6 S7 S8]. destruct (Ledger.plan_spec l F h S4) as [P1 P2 P3 P4 P5 P6 _]. destruct (Ledger.tracks_release _ F P1) as [T1 T2]. split; try done; [by rewrite T2|].
  intros m. assert (Ledger.confirmed (Ledger.release_in_flight (Ledger.plan l F h)) = Ledger.confirmed l ∧
    Ledger.confirmed_rows (Ledger.release_in_flight (Ledger.plan l F h)) = Ledger.confirmed_rows l ∧
    Ledger.sent_unconfirmed (Ledger.release_in_flight (Ledger.plan l F h)) = Ledger.sent_unconfirmed (Ledger.plan l F h)) as (-> & -> & ->).
  { unfold Ledger.release_in_flight. rewrite P2, <- P4, <- P5. done. }
  intros Hm. by eapply confirmed_more, P6; eauto.
Qed.

Lemma server_confirm l n grid F H fresh g v : server_ok l n grid F H fresh → server_ok (Ledger.confirm l g v).2 n grid F H fresh.
Proof.
  intros [S1 S2 S3 S4 S5 S6 S7 S8]. pose proof (Ledger.tracks_confirm l F g v S4) as T. split; try done; unfold Ledger.confirm in *; destruct (bool_decide _) eqn:E; try done.
  rewrite bool_decide_eq_true in E. destruct (S7 _ E) as [I1 I2 I3 I4]. intros m. cbn [snd]. Ledger.unset. intros [= <-]. split; try done.
  - intros S b HS E1 E2 _. destruct (I4 S HS) as [Hn|Ho]; [rewrite Hn in E2; lia|]. unfold older in Ho. lia.
  - intros S i HS E1 E2 _ _. exfalso. destruct (hi_base S v HS E2) as (_ & _ & _ & _ & Hlt & _). destruct (I4 S HS) as [Hn|Ho]; [rewrite Hn in Hlt; cbn [snd] in *; lia|]. unfold older in Ho. cbn [fst snd] in *. lia.
Qed.

Lemma scrolled_length sb C : length (scrolled sb C) = length C.
Proof. unfold scrolled. destruct sb; [apply scroll_length|done]. Qed.

Lemma span_row u : sp_row (update_span u) = u_row u.
Proof. unfold update_span. by destruct (u_runs u). Qed.
Lemma planned_row_of p F : u_row (Ledger.planned_update p F) = Ledger.p_row p.
Proof. unfold Ledger.planned_update. by case_match. Qed.
Lemma named_rows plan F : sp_row <$> (update_span <$> named_updates plan F) = Ledger.p_row <$> Ledger.plan_rows plan.
Proof.
  unfold named_updates. rewrite <- !list_fmap_compose. apply list_fmap_ext. intros i p _. unfold compose. by rewrite span_row, planned_row_of.
Qed.

(** A delta that was planned gives its frame to every client on its base. *)
Lemma planned_pend cols old F carried sb plan C : Ledger.delta_spec old F carried sb (Ledger.plan_rows plan) →
  length old = length F → Forall (row_good cols) F → Forall (row_good cols) old → 0 < cols ≤ U16_MAX → length C = length F → Forall (held cols) C →
  (∀ i, 0 ≤ i < len F → Mask.get carried i = false → C !!! Z.to_nat i = wire (old !!! Z.to_nat i)) →
  pend (wire <$> F) (scrolled sb C) (update_span <$> named_updates plan F).
Proof.
  intros Hd Lo HF Ho Hc LC HC Hag. destruct (Ledger.delta_rebuilds _ _ _ _ _ _ C Hd Lo HF Ho Hc LC HC Hag) as [R1 R2]. destruct Hd as [D1 D2 _ _ _].
  split.
  - by rewrite scrolled_length, length_fmap.
  - rewrite named_rows. clear -D1. unfold Ledger.ascends in D1. induction D1 as [|p l Hl IH Hp]; [constructor|]. rewrite fmap_cons. apply NoDup_cons. split; [|done].
    intros Hin. apply list_elem_of_fmap in Hin as (q & E & Hq). rewrite Forall_forall in Hp. specialize (Hp q Hq). lia.
  - unfold named_updates. apply Forall_fmap, Forall_fmap. apply Forall_forall. intros p Hp. rewrite Forall_forall in R1, D2. specialize (R1 p Hp). specialize (D2 p Hp). cbv beta in D2.
    unfold compose. rewrite span_row, planned_row_of, length_fmap. split; [done|]. rewrite (list_lookup_total_fmap wire F) by lia. exact R1.
  - intros i Hi Hn. rewrite length_fmap in Hi. rewrite (list_lookup_total_fmap wire F) by lia. apply R2; [done|]. apply Forall_forall. intros p Hp E. apply Hn. rewrite named_rows, list_elem_of_fmap. by exists p.
Qed.

Lemma server_send l n grid F H h bud frames S : server_ok l n grid F H true → (h_generation h, h_version h) = n → h_size h = grid →
  ships h (Ledger.the_plan (Ledger.plan l F h)) F bud frames S →
  sent_ok S ∧ next_sent H S ∧ server_ok (Ledger.plan l F h) n grid F (S :: H) false.
Proof.
  intros [S1 S2 S3 S4 S5 S6 S7 S8] Hn Hsize Hship. pose proof (Ledger.plan_spec l F h S4) as [P1 P2 P3 P4 P5 P6 P7]. set (plan := Ledger.the_plan _) in *.
  destruct (ships_screen _ _ _ _ _ _ Hship) as (N1 & N2 & N3 & _). rewrite Hn in N1. rewrite Hsize in N2. pose proof S1 as [Hcols Hrows].
  assert (sent_ok S) as HS.
  { destruct Hship as [groups Ef (G1 & G2 & G3) Hh|groups (G1 & G2 & G3) Hh]; apply sent_screen_ok with (bud - TAIL_FIXED - PART_ROW_HEAD); split; rewrite ?Hsize; try done.
    - destruct (P7 Ef) as (Q1 & Q2 & Q3 & Q4 & _). subst n. destruct (S8 _ Q1) as [_ C2 _ _ _]. by apply (Ledger.planned_ok _ _ _ _ _ _ Q4).
    - destruct (P7 Ef) as (Q1 & Q2 & Q3 & Q4 & _). subst n. destruct (S8 _ Q1) as [_ C2 _ _ _]. by apply (Ledger.planned_ok _ _ _ grid _ _ Q4).
    - intros b Eb. destruct (P7 Ef) as (_ & _ & _ & Q4 & _). destruct (Ledger.ds_moved _ _ _ _ _ Q4 b Eb) as (M1 & M2 & _). by rewrite <- S3.
    - by apply every_full.
    - apply every_sorted. }
  assert (Forall (λ S', older (st_name S') (st_name S)) H) as Hlast.
  { apply Forall_forall. intros S' HS'. rewrite N1. by destruct (S6 S' HS') as [?|[? _]]. }
  assert (∀ b, st_base S = Some b → Ledger.full plan = false ∧ b = Ledger.base plan ∧ st_scroll S = Ledger.scroll plan ∧ st_spans S = update_span <$> named_updates plan F) as Hdelta.
  { intros b. destruct Hship as [groups Ef _ _|groups _ _]; cbn; [|done]. by intros [= <-]. }
  assert (next_sent H S) as Hnext.
  { split; [done|done| |].
    - intros b S' b' Hb HS' Hg Hb'. destruct (Hdelta b Hb) as (Ef & -> & _). destruct (P7 Ef) as (Q1 & _). destruct (S8 _ Q1) as [_ _ _ C4 _]. cbn [fst snd] in *. rewrite N1, <- Hn in Hg. cbn [fst] in Hg.
      destruct (Z.lt_ge_cases (Ledger.base plan) (st_name S').2) as [Hlt|Hge]; [rewrite (C4 S' b' HS' Hg Hlt Hb'); lia|].
      destruct (hi_base S' b' HS' Hb') as (_ & _ & _ & _ & Hlt & _). lia.
    - intros b Hb. destruct (Hdelta b Hb) as (Ef & -> & Esc & Esp). destruct (P7 Ef) as (Q1 & Q2 & Q3 & Q4 & _). destruct (S8 _ Q1) as [_ C2 (B & B1 & B2 & B3 & B4) C4 C5]. cbn [fst snd] in *.
      exists B. rewrite N1, N2, N3, Esc, Esp, <- Hn. cbn [fst snd]. split; [done|]. split; [done|]. split; [done|]. split; [|split].
      + rewrite Forall_forall in Hlast. specialize (Hlast B B1). rewrite N1, B2, <- Hn in Hlast. unfold older in Hlast. cbn [fst snd] in Hlast. lia.
      + intros (S' & b' & HS' & E1 & E2 & E3). rewrite B2 in E2, E3. cbn [fst snd] in *. specialize (C4 S' b' HS' E2 ltac:(lia) E1). lia.
      + intros C LC HC Hag. rewrite length_fmap in LC. unfold Fields.MAX_COLS in *. eapply planned_pend; try done; [lia|]. intros i Hi Hcar. destruct (Hag i ltac:(lia)) as [E|(S' & HS' & E1 & E2 & E3)].
        * rewrite E, B4. apply list_lookup_total_fmap. lia.
        * rewrite (C5 S' i HS' E1 E2 ltac:(lia) E3) in Hcar. done. }
  split; [done|]. split; [done|]. split; try done.
  - by apply history_add.
  - intros S' HS'. apply elem_of_cons in HS' as [->|HS']; [by right|]. left. rewrite Forall_forall in Hlast. rewrite <- N1. by apply Hlast.
  - intros m Hm. rewrite P2, Hn in Hm. injection Hm as <-. rewrite P3. split; [done|done| |].
    + exists S. split; [by left|]. done.
    + intros S' HS'. apply elem_of_cons in HS' as [->|HS']; [by left|right]. rewrite Forall_forall in Hlast. rewrite <- N1. by apply Hlast.
  - intros m. rewrite P4, P5. intros Hm. pose proof (confirmed_more _ _ _ _ _ _ _ (S8 m Hm) P6) as [C1 C2 (B & B1 & B2) C4 C5]. split; try done.
    + exists B. split; [by right|done].
    + intros S' b HS' E1 E2 E3. apply elem_of_cons in HS' as [->|HS']; [|by eapply C4]. destruct (Hdelta b E3) as (Ef & -> & _). destruct (P7 Ef) as (Q1 & _). rewrite Hm in Q1. by injection Q1 as ->.
    + intros S' i HS' E1 E2 Hi Ht. apply elem_of_cons in HS' as [->|HS']; [|by eapply C5]. destruct (Hdelta _ E2) as (Ef & _ & Esc & Esp). destruct (P7 Ef) as (_ & _ & _ & _ & Q5). apply Q5; [done|].
      unfold touches in Ht. rewrite Esc, Esp, named_rows in Ht. destruct Ht as [Ht|Ht]; [right|by left]. apply list_elem_of_fmap in Ht as (p & -> & Hp). apply Exists_exists. by exists p.
Qed.

(** ** The names a client knows *)

Ltac unset := cbn [assign confirmed pending trusted shown painter applied covered held_tails chunks a_named a_head a_predicted
  cs_generation cs_version cs_size cs_cursor cs_visible cs_shape cs_blinking cs_modes cs_sticky cs_rows].

(** What a state goes on assembling it was assembling before, and it is trusted as it was. *)
Definition keeps (s s' : Screen_) : Prop :=
  trusted s' = trusted s ∧ ∀ a', pending s' = Some a' → ∃ a, pending s = Some a ∧ a_named a' = a_named a.

Lemma keeps_refl s : keeps s s.
Proof. split; [done|]. intros a Ha. by exists a. Qed.
Lemma keeps_trans s1 s2 s3 : keeps s1 s2 → keeps s2 s3 → keeps s1 s3.
Proof. intros [T1 K1] [T2 K2]. split; [congruence|]. intros a Ha. destruct (K2 a Ha) as (b & Hb & ->). by apply K1. Qed.

Lemma write_keeps s screen cov i rows : keeps s (write_piece s screen cov i rows).
Proof. unfold write_piece. destruct (hold_chunks _ _), (write_part_rows _ _ _ _). split; [done|]. unset. intros a Ha. by exists a. Qed.

Lemma absorb_loop_keeps cov l : ∀ s, keeps s (absorb_loop s cov l).2.
Proof.
  induction l as [|[i rows] l IH]; intros s; cbn [absorb_loop]; [apply keeps_refl|]. destruct (confirmed s); [|apply keeps_refl]. destruct (negb _); [done|]. destruct (negb _); [apply keeps_refl|].
  eapply keeps_trans; [apply write_keeps|apply IH].
Qed.

Lemma absorb_keeps s hd : keeps s (absorb_held s hd).2.
Proof.
  unfold absorb_held. destruct (pending s) as [a|] eqn:Ea; [|apply keeps_refl].
  assert (keeps s (match confirmed s with None => (Ok (), s) | Some _ =>
    absorb_loop (s <| painter := (painter s) <| held_tails := [] |> |>) (hd_coverage hd) (held_tails (painter s)) end).2) as [K1 K2].
  { destruct (confirmed s); [|apply keeps_refl]. eapply keeps_trans; [|apply absorb_loop_keeps]. split; [done|]. unset. intros b Hb. by exists b. }
  destruct (match confirmed s with None => _ | Some _ => _ end) as [r s1]. cbn [snd] in *. split; [done|]. unset. intros b [= <-]. exists a. done.
Qed.

Lemma settle_keeps s : keeps s (settle s).2.
Proof.
  unfold settle. destruct (pending s) as [a|] eqn:Ea; [|apply keeps_refl]. destruct (a_head a); [|apply keeps_refl]. destruct (negb _); [apply keeps_refl|].
  set (joined_ := match chunks (painter s) with [] => _ | _ => _ end). assert (∀ s1, joined_ = Some s1 → trusted s1 = trusted s ∧ pending s1 = pending s) as Hj.
  { intros s1. unfold joined_. destruct (chunks (painter s)); [by intros [= <-]|]. destruct (confirmed s); [|done]. destruct (write_joined_rows _ _ _ _ _). by intros [= <-]. }
  destruct joined_ as [s1|]; [|apply keeps_refl]. destruct (Hj s1 eq_refl) as [J1 J2].
  assert (keeps s s1) as Hk by (split; [done|]; intros b Hb; exists b; by rewrite <- J2). destruct (_ && _); [done|]. destruct (confirmed (abandon s1)); [destruct (a_predicted a)|]; by split.
Qed.

Lemma head_trusts s h base scroll pieces rows tr drawn :
  pending (head s h base scroll pieces rows tr drawn).2 = pending s ∧
  ((head s h base scroll pieces rows tr drawn).2 = s ∨ trusted (head s h base scroll pieces rows tr drawn).2 = true).
Proof.
  unfold head. destruct (match base with Some _ => _ | None => _ end); [|by split; [|left]]. destruct (hold_chunks _ _), (write_part_rows _ _ _ _). split; [done|by right].
Qed.

(** Whatever piece a client takes, it goes on assembling what it did, assembles the piece's
    screen or nothing; and its copy of the screen changes only as it comes to describe the terminal. *)
Lemma part_keeps s p tr drawn : (∀ a hd, pending s = Some a → a_head a = Some hd → trusted s = true) →
  let s' := (part s p tr drawn).2 in
  (∀ a, pending s' = Some a → a_named a = part_name p ∨ pending s = Some a) ∧
  (trusted s' = false → confirmed s' = confirmed s).
Proof.
  intros Ht. unfold part. set (n := part_name p). destruct (superseded s n); [split; [by right|done]|].
  set (s0 := match pending s with Some _ => _ | None => _ end). set (a := if drawn then _ else _). set (s1 := s0 <| pending := Some a |>).
  assert (confirmed s1 = confirmed s ∧ trusted s1 = trusted s ∧ a_named a = n ∧ ∀ hd, a_head a = Some hd → trusted s = true) as (K1 & K2 & K3 & K4).
  { unfold s1, a, s0. unset. destruct (pending s) as [b|] eqn:Eb; [|by destruct drawn]. destruct (bool_decide (a_named b = n)) eqn:En; [|by destruct drawn].
    rewrite bool_decide_eq_true in En. rewrite Eb. cbn [default from_option]. change (@id Assembly_ b) with b. destruct drawn; (split_and!; [done..|]); intros hd Hh; by eapply Ht. }
  assert (∀ s', (∀ b, pending s' = Some b → ∃ b', pending s1 = Some b' ∧ a_named b = a_named b') → ∀ b, pending s' = Some b → a_named b = n ∨ pending s = Some b) as Hk.
  { intros s' Hp b Hb. destruct (Hp b Hb) as (b' & Eb & ->). unfold s1 in Eb. revert Eb. unset. intros [= <-]. by left. }
  clearbody s1. assert (∀ b, pending s1 = Some b → a_named b = n ∨ pending s = Some b) as Hk1 by (apply Hk; intros b Hb; by exists b). destruct p as [h base scroll pieces rows|g v pieces index rows]; destruct (a_head a) as [hd|] eqn:Eh.
  - split; [exact Hk1|done].
  - pose proof (head_trusts s1 h base scroll pieces rows tr drawn) as [T1 T2]. destruct (head s1 h base scroll pieces rows tr drawn) as [[hd|e] s2] eqn:E2; cbn [snd] in *.
    + assert (trusted s2 = true) as Ht2.
      { destruct T2 as [->|]; [|done]. unfold head in E2. destruct (match base with Some _ => _ | None => _ end); [|done]. destruct (hold_chunks _ _), (write_part_rows _ _ _ _). by injection E2 as _ <-. }
      pose proof (absorb_keeps s2 hd) as [A1 A2]. destruct (absorb_held s2 hd) as [[u|e] s3]; cbn [snd] in *.
      * pose proof (settle_keeps s3) as [B1 B2]. split; [|rewrite B1, A1, Ht2; done]. apply Hk. intros b Hb. destruct (B2 b Hb) as (b1 & Hb1 & ->). destruct (A2 b1 Hb1) as (b2 & Hb2 & ->). exists b2. by rewrite <- T1.
      * split; [|rewrite A1, Ht2; done]. apply Hk. intros b Hb. destruct (A2 b Hb) as (b2 & Hb2 & ->). exists b2. by rewrite <- T1.
    + split; [done|]. destruct T2 as [->|Ht2]; [done|]. unfold abandon. unset. by rewrite Ht2.
  - specialize (K4 hd eq_refl). destruct (negb _ || negb _); [split; [exact Hk1|done]|]. destruct (confirmed s1) eqn:Ec; [|split; [exact Hk1|cbn [snd]; intros _; congruence]].
    destruct (negb _); [split; [exact Hk1|cbn [snd]; intros _; congruence]|]. pose proof (keeps_trans _ _ _ (write_keeps s1 c (hd_coverage hd) index rows) (settle_keeps _)) as Hs. split; [apply Hk, Hs|].
    destruct Hs as [-> _]. rewrite K2, K4. done.
  - destruct (_ && _); (split; [|done]); [apply Hk; unset; intros b Hb; by exists b|exact Hk1].
Qed.

(** ** The session, the path and the client *)

(** [y_rows] is the emulator's frame when it was last rendered, [y_sent] every screen that left,
    newest first, [y_seen] the screens whose first piece reached the client, and [y_acks] what the
    client acknowledged, with the rows it held as it did. *)
Record system := mkSystem {
  y_server : Attachment.Attachment; y_grid : Fields.GridSize; y_rows : list RowFrame; y_sent : list sent; y_fresh : bool;
  y_client : Screen_; y_seen : list (Z * Z); y_acks : list ((Z * Z) * list RowFrame)
}.
#[export] Instance system_settable : Settable system := λ y,
  mkSystem (y_server y) (y_grid y) (y_rows y) (y_sent y) (y_fresh y) (y_client y) (y_seen y) (y_acks y).

(** A frame of the emulator: rows that changed are marked, and each is as wide as the grid. *)
Record frame_ok (y : system) (frame : Attachment.RepaintFrame) : Prop := {
  fo_size : Attachment.f_size frame = y_grid y;
  fo_length : length (Attachment.f_rows frame) = length (y_rows y);
  fo_good : Forall (row_good (Fields.cols (y_grid y))) (Attachment.f_rows frame);
  fo_mask : Mask.mask_ok (Attachment.f_dirty frame);
  fo_dirty : ∀ i, 0 ≤ i < len (y_rows y) → Mask.get (Attachment.f_dirty frame) i = false →
    Attachment.f_rows frame !!! Z.to_nat i = y_rows y !!! Z.to_nat i
}.

(** [Painted::One] follows a restart, and a version is left to number. *)
Definition paintable (y : system) (painted : Attachment.Painted) : Prop :=
  match painted with Attachment.Due => Attachment.version (y_server y) < U64_MAX | Attachment.One => y_fresh y = true end.

Definition noted (a : Attachment.Attachment) (frame : Attachment.RepaintFrame) : Attachment.Attachment :=
  a <| Attachment.ledger := Ledger.note_damage (Attachment.ledger a) (Attachment.f_dirty frame) |>.
Definition header_for (a : Attachment.Attachment) (painted : Attachment.Painted) (header : ScreenHeader) (frame : Attachment.RepaintFrame)
    (log : Defer.DeferredOsc) (now : Instant) : ScreenHeader :=
  let '(named, a) := Attachment.painting (noted a frame) painted now in Attachment.stamped header named (Attachment.owed_deferred a log).

Definition report (r : result (option Assembled) PartMismatch) (s : Screen_) : list ((Z * Z) * list RowFrame) :=
  match r with
  | Ok (Some x) => [((as_generation x, as_version x), match confirmed s with Some c => cs_rows c | None => [] end)]
  | _ => []
  end.

Definition delivered_to (y : system) (S : sent) (i : nat) (out : result (option Assembled) PartMismatch * Screen_) : system :=
  y <| y_client := out.2 |> <| y_seen := delivered (y_seen y) S i |> <| y_acks := report out.1 out.2 ++ y_acks y |>.

Section system.
Context `{D : Wire.Deflate}.

(** The frames of a cut, as they leave. *)
Inductive transmits (frames : list (list Z)) : Attachment.Cut → Prop :=
  | transmits_raw : transmits frames (Attachment.Raw frames)
  | transmits_packed packed : Forall2 (λ p f, Attachment.carried_of p = Ok f) frames packed → transmits frames (Attachment.Carried packed).

Inductive step (y : system) : system → Prop :=
  | step_idle painted header frame log offset last_output now drained answer r a :
      frame_ok y frame → paintable y painted →
      Attachment.repaint_one (y_server y) painted header frame log offset last_output (y_grid y) now drained answer = Some (r, a, None) →
      step y (y <| y_server := a |> <| y_rows := Attachment.f_rows frame |>)
  | step_send painted header frame log offset last_output now drained answer r a c bud frames S :
      frame_ok y frame → paintable y painted → h_size header = y_grid y →
      Attachment.repaint_one (y_server y) painted header frame log offset last_output (y_grid y) now drained answer = Some (r, a, Some c) →
      transmits frames c →
      (let h := header_for (y_server y) painted header frame log now in
       let l := Ledger.plan (Attachment.ledger (noted (y_server y) frame)) (Attachment.f_rows frame) h in
       ships h (Ledger.the_plan l) (Attachment.f_rows frame) bud frames S) →
      step y (y <| y_server := a |> <| y_rows := Attachment.f_rows frame |> <| y_sent := S :: y_sent y |> <| y_fresh := false |>)
  | step_regrid (again : bool) generation_ grid rows :
      Attachment.generation (y_server y) < generation_ → Fields.is_grid grid → Forall (row_good (Fields.cols grid)) rows → len rows = Fields.rows grid →
      step y (y <| y_server := (if again then Attachment.restart else Attachment.regrid) (y_server y) generation_ (Fields.rows grid) |>
                <| y_grid := grid |> <| y_rows := rows |> <| y_fresh := true |>)
  | step_other a :
      Attachment.ledger a = Attachment.ledger (y_server y) → Attachment.generation a = Attachment.generation (y_server y) →
      Attachment.version a = Attachment.version (y_server y) → step y (y <| y_server := a |>)
  | step_confirm n rows :
      (n, rows) ∈ y_acks y → step y (y <| y_server := Attachment.confirm (y_server y) n.1 n.2 |>)
  | step_deliver S i p tr drawn :
      S ∈ y_sent y → st_parts S !! i = Some p → (i = O → st_name S ∉ y_seen y) →
      step y (delivered_to y S i (part (y_client y) p tr drawn))
  | step_invalidate : step y (y <| y_client := invalidate (y_client y) |>)
  | step_observe bytes : step y (y <| y_client := observe (y_client y) bytes |>).

(** What a request for a repaint leaves of an attachment, and the client that made it: whatever
    it holds is of an earlier generation. *)
Record initial (y : system) : Prop := {
  in_server : ∃ a, y_server y = Attachment.restart a (Attachment.generation (y_server y)) (Fields.rows (y_grid y));
  in_grid : Fields.is_grid (y_grid y);
  in_good : Forall (row_good (Fields.cols (y_grid y))) (y_rows y);
  in_rows : len (y_rows y) = Fields.rows (y_grid y);
  in_sent : y_sent y = [];
  in_fresh : y_fresh y = true;
  in_client : ∃ s, y_client y = invalidate s;
  in_stale : ∀ c v, confirmed (y_client y) = Some c → cs_version c = Some v → cs_generation c < Attachment.generation (y_server y);
  in_seen : y_seen y = [];
  in_acks : y_acks y = []
}.

(** *** What a pass does to the attachment *)

Lemma triple_inj {A B C} (x x' : A) (y y' : B) (z z' : C) : Some (x, y, z) = Some (x', y', z') → x = x' ∧ y = y' ∧ z = z'.
Proof. by intros [= -> -> ->]. Qed.

Definition name_of (a : Attachment.Attachment) : Z * Z := (Attachment.generation a, Attachment.version a).

Lemma repaint_shape a painted header frame log offset lo grid now drained answer r a' c :
  Attachment.repaint_one a painted header frame log offset lo grid now drained answer = Some (r, a', c) →
  let l := Attachment.ledger (noted a frame) in
  let h := header_for a painted header frame log now in
  let n := match painted with Attachment.Due => (Attachment.generation a, Fields.seq_next U64_MAX (Attachment.version a)) | Attachment.One => name_of a end in
  (h_generation h, h_version h) = n ∧ h_size h = h_size header ∧
  match c with
  | None => Attachment.ledger a' = l ∧ name_of a' = name_of a ∨
            Attachment.ledger a' = Ledger.release_in_flight (Ledger.plan l (Attachment.f_rows frame) h) ∧ name_of a' = n
  | Some _ => Attachment.ledger a' = Ledger.plan l (Attachment.f_rows frame) h ∧ name_of a' = n
  end.
Proof.
  intros H l h n. unfold Attachment.repaint_one in H. fold (noted a frame) in H.
  assert ((h_generation h, h_version h) = n ∧ h_size h = h_size header) as [H1 H2] by (unfold h, n, header_for, Attachment.painting, noted; by destruct painted).
  split; [done|]. split; [done|]. destruct (negb _) in H; [injection H as <- <- <-; by left|].
  assert (∃ a1, Attachment.painting (noted a frame) painted now = (n, a1) ∧ Attachment.ledger a1 = l ∧ name_of a1 = n) as (a1 & Ep & E1 & E2).
  { unfold Attachment.painting, n, l, noted, name_of. destruct painted; eexists; split_and!; done. }
  rewrite Ep in H. assert (Attachment.stamped header n (Attachment.owed_deferred a1 log) = h) as Eh by (unfold h, header_for; by rewrite Ep). rewrite Eh in H. clear Ep Eh.
  unfold Attachment.push_screen in H. destruct (Attachment.screen_pieces _ _ _ _ _ _) as [[enc p]|]; [|done]. cbn [mbind option_bind] in H. rewrite E1 in H.
  destruct enc as [cut_|e]; [destruct answer as [pressure_|error]|]; apply triple_inj in H as (_ & <- & <-).
  - split; [|rewrite <- E2]; unfold Attachment.is_syncing, Attachment.settle, Attachment.sent_, name_of; repeat case_match; done.
  - right. split; [done|]. by rewrite <- E2.
  - right. split; [by case_match|]. rewrite <- E2. by case_match.
Qed.

(** *** The invariant *)

(** The screens a client has heard of: those that were sent, or older than all of them. *)
Definition client_names (g0 : Z) (H : list sent) (s : Screen_) : Prop :=
  (∀ a, pending s = Some a → a_named a ∈ st_name <$> H) ∧
  ∀ c v, confirmed s = Some c → cs_version c = Some v → (cs_generation c, v) ∈ st_name <$> H ∨ cs_generation c < g0.

Record system_ok (g0 : Z) (y : system) : Prop := {
  sy_server : server_ok (Attachment.ledger (y_server y)) (name_of (y_server y)) (y_grid y) (y_rows y) (y_sent y) (y_fresh y);
  sy_first : g0 ≤ Attachment.generation (y_server y);
  sy_client : client_ok (y_sent y) (y_seen y) (y_client y);
  sy_names : client_names g0 (y_sent y) (y_client y);
  sy_seen : y_seen y ⊆ st_name <$> y_sent y;
  sy_acks : ∀ n rows, (n, rows) ∈ y_acks y → ∃ S, S ∈ y_sent y ∧ st_name S = n ∧ (good (y_sent y) S → rows = st_target S)
}.

Lemma good_less H H' S : H ⊆ H' → good H' S → good H S.
Proof. intros Hs [?|G]; [by left|right]. intros (S' & b & ? & ?). apply G. exists S', b. split; [by apply Hs|done]. Qed.

Lemma names_grow g0 H S s : client_names g0 H s → client_names g0 (S :: H) s.
Proof. intros [N1 N2]. split; [intros a Ha; right; by apply N1|]. intros c v Hc Hv. destruct (N2 c v Hc Hv); [left; by right|by right]. Qed.

Lemma grid_height grid : Fields.is_grid grid → 0 ≤ Fields.rows grid ≤ U16_MAX.
Proof. intros [_ H]. unfold Fields.MAX_ROWS in H. lia. Qed.

Lemma system_initial y : initial y → system_ok (Attachment.generation (y_server y)) y.
Proof.
  intros [[a Ha] I2 I3 I4 I5 I6 [s Hs] I8 I9 I10]. split.
  - unfold name_of. rewrite I5, I6. set (g := Attachment.generation _) in *. set (v := Attachment.version _). rewrite Ha. unfold Attachment.restart, Attachment.regrid.
    match goal with |- server_ok ?l _ _ _ _ _ => assert (l = Ledger.release_in_flight (Ledger.invalidate (Attachment.ledger a) (Fields.rows (y_grid y)))) as -> by (by case_match) end.
    apply server_regrid; try done; [apply history_nil|set_solver|by apply grid_height].
  - lia.
  - rewrite Hs. apply invalidate_ok.
  - split; [by rewrite Hs|]. intros c v Hc Hv. right. by eapply I8.
  - rewrite I9. set_solver.
  - rewrite I10. set_solver.
Qed.

(** A pass of the server. *)
Lemma server_noted y frame : server_ok (Attachment.ledger (y_server y)) (name_of (y_server y)) (y_grid y) (y_rows y) (y_sent y) (y_fresh y) → frame_ok y frame →
  server_ok (Attachment.ledger (noted (y_server y) frame)) (name_of (y_server y)) (y_grid y) (Attachment.f_rows frame) (y_sent y) (y_fresh y).
Proof. intros Hs [F1 F2 F3 F4 F5]. by eapply server_damage. Qed.

Definition painted_name (a : Attachment.Attachment) (painted : Attachment.Painted) : Z * Z :=
  match painted with Attachment.Due => (Attachment.generation a, Fields.seq_next U64_MAX (Attachment.version a)) | Attachment.One => name_of a end.

Lemma server_painted y painted l F : paintable y painted → server_ok l (name_of (y_server y)) (y_grid y) F (y_sent y) (y_fresh y) →
  server_ok l (painted_name (y_server y) painted) (y_grid y) F (y_sent y) true.
Proof.
  intros Hp Hs. destruct painted; cbn [painted_name]; [|by rewrite <- Hp]. eapply server_number; [|exact Hs]. cbn [paintable] in Hp. unfold Fields.seq_next, sat_add. lia.
Qed.

Lemma server_stale l n grid F H fresh : server_ok l n grid F H true → server_ok l n grid F H fresh.
Proof. intros [S1 S2 S3 S4 S5 S6 S7 S8]. split; try done. intros S HS. destruct (S6 S HS) as [?|[? _]]; [by left|done]. Qed.

Lemma system_sent g0 y a S grid F fresh : system_ok g0 y → Attachment.generation a = Attachment.generation (y_server y) →
  server_ok (Attachment.ledger a) (name_of a) grid F (S :: y_sent y) fresh →
  system_ok g0 {| y_server := a; y_grid := grid; y_rows := F; y_sent := S :: y_sent y; y_fresh := fresh; y_client := y_client y; y_seen := y_seen y; y_acks := y_acks y |}.
Proof.
  intros [Y1 Y2 Y3 Y4 Y5 Y6] Hg Hs. split; cbn; try done; [by rewrite Hg| | | |].
  - eapply client_grows; [|done]. set_solver.
  - by apply names_grow.
  - set_solver.
  - intros n rows Hn. destruct (Y6 n rows Hn) as (S' & H1 & H2 & H3). exists S'. split; [by right|]. split; [done|]. intros G. apply H3. eapply good_less; [|exact G]. set_solver.
Qed.

Lemma system_served g0 y a grid F fresh : system_ok g0 y → g0 ≤ Attachment.generation a →
  server_ok (Attachment.ledger a) (name_of a) grid F (y_sent y) fresh →
  system_ok g0 {| y_server := a; y_grid := grid; y_rows := F; y_sent := y_sent y; y_fresh := fresh; y_client := y_client y; y_seen := y_seen y; y_acks := y_acks y |}.
Proof. intros [Y1 Y2 Y3 Y4 Y5 Y6] Hg Hs. by split. Qed.

(** A piece that reaches the client. *)
Lemma system_delivered g0 y S i p tr drawn : system_ok g0 y → S ∈ y_sent y → st_parts S !! i = Some p → (i = O → st_name S ∉ y_seen y) →
  system_ok g0 (delivered_to y S i (part (y_client y) p tr drawn)).
Proof.
  intros [Y1 Y2 Y3 Y4 Y5 Y6] HS Hp Hnew. pose proof (sv_history _ _ _ _ _ _ Y1) as HH. pose proof (part_ok (y_sent y) (y_seen y) (y_client y) S i p tr drawn Y3 HS Hp Hnew) as Hpart.
  pose proof (part_keeps (y_client y) p tr drawn) as Hk. destruct (part (y_client y) p tr drawn) as [r s']. destruct Hpart as [Hc Hack].
  destruct (piece_named S i p (sent_of (y_sent y) S HS) Hp) as [Hname _]. cbv zeta in Hk. cbn [snd] in Hk. destruct Hk as [K1 K2].
  { intros a hd Ha Hh. destruct Y3 as [_ Y3]. rewrite Ha, Hh in Y3. destruct Y3 as (_ & c & S' & _ & Ham). apply Ham. }
  assert (st_name S ∈ st_name <$> y_sent y) as Hin by (apply list_elem_of_fmap; by exists S).
  split; cbn; try done.
  - destruct Y4 as [N1 N2]. split.
    + intros a Ha. destruct (K1 a Ha) as [->|E]; [by rewrite Hname|by apply N1].
    + intros c v Ec Ev. destruct (trusted s') eqn:Et; [|rewrite K2 in Ec by done; by apply (N2 c)]. left.
      destruct Hc as [Hc _]. destruct (sk_version _ _ _ (Hc c Et Ec) v Ev) as (B & HB & <- & _). apply list_elem_of_fmap. by exists B.
  - destruct i; [|done]. cbn [delivered]. intros n Hn. apply elem_of_cons in Hn as [->|Hn]; [done|by apply Y5].
  - intros n rows Hn. apply elem_of_app in Hn as [Hn|Hn]; [|by apply Y6]. destruct r as [[x|]|]; cbn [report] in Hn; [|by apply elem_of_nil in Hn..].
    apply list_elem_of_singleton in Hn. injection Hn as -> ->. destruct (Hack x eq_refl) as (E1 & c & -> & _ & _ & _ & Hg). exists S. done.
Qed.

Lemma system_step g0 y y' : system_ok g0 y → step y y' → system_ok g0 y'.
Proof.
  intros Hy Hstep. pose proof Hy as [Y1 Y2 Y3 Y4 Y5 Y6].
  destruct Hstep as [painted header frame log offset lo now drained answer r a Hf Hp Hr
    |painted header frame log offset lo now drained answer r a c bud frames S Hf Hp Hh Hr Ht Hs
    |again g' grid rows Hg H1 H2 H3|a H1 H2 H3|n rows Hn|S i p tr drawn HS Hi Hnew| |bytes].
  - pose proof (server_noted y frame Y1 Hf) as Hs. apply repaint_shape in Hr as (_ & _ & Hr). destruct Hr as [[El En]|[El En]].
    + apply (system_served g0 y); [done|injection En; cbn; lia|]. cbn. by rewrite El, En.
    + apply (system_served g0 y); [done|destruct painted; injection En; cbn; lia|]. cbn. rewrite El, En. by apply server_withhold, server_stale, server_painted.
  - pose proof (server_noted y frame Y1 Hf) as Hn. apply repaint_shape in Hr as (N1 & N2 & L1 & L2). cbv zeta in Hs. apply (system_sent g0 y); [done|destruct painted; by injection L2|]. cbn. rewrite L1, L2.
    apply (server_painted y painted) in Hn; [|done]. by eapply server_send; [exact Hn|exact N1|congruence|exact Hs].
  - apply (system_served g0 y); [done| |].
    + unfold Attachment.restart, Attachment.regrid. destruct again, (bool_decide _); cbn; lia.
    + match goal with |- server_ok (Attachment.ledger ?a) (name_of ?a) _ _ _ _ =>
        assert (Attachment.ledger a = Ledger.release_in_flight (Ledger.invalidate (Attachment.ledger (y_server y)) (Fields.rows grid)) ∧ Attachment.generation a = g') as [-> Eg]
          by (unfold Attachment.restart, Attachment.regrid; by destruct again, (bool_decide _)) end.
      unfold name_of. rewrite Eg. apply server_regrid; try done; [apply Y1| |by apply grid_height].
      intros S HS. destruct (sv_last _ _ _ _ _ _ Y1 S HS) as [Ho|[_ ->]]; [unfold older, name_of in Ho; cbn [fst snd] in Ho|cbn]; lia.
  - apply (system_served g0 y); [done|by rewrite H2|]. unfold name_of in *. by rewrite H1, H2, H3.
  - apply (system_served g0 y); [done| |]; unfold Attachment.confirm; pose proof (server_confirm _ _ _ _ _ _ n.1 n.2 Y1) as Hc;
      destruct (Ledger.confirm _ _ _) as [taken l]; cbn [snd] in Hc; by destruct taken.
  - by apply system_delivered.
  - destruct Y4 as [N1 N2]. by split.
  - split; try done; [by apply observe_ok|]. by destruct bytes.
Qed.

Lemma system_reachable y0 y : initial y0 → rtc step y0 y → system_ok (Attachment.generation (y_server y0)) y.
Proof.
  intros Hi. apply system_initial in Hi. revert Hi. generalize (Attachment.generation (y_server y0)). intros g Hi Hr. induction Hr as [|y0 y1 y Hs _ IH]; [done|]. apply IH. by eapply system_step.
Qed.

(** ** What the ledger takes as confirmed, the client holds *)

Lemma pending_exact g0 y n rows : system_ok g0 y → (n, rows) ∈ y_acks y → Ledger.pending (Attachment.ledger (y_server y)) = Some n →
  rows = wire <$> Ledger.pending_rows (Attachment.ledger (y_server y)).
Proof.
  intros [Y1 _ _ _ _ Y6] Hn Hp. pose proof (sv_history _ _ _ _ _ _ Y1) as HH. destruct (sv_pending _ _ _ _ _ _ Y1 n Hp) as [I1 _ (S & H1 & H2 & H3 & H4) I4].
  destruct (Y6 n rows Hn) as (S' & H1' & H2' & H3'). assert (S' = S) as -> by (eapply same_sent; [exact HH|done|done|congruence]). rewrite <- H4. apply H3'. right.
  intros (X & b & HX & _ & E1 & E2). rewrite H2 in E1, E2. destruct (I4 X HX) as [E|Ho]; [rewrite E in E2; lia|]. unfold older in Ho. lia.
Qed.

(** C1: Client and server agree on what was confirmed.  Where every screen sent was cut exactly, with
    no more of it in chunks than a client holds (the steps send no other: after a lossy cut, or
    chunks the client dropped, an acknowledgement does not mean this), then however screens were
    superseded, cut into pieces, lost, reordered or left half assembled, and however late an
    acknowledgement comes: when the server takes it, the rows the client held as it sent it are the
    rows the server planned that screen from, so the next delta is computed against what the client
    really has; and they are the emulator's current rows wherever the ledger has seen no damage
    since. *)
Theorem acknowledged_screens_are_exact y0 y n rows :
  initial y0 ∧ rtc step y0 y ∧ (n, rows) ∈ y_acks y ∧ Ledger.pending (Attachment.ledger (y_server y)) = Some n →
  let l := Attachment.ledger (y_server y) in
  let l' := Attachment.ledger (Attachment.confirm (y_server y) n.1 n.2) in
  Ledger.confirmed l' = Some n ∧ rows = wire <$> Ledger.confirmed_rows l' ∧
  ∀ i, 0 ≤ i < len (y_rows y) → Mask.get (Ledger.damage l) i = false → rows !!! Z.to_nat i = wire (y_rows y !!! Z.to_nat i).
Proof.
  intros (Hi & Hr & Hn & Hp) l l'. pose proof (system_reachable y0 y Hi Hr) as Hy. pose proof (pending_exact _ y n rows Hy Hn Hp) as E. pose proof (sv_tracks _ _ _ _ _ _ (sy_server _ _ Hy)) as T.
  assert (Ledger.confirmed l' = Some n ∧ Ledger.confirmed_rows l' = Ledger.pending_rows l) as [E1 E2].
  { unfold l', Attachment.confirm, Ledger.confirm. fold l. destruct n as [g v]. by rewrite bool_decide_true. }
  rewrite E2. split; [done|]. split; [done|]. intros i Hin Hd. destruct (Ledger.tk_pending _ _ T n Hp) as [Hlen Hsame]. rewrite E, (Hsame i Hin Hd).
  apply list_lookup_total_fmap. lia.
Qed.

(** ** A client that asks gets the screen *)

Lemma not_past g0 H s n : client_names g0 H s → (∀ S, S ∈ H → older (st_name S) n) → g0 ≤ n.1 →
  superseded s n = false ∧ ∀ a, pending s = Some a → a_named a ≠ n.
Proof.
  intros [N1 N2] Ho Hg. assert (∀ a, pending s = Some a → older (a_named a) n) as Hp.
  { intros a Ha. apply N1, list_elem_of_fmap in Ha as (S & -> & HS). by apply Ho. }
  assert (∀ c v, confirmed s = Some c → cs_version c = Some v → older (cs_generation c, v) n) as Hc.
  { intros c v Ec Ev. destruct (N2 c v Ec Ev) as [Hin|Hlt]; [|left; cbn; lia]. apply list_elem_of_fmap in Hin as (S & -> & HS). by apply Ho. }
  unfold older in *. split; [|intros a Ha E; specialize (Hp a Ha); rewrite E in Hp; lia].
  unfold superseded, name_lt, name_le. apply orb_false_intro.
  - destruct (pending s) as [a|]; [|done]. specialize (Hp a eq_refl). rewrite orb_false_iff, andb_false_iff, !Z.ltb_ge, Z.eqb_neq. lia.
  - destruct (confirmed s) as [c|]; [|done]. destruct (cs_version c) as [v|] eqn:Ev; [|done]. specialize (Hc c v eq_refl Ev). cbn [fst snd] in *.
    rewrite orb_false_iff, andb_false_iff, Z.ltb_ge, Z.eqb_neq, Z.leb_gt. lia.
Qed.

(** A screen sent with nothing confirmed is a whole one. *)
Lemma sent_whole g0 y y' S : system_ok g0 y → step y y' → y_sent y' = S :: y_sent y →
  st_target S = wire <$> y_rows y' ∧ Ledger.pending (Attachment.ledger (y_server y')) = Some (st_name S) ∧
  Ledger.pending_rows (Attachment.ledger (y_server y')) = y_rows y' ∧
  (∀ S', S' ∈ y_sent y → older (st_name S') (st_name S)) ∧ y_client y' = y_client y ∧ y_seen y' = y_seen y ∧
  (st_name S).1 = Attachment.generation (y_server y) ∧
  (Ledger.confirmed (Attachment.ledger (y_server y)) = None → st_base S = None).
Proof.
  intros [Y1 _ _ _ _ _] Hstep. assert (∀ l : list sent, l = S :: l → False) as Hno by (intros l E; apply (f_equal length) in E; simpl in E; lia).
  destruct Hstep as [| painted header frame log offset lo now drained answer r a c bud frames X Hf Hp Hh Hr Ht Hs | | | | | |]; cbn; intros E; try (by apply Hno in E).
  injection E as ->. cbv zeta in Hs. pose proof (server_noted y frame Y1 Hf) as Hn. apply repaint_shape in Hr as (N1 & N2 & L1 & L2). apply (server_painted y painted) in Hn; [|done].
  destruct (server_send _ _ _ _ _ _ _ _ _ Hn N1 ltac:(congruence) Hs) as (_ & [_ Hlast _ _] & _). destruct (ships_screen _ _ _ _ _ _ Hs) as (E1 & _ & E3 & _).
  rewrite L1. set (h := header_for _ _ _ _ _ _) in *. pose proof (Ledger.plan_spec _ _ h (sv_tracks _ _ _ _ _ _ Hn)) as [_ P2 P3 _ _ _ P7].
  rewrite Forall_forall in Hlast. rewrite E1. split_and!; try done; [by rewrite E1 in Hlast|by destruct painted|].
  intros Hc. destruct Hs as [groups Ef _ _|]; [|done]. destruct (P7 Ef) as (Q & _). unfold noted, Ledger.note_damage in Q. revert Q. cbn. by rewrite Hc.
Qed.

(** The pieces of a screen sent with nothing confirmed, once they arrive. *)
Lemma fresh_arrives g0 y y' S tr order : system_ok g0 y → step y y' → y_sent y' = S :: y_sent y → Ledger.confirmed (Attachment.ledger (y_server y)) = None →
  order ≡ₚ seq 1 (length (st_parts S) - 1) →
  ∃ x s' c, deliver S tr (O :: order) (y_client y') = (Ok (Some x), s') ∧ (as_generation x, as_version x) = st_name S ∧
    confirmed s' = Some c ∧ cs_rows c = wire <$> y_rows y' ∧ (cs_generation c, cs_version c) = (as_generation x, Some (as_version x)) ∧
    Ledger.pending (Attachment.ledger (y_server y')) = Some (st_name S) ∧ Ledger.pending_rows (Attachment.ledger (y_server y')) = y_rows y' ∧
    (st_name S ∉ y_seen y') ∧ st_base S = None ∧ superseded (y_client y') (st_name S) = false.
Proof.
  intros Hy Hs Hsent Hnone Ho. pose proof (system_step _ y y' Hy Hs) as Hy'.
  destruct (sent_whole _ y y' S Hy Hs Hsent) as (T1 & T2 & T3 & T4 & T5 & T6 & T7 & T8). specialize (T8 Hnone).
  pose proof (sv_history _ _ _ _ _ _ (sy_server _ _ Hy')) as HH. destruct (not_past _ (y_sent y) (y_client y) (st_name S) (sy_names _ _ Hy) T4) as [P1 P2].
  { rewrite T7. apply Hy. }
  assert (st_name S ∉ y_seen y') as Hnew.
  { rewrite T6. intros Hin. apply (sy_seen _ _ Hy), list_elem_of_fmap in Hin as (S' & E & HS'). specialize (T4 S' HS'). rewrite E in T4. unfold older in T4. lia. }
  destruct (whole_arrives (y_sent y') (y_seen y') (y_client y') S tr order) as (x & s' & E & (A1 & c & A2 & A3 & A4 & _) & c' & A5 & A6); try done.
  - rewrite Hsent. by left.
  - apply Hy'.
  - by rewrite T5.
  - by rewrite T5.
  - exists x, s', c'. rewrite A5 in A2. injection A2 as <-. split_and!; try done; [by rewrite <- T1|by rewrite A3, A4|by rewrite T5].
Qed.

(** C9: A client that asks for the screen gets it.  While nothing is confirmed, as after a repaint was
    asked for or a resize, a screen that is sent is a whole one, it is not one the client is past,
    and if it was cut exactly and its chunks are no more than a client holds (the steps send no
    other: a lossy cut keeps less than the rows), then once its pieces arrive, the first one first
    and the others in any order, the client acknowledges that screen holding exactly the emulator's
    rows, and the server takes them as confirmed. *)
Theorem asked_screen_converges y0 y y' S tr order :
  initial y0 ∧ rtc step y0 y ∧ step y y' ∧ y_sent y' = S :: y_sent y ∧ Ledger.confirmed (Attachment.ledger (y_server y)) = None ∧
  order ≡ₚ seq 1 (length (st_parts S) - 1) →
  st_base S = None ∧ superseded (y_client y') (st_name S) = false ∧
  ∃ x s' c, deliver S tr (O :: order) (y_client y') = (Ok (Some x), s') ∧ (as_generation x, as_version x) = st_name S ∧
    confirmed s' = Some c ∧ cs_rows c = wire <$> y_rows y' ∧ (cs_generation c, cs_version c) = (as_generation x, Some (as_version x)) ∧
    let l := Attachment.ledger (Attachment.confirm (y_server y') (as_generation x) (as_version x)) in
    Ledger.confirmed l = Some (as_generation x, as_version x) ∧ Ledger.confirmed_rows l = y_rows y'.
Proof.
  intros (Hi & Hr & Hs & Hsent & Hnone & Ho). destruct (fresh_arrives _ y y' S tr order (system_reachable y0 y Hi Hr) Hs Hsent Hnone Ho) as (x & s' & c & E & A1 & A2 & A3 & A4 & A5 & A6 & _ & A8 & A9).
  split; [done|]. split; [done|]. exists x, s', c. split_and!; try done; unfold Attachment.confirm, Ledger.confirm; rewrite A5, <- A1, bool_decide_true by done; cbn; by rewrite A6.
Qed.

End system.

End Sync.
