(* ===== verification/Mailbox.v ===== *)
(** * The session's mailbox ([crates/server/src/mailbox.rs])

    Two bounded lanes under one lock, one receiver, any number of senders, and a condition variable
    for each side that can wait.  An event's contents are an argument: the mailbox reads only which
    event it is.

    What happens under the lock is one definition; a thread's states are the places at which it does
    not hold the lock, so that the others run between any two of its steps.  In particular a thread
    that has changed the lanes has still to notify ([Notifying], [Leaving], [Freed], [Closing]), and
    one that waits ([Parked], [Waiting]) may be woken for no reason, as the library allows.  A handle
    makes one call at a time. *)

From S2P Require Import Prelude.

Module Mailbox.

Definition CONTROL_LANE : Z := 256.
Definition OUTPUT_LANE : Z := 32.

Section Contents.
Context {A : Type}.

Inductive ActorEvent :=
| Attach (a : A) | Command (a : A) | Detached (a : A) | PtyOutput (a : A) | PtyEnded | Kill (a : A) | Search (a : A)
| ForwardConnected (a : A) | ForwardBytes (a : A) | ForwardEof (a : A).

Definition is_bulk (e : ActorEvent) : bool :=
  match e with PtyOutput _ | PtyEnded | ForwardConnected _ | ForwardBytes _ | ForwardEof _ => true | _ => false end.

Inductive Lane := Control | Output.
#[export] Instance Lane_dec : EqDecision Lane.
Proof. solve_decision. Defined.
Definition lane (e : ActorEvent) : Lane := if is_bulk e then Output else Control.

Record MailboxState := mkState { control : list ActorEvent; output : list ActorEvent; senders : Z; closed : bool }.
#[export] Instance MailboxState_settable : Settable MailboxState := λ s, mkState (control s) (output s) (senders s) (closed s).
Definition mailbox : MailboxState := {| control := []; output := []; senders := 1; closed := false |}.

Definition has_room (s : MailboxState) (e : ActorEvent) : bool :=
  match e with
  | PtyEnded => true
  | Kill _ => len (control s) <? CONTROL_LANE + 1
  | e => if is_bulk e then len (output s) <? OUTPUT_LANE else len (control s) <? CONTROL_LANE
  end.
Definition push (s : MailboxState) (e : ActorEvent) : MailboxState :=
  match lane e with
  | Output => s <| output := output s ++ [e] |>
  | Control => s <| control := control s ++ [e] |>
  end.
Definition take (s : MailboxState) : option (ActorEvent * Lane) * MailboxState :=
  match control s with
  | e :: rest => (Some (e, Control), s <| control := rest |>)
  | [] => match output s with
          | e :: rest => (Some (e, Output), s <| output := rest |>)
          | [] => (None, s)
          end
  end.
Definition full (s : MailboxState) (l : Lane) : bool :=
  match l with Control => CONTROL_LANE <=? len (control s) | Output => OUTPUT_LANE <=? len (output s) end.

(** ** Senders *)

(** [send], [send_timeout] with its deadline, [try_send]. *)
Inductive Mode := Block | Until (deadline : Instant) | Try.
Inductive Outcome := Sent | TryFull | Closed.
Inductive Sender :=
| Idle (last : option Outcome) | Sending (e : ActorEvent) (m : Mode) | Parked (e : ActorEvent) (m : Mode) | Notifying | Leaving | Dropped.

(** A turn of a call's loop, with the lock: what the caller does next. *)
Definition send_turn (s : MailboxState) (e : ActorEvent) (m : Mode) (now : Instant) : Sender * MailboxState :=
  if closed s then (Idle (Some Closed), s)
  else if has_room s e then (Notifying, push s e)
  else (match m with
        | Block => Parked e m
        | Until deadline => if now <=? deadline then Parked e m else Idle (Some TryFull)
        | Try => Idle (Some TryFull)
        end, s).
Definition clone_sender (s : MailboxState) : MailboxState := s <| senders := senders s + 1 |>.
Definition drop_sender (s : MailboxState) : Sender * MailboxState :=
  let s := s <| senders := senders s - 1 |> in (if senders s =? 0 then Leaving else Dropped, s).

(** ** The receiver *)

Inductive NoEvent := Timeout | Disconnected.
Inductive Receiver :=
| Outside (last : option (result ActorEvent NoEvent)) | Asking (deadline : Instant) | Waiting (deadline : Instant)
| Freed (l : Lane) (e : ActorEvent) | Closing (l : Lane) | Gone.

(** A turn of [recv_timeout]'s loop, with the lock. *)
Definition recv_turn (s : MailboxState) (deadline now : Instant) : Receiver * MailboxState :=
  let control_full := full s Control in
  let output_full := full s Output in
  match take s with
  | (Some (e, popped), s) =>
      let freed := match popped with Control => control_full | Output => output_full end in
      (if freed then Freed popped e else Outside (Some (Ok e)), s)
  | (None, s) =>
      if senders s =? 0 then (Outside (Some (Err Disconnected)), s)
      else if now <=? deadline then (Waiting deadline, s) else (Outside (Some (Err Timeout)), s)
  end.
Definition drop_receiver (s : MailboxState) : MailboxState := s <| closed := true |>.

(** ** Everyone together *)

(** [pushed] and [received] are what went in and what came out, in order. *)
Record System := mkSystem { box : MailboxState; handles : list Sender; receiver : Receiver; pushed : list ActorEvent; received : list ActorEvent }.
#[export] Instance System_settable : Settable System := λ s, mkSystem (box s) (handles s) (receiver s) (pushed s) (received s).
Definition system : System := {| box := mailbox; handles := [Idle None]; receiver := Outside None; pushed := []; received := [] |}.

(** Woken if it waits on this lane's room. *)
Definition waits_on (l : Lane) (h : Sender) : bool := match h with Parked e _ => bool_decide (lane e = l) | _ => false end.
Definition wake (h : Sender) : Sender := match h with Parked e m => Sending e m | _ => h end.
Definition notify_all (l : Lane) (hs : list Sender) : list Sender := (λ h, if waits_on l h then wake h else h) <$> hs.
(** The library wakes any one that waits, if one does: [pick] if that one waits, else the first. *)
Fixpoint notify_first (l : Lane) (hs : list Sender) : list Sender :=
  match hs with [] => [] | h :: hs => if waits_on l h then wake h :: hs else h :: notify_first l hs end.
Definition notify_one (l : Lane) (pick : nat) (hs : list Sender) : list Sender :=
  match hs !! pick with
  | Some h => if waits_on l h then <[pick := wake h]> hs else notify_first l hs
  | None => notify_first l hs
  end.
Definition arrived (r : Receiver) : Receiver := match r with Waiting d => Asking d | r => r end.

Inductive Step :=
| SClone (i : nat) | SDrop (i : nat) | SCall (i : nat) (e : ActorEvent) (m : Mode) | STurn (i : nat) (now : Instant) | SNotify (i : nat) | SWake (i : nat)
| RCall (deadline : Instant) | RTurn (now : Instant) | RNotify (pick : nat) | RWake | RDrop.

Definition step (s : System) (x : Step) : System :=
  let at_ i := handles s !! i in
  let put i h := <[i := h]> (handles s) in
  match x with
  | SClone i =>
      match at_ i with
      | Some (Idle _) => s <| box := clone_sender (box s) |> <| handles := handles s ++ [Idle None] |>
      | _ => s
      end
  | SDrop i =>
      match at_ i with
      | Some (Idle _) => let '(h, b) := drop_sender (box s) in s <| box := b |> <| handles := put i h |>
      | _ => s
      end
  | SCall i e m => match at_ i with Some (Idle _) => s <| handles := put i (Sending e m) |> | _ => s end
  | STurn i now =>
      match at_ i with
      | Some (Sending e m) =>
          let '(h, b) := send_turn (box s) e m now in
          s <| box := b |> <| handles := put i h |> <| pushed := match h with Notifying => pushed s ++ [e] | _ => pushed s end |>
      | _ => s
      end
  | SNotify i =>
      match at_ i with
      | Some Notifying => s <| handles := put i (Idle (Some Sent)) |> <| receiver := arrived (receiver s) |>
      | Some Leaving => s <| handles := put i Dropped |> <| receiver := arrived (receiver s) |>
      | _ => s
      end
  | SWake i => match at_ i with Some h => s <| handles := put i (wake h) |> | None => s end
  | RCall deadline => match receiver s with Outside _ => s <| receiver := Asking deadline |> | _ => s end
  | RTurn now =>
      match receiver s with
      | Asking deadline =>
          let '(r, b) := recv_turn (box s) deadline now in
          s <| box := b |> <| receiver := r |> <| received := match r with Freed _ e | Outside (Some (Ok e)) => received s ++ [e] | _ => received s end |>
      | _ => s
      end
  | RNotify pick =>
      match receiver s with
      | Freed Output e => s <| handles := notify_one Output pick (handles s) |> <| receiver := Outside (Some (Ok e)) |>
      | Freed Control e => s <| handles := notify_all Control (handles s) |> <| receiver := Outside (Some (Ok e)) |>
      | Closing Control => s <| handles := notify_all Control (handles s) |> <| receiver := Closing Output |>
      | Closing Output => s <| handles := notify_all Output (handles s) |> <| receiver := Gone |>
      | _ => s
      end
  | RWake => s <| receiver := arrived (receiver s) |>
  | RDrop => match receiver s with Outside _ => s <| box := drop_receiver (box s) |> <| receiver := Closing Control |> | _ => s end
  end.
Definition run (xs : list Step) : System := foldl step system xs.


(** ** What goes in comes out *)

Definition on (l : Lane) (es : list ActorEvent) : list ActorEvent := filter (λ e, lane e = l) es.
Definition lane_of (s : MailboxState) (l : Lane) : list ActorEvent := match l with Control => control s | Output => output s end.

Definition is_ended (e : ActorEvent) : bool := match e with PtyEnded => true | _ => false end.

Record lanes_ok (s : System) : Prop := {
  lk_order : ∀ l, on l (pushed s) = on l (received s) ++ lane_of (box s) l;
  lk_lanes : ∀ l, Forall (λ e, lane e = l) (lane_of (box s) l);
  lk_control : len (control (box s)) ≤ CONTROL_LANE + 1;
  lk_output : len (filter (λ e, is_ended e = false) (output (box s))) ≤ OUTPUT_LANE
}.

Lemma on_app l es es' : on l (es ++ es') = on l es ++ on l es'.
Proof. apply filter_app. Qed.
Lemma on_one l e : on l [e] = if decide (lane e = l) then [e] else [].
Proof. unfold on. rewrite filter_cons, filter_nil. done. Qed.
Lemma push_lane s e l : lane_of (push s e) l = lane_of s l ++ on l [e].
Proof. rewrite on_one. unfold push. destruct (lane e), l; cbn; by rewrite ?app_nil_r. Qed.
Lemma push_rest s e : senders (push s e) = senders s ∧ closed (push s e) = closed s.
Proof. unfold push. by destruct (lane e). Qed.

Lemma mailbox_take_spec s : match take s with
  | (Some (e, l), s') => (∀ l', lane_of s l' = (if decide (l = l') then [e] else []) ++ lane_of s' l') ∧ (l = Output → control s = []) ∧ senders s' = senders s ∧ closed s' = closed s
  | (None, s') => s' = s ∧ control s = [] ∧ output s = []
  end.
Proof. unfold take. destruct (control s) as [|e c] eqn:Ec; [destruct (output s) as [|e o] eqn:Eo; [done|]|]; split_and!; try done; by intros []; cbn; rewrite ?Ec, ?Eo. Qed.

Lemma full_has_room s e : has_room s e = false → full s (lane e) = true.
Proof. unfold has_room, lane, full. destruct e; cbn; intros H; zbool; try apply Z.leb_le; try done; lia. Qed.

Lemma push_bounds s e : len (control s) ≤ CONTROL_LANE + 1 → len (filter (λ e, is_ended e = false) (output s)) ≤ OUTPUT_LANE → has_room s e = true →
  len (control (push s e)) ≤ CONTROL_LANE + 1 ∧ len (filter (λ e, is_ended e = false) (output (push s e))) ≤ OUTPUT_LANE.
Proof.
  intros Hc Ho Hr. unfold push. destruct (lane e) eqn:El; cbn.
  - split; [|done]. rewrite length_app. cbn [length]. destruct e; cbn in Hr, El; zbool; try done; lia.
  - split; [done|]. rewrite filter_app, filter_cons, filter_nil, length_app. pose proof (length_filter (λ e, is_ended e = false) (output s)).
    case_decide as He; [|cbn [length]; lia]. cbn [length]. assert (len (output s) < OUTPUT_LANE) by (destruct e; cbn in Hr, El, He; try done; by zbool). lia.
Qed.

Lemma send_turn_spec s e m now : let '(h, s') := send_turn s e m now in
  match h with
  | Notifying => closed s = false ∧ has_room s e = true ∧ s' = push s e
  | Parked e' m' => e' = e ∧ m' = m ∧ closed s = false ∧ has_room s e = false ∧ s' = s
  | Idle (Some Closed) => closed s = true ∧ s' = s
  | Idle (Some TryFull) => closed s = false ∧ has_room s e = false ∧ s' = s
  | _ => False
  end.
Proof. unfold send_turn. destruct (closed s); [done|]. destruct (has_room s e); [done|]. destruct m as [|d|]; [done| |done]. by destruct (now <=? d). Qed.

Lemma lanes_ok_ext s s' : lanes_ok s → control (box s') = control (box s) → output (box s') = output (box s) → pushed s' = pushed s → received s' = received s → lanes_ok s'.
Proof. intros [] E1 E2 E3 E4. split; rewrite ?E1, ?E2, ?E3, ?E4; try done; intros []; cbn; rewrite ?E1, ?E2; [apply (lk_order0 Control)|apply (lk_order0 Output)|apply (lk_lanes0 Control)|apply (lk_lanes0 Output)]. Qed.

Lemma lanes_push s s' e : lanes_ok s → has_room (box s) e = true → box s' = push (box s) e → pushed s' = pushed s ++ [e] → received s' = received s → lanes_ok s'.
Proof.
  intros [H1 H2 H3 H4] Hr Eb Ep Ere. destruct (push_bounds (box s) e H3 H4 Hr) as [B1 B2]. split; rewrite ?Eb, ?Ep, ?Ere; try done; intros l; rewrite push_lane.
  - by rewrite on_app, H1, app_assoc.
  - apply Forall_app. split; [done|]. rewrite on_one. by case_decide; [apply Forall_singleton|].
Qed.

Lemma lanes_take s s' e l b : lanes_ok s → take (box s) = (Some (e, l), b) → box s' = b → pushed s' = pushed s → received s' = received s ++ [e] → lanes_ok s'.
Proof.
  intros [H1 H2 H3 H4] Ht Eb Ep Er. pose proof (mailbox_take_spec (box s)) as T. rewrite Ht in T. destruct T as (T1 & _). assert (lane e = l) as El.
  { specialize (H2 l). rewrite T1, decide_True in H2 by done. by apply Forall_cons in H2 as [? _]. }
  split; rewrite ?Eb, ?Ep, ?Er.
  - intros l'. rewrite on_app, H1, T1, on_one, <- app_assoc. by rewrite El.
  - intros l'. specialize (H2 l'). rewrite T1 in H2. by apply Forall_app in H2 as [_ ?].
  - specialize (T1 Control). cbn in T1. rewrite T1, length_app in H3. lia.
  - specialize (T1 Output). cbn in T1. rewrite T1, filter_app, length_app in H4. lia.
Qed.

Lemma lanes_step s x : lanes_ok s → lanes_ok (step s x).
Proof.
  intros H. destruct x as [i|i|i e m|i now|i|i|d|now|pick| |]; cbn [step].
  - destruct (handles s !! i) as [[]|]; try done. by eapply lanes_ok_ext.
  - destruct (handles s !! i) as [[]|]; try done. by eapply lanes_ok_ext.
  - destruct (handles s !! i) as [[]|]; try done. by eapply lanes_ok_ext.
  - destruct (handles s !! i) as [[]|]; try done. pose proof (send_turn_spec (box s) e m now) as T. destruct (send_turn (box s) e m now) as [h b].
    destruct h as [[[]|]| | | | |]; try done.
    + destruct T as (_ & _ & ->). by eapply lanes_ok_ext.
    + destruct T as (_ & ->). by eapply lanes_ok_ext.
    + destruct T as (_ & _ & _ & _ & ->). by eapply lanes_ok_ext.
    + destruct T as (_ & Hr & ->). by eapply lanes_push.
  - destruct (handles s !! i) as [[]|]; try done; by eapply lanes_ok_ext.
  - destruct (handles s !! i) as [|]; try done; by eapply lanes_ok_ext.
  - destruct (receiver s); try done; by eapply lanes_ok_ext.
  - destruct (receiver s); try done. unfold recv_turn. destruct (take (box s)) as [[[e l]|] b] eqn:Et.
    + destruct l; [destruct (full (box s) Control)|destruct (full (box s) Output)]; by eapply lanes_take.
    + pose proof (mailbox_take_spec (box s)) as T. rewrite Et in T. destruct T as (-> & _). destruct (_ =? 0); [|destruct (now <=? deadline)]; by eapply lanes_ok_ext.
  - destruct (receiver s) as [| | |[]|[]|]; try done; by eapply lanes_ok_ext.
  - by eapply lanes_ok_ext.
  - destruct (receiver s); try done; by eapply lanes_ok_ext.
Qed.

Lemma lanes_run xs : lanes_ok (run xs).
Proof. unfold run. induction xs as [|x xs IH] using rev_ind; [split; cbn; try done; by intros []|]. rewrite foldl_app. by apply lanes_step. Qed.

(** ** Nobody sleeps through a wake-up *)

Definition alive (h : Sender) : bool := match h with Leaving | Dropped => false | _ => true end.
(** A notification of those who wait on [l] is still to come. *)
Definition coming (l : Lane) (r : Receiver) : Prop :=
  match r with Freed l' _ => l' = l | Closing Control => True | Closing Output => l = Output | _ => False end.
Definition awake (l : Lane) (s : System) : Prop :=
  ∀ i e m, handles s !! i = Some (Parked e m) → lane e = l → coming l (receiver s) ∨ closed (box s) = false ∧ has_room (box s) e = false.

Record counts_ok (s : System) : Prop := {
  ck_senders : senders (box s) = len (filter (λ h, alive h = true) (handles s));
  ck_closed : closed (box s) = match receiver s with Closing _ | Gone => true | _ => false end;
  ck_waiting : ∀ d, receiver s = Waiting d → control (box s) = [] ∧ output (box s) = [] ∧ senders (box s) ≠ 0 ∨
    ∃ i, handles s !! i = Some Notifying ∨ handles s !! i = Some Leaving
}.

Lemma alive_put hs i h h' : hs !! i = Some h → len (filter (λ h, alive h = true) (<[i := h']> hs)) =
  len (filter (λ h, alive h = true) hs) - (if alive h then 1 else 0) + (if alive h' then 1 else 0).
Proof.
  intros Hi. pose proof (lookup_lt_Some _ _ _ Hi) as Hl. rewrite (insert_take_drop _ _ _ Hl).
  assert (filter (λ h, alive h = true) hs = filter (λ h, alive h = true) (list.take i hs ++ h :: drop (S i) hs)) as -> by (by rewrite take_drop_middle).
  rewrite !filter_app, !filter_cons, !length_app. cbv beta. destruct (alive h) eqn:E1, (alive h') eqn:E2; repeat case_decide; try congruence; cbn [length]; lia.
Qed.

Lemma notify_all_lookup l hs i : notify_all l hs !! i = (λ h, if waits_on l h then wake h else h) <$> hs !! i.
Proof. apply list_lookup_fmap. Qed.
Lemma notify_first_lookup l hs i h : notify_first l hs !! i = Some h → ∃ h0, hs !! i = Some h0 ∧ (h = h0 ∨ waits_on l h0 = true ∧ h = wake h0).
Proof.
  revert i. induction hs as [|h1 hs IH]; intros i Hi; [done|]. cbn [notify_first] in Hi. destruct (waits_on l h1) eqn:E; destruct i as [|i]; cbn in Hi |- *.
  - injection Hi as <-. exists h1. auto.
  - exists h. auto.
  - injection Hi as <-. exists h1. auto.
  - by apply IH.
Qed.
Lemma notify_one_lookup l pick hs i h : notify_one l pick hs !! i = Some h → ∃ h0, hs !! i = Some h0 ∧ (h = h0 ∨ waits_on l h0 = true ∧ h = wake h0).
Proof.
  unfold notify_one. destruct (hs !! pick) as [h1|] eqn:E; [|apply notify_first_lookup]. destruct (waits_on l h1) eqn:Ew; [|apply notify_first_lookup].
  intros H. destruct (decide (i = pick)) as [->|Hne]; [|rewrite list_lookup_insert_ne in H by done; by exists h; auto].
  rewrite list_lookup_insert_eq in H by (by eapply lookup_lt_Some). injection H as <-. exists h1. auto.
Qed.

(** One that waits alone is the one that is woken. *)
Lemma notify_one_sole l pick hs i0 : (∀ i h, hs !! i = Some h → waits_on l h = true → i = i0) → ∀ i h, notify_one l pick hs !! i = Some h → waits_on l h = false.
Proof.
  intros Hs i h. assert (∀ h, waits_on l (wake h) = false) as Hw by (by intros []). unfold notify_one. destruct (hs !! pick) as [h1|] eqn:E.
  1: destruct (waits_on l h1) eqn:Ew.
  { intros H. destruct (decide (i = pick)) as [->|Hne]; [rewrite list_lookup_insert_eq in H by (by eapply lookup_lt_Some); injection H as <-; apply Hw|].
    rewrite list_lookup_insert_ne in H by done. destruct (waits_on l h) eqn:Eh; [|done]. pose proof (Hs _ _ E Ew). pose proof (Hs _ _ H Eh). congruence. }
  all: clear E pick; try clear Ew h1; revert i i0 Hs; induction hs as [|h1 hs IH]; intros i i0 Hs H; [done|]; cbn [notify_first] in H; destruct (waits_on l h1) eqn:E1; destruct i as [|i]; cbn in H;
    [injection H as <-; apply Hw|destruct (waits_on l h) eqn:Eh; [|done]; pose proof (Hs O h1 eq_refl E1); pose proof (Hs (S i) h H Eh); congruence|by injection H as <-|].
  all: apply (IH i (pred i0)); [|done]; intros j h' Hj Hw'; pose proof (Hs (S j) h' Hj Hw'); lia.
Qed.

Lemma alive_wake h : alive (wake h) = alive h.
Proof. by destruct h. Qed.
Lemma alive_all l hs : len (filter (λ h, alive h = true) (notify_all l hs)) = len (filter (λ h, alive h = true) hs).
Proof.
  induction hs as [|h hs IH]; [done|]. unfold notify_all in *. rewrite fmap_cons, !filter_cons. assert (alive (if waits_on l h then wake h else h) = alive h) as E by (destruct (waits_on l h); [apply alive_wake|done]).
  repeat case_decide; try congruence; cbn [length]; lia.
Qed.
Lemma alive_first l hs : len (filter (λ h, alive h = true) (notify_first l hs)) = len (filter (λ h, alive h = true) hs).
Proof.
  induction hs as [|h hs IH]; [done|]. cbn [notify_first]. pose proof (alive_wake h). destruct (waits_on l h); rewrite !filter_cons; repeat case_decide; try congruence; cbn [length]; lia.
Qed.
Lemma alive_one l pick hs : len (filter (λ h, alive h = true) (notify_one l pick hs)) = len (filter (λ h, alive h = true) hs).
Proof.
  unfold notify_one. destruct (hs !! pick) as [h|] eqn:E; [|apply alive_first]. destruct (waits_on l h); [|apply alive_first]. rewrite (alive_put _ _ _ _ E), alive_wake. lia.
Qed.

(** The receiver still has a notification coming when a handle that owed none changes. *)
Lemma put_owed (hs : list Sender) (i : nat) (h h' : Sender) : hs !! i = Some h → h ≠ Notifying → h ≠ Leaving → (∃ j, hs !! j = Some Notifying ∨ hs !! j = Some Leaving) →
  ∃ j, <[i := h']> hs !! j = Some Notifying ∨ <[i := h']> hs !! j = Some Leaving.
Proof. intros Hi H1 H2 [j Hj]. exists j. assert (i ≠ j) by (intros ->; rewrite Hi in Hj; naive_solver). by rewrite list_lookup_insert_ne. Qed.

Lemma counts_step s x : counts_ok s → counts_ok (step s x).
Proof.
  intros H. pose proof H as [H1 H2 H3]. destruct x as [i|i|i e m|i now|i|i|d|now|pick| |]; cbn [step].
  - destruct (handles s !! i) as [[]|] eqn:Ei; try done. split; cbn; [by rewrite filter_app, length_app, Nat2Z.inj_add, H1|done|]. intros d Hd. destruct (H3 d Hd) as [(? & ? & ?)|[j Hj]]; [left; split_and!; try done; lia|].
    right. exists j. destruct Hj as [Hj|Hj]; rewrite (lookup_app_l_Some _ _ _ _ Hj); auto.
  - destruct (handles s !! i) as [[]|] eqn:Ei; try done. unfold drop_sender. destruct (Z.eqb_spec (senders ((box s) <| senders := senders (box s) - 1 |>)) 0) as [E|E]; cbn in E; split; cbn; try done.
    + rewrite (alive_put _ _ _ _ Ei), H1. cbn. lia.
    + intros d Hd. right. exists i. right. apply list_lookup_insert_eq. by eapply lookup_lt_Some.
    + rewrite (alive_put _ _ _ _ Ei), H1. cbn. lia.
    + intros d Hd. destruct (H3 d Hd) as [(? & ? & ?)|Hj]; [by left|]. right. by eapply put_owed.
  - destruct (handles s !! i) as [[]|] eqn:Ei; try done. split; cbn; [rewrite (alive_put _ _ _ _ Ei), H1; cbn; lia|done|].
    intros d Hd. destruct (H3 d Hd) as [?|Hj]; [by left|]. right. by eapply put_owed.
  - destruct (handles s !! i) as [[]|] eqn:Ei; try done. pose proof (send_turn_spec (box s) e m now) as T. destruct (send_turn (box s) e m now) as [h b].
    assert (senders b = senders (box s) ∧ closed b = closed (box s) ∧ alive h = true ∧ (h = Notifying ∨ b = box s)) as (T1 & T2 & T3 & T4).
    { pose proof (push_rest (box s) e). destruct h as [[[]|]| | | | |]; try done; naive_solver. }
    split; cbn; [rewrite T1, (alive_put _ _ _ _ Ei), H1, T3; cbn; lia|congruence|]. intros d Hd. destruct T4 as [->| ->].
    + right. exists i. left. apply list_lookup_insert_eq. by eapply lookup_lt_Some.
    + destruct (H3 d Hd) as [?|Hj]; [by left|]. right. by eapply put_owed.
  - destruct (handles s !! i) as [[]|] eqn:Ei; try done; (split; cbn; [rewrite (alive_put _ _ _ _ Ei), H1; cbn; lia|by destruct (receiver s)|by intros d Hd; destruct (receiver s)]).
  - destruct (handles s !! i) as [h|] eqn:Ei; [|done]. split; cbn; [rewrite (alive_put _ _ _ _ Ei), alive_wake, H1; lia|done|]. intros d Hd. destruct (H3 d Hd) as [?|[j Hj]]; [by left|]. right. exists j.
    destruct (decide (i = j)) as [->|Hne]; [|by rewrite list_lookup_insert_ne]. rewrite list_lookup_insert_eq by (by eapply lookup_lt_Some). rewrite Ei in Hj. by destruct Hj as [[= ->]|[= ->]]; auto.
  - destruct (receiver s); try done; by split.
  - destruct (receiver s) eqn:Er; try done. unfold recv_turn. pose proof (mailbox_take_spec (box s)) as T. destruct (take (box s)) as [[[e l]|] b].
    + destruct T as (_ & _ & T1 & T2). destruct l; [destruct (full (box s) Control)|destruct (full (box s) Output)]; split; cbn; try done; congruence.
    + destruct T as (-> & T1 & T2). destruct (Z.eqb_spec (senders (box s)) 0); [|destruct (now <=? deadline)]; split; cbn; try done; auto.
  - destruct (receiver s) as [| | |[] e|[]|] eqn:Er; try done; split; cbn; rewrite ?alive_all, ?alive_one; done.
  - split; cbn; [done|by destruct (receiver s)|by intros d; destruct (receiver s)].
  - destruct (receiver s); try done; by split.
Qed.

Lemma counts_run xs : counts_ok (run xs).
Proof. unfold run. induction xs as [|x xs IH] using rev_ind; [done|]. rewrite foldl_app. by apply counts_step. Qed.

Lemma room_shrinks s x e : has_room s e = false → has_room (push s x) e = false.
Proof.
  assert (len (control s) ≤ len (control (push s x)) ∧ len (output s) ≤ len (output (push s x))) as [H1 H2] by (unfold push; destruct (lane x); cbn; rewrite ?length_app; split; lia).
  destruct e; cbn; intros H; try done; zbool; apply Z.ltb_ge; lia.
Qed.

Lemma awake_keep l s s' : awake l s → closed (box s') = closed (box s) → (∀ e, lane e = l → has_room (box s) e = false → has_room (box s') e = false) → (coming l (receiver s) → coming l (receiver s')) →
  (∀ i e m, handles s' !! i = Some (Parked e m) → lane e = l → handles s !! i = Some (Parked e m) ∨ closed (box s') = false ∧ has_room (box s') e = false) → awake l s'.
Proof. intros H Hc Hr Hcm Hp i e m Hi He. destruct (Hp i e m Hi He) as [Hold|?]; [|by right]. destruct (H i e m Hold He) as [?|[? ?]]; [left; auto|right; split; [congruence|auto]]. Qed.

Lemma parked_put (hs : list Sender) i h j e m : (∀ e m, h ≠ Parked e m) → <[i := h]> hs !! j = Some (Parked e m) → hs !! j = Some (Parked e m).
Proof. intros Hh Hj. apply list_lookup_insert_Some in Hj as [(_ & E & _)|[_ ?]]; [by destruct (Hh e m)|done]. Qed.

Lemma coming_arrived l r : coming l r → coming l (arrived r).
Proof. by destruct r. Qed.

(** The steps that only a lane's own senders see. *)
Lemma awake_most l s x : counts_ok s → awake l s → (∀ e pick, x = RNotify pick → receiver s = Freed Output e → l = Control) → awake l (step s x).
Proof.
  intros Hs H Hone. destruct x as [i|i|i e m|i now|i|i|d|now|pick| |]; cbn [step].
  - destruct (handles s !! i) as [[]|] eqn:Ei; try done. eapply awake_keep; [exact H|done|done|done|]. intros j e m Hj _. left. cbn in Hj. apply lookup_app_Some in Hj as [?|[_ Hj]]; [done|]. by apply list_lookup_singleton_Some in Hj as [_ ?].
  - destruct (handles s !! i) as [[]|] eqn:Ei; try done. eapply awake_keep; [exact H|done|by intros []|done|]. intros j e m Hj _. left. cbn in Hj. eapply parked_put; [|exact Hj]. intros e' m'. by destruct (_ =? 0).
  - destruct (handles s !! i) as [[]|] eqn:Ei; try done. eapply awake_keep; [exact H|done|done|done|]. intros j e' m' Hj _. left. cbn in Hj. by apply parked_put in Hj.
  - destruct (handles s !! i) as [[]|] eqn:Ei; try done. pose proof (send_turn_spec (box s) e m now) as T. destruct (send_turn (box s) e m now) as [h b]. pose proof (push_rest (box s) e) as [_ P].
    eapply awake_keep; [exact H|cbn; destruct h as [[[]|]| | | | |]; naive_solver| |done|].
    + intros e' _ Hr. cbn. destruct h as [[[]|]| | | | |]; try done; destruct_and? T; subst b; try done. by apply room_shrinks.
    + cbn. intros j e' m' Hj _. apply list_lookup_insert_Some in Hj as [(_ & -> & _)|[_ ?]]; [|by left]. destruct T as (-> & -> & ? & ? & ->). by right.
  - destruct (handles s !! i) as [[]|] eqn:Ei; try done; (eapply awake_keep; [exact H|done|done|apply coming_arrived|]; intros j e' m' Hj _; left; cbn in Hj; by apply parked_put in Hj).
  - destruct (handles s !! i) as [h|] eqn:Ei; [|done]. eapply awake_keep; [exact H|done|done|done|]. intros j e m Hj _. left. cbn in Hj. apply parked_put in Hj; [done|]. by destruct h.
  - destruct (receiver s) eqn:Er; try done. eapply awake_keep; [exact H|done|done|by rewrite Er|by left].
  - destruct (receiver s) eqn:Er; try done. pose proof (mailbox_take_spec (box s)) as T. unfold recv_turn. destruct (take (box s)) as [[[e l']|] b].
    + destruct T as (T1 & _ & _ & T2). destruct (decide (l' = l)) as [->|Hne].
      * destruct (full (box s) l) eqn:Ef.
        -- destruct l; rewrite Ef; intros i e' m' Hi He; by left.
        -- intros i e' m' Hi He. exfalso. destruct (H i e' m' Hi He) as [Hc|[_ Hr]]; [by rewrite Er in Hc|]. apply full_has_room in Hr. congruence.
      * intros i e' m' Hi He. destruct (H i e' m' Hi He) as [Hc|[Hcl Hr]]; [by rewrite Er in Hc|]. right. cbn. split; [congruence|].
        specialize (T1 l). rewrite decide_False in T1 by done. assert (∀ k, len (lane_of (box s) l) = len (lane_of b l) → k = has_room (box s) e' → has_room b e' = k) as Hsame; [|eapply Hsame; [by rewrite T1|done]].
        intros k Hlen ->. clear -Hlen He. destruct e', l; cbn in *; try done; by rewrite Hlen.
    + destruct T as (-> & _). destruct (_ =? 0); [|destruct (now <=? deadline)]; (eapply awake_keep; [exact H|done|done|by rewrite Er|by left]).
  - destruct (receiver s) as [| | |[] e|[]|] eqn:Er; try done.
    + intros i e' m' Hi He. cbn in Hi. rewrite notify_all_lookup in Hi. destruct (handles s !! i) as [h|] eqn:Eh; [|done]. injection Hi as Hi. destruct l.
      * exfalso. destruct (waits_on Control h) eqn:Ew; [by destruct h|]. subst h. cbn in Ew. by rewrite bool_decide_eq_true_2 in Ew.
      * destruct (waits_on Control h) eqn:Ew; [by destruct h|]. subst h. destruct (H i e' m' Eh He) as [Hc|?]; [by rewrite Er in Hc|by right].
    + rewrite (Hone e pick) in * by done. intros i e' m' Hi He. cbn in Hi. apply notify_one_lookup in Hi as (h & Hh & Hi). assert (h = Parked e' m') as -> by (destruct Hi as [->|[_ Hi]]; [done|by destruct h]).
      destruct (H i e' m' Hh He) as [Hc|?]; [by rewrite Er in Hc|by right].
    + intros i e' m' Hi He. cbn in Hi. rewrite notify_all_lookup in Hi. destruct (handles s !! i) as [h|] eqn:Eh; [|done]. injection Hi as Hi. destruct l; [|by left].
      exfalso. destruct (waits_on Control h) eqn:Ew; [by destruct h|]. subst h. cbn in Ew. by rewrite bool_decide_eq_true_2 in Ew.
    + intros i e' m' Hi He. cbn in Hi. rewrite notify_all_lookup in Hi. destruct (handles s !! i) as [h|] eqn:Eh; [|done]. injection Hi as Hi. exfalso. destruct (waits_on Output h) eqn:Ew; [by destruct h|]. subst h. destruct l.
      * destruct (H i e' m' Eh He) as [Hc|[Hc _]]; [by rewrite Er in Hc|]. rewrite (ck_closed _ Hs), Er in Hc. done.
      * cbn in Ew. by rewrite bool_decide_eq_true_2 in Ew.
  - eapply awake_keep; [exact H|done|done|apply coming_arrived|by left].
  - destruct (receiver s) eqn:Er; try done. intros i e' m' Hi He. by left.
Qed.

(** Bulk events come from the handle [i0] alone, but for the end of the shell. *)
Definition from_one (i0 : nat) (x : Step) : Prop := match x with SCall i e _ => lane e = Output → is_ended e = false → i = i0 | _ => True end.
Record sole (i0 : nat) (s : System) : Prop := {
  sl_one : ∀ i e m, handles s !! i = Some (Sending e m) ∨ handles s !! i = Some (Parked e m) → lane e = Output → is_ended e = false → i = i0;
  sl_ended : ∀ i e m, handles s !! i = Some (Parked e m) → is_ended e = false
}.

(** Handles that were there before, awake or not. *)
Lemma sole_sub i0 (s s' : System) : sole i0 s →
  (∀ i h e m, handles s' !! i = Some h → h = Sending e m ∨ h = Parked e m → (handles s !! i = Some h ∨ handles s !! i = Some (Parked e m)) ∨ h = Sending e m ∧ (lane e = Output → is_ended e = false → i = i0) ∨
     (h = Parked e m ∧ handles s !! i = Some (Sending e m) ∧ is_ended e = false)) → sole i0 s'.
Proof.
  intros [H1 H2] Hs. split.
  - intros i e m [Hi|Hi] He Hn; (destruct (Hs i _ e m Hi) as [[Ho|Ho]|[[_ Ho]|(_ & Ho & _)]]; [auto|eapply H1; eauto|eapply H1; eauto|auto|eapply H1; eauto]).
  - intros i e m Hi. destruct (Hs i _ e m Hi) as [[Ho|Ho]|[[Ho _]|(_ & _ & Ho)]]; [auto|by eapply H2|by eapply H2|done|done].
Qed.

Lemma sole_step i0 s x : from_one i0 x → sole i0 s → sole i0 (step s x).
Proof.
  intros Hx H.
  assert (∀ i h s', (∀ e m, h ≠ Sending e m ∧ h ≠ Parked e m) → handles s' = <[i := h]> (handles s) → sole i0 s') as Hput.
  { intros i h s' Hh E. eapply sole_sub; [exact H|]. rewrite E. intros j h' e m Hj Hor. apply list_lookup_insert_Some in Hj as [(_ & <- & _)|[_ Hj]]; [destruct (Hh e m); naive_solver|auto]. }
  assert (∀ s', (∀ i h, handles s' !! i = Some h → ∃ h0 l, handles s !! i = Some h0 ∧ (h = h0 ∨ waits_on l h0 = true ∧ h = wake h0)) → sole i0 s') as Hwoken.
  { intros s' Hs. eapply sole_sub; [exact H|]. intros i h e m Hi Hor. destruct (Hs i h Hi) as (h0 & l & Hh & [->|[_ ->]]); [auto|]. left. destruct h0; destruct Hor; naive_solver. }
  destruct x as [i|i|i e m|i now|i|i|d|now|pick| |]; cbn [step].
  - destruct (handles s !! i) as [[]|] eqn:Ei; try done. eapply sole_sub; [exact H|]. cbn. intros j h e m Hj Hor. apply lookup_app_Some in Hj as [?|[_ Hj]]; [auto|]. apply list_lookup_singleton_Some in Hj as [_ <-]. naive_solver.
  - destruct (handles s !! i) as [[]|] eqn:Ei; try done. unfold drop_sender. eapply Hput; [|done]. intros e m. by destruct (_ =? 0).
  - destruct (handles s !! i) as [[]|] eqn:Ei; try done. eapply sole_sub; [exact H|]. cbn. intros j h e' m' Hj Hor. apply list_lookup_insert_Some in Hj as [(<- & <- & _)|[_ Hj]]; [|auto]. destruct Hor as [[= -> ->]|]; [|done]. auto.
  - destruct (handles s !! i) as [[]|] eqn:Ei; try done. pose proof (send_turn_spec (box s) e m now) as T. destruct (send_turn (box s) e m now) as [h b]. eapply sole_sub; [exact H|]. cbn.
    intros j h' e' m' Hj Hor. apply list_lookup_insert_Some in Hj as [(<- & <- & _)|[_ Hj]]; [|auto]. destruct Hor as [->| ->]; [done|]. destruct T as (-> & -> & _ & Hr & _). right; right. split_and!; [done|done|]. by destruct e.
  - destruct (handles s !! i) as [[]|] eqn:Ei; try done; (eapply Hput; [|reflexivity]; done).
  - destruct (handles s !! i) as [h|] eqn:Ei; [|done]. eapply sole_sub; [exact H|]. cbn. intros j h' e m Hj Hor. apply list_lookup_insert_Some in Hj as [(<- & <- & _)|[_ Hj]]; [|auto]. left. destruct h; destruct Hor; naive_solver.
  - destruct (receiver s) eqn:Er; try done; by eapply sole_sub; [exact H|auto].
  - destruct (receiver s) eqn:Er; try done. destruct (recv_turn (box s) deadline now). by eapply sole_sub; [exact H|auto].
  - destruct (receiver s) as [| | |[] e|[]|] eqn:Er; try done; apply Hwoken; cbn; intros i h Hi.
    + rewrite notify_all_lookup in Hi. destruct (handles s !! i) as [h0|]; [|done]. injection Hi as <-. exists h0, Control. split; [done|]. destruct (waits_on Control h0); auto.
    + apply notify_one_lookup in Hi as (h0 & ? & ?). by exists h0, Output.
    + rewrite notify_all_lookup in Hi. destruct (handles s !! i) as [h0|]; [|done]. injection Hi as <-. exists h0, Control. split; [done|]. destruct (waits_on Control h0); auto.
    + rewrite notify_all_lookup in Hi. destruct (handles s !! i) as [h0|]; [|done]. injection Hi as <-. exists h0, Output. split; [done|]. destruct (waits_on Output h0); auto.
  - by eapply sole_sub; [exact H|auto].
  - destruct (receiver s) eqn:Er; try done; by eapply sole_sub; [exact H|auto].
Qed.

Lemma awake_sole i0 s x : counts_ok s → sole i0 s → awake Output s → awake Output (step s x).
Proof.
  intros Hc Hs H. assert ((∃ pick, x = RNotify pick) ∨ ¬ ∃ pick, x = RNotify pick) as [[pick ->]|Hne] by (destruct x; naive_solver); [|apply awake_most; [done|done|]; intros e pick ->; destruct Hne; by exists pick].
  destruct (receiver s) as [| | |[] e| |] eqn:Er; try (apply awake_most; [done|done|]; intros e' pick' _ E; congruence). intros i e' m Hi He. exfalso. cbn [step] in Hi. rewrite Er in Hi. cbn in Hi.
  assert (waits_on Output (Parked e' m) = false) as Hw; [|cbn in Hw; by rewrite bool_decide_eq_true_2 in Hw].
  eapply (notify_one_sole Output pick (handles s) i0); [|exact Hi]. intros j h Hj Hh. destruct h as [| |e1 m1| | |]; try done. cbn in Hh. apply bool_decide_eq_true in Hh.
  eapply (sl_one _ _ Hs); [right; exact Hj|done|by eapply (sl_ended _ _ Hs)].
Qed.

Lemma awake_control xs : awake Control (run xs).
Proof.
  unfold run. induction xs as [|x xs IH] using rev_ind; [by intros [|] e m Hi|]. rewrite foldl_app. apply awake_most; [apply counts_run|done|done].
Qed.
Lemma awake_output i0 xs : Forall (from_one i0) xs → sole i0 (run xs) ∧ awake Output (run xs).
Proof.
  unfold run. induction xs as [|x xs IH] using rev_ind; [intros _; split; [split; intros [|] e m Hi; [by destruct Hi|by destruct Hi|done|done]|by intros [|] e m Hi]|].
  intros [Hxs Hx]%Forall_app. rewrite Forall_singleton in Hx. destruct (IH Hxs) as [H1 H2]. rewrite foldl_app. cbn [foldl]. split; [apply sole_step; [exact Hx|exact H1]|]. eapply awake_sole; [apply counts_run|done|done].
Qed.

(** C11: whatever the senders, the receiver and the scheduler do, each lane delivers what was put
    into it, once and in order; what is delivered from the output lane leaves no control event
    waiting; and neither lane grows past its bound (one slot more for a kill, and the end of the
    shell is always taken). *)
Theorem mailbox_keeps_order xs :
  let s := run xs in
  (∀ l, on l (pushed s) = on l (received s) ++ lane_of (box s) l) ∧
  (∀ e b, take (box s) = (Some (e, Output), b) → control (box s) = []) ∧
  len (control (box s)) ≤ CONTROL_LANE + 1 ∧ len (filter (λ e, is_ended e = false) (output (box s))) ≤ OUTPUT_LANE.
Proof.
  intros s. destruct (lanes_run xs) as [H1 H2 H3 H4]. split_and!; [done| |done|done].
  intros e b Ht. pose proof (mailbox_take_spec (box s)) as T. rewrite Ht in T. by destruct T as (_ & T & _); apply T.
Qed.

(** C15: no wake-up is lost on the way to the receiver or to a sender of control events, and none
    to a sender of bulk events that is the only one: a receiver waits only while both lanes are
    empty and someone can still send, or a notification of it is on its way; and a sender waits
    only while there is no room for its event, or a notification of its lane is on its way. *)
Theorem nobody_sleeps_through_room xs :
  let s := run xs in
  (∀ d, receiver s = Waiting d → control (box s) = [] ∧ output (box s) = [] ∧ senders (box s) ≠ 0 ∨ ∃ i, handles s !! i = Some Notifying ∨ handles s !! i = Some Leaving) ∧
  (∀ i e m, handles s !! i = Some (Parked e m) → lane e = Control ∨ (∃ i0, Forall (from_one i0) xs) →
     coming (lane e) (receiver s) ∨ closed (box s) = false ∧ has_room (box s) e = false).
Proof.
  intros s. split; [apply (counts_run xs)|]. intros i e m Hi [He|[i0 H0]].
  - rewrite He. by apply (awake_control xs i e m).
  - destruct (lane e) eqn:He; [by apply (awake_control xs i e m)|]. by apply (proj2 (awake_output i0 xs H0) i e m).
Qed.

End Contents.
Arguments ActorEvent A : clear implicits.
Arguments System A : clear implicits.
Arguments Step A : clear implicits.

(** ** A wake-up that is lost *)

Definition sends_one (i : nat) (e : ActorEvent Z) : list (Step Z) := [SCall i e Block; STurn i 0; SNotify i].
Definition takes_one : list (Step Z) := [RCall 0; RTurn 0].
Definition repeated (n : nat) (xs : list (Step Z)) : list (Step Z) := concat (replicate n xs).

(** Two senders wait behind a full lane; the receiver takes an event and wakes one, and takes
    another before that one runs. *)
Definition stranding : list (Step Z) :=
  SClone 0 :: repeated 32 (sends_one 0 (PtyOutput 7)) ++ [SCall 0 (PtyOutput 8) Block; STurn 0 0; SCall 1 (ForwardBytes 9) Block; STurn 1 0] ++
  takes_one ++ [RNotify 0] ++ takes_one ++ [STurn 0 0; SNotify 0] ++ repeated 31 takes_one ++ takes_one.

(** What the receiver does by itself. *)
Definition receives (x : Step Z) : Prop := match x with RCall _ | RTurn _ | RNotify _ | RWake => True | _ => False end.

Lemma stranded_step (s : System Z) h x : handles s = h → control (box s) = [] → output (box s) = [] → senders (box s) = 2 →
  match receiver s with Outside _ | Asking _ | Waiting _ => True | _ => False end → receives x →
  let s' := step s x in handles s' = h ∧ control (box s') = [] ∧ output (box s') = [] ∧ senders (box s') = 2 ∧
    match receiver s' with Outside _ | Asking _ | Waiting _ => True | _ => False end.
Proof.
  intros H1 H2 H3 H4 H5 Hx. destruct x; try done; cbn [step].
  - destruct (receiver s) eqn:E; try done; cbn; by rewrite ?E; split_and!.
  - destruct (receiver s) as [|d|d| | |] eqn:E; try done; [by rewrite E; split_and!| |by rewrite E; split_and!]. unfold recv_turn, take. rewrite H2, H3, H4. cbn [Z.eqb]. by destruct (now <=? d); split_and!.
  - destruct (receiver s) eqn:E; try done; by rewrite E; split_and!.
  - destruct (receiver s) eqn:E; try done; cbn; by rewrite E; split_and!.
Qed.

(** With two senders of bulk events a wake-up can be lost: there is a run at whose end both
    lanes are empty, the receiver waits, no notification is on its way, and a sender still waits
    for room, as it does however often the receiver asks again. *)
Theorem second_producer_is_stranded : ∃ xs : list (Step Z), let s := run xs in
  control (box s) = [] ∧ output (box s) = [] ∧ (∃ d, receiver s = Waiting d) ∧ handles s = [Idle (Some Sent); Parked (ForwardBytes 9) Block] ∧
  has_room (box s) (ForwardBytes 9) = true ∧ ∀ ys, Forall receives ys → handles (foldl step s ys) = handles s.
Proof.
  exists stranding. set (s := run stranding). cbn zeta.
  assert (control (box s) = [] ∧ output (box s) = [] ∧ receiver s = Waiting 0 ∧ handles s = [Idle (Some Sent); Parked (ForwardBytes 9) Block] ∧ has_room (box s) (ForwardBytes 9) = true ∧ senders (box s) = 2) as (H1 & H2 & H3 & H4 & H5 & H6) by (vm_compute; done). clearbody s.
  split_and!; [done|done|by eexists|done|done|]. intros ys Hys.
  assert (let s' := foldl step s ys in handles s' = handles s ∧ control (box s') = [] ∧ output (box s') = [] ∧ senders (box s') = 2 ∧
    match receiver s' with Outside _ | Asking _ | Waiting _ => True | _ => False end) as (? & _); [|done].
  induction ys as [|y ys IH] using rev_ind; [cbn; by rewrite H3|]. apply Forall_app in Hys as [Hys Hy]. rewrite Forall_singleton in Hy. rewrite foldl_app. cbn [foldl].
  destruct (IH Hys) as (I1 & I2 & I3 & I4 & I5). by apply stranded_step.
Qed.

(** ** Buffers on loan *)

Record Chunk := mkChunk { buf : list Z; filled_to : Z }.
(** A buffer that came back, or a new one, at its full length. *)
Definition chunk_take (spare : option (list Z)) (size : nat) : Chunk := {| buf := resize size 0 (default [] spare); filled_to := 0 |}.
Definition filled (c : Chunk) (n : Z) : Chunk := {| buf := buf c; filled_to := Z.min n (len (buf c)) |}.
(** [None] is a slice past the end. *)
Definition chunk_bytes (c : Chunk) : option (list Z) := if filled_to c <=? len (buf c) then Some (list.take (Z.to_nat (filled_to c)) (buf c)) else None.

Lemma chunk_filled c n : 0 ≤ n → chunk_bytes (filled c n) = Some (list.take (Z.to_nat n) (buf c)).
Proof.
  intros Hn. unfold chunk_bytes, filled. cbn. destruct (Z.leb_spec (Z.min n (len (buf c))) (len (buf c))); [|lia]. f_equal.
  destruct (Z.le_gt_cases n (len (buf c))); [by rewrite Z.min_l|]. rewrite Z.min_r by lia. by rewrite Nat2Z.id, firstn_all, take_ge by lia.
Qed.

End Mailbox.
