(* ===== verification/Predict.v ===== *)
(** * Local echo ([crates/client/src/predict.rs])

    A client draws a keystroke before the session echoes it, suppresses the echo when it arrives,
    and takes a wrong guess back.  A [String] is its bytes and [chars] decodes them, as in [Codec];
    the width of a character is [unicode-width]'s, an argument.  Scratch vectors that a call clears
    before it fills them ([drawing], [failure]) are results of that call; [undoing] is state, since
    [undo] reads it later. *)

From S2P Require Import Prelude Codec Fields.

Module Predict.
Import Codec.

(** ** The automaton of [restated_tail] *)

(** [while border > 0 && byte != owed[border].byte]; each turn makes [border] smaller, so as many
    turns as it counts are enough. *)
Fixpoint fall (fuel : nat) (owed : list Z) (failure : list nat) (byte : Z) (border : nat) : nat :=
  match fuel with
  | O => border
  | S fuel =>
      if (0 <? border)%nat && negb (byte =? owed !!! border) then fall fuel owed failure byte (failure !!! (border - 1)%nat)
      else border
  end.

Definition grown (owed : list Z) (byte : Z) (border : nat) : nat := if byte =? owed !!! border then S border else border.

(** [for index in 1..width]. *)
Fixpoint failures (n index : nat) (owed : list Z) (failure : list nat) (border : nat) : list nat :=
  match n with
  | O => failure
  | S n =>
      let byte := owed !!! index in
      let border := fall border owed failure byte border in
      let border := grown owed byte border in
      failures n (S index) owed (failure ++ [border]) border
  end.

(** [for &actual in rewrite]. *)
Fixpoint matches_ (rewrite owed : list Z) (failure : list nat) (matched : nat) : nat :=
  match rewrite with
  | [] => matched
  | actual :: rewrite =>
      let width := length owed in
      let matched := if (matched =? width)%nat then failure !!! (width - 1)%nat else matched in
      let matched := fall matched owed failure actual matched in
      matches_ rewrite owed failure (grown owed actual matched)
  end.

Definition restated_tail (owed rewrite : list Z) : nat :=
  let width := length owed in
  if (width =? 0)%nat || bool_decide (rewrite = []) then O
  else matches_ rewrite owed (failures (width - 1) 1 owed [O] O) O.

(** ** Widths and shapes *)

Section widths.
Context (char_width : Z → option Z).

(** [FOLDS_INTO_NEIGHBOUR] *)
Definition FOLDS_INTO_NEIGHBOUR : list (Z * Z) := [(127462, 127487); (127995, 127999)].

Definition cell_width (ch : Z) : option Z :=
  if existsb (λ p : Z * Z, between p.1 ch p.2) FOLDS_INTO_NEIGHBOUR then None
  else match char_width ch with Some w => if w =? 1 then Some 1 else if w =? 2 then Some 2 else None | None => None end.

(** The widths of characters added up, [None] at the first without one. *)
Fixpoint total_width (width : Z → option Z) (cs : list Z) (acc : Z) : option Z :=
  match cs with
  | [] => Some acc
  | ch :: cs => w ← width ch; total_width width cs (acc + w)
  end.

Inductive Keystroke := Print (text : list Z) (cols : Z) | Erase (cells : nat).

Definition keystroke (typed : list Z) : option Keystroke :=
  match typed with
  | [] => None
  | _ =>
      if forallb (λ b, (b =? 127) || (b =? 8)) typed then Some (Erase (length typed))
      else
        text ← chars typed;
        cols ← total_width cell_width text 0;
        Some (Print text cols)
  end.

Definition PASTE_CELLS : Z := 100.
Definition ERASE_ECHO : list Z := [8; 32; 8].
Definition ERASE_ECHO_WIDE : list Z := [8; 8; 32; 32; 8; 8].
Definition erase_echo (cells : Z) : list Z := if cells =? 2 then ERASE_ECHO_WIDE else ERASE_ECHO.

Definition restates_row (session : list Z) : bool :=
  bool_decide (take 1 session = [13]) && negb (bool_decide (take 2 session = [13; 10])).

Fixpoint position (p : Z → bool) (l : list Z) : option nat :=
  match l with [] => None | b :: l => if p b then Some O else S <$> position p l end.

(** The end of a string sequence; [index] is where [l] starts. *)
Fixpoint string_end (l : list Z) (index : nat) : option nat :=
  match l with
  | [] => None
  | b :: l =>
      if b =? 7 then Some (index + 1)%nat
      else if (b =? 27) && bool_decide (head l = Some 92) then Some (index + 2)%nat
      else string_end l (index + 1)
  end.

Definition escape_len (bytes : list Z) : option nat :=
  b ← bytes !! 1%nat;
  if b =? 91 then n ← position (λ b, between 64 b 126) (drop 2 bytes); Some (3 + n)%nat
  else if bool_decide (b ∈ [93; 80; 88; 94; 95]) then string_end (drop 2 bytes) 2
  else Some 2%nat.

Definition leading_char (bytes : list Z) : option (Z * nat) :=
  b ← head bytes;
  n ← (if between 0 b 127 then Some 1%nat else if between 192 b 223 then Some 2%nat else if between 224 b 239 then Some 3%nat
       else if between 240 b 247 then Some 4%nat else None);
  if (length bytes <? n)%nat then None
  else cs ← chars (take n bytes); ch ← head cs; Some (ch, n).

Record Extent := mkExtent { cols : option Z; clears_tail : bool }.

(** A turn reads at least one byte. *)
Fixpoint extent_loop (fuel : nat) (rewrite : list Z) (cols : Z) (clears : bool) : Extent :=
  match rewrite, fuel with
  | [], _ => mkExtent (Some cols) clears
  | _, O => mkExtent None clears
  | b :: r, S fuel =>
      if b =? 13 then extent_loop fuel r 0 clears
      else if b =? 8 then extent_loop fuel r (cols - 1) clears
      else if b =? 27 then
        match escape_len rewrite with
        | None => mkExtent None clears
        | Some n =>
            let seq := take n rewrite in
            extent_loop fuel (drop n rewrite) cols (clears || bool_decide (seq = [27; 91; 75]) || bool_decide (seq = [27; 91; 48; 75]))
        end
      else if (b <? 32) || (b =? 127) then mkExtent None clears
      else
        match leading_char rewrite with
        | None => mkExtent None clears
        | Some (ch, n) =>
            match cell_width ch with
            | None => mkExtent None clears
            | Some w => extent_loop fuel (drop n rewrite) (cols + w) clears
            end
        end
  end.
Definition rewrite_extent (rewrite : list Z) : Extent := extent_loop (length rewrite) rewrite 0 false.

Definition cursor_advance (drawn : list Z) : option Z :=
  text ← chars drawn;
  total_width (λ ch, if ch =? 8 then Some (-1) else cell_width ch) text 0.
Definition column_after (column : option Z) (written : list Z) : option Z :=
  c ← column; a ← cursor_advance written;
  if 0 <=? c + a then Some (c + a) else None.
Definition appended_columns (drawn : list Z) : option Z := text ← chars drawn; total_width cell_width text 0.

(** ** The predictor *)

Record Pending := mkPending { byte : Z; epoch : Z; sent_as : option Z; drawn : bool }.
Inductive Repair := NoRepair | Local | Repaint.
Record Absorbed := mkAbsorbed { skip : nat; repair : Repair }.
Inductive Prediction := Never | Adaptive | Always.
Inductive Typing := Continuous | Interrupted.
Inductive Gate := Open | Closed.
Definition PREDICT_ABOVE : Duration := from_millis 30.
Definition PREDICT_BELOW : Duration := from_millis 20.

Record Predictor := mkPredictor {
  outstanding : list Pending; now_epoch : Z; confirmed_epoch : Z; deferred : option Z; delivered : option Z; run_cells : list Z;
  cue : Fields.InputCue; mode : Prediction; gate : Gate; undoing : list Z; column : option Z
}.
#[export] Instance Predictor_settable : Settable Predictor :=
  λ p, mkPredictor (outstanding p) (now_epoch p) (confirmed_epoch p) (deferred p) (delivered p) (run_cells p) (cue p) (mode p) (gate p) (undoing p) (column p).

Definition new (mode : Prediction) : Predictor :=
  {| outstanding := []; now_epoch := 1; confirmed_epoch := 0; deferred := None; delivered := None; run_cells := [];
     cue := Fields.Opaque_; mode := mode; gate := Open; undoing := []; column := None |}.

Definition drawing_now (p : Predictor) : bool :=
  match mode p with Never => false | Adaptive => match gate p with Open => true | Closed => false end | Always => true end.
Definition anything_drawn (p : Predictor) : bool := existsb drawn (outstanding p).
Definition observed_rtt (p : Predictor) (srtt : option Duration) : Predictor :=
  match srtt with
  | None => p
  | Some srtt =>
      if PREDICT_ABOVE <? srtt then p <| gate := Open |>
      else if (srtt <=? PREDICT_BELOW) && negb (anything_drawn p) then p <| gate := Closed |> else p
  end.
Definition undo (p : Predictor) : list Z := undoing p.
Definition confirmed (p : Predictor) : bool := now_epoch p =? confirmed_epoch p.

Definition queue (p : Predictor) (bytes : list Z) (sent_as : option Z) : Predictor :=
  p <| outstanding := outstanding p ++ ((λ b, mkPending b (now_epoch p) sent_as false) <$> bytes) |>.
Definition draw (x : Pending) : Pending := mkPending (byte x) (epoch x) (sent_as x) true.
Definition undraw (x : Pending) : Pending := mkPending (byte x) (epoch x) (sent_as x) false.
Definition release (p : Predictor) : Predictor * list Z :=
  if negb (drawing_now p) then (p, [])
  else
    let drawing := byte <$> base.filter (λ x, drawn x = false) (outstanding p) in
    (p <| outstanding := draw <$> outstanding p |> <| column := column_after (column p) drawing |>, drawing).
Definition stall (p : Predictor) : Predictor :=
  p <| now_epoch := now_epoch p + 1 |> <| outstanding := base.filter (λ x, drawn x = true) (outstanding p) |> <| run_cells := [] |>.

(** [for _ in 0..cells], over the newest cells. *)
Fixpoint erase_loop (n : nat) (p : Predictor) (sent_as : option Z) : Predictor :=
  match n with
  | O => p
  | S n =>
      match last (run_cells p) with
      | Some width => erase_loop n (queue (p <| run_cells := removelast (run_cells p) |>) (erase_echo width) sent_as) sent_as
      | None => erase_loop n p sent_as
      end
  end.

Definition predict (p : Predictor) (typed : list Z) (sent_as : option Z) (since : Typing) : Predictor * list Z :=
  let p := match since with Interrupted => stall p | Continuous => p end in
  match cue p with
  | Fields.Opaque_ => (stall p, [])
  | Fields.Echoing room =>
      match keystroke typed with
      | Some (Print text cols) =>
          if (cols <=? PASTE_CELLS) && (len (outstanding p) + len typed <=? room) then
            let p := queue p typed sent_as in
            let p := p <| run_cells := run_cells p ++ omap cell_width text |> in
            if negb (confirmed p) then (p, []) else release p
          else (stall p, [])
      | Some (Erase cells) =>
          if confirmed p && forallb drawn (outstanding p) && (cells <=? length (run_cells p))%nat then release (erase_loop cells p sent_as)
          else (stall p, [])
      | None => (stall p, [])
      end
  end.

(** *** Judging the session's output *)

(** How many leading bytes of [session] are the ones owed. *)
Fixpoint agreed (l : list Pending) (session : list Z) : nat :=
  match l, session with
  | x :: l, b :: session => if byte x =? b then S (agreed l session) else O
  | _, _ => O
  end.
Fixpoint drawn_count (l : list Pending) : nat := match l with x :: l => if drawn x then S (drawn_count l) else O | [] => O end.

Definition confirms (p : Predictor) (matched : nat) : option Z :=
  if (matched =? 0)%nat || (matched <? length (outstanding p))%nat then None
  else
    x ← last (outstanding p);
    match sent_as x, delivered p with
    | Some seq, Some d => if seq <=? d then Some (epoch x) else None
    | _, _ => None
    end.
Definition promoted (p : Predictor) (run : option Z) : Predictor :=
  match run with Some run => p <| confirmed_epoch := Z.max (confirmed_epoch p) run |> | None => p end.

(** [Some(seq) > ack] *)
Definition after_ack (seq : Z) (ack : option Z) : bool := match ack with None => true | Some a => a <? seq end.
Definition unanswered (p : Predictor) (echo_ack : option Z) : option Z :=
  x ← head (outstanding p); seq ← sent_as x; if after_ack seq echo_ack then Some seq else None.

Definition drawn_bytes (p : Predictor) : list Z := byte <$> take (drawn_count (outstanding p)) (outstanding p).

Definition plan_repair (p : Predictor) (follows : list Z) : Predictor * Repair :=
  let p := p <| undoing := drawn_bytes p |> in
  if bool_decide (undoing p = []) then (p, NoRepair)
  else
    let printable := match head follows with Some b => (32 <=? b) && negb (b =? 127) | None => false end in
    match (if printable then appended_columns (undoing p) else None) with
    | None => (p <| undoing := [] |>, Repaint)
    | Some cols =>
        let n := Z.to_nat cols in
        (p <| undoing := replicate n 8 ++ replicate n 32 ++ replicate n 8 |>, Local)
    end.
Definition end_run (p : Predictor) (follows : list Z) : Predictor * Repair :=
  let '(p, r) := plan_repair p follows in
  (p <| outstanding := [] |> <| run_cells := [] |> <| deferred := None |> <| column := None |> <| now_epoch := now_epoch p + 1 |>, r).

Definition rewrite_accounts_for_the_run (p : Predictor) (extent : Extent) : bool * Predictor :=
  if clears_tail extent then (true, p)
  else
    let p := p <| undoing := drawn_bytes p |> in
    (match cursor_advance (undoing p) with
     | None => false
     | Some advance =>
         if advance <=? 0 then true
         else
           match cols extent with
           | None => false
           | Some cols =>
               match column p with
               | Some cursor => (cursor <=? cols) || (cols =? cursor - advance)
               | None => advance <=? cols
               end
           end
     end, p).

Definition owed_bytes (p : Predictor) : list Z := byte <$> outstanding p.

(** The arm of a rewrite the run survives. *)
Definition rewritten (p : Predictor) (restated : nat) (extent : Extent) : Predictor :=
  let p := promoted p (confirms p restated) in
  let p :=
    if (0 <? restated)%nat then p <| outstanding := drop restated (outstanding p) |>
    else if negb (confirmed p) then p <| outstanding := [] |>
    else p in
  p <| outstanding := undraw <$> outstanding p |> <| deferred := None |>
    <| column := match cols extent with Some c => if 0 <=? c then Some c else None | None => None end |>.

Definition absorb (p : Predictor) (session : list Z) (cue_ : Fields.InputCue) (echo_ack : option Z) : Predictor * Absorbed :=
  let p := p <| cue := cue_ |> in
  let echoed := agreed (outstanding p) session in
  let skip := drawn_count (take echoed (outstanding p)) in
  let p := promoted p (confirms p echoed) in
  let p := if (0 <? echoed)%nat then p <| deferred := None |> <| outstanding := drop echoed (outstanding p) |> else p in
  let rest := drop echoed session in
  match rest with
  | [] => (p <| column := column_after (column p) (drop skip session) |>, mkAbsorbed skip NoRepair)
  | _ =>
      if restates_row rest then
        let restated := restated_tail (owed_bytes p) rest in
        let extent := rewrite_extent rest in
        let '(accounted, p) := if (restated =? 0)%nat then rewrite_accounts_for_the_run p extent else (true, p) in
        if negb accounted then let '(p, r) := end_run p [] in (p, mkAbsorbed skip r)
        else (rewritten p restated extent, mkAbsorbed skip NoRepair)
      else
        match unanswered p echo_ack with
        | Some seq => (p <| deferred := Some seq |> <| column := column_after (column p) (drop skip session) |>, mkAbsorbed skip NoRepair)
        | None => let '(p, r) := end_run p rest in (p, mkAbsorbed skip r)
        end
  end.

Definition acknowledged (p : Predictor) (highest : Z) : Predictor :=
  p <| delivered := Some (match delivered p with Some d => Z.max d highest | None => highest end) |>.
Definition echo_ack (p : Predictor) (ack : option Z) : Predictor * bool :=
  match deferred p with
  | None => (p, false)
  | Some d =>
      if after_ack d ack then (p, false)
      else let '(p, r) := end_run p [] in (p, match r with NoRepair => false | _ => true end)
  end.
Definition invalidate (p : Predictor) : Predictor * bool :=
  let '(p, r) := end_run p [] in (p <| cue := Fields.Opaque_ |>, match r with NoRepair => false | _ => true end).
Definition resized (p : Predictor) : Predictor := p <| cue := Fields.Opaque_ |> <| column := None |>.

End widths.

(** ** What the automaton computes *)

(** The longest prefix of [owed] that ends [rewrite], by trying every length. *)
Fixpoint longest_tail (n : nat) (owed rewrite : list Z) : nat :=
  match n with
  | O => O
  | S m => if decide (take (S m) owed `suffix_of` rewrite) then S m else longest_tail m owed rewrite
  end.

Section automaton.
Context (w : list Z).
Implicit Types (t : list Z) (k j b : nat).

(** [k] is the longest prefix of [w] shorter than [m] that ends [t]. *)
Record best (m : nat) t k : Prop := {
  be_le : (k ≤ m)%nat;
  be_suffix : take k w `suffix_of` t;
  be_longest j : (j ≤ m)%nat → take j w `suffix_of` t → (j ≤ k)%nat
}.

(** The table's entry for [c] matched bytes is their longest proper border, for [c] up to [n]. *)
Definition table (n : nat) (failure : list nat) : Prop :=
  ∀ c, (0 < c ≤ n)%nat → best (c - 1) (take c w) (failure !!! (c - 1)%nat).

Lemma suffix_shorter (a b t : list Z) : a `suffix_of` t → b `suffix_of` t → (length a ≤ length b)%nat → a `suffix_of` b.
Proof.
  intros [x ->] [y Hy] Hl. exists (drop (length y) x).
  apply (f_equal (drop (length y))) in Hy as Hd. rewrite drop_app_length, drop_app_le in Hd; [done|].
  apply (f_equal length) in Hy. rewrite !length_app in Hy. lia.
Qed.

Lemma suffix_snoc (x : Z) (a t : list Z) y : a ++ [x] `suffix_of` t ++ [y] ↔ x = y ∧ a `suffix_of` t.
Proof.
  split.
  - intros [z Hz]. rewrite app_assoc in Hz. apply app_inj_tail in Hz as [-> ->]. split; [done|]. by exists z.
  - intros [-> [z ->]]. exists z. by rewrite app_assoc.
Qed.

Lemma take_length_le k : (k ≤ length w)%nat → length (take k w) = k.
Proof. intros H. rewrite length_take. lia. Qed.

(** One fall from [b] finds the longest prefix below [b] that [byte] extends. *)
Lemma fall_spec fuel n failure byte b t :
  table n failure → (b ≤ n)%nat → (b < length w)%nat → (b ≤ fuel)%nat → take b w `suffix_of` t →
  let r := fall fuel w failure byte b in
  (r ≤ b)%nat ∧ take r w `suffix_of` t ∧ (r = O ∨ byte = w !!! r) ∧
  ∀ j, (j ≤ b)%nat → take j w `suffix_of` t → byte = w !!! j → (j ≤ r)%nat.
Proof.
  intros Ht. revert b. induction fuel as [|fuel IH]; intros b Hn Hw Hf Hs; cbn [fall].
  { split_and!; [done|done|left; lia|]. intros j Hj _ _. lia. }
  destruct (Nat.ltb_spec 0 b) as [H0|H0]; [|cbn [andb]; split_and!; [done|done|left; lia|lia]]. cbn [andb].
  destruct (Z.eqb_spec byte (w !!! b)) as [He|He]; cbn [negb]; [split_and!; auto|].
  destruct (Ht b) as [B1 B2 B3]; [lia|]. set (b' := failure !!! (b - 1)%nat) in *.
  destruct (IH b') as (R1 & R2 & R3 & R4); [lia|lia|lia|by etrans|]. split_and!; [lia|done|done|].
  intros j Hj Hjs Hjb. apply R4; [|done|done]. destruct (decide (j = b)) as [->|]; [done|].
  apply B3; [lia|]. apply (suffix_shorter _ _ t); [done|done|]. rewrite !length_take. lia.
Qed.

(** One byte of text: the best match of what was read becomes that of what is read with it. *)
Lemma extend_spec m n failure byte b t :
  table n failure → (b ≤ n)%nat → (b < length w)%nat → (b ≤ m)%nat → take b w `suffix_of` t →
  (∀ j, (j ≤ m)%nat → (j < length w)%nat → take j w `suffix_of` t → (j ≤ b)%nat) →
  best (S m `min` length w) (t ++ [byte]) (grown w byte (fall b w failure byte b)).
Proof.
  intros Ht Hn Hw Hm Hs Hb. destruct (fall_spec b n failure byte b t Ht Hn Hw (le_n b) Hs) as (R1 & R2 & R3 & R4).
  set (r := fall b w failure byte b) in *. unfold grown.
  assert (∀ j, (j < length w)%nat → take (S j) w = take j w ++ [w !!! j]) as Hsnoc.
  { intros j Hj. apply take_S_r. by apply list_lookup_lookup_total_lt. }
  assert (∀ j, (S j ≤ S m `min` length w)%nat → take (S j) w `suffix_of` t ++ [byte] → (j ≤ r)%nat ∧ byte = w !!! j) as Hall.
  { intros j Hj Hjs. rewrite Hsnoc in Hjs by lia. apply suffix_snoc in Hjs as [<- Hjs]. split; [|done]. apply R4; [|done|done]. apply Hb; [lia|lia|done]. }
  destruct (Z.eqb_spec byte (w !!! r)) as [He|He].
  - split; [lia| |].
    + rewrite Hsnoc by lia. rewrite <- He. by apply suffix_snoc.
    + intros [|j] Hj Hjs; [lia|]. destruct (Hall j Hj Hjs). lia.
  - destruct R3 as [->|]; [|done]. split; [lia|apply suffix_nil|]. intros [|j] Hj Hjs; [lia|]. destruct (Hall j Hj Hjs) as [? ->]. replace j with O in He by lia. done.
Qed.

Lemma failures_spec n index failure border :
  (0 < index)%nat → (index + n = length w)%nat → length failure = index → table index failure →
  border = failure !!! (index - 1)%nat → length (failures n index w failure border) = length w ∧ table (length w) (failures n index w failure border).
Proof.
  revert index failure border. induction n as [|n IH]; intros index failure border H0 Hl Hf Ht Hb; cbn [failures].
  { split; [lia|]. by replace (length w) with index by lia. }
  set (byte := w !!! index). set (b := grown w byte (fall border w failure byte border)).
  assert (best index (take (S index) w) b) as Hbest.
  { destruct (Ht index) as [B1 B2 B3]; [lia|]. rewrite <- Hb in *.
    (* the text is what is owed but for its first byte *)
    assert (take (S index) w = take 1 w ++ (drop 1 (take index w) ++ [byte])) as Htake.
    { unfold byte. rewrite app_assoc. replace (take 1 w) with (take 1 (take index w)) by (rewrite take_take; f_equal; lia). rewrite take_drop. apply take_S_r. apply list_lookup_lookup_total_lt. lia. }
    assert (∀ j, (j ≤ index - 1)%nat → take j w `suffix_of` take index w ↔ take j w `suffix_of` drop 1 (take index w)) as Hdrop.
    { intros j Hj. split.
      - intros Hs. apply (suffix_shorter _ _ (take index w)); [done| |rewrite length_drop, !length_take; lia]. exists (take 1 (take index w)). by rewrite take_drop.
      - intros [x Hx]. exists (take 1 (take index w) ++ x). by rewrite <- app_assoc, <- Hx, take_drop. }
    destruct (extend_spec (index - 1) index failure byte border (drop 1 (take index w)) Ht) as [E1 E2 E3]; [lia|lia|lia|by apply Hdrop| |].
    { intros j Hj _ Hs. apply B3; [done|]. by apply Hdrop. }
    fold b in E1, E2, E3. replace (S (index - 1) `min` length w)%nat with index in * by lia. rewrite Htake. split; [done| |].
    - by apply suffix_app_r.
    - intros j Hj Hs. apply E3; [done|]. eapply suffix_shorter; [exact Hs|by apply suffix_app_r|]. rewrite length_app, length_drop, !length_take. cbn. lia. }
  apply IH; [lia|lia|rewrite length_app; cbn; lia| |].
  - intros c Hc. destruct (decide (c = S index)) as [->|].
    + replace (S index - 1)%nat with index by lia. rewrite lookup_total_app_r by lia. rewrite Hf, Nat.sub_diag. done.
    + rewrite lookup_total_app_l by lia. apply Ht. lia.
  - replace (S index - 1)%nat with index by lia. rewrite lookup_total_app_r by lia. by rewrite Hf, Nat.sub_diag.
Qed.

Lemma matches_spec rewrite failure matched t :
  w ≠ [] → table (length w) failure → best (length w) t matched → best (length w) (t ++ rewrite) (matches_ rewrite w failure matched).
Proof.
  intros Hw Ht. assert (0 < length w)%nat by (destruct w; [done|cbn; lia]). revert matched t.
  induction rewrite as [|a rewrite IH]; intros matched t Hm; cbn [matches_]; [by rewrite app_nil_r|].
  rewrite cons_middle, app_assoc. apply IH. destruct Hm as [M1 M2 M3].
  set (b := if (matched =? length w)%nat then failure !!! (length w - 1)%nat else matched).
  assert ((b < length w)%nat ∧ take b w `suffix_of` t ∧ ∀ j, (j ≤ length w)%nat → (j < length w)%nat → take j w `suffix_of` t → (j ≤ b)%nat) as (B1 & B2 & B3).
  { unfold b. destruct (Nat.eqb_spec matched (length w)) as [->|].
    - destruct (Ht (length w)) as [C1 C2 C3]; [lia|]. split_and!; [lia|by etrans|]. intros j _ Hj Hs. apply C3; [lia|].
      apply (suffix_shorter _ _ t); [done|done|]. rewrite !length_take. lia.
    - split_and!; [lia|done|]. intros j Hj _ Hs. by apply M3. }
  pose proof (extend_spec (length w) (length w) failure a b t Ht) as E. replace (S (length w) `min` length w)%nat with (length w) in E by lia. apply E; try done; lia.
Qed.

Lemma longest_spec n t : best n t (longest_tail n w t).
Proof.
  induction n as [|n IH]; cbn [longest_tail]; [split; [done|apply suffix_nil|lia]|].
  destruct (decide _) as [Hs|Hs]; [by split|]. destruct IH as [I1 I2 I3]. split; [lia|done|].
  intros j Hj Hjs. apply I3; [|done]. destruct (decide (j = S n)) as [->|]; [done|lia].
Qed.

Lemma best_unique m t j k : best m t j → best m t k → j = k.
Proof. intros [A1 A2 A3] [B1 B2 B3]. apply Nat.le_antisymm; [by apply B3|by apply A3]. Qed.

End automaton.

(** The failure-function automaton that reads a rewritten row finds the longest prefix of what is
    owed that the row ends with, as trying every length would. *)
Theorem restated_tail_is_longest owed rewrite : restated_tail owed rewrite = longest_tail (length owed) owed rewrite.
Proof.
  apply (best_unique owed (length owed) rewrite); [|apply longest_spec]. unfold restated_tail.
  destruct (Nat.eqb_spec (length owed) 0) as [H0|H0]; cbn [orb].
  { rewrite H0. split; [done|apply suffix_nil|lia]. }
  case_bool_decide as Hr.
  { subst rewrite. split; [lia|apply suffix_nil|]. intros j Hj Hs. apply suffix_length in Hs. rewrite length_take in Hs. cbn in Hs. lia. }
  apply (matches_spec owed rewrite _ O []); [by destruct owed| |].
  - apply failures_spec; [lia|lia|done| |done]. intros c Hc. replace c with 1%nat by lia. split; cbn; [lia|apply suffix_nil|lia].
  - split; [lia|apply suffix_nil|]. intros j Hj Hs. apply suffix_length in Hs. rewrite length_take in Hs. cbn in Hs. lia.
Qed.

(** ** Reading a rewrite ends *)

Lemma string_end_pos l i n : string_end l i = Some n → (0 < n)%nat.
Proof. revert i. induction l as [|b l IH]; intros i; cbn; [done|]. destruct (b =? 7); [intros [= <-]; lia|]. destruct (_ && _); [intros [= <-]; lia|]. apply IH. Qed.

Lemma escape_len_pos bytes n : escape_len bytes = Some n → (0 < n)%nat.
Proof.
  unfold escape_len. destruct (bytes !! 1%nat) as [b|]; [|done]. cbn [mbind option_bind]. destruct (b =? 91).
  - destruct (position _ _) as [k|]; [|done]. cbn. intros [= <-]. lia.
  - case_bool_decide; [apply string_end_pos|]. intros [= <-]. lia.
Qed.

Lemma leading_char_pos bytes ch n : leading_char bytes = Some (ch, n) → (0 < n)%nat.
Proof.
  unfold leading_char. destruct (head bytes) as [b|]; [|done]. cbn [mbind option_bind].
  destruct (if between 0 b 127 then _ else _) as [k|] eqn:E; [|done]. cbn [mbind option_bind]. destruct (_ <? _)%nat; [done|].
  destruct (chars _) as [cs|]; [|done]. cbn [mbind option_bind]. destruct (head cs); [|done]. cbn. intros [= _ <-].
  repeat case_match; simplify_eq; lia.
Qed.

(** Every turn reads a byte, so as many turns as there are bytes are enough: more change nothing. *)
Lemma extent_loop_enough cw f1 f2 l c k : (length l ≤ f1)%nat → (length l ≤ f2)%nat → extent_loop cw f1 l c k = extent_loop cw f2 l c k.
Proof.
  revert f2 l c k. induction f1 as [|f1 IH]; intros f2 l c k H1 H2; [destruct l; [by destruct f2|cbn in H1; lia]|].
  destruct l as [|b l]; [by destruct f2|]. destruct f2 as [|f2]; [cbn in H2; lia|]. cbn [length] in H1, H2. cbn [extent_loop].
  destruct (b =? 13); [apply IH; lia|]. destruct (b =? 8); [apply IH; lia|]. destruct (b =? 27).
  - destruct (escape_len (b :: l)) as [n|] eqn:E; [|done]. apply escape_len_pos in E. apply IH; rewrite length_drop; cbn [length]; lia.
  - destruct (_ || _); [done|]. destruct (leading_char (b :: l)) as [[ch n]|] eqn:E; [|done]. apply leading_char_pos in E. destruct (cell_width cw ch); [|done].
    apply IH; rewrite length_drop; cbn [length]; lia.
Qed.

(** ** Sessions *)

Inductive Event :=
| EPredict (typed : list Z) (sent_as : option Z) (since : Typing) | EAbsorb (session : list Z) (cue : Fields.InputCue) (echo_ack : option Z)
| EAcknowledged (highest : Z) | EEchoAck (ack : option Z) | EInvalidate | EResized | ERtt (srtt : option Duration).

Section sessions.
Context (char_width : Z → option Z).

Definition step (p : Predictor) (e : Event) : Predictor :=
  match e with
  | EPredict typed sent_as since => (predict char_width p typed sent_as since).1
  | EAbsorb session cue ack => (absorb char_width p session cue ack).1
  | EAcknowledged highest => acknowledged p highest
  | EEchoAck ack => (echo_ack char_width p ack).1
  | EInvalidate => (invalidate char_width p).1
  | EResized => resized p
  | ERtt srtt => observed_rtt p srtt
  end.
Definition run (mode : Prediction) (es : list Event) : Predictor := foldl step (new mode) es.

(** The bytes owed, and what makes output evidence that the session echoes them: it starts with
    them all, or with some of them and then restates the row up to the last. *)
Definition echoes (owed session : list Z) : Prop :=
  ∃ a b rest, owed = a ++ b ∧ session = a ++ rest ∧ (b = [] ∨ head rest = Some 13 ∧ b `suffix_of` rest).

(** Output [session] proves that the run [p] is in is echoed: something typed in it was handed to the
    shell before the output was read, and everything owed up to it came back. *)
Definition evidence (p : Predictor) (session : list Z) : Prop :=
  ∃ x seq d, last (outstanding p) = Some x ∧ epoch x = now_epoch p ∧ sent_as x = Some seq ∧ delivered p = Some d ∧ seq ≤ d ∧ echoes (owed_bytes p) session.

(** ** The invariant *)

(** What is drawn stands first, and no epoch is ahead of the run's. *)
Definition prefixed (l : list Pending) : Prop := Forall (λ x, drawn x = false) (drop (drawn_count l) l).

Record pred_ok (p : Predictor) : Prop := {
  po_prefix : prefixed (outstanding p);
  po_epochs : Forall (λ x, epoch x ≤ now_epoch p) (outstanding p);
  po_confirmed : confirmed_epoch p ≤ now_epoch p
}.

Lemma prefixed_nil : prefixed [].
Proof. constructor. Qed.

Lemma drawn_count_app l m : Forall (λ x, drawn x = false) m → drawn_count (l ++ m) = drawn_count l.
Proof. intros Hm. induction l as [|x l IH]; cbn; [destruct Hm as [|y m Hy _]; cbn; by rewrite ?Hy|]. by rewrite IH. Qed.

Lemma drawn_count_le l : (drawn_count l ≤ length l)%nat.
Proof. induction l as [|x l IH]; cbn; [lia|]. destruct (drawn x); lia. Qed.

Lemma prefixed_app l m : prefixed l → Forall (λ x, drawn x = false) m → prefixed (l ++ m).
Proof.
  intros Hl Hm. unfold prefixed. rewrite drawn_count_app, drop_app_le by (done || apply drawn_count_le). by apply Forall_app.
Qed.

Lemma drawn_count_all l : Forall (λ x, drawn x = true) l → drawn_count l = length l.
Proof. induction 1 as [|x l Hx _ IH]; cbn; [done|]. by rewrite Hx, IH. Qed.

Lemma prefixed_all l : Forall (λ x, drawn x = true) l → prefixed l.
Proof. intros H. unfold prefixed. rewrite drawn_count_all, drop_all by done. constructor. Qed.

Lemma prefixed_none l : Forall (λ x, drawn x = false) l → prefixed l.
Proof. intros H. unfold prefixed. by apply Forall_drop. Qed.

Lemma drawn_count_drop n l : prefixed l → drawn_count (drop n l) = (drawn_count l - n)%nat.
Proof.
  revert n. induction l as [|x l IH]; intros n H; [by rewrite drop_nil|]. destruct n as [|n]; [cbn [drop]; lia|]. cbn [drop drawn_count]. unfold prefixed in *. cbn [drawn_count] in H.
  destruct (drawn x) eqn:E; cbn [drop] in H; [by rewrite IH|]. rewrite Nat.sub_0_l. apply list.Forall_cons in H as [_ H]. rewrite <- (app_nil_l (drop n l)), drawn_count_app; [done|]. by apply Forall_drop.
Qed.

Lemma prefixed_drop n l : prefixed l → prefixed (drop n l).
Proof.
  intros H. unfold prefixed. rewrite drawn_count_drop, drop_drop by done. unfold prefixed in H.
  destruct (decide (n ≤ drawn_count l)%nat); [by replace (n + (drawn_count l - n))%nat with (drawn_count l) by lia|].
  replace (n + (drawn_count l - n))%nat with (drawn_count l + (n - drawn_count l))%nat by lia. rewrite <- drop_drop. by apply Forall_drop.
Qed.

Lemma stall_ok p : pred_ok p → pred_ok (stall p) ∧ confirmed (stall p) = false.
Proof.
  intros [H1 H2 H3]. split.
  - split; cbn; [..|lia]; [apply prefixed_all|]; apply Forall_forall; intros x Hx; apply list_elem_of_filter in Hx as [Hd Hx]; [done|].
    rewrite Forall_forall in H2. specialize (H2 x Hx). lia.
  - unfold confirmed. cbn. apply Z.eqb_neq. lia.
Qed.

(** Nothing of a run but what is owed, drawn or queued changes. *)
Definition same_run (p p' : Predictor) : Prop := now_epoch p' = now_epoch p ∧ confirmed_epoch p' = confirmed_epoch p.

Lemma queue_ok p bytes sent : pred_ok p → pred_ok (queue p bytes sent) ∧ same_run p (queue p bytes sent).
Proof.
  intros [H1 H2 H3]. split; [|done]. split; cbn; [|apply Forall_app; split; [done|]|done].
  - apply prefixed_app; [done|]. by apply Forall_fmap, Forall_true.
  - apply Forall_fmap, Forall_true. cbn. lia.
Qed.

Lemma erase_ok n p sent : pred_ok p → pred_ok (erase_loop n p sent) ∧ same_run p (erase_loop n p sent).
Proof.
  revert p. induction n as [|n IH]; intros p Hp; cbn [erase_loop]; [done|]. destruct (last (run_cells p)) as [w|]; [|by apply IH].
  destruct (queue_ok (p <| run_cells := removelast (run_cells p) |>) (erase_echo w) sent) as [H1 H2]; [by destruct Hp; split|].
  destruct (IH _ H1) as [H3 H4]. split; [done|]. destruct H2, H4. by split; etrans.
Qed.

Lemma release_ok p : pred_ok p → pred_ok (release char_width p).1 ∧ same_run p (release char_width p).1.
Proof.
  intros [H1 H2 H3]. unfold release. destruct (negb (drawing_now p)); [by split|]. split; [|done]. split; cbn; [|by apply Forall_fmap|done].
  by apply prefixed_all, Forall_fmap, Forall_true.
Qed.

Lemma promoted_ok p n : pred_ok p → pred_ok (promoted p (confirms p n)) ∧ now_epoch (promoted p (confirms p n)) = now_epoch p ∧ outstanding (promoted p (confirms p n)) = outstanding p.
Proof.
  intros Hp. pose proof Hp as [H1 H2 H3]. unfold confirms. destruct (_ || _); [done|]. destruct (last (outstanding p)) as [x|] eqn:E; [|done]. cbn.
  destruct (sent_as x), (delivered p); try done. destruct (_ <=? _); [|done]. split; [|done]. split; cbn; [done|done|].
  apply last_Some_elem_of in E. rewrite Forall_forall in H2. specialize (H2 x E). lia.
Qed.

Lemma end_run_ok p follows : pred_ok p → pred_ok (end_run char_width p follows).1 ∧ confirmed (end_run char_width p follows).1 = false.
Proof.
  intros [H1 H2 H3]. unfold end_run. destruct (plan_repair char_width p follows) as [p' r] eqn:E.
  assert (now_epoch p' = now_epoch p ∧ confirmed_epoch p' = confirmed_epoch p) as [E1 E2].
  { unfold plan_repair in E. destruct (bool_decide _); [by injection E as <- <-|]. repeat case_match; by injection E as <- <-. }
  cbn. split; [split; cbn; [apply prefixed_nil|constructor|lia]|]. unfold confirmed. cbn. apply Z.eqb_neq. lia.
Qed.

Lemma confirmed_same p p' : same_run p p' → confirmed p' = confirmed p.
Proof. intros [H1 H2]. unfold confirmed. by rewrite H1, H2. Qed.

(** A keystroke ends the run or stays in it, and draws only in a confirmed one. *)
Lemma predict_ok p typed sent since : pred_ok p →
  let r := predict char_width p typed sent since in
  pred_ok r.1 ∧ (confirmed r.1 = false ∨ same_run p r.1) ∧ (r.2 ≠ [] → confirmed p = true).
Proof.
  intros Hp. unfold predict. set (p0 := match since with Interrupted => stall p | Continuous => p end).
  assert (pred_ok p0 ∧ (confirmed p0 = false ∨ p0 = p)) as [H0 Hc0] by (unfold p0; destruct since; [by split; [|right]|destruct (stall_ok p Hp); by split; [|left]]).
  assert (pred_ok (stall p0) ∧ confirmed (stall p0) = false) as [S1 S2] by (by apply stall_ok).
  assert (∀ q, pred_ok q → same_run p0 q → let r := release char_width q in pred_ok r.1 ∧ (confirmed r.1 = false ∨ same_run p r.1)) as Hrel.
  { intros q Hq Hs. destruct (release_ok q Hq) as [R1 R2]. split; [done|]. destruct Hc0 as [Hc0| ->]; [left|right; by destruct Hs, R2; split; etrans].
    by rewrite (confirmed_same _ _ R2), (confirmed_same _ _ Hs). }
  assert (confirmed p0 = true → confirmed p = true) as Hback by (destruct Hc0 as [->| ->]; done).
  destruct (cue p0) as [|room]; [by split_and!; [|left|]|]. destruct (keystroke char_width typed) as [[text cols|cells]|]; [| |by split_and!; [|left|]].
  - destruct (_ && _); [|by split_and!; [|left|]].
    set (q := (queue p0 typed sent) <| run_cells := _ |>). destruct (queue_ok p0 typed sent H0) as [Q1 Q2].
    assert (pred_ok q) as Hq by (by destruct Q1; split). assert (same_run p0 q) as Hs by done. destruct (confirmed q) eqn:Ec; cbn [negb].
    + destruct (Hrel q Hq Hs) as [R1 R2]. split_and!; [done|done|]. intros _. apply Hback. by rewrite <- (confirmed_same _ _ Hs).
    + by split_and!; [|left|].
  - destruct (confirmed p0) eqn:Ec; cbn [andb]; [|by split_and!; [|left|]]. destruct (_ && _); [|by split_and!; [|left|]].
    destruct (erase_ok cells p0 sent H0) as [Q1 Q2]. destruct (Hrel _ Q1 Q2) as [R1 R2]. split_and!; [done|done|]. intros _. by apply Hback.
Qed.

Lemma agreed_spec l s : take (agreed l s) (byte <$> l) = take (agreed l s) s ∧ (agreed l s ≤ length l)%nat ∧ (agreed l s ≤ length s)%nat.
Proof.
  revert s. induction l as [|x l IH]; intros [|b s]; cbn; try (split_and!; done || lia). destruct (Z.eqb_spec (byte x) b) as [->|]; [|split_and!; done || lia].
  destruct (IH s) as (H1 & H2 & H3). cbn. split_and!; [by f_equal|lia|lia].
Qed.

Lemma confirms_spec p n r : confirms p n = Some r → (0 < n)%nat ∧ (length (outstanding p) ≤ n)%nat ∧
  ∃ x seq d, last (outstanding p) = Some x ∧ r = epoch x ∧ sent_as x = Some seq ∧ delivered p = Some d ∧ seq ≤ d.
Proof.
  unfold confirms. destruct (Nat.eqb_spec n 0); [done|]. destruct (Nat.ltb_spec n (length (outstanding p))); [done|]. cbn [orb].
  destruct (last (outstanding p)) as [x|]; [|done]. cbn. destruct (sent_as x) as [seq|] eqn:Es; [|done]. destruct (delivered p) as [d|]; [|done].
  destruct (Z.leb_spec seq d); [|done]. intros [= <-]. split_and!; [lia|lia|]. by exists x, seq, d.
Qed.

(** A promotion confirms the run only by a match that covers it. *)
Lemma promoted_confirms p n : pred_ok p → confirmed (promoted p (confirms p n)) = true → confirmed p = true ∨ confirms p n = Some (now_epoch p).
Proof.
  intros Hp. pose proof Hp as [H1 H2 H3]. destruct (confirms p n) as [r|] eqn:E; cbn [promoted]; [|by left].
  apply confirms_spec in E as (_ & _ & x & _ & _ & Hx & -> & _). apply last_Some_elem_of in Hx. rewrite Forall_forall in H2. specialize (H2 x Hx).
  unfold confirmed. cbn. rewrite !Z.eqb_eq. intros H. destruct (decide (now_epoch p = confirmed_epoch p)); [by left|right]. f_equal. lia.
Qed.

Lemma promoted_same p r : delivered (promoted p r) = delivered p ∧ outstanding (promoted p r) = outstanding p ∧ now_epoch (promoted p r) = now_epoch p.
Proof. by destruct r. Qed.

Lemma last_drop {A} n (l : list A) x : last (drop n l) = Some x → last l = Some x.
Proof. intros H. rewrite <- (take_drop n l). by rewrite last_app, H. Qed.

Lemma accounts_same p extent : ∃ u, (rewrite_accounts_for_the_run char_width p extent).2 = p <| undoing := u |>.
Proof. unfold rewrite_accounts_for_the_run. destruct (clears_tail extent); [|by eexists]. exists (undoing p). by destruct p. Qed.

(** The rewrite arm, from the predictor with what was echoed gone. *)
Lemma rewritten_ok p restated extent : pred_ok p →
  let q := rewritten p restated extent in
  pred_ok q ∧ now_epoch q = now_epoch p ∧ (confirmed q = true → confirmed p = true ∨ confirms p restated = Some (now_epoch p)).
Proof.
  intros Hp. destruct (promoted_ok p restated Hp) as (P1 & P2 & P3). pose proof P1 as [H1 H2 H3]. unfold rewritten.
  set (p1 := promoted p (confirms p restated)) in *.
  set (p2 := if (0 <? restated)%nat then _ else _).
  assert (same_run p1 p2) as [S1 S2] by (unfold p2; destruct (0 <? restated)%nat, (negb (confirmed p1)); done).
  assert (Forall (λ x, epoch x ≤ now_epoch p1) (outstanding p2)) by (unfold p2; destruct (0 <? restated)%nat, (negb (confirmed p1)); cbn; by first [apply Forall_drop|constructor|done]).
  split_and!.
  - split; cbn; [apply prefixed_none, Forall_fmap, Forall_true; done|apply Forall_fmap; by rewrite S1|lia].
  - cbn. congruence.
  - intros Hc. apply promoted_confirms; [done|]. fold p1. unfold confirmed in *. cbn in Hc. by rewrite S1, S2 in Hc.
Qed.

(** Output keeps the invariant, and confirms the run only when it is evidence. *)
Lemma absorb_pred p session cue_ ack : pred_ok p →
  let q := (absorb char_width p session cue_ ack).1 in
  pred_ok q ∧ (confirmed q = true → now_epoch q = now_epoch p ∧ (confirmed p = true ∨ evidence p session)).
Proof.
  intros Hp. unfold absorb. set (p0 := p <| cue := cue_ |>). assert (pred_ok p0) as H0 by (by destruct Hp; split).
  set (n := agreed (outstanding p0) session). destruct (agreed_spec (outstanding p0) session) as (A1 & A2 & A3). fold n in A1, A2, A3.
  destruct (promoted_ok p0 n H0) as (P1 & P2 & P3). pose proof (promoted_confirms p0 n H0) as Pc. set (p1 := promoted p0 (confirms p0 n)) in *.
  set (p2 := if (0 <? n)%nat then _ else p1).
  assert (outstanding p2 = drop n (outstanding p) ∧ same_run p1 p2 ∧ delivered p2 = delivered p) as (D1 & D2 & D3).
  { destruct (promoted_same p0 (confirms p0 n)) as (E1 & _ & _). fold p1 in E1. unfold p2. destruct (Nat.ltb_spec 0 n).
    - split_and!; [|done|exact E1]. change (drop n (outstanding p1) = drop n (outstanding p0)). by rewrite P3.
    - replace n with O by lia. rewrite drop_0. by split_and!. }
  assert (pred_ok p2) as H2.
  { pose proof P1 as [Q1 Q2 Q3]. destruct D2 as [E1 E2]. split; [rewrite D1; change (outstanding p) with (outstanding p0); rewrite <- P3; by apply prefixed_drop| |lia].
    rewrite D1, E1. change (outstanding p) with (outstanding p0). rewrite <- P3. by apply Forall_drop. }
  assert (now_epoch p2 = now_epoch p) as Ee by (destruct D2 as [-> _]; exact P2).
  assert (confirmed p2 = true → confirmed p = true ∨ evidence p session) as Hc2.
  { rewrite (confirmed_same _ _ D2). intros H. destruct (Pc H) as [|Hc]; [by left|right].
    apply confirms_spec in Hc as (Hn & Hl & x & seq & d & ? & ? & ? & ? & ?). exists x, seq, d. split_and!; try done.
    exists (owed_bytes p), [], (drop n session). rewrite app_nil_r. split_and!; [done| |by left]. rewrite <- (take_drop n session) at 1. f_equal. rewrite <- A1. change (owed_bytes p) with (byte <$> outstanding p0). apply take_ge. rewrite length_fmap. lia. }
  clearbody p2. assert (∀ (q q' : Predictor), same_run q q' → outstanding q' = outstanding q → pred_ok q → pred_ok q') as Hext.
  { intros q q' [E1 E2] Eo [Q1 Q2 Q3]. split; rewrite ?Eo, ?E1, ?E2; done. }
  destruct (drop n session) as [|b rest] eqn:Er.
  { split; [by apply (Hext p2)|]. intros Hc. split; [done|]. by apply Hc2. }
  destruct (restates_row (b :: rest)) eqn:Hrow.
  - set (k := restated_tail (owed_bytes p2) (b :: rest)). set (ex := rewrite_extent char_width (b :: rest)).
    assert (∃ acc u, (if (k =? 0)%nat then rewrite_accounts_for_the_run char_width p2 ex else (true, p2)) = (acc, p2 <| undoing := u |>)) as (acc & u & ->).
    { destruct (k =? 0)%nat; [|exists true, (undoing p2); by destruct p2]. destruct (accounts_same p2 ex) as [u Hu]. destruct (rewrite_accounts_for_the_run char_width p2 ex) as [acc q]. cbn in Hu. exists acc, u. by rewrite Hu. }
    set (p3 := p2 <| undoing := u |>). assert (pred_ok p3) as H3 by (by apply (Hext p2)).
    destruct acc; cbn [negb].
    + destruct (rewritten_ok p3 k ex H3) as (R1 & R2 & R3). split; [done|]. cbn [fst]. intros Hc. split; [by rewrite R2|]. destruct (R3 Hc) as [Hc'|Hc']; [by apply Hc2|].
      apply confirms_spec in Hc' as (Hk & Hl & x & seq & d & Hx & He & Hs & Hd & Hsd). right. change (outstanding p3) with (outstanding p2) in *. change (delivered p3) with (delivered p2) in Hd. change (now_epoch p3) with (now_epoch p2) in He. rewrite D1 in Hx, Hl. rewrite D3 in Hd.
      exists x, seq, d. split_and!; try done; [by eapply last_drop|congruence|].
      exists (take n (owed_bytes p)), (drop n (owed_bytes p)), (b :: rest). split_and!; [by rewrite take_drop| |right].
      * unfold owed_bytes. change (outstanding p) with (outstanding p0). rewrite A1, <- Er. by rewrite take_drop.
      * unfold restates_row in Hrow. apply andb_prop in Hrow as [Hrow _]. apply bool_decide_eq_true in Hrow. cbn in Hrow. injection Hrow as ->. split; [done|].
        assert (owed_bytes p2 = drop n (owed_bytes p)) as <- by (unfold owed_bytes; by rewrite D1, fmap_drop).
        destruct (longest_spec (owed_bytes p2) (length (owed_bytes p2)) (13 :: rest)) as [L1 L2 _]. rewrite <- restated_tail_is_longest in L1, L2. fold k in L1, L2.
        rewrite take_ge in L2; [done|]. unfold owed_bytes. rewrite length_fmap, D1. lia.
    + destruct (end_run_ok p3 [] H3) as [R1 R2]. destruct (end_run char_width p3 []) as [q r]. cbn [fst] in *. split; [done|]. by rewrite R2.
  - destruct (unanswered p2 ack) as [seq|].
    + split; [by apply (Hext p2)|]. intros Hc. split; [done|]. by apply Hc2.
    + destruct (end_run_ok p2 (b :: rest) H2) as [R1 R2]. destruct (end_run char_width p2 (b :: rest)) as [q r]. cbn [fst] in *. split; [done|]. by rewrite R2.
Qed.

Lemma step_pred p e : pred_ok p →
  pred_ok (step p e) ∧
  (confirmed (step p e) = true →
   confirmed p = true ∧ now_epoch (step p e) = now_epoch p ∨ now_epoch (step p e) = now_epoch p ∧ ∃ s c a, e = EAbsorb s c a ∧ evidence p s).
Proof.
  intros Hp. assert (∀ q, same_run p q → outstanding q = outstanding p → pred_ok q ∧ (confirmed q = true → confirmed p = true ∧ now_epoch q = now_epoch p ∨ now_epoch q = now_epoch p ∧ ∃ s c a, e = EAbsorb s c a ∧ evidence p s)) as Hsame.
  { intros q Hs Ho. rewrite (confirmed_same _ _ Hs). pose proof Hs as [E1 E2]. destruct Hp as [Q1 Q2 Q3]. split; [split; rewrite ?Ho, ?E1, ?E2; done|]. by left. }
  destruct e as [typed sent since|s c a|h|a| | |srtt]; cbn [step].
  - destruct (predict_ok p typed sent since Hp) as (H1 & H2 & _). split; [done|]. destruct H2 as [->|H2]; [done|]. rewrite (confirmed_same _ _ H2). destruct H2 as [-> _]. by left.
  - destruct (absorb_pred p s c a Hp) as [H1 H2]. split; [done|]. intros Hc. destruct (H2 Hc) as [He [?|?]]; [by left|right; eauto 6].
  - by apply Hsame.
  - unfold echo_ack. destruct (deferred p); [|by apply Hsame]. destruct (after_ack _ _); [by apply Hsame|].
    destruct (end_run_ok p [] Hp) as [R1 R2]. destruct (end_run char_width p []) as [q r]. cbn [fst] in *. split; [done|]. by rewrite R2.
  - unfold invalidate. destruct (end_run_ok p [] Hp) as [R1 R2]. destruct (end_run char_width p []) as [q r]. cbn [fst] in *.
    split; [by destruct R1; split|]. change (confirmed (q <| cue := Fields.Opaque_ |>)) with (confirmed q). by rewrite R2.
  - by apply Hsame.
  - destruct srtt as [srtt|]; [|by apply Hsame]. cbn. destruct (_ <? _); [by apply Hsame|]. destruct (_ && _); by apply Hsame.
Qed.

Lemma run_pred mode es : pred_ok (run mode es).
Proof.
  induction es as [|e es IH] using rev_ind; [split; cbn; [apply prefixed_nil|constructor|lia]|]. unfold run. rewrite foldl_app. by apply step_pred.
Qed.

(** A confirmed run was confirmed by output that is evidence, and has not ended since. *)
Lemma confirmed_by_evidence mode es : confirmed (run mode es) = true →
  ∃ es1 s c a es2, es = es1 ++ EAbsorb s c a :: es2 ∧ now_epoch (run mode es1) = now_epoch (run mode es) ∧ evidence (run mode es1) s.
Proof.
  induction es as [|e es IH] using rev_ind; [done|]. assert (run mode (es ++ [e]) = step (run mode es) e) as -> by (unfold run; by rewrite foldl_app).
  intros Hc. destruct (step_pred (run mode es) e (run_pred mode es)) as [_ H]. destruct (H Hc) as [[H1 H2]|(H2 & s & c & a & -> & He)].
  - destruct (IH H1) as (es1 & s & c & a & es2 & -> & E1 & E2). exists es1, s, c, a, (es2 ++ [e]). rewrite H2. split_and!; [|done|done]. by rewrite <- app_assoc.
  - exists es, s, c, a, []. rewrite H2. done.
Qed.

(** ** The terminal *)

(** A client at a session: what was written to its terminal, and what the session has output.  The
    session's output is the next of the echo owed, or comes while nothing is drawn. *)
Inductive typing (mode : Prediction) : Predictor → list Z → list Z → Prop :=
| ty_new : typing mode (new mode) [] []
| ty_key p shown said typed sent since :
    typing mode p shown said →
    let r := predict char_width p typed sent since in typing mode r.1 (shown ++ r.2) said
| ty_output p shown said s c a :
    typing mode p shown said → s `prefix_of` owed_bytes p ∨ drawn_bytes p = [] →
    let r := absorb char_width p s c a in typing mode r.1 (shown ++ drop (skip r.2) s) (said ++ s)
| ty_acknowledged p shown said h : typing mode p shown said → typing mode (acknowledged p h) shown said
| ty_rtt p shown said srtt : typing mode p shown said → typing mode (observed_rtt p srtt) shown said.

Lemma prefixed_split l : prefixed l →
  base.filter (λ x, drawn x = true) l = take (drawn_count l) l ∧ base.filter (λ x, drawn x = false) l = drop (drawn_count l) l.
Proof.
  intros H. assert (Forall (λ x, drawn x = true) (take (drawn_count l) l)) as Ht by (clear; induction l as [|x l IH]; cbn; [constructor|]; destruct (drawn x) eqn:E; cbn; by constructor).
  unfold prefixed in H. revert Ht H. generalize (take_drop (drawn_count l) l). generalize (take (drawn_count l) l), (drop (drawn_count l) l). intros x y <- Ht H.
  rewrite !filter_app. split.
  - rewrite (filter_true _ x), (filter_false _ y), app_nil_r; [done| |done]. eapply Forall_impl; [exact H|]. cbn. congruence.
  - rewrite (filter_false _ x), (filter_true _ y), app_nil_l; [done|done|]. eapply Forall_impl; [exact Ht|]. cbn. congruence.
Qed.

Lemma stall_drawn p : pred_ok p → drawn_bytes (stall p) = drawn_bytes p.
Proof.
  intros [H _ _]. unfold drawn_bytes. cbn. destruct (prefixed_split _ H) as [E _]. rewrite E, drawn_count_all.
  - by rewrite firstn_all.
  - rewrite <- E. apply Forall_forall. intros x Hx. by apply list_elem_of_filter in Hx as [? _].
Qed.

Lemma queue_drawn p bytes sent : drawn_bytes (queue p bytes sent) = drawn_bytes p.
Proof.
  unfold drawn_bytes. cbn. rewrite drawn_count_app by (by apply Forall_fmap, Forall_true). by rewrite take_app_le by apply drawn_count_le.
Qed.

Lemma erase_drawn n p sent : drawn_bytes (erase_loop n p sent) = drawn_bytes p.
Proof.
  revert p. induction n as [|n IH]; intros p; cbn [erase_loop]; [done|]. destruct (last (run_cells p)); [|done]. by rewrite IH, queue_drawn.
Qed.

Lemma release_drawn p : pred_ok p → drawn_bytes (release char_width p).1 = drawn_bytes p ++ (release char_width p).2.
Proof.
  intros [H _ _]. unfold release. destruct (negb (drawing_now p)); cbn [fst snd]; [by rewrite app_nil_r|].
  destruct (prefixed_split _ H) as [_ ->]. unfold drawn_bytes. cbn. rewrite drawn_count_all, firstn_all by (by apply Forall_fmap, Forall_true).
  rewrite <- fmap_app, take_drop, <- list_fmap_compose. done.
Qed.

(** A keystroke adds to what is drawn exactly what it has the terminal shown. *)
Lemma predict_draws p typed sent since : pred_ok p →
  let r := predict char_width p typed sent since in drawn_bytes r.1 = drawn_bytes p ++ r.2.
Proof.
  intros Hp. unfold predict. set (p0 := match since with Interrupted => stall p | Continuous => p end).
  assert (pred_ok p0) as H0 by (unfold p0; destruct since; [done|by apply stall_ok]).
  assert (drawn_bytes p0 = drawn_bytes p) as <- by (unfold p0; destruct since; [done|by apply stall_drawn]).
  assert (drawn_bytes (stall p0) = drawn_bytes p0 ++ []) as Hst by (rewrite app_nil_r; by apply stall_drawn).
  destruct (cue p0) as [|room]; [done|]. destruct (keystroke char_width typed) as [[text cols|cells]|]; [| |done].
  - destruct (_ && _); [|done]. set (q := (queue p0 typed sent) <| run_cells := _ |>). assert (drawn_bytes q = drawn_bytes p0) as <- by exact (queue_drawn p0 typed sent).
    destruct (confirmed q); cbn [negb]; [|by rewrite app_nil_r]. apply release_drawn. destruct (queue_ok p0 typed sent H0) as [[] _]; by split.
  - destruct (_ && _); [|done]. rewrite <- (erase_drawn cells p0 sent). apply release_drawn. by apply erase_ok.
Qed.

Lemma drawn_count_take n l : drawn_count (take n l) = (n `min` drawn_count l)%nat.
Proof. revert n. induction l as [|x l IH]; intros [|n]; cbn [take drawn_count]; [done|lia|done|]. destruct (drawn x); [|lia]. rewrite IH. lia. Qed.

Lemma agreed_prefix l s : s `prefix_of` byte <$> l → agreed l s = length s.
Proof.
  revert s. induction l as [|x l IH]; intros [|b s] [k Hk]; try done. cbn in *. injection Hk as -> Hk. rewrite Z.eqb_refl. f_equal. apply IH. by exists k.
Qed.

(** Output that is only echo takes the drawn of it off what is drawn. *)
Lemma echo_drawn p s c a : pred_ok p → s `prefix_of` owed_bytes p →
  let r := absorb char_width p s c a in
  repair r.2 = NoRepair ∧ drawn_bytes p ++ drop (skip r.2) s = s ++ drawn_bytes r.1.
Proof.
  intros [H _ _] Hs. pose proof (agreed_prefix _ _ Hs) as Hn. assert (take (length s) (byte <$> outstanding p) = s) as Ht by (destruct Hs as [k Hk]; unfold owed_bytes in Hk; rewrite Hk; apply take_app_length).
  unfold absorb. cbn [outstanding assign]. change (outstanding (p <| cue := c |>)) with (outstanding p). rewrite Hn, drop_all. cbn [fst snd repair skip]. split; [done|].
  set (q := if (0 <? length s)%nat then _ else _). assert (drawn_bytes (q <| column := column_after char_width (column q) (drop (drawn_count (take (length s) (outstanding p))) s) |>) = byte <$> take (drawn_count (outstanding p) - length s) (drop (length s) (outstanding p))) as ->.
  { unfold drawn_bytes. cbn. assert (outstanding q = drop (length s) (outstanding p)) as ->; [|by rewrite drawn_count_drop].
    unfold q. destruct (Nat.ltb_spec 0 (length s)); cbn; destruct (promoted_same (p <| cue := c |>) (confirms (p <| cue := c |>) (length s))) as (_ & E & _); rewrite E; [done|]. by replace (length s) with O by lia. }
  rewrite drawn_count_take.
  unfold drawn_bytes. set (d := drawn_count (outstanding p)). destruct (decide (length s ≤ d)%nat).
  - rewrite Nat.min_l, drop_all, app_nil_r by lia. transitivity (take (length s) (byte <$> outstanding p) ++ (byte <$> take (d - length s) (drop (length s) (outstanding p)))); [|by rewrite Ht].
    rewrite <- fmap_take, <- fmap_app, take_take_drop. do 2 f_equal. lia.
  - rewrite Nat.min_r by lia. replace (d - length s)%nat with O by lia. cbn. rewrite app_nil_r. rewrite fmap_take.
    replace (take d (byte <$> outstanding p)) with (take d s) by (rewrite <- Ht at 1; rewrite take_take; f_equal; lia). apply take_drop.
Qed.

Lemma nothing_drawn p : pred_ok p → drawn_bytes p = [] ↔ Forall (λ x, drawn x = false) (outstanding p).
Proof.
  intros [H _ _]. unfold drawn_bytes, prefixed in *. split.
  - intros E. apply fmap_nil_inv, (f_equal length) in E. rewrite length_take in E. pose proof (drawn_count_le (outstanding p)). replace (drawn_count (outstanding p)) with O in H by (cbn in E; lia). done.
  - intros E. rewrite <- (app_nil_l (outstanding p)) at 1. by rewrite drawn_count_app.
Qed.

Lemma end_run_empty p follows : outstanding (end_run char_width p follows).1 = [].
Proof. unfold end_run. by destruct (plan_repair char_width p follows). Qed.

(** Output while nothing is drawn is shown whole, and leaves nothing drawn. *)
Lemma quiet_output p s c a : pred_ok p → drawn_bytes p = [] → let r := absorb char_width p s c a in skip r.2 = O ∧ drawn_bytes r.1 = [].
Proof.
  intros Hp Hd r. destruct (absorb_pred p s c a Hp) as [Hq _]. fold r in Hq. rewrite (nothing_drawn _ Hq). apply nothing_drawn in Hd; [|done]. clear Hq.
  unfold r, absorb. change (outstanding (p <| cue := c |>)) with (outstanding p). set (n := agreed (outstanding p) s).
  assert (drawn_count (take n (outstanding p)) = O) as -> by (rewrite <- (app_nil_l (take n _)), drawn_count_app; [done|by apply Forall_take]).
  set (p2 := if (0 <? n)%nat then _ else _).
  assert (Forall (λ x, drawn x = false) (outstanding p2)) as H2.
  { unfold p2. destruct (0 <? n)%nat; cbn; destruct (promoted_same (p <| cue := c |>) (confirms (p <| cue := c |>) n)) as (_ & E & _); rewrite E; [by apply Forall_drop|done]. }
  clearbody p2. destruct (drop n s) as [|b rest]; [done|]. destruct (restates_row _).
  - destruct (if _ =? 0 then _ else _)%nat as [acc p3] eqn:E. destruct acc; cbn [negb].
    + split; [done|]. unfold rewritten. cbn. by apply Forall_fmap, Forall_true.
    + pose proof (end_run_empty p3 []) as H. destruct (end_run char_width p3 []) as [q rep]. cbn in *. rewrite H. done.
  - destruct (unanswered p2 a); [done|]. pose proof (end_run_empty p2 (b :: rest)) as H. destruct (end_run char_width p2 (b :: rest)) as [q rep]. cbn in *. by rewrite H.
Qed.

Lemma typing_shows mode p shown said : typing mode p shown said → pred_ok p ∧ shown = said ++ drawn_bytes p.
Proof.
  induction 1 as [|p shown said typed sent since _ [Hp ->] r|p shown said s c a _ [Hp ->] Hs r|p shown said h _ [Hp ->]|p shown said srtt _ [Hp ->]].
  - split; [apply (run_pred mode [])|done].
  - split; [by apply predict_ok|]. unfold r. by rewrite predict_draws, app_assoc.
  - split; [by apply absorb_pred|]. unfold r. destruct Hs as [Hs|Hs].
    + destruct (echo_drawn p s c a Hp Hs) as [_ E]. by rewrite <- !app_assoc, E.
    + destruct (quiet_output p s c a Hp Hs) as [-> E]. by rewrite E, Hs, !app_nil_r, drop_0.
  - split; [apply (step_pred p (EAcknowledged h) Hp)|done].
  - split; [apply (step_pred p (ERtt srtt) Hp)|]. unfold observed_rtt. destruct srtt; [|done]. destruct (_ <? _); [done|]. by destruct (_ && _).
Qed.

(** C18: nothing typed is ever drawn before the session has echoed: whatever a client types, receives,
    loses and resizes, when a keystroke has bytes drawn then the run it belongs to was confirmed,
    without having ended since, by output in which everything owed at the time came back, the last of
    it typed in this very run and handed to the shell before that output was read. *)
Theorem drawing_needs_an_echo mode es typed sent since :
  (predict char_width (run mode es) typed sent since).2 ≠ [] →
  ∃ es1 s c a es2, es = es1 ++ EAbsorb s c a :: es2 ∧ now_epoch (run mode es1) = now_epoch (run mode es) ∧ evidence (run mode es1) s.
Proof. intros H. apply confirmed_by_evidence. by apply (predict_ok (run mode es) typed sent since (run_pred mode es)). Qed.

(** C38: at a session that echoes, the terminal shows what the session has said and then what is drawn
    ahead of it, each byte once: what is drawn is always the front of what is owed, a keystroke adds
    what it draws, and echo of it is not shown again, wherever the chunks of it are cut. *)
Theorem typed_bytes_show_once mode p shown said : typing mode p shown said →
  shown = said ++ drawn_bytes p ∧ drawn_bytes p `prefix_of` owed_bytes p ∧ Forall (λ x, drawn x = false) (drop (length (drawn_bytes p)) (outstanding p)).
Proof.
  intros H. apply typing_shows in H as [[H _ _] ->]. split_and!; [done| |].
  - exists (byte <$> drop (drawn_count (outstanding p)) (outstanding p)). unfold drawn_bytes, owed_bytes. by rewrite <- fmap_app, take_drop.
  - unfold drawn_bytes. rewrite length_fmap, length_take, Nat.min_l by apply drawn_count_le. exact H.
Qed.

End sessions.

(** ** At a concrete session *)

(** Every printable ASCII character takes a cell. *)
Definition ascii_width (ch : Z) : option Z := if between 32 ch 126 then Some 1 else None.
Definition echoing : Fields.InputCue := Fields.Echoing 40.

(** A prompt; [l] is typed, handed to the shell and echoed; then [s] is typed. *)
Definition typed_l : list Event :=
  [EAbsorb [36; 32] echoing None; EPredict [108] (Some 1) Continuous; EAcknowledged 1].
Definition demo : list Event := typed_l ++ [EAbsorb [108] echoing (Some 1)].

Lemma drawing_needs_an_echo_witness :
  (predict ascii_width (run ascii_width Adaptive demo) [115] (Some 2) Continuous).2 = [115] ∧
  ∃ es1 s c a es2, demo = es1 ++ EAbsorb s c a :: es2 ∧ now_epoch (run ascii_width Adaptive es1) = now_epoch (run ascii_width Adaptive demo) ∧ evidence (run ascii_width Adaptive es1) s.
Proof. split; [reflexivity|]. apply (drawing_needs_an_echo ascii_width Adaptive demo [115] (Some 2) Continuous). vm_compute. discriminate. Defined.

(** The same session, and what its terminal shows. *)
Definition at_prompt : Predictor := Eval vm_compute in run ascii_width Adaptive [EAbsorb [36; 32] echoing None].
Definition l_typed : Predictor := Eval vm_compute in run ascii_width Adaptive typed_l.
Definition after_l : Predictor := Eval vm_compute in run ascii_width Adaptive demo.
Definition after_s : Predictor := Eval vm_compute in (predict ascii_width after_l [115] (Some 2) Continuous).1.

Lemma output_shows mode p shown said s c a p' n : typing ascii_width mode p shown said → drawn_bytes p = [] →
  (absorb ascii_width p s c a).1 = p' → skip (absorb ascii_width p s c a).2 = n → typing ascii_width mode p' (shown ++ drop n s) (said ++ s).
Proof. intros H Hd <- <-. by apply ty_output; [|right]. Qed.
Lemma key_shows mode p shown said typed sent since p' more : typing ascii_width mode p shown said →
  (predict ascii_width p typed sent since).1 = p' → (predict ascii_width p typed sent since).2 = more → typing ascii_width mode p' (shown ++ more) said.
Proof. intros H <- <-. by apply ty_key. Qed.

Lemma after_s_typing : typing ascii_width Adaptive after_s [36; 32; 108; 115] [36; 32; 108].
Proof.
  assert (typing ascii_width Adaptive at_prompt [36; 32] [36; 32]) as H1.
  { apply (output_shows Adaptive (new Adaptive) [] [] [36; 32] echoing None at_prompt 0); [constructor|vm_compute; reflexivity..]. }
  assert (typing ascii_width Adaptive l_typed [36; 32] [36; 32]) as H2.
  { apply (ty_acknowledged ascii_width Adaptive (predict ascii_width at_prompt [108] (Some 1) Continuous).1 [36; 32] [36; 32] 1).
    by apply (key_shows Adaptive at_prompt [36; 32] [36; 32] [108] (Some 1) Continuous _ []). }
  assert (typing ascii_width Adaptive after_l [36; 32; 108] [36; 32; 108]) as H3.
  { apply (output_shows Adaptive l_typed [36; 32] [36; 32] [108] echoing (Some 1) after_l 0); [exact H2|vm_compute; reflexivity..]. }
  apply (key_shows Adaptive after_l [36; 32; 108] [36; 32; 108] [115] (Some 2) Continuous after_s [115]); [exact H3|vm_compute; reflexivity..].
Qed.

Lemma typed_bytes_show_once_witness : [36; 32; 108; 115] = [36; 32; 108] ++ drawn_bytes after_s ∧ drawn_bytes after_s = [115].
Proof. split; [apply (typed_bytes_show_once ascii_width Adaptive after_s _ _ after_s_typing)|vm_compute; reflexivity]. Defined.

End Predict.
