(* ===== verification/Ptyin.v ===== *)
(** * Bytes on their way into a shell ([crates/server/src/ptyin.rs])

    A session queues input under a lock and a thread of its own writes it, so that a shell that has
    stopped reading cannot stop the session.  The thread gives the lock up to write; what the write
    came to is an argument. *)

From S2P Require Import Prelude.

Module Ptyin.

Definition BACKLOG : Z := 1024 * 1024.

Record Buffer := mkBuffer { bytes : list Z; writing : Z; closed : bool; failed : bool }.
#[export] Instance Buffer_settable : Settable Buffer := λ b, mkBuffer (bytes b) (writing b) (closed b) (failed b).
Definition new_buffer : Buffer := {| bytes := []; writing := 0; closed := false; failed := false |}.

Definition write (b : Buffer) (input : list Z) : bool * Buffer :=
  if closed b || failed b || (BACKLOG <? len (bytes b) + writing b + len input) then (false, b)
  else (true, b <| bytes := bytes b ++ input |>).
(** [Drop for PtyInput] *)
Definition drop_ (b : Buffer) : Buffer := b <| closed := true |>.

(** The thread is at the head of its loop, waiting there or not, or writing its batch, or gone. *)
Inductive Doing := Top | Writing (batch : list Z) | Gone.

(** The section of the loop under the lock. *)
Definition turn (b : Buffer) : Buffer * Doing :=
  let b := b <| writing := 0 |> in
  match bytes b with
  | [] => (b, if closed b then Gone else Top)
  | batch => (b <| bytes := [] |> <| writing := len batch |>, Writing batch)
  end.
(** What became of the batch: written whole and flushed, or only its first [n] bytes. *)
Definition written (b : Buffer) (all : bool) : Buffer * Doing := if all then (b, Top) else (b <| failed := true |>, Gone).

(** ** The shell's input *)

(** [wrote] is what the shell was given, [given] what was accepted. *)
Record Pty := mkPty { buffer : Buffer; doing : Doing; wrote : list Z; given : list Z }.
Definition pty_new : Pty := mkPty new_buffer Top [] [].

Inductive Event := EWrite (input : list Z) | EDrop | ETurn | EWritten | EBroken (n : nat).

Definition step (p : Pty) (e : Event) : Pty :=
  match e, doing p with
  | EWrite input, d => let '(ok, b) := write (buffer p) input in mkPty b d (wrote p) (if ok then given p ++ input else given p)
  | EDrop, d => mkPty (drop_ (buffer p)) d (wrote p) (given p)
  | ETurn, Top => let '(b, d) := turn (buffer p) in mkPty b d (wrote p) (given p)
  | EWritten, Writing batch => let '(b, d) := written (buffer p) true in mkPty b d (wrote p ++ batch) (given p)
  | EBroken n, Writing batch => let '(b, d) := written (buffer p) false in mkPty b d (wrote p ++ take n batch) (given p)
  | _, _ => p
  end.

(** What the thread holds. *)
Definition held (d : Doing) : list Z := match d with Writing batch => batch | _ => [] end.

Record pty_ok (p : Pty) : Prop := {
  py_order : failed (buffer p) = false → given p = wrote p ++ held (doing p) ++ bytes (buffer p);
  py_broken : failed (buffer p) = true → wrote p `prefix_of` given p ∧ doing p = Gone;
  py_held : 0 ≤ writing (buffer p) ∧ len (held (doing p)) ≤ writing (buffer p);
  py_room : len (bytes (buffer p)) + writing (buffer p) ≤ BACKLOG
}.

Lemma pty_new_ok : pty_ok pty_new.
Proof. split; cbn; done || lia. Qed.

Lemma pty_step p e : pty_ok p → pty_ok (step p e).
Proof.
  intros Hp. pose proof Hp as [H1 H2 [H3 H4] H5]. destruct e as [input| | | |n]; cbn [step].
  - unfold write. destruct (_ || _) eqn:E; [by split|]. zbool. split; cbn; [|congruence|done|rewrite length_app; lia].
    intros Hf. by rewrite (H1 Hf), <- !app_assoc.
  - by split.
  - destruct (doing p) as [|batch|] eqn:Ed; [|done..]. unfold turn. cbn [bytes assign]. change (bytes ((buffer p) <| writing := 0 |>)) with (bytes (buffer p)).
    cbn [held app] in H1, H4. destruct (bytes (buffer p)) as [|x l] eqn:Eb.
    + split; cbn.
      * intros Hf. rewrite Eb. rewrite (H1 Hf). by destruct (closed (buffer p)).
      * intros Hf. by destruct (H2 Hf).
      * by destruct (closed (buffer p)).
      * rewrite Eb. done.
    + split; cbn.
      * intros Hf. rewrite (H1 Hf), app_nil_r. done.
      * intros Hf. by destruct (H2 Hf).
      * lia.
      * cbn [length] in *. lia.
  - destruct (doing p) as [|batch|] eqn:Ed; [done| |done]. split; cbn; try (lia || done).
    + intros Hf. by rewrite (H1 Hf), <- app_assoc.
    + intros Hf. by destruct (H2 Hf).
  - destruct (doing p) as [|batch|] eqn:Ed; [done| |done]. split; cbn; try (lia || done). intros _. split; [|done].
    destruct (failed (buffer p)) eqn:Ef; [by destruct (H2 eq_refl)|]. rewrite (H1 eq_refl). apply prefix_app. cbn [held]. exists (drop n batch ++ bytes (buffer p)). by rewrite app_assoc, take_drop.
Qed.

Lemma pty_run es : pty_ok (foldl step pty_new es).
Proof. induction es as [|e es IH] using rev_ind; [apply pty_new_ok|]. rewrite foldl_app. by apply pty_step. Qed.

(** A shell reads what was accepted for it: whatever the interleaving of writes with the thread,
    what was written, what the thread holds and what waits are the accepted input in order; after a
    write that failed, what was written is still the front of it; and no more than [BACKLOG] bytes
    are held. *)
Theorem shell_input_is_what_was_accepted es :
  let p := foldl step pty_new es in
  wrote p `prefix_of` given p ∧ (failed (buffer p) = false → given p = wrote p ++ held (doing p) ++ bytes (buffer p)) ∧
  len (held (doing p)) + len (bytes (buffer p)) ≤ BACKLOG.
Proof.
  intros p. destruct (pty_run es) as [H1 H2 [H3 H4] H5]. fold p in H1, H2, H3, H4, H5. split_and!; [|done|lia].
  destruct (failed (buffer p)); [by apply H2|]. rewrite (H1 eq_refl). by apply prefix_app_r.
Qed.

End Ptyin.
