(* ===== verification/Outbound.v ===== *)
(** * The sending half of a client ([crates/client/src/journal.rs], [outbound.rs])

    What is typed waits for a transport, is numbered when it reaches one, and is kept in a journal
    until the server acknowledges it.  A sink is its carriage; what it answers each frame it is handed
    is an argument, and the frames it took are a result ([Io]), each with the version it was encoded
    at.  The clock is an argument.  Buffers kept for reuse are not state, and the lock is held for the
    whole of each operation of [ClientWriter]. *)

From S2P Require Import Prelude Send Codec Fields Message.

Module Outbound.
Import Codec Fields.

Definition JOURNAL_CAPACITY : Z := 1024.
Definition MAX_PENDING_INPUT : Z := 256 * 1024.
Definition MIN_DATAGRAM_FRAME : Z := 1200 - 40.
Definition INPUT_OVERHEAD : Z := 4 + 1 + 8 + 4.
Definition FORWARD_OVERHEAD : Z := 4 + 1 + 4 + 8 + 1 + 4.
Definition INITIAL_RESEND : Duration := from_millis 250.
Definition MIN_RESEND : Duration := from_millis 50.
Definition MAX_RESEND : Duration := from_secs 2.
Definition RESEND_BATCH : nat := 4.

(** ** The journal *)

Record CommandJournal := mkJournal { capacity : Z; entries : list (Z * Message.ClientMessage) }.
#[export] Instance CommandJournal_settable : Settable CommandJournal := λ j, mkJournal (capacity j) (entries j).
Definition journal_new (capacity : Z) : CommandJournal := {| capacity := capacity; entries := [] |}.
Definition is_full (j : CommandJournal) : bool := len (entries j) =? capacity j.
Definition is_empty (j : CommandJournal) : bool := bool_decide (entries j = []).
(** [None] is [JournalError::Full]. *)
Definition journal_push (j : CommandJournal) (seq : Z) (m : Message.ClientMessage) : option CommandJournal :=
  if len (entries j) =? capacity j then None else Some (j <| entries := entries j ++ [(seq, m)] |>).
Fixpoint retire (l : list (Z * Message.ClientMessage)) (highest : Z) : list (Z * Message.ClientMessage) :=
  match l with
  | (seq, m) :: l' => if seq <=? highest then retire l' highest else l
  | [] => []
  end.
Definition journal_acknowledge (j : CommandJournal) (highest : Z) : CommandJournal := j <| entries := retire (entries j) highest |>.
Definition all (j : CommandJournal) : list Message.ClientMessage := (entries j).*2.
Definition oldest (j : CommandJournal) (most : nat) : list (Z * Message.ClientMessage) := take most (entries j).
Definition displace_oldest (j : CommandJournal) : CommandJournal := j <| entries := tail (entries j) |>.

Record Deferred := mkDeferred { d_resize : option GridSize; d_repaint : bool }.
#[export] Instance Deferred_settable : Settable Deferred := λ d, mkDeferred (d_resize d) (d_repaint d).
Definition nothing_deferred : Deferred := {| d_resize := None; d_repaint := false |}.

(** ** Sinks *)

Inductive Carriage := Stream | Datagram.
#[export] Instance Carriage_dec : EqDecision Carriage.
Proof. solve_decision. Defined.
Definition input_chunk (c : Carriage) : Z := match c with Stream => MAX_INPUT_CHUNK | Datagram => MIN_DATAGRAM_FRAME - INPUT_OVERHEAD end.
Definition forward_chunk_ (c : Carriage) : Z := match c with Stream => Send.MAX_FORWARD_CHUNK | Datagram => MIN_DATAGRAM_FRAME - FORWARD_OVERHEAD end.

(** What the sink will answer, and what it took. *)
Record Io := mkIo { answers : list bool; out : list (Z * list Z) }.
Definition offer (io : Io) (version : Z) (frame : list Z) : bool * Io :=
  match answers io with
  | true :: l => (true, mkIo l (out io ++ [(version, frame)]))
  | _ => (false, mkIo (tail (answers io)) (out io))
  end.

(** ** Retransmission *)

Record Resend := mkResend { srtt : option Duration; sample : option (Z * Instant); waiting : option Instant; attempts : Z; acked : option Z; retried : bool }.
#[export] Instance Resend_settable : Settable Resend := λ r, mkResend (srtt r) (sample r) (waiting r) (attempts r) (acked r) (retried r).
Definition resend_new : Resend := {| srtt := None; sample := None; waiting := None; attempts := 0; acked := None; retried := false |}.
Inductive Progress := Advanced | Stalled | Repeated.

Definition interval (r : Resend) : Duration :=
  let base := match srtt r with None => INITIAL_RESEND | Some srtt => dur_sat_mul srtt 2 end in
  clamp (dur_sat_mul base (2 ^ Z.min (attempts r) 5)) MIN_RESEND MAX_RESEND.
Definition transmitted (r : Resend) (timed : option Z) (now : Instant) : Resend :=
  let r := match waiting r with None => r <| waiting := Some now |> | Some _ => r end in
  match timed, sample r with Some seq, None => r <| sample := Some (seq, now) |> | _, _ => r end.
Definition observe (r : Resend) (d : Duration) : Resend :=
  r <| srtt := Some match srtt r with None => d | Some srtt => (srtt * 7 + d) / 8 end |>.
Definition acknowledged (r : Resend) (highest : Z) (now : Instant) : Progress * Resend :=
  let r := match sample r with
           | Some (seq, sent) => if seq <=? highest then (observe r (since now sent)) <| sample := None |> else r
           | None => r
           end in
  if match acked r with None => true | Some a => a <? highest end
  then (Advanced, r <| acked := Some highest |> <| attempts := 0 |> <| waiting := None |> <| retried := false |>)
  else (if retried r then Repeated else Stalled, r <| retried := true |>).
Definition due (r : Resend) (now : Instant) : bool * Resend :=
  let w := default now (waiting r) in
  let r := r <| waiting := Some w |> in
  if since now w <? interval r then (false, r)
  else (true, r <| attempts := sat_add U32_MAX (attempts r) 1 |> <| waiting := Some now |>).
Definition resent (r : Resend) (highest : Z) : Resend :=
  match sample r with Some (seq, _) => if seq <=? highest then r <| sample := None |> else r | None => r end.
Definition remaining (r : Resend) (now : Instant) : Duration :=
  sat_sub (interval r) (match waiting r with None => 0 | Some w => since now w end).

(** ** Sending *)

Record Outbound := mkOutbound {
  output : option Carriage; next_seq : Z; journal : CommandJournal; pending : list Z; deferred : Deferred; resend : Resend; version : Z
}.
#[export] Instance Outbound_settable : Settable Outbound :=
  λ o, mkOutbound (output o) (next_seq o) (journal o) (pending o) (deferred o) (resend o) (version o).

(** The number it went out under, if any. *)
Definition queue_with (o : Outbound) (io : Io) (make_message : Z → Message.ClientMessage) (now : Instant) : option Z * Outbound * Io :=
  let sequence := next_seq o in
  let message := make_message sequence in
  let timed := match message with Message.Input _ _ => Some sequence | _ => None end in
  match Message.encode message (version o) with
  | Err _ => (None, o, io)
  | Ok encoded =>
      match journal_push (journal o) sequence message with
      | None => (None, o, io)
      | Some j =>
          let o := o <| journal := j |> <| next_seq := seq_next U64_MAX sequence |> in
          match output o with
          | None => (Some sequence, o, io)
          | Some carriage =>
              let '(queued, io) := offer io (version o) encoded in
              if negb queued then (Some sequence, o <| output := None |>, io)
              else (Some sequence, match carriage with Datagram => o <| resend := transmitted (resend o) timed now |> | Stream => o end, io)
          end
      end
  end.
(** [None] is [JournalError::Full]. *)
Definition send (o : Outbound) (io : Io) (make_message : Z → Message.ClientMessage) (now : Instant) : option (option Z) * Outbound * Io :=
  if is_full (journal o) then (None, o, io)
  else let '(seq, o, io) := queue_with o io make_message now in (Some seq, o, io).
Definition send_terminal (o : Outbound) (io : Io) (make_message : Z → Message.ClientMessage) (now : Instant) : Outbound * Io :=
  let o := if is_full (journal o) then o <| journal := displace_oldest (journal o) |> else o in
  let '(_, o, io) := queue_with o io make_message now in (o, io).

Fixpoint resend_loop (l : list (Z * Message.ClientMessage)) (o : Outbound) (io : Io) (highest : option Z) : option Z * Outbound * Io :=
  match l with
  | [] => (highest, o, io)
  | (seq, m) :: l =>
      match Message.encode m (version o) with
      | Err _ => resend_loop l o io highest
      | Ok encoded =>
          match output o with
          | None => (highest, o, io)
          | Some _ =>
              let '(taken, io) := offer io (version o) encoded in
              if negb taken then (highest, o <| output := None |>, io) else resend_loop l o io (Some seq)
          end
      end
  end.
Definition resend_front (o : Outbound) (io : Io) : Outbound * Io :=
  let '(highest, o, io) := resend_loop (oldest (journal o) RESEND_BATCH) o io None in
  (match highest with Some highest => o <| resend := resent (resend o) highest |> | None => o end, io).

(** [while sent < self.pending.len()]: what is left of [rest], and the last number taken. *)
Fixpoint drain_loop (fuel : nat) (chunk : Z) (rest : list Z) (last : option Z) (o : Outbound) (io : Io) (now : Instant) : list Z * option Z * Outbound * Io :=
  match rest, fuel with
  | [], _ | _, O => (rest, last, o, io)
  | _, S fuel =>
      let bytes := take (Z.to_nat chunk) rest in
      let '(r, o, io) := send o io (λ seq, Message.Input seq bytes) now in
      match r with
      | None => (rest, last, o, io)
      | Some seq => drain_loop fuel chunk (drop (Z.to_nat chunk) rest) (match seq with Some _ => seq | None => last end) o io now
      end
  end.
Definition drain (o : Outbound) (io : Io) (now : Instant) : option Z * Outbound * Io :=
  match output o with
  | None => (None, o, io)
  | Some c =>
      let chunk := input_chunk c in
      let '(o, io) :=
        match d_resize (deferred o) with
        | None => (o, io)
        | Some size =>
            let '(r, o, io) := send o io (λ seq, Message.Resize seq size) now in
            (match r with Some _ => o <| deferred := (deferred o) <| d_resize := None |> |> | None => o end, io)
        end in
      let '(o, io) :=
        if d_repaint (deferred o) then
          let '(r, o, io) := send o io Message.RequestRepaint now in
          (match r with Some _ => o <| deferred := (deferred o) <| d_repaint := false |> |> | None => o end, io)
        else (o, io) in
      let '(rest, last, o, io) := drain_loop (length (pending o)) chunk (pending o) None o io now in
      (last, o <| pending := rest |>, io)
  end.

(** ** The writer shared by a client's threads *)

Record ClientWriter := mkWriter { state : Outbound; close_requested : bool; dropped_input : bool; repaint_outstanding : bool; link_epoch : Z }.
#[export] Instance ClientWriter_settable : Settable ClientWriter :=
  λ w, mkWriter (state w) (close_requested w) (dropped_input w) (repaint_outstanding w) (link_epoch w).

Definition new (output : Carriage) (first_seq version : Z) : ClientWriter :=
  {| state := {| output := Some output; next_seq := first_seq; journal := journal_new JOURNAL_CAPACITY; pending := []; deferred := nothing_deferred;
                 resend := resend_new; version := version |};
     close_requested := false; dropped_input := false; repaint_outstanding := false; link_epoch := 0 |}.

Definition drained (w : ClientWriter) (io : Io) (now : Instant) : option Z * ClientWriter * Io :=
  let '(last, o, io) := drain (state w) io now in
  let w := w <| state := o |> in
  (last, match pending o with [] => w <| dropped_input := false |> | _ => w end, io).

Inductive Accepted := All (seq : option Z) | Partial (queued : nat) (seq : option Z).
Definition input (w : ClientWriter) (io : Io) (bytes : list Z) (now : Instant) : Accepted * ClientWriter * Io :=
  let room := Z.to_nat (sat_sub MAX_PENDING_INPUT (len (pending (state w)))) in
  let queued := (room `min` length bytes)%nat in
  let w := w <| state := (state w) <| pending := pending (state w) ++ take queued bytes |> |> in
  let '(last, w, io) := drained w io now in
  let seq := match pending (state w) with [] => last | _ => None end in
  if (queued =? length bytes)%nat then (All seq, w, io) else (Partial queued seq, w <| dropped_input := true |>, io).

Definition disconnect (w : ClientWriter) : ClientWriter :=
  w <| state := (state w) <| output := None |> |> <| link_epoch := link_epoch w + 1 |>.

(** [for message in state.journal.all()]; the error is that of an encoding. *)
Fixpoint replay (l : list Message.ClientMessage) (o : Outbound) (io : Io) : result () EncodeError * Outbound * Io :=
  match l with
  | [] => (Ok (), o, io)
  | m :: l =>
      match Message.encode m (version o) with
      | Err e => (Err e, o, io)
      | Ok encoded =>
          match output o with
          | None => replay l o io
          | Some _ =>
              let '(taken, io) := offer io (version o) encoded in
              if negb taken then (Ok (), o <| output := None |>, io) else replay l o io
          end
      end
  end.
Definition reconnect (w : ClientWriter) (io : Io) (output_ : Carriage) (version_ : Z) (now : Instant) : result () EncodeError * ClientWriter * Io :=
  let o := (state w) <| output := Some output_ |> <| version := version_ |> <| resend := resend_new |> in
  let '(r, o, io) := replay (all (journal o)) o io in
  let w := w <| state := o |> in
  match r with
  | Err e => (Err e, w, io)
  | Ok _ =>
      let '(_, w, io) := drained w io now in
      (Ok (), w <| link_epoch := link_epoch w + 1 |>, io)
  end.

Definition reopen (w : ClientWriter) (output_ : Carriage) (version_ : Z) : ClientWriter :=
  w <| state := {| output := Some output_; next_seq := 1; journal := journal_new JOURNAL_CAPACITY; pending := []; deferred := nothing_deferred;
                   resend := resend_new; version := version_ |} |>
    <| dropped_input := false |> <| link_epoch := link_epoch w + 1 |>.

Inductive Resending := Idle | Due (d : Duration) | Done.
Definition retransmit (w : ClientWriter) (io : Io) (now : Instant) (epoch : Z) : Resending * ClientWriter * Io :=
  let o := state w in
  if negb (link_epoch w =? epoch) || negb (bool_decide (output o = Some Datagram)) then (Done, w, io)
  else if is_empty (journal o) then (Idle, w <| state := o <| resend := (resend o) <| waiting := None |> |> |>, io)
  else
    let '(is_due, r) := due (resend o) now in
    let o := o <| resend := r |> in
    let '(o, io) := if is_due then resend_front o io else (o, io) in
    (Due (remaining (resend o) now), w <| state := o |>, io).

Definition request_repaint (w : ClientWriter) (io : Io) (now : Instant) : ClientWriter * Io :=
  if repaint_outstanding w then (w, io)
  else
    let w := w <| repaint_outstanding := true |> in
    let '(r, o, io) := send (state w) io Message.RequestRepaint now in
    (w <| state := match r with None => o <| deferred := (deferred o) <| d_repaint := true |> |> | Some _ => o end |>, io).
Definition repaint_arrived (w : ClientWriter) : ClientWriter := w <| repaint_outstanding := false |>.

(** What [consumed], [screen_ack] and [pong] do with a message that is not numbered. *)
Definition unnumbered (w : ClientWriter) (io : Io) (m : Message.ClientMessage) : result () EncodeError * Io :=
  match output (state w) with
  | None => (Ok (), io)
  | Some _ =>
      match Message.encode m (version (state w)) with
      | Err e => (Err e, io)
      | Ok encoded => (Ok (), (offer io (version (state w)) encoded).2)
      end
  end.
Definition consumed (w : ClientWriter) (io : Io) (off : Z) : result () EncodeError * Io := unnumbered w io (Message.Consumed off).
Definition screen_ack (w : ClientWriter) (io : Io) (generation version : Z) : result () EncodeError * Io := unnumbered w io (Message.ScreenAck generation version).
Definition pong (w : ClientWriter) (io : Io) (token consumed : Z) : result () EncodeError * Io := unnumbered w io (Message.Pong token consumed).

Definition resize (w : ClientWriter) (io : Io) (size : GridSize) (now : Instant) : ClientWriter * Io :=
  let '(r, o, io) := send (state w) io (λ seq, Message.Resize seq size) now in
  (w <| state := match r with None => o <| deferred := (deferred o) <| d_resize := Some size |> |> | Some _ => o end |>, io).

(** [false]: no room to open a forwarded connection. *)
Definition forward_open (w : ClientWriter) (io : Io) (stream : Z) (target : ForwardTarget) (now : Instant) : bool * ClientWriter * Io :=
  let '(r, o, io) := send (state w) io (λ seq, Message.ForwardOpen seq stream target) now in
  (match r with Some (Some _) => true | _ => false end, w <| state := o |>, io).

Definition forward_frame (w : ClientWriter) (io : Io) (m : Message.ClientMessage) : result bool EncodeError * Io :=
  match Message.encode m (version (state w)) with
  | Err e => (Err e, io)
  | Ok encoded =>
      match output (state w) with
      | None => (Ok false, io)
      | Some _ => let '(taken, io) := offer io (version (state w)) encoded in (Ok taken, io)
      end
  end.
Definition forward_chunk (w : ClientWriter) : option Z := forward_chunk_ <$> output (state w).

Definition close (w : ClientWriter) (io : Io) (now : Instant) : ClientWriter * Io :=
  let w := w <| close_requested := true |> in
  let '(o, io) := send_terminal (state w) io Message.Close now in (w <| state := o |>, io).
Definition detach (w : ClientWriter) (io : Io) (now : Instant) : ClientWriter * Io :=
  let w := w <| close_requested := true |> in
  let '(o, io) := send_terminal (state w) io Message.Detach now in (w <| state := o |>, io).

Definition acknowledge (w : ClientWriter) (io : Io) (highest : Z) (now : Instant) : ClientWriter * Io :=
  let o := (state w) <| journal := journal_acknowledge (journal (state w)) highest |> in
  let '(o, io) :=
    if bool_decide (output o = Some Datagram) then
      let '(progress, r) := acknowledged (resend o) highest now in
      let o := o <| resend := r |> in
      match progress with Stalled => resend_front o io | _ => (o, io) end
    else (o, io) in
  let '(_, w, io) := drained (w <| state := o |>) io now in (w, io).

(** ** What a journal stands for *)

(** The number a message carries, and the bytes typed in it. *)
Definition seq_of (m : Message.ClientMessage) : option Z :=
  match m with
  | Message.Input seq _ | Message.Resize seq _ | Message.RequestRepaint seq | Message.Close seq | Message.Detach seq | Message.ForwardOpen seq _ _ => Some seq
  | _ => None
  end.
Definition typed_in (m : Message.ClientMessage) : list Z := match m with Message.Input _ bytes => bytes | _ => [] end.
Definition typed (ms : list Message.ClientMessage) : list Z := concat (typed_in <$> ms).

Definition numbered (ms : list Message.ClientMessage) : list (Z * Message.ClientMessage) := imap (λ i m, (Z.of_nat i + 1, m)) ms.

(** Everything numbered so far is [ms]; the journal keeps what comes after the first [k]. *)
Record out_ok (k : nat) (o : Outbound) (ms : list Message.ClientMessage) : Prop := {
  oo_next : next_seq o = len ms + 1;
  oo_journal : entries (journal o) = drop k (numbered ms);
  oo_kept : (k ≤ length ms)%nat;
  oo_capacity : capacity (journal o) = JOURNAL_CAPACITY ∧ len (entries (journal o)) ≤ JOURNAL_CAPACITY;
  oo_messages : ∀ i m, ms !! i = Some m → seq_of m = Some (Z.of_nat i + 1) ∧ Message.is_message m;
  oo_pending : Forall is_byte (pending o);
  oo_deferred : ∀ size, d_resize (deferred o) = Some size → is_grid size;
  oo_version : MANAGEMENT_VERSION ≤ version o
}.

(** A frame as a client that numbered [ms] may send it: of one of them, or of a message without a number. *)
Definition frame_ok (ms : list Message.ClientMessage) (f : Z * list Z) : Prop :=
  MANAGEMENT_VERSION ≤ f.1 ∧ ∃ m, (m ∈ ms ∨ seq_of m = None) ∧ Message.is_message m ∧ Message.encode m f.1 = Ok f.2.

(** A maker of messages that gives each its number. *)
Definition makes (make : Z → Message.ClientMessage) : Prop := ∀ seq, Message.is_seq seq → Message.is_message (make seq) ∧ seq_of (make seq) = Some seq.

(** From [o] to [o'] the messages [extra] were numbered, and every frame the sink took is one of a
    client that numbered them. *)
Record sends (k : nat) (ms : list Message.ClientMessage) (o : Outbound) (io : Io) (extra : list Message.ClientMessage) (o' : Outbound) (io' : Io) : Prop := {
  se_ok : out_ok k o' (ms ++ extra);
  se_out : ∃ fs, out io' = out io ++ fs ∧ Forall (frame_ok (ms ++ extra)) fs;
  se_typed : typed extra ++ pending o' = pending o
}.

Lemma frame_ok_more ms extra f : frame_ok ms f → frame_ok (ms ++ extra) f.
Proof. intros [H1 (m & [H2|H2] & H3)]; (split; [done|]); exists m; (split; [|done]); [left; apply elem_of_app; by left|by right]. Qed.

Lemma typed_app l1 l2 : typed (l1 ++ l2) = typed l1 ++ typed l2.
Proof. unfold typed. by rewrite fmap_app, concat_app. Qed.

Lemma sends_refl k ms o io : out_ok k o ms → sends k ms o io [] o io.
Proof. intros H. split; rewrite ?app_nil_r; [done| |done]. exists []. by rewrite app_nil_r. Qed.

Lemma sends_trans k ms o io e1 o1 io1 e2 o2 io2 : sends k ms o io e1 o1 io1 → sends k (ms ++ e1) o1 io1 e2 o2 io2 → sends k ms o io (e1 ++ e2) o2 io2.
Proof.
  intros [A1 (f1 & A2 & A2') A3] [B1 (f2 & B2 & B2') B3]. rewrite <- app_assoc in *. split; [done| |by rewrite typed_app, <- app_assoc, B3].
  exists (f1 ++ f2). rewrite B2, A2, app_assoc. split; [done|]. apply Forall_app. split; [|done]. rewrite app_assoc. eapply Forall_impl; [exact A2'|]. intros f. apply frame_ok_more.
Qed.

(** A change of what is not written down here. *)
Lemma out_ok_ext k o o' ms : out_ok k o ms → next_seq o' = next_seq o → journal o' = journal o → pending o' = pending o → deferred o' = deferred o → version o' = version o → out_ok k o' ms.
Proof. intros [] E1 E2 E3 E4 E5. split; rewrite ?E1, ?E2, ?E3, ?E4, ?E5; done. Qed.

Lemma numbered_app ms m : numbered (ms ++ [m]) = numbered ms ++ [(len ms + 1, m)].
Proof. unfold numbered. rewrite imap_app. cbn. by rewrite Nat.add_0_r. Qed.
Lemma length_numbered ms : length (numbered ms) = length ms.
Proof. apply length_imap. Qed.

Lemma offer_spec io v f : let r := offer io v f in out r.2 = out io ++ (if r.1 then [(v, f)] else []).
Proof. unfold offer. destruct (answers io) as [|[] l]; cbn; by rewrite ?app_nil_r. Qed.

(** Numbering a message and handing it over. *)
Lemma queue_with_spec k ms o io make now : out_ok k o ms → Z.of_nat k + JOURNAL_CAPACITY + 2 ≤ U64_MAX → is_full (journal o) = false → makes make →
  let '(r, o', io') := queue_with o io make now in
  match r with
  | None => o' = o ∧ io' = io ∧ ∃ e, Message.encode (make (next_seq o)) (version o) = Err e
  | Some s => s = next_seq o ∧ out_ok k o' (ms ++ [make (next_seq o)]) ∧ (∃ fs, out io' = out io ++ fs ∧ Forall (frame_ok (ms ++ [make (next_seq o)])) fs) ∧
      pending o' = pending o ∧ deferred o' = deferred o
  end.
Proof.
  intros Hk Hroom Hfull Hmake. pose proof Hk as [H1 H2 H3 [H4 H4'] H5 H6 H7 H8]. unfold queue_with. destruct (Message.encode (make (next_seq o)) (version o)) as [f|e] eqn:Ee; [|by split_and!; eauto].
  unfold is_full in Hfull. unfold journal_push. rewrite Hfull. apply Z.eqb_neq in Hfull.
  assert (length (entries (journal o)) = (length ms - k)%nat) as Hlen by (rewrite H2, length_drop, length_numbered; done).
  destruct (Hmake (next_seq o)) as [M1 M2]; [unfold Message.is_seq; lia|].
  assert (∀ o', next_seq o' = seq_next U64_MAX (next_seq o) → journal o' = (journal o) <| entries := entries (journal o) ++ [(next_seq o, make (next_seq o))] |> →
    pending o' = pending o → deferred o' = deferred o → version o' = version o → out_ok k o' (ms ++ [make (next_seq o)])) as Hok.
  { intros o' E1 E2 E3 E4 E5. split; rewrite ?E1, ?E2, ?E3, ?E4, ?E5; try done.
    - unfold seq_next, sat_add. rewrite length_app. cbn [length]. lia.
    - cbn. rewrite numbered_app, drop_app_le by (rewrite length_numbered; lia). by rewrite <- H2, H1.
    - rewrite length_app. lia.
    - cbn. split; [done|]. rewrite length_app. cbn [length]. lia.
    - intros i m Hi. apply lookup_app_Some in Hi as [Hi|[Hi Hm]]; [by apply H5|]. apply list_lookup_singleton_Some in Hm as [Hz <-]. split; [|done]. rewrite M2, H1. f_equal. lia. }
  assert (frame_ok (ms ++ [make (next_seq o)]) (version o, f)) as Hf.
  { split; [done|]. exists (make (next_seq o)). split_and!; [left; apply elem_of_app; right; by left|done|done]. }
  cbn [output assign]. change (output (o <| journal := _ |> <| next_seq := _ |>)) with (output o). destruct (output o) as [c|].
  - pose proof (offer_spec io (version o) f) as Ho. cbn [version assign]. change (version (o <| journal := _ |> <| next_seq := _ |>)) with (version o). destruct (offer io (version o) f) as [[] io']; cbn [fst snd negb] in *.
    + split_and!; [done|by destruct c; apply Hok|exists [(version o, f)]; split; [done|by constructor]|by destruct c..].
    + split_and!; [done|by apply Hok|exists []; split; [done|constructor]|done..].
  - split_and!; [done|by apply Hok|exists []; split; [by rewrite app_nil_r|constructor]|done..].
Qed.

Lemma input_encodes seq bytes v : Message.is_seq seq → Forall is_byte bytes → len bytes ≤ MAX_INPUT_CHUNK → ∃ f, Message.encode (Message.Input seq bytes) v = Ok f.
Proof.
  intros Hs Hb Hl. assert (∃ x, Message.put_fields (Message.Input seq bytes) v = Ok x) as [x Hx].
  { unfold Message.put_fields, Message.in_order. cbn [put Seq NonZero64 Chunk result_bind]. destruct (Z.ltb_spec MAX_INPUT_CHUNK (len bytes)); [lia|].
    unfold try_from. unfold MAX_INPUT_CHUNK in Hl. destruct (Z.leb_spec (len bytes) U32_MAX); [|lia]. cbn [result_bind]. by eexists. }
  destruct (Message.encode_spec (Message.Input seq bytes) v x) as [-> _]; [by split|done|]. by eexists.
Qed.

(** Room for as many numbers as one operation can take. *)
Definition roomy (k : nat) : Prop := Z.of_nat k + JOURNAL_CAPACITY + 2 ≤ U64_MAX.

(** A control message: numbered, or refused, and nothing typed changes. *)
Lemma send_control k ms o io make now : out_ok k o ms → roomy k → makes make → (∀ s, typed_in (make s) = []) →
  let '(r, o', io') := send o io make now in (∃ extra, sends k ms o io extra o' io') ∧ deferred o' = deferred o.
Proof.
  intros Hk Hroom Hmake Ht. unfold send. destruct (is_full (journal o)) eqn:Ef; [by split; [exists []; apply sends_refl|]|].
  pose proof (queue_with_spec k ms o io make now Hk Hroom Ef Hmake) as H. destruct (queue_with o io make now) as [[[s|] o'] io'].
  - destruct H as (_ & H1 & H2 & H3 & H4). split; [|done]. exists [make (next_seq o)]. split; [done|done|]. rewrite H3. unfold typed. cbn. by rewrite Ht.
  - destruct H as (-> & -> & _). split; [|done]. exists []. by apply sends_refl.
Qed.

Lemma drain_loop_spec fuel chunk rest last k ms o io now : out_ok k o ms → roomy k → Forall is_byte rest → 0 < chunk ≤ MAX_INPUT_CHUNK →
  let '(rest', last', o', io') := drain_loop fuel chunk rest last o io now in
  ∃ extra, out_ok k o' (ms ++ extra) ∧ (∃ fs, out io' = out io ++ fs ∧ Forall (frame_ok (ms ++ extra)) fs) ∧
    pending o' = pending o ∧ typed extra ++ rest' = rest ∧ Forall is_byte rest'.
Proof.
  intros Hk Hroom Hb Hc. revert rest last ms o io Hk Hb. induction fuel as [|fuel IH]; intros rest last ms o io Hk Hb.
  { assert (drain_loop 0 chunk rest last o io now = (rest, last, o, io)) as -> by (by destruct rest). exists []. rewrite app_nil_r. split_and!; try done. exists []. by rewrite app_nil_r. }
  assert (rest ≠ [] ∨ rest = []) as [Hne| ->] by (destruct rest; auto); [|exists []; rewrite app_nil_r; split_and!; try done; exists []; by rewrite app_nil_r].
  assert (drain_loop (S fuel) chunk rest last o io now =
    let bytes := take (Z.to_nat chunk) rest in
    let '(r, o, io) := send o io (λ seq, Message.Input seq bytes) now in
    match r with
    | None => (rest, last, o, io)
    | Some seq => drain_loop fuel chunk (drop (Z.to_nat chunk) rest) (match seq with Some _ => seq | None => last end) o io now
    end) as -> by (by destruct rest). cbn zeta.
  set (bytes := take (Z.to_nat chunk) rest). unfold send. destruct (is_full (journal o)) eqn:Ef.
  { exists []. rewrite app_nil_r. split_and!; try done. exists []. by rewrite app_nil_r. }
  assert (Forall is_byte bytes) as Hbytes by (by apply Forall_take). assert (len bytes ≤ MAX_INPUT_CHUNK) as Hlb by (unfold bytes; rewrite length_take; lia).
  pose proof (queue_with_spec k ms o io (λ seq, Message.Input seq bytes) now Hk Hroom Ef) as H. destruct (queue_with o io _ now) as [[[s|] o1] io1].
  2:{ destruct H as (_ & _ & e & He); [by intros s Hs|]. destruct (input_encodes (next_seq o) bytes (version o)) as [f Hf]; [|done|done|congruence].
      pose proof Hk as [N1 N2 N3 [_ N4] _ _ _ _]. rewrite N2, length_drop, length_numbered in N4. unfold Message.is_seq, roomy in *. lia. }
  destruct H as (-> & K1 & (f1 & O1 & F1) & P1 & _); [by intros s0 Hs0|].
  specialize (IH (drop (Z.to_nat chunk) rest) (Some (next_seq o)) (ms ++ [Message.Input (next_seq o) bytes]) o1 io1 K1 (Forall_drop _ _ _ Hb)).
  destruct (drain_loop fuel chunk (drop (Z.to_nat chunk) rest) (Some (next_seq o)) o1 io1 now) as [[[rest' last'] o'] io']. destruct IH as (extra & A1 & (f2 & A2 & A2') & A3 & A4 & A5).
  rewrite <- app_assoc in A1, A2'. exists (Message.Input (next_seq o) bytes :: extra). split_and!; [done| |congruence| |done].
  - exists (f1 ++ f2). rewrite A2, O1, app_assoc. split; [done|]. apply Forall_app. split; [|done]. change (Message.Input (next_seq o) bytes :: extra) with ([Message.Input (next_seq o) bytes] ++ extra). rewrite app_assoc. eapply Forall_impl; [exact F1|]. intros f. apply frame_ok_more.
  - unfold typed. cbn. fold (typed extra). rewrite <- app_assoc, A4. apply take_drop.
Qed.

Lemma input_chunk_bounds c : 0 < input_chunk c ≤ MAX_INPUT_CHUNK.
Proof. destruct c; vm_compute; split; congruence. Qed.

Lemma drain_spec k ms o io now : out_ok k o ms → roomy k →
  let '(last, o', io') := drain o io now in ∃ extra, sends k ms o io extra o' io'.
Proof.
  intros Hk Hroom. unfold drain. destruct (output o) as [c|]; [|exists []; by apply sends_refl].
  assert (let '(o1, io1) := match d_resize (deferred o) with
    | None => (o, io)
    | Some size => let '(r, o, io) := send o io (λ seq, Message.Resize seq size) now in (match r with Some _ => o <| deferred := (deferred o) <| d_resize := None |> |> | None => o end, io)
    end in ∃ extra, sends k ms o io extra o1 io1) as H1.
  { destruct (d_resize (deferred o)) as [size|] eqn:Es; [|exists []; by apply sends_refl]. pose proof (send_control k ms o io (λ seq, Message.Resize seq size) now Hk Hroom) as H.
    destruct (send o io _ now) as [[r o1] io1]. destruct H as [[extra [X1 X2 X3]] _]; [|done|]. { intros s Hs. split; [|done]. split; [done|]. by apply (oo_deferred _ _ _ Hk). }
    exists extra. destruct r; [|by split]. split; [|done|done]. destruct X1. split; done. }
  destruct (match d_resize (deferred o) with Some _ => _ | None => _ end) as [o1 io1]. destruct H1 as [e1 S1]. pose proof (se_ok _ _ _ _ _ _ _ S1) as K1.
  assert (let '(o2, io2) := if d_repaint (deferred o1) then let '(r, o, io) := send o1 io1 Message.RequestRepaint now in (match r with Some _ => o <| deferred := (deferred o) <| d_repaint := false |> |> | None => o end, io)
    else (o1, io1) in ∃ extra, sends k (ms ++ e1) o1 io1 extra o2 io2) as H2.
  { destruct (d_repaint (deferred o1)); [|exists []; by apply sends_refl]. pose proof (send_control k (ms ++ e1) o1 io1 Message.RequestRepaint now K1 Hroom) as H.
    destruct (send o1 io1 _ now) as [[r o2] io2]. destruct H as [[extra [X1 X2 X3]] _]; [by intros s Hs|done|].
    exists extra. destruct r; [|by split]. split; [|done|done]. destruct X1. split; done. }
  destruct (if d_repaint (deferred o1) then _ else _) as [o2 io2]. destruct H2 as [e2 S2]. pose proof (sends_trans _ _ _ _ _ _ _ _ _ _ S1 S2) as S3. pose proof (se_ok _ _ _ _ _ _ _ S3) as K2.
  pose proof (drain_loop_spec (length (pending o2)) (input_chunk c) (pending o2) None k (ms ++ e1 ++ e2) o2 io2 now K2 Hroom (oo_pending _ _ _ K2) (input_chunk_bounds c)) as H.
  destruct (drain_loop _ _ _ _ _ _ _) as [[[rest last] o3] io3]. destruct H as (e3 & A1 & A2 & A3 & A4 & A5). exists ((e1 ++ e2) ++ e3).
  eapply sends_trans; [exact S3|]. split; [|done|done]. destruct A1. by split.
Qed.

Lemma journal_frame k o ms seq m f : out_ok k o ms → (seq, m) ∈ entries (journal o) → Message.encode m (version o) = Ok f → frame_ok ms (version o, f).
Proof.
  intros Hk Hin Hf. rewrite (oo_journal _ _ _ Hk) in Hin. apply list_elem_of_lookup in Hin as [i Hi]. rewrite lookup_drop in Hi. unfold numbered in Hi.
  rewrite list_lookup_imap in Hi. destruct (ms !! (k + i)%nat) as [x|] eqn:E; [|done]. cbn in Hi. injection Hi as _ <-.
  split; [apply Hk|]. exists x. split_and!; [left; by eapply list_elem_of_lookup_2|by apply (oo_messages _ _ _ Hk _ _ E)|done].
Qed.

(** Nothing new is numbered by sending again what the journal holds. *)
Lemma resend_loop_spec l k ms o io highest : out_ok k o ms → (∀ x, x ∈ l → x ∈ entries (journal o)) →
  let '(h, o', io') := resend_loop l o io highest in sends k ms o io [] o' io'.
Proof.
  intros Hk. revert io highest. induction l as [|[seq m] l IH]; intros io highest Hl; cbn [resend_loop]; [by apply sends_refl|].
  destruct (Message.encode m (version o)) as [f|] eqn:Ef; [|apply IH; set_solver]. destruct (output o); [|by apply sends_refl].
  pose proof (offer_spec io (version o) f) as Ho. destruct (offer io (version o) f) as [[] io1]; cbn [fst snd negb] in *.
  - specialize (IH io1 (Some seq)). destruct (resend_loop l o io1 (Some seq)) as [[h o'] io']. apply (sends_trans _ _ _ _ [] o io1 []); [|rewrite app_nil_r; apply IH; set_solver].
    split; rewrite ?app_nil_r; [done| |done]. exists [(version o, f)]. split; [done|]. constructor; [|constructor]. eapply journal_frame; [done| |done]. apply Hl. by left.
  - split; rewrite ?app_nil_r; [by eapply out_ok_ext| |done]. exists []. split; [done|constructor].
Qed.

Lemma sends_ext k ms o io extra o1 o2 io1 : sends k ms o io extra o1 io1 → next_seq o2 = next_seq o1 → journal o2 = journal o1 → pending o2 = pending o1 →
  deferred o2 = deferred o1 → version o2 = version o1 → sends k ms o io extra o2 io1.
Proof. intros [H1 H2 H3] E1 E2 E3 E4 E5. split; [by eapply out_ok_ext|done|congruence]. Qed.

Lemma resend_front_spec k ms o io : out_ok k o ms → let '(o', io') := resend_front o io in sends k ms o io [] o' io'.
Proof.
  intros Hk. unfold resend_front. pose proof (resend_loop_spec (oldest (journal o) RESEND_BATCH) k ms o io None Hk) as H.
  destruct (resend_loop _ o io None) as [[h o'] io']. assert (sends k ms o io [] o' io') as Hs.
  { apply H. intros x Hx. unfold oldest in Hx. apply list_elem_of_lookup in Hx as [i Hi]. apply lookup_take_Some in Hi as [Hi _]. by eapply list_elem_of_lookup_2. }
  destruct h; [|done]. by eapply sends_ext.
Qed.

Lemma replay_spec l k ms o io : out_ok k o ms → (∀ m, m ∈ l → m ∈ all (journal o)) → let '(r, o', io') := replay l o io in sends k ms o io [] o' io'.
Proof.
  intros Hk. revert io. induction l as [|m l IH]; intros io Hl; cbn [replay]; [by apply sends_refl|].
  destruct (Message.encode m (version o)) as [f|] eqn:Ef; [|by apply sends_refl]. destruct (output o); [|apply IH; set_solver].
  pose proof (offer_spec io (version o) f) as Ho. destruct (offer io (version o) f) as [[] io1]; cbn [fst snd negb] in *.
  - specialize (IH io1). destruct (replay l o io1) as [[r o'] io']. apply (sends_trans _ _ _ _ [] o io1 []); [|rewrite app_nil_r; apply IH; set_solver].
    split; rewrite ?app_nil_r; [done| |done]. exists [(version o, f)]. split; [done|]. constructor; [|constructor].
    assert (m ∈ all (journal o)) as Hm by (apply Hl; by left). unfold all in Hm. apply list_elem_of_fmap in Hm as ([seq m'] & -> & Hm). by eapply journal_frame.
  - split; rewrite ?app_nil_r; [by eapply out_ok_ext| |done]. exists []. split; [done|constructor].
Qed.

(** The frames of messages, at one version. *)
Definition frames (v : Z) : list Message.ClientMessage → list (Z * list Z) → Prop := Forall2 (λ m f, f.1 = v ∧ Message.encode m v = Ok f.2).

(** A link that takes every frame is given the whole journal, in order. *)
Lemma replay_takes l o n fs : is_Some (output o) → (length l ≤ n)%nat →
  let '(r, o', io') := replay l o (mkIo (replicate n true) fs) in r = Ok () → o' = o ∧ ∃ gs, out io' = fs ++ gs ∧ frames (version o) l gs.
Proof.
  intros [c Hc]. revert n fs. induction l as [|m l IH]; intros n fs Hn; cbn [replay].
  { intros _. split; [done|]. exists []. split; [by rewrite app_nil_r|constructor]. }
  destruct (Message.encode m (version o)) as [f|] eqn:Ef; [|done]. rewrite Hc. cbn [length] in Hn. destruct n as [|n]; [lia|]. cbn [replicate offer answers negb out].
  specialize (IH n (fs ++ [(version o, f)]) ltac:(lia)). destruct (replay l o _) as [[r o'] io']. intros Hr. destruct (IH Hr) as [-> (gs & Hg & Hf)]. split; [done|].
  exists ((version o, f) :: gs). split; [by rewrite Hg, <- app_assoc|]. by constructor.
Qed.

(** *** Acknowledgements *)

Lemma retire_numbered ms k h : (k ≤ length ms)%nat → ∃ k', (k ≤ k' ≤ length ms)%nat ∧ (k' = k ∨ Z.of_nat k' ≤ h) ∧ retire (drop k (numbered ms)) h = drop k' (numbered ms).
Proof.
  intros Hk. remember (length ms - k)%nat as d eqn:Ed. revert k Hk Ed. induction d as [|d IH]; intros k Hk Ed.
  - exists k. split_and!; [lia|lia|by left|]. rewrite drop_ge by (rewrite length_numbered; lia). done.
  - destruct (lookup_lt_is_Some_2 ms k) as [m Hm]; [lia|]. assert (numbered ms !! k = Some (Z.of_nat k + 1, m)) as Hn by (unfold numbered; rewrite list_lookup_imap, Hm; done).
    rewrite (drop_S _ _ _ Hn). cbn [retire]. destruct (Z.leb_spec (Z.of_nat k + 1) h).
    + destruct (IH (S k)) as (k' & H1 & H2 & H3); [lia|lia|]. exists k'. split_and!; [lia|lia|right; lia|done].
    + exists k. split_and!; [lia|lia|by left|]. by rewrite (drop_S _ _ _ Hn).
Qed.

Lemma acknowledge_journal k ms o h : out_ok k o ms →
  ∃ k', (k ≤ k')%nat ∧ (k' = k ∨ Z.of_nat k' ≤ h) ∧ out_ok k' (o <| journal := journal_acknowledge (journal o) h |>) ms.
Proof.
  intros [H1 H2 H3 [H4 H4'] H5 H6 H7 H8]. destruct (retire_numbered ms k h H3) as (k' & K1 & K2 & K3). exists k'. split_and!; [lia|done|].
  split; cbn; try done; [by rewrite H2|lia|]. split; [done|]. rewrite H2, K3. rewrite H2 in H4'. rewrite length_drop in *. lia.
Qed.

Lemma displaced k ms o : out_ok k o ms → entries (journal o) ≠ [] → out_ok (S k) (o <| journal := displace_oldest (journal o) |>) ms.
Proof.
  intros [H1 H2 H3 [H4 H4'] H5 H6 H7 H8] Hne. assert (k < length ms)%nat by (rewrite H2 in Hne; destruct (decide (k < length ms)%nat); [done|]; rewrite drop_ge in Hne by (rewrite length_numbered; lia); done).
  assert (tail (drop k (numbered ms)) = drop (S k) (numbered ms)) as Ht by (destruct (lookup_lt_is_Some_2 (numbered ms) k) as [x Hx]; [by rewrite length_numbered|]; by rewrite (drop_S _ _ _ Hx)).
  split; cbn; try done; [by rewrite H2, Ht|]. split; [done|]. rewrite H2, Ht. rewrite H2 in H4'. rewrite length_drop in *. lia.
Qed.

End Outbound.
