(* ===== verification/Typing.v ===== *)
(** * From the keyboard to the shell

    A client ([Outbound]), the links it loses and replaces, and the session that numbers, applies and
    acknowledges its commands: the arms of [Actor::command] ([crates/server/src/actor.rs]) that take
    a numbered command, with the gate of [Attachment] and the shell's input of [Ptyin].  What a
    command does beside the gate (the grid, a screen, a socket) is left to an argument that says
    whether it succeeded.

    Nothing is assumed of the links: any frame ever sent may arrive at any time, any number of times,
    in any order or never, and so may any acknowledgement.  The session keeps a client's command
    stream while it is away ([Actor::retire]), so the same stream serves every link. *)

From S2P Require Import Prelude Codec Fields Message Attachment Ptyin Outbound.

Module Typing.
Import Message.
Import(hints) Outbound. Import(hints) Ptyin.

(** ** The session's side *)

Record Server := mkServer { stream : Attachment.ClientStream; terminal : option Ptyin.Pty }.
#[export] Instance Server_settable : Settable Server := λ s, mkServer (stream s) (terminal s).

(** The acknowledgement a handler sends, if it sends one; [CommandAck] carries an option. *)
Definition ack (s : Server) (seq : Z) : option (option Z) * Server :=
  let '(highest, st) := Attachment.acknowledged (stream s) seq in (Some highest, s <| stream := st |>).
(** A gap is refused or waited out: either way nothing is applied. *)
Definition gap (s : Server) : option (option Z) * Server := (None, s).
Definition ignore (s : Server) (seq : Z) : option (option Z) * Server :=
  let '(admission, st) := Attachment.admit_ (stream s) seq in
  let s := s <| stream := st |> in
  match admission with Attachment.Fresh | Attachment.Duplicate => ack s seq | Attachment.Gap => gap s end.
(** A command through the gate; [carried]: it could be carried out. *)
Definition gated (s : Server) (seq : Z) (carried : bool) : option (option Z) * Server :=
  let '(admission, st) := Attachment.admit_ (stream s) seq in
  let s := s <| stream := st |> in
  match admission with
  | Attachment.Fresh => if carried then ack s seq else (None, s)
  | Attachment.Duplicate => ack s seq
  | Attachment.Gap => gap s
  end.
Definition typed_input (s : Server) (seq : Z) (bytes : list Z) (now : Instant) : option (option Z) * Server :=
  match terminal s with
  | None => ignore s seq
  | Some p =>
      match Attachment.check (stream s) seq with
      | Attachment.Fresh =>
          if (Ptyin.write (Ptyin.buffer p) bytes).1
          then ack (s <| terminal := Some (Ptyin.step p (Ptyin.EWrite bytes)) |> <| stream := Attachment.applied (stream s) seq now |>) seq
          else (None, s)
      | Attachment.Duplicate => ack s seq
      | Attachment.Gap => gap s
      end
  end.
Definition command (s : Server) (m : ClientMessage) (now : Instant) (carried : bool) : option (option Z) * Server :=
  match m with
  | Input seq bytes => typed_input s seq bytes now
  | Resize seq _ => gated s seq carried
  | RequestRepaint seq => match terminal s with None => ignore s seq | Some _ => gated s seq carried end
  | ForwardOpen seq _ _ => gated s seq true
  | Close seq | Detach seq =>
      let '(admission, st) := Attachment.admit_ (stream s) seq in
      let s := s <| stream := st |> in
      match admission with Attachment.Fresh => ack s seq | _ => (None, s) end
  | _ => (None, s)
  end.

(** ** The two together *)

(** [wire] is every frame a link ever took, with the version it was sent at; [acks] every
    acknowledgement sent back; [typed] what was accepted of the keyboard. *)
Record World := mkWorld { client : Outbound.ClientWriter; wire : list (Z * list Z); server : Server; acks : list (option Z); typed : list Z }.
#[export] Instance World_settable : Settable World := λ w, mkWorld (client w) (wire w) (server w) (acks w) (typed w).

Definition world_new (c : Outbound.Carriage) (version : Z) (tty : bool) : World :=
  mkWorld (Outbound.new c 1 version) [] (mkServer Attachment.stream_new (if tty then Some Ptyin.pty_new else None)) [] [].

Inductive Event :=
| WInput (bytes : list Z) | WResize (size : Fields.GridSize) | WRepaint | WRepaintArrived | WOpen (stream : Z) (target : Fields.ForwardTarget)
| WUnnumbered (m : ClientMessage) | WForward (m : ClientMessage) | WClose | WDetach
| WDisconnect | WReconnect (c : Outbound.Carriage) (version : Z) | WRetransmit (epoch : Z)
| WAck (i : nat) | WDeliver (i : nat) (carried : bool) | WShell (e : Ptyin.Event).

Definition accepted (a : Outbound.Accepted) (bytes : list Z) : list Z :=
  match a with Outbound.All _ => bytes | Outbound.Partial n _ => take n bytes end.

(** One operation; [answers] is what the link says to each frame it is handed meanwhile. *)
Definition step (w : World) (answers : list bool) (now : Instant) (e : Event) : World :=
  let io := Outbound.mkIo answers [] in
  let sent (x : Outbound.ClientWriter * Outbound.Io) (w : World) := w <| client := x.1 |> <| wire := wire w ++ Outbound.out x.2 |> in
  let c := client w in
  match e with
  | WInput bytes =>
      let '(a, c, io) := Outbound.input c io bytes now in sent (c, io) (w <| typed := typed w ++ accepted a bytes |>)
  | WResize size => sent (Outbound.resize c io size now) w
  | WRepaint => sent (Outbound.request_repaint c io now) w
  | WRepaintArrived => w <| client := Outbound.repaint_arrived c |>
  | WOpen s target => let '(_, c, io) := Outbound.forward_open c io s target now in sent (c, io) w
  | WUnnumbered m => sent (c, (Outbound.unnumbered c io m).2) w
  | WForward m => sent (c, (Outbound.forward_frame c io m).2) w
  | WClose => sent (Outbound.close c io now) w
  | WDetach => sent (Outbound.detach c io now) w
  | WDisconnect => w <| client := Outbound.disconnect c |>
  | WReconnect output version => let '(_, c, io) := Outbound.reconnect c io output version now in sent (c, io) w
  | WRetransmit epoch => let '(_, c, io) := Outbound.retransmit c io now epoch in sent (c, io) w
  | WAck i =>
      match acks w !! i with
      | Some (Some highest) => sent (Outbound.acknowledge c io highest now) w
      | _ => w
      end
  | WDeliver i carried =>
      match wire w !! i with
      | Some (version, frame) =>
          match decode (drop (Z.to_nat LENGTH_PREFIX) frame) version with
          | Ok m =>
              let '(a, s) := command (server w) m now carried in
              w <| server := s |> <| acks := match a with Some a => acks w ++ [a] | None => acks w end |>
          | Err _ => w
          end
      | None => w
      end
  | WShell e =>
      match terminal (server w), e with
      | Some p, Ptyin.EWrite _ => w
      | Some p, _ => w <| server := (server w) <| terminal := Some (Ptyin.step p e) |> |>
      | None, _ => w
      end
  end.

(** What the types of the code's values say of an event's. *)
Definition fine (e : Event) : Prop :=
  match e with
  | WInput bytes => Forall is_byte bytes
  | WResize size => Fields.is_grid size
  | WOpen s target => is_message (ForwardOpen 1 s target)
  | WUnnumbered m | WForward m => is_message m ∧ Outbound.seq_of m = None
  | WReconnect _ version => Fields.MANAGEMENT_VERSION ≤ version
  | _ => True
  end.

Inductive reaches (c : Outbound.Carriage) (version : Z) (tty : bool) : World → Prop :=
| reach_new : Fields.MANAGEMENT_VERSION ≤ version → reaches c version tty (world_new c version tty)
| reach_step w answers now e :
    reaches c version tty w → fine e → Outbound.next_seq (Outbound.state (client w)) < 2 ^ 63 → reaches c version tty (step w answers now e).

(** ** The invariant *)

(** Numbered so far are [ms], of which the journal has dropped [k] and the session applied [j]. *)
Record world_ok (k j : nat) (ms : list ClientMessage) (w : World) : Prop := {
  wo_client : Outbound.out_ok k (Outbound.state (client w)) ms;
  wo_kept : Outbound.close_requested (client w) = false → (k ≤ j)%nat;
  wo_applied : (j ≤ length ms)%nat;
  wo_gate : Attachment.gate (stream (server w)) = Z.of_nat j + 1;
  wo_highest : ∀ h, Attachment.highest_command (stream (server w)) = Some h → h ≤ Z.of_nat j;
  wo_acks : ∀ h, Some h ∈ acks w → h ≤ Z.of_nat j;
  wo_wire : Forall (Outbound.frame_ok ms) (wire w);
  wo_typed : typed w = Outbound.typed ms ++ Outbound.pending (Outbound.state (client w));
  wo_shell : ∀ p, terminal (server w) = Some p → Ptyin.pty_ok p ∧ Ptyin.given p = Outbound.typed (take j ms)
}.

(** The client alone moves: it numbers [extra], and [more] was typed. *)
Lemma client_moves k k' j ms extra w c io more :
  world_ok k j ms w → (Outbound.close_requested c = false → (k' ≤ j)%nat) → Outbound.out_ok k' (Outbound.state c) (ms ++ extra) →
  Forall (Outbound.frame_ok (ms ++ extra)) (Outbound.out io) →
  Outbound.typed extra ++ Outbound.pending (Outbound.state c) = Outbound.pending (Outbound.state (client w)) ++ more →
  world_ok k' j (ms ++ extra) (w <| typed := typed w ++ more |> <| client := c |> <| wire := wire w ++ Outbound.out io |>).
Proof.
  intros [H1 H2 H3 H4 H5 H6 H7 H8 H9] Hc Hok Hout Ht. split; cbn; try done.
  - rewrite length_app. lia.
  - apply Forall_app. split; [|done]. eapply Forall_impl; [exact H7|]. intros f. apply Outbound.frame_ok_more.
  - rewrite H8, Outbound.typed_app, <- !app_assoc. by rewrite Ht.
  - intros p Hp. rewrite take_app_le by lia. by apply H9.
Qed.

Lemma client_sends k k' j ms extra w o c answers io more :
  world_ok k j ms w → (Outbound.close_requested c = false → (k' ≤ j)%nat) → Outbound.sends k' ms o (Outbound.mkIo answers []) extra (Outbound.state c) io →
  Outbound.pending o = Outbound.pending (Outbound.state (client w)) ++ more →
  world_ok k' j (ms ++ extra) (w <| typed := typed w ++ more |> <| client := c |> <| wire := wire w ++ Outbound.out io |>).
Proof.
  intros Hw Hc [S1 (fs & S2 & S2') S3] Hp. apply (client_moves k k' j ms extra w c io more); [done..| |by rewrite S3]. rewrite S2. done.
Qed.

Lemma roomy_of k j ms w : world_ok k j ms w → Outbound.next_seq (Outbound.state (client w)) < 2 ^ 63 → Outbound.roomy k.
Proof. intros [[N1 _ N2 _ _ _ _ _] _ _ _ _ _ _ _ _] H. unfold Outbound.roomy, Outbound.JOURNAL_CAPACITY. lia. Qed.

Lemma drained_spec k ms c io now : Outbound.out_ok k (Outbound.state c) ms → Outbound.roomy k →
  let '(last, c', io') := Outbound.drained c io now in
  (∃ extra, Outbound.sends k ms (Outbound.state c) io extra (Outbound.state c') io') ∧ Outbound.close_requested c' = Outbound.close_requested c.
Proof.
  intros Hk Hr. unfold Outbound.drained. pose proof (Outbound.drain_spec k ms (Outbound.state c) io now Hk Hr) as H.
  destruct (Outbound.drain (Outbound.state c) io now) as [[last o] io']. destruct H as [extra H]. split; [|by destruct (Outbound.pending o)]. exists extra. by destruct (Outbound.pending o).
Qed.

(** More typed is still typed. *)
Lemma out_ok_pending k o ms l : Outbound.out_ok k o ms → Forall is_byte l → Outbound.out_ok k (o <| Outbound.pending := Outbound.pending o ++ l |>) ms.
Proof. intros [] Hl. split; cbn; try done. by apply Forall_app. Qed.

Lemma input_world k j ms w answers now bytes : world_ok k j ms w → Outbound.next_seq (Outbound.state (client w)) < 2 ^ 63 → Forall is_byte bytes →
  ∃ extra, world_ok k j (ms ++ extra) (step w answers now (WInput bytes)).
Proof.
  intros Hw Hn Hb. pose proof (roomy_of _ _ _ _ Hw Hn) as Hr. cbn [step]. unfold Outbound.input.
  set (queued := (_ `min` length bytes)%nat). set (c1 := (client w) <| Outbound.state := _ |>).
  pose proof (drained_spec k ms c1 (Outbound.mkIo answers []) now) as H. destruct (Outbound.drained c1 _ now) as [[last c2] io].
  destruct H as [[extra Hs] Hcl]; [|done|]. { apply out_ok_pending; [apply Hw|by apply Forall_take]. }
  assert (Outbound.close_requested c2 = false → (k ≤ j)%nat) as Hk by (rewrite Hcl; apply Hw).
  exists extra. destruct (Nat.eqb_spec queued (length bytes)) as [E|E].
  - apply (client_sends k k j ms extra w (Outbound.state c1) c2 answers io); [done|done|done|]. cbn. by rewrite E, firstn_all.
  - apply (client_sends k k j ms extra w (Outbound.state c1) (c2 <| Outbound.dropped_input := true |>) answers io); done.
Qed.

(** A control message of the client: [set] is what the flags around it become. *)
Lemma control_world k j ms w answers now make c f :
  world_ok k j ms w → Outbound.next_seq (Outbound.state (client w)) < 2 ^ 63 → Outbound.makes make → (∀ s, Outbound.typed_in (make s) = []) →
  Outbound.state c = Outbound.state (client w) → Outbound.close_requested c = Outbound.close_requested (client w) →
  (∀ r o, let o' := f r o in Outbound.next_seq o' = Outbound.next_seq o ∧ Outbound.journal o' = Outbound.journal o ∧ Outbound.pending o' = Outbound.pending o ∧
     Outbound.version o' = Outbound.version o ∧
     ((∀ size, Outbound.d_resize (Outbound.deferred o) = Some size → Fields.is_grid size) → ∀ size, Outbound.d_resize (Outbound.deferred o') = Some size → Fields.is_grid size)) →
  let '(r, o, io) := Outbound.send (Outbound.state c) (Outbound.mkIo answers []) make now in
  ∃ extra, world_ok k j (ms ++ extra) (w <| client := c <| Outbound.state := f r o |> |> <| wire := wire w ++ Outbound.out io |>).
Proof.
  intros Hw Hn Hm Ht Hs Hcl Hf. pose proof (roomy_of _ _ _ _ Hw Hn) as Hr. rewrite Hs. pose proof (Outbound.send_control k ms (Outbound.state (client w)) (Outbound.mkIo answers []) make now (wo_client _ _ _ _ Hw) Hr Hm Ht) as H.
  destruct (Outbound.send _ _ make now) as [[r o] io]. destruct H as [[extra [S1 S2 S3]] _]. exists extra. destruct (Hf r o) as (F1 & F2 & F3 & F4 & F5).
  pose proof (client_sends k k j ms extra w (Outbound.state (client w)) (c <| Outbound.state := f r o |>) answers io [] Hw) as X. rewrite !app_nil_r in X.
  replace (w <| typed := typed w |>) with w in X by (by destruct w). apply X; [cbn; rewrite Hcl; apply Hw| |done].
  destruct S1. split; cbn; [|done|congruence]. split; rewrite ?F1, ?F2, ?F3, ?F4; try done. by apply F5.
Qed.

Lemma terminal_world k j ms w answers now make : world_ok k j ms w → Outbound.next_seq (Outbound.state (client w)) < 2 ^ 63 → Outbound.makes make → (∀ s, Outbound.typed_in (make s) = []) →
  let '(o, io) := Outbound.send_terminal (Outbound.state (client w)) (Outbound.mkIo answers []) make now in
  ∃ k' extra, world_ok k' j (ms ++ extra) (w <| client := (client w) <| Outbound.close_requested := true |> <| Outbound.state := o |> |> <| wire := wire w ++ Outbound.out io |>).
Proof.
  intros Hw Hn Hm Ht. pose proof (wo_client _ _ _ _ Hw) as Hk. pose proof Hk as [N1 N2 N3 [N4 N4'] _ _ _ _]. unfold Outbound.send_terminal.
  set (o1 := if Outbound.is_full (Outbound.journal (Outbound.state (client w))) then _ else _).
  assert (∃ k', Outbound.out_ok k' o1 ms ∧ Outbound.is_full (Outbound.journal o1) = false ∧ Outbound.pending o1 = Outbound.pending (Outbound.state (client w)) ∧ (k' ≤ S k)%nat) as (k' & K1 & K2 & K3 & K4).
  { unfold o1. destruct (Outbound.is_full (Outbound.journal (Outbound.state (client w)))) eqn:Ef; [|by exists k; auto]. exists (S k). unfold Outbound.is_full in Ef. apply Z.eqb_eq in Ef.
    assert (Outbound.entries (Outbound.journal (Outbound.state (client w))) ≠ []) as Hne by (intros E; rewrite E, N4 in Ef; done). split_and!; [by apply Outbound.displaced| |done|done].
    unfold Outbound.is_full. apply Z.eqb_neq. cbn. destruct (Outbound.entries (Outbound.journal (Outbound.state (client w)))); [done|]. cbn [tail length] in *. lia. }
  assert (Outbound.roomy k') as Hr by (unfold Outbound.roomy, Outbound.JOURNAL_CAPACITY; lia).
  pose proof (Outbound.queue_with_spec k' ms o1 (Outbound.mkIo answers []) make now K1 Hr K2 Hm) as H. destruct (Outbound.queue_with _ _ make now) as [[r o] io].
  assert (∃ extra, Outbound.sends k' ms o1 (Outbound.mkIo answers []) extra o io) as [extra Hs].
  { destruct r as [s|]; [|destruct H as (-> & -> & _); exists []; by apply Outbound.sends_refl]. destruct H as (_ & H1 & H2 & H3 & _). exists [make (Outbound.next_seq o1)]. split; [done|done|]. rewrite H3. unfold Outbound.typed. cbn. by rewrite Ht. }
  exists k', extra. pose proof (client_sends k k' j ms extra w o1 ((client w) <| Outbound.close_requested := true |> <| Outbound.state := o |>) answers io [] Hw) as X. rewrite !app_nil_r in X.
  replace (w <| typed := typed w |>) with w in X by (by destruct w). by apply X.
Qed.

(** The client moves without anything typed. *)
Lemma client_quiet k k' j ms extra w o c answers io :
  world_ok k j ms w → (Outbound.close_requested c = false → (k' ≤ j)%nat) → Outbound.sends k' ms o (Outbound.mkIo answers []) extra (Outbound.state c) io →
  Outbound.pending o = Outbound.pending (Outbound.state (client w)) →
  world_ok k' j (ms ++ extra) (w <| client := c |> <| wire := wire w ++ Outbound.out io |>).
Proof.
  intros Hw Hc Hs Hp. pose proof (client_sends k k' j ms extra w o c answers io [] Hw Hc Hs) as X. rewrite !app_nil_r in X.
  replace (w <| typed := typed w |>) with w in X by (by destruct w). by apply X.
Qed.

Lemma reconnect_world k j ms w answers now output version : world_ok k j ms w → Outbound.next_seq (Outbound.state (client w)) < 2 ^ 63 → Fields.MANAGEMENT_VERSION ≤ version →
  ∃ extra, world_ok k j (ms ++ extra) (step w answers now (WReconnect output version)).
Proof.
  intros Hw Hn Hv. pose proof (roomy_of _ _ _ _ Hw Hn) as Hr. cbn [step]. unfold Outbound.reconnect.
  set (o := (Outbound.state (client w)) <| Outbound.output := Some output |> <| Outbound.version := version |> <| Outbound.resend := Outbound.resend_new |>).
  assert (Outbound.out_ok k o ms) as Ho by (destruct (wo_client _ _ _ _ Hw); by split).
  pose proof (Outbound.replay_spec (Outbound.all (Outbound.journal o)) k ms o (Outbound.mkIo answers []) Ho (λ m H, H)) as H.
  destruct (Outbound.replay _ o _) as [[r o1] io1]. destruct r as [u|e].
  - set (c1 := (client w) <| Outbound.state := o1 |>). pose proof (drained_spec k ms c1 io1 now) as Hd. pose proof (Outbound.se_ok _ _ _ _ _ _ _ H) as K1. rewrite app_nil_r in K1.
    destruct (Outbound.drained c1 io1 now) as [[last c2] io2]. destruct Hd as [[extra Hs] Hcl]; [done|done|]. exists extra.
    eapply (client_quiet k k j ms extra w o (c2 <| Outbound.link_epoch := Outbound.link_epoch c2 + 1 |>) answers io2); [done|cbn; rewrite Hcl; apply Hw| |done].
    change extra with ([] ++ extra). eapply Outbound.sends_trans; [exact H|]. by rewrite app_nil_r.
  - exists []. by apply (client_quiet k k j ms [] w o ((client w) <| Outbound.state := o1 |>) answers io1 Hw); [apply Hw|..].
Qed.

Lemma retransmit_world k j ms w answers now epoch : world_ok k j ms w → world_ok k j ms (step w answers now (WRetransmit epoch)).
Proof.
  intros Hw. pose proof (wo_client _ _ _ _ Hw) as Hk. cbn [step]. unfold Outbound.retransmit.
  assert (∀ c io, Outbound.sends k ms (Outbound.state (client w)) (Outbound.mkIo answers []) [] (Outbound.state c) io → Outbound.close_requested c = Outbound.close_requested (client w) →
    world_ok k j ms (w <| client := c |> <| wire := wire w ++ Outbound.out io |>)) as Hq.
  { intros c io Hs Hcl. rewrite <- (app_nil_r ms). eapply client_quiet; [done|rewrite Hcl; apply Hw|exact Hs|done]. }
  destruct (_ || _); [apply Hq; [by apply Outbound.sends_refl|done]|]. destruct (Outbound.is_empty _).
  { apply Hq; [|done]. eapply Outbound.sends_ext; [by apply Outbound.sends_refl|done..]. }
  destruct (Outbound.due _ now) as [is_due r]. destruct is_due.
  - set (o1 := (Outbound.state (client w)) <| Outbound.resend := r |>). assert (Outbound.out_ok k o1 ms) as K1 by (by eapply Outbound.out_ok_ext).
    pose proof (Outbound.resend_front_spec k ms o1 (Outbound.mkIo answers []) K1) as H. destruct (Outbound.resend_front o1 _) as [o2 io2]. apply Hq; [|done]. destruct H as [A1 A2 A3]. by split.
  - apply Hq; [|done]. eapply Outbound.sends_ext; [by apply Outbound.sends_refl|done..].
Qed.

Lemma ack_world k j ms w answers now i : world_ok k j ms w → Outbound.next_seq (Outbound.state (client w)) < 2 ^ 63 →
  ∃ k' extra, world_ok k' j (ms ++ extra) (step w answers now (WAck i)).
Proof.
  intros Hw Hn. pose proof (wo_client _ _ _ _ Hw) as Hk. cbn [step]. destruct (acks w !! i) as [[h|]|] eqn:Ei; [|by exists k, []; rewrite app_nil_r..].
  assert (h ≤ Z.of_nat j) as Hh by (apply (wo_acks _ _ _ _ Hw); by eapply list_elem_of_lookup_2). unfold Outbound.acknowledge.
  destruct (Outbound.acknowledge_journal k ms _ h Hk) as (k' & K1 & K2 & K3). set (o1 := (Outbound.state (client w)) <| Outbound.journal := _ |>) in *.
  assert (Outbound.roomy k') as Hr by (pose proof (Outbound.oo_kept _ _ _ K3); pose proof (Outbound.oo_next _ _ _ Hk); unfold Outbound.roomy, Outbound.JOURNAL_CAPACITY; lia).
  assert (let '(o2, io2) := if bool_decide (Outbound.output o1 = Some Outbound.Datagram) then
      let '(progress, r) := Outbound.acknowledged (Outbound.resend o1) h now in
      let o := o1 <| Outbound.resend := r |> in match progress with Outbound.Stalled => Outbound.resend_front o (Outbound.mkIo answers []) | _ => (o, Outbound.mkIo answers []) end
    else (o1, Outbound.mkIo answers []) in Outbound.sends k' ms o1 (Outbound.mkIo answers []) [] o2 io2) as H2.
  { case_bool_decide as Hdgram; [|by apply Outbound.sends_refl]. destruct (Outbound.acknowledged _ h now) as [progress r]. set (o := o1 <| Outbound.resend := r |>). assert (Outbound.out_ok k' o ms) as K4 by (by eapply Outbound.out_ok_ext).
    assert (Outbound.sends k' ms o1 (Outbound.mkIo answers []) [] o (Outbound.mkIo answers [])) as Hs by (eapply Outbound.sends_ext; [by apply Outbound.sends_refl|done..]).
    destruct progress; [done| |done]. pose proof (Outbound.resend_front_spec k' ms o (Outbound.mkIo answers []) K4) as H. destruct (Outbound.resend_front o _) as [o2 io2]. destruct H as [A1 A2 A3]. by split. }
  destruct (if bool_decide (Outbound.output o1 = Some Outbound.Datagram) then _ else _) as [o2 io2].
  pose proof (Outbound.se_ok _ _ _ _ _ _ _ H2) as K5. rewrite app_nil_r in K5. set (c1 := (client w) <| Outbound.state := o2 |>).
  pose proof (drained_spec k' ms c1 io2 now K5 Hr) as Hd. destruct (Outbound.drained c1 io2 now) as [[last c2] io3]. destruct Hd as [[extra Hs] Hcl]. exists k', extra.
  eapply (client_quiet k k' j ms extra w o1 c2 answers io3); [done| | |done].
  - rewrite Hcl. intros Hc. specialize (wo_kept _ _ _ _ Hw Hc). lia.
  - change extra with ([] ++ extra). eapply Outbound.sends_trans; [exact H2|]. by rewrite app_nil_r.
Qed.

Lemma frame_world k j ms w answers m : world_ok k j ms w → is_message m ∧ Outbound.seq_of m = None →
  world_ok k j ms (w <| client := client w |> <| wire := wire w ++ Outbound.out (Outbound.unnumbered (client w) (Outbound.mkIo answers []) m).2 |>) ∧
  world_ok k j ms (w <| client := client w |> <| wire := wire w ++ Outbound.out (Outbound.forward_frame (client w) (Outbound.mkIo answers []) m).2 |>).
Proof.
  intros Hw [Hm Hs]. pose proof (wo_client _ _ _ _ Hw) as Hk.
  assert (∀ io, Forall (Outbound.frame_ok ms) (Outbound.out io) → world_ok k j ms (w <| client := client w |> <| wire := wire w ++ Outbound.out io |>)) as Hq.
  { intros io Hfs. destruct Hw. split; cbn; try done. by apply Forall_app. }
  assert (∀ f, encode m (Outbound.version (Outbound.state (client w))) = Ok f → Outbound.frame_ok ms (Outbound.version (Outbound.state (client w)), f)) as Hf.
  { intros f E. split; [apply Hk|]. exists m. split; [by right|done]. }
  assert (∀ f b, encode m (Outbound.version (Outbound.state (client w))) = Ok f → (Outbound.offer (Outbound.mkIo answers []) (Outbound.version (Outbound.state (client w))) f).2 = b → Forall (Outbound.frame_ok ms) (Outbound.out b)) as Ho.
  { intros f b E <-. rewrite Outbound.offer_spec. cbn [app Outbound.out]. destruct (Outbound.offer _ _ f).1; [|constructor]. constructor; [by apply Hf|constructor]. }
  unfold Outbound.unnumbered, Outbound.forward_frame. split; apply Hq.
  - destruct (Outbound.output _); [|constructor]. destruct (encode m _) as [f|]; [|constructor]. by apply (Ho f).
  - destruct (encode m _) as [f|]; [|constructor]. destruct (Outbound.output _); [|constructor]. specialize (Ho f). destruct (Outbound.offer _ _ f) as [b io]. by apply Ho.
Qed.

(** ** The session's steps *)

(** The session has applied the first [j] of [ms]. *)
Record server_ok (j : nat) (ms : list ClientMessage) (s : Server) : Prop := {
  sv_applied : (j ≤ length ms)%nat;
  sv_gate : Attachment.gate (stream s) = Z.of_nat j + 1;
  sv_highest : ∀ h, Attachment.highest_command (stream s) = Some h → h ≤ Z.of_nat j;
  sv_shell : ∀ p, terminal s = Some p → Ptyin.pty_ok p ∧ Ptyin.given p = Outbound.typed (take j ms)
}.

(** From [j] commands to [j'], with the acknowledgement it may have sent. *)
Definition serves (j j' : nat) (ms : list ClientMessage) (r : option (option Z) * Server) : Prop :=
  (j ≤ j')%nat ∧ server_ok j' ms r.2 ∧ ∀ h, r.1 = Some (Some h) → h ≤ Z.of_nat j'.

Lemma ack_serves j j0 ms s seq : (j0 ≤ j)%nat → server_ok j ms s → seq ≤ Z.of_nat j → serves j0 j ms (ack s seq).
Proof.
  intros Hj [S1 S2 S3 S4] Hseq. unfold ack, Attachment.acknowledged. destruct (match Attachment.highest_command (stream s) with None => true | Some highest => highest <? seq end); cbn.
  - split_and!; [done| |by intros h [= <-]]. split; cbn; try done. by intros h [= <-].
  - split_and!; [done| |intros h [= E]; by apply S3]. by split.
Qed.

Lemma same_serves j ms s : server_ok j ms s → serves j j ms (None, s).
Proof. intros H. split; [done|]. by split. Qed.

Lemma admission seq j : Z.of_nat j + 3 ≤ U64_MAX →
  Attachment.gate_check (Z.of_nat j + 1) seq = Attachment.Fresh ∧ seq = Z.of_nat j + 1 ∨ Attachment.gate_check (Z.of_nat j + 1) seq = Attachment.Duplicate ∧ seq ≤ Z.of_nat j ∨
  Attachment.gate_check (Z.of_nat j + 1) seq = Attachment.Gap.
Proof.
  intros H. unfold Attachment.gate_check. destruct (Z.eqb_spec seq (Z.of_nat j + 1)); [by left|]. destruct (Z.ltb_spec seq (Z.of_nat j + 1)); [right; left; split; [done|lia]|by right; right].
Qed.

Lemma gate_next j : Z.of_nat j + 3 ≤ U64_MAX → Attachment.gate_commit (Z.of_nat j + 1) = Z.of_nat (S j) + 1.
Proof. intros H. unfold Attachment.gate_commit, Fields.seq_next, sat_add. lia. Qed.

(** A message that is not typing moves the gate alone. *)
Lemma step_applied j ms s st m : server_ok j ms s → ms !! j = Some m → Outbound.typed_in m = [] → Attachment.gate st = Z.of_nat (S j) + 1 →
  Attachment.highest_command st = Attachment.highest_command (stream s) → server_ok (S j) ms (s <| stream := st |>).
Proof.
  intros [S1 S2 S3 S4] Hm Ht Hg Hh. pose proof (lookup_lt_Some _ _ _ Hm). split; cbn; [lia|done|rewrite Hh; intros h E; specialize (S3 h E); lia|].
  intros p Hp. destruct (S4 p Hp) as [P1 P2]. split; [done|]. by rewrite P2, (take_S_r _ _ _ Hm), Outbound.typed_app; unfold Outbound.typed at 3; cbn; rewrite Ht, !app_nil_r.
Qed.

Lemma admit_serves j ms s seq m : Z.of_nat j + 3 ≤ U64_MAX → server_ok j ms s → Outbound.typed_in m = [] → (seq = Z.of_nat j + 1 → ms !! j = Some m) →
  let '(admission, st) := Attachment.admit_ (stream s) seq in
  match admission with
  | Attachment.Fresh => seq = Z.of_nat (S j) ∧ server_ok (S j) ms (s <| stream := st |>)
  | Attachment.Duplicate => seq ≤ Z.of_nat j ∧ server_ok j ms (s <| stream := st |>)
  | Attachment.Gap => server_ok j ms (s <| stream := st |>)
  end.
Proof.
  intros Hb Hs Ht Hm. pose proof Hs as [S1 S2 S3 S4]. unfold Attachment.admit_, Attachment.gate_admit. rewrite S2.
  destruct (admission seq j Hb) as [[-> ->]|[[-> Hd]| ->]].
  - rewrite bool_decide_eq_true_2, gate_next by done. split; [lia|]. by apply (step_applied j ms s _ m); auto.
  - rewrite bool_decide_eq_false_2 by done. split; [done|]. split; cbn; done.
  - rewrite bool_decide_eq_false_2 by done. split; cbn; done.
Qed.

Lemma gated_serves j ms s seq m carried : Z.of_nat j + 3 ≤ U64_MAX → server_ok j ms s → Outbound.typed_in m = [] → (seq = Z.of_nat j + 1 → ms !! j = Some m) →
  ∃ j', serves j j' ms (gated s seq carried).
Proof.
  intros Hb Hs Ht Hm. pose proof (admit_serves j ms s seq m Hb Hs Ht Hm) as H. unfold gated. destruct (Attachment.admit_ (stream s) seq) as [[] st].
  - destruct H as [-> H]. exists (S j). destruct carried; [apply ack_serves; [lia|done|lia]|]. split; [lia|]. by split.
  - destruct H as [H1 H]. exists j. by apply ack_serves.
  - exists j. by apply same_serves.
Qed.

(** The typing itself: the shell is given it as the gate moves. *)
Lemma input_serves j ms s seq bytes now : Z.of_nat j + 3 ≤ U64_MAX → server_ok j ms s → (seq = Z.of_nat j + 1 → ms !! j = Some (Input seq bytes)) → is_Some (terminal s) →
  ∃ j', serves j j' ms (typed_input s seq bytes now).
Proof.
  intros Hb Hs Hm [p Hp]. pose proof Hs as [S1 S2 S3 S4]. unfold typed_input, Attachment.check. rewrite Hp, S2.
  destruct (admission seq j Hb) as [[-> ->]|[[-> Hd]| ->]]; [|exists j; by apply ack_serves|exists j; by apply same_serves].
  destruct (Ptyin.write (Ptyin.buffer p) bytes) as [ok b] eqn:Ew. cbn [fst]. destruct ok; [|exists j; by apply same_serves]. exists (S j). apply ack_serves; [lia| |lia].
  destruct (S4 p Hp) as [P1 P2]. specialize (Hm eq_refl). pose proof (lookup_lt_Some _ _ _ Hm). split; cbn -[Ptyin.step]; [lia|rewrite S2; by apply gate_next|intros h E; specialize (S3 h E); lia|].
  intros p' [= <-]. split; [by apply (Ptyin.pty_step p (Ptyin.EWrite bytes))|]. rewrite (take_S_r _ _ _ Hm), Outbound.typed_app, <- P2. cbn [Ptyin.step]. rewrite Ew. cbn. unfold Outbound.typed. cbn. by rewrite app_nil_r.
Qed.

(** Without a terminal the gate still moves over typing, which no shell is given. *)
Lemma ignored_serves j ms s seq m : Z.of_nat j + 3 ≤ U64_MAX → server_ok j ms s → terminal s = None → (seq = Z.of_nat j + 1 → ms !! j = Some m) →
  ∃ j', serves j j' ms (ignore s seq).
Proof.
  intros Hb [S1 S2 S3 S4] Hp Hm. unfold ignore, Attachment.admit_, Attachment.gate_admit. rewrite S2. destruct (admission seq j Hb) as [[-> ->]|[[-> Hd]| ->]].
  - exists (S j). rewrite bool_decide_eq_true_2, gate_next by done. specialize (Hm eq_refl). pose proof (lookup_lt_Some _ _ _ Hm). apply ack_serves; [lia| |lia].
    split; cbn; [lia|done|intros h E; specialize (S3 h E); lia|congruence].
  - exists j. rewrite bool_decide_eq_false_2 by done. apply ack_serves; [done| |done]. split; cbn; done.
  - exists j. rewrite bool_decide_eq_false_2 by done. apply same_serves. split; cbn; done.
Qed.

Lemma encoded_decodes m v f : Fields.MANAGEMENT_VERSION ≤ v → is_message m → encode m v = Ok f → decode (drop (Z.to_nat LENGTH_PREFIX) f) v = Ok m.
Proof.
  intros Hv Hm He. destruct (encode_inv m v f Hm He) as (fields & Hf & ->). destruct (encode_spec m v fields Hm Hf) as (_ & Hl & _).
  rewrite drop_app_length' by (unfold Codec.put_u32; rewrite length_to_be; done). rewrite <- (app_nil_r (body m fields)). apply decode_body; try done.
  rewrite app_nil_r. unfold Fields.MAX_CLIENT_FRAME in Hl. lia.
Qed.
Lemma frame_decodes ms v f : Outbound.frame_ok ms (v, f) →
  ∃ m, (m ∈ ms ∨ Outbound.seq_of m = None) ∧ decode (drop (Z.to_nat LENGTH_PREFIX) f) v = Ok m.
Proof. intros [Hv (m & Hin & Hm & He)]. exists m. split; [done|]. by apply encoded_decodes. Qed.

Lemma message_at k o ms m seq : Outbound.out_ok k o ms → m ∈ ms → Outbound.seq_of m = Some seq → ∀ j, seq = Z.of_nat j + 1 → ms !! j = Some m.
Proof.
  intros Hk Hin Hs j ->. apply list_elem_of_lookup in Hin as [i Hi]. destruct (Outbound.oo_messages _ _ _ Hk i m Hi) as [E _]. rewrite Hs in E. injection E as E. by replace j with i by lia.
Qed.

Lemma command_serves k o j ms s m now carried : Outbound.out_ok k o ms → Z.of_nat j + 3 ≤ U64_MAX → server_ok j ms s → m ∈ ms ∨ Outbound.seq_of m = None →
  ∃ j', serves j j' ms (command s m now carried).
Proof.
  intros Hk Hb Hs Hin. assert (∀ seq, Outbound.seq_of m = Some seq → seq = Z.of_nat j + 1 → ms !! j = Some m) as Hat.
  { intros seq E. destruct Hin as [Hin|]; [|congruence]. by eapply message_at. }
  destruct m; cbn [command Outbound.seq_of] in *; try (exists j; by apply same_serves).
  - destruct (terminal s) eqn:Et; [apply input_serves; [done|done|by apply Hat|by eexists]|]. unfold typed_input. rewrite Et. eapply ignored_serves; [done|done|done|by apply Hat].
  - eapply gated_serves; [done|done| |by apply Hat]; done.
  - destruct (terminal s) eqn:Et; [eapply gated_serves; [done|done| |by apply Hat]; done|]. eapply ignored_serves; [done|done|done|by apply Hat].
  - pose proof (admit_serves j ms s seq (Close seq) Hb Hs eq_refl (Hat seq eq_refl)) as H. destruct (Attachment.admit_ (stream s) seq) as [[] st].
    + destruct H as [-> H]. exists (S j). apply ack_serves; [lia|done|lia].
    + destruct H as [_ H]. exists j. by apply same_serves.
    + exists j. by apply same_serves.
  - pose proof (admit_serves j ms s seq (Detach seq) Hb Hs eq_refl (Hat seq eq_refl)) as H. destruct (Attachment.admit_ (stream s) seq) as [[] st].
    + destruct H as [-> H]. exists (S j). apply ack_serves; [lia|done|lia].
    + destruct H as [_ H]. exists j. by apply same_serves.
    + exists j. by apply same_serves.
  - eapply gated_serves; [done|done| |by apply Hat]; done.
Qed.

Lemma world_server k j ms w : world_ok k j ms w → server_ok j ms (server w).
Proof. intros []. by split. Qed.

Lemma deliver_world k j ms w answers now i carried : world_ok k j ms w → Outbound.next_seq (Outbound.state (client w)) < 2 ^ 63 →
  ∃ j', (j ≤ j')%nat ∧ world_ok k j' ms (step w answers now (WDeliver i carried)).
Proof.
  intros Hw Hn. pose proof (wo_client _ _ _ _ Hw) as Hk. pose proof (Outbound.oo_next _ _ _ Hk) as Hx. pose proof (wo_applied _ _ _ _ Hw) as Hj. cbn [step].
  destruct (wire w !! i) as [[v f]|] eqn:Ei; [|by exists j]. destruct (frame_decodes ms v f) as (m & Hin & ->). { eapply Forall_lookup_1; [apply Hw|exact Ei]. }
  destruct (command_serves k _ j ms (server w) m now carried Hk) as (j' & J1 & J2 & J3); [lia|by eapply world_server|done|]. destruct (command (server w) m now carried) as [a s]. cbn [fst snd] in *.
  exists j'. split; [done|]. destruct Hw, J2. split; cbn; try done.
  - intros Hc. specialize (wo_kept0 Hc). lia.
  - intros h Hh. destruct a as [a|]; [|specialize (wo_acks0 h Hh); lia]. apply elem_of_app in Hh as [Hh|Hh]; [specialize (wo_acks0 h Hh); lia|]. apply list_elem_of_singleton in Hh as <-. by apply J3.
Qed.

Lemma shell_given p e : (∀ input, e ≠ Ptyin.EWrite input) → Ptyin.given (Ptyin.step p e) = Ptyin.given p.
Proof.
  intros Hne. destruct e as [input| | | |n]; cbn; try done; [by destruct (Hne input)|..]; destruct (Ptyin.doing p); try done. by destruct (Ptyin.turn (Ptyin.buffer p)).
Qed.

Lemma shell_world k j ms w answers now e : world_ok k j ms w → world_ok k j ms (step w answers now (WShell e)).
Proof.
  intros Hw. cbn [step]. destruct (terminal (server w)) as [p|] eqn:Ep; [|done]. destruct (wo_shell _ _ _ _ Hw p Ep) as [P1 P2].
  assert (Ptyin.pty_ok (Ptyin.step p e)) as P3 by exact (Ptyin.pty_step p e P1).
  assert ((∀ input, e ≠ Ptyin.EWrite input) → world_ok k j ms (w <| server := (server w) <| terminal := Some (Ptyin.step p e) |> |>)) as H; [|by destruct e; try apply H].
  intros Hne. pose proof (shell_given p e Hne) as Hg. destruct Hw. split; cbn -[Ptyin.step]; try done. intros p' [= <-]. by rewrite Hg.
Qed.

Lemma step_world k j ms w answers now e : world_ok k j ms w → Outbound.next_seq (Outbound.state (client w)) < 2 ^ 63 → fine e →
  ∃ k' j' ms', world_ok k' j' ms' (step w answers now e).
Proof.
  intros Hw Hn Hf. destruct e as [bytes|size| | |s target|m|m| | | |c v|epoch|i|i carried|e]; cbn [fine] in Hf.
  - destruct (input_world k j ms w answers now bytes Hw Hn Hf) as [extra H]. eauto.
  - pose proof (control_world k j ms w answers now (λ seq, Resize seq size) (client w) (λ r o, match r with None => o <| Outbound.deferred := (Outbound.deferred o) <| Outbound.d_resize := Some size |> |> | Some _ => o end) Hw Hn) as H.
    cbn [step]. unfold Outbound.resize. destruct (Outbound.send _ _ _ now) as [[r o] io]. destruct H as [extra H]; [done|done|done|done| |by eauto].
    intros r' o'. destruct r'; cbn; split_and!; try done. by intros _ size' [= <-].
  - cbn [step]. unfold Outbound.request_repaint. destruct (Outbound.repaint_outstanding (client w)).
    { exists k, j, (ms ++ []). apply (client_quiet k k j ms [] w (Outbound.state (client w)) (client w) answers (Outbound.mkIo answers []) Hw); [apply Hw|apply Outbound.sends_refl, Hw|done]. }
    pose proof (control_world k j ms w answers now RequestRepaint ((client w) <| Outbound.repaint_outstanding := true |>) (λ r o, match r with None => o <| Outbound.deferred := (Outbound.deferred o) <| Outbound.d_repaint := true |> |> | Some _ => o end) Hw Hn) as H.
    destruct (Outbound.send _ _ _ now) as [[r o] io]. destruct H as [extra H]; [done|done|done|done| |by eauto]. intros r' o'. destruct r'; cbn; by split_and!.
  - exists k, j, ms. destruct Hw. by split.
  - pose proof (control_world k j ms w answers now (λ seq, ForwardOpen seq s target) (client w) (λ r o, o) Hw Hn) as H. cbn [step]. unfold Outbound.forward_open.
    destruct (Outbound.send _ _ _ now) as [[r o] io]. destruct H as [extra H]; [|done|done|done|by intros; split_and!|by eauto]. intros seq Hs. split; [|done]. cbn in Hf |- *. by split; [|apply Hf].
  - exists k, j, ms. by apply frame_world.
  - exists k, j, ms. by apply frame_world.
  - pose proof (terminal_world k j ms w answers now Close Hw Hn) as H. cbn [step]. unfold Outbound.close. change (Outbound.state ((client w) <| Outbound.close_requested := true |>)) with (Outbound.state (client w)). destruct (Outbound.send_terminal _ _ _ now) as [o io]. destruct H as (k' & extra & H); [by intros seq Hs|done|by eauto].
  - pose proof (terminal_world k j ms w answers now Detach Hw Hn) as H. cbn [step]. unfold Outbound.detach. change (Outbound.state ((client w) <| Outbound.close_requested := true |>)) with (Outbound.state (client w)). destruct (Outbound.send_terminal _ _ _ now) as [o io]. destruct H as (k' & extra & H); [by intros seq Hs|done|by eauto].
  - exists k, j, ms. destruct Hw. split; try done. by eapply Outbound.out_ok_ext.
  - destruct (reconnect_world k j ms w answers now c v Hw Hn Hf) as [extra H]. eauto.
  - exists k, j, ms. by apply retransmit_world.
  - destruct (ack_world k j ms w answers now i Hw Hn) as (k' & extra & H). eauto.
  - destruct (deliver_world k j ms w answers now i carried Hw Hn) as (j' & _ & H). eauto.
  - exists k, j, ms. by apply shell_world.
Qed.

Lemma reaches_world c v tty w : reaches c v tty w → ∃ k j ms, world_ok k j ms w.
Proof.
  induction 1 as [Hv|w answers now e _ (k & j & ms & Hw) Hf Hn]; [|by eapply step_world]. exists O, O, []. split; cbn; try done.
  - by intros h ?%elem_of_nil.
  - intros p Hp. destruct tty; [|done]. injection Hp as <-. split; [apply Ptyin.pty_new_ok|done].
Qed.

(** ** Delivery *)

(** The session's shell, if it has one, takes [n] more bytes. *)
Definition shell_room (s : Server) (n : Z) : Prop :=
  ∀ p, terminal s = Some p → Ptyin.closed (Ptyin.buffer p) = false ∧ Ptyin.failed (Ptyin.buffer p) = false ∧
    len (Ptyin.bytes (Ptyin.buffer p)) + Ptyin.writing (Ptyin.buffer p) + n ≤ Ptyin.BACKLOG.

Lemma acknowledged_gate st seq : Attachment.gate (Attachment.acknowledged st seq).2 = Attachment.gate st.
Proof. unfold Attachment.acknowledged. by destruct (match Attachment.highest_command st with None => true | Some highest => highest <? seq end). Qed.
Lemma ack_keeps s seq : Attachment.gate (stream (ack s seq).2) = Attachment.gate (stream s) ∧ terminal (ack s seq).2 = terminal s.
Proof. unfold ack. pose proof (acknowledged_gate (stream s) seq) as H. by destruct (Attachment.acknowledged (stream s) seq). Qed.

(** A command through the gate once moves it past the command, and not again. *)
Lemma passed i j : (i ≤ j)%nat → Z.of_nat j + 3 ≤ U64_MAX →
  if (i =? j)%nat then Attachment.gate_check (Z.of_nat j + 1) (Z.of_nat i + 1) = Attachment.Fresh ∧ Attachment.gate_commit (Z.of_nat j + 1) = Z.of_nat (j `max` S i) + 1
  else Attachment.gate_check (Z.of_nat j + 1) (Z.of_nat i + 1) = Attachment.Duplicate ∧ Z.of_nat j + 1 = Z.of_nat (j `max` S i) + 1.
Proof.
  intros H Hj. destruct (Nat.eqb_spec i j) as [->|Hne]; (split; [|unfold Attachment.gate_commit, Fields.seq_next, sat_add; lia]); unfold Attachment.gate_check.
  - by rewrite Z.eqb_refl.
  - destruct (Z.eqb_spec (Z.of_nat i + 1) (Z.of_nat j + 1)); [lia|]. destruct (Z.ltb_spec (Z.of_nat i + 1) (Z.of_nat j + 1)); [done|lia].
Qed.

Lemma gate_takes s i j : (i ≤ j)%nat → Z.of_nat j + 3 ≤ U64_MAX → Attachment.gate (stream s) = Z.of_nat j + 1 →
  let '(admission, st) := Attachment.admit_ (stream s) (Z.of_nat i + 1) in
  admission ≠ Attachment.Gap ∧ Attachment.gate st = Z.of_nat (j `max` S i) + 1.
Proof.
  intros H Hj Hg. pose proof (passed i j H Hj) as P. unfold Attachment.admit_, Attachment.gate_admit. rewrite Hg.
  destruct (i =? j)%nat; destruct P as [-> P]; rewrite ?P; [rewrite bool_decide_eq_true_2 by done|rewrite bool_decide_eq_false_2 by done]; by split.
Qed.

Lemma gated_takes s i j carried : (i ≤ j)%nat → Z.of_nat j + 3 ≤ U64_MAX → Attachment.gate (stream s) = Z.of_nat j + 1 →
  Attachment.gate (stream (gated s (Z.of_nat i + 1) carried).2) = Z.of_nat (j `max` S i) + 1 ∧ terminal (gated s (Z.of_nat i + 1) carried).2 = terminal s.
Proof.
  intros H Hj Hg. pose proof (gate_takes s i j H Hj Hg) as P. unfold gated. destruct (Attachment.admit_ (stream s) (Z.of_nat i + 1)) as [a st]. destruct P as [P1 P2].
  destruct a; [|destruct (ack_keeps (s <| stream := st |>) (Z.of_nat i + 1)) as [-> ->]; by split|done].
  destruct carried; [|by split]. destruct (ack_keeps (s <| stream := st |>) (Z.of_nat i + 1)) as [-> ->]. by split.
Qed.

Lemma ignore_gated s seq : ignore s seq = gated s seq true.
Proof. unfold ignore, gated. by destruct (Attachment.admit_ (stream s) seq) as [[] st]. Qed.

Lemma input_takes s i j bytes now p n : 0 ≤ n → (i ≤ j)%nat → Z.of_nat j + 3 ≤ U64_MAX → Attachment.gate (stream s) = Z.of_nat j + 1 → terminal s = Some p →
  shell_room s (len (if (i =? j)%nat then bytes else []) + n) → let s' := (typed_input s (Z.of_nat i + 1) bytes now).2 in
  Attachment.gate (stream s') = Z.of_nat (j `max` S i) + 1 ∧ shell_room s' n.
Proof.
  intros Hn H Hj Hg Hp Hr. pose proof (passed i j H Hj) as P. unfold typed_input, Attachment.check. rewrite Hp, Hg. destruct (Hr p Hp) as (R1 & R2 & R3).
  destruct (i =? j)%nat; destruct P as [-> P].
  - assert (Ptyin.write (Ptyin.buffer p) bytes = (true, (Ptyin.buffer p) <| Ptyin.bytes := Ptyin.bytes (Ptyin.buffer p) ++ bytes |>)) as Ew.
    { unfold Ptyin.write. rewrite R1, R2. destruct (Z.ltb_spec Ptyin.BACKLOG (len (Ptyin.bytes (Ptyin.buffer p)) + Ptyin.writing (Ptyin.buffer p) + len bytes)); [lia|done]. }
    rewrite Ew. cbn [fst Ptyin.step]. rewrite Ew. destruct (ack_keeps (s <| terminal := Some (Ptyin.mkPty ((Ptyin.buffer p) <| Ptyin.bytes := Ptyin.bytes (Ptyin.buffer p) ++ bytes |>) (Ptyin.doing p) (Ptyin.wrote p) (Ptyin.given p ++ bytes)) |> <| stream := Attachment.applied (stream s) (Z.of_nat i + 1) now |>) (Z.of_nat i + 1)) as [A1 A2].
    split; [by rewrite A1; cbn; rewrite Hg|]. intros p' Hp'. rewrite A2 in Hp'. injection Hp' as <-. cbn. rewrite length_app. split_and!; [done|done|lia].
  - destruct (ack_keeps s (Z.of_nat i + 1)) as [A1 A2]. rewrite A1, Hg. split; [done|]. intros p' Hp'. rewrite A2 in Hp'. destruct (Hr p' Hp') as (? & ? & ?). cbn [length] in *. split_and!; [done|done|lia].
Qed.

Lemma shell_room_keeps s s' n n' : terminal s' = terminal s → n' ≤ n → shell_room s n → shell_room s' n'.
Proof. intros E Hn H p Hp. rewrite E in Hp. destruct (H p Hp) as (? & ? & ?). split_and!; [done|done|lia]. Qed.

(** A session takes any command it has reached, if its shell has room for what was typed in it. *)
Lemma command_takes s m i j now carried n : 0 ≤ n → Outbound.seq_of m = Some (Z.of_nat i + 1) → (i ≤ j)%nat → Z.of_nat j + 3 ≤ U64_MAX → Attachment.gate (stream s) = Z.of_nat j + 1 →
  shell_room s (len (if (i =? j)%nat then Outbound.typed_in m else []) + n) → let s' := (command s m now carried).2 in
  Attachment.gate (stream s') = Z.of_nat (j `max` S i) + 1 ∧ shell_room s' n.
Proof.
  intros Hn Hs H Hj Hg Hr. assert (∀ carried, let s' := (gated s (Z.of_nat i + 1) carried).2 in Attachment.gate (stream s') = Z.of_nat (j `max` S i) + 1 ∧ shell_room s' n) as Hgate.
  { intros c. destruct (gated_takes s i j c H Hj Hg) as [G1 G2]. split; [done|]. eapply shell_room_keeps; [done| |done]. lia. }
  assert (∀ s', s' = (let '(admission, st) := Attachment.admit_ (stream s) (Z.of_nat i + 1) in let s := s <| stream := st |> in match admission with Attachment.Fresh => ack s (Z.of_nat i + 1) | _ => (None, s) end).2 →
    Attachment.gate (stream s') = Z.of_nat (j `max` S i) + 1 ∧ shell_room s' n) as Hend.
  { intros s' ->. pose proof (gate_takes s i j H Hj Hg) as P. destruct (Attachment.admit_ (stream s) (Z.of_nat i + 1)) as [a st]. destruct P as [_ P2]. cbn zeta. destruct a.
    - destruct (ack_keeps (s <| stream := st |>) (Z.of_nat i + 1)) as [A1 A2]. rewrite A1. split; [done|]. eapply shell_room_keeps; [done| |done]. lia.
    - split; [done|]. eapply shell_room_keeps; [done| |done]. lia.
    - split; [done|]. eapply shell_room_keeps; [done| |done]. lia. }
  destruct m; cbn [Outbound.seq_of] in Hs; try done; injection Hs as ->; cbn [command]; [| | |by apply Hend|by apply Hend|apply Hgate].
  - destruct (terminal s) as [p|] eqn:Et; [by eapply input_takes|]. unfold typed_input. rewrite Et, ignore_gated. apply Hgate.
  - apply Hgate.
  - destruct (terminal s); [|rewrite ignore_gated]; apply Hgate.
Qed.

Lemma command_terminal s m now carried : is_Some (terminal s) → is_Some (terminal (command s m now carried).2).
Proof.
  intros [p Hp]. assert (∀ s' seq, is_Some (terminal s') → is_Some (terminal (ack s' seq).2)) as Ha by (intros s' seq H; by rewrite (proj2 (ack_keeps s' seq))).
  assert (∀ st, is_Some (terminal (s <| stream := st |>))) as Hst by (intros st; cbn; rewrite Hp; by eexists).
  assert (∀ seq c, is_Some (terminal (gated s seq c).2)) as Hg.
  { intros seq c. unfold gated. destruct (Attachment.admit_ (stream s) seq) as [[] st]; [destruct c|..]; [by apply Ha|by apply Hst|by apply Ha|by apply Hst]. }
  assert (is_Some (terminal s)) as Hs by (by eexists). destruct m; cbn [command]; try done; [|by rewrite Hp|..].
  - unfold typed_input. rewrite Hp. destruct (Attachment.check (stream s) seq); [|by apply Ha|done]. destruct (Ptyin.write _ _).1; [|done]. apply Ha. by eexists.
  - destruct (Attachment.admit_ (stream s) seq) as [[] st]; [by apply Ha|by apply Hst..].
  - destruct (Attachment.admit_ (stream s) seq) as [[] st]; [by apply Ha|by apply Hst..].
Qed.

(** The frames from [b] on arrive in order; [carried] is what becomes of each. *)
Definition deliver_from (now : Instant) (carried : nat → bool) (b n : nat) (w : World) : World :=
  foldl (λ w i, step w [] now (WDeliver i (carried i))) w (seq b n).

Lemma typed_drop ms j m : ms !! j = Some m → Outbound.typed (drop j ms) = Outbound.typed_in m ++ Outbound.typed (drop (S j) ms).
Proof. intros H. by rewrite (drop_S _ _ _ H). Qed.

(** One delivery of the command after [x] others, none of them missing. *)
Lemma deliver_one k j ms w now i x v m f carried : world_ok k j ms w → Outbound.next_seq (Outbound.state (client w)) < 2 ^ 63 → Fields.MANAGEMENT_VERSION ≤ v →
  wire w !! i = Some (v, f) → encode m v = Ok f → ms !! x = Some m → (x ≤ j)%nat → shell_room (server w) (len (Outbound.typed (drop j ms))) →
  let w' := step w [] now (WDeliver i carried) in
  world_ok k (j `max` S x) ms w' ∧ shell_room (server w') (len (Outbound.typed (drop (j `max` S x) ms))) ∧ client w' = client w ∧ wire w' = wire w ∧ typed w' = typed w ∧
  (is_Some (terminal (server w)) → is_Some (terminal (server w'))).
Proof.
  intros Hw Hn Hv Hi He Hx Hxj Hr. pose proof (wo_client _ _ _ _ Hw) as Hk. pose proof (Outbound.oo_next _ _ _ Hk) as Hnext. pose proof (wo_applied _ _ _ _ Hw) as Hj.
  destruct (Outbound.oo_messages _ _ _ Hk x m Hx) as [Hs Hm]. destruct (deliver_world k j ms w [] now i carried Hw Hn) as (j' & J1 & J2). cbn [step] in *. rewrite Hi, (encoded_decodes m v f Hv Hm He) in *.
  pose proof (command_takes (server w) m x j now carried (len (Outbound.typed (drop (j `max` S x) ms))) ltac:(lia) Hs Hxj ltac:(lia) (wo_gate _ _ _ _ Hw)) as Ht.
  pose proof (command_terminal (server w) m now carried) as Hterm. destruct (command (server w) m now carried) as [a s]. cbn [snd] in *. destruct Ht as [T1 T2].
  { eapply shell_room_keeps; [done| |exact Hr]. destruct (Nat.eqb_spec x j) as [->|Hne]; [|by replace (j `max` S x)%nat with j by lia].
    rewrite (typed_drop _ _ _ Hx), length_app. replace (j `max` S j)%nat with (S j) by lia. lia. }
  pose proof (wo_gate _ _ _ _ J2) as G. cbn in G. rewrite T1 in G. replace (j `max` S x)%nat with j' by lia. split_and!; try done. cbn. by replace j' with (j `max` S x)%nat by lia.
Qed.

Lemma deliver_from_world n k j ms w now carried b x v : world_ok k j ms w → Outbound.next_seq (Outbound.state (client w)) < 2 ^ 63 → Fields.MANAGEMENT_VERSION ≤ v →
  (x ≤ j)%nat → Outbound.frames v (take n (drop x ms)) (take n (drop b (wire w))) → (x + n ≤ length ms)%nat → shell_room (server w) (len (Outbound.typed (drop j ms))) →
  let w' := deliver_from now carried b n w in
  world_ok k (j `max` (x + n)) ms w' ∧ client w' = client w ∧ typed w' = typed w ∧ (is_Some (terminal (server w)) → is_Some (terminal (server w'))).
Proof.
  revert j w b x. induction n as [|n IH]; intros j w b x Hw Hn Hv Hx Hf Hl Hr.
  { unfold deliver_from. cbn [seq foldl]. replace (j `max` (x + 0))%nat with j by lia. by split_and!. }
  destruct (lookup_lt_is_Some_2 ms x) as [m Hm]; [lia|]. rewrite (drop_S _ _ _ Hm) in Hf. cbn [take] in Hf. inversion Hf as [|m' f ms' fs [F1 F2] F3 E1 E2]. subst m' ms'.
  destruct (drop b (wire w)) as [|f0 rest] eqn:Ed; [done|]. cbn [take] in E2. injection E2 as <- E2. assert (wire w !! b = Some f) as Hb.
  { replace b with (b + 0)%nat by lia. by rewrite <- lookup_drop, Ed. } destruct f as [v' f]. cbn [fst snd] in *. subst v'.
  destruct (deliver_one k j ms w now b x v m f (carried b) Hw Hn Hv Hb F2 Hm Hx Hr) as (D1 & D2 & D3 & D4 & D5 & D6). unfold deliver_from. cbn [seq foldl]. set (w1 := step w [] now (WDeliver b (carried b))) in *.
  assert (drop (S b) (wire w1) = rest) as Hrest by (rewrite D4; rewrite (drop_S _ _ _ Hb) in Ed; congruence).
  destruct (IH (j `max` S x)%nat w1 (S b) (S x) D1) as (I1 & I2 & I3 & I4); [by rewrite D3|done|lia|by rewrite Hrest, <- E2|lia|done|].
  unfold deliver_from in *. replace (j `max` (x + S n))%nat with ((j `max` S x) `max` (S x + n))%nat by lia. split_and!; [done|congruence|congruence|auto].
Qed.

(** ** What reaches the shell *)

Lemma wrote_given p : Ptyin.pty_ok p → Ptyin.wrote p `prefix_of` Ptyin.given p.
Proof. intros [H1 H2 _ _]. destruct (Ptyin.failed (Ptyin.buffer p)); [by apply H2|]. rewrite (H1 eq_refl). by apply prefix_app_r. Qed.

Lemma journal_all k o ms : Outbound.out_ok k o ms → Outbound.all (Outbound.journal o) = drop k ms.
Proof. intros H. unfold Outbound.all. rewrite (Outbound.oo_journal _ _ _ H), fmap_drop. f_equal. unfold Outbound.numbered. rewrite fmap_imap, (imap_ext _ (const id)) by done. by rewrite imap_const, list_fmap_id. Qed.

(** A link that takes every frame is sent the journal before anything else. *)
Lemma reconnect_wire k j ms w n now output version : world_ok k j ms w → Outbound.next_seq (Outbound.state (client w)) < 2 ^ 63 → Fields.MANAGEMENT_VERSION ≤ version →
  (length (drop k ms) ≤ n)%nat → (Outbound.reconnect (client w) (Outbound.mkIo (replicate n true) []) output version now).1.1 = Ok () →
  ∃ gs fs, wire (step w (replicate n true) now (WReconnect output version)) = wire w ++ gs ++ fs ∧ Outbound.frames version (drop k ms) gs.
Proof.
  intros Hw Hn Hv Hlen. pose proof (roomy_of _ _ _ _ Hw Hn) as Hr. cbn [step]. unfold Outbound.reconnect.
  set (o := (Outbound.state (client w)) <| Outbound.output := Some output |> <| Outbound.version := version |> <| Outbound.resend := Outbound.resend_new |>).
  assert (Outbound.out_ok k o ms) as Ho by (destruct (wo_client _ _ _ _ Hw); by split). rewrite (journal_all k o ms Ho).
  pose proof (Outbound.replay_takes (drop k ms) o n [] ltac:(by eexists) Hlen) as H. destruct (Outbound.replay _ o _) as [[r o1] io1]. destruct r as [[]|e]; [|done].
  destruct (H eq_refl) as [-> (gs & Hgs & Hf)]. set (c1 := (client w) <| Outbound.state := o |>). pose proof (drained_spec k ms c1 io1 now Ho Hr) as Hd.
  destruct (Outbound.drained c1 io1 now) as [[last c2] io2]. destruct Hd as [[extra [_ (fs & Hfs & _) _]] _]. intros _. exists gs, fs. split; [|done]. cbn. by rewrite Hfs, Hgs.
Qed.

Lemma reconnect_quiet w answers now output version : let w1 := step w answers now (WReconnect output version) in
  typed w1 = typed w ∧ server w1 = server w.
Proof. cbn [step]. by destruct (Outbound.reconnect _ _ _ _ _) as [[r c] io]. Qed.

(** The shell has room for what it was not given, so for what of it was numbered. *)
Lemma room_of k j ms w p : world_ok k j ms w → terminal (server w) = Some p → Ptyin.closed (Ptyin.buffer p) = false → Ptyin.failed (Ptyin.buffer p) = false →
  len (Ptyin.bytes (Ptyin.buffer p)) + Ptyin.writing (Ptyin.buffer p) + (len (typed w) - len (Ptyin.given p)) ≤ Ptyin.BACKLOG →
  shell_room (server w) (len (Outbound.typed (drop j ms))).
Proof.
  intros Hw Hp Hc Hf Hl p' Hp'. rewrite Hp in Hp'. injection Hp' as <-. split_and!; [done|done|]. destruct (wo_shell _ _ _ _ Hw p Hp) as [_ E].
  rewrite (wo_typed _ _ _ _ Hw), E, <- (take_drop j ms), Outbound.typed_app, !length_app, (take_drop j ms) in Hl. lia.
Qed.

(** C2: typing reaches the shell once, in order and with nothing left out, whatever the links do:
    over every history of one client (typing, resizing, losing its link, reconnecting by either
    carriage, retransmitting, acknowledgements, deliveries in any order and any number of times),
    what the shell was written is a front of what the session took, which is a front of what was
    typed; and until the client closes or detaches, the rest of it is all still there: in commands
    the journal keeps, then in what waits for a number. *)
Theorem shell_gets_what_was_typed c version tty w p :
  reaches c version tty w → terminal (server w) = Some p →
  Ptyin.wrote p `prefix_of` Ptyin.given p ∧ Ptyin.given p `prefix_of` typed w ∧
  (Outbound.close_requested (client w) = false → ∃ kept, kept `suffix_of` Outbound.all (Outbound.journal (Outbound.state (client w))) ∧
     typed w = Ptyin.given p ++ Outbound.typed kept ++ Outbound.pending (Outbound.state (client w))).
Proof.
  intros (k & j & ms & Hw)%reaches_world Hp. destruct (wo_shell _ _ _ _ Hw p Hp) as [P1 P2].
  assert (typed w = Ptyin.given p ++ Outbound.typed (drop j ms) ++ Outbound.pending (Outbound.state (client w))) as Ht.
  { by rewrite (wo_typed _ _ _ _ Hw), P2, app_assoc, <- Outbound.typed_app, take_drop. }
  split_and!; [by apply wrote_given|rewrite Ht; by apply prefix_app_r|]. intros Hc. exists (drop j ms). split; [|done].
  rewrite (journal_all _ _ _ (wo_client _ _ _ _ Hw)). pose proof (wo_kept _ _ _ _ Hw Hc). replace j with (k + (j - k))%nat by lia. rewrite <- drop_drop. apply suffix_drop.
Qed.

(** C3: a reconnected client catches its shell up: when a link takes as many frames as the journal
    holds and they arrive in order at a session whose shell has room for them, everything the client
    had numbered has been given to the shell, once, whatever had arrived before. *)
Theorem reconnecting_catches_the_shell_up c version tty w p output version' n now now' carried w1 :
  reaches c version tty w → Outbound.next_seq (Outbound.state (client w)) < 2 ^ 62 → Outbound.close_requested (client w) = false → terminal (server w) = Some p →
  Ptyin.closed (Ptyin.buffer p) = false → Ptyin.failed (Ptyin.buffer p) = false →
  len (Ptyin.bytes (Ptyin.buffer p)) + Ptyin.writing (Ptyin.buffer p) + (len (typed w) - len (Ptyin.given p)) ≤ Ptyin.BACKLOG →
  Fields.MANAGEMENT_VERSION ≤ version' → (length (Outbound.all (Outbound.journal (Outbound.state (client w)))) ≤ n)%nat →
  (Outbound.reconnect (client w) (Outbound.mkIo (replicate n true) []) output version' now).1.1 = Ok () →
  w1 = step w (replicate n true) now (WReconnect output version') →
  ∃ p', terminal (server (deliver_from now' carried (length (wire w)) (length (Outbound.all (Outbound.journal (Outbound.state (client w))))) w1)) = Some p' ∧
    Ptyin.given p' ++ Outbound.pending (Outbound.state (client w)) = typed w.
Proof.
  intros Hreach Hn Hclose Hp Hc Hf Hroom Hv Hlen Hok ->. destruct (reaches_world _ _ _ _ Hreach) as (k & j & ms & Hw). pose proof (wo_client _ _ _ _ Hw) as Hk. pose proof (Outbound.oo_kept _ _ _ Hk) as Hkm.
  rewrite (journal_all _ _ _ Hk), length_drop in *. set (w1 := step w (replicate n true) now (WReconnect output version')).
  destruct (reconnect_wire k j ms w n now output version' Hw ltac:(lia) Hv ltac:(by rewrite length_drop) Hok) as (gs & fs & Hwire & Hgs). fold w1 in Hwire.
  destruct (reconnect_world k j ms w (replicate n true) now output version' Hw ltac:(lia) Hv) as [extra Hw1]. fold w1 in Hw1.
  destruct (reconnect_quiet w (replicate n true) now output version') as [Q1 Q2]. fold w1 in Q1, Q2. pose proof (Forall2_length _ _ _ Hgs) as Hlg. rewrite length_drop in Hlg.
  pose proof (wo_applied _ _ _ _ Hw) as Hj. pose proof (wo_kept _ _ _ _ Hw Hclose) as Hkj.
  destruct (deliver_from_world (length ms - k) k j (ms ++ extra) w1 now' carried (length (wire w)) k version' Hw1) as (D1 & D2 & D3 & D4); [|done|done| |rewrite length_app; lia| |].
  - pose proof (wo_client _ _ _ _ Hw1) as [N1 N2 N3 [_ N4] _ _ _ _]. pose proof (Outbound.oo_next _ _ _ Hk). rewrite N2, length_drop, Outbound.length_numbered in N4. unfold Outbound.JOURNAL_CAPACITY in N4. lia.
  - rewrite Hwire, drop_app_length, take_app_length' by done. rewrite drop_app_le, take_app_length' by (rewrite ?length_drop; lia). done.
  - eapply room_of; [done|by rewrite Q2|done|done|by rewrite Q1].
  - rewrite Q2, Hp in D4. destruct (D4 ltac:(by eexists)) as [p' Hp']. exists p'. split; [done|]. destruct (wo_shell _ _ _ _ D1 p' Hp') as [_ ->].
    replace (j `max` (k + (length ms - k)))%nat with (length ms) by lia. rewrite take_app_length. symmetry. apply Hw.
Qed.

(** ** A session *)

(** Typed, delivered twice and read; typed again and lost with the link; typed with none. *)
Definition interrupted : World :=
  let w := step (world_new Outbound.Stream 17 true) [true] 0 (WInput [104; 105]) in
  let w := step (step w [] 1 (WDeliver 0 true)) [] 2 (WDeliver 0 true) in
  let w := step (step w [] 3 (WShell Ptyin.ETurn)) [] 4 (WShell Ptyin.EWritten) in
  let w := step (step w [true] 5 (WInput [33])) [] 6 WDisconnect in
  step w [] 7 (WInput [63]).

Lemma interrupted_reaches : reaches Outbound.Stream 17 true interrupted.
Proof.
  unfold interrupted. cbn zeta. repeat (apply reach_step; [|cbn [fine]; try done; repeat (constructor; [unfold is_byte; lia|]); constructor|vm_compute; done]). constructor. done.
Qed.

Definition shell_of (w : World) : Ptyin.Pty := default Ptyin.pty_new (terminal (server w)).

Lemma shell_gets_what_was_typed_witness :
  reaches Outbound.Stream 17 true interrupted ∧ Ptyin.wrote (shell_of interrupted) = [104; 105] ∧ typed interrupted = [104; 105; 33; 63] ∧
  Ptyin.given (shell_of interrupted) `prefix_of` typed interrupted.
Proof.
  split_and!; [apply interrupted_reaches|vm_compute; done..|]. apply (shell_gets_what_was_typed Outbound.Stream 17 true interrupted (shell_of interrupted) interrupted_reaches). by vm_compute.
Defined.

Lemma reconnecting_catches_the_shell_up_witness :
  reaches Outbound.Stream 17 true interrupted ∧
  ∃ p', terminal (server (deliver_from 9 (λ _, true) (length (wire interrupted)) (length (Outbound.all (Outbound.journal (Outbound.state (client interrupted)))))
      (step interrupted (replicate 8 true) 8 (WReconnect Outbound.Stream 17)))) = Some p' ∧
    Ptyin.given p' ++ [63] = [104; 105; 33; 63].
Proof.
  split; [apply interrupted_reaches|].
  apply (reconnecting_catches_the_shell_up Outbound.Stream 17 true interrupted (shell_of interrupted) Outbound.Stream 17 8 8 9 (λ _, true) (step interrupted (replicate 8 true) 8 (WReconnect Outbound.Stream 17)));
    [apply interrupted_reaches|by vm_compute..|vm_compute; congruence|vm_compute; congruence|vm_compute; lia|by vm_compute|done].
Defined.

End Typing.
