(* ===== verification/Ends.v ===== *)
(** * Two ends of a tunnel

    What the daemon and the client each promise of a forwarded connection ([SocketEnd] and its
    laws), and what two ends that promise it achieve together, whatever the network does: the bytes
    put into each socket are a front of the bytes that came out of the other.  [Forwarding] and
    [LocalForward] are the two ends; this file has no code of its own. *)

From S2P Require Import Prelude Timer Send Recv Stream.

Module Ends.
Import Stream.
Import(hints) Recv.

(** ** What an end does to its stream *)

Inductive Input := IData (s : Segment) (payload : list Z) | IAck (a : Recv.Ack) (now : Instant).
Inductive Output := OData (s : Segment) (payload : list Z) | OAck (a : Recv.Ack).
Inductive act :=
| AWrite (bytes : list Z) (now : Instant) | AFinish | ATransmit (now : Instant) (budget : Z) (front : nat) | ARefused (now : Instant) (budget : Z) (front : nat)
| AConsume (n : Z) | APollAck | AInput (i : Input).

(** What it fed the stream, moved out of it, and had it send. *)
Record Log := mkLog { fed : list Z; moved : list Z; segments : list (Segment * list Z); polled : list Recv.Ack }.
Definition no_log : Log := mkLog [] [] [] [].
Definition log_app (g h : Log) : Log := mkLog (fed g ++ fed h) (moved g ++ moved h) (segments g ++ segments h) (polled g ++ polled h).

Definition act_step (st : Stream) (a : act) : option (Stream * Log) :=
  match a with
  | AWrite bytes now => let '(n, st) := write st bytes now in Some (st, mkLog (take (Z.to_nat n) bytes) [] [] [])
  | AFinish => Some (finish st, no_log)
  | ATransmit now budget front =>
      match poll_transmit st now budget front with
      | (Some (seg, bytes), st) => Some (transmitted st seg now, mkLog [] [] [(seg, bytes)] [])
      | (None, st) => Some (st, no_log)
      end
  | ARefused now budget front => Some ((poll_transmit st now budget front).2, no_log)
  | AConsume n => Some (consume st n, mkLog [] (take (Z.to_nat (Z.min n (len (readable st)))) (readable st)) [] [])
  | APollAck => '(o, st) ← poll_ack st; Some (st, mkLog [] [] [] (match o with Some ack => [ack] | None => [] end))
  | AInput (IData seg bytes) =>
      match on_data st (off seg) (fin seg) bytes with (Ok _, st) => Some (st, no_log) | (Err _, _) => None end
  | AInput (IAck a now) =>
      match on_ack st (Recv.ack_off a) (Recv.ack_window a) (Recv.ack_held a) now with (Ok _, st) => Some (st, no_log) | (Err _, _) => None end
  end.
Fixpoint acts (st : Stream) (l : list act) : option (Stream * Log) :=
  match l with
  | [] => Some (st, no_log)
  | a :: l => '(st, g) ← act_step st a; '(st, h) ← acts st l; Some (st, log_app g h)
  end.

Lemma acts_app st l1 st1 g l2 st2 h : acts st l1 = Some (st1, g) → acts st1 l2 = Some (st2, h) → acts st (l1 ++ l2) = Some (st2, log_app g h).
Proof.
  revert st g. induction l1 as [|a l1 IH]; intros st g H1 H2; cbn [acts app] in *; [injection H1 as <- <-; rewrite H2; by destruct h|].
  destruct (act_step st a) as [[st' g1]|]; [|done]. cbn [mbind option_bind] in *. destruct (acts st' l1) as [[st'' g2]|] eqn:E; [|done]. cbn [mbind option_bind] in *. injection H1 as <- <-.
  rewrite (IH st' g2 E H2). cbn [mbind option_bind]. unfold log_app. cbn. by rewrite <- !app_assoc.
Qed.

(** What an end does of its own accord, short of ending its half. *)
Definition inner (a : act) : Prop := match a with AInput _ | AFinish => False | _ => True end.

Lemma act_fin st a st' g : act_step st a = Some (st', g) → a ≠ AFinish → Send.send_fin (send st') = Send.send_fin (send st).
Proof.
  intros H Hn. destruct a as [bytes now| |now budget front|now budget front|n| |[seg bytes|a now]]; cbn [act_step] in H; try done.
  - unfold write, Send.write in H. injection H as <- _. cbn. by destruct (0 <? _).
  - unfold poll_transmit, Send.poll_transmit in H. destruct (Z.min budget _ =? 0); [by injection H as <- _|]. destruct (Timer.due _ _); (destruct (match Send.owed _ _ _ with Send.Nothing => _ | _ => _ end) as [[seg payload]|]; injection H as <- _; cbn; [|done]; unfold Send.transmitted; by destruct (fin seg)).
  - unfold poll_transmit, Send.poll_transmit in H. destruct (Z.min budget _ =? 0); [by injection H as <- _|]. by destruct (Timer.due _ _); injection H as <- _.
  - by injection H as <- _.
  - unfold poll_ack in H. destruct (Recv.poll_ack (recv st)) as [[o v]|]; [|done]. by injection H as <- _.
  - unfold on_data in H. destruct (Recv.on_data _ _ _ _) as [[] v]; [|done]. by injection H as <- _.
  - unfold on_ack in H. destruct (Send.on_ack (send st) _ _ _ now) as [[] s] eqn:E; [|done]. injection H as <- _. cbn. unfold Send.on_ack in E. destruct (_ <? _); [by simplify_eq|].
    destruct (Send.take_runs _ _ _) as [l|]; [|done]. destruct (Timer.acknowledged _ _ _ _) as [pr tm]. simplify_eq.
    repeat (case_match; cbn; try done).
Qed.
Lemma acts_fin st l st' g : acts st l = Some (st', g) → AFinish ∉ l → Send.send_fin (send st') = Send.send_fin (send st).
Proof.
  revert st g. induction l as [|a l IH]; intros st g H Hn; cbn [acts] in H; [by injection H as <- _|]. apply not_elem_of_cons in Hn as [Hn1 Hn2].
  destruct (act_step st a) as [[st1 g1]|] eqn:E1; [|done]. cbn [mbind option_bind] in H. destruct (acts st1 l) as [[st2 g2]|] eqn:E2; [|done]. injection H as <- _. rewrite (IH _ _ E2 Hn2). by eapply act_fin.
Qed.
Lemma inner_finish l : Forall inner l → AFinish ∉ l.
Proof. intros H Hin. rewrite Forall_forall in H. by apply H in Hin. Qed.
Lemma finish_or_not (l : list act) : AFinish ∈ l ∨ AFinish ∉ l.
Proof. induction l as [|a l [IH|IH]]; [right; by intros ?%elem_of_nil|left; by right|]. destruct a; try (right; by apply not_elem_of_cons). left. by left. Qed.
Definition own (a : act) : Prop := match a with AInput _ => False | _ => True end.
Lemma inner_own l : Forall inner l → Forall own l.
Proof. intros H. eapply Forall_impl; [exact H|]. by intros []. Qed.

(** A receiver that has finished takes nothing more. *)
Definition settled (st : Stream) : Prop := Recv.finished (recv st) = true → Recv.recv_fin (recv st) = Some (Recv.next (recv st) - 1).
Lemma drain_held_end h r : Recv.finished (Recv.drain_held h r) = Recv.finished r ∧ Recv.recv_fin (Recv.drain_held h r) = Recv.recv_fin r.
Proof. revert r. induction h as [|[o b] h IH]; intros r; cbn; [done|]. destruct (_ <? _); [done|]. rewrite (proj1 (IH _)), (proj2 (IH _)). by destruct (_ <? _). Qed.
Lemma place_end r o e b : Recv.finished (Recv.place r o e b) = Recv.finished r ∧ Recv.recv_fin (Recv.place r o e b) = Recv.recv_fin r.
Proof.
  unfold Recv.place. destruct (_ <? e); [|done]. destruct (_ <? o).
  - unfold Recv.hold. destruct (_ || _); [done|]. by destruct (Recv.put _ _ _).
  - destruct (Recv.admits _ _); [|done]. cbn zeta. rewrite (proj1 (drain_held_end _ _)), (proj2 (drain_held_end _ _)). done.
Qed.
Lemma on_data_settled r o f b r' : Recv.on_data r o f b = (Ok (), r') → (Recv.finished r = true → Recv.recv_fin r = Some (Recv.next r - 1)) →
  (Recv.finished r' = true → Recv.recv_fin r' = Some (Recv.next r' - 1)) ∧ (Recv.finished r = true → Recv.finished r' = true ∧ Recv.ready r' = Recv.ready r).
Proof.
  intros H Hs. unfold Recv.on_data in H. destruct (match Recv.recv_fin r with Some _ => _ | None => _ end) as [r1|] eqn:Ec; [|done]. injection H as <-.
  assert (Recv.finished r1 = Recv.finished r ∧ Recv.next r1 = Recv.next r ∧ Recv.ready r1 = Recv.ready r ∧ (Recv.finished r = true → r1 = r ∧ sat_add U64_MAX o (len b) ≤ Recv.next r - 1)) as (E1 & E2 & E3 & E4).
  { destruct (Recv.recv_fin r) as [k|] eqn:Ek; repeat case_match; simplify_eq; split_and!; try done; intros Hf; specialize (Hs Hf); simplify_eq; zbool; split; lia || done. }
  destruct (place_end (r1 <| Recv.ack_owed := true |>) o (sat_add U64_MAX o (len b)) b) as [P1 P2]. cbn in P1, P2. destruct (Recv.finished r) eqn:Ef.
  - destruct (E4 eq_refl) as [-> E5]. assert (Recv.place (r <| Recv.ack_owed := true |>) o (sat_add U64_MAX o (len b)) b = r <| Recv.ack_owed := true |>) as -> by (unfold Recv.place; cbn; by rewrite (proj2 (Z.ltb_ge _ _)) by lia).
    unfold Recv.settle_end. cbn. rewrite Ef. cbn. split; [by intros _; apply Hs|]. done.
  - split; [|done]. unfold Recv.settle_end. rewrite P1, E1. cbn [negb andb]. destruct (bool_decide _) eqn:Eb; [|rewrite P1, E1; done]. intros _. apply bool_decide_eq_true in Eb. cbn. rewrite Eb. f_equal. lia.
Qed.
Lemma act_settled st a st' g : act_step st a = Some (st', g) → settled st →
  settled st' ∧ (Recv.finished (recv st) = true → Recv.finished (recv st') = true ∧ (readable st = [] → readable st' = [] ∧ moved g = [])).
Proof.
  intros H Hs. unfold settled, readable in *. destruct a as [bytes now| |now budget front|now budget front|n| |[seg bytes|a now]]; cbn [act_step] in H.
  - unfold write in H. destruct (Send.write _ _ _). by injection H as <- <-.
  - by injection H as <- <-.
  - unfold poll_transmit in H. destruct (Send.poll_transmit _ _ _ _) as [[[]|] ?]; by injection H as <- <-.
  - unfold poll_transmit in H. destruct (Send.poll_transmit _ _ _ _) as [? ?]; by injection H as <- <-.
  - injection H as <- <-. cbn. unfold readable, Recv.consume. destruct (_ && _); cbn; (split; [done|]; intros ?; split; [done|]; intros E).
    + rewrite E. cbn. by rewrite drop_nil, take_nil.
    + rewrite E. cbn. by rewrite drop_nil, take_nil.
  - unfold poll_ack, Recv.poll_ack in H. destruct (Recv.ack_owed _); [|by injection H as <- <-]. destruct (Recv.held_runs _); [|done]. by injection H as <- <-.
  - unfold on_data in H. destruct (Recv.on_data _ _ _ _) as [[[]|] r'] eqn:E; [|done]. injection H as <- <-. destruct (on_data_settled _ _ _ _ _ E Hs) as [G1 G2]. split; [done|]. intros Hf. destruct (G2 Hf) as [G3 G4]. cbn. by rewrite G4.
  - unfold on_ack in H. destruct (Send.on_ack _ _ _ _ _) as [[] ?]; [|done]. by injection H as <- <-.
Qed.
Lemma acts_settled st l st' g : acts st l = Some (st', g) → settled st →
  settled st' ∧ (Recv.finished (recv st) = true → Recv.finished (recv st') = true ∧ (readable st = [] → readable st' = [] ∧ moved g = [])).
Proof.
  revert st g. induction l as [|a l IH]; intros st g H Hs; cbn [acts] in H; [by injection H as <- <-|].
  destruct (act_step st a) as [[st1 g1]|] eqn:E1; [|done]. cbn [mbind option_bind] in H. destruct (acts st1 l) as [[st2 g2]|] eqn:E2; [|done]. injection H as <- <-.
  destruct (act_settled _ _ _ _ E1 Hs) as [S1 S2]. destruct (IH _ _ E2 S1) as [S3 S4]. split; [done|]. intros Hf. destruct (S2 Hf) as [S5 S6]. destruct (S4 S5) as [S7 S8]. split; [done|]. intros Hr. destruct (S6 Hr) as [S9 S10]. destruct (S8 S9) as [S11 S12]. cbn. by rewrite S10, S12.
Qed.

(** *** A sink that may refuse *)

(** Frames for the other side, and what the sink answers each. *)
Record Io := mkIo { answers : list bool; sent : list Output }.
Definition offer (io : Io) (f : Output) : bool * Io :=
  match answers io with
  | true :: l => (true, mkIo l (sent io ++ [f]))
  | _ => (false, mkIo (tail (answers io)) (sent io))
  end.

(** [while let Some(segment) = poll_transmit(...)]: a segment the sink refuses ends it. *)
Fixpoint transmit (answers_ : list bool) (st : Stream) (sent_ : list Output) (now : Instant) (budget : Z) (front : nat) : bool * Stream * Io :=
  match poll_transmit st now budget front with
  | (None, st) => (false, st, mkIo answers_ sent_)
  | (Some (segment, payload), st) =>
      match answers_ with
      | true :: l => transmit l (transmitted st segment now) (sent_ ++ [OData segment payload]) now budget front
      | _ => (true, st, mkIo (tail answers_) sent_)
      end
  end.

Definition act_fine (a : act) : Prop :=
  match a with ATransmit _ budget _ | ARefused _ budget _ => 0 ≤ budget | AConsume n => 0 ≤ n | _ => True end.
Definition act_offers (a : act) : Z := match a with AWrite bytes _ => len bytes | _ => 0 end.
Lemma transmit_spec ans st sent_ now budget front : 0 ≤ budget → let '(_, st', io') := transmit ans st sent_ now budget front in
  ∃ l g, acts st l = Some (st', g) ∧ Forall act_fine l ∧ Forall inner l ∧ sum_by act_offers l = 0 ∧
    fed g = [] ∧ moved g = [] ∧ polled g = [] ∧ sent io' = sent_ ++ ((λ x, OData x.1 x.2) <$> segments g).
Proof.
  intros Hb. revert st sent_. induction ans as [|ok ans IH]; intros st sent_; cbn [transmit]; destruct (poll_transmit st now budget front) as [[[seg payload]|] st1] eqn:Ep.
  - exists [ARefused now budget front], no_log. cbn. rewrite Ep, app_nil_r. split_and!; try done; by constructor.
  - exists [ARefused now budget front], no_log. cbn. rewrite Ep, app_nil_r. split_and!; try done; by constructor.
  - destruct ok.
    + specialize (IH (transmitted st1 seg now) (sent_ ++ [OData seg payload])). destruct (transmit ans _ _ now budget front) as [[? st'] io']. destruct IH as (l & g & I1 & I2 & I3 & I4 & I5 & I6 & I7 & I8).
      exists (ATransmit now budget front :: l), (log_app (mkLog [] [] [(seg, payload)] []) g). cbn [acts act_step]. rewrite Ep. cbn [mbind option_bind]. rewrite I1.
      split_and!; try done; [by constructor|by constructor|]. rewrite I8, <- app_assoc. done.
    + exists [ARefused now budget front], no_log. cbn. rewrite Ep, app_nil_r. split_and!; try done; by constructor.
  - exists [ARefused now budget front], no_log. cbn. rewrite Ep, app_nil_r. split_and!; try done; by constructor.
Qed.

(** What crossed the network towards side [d]. *)
Definition arrived (d : side) (p : Pair) (i : Input) : Prop :=
  match i with IData seg bytes => (seg, bytes) ∈ packets (wire (other d) p) | IAck a _ => a ∈ acks (wire d p) end.
Definition act_arrived (d : side) (p : Pair) (a : act) : Prop := match a with AInput i => arrived d p i | _ => True end.

Record extends (d : side) (p p' : Pair) (g : Log) : Prop := {
  ex_inv : pair_inv p';
  ex_far : far d p' = far d p;
  ex_fed : written (wire d p') = written (wire d p) ++ fed g;
  ex_moved : taken (wire (other d) p') = taken (wire (other d) p) ++ moved g;
  ex_quiet : written (wire (other d) p') = written (wire (other d) p) ∧ taken (wire d p') = taken (wire d p);
  ex_sent : packets (wire d p) ⊆ packets (wire d p') ∧ packets (wire (other d) p') = packets (wire (other d) p) ∧ segments g ⊆ packets (wire d p');
  ex_acked : acks (wire (other d) p) ⊆ acks (wire (other d) p') ∧ acks (wire d p') = acks (wire d p) ∧ polled g ⊆ acks (wire (other d) p')
}.

Lemma extends_refl d p : pair_inv p → extends d p p no_log.
Proof. intros H. split; cbn; rewrite ?app_nil_r; try done; split_and!; try done; by intros x ?%elem_of_nil. Qed.
Lemma extends_trans d p p' p'' g h : extends d p p' g → extends d p' p'' h → extends d p p'' (log_app g h).
Proof.
  intros [A1 A2 A3 A4 [A5 A5'] (A6 & A6' & A6'') (A7 & A7' & A7'')] [B1 B2 B3 B4 [B5 B5'] (B6 & B6' & B6'') (B7 & B7' & B7'')].
  split; cbn; [done|congruence|by rewrite B3, A3, app_assoc|by rewrite B4, A4, app_assoc|split; congruence| |]; (split_and!; [by etrans|congruence|]); intros x [Hx|Hx]%elem_of_app; auto.
Qed.

(** An act is an event of one of the two directions. *)
Definition event_of (d : side) (a : act) (i : nat) : side * event :=
  match a with
  | AWrite bytes now => (d, Write bytes now)
  | AFinish => (d, Finish)
  | ATransmit now budget front => (d, Transmit now budget front)
  | ARefused now budget front => (d, Refused now budget front)
  | AConsume n => (other d, Consume n)
  | APollAck => (other d, PollAck)
  | AInput (IData _ _) => (other d, Deliver i)
  | AInput (IAck _ now) => (d, AckArrives i now)
  end.

(** One direction moves, by what one of the two streams did. *)
Definition put (d : side) (p : Pair) (x y : Stream) (w : Wire) : Pair := match d with Forth => mkPair x y w (ba p) | Back => mkPair y x (ab p) w end.
Lemma put_same d p x w : pair_inv p → inv (send x) (recv (far d p)) w → recv x = recv (near d p) →
  let p' := put d p x (far d p) w in pair_inv p' ∧ near d p' = x ∧ far d p' = far d p ∧ wire d p' = w ∧ wire (other d) p' = wire (other d) p.
Proof. intros Hi Hv Hr. pose proof (Hi Forth) as HF. pose proof (Hi Back) as HB. destruct d; cbn in *; (split_and!; [|done..]); intros [|]; cbn; by rewrite ?Hr. Qed.
Lemma put_other d p y w : pair_inv p → inv (send (far d p)) (recv y) w → send y = send (near d p) →
  let p' := put (other d) p (far d p) y w in pair_inv p' ∧ near d p' = y ∧ far d p' = far d p ∧ wire (other d) p' = w ∧ wire d p' = wire d p.
Proof. intros Hi Hv Hr. pose proof (Hi Forth) as HF. pose proof (Hi Back) as HB. destruct d; cbn in *; (split_and!; [|done..]); intros [|]; cbn; by rewrite ?Hr. Qed.

Lemma far_other d p : near (other d) p = far d p ∧ far (other d) p = near d p ∧ other (other d) = d.
Proof. by destruct d. Qed.

(** The act's own direction. *)
Lemma same_extends d p x w g : pair_inv p → inv (send x) (recv (far d p)) w → recv x = recv (near d p) →
  written w = written (wire d p) ++ fed g → taken w = taken (wire d p) → moved g = [] → polled g = [] → acks w = acks (wire d p) → packets (wire d p) ⊆ packets w → segments g ⊆ packets w →
  ∃ p', near d p' = x ∧ extends d p p' g.
Proof.
  intros Hi Hv Hr Hw Ht Hm Hp Ha H1 H2. destruct (put_same d p x w Hi Hv Hr) as (P1 & P2 & P3 & P4 & P5). exists (put d p x (far d p) w). split; [done|].
  split; rewrite ?P3, ?P4, ?P5, ?Hm, ?Hp, ?app_nil_r; try done. split_and!; [done|done|]. by intros z ?%elem_of_nil.
Qed.
Lemma other_extends d p y w g : pair_inv p → inv (send (far d p)) (recv y) w → send y = send (near d p) →
  written w = written (wire (other d) p) → taken w = taken (wire (other d) p) ++ moved g → fed g = [] → segments g = [] → packets w = packets (wire (other d) p) → acks (wire (other d) p) ⊆ acks w → polled g ⊆ acks w →
  ∃ p', near d p' = y ∧ extends d p p' g.
Proof.
  intros Hi Hv Hr Hw Ht Hm Hp Ha H1 H2. destruct (put_other d p y w Hi Hv Hr) as (P1 & P2 & P3 & P4 & P5). exists (put (other d) p (far d p) y w). split; [done|].
  split; rewrite ?P3, ?P4, ?P5, ?Hm, ?Hp, ?app_nil_r; try done. split_and!; [done|done|]. by intros z ?%elem_of_nil.
Qed.

Lemma act_pair d p a : pair_inv p → act_fine a → act_arrived d p a → len (written (wire d p)) + act_offers a ≤ Send.STREAM_LIMIT →
  ∃ st g p', act_step (near d p) a = Some (st, g) ∧ near d p' = st ∧ extends d p p' g.
Proof.
  intros Hi Hf Ha Hl. pose proof (Hi d) as Hs. pose proof (Hi (other d)) as Ho. destruct (far_other d p) as (F1 & F2 & F3). rewrite F1, F2 in Ho.
  destruct a as [bytes now| |now budget front|now budget front|n| |[seg bytes|a now]]; cbn [act_step act_fine act_arrived act_offers arrived] in *.
  - destruct (write_stays _ _ _ bytes now Hs Hl) as (x & y & w & E & V & Ex & Ey & _). cbn [step] in E. destruct (write (near d p) bytes now) as [k st]. injection E as <- <- <-.
    destruct (same_extends d p st _ (mkLog (take (Z.to_nat k) bytes) [] [] []) Hi V Ex) as (p' & ? & ?); [done..|by intros ? ?%elem_of_nil|]. eauto 10.
  - destruct (finish_stays _ _ _ Hs) as (x & y & w & E & V & Ex & Ey & _). injection E as <- <- <-.
    destruct (same_extends d p _ _ no_log Hi V Ex) as (p' & ? & ?); [by rewrite app_nil_r|done..|by intros ? ?%elem_of_nil|]. eauto 10.
  - destruct (transmit_stays _ _ _ now budget front Hs Hf) as (x & y & w & E & V & Ex & Ey & _). cbn [step] in E. destruct (poll_transmit (near d p) now budget front) as [[[seg bytes]|] st]; injection E as <- <- <-.
    + destruct (same_extends d p _ _ (mkLog [] [] [(seg, bytes)] []) Hi V Ex) as (p' & ? & ?); [by rewrite app_nil_r|done..|by intros ? ?; right|by intros ? ->%list_elem_of_singleton; left|]. eauto 10.
    + destruct (same_extends d p _ _ no_log Hi V Ex) as (p' & ? & ?); [by rewrite app_nil_r|done..|by intros ? ?%elem_of_nil|]. eauto 10.
  - destruct (refused_stays _ _ _ now budget front Hs Hf) as (x & y & w & E & V & Ex & Ey & _). injection E as <- <- <-.
    destruct (same_extends d p _ _ no_log Hi V Ex) as (p' & ? & ?); [by rewrite app_nil_r|done..|by intros ? ?%elem_of_nil|]. eauto 10.
  - destruct (consume_stays _ _ _ n Ho Hf) as (x & y & w & E & V & Ex & Ey & _). cbn [step] in E. injection E as <- <- <-.
    destruct (other_extends d p _ _ (mkLog [] (take (Z.to_nat (Z.min n (len (readable (near d p))))) (readable (near d p))) [] []) Hi V Ey) as (p' & ? & ?); [done..|by intros ? ?%elem_of_nil|]. eauto 10.
  - destruct (poll_ack_stays _ _ _ Ho) as (x & y & w & E & V & Ex & Ey & _). cbn [step] in E. destruct (poll_ack (near d p)) as [[o st]|]; [|done]. cbn [mbind option_bind] in E |- *. injection E as <- <- <-.
    destruct (other_extends d p st _ (mkLog [] [] [] (match o with Some ack => [ack] | None => [] end)) Hi V Ey) as (p' & ? & ?); [by destruct o|by destruct o; rewrite app_nil_r|done|done|by destruct o|..|eauto 10].
    + destruct o; [by intros u ?; right|done].
    + destruct o; [by intros u ->%list_elem_of_singleton; left|by intros u ?%elem_of_nil].
  - apply list_elem_of_lookup in Ha as [i Hx]. destruct (deliver_stays _ _ _ i Ho) as (x & y & w & E & V & Ex & Ey & -> & -> & _). cbn [step] in E. rewrite Hx in E.
    destruct (on_data (near d p) (off seg) (fin seg) bytes) as [[] st]; [|done]. injection E as E. subst y.
    destruct (other_extends d p st _ no_log Hi V Ey) as (p' & ? & ?); [done|by rewrite app_nil_r|done..|by intros ? ?%elem_of_nil|]. eauto 10.
  - apply list_elem_of_lookup in Ha as [i Hx]. destruct (ack_arrives_stays _ _ _ i now Hs) as (x & y & w & E & V & Ex & Ey & -> & -> & _). cbn [step] in E. rewrite Hx in E.
    destruct (on_ack (near d p) _ _ _ now) as [[] st]; [|done]. injection E as E. subst x.
    destruct (same_extends d p st _ no_log Hi V Ex) as (p' & ? & ?); [by rewrite app_nil_r|done..|by intros ? ?%elem_of_nil|]. eauto 10.
Qed.

Lemma extends_arrived d p p' g a : extends d p p' g → act_arrived d p a → act_arrived d p' a.
Proof. intros [_ _ _ _ _ (_ & E & _) (_ & E' & _)] H. destruct a as [| | | | | |[]]; cbn in *; congruence. Qed.

Lemma acts_pair l d p : pair_inv p → Forall act_fine l → Forall (act_arrived d p) l → len (written (wire d p)) + sum_by act_offers l ≤ Send.STREAM_LIMIT →
  ∃ st g p', acts (near d p) l = Some (st, g) ∧ near d p' = st ∧ extends d p p' g.
Proof.
  revert p. induction l as [|a l IH]; intros p Hi Hf Ha Hl; cbn [acts].
  { exists (near d p), no_log, p. split_and!; [done|done|by apply extends_refl]. }
  apply Forall_cons in Hf as [Hf1 Hf]. apply Forall_cons in Ha as [Ha1 Ha]. change (sum_by act_offers (a :: l)) with (act_offers a + sum_by act_offers l) in Hl. assert (0 ≤ sum_by act_offers l) by (apply sum_by_nonneg, Forall_forall; intros [] _; cbn; lia).
  destruct (act_pair d p a Hi Hf1 Ha1) as (st & g & p1 & E1 & N1 & X1); [lia|]. rewrite E1. cbn [mbind option_bind]. rewrite <- N1. assert (len (fed g) ≤ act_offers a) as Hfed.
  { destruct a as [| |now budget front| | | |[]]; cbn in E1.
    - destruct (write (near d p) bytes now) as [k st']. injection E1 as _ <-. cbn. rewrite length_take. lia.
    - by injection E1 as _ <-.
    - destruct (poll_transmit _ _ _ _) as [[[]|] ?]; by injection E1 as _ <-.
    - by injection E1 as _ <-.
    - by injection E1 as _ <-.
    - destruct (poll_ack _) as [[]|]; [|done]. by injection E1 as _ <-.
    - destruct (on_data _ _ _ _) as [[] ?]; [|done]. by injection E1 as _ <-.
    - destruct (on_ack _ _ _ _ _) as [[] ?]; [|done]. by injection E1 as _ <-. }
  destruct (IH p1) as (st2 & h & p2 & E2 & N2 & X2); [apply X1|done|eapply Forall_impl; [exact Ha|]; intros; by eapply extends_arrived|rewrite (ex_fed _ _ _ _ X1), length_app; lia|].
  rewrite E2. cbn [mbind option_bind]. exists st2, (log_app g h), p2. split_and!; [done|done|by eapply extends_trans].
Qed.

(** ** The interface *)

(** One end: its stream, what came out of its socket and what went into it, and its steps, which may
    send and may be given what arrived.  [false]: the end gave the connection up. *)
Class SocketEnd (E X : Type) := {
  stream_of : E → Stream;
  came : E → list Z;
  went : E → list Z;
  new_end : E;
  step_fine : X → Prop;
  input_of : X → option Input;
  end_step : E → X → option (bool * E * list Output)
}.

Definition accepts (st : Stream) (i : Input) : Prop := is_Some (act_step st (AInput i)).

(** [ties W D K e]: [e] has fed its stream [W], moved [D] out of it and polled the
    acknowledgements [K]. *)
Class SocketEndLaws (E X : Type) `{SocketEnd E X} := {
  ties : list Z → list Z → list Recv.Ack → E → Prop;
  ties_new : stream_of new_end = new ∧ came new_end = [] ∧ ties [] [] [] new_end;
  ties_step W D K e x : ties W D K e → step_fine x → (∀ n, 0 ≤ n → is_Some (acts (stream_of e) [AConsume n; APollAck])) → is_Some (poll_ack (stream_of e)) → (∀ i, input_of x = Some i → accepts (stream_of e) i) →
    ∃ ok e' out, end_step e x = Some (ok, e', out) ∧ (is_Some (input_of x) → ok = true) ∧
      (∃ l g, acts (stream_of e) l = Some (stream_of e', g) ∧ Forall act_fine l ∧ Forall (λ a, match a with AInput i => input_of x = Some i | _ => True end) l ∧
        len W + sum_by act_offers l ≤ len (came e') ∧ ties (W ++ fed g) (D ++ moved g) (K ++ polled g) e' ∧
        Forall (λ o, match o with OData s b => (s, b) ∈ segments g | OAck a => a ∈ K ++ polled g end) out);
  ties_came W D K e : ties W D K e → W `prefix_of` came e;
  ties_went W D K e : ties W D K e → went e `prefix_of` D;
  ties_end W D K e : ties W D K e → Send.send_fin (send (stream_of e)) ≠ None → W = came e;
  came_grows e x ok e' out : end_step e x = Some (ok, e', out) → came e `prefix_of` came e'
}.

(** *** An end by itself *)

Section Runs.
Context {E X : Type} `{SocketEnd E X}.
Implicit Types (e : E) (x : X).

Fixpoint end_run e (xs : list X) : option (E * list Output) :=
  match xs with [] => Some (e, []) | x :: xs => '(_, e, a) ← end_step e x; '(e, b) ← end_run e xs; Some (e, a ++ b) end.
(** From [e] it came to [e'], given [ins] and sending [os]. *)
Definition moves (ins : list Input) e (os : list Output) e' : Prop :=
  ∃ xs, end_run e xs = Some (e', os) ∧ omap input_of xs = ins ∧ Forall step_fine xs.

Lemma end_run_app e xs e' a ys e'' b : end_run e xs = Some (e', a) → end_run e' ys = Some (e'', b) → end_run e (xs ++ ys) = Some (e'', a ++ b).
Proof.
  revert e a. induction xs as [|x xs IH]; intros e a H1 H2; cbn [end_run app] in *; [by injection H1 as <- <-|].
  destruct (end_step e x) as [[[ok e1] o]|]; [|done]. cbn [mbind option_bind] in *. destruct (end_run e1 xs) as [[e2 o2]|] eqn:E2; [|done]. cbn [mbind option_bind] in *. injection H1 as <- <-. rewrite (IH e1 o2 E2 H2). cbn. by rewrite app_assoc.
Qed.
Lemma moves_none e : moves [] e [] e.
Proof. by exists []. Qed.
Lemma moves_one e x ok e' o : end_step e x = Some (ok, e', o) → step_fine x → moves (option_list (input_of x)) e o e'.
Proof. intros Hs Hf. exists [x]. split; [cbn; rewrite Hs; cbn; by rewrite app_nil_r|]. split; [|by constructor]. cbn. by destruct (input_of x). Qed.
Lemma moves_trans i1 i2 e e' e'' a b : moves i1 e a e' → moves i2 e' b e'' → moves (i1 ++ i2) e (a ++ b) e''.
Proof. intros (xs & H1 & <- & F1) (ys & H2 & <- & F2). exists (xs ++ ys). split; [by eapply end_run_app|]. split; [apply omap_app|by apply Forall_app_2]. Qed.
Lemma end_run_grows `{!SocketEndLaws E X} xs e e' os : end_run e xs = Some (e', os) → came e `prefix_of` came e'.
Proof.
  revert e os. induction xs as [|x xs IH]; intros e os H1; cbn [end_run] in H1; [by injection H1 as <- <-|]. destruct (end_step e x) as [[[ok e1] a]|] eqn:Es; [|done]. cbn [mbind option_bind] in H1. destruct (end_run e1 xs) as [[e2 b]|] eqn:Er; [|done]. injection H1 as <- <-.
  etrans; [by eapply came_grows|by eapply IH].
Qed.
End Runs.

(** ** Two ends and the network *)

Definition delivers (sent : list Output) (i : option Input) : Prop :=
  match i with Some (IData s b) => OData s b ∈ sent | Some (IAck a _) => OAck a ∈ sent | None => True end.
(** What one side sent is in the books of the pair of streams. *)
Definition booked (d : side) (p : Pair) (sent : list Output) : Prop :=
  Forall (λ o, match o with OData s b => (s, b) ∈ packets (wire d p) | OAck a => a ∈ acks (wire (other d) p) end) sent.

Lemma delivers_arrived d p sent i : booked (other d) p sent → delivers sent (Some i) → arrived d p i.
Proof.
  intros Hb Hd. unfold booked in Hb. rewrite Forall_forall in Hb. destruct (far_other d p) as (_ & _ & Eo). destruct i as [s b|a now]; cbn in Hd |- *; [exact (Hb _ Hd)|]. specialize (Hb _ Hd). cbn in Hb. by rewrite Eo in Hb.
Qed.

Lemma pair_limit d p : pair_inv p → len (written (wire d p)) ≤ Send.STREAM_LIMIT.
Proof. intros Hi. by destruct (Recv.j_limit _ _ _ _ (v_recv _ _ _ (Hi d))). Qed.

(** A step of one end is acts upon the pair. *)
Lemma end_moves {E X} `{SocketEndLaws E X} d p K (e : E) (x : X) sent :
  pair_inv p → near d p = stream_of e → ties (written (wire d p)) (taken (wire (other d) p)) K e → K ⊆ acks (wire (other d) p) → step_fine x → delivers sent (input_of x) → booked (other d) p sent →
  ∃ ok e' out, end_step e x = Some (ok, e', out) ∧ (is_Some (input_of x) → ok = true) ∧
    (len (came e') ≤ Send.STREAM_LIMIT → ∃ p' g, extends d p p' g ∧ near d p' = stream_of e' ∧ ties (written (wire d p')) (taken (wire (other d) p')) (K ++ polled g) e' ∧
       K ++ polled g ⊆ acks (wire (other d) p') ∧ booked d p' out).
Proof.
  intros Hi Hst Ht HK Hf Hd Hb.
  assert (is_Some (poll_ack (stream_of e))) as Hp.
  { destruct (act_pair d p APollAck Hi I I) as (st & g & _ & E1 & _); [cbn; pose proof (pair_limit d p Hi); lia|]. rewrite <- Hst. cbn in E1. by destruct (poll_ack (near d p)). }
  assert (∀ n, 0 ≤ n → is_Some (acts (stream_of e) [AConsume n; APollAck])) as Hc.
  { intros n Hn. destruct (acts_pair [AConsume n; APollAck] d p Hi) as (st & g & _ & E1 & _); [by repeat constructor|by repeat constructor|change (sum_by act_offers [AConsume n; APollAck]) with 0; pose proof (pair_limit d p Hi); lia|]. rewrite <- Hst, E1. by eexists. }
  assert (∀ i, input_of x = Some i → arrived d p i) as Harr by (intros i E1; rewrite E1 in Hd; by eapply delivers_arrived).
  destruct (ties_step _ _ _ e x Ht Hf Hc Hp) as (ok & e' & out & E1 & Hok & Hs).
  { intros i Ei. unfold accepts. rewrite <- Hst. destruct (act_pair d p (AInput i) Hi I) as (st & g & _ & E2 & _); [by apply Harr|cbn; pose proof (pair_limit d p Hi); lia|]. rewrite E2. by eexists. }
  exists ok, e', out. split_and!; [done|done|]. intros Hl. destruct Hs as (l & g & Hacts & Hfine & Hin & Hoff & Hties & Hout).
  destruct (acts_pair l d p Hi Hfine) as (st & g' & p' & E2 & N2 & X2).
  { eapply Forall_impl; [exact Hin|]. intros a Ha. destruct a as [| | | | | |i]; try done. by apply Harr. } { lia. }
  rewrite Hst, Hacts in E2. injection E2 as <- <-. pose proof X2 as [_ _ X3 X4 _ (_ & _ & X6) (X7 & _ & X8)]. exists p', g. rewrite X3, X4.
  assert (K ++ polled g ⊆ acks (wire (other d) p')) as HK' by (intros z [Hz|Hz]%elem_of_app; auto). split_and!; try done.
  eapply Forall_impl; [exact Hout|]. intros [s b|a] Ho; auto.
Qed.

Lemma extends_booked d p p' g sent : extends d p p' g → booked d p sent → booked d p' sent.
Proof. intros [_ _ _ _ _ (X1 & _ & _) (X2 & _ & _)] Hb. eapply Forall_impl; [exact Hb|]. intros [s b|a] Ho; auto. Qed.
Lemma extends_booked_other d p p' g sent : extends d p p' g → booked (other d) p sent → booked (other d) p' sent.
Proof. intros [_ _ _ _ _ (_ & X1 & _) (_ & X2 & _)] Hb. destruct (far_other d p) as (_ & _ & Eo). unfold booked in *. rewrite Eo in *. rewrite X1, X2. done. Qed.

Section Tunnel.
Context {N XN F XF : Type} `{SocketEndLaws N XN} `{SocketEndLaws F XF}.

(** Every frame either end ever sent may arrive at the other, at any time and any number of times. *)
Record World := mkWorld { near_end : N; far_end : F; from_near : list Output; from_far : list Output }.

Inductive reaches : World → Prop :=
| reach_start : reaches (mkWorld new_end new_end [] [])
| reach_near w x ok e out : reaches w → step_fine x → delivers (from_far w) (input_of x) → end_step (near_end w) x = Some (ok, e, out) → len (came e) ≤ Send.STREAM_LIMIT →
    reaches (mkWorld e (far_end w) (from_near w ++ out) (from_far w))
| reach_far w x ok e out : reaches w → step_fine x → delivers (from_near w) (input_of x) → end_step (far_end w) x = Some (ok, e, out) → len (came e) ≤ Send.STREAM_LIMIT →
    reaches (mkWorld (near_end w) e (from_near w) (from_far w ++ out)).

Record world_ok (w : World) (p : Pair) (KN KF : list Recv.Ack) : Prop := {
  wk_pair : pair_inv p;
  wk_near : A p = stream_of (near_end w) ∧ ties (written (ab p)) (taken (ba p)) KN (near_end w);
  wk_far : B p = stream_of (far_end w) ∧ ties (written (ba p)) (taken (ab p)) KF (far_end w);
  wk_polled : KN ⊆ acks (ba p) ∧ KF ⊆ acks (ab p);
  wk_sent : booked Forth p (from_near w) ∧ booked Back p (from_far w);
  wk_limit : len (came (near_end w)) ≤ Send.STREAM_LIMIT ∧ len (came (far_end w)) ≤ Send.STREAM_LIMIT
}.

Lemma near_ok w p KN KF x ok e out : world_ok w p KN KF → step_fine x → delivers (from_far w) (input_of x) → end_step (near_end w) x = Some (ok, e, out) → len (came e) ≤ Send.STREAM_LIMIT →
  ∃ p' KN', world_ok (mkWorld e (far_end w) (from_near w ++ out) (from_far w)) p' KN' KF.
Proof.
  intros [W1 [W2 W2'] [W3 W3'] [W4 W4'] [W5 W5'] [W6 W6']] Hf Hd Hs Hl.
  destruct (end_moves Forth p KN (near_end w) x (from_far w) W1 W2 W2' W4 Hf Hd W5') as (ok' & e' & out' & E & _ & Hm). rewrite Hs in E. injection E as <- <- <-.
  destruct (Hm Hl) as (p' & g & X & N1 & T & K & B). exists p', (KN ++ polled g). pose proof X as [X1 X2 _ _ [X3 X3'] _ (_ & X4 & _)]. cbn in *. split; cbn; try done.
  - rewrite X2, X3, X3'. done.
  - split; [done|]. by rewrite X4.
  - split; [apply Forall_app; split; [by eapply extends_booked|done]|]. by eapply (extends_booked_other Forth).
Qed.
Lemma far_ok w p KN KF x ok e out : world_ok w p KN KF → step_fine x → delivers (from_near w) (input_of x) → end_step (far_end w) x = Some (ok, e, out) → len (came e) ≤ Send.STREAM_LIMIT →
  ∃ p' KF', world_ok (mkWorld (near_end w) e (from_near w) (from_far w ++ out)) p' KN KF'.
Proof.
  intros [W1 [W2 W2'] [W3 W3'] [W4 W4'] [W5 W5'] [W6 W6']] Hf Hd Hs Hl.
  destruct (end_moves Back p KF (far_end w) x (from_near w) W1 W3 W3' W4' Hf Hd W5) as (ok' & e' & out' & E & _ & Hm). rewrite Hs in E. injection E as <- <- <-.
  destruct (Hm Hl) as (p' & g & X & N1 & T & K & B). exists p', (KF ++ polled g). pose proof X as [X1 X2 _ _ [X3 X3'] _ (_ & X4 & _)]. cbn in *. split; cbn; try done.
  - rewrite X2, X3, X3'. done.
  - split; [|done]. by rewrite X4.
  - split; [by eapply (extends_booked_other Back)|]. apply Forall_app; split; [by eapply extends_booked|done].
Qed.

Lemma world_reaches_ok w : reaches w → ∃ p KN KF, world_ok w p KN KF.
Proof.
  induction 1 as [|w x ok e out _ (p & KN & KF & Hw) Hf Hd Hs Hl|w x ok e out _ (p & KN & KF & Hw) Hf Hd Hs Hl].
  - destruct (ties_new (E := N)) as (S1 & C1 & T1). destruct (ties_new (E := F)) as (S2 & C2 & T2). exists start, [], []. split; cbn; rewrite ?C1, ?C2; try done; [apply start_inv|split; constructor].
  - destruct (near_ok w p KN KF x ok e out Hw Hf Hd Hs Hl) as (p' & KN' & ?). eauto.
  - destruct (far_ok w p KN KF x ok e out Hw Hf Hd Hs Hl) as (p' & KF' & ?). eauto.
Qed.

(** What a direction's receiver took is a front of what its sender was fed. *)
Lemma taken_written d p : pair_inv p → taken (wire d p) `prefix_of` written (wire d p).
Proof. intros Hi. pose proof (Recv.j_prefix _ _ _ _ (v_recv _ _ _ (Hi d))) as E. etrans; [by apply prefix_app_r|]. rewrite E. apply prefix_take. Qed.

Lemma tunnel_fronts w : reaches w → went (far_end w) `prefix_of` came (near_end w) ∧ went (near_end w) `prefix_of` came (far_end w).
Proof.
  intros (p & KN & KF & [W1 [_ W2] [_ W3] _ _ _])%world_reaches_ok. split.
  - etrans; [by eapply ties_went|]. etrans; [apply (taken_written Forth p W1)|]. by eapply ties_came.
  - etrans; [by eapply ties_went|]. etrans; [apply (taken_written Back p W1)|]. by eapply ties_came.
Qed.

(** What an end was told to be the whole of the other's stream is all that came out of its socket. *)
Lemma ended_whole d p : pair_inv p → Recv.finished (recv (far d p)) = true → taken (wire d p) ++ readable (far d p) = written (wire d p) ∧ Send.send_fin (send (near d p)) ≠ None.
Proof.
  intros Hi Hd. pose proof (Hi d) as [_ Hr _ _ _ Hf _]. pose proof (Recv.j_done _ _ _ _ Hr Hd) as E. split; [|apply Hf; by rewrite E].
  unfold readable. rewrite (Recv.j_prefix _ _ _ _ Hr). pose proof (Recv.j_fin _ _ _ _ Hr _ E) as ->. apply take_ge. lia.
Qed.
Lemma tunnel_ends w : reaches w → Recv.finished (recv (stream_of (near_end w))) = true →
  ∃ W D KN W' D' KF, ties W D KN (near_end w) ∧ ties W' D' KF (far_end w) ∧ Send.send_fin (send (stream_of (far_end w))) ≠ None ∧ D ++ readable (stream_of (near_end w)) = came (far_end w).
Proof.
  intros (p & KN & KF & [W1 [W2 W2'] [W3 W3'] _ _ _])%world_reaches_ok Hd. rewrite <- W2 in *. destruct (ended_whole Back p W1 Hd) as [E1 E2]. cbn in E1, E2. rewrite W3 in E2.
  exists (written (ab p)), (taken (ba p)), KN, (written (ba p)), (taken (ab p)), KF. split_and!; try done. rewrite E1. by eapply ties_end.
Qed.

(** Nothing that arrives makes an end panic, or give the connection up. *)
Lemma tunnel_goes_on w : reaches w →
  (∀ x, step_fine x → delivers (from_far w) (input_of x) → ∃ ok e out, end_step (near_end w) x = Some (ok, e, out) ∧ (is_Some (input_of x) → ok = true)) ∧
  (∀ x, step_fine x → delivers (from_near w) (input_of x) → ∃ ok e out, end_step (far_end w) x = Some (ok, e, out) ∧ (is_Some (input_of x) → ok = true)).
Proof.
  intros (p & KN & KF & [W1 [W2 W2'] [W3 W3'] [W4 W4'] [W5 W5'] _])%world_reaches_ok. split; intros x Hf Hd.
  - destruct (end_moves Forth p KN (near_end w) x (from_far w)) as (ok & e & out & E & Hok & _); try done. eauto.
  - destruct (end_moves Back p KF (far_end w) x (from_near w)) as (ok & e & out & E & Hok & _); try done. eauto.
Qed.

(** An end that moves with what the other sent moves the world. *)
Lemma near_moves ins w os e : reaches w → Forall (λ i, delivers (from_far w) (Some i)) ins → moves ins (near_end w) os e → len (came e) ≤ Send.STREAM_LIMIT →
  reaches (mkWorld e (far_end w) (from_near w ++ os) (from_far w)).
Proof.
  intros Hw Hd (xs & Hr & <- & Hf). revert w os Hw Hd Hr. induction xs as [|x xs IH]; intros w os Hw Hd Hr Hl; cbn [end_run] in Hr; [injection Hr as <- <-; rewrite app_nil_r; by destruct w|].
  apply Forall_cons in Hf as [Hf1 Hf2]. destruct (end_step (near_end w) x) as [[[ok e1] a]|] eqn:Es; [|done]. cbn [mbind option_bind] in Hr. destruct (end_run e1 xs) as [[e2 b]|] eqn:Er; [|done]. injection Hr as <- <-. cbn in Hd.
  assert (delivers (from_far w) (input_of x) ∧ Forall (λ i, delivers (from_far w) (Some i)) (omap input_of xs)) as [D1 D2] by (destruct (input_of x); [by apply Forall_cons in Hd|done]).
  rewrite app_assoc. apply (IH Hf2 (mkWorld e1 (far_end w) (from_near w ++ a) (from_far w))); try done. eapply reach_near; try done. pose proof (prefix_length _ _ (end_run_grows xs _ _ _ Er)). lia.
Qed.
Lemma far_moves ins w os e : reaches w → Forall (λ i, delivers (from_near w) (Some i)) ins → moves ins (far_end w) os e → len (came e) ≤ Send.STREAM_LIMIT →
  reaches (mkWorld (near_end w) e (from_near w) (from_far w ++ os)).
Proof.
  intros Hw Hd (xs & Hr & <- & Hf). revert w os Hw Hd Hr. induction xs as [|x xs IH]; intros w os Hw Hd Hr Hl; cbn [end_run] in Hr; [injection Hr as <- <-; rewrite app_nil_r; by destruct w|].
  apply Forall_cons in Hf as [Hf1 Hf2]. destruct (end_step (far_end w) x) as [[[ok e1] a]|] eqn:Es; [|done]. cbn [mbind option_bind] in Hr. destruct (end_run e1 xs) as [[e2 b]|] eqn:Er; [|done]. injection Hr as <- <-. cbn in Hd.
  assert (delivers (from_near w) (input_of x) ∧ Forall (λ i, delivers (from_near w) (Some i)) (omap input_of xs)) as [D1 D2] by (destruct (input_of x); [by apply Forall_cons in Hd|done]).
  rewrite app_assoc. apply (IH Hf2 (mkWorld (near_end w) e1 (from_near w) (from_far w ++ a))); try done. eapply reach_far; try done. pose proof (prefix_length _ _ (end_run_grows xs _ _ _ Er)). lia.
Qed.

End Tunnel.
End Ends.
