(* ===== verification/Forwarding.v ===== *)
(** * A forwarded connection at the daemon ([crates/server/src/forward.rs], and what [actor.rs] does with it)

    One forwarded connection is a stream ([Stream]), a socket with a thread that writes it, and a
    thread that reads it.  The reader asks for permission before each read ([Credit]) and posts what
    it read to the session, which hands it to the stream; the session moves what the stream has
    received into a buffer the writing thread empties.  Threads are state machines that give their
    lock up where the code does; what a read or a write came to is an argument, and so is what the
    client's sink answers each frame.  Reading the mailbox is in order ([Mailbox]): what a reader
    posted is a list.  The dial is its result. *)

From S2P Require Import Prelude Timer Send Recv Stream Codec Fields Ends.

Module Forwarding.
Import(hints) Stream.
#[local] Arguments sum_by : simpl never.

Definition BACKLOG : Z := Send.FORWARD_WINDOW.
Definition FORWARD_OVERHEAD : Z := 4 + 1 + 4 + 8 + 1 + 4.
Definition READ_CHUNK : Z := Send.MAX_FORWARD_CHUNK.

(** ** Into the socket *)

Record WriteBuffer := mkBuffer { bytes : list Z; writing : Z; finished : bool; closed : bool; failed : bool }.
#[export] Instance WriteBuffer_settable : Settable WriteBuffer := λ b, mkBuffer (bytes b) (writing b) (finished b) (closed b) (failed b).
Definition new_buffer : WriteBuffer := {| bytes := []; writing := 0; finished := false; closed := false; failed := false |}.

Definition write (b : WriteBuffer) (input : list Z) : Z * WriteBuffer :=
  if closed b || failed b || finished b then (0, b)
  else
    let held := len (bytes b) + writing b in
    let take_ := Z.min (sat_sub BACKLOG held) (len input) in
    if take_ =? 0 then (0, b) else (take_, b <| bytes := bytes b ++ take (Z.to_nat take_) input |>).
Definition shutdown (b : WriteBuffer) : WriteBuffer := b <| finished := true |>.
Definition has_failed (b : WriteBuffer) : bool := failed b || closed b.
(** [Drop for ForwardWrite] *)
Definition drop_write (b : WriteBuffer) : WriteBuffer := b <| closed := true |>.

(** The thread is at the head of its loop, or has the rest of its batch to write, or is about to shut
    the write side, or gone. *)
Inductive Doing := Top | Writing (rest : list Z) | Ending | Gone.
Definition turn (b : WriteBuffer) : WriteBuffer * Doing :=
  let b := b <| writing := 0 |> in
  match bytes b with
  | [] => (b, if closed b then Gone else if finished b then Ending else Top)
  | batch => (b <| bytes := [] |> <| writing := len batch |>, Writing batch)
  end.

(** The socket: [wrote] is what it was written, [shut] that its write side is closed, [down] that both
    are.  Of the batch the socket takes some at a time ([write_all]); a socket that is down, or takes
    nothing, is an error. *)
Record Sock := mkSock { buffer : WriteBuffer; doing : Doing; wrote : list Z; shut : bool; down : bool }.
#[export] Instance Sock_settable : Settable Sock := λ s, mkSock (buffer s) (doing s) (wrote s) (shut s) (down s).
Definition sock_new : Sock := {| buffer := new_buffer; doing := Top; wrote := []; shut := false; down := false |}.
Inductive SockStep := KTurn | KWrote (n : nat) | KBroken | KShut.
Definition broken (s : Sock) : Sock := s <| buffer := (buffer s) <| failed := true |> |> <| doing := Gone |>.
Definition sock_step (s : Sock) (x : SockStep) : Sock :=
  match x, doing s with
  | KTurn, Top => let '(b, d) := turn (buffer s) in s <| buffer := b |> <| doing := d |>
  | KWrote n, Writing rest =>
      if down s || bool_decide (n = 0%nat) then broken s
      else s <| doing := match drop n rest with [] => Top | more => Writing more end |> <| wrote := wrote s ++ take n rest |>
  | KBroken, Writing _ => broken s
  | KShut, Ending => s <| doing := Gone |> <| shut := true |>
  | _, _ => s
  end.

(** ** Out of the socket *)

Record Credit := mkCredit { available : Z; credit_closed : bool }.
#[export] Instance Credit_settable : Settable Credit := λ c, mkCredit (available c) (credit_closed c).
Definition credit_new : Credit := {| available := 0; credit_closed := false |}.
Definition grant (c : Credit) (n : Z) : Credit := if n <=? available c then c else c <| available := n |>.
(** [None]: the reader waits. *)
Definition credit_take (c : Credit) (max : Z) : option (Z * Credit) :=
  if credit_closed c then Some (0, c)
  else if 0 <? available c then let taken := Z.min (available c) max in Some (taken, c <| available := available c - taken |>)
  else None.
Definition credit_close (c : Credit) : Credit := c <| credit_closed := true |>.

(** ** One forward *)

Record Forward := mkForward { stream : Stream.Stream; link : option Sock; credit : Credit; pending : list Z; owed : option Recv.Ack }.
#[export] Instance Forward_settable : Settable Forward := λ f, mkForward (stream f) (link f) (credit f) (pending f) (owed f).
Definition open : Forward := {| stream := Stream.new; link := None; credit := credit_new; pending := []; owed := None |}.

Definition connected (f : Forward) (s : Sock) : Forward := f <| link := Some s |>.
Definition drain_pending (f : Forward) (now : Instant) : Forward :=
  match pending f with
  | [] => f
  | held => let '(taken, st) := Stream.write (stream f) held now in f <| stream := st |> <| pending := drop (Z.to_nat taken) held |>
  end.
Definition absorb (f : Forward) (chunk : list Z) (now : Instant) : Forward :=
  match pending f with
  | [] => let '(taken, st) := Stream.write (stream f) chunk now in f <| stream := st |> <| pending := drop (Z.to_nat taken) chunk |>
  | held => drain_pending (f <| pending := held ++ chunk |>) now
  end.
Definition finish (f : Forward) (now : Instant) : Forward :=
  let f := drain_pending f now in
  match pending f with [] => f <| stream := Stream.finish (stream f) |> | _ => f end.
(** [None] is a panic of [poll_ack]. *)
Definition owed_ack (f : Forward) : option (option Recv.Ack * Forward) :=
  '(next, st) ← Stream.poll_ack (stream f);
  let f := f <| stream := st |> in
  let f := match next with Some a => f <| owed := Some a |> | None => f end in
  Some (owed f, f).
Definition acked (f : Forward) : Forward := f <| owed := None |>.
(** [front] is where the receive buffer is cut in two. *)
Definition drain_to_socket (f : Forward) (front : nat) : bool * Forward :=
  match link f with
  | None => (true, f)
  | Some s =>
      if has_failed (buffer s) then (false, f)
      else
        let first := take front (Stream.readable (stream f)) in
        let second := drop front (Stream.readable (stream f)) in
        let '(taken, b) := write (buffer s) first in
        let '(taken, b) := if taken =? len first then let '(more, b) := write b second in (taken + more, b) else (taken, b) in
        let st := Stream.consume (stream f) taken in
        let b := if Stream.peer_finished st then shutdown b else b in
        (true, f <| link := Some (s <| buffer := b |>) |> <| stream := st |>)
  end.
Definition grant_credit (f : Forward) : Forward :=
  match pending f with [] => f <| credit := grant (credit f) (Stream.writable (stream f)) |> | _ => f end.
Definition is_done (f : Forward) : bool :=
  bool_decide (pending f = []) && bool_decide (owed f = None) && Stream.is_done (stream f).

(** [Drop for Forward], and for the [ForwardWrite] it owns *)
Definition drop_forward (f : Forward) : Forward :=
  f <| credit := credit_close (credit f) |> <| link := (λ s, s <| buffer := drop_write (buffer s) |> <| down := true |>) <$> link f |>.

(** *** A turn of the session over it ([pump_forwards]) *)

Definition pump (f : Forward) (io : Ends.Io) (now : Instant) (budget : Z) (front cut : nat) : option (bool * Forward * Ends.Io) :=
  '(a, f) ← owed_ack f;
  let '(f, io) :=
    match a with
    | Some a => let '(ok, io) := Ends.offer io (Ends.OAck a) in (if ok then acked f else f, io)
    | None => (f, io)
    end in
  let '(_, st, io) := Ends.transmit (Ends.answers io) (stream f) (Ends.sent io) now budget front in
  let '(alive, f) := drain_to_socket (f <| stream := st |>) cut in
  Some (alive, if alive then grant_credit f else f, io).

(** *** The reading thread ([dial_and_read]) *)

Inductive Post := PConnected | PBytes (chunk : list Z) | PEof (failed : bool) | PRefused.
Inductive Reader := Dialling | Wanting | Reading (want : Z) | Posting (p : Post) | Retired.

(** A forward and its threads; [posted] waits in the mailbox, [got] is what the socket produced;
    [retired] that the session's table has it no more. *)
Record Line := mkLine { fwd : Forward; reader : Reader; posted : list Post; got : list Z; retired : bool }.
#[export] Instance Line_settable : Settable Line := λ l, mkLine (fwd l) (reader l) (posted l) (got l) (retired l).
Definition line_new : Line := {| fwd := open; reader := Dialling; posted := []; got := []; retired := false |}.
Definition retire (l : Line) : Line := l <| fwd := drop_forward (fwd l) |> <| retired := true |>.

Inductive Step :=
| TDialled | TWant | TRead (chunk : list Z) | TInterrupted | TEnd (failed : bool) | TPost
| TSock (x : SockStep)
| TRefused | TReset
| TTake (now : Instant) | TData (s : Segment) (payload : list Z) | TAck (a : Recv.Ack) (now : Instant)
| TPump (answers : list bool) (now : Instant) (budget : Z) (front cut : nat).

Definition posts (p : Post) : list Z := match p with PBytes chunk => chunk | _ => [] end.

(** The forward after it took what a thread posted; [false]: it is retired. *)
Definition take_post (f : Forward) (p : Post) (now : Instant) : bool * Forward :=
  match p with
  | PConnected => (true, grant_credit (connected f sock_new))
  | PBytes chunk => (true, absorb f chunk now)
  | PEof failed => (negb failed, if failed then f else finish f now)
  | PRefused => (false, f)
  end.

(** What the reading thread does; what is read is at least a byte and at most what was asked for. *)
Definition reader_step (l : Line) (x : Step) : Line :=
  match x, reader l with
  | TDialled, Dialling => l <| reader := Posting PConnected |>
  | TRefused, Dialling => l <| reader := Posting PRefused |>
  | TWant, Wanting =>
      match credit_take (credit (fwd l)) READ_CHUNK with
      | None => l
      | Some (want, c) => l <| fwd := (fwd l) <| credit := c |> |> <| reader := if want =? 0 then Retired else Reading want |>
      end
  | TRead chunk, Reading want => if (0 <? len chunk) && (len chunk <=? want) then l <| reader := Posting (PBytes chunk) |> <| got := got l ++ chunk |> else l
  | TInterrupted, Reading _ => l <| reader := Wanting |>
  | TEnd failed, Reading _ => l <| reader := Posting (PEof failed) |>
  | TPost, Posting p => l <| posted := posted l ++ [p] |> <| reader := match p with PEof _ | PRefused => Retired | _ => Wanting end |>
  | _, _ => l
  end.

(** [None]: a panic.  A contradiction, or a failed socket, retires the forward with a reset ([false]);
    one that is done is retired without.  What comes for a retired one finds nothing. *)
Definition step (l : Line) (x : Step) : option (bool * Line * list Ends.Output) :=
  let ends (ok : bool) (l : Line) := Some (ok, if ok then l else retire l, []) in
  match x with
  | TDialled | TRefused | TWant | TRead _ | TInterrupted | TEnd _ | TPost => Some (true, reader_step l x, [])
  | TSock x => Some (true, match link (fwd l) with Some s => l <| fwd := (fwd l) <| link := Some (sock_step s x) |> |> | None => l end, [])
  | TReset => Some (true, if retired l then l else retire l, [])
  | TTake now =>
      match posted l with
      | [] => Some (true, l, [])
      | p :: rest =>
          let l := l <| posted := rest |> in
          if retired l then Some (true, l, []) else let '(ok, f) := take_post (fwd l) p now in ends ok (l <| fwd := f |>)
      end
  | TData s payload =>
      if retired l then Some (true, l, []) else
      let '(r, st) := Stream.on_data (stream (fwd l)) (off s) (fin s) payload in
      ends (match r with Ok _ => true | Err _ => false end) (l <| fwd := (fwd l) <| stream := st |> |>)
  | TAck a now =>
      if retired l then Some (true, l, []) else
      let '(r, st) := Stream.on_ack (stream (fwd l)) (Recv.ack_off a) (Recv.ack_window a) (Recv.ack_held a) now in
      ends (match r with Ok _ => true | Err _ => false end) (l <| fwd := (fwd l) <| stream := st |> |>)
  | TPump answers now budget front cut =>
      if retired l then Some (true, l, []) else
      '(alive, f, io) ← pump (fwd l) (Ends.mkIo answers []) now budget front cut;
      let l := l <| fwd := f |> in
      Some (alive, if alive && negb (is_done f) then l else retire l, Ends.sent io)
  end.

(** ** What is kept *)

Definition held (d : Doing) : list Z := match d with Writing batch => batch | _ => [] end.

(** [D] was moved into the socket's buffer. *)
Record sock_ok (D : list Z) (s : Sock) : Prop := {
  sk_order : failed (buffer s) = false → D = wrote s ++ held (doing s) ++ bytes (buffer s);
  sk_broken : failed (buffer s) = true → wrote s `prefix_of` D ∧ doing s = Gone;
  sk_room : 0 ≤ writing (buffer s) ∧ len (held (doing s)) ≤ writing (buffer s) ∧ len (bytes (buffer s)) + writing (buffer s) ≤ BACKLOG
}.

Lemma sock_new_ok : sock_ok [] sock_new.
Proof. by split. Qed.

Lemma broken_ok D s : wrote s `prefix_of` D → 0 ≤ writing (buffer s) ∧ len (bytes (buffer s)) + writing (buffer s) ≤ BACKLOG → sock_ok D (broken s).
Proof. intros Hp Hr. split; cbn; [done|done|lia]. Qed.
Lemma sock_wrote D s : sock_ok D s → wrote s `prefix_of` D.
Proof. intros [H1 H2 _]. destruct (failed (buffer s)); [by apply H2|]. rewrite (H1 eq_refl). by apply prefix_app_r. Qed.

Lemma drop_sock_ok D s : sock_ok D s → sock_ok D (s <| buffer := drop_write (buffer s) |> <| down := true |>).
Proof. by intros [H1 H2 H3]. Qed.

Lemma sock_step_ok D s x : sock_ok D s → sock_ok D (sock_step s x).
Proof.
  intros H. pose proof (sock_wrote D s H) as Hp. pose proof H as [H1 H2 (H3 & H4 & H5)]. destruct x as [|n| |]; unfold sock_step; destruct (doing s) as [|batch| |] eqn:Ed; try exact H.
  - unfold turn. cbn [bytes assign]. change (bytes ((buffer s) <| writing := 0 |>)) with (bytes (buffer s)). destruct (bytes (buffer s)) as [|b bs] eqn:Eb.
    + split; cbn.
      * intros Hf. specialize (H1 Hf). cbn in H1. rewrite H1, Eb. by destruct (closed (buffer s)), (finished (buffer s)).
      * intros Hf. by destruct (H2 Hf).
      * rewrite Eb. destruct (closed (buffer s)), (finished (buffer s)); cbn; unfold BACKLOG, Send.FORWARD_WINDOW; lia.
    + split; cbn.
      * intros Hf. specialize (H1 Hf). cbn in H1. by rewrite app_nil_r.
      * intros Hf. by destruct (H2 Hf).
      * cbn [length] in *. lia.
  - destruct (_ || _); [apply broken_ok; [done|lia]|]. cbn [held] in *.
    assert (held (match drop n batch with [] => Top | more => Writing more end) = drop n batch) as Eh by (by destruct (drop n batch)).
    split; cbn; rewrite ?Eh; [|intros Hf; by destruct (H2 Hf)|rewrite length_drop; lia].
    intros Hf. specialize (H1 Hf). by rewrite <- app_assoc, (app_assoc (take n batch)), take_drop.
  - apply broken_ok; [done|lia].
  - by split.
Qed.

Lemma write_spec b input : 0 ≤ writing b → let '(n, b') := write b input in
  0 ≤ n ≤ len input ∧ bytes b' = bytes b ++ take (Z.to_nat n) input ∧ writing b' = writing b ∧ finished b' = finished b ∧ closed b' = closed b ∧ failed b' = failed b ∧
  (len (bytes b) + writing b ≤ BACKLOG → len (bytes b') + writing b' ≤ BACKLOG).
Proof.
  intros Hw. unfold write. destruct (_ || _); [cbn; rewrite app_nil_r; split_and!; done || lia|]. unfold sat_sub.
  destruct (Z.eqb_spec (Z.min (Z.max 0 (BACKLOG - (len (bytes b) + writing b))) (len input)) 0) as [E|E]; [cbn; rewrite app_nil_r; split_and!; done || lia|].
  cbn [bytes writing finished closed failed assign]. split_and!; try done; try lia. cbn. rewrite length_app, length_take. lia.
Qed.

(** The two writes of [drain_to_socket] are one, wherever the buffer is cut. *)
Lemma drain_to_socket_spec f s cut : link f = Some s → has_failed (buffer s) = false → 0 ≤ writing (buffer s) →
  ∃ n b, 0 ≤ n ≤ len (Stream.readable (stream f)) ∧ bytes b = bytes (buffer s) ++ take (Z.to_nat n) (Stream.readable (stream f)) ∧ writing b = writing (buffer s) ∧
    failed b = failed (buffer s) ∧ (len (bytes (buffer s)) + writing (buffer s) ≤ BACKLOG → len (bytes b) + writing b ≤ BACKLOG) ∧
    drain_to_socket f cut = (true, f <| link := Some (s <| buffer := b |>) |> <| stream := Stream.consume (stream f) n |>).
Proof.
  intros Hl Hf Hw. unfold drain_to_socket. rewrite Hl, Hf. set (ready := Stream.readable (stream f)). pose proof (write_spec (buffer s) (take cut ready) Hw) as H1.
  destruct (write (buffer s) (take cut ready)) as [n1 b1]. destruct H1 as (N1 & B1 & W1 & _ & _ & F1 & R1). rewrite length_take in N1.
  assert (∃ n b, 0 ≤ n ≤ len ready ∧ bytes b = bytes (buffer s) ++ take (Z.to_nat n) ready ∧ writing b = writing (buffer s) ∧ failed b = failed (buffer s) ∧
    (len (bytes (buffer s)) + writing (buffer s) ≤ BACKLOG → len (bytes b) + writing b ≤ BACKLOG) ∧
    (if n1 =? len (take cut ready) then let '(more, b) := write b1 (drop cut ready) in (n1 + more, b) else (n1, b1)) = (n, b)) as (n & b & P1 & P2 & P3 & P4 & P5 & ->).
  { destruct (Z.eqb_spec n1 (len (take cut ready))) as [E|E].
    - pose proof (write_spec b1 (drop cut ready) ltac:(lia)) as H2. destruct (write b1 (drop cut ready)) as [n2 b2]. destruct H2 as (N2 & B2 & W2 & _ & _ & F2 & R2). rewrite length_drop in N2. rewrite length_take in E.
      exists (n1 + n2), b2. split_and!; [lia|lia| |lia|congruence|intros; apply R2; lia|done]. rewrite B2, B1, <- app_assoc. f_equal. rewrite take_take. destruct (Nat.le_gt_cases cut (length ready)).
      + replace (Z.to_nat n1 `min` cut)%nat with cut by lia. replace (Z.to_nat (n1 + n2)) with (cut + Z.to_nat n2)%nat by lia. by rewrite take_take_drop.
      + rewrite (drop_ge ready) by lia. rewrite take_nil, app_nil_r, !take_ge by lia. done.
    - exists n1, b1. split_and!; [lia|lia| |done|done|done|done]. rewrite B1. f_equal. rewrite take_take. f_equal. lia. }
  exists n, (if Stream.peer_finished (Stream.consume (stream f) n) then shutdown b else b). split_and!; try done; try lia; by destruct (Stream.peer_finished _).
Qed.

Lemma drain_pending_spec f now : ∃ l g, Ends.acts (stream f) l = Some (stream (drain_pending f now), g) ∧ Forall Ends.act_fine l ∧ Forall Ends.inner l ∧
  sum_by Ends.act_offers l ≤ len (pending f) ∧ Ends.fed g ++ pending (drain_pending f now) = pending f ∧ Ends.moved g = [] ∧ Ends.segments g = [] ∧ Ends.polled g = [] ∧
  link (drain_pending f now) = link f ∧ owed (drain_pending f now) = owed f ∧ credit (drain_pending f now) = credit f.
Proof.
  unfold drain_pending. destruct (pending f) as [|z held] eqn:Ep.
  { exists [], Ends.no_log. rewrite Ep. split_and!; try done; constructor. }
  pose proof (refl_equal (Stream.write (stream f) (z :: held) now)) as Ew. destruct (Stream.write (stream f) (z :: held) now) as [n st] eqn:E.
  exists [Ends.AWrite (z :: held) now]. eexists. cbn [Ends.acts Ends.act_step]. rewrite E. cbn [mbind option_bind]. split_and!; [done|by constructor|by constructor|change (len (z :: held) + 0 ≤ len (z :: held)); lia| |done..].
  cbn -[take drop Z.to_nat]. by rewrite app_nil_r, take_drop.
Qed.

Lemma chunk_absorbed f chunk now : ∃ l g, Ends.acts (stream f) l = Some (stream (absorb f chunk now), g) ∧ Forall Ends.act_fine l ∧ Forall Ends.inner l ∧
  sum_by Ends.act_offers l ≤ len (pending f ++ chunk) ∧ Ends.fed g ++ pending (absorb f chunk now) = pending f ++ chunk ∧ Ends.moved g = [] ∧ Ends.segments g = [] ∧ Ends.polled g = [] ∧
  link (absorb f chunk now) = link f ∧ owed (absorb f chunk now) = owed f ∧ credit (absorb f chunk now) = credit f.
Proof.
  unfold absorb. destruct (pending f) as [|z held] eqn:Ep.
  - destruct (Stream.write (stream f) chunk now) as [n st] eqn:E. exists [Ends.AWrite chunk now]. eexists. cbn [Ends.acts Ends.act_step]. rewrite E. cbn [mbind option_bind].
    split_and!; [done|by constructor|by constructor|change (len chunk + 0 ≤ len chunk); lia| |done..]. cbn -[take drop Z.to_nat]. by rewrite app_nil_r, take_drop.
  - destruct (drain_pending_spec (f <| pending := (z :: held) ++ chunk |>) now) as (l & g & H). exists l, g. exact H.
Qed.

Lemma pump_spec f ans now budget front cut : 0 ≤ budget → is_Some (Stream.poll_ack (stream f)) → (∀ s, link f = Some s → 0 ≤ writing (buffer s)) →
  ∃ alive f' io, pump f (Ends.mkIo ans []) now budget front cut = Some (alive, f', io) ∧
  (∃ l g, Ends.acts (stream f) l = Some (stream f', g) ∧ Forall Ends.act_fine l ∧ Forall Ends.inner l ∧ sum_by Ends.act_offers l = 0 ∧
    Ends.fed g = [] ∧ pending f' = pending f ∧
    match link f with
    | None => link f' = None ∧ Ends.moved g = []
    | Some s => ∃ b, link f' = Some (s <| buffer := b |>) ∧ bytes b = bytes (buffer s) ++ Ends.moved g ∧ writing b = writing (buffer s) ∧ failed b = failed (buffer s) ∧
        (len (bytes (buffer s)) + writing (buffer s) ≤ BACKLOG → len (bytes b) + writing b ≤ BACKLOG)
    end ∧
    (∀ a, owed f' = Some a → a ∈ Ends.polled g ∨ owed f = Some a) ∧
    Forall (λ o, match o with Ends.OData s b => (s, b) ∈ Ends.segments g | Ends.OAck a => a ∈ Ends.polled g ∨ owed f = Some a end) (Ends.sent io)).
Proof.
  intros Hb [[o st0] Hp] Hw. unfold pump, owed_ack. rewrite Hp. cbn [mbind option_bind].
  set (f1 := match o with Some a => (f <| stream := st0 |>) <| owed := Some a |> | None => f <| stream := st0 |> end).
  assert (stream f1 = st0 ∧ pending f1 = pending f ∧ link f1 = link f) as (S1 & S2 & S3) by (unfold f1; by destruct o).
  set (g0 := Ends.mkLog [] [] [] (match o with Some ack => [ack] | None => [] end)). assert (∀ a, owed f1 = Some a → a ∈ Ends.polled g0 ∨ owed f = Some a) as Hk by (intros a; unfold f1, g0; destruct o; cbn; [intros [= ->]; left; by left|by right]).
  assert (Ends.acts (stream f) [Ends.APollAck] = Some (st0, g0)) as A0 by (cbn [Ends.acts Ends.act_step]; rewrite Hp; cbn [mbind option_bind]; unfold g0; by destruct o).
  set (fio := match owed f1 with Some a => let '(ok, io) := Ends.offer (Ends.mkIo ans []) (Ends.OAck a) in (if ok then acked f1 else f1, io) | None => (f1, Ends.mkIo ans []) end).
  assert (∃ f2 io2, fio = (f2, io2) ∧ stream f2 = st0 ∧ pending f2 = pending f ∧ link f2 = link f ∧ (∀ a, owed f2 = Some a → owed f1 = Some a) ∧ Forall (λ o, ∃ a, o = Ends.OAck a ∧ owed f1 = Some a) (Ends.sent io2)) as (f2 & io2 & -> & P1 & P2 & P3 & P4 & P5).
  { unfold fio. destruct (owed f1) as [a|] eqn:Eo; [|exists f1, (Ends.mkIo ans []); split_and!; try done; intros; congruence]. unfold Ends.offer. cbn [Ends.answers Ends.sent app]. destruct ans as [|[] ans]; [exists f1|exists (acked f1)|exists f1]; eexists; split_and!; try done; cbn; try congruence; try constructor; [by exists a|constructor]. }
  cbn zeta. pose proof (Ends.transmit_spec (Ends.answers io2) (stream f2) (Ends.sent io2) now budget front Hb) as T. destruct (Ends.transmit (Ends.answers io2) (stream f2) (Ends.sent io2) now budget front) as [[refused st3] io3].
  destruct T as (l1 & g1 & T1 & T2 & T3 & T4 & T5 & T6 & T7 & T8). rewrite P1 in T1. pose proof (Ends.acts_app _ _ _ _ _ _ _ A0 T1) as A1.
  assert (Forall (λ o, match o with Ends.OData s b => (s, b) ∈ Ends.segments g1 | Ends.OAck a => a ∈ Ends.polled g0 ∨ owed f = Some a end) (Ends.sent io3)) as Ho.
  { rewrite T8. apply Forall_app. split; [eapply Forall_impl; [exact P5|]; intros x (a & -> & Ha); auto|]. apply Forall_fmap. apply Forall_forall. intros [s b] Hx. done. }
  set (f3 := f2 <| stream := st3 |>).
  destruct (link f) as [s|] eqn:El; [destruct (has_failed (buffer s)) eqn:Ef|].
  - exists false, f3, io3. split; [unfold drain_to_socket; change (link f3) with (link f2); by rewrite P3, Ef|].
    eexists _, _. split; [exact A1|]. split_and!; [by apply Forall_app_2; [constructor; done|]|by apply Forall_app_2; [constructor; done|]|rewrite !sum_by_app, T4; done|by cbn; rewrite T5|done| | |].
    + exists (buffer s). change (link f3) with (link f2). rewrite P3. cbn. rewrite T6, app_nil_r. split_and!; try done. by destruct s.
    + intros a Ha. destruct (Hk a (P4 a Ha)) as [?|?]; [left|by right]. cbn. apply elem_of_app. by left.
    + eapply Forall_impl; [exact Ho|]. intros [x y|a] Hx; cbn; [done|]. destruct Hx as [?|?]; [left|by right]. apply elem_of_app. by left.
  - destruct (drain_to_socket_spec f3 s cut) as (n & b & N1 & N2 & N3 & N4 & N5 & N6); [by change (link f3) with (link f2); rewrite P3|done|by apply Hw|]. rewrite N6. eexists true, _, io3. split; [done|].
    set (g2 := Ends.mkLog [] (take (Z.to_nat n) (Stream.readable st3)) [] []). change (stream f3) with st3 in *.
    assert (Ends.acts st3 [Ends.AConsume n] = Some (Stream.consume st3 n, Ends.log_app g2 Ends.no_log)) as A2 by (cbn [Ends.acts Ends.act_step]; by rewrite Z.min_l by lia). pose proof (Ends.acts_app _ _ _ _ _ _ _ A1 A2) as A3.
    set (f4 := f3 <| link := Some (s <| buffer := b |>) |> <| stream := Stream.consume st3 n |>). assert (stream (grant_credit f4) = Stream.consume st3 n ∧ pending (grant_credit f4) = pending f ∧ link (grant_credit f4) = Some (s <| buffer := b |>) ∧ owed (grant_credit f4) = owed f2) as (Q1 & Q2 & Q3 & Q4).
    { unfold grant_credit. destruct (pending f4) eqn:E4; unfold f4, f3 in *; cbn in *; split_and!; congruence. }
    eexists _, _. rewrite Q1. split; [exact A3|]. split_and!; [apply Forall_app_2; [by apply Forall_app_2; [constructor; done|]|by constructor; [cbn; lia|]]|by apply Forall_app_2; [apply Forall_app_2; [constructor; done|]|constructor]|rewrite !sum_by_app, T4; done|by cbn; rewrite T5|done| | |].
    + exists b. split_and!; try done. rewrite N2. cbn. by rewrite T6, app_nil_r.
    + intros a Ha. rewrite Q4 in Ha. destruct (Hk a (P4 a Ha)) as [?|?]; [left|by right]. cbn. apply elem_of_app. left. apply elem_of_app. by left.
    + eapply Forall_impl; [exact Ho|]. intros [x y|a] Hx; cbn; [apply elem_of_app; by left|]. destruct Hx as [?|?]; [left|by right]. apply elem_of_app. left. apply elem_of_app. by left.
  - assert (drain_to_socket f3 cut = (true, f3)) as -> by (unfold drain_to_socket; change (link f3) with (link f2); by rewrite P3). eexists true, _, io3. split; [done|].
    assert (stream (grant_credit f3) = st3 ∧ pending (grant_credit f3) = pending f ∧ link (grant_credit f3) = None ∧ owed (grant_credit f3) = owed f2) as (Q1 & Q2 & Q3 & Q4).
    { unfold grant_credit. destruct (pending f3) eqn:E4; unfold f3 in *; cbn in *; split_and!; congruence. }
    eexists _, _. rewrite Q1. split; [exact A1|]. split_and!; [by apply Forall_app_2; [constructor; done|]|by apply Forall_app_2; [constructor; done|]|rewrite !sum_by_app, T4; done|by cbn; rewrite T5|done|done|by cbn; rewrite T6| |].
    + intros a Ha. rewrite Q4 in Ha. destruct (Hk a (P4 a Ha)) as [?|?]; [left|by right]. cbn. apply elem_of_app. by left.
    + eapply Forall_impl; [exact Ho|]. intros [x y|a] Hx; cbn; [done|]. destruct Hx as [?|?]; [left|by right]. apply elem_of_app. by left.
Qed.

(** A turn comes to something whatever the peer sent. *)
Lemma pump_total f io now budget front cut : is_Some (pump f io now budget front cut).
Proof.
  unfold pump, owed_ack, Stream.poll_ack. destruct (Recv.poll_ack_total (Stream.recv (stream f))) as [[a v] ->]. cbn [mbind option_bind]. destruct (match owed _ with Some _ => _ | None => _ end) as [f1 io1]. destruct (Ends.transmit _ _ _ now budget front) as [[? ?] ?]. destruct (drain_to_socket _ cut) as [? ?]. by eexists.
Qed.

(** *** A forward with its threads *)

Definition in_hand (r : Reader) : list Z := match r with Posting p => posts p | _ => [] end.
(** A socket is still to be handed over, once. *)
Definition dialled (p : Post) : Z := match p with PConnected => 1 | _ => 0 end.
Definition dials (l : Line) : Z := match reader l with Dialling => 1 | Posting p => dialled p | _ => 0 end + sum_by dialled (posted l).

Definition ended (f : Forward) : Prop := Send.send_fin (Stream.send (stream f)) ≠ None.
Record line_ok (W D : list Z) (K : list Recv.Ack) (l : Line) : Prop := {
  lo_front : W `prefix_of` got l;
  lo_got : retired l = false → got l = W ++ pending (fwd l) ++ concat (posts <$> posted l) ++ in_hand (reader l);
  lo_sock : match link (fwd l) with None => D = [] | Some s => sock_ok D s end;
  lo_owed : ∀ a, owed (fwd l) = Some a → a ∈ K;
  lo_eof : ∀ pre b post, posted l = pre ++ PEof b :: post → post = [] ∧ reader l = Retired;
  lo_fin : ended (fwd l) → W = got l ∧ reader l = Retired;
  lo_dials : dials l = match link (fwd l) with None => dials l | Some _ => 0 end ∧ dials l ≤ 1
}.

Lemma dialled_pos l : 0 ≤ sum_by dialled l.
Proof. apply sum_by_nonneg, Forall_forall. intros [] _; cbn; lia. Qed.

(** While the reader is at work nothing has ended. *)
Lemma reader_goes W D K l l' : line_ok W D K l → reader l ≠ Retired → stream (fwd l') = stream (fwd l) → posted l' = posted l →
  (∀ pre b post, posted l' = pre ++ PEof b :: post → post = [] ∧ reader l' = Retired) ∧ (ended (fwd l') → W = got l' ∧ reader l' = Retired).
Proof.
  intros [_ _ _ _ H5 H6 _] Hr Es Ep. split; [intros pre b post E; rewrite Ep in E; by destruct (H5 _ _ _ E)|]. unfold ended. rewrite Es. intros He. by destruct (H6 He).
Qed.
Lemma reader_ok W D K l x : line_ok W D K l → let l' := reader_step l x in line_ok W D K l' ∧ stream (fwd l') = stream (fwd l) ∧ got l `prefix_of` got l'.
Proof.
  intros H. pose proof H as [H0 H1 H2 H3 H5 H6 [H4 H4']]. assert (line_ok W D K l ∧ stream (fwd l) = stream (fwd l) ∧ got l `prefix_of` got l) as Hsame by done. unfold dials in *.
  pose proof (λ l', reader_goes W D K l l' H) as Hg.
  destruct x as [| |chunk| |failed| | | | | | | |]; unfold reader_step; destruct (reader l) as [| |want|p|] eqn:Er; try exact Hsame.
  - destruct (Hg (l <| reader := Posting PConnected |>)); [done..|]. split; [|done]. by split.
  - destruct (credit_take (credit (fwd l)) READ_CHUNK) as [[want c]|]; [|exact Hsame]. set (r := if want =? 0 then Retired else Reading want).
    destruct (Hg (l <| fwd := (fwd l) <| credit := c |> |> <| reader := r |>)); [done..|]. split; [|done]. split; try done; cbn; [intros E; rewrite (H1 E)|unfold dials; cbn]; unfold r; by destruct (want =? 0).
  - destruct (_ && _); [|exact Hsame]. destruct (Hg (l <| reader := Posting (PBytes chunk) |> <| got := got l ++ chunk |>)); [done..|]. split; [|split; [done|cbn; by apply prefix_app_r]]. split; try done; cbn; [by apply prefix_app_r|].
    intros E. rewrite (H1 E). cbn. by rewrite app_nil_r, <- !app_assoc.
  - destruct (Hg (l <| reader := Wanting |>)); [done..|]. split; [|done]. by split.
  - destruct (Hg (l <| reader := Posting (PEof failed) |>)); [done..|]. split; [|done]. by split.
  - split; [|done]. split; cbn; try done.
    + intros E. rewrite (H1 E), fmap_app, concat_app. cbn. rewrite !app_nil_r. destruct p; cbn; by rewrite ?app_nil_r.
    + intros pre b post E. destruct (decide (post = [])) as [->|Hne].
      * split; [done|]. apply app_inj_tail in E as [_ ->]. done.
      * destruct post as [|q post _] using rev_ind; [done|]. change (posted l ++ [p] = pre ++ (PEof b :: post) ++ [q]) in E. rewrite app_assoc in E. apply app_inj_tail in E as [E _]. by destruct (H5 _ _ _ E).
    + intros He. by destruct (H6 He).
    + unfold dials. cbn. rewrite sum_by_app. change (sum_by dialled [p]) with (dialled p + 0). destruct p; cbn in *; destruct (link (fwd l)); lia.
  - destruct (Hg (l <| reader := Posting PRefused |>)); [done..|]. split; [|done]. split; try done. unfold dials. cbn. pose proof (dialled_pos (posted l)). cbn in *. destruct (link (fwd l)); lia.
Qed.

Lemma finish_spec f now : ∃ l g, Ends.acts (stream f) l = Some (stream (finish f now), g) ∧ Forall Ends.act_fine l ∧ Forall Ends.own l ∧
  sum_by Ends.act_offers l ≤ len (pending f) ∧ Ends.fed g ++ pending (finish f now) = pending f ∧ Ends.moved g = [] ∧ Ends.segments g = [] ∧ Ends.polled g = [] ∧
  link (finish f now) = link f ∧ owed (finish f now) = owed f ∧ (Ends.AFinish ∈ l → pending (finish f now) = []).
Proof.
  unfold finish. destruct (drain_pending_spec f now) as (l & g & A & H1 & H2 & H3 & H4 & H5 & H6 & H7 & H8 & H9 & H10). destruct (pending (drain_pending f now)) eqn:Ep.
  2: { exists l, g. rewrite Ep. split_and!; try done; [by apply Ends.inner_own|]. intros Hin. by destruct (Ends.inner_finish l H2). }
  exists (l ++ [Ends.AFinish]). eexists.
  split; [apply (Ends.acts_app _ _ _ _ _ (Stream.finish (stream (drain_pending f now))) Ends.no_log A); done|]. cbn. rewrite Ep, sum_by_app, !app_nil_r in *.
  split_and!; try done; [apply Forall_app_2; [done|by constructor]|apply Forall_app_2; [by apply Ends.inner_own|by constructor]|]. change (sum_by Ends.act_offers [Ends.AFinish]) with 0. lia.
Qed.

Definition input_of (x : Step) : option Ends.Input := match x with TData s b => Some (Ends.IData s b) | TAck a now => Some (Ends.IAck a now) | _ => None end.
Definition step_fine (x : Step) : Prop := match x with TPump _ _ budget _ _ => 0 ≤ budget | _ => True end.
Definition went (l : Line) : list Z := match link (fwd l) with None => [] | Some s => wrote s end.

#[export] Instance line_end : Ends.SocketEnd Line Step :=
  {| Ends.stream_of l := stream (fwd l); Ends.came := got; Ends.went := went; Ends.new_end := line_new; Ends.step_fine := step_fine; Ends.input_of := input_of; Ends.end_step := step |}.

(** A step that leaves the stream alone, or does to it what [acts] says. *)
Definition acted (W D : list Z) (K : list Recv.Ack) (l l' : Line) (x : Step) (out : list Ends.Output) : Prop :=
  ∃ acts g, Ends.acts (stream (fwd l)) acts = Some (stream (fwd l'), g) ∧ Forall Ends.act_fine acts ∧ Forall (λ a, match a with Ends.AInput i => input_of x = Some i | _ => True end) acts ∧
    len W + sum_by Ends.act_offers acts ≤ len (got l') ∧ line_ok (W ++ Ends.fed g) (D ++ Ends.moved g) (K ++ Ends.polled g) l' ∧
    Forall (λ o, match o with Ends.OData s b => (s, b) ∈ Ends.segments g | Ends.OAck a => a ∈ K ++ Ends.polled g end) out.

Lemma acted_quiet W D K l l' x : line_ok W D K l' → stream (fwd l') = stream (fwd l) → acted W D K l l' x [].
Proof.
  intros H E. pose proof (lo_front _ _ _ _ H) as H0. exists [], Ends.no_log. cbn. rewrite E, !app_nil_r. split_and!; try done; try constructor. change (sum_by Ends.act_offers []) with 0. apply prefix_length in H0. lia.
Qed.

Lemma no_input (l : list Ends.act) x : Forall Ends.own l → Forall (λ a, match a with Ends.AInput i => input_of x = Some i | _ => True end) l.
Proof. intros H. eapply Forall_impl; [exact H|]. by intros []. Qed.

(** What is fed to a stream that has ended is nothing. *)
Lemma fed_ended (W g rest got_ : list Z) : W ++ g ++ rest = got_ → W = got_ → W ++ g = got_.
Proof. intros E ->. apply (f_equal length) in E. rewrite !length_app in E. destruct g; [by rewrite app_nil_r|cbn in E; lia]. Qed.

(** Bytes the stream took from what the session holds; it ends its half only once it holds none. *)
Lemma acted_fed W D K l f rest x post acts g :
  line_ok W D K l → retired l = false → posted l = post :: rest → dialled post = 0 →
  Ends.acts (stream (fwd l)) acts = Some (stream f, g) → Forall Ends.act_fine acts → Forall Ends.own acts →
  sum_by Ends.act_offers acts ≤ len (pending (fwd l) ++ posts post) → Ends.fed g ++ pending f = pending (fwd l) ++ posts post → Ends.moved g = [] → Ends.polled g = [] →
  link f = link (fwd l) → owed f = owed (fwd l) → (Ends.AFinish ∈ acts → pending f = [] ∧ rest = [] ∧ reader l = Retired) →
  acted W D K l (l <| posted := rest |> <| fwd := f |>) x [].
Proof.
  intros H Hl Hp Hd A B1 B2 B3 B4 B5 B7 B8 B9 Hfin. pose proof H as [H0 H1 H2 H3 H5 H6 [H4 H4']]. specialize (H1 Hl). exists acts, g. unfold dials in *. rewrite Hp in *.
  change (sum_by dialled (post :: rest)) with (dialled post + sum_by dialled rest) in *. rewrite Hd in *. cbn [got fwd posted assign]. rewrite fmap_cons in H1. cbn [concat] in H1.
  assert (got l = (W ++ Ends.fed g) ++ pending f ++ concat (posts <$> rest) ++ in_hand (reader l)) as Eg.
  { rewrite H1, <- !app_assoc. f_equal. rewrite (app_assoc (Ends.fed g)), B4. by rewrite <- app_assoc. }
  split_and!; [done|done|by apply no_input| | |constructor].
  - cbn. rewrite H1, !length_app in *. lia.
  - rewrite B5, B7, !app_nil_r. split; cbn; [rewrite Eg; by apply prefix_app_r|done|by rewrite B8|by rewrite B9| | |unfold dials; cbn; rewrite B8; split; [destruct (link (fwd l)); lia|lia]].
    + intros pre b post' ->. apply (H5 (post :: pre) b post'). done.
    + unfold ended in *. destruct (Ends.finish_or_not acts) as [Hin|Hin].
      * destruct (Hfin Hin) as (E1 & E2 & E3). intros _. split; [|done]. rewrite Eg, E1, E2, E3. by rewrite !app_nil_r.
      * rewrite (Ends.acts_fin _ _ _ _ A Hin). intros He. destruct (H6 He) as [E1 E2]. split; [|done]. eapply fed_ended; [|done]. by rewrite Eg, <- app_assoc.
Qed.

Lemma retired_ok W D K l : line_ok W D K l → line_ok W D K (retire l).
Proof.
  intros [H0 H1 H2 H3 H5 H6 H4]. split; cbn; try done.
  - destruct (link (fwd l)); [by apply drop_sock_ok|done].
  - unfold dials in *. cbn. by destruct (link (fwd l)).
Qed.
Lemma acted_retire W D K l l' x out : acted W D K l l' x out → acted W D K l (retire l') x out.
Proof. intros (acts & g & A & B1 & B2 & B3 & B4 & B5). exists acts, g. split_and!; try done. by apply retired_ok. Qed.

(** What a retired forward was posted is thrown away. *)
Lemma popped_ok W D K l p rest : line_ok W D K l → posted l = p :: rest → retired l = true → line_ok W D K (l <| posted := rest |>).
Proof.
  intros [H0 H1 H2 H3 H5 H6 [H4 H4']] Ep Er. unfold dials in *. rewrite Ep in *. change (sum_by dialled (p :: rest)) with (dialled p + sum_by dialled rest) in *.
  assert (0 ≤ dialled p) by (destruct p; cbn; lia). pose proof (dialled_pos rest). assert (0 ≤ match reader l with Dialling => 1 | Posting p => dialled p | _ => 0 end) by (destruct (reader l) as [| | |[]|]; cbn; lia).
  split; cbn; try done; [congruence|intros pre b post ->; by apply (H5 (p :: pre) b post)|]. unfold dials. cbn. destruct (link (fwd l)); lia.
Qed.

(** The socket is handed over. *)
Lemma connected_ok W D K l rest : line_ok W D K l → posted l = PConnected :: rest → line_ok W D K (l <| posted := rest |> <| fwd := grant_credit (connected (fwd l) sock_new) |>).
Proof.
  intros [H0 H1 H2 H3 H5 H6 [H4 H4']] Ep. unfold dials in *. rewrite Ep in *. change (sum_by dialled (PConnected :: rest)) with (1 + sum_by dialled rest) in *. pose proof (dialled_pos rest).
  assert (0 ≤ match reader l with Dialling => 1 | Posting p => dialled p | _ => 0 end) by (destruct (reader l) as [| | |[]|]; cbn; lia).
  assert (link (fwd l) = None) as El by (destruct (link (fwd l)); [lia|done]). rewrite El in H2. subst D. set (f := grant_credit (connected (fwd l) sock_new)).
  assert (stream f = stream (fwd l) ∧ pending f = pending (fwd l) ∧ link f = Some sock_new ∧ owed f = owed (fwd l)) as (Q1 & Q2 & Q3 & Q4) by (unfold f, grant_credit; by destruct (pending (connected (fwd l) sock_new))).
  split; cbn; rewrite ?Q2, ?Q3, ?Q4; [done|done|apply sock_new_ok|done|intros pre b post ->; by apply (H5 (PConnected :: pre) b post)|unfold ended; by rewrite Q1|]. unfold dials. cbn. lia.
Qed.

(** An input the stream took. *)
Lemma acted_input W D K l x i st g : line_ok W D K l → input_of x = Some i → Ends.act_step (stream (fwd l)) (Ends.AInput i) = Some (st, g) → acted W D K l (l <| fwd := (fwd l) <| stream := st |> |>) x [].
Proof.
  intros [H0 H1 H2 H3 H5 H6 H4] Hi Ha. exists [Ends.AInput i], Ends.no_log. assert (g = Ends.no_log) as ->.
  { destruct i; cbn [Ends.act_step] in Ha; [destruct (Stream.on_data _ _ _ _) as [[] ?]|destruct (Stream.on_ack _ _ _ _ _) as [[] ?]]; [|done| |done]; by injection Ha. }
  cbn [Ends.acts]. rewrite Ha. cbn [mbind option_bind Ends.log_app Ends.no_log Ends.fed Ends.moved Ends.polled Ends.segments app]. rewrite !app_nil_r. split_and!; [done|by constructor|by constructor| | |constructor].
  - change (sum_by Ends.act_offers [Ends.AInput i]) with 0. cbn. apply prefix_length in H0. lia.
  - split; try done. cbn. unfold ended. cbn. by rewrite (Ends.act_fin _ _ _ _ Ha).
Qed.

(** A turn over a forward. *)
Lemma acted_pump W D K l x f acts g out : line_ok W D K l → Ends.acts (stream (fwd l)) acts = Some (stream f, g) → Forall Ends.act_fine acts → Forall Ends.inner acts →
  sum_by Ends.act_offers acts = 0 → Ends.fed g = [] → pending f = pending (fwd l) →
  match link (fwd l) with
  | None => link f = None ∧ Ends.moved g = []
  | Some s => ∃ b, link f = Some (s <| buffer := b |>) ∧ bytes b = bytes (buffer s) ++ Ends.moved g ∧ writing b = writing (buffer s) ∧ failed b = failed (buffer s) ∧
      (len (bytes (buffer s)) + writing (buffer s) ≤ BACKLOG → len (bytes b) + writing b ≤ BACKLOG)
  end →
  (∀ a, owed f = Some a → a ∈ Ends.polled g ∨ owed (fwd l) = Some a) →
  Forall (λ o, match o with Ends.OData s b => (s, b) ∈ Ends.segments g | Ends.OAck a => a ∈ Ends.polled g ∨ owed (fwd l) = Some a end) out →
  acted W D K l (l <| fwd := f |>) x out.
Proof.
  intros [H0 H1 H2 H3 H5 H6 [H4 H4']] A B1 B2 B3 B4 B5 B6 B7 B8. exists acts, g. split_and!; [done|done|by apply no_input, Ends.inner_own| | |].
  - rewrite B3. cbn. apply prefix_length in H0. lia.
  - rewrite B4, app_nil_r. split; cbn.
    + done.
    + by rewrite B5.
    + destruct (link (fwd l)) as [s|]; [|destruct B6 as [-> ->]; by rewrite app_nil_r, H2]. destruct B6 as (b & -> & C1 & C2 & C3 & C4). destruct H2 as [K1 K2 (K3 & K4 & K5)]. split; cbn.
      * rewrite C3, C1. intros Hz. by rewrite (K1 Hz), !app_assoc.
      * rewrite C3. intros Hz. destruct (K2 Hz). split; [by apply prefix_app_r|done].
      * rewrite C2. split_and!; [lia|lia|]. rewrite C2 in C4. by apply C4.
    + intros a Hao. apply elem_of_app. destruct (B7 a Hao) as [?|?]; auto.
    + done.
    + unfold ended. by rewrite (Ends.acts_fin _ _ _ _ A (Ends.inner_finish _ B2)).
    + unfold dials in *. cbn. destruct (link (fwd l)); [destruct B6 as (b & -> & _)|destruct B6 as [-> _]]; lia.
  - eapply Forall_impl; [exact B8|]. intros [s b|a] Ho; [done|]. apply elem_of_app. destruct Ho as [?|?]; auto.
Qed.

Lemma step_acts W D K l x : line_ok W D K l → step_fine x → is_Some (Stream.poll_ack (stream (fwd l))) → (∀ i, input_of x = Some i → Ends.accepts (stream (fwd l)) i) →
  ∃ ok l' out, step l x = Some (ok, l', out) ∧ (is_Some (input_of x) → ok = true) ∧ acted W D K l l' x out.
Proof.
  intros H Hf Hp Ha.
  assert (∀ l', line_ok W D K l' → stream (fwd l') = stream (fwd l) → ∃ ok l'' out, Some (true, l', []) = Some (ok, l'', out) ∧ (is_Some (input_of x) → ok = true) ∧ acted W D K l l'' x out) as Hquiet.
  { intros l' H' E. eexists _, _, _. split; [done|]. split; [done|]. by apply acted_quiet. }
  assert (∀ y, ∃ ok l'' out, Some (true, reader_step l y, []) = Some (ok, l'', out) ∧ (is_Some (input_of x) → ok = true) ∧ acted W D K l l'' x out) as Hread.
  { intros y. destruct (reader_ok W D K l y H) as (? & ? & _). by apply Hquiet. }
  destruct x as [| |chunk| |failed| |k| | |now|s b|a now|ans now budget front cut]; cbn [step]; [apply Hread..| |apply Hread| | | | |].
  - destruct (link (fwd l)) as [s|] eqn:El; [|by apply Hquiet]. apply Hquiet; [|done]. destruct H as [H0 H1 H2 H3 H5 H6 [H4 H4']]. rewrite El in *. split; cbn; [done|done|by apply sock_step_ok|done|done|done|]. unfold dials in *. cbn. lia.
  - destruct (retired l); apply Hquiet; try done. by apply retired_ok.
  - destruct (posted l) as [|post rest] eqn:Ep; [by apply Hquiet|]. change (retired (l <| posted := rest |>)) with (retired l). destruct (retired l) eqn:Er; [apply Hquiet; [by eapply popped_ok|done]|].
    assert (acted W D K l (retire (l <| posted := rest |>)) (TTake now) []) as HA by (apply acted_quiet; [|done]; exact (popped_ok _ _ _ _ _ _ (retired_ok _ _ _ _ H) Ep eq_refl)).
    assert (∃ ok l'' out, Some (false, retire ((l <| posted := rest |>) <| fwd := fwd l |>), []) = Some (ok, l'', out) ∧ (is_Some (input_of (TTake now)) → ok = true) ∧ acted W D K l l'' (TTake now) out) as Hdrop.
    { eexists _, _, _. split; [done|]. split; [by intros [? ?]|]. by destruct l as [[] ? ? ? ?]. }
    change (fwd (l <| posted := rest |>)) with (fwd l). destruct post as [|chunk|failed|]; cbn [take_post].
    + apply Hquiet; [by apply connected_ok|]. cbn. unfold grant_credit. by destruct (pending _).
    + eexists _, _, _. split; [done|]. split; [done|]. destruct (chunk_absorbed (fwd l) chunk now) as (acts & g & A & B1 & B2 & B3 & B4 & B5 & B6 & B7 & B8 & B9 & _). eapply acted_fed; try done; [by apply Ends.inner_own|]. intros Hin. by destruct (Ends.inner_finish _ B2).
    + destruct failed; [by apply Hdrop|]. eexists _, _, _. split; [done|]. split; [done|]. destruct (finish_spec (fwd l) now) as (acts & g & A & B1 & B2 & B3 & B4 & B5 & B6 & B7 & B8 & B9 & B10). destruct (lo_eof _ _ _ _ H [] false rest Ep) as [-> Er']. eapply acted_fed; try done; [by rewrite app_nil_r..|auto].
    + by apply Hdrop.
  - destruct (retired l) eqn:Er; [by apply Hquiet|]. destruct (Ha _ eq_refl) as [[st g] Hacc]. pose proof Hacc as Hacc'. cbn [Ends.act_step] in Hacc'. destruct (Stream.on_data (stream (fwd l)) (off s) (fin s) b) as [[] st'] eqn:Ed; [|done].
    injection Hacc' as -> _. eexists _, _, _. split; [done|]. split; [done|]. by eapply acted_input.
  - destruct (retired l) eqn:Er; [by apply Hquiet|]. destruct (Ha _ eq_refl) as [[st g] Hacc]. pose proof Hacc as Hacc'. cbn [Ends.act_step] in Hacc'. destruct (Stream.on_ack (stream (fwd l)) _ _ _ now) as [[] st'] eqn:Ed; [|done].
    injection Hacc' as -> _. eexists _, _, _. split; [done|]. split; [done|]. by eapply acted_input.
  - destruct (retired l) eqn:Er; [by apply Hquiet|]. destruct (pump_spec (fwd l) ans now budget front cut Hf Hp) as (alive & f & io & -> & P); [intros s El; pose proof (lo_sock _ _ _ _ H) as H2; rewrite El in H2; apply H2|]. cbn [mbind option_bind]. eexists _, _, _.
    split; [done|]. split; [by intros [? ?]|]. destruct P as (acts & g & A & B1 & B2 & B3 & B4 & B5 & B6 & B7 & B8).
    assert (acted W D K l (l <| fwd := f |>) (TPump ans now budget front cut) (Ends.sent io)) as HA by (by eapply acted_pump). destruct (alive && negb (is_done f)); [done|by apply acted_retire].
Qed.

Lemma reader_grows l x : got l `prefix_of` got (reader_step l x).
Proof. unfold reader_step. destruct x, (reader l); try done; repeat case_match; try done. cbn. by apply prefix_app_r. Qed.
Lemma step_grows l x ok l' out : step l x = Some (ok, l', out) → got l `prefix_of` got l'.
Proof.
  intros H. pose proof (reader_grows l x) as Hr. destruct x as [| |chunk| |failed| |k| | |now|s b|a now|ans now budget front cut]; cbn [step] in H; try (by injection H as <- <- <-); try (injection H as <- <- <-; by repeat case_match).
  - destruct (posted l) as [|p rest]; [by injection H as <- <- <-|]. change (retired (l <| posted := rest |>)) with (retired l) in H. destruct (retired l); [by injection H as <- <- <-|]. destruct (take_post _ p now) as [[] f]; by injection H as <- <- <-.
  - destruct (retired l); [by injection H as <- <- <-|]. destruct (Stream.on_data _ _ _ b) as [[] st]; by injection H as <- <- <-.
  - destruct (retired l); [by injection H as <- <- <-|]. destruct (Stream.on_ack _ _ _ _ now) as [[] st]; by injection H as <- <- <-.
  - destruct (retired l); [by injection H as <- <- <-|]. destruct (pump _ _ now budget front cut) as [[[alive f] io]|]; [|done]. cbn [mbind option_bind] in H. destruct (alive && _); by injection H as <- <- <-.
Qed.

#[export] Instance line_end_laws : Ends.SocketEndLaws Line Step.
Proof.
  refine {| Ends.ties := line_ok |}.
  - split_and!; [done|done|]. split; cbn; try done. intros pre b post E. by destruct pre.
  - intros W D K l x H Hf _ Hp Ha. destruct (step_acts W D K l x H Hf Hp Ha) as (ok & l' & out & E & Hin & Hacts). exists ok, l', out. by split_and!.
  - intros W D K l H. apply H.
  - intros W D K l [_ _ H _ _ _ _]. cbn. unfold went. destruct (link (fwd l)); [by apply sock_wrote|]. subst D. done.
  - intros W D K l H He. by destruct (lo_fin _ _ _ _ H He).
  - exact step_grows.
Defined.

(** ** A forward that was dropped *)

Definition dropped (l : Line) : Prop := retired l = true ∧ ∀ s, link (fwd l) = Some s → down s = true.

Lemma sock_down s x : down s = true → down (sock_step s x) = true ∧ wrote (sock_step s x) = wrote s.
Proof. intros Hd. unfold sock_step. destruct x, (doing s); try done; [|by rewrite Hd]. by destruct (turn (buffer s)). Qed.

(** Nothing reaches the socket of a forward once it was dropped. *)
Lemma dropped_writes_nothing l x ok l' out : dropped l → step l x = Some (ok, l', out) → dropped l' ∧ went l' = went l.
Proof.
  intros [Hr Hd] H. assert (∀ y, dropped (reader_step l y) ∧ went (reader_step l y) = went l) as Hread.
  { intros y. unfold reader_step, dropped, went. destruct y, (reader l); try done; [by destruct (credit_take _ _) as [[]|]|by destruct (_ && _)]. }
  specialize (Hread x). destruct x; cbn [step] in H; rewrite ?Hr in H; try (injection H as <- <- <-; exact Hread || done).
  - injection H as <- <- <-. unfold dropped, went in *. destruct (link (fwd l)) as [s|] eqn:E; [|done]. destruct (sock_down s x (Hd s eq_refl)) as [E1 E2]. cbn. split; [|done]. split; [done|]. by intros ? [= <-].
  - destruct (posted l); [by injection H as <- <- <-|]. change (retired (l <| posted := l0 |>)) with (retired l) in H. rewrite Hr in H. by injection H as <- <- <-.
Qed.

End Forwarding.
