(* ===== verification/LocalForward.v ===== *)
(** * A forwarded connection at the client ([crates/client/src/forward.rs], one entry of the table)

    The client's end of a tunnel: a stream, a local socket with a thread that writes it and a thread
    that reads it, and the turn the pump takes over it.  Unlike the daemon's, its reader hands what
    it read to the stream itself, a piece at a time as the stream has room, and nothing is held
    between them; its credit is the room itself and not a sum to spend; and its socket is shut only
    once every byte before the end is in the writer's hands. *)

From S2P Require Import Prelude Timer Send Recv Stream Codec Fields Ends.

Module LocalForward.
Import(hints) Stream.
#[local] Arguments sum_by : simpl never.

Definition LOCAL_BACKLOG : Z := 64 * 1024.

(** ** Into the socket *)

Record WriteBuffer := mkBuffer { bytes : list Z; ended : bool; closed : bool; failed : bool }.
#[export] Instance WriteBuffer_settable : Settable WriteBuffer := λ b, mkBuffer (bytes b) (ended b) (closed b) (failed b).
Definition new_buffer : WriteBuffer := {| bytes := []; ended := false; closed := false; failed := false |}.

Definition write (b : WriteBuffer) (input : list Z) : Z * WriteBuffer :=
  match input with
  | [] => (0, b)
  | _ =>
      if closed b || failed b then (0, b)
      else
        let take_ := Z.min (sat_sub LOCAL_BACKLOG (len (bytes b))) (len input) in
        if take_ =? 0 then (0, b) else (take_, b <| bytes := bytes b ++ take (Z.to_nat take_) input |>)
  end.
Definition finish (b : WriteBuffer) : WriteBuffer := b <| ended := true |>.
Definition close (b : WriteBuffer) : WriteBuffer := b <| closed := true |>.
Definition drained (b : WriteBuffer) : bool := bool_decide (bytes b = []).

(** [write_loop]: at its head, or with the rest of a batch to write, or about to shut the write side,
    or gone. *)
Inductive Doing := Top | Writing (rest : list Z) | Ending | Gone.
Definition turn (b : WriteBuffer) : WriteBuffer * Doing :=
  match bytes b with
  | [] => (b, if closed b then Gone else if ended b then Ending else Top)
  | batch => (b <| bytes := [] |>, Writing batch)
  end.

(** The socket: what it was written, that its write side is closed, that both are. *)
Record Sock := mkSock { buffer : WriteBuffer; doing : Doing; wrote : list Z; shut : bool; down : bool }.
#[export] Instance Sock_settable : Settable Sock := λ s, mkSock (buffer s) (doing s) (wrote s) (shut s) (down s).
Definition sock_new : Sock := {| buffer := new_buffer; doing := Top; wrote := []; shut := false; down := false |}.
Inductive SockStep := KTurn | KWrote (n : nat) | KBroken | KShut.
Definition broken (s : Sock) : Sock := s <| buffer := (buffer s) <| failed := true |> |> <| doing := Gone |>.
Definition write_loop (s : Sock) (x : SockStep) : Sock :=
  match x, doing s with
  | KTurn, Top => let '(b, d) := turn (buffer s) in s <| buffer := b |> <| doing := d |>
  | KWrote n, Writing rest =>
      if down s || bool_decide (n = 0%nat) then broken s
      else s <| doing := match drop n rest with [] => Top | more => Writing more end |> <| wrote := wrote s ++ take n rest |>
  | KBroken, Writing _ => broken s
  | KShut, Ending => s <| doing := Gone |> <| shut := true |>
  | _, _ => s
  end.

(** ** Out of the socket *)

Record Credit := mkCredit { allowed : Z; credit_closed : bool }.
#[export] Instance Credit_settable : Settable Credit := λ c, mkCredit (allowed c) (credit_closed c).
Definition credit_new : Credit := {| allowed := 0; credit_closed := false |}.
(** [None]: the reader waits. *)
Definition credit_take (c : Credit) (most : Z) : option Z :=
  if allowed c =? 0 then if credit_closed c then Some 0 else None
  else Some (if credit_closed c then 0 else Z.min (allowed c) most).
Definition grant (c : Credit) (n : Z) : Credit := c <| allowed := n |>.
Definition credit_close (c : Credit) : Credit := c <| credit_closed := true |>.

(** ** One connection *)

Record Conn := mkConn { stream : Stream.Stream; socket : Sock; credit : Credit }.
#[export] Instance Conn_settable : Settable Conn := λ c, mkConn (stream c) (socket c) (credit c).
Definition conn_new : Conn := {| stream := Stream.new; socket := sock_new; credit := credit_new |}.
(** [Drop for Conn] *)
Definition drop_conn (c : Conn) : Conn :=
  c <| socket := (socket c) <| buffer := close (buffer (socket c)) |> <| down := true |> |> <| credit := credit_close (credit c) |>.

(** *** A turn of the pump over it *)

(** Its socket failed; it is over; or it stays, with what its clock says. *)
Inductive Fate := Failed | Done | Kept (deadline : option Duration).

(** The bytes that are readable, to the writer; [cut] is where the receive buffer is cut in two. *)
Definition hand_over (c : Conn) (cut : nat) : Conn :=
  let front := take cut (Stream.readable (stream c)) in
  let back := drop cut (Stream.readable (stream c)) in
  let '(moved, b) := write (buffer (socket c)) front in
  let '(moved, b) := if moved =? len front then let '(more, b) := write b back in (moved + more, b) else (moved, b) in
  c <| stream := Stream.consume (stream c) moved |> <| socket := (socket c) <| buffer := b |> |>.
(** The end, and the reader's room. *)
Definition refill (c : Conn) : Conn :=
  let c := if Stream.peer_finished (stream c) && bool_decide (Stream.readable (stream c) = []) then c <| socket := (socket c) <| buffer := finish (buffer (socket c)) |> |> else c in
  c <| credit := grant (credit c) (Stream.writable (stream c)) |>.
(** Its acknowledgement, unless the sink has refused a frame, then its segments.  [None]: [poll_ack]
    panicked. *)
Definition send (st : Stream.Stream) (refused : bool) (io : Ends.Io) (now : Instant) (budget : Z) (front : nat) : option (Stream.Stream * bool * Ends.Io) :=
  if refused then Some (st, true, io)
  else
    '(a, st) ← Stream.poll_ack st;
    let '(refused, io) := match a with Some a => let '(ok, io) := Ends.offer io (Ends.OAck a) in (negb ok, io) | None => (false, io) end in
    if refused then Some (st, true, io)
    else let '(refused, st, io) := Ends.transmit (Ends.answers io) st (Ends.sent io) now budget front in Some (st, refused, io).
Definition pump (c : Conn) (refused : bool) (io : Ends.Io) (now : Instant) (budget : option Z) (front cut : nat) : option (Fate * Conn * bool * Ends.Io) :=
  let c := hand_over c cut in
  if failed (buffer (socket c)) then Some (Failed, c, refused, io)
  else
    let c := refill c in
    '(st, refused, io) ← match budget with Some budget => send (stream c) refused io now budget front | None => Some (stream c, refused, io) end;
    let c := c <| stream := st |> in
    Some (if Stream.is_done st && drained (buffer (socket c)) then Done else Kept (if budget is Some _ then Stream.deadline st now else None), c, refused, io).

(** *** Its threads *)

(** [read_loop]: what is read and not yet in the stream is in the reader's hands.  [Granting room]
    has yet to say what the stream reported. *)
Inductive Reader :=
| Wanting | Reading (want : Z) | Moving (rest : list Z) | Granting (room : Z) (rest : list Z) | Waiting (rest : list Z) | AtEnd | AtFailure | Left.

(** [live]: it is in the table; [got]: what its socket produced. *)
Record Line := mkLine { conn : Conn; live : bool; reader : Reader; got : list Z }.
#[export] Instance Line_settable : Settable Line := λ l, mkLine (conn l) (live l) (reader l) (got l).
Definition line_new : Line := {| conn := conn_new; live := true; reader := Wanting; got := [] |}.
Definition drop_line (l : Line) : Line := l <| conn := drop_conn (conn l) |> <| live := false |>.

Inductive Step :=
| RWant | RRead (chunk : list Z) | RInterrupted | REnd | RBroken | RGrant | RResume
| RIngest (now : Instant) | RLocalEnd | RLocalFailed
| TSock (x : SockStep) | TReset
| TData (s : Segment) (payload : list Z) | TAck (a : Recv.Ack) (now : Instant)
| TPump (refused : bool) (answers : list bool) (now : Instant) (budget : option Z) (front cut : nat).

(** [read_loop] between its calls into the table. *)
Definition read_loop (l : Line) (x : Step) : Line :=
  match x, reader l with
  | RWant, Wanting => match credit_take (credit (conn l)) Send.MAX_FORWARD_CHUNK with None => l | Some n => l <| reader := if n =? 0 then Left else Reading n |> end
  | RRead chunk, Reading want => if (0 <? len chunk) && (len chunk <=? want) then l <| reader := Moving chunk |> <| got := got l ++ chunk |> else l
  | RInterrupted, Reading _ => l <| reader := Wanting |>
  | REnd, Reading _ => l <| reader := AtEnd |>
  | RBroken, Reading _ => l <| reader := AtFailure |>
  | RGrant, Granting room rest => l <| conn := (conn l) <| credit := grant (credit (conn l)) room |> |> <| reader := match rest with [] => Wanting | _ => Waiting rest end |>
  | RResume, Waiting rest => match credit_take (credit (conn l)) (len rest) with None => l | Some n => l <| reader := if n =? 0 then Left else Moving rest |> end
  | _, _ => l
  end.
(** [ingest] *)
Definition ingest (l : Line) (rest : list Z) (now : Instant) : Line :=
  if live l then
    let '(taken, st) := Stream.write (stream (conn l)) rest now in
    l <| conn := (conn l) <| stream := st |> |> <| reader := Granting (Stream.writable st) (drop (Z.to_nat taken) rest) |>
  else l <| reader := Left |>.
(** [local_end] *)
Definition local_end (l : Line) : Line :=
  (if live l then l <| conn := (conn l) <| stream := Stream.finish (stream (conn l)) |> |> else l) <| reader := Left |>.

(** [None]: a panic.  [false]: the connection is given up, with a reset for the daemon; a daemon that
    acknowledges what was never sent is sent one, and the connection stays. *)
Definition step (l : Line) (x : Step) : option (bool * Line * list Ends.Output) :=
  match x with
  | RWant | RRead _ | RInterrupted | REnd | RBroken | RGrant | RResume => Some (true, read_loop l x, [])
  | RIngest now => Some (true, match reader l with Moving rest => ingest l rest now | _ => l end, [])
  | RLocalEnd => Some (true, match reader l with AtEnd => local_end l | _ => l end, [])
  | RLocalFailed => Some (match reader l with
                          | AtFailure => (negb (live l), (if live l then drop_line l else l) <| reader := Left |>, [])
                          | _ => (true, l, [])
                          end)
  | TSock x => Some (true, l <| conn := (conn l) <| socket := write_loop (socket (conn l)) x |> |>, [])
  | TReset => Some (true, if live l then drop_line l else l, [])
  | TData s payload =>
      if live l then
        let '(r, st) := Stream.on_data (stream (conn l)) (off s) (fin s) payload in
        let l := l <| conn := (conn l) <| stream := st |> |> in
        Some match r with Ok _ => (true, l, []) | Err _ => (false, drop_line l, []) end
      else Some (true, l, [])
  | TAck a now =>
      if live l then
        let '(r, st) := Stream.on_ack (stream (conn l)) (Recv.ack_off a) (Recv.ack_window a) (Recv.ack_held a) now in
        Some (match r with Ok _ => true | Err _ => false end, l <| conn := (conn l) <| stream := st |> |>, [])
      else Some (true, l, [])
  | TPump refused answers now budget front cut =>
      if live l then
        '(fate, c, _, io) ← pump (conn l) refused (Ends.mkIo answers []) now budget front cut;
        let l := l <| conn := c |> in
        Some match fate with
             | Failed => (false, drop_line l, Ends.sent io)
             | Done => (true, drop_line l, Ends.sent io)
             | Kept _ => (true, l, Ends.sent io)
             end
      else Some (true, l, [])
  end.

(** ** What is kept *)

Definition held (d : Doing) : list Z := match d with Writing rest => rest | _ => [] end.

(** [D] was moved into the socket's buffer.  Its write side is shut over nothing. *)
Record sock_ok (D : list Z) (s : Sock) : Prop := {
  sk_order : failed (buffer s) = false → D = wrote s ++ held (doing s) ++ bytes (buffer s);
  sk_broken : failed (buffer s) = true → wrote s `prefix_of` D ∧ doing s = Gone;
  sk_room : len (bytes (buffer s)) ≤ LOCAL_BACKLOG ∧ len (held (doing s)) ≤ LOCAL_BACKLOG;
  sk_end : doing s = Ending ∨ shut s = true → ended (buffer s) = true ∧ bytes (buffer s) = [] ∧ failed (buffer s) = false ∧ (doing s = Ending ∨ doing s = Gone)
}.

Lemma local_sock_new_ok : sock_ok [] sock_new.
Proof. split; try done. by intros [?|?]. Qed.
Lemma local_sock_wrote D s : sock_ok D s → wrote s `prefix_of` D.
Proof. intros [H1 H2 _ _]. destruct (failed (buffer s)); [by apply H2|]. rewrite (H1 eq_refl). by apply prefix_app_r. Qed.
Lemma local_broken_ok D s rest : sock_ok D s → doing s = Writing rest → sock_ok D (broken s).
Proof.
  intros H Ed. pose proof H as [H1 H2 H3 H4]. rewrite Ed in *. split; cbn; [done|intros _; split; [by apply local_sock_wrote|done]|split; [lia|unfold LOCAL_BACKLOG; lia]|].
  intros [?|?]; [done|]. destruct H4 as (_ & _ & _ & [?|?]); [by right|done..].
Qed.
Lemma local_drop_sock_ok D s : sock_ok D s → sock_ok D (s <| buffer := close (buffer s) |> <| down := true |>).
Proof. by intros [H1 H2 H3 H4]. Qed.

Lemma write_loop_ok D s x : sock_ok D s → sock_ok D (write_loop s x).
Proof.
  intros H. pose proof H as [H1 H2 [H3 H3'] H4]. destruct x as [|n| |]; unfold write_loop; destruct (doing s) as [|batch| |] eqn:Ed; try exact H.
  - assert (shut s = false) as Es by (destruct (shut s); [|done]; destruct H4 as (_ & _ & _ & [?|?]); [by right|done..]).
    unfold turn. destruct (bytes (buffer s)) as [|b bs] eqn:Eb.
    + split; cbn; rewrite ?Eb; [intros Hf; rewrite (H1 Hf); by destruct (closed (buffer s)), (ended (buffer s))|intros Hf; by destruct (H2 Hf)|destruct (closed (buffer s)), (ended (buffer s)); cbn; unfold LOCAL_BACKLOG; lia|].
      rewrite Es. intros [Hd|?]; [|done]. destruct (closed (buffer s)); [done|]. destruct (ended (buffer s)) eqn:Ee; [|done]. split_and!; try done; [|by left]. destruct (failed (buffer s)); [by destruct (H2 eq_refl)|done].
    + split; cbn; [intros Hf; rewrite (H1 Hf); cbn; by rewrite app_nil_r|intros Hf; by destruct (H2 Hf)|cbn in *; unfold LOCAL_BACKLOG in *; lia|]. rewrite Es. by intros [?|?].
  - destruct (_ || _); [by eapply local_broken_ok|]. assert (shut s = false) as Es by (destruct (shut s); [|done]; destruct H4 as (_ & _ & _ & [?|?]); [by right|done..]).
    assert (held (match drop n batch with [] => Top | more => Writing more end) = drop n batch) as Eh by (by destruct (drop n batch)).
    split; cbn; rewrite ?Eh; [intros Hf; rewrite (H1 Hf); cbn; by rewrite <- app_assoc, (app_assoc (take n batch)), take_drop|intros Hf; by destruct (H2 Hf)|rewrite length_drop; cbn in H3'; lia|].
    rewrite Es. intros [?|?]; [by destruct (drop n batch)|done].
  - by eapply local_broken_ok.
  - destruct H4 as (E1 & E2 & E3 & _); [by left|]. split; cbn; try done; [congruence|]. intros _. split_and!; try done. by right.
Qed.

Lemma write_loop_ended s x : ended (buffer (write_loop s x)) = ended (buffer s).
Proof.
  unfold write_loop. destruct x as [|n| |], (doing s); try done.
  - unfold turn. by destruct (bytes (buffer s)) eqn:E.
  - by destruct (_ || _).
Qed.

(** A socket whose write side is shut was written everything that was moved towards it. *)
Lemma shut_whole D s : sock_ok D s → shut s = true → wrote s = D ∧ ended (buffer s) = true.
Proof. intros [H1 _ _ H4] Es. destruct H4 as (E1 & E2 & E3 & E4); [by right|]. split; [|done]. rewrite (H1 E3), E2. destruct E4 as [->| ->]; cbn; by rewrite !app_nil_r. Qed.

Lemma local_write_spec b input : let '(n, b') := write b input in
  0 ≤ n ≤ len input ∧ bytes b' = bytes b ++ take (Z.to_nat n) input ∧ ended b' = ended b ∧ failed b' = failed b ∧ (failed b = true → n = 0) ∧ (len (bytes b) ≤ LOCAL_BACKLOG → len (bytes b') ≤ LOCAL_BACKLOG).
Proof.
  unfold write. destruct input as [|z input]; [cbn; rewrite app_nil_r; split_and!; done || lia|]. destruct (_ || _) eqn:Ec; [cbn; rewrite app_nil_r; split_and!; done || lia|]. unfold sat_sub.
  destruct (Z.eqb_spec (Z.min (Z.max 0 (LOCAL_BACKLOG - len (bytes b))) (len (z :: input))) 0) as [E|E]; [cbn; rewrite app_nil_r; split_and!; done || lia|].
  apply orb_false_iff in Ec as [_ Ef]. cbn [bytes ended failed assign]. split_and!; try done; try lia; [|intros _]; cbn -[length]; [congruence|]. rewrite length_app, length_take. lia.
Qed.

(** The two writes are one, wherever the buffer is cut. *)
Lemma hand_over_spec c cut : ∃ n b, 0 ≤ n ≤ len (Stream.readable (stream c)) ∧ bytes b = bytes (buffer (socket c)) ++ take (Z.to_nat n) (Stream.readable (stream c)) ∧
  ended b = ended (buffer (socket c)) ∧ failed b = failed (buffer (socket c)) ∧ (failed b = true → n = 0) ∧ (len (bytes (buffer (socket c))) ≤ LOCAL_BACKLOG → len (bytes b) ≤ LOCAL_BACKLOG) ∧
  hand_over c cut = c <| stream := Stream.consume (stream c) n |> <| socket := (socket c) <| buffer := b |> |>.
Proof.
  unfold hand_over. set (ready := Stream.readable (stream c)). set (b0 := buffer (socket c)). pose proof (local_write_spec b0 (take cut ready)) as H1.
  destruct (write b0 (take cut ready)) as [n1 b1]. destruct H1 as (N1 & B1 & E1 & F1 & Z1 & R1). rewrite length_take in N1.
  destruct (Z.eqb_spec n1 (len (take cut ready))) as [E|E].
  - pose proof (local_write_spec b1 (drop cut ready)) as H2. destruct (write b1 (drop cut ready)) as [n2 b2]. destruct H2 as (N2 & B2 & E2 & F2 & Z2 & R2). rewrite length_drop in N2. rewrite length_take in E.
    exists (n1 + n2), b2. split_and!; try done; [lia|lia| |congruence|congruence| |intros; apply R2, R1; lia].
    + rewrite B2, B1, <- app_assoc. f_equal. rewrite take_take. destruct (Nat.le_gt_cases cut (length ready)).
      * replace (Z.to_nat n1 `min` cut)%nat with cut by lia. replace (Z.to_nat (n1 + n2)) with (cut + Z.to_nat n2)%nat by lia. by rewrite take_take_drop.
      * rewrite (drop_ge ready) by lia. rewrite take_nil, app_nil_r, !take_ge by lia. done.
    + intros Hf. rewrite Z1, Z2 by congruence. done.
  - exists n1, b1. split_and!; try done; [lia|lia| |intros; apply Z1; congruence]. rewrite B1. f_equal. rewrite take_take. f_equal. lia.
Qed.

Lemma local_send_spec st refused ans now budget front : 0 ≤ budget → is_Some (Stream.poll_ack st) →
  ∃ st' refused' io l g, send st refused (Ends.mkIo ans []) now budget front = Some (st', refused', io) ∧ Ends.acts st l = Some (st', g) ∧ Forall Ends.act_fine l ∧ Forall Ends.inner l ∧ sum_by Ends.act_offers l = 0 ∧
    Ends.fed g = [] ∧ Ends.moved g = [] ∧ Forall (λ o, match o with Ends.OData s b => (s, b) ∈ Ends.segments g | Ends.OAck a => a ∈ Ends.polled g end) (Ends.sent io).
Proof.
  intros Hb [[o st0] Hp]. unfold send. destruct refused; [eexists _, _, _, [], Ends.no_log; split_and!; done || constructor|]. rewrite Hp. cbn [mbind option_bind].
  set (g0 := Ends.mkLog [] [] [] (match o with Some ack => [ack] | None => [] end)). assert (Ends.acts st [Ends.APollAck] = Some (st0, g0)) as A0 by (cbn [Ends.acts Ends.act_step]; rewrite Hp; cbn [mbind option_bind]; unfold g0; by destruct o).
  set (rio := match o with Some a => let '(ok, io) := Ends.offer (Ends.mkIo ans []) (Ends.OAck a) in (negb ok, io) | None => (false, Ends.mkIo ans []) end).
  assert (∃ r1 io1, rio = (r1, io1) ∧ Forall (λ x, ∃ a, x = Ends.OAck a ∧ a ∈ Ends.polled g0) (Ends.sent io1)) as (r1 & io1 & -> & P).
  { unfold rio, g0. destruct o as [a|]; [|by eexists _, _]. unfold Ends.offer. cbn [Ends.answers Ends.sent app]. destruct ans as [|[] ans]; eexists _, _; split; try done; [|constructor..]. repeat constructor. exists a. split; [done|by left]. }
  destruct r1.
  - eexists _, _, _, _, _. split; [done|]. split; [exact A0|]. split_and!; try done; [by repeat constructor..|]. eapply Forall_impl; [exact P|]. by intros x (a & -> & Ha).
  - pose proof (Ends.transmit_spec (Ends.answers io1) st0 (Ends.sent io1) now budget front Hb) as T. destruct (Ends.transmit _ st0 _ now budget front) as [[r2 st2] io2]. destruct T as (l1 & g1 & T1 & T2 & T3 & T4 & T5 & T6 & T7 & T8).
    eexists _, _, _, _, _. split; [done|]. split; [exact (Ends.acts_app _ _ _ _ _ _ _ A0 T1)|]. split_and!; [by apply Forall_app_2; [repeat constructor|]|by apply Forall_app_2; [repeat constructor|]|by rewrite sum_by_app, T4|by cbn; rewrite T5|by cbn; rewrite T6|].
    rewrite T8. apply Forall_app. split; [eapply Forall_impl; [exact P|]; intros x (a & -> & Ha); cbn; apply elem_of_app; by left|]. apply Forall_fmap, Forall_forall. by intros [s b] Hx.
Qed.

Lemma consume_polls st n : 0 ≤ n → is_Some (Ends.acts st [Ends.AConsume n; Ends.APollAck]) → is_Some (Stream.poll_ack (Stream.consume st n)).
Proof. intros Hn [[st' g] H]. cbn [Ends.acts Ends.act_step] in H. cbn [mbind option_bind] in H. destruct (Stream.poll_ack (Stream.consume st n)) as [[o st1]|]; [by eexists|done]. Qed.

Lemma local_pump_spec c refused ans now budget front cut : (∀ b, budget = Some b → 0 ≤ b) → Ends.settled (stream c) → (∀ n, 0 ≤ n → is_Some (Ends.acts (stream c) [Ends.AConsume n; Ends.APollAck])) →
  ∃ fate c' refused' io l g b, pump c refused (Ends.mkIo ans []) now budget front cut = Some (fate, c', refused', io) ∧
    Ends.acts (stream c) l = Some (stream c', g) ∧ Forall Ends.act_fine l ∧ Forall Ends.inner l ∧ sum_by Ends.act_offers l = 0 ∧ Ends.fed g = [] ∧
    socket c' = (socket c) <| buffer := b |> ∧ bytes b = bytes (buffer (socket c)) ++ Ends.moved g ∧ failed b = failed (buffer (socket c)) ∧ (failed b = true → Ends.moved g = []) ∧
    (len (bytes (buffer (socket c))) ≤ LOCAL_BACKLOG → len (bytes b) ≤ LOCAL_BACKLOG) ∧
    (ended b = true → ended (buffer (socket c)) = true ∨ Stream.peer_finished (stream c') = true ∧ Stream.readable (stream c') = []) ∧
    (ended (buffer (socket c)) = true → ended b = true) ∧
    Forall (λ o, match o with Ends.OData s b => (s, b) ∈ Ends.segments g | Ends.OAck a => a ∈ Ends.polled g end) (Ends.sent io).
Proof.
  intros Hb Hs Hp. unfold pump. destruct (hand_over_spec c cut) as (n & b & N1 & N2 & N3 & N4 & N5 & N6 & ->).
  set (g0 := Ends.mkLog [] (take (Z.to_nat n) (Stream.readable (stream c))) [] []).
  assert (Ends.acts (stream c) [Ends.AConsume n] = Some (Stream.consume (stream c) n, Ends.log_app g0 Ends.no_log)) as A0 by (cbn [Ends.acts Ends.act_step]; by rewrite Z.min_l by lia).
  assert (Ends.log_app g0 Ends.no_log = g0) as Eg by (unfold g0, Ends.log_app; cbn; by rewrite !app_nil_r). rewrite Eg in A0.
  cbn zeta. change (failed (buffer (socket (c <| stream := Stream.consume (stream c) n |> <| socket := (socket c) <| buffer := b |> |>)))) with (failed b). destruct (failed b) eqn:Ef.
  { eexists _, _, _, _, [Ends.AConsume n], g0, b. split; [done|]. split; [exact A0|]. split_and!; try done; [by constructor; [cbn; lia|]|by constructor|congruence|intros _; cbn; by rewrite N5|rewrite N3; by left|by rewrite N3]. }
  set (c1 := c <| stream := Stream.consume (stream c) n |> <| socket := (socket c) <| buffer := b |> |>). set (b1 := if Stream.peer_finished (stream c1) && bool_decide (Stream.readable (stream c1) = []) then finish b else b).
  assert (stream (refill c1) = Stream.consume (stream c) n ∧ socket (refill c1) = (socket c) <| buffer := b1 |>) as [R1 R2] by (unfold refill, b1; by destruct (_ && _)).
  assert (bytes b1 = bytes b ∧ failed b1 = failed b ∧ (ended b = true → ended b1 = true) ∧ (ended b1 = true → ended b = true ∨ Stream.peer_finished (Stream.consume (stream c) n) = true ∧ Stream.readable (Stream.consume (stream c) n) = [])) as (S1 & S2 & S3 & S4).
  { unfold b1. change (stream c1) with (Stream.consume (stream c) n). destruct (Stream.peer_finished _ && _) eqn:Eb; [|split_and!; auto]. apply andb_true_iff in Eb as [Eb1 Eb2%bool_decide_eq_true]. split_and!; auto. }
  clearbody b1. assert (∃ st' refused' io l g, match budget with Some budget => send (stream (refill c1)) refused (Ends.mkIo ans []) now budget front | None => Some (stream (refill c1), refused, Ends.mkIo ans []) end = Some (st', refused', io) ∧
    Ends.acts (Stream.consume (stream c) n) l = Some (st', g) ∧ Forall Ends.act_fine l ∧ Forall Ends.inner l ∧ sum_by Ends.act_offers l = 0 ∧ Ends.fed g = [] ∧ Ends.moved g = [] ∧
    Forall (λ o, match o with Ends.OData s b => (s, b) ∈ Ends.segments g | Ends.OAck a => a ∈ Ends.polled g end) (Ends.sent io)) as (st' & refused' & io & l & g & -> & A1 & B1 & B2 & B3 & B4 & B5 & B6).
  { rewrite R1. destruct budget as [budget|]; [apply local_send_spec; [by apply Hb|apply consume_polls; [lia|apply Hp; lia]]|]. eexists _, _, _, [], Ends.no_log. split_and!; done || constructor. }
  cbn [mbind option_bind]. pose proof (Ends.acts_app _ _ _ _ _ _ _ A0 A1) as A2. destruct (Ends.acts_settled _ _ _ _ A0 Hs) as [Hs1 _]. destruct (Ends.acts_settled _ _ _ _ A1 Hs1) as [_ Hs2].
  eexists _, _, _, _, _, _, b1. split; [done|]. split; [exact A2|]. split_and!; [apply Forall_app_2; [by constructor; [cbn; lia|]|done]|apply Forall_app_2; [by constructor|done]|by rewrite sum_by_app, B3|by cbn; rewrite B4|done| |congruence|congruence|by rewrite S1| | |].
  - rewrite S1, N2. cbn. by rewrite B5, app_nil_r.
  - rewrite <- N3. intros He. destruct (S4 He) as [?|[G1 G2]]; [by left|right]. destruct (Hs2 G1) as [G3 G4]. destruct (G4 G2). done.
  - rewrite <- N3. exact S3.
  - eapply Forall_impl; [exact B6|]. by intros [].
Qed.

Lemma local_pump_total c refused io now budget front cut : is_Some (pump c refused io now budget front cut).
Proof.
  unfold pump. destruct (failed _); [by eexists|]. set (st := stream (refill (hand_over c cut))). assert (∀ b, is_Some (send st refused io now b front)) as Hs; [|destruct budget as [b|]; [destruct (Hs b) as [[[st' rf] io'] ->]|]; cbn [mbind option_bind]; by eexists].
  intros b. unfold send, Stream.poll_ack. destruct refused; [by eexists|]. destruct (Recv.poll_ack_total (Stream.recv st)) as [[a v] ->]. cbn [mbind option_bind]. destruct (match a with Some _ => _ | None => _ end) as [rf io1]. destruct rf; [by eexists|]. destruct (Ends.transmit _ _ _ now b front) as [[? ?] ?]. by eexists.
Qed.

(** *** A connection with its threads *)

Definition in_hand (r : Reader) : list Z := match r with Moving rest | Granting _ rest | Waiting rest => rest | _ => [] end.
Definition finishing (l : Line) : Prop := Send.send_fin (Stream.send (stream (conn l))) ≠ None.

Record line_ok (W D : list Z) (K : list Recv.Ack) (l : Line) : Prop := {
  lo_front : W `prefix_of` got l;
  lo_got : live l = true → got l = W ++ in_hand (reader l) ∨ reader l = Left;
  lo_sock : sock_ok D (socket (conn l));
  lo_settled : Ends.settled (stream (conn l));
  lo_ended : ended (buffer (socket (conn l))) = true → Stream.peer_finished (stream (conn l)) = true ∧ Stream.readable (stream (conn l)) = [];
  lo_fin : finishing l → W = got l ∧ reader l = Left
}.

Lemma drop_line_ok W D K l : line_ok W D K l → line_ok W D K (drop_line l).
Proof. intros [H1 H2 H3 H4 H5 H6]. split; cbn; try done. by apply local_drop_sock_ok. Qed.

Definition input_of (x : Step) : option Ends.Input := match x with TData s b => Some (Ends.IData s b) | TAck a now => Some (Ends.IAck a now) | _ => None end.
Definition step_fine (x : Step) : Prop := match x with TPump _ _ _ (Some budget) _ _ => 0 ≤ budget | _ => True end.
Definition went (l : Line) : list Z := wrote (socket (conn l)).

#[export] Instance line_end : Ends.SocketEnd Line Step :=
  {| Ends.stream_of l := stream (conn l); Ends.came := got; Ends.went := went; Ends.new_end := line_new; Ends.step_fine := step_fine; Ends.input_of := input_of; Ends.end_step := step |}.

Lemma read_loop_ok W D K l x : line_ok W D K l → let l' := read_loop l x in line_ok W D K l' ∧ stream (conn l') = stream (conn l).
Proof.
  intros H. pose proof H as [H1 H2 H3 H4 H5 H6]. assert (line_ok W D K l ∧ stream (conn l) = stream (conn l)) as Hsame by done.
  assert (∀ r, in_hand r = in_hand (reader l) ∨ r = Left → reader l ≠ Left → line_ok W D K (l <| reader := r |>) ∧ stream (conn (l <| reader := r |>)) = stream (conn l)) as Hgo.
  { intros r Hr Hne. split; [|done]. split; cbn; try done; [|intros He; by destruct (H6 He)]. intros Hl. destruct Hr as [->| ->]; [left|by right]. by destruct (H2 Hl). }
  destruct x; unfold read_loop; destruct (reader l) eqn:Er; try exact Hsame.
  - destruct (credit_take _ _) as [n|]; [|exact Hsame]. apply Hgo; [|done]. by destruct (n =? 0); [right|left].
  - destruct (_ && _); [|exact Hsame]. split; [|done]. split; cbn; try done; [by apply prefix_app_r| |intros He; by destruct (H6 He)]. intros Hl. left. destruct (H2 Hl) as [E|?]; [|done]. by rewrite E, app_nil_r.
  - apply Hgo; [by left|done].
  - apply Hgo; [by left|done].
  - apply Hgo; [by left|done].
  - split; [|done]. split; cbn; try done; [|intros He; by destruct (H6 He)]. intros Hl. left. destruct (H2 Hl) as [E|?]; [|done]. rewrite E. by destruct rest.
  - destruct (credit_take _ _) as [n|]; [|exact Hsame]. apply Hgo; [|done]. by destruct (n =? 0); [right|left].
Qed.

(** A step does to the stream what [acts] says. *)
Definition acted (W D : list Z) (K : list Recv.Ack) (l l' : Line) (x : Step) (out : list Ends.Output) : Prop :=
  ∃ acts g, Ends.acts (stream (conn l)) acts = Some (stream (conn l'), g) ∧ Forall Ends.act_fine acts ∧ Forall (λ a, match a with Ends.AInput i => input_of x = Some i | _ => True end) acts ∧
    len W + sum_by Ends.act_offers acts ≤ len (got l') ∧ line_ok (W ++ Ends.fed g) (D ++ Ends.moved g) (K ++ Ends.polled g) l' ∧
    Forall (λ o, match o with Ends.OData s b => (s, b) ∈ Ends.segments g | Ends.OAck a => a ∈ K ++ Ends.polled g end) out.

Lemma local_acted_quiet W D K l l' x : line_ok W D K l' → stream (conn l') = stream (conn l) → acted W D K l l' x [].
Proof.
  intros H E. pose proof (lo_front _ _ _ _ H) as H0. exists [], Ends.no_log. cbn. rewrite E, !app_nil_r. split_and!; try done; try constructor. change (sum_by Ends.act_offers []) with 0. apply prefix_length in H0. lia.
Qed.
Lemma acted_drop W D K l l' x out : acted W D K l l' x out → acted W D K l (drop_line l') x out.
Proof. intros (acts & g & A & B1 & B2 & B3 & B4 & B5). exists acts, g. split_and!; try done. by apply drop_line_ok. Qed.

(** The stream after acts that leave the socket alone. *)
Lemma stream_ok W D K l acts st g : line_ok W D K l → Ends.acts (stream (conn l)) acts = Some (st, g) → Ends.settled st ∧ (ended (buffer (socket (conn l))) = true → Stream.peer_finished st = true ∧ Stream.readable st = [] ∧ Ends.moved g = []).
Proof.
  intros [_ _ _ H4 H5 _] A. destruct (Ends.acts_settled _ _ _ _ A H4) as [S1 S2]. split; [done|]. intros He. destruct (H5 He) as [G1 G2]. destruct (S2 G1) as [G3 G4]. destruct (G4 G2). done.
Qed.

Lemma local_acted_input W D K l x i st g : line_ok W D K l → input_of x = Some i → Ends.act_step (stream (conn l)) (Ends.AInput i) = Some (st, g) → acted W D K l (l <| conn := (conn l) <| stream := st |> |>) x [].
Proof.
  intros H Hi Ha. pose proof H as [H1 H2 H3 H4 H5 H6]. assert (g = Ends.no_log) as ->.
  { destruct i; cbn [Ends.act_step] in Ha; [destruct (Stream.on_data _ _ _ _) as [[] ?]|destruct (Stream.on_ack _ _ _ _ _) as [[] ?]]; [|done| |done]; by injection Ha. }
  assert (Ends.acts (stream (conn l)) [Ends.AInput i] = Some (st, Ends.no_log)) as A by (cbn [Ends.acts]; by rewrite Ha). exists [Ends.AInput i], Ends.no_log. cbn. rewrite !app_nil_r. destruct (stream_ok _ _ _ _ _ _ _ H A) as [S1 S2].
  split_and!; [done|by constructor|by constructor| | |constructor].
  - change (sum_by Ends.act_offers [Ends.AInput i]) with 0. cbn. apply prefix_length in H1. lia.
  - split; cbn; try done; [intros He; by destruct (S2 He) as (? & ? & _)|]. unfold finishing. cbn. by rewrite (Ends.act_fin _ _ _ _ Ha).
Qed.

Lemma acted_ingest W D K l rest now : line_ok W D K l → reader l = Moving rest → acted W D K l (ingest l rest now) (RIngest now) [].
Proof.
  intros H Er. pose proof H as [H1 H2 H3 H4 H5 H6]. unfold ingest. destruct (live l) eqn:El.
  2: { apply local_acted_quiet; [|done]. split; cbn; try done; [congruence|]. intros He. by destruct (H6 He). }
  destruct (Stream.write (stream (conn l)) rest now) as [n st] eqn:Ew. set (g := Ends.mkLog (take (Z.to_nat n) rest) [] [] []).
  assert (Ends.acts (stream (conn l)) [Ends.AWrite rest now] = Some (st, g)) as A by (cbn [Ends.acts Ends.act_step]; rewrite Ew; cbn [mbind option_bind]; unfold Ends.log_app, g; cbn [Ends.fed Ends.moved Ends.segments Ends.polled Ends.no_log]; by rewrite !app_nil_r). destruct (stream_ok _ _ _ _ _ _ _ H A) as [S1 S2].
  exists [Ends.AWrite rest now], g. destruct (H2 eq_refl) as [E|E]; [|congruence]. rewrite Er in E. cbn [in_hand] in E. split_and!; [done|by constructor|by constructor| | |constructor].
  - change (len W + (len rest + 0) ≤ len (got l)). rewrite E, length_app. lia.
  - cbn. rewrite !app_nil_r. split; cbn; try done.
    + rewrite E. apply prefix_app. apply prefix_take.
    + intros _. left. by rewrite E, <- app_assoc, take_drop.
    + intros He. by destruct (S2 He) as (? & ? & _).
    + unfold finishing. cbn. rewrite (Ends.acts_fin _ _ _ _ A) by (by intros [?|?%elem_of_nil]%elem_of_cons). intros He. destruct (H6 He). congruence.
Qed.

Lemma acted_end W D K l : line_ok W D K l → reader l = AtEnd → acted W D K l (local_end l) RLocalEnd [].
Proof.
  intros H Er. pose proof H as [H1 H2 H3 H4 H5 H6]. unfold local_end. destruct (live l) eqn:El.
  2: { apply local_acted_quiet; [|done]. split; cbn; try done; [congruence|]. intros He. by destruct (H6 He). }
  exists [Ends.AFinish], Ends.no_log. destruct (H2 eq_refl) as [E|E]; [|congruence]. rewrite Er in E. cbn [in_hand] in E. rewrite app_nil_r in E. cbn. rewrite !app_nil_r.
  split_and!; [done|by constructor|by constructor| | |constructor].
  - change (sum_by Ends.act_offers [Ends.AFinish]) with 0. rewrite E. lia.
  - split; cbn; try done. by right.
Qed.

Lemma local_acted_pump W D K l x c acts g b out : line_ok W D K l → Ends.acts (stream (conn l)) acts = Some (stream c, g) → Forall Ends.act_fine acts → Forall Ends.inner acts → sum_by Ends.act_offers acts = 0 → Ends.fed g = [] →
  socket c = (socket (conn l)) <| buffer := b |> → bytes b = bytes (buffer (socket (conn l))) ++ Ends.moved g → failed b = failed (buffer (socket (conn l))) → (failed b = true → Ends.moved g = []) →
  (len (bytes (buffer (socket (conn l)))) ≤ LOCAL_BACKLOG → len (bytes b) ≤ LOCAL_BACKLOG) →
  (ended b = true → ended (buffer (socket (conn l))) = true ∨ Stream.peer_finished (stream c) = true ∧ Stream.readable (stream c) = []) →
  (ended (buffer (socket (conn l))) = true → ended b = true) →
  Forall (λ o, match o with Ends.OData s b => (s, b) ∈ Ends.segments g | Ends.OAck a => a ∈ Ends.polled g end) out → acted W D K l (l <| conn := c |>) x out.
Proof.
  intros H A B1 B2 B3 B4 B5 B6 B7 B8 B9 B10 B11 B12. pose proof H as [H1 H2 [K1 K2 [K3 K3'] K4] H4 H5 H6]. destruct (stream_ok _ _ _ _ _ _ _ H A) as [S1 S2].
  exists acts, g. split_and!; [done|done|eapply Forall_impl; [exact (Ends.inner_own _ B2)|]; by intros []| | |].
  - rewrite B3. cbn. apply prefix_length in H1. lia.
  - rewrite B4, app_nil_r. split; cbn; try done.
    + rewrite B5. split; cbn.
      * rewrite B7, B6. intros Hz. by rewrite (K1 Hz), !app_assoc.
      * intros Hz. rewrite (B8 Hz), app_nil_r. apply K2. congruence.
      * split; [by apply B9|done].
      * intros Hd. destruct (K4 Hd) as (G1 & G2 & G3 & G4). destruct (S2 G1) as (_ & _ & Hm). rewrite B6, B7, G2, Hm. split_and!; auto.
    + rewrite B5. cbn. intros He. destruct (B10 He) as [Hx|Hx]; [destruct (S2 Hx) as (? & ? & _)|]; done.
    + unfold finishing. cbn. by rewrite (Ends.acts_fin _ _ _ _ A (Ends.inner_finish _ B2)).
  - eapply Forall_impl; [exact B12|]. intros [s b'|a] Ho; [done|]. apply elem_of_app. by right.
Qed.

Lemma local_step_acts W D K l x : line_ok W D K l → step_fine x → (∀ n, 0 ≤ n → is_Some (Ends.acts (stream (conn l)) [Ends.AConsume n; Ends.APollAck])) → (∀ i, input_of x = Some i → Ends.accepts (stream (conn l)) i) →
  ∃ ok l' out, step l x = Some (ok, l', out) ∧ (is_Some (input_of x) → ok = true) ∧ acted W D K l l' x out.
Proof.
  intros H Hf Hp Ha.
  assert (∀ l', acted W D K l l' x [] → ∃ ok l'' out, Some (true, l', []) = Some (ok, l'', out) ∧ (is_Some (input_of x) → ok = true) ∧ acted W D K l l'' x out) as Hgo by eauto 10.
  assert (acted W D K l l x []) as Hsame by by apply local_acted_quiet.
  assert (∀ y, ∃ ok l'' out, Some (true, read_loop l y, []) = Some (ok, l'', out) ∧ (is_Some (input_of x) → ok = true) ∧ acted W D K l l'' x out) as Hread.
  { intros y. destruct (read_loop_ok W D K l y H). by apply Hgo, local_acted_quiet. }
  destruct x as [|chunk| | | | | |now| | |k| |s b|a now|refused ans now budget front cut]; cbn [step]; [apply Hread..| | | | | | | |].
  - apply Hgo. destruct (reader l) eqn:Er; try done. by apply acted_ingest.
  - apply Hgo. destruct (reader l) eqn:Er; try done. by apply acted_end.
  - destruct (reader l) eqn:Er; try (by apply Hgo). assert (line_ok W D K (if live l then drop_line l else l)) as Hd by (destruct (live l); [by apply drop_line_ok|done]). assert (live (if live l then drop_line l else l) = false) as El by (by destruct (live l) eqn:E).
    eexists _, _, _. split; [done|]. split; [by intros [? ?]|]. apply local_acted_quiet; [|by destruct (live l)]. destruct Hd as [H1 H2 H3 H4 H5 H6]. split; cbn; try done; [congruence|]. intros He. by destruct (H6 He).
  - apply Hgo, local_acted_quiet; [|done]. destruct H as [H1 H2 H3 H4 H5 H6]. split; cbn; try done; [by apply write_loop_ok|]. by rewrite write_loop_ended.
  - apply Hgo. destruct (live l); [by apply acted_drop|done].
  - destruct (live l); [|by apply Hgo]. destruct (Ha _ eq_refl) as [[st g] Hacc]. pose proof Hacc as Hacc'. cbn [Ends.act_step] in Hacc'. destruct (Stream.on_data (stream (conn l)) (off s) (fin s) b) as [[] st'] eqn:Ed; [|done].
    injection Hacc' as -> _. apply Hgo. by eapply local_acted_input.
  - destruct (live l); [|by apply Hgo]. destruct (Ha _ eq_refl) as [[st g] Hacc]. pose proof Hacc as Hacc'. cbn [Ends.act_step] in Hacc'. destruct (Stream.on_ack (stream (conn l)) _ _ _ now) as [[] st'] eqn:Ed; [|done].
    injection Hacc' as -> _. apply Hgo. by eapply local_acted_input.
  - destruct (live l); [|by apply Hgo]. destruct (local_pump_spec (conn l) refused ans now budget front cut) as (fate & c & refused' & io & acts & g & b & -> & A & B1 & B2 & B3 & B4 & B5 & B6 & B7 & B8 & B9 & B10 & B11 & B12).
    + intros b ->. exact Hf.
    + apply H.
    + done.
    + cbn [mbind option_bind]. assert (acted W D K l (l <| conn := c |>) (TPump refused ans now budget front cut) (Ends.sent io)) as HA by (by eapply local_acted_pump).
      destruct fate; (eexists _, _, _; split; [done|]; split; [by intros [? ?]|]); [by apply acted_drop|by apply acted_drop|done].
Qed.

Lemma local_reader_grows l x : got l `prefix_of` got (read_loop l x).
Proof. unfold read_loop. destruct x, (reader l); try done; repeat case_match; try done. cbn. by apply prefix_app_r. Qed.
Lemma local_step_grows l x ok l' out : step l x = Some (ok, l', out) → got l `prefix_of` got l'.
Proof.
  intros H. pose proof (local_reader_grows l x) as Hr. destruct x as [|chunk| | | | | |now| | |k| |s b|a now|refused ans now budget front cut]; cbn [step] in H; try (by injection H as <- <- <-).
  - injection H as <- <- <-. destruct (reader l); try done. unfold ingest. destruct (live l); [|done]. by destruct (Stream.write _ _ _).
  - injection H as <- <- <-. destruct (reader l); try done. unfold local_end. by destruct (live l).
  - destruct (reader l); injection H as <- <- <-; try done. by destruct (live l).
  - injection H as <- <- <-. by destruct (live l).
  - destruct (live l); [|by injection H as <- <- <-]. destruct (Stream.on_data _ _ _ b) as [[] st]; by injection H as <- <- <-.
  - destruct (live l); [|by injection H as <- <- <-]. destruct (Stream.on_ack _ _ _ _ now) as [[] st]; by injection H as <- <- <-.
  - destruct (live l); [|by injection H as <- <- <-]. destruct (pump _ _ _ now budget front cut) as [[[[fate c] ?] io]|]; [|done]. cbn [mbind option_bind] in H. destruct fate; by injection H as <- <- <-.
Qed.

#[export] Instance line_end_laws : Ends.SocketEndLaws Line Step.
Proof.
  refine {| Ends.ties := line_ok |}.
  - split_and!; [done|done|]. split; cbn; try done; [by left|apply local_sock_new_ok].
  - intros W D K l x H Hf Hc _ Ha. destruct (local_step_acts W D K l x H Hf Hc Ha) as (ok & l' & out & E & Hin & Hacts). exists ok, l', out. by split_and!.
  - intros W D K l H. apply H.
  - intros W D K l [_ _ H _ _ _]. cbn. by apply local_sock_wrote.
  - intros W D K l H He. by destruct (lo_fin _ _ _ _ H He).
  - exact local_step_grows.
Defined.

(** ** A connection that was dropped *)

Definition dropped (l : Line) : Prop := live l = false ∧ down (socket (conn l)) = true.

Lemma local_sock_down s x : down s = true → down (write_loop s x) = true ∧ wrote (write_loop s x) = wrote s.
Proof. intros Hd. unfold write_loop. destruct x, (doing s); try done; [|by rewrite Hd]. by destruct (turn (buffer s)). Qed.

(** Nothing reaches the socket of a connection once it was dropped. *)
Lemma local_dropped_writes_nothing l x ok l' out : dropped l → step l x = Some (ok, l', out) → dropped l' ∧ went l' = went l.
Proof.
  intros [Hr Hd] H. assert (∀ y, dropped (read_loop l y) ∧ went (read_loop l y) = went l) as Hread.
  { intros y. unfold read_loop, dropped, went. destruct y, (reader l); try done; repeat case_match; done. }
  specialize (Hread x). destruct x; cbn [step] in H; rewrite ?Hr in H; try (injection H as <- <- <-; exact Hread || done).
  - injection H as <- <- <-. destruct (reader l) as [| | rest| | | | |]; try done. unfold ingest, dropped. by rewrite Hr.
  - injection H as <- <- <-. destruct (reader l); try done. unfold local_end, dropped. by rewrite Hr.
  - destruct (reader l); by injection H as <- <- <-.
  - injection H as <- <- <-. unfold dropped, went. cbn. by destruct (local_sock_down _ x Hd) as [-> ->].
Qed.

End LocalForward.
