(* ===== verification/ForwardTable.v ===== *)
(** * The client's forwards together ([crates/client/src/forward.rs], [Table], [Shared], [Forwards] and the pump)

    The table of connections, the ids it hands out and the ones it remembers, the resets it owes, and
    the pump that serves every connection in turn.  [lines] also has the connections that are gone
    from the table, because their threads outlive them; [live] says which are in it.  What the sink
    answers each frame, in what order the table's keys come, and whether a socket, a thread or a
    journal could be had are arguments.

    The theorems show that the table's bounds hold and its ids are used once, that it answers for
    what it closed lately and for nothing else, and that it runs each connection as [LocalForward]
    does, whatever the others do. *)

From S2P Require Import Prelude Timer Send Recv Stream Codec Fields Ends LocalForward.

Module ForwardTable.
Import(hints) LocalForward.
#[local] Arguments sum_by : simpl never.

Definition CLOSED_RING : Z := 32.
Definition MAX_FORWARDS : Z := 8.
Definition REFUSED_RETRY : Duration := from_millis 10.
Definition StreamId_first : Z := 1.
Definition StreamId_next (id : Z) : Z := sat_add U32_MAX id 1.

Record Table := mkTable { lines : gmap Z LocalForward.Line; next : Z; closed : list (option Z); closed_at : nat; resets : list (Z * Fields.ForwardResetReason); stopped : bool; refusals : Z }.
#[export] Instance Table_settable : Settable Table := λ t, mkTable (lines t) (next t) (closed t) (closed_at t) (resets t) (stopped t) (refusals t).
Definition table_new : Table :=
  {| lines := ∅; next := StreamId_first; closed := replicate (Z.to_nat CLOSED_RING) None; closed_at := 0; resets := []; stopped := false; refusals := 0 |}.

(** [live.get_mut], and the entry put back. *)
Definition entry (t : Table) (id : Z) : option LocalForward.Line := l ← lines t !! id; if LocalForward.live l then Some l else None.
Definition put (t : Table) (id : Z) (l : LocalForward.Line) : Table := t <| lines := <[id := l]> (lines t) |>.
Definition live (t : Table) : gmap Z LocalForward.Line := filter (λ kl, LocalForward.live kl.2 = true) (lines t).

Definition remember_closed (t : Table) (id : Z) : Table :=
  t <| closed := <[closed_at t := Some id]> (closed t) |> <| closed_at := ((closed_at t + 1) mod Z.to_nat CLOSED_RING)%nat |>.
Definition was_closed (t : Table) (id : Z) : bool := bool_decide (Some id ∈ closed t).
Definition reset (t : Table) (id : Z) (reason : Fields.ForwardResetReason) : Table :=
  let t := if CLOSED_RING <=? len (resets t) then t <| resets := tail (resets t) |> else t in
  t <| resets := resets t ++ [(id, reason)] |>.
Definition retire (t : Table) (id : Z) (reason : option Fields.ForwardResetReason) : Table :=
  match entry t id with
  | None => t
  | Some l =>
      let t := remember_closed (put t id (LocalForward.drop_line l)) id in
      match reason with Some reason => reset t id reason | None => t end
  end.

(** ** What the session loop calls *)

Definition on_data (t : Table) (id : Z) (s : Segment) (payload : list Z) : Table :=
  match entry t id with
  | Some l =>
      let '(r, st) := Stream.on_data (LocalForward.stream (LocalForward.conn l)) (off s) (fin s) payload in
      let t := put t id (l <| LocalForward.conn := (LocalForward.conn l) <| LocalForward.stream := st |> |>) in
      match r with Err _ => retire t id (Some Fields.Internal) | Ok _ => t end
  | None => if was_closed t id then reset t id Fields.Closed else t
  end.
Definition on_ack (t : Table) (id : Z) (a : Recv.Ack) (now : Instant) : Table :=
  match entry t id with
  | Some l =>
      let '(r, st) := Stream.on_ack (LocalForward.stream (LocalForward.conn l)) (Recv.ack_off a) (Recv.ack_window a) (Recv.ack_held a) now in
      let t := put t id (l <| LocalForward.conn := (LocalForward.conn l) <| LocalForward.stream := st |> |>) in
      match r with Err _ => reset t id Fields.Internal | Ok _ => t end
  | None => if was_closed t id then reset t id Fields.Closed else t
  end.
Definition on_reset (t : Table) (id : Z) : Table := retire t id None.
Definition stop (t : Table) : Table :=
  t <| stopped := true |> <| lines := (λ l, if LocalForward.live l then LocalForward.drop_line l else l) <$> lines t |>.

(** ** What the accepting threads call *)

(** [made]: the socket's handles and both threads were had, and then whether the journal took the
    open. *)
Definition open (t : Table) (made : option bool) : Table :=
  if stopped t || (MAX_FORWARDS <=? Z.of_nat (size (live t))) || (next t =? U32_MAX) then t <| refusals := refusals t + 1 |>
  else match made with
       | None => t
       | Some journalled =>
           let id := next t in
           let t := put (t <| next := StreamId_next id |>) id LocalForward.line_new in
           if journalled then t else retire t id None
       end.

(** ** What a connection's own threads call *)

Definition local_failed (t : Table) (id : Z) : Table := retire t id (Some Fields.Closed).
(** A step of one of its threads; only a failed read reaches past the connection. *)
Definition thread (t : Table) (id : Z) (x : LocalForward.Step) : Table :=
  match lines t !! id with
  | None => t
  | Some l =>
      match x with
      | LocalForward.RLocalFailed =>
          match LocalForward.reader l with
          | LocalForward.AtFailure => let t := local_failed t id in t <| lines := alter (λ l, l <| LocalForward.reader := LocalForward.Left |>) id (lines t) |>
          | _ => t
          end
      | LocalForward.TReset | LocalForward.TData _ _ | LocalForward.TAck _ _ | LocalForward.TPump _ _ _ _ _ _ => t
      | _ => match LocalForward.step l x with Some (_, l, _) => put t id l | None => t end
      end
  end.
(** ** The pump *)

Inductive Frame := FReset (id : Z) (reason : Fields.ForwardResetReason) | FOut (id : Z) (o : Ends.Output).

(** The resets, oldest first, until the sink refuses one: whether it did, what is left of them and of
    the sink's answers, and what was sent. *)
Fixpoint send_resets (l : list (Z * Fields.ForwardResetReason)) (answers : list bool) (sent : list Frame) : bool * list (Z * Fields.ForwardResetReason) * list bool * list Frame :=
  match l with
  | [] => (false, [], answers, sent)
  | (id, reason) :: rest =>
      match answers with
      | true :: answers => send_resets rest answers (sent ++ [FReset id reason])
      | _ => (true, l, tail answers, sent)
      end
  end.

Definition sooner (wait : option Duration) (d : Duration) : option Duration := Some (match wait with Some w => Z.min w d | None => d end).

(** The pass over the connections: what it carries from one to the next. *)
Record Pass := mkPass { p_table : Table; p_refused : bool; p_answers : list bool; p_sent : list Frame; p_retire : list (Z * option Fields.ForwardResetReason); p_wait : option Duration }.
Definition pump_one (p : Pass) (id : Z) (now : Instant) (budget : option Z) (front cut : nat) : option Pass :=
  match entry (p_table p) id with
  | None => Some p
  | Some l =>
      '(fate, c, refused, io) ← LocalForward.pump (LocalForward.conn l) (p_refused p) (Ends.mkIo (p_answers p) []) now budget front cut;
      let t := put (p_table p) id (l <| LocalForward.conn := c |>) in
      let sent := p_sent p ++ (FOut id <$> Ends.sent io) in
      Some match fate with
           | LocalForward.Failed => mkPass t refused (Ends.answers io) sent (p_retire p ++ [(id, Some Fields.Closed)]) (p_wait p)
           | LocalForward.Done => mkPass t refused (Ends.answers io) sent (p_retire p ++ [(id, None)]) (p_wait p)
           | LocalForward.Kept d => mkPass t refused (Ends.answers io) sent (p_retire p) (match d with Some d => sooner (p_wait p) d | None => p_wait p end)
           end
  end.
Fixpoint pump_all (p : Pass) (ids : list Z) (now : Instant) (budget : option Z) (front cut : Z → nat) : option Pass :=
  match ids with
  | [] => Some p
  | id :: ids => p ← pump_one p id now budget (front id) (cut id); pump_all p ids now budget front cut
  end.
(** [ids]: the keys of the table, in the order it has them. *)
Definition pump (t : Table) (answers : list bool) (now : Instant) (budget : option Z) (ids : list Z) (front cut : Z → nat) : option (Table * list Frame * option Duration) :=
  let '(refused, left_, answers, sent) :=
    match budget with Some _ => send_resets (resets t) answers [] | None => (false, resets t, answers, []) end in
  p ← pump_all (mkPass (t <| resets := left_ |>) refused answers sent [] None) ids now budget front cut;
  let t := foldl (λ t x, retire t x.1 x.2) (p_table p) (p_retire p) in
  Some (t, p_sent p, if p_refused p then sooner (p_wait p) REFUSED_RETRY else p_wait p).

(** ** Everything that happens to it *)

Inductive Event :=
| VOpen (made : option bool) | VData (id : Z) (s : Segment) (payload : list Z) | VAck (id : Z) (a : Recv.Ack) (now : Instant) | VReset (id : Z)
| VThread (id : Z) (x : LocalForward.Step) | VStop
| VPump (answers : list bool) (now : Instant) (budget : option Z) (ids : list Z) (front cut : Z → nat).

(** [None]: a panic. *)
Definition step (t : Table) (v : Event) : option (Table * list Frame) :=
  match v with
  | VOpen made => Some (open t made, [])
  | VData id s payload => Some (on_data t id s payload, [])
  | VAck id a now => Some (on_ack t id a now, [])
  | VReset id => Some (on_reset t id, [])
  | VThread id x => Some (thread t id x, [])
  | VStop => Some (stop t, [])
  | VPump answers now budget ids front cut => if stopped t then Some (t, []) else '(t, sent, _) ← pump t answers now budget ids front cut; Some (t, sent)
  end.
Fixpoint run (t : Table) (vs : list Event) : option (Table * list Frame) :=
  match vs with [] => Some (t, []) | v :: vs => '(t, a) ← step t v; '(t, b) ← run t vs; Some (t, a ++ b) end.

(** ** Each connection on its own *)

(** The frames of one connection, and what arrived for it. *)
Definition outs (id : Z) (fs : list Frame) : list Ends.Output := omap (λ f, match f with FOut i o => if decide (i = id) then Some o else None | FReset _ _ => None end) fs.
Definition arrives (id : Z) (v : Event) : option Ends.Input :=
  match v with
  | VData i s b => if decide (i = id) then Some (Ends.IData s b) else None
  | VAck i a now => if decide (i = id) then Some (Ends.IAck a now) else None
  | _ => None
  end.
(** The table's keys are all different, and a size is not negative. *)
Definition event_fine (v : Event) : Prop := match v with VPump _ _ budget ids _ _ => NoDup ids ∧ (if budget is Some b then 0 ≤ b else True) | _ => True end.

Lemma outs_app id a b : outs id (a ++ b) = outs id a ++ outs id b.
Proof. apply omap_app. Qed.
Lemma outs_own id os : outs id (FOut id <$> os) = os.
Proof. unfold outs. induction os as [|o os IH]; [done|]. cbn. rewrite decide_True by done. by rewrite IH. Qed.
Lemma outs_other id id' os : id' ≠ id → outs id (FOut id' <$> os) = [].
Proof. intros H. unfold outs. induction os as [|o os IH]; [done|]. cbn. by rewrite decide_False. Qed.

Definition let_go (l : LocalForward.Line) : LocalForward.Line := if LocalForward.live l then LocalForward.drop_line l else l.
Lemma let_go_step l : LocalForward.step l LocalForward.TReset = Some (true, let_go l, []).
Proof. done. Qed.

Lemma lines_reset t id r : lines (reset t id r) = lines t.
Proof. unfold reset. by destruct (_ <=? _). Qed.
Lemma lines_retire t id reason k : lines (retire t id reason) !! k = if decide (k = id) then let_go <$> lines t !! k else lines t !! k.
Proof.
  unfold retire, entry, let_go. destruct (lines t !! id) as [l|] eqn:E; cbn.
  - assert (∀ t', lines t' = <[id := LocalForward.drop_line l]> (lines t) → lines (match reason with Some r => reset t' id r | None => t' end) !! k = <[id := LocalForward.drop_line l]> (lines t) !! k) as Hr by (intros t' <-; destruct reason; by rewrite ?lines_reset).
    destruct (LocalForward.live l) eqn:El; [rewrite Hr by done|]; case_decide as Hk; subst; rewrite ?lookup_insert_eq, ?E; cbn; rewrite ?El; try done. by rewrite lookup_insert_ne.
  - case_decide; subst; by rewrite ?E.
Qed.
Lemma lines_retire_all rs t k : lines (foldl (λ t x, retire t x.1 x.2) t rs) !! k = if decide (k ∈ rs.*1) then let_go <$> lines t !! k else lines t !! k.
Proof.
  revert t. induction rs as [|[id r] rs IH]; intros t; cbn [foldl fmap list_fmap fst]; [by rewrite decide_False by (by intros ?%elem_of_nil)|].
  rewrite IH, lines_retire. cbn. destruct (decide (k = id)) as [->|Hne].
  - rewrite (decide_True (P := id ∈ id :: rs.*1)) by (by left). case_decide; [|done]. destruct (lines t !! id) as [l|]; [|done]. cbn. f_equal. unfold let_go. destruct (LocalForward.live l) eqn:E; [done|by rewrite E].
  - destruct (decide (k ∈ rs.*1)); [rewrite decide_True by (by right)|rewrite decide_False by (by intros [?|?]%elem_of_cons)]; done.
Qed.

#[local] Abbreviation moves := (Ends.moves (E := LocalForward.Line) (X := LocalForward.Step)).
#[local] Abbreviation line_run := (Ends.end_run (E := LocalForward.Line) (X := LocalForward.Step)).

(** A pass in progress: [done_] were served. *)
Definition pass_ok (t0 : Table) (done_ : list Z) (p : Pass) : Prop := ∀ id,
  match lines t0 !! id with
  | None => lines (p_table p) !! id = None ∧ outs id (p_sent p) = [] ∧ id ∉ (p_retire p).*1
  | Some l0 => ∃ l, lines (p_table p) !! id = Some l ∧
      (id ∈ (p_retire p).*1 → LocalForward.live l = true) ∧
      moves [] l0 (outs id (p_sent p)) (if decide (id ∈ (p_retire p).*1) then LocalForward.drop_line l else l) ∧
      (id ∉ done_ → l = l0 ∧ outs id (p_sent p) = [] ∧ id ∉ (p_retire p).*1)
  end.

Lemma pump_one_ok t0 done_ p id now budget front cut p' : (if budget is Some b then 0 ≤ b else True) → pass_ok t0 done_ p → id ∉ done_ → pump_one p id now budget front cut = Some p' → pass_ok t0 (id :: done_) p'.
Proof.
  intros Hb H Hd Hp. unfold pump_one in Hp. assert (∀ k, k ∉ id :: done_ → k ≠ id ∧ k ∉ done_) as Hnin by (intros k Hk; split; intros ?; apply Hk; subst; [by left|by right]).
  destruct (entry (p_table p) id) as [l|] eqn:Ee.
  2: { injection Hp as <-. intros k. specialize (H k). destruct (lines t0 !! k); [|done]. destruct H as (l2 & H1 & H2 & H3 & H4). exists l2. split_and!; try done. intros Hk. by apply H4, (Hnin k). }
  unfold entry in Ee. destruct (lines (p_table p) !! id) as [l1|] eqn:El; [|done]. cbn [mbind option_bind] in Ee. destruct (LocalForward.live l1) eqn:Elv; [|done]. injection Ee as Ee. subst l1.
  destruct (LocalForward.pump (LocalForward.conn l) (p_refused p) (Ends.mkIo (p_answers p) []) now budget front cut) as [[[[fate c] refused] io]|] eqn:Epu; [|done]. cbn [mbind option_bind] in Hp.
  set (l' := l <| LocalForward.conn := c |>). assert (∃ rs, p_table p' = put (p_table p) id l' ∧ p_sent p' = p_sent p ++ (FOut id <$> Ends.sent io) ∧ p_retire p' = p_retire p ++ rs ∧ rs.*1 = match fate with LocalForward.Kept _ => [] | _ => [id] end) as (rs & E1 & E2 & E3 & E4).
  { injection Hp as <-. destruct fate; [exists [(id, Some Fields.Closed)]|exists [(id, None)]|exists []]; split_and!; cbn; by rewrite ?app_nil_r. }
  intros k. specialize (H k). rewrite E1, E2, E3, outs_app, fmap_app. unfold put. cbn [lines assign]. destruct (decide (k = id)) as [->|Hne].
  - cbn. rewrite lookup_insert_eq, outs_own. destruct (lines t0 !! id) as [l0|]; [|by destruct H; congruence]. destruct H as (l2 & H1 & H2 & H3 & H4). destruct (H4 Hd) as (-> & H5 & H6). rewrite H1 in El. injection El as El. subst l0.
    exists l'. rewrite H5. split_and!; [done|done| |intros Hk; by destruct (Hnin _ Hk)].
    assert (LocalForward.step l (LocalForward.TPump (p_refused p) (p_answers p) now budget front cut) = Some match fate with LocalForward.Failed => (false, LocalForward.drop_line l', Ends.sent io) | LocalForward.Done => (true, LocalForward.drop_line l', Ends.sent io) | LocalForward.Kept _ => (true, l', Ends.sent io) end) as Hs.
    { cbn [LocalForward.step]. rewrite Elv, Epu. cbn [mbind option_bind]. by destruct fate. }
    cbn [app]. destruct fate; rewrite E4; [rewrite decide_True by (apply elem_of_app; right; by left)..|rewrite app_nil_r, decide_False by done]; exact (Ends.moves_one _ _ _ _ _ Hs Hb).
  - cbn. rewrite lookup_insert_ne by done. rewrite outs_other by done. rewrite app_nil_r, E4. assert (k ∈ (p_retire p).*1 ++ (match fate with LocalForward.Kept _ => [] | _ => [id] end) ↔ k ∈ (p_retire p).*1) as Hiff.
    { rewrite elem_of_app. split; [|by left]. intros [?|Hk]; [done|]. destruct fate; [apply list_elem_of_singleton in Hk..|by apply elem_of_nil in Hk]; done. }
    destruct (lines t0 !! k) as [l0|].
    + destruct H as (l2 & H1 & H2 & H3 & H4). exists l2. split_and!; [done|intros Hk; by apply H2, Hiff| |].
      * destruct (decide (k ∈ (p_retire p).*1)); [rewrite decide_True by (by apply Hiff)|rewrite decide_False by (by rewrite Hiff)]; done.
      * intros Hk. destruct (H4 (proj2 (Hnin k Hk))) as (? & ? & ?). by rewrite Hiff.
    + by rewrite Hiff.
Qed.

Lemma pump_all_ok ids t0 done_ p now budget front cut p' : (if budget is Some b then 0 ≤ b else True) → pass_ok t0 done_ p → NoDup ids → (∀ id, id ∈ ids → id ∉ done_) → pump_all p ids now budget front cut = Some p' → ∃ done', pass_ok t0 done' p'.
Proof.
  intros Hb. revert done_ p. induction ids as [|id ids IH]; intros done_ p H Hn Hd Hp; cbn [pump_all] in Hp; [injection Hp as <-; by exists done_|].
  apply NoDup_cons in Hn as [Hn1 Hn2]. destruct (pump_one p id now budget (front id) (cut id)) as [p1|] eqn:E; [|done]. cbn [mbind option_bind] in Hp.
  eapply IH; [|done| |exact Hp]; [eapply pump_one_ok; [exact Hb|exact H| |exact E]; apply Hd; by left|]. intros k Hk [->|Hk']%elem_of_cons; [done|]. by apply (Hd k); [right|].
Qed.

Lemma send_resets_outs l answers sent id : let '(_, _, _, sent') := send_resets l answers sent in outs id sent' = outs id sent.
Proof. revert answers sent. induction l as [|[i r] l IH]; intros answers sent; cbn; [done|]. destruct answers as [|[] answers]; [done| |done]. specialize (IH answers (sent ++ [FReset i r])). destruct (send_resets l answers _) as [[[? ?] ?] ?]. rewrite IH, outs_app. cbn. by rewrite app_nil_r. Qed.

Lemma send_resets_left l answers sent : let '(_, left_, _, _) := send_resets l answers sent in len left_ ≤ len l.
Proof. revert answers sent. induction l as [|[i r] l IH]; intros answers sent; cbn; [done|]. destruct answers as [|[] answers]; [done| |done]. specialize (IH answers (sent ++ [FReset i r])). destruct (send_resets l answers _) as [[[? ?] ?] ?]. lia. Qed.

Lemma pump_moves t answers now budget ids front cut t' fs w id : NoDup ids → (if budget is Some b then 0 ≤ b else True) → pump t answers now budget ids front cut = Some (t', fs, w) →
  match lines t !! id with None => lines t' !! id = None ∧ outs id fs = [] | Some l0 => ∃ l, lines t' !! id = Some l ∧ moves [] l0 (outs id fs) l end.
Proof.
  intros Hn Hb Hp. unfold pump in Hp. set (start := match budget with Some _ => send_resets (resets t) answers [] | None => (false, resets t, answers, []) end) in Hp.
  assert (∀ k, let '(_, _, _, sent) := start in outs k sent = []) as Hs by (intros k; unfold start; destruct budget; [apply (send_resets_outs (resets t) answers [])|done]). destruct start as [[[refused left_] ans] sent].
  destruct (pump_all _ ids now budget front cut) as [p|] eqn:Epa; [|done]. cbn [mbind option_bind] in Hp. injection Hp as <- <- _.
  destruct (pump_all_ok ids t [] (mkPass (t <| resets := left_ |>) refused ans sent [] None) now budget front cut p) as [done_ Hok]; [exact Hb| |exact Hn| |exact Epa|].
  { intros k. cbn [p_table p_sent p_retire fmap list_fmap]. change (lines (t <| resets := left_ |>)) with (lines t). destruct (lines t !! k) as [l0|]; [|split_and!; [done|apply Hs|by intros ?%elem_of_nil]]. exists l0. split_and!; [done|by intros ?%elem_of_nil| |intros _; split_and!; [done|apply Hs|by intros ?%elem_of_nil]]. rewrite (Hs k), decide_False by (by intros ?%elem_of_nil). apply Ends.moves_none. }
  { by intros ? _ ?%elem_of_nil. }
  specialize (Hok id). rewrite lines_retire_all. destruct (lines t !! id) as [l0|].
  - destruct Hok as (l & -> & H2 & H3 & _). case_decide as Hin; [|by exists l]. exists (LocalForward.drop_line l). split; [|done]. cbn. unfold let_go. by rewrite H2.
  - destruct Hok as (-> & H2 & H3). by rewrite decide_False.
Qed.

(** What one event does to one connection. *)
Definition one_moves (id : Z) (v : Event) (t t' : Table) (fs : list Frame) : Prop :=
  match lines t !! id with
  | Some l0 => ∃ l, lines t' !! id = Some l ∧ moves (option_list (arrives id v)) l0 (outs id fs) l
  | None => outs id fs = [] ∧ ∀ l, lines t' !! id = Some l → (∃ made, v = VOpen made) ∧ moves [] LocalForward.line_new [] l
  end.
Lemma one_same id v t t' : lines t' !! id = lines t !! id → arrives id v = None → one_moves id v t t' [].
Proof. intros E Ev. unfold one_moves. rewrite E, Ev. destruct (lines t !! id) as [l0|]; [exists l0; split; [done|apply Ends.moves_none]|done]. Qed.
Lemma one_step id v t t' l0 x ok l : lines t !! id = Some l0 → lines t' !! id = Some l → LocalForward.step l0 x = Some (ok, l, []) → LocalForward.step_fine x → LocalForward.input_of x = arrives id v → one_moves id v t t' [].
Proof. intros E E' Hs Hf Hx. unfold one_moves. rewrite E, <- Hx. exists l. split; [done|]. exact (Ends.moves_one l0 x ok l [] Hs Hf). Qed.
(** It is not about this one. *)
Lemma one_stays id v t t' : lines t' !! id = lines t !! id → (∀ l0, lines t !! id = Some l0 → arrives id v = None ∨ LocalForward.live l0 = false) → one_moves id v t t' [].
Proof.
  intros E Hv. unfold one_moves. rewrite E. destruct (lines t !! id) as [l0|] eqn:El; [|by split]. exists l0. split; [done|]. destruct (Hv l0 eq_refl) as [->|Hl]; [apply Ends.moves_none|].
  destruct (arrives id v) as [[s b|a now]|]; [| |apply Ends.moves_none]; cbn.
  - refine (Ends.moves_one l0 (LocalForward.TData s b) true l0 [] _ I). cbn. by rewrite Hl.
  - refine (Ends.moves_one l0 (LocalForward.TAck a now) true l0 [] _ I). cbn. by rewrite Hl.
Qed.

Lemma entry_spec t id : match entry t id with Some l => lines t !! id = Some l ∧ LocalForward.live l = true | None => ∀ l, lines t !! id = Some l → LocalForward.live l = false end.
Proof. unfold entry. destruct (lines t !! id) as [l|]; cbn; [|done]. destruct (LocalForward.live l) eqn:E; [done|]. by intros ? [= <-]. Qed.

Lemma data_moves t i s b id : one_moves id (VData i s b) t (on_data t i s b) [].
Proof.
  unfold on_data. pose proof (entry_spec t i) as He. destruct (entry t i) as [l|].
  - destruct He as [El Elv]. destruct (Stream.on_data _ (off s) (fin s) b) as [r st] eqn:Ed. set (l1 := l <| LocalForward.conn := (LocalForward.conn l) <| LocalForward.stream := st |> |>). destruct (decide (id = i)) as [->|Hne].
    + eapply (one_step _ _ _ _ l (LocalForward.TData s b) (match r with Ok _ => true | Err _ => false end) (match r with Ok _ => l1 | Err _ => LocalForward.drop_line l1 end)); [done| | |done|cbn; by rewrite decide_True].
      * destruct r; [cbn; by rewrite lookup_insert_eq|]. rewrite lines_retire, decide_True by done. cbn. rewrite lookup_insert_eq. cbn. unfold let_go. change (LocalForward.live l1) with (LocalForward.live l). by rewrite Elv.
      * cbn. rewrite Elv, Ed. by destruct r.
    + apply one_stays; [|intros; left; cbn; by rewrite decide_False]. destruct r; [cbn; by rewrite lookup_insert_ne|]. rewrite lines_retire, decide_False by done. cbn. by rewrite lookup_insert_ne.
  - apply one_stays; [destruct (was_closed t i); by rewrite ?lines_reset|]. intros l0 E. cbn. destruct (decide (i = id)) as [->|]; [right; by apply He|by left].
Qed.
Lemma ack_moves t i a now id : one_moves id (VAck i a now) t (on_ack t i a now) [].
Proof.
  unfold on_ack. pose proof (entry_spec t i) as He. destruct (entry t i) as [l|].
  - destruct He as [El Elv]. destruct (Stream.on_ack _ _ _ _ now) as [r st] eqn:Ed. set (l1 := l <| LocalForward.conn := (LocalForward.conn l) <| LocalForward.stream := st |> |>). destruct (decide (id = i)) as [->|Hne].
    + eapply (one_step _ _ _ _ l (LocalForward.TAck a now) _ l1); [done| | |done|cbn; by rewrite decide_True].
      * destruct r; rewrite ?lines_reset; cbn; by rewrite lookup_insert_eq.
      * cbn. by rewrite Elv, Ed.
    + apply one_stays; [|intros; left; cbn; by rewrite decide_False]. destruct r; rewrite ?lines_reset; cbn; by rewrite lookup_insert_ne.
  - apply one_stays; [destruct (was_closed t i); by rewrite ?lines_reset|]. intros l0 E. cbn. destruct (decide (i = id)) as [->|]; [right; by apply He|by left].
Qed.
Lemma retire_moves t i r v id : arrives id v = None → one_moves id v t (retire t i r) [].
Proof.
  intros Hv. destruct (decide (id = i)) as [->|Hne]; [|apply one_same; [by rewrite lines_retire, decide_False|done]]. destruct (lines t !! i) as [l0|] eqn:E; [|apply one_same; [by rewrite lines_retire, decide_True, E|done]].
  eapply one_step; [exact E| |apply let_go_step|done|done]. rewrite lines_retire, decide_True, E by done. done.
Qed.

Lemma thread_moves t i x id : one_moves id (VThread i x) t (thread t i x) [].
Proof.
  unfold thread. destruct (lines t !! i) as [l|] eqn:El; [|by apply one_same]. destruct (decide (id = i)) as [->|Hne].
  - assert (∀ ok l', LocalForward.step l x = Some (ok, l', []) → LocalForward.input_of x = None → LocalForward.step_fine x → one_moves i (VThread i x) t (put t i l') []) as Hput.
    { intros ok l' Hs Hx Hxf. eapply one_step; [exact El| |exact Hs|exact Hxf|done]. cbn. by rewrite lookup_insert_eq. }
    destruct x; try (by apply one_same); try (eapply Hput; [reflexivity|done|done]). destruct (LocalForward.reader l) eqn:Er; try (by apply one_same).
    eapply (one_step _ _ _ _ l LocalForward.RLocalFailed _ ((let_go l) <| LocalForward.reader := LocalForward.Left |>)); [done| | |done|done].
    + cbn. unfold local_failed. rewrite lookup_alter_eq, lines_retire, decide_True, El by done. done.
    + cbn. by rewrite Er.
  - apply one_same; [|done]. destruct x; try done; try (cbn; by rewrite lookup_insert_ne). destruct (LocalForward.reader l); try done. cbn. rewrite lookup_alter_ne by done. unfold local_failed. by rewrite lines_retire, decide_False.
Qed.
Lemma stop_moves t id : one_moves id VStop t (stop t) [].
Proof.
  destruct (lines t !! id) as [l|] eqn:E; [|apply one_same; [|done]; cbn; by rewrite lookup_fmap, E]. eapply one_step; [exact E| |apply let_go_step|done|done]. cbn. by rewrite lookup_fmap, E.
Qed.
(** A new connection has an id no connection had. *)
Lemma open_moves t made id : lines t !! next t = None → one_moves id (VOpen made) t (open t made) [].
Proof.
  intros Hn. unfold open. destruct (_ || _ || _); [by apply one_same|]. destruct made as [journalled|]; [|by apply one_same].
  set (t1 := put (t <| next := StreamId_next (next t) |>) (next t) LocalForward.line_new). destruct (decide (id = next t)) as [->|Hne].
  - unfold one_moves. rewrite Hn. split; [done|]. intros l Hl. split; [by eexists|]. assert (lines t1 !! next t = Some LocalForward.line_new) as E1 by (unfold t1; cbn; by rewrite lookup_insert_eq). destruct journalled.
    + rewrite E1 in Hl. injection Hl as <-. apply Ends.moves_none.
    + rewrite lines_retire, decide_True, E1 in Hl by done. injection Hl as <-. exact (Ends.moves_one _ LocalForward.TReset true _ [] (let_go_step _) I).
  - apply one_same; [|done]. assert (lines t1 !! id = lines t !! id) as E1 by (unfold t1; cbn; by rewrite lookup_insert_ne). destruct journalled; [done|]. by rewrite lines_retire, decide_False.
Qed.

(** Ids are below [next]. *)
Definition ids_ok (t : Table) : Prop := 1 ≤ next t ≤ U32_MAX ∧ ∀ id, is_Some (lines t !! id) → 1 ≤ id < next t.

Lemma step_moves t v t' fs id : ids_ok t → event_fine v → step t v = Some (t', fs) → one_moves id v t t' fs.
Proof.
  intros [_ Hi] Hf H. destruct v as [made|i s b|i a now|i|i x| |answers now budget ids front cut]; cbn [step] in H; try (injection H as <- <-).
  - apply open_moves. destruct (lines t !! next t) eqn:E; [|done]. specialize (Hi (next t)). rewrite E in Hi. destruct Hi; [by eexists|lia].
  - apply data_moves.
  - apply ack_moves.
  - by apply retire_moves.
  - apply thread_moves.
  - apply stop_moves.
  - destruct (stopped t); [injection H as <- <-; by apply one_same|]. destruct (pump t answers now budget ids front cut) as [[[t1 sent] w]|] eqn:E; [|done]. cbn [mbind option_bind] in H. injection H as <- <-.
    destruct Hf as [Hf Hb]. pose proof (pump_moves _ _ _ _ _ _ _ _ _ _ id Hf Hb E) as Hm. unfold one_moves. destruct (lines t !! id); [done|]. destruct Hm as [-> ->]. done.
Qed.

(** ** The ring *)

Definition ring : Type := list (option Z) * nat.
Definition ring_new : ring := (replicate (Z.to_nat CLOSED_RING) None, 0%nat).
Definition ring_push (r : ring) (id : Z) : ring := (<[r.2 := Some id]> r.1, ((r.2 + 1) mod Z.to_nat CLOSED_RING)%nat).
(** What was put into it lately. *)
Definition lately (h : list Z) : list Z := drop (length h - Z.to_nat CLOSED_RING) h.

Lemma ring_slots h : let r := foldl ring_push ring_new h in
  length r.1 = 32%nat ∧ r.2 = (length h mod 32)%nat ∧
  (∀ i id, h !! i = Some id → (length h ≤ i + 32)%nat → r.1 !! (i mod 32)%nat = Some (Some id)) ∧ (∀ j, (length h ≤ j < 32)%nat → r.1 !! j = Some None).
Proof.
  induction h as [|id h IH] using rev_ind; [split_and!; [done|done|done|intros j Hj; change (replicate 32 (@None Z) !! j = Some None); apply lookup_replicate_2; apply Hj]|].
  rewrite foldl_app. cbn [foldl]. destruct (foldl ring_push ring_new h) as [c at_]. cbn zeta in *. cbn [fst snd] in IH. destruct IH as (I1 & I2 & I3 & I4). unfold ring_push. cbn [fst snd]. change (Z.to_nat CLOSED_RING) with 32%nat. rewrite length_insert, length_app. cbn [length].
  pose proof (Nat.mod_upper_bound (length h) 32 ltac:(done)). split_and!; [done|rewrite I2, Nat.Div0.add_mod_idemp_l; done| |].
  - intros i x Hi Hl. destruct (decide (i = length h)) as [->|Hne].
    + rewrite lookup_app_r, Nat.sub_diag in Hi by lia. injection Hi as ->. rewrite I2. apply list_lookup_insert_eq. lia.
    + assert (i < length h)%nat as Hlt by (apply lookup_lt_Some in Hi; rewrite length_app in Hi; cbn in Hi; lia). rewrite lookup_app_l in Hi by done. rewrite list_lookup_insert_ne; [apply I3; [done|lia]|].
      rewrite I2. pose proof (Nat.div_mod_eq (length h) 32). pose proof (Nat.div_mod_eq i 32). pose proof (Nat.mod_upper_bound i 32 ltac:(done)). lia.
  - intros j Hj. rewrite list_lookup_insert_ne; [apply I4; lia|]. rewrite I2, Nat.mod_small by lia. lia.
Qed.
Lemma ring_lately h id : Some id ∈ (foldl ring_push ring_new h).1 ↔ id ∈ lately h.
Proof.
  destruct (ring_slots h) as (H1 & _ & H3 & H4). unfold lately. change (Z.to_nat CLOSED_RING) with 32%nat. rewrite list_elem_of_lookup, list_elem_of_lookup. split.
  - intros [j Hj]. assert (j < 32)%nat as Hlt by (apply lookup_lt_Some in Hj; lia). destruct (decide (length h ≤ j)%nat) as [Hle|Hgt]; [rewrite H4 in Hj by lia; done|].
    set (i := (length h - 1 - (length h - 1 - j) mod 32)%nat). pose proof (Nat.mod_upper_bound (length h - 1 - j) 32 ltac:(done)). pose proof (Nat.Div0.mod_le (length h - 1 - j) 32). assert (i mod 32 = j)%nat as Em.
    { unfold i. pose proof (Nat.div_mod_eq (length h - 1 - j) 32). replace (length h - 1 - (length h - 1 - j) mod 32)%nat with (j + ((length h - 1 - j) / 32) * 32)%nat by lia. rewrite Nat.Div0.mod_add. apply Nat.mod_small. lia. }
    destruct (lookup_lt_is_Some_2 h i) as [x Hx]; [lia|]. pose proof (H3 i x Hx ltac:(lia)) as Hs. rewrite Em, Hj in Hs. injection Hs as ->. exists (i - (length h - 32))%nat. rewrite lookup_drop. rewrite <- Hx. f_equal. lia.
  - intros [k Hk]. rewrite lookup_drop in Hk. eexists. apply (H3 _ _ Hk). lia.
Qed.

(** ** The table *)

(** [h]: the connections that were retired, in order. *)
Record table_ok (h : list Z) (t : Table) : Prop := {
  tk_ids : ids_ok t;
  tk_ring : (closed t, closed_at t) = foldl ring_push ring_new h;
  tk_once : NoDup h;
  tk_gone : ∀ id, id ∈ h → ∃ l, lines t !! id = Some l ∧ LocalForward.live l = false;
  tk_all : stopped t = false → ∀ id l, lines t !! id = Some l → LocalForward.live l = false → id ∈ h;
  tk_resets : len (resets t) ≤ CLOSED_RING;
  tk_live : Z.of_nat (size (live t)) ≤ MAX_FORWARDS;
  tk_stopped : stopped t = true → ∀ id l, lines t !! id = Some l → LocalForward.live l = false
}.

Lemma step_dead l x ok l' o : LocalForward.step l x = Some (ok, l', o) → LocalForward.live l = false → LocalForward.live l' = false.
Proof.
  intros H Hl. destruct x; cbn [LocalForward.step] in H; rewrite ?Hl in H; try (by simplify_eq).
  all: try (injection H as _ <- _; unfold LocalForward.read_loop; destruct (LocalForward.reader l); try done; by repeat case_match).
  - injection H as _ <- _. destruct (LocalForward.reader l); try done. unfold LocalForward.ingest. by rewrite Hl.
  - injection H as _ <- _. destruct (LocalForward.reader l); try done. unfold LocalForward.local_end. by rewrite Hl.
  - destruct (LocalForward.reader l); by injection H as _ <- _.
Qed.

Lemma live_sub (t t' : Table) : (∀ id l', lines t' !! id = Some l' → LocalForward.live l' = true → ∃ l, lines t !! id = Some l ∧ LocalForward.live l = true) → (size (live t') ≤ size (live t))%nat.
Proof.
  intros H. rewrite <- !size_dom. apply subseteq_size. intros id Hid. apply elem_of_dom in Hid as [l' Hl']. unfold live in Hl'. apply map_lookup_filter_Some in Hl' as [E1 E2]. destruct (H id l' E1 E2) as (l & E3 & E4). apply elem_of_dom. exists l. by apply map_lookup_filter_Some.
Qed.

(** An entry replaced by one that is no less dead, and dead only if it was. *)
Lemma put_ok h t id l l' : table_ok h t → lines t !! id = Some l → LocalForward.live l' = LocalForward.live l → table_ok h (put t id l').
Proof.
  intros [[I1 I2] R O G A S L Z] E Ed. split; cbn; try done.
  - split; [done|]. intros k [x Hx]. apply I2. cbn in Hx. destruct (decide (k = id)) as [->|]; [by rewrite E|]. rewrite lookup_insert_ne in Hx by done. by eexists.
  - intros k Hk. destruct (G k Hk) as (x & E1 & E2). destruct (decide (k = id)) as [->|]; [exists l'; rewrite lookup_insert_eq; split; [done|congruence]|exists x; by rewrite lookup_insert_ne].
  - intros Hs k x Hx Hd. destruct (decide (k = id)) as [->|]; [rewrite lookup_insert_eq in Hx; injection Hx as <-; apply (A Hs id l E); congruence|]. rewrite lookup_insert_ne in Hx by done. by apply (A Hs k x).
  - etrans; [|exact L]. apply inj_le, live_sub. cbn. intros k x Hx Hl. destruct (decide (k = id)) as [->|]; [rewrite lookup_insert_eq in Hx; injection Hx as <-; exists l; split; [done|congruence]|rewrite lookup_insert_ne in Hx by done; by exists x].
  - intros Hs k x Hx. destruct (decide (k = id)) as [->|]; [rewrite lookup_insert_eq in Hx; injection Hx as <-; rewrite Ed; by apply (Z Hs id)|]. rewrite lookup_insert_ne in Hx by done. by apply (Z Hs k).
Qed.
Lemma reset_kept h t id r : table_ok h t → table_ok h (reset t id r).
Proof.
  intros [I R O G A S L Z]. unfold reset. destruct (Z.leb_spec CLOSED_RING (len (resets t))); (split; cbn; try done); rewrite length_app; cbn; [|lia]. destruct (resets t); cbn in *; unfold CLOSED_RING in *; lia.
Qed.
Lemma retire_ok h t id r : table_ok h t → table_ok (h ++ match entry t id with Some _ => [id] | None => [] end) (retire t id r).
Proof.
  intros Ht. unfold retire. pose proof (entry_spec t id) as He. destruct (entry t id) as [l|]; [|by rewrite app_nil_r]. destruct He as [El Elv].
  assert (table_ok (h ++ [id]) (remember_closed (put t id (LocalForward.drop_line l)) id)) as Hr; [|destruct r; [by apply reset_kept|done]].
  destruct Ht as [[I1 I2] R O G A S L Z]. assert (id ∉ h) as Hid by (intros Hin; destruct (G id Hin) as (x & E1 & E2); congruence).
  split; cbn; try done.
  - split; [done|]. intros k [x Hx]. apply I2. cbn in Hx. destruct (decide (k = id)) as [->|]; [by rewrite El|]. rewrite lookup_insert_ne in Hx by done. by eexists.
  - rewrite foldl_app. cbn. rewrite <- R. done.
  - apply NoDup_app. split_and!; [done| |apply NoDup_singleton]. by intros k Hk ->%list_elem_of_singleton.
  - intros k [Hk| ->%list_elem_of_singleton]%elem_of_app; [|exists (LocalForward.drop_line l); by rewrite lookup_insert_eq]. destruct (G k Hk) as (x & E1 & E2). destruct (decide (k = id)) as [->|]; [done|]. exists x. by rewrite lookup_insert_ne.
  - intros Hs k x Hx Hd. apply elem_of_app. destruct (decide (k = id)) as [->|]; [right; by left|]. rewrite lookup_insert_ne in Hx by done. left. by apply (A Hs k x).
  - etrans; [|exact L]. apply inj_le, live_sub. cbn. intros k x Hx Hl. destruct (decide (k = id)) as [->|]; [rewrite lookup_insert_eq in Hx; by injection Hx as <-|rewrite lookup_insert_ne in Hx by done; by exists x].
  - intros Hs. by rewrite (Z Hs id l El) in Elv.
Qed.

Definition holds (t : Table) : Prop := ∃ h, table_ok h t.
Lemma retire_holds t id r : holds t → holds (retire t id r).
Proof. intros [h H]. eexists. by apply retire_ok. Qed.
Lemma entry_holds t id l c : holds t → entry t id = Some l → holds (put t id (l <| LocalForward.conn := c |>)).
Proof. intros [h H] E. exists h. pose proof (entry_spec t id) as He. rewrite E in He. destruct He as [El _]. by eapply put_ok. Qed.
Lemma stray_holds t id : holds t → holds (if was_closed t id then reset t id Fields.Closed else t).
Proof. intros [h H]. exists h. destruct (was_closed t id); [by apply reset_kept|done]. Qed.

Lemma open_holds t made : holds t → holds (open t made).
Proof.
  intros [h H]. pose proof H as [[I1 I2] R O G A S L Z]. unfold open. destruct (_ || _ || _) eqn:Eb; [exists h; by split|]. destruct made as [journalled|]; [|by exists h].
  apply orb_false_iff in Eb as [[Eb1 Eb2]%orb_false_iff Eb3]. zbool. assert (lines t !! next t = None) as En by (destruct (lines t !! next t) eqn:E; [|done]; specialize (I2 (next t)); rewrite E in I2; destruct I2; [by eexists|lia]).
  assert (StreamId_next (next t) = next t + 1) as Enx by (unfold StreamId_next, sat_add; lia). set (t1 := put (t <| next := StreamId_next (next t) |>) (next t) LocalForward.line_new).
  assert (holds t1) as H1; [|destruct journalled; [done|by apply retire_holds]]. exists h. split; cbn; try done.
  - split; [cbn; lia|]. cbn. rewrite Enx. intros k [x Hx]. destruct (decide (k = next t)) as [->|]; [lia|]. rewrite lookup_insert_ne in Hx by done. destruct (I2 k); [by eexists|lia].
  - intros k Hk. destruct (G k Hk) as (x & E1 & E2). exists x. rewrite lookup_insert_ne; [done|]. intros <-. congruence.
  - intros Hs k x Hx Hd. destruct (decide (k = next t)) as [->|]; [rewrite lookup_insert_eq in Hx; by injection Hx as <-|]. rewrite lookup_insert_ne in Hx by done. by apply (A Hs k x).
  - unfold live, t1. cbn. rewrite map_filter_insert_True by done. rewrite map_size_insert_None; [|apply map_lookup_filter_None; by left]. unfold live, MAX_FORWARDS in *. lia.
  - congruence.
Qed.
Lemma thread_holds t id x : holds t → holds (thread t id x).
Proof.
  intros H. unfold thread. destruct (lines t !! id) as [l|] eqn:El; [|done].
  assert (∀ ok l' o, LocalForward.step l x = Some (ok, l', o) → LocalForward.live l' = LocalForward.live l → holds (put t id l')) as Hput.
  { intros ok l' o Hs Hl. destruct H as [h H]. exists h. by eapply put_ok. }
  assert (∀ y, LocalForward.live (LocalForward.read_loop l y) = LocalForward.live l) as Hread by (intros y; unfold LocalForward.read_loop; destruct y; try done; destruct (LocalForward.reader l); try done; by repeat case_match).
  destruct x; try done; cbn [LocalForward.step]; try (eapply Hput; [done|]; done || apply Hread).
  - eapply Hput; [done|]. destruct (LocalForward.reader l); try done. unfold LocalForward.ingest. destruct (LocalForward.live l) eqn:Elv; [|done]. by destruct (Stream.write _ _ _).
  - eapply Hput; [done|]. destruct (LocalForward.reader l); try done. unfold LocalForward.local_end. by destruct (LocalForward.live l) eqn:Elv.
  - destruct (LocalForward.reader l) eqn:Er; try done. destruct (retire_holds t id (Some Fields.Closed) H) as [h H1]. fold (local_failed t id) in H1. exists h.
    assert (lines (local_failed t id) !! id = Some (let_go l)) as E1 by (unfold local_failed; by rewrite lines_retire, decide_True, El).
    assert (alter (λ l, l <| LocalForward.reader := LocalForward.Left |>) id (lines (local_failed t id)) = <[id := (let_go l) <| LocalForward.reader := LocalForward.Left |>]> (lines (local_failed t id))) as ->.
    { apply map_eq. intros k. destruct (decide (k = id)) as [->|]; [by rewrite lookup_alter_eq, lookup_insert_eq, E1|by rewrite lookup_alter_ne, lookup_insert_ne]. }
    by apply (put_ok h _ id (let_go l)).
Qed.
Lemma stop_holds t : holds t → holds (stop t).
Proof.
  intros [h [[I1 I2] R O G A S L Z]]. exists h. assert (∀ k x, ((λ l, if LocalForward.live l then LocalForward.drop_line l else l) <$> lines t) !! k = Some x → ∃ l, lines t !! k = Some l ∧ LocalForward.live x = false) as Hall.
  { intros k x Hx. rewrite lookup_fmap in Hx. destruct (lines t !! k) as [l|]; [|done]. exists l. split; [done|]. injection Hx as <-. by destruct (LocalForward.live l) eqn:E. }
  split; cbn; try done.
  - split; [done|]. intros k [x Hx]. destruct (Hall k x Hx) as (l & E & _). apply I2. by rewrite E.
  - intros k Hk. destruct (G k Hk) as (l & E1 & E2). exists l. rewrite lookup_fmap, E1. cbn. by rewrite E2.
  - etrans; [|exact L]. apply inj_le, live_sub. cbn. intros k x Hx Hl. destruct (Hall k x Hx) as (l & E & E2). congruence.
  - intros _ k x Hx. by destruct (Hall k x Hx) as (l & E & E2).
Qed.
Lemma pump_holds t answers now budget ids front cut t' fs w : holds t → pump t answers now budget ids front cut = Some (t', fs, w) → holds t'.
Proof.
  intros H Hp. unfold pump in Hp. set (start := match budget with Some _ => send_resets (resets t) answers [] | None => (false, resets t, answers, []) end) in Hp.
  assert (let '(_, left_, _, _) := start in len left_ ≤ len (resets t)) as Hs.
  { unfold start. destruct budget; [apply send_resets_left|lia]. }
  destruct start as [[[refused left_] ans] sent]. destruct (pump_all _ ids now budget front cut) as [p|] eqn:Epa; [|done]. cbn [mbind option_bind] in Hp. injection Hp as <- _ _.
  assert (holds (p_table p)) as Hh; [|clear -Hh; revert Hh; generalize (p_table p); induction (p_retire p) as [|[i r] rs IH]; intros u Hu; cbn; [done|]; by apply IH, retire_holds].
  assert (holds (p_table (mkPass (t <| resets := left_ |>) refused ans sent [] None))) as H0 by (destruct H as [h [I R O G A S L Z]]; exists h; split; cbn; try done; lia).
  revert H0 Epa. generalize (mkPass (t <| resets := left_ |>) refused ans sent [] None). clear. induction ids as [|id ids IH]; intros q Hq Hp; cbn [pump_all] in Hp; [by injection Hp as <-|].
  destruct (pump_one q id now budget (front id) (cut id)) as [q1|] eqn:E; [|done]. cbn [mbind option_bind] in Hp. apply (IH q1); [|done]. unfold pump_one in E. destruct (entry (p_table q) id) as [l|] eqn:Ee; [|by injection E as <-].
  destruct (LocalForward.pump _ _ _ now budget _ _) as [[[[fate c] rf] io]|]; [|done]. cbn [mbind option_bind] in E. injection E as <-. destruct fate; by apply entry_holds.
Qed.

Lemma step_holds t v t' fs : holds t → step t v = Some (t', fs) → holds t'.
Proof.
  intros H Hs. destruct v as [made|i s b|i a now|i|i x| |answers now budget ids front cut]; cbn [step] in Hs; try (injection Hs as <- _).
  - by apply open_holds.
  - unfold on_data. destruct (entry t i) as [l|] eqn:E; [|by apply stray_holds]. destruct (Stream.on_data _ _ _ _) as [[] st]; [|apply retire_holds]; by apply entry_holds.
  - unfold on_ack. destruct (entry t i) as [l|] eqn:E; [|by apply stray_holds]. destruct (Stream.on_ack _ _ _ _ _) as [[] st]; [by apply entry_holds|]. destruct (entry_holds t i l ((LocalForward.conn l) <| LocalForward.stream := st |>) H E) as [h H1]. exists h. by apply reset_kept.
  - by apply retire_holds.
  - by apply thread_holds.
  - by apply stop_holds.
  - destruct (stopped t); [by injection Hs as <- _|]. destruct (pump t answers now budget ids front cut) as [[[t1 sent] w]|] eqn:E; [|done]. cbn [mbind option_bind] in Hs. injection Hs as <- _. by eapply pump_holds.
Qed.
Lemma new_holds : holds table_new.
Proof. exists []. split; cbn; try done; [split; [done|]; by intros k [x Hx]|constructor|by intros k ?%elem_of_nil]. Qed.
Lemma run_holds vs t t' fs : holds t → run t vs = Some (t', fs) → holds t'.
Proof.
  revert t fs. induction vs as [|v vs IH]; intros t fs H Hr; cbn [run] in Hr; [by injection Hr as <- _|]. destruct (step t v) as [[t1 a]|] eqn:E; [|done]. cbn [mbind option_bind] in Hr. destruct (run t1 vs) as [[t2 b]|] eqn:E2; [|done]. injection Hr as <- _.
  apply (IH t1 b); [by eapply step_holds|done].
Qed.

(** Every event, one connection at a time. *)
Lemma run_moves vs t t' fs id : holds t → Forall event_fine vs → run t vs = Some (t', fs) →
  match lines t !! id with
  | Some l0 => ∃ l, lines t' !! id = Some l ∧ moves (omap (arrives id) vs) l0 (outs id fs) l
  | None => ∀ l, lines t' !! id = Some l → ∃ ins, ins `suffix_of` omap (arrives id) vs ∧ moves ins LocalForward.line_new (outs id fs) l
  end.
Proof.
  revert t fs. induction vs as [|v vs IH]; intros t fs H Hf Hr; cbn [run] in Hr.
  - injection Hr as <- <-. destruct (lines t !! id) as [l0|]; [exists l0; split; [done|apply Ends.moves_none]|done].
  - apply Forall_cons in Hf as [Hf1 Hf2]. destruct (step t v) as [[t1 a]|] eqn:E; [|done]. cbn [mbind option_bind] in Hr. destruct (run t1 vs) as [[t2 b]|] eqn:E2; [|done]. injection Hr as <- <-.
    pose proof H as [h Hh]. pose proof (step_moves t v t1 a id (tk_ids _ _ Hh) Hf1 E) as M1. specialize (IH t1 b (step_holds _ _ _ _ H E) Hf2 E2). unfold one_moves in M1.
    assert (omap (arrives id) (v :: vs) = option_list (arrives id v) ++ omap (arrives id) vs) as -> by (cbn; by destruct (arrives id v)). rewrite outs_app.
    destruct (lines t !! id) as [l0|].
    + destruct M1 as (l1 & E1 & M1). rewrite E1 in IH. destruct IH as (l & E3 & M2). exists l. split; [done|]. by eapply Ends.moves_trans.
    + destruct M1 as [-> M1]. cbn [app]. destruct (lines t1 !! id) as [l1|].
      * destruct (M1 l1 eq_refl) as [[made ->] M2]. destruct IH as (l & E3 & M3). intros l' E4. rewrite E3 in E4. injection E4 as <-. exists (omap (arrives id) vs). split; [by exists []|]. exact (Ends.moves_trans _ _ _ _ _ _ _ M2 M3).
      * intros l El. destruct (IH l El) as (ins & Hi & M2). exists ins. split; [by apply suffix_app_r|done].
Qed.

(** Nothing that happens to the table makes it panic. *)
Lemma pump_all_total p ids now budget front cut : is_Some (pump_all p ids now budget front cut).
Proof.
  revert p. induction ids as [|id ids IH]; intros p; cbn [pump_all]; [by eexists|]. assert (is_Some (pump_one p id now budget (front id) (cut id))) as [p1 ->]; [|cbn [mbind option_bind]; apply IH].
  unfold pump_one. destruct (entry (p_table p) id) as [l|]; [|by eexists]. destruct (LocalForward.local_pump_total (LocalForward.conn l) (p_refused p) (Ends.mkIo (p_answers p) []) now budget (front id) (cut id)) as [[[[fate c] rf] io] ->]. by eexists.
Qed.
Lemma table_step_total t v : is_Some (step t v).
Proof.
  destruct v as [| | | | | |ans now budget ids front cut]; cbn [step]; try (by eexists). destruct (stopped t); [by eexists|]. unfold pump. destruct (match budget with Some _ => _ | None => _ end) as [[[rf left_] ans'] sent].
  destruct (pump_all_total (mkPass (t <| resets := left_ |>) rf ans' sent [] None) ids now budget front cut) as [p ->]. by eexists.
Qed.
Lemma table_run_total vs t : is_Some (run t vs).
Proof. revert t. induction vs as [|v vs IH]; intros t; cbn [run]; [by eexists|]. destruct (table_step_total t v) as [[t1 a] ->]. cbn [mbind option_bind]. destruct (IH t1) as [[t2 b] ->]. by eexists. Qed.

(** C17: the table runs each connection as it would run alone.  Whatever opens, arrives, is read,
    fails, is pumped, is reset or is stopped, in whatever order, with whatever the sink refuses:
    every connection a client ever opened is where its own steps bring a new one, has sent exactly
    the frames the client sent in its name, and was given only frames that arrived in its name since
    it was opened, in the order they did.  Nothing makes it panic. *)
Theorem table_runs_its_connections vs : Forall event_fine vs → ∃ t fs, run table_new vs = Some (t, fs) ∧ ∀ id l, lines t !! id = Some l →
  ∃ xs, line_run LocalForward.line_new xs = Some (l, outs id fs) ∧ omap LocalForward.input_of xs `suffix_of` omap (arrives id) vs.
Proof. intros Hf. destruct (table_run_total vs table_new) as [[t fs] Hr]. exists t, fs. split; [exact Hr|]. intros id l El. destruct (run_moves vs table_new t fs id new_holds Hf Hr l El) as (ins & Hi & xs & Hx & <- & _). by exists xs. Qed.

(** The table keeps its bounds, and answers for what it closed lately.  At most [MAX_FORWARDS]
    connections are live and [CLOSED_RING] resets wait; ids are used once; and the ids the table
    says it closed are the last [CLOSED_RING] connections that were retired, each of which is gone.
    Until the session stops, the connections that are gone are the ones that were retired. *)
Theorem table_answers_for_what_it_closed vs t fs : run table_new vs = Some (t, fs) →
  Z.of_nat (size (live t)) ≤ MAX_FORWARDS ∧ len (resets t) ≤ CLOSED_RING ∧ (∀ id, is_Some (lines t !! id) → 1 ≤ id < next t) ∧ next t ≤ U32_MAX ∧
  ∃ h, NoDup h ∧ (∀ id, was_closed t id = true ↔ id ∈ lately h) ∧ (∀ id, id ∈ h → ∃ l, lines t !! id = Some l ∧ LocalForward.live l = false) ∧
    (stopped t = false → ∀ id l, lines t !! id = Some l → LocalForward.live l = false → id ∈ h).
Proof.
  intros Hr. destruct (run_holds vs table_new t fs new_holds Hr) as [h [[I1 I2] R O G A S L Z]]. split_and!; try done; [lia|]. exists h. split_and!; try done. intros id. unfold was_closed. rewrite bool_decide_eq_true. rewrite <- ring_lately, <- R. done.
Qed.

(** Two connections; the second fails, and a frame for it comes late. *)
Definition day : list Event :=
  [VOpen (Some true); VOpen (Some true); VPump [] 0 (Some 1000) [2; 1] (λ _, 0%nat) (λ _, 0%nat);
   VThread 1 LocalForward.RWant; VThread 2 LocalForward.RWant; VThread 1 (LocalForward.RRead [5; 6]); VThread 2 LocalForward.RBroken; VThread 2 LocalForward.RLocalFailed;
   VThread 1 (LocalForward.RIngest 0); VData 2 {| off := 0; fin := false; length_ := 1 |} [8]; VData 1 {| off := 0; fin := false; length_ := 1 |} [9];
   VPump [true; true; true; true] 0 (Some 1000) [1] (λ _, 0%nat) (λ _, 0%nat)].
Definition evening : option (list (Z * Fields.ForwardResetReason) * list Frame * option (list Z)) :=
  '(t, fs) ← run table_new day; Some (resets t, fs, (λ l, LocalForward.bytes (LocalForward.buffer (LocalForward.socket (LocalForward.conn l)))) <$> lines t !! 1).
Example evening_is : evening = Some ([], [FReset 2 Fields.Closed; FReset 2 Fields.Closed; FOut 1 (Ends.OAck {| Recv.ack_off := 1; Recv.ack_window := 262144; Recv.ack_held := [] |}); FOut 1 (Ends.OData {| off := 0; fin := false; length_ := 2 |} [5; 6])], Some [9]).
Proof. vm_compute. reflexivity. Qed.

Lemma day_fine : Forall event_fine day.
Proof. unfold day. repeat (constructor; [first [exact I|split; [repeat constructor; set_solver|done]]|]). constructor. Qed.
Lemma table_runs_its_connections_witness : Forall event_fine day ∧
  match run table_new day with
  | Some (t, fs) => match lines t !! 1 with Some l => ∃ xs, line_run LocalForward.line_new xs = Some (l, outs 1 fs) ∧ omap LocalForward.input_of xs `suffix_of` omap (arrives 1) day | None => False end
  | None => False
  end.
Proof.
  split; [exact day_fine|]. pose proof evening_is as He. unfold evening in He. destruct (run table_new day) as [[t fs]|] eqn:E; [|discriminate He]. cbn [mbind option_bind] in He.
  destruct (lines t !! 1) as [l|] eqn:El; [|discriminate He]. destruct (table_runs_its_connections day day_fine) as (t' & fs' & E' & H). rewrite E in E'. injection E' as <- <-. exact (H 1 l El).
Defined.
Lemma table_answers_for_what_it_closed_witness : match run table_new day with
  | Some (t, _) => Z.of_nat (size (live t)) ≤ MAX_FORWARDS ∧ ∃ h, NoDup h ∧ ∀ id, was_closed t id = true ↔ id ∈ lately h
  | None => False
  end.
Proof.
  pose proof evening_is as He. unfold evening in He. destruct (run table_new day) as [[t fs]|] eqn:E; [|discriminate He].
  destruct (table_answers_for_what_it_closed day t fs E) as (H1 & _ & _ & _ & h & H2 & H3 & _). split; [exact H1|]. exists h. split; [exact H2|exact H3].
Defined.

End ForwardTable.
