(* ===== verification/SessionForwards.v ===== *)
(** * The session's forwards together ([crates/server/src/forward.rs], [Forwards]; [actor.rs], what it does with them)

    A session keeps the forwards of all its clients, by client and stream id, the ids each client
    closed lately, and which clients are attached or may still return ([attachments], and [kept] for
    the command streams of clients that left).  [lines] also has the forwards that are gone from the
    table, because their threads outlive them; when their id is opened again they are [strays], whose
    threads still post under that id, and a socket the table had for a forward that is then given
    another is [loose].  What a sink answers each frame, in what order the table's keys come, and
    whether a slot, a thread or a dial could be had are arguments.  That a command is taken once is
    the gate's ([Typing]).

    The theorems show that no event panics and the table's bounds hold whatever its clients do, that
    every live forward belongs to a client that is attached or may return, and that the session runs
    each forward as [Forwarding] does, whatever the others do, unless its id was opened twice.  An
    example shows what a stray does to the forward that has its id. *)

From S2P Require Import Prelude Timer Send Recv Stream Codec Fields Ends Forwarding LocalForward ForwardTable.

Module SessionForwards.
Import(hints) Forwarding.
#[local] Arguments sum_by : simpl never.

Definition CLOSED_RING : Z := ForwardTable.MAX_FORWARDS * 2.
Definition MAX_ATTACHMENTS : Z := 8.
Abbreviation Key := (Z * Z)%type.

Record Session := mkSession { lines : gmap Key Forwarding.Line; closed : gmap Z (list Z); attachments : list Z; kept : list Z;
  strays : list (Key * Forwarding.Line); loose : list Forwarding.Sock }.
#[export] Instance Session_settable : Settable Session := λ s, mkSession (lines s) (closed s) (attachments s) (kept s) (strays s) (loose s).
Definition session_new : Session := {| lines := ∅; closed := ∅; attachments := []; kept := []; strays := []; loose := [] |}.

(** ** The table ([Forwards]) *)

Definition let_go (l : Forwarding.Line) : Forwarding.Line := if Forwarding.retired l then l else Forwarding.retire l.
(** [get_mut] and [contains]; the entry put back. *)
Definition entry (s : Session) (k : Key) : option Forwarding.Line := l ← lines s !! k; if Forwarding.retired l then None else Some l.
Definition put (s : Session) (k : Key) (l : Forwarding.Line) : Session := s <| lines := <[k := l]> (lines s) |>.
Definition live (s : Session) : gmap Key Forwarding.Line := filter (λ kl, Forwarding.retired kl.2 = false) (lines s).
Definition held_by (s : Session) (c : Z) : nat := size (filter (λ kl, kl.1.1 = c) (live s)).

Definition ring (s : Session) (c : Z) : list Z := default [] (closed s !! c).
Definition was_closed (s : Session) (c id : Z) : bool := bool_decide (id ∈ ring s c).
Definition remember (r : list Z) (id : Z) : list Z :=
  if decide (id ∈ r) then r else (if len r =? CLOSED_RING then tail r else r) ++ [id].
Definition retire (s : Session) (c id : Z) : Session :=
  s <| lines := alter let_go (c, id) (lines s) |> <| closed := <[c := remember (ring s c) id]> (closed s) |>.
Definition forget (s : Session) (c : Z) : Session :=
  s <| lines := map_imap (λ k l, Some (if decide (k.1 = c) then let_go l else l)) (lines s) |> <| closed := delete c (closed s) |>.

(** ** What the session sends *)

Inductive Frame := FReset (k : Key) (reason : Fields.ForwardResetReason) | FOut (k : Key) (o : Ends.Output).
(** What the sinks have yet to answer, and the frames they took. *)
Definition Out : Type := list bool * list Frame.
Definition queue_reset (o : Out) (k : Key) (reason : Fields.ForwardResetReason) : Out :=
  match o.1 with true :: rest => (rest, o.2 ++ [FReset k reason]) | _ => (tail o.1, o.2) end.

Definition forward_reset (s : Session) (c id : Z) (reason : Fields.ForwardResetReason) (o : Out) : Session * Out :=
  (retire s c id, queue_reset o (c, id) reason).
Definition retire_forward (s : Session) (c id : Z) (reason : Fields.ForwardResetReason) (o : Out) : Session * Out :=
  if decide (c ∈ attachments s) then forward_reset s c id reason o else (retire s c id, o).
Definition unknown_forward (s : Session) (c id : Z) (o : Out) : Out :=
  if was_closed s c id then queue_reset o (c, id) Fields.Closed else o.

(** ** Opening *)

(** [slot], [opened]: the daemon had room, and the thread was had.  The threads of a forward that had
    this id before may still run, and go on under it. *)
Definition start_forward (s : Session) (c id : Z) (slot opened : bool) (o : Out) : Session * Out :=
  match entry s (c, id) with
  | Some _ => forward_reset s c id Fields.Internal o
  | None =>
      if was_closed s c id then forward_reset s c id Fields.Internal o
      else if ForwardTable.MAX_FORWARDS <=? Z.of_nat (held_by s c) then forward_reset s c id Fields.Limit o
      else if negb slot then forward_reset s c id Fields.Limit o
      else if negb opened then forward_reset s c id Fields.Internal o
      else
        let before := match lines s !! (c, id) with Some l => [((c, id), l)] | None => [] end in
        (put (s <| strays := strays s ++ before |>) (c, id) Forwarding.line_new, o)
  end.

(** ** Frames of a client ([forward_frame]) *)

Definition on_data (s : Session) (c id : Z) (seg : Segment) (payload : list Z) (o : Out) : Session * Out :=
  match entry s (c, id) with
  | None => (s, unknown_forward s c id o)
  | Some l =>
      let '(r, st) := Stream.on_data (Forwarding.stream (Forwarding.fwd l)) (off seg) (fin seg) payload in
      let s := put s (c, id) (l <| Forwarding.fwd := (Forwarding.fwd l) <| Forwarding.stream := st |> |>) in
      match r with Ok _ => (s, o) | Err _ => forward_reset s c id Fields.Internal o end
  end.
Definition on_ack (s : Session) (c id : Z) (a : Recv.Ack) (now : Instant) (o : Out) : Session * Out :=
  match entry s (c, id) with
  | None => (s, unknown_forward s c id o)
  | Some l =>
      let '(r, st) := Stream.on_ack (Forwarding.stream (Forwarding.fwd l)) (Recv.ack_off a) (Recv.ack_window a) (Recv.ack_held a) now in
      let s := put s (c, id) (l <| Forwarding.fwd := (Forwarding.fwd l) <| Forwarding.stream := st |> |>) in
      match r with Ok _ => (s, o) | Err _ => forward_reset s c id Fields.Internal o end
  end.

(** ** Posts of a forward's threads ([forward_connected], [forward_read], [forward_eof]) *)

(** A forward that had a socket and is given another: what wrote the old one is told to end
    ([Drop for ForwardWrite]), and goes on with what it has. *)
Definition displace (s : Session) (f : Forwarding.Forward) (p : Forwarding.Post) : Session :=
  match p, Forwarding.link f with
  | Forwarding.PConnected, Some x => s <| loose := loose s ++ [x <| Forwarding.buffer := Forwarding.drop_write (Forwarding.buffer x) |>] |>
  | _, _ => s
  end.
(** [reason]: why a dial failed. *)
Definition deliver (s : Session) (k : Key) (p : Forwarding.Post) (now : Instant) (reason : Fields.ForwardResetReason) (o : Out) : Session * Out :=
  match p with
  | Forwarding.PRefused => retire_forward s k.1 k.2 reason o
  | Forwarding.PEof true => retire_forward s k.1 k.2 Fields.Internal o
  | _ =>
      match entry s k with
      | None => (s, o)
      | Some l => (put (displace s (Forwarding.fwd l) p) k (l <| Forwarding.fwd := (Forwarding.take_post (Forwarding.fwd l) p now).2 |>), o)
      end
  end.
(** The oldest post of a line, and of a stray. *)
Definition take_post (s : Session) (k : Key) (now : Instant) (reason : Fields.ForwardResetReason) (o : Out) : Session * Out :=
  match lines s !! k with
  | Some l => match Forwarding.posted l with [] => (s, o) | p :: rest => deliver (put s k (l <| Forwarding.posted := rest |>)) k p now reason o end
  | None => (s, o)
  end.
Definition put_stray (s : Session) (i : nat) (k : Key) (l : Forwarding.Line) : Session := s <| strays := <[i := (k, l)]> (strays s) |>.
Definition take_stray (s : Session) (i : nat) (now : Instant) (reason : Fields.ForwardResetReason) (o : Out) : Session * Out :=
  match strays s !! i with
  | Some (k, l) => match Forwarding.posted l with [] => (s, o) | p :: rest => deliver (put_stray s i k (l <| Forwarding.posted := rest |>)) k p now reason o end
  | None => (s, o)
  end.
(** A step of one of a line's threads, if it is one. *)
Definition own_step (l : Forwarding.Line) (x : Forwarding.Step) : Forwarding.Line :=
  match x with
  | Forwarding.TReset | Forwarding.TTake _ | Forwarding.TData _ _ | Forwarding.TAck _ _ | Forwarding.TPump _ _ _ _ _ => l
  | _ => match Forwarding.step l x with Some (_, l, _) => l | None => l end
  end.
Definition thread (s : Session) (k : Key) (x : Forwarding.Step) : Session :=
  match lines s !! k with Some l => put s k (own_step l x) | None => s end.
Definition stray_thread (s : Session) (i : nat) (x : Forwarding.Step) : Session :=
  match strays s !! i with Some (k, l) => put_stray s i k (own_step l x) | None => s end.
Definition loose_thread (s : Session) (i : nat) (x : Forwarding.SockStep) : Session :=
  match loose s !! i with Some y => s <| loose := <[i := Forwarding.sock_step y x]> (loose s) |> | None => s end.

(** ** The pump ([pump_forwards]) *)

Record Pass := mkPass { p_session : Session; p_out : Out; p_retired : list (Key * option Fields.ForwardResetReason) }.
Definition pump_one (p : Pass) (k : Key) (now : Instant) (budget : Z) (front cut : nat) : option Pass :=
  match entry (p_session p) k with
  | None => Some p
  | Some l =>
      if decide (k.1 ∈ attachments (p_session p)) then
        '(alive, f, io) ← Forwarding.pump (Forwarding.fwd l) (Ends.mkIo (p_out p).1 []) now budget front cut;
        let s := put (p_session p) k (l <| Forwarding.fwd := f |>) in
        let o := (Ends.answers io, (p_out p).2 ++ (FOut k <$> Ends.sent io)) in
        let fate := match alive with true => if Forwarding.is_done f then [(k, None)] else [] | false => [(k, Some Fields.Internal)] end in
        Some (mkPass s o (p_retired p ++ fate))
      else Some p
  end.
(** The budget is the attachment's. *)
Fixpoint pump_all (p : Pass) (ks : list Key) (now : Instant) (budget : Z → Z) (front cut : Key → nat) : option Pass :=
  match ks with
  | [] => Some p
  | k :: ks => p ← pump_one p k now (budget k.1) (front k) (cut k); pump_all p ks now budget front cut
  end.
Definition retire_one (so : Session * Out) (x : Key * option Fields.ForwardResetReason) : Session * Out :=
  match x.2 with Some reason => retire_forward so.1 x.1.1 x.1.2 reason so.2 | None => (retire so.1 x.1.1 x.1.2, so.2) end.
(** [ks]: the keys of the table, in the order it has them. *)
Definition pump_forwards (s : Session) (ks : list Key) (now : Instant) (budget : Z → Z) (front cut : Key → nat) (o : Out) : option (Session * Out) :=
  p ← pump_all (mkPass s o []) ks now budget front cut;
  Some (foldl retire_one (p_session p, p_out p) (p_retired p)).

(** ** Clients that come and go *)

(** [Actor::retire] *)
Definition retire_stream (s : Session) (c : Z) : Session :=
  let s := s <| kept := filter (λ d, d ≠ c) (kept s) ++ [c] |> in
  if MAX_ATTACHMENTS <? len (kept s) then
    match kept s with [] => s | gone :: rest => forget (s <| kept := rest |>) gone end
  else s.
Definition drop_attachment (s : Session) (c : Z) : Session :=
  retire_stream (s <| attachments := filter (λ d, d ≠ c) (attachments s) |>) c.
(** [take_stream] *)
Definition take_stream (s : Session) (c : Z) : Session := s <| kept := filter (λ d, d ≠ c) (kept s) |>.
(** [slot], [greeted]: the daemon had room, and the sink took what a client is first sent. *)
Definition attach (s : Session) (c : Z) (slot greeted : bool) : Session :=
  let here := bool_decide (c ∈ attachments s) in
  let s := if here then drop_attachment s c else s in
  if negb here && (MAX_ATTACHMENTS <=? len (attachments s)) then s
  else if slot then
    let s := take_stream s c in
    let s := s <| attachments := attachments s ++ [c] |> in
    if greeted then s else drop_attachment s c
  else s.

(** ** Everything that happens to it *)

Inductive Event :=
| SAttach (c : Z) (slot greeted : bool) | SDetach (c : Z)
| SOpen (k : Key) (slot opened : bool) (answers : list bool)
| SData (k : Key) (seg : Segment) (payload : list Z) (answers : list bool) | SAck (k : Key) (a : Recv.Ack) (now : Instant) (answers : list bool) | SReset (k : Key)
| STake (k : Key) (now : Instant) (reason : Fields.ForwardResetReason) (answers : list bool) | SThread (k : Key) (x : Forwarding.Step)
| STakeStray (i : nat) (now : Instant) (reason : Fields.ForwardResetReason) (answers : list bool) | SStray (i : nat) (x : Forwarding.Step) | SLoose (i : nat) (x : Forwarding.SockStep)
| SPump (ks : list Key) (now : Instant) (budget : Z → Z) (front cut : Key → nat) (answers : list bool).

(** A client's frame is read while it is attached.  [None]: a panic. *)
Definition step (s : Session) (v : Event) : option (Session * list Frame) :=
  let from (k : Key) (r : Session * Out) : option (Session * list Frame) :=
    Some (if decide (k.1 ∈ attachments s) then (r.1, r.2.2) else (s, [])) in
  match v with
  | SAttach c slot greeted => Some (attach s c slot greeted, [])
  | SDetach c => Some (if decide (c ∈ attachments s) then drop_attachment s c else s, [])
  | SOpen k slot opened answers => from k (start_forward s k.1 k.2 slot opened (answers, []))
  | SData k seg payload answers => from k (on_data s k.1 k.2 seg payload (answers, []))
  | SAck k a now answers => from k (on_ack s k.1 k.2 a now (answers, []))
  | SReset k => from k (retire s k.1 k.2, ([], []))
  | STake k now reason answers => let '(s, o) := take_post s k now reason (answers, []) in Some (s, o.2)
  | SThread k x => Some (thread s k x, [])
  | STakeStray i now reason answers => let '(s, o) := take_stray s i now reason (answers, []) in Some (s, o.2)
  | SStray i x => Some (stray_thread s i x, [])
  | SLoose i x => Some (loose_thread s i x, [])
  | SPump ks now budget front cut answers => '(s, o) ← pump_forwards s ks now budget front cut (answers, []); Some (s, o.2)
  end.
Fixpoint run (s : Session) (vs : list Event) : option (Session * list Frame) :=
  match vs with [] => Some (s, []) | v :: vs => '(s, a) ← step s v; '(s, b) ← run s vs; Some (s, a ++ b) end.

(** ** Each forward on its own *)

#[local] Abbreviation moves := (Ends.moves (E := Forwarding.Line) (X := Forwarding.Step)).

(** The frames of one forward, what arrived for it, and the keys that were opened. *)
Definition outs (k : Key) (fs : list Frame) : list Ends.Output := omap (λ f, match f with FOut i o => if decide (i = k) then Some o else None | FReset _ _ => None end) fs.
Definition arrives (k : Key) (v : Event) : option Ends.Input :=
  match v with
  | SData i seg b _ => if decide (i = k) then Some (Ends.IData seg b) else None
  | SAck i a now _ => if decide (i = k) then Some (Ends.IAck a now) else None
  | _ => None
  end.
Definition opens (v : Event) : option Key := match v with SOpen k _ _ _ => Some k | _ => None end.
(** The table's keys are all different, and a size is not negative. *)
Definition event_fine (v : Event) : Prop := match v with SPump ks _ budget _ _ _ => NoDup ks ∧ ∀ c, 0 ≤ budget c | _ => True end.

Lemma session_outs_app k a b : outs k (a ++ b) = outs k a ++ outs k b.
Proof. apply omap_app. Qed.
Lemma session_outs_own k os : outs k (FOut k <$> os) = os.
Proof. unfold outs. induction os as [|o os IH]; [done|]. cbn. rewrite decide_True by done. by rewrite IH. Qed.
Lemma session_outs_other k k' os : k' ≠ k → outs k (FOut k' <$> os) = [].
Proof. intros H. unfold outs. induction os as [|o os IH]; [done|]. cbn. by rewrite decide_False. Qed.
Lemma outs_reset o k r k' : outs k' (queue_reset o k r).2 = outs k' o.2.
Proof. unfold queue_reset. destruct o.1 as [|[] rest]; try done. cbn [snd]. rewrite session_outs_app. apply app_nil_r. Qed.
Lemma outs_unknown s c id o k : outs k (unknown_forward s c id o).2 = outs k o.2.
Proof. unfold unknown_forward. destruct (was_closed s c id); [apply outs_reset|done]. Qed.

Lemma let_go_moves l : moves [] l [] (let_go l).
Proof. exact (Ends.moves_one l Forwarding.TReset true (let_go l) [] eq_refl I). Qed.

Lemma session_lines_retire s c id k : lines (retire s c id) !! k = if decide (k = (c, id)) then let_go <$> lines s !! k else lines s !! k.
Proof. unfold retire. cbn. case_decide as H; [subst; apply lookup_alter_eq|by rewrite lookup_alter_ne]. Qed.
Lemma lines_forget s c k : lines (forget s c) !! k = (if decide (k.1 = c) then let_go <$> lines s !! k else lines s !! k).
Proof. unfold forget. cbn. rewrite map_lookup_imap. destruct (lines s !! k) as [l|]; cbn; by case_decide. Qed.
Lemma lines_retire_forward s c id r o k : lines (retire_forward s c id r o).1 !! k = if decide (k = (c, id)) then let_go <$> lines s !! k else lines s !! k.
Proof. unfold retire_forward. destruct (decide (c ∈ attachments s)); apply session_lines_retire. Qed.
Lemma outs_retire_forward s c id r o k : outs k (retire_forward s c id r o).2.2 = outs k o.2.
Proof. unfold retire_forward. destruct (decide (c ∈ attachments s)); [apply outs_reset|done]. Qed.

(** Nothing but letting go. *)
Definition lets_go (s s' : Session) : Prop := ∀ k, lines s' !! k = lines s !! k ∨ lines s' !! k = let_go <$> lines s !! k.
Lemma let_go_again l : let_go (let_go l) = let_go l.
Proof. unfold let_go. destruct (Forwarding.retired l) eqn:E; by rewrite ?E. Qed.
Lemma lets_go_trans s s' s'' : lets_go s s' → lets_go s' s'' → lets_go s s''.
Proof.
  intros H1 H2 k. destruct (H1 k) as [E1|E1], (H2 k) as [E2|E2]; rewrite E2, E1; auto. right. destruct (lines s !! k); [|done]. cbn. by rewrite let_go_again.
Qed.
Lemma retire_lets_go s c id : lets_go s (retire s c id).
Proof. intros k. rewrite session_lines_retire. case_decide; auto. Qed.
Lemma forget_lets_go s c : lets_go s (forget s c).
Proof. intros k. rewrite lines_forget. case_decide; auto. Qed.
Lemma drop_attachment_lets_go s c : lets_go s (drop_attachment s c).
Proof.
  unfold drop_attachment, retire_stream. cbn zeta. destruct (_ <? _); [|by left]. destruct (kept _) as [|gone rest]; [by left|]. intros k. rewrite lines_forget. cbn. case_decide; auto.
Qed.
Lemma attach_lets_go s c slot greeted : lets_go s (attach s c slot greeted).
Proof.
  unfold attach. set (s1 := if bool_decide (c ∈ attachments s) then drop_attachment s c else s). assert (lets_go s s1) as H1 by (unfold s1; destruct (bool_decide _); [apply drop_attachment_lets_go|by left]).
  clearbody s1. destruct (_ && _); [done|]. destruct slot; [|done]. destruct greeted; [done|]. eapply lets_go_trans; [exact H1|]. match goal with |- lets_go _ (drop_attachment ?x c) => intros k; exact (drop_attachment_lets_go x c k) end.
Qed.

(** What one event does to one forward. *)
Definition one_moves (k : Key) (v : Event) (s s' : Session) (fs : list Frame) : Prop :=
  match lines s !! k with
  | Some l0 => ∃ l ins, lines s' !! k = Some l ∧ ins `sublist_of` option_list (arrives k v) ∧ moves ins l0 (outs k fs) l
  | None => outs k fs = [] ∧ ∀ l, lines s' !! k = Some l → opens v = Some k ∧ l = Forwarding.line_new
  end.
Lemma session_one_same k v s s' fs : lines s' !! k = lines s !! k → outs k fs = [] → one_moves k v s s' fs.
Proof. intros E Eo. unfold one_moves. rewrite E, Eo. destruct (lines s !! k) as [l0|]; [exists l0, []; split_and!; [done|apply sublist_nil_l|apply Ends.moves_none]|done]. Qed.
Lemma one_lets_go k v s s' fs : lines s' !! k = lines s !! k ∨ lines s' !! k = let_go <$> lines s !! k → outs k fs = [] → one_moves k v s s' fs.
Proof.
  intros [E|E] Eo; [by apply session_one_same|]. unfold one_moves. rewrite E, Eo. destruct (lines s !! k) as [l0|]; [|done]. exists (let_go l0), []. split_and!; [done|apply sublist_nil_l|apply let_go_moves].
Qed.
Lemma session_one_step k v s s' fs l0 x ok l : lines s !! k = Some l0 → lines s' !! k = Some l → outs k fs = [] → Forwarding.step l0 x = Some (ok, l, []) → Forwarding.step_fine x → Forwarding.input_of x = arrives k v → one_moves k v s s' fs.
Proof. intros E E' Eo Hs Hf Hx. unfold one_moves. rewrite E, <- Hx, Eo. exists l, (option_list (Forwarding.input_of x)). split_and!; [done|done|]. exact (Ends.moves_one l0 x ok l [] Hs Hf). Qed.

Lemma session_entry_spec s k : match entry s k with Some l => lines s !! k = Some l ∧ Forwarding.retired l = false | None => ∀ l, lines s !! k = Some l → Forwarding.retired l = true end.
Proof. unfold entry. destruct (lines s !! k) as [l|]; cbn; [|done]. destruct (Forwarding.retired l) eqn:E; [|done]. by intros ? [= <-]. Qed.
Lemma key_eta (k : Key) : (k.1, k.2) = k.
Proof. by destruct k. Qed.

Lemma session_data_moves s k seg b o k' ans : outs k' o.2 = [] → let r := on_data s k.1 k.2 seg b o in one_moves k' (SData k seg b ans) s r.1 r.2.2.
Proof.
  intros Ho r. unfold r, on_data. rewrite key_eta. pose proof (session_entry_spec s k) as He. destruct (entry s k) as [l|]; [|apply session_one_same; [done|by cbn [snd]; rewrite outs_unknown]].
  destruct He as [El Er]. destruct (Stream.on_data _ (off seg) (fin seg) b) as [res st] eqn:Ed. set (l1 := l <| Forwarding.fwd := (Forwarding.fwd l) <| Forwarding.stream := st |> |>). assert (let_go l1 = Forwarding.retire l1) as Eg by (unfold let_go; change (Forwarding.retired l1) with (Forwarding.retired l); by rewrite Er). cbn zeta.
  destruct (decide (k' = k)) as [->|Hne].
  - eapply (session_one_step _ _ _ _ _ l (Forwarding.TData seg b) (match res with Ok _ => true | Err _ => false end) (match res with Ok _ => l1 | Err _ => Forwarding.retire l1 end)); [done| | | |done|cbn; by rewrite decide_True].
    + destruct res; cbn [fst forward_reset]; [cbn; by rewrite lookup_insert_eq|]. rewrite session_lines_retire, key_eta, decide_True by done. cbn. by rewrite lookup_insert_eq, <- Eg.
    + destruct res; [done|]. cbn [snd forward_reset]. by rewrite outs_reset.
    + cbn. rewrite Er, Ed. by destruct res.
  - apply session_one_same.
    + destruct res; cbn [fst forward_reset]; [cbn; by rewrite lookup_insert_ne|]. rewrite session_lines_retire, key_eta, decide_False by done. cbn. by rewrite lookup_insert_ne.
    + destruct res; [done|]. cbn [snd forward_reset]. by rewrite outs_reset.
Qed.
Lemma session_ack_moves s k a now o k' ans : outs k' o.2 = [] → let r := on_ack s k.1 k.2 a now o in one_moves k' (SAck k a now ans) s r.1 r.2.2.
Proof.
  intros Ho r. unfold r, on_ack. rewrite key_eta. pose proof (session_entry_spec s k) as He. destruct (entry s k) as [l|]; [|apply session_one_same; [done|by cbn [snd]; rewrite outs_unknown]].
  destruct He as [El Er]. destruct (Stream.on_ack _ _ _ _ now) as [res st] eqn:Ed. set (l1 := l <| Forwarding.fwd := (Forwarding.fwd l) <| Forwarding.stream := st |> |>). assert (let_go l1 = Forwarding.retire l1) as Eg by (unfold let_go; change (Forwarding.retired l1) with (Forwarding.retired l); by rewrite Er). cbn zeta.
  destruct (decide (k' = k)) as [->|Hne].
  - eapply (session_one_step _ _ _ _ _ l (Forwarding.TAck a now) (match res with Ok _ => true | Err _ => false end) (match res with Ok _ => l1 | Err _ => Forwarding.retire l1 end)); [done| | | |done|cbn; by rewrite decide_True].
    + destruct res; cbn [fst forward_reset]; [cbn; by rewrite lookup_insert_eq|]. rewrite session_lines_retire, key_eta, decide_True by done. cbn. by rewrite lookup_insert_eq, <- Eg.
    + destruct res; [done|]. cbn [snd forward_reset]. by rewrite outs_reset.
    + cbn. rewrite Er, Ed. by destruct res.
  - apply session_one_same.
    + destruct res; cbn [fst forward_reset]; [cbn; by rewrite lookup_insert_ne|]. rewrite session_lines_retire, key_eta, decide_False by done. cbn. by rewrite lookup_insert_ne.
    + destruct res; [done|]. cbn [snd forward_reset]. by rewrite outs_reset.
Qed.

Lemma lines_displace s f p : lines (displace s f p) = lines s.
Proof. unfold displace. destruct p; try done. by destruct (Forwarding.link f). Qed.
Lemma lines_put s k l k' : lines (put s k l) !! k' = if decide (k' = k) then Some l else lines s !! k'.
Proof. cbn. case_decide; [subst; by rewrite lookup_insert_eq|by rewrite lookup_insert_ne]. Qed.
(** A post moves no line but the one it is for. *)
Lemma deliver_other s k p now reason o k' : k' ≠ k → lines (deliver s k p now reason o).1 !! k' = lines s !! k' ∧ outs k' (deliver s k p now reason o).2.2 = outs k' o.2.
Proof.
  intros Hne. assert (∀ r, lines (retire_forward s k.1 k.2 r o).1 !! k' = lines s !! k' ∧ outs k' (retire_forward s k.1 k.2 r o).2.2 = outs k' o.2) as Hr.
  { intros r. by rewrite outs_retire_forward, lines_retire_forward, key_eta, decide_False. }
  unfold deliver. destruct p as [|chunk|[]|]; try apply Hr; (destruct (entry s k) as [l|]; [|done]); cbn [fst snd]; (split; [|done]); by rewrite lines_put, decide_False, ?lines_displace.
Qed.
Lemma post_moves s k now reason o k' v : outs k' o.2 = [] → arrives k' v = None → let r := take_post s k now reason o in one_moves k' v s r.1 r.2.2.
Proof.
  intros Ho Hv r. unfold r, take_post. destruct (lines s !! k) as [l|] eqn:El; [|by apply session_one_same]. destruct (Forwarding.posted l) as [|p rest] eqn:Ep; [by apply session_one_same|].
  set (l1 := l <| Forwarding.posted := rest |>). destruct (decide (k' = k)) as [->|Hne].
  2:{ destruct (deliver_other (put s k l1) k p now reason o k' Hne) as [E1 E2]. apply session_one_same; [rewrite E1; cbn; by rewrite lookup_insert_ne|by rewrite E2]. }
  assert (entry (put s k l1) k = if Forwarding.retired l then None else Some l1) as Ee by (unfold entry; cbn; by rewrite lookup_insert_eq).
  assert (∀ r o', outs k (retire_forward (put s k l1) k.1 k.2 r o').2.2 = outs k o'.2 ∧ lines (retire_forward (put s k l1) k.1 k.2 r o').1 !! k = Some (if Forwarding.retired l then l1 else Forwarding.retire l1)) as Hr.
  { intros rr o'. rewrite outs_retire_forward, lines_retire_forward, key_eta, decide_True by done. split; [done|]. change (lines (put s k l1)) with (<[k := l1]> (lines s)). by rewrite lookup_insert_eq. }
  eapply (session_one_step _ _ _ _ _ l (Forwarding.TTake now) (Forwarding.retired l || (Forwarding.take_post (Forwarding.fwd l) p now).1)
    (if Forwarding.retired l then l1 else if (Forwarding.take_post (Forwarding.fwd l) p now).1 then l1 <| Forwarding.fwd := (Forwarding.take_post (Forwarding.fwd l) p now).2 |> else Forwarding.retire l1)); [done| | | |done|done]; unfold deliver.
  - destruct p as [|chunk|[]|]; try (rewrite (proj2 (Hr _ o)); by destruct (Forwarding.retired l)); rewrite Ee; destruct (Forwarding.retired l); cbn [fst snd]; by rewrite lines_put, decide_True.
  - destruct p as [|chunk|[]|]; try (by rewrite (proj1 (Hr _ o))); rewrite Ee; by destruct (Forwarding.retired l).
  - cbn. rewrite Ep. change (Forwarding.retired (l <| Forwarding.posted := rest |>)) with (Forwarding.retired l). change (Forwarding.fwd (l <| Forwarding.posted := rest |>)) with (Forwarding.fwd l). destruct (Forwarding.retired l); [done|].
    destruct p as [|chunk|[]|]; cbn; try done; unfold l1; by destruct l as [[] ? ? ? ?].
Qed.
Lemma own_step_moves l x : own_step l x = l ∨ ∃ ok, Forwarding.step l x = Some (ok, own_step l x, []) ∧ Forwarding.input_of x = None ∧ Forwarding.step_fine x.
Proof. destruct x; try (by left); right; by eexists. Qed.
Lemma session_thread_moves s k x k' v : arrives k' v = None → one_moves k' v s (thread s k x) [].
Proof.
  intros Hv. unfold thread. destruct (lines s !! k) as [l|] eqn:El; [|by apply session_one_same]. destruct (decide (k' = k)) as [->|Hne]; [|apply session_one_same; [cbn; by rewrite lookup_insert_ne|done]].
  assert (lines (put s k (own_step l x)) !! k = Some (own_step l x)) as E by (cbn; by rewrite lookup_insert_eq).
  destruct (own_step_moves l x) as [Es|(ok & Es & Hx & Hf)]; [apply session_one_same; [by rewrite E, Es, El|done]|]. by eapply session_one_step; [exact El|exact E|..|rewrite Hx, Hv].
Qed.

(** *** Strays *)

(** No thread posts under [k] but those of its line. *)
Definition clean (k : Key) (s : Session) : Prop := Forall (λ x, x.1 ≠ k) (strays s).
Lemma clean_lookup k s i x : clean k s → strays s !! i = Some x → x.1 ≠ k.
Proof. intros H Hx. unfold clean in H. rewrite Forall_lookup in H. by eapply H. Qed.
Lemma stray_post_moves s i now reason o k v : clean k s → outs k o.2 = [] → let r := take_stray s i now reason o in one_moves k v s r.1 r.2.2.
Proof.
  intros Hc Ho r. unfold r, take_stray. destruct (strays s !! i) as [[k0 l]|] eqn:E; [|by apply session_one_same]. destruct (Forwarding.posted l) as [|p rest]; [by apply session_one_same|].
  pose proof (clean_lookup k s i _ Hc E) as Hne. cbn in Hne. destruct (deliver_other (put_stray s i k0 (l <| Forwarding.posted := rest |>)) k0 p now reason o k) as [E1 E2]; [done|]. apply session_one_same; [by rewrite E1|by rewrite E2].
Qed.

Lemma strays_retire_forward s c id r o : strays (retire_forward s c id r o).1 = strays s.
Proof. unfold retire_forward. by destruct (decide _). Qed.
Lemma strays_deliver s k p now reason o : strays (deliver s k p now reason o).1 = strays s.
Proof.
  assert (∀ f q, strays (displace s f q) = strays s) as Hd by (intros f q; unfold displace; destruct q; try done; by destruct (Forwarding.link f)).
  unfold deliver. destruct p as [|chunk|[]|]; rewrite ?strays_retire_forward; try done; (destruct (entry s k); [|done]); apply Hd.
Qed.
Lemma strays_drop s c : strays (drop_attachment s c) = strays s.
Proof. unfold drop_attachment, retire_stream. cbn zeta. destruct (_ <? _); [|done]. by destruct (kept _). Qed.
Lemma strays_attach s c slot greeted : strays (attach s c slot greeted) = strays s.
Proof.
  unfold attach. set (s1 := if bool_decide (c ∈ attachments s) then drop_attachment s c else s). assert (strays s1 = strays s) as H1 by (unfold s1; destruct (bool_decide _); [apply strays_drop|done]).
  clearbody s1. destruct (_ && _); [done|]. destruct slot; [|done]. destruct greeted; [done|]. by rewrite strays_drop.
Qed.
Lemma strays_pump ks p now budget front cut p' : pump_all p ks now budget front cut = Some p' → strays (p_session p') = strays (p_session p).
Proof.
  revert p. induction ks as [|k ks IH]; intros p H; cbn [pump_all] in H; [by injection H as <-|]. destruct (pump_one p k now _ _ _) as [p1|] eqn:E; [|done]. cbn [mbind option_bind] in H. rewrite (IH p1 H).
  unfold pump_one in E. destruct (entry _ k) as [l|]; [|by injection E as <-]. destruct (decide _); [|by injection E as <-]. destruct (Forwarding.pump _ _ now _ _ _) as [[[alive f] io]|]; [|done]. by injection E as <-.
Qed.
Lemma strays_retire_all rs so : strays (foldl retire_one so rs).1 = strays so.1.
Proof. revert so. induction rs as [|[k r] rs IH]; intros so; [done|]. cbn [foldl]. rewrite IH. unfold retire_one. cbn [fst snd]. destruct r; [apply strays_retire_forward|done]. Qed.

Lemma step_clean k s v s' fs : clean k s → (opens v = Some k → lines s !! k = None) → step s v = Some (s', fs) → clean k s'.
Proof.
  intros H Ho Hs. assert (strays s' = strays s → clean k s') as Hsame by (unfold clean; by intros ->).
  destruct v as [c slot greeted|c|k' slot opened ans|k' seg b ans|k' a now ans|k'|k' now reason ans|k' x|i now reason ans|i x|i x|ks now budget front cut ans]; cbn [step] in Hs.
  - injection Hs as <- <-. apply Hsame, strays_attach.
  - injection Hs as <- <-. apply Hsame. destruct (decide _); [apply strays_drop|done].
  - destruct (decide _); injection Hs as <- <-; [|done]. clear Hsame. unfold start_forward. rewrite key_eta. destruct (entry s k'); [done|]. destruct (was_closed _ _ _); [done|]. destruct (_ <=? _); [done|].
    destruct slot; [|done]. destruct opened; [|done]. unfold clean. cbn. apply Forall_app. split; [exact H|]. destruct (lines s !! k') as [l|] eqn:El; constructor; [|constructor]. intros E. cbn in E. subst k'. by rewrite (Ho eq_refl) in El.
  - apply Hsame. destruct (decide _); injection Hs as <- <-; [|done]. unfold on_data. destruct (entry _ _); [|done]. by destruct (Stream.on_data _ _ _ b) as [[] st].
  - apply Hsame. destruct (decide _); injection Hs as <- <-; [|done]. unfold on_ack. destruct (entry _ _); [|done]. by destruct (Stream.on_ack _ _ _ _ now) as [[] st].
  - apply Hsame. by destruct (decide _); injection Hs as <- <-.
  - apply Hsame. unfold take_post in Hs. destruct (lines s !! k') as [l|]; [|by simplify_eq]. destruct (Forwarding.posted l) as [|p rest]; [by simplify_eq|]. pose proof (strays_deliver (put s k' (l <| Forwarding.posted := rest |>)) k' p now reason (ans, [])) as E. destruct (deliver _ _ _ _ _ _). by injection Hs as <- _.
  - injection Hs as <- <-. apply Hsame. unfold thread. by destruct (lines s !! k').
  - unfold take_stray in Hs. destruct (strays s !! i) as [[k0 l]|] eqn:E; [|by simplify_eq]. destruct (Forwarding.posted l) as [|p rest]; [by simplify_eq|].
    pose proof (strays_deliver (put_stray s i k0 (l <| Forwarding.posted := rest |>)) k0 p now reason (ans, [])) as E1. destruct (deliver _ _ _ _ _ _). injection Hs as <- _. unfold clean. cbn in E1. rewrite E1. apply Forall_insert; [exact H|]. exact (clean_lookup k s i _ H E).
  - injection Hs as <- <-. unfold stray_thread. destruct (strays s !! i) as [[k0 l]|] eqn:E; [|done]. apply Forall_insert; [exact H|]. exact (clean_lookup k s i _ H E).
  - injection Hs as <- <-. apply Hsame. unfold loose_thread. by destruct (loose s !! i).
  - apply Hsame. unfold pump_forwards in Hs. destruct (pump_all _ ks now budget front cut) as [p|] eqn:E; [|done]. cbn [mbind option_bind] in Hs. pose proof (strays_retire_all (p_retired p) (p_session p, p_out p)) as E1. cbn [fst] in E1. rewrite (strays_pump _ _ _ _ _ _ _ E) in E1. destruct (foldl retire_one _ _). by injection Hs as <- _.
Qed.

Lemma session_open_moves s k slot opened o k' ans : outs k' o.2 = [] → (k' = k → lines s !! k = None) → let r := start_forward s k.1 k.2 slot opened o in one_moves k' (SOpen k slot opened ans) s r.1 r.2.2.
Proof.
  intros Ho Hk r. unfold r, start_forward. rewrite key_eta. assert (∀ r, let x := forward_reset s k.1 k.2 r o in one_moves k' (SOpen k slot opened ans) s x.1 x.2.2) as Hr.
  { intros x. cbn [fst snd forward_reset]. rewrite key_eta. apply one_lets_go; [apply retire_lets_go|by rewrite outs_reset]. }
  destruct (entry s k); [apply Hr|]. destruct (was_closed s k.1 k.2); [apply Hr|]. destruct (_ <=? _); [apply Hr|]. destruct slot; [|apply Hr]. destruct opened; [|apply Hr]. cbn [negb fst snd]. clear Hr.
  destruct (decide (k' = k)) as [->|Hne].
  - unfold one_moves. rewrite (Hk eq_refl). split; [done|]. intros l. cbn. rewrite lookup_insert_eq. by intros [= <-].
  - apply session_one_same; [|done]. cbn. by rewrite lookup_insert_ne.
Qed.

(** A pass in progress: [done_] were served. *)
Definition pass_ok (s0 : Session) (done_ : list Key) (p : Pass) : Prop := ∀ k,
  match lines s0 !! k with
  | None => lines (p_session p) !! k = None ∧ outs k (p_out p).2 = [] ∧ k ∉ (p_retired p).*1
  | Some l0 => ∃ l, lines (p_session p) !! k = Some l ∧
      (k ∈ (p_retired p).*1 → Forwarding.retired l = false) ∧
      moves [] l0 (outs k (p_out p).2) (if decide (k ∈ (p_retired p).*1) then Forwarding.retire l else l) ∧
      (k ∉ done_ → l = l0 ∧ outs k (p_out p).2 = [] ∧ k ∉ (p_retired p).*1)
  end.

Lemma session_pump_one_ok s0 done_ p k now budget front cut p' : 0 ≤ budget → pass_ok s0 done_ p → k ∉ done_ → pump_one p k now budget front cut = Some p' → pass_ok s0 (k :: done_) p'.
Proof.
  intros Hb H Hd Hp. assert (∀ k', k' ∉ k :: done_ → k' ≠ k ∧ k' ∉ done_) as Hnin by (intros k' Hk; split; intros ?; apply Hk; subst; [by left|by right]).
  assert (pass_ok s0 (k :: done_) p) as Hsame by (intros k'; specialize (H k'); destruct (lines s0 !! k'); [|done]; destruct H as (l2 & H1 & H2 & H3 & H4); exists l2; split_and!; try done; intros Hk; by apply H4, (Hnin k')).
  unfold pump_one in Hp. pose proof (session_entry_spec (p_session p) k) as He. destruct (entry (p_session p) k) as [l|]; [|by injection Hp as <-]. destruct He as [El Er]. destruct (decide _); [|by injection Hp as <-].
  destruct (Forwarding.pump (Forwarding.fwd l) (Ends.mkIo (p_out p).1 []) now budget front cut) as [[[alive f] io]|] eqn:Epu; [|done]. cbn [mbind option_bind] in Hp.
  set (l' := l <| Forwarding.fwd := f |>). assert (∃ rs, p_session p' = put (p_session p) k l' ∧ (p_out p').2 = (p_out p).2 ++ (FOut k <$> Ends.sent io) ∧ p_retired p' = p_retired p ++ rs ∧ rs.*1 = if alive && negb (Forwarding.is_done f) then [] else [k]) as (rs & E1 & E2 & E3 & E4).
  { injection Hp as <-. destruct alive; [destruct (Forwarding.is_done f)|]; eexists; split_and!; done. }
  intros k'. specialize (H k'). rewrite E1, E2, E3, session_outs_app, fmap_app. change (lines (put (p_session p) k l')) with (<[k := l']> (lines (p_session p))). destruct (decide (k' = k)) as [->|Hne].
  - rewrite lookup_insert_eq, session_outs_own. destruct (lines s0 !! k) as [l0|]; [|by destruct H; congruence]. destruct H as (l2 & H1 & H2 & H3 & H4). destruct (H4 Hd) as (-> & H5 & H6). rewrite H1 in El. injection El as El. subst l0.
    exists l'. rewrite H5. split_and!; [done|done| |intros Hk; by destruct (Hnin _ Hk)].
    assert (Forwarding.step l (Forwarding.TPump (p_out p).1 now budget front cut) = Some (alive, if alive && negb (Forwarding.is_done f) then l' else Forwarding.retire l', Ends.sent io)) as Hs.
    { cbn [Forwarding.step]. by rewrite Er, Epu. }
    pose proof (Ends.moves_one _ _ _ _ _ Hs Hb) as Hm. cbn [app]. rewrite E4. destruct (alive && negb (Forwarding.is_done f)); [rewrite app_nil_r, decide_False by done; exact Hm|rewrite decide_True by (apply elem_of_app; right; by left); exact Hm].
  - rewrite lookup_insert_ne by done. rewrite session_outs_other by done. rewrite app_nil_r, E4. assert (k' ∈ (p_retired p).*1 ++ (if alive && negb (Forwarding.is_done f) then [] else [k]) ↔ k' ∈ (p_retired p).*1) as Hiff.
    { rewrite elem_of_app. split; [|by left]. intros [?|Hk]; [done|]. destruct (_ && _); [by apply elem_of_nil in Hk|by apply list_elem_of_singleton in Hk]. }
    destruct (lines s0 !! k') as [l0|].
    + destruct H as (l2 & H1 & H2 & H3 & H4). exists l2. split_and!; [done|intros Hk; by apply H2, Hiff| |].
      * destruct (decide (k' ∈ (p_retired p).*1)); [rewrite decide_True by (by apply Hiff)|rewrite decide_False by (by rewrite Hiff)]; done.
      * intros Hk. destruct (H4 (proj2 (Hnin k' Hk))) as (? & ? & ?). by rewrite Hiff.
    + by rewrite Hiff.
Qed.
Lemma session_pump_all_ok ks s0 done_ p now budget front cut p' : (∀ c, 0 ≤ budget c) → pass_ok s0 done_ p → NoDup ks → (∀ k, k ∈ ks → k ∉ done_) → pump_all p ks now budget front cut = Some p' → ∃ done', pass_ok s0 done' p'.
Proof.
  intros Hb. revert done_ p. induction ks as [|k ks IH]; intros done_ p H Hn Hd Hp; cbn [pump_all] in Hp; [injection Hp as <-; by exists done_|].
  apply NoDup_cons in Hn as [Hn1 Hn2]. destruct (pump_one p k now (budget k.1) (front k) (cut k)) as [p1|] eqn:E; [|done]. cbn [mbind option_bind] in Hp.
  eapply IH; [|done| |exact Hp]; [eapply session_pump_one_ok; [apply Hb|exact H| |exact E]; apply Hd; by left|]. intros k' Hk [->|Hk']%elem_of_cons; [done|]. by apply (Hd k'); [right|].
Qed.

Lemma retire_all rs so k : lines (foldl retire_one so rs).1 !! k = (if decide (k ∈ rs.*1) then let_go <$> lines so.1 !! k else lines so.1 !! k) ∧ outs k (foldl retire_one so rs).2.2 = outs k so.2.2.
Proof.
  revert so. induction rs as [|[k' r] rs IH]; intros so; cbn [foldl fmap list_fmap fst]; [by rewrite decide_False by (by intros ?%elem_of_nil)|].
  assert (lines (retire_one so (k', r)).1 !! k = (if decide (k = k') then let_go <$> lines so.1 !! k else lines so.1 !! k) ∧ outs k (retire_one so (k', r)).2.2 = outs k so.2.2) as [E1 E2].
  { unfold retire_one. cbn [fst snd]. destruct r as [r|]; [rewrite lines_retire_forward, outs_retire_forward, key_eta; done|]. cbn [fst snd]. by rewrite session_lines_retire, key_eta. }
  destruct (IH (retire_one so (k', r))) as [-> ->]. rewrite E1, E2. split; [|done]. destruct (decide (k = k')) as [->|Hne].
  - rewrite (decide_True (P := k' ∈ k' :: rs.*1)) by (by left). case_decide; [|done]. destruct (lines so.1 !! k') as [l|]; [|done]. cbn. by rewrite let_go_again.
  - destruct (decide (k ∈ rs.*1)); [rewrite decide_True by (by right)|rewrite decide_False by (by intros [?|?]%elem_of_cons)]; done.
Qed.

Lemma session_pump_moves s ks now budget front cut ans s' o' k v : NoDup ks → (∀ c, 0 ≤ budget c) → pump_forwards s ks now budget front cut (ans, []) = Some (s', o') → one_moves k v s s' o'.2.
Proof.
  intros Hn Hb Hp. unfold pump_forwards in Hp. destruct (pump_all _ ks now budget front cut) as [p|] eqn:Epa; [|done]. cbn [mbind option_bind] in Hp. injection Hp as Hp.
  destruct (session_pump_all_ok ks s [] (mkPass s (ans, []) []) now budget front cut p Hb) as [done_ Hok]; [|exact Hn|by intros ? _ ?%elem_of_nil|exact Epa|].
  { intros k'. cbn [p_session p_out p_retired fmap list_fmap snd]. destruct (lines s !! k') as [l0|]; [|split_and!; [done|done|by intros ?%elem_of_nil]]. exists l0. split_and!; [done|by intros ?%elem_of_nil| |intros _; split_and!; [done|done|by intros ?%elem_of_nil]]. rewrite decide_False by (by intros ?%elem_of_nil). apply Ends.moves_none. }
  destruct (retire_all (p_retired p) (p_session p, p_out p) k) as [E1 E2]. rewrite Hp in E1, E2. cbn [fst snd] in E1, E2. specialize (Hok k). unfold one_moves. rewrite E1, E2. destruct (lines s !! k) as [l0|].
  - destruct Hok as (l & -> & H2 & H3 & _). eexists _, []. split_and!; [|apply sublist_nil_l|exact H3]. case_decide as Hin; [|done]. cbn. unfold let_go. by rewrite H2.
  - destruct Hok as (-> & H2 & H3). by rewrite decide_False.
Qed.

Lemma session_step_moves s v s' fs k : event_fine v → clean k s → (opens v = Some k → lines s !! k = None) → step s v = Some (s', fs) → one_moves k v s s' fs.
Proof.
  intros Hf Hc Ho H. assert (∀ s, one_moves k v s s []) as Hsame by (intros; by apply session_one_same). destruct v as [c slot greeted|c|k' slot opened ans|k' seg b ans|k' a now ans|k'|k' now reason ans|k' x|i now reason ans|i x|i x|ks now budget front cut ans]; cbn [step] in H.
  - injection H as <- <-. apply one_lets_go; [apply attach_lets_go|done].
  - injection H as <- <-. destruct (decide _); [|done]. apply one_lets_go; [apply drop_attachment_lets_go|done].
  - destruct (decide _); injection H as <- <-; [|done]. apply (session_open_moves s k' slot opened (ans, []) k ans); [done|]. intros ->. by apply Ho.
  - destruct (decide _); injection H as <- <-; [|done]. exact (session_data_moves s k' seg b (ans, []) k ans eq_refl).
  - destruct (decide _); injection H as <- <-; [|done]. exact (session_ack_moves s k' a now (ans, []) k ans eq_refl).
  - destruct (decide _); injection H as <- <-; [|done]. apply one_lets_go; [apply retire_lets_go|done].
  - pose proof (post_moves s k' now reason (ans, []) k (STake k' now reason ans) eq_refl eq_refl) as Hm. cbn zeta in Hm. destruct (take_post s k' now reason (ans, [])) as [s1 o1]. by injection H as <- <-.
  - injection H as <- <-. by apply session_thread_moves.
  - pose proof (stray_post_moves s i now reason (ans, []) k (STakeStray i now reason ans) Hc eq_refl) as Hm. cbn zeta in Hm. destruct (take_stray s i now reason (ans, [])) as [s1 o1]. by injection H as <- <-.
  - injection H as <- <-. apply session_one_same; [|done]. unfold stray_thread. by destruct (strays s !! i) as [[? ?]|].
  - injection H as <- <-. apply session_one_same; [|done]. unfold loose_thread. by destruct (loose s !! i).
  - destruct (pump_forwards s ks now budget front cut (ans, [])) as [[s1 o1]|] eqn:E; [|done]. cbn [mbind option_bind] in H. injection H as <- <-. destruct Hf as [Hf1 Hf2]. by eapply session_pump_moves.
Qed.

(** How often an id is opened, and that it is once in all. *)
Definition openings (k : Key) (vs : list Event) : nat := length (filter (λ v, opens v = Some k) vs).
Definition once (k : Key) (s : Session) (vs : list Event) : Prop := (openings k vs + match lines s !! k with Some _ => 1 | None => 0 end ≤ 1)%nat.
Lemma once_opens k s v vs : once k s (v :: vs) → opens v = Some k → lines s !! k = None.
Proof. unfold once, openings. intros H E. rewrite filter_cons, decide_True in H by done. destruct (lines s !! k); [cbn in H; lia|done]. Qed.
Lemma once_step k s v vs s' fs : event_fine v → clean k s → once k s (v :: vs) → step s v = Some (s', fs) → once k s' vs.
Proof.
  intros Hf Hc H Hs. pose proof (session_step_moves s v s' fs k Hf Hc (once_opens k s v vs H) Hs) as M. unfold one_moves in M. unfold once, openings in *. rewrite filter_cons in H. destruct (lines s !! k) as [l0|].
  - destruct M as (l & _ & -> & _). case_decide; cbn [length] in H; lia.
  - destruct M as [_ M]. destruct (lines s' !! k) as [l|]; [destruct (M l eq_refl) as [E _]; rewrite decide_True in H by done|case_decide]; cbn [length] in H; lia.
Qed.
Lemma session_run_moves vs s s' fs k : run s vs = Some (s', fs) → Forall event_fine vs → clean k s → once k s vs →
  match lines s !! k with
  | Some l0 => ∃ l ins, lines s' !! k = Some l ∧ ins `sublist_of` omap (arrives k) vs ∧ moves ins l0 (outs k fs) l
  | None => ∀ l, lines s' !! k = Some l → ∃ ins, ins `sublist_of` omap (arrives k) vs ∧ moves ins Forwarding.line_new (outs k fs) l
  end.
Proof.
  revert s fs. induction vs as [|v vs IH]; intros s fs Hr Hf Hc Ho; cbn [run] in Hr.
  { injection Hr as <- <-. destruct (lines s !! k) as [l0|]; [|done]. exists l0, []. split_and!; [done|constructor|apply Ends.moves_none]. }
  destruct (step s v) as [[s1 a]|] eqn:Es; [|done]. cbn [mbind option_bind] in Hr. destruct (run s1 vs) as [[s2 b]|] eqn:Er; [|done]. cbn [mbind option_bind] in Hr. injection Hr as <- <-. apply Forall_cons in Hf as [Hf1 Hf2].
  pose proof (once_opens k s v vs Ho) as Ho1. specialize (IH s1 b Er Hf2 (step_clean k s v s1 a Hc Ho1 Es) (once_step k s v vs s1 a Hf1 Hc Ho Es)). pose proof (session_step_moves s v s1 a k Hf1 Hc Ho1 Es) as M. unfold one_moves in M. rewrite session_outs_app.
  assert (omap (arrives k) (v :: vs) = option_list (arrives k v) ++ omap (arrives k) vs) as -> by (cbn; by destruct (arrives k v)). destruct (lines s !! k) as [l0|].
  - destruct M as (l1 & ins1 & E1 & S1 & M1). rewrite E1 in IH. destruct IH as (l & ins2 & E2 & S2 & M2). exists l, (ins1 ++ ins2). split_and!; [done|by apply sublist_app|by eapply Ends.moves_trans].
  - destruct M as [-> M]. cbn [app]. destruct (lines s1 !! k) as [l1|].
    + destruct (M l1 eq_refl) as [_ ->]. destruct IH as (l & ins & E2 & S2 & M2). intros l' E3. rewrite E2 in E3. injection E3 as <-. exists ins. split; [by apply sublist_inserts_l|done].
    + intros l El. destruct (IH l El) as (ins & S2 & M2). exists ins. split; [by apply sublist_inserts_l|done].
Qed.

(** ** The table's bounds *)

Record session_ok (s : Session) : Prop := {
  so_held : ∀ c, Z.of_nat (held_by s c) ≤ ForwardTable.MAX_FORWARDS;
  so_ring : ∀ c, NoDup (ring s c) ∧ len (ring s c) ≤ CLOSED_RING;
  so_apart : ∀ c id, is_Some (entry s (c, id)) → id ∉ ring s c;
  so_owner : ∀ k, is_Some (entry s k) → k.1 ∈ attachments s ∨ k.1 ∈ kept s;
  so_roster : NoDup (attachments s) ∧ NoDup (kept s) ∧ len (attachments s) ≤ MAX_ATTACHMENTS ∧ len (kept s) ≤ MAX_ATTACHMENTS;
  so_one : ∀ c, c ∈ attachments s → c ∉ kept s
}.

Lemma live_spec s k : is_Some (live s !! k) ↔ is_Some (entry s k).
Proof.
  unfold live, entry. split.
  - intros [l Hl]. apply map_lookup_filter_Some in Hl as [E1 E2]. rewrite E1. cbn in *. rewrite E2. by eexists.
  - intros [l Hl]. destruct (lines s !! k) as [l'|] eqn:E; [|done]. cbn in Hl. destruct (Forwarding.retired l') eqn:Er; [done|]. exists l'. by apply map_lookup_filter_Some.
Qed.
Definition keys (s : Session) (c : Z) : gset Key := dom (filter (λ kl, kl.1.1 = c) (live s)).
Lemma keys_spec s c k : k ∈ keys s c ↔ is_Some (entry s k) ∧ k.1 = c.
Proof.
  unfold keys. rewrite elem_of_dom, <- live_spec. split.
  - intros [l [E1 E2]%map_lookup_filter_Some]. by split; [eexists|].
  - intros [[l E1] E2]. exists l. by apply map_lookup_filter_Some.
Qed.
Lemma held_keys s c : held_by s c = size (keys s c).
Proof. unfold held_by, keys. by rewrite size_dom. Qed.
Lemma held_sub s s' c : (∀ k, is_Some (entry s' k) → is_Some (entry s k)) → (held_by s' c ≤ held_by s c)%nat.
Proof. intros H. rewrite !held_keys. apply subseteq_size. intros k. rewrite !keys_spec. intros [? ?]. auto. Qed.
Lemma held_put s k l c : (held_by (put s k l) c ≤ held_by s c + if decide (k.1 = c) then 1 else 0)%nat.
Proof.
  assert (∀ k', k' ≠ k → entry (put s k l) k' = entry s k') as He by (intros k' Hk; unfold entry; cbn; by rewrite lookup_insert_ne). case_decide as Hk.
  - rewrite !held_keys. etrans; [apply (subseteq_size _ ({[k]} ∪ keys s c))|rewrite size_union_alt, size_singleton; etrans; [apply Nat.add_le_mono_l, (subseteq_size _ (keys s c)); set_solver|lia]].
    intros k'. rewrite elem_of_union, elem_of_singleton, !keys_spec. destruct (decide (k' = k)); [by left|]. rewrite He by done. by right.
  - rewrite Nat.add_0_r, !held_keys. apply subseteq_size. intros k'. rewrite !keys_spec. intros [H1 H2]. rewrite He in H1; [done|]. by intros ->.
Qed.

(** Live keys only go, and nothing else of the table changes. *)
Lemma kept_ok s s' : session_ok s → (∀ k, is_Some (entry s' k) → is_Some (entry s k)) → closed s' = closed s → attachments s' = attachments s → kept s' = kept s → session_ok s'.
Proof.
  intros [H1 H2 H3 H4 H5 H6] Hk Ec Ea Er. split; rewrite ?Ea, ?Er; unfold ring in *; rewrite ?Ec; try done.
  - intros c. pose proof (H1 c). pose proof (held_sub s s' c Hk). lia.
  - intros c id Hs. by apply H3, Hk.
  - intros k Hs. by apply H4, Hk.
Qed.
Lemma lets_go_entry s s' k : lets_go s s' → is_Some (entry s' k) → is_Some (entry s k).
Proof.
  intros H. unfold entry. destruct (H k) as [->| ->]; [done|]. destruct (lines s !! k) as [l|]; [|done]. cbn. unfold let_go. destruct (Forwarding.retired l) eqn:E; [by rewrite E|]. by intros [? ?].
Qed.
Lemma put_entry s k l l' : lines s !! k = Some l → Forwarding.retired l' = Forwarding.retired l → ∀ k', is_Some (entry (put s k l') k') → is_Some (entry s k').
Proof.
  intros El Er k'. unfold entry, put. cbn. destruct (decide (k' = k)) as [->|Hne]; [rewrite lookup_insert_eq, El; cbn; rewrite Er; by destruct (Forwarding.retired l)|by rewrite lookup_insert_ne].
Qed.

Lemma remember_spec r id : NoDup r → len r ≤ CLOSED_RING → NoDup (remember r id) ∧ len (remember r id) ≤ CLOSED_RING ∧ id ∈ remember r id ∧ ∀ x, x ∈ remember r id → x = id ∨ x ∈ r.
Proof.
  intros Hn Hl. unfold remember. destruct (decide (id ∈ r)) as [Hin|Hin]; [split_and!; auto|].
  assert (∀ r', r' `sublist_of` r → len r' < CLOSED_RING → NoDup (r' ++ [id]) ∧ len (r' ++ [id]) ≤ CLOSED_RING ∧ id ∈ r' ++ [id] ∧ ∀ x, x ∈ r' ++ [id] → x = id ∨ x ∈ r) as Hgo.
  { intros r' Hs Hr. split_and!; [apply NoDup_app; split_and!; [by eapply sublist_NoDup|intros x Hx ->%list_elem_of_singleton; apply Hin; eapply elem_of_submseteq; [exact Hx|by apply sublist_submseteq]|apply NoDup_singleton]|rewrite length_app; cbn; lia|apply elem_of_app; right; by left|].
    intros x [Hx|Hx%list_elem_of_singleton]%elem_of_app; [right; eapply elem_of_submseteq; [exact Hx|by apply sublist_submseteq]|by left]. }
  destruct (Z.eqb_spec (len r) CLOSED_RING) as [E|E]; apply Hgo; [destruct r; [done|by apply sublist_cons]|destruct r; cbn [tail length] in *; unfold CLOSED_RING, ForwardTable.MAX_FORWARDS in *; lia|done|lia].
Qed.
Lemma ring_insert s s' c r c' : closed s' = <[c := r]> (closed s) → ring s' c' = if decide (c' = c) then r else ring s c'.
Proof. intros E. unfold ring. rewrite E. case_decide as H; [subst; by rewrite lookup_insert_eq|by rewrite lookup_insert_ne]. Qed.
Lemma session_retire_ok s c id : session_ok s → session_ok (retire s c id).
Proof.
  intros [H1 H2 H3 H4 H5 H6]. pose proof (λ k, lets_go_entry s _ k (retire_lets_go s c id)) as Hk. destruct (H2 c) as [N1 N2]. destruct (remember_spec (ring s c) id N1 N2) as (R1 & R2 & R3 & R4).
  assert (∀ c', ring (retire s c id) c' = if decide (c' = c) then remember (ring s c) id else ring s c') as Er by (intros c'; by apply ring_insert). split; try done.
  - intros c'. pose proof (H1 c'). pose proof (held_sub s _ c' Hk). lia.
  - intros c'. rewrite Er. case_decide; [done|apply H2].
  - intros c' id' Hs. pose proof (H3 c' id' (Hk _ Hs)) as Ha. rewrite Er. case_decide as Hc; [|done]. subst c'. intros Hin. destruct (R4 _ Hin) as [->|?]; [|done].
    destruct Hs as [l Hl]. unfold entry in Hl. rewrite session_lines_retire, decide_True in Hl by done. destruct (lines s !! (c, id)) as [l0|]; [|done]. cbn in Hl. unfold let_go in Hl. destruct (Forwarding.retired l0) eqn:E; [by rewrite E in Hl|done].
  - intros k Hs. by apply (H4 k), Hk.
Qed.

Lemma roster_ok s s' : session_ok s → lets_go s s' → (∀ c, ring s' c = ring s c ∨ ring s' c = []) → (∀ k, is_Some (entry s' k) → k.1 ∈ attachments s' ∨ k.1 ∈ kept s') →
  NoDup (attachments s') → NoDup (kept s') → len (attachments s') ≤ MAX_ATTACHMENTS → len (kept s') ≤ MAX_ATTACHMENTS → (∀ c, c ∈ attachments s' → c ∉ kept s') → session_ok s'.
Proof.
  intros [H1 H2 H3 _ _ _] Hg Hr Ho N1 N2 L1 L2 Hd. pose proof (λ k, lets_go_entry s s' k Hg) as Hk. split; try done.
  - intros c. pose proof (H1 c). pose proof (held_sub s s' c Hk). lia.
  - intros c. destruct (Hr c) as [->| ->]; [apply H2|split; [constructor|done]].
  - intros c id Hs. pose proof (H3 c id (Hk _ Hs)). destruct (Hr c) as [->| ->]; [done|apply not_elem_of_nil].
Qed.

Lemma without_spec (c : Z) l : NoDup l → NoDup (filter (λ d, d ≠ c) l) ∧ len (filter (λ d, d ≠ c) l) ≤ len l ∧ (c ∈ l → len (filter (λ d, d ≠ c) l) < len l) ∧ ∀ d, d ∈ filter (λ d, d ≠ c) l ↔ d ≠ c ∧ d ∈ l.
Proof.
  intros Hn. split_and!; [by apply NoDup_filter|apply inj_le, length_filter| |intros d; by rewrite list_elem_of_filter]. intros Hc. apply inj_lt, (length_filter_lt _ l c Hc). by intros ?.
Qed.
Lemma drop_attachment_ok s c : session_ok s → session_ok (drop_attachment s c) ∧ attachments (drop_attachment s c) = filter (λ d, d ≠ c) (attachments s).
Proof.
  intros H. pose proof H as [_ _ _ H4 (N1 & N2 & L1 & L2) H6]. pose proof (drop_attachment_lets_go s c) as Hg. destruct (without_spec c _ N1) as (A1 & A2 & _ & A3). destruct (without_spec c _ N2) as (K1 & K2 & _ & K3).
  set (K := filter (λ d, d ≠ c) (kept s) ++ [c]). set (A := filter (λ d, d ≠ c) (attachments s)) in *.
  assert (drop_attachment s c = if MAX_ATTACHMENTS <? len K then match K with [] => s <| attachments := A |> <| kept := K |> | gone :: rest => forget (s <| attachments := A |> <| kept := rest |>) gone end else s <| attachments := A |> <| kept := K |>) as E by reflexivity. rewrite E in *. clear E.
  assert (NoDup K) as NK by (apply NoDup_app; split_and!; [done|intros x Hx ->%list_elem_of_singleton; by apply K3 in Hx as [? _]|apply NoDup_singleton]).
  assert (∀ d, d ∈ K ↔ d = c ∨ d ∈ kept s) as HK by (intros d; unfold K; rewrite elem_of_app, list_elem_of_singleton, K3; destruct (decide (d = c)); naive_solver).
  assert (∀ d, d ∈ A → d ∉ K) as Hd by (intros d [Hne Hin]%A3 [?|?]%HK; [done|by apply (H6 d)]). assert (∀ k, is_Some (entry s k) → k.1 ∈ A ∨ k.1 ∈ K) as Ho by (intros k Hk; rewrite A3, HK; destruct (decide (k.1 = c)); [auto|]; destruct (H4 k Hk); auto).
  assert (len K ≤ len (kept s) + 1) as LK by (unfold K; rewrite length_app; cbn; lia).
  destruct (Z.ltb_spec MAX_ATTACHMENTS (len K)) as [Hlt|Hge].
  - destruct K as [|gone rest] eqn:EK; [cbn in Hlt; unfold MAX_ATTACHMENTS in Hlt; lia|]. set (s2 := s <| attachments := A |> <| kept := rest |>) in *. apply NoDup_cons in NK as [NK1 NK2]. split; [|done]. apply (roster_ok s); [done|exact Hg| | |exact A1|exact NK2| |cbn in LK |- *; lia|].
    + intros d. unfold ring. cbn. destruct (decide (d = gone)) as [->|]; [right; by rewrite lookup_delete_eq|left; by rewrite lookup_delete_ne].
    + intros k Hk. change (k.1 ∈ A ∨ k.1 ∈ rest). assert (k.1 ≠ gone) as Hne.
      { intros E. destruct Hk as [l Hl]. unfold entry in Hl. rewrite lines_forget, decide_True in Hl by done. destruct (lines s2 !! k) as [l0|]; [|done]. cbn in Hl. unfold let_go in Hl. destruct (Forwarding.retired l0) eqn:E1; [by rewrite E1 in Hl|done]. }
      destruct (Ho k (lets_go_entry _ _ _ Hg Hk)) as [?|[?|?]%elem_of_cons]; [by left|done|by right].
    + change (len A ≤ MAX_ATTACHMENTS). lia.
    + intros d Hin Hin2. apply (Hd d Hin). by right.
  - split; [|done]. apply (roster_ok s); try done; [by left|change (len A ≤ MAX_ATTACHMENTS); lia].
Qed.
Lemma attach_ok s c slot greeted : session_ok s → session_ok (attach s c slot greeted).
Proof.
  intros H. unfold attach. set (s1 := if bool_decide (c ∈ attachments s) then drop_attachment s c else s).
  assert (session_ok s1 ∧ (c ∉ attachments s1) ∧ (bool_decide (c ∈ attachments s) = true → len (attachments s1) < MAX_ATTACHMENTS)) as (H1 & Hc & Hl).
  { unfold s1. destruct (bool_decide_reflect (c ∈ attachments s)) as [Hin|Hin]; [|done]. destruct (drop_attachment_ok s c H) as [? ->]. destruct (so_roster s H) as (N1 & _ & L1 & _). destruct (without_spec c _ N1) as (_ & _ & A2 & A3). specialize (A2 Hin). split_and!; [done|by intros [? _]%A3|lia]. }
  clearbody s1. destruct (negb _ && _) eqn:E; [done|]. assert (len (attachments s1) < MAX_ATTACHMENTS) as Hr by (destruct (bool_decide _); cbn in E; [by apply Hl|apply Z.leb_gt in E; lia]).
  destruct slot; [|done]. set (s2 := (take_stream s1 c) <| attachments := (attachments (take_stream s1 c)) ++ [c] |>). destruct H1 as [G1 G2 G3 G4 (N1 & N2 & L1 & L2) G6]. destruct (without_spec c _ N2) as (K1 & K2 & _ & K3).
  assert (session_ok s2) as H2; [|destruct greeted; [done|by apply drop_attachment_ok]]. apply (roster_ok s1); cbn; try done; try (by left).
  - intros k Hk. rewrite K3, elem_of_app, list_elem_of_singleton. destruct (decide (k.1 = c)); [auto|]. destruct (G4 k Hk); auto.
  - apply NoDup_app. split_and!; [done|by intros x Hx ->%list_elem_of_singleton|apply NoDup_singleton].
  - rewrite length_app. cbn. lia.
  - lia.
  - intros d [Hin| ->%list_elem_of_singleton]%elem_of_app [? ?]%K3; [by apply (G6 d)|done].
Qed.

Lemma retire_forward_ok s c id r o : session_ok s → session_ok (retire_forward s c id r o).1.
Proof. unfold retire_forward. destruct (decide _); apply session_retire_ok. Qed.
Lemma session_put_ok s k l l' : session_ok s → lines s !! k = Some l → Forwarding.retired l' = Forwarding.retired l → session_ok (put s k l').
Proof. intros H El Er. apply (kept_ok s); try done. by eapply put_entry. Qed.
Lemma thread_retired l x ok l' out : Forwarding.step l x = Some (ok, l', out) →
  match x with Forwarding.TReset | Forwarding.TTake _ | Forwarding.TData _ _ | Forwarding.TAck _ _ | Forwarding.TPump _ _ _ _ _ => True | _ => Forwarding.retired l' = Forwarding.retired l end.
Proof.
  intros H. destruct x; try done; cbn [Forwarding.step] in H; injection H as _ <- _; unfold Forwarding.reader_step; destruct (Forwarding.reader l); try done; by repeat case_match.
Qed.
Lemma open_ok s c id slot opened o : session_ok s → c ∈ attachments s → session_ok (start_forward s c id slot opened o).1.
Proof.
  intros H Hc. unfold start_forward. assert (∀ r, session_ok (forward_reset s c id r o).1) as Hr by (intros r; by apply session_retire_ok).
  destruct (entry s (c, id)) eqn:Ee; [apply Hr|]. destruct (was_closed s c id) eqn:Ew; [apply Hr|]. apply bool_decide_eq_false in Ew. destruct (Z.leb_spec ForwardTable.MAX_FORWARDS (Z.of_nat (held_by s c))) as [?|Hlt]; [apply Hr|]. destruct slot; [|apply Hr]. destruct opened; [|apply Hr]. cbn [negb fst]. clear Hr.
  set (s1 := s <| strays := _ |>). assert (session_ok s1) as H' by by apply (kept_ok s). assert (∀ k, is_Some (entry (put s1 (c, id) Forwarding.line_new) k) → k = (c, id) ∨ is_Some (entry s k)) as Hk by (intros k; destruct (decide (k = (c, id))) as [->|Hne]; [by left|]; right; revert H0; unfold entry; cbn; by rewrite lookup_insert_ne).
  destruct H' as [H1 H2 H3 H4 H5 H6]. split; try done.
  - intros c'. pose proof (held_put s1 (c, id) Forwarding.line_new c') as Hh. specialize (H1 c'). cbn [fst] in Hh. change (held_by s1 c') with (held_by s c') in *. case_decide; [subst; lia|lia].
  - intros c' id' Hs. destruct (Hk _ Hs) as [[= -> ->]|?]; [done|by apply H3].
  - intros k Hs. destruct (Hk _ Hs) as [->|?]; [by left|by apply H4].
Qed.
Lemma pump_keeps ks p now budget front cut p' : session_ok (p_session p) → pump_all p ks now budget front cut = Some p' → session_ok (p_session p').
Proof.
  revert p. induction ks as [|k ks IH]; intros p H Hp; cbn [pump_all] in Hp; [by injection Hp as <-|]. destruct (pump_one p k now (budget k.1) (front k) (cut k)) as [p1|] eqn:E; [|done]. cbn [mbind option_bind] in Hp. eapply IH; [|exact Hp].
  unfold pump_one in E. pose proof (session_entry_spec (p_session p) k) as He. destruct (entry (p_session p) k) as [l|]; [|by injection E as <-]. destruct He as [El Er]. destruct (decide _); [|by injection E as <-]. destruct (Forwarding.pump _ _ now _ _ _) as [[[alive f] io]|]; [|done]. cbn [mbind option_bind] in E. injection E as <-. by eapply session_put_ok.
Qed.
Lemma retire_all_ok rs so : session_ok so.1 → session_ok (foldl retire_one so rs).1.
Proof. revert so. induction rs as [|[k r] rs IH]; intros so H; [done|]. cbn [foldl]. apply IH. unfold retire_one. cbn [fst snd]. destruct r; [by apply retire_forward_ok|by apply session_retire_ok]. Qed.

Lemma deliver_ok s k p now reason o : session_ok s → session_ok (deliver s k p now reason o).1.
Proof.
  intros H. assert (∀ f q, session_ok (displace s f q)) as Hd by (intros f q; unfold displace; destruct q; try done; destruct (Forwarding.link f); [by apply (kept_ok s)|done]).
  unfold deliver. pose proof (session_entry_spec s k) as He. destruct p as [|chunk|[]|]; try (by apply retire_forward_ok); (destruct (entry s k) as [l|]; [|done]; destruct He as [El Er]; cbn [fst]; eapply session_put_ok; [apply Hd|rewrite lines_displace; exact El|done]).
Qed.
Lemma own_step_retired l x : Forwarding.retired (own_step l x) = Forwarding.retired l.
Proof. destruct (own_step_moves l x) as [->|(ok & Es & _ & _)]; [done|]. pose proof (thread_retired _ _ _ _ _ Es) as H. by destruct x. Qed.
Lemma session_step_ok s v s' fs : session_ok s → step s v = Some (s', fs) → session_ok s'.
Proof.
  intros H Hs. destruct v as [c slot greeted|c|k slot opened ans|k seg b ans|k a now ans|k|k now reason ans|k x|i now reason ans|i x|i x|ks now budget front cut ans]; cbn [step] in Hs.
  - injection Hs as <- <-. by apply attach_ok.
  - injection Hs as <- <-. destruct (decide _); [by apply drop_attachment_ok|done].
  - destruct (decide _); injection Hs as <- <-; [|done]. by apply open_ok.
  - destruct (decide _); injection Hs as <- <-; [|done]. unfold on_data. pose proof (session_entry_spec s (k.1, k.2)) as He. destruct (entry s _) as [l|]; [|done]. destruct He as [El Er]. destruct (Stream.on_data _ _ _ b) as [[] st]; [by eapply session_put_ok|]. apply session_retire_ok. by eapply session_put_ok.
  - destruct (decide _); injection Hs as <- <-; [|done]. unfold on_ack. pose proof (session_entry_spec s (k.1, k.2)) as He. destruct (entry s _) as [l|]; [|done]. destruct He as [El Er]. destruct (Stream.on_ack _ _ _ _ now) as [[] st]; [by eapply session_put_ok|]. apply session_retire_ok. by eapply session_put_ok.
  - destruct (decide _); injection Hs as <- <-; [|done]. by apply session_retire_ok.
  - assert (session_ok (take_post s k now reason (ans, [])).1) as Ht; [|destruct (take_post s k now reason (ans, [])); by injection Hs as <- <-].
    unfold take_post. destruct (lines s !! k) as [l|] eqn:El; [|done]. destruct (Forwarding.posted l) as [|p rest]; [done|]. apply deliver_ok. by eapply session_put_ok.
  - injection Hs as <- <-. unfold thread. destruct (lines s !! k) as [l|] eqn:El; [|done]. eapply session_put_ok; [done|exact El|apply own_step_retired].
  - assert (session_ok (take_stray s i now reason (ans, [])).1) as Ht; [|destruct (take_stray s i now reason (ans, [])); by injection Hs as <- <-].
    unfold take_stray. destruct (strays s !! i) as [[k l]|]; [|done]. destruct (Forwarding.posted l) as [|p rest]; [done|]. apply deliver_ok. by apply (kept_ok s).
  - injection Hs as <- <-. unfold stray_thread. destruct (strays s !! i) as [[k l]|]; [|done]. by apply (kept_ok s).
  - injection Hs as <- <-. unfold loose_thread. destruct (loose s !! i); [|done]. by apply (kept_ok s).
  - unfold pump_forwards in Hs. destruct (pump_all _ ks now budget front cut) as [p|] eqn:E; [|done]. cbn [mbind option_bind] in Hs. pose proof (retire_all_ok (p_retired p) (p_session p, p_out p) (pump_keeps ks (mkPass s (ans, []) []) now budget front cut p H E)) as Hr. destruct (foldl retire_one _ _) as [s1 o1]. by injection Hs as <- <-.
Qed.
Lemma session_run_ok vs s s' fs : session_ok s → run s vs = Some (s', fs) → session_ok s'.
Proof.
  revert s fs. induction vs as [|v vs IH]; intros s fs H Hr; cbn [run] in Hr; [by injection Hr as <- <-|]. destruct (step s v) as [[s1 a]|] eqn:Es; [|done]. cbn [mbind option_bind] in Hr. destruct (run s1 vs) as [[s2 b]|] eqn:Er; [|done]. injection Hr as <- <-. eapply IH; [|exact Er]. by eapply session_step_ok.
Qed.
Lemma session_new_ok : session_ok session_new.
Proof.
  assert (∀ k, entry session_new k = None) as He by (intros k; unfold entry; cbn; by rewrite lookup_empty). assert (∀ c, ring session_new c = []) as Hr by (intros c; unfold ring; cbn; by rewrite lookup_empty).
  split.
  - intros c. rewrite held_keys. assert (keys session_new c = ∅) as -> by (apply set_eq; intros k; rewrite keys_spec, He; split; [by intros [[? ?] _]|by intros ?%elem_of_empty]). by rewrite size_empty.
  - intros c. rewrite Hr. split; [constructor|done].
  - intros c id. rewrite He. by intros [? ?].
  - intros k. rewrite He. by intros [? ?].
  - cbn. split_and!; constructor || done.
  - by intros c ?%elem_of_nil.
Qed.

(** As many clients, as many times. *)
Lemma size_by_client {V} (m : gmap Key V) cs n : (∀ k, is_Some (m !! k) → k.1 ∈ cs) → (∀ c, (size (filter (λ kl : Key * V, kl.1.1 = c) m) ≤ n)%nat) → (size m ≤ length cs * n)%nat.
Proof.
  revert m. induction cs as [|c cs IH]; intros m Hc Hn; cbn [length Nat.mul].
  - replace m with (∅ : gmap Key V); [by rewrite map_size_empty|]. symmetry. apply map_empty. intros k. destruct (m !! k) as [x|] eqn:E; [|done]. specialize (Hc k ltac:(by rewrite E)). by apply elem_of_nil in Hc.
  - rewrite <- (map_filter_union_complement (λ kl : Key * V, kl.1.1 = c) m). rewrite map_size_disj_union by apply map_disjoint_filter_complement. apply Nat.add_le_mono; [apply Hn|]. apply IH.
    + intros k [x [E1 E2]%map_lookup_filter_Some]. cbn in E2. by pose proof (Hc k ltac:(by rewrite E1)) as [?|?]%elem_of_cons.
    + intros c'. etrans; [|apply (Hn c')]. rewrite <- !size_dom. apply subseteq_size. intros k [x Hx]%elem_of_dom. apply map_lookup_filter_Some in Hx as [Hx Hx2]. apply map_lookup_filter_Some in Hx as [Hx1 _]. apply elem_of_dom. exists x. by apply map_lookup_filter_Some.
Qed.

(** Nothing that happens to the table makes it panic. *)
Lemma session_pump_all_total p ks now budget front cut : is_Some (pump_all p ks now budget front cut).
Proof.
  revert p. induction ks as [|k ks IH]; intros p; cbn [pump_all]; [by eexists|]. assert (is_Some (pump_one p k now (budget k.1) (front k) (cut k))) as [p1 ->]; [|cbn [mbind option_bind]; apply IH].
  unfold pump_one. destruct (entry (p_session p) k) as [l|]; [|by eexists]. destruct (decide _); [|by eexists]. destruct (Forwarding.pump_total (Forwarding.fwd l) (Ends.mkIo (p_out p).1 []) now (budget k.1) (front k) (cut k)) as [[[alive f] io] ->]. by eexists.
Qed.
Lemma session_step_total s v : is_Some (step s v).
Proof.
  destruct v as [c slot greeted|c|k slot opened ans|k seg b ans|k a now ans|k|k now reason ans|k x|i now reason ans|i x|i x|ks now budget front cut ans]; cbn [step]; try (by eexists).
  - destruct (take_post s k now reason (ans, [])) as [? ?]. by eexists.
  - destruct (take_stray s i now reason (ans, [])) as [? ?]. by eexists.
  - unfold pump_forwards. destruct (session_pump_all_total (mkPass s (ans, []) []) ks now budget front cut) as [p ->]. cbn [mbind option_bind]. destruct (foldl retire_one _ _) as [? ?]. by eexists.
Qed.
Lemma session_run_total vs s : is_Some (run s vs).
Proof.
  revert s. induction vs as [|v vs IH]; intros s; cbn [run]; [by eexists|]. destruct (session_step_total s v) as [[s1 a] ->]. cbn [mbind option_bind]. destruct (IH s1) as [[s2 b] ->]. by eexists.
Qed.

(** C24: the session's forwards stay bounded, whatever its clients ask for.  No event panics, an id
    that is opened again while the threads of an earlier forward still run included; no client has
    more than [MAX_FORWARDS] live; the session has at most that for each client it may still hear from, attached
    or kept, and a forward that is live belongs to one of those; at most [MAX_ATTACHMENTS] are
    attached and as many kept, none twice; and each client is remembered by its last [CLOSED_RING]
    closed ids, none of which is live. *)
Theorem session_forwards_are_bounded vs : ∃ s fs, run session_new vs = Some (s, fs) ∧
  (∀ c, Z.of_nat (held_by s c) ≤ ForwardTable.MAX_FORWARDS) ∧ Z.of_nat (size (live s)) ≤ ForwardTable.MAX_FORWARDS * (2 * MAX_ATTACHMENTS) ∧
  (∀ k, is_Some (entry s k) → (k.1 ∈ attachments s ∨ k.1 ∈ kept s) ∧ was_closed s k.1 k.2 = false) ∧
  len (attachments s) ≤ MAX_ATTACHMENTS ∧ len (kept s) ≤ MAX_ATTACHMENTS ∧ NoDup (attachments s ++ kept s) ∧
  (∀ c, len (ring s c) ≤ CLOSED_RING ∧ NoDup (ring s c)).
Proof.
  destruct (session_run_total vs session_new) as [[s fs] Hr]. exists s, fs. split; [exact Hr|]. destruct (session_run_ok vs session_new s fs session_new_ok Hr) as [H1 H2 H3 H4 (N1 & N2 & L1 & L2) H6]. split_and!; try done.
  - pose proof (size_by_client (live s) (attachments s ++ kept s) 8) as Hs. rewrite length_app in Hs. unfold ForwardTable.MAX_FORWARDS, MAX_ATTACHMENTS in *. assert (size (live s) ≤ (length (attachments s) + length (kept s)) * 8)%nat; [|lia]. apply Hs.
    + intros k Hk%live_spec. apply elem_of_app. by apply H4.
    + intros c. specialize (H1 c). unfold held_by in H1. lia.
  - intros [c id] Hk. split; [by apply H4|]. apply bool_decide_eq_false. by apply H3.
  - apply NoDup_app. by split_and!.
  - intros c. destruct (H2 c). done.
Qed.

(** C16: the session runs each forward as it would run alone.  Whatever its clients send, however
    they come and go, whatever its threads post and its sinks refuse, no event panics; and every
    forward whose id was opened at most once, whatever ids the others were opened under, is where its
    own steps bring a new one, has sent exactly the frames the session sent in its name, and was
    given only frames that arrived in its name, in the order they did.  (An id may be opened again
    once the session has forgotten that it was closed; a forward that has such an id can be given
    what the threads of the earlier one post, as [stale_socket_is_served] shows.) *)
Theorem session_runs_its_forwards vs : Forall event_fine vs → ∃ s fs, run session_new vs = Some (s, fs) ∧ ∀ k l, (openings k vs ≤ 1)%nat → lines s !! k = Some l →
  ∃ xs, Ends.end_run Forwarding.line_new xs = Some (l, outs k fs) ∧ omap Forwarding.input_of xs `sublist_of` omap (arrives k) vs.
Proof.
  intros Hf. destruct (session_run_total vs session_new) as [[s fs] Hr]. exists s, fs. split; [exact Hr|]. intros k l Hk El. pose proof (session_run_moves vs session_new s fs k Hr Hf) as H. unfold clean, once in H. change (lines session_new) with (∅ : gmap Key Forwarding.Line) in H. rewrite lookup_empty in H.
  destruct (H ltac:(constructor) ltac:(lia) l El) as (ins & Hs & xs & Hx & <- & _). by exists xs.
Qed.

(** Two clients; the first opens two connections and says [7] on one, and its dial of the other fails. *)
Definition day : list Event :=
  [SAttach 1 true true; SAttach 2 true true; SOpen (1, 1) true true []; SOpen (1, 2) true true []; SOpen (2, 1) true true [];
   SThread (1, 1) Forwarding.TDialled; SThread (1, 2) Forwarding.TRefused; SThread (1, 1) Forwarding.TPost; SThread (1, 2) Forwarding.TPost;
   STake (1, 1) 0 Fields.Refused []; STake (1, 2) 0 Fields.Refused [true]; SData (1, 1) {| off := 0; fin := false; length_ := 1 |} [7] [];
   SPump [(2, 1); (1, 1)] 0 (λ _, 1000) (λ _, 0%nat) (λ _, 0%nat) [true; true]; SData (1, 2) {| off := 0; fin := false; length_ := 1 |} [8] [true]; SDetach 1].
Definition evening : option (list Frame * list Z * option (list Z)) :=
  '(s, fs) ← run session_new day; Some (fs, kept s, (λ l, match Forwarding.link (Forwarding.fwd l) with Some k => Forwarding.bytes (Forwarding.buffer k) | None => [] end) <$> lines s !! (1, 1)).
Example session_evening_is : evening = Some ([FReset (1, 2) Fields.Refused; FOut (1, 1) (Ends.OAck {| Recv.ack_off := 1; Recv.ack_window := 262143; Recv.ack_held := [] |}); FReset (1, 2) Fields.Closed], [1], Some [7]).
Proof. vm_compute. reflexivity. Qed.

Lemma session_day_fine : Forall event_fine day.
Proof. unfold day. repeat (constructor; [first [exact I|split; [repeat constructor; set_solver|done]]|]). constructor. Qed.
Lemma session_runs_its_forwards_witness : Forall event_fine day ∧ openings (1, 1) day = 1%nat ∧
  match run session_new day with
  | Some (s, fs) => match lines s !! (1, 1) with Some l => ∃ xs, Ends.end_run Forwarding.line_new xs = Some (l, outs (1, 1) fs) ∧ omap Forwarding.input_of xs `sublist_of` omap (arrives (1, 1)) day | None => False end
  | None => False
  end.
Proof.
  split; [exact session_day_fine|]. split; [vm_compute; reflexivity|]. pose proof session_evening_is as He. unfold evening in He. destruct (run session_new day) as [[s fs]|] eqn:E; [|discriminate He]. cbn [mbind option_bind] in He.
  destruct (lines s !! (1, 1)) as [l|] eqn:El; [|discriminate He]. destruct (session_runs_its_forwards day session_day_fine) as (s' & fs' & E' & H). rewrite E in E'. injection E' as <- <-. refine (H (1, 1) l _ El). vm_compute. constructor.
Defined.

(** ** An id that comes back *)

(** A client opens a forward and resets it while it dials; it resets sixteen others, so that the
    session has forgotten that the id was closed, and opens it again.  Then the first dial succeeds,
    and the client sends [104; 105]. *)
Definition reopening : list Event :=
  [SAttach 1 true true; SOpen (1, 1) true true []; SReset (1, 1)] ++ ((λ i, SReset (1, i)) <$> seqZ 2 16) ++
  [SOpen (1, 1) true true []; SStray 0 Forwarding.TDialled; SStray 0 Forwarding.TPost; STakeStray 0 0 Fields.Refused [];
   SData (1, 1) {| off := 0; fin := false; length_ := 2 |} [104; 105] []; SPump [(1, 1)] 0 (λ _, 1000) (λ _, 0%nat) (λ _, 0%nat) [true]].
(** The forward that has the id: what its own dialling thread does, and what waits for a socket. *)
Definition reopened : option (Forwarding.Reader * option (list Z)) :=
  '(s, _) ← run session_new reopening; l ← entry s (1, 1);
  Some (Forwarding.reader l, (λ x, Forwarding.bytes (Forwarding.buffer x)) <$> Forwarding.link (Forwarding.fwd l)).
(** The new forward is connected to the socket the old one dialled, and serves it, while its own dial
    is still under way. *)
Example stale_socket_is_served : reopened = Some (Forwarding.Dialling, Some [104; 105]).
Proof. vm_compute. reflexivity. Qed.

(** ** A ring nobody will ask for *)

(** A client opens a forward and leaves; eight more come and go, and it is forgotten; then its dial fails. *)
Definition leaving : list Event :=
  [SAttach 1 true true; SOpen (1, 1) true true []; SDetach 1] ++ concat ((λ c, [SAttach c true true; SDetach c]) <$> [2; 3; 4; 5; 6; 7; 8; 9]) ++
  [SThread (1, 1) Forwarding.TRefused; SThread (1, 1) Forwarding.TPost; STake (1, 1) 0 Fields.Refused []].
Definition gone (c : Z) (s : Session) : Prop := (c ∉ attachments s) ∧ (c ∉ kept s) ∧ ring s c ≠ [].
Definition not_back (c : Z) (v : Event) : Prop := match v with SAttach d _ _ => d ≠ c | _ => True end.

Lemma gone_retire c s d id : gone c s → gone c (retire s d id).
Proof.
  intros (H1 & H2 & H3). split_and!; try done. rewrite (ring_insert s (retire s d id) d (remember (ring s d) id) c eq_refl). case_decide; [|done]. subst d. unfold remember. destruct (decide _); [done|]. by intros [_ ?]%app_nil.
Qed.
Lemma gone_drop c s d : gone c s → d ≠ c → gone c (drop_attachment s d).
Proof.
  intros (H1 & H2 & H3) Hd. set (K := filter (λ x, x ≠ d) (kept s) ++ [d]). set (A := filter (λ x, x ≠ d) (attachments s)).
  assert (drop_attachment s d = if MAX_ATTACHMENTS <? len K then match K with [] => s <| attachments := A |> <| kept := K |> | gone :: rest => forget (s <| attachments := A |> <| kept := rest |>) gone end else s <| attachments := A |> <| kept := K |>) as -> by reflexivity.
  assert ((c ∉ A) ∧ c ∉ K) as [HA HK] by (unfold A, K; rewrite elem_of_app, list_elem_of_singleton, !list_elem_of_filter; naive_solver). destruct (_ <? _); [|done]. destruct K as [|x rest]; [done|]. split_and!; [done|by intros ?; apply HK; right|].
  unfold ring in *. cbn. rewrite lookup_delete_ne; [done|]. intros ->. apply HK. by left.
Qed.
Lemma gone_step c s v s' fs : gone c s → not_back c v → step s v = Some (s', fs) → gone c s'.
Proof.
  intros H Hv Hs. assert (∀ k l, gone c (put s k l)) as Hput by done. assert (∀ s0 d id r o, gone c s0 → gone c (retire_forward s0 d id r o).1) as Hrf by (intros s0 d id r o H0; unfold retire_forward; destruct (decide _); by apply gone_retire).
  assert (∀ s0 k p now r o, gone c s0 → gone c (deliver s0 k p now r o).1) as Hdel by (intros s0 k p now r o H0; unfold deliver, displace; repeat case_match; try done; by apply Hrf).
  destruct v as [d slot greeted|d|k slot opened ans|k seg b ans|k a now ans|k|k now reason ans|k x|i now reason ans|i x|i x|ks now budget front cut ans]; cbn [step] in Hs.
  - injection Hs as <- <-. cbn in Hv. unfold attach. set (s1 := if bool_decide (d ∈ attachments s) then drop_attachment s d else s). assert (gone c s1) as H1 by (unfold s1; destruct (bool_decide _); [by apply gone_drop|done]). clearbody s1. destruct (_ && _); [done|]. destruct slot; [|done].
    match goal with |- gone c (if greeted then ?x else _) => assert (gone c x) as H2; [|destruct greeted; [done|by apply gone_drop]] end. destruct H1 as (G1 & G2 & G3). split_and!; [cbn; rewrite elem_of_app, list_elem_of_singleton; naive_solver|cbn; rewrite list_elem_of_filter; naive_solver|done].
  - injection Hs as <- <-. destruct (decide _); [|done]. apply gone_drop; [done|]. intros ->. by destruct H.
  - destruct (decide _); injection Hs as <- <-; [|done]. unfold start_forward. repeat case_match; try done; by apply gone_retire.
  - destruct (decide _); injection Hs as <- <-; [|done]. unfold on_data. repeat case_match; try done. by apply gone_retire.
  - destruct (decide _); injection Hs as <- <-; [|done]. unfold on_ack. repeat case_match; try done. by apply gone_retire.
  - destruct (decide _); injection Hs as <- <-; [|done]. by apply gone_retire.
  - assert (gone c (take_post s k now reason (ans, [])).1) as Ht; [|destruct (take_post s k now reason (ans, [])); by injection Hs as <- <-]. unfold take_post. destruct (lines s !! k) as [l|]; [|done]. destruct (Forwarding.posted l) as [|p rest]; [done|]. by apply Hdel.
  - injection Hs as <- <-. unfold thread. by destruct (lines s !! k).
  - assert (gone c (take_stray s i now reason (ans, [])).1) as Ht; [|destruct (take_stray s i now reason (ans, [])); by injection Hs as <- <-]. unfold take_stray. destruct (strays s !! i) as [[k l]|]; [|done]. destruct (Forwarding.posted l) as [|p rest]; [done|]. by apply Hdel.
  - injection Hs as <- <-. unfold stray_thread. by destruct (strays s !! i) as [[? ?]|].
  - injection Hs as <- <-. unfold loose_thread. by destruct (loose s !! i).
  - unfold pump_forwards in Hs. destruct (pump_all _ ks now budget front cut) as [p|] eqn:E; [|done]. cbn [mbind option_bind] in Hs.
    assert (∀ ks q, gone c (p_session q) → pump_all q ks now budget front cut = Some p → gone c (p_session p)) as Hp.
    { clear. intros ks. induction ks as [|k ks IH]; intros q H E; cbn [pump_all] in E; [by injection E as <-|]. destruct (pump_one q k now _ _ _) as [q1|] eqn:E1; [|done]. cbn [mbind option_bind] in E. eapply IH; [|exact E]. unfold pump_one in E1. destruct (entry _ k) as [l|]; [|by injection E1 as <-]. destruct (decide _); [|by injection E1 as <-]. destruct (Forwarding.pump _ _ now _ _ _) as [[[alive f] io]|]; [|done]. by injection E1 as <-. }
    specialize (Hp ks (mkPass s (ans, []) []) H E). assert (∀ rs so, gone c so.1 → gone c (foldl retire_one so rs).1) as Hr.
    { clear -Hrf. intros rs. induction rs as [|[k r] rs IH]; intros so H; [done|]. cbn [foldl]. apply IH. unfold retire_one. cbn [fst snd]. destruct r; [by apply Hrf|by apply gone_retire]. }
    specialize (Hr (p_retired p) (p_session p, p_out p) Hp). destruct (foldl retire_one _ _) as [s1 o1]. by injection Hs as <- <-.
Qed.
Definition left_of (o : option (Session * list Frame)) : option (list Z * list Z * list Z) := '(s, _) ← o; Some (attachments s, kept s, ring s 1).
Example left_behind_is : left_of (run session_new leaving) = Some ([], [2; 3; 4; 5; 6; 7; 8; 9], [1]).
Proof. vm_compute. reflexivity. Qed.

Lemma left_of_spec o a k r : left_of o = Some (a, k, r) → ∃ s fs, o = Some (s, fs) ∧ attachments s = a ∧ kept s = k ∧ ring s 1 = r.
Proof. destruct o as [[s fs]|]; [|done]. intros [= <- <- <-]. by exists s, fs. Qed.
Lemma gone_stays vs s s' fs : gone 1 s → Forall (not_back 1) vs → run s vs = Some (s', fs) → gone 1 s'.
Proof.
  revert s fs. induction vs as [|v vs IH]; intros s fs H Hf Hr; cbn [run] in Hr; [by injection Hr as <- <-|]. apply Forall_cons in Hf as [Hf1 Hf2]. destruct (step s v) as [[s1 a]|] eqn:Es; [|done]. cbn [mbind option_bind] in Hr. destruct (run s1 vs) as [[s2 b]|] eqn:Er; [|done]. injection Hr as <- <-.
  eapply (IH s1 b); [by eapply gone_step|done|exact Er].
Qed.

(** A session keeps a ring of closed ids for a client it has forgotten.  A forward whose dial fails,
    or whose socket does, is retired by the id of its client, whether or not the session still knows
    that client; the ring this makes is dropped only with the client's command stream, which is gone:
    it stays for as long as the client does not come back. *)
Theorem forgotten_client_leaves_its_ring : ∃ s fs, run session_new leaving = Some (s, fs) ∧ (1 ∉ attachments s ++ kept s) ∧ ring s 1 = [1] ∧
  ∀ vs s' fs', Forall (not_back 1) vs → run s vs = Some (s', fs') → ring s' 1 ≠ [].
Proof.
  destruct (left_of_spec _ _ _ _ left_behind_is) as (s & fs & E & Ea & Ek & Er). exists s, fs. split; [exact E|]. clear E. split; [rewrite Ea, Ek; set_solver|]. split; [exact Er|].
  assert (gone 1 s) as H by (split_and!; [rewrite Ea|rewrite Ek|by rewrite Er]; set_solver). intros vs s' fs' Hf Hr. by apply (gone_stays vs s s' fs' H Hf Hr).
Qed.

End SessionForwards.
