(* ===== verification/Tunnel.v ===== *)
(** * A tunnel, from the local socket to the far one

    A client's connection ([LocalForward]) and a daemon's ([Forwarding]), each with its socket and its
    threads, joined by a network that may lose, repeat and reorder the frames between them
    ([Ends]).  An event is a step of either end, or the arrival of any frame the other has ever
    sent. *)

From S2P Require Import Prelude Timer Send Recv Stream Ends Forwarding LocalForward.

Module Tunnel.
Import(hints) LocalForward.
Import(hints) Forwarding.

Definition World : Type := Ends.World (N := LocalForward.Line) (F := Forwarding.Line).
Definition start : World := Ends.mkWorld LocalForward.line_new Forwarding.line_new [] [].
Definition reaches : World → Prop := Ends.reaches (N := LocalForward.Line) (F := Forwarding.Line).

Inductive Event := Near (x : LocalForward.Step) | Far (x : Forwarding.Step) | ToNear (i : nat) (now : Instant) | ToFar (i : nat) (now : Instant).

Definition near_step (w : World) (x : LocalForward.Step) : option World :=
  '(_, e, out) ← LocalForward.step (Ends.near_end w) x;
  if (len (LocalForward.got e) <=? Send.STREAM_LIMIT) then Some (Ends.mkWorld e (Ends.far_end w) (Ends.from_near w ++ out) (Ends.from_far w)) else None.
Definition far_step (w : World) (x : Forwarding.Step) : option World :=
  '(_, e, out) ← Forwarding.step (Ends.far_end w) x;
  if (len (Forwarding.got e) <=? Send.STREAM_LIMIT) then Some (Ends.mkWorld (Ends.near_end w) e (Ends.from_near w) (Ends.from_far w ++ out)) else None.

(** [None]: not an event here, or a panic, or more bytes than a stream carries. *)
Definition step (w : World) (v : Event) : option World :=
  match v with
  | Near x =>
      match x with
      | LocalForward.TData _ _ | LocalForward.TAck _ _ => None
      | LocalForward.TPump _ _ _ (Some budget) _ _ => if 0 <=? budget then near_step w x else None
      | _ => near_step w x
      end
  | Far x =>
      match x with
      | Forwarding.TData _ _ | Forwarding.TAck _ _ => None
      | Forwarding.TPump _ _ budget _ _ => if 0 <=? budget then far_step w x else None
      | _ => far_step w x
      end
  | ToNear i now => f ← Ends.from_far w !! i; near_step w match f with Ends.OData s b => LocalForward.TData s b | Ends.OAck a => LocalForward.TAck a now end
  | ToFar i now => f ← Ends.from_near w !! i; far_step w match f with Ends.OData s b => Forwarding.TData s b | Ends.OAck a => Forwarding.TAck a now end
  end.
Fixpoint run (w : World) (vs : list Event) : option World :=
  match vs with [] => Some w | v :: vs => w ← step w v; run w vs end.

Lemma near_reaches w x w' : reaches w → LocalForward.step_fine x → Ends.delivers (Ends.from_far w) (LocalForward.input_of x) → near_step w x = Some w' → reaches w'.
Proof.
  intros Hw Hf Hd H. unfold near_step in H. destruct (LocalForward.step (Ends.near_end w) x) as [[[ok e] out]|] eqn:E; [|done]. cbn [mbind option_bind] in H. destruct (Z.leb_spec (len (LocalForward.got e)) Send.STREAM_LIMIT); [|done]. injection H as <-.
  by apply (Ends.reach_near w x ok e out).
Qed.
Lemma far_reaches w x w' : reaches w → Forwarding.step_fine x → Ends.delivers (Ends.from_near w) (Forwarding.input_of x) → far_step w x = Some w' → reaches w'.
Proof.
  intros Hw Hf Hd H. unfold far_step in H. destruct (Forwarding.step (Ends.far_end w) x) as [[[ok e] out]|] eqn:E; [|done]. cbn [mbind option_bind] in H. destruct (Z.leb_spec (len (Forwarding.got e)) Send.STREAM_LIMIT); [|done]. injection H as <-.
  by apply (Ends.reach_far w x ok e out).
Qed.

Lemma step_reaches w v w' : reaches w → step w v = Some w' → reaches w'.
Proof.
  intros Hw H. destruct v as [x|x|i now|i now]; cbn [step] in H.
  - destruct x as [| | | | | | | | | | | | | |refused ans now [budget|] front cut]; try done; try (eapply near_reaches; [exact Hw| | |exact H]; exact I). destruct (Z.leb_spec 0 budget); [|done]. eapply near_reaches; [exact Hw| | |exact H]; done.
  - destruct x as [| | | | | | | | | | | |ans now budget front cut]; try done; try (eapply far_reaches; [exact Hw| | |exact H]; exact I). destruct (Z.leb_spec 0 budget); [|done]. eapply far_reaches; [exact Hw| | |exact H]; done.
  - destruct (Ends.from_far w !! i) as [f|] eqn:E; [|done]. cbn [mbind option_bind] in H. apply list_elem_of_lookup_2 in E. by destruct f; (eapply near_reaches; [exact Hw| | |exact H]; done).
  - destruct (Ends.from_near w !! i) as [f|] eqn:E; [|done]. cbn [mbind option_bind] in H. apply list_elem_of_lookup_2 in E. by destruct f; (eapply far_reaches; [exact Hw| | |exact H]; done).
Qed.
Lemma tunnel_run_reaches vs w w' : reaches w → run w vs = Some w' → reaches w'.
Proof.
  revert w. induction vs as [|v vs IH]; intros w Hw H; cbn [run] in H; [by injection H as <-|]. destruct (step w v) as [w1|] eqn:E; [|done]. cbn [mbind option_bind] in H. eapply IH; [|exact H]. by eapply step_reaches.
Qed.
Lemma run_start vs w : run start vs = Some w → reaches w.
Proof. apply tunnel_run_reaches. exact (Ends.reach_start (N := LocalForward.Line) (F := Forwarding.Line)). Qed.

(** ** What is never lost *)

Definition local (w : World) : LocalForward.Sock := LocalForward.socket (LocalForward.conn (Ends.near_end w)).

(** Pieces of a conversation. *)
Definition yes : list bool := [true; true; true; true].
Definition connects : list Event := [Far Forwarding.TDialled; Far Forwarding.TPost; Far (Forwarding.TTake 0)].
Definition far_says (bytes : list Z) : list Event := [Far Forwarding.TWant; Far (Forwarding.TRead bytes); Far Forwarding.TPost; Far (Forwarding.TTake 0)].
Definition far_ends : list Event := [Far Forwarding.TWant; Far (Forwarding.TEnd false); Far Forwarding.TPost; Far (Forwarding.TTake 0)].
Definition far_pumps : Event := Far (Forwarding.TPump yes 0 1000 0 0).
Definition near_pumps : Event := Near (LocalForward.TPump false yes 0 (Some 1000) 0 0).
Definition near_says (bytes : list Z) : list Event := [Near LocalForward.RWant; Near (LocalForward.RRead bytes); Near (LocalForward.RIngest 0); Near LocalForward.RGrant].
Definition near_ends : list Event := [Near LocalForward.RWant; Near LocalForward.REnd; Near LocalForward.RLocalEnd].
Definition near_writes (x : list LocalForward.SockStep) : list Event := (λ k, Near (LocalForward.TSock k)) <$> x.

(** The far socket says [5; 6; 7] and ends, and the local one is written it in two goes and shut. *)
Definition talk : list Event :=
  connects ++ far_says [5; 6; 7] ++ far_ends ++ [far_pumps; ToNear 0 0; near_pumps; ToNear 0 0; ToFar 0 0] ++ near_writes [LocalForward.KTurn; LocalForward.KWrote 2; LocalForward.KWrote 1; LocalForward.KTurn; LocalForward.KShut].
Definition talked : World := Eval vm_compute in default start (run start talk).
Lemma talked_reached : reaches talked.
Proof. apply (run_start talk). vm_compute. reflexivity. Qed.

(** A tunnel carries what it is given.  Whatever the network loses, repeats and reorders, however
    the two ends' threads take turns, whatever each socket takes at a time and whether or not it
    fails, and after either end has let the connection go: the bytes written to each socket are a
    front of the bytes the other socket produced.  No step of either end panics, and no frame that
    arrives makes either end reset the connection. *)
Theorem tunnel_is_faithful w : reaches w →
  Forwarding.went (Ends.far_end w) `prefix_of` LocalForward.got (Ends.near_end w) ∧
  LocalForward.went (Ends.near_end w) `prefix_of` Forwarding.got (Ends.far_end w) ∧
  (∀ x, LocalForward.step_fine x → Ends.delivers (Ends.from_far w) (LocalForward.input_of x) →
     ∃ ok e out, LocalForward.step (Ends.near_end w) x = Some (ok, e, out) ∧ (is_Some (LocalForward.input_of x) → ok = true)) ∧
  (∀ x, Forwarding.step_fine x → Ends.delivers (Ends.from_near w) (Forwarding.input_of x) →
     ∃ ok e out, Forwarding.step (Ends.far_end w) x = Some (ok, e, out) ∧ (is_Some (Forwarding.input_of x) → ok = true)).
Proof. intros Hw. destruct (Ends.tunnel_fronts w Hw). destruct (Ends.tunnel_goes_on w Hw). done. Qed.

Lemma shown_end w : reaches w → LocalForward.shut (local w) = true →
  LocalForward.wrote (local w) = Forwarding.got (Ends.far_end w) ∧ Forwarding.reader (Ends.far_end w) = Forwarding.Retired.
Proof.
  intros Hw Hs. assert (∀ W D K, LocalForward.line_ok W D K (Ends.near_end w) → LocalForward.wrote (local w) = D ∧ Stream.peer_finished (LocalForward.stream (LocalForward.conn (Ends.near_end w))) = true ∧ Stream.readable (LocalForward.stream (LocalForward.conn (Ends.near_end w))) = []) as Hn.
  { intros W D K H. destruct (LocalForward.shut_whole D (local w)) as [E1 E2]; [apply H|done|]. destruct (LocalForward.lo_ended _ _ _ _ H E2). done. }
  destruct (Ends.world_reaches_ok w Hw) as (p & KN & KF & [_ [_ T] _ _ _ _]). destruct (Hn _ _ _ T) as (_ & Hf & _).
  destruct (Ends.tunnel_ends w Hw Hf) as (W & D & K & W' & D' & K' & T1 & T2 & F & E). destruct (Hn _ _ _ T1) as (E1 & _ & E2). split; [|by destruct (Forwarding.lo_fin _ _ _ _ T2 F)].
  rewrite E1. rewrite <- (app_nil_r D), <- E2. exact E.
Qed.

(** The end a local application is shown is the far one.  When the client shuts the write side of
    a local socket, that socket has been written every byte the far socket ever produced, and the
    far socket has ended and will produce no more: a download is never cut short by a half close,
    whatever the network and the threads do. *)
Theorem shown_end_is_the_real_end w : reaches w → LocalForward.shut (local w) = true →
  LocalForward.wrote (local w) = Forwarding.got (Ends.far_end w) ∧ Forwarding.reader (Ends.far_end w) = Forwarding.Retired.
Proof. apply shown_end. Qed.

Lemma tunnel_is_faithful_witness : reaches talked ∧ LocalForward.went (Ends.near_end talked) `prefix_of` Forwarding.got (Ends.far_end talked) ∧ Forwarding.got (Ends.far_end talked) = [5; 6; 7].
Proof. split; [exact talked_reached|]. split; [|reflexivity]. destruct (tunnel_is_faithful talked talked_reached) as (_ & H & _). exact H. Defined.
Lemma shown_end_is_the_real_end_witness : reaches talked ∧ LocalForward.shut (local talked) = true ∧ LocalForward.wrote (local talked) = Forwarding.got (Ends.far_end talked) ∧ Forwarding.got (Ends.far_end talked) = [5; 6; 7].
Proof. split; [exact talked_reached|]. split; [reflexivity|]. split; [|reflexivity]. exact (proj1 (shown_end_is_the_real_end talked talked_reached eq_refl)). Defined.

(** ** What is *)

Lemma run_keeps (P : World → Prop) :
  (∀ w x w', near_step w x = Some w' → P w → P w') → (∀ w x w', far_step w x = Some w' → P w → P w') → ∀ vs w w', run w vs = Some w' → P w → P w'.
Proof.
  intros Hn Hf vs. induction vs as [|v vs IH]; intros w w' H HP; cbn [run] in H; [by injection H as <-|]. destruct (step w v) as [w1|] eqn:E; [|done]. cbn [mbind option_bind] in H. apply (IH w1 w' H).
  destruct v as [x|x|i now|i now]; cbn [step] in E.
  - repeat case_match; try done; by eapply Hn.
  - repeat case_match; try done; by eapply Hf.
  - destruct (Ends.from_far w !! i); [|done]. by eapply Hn.
  - destruct (Ends.from_near w !! i); [|done]. by eapply Hf.
Qed.
Lemma near_step_inv w x w' : near_step w x = Some w' → ∃ ok e out, LocalForward.step (Ends.near_end w) x = Some (ok, e, out) ∧ Ends.near_end w' = e ∧ Ends.far_end w' = Ends.far_end w.
Proof.
  intros H. unfold near_step in H. destruct (LocalForward.step _ x) as [[[ok e] out]|]; [|done]. cbn [mbind option_bind] in H. destruct (_ <=? _); [|done]. injection H as <-. by eexists _, _, _.
Qed.
Lemma far_step_inv w x w' : far_step w x = Some w' → ∃ ok e out, Forwarding.step (Ends.far_end w) x = Some (ok, e, out) ∧ Ends.far_end w' = e ∧ Ends.near_end w' = Ends.near_end w.
Proof.
  intros H. unfold far_step in H. destruct (Forwarding.step _ x) as [[[ok e] out]|]; [|done]. cbn [mbind option_bind] in H. destruct (_ <=? _); [|done]. injection H as <-. by eexists _, _, _.
Qed.

Lemma far_dropped w vs w' : Forwarding.dropped (Ends.far_end w) → run w vs = Some w' → Forwarding.went (Ends.far_end w') = Forwarding.went (Ends.far_end w).
Proof.
  intros Hd H. apply (run_keeps (λ u, Forwarding.dropped (Ends.far_end u) ∧ Forwarding.went (Ends.far_end u) = Forwarding.went (Ends.far_end w)) ) with vs w; [| |done|done].
  - by intros u x u' (ok & e & out & _ & _ & ->)%near_step_inv.
  - intros u x u' (ok & e & out & Hs & -> & _)%far_step_inv [H1 <-]. by eapply Forwarding.dropped_writes_nothing.
Qed.
Lemma near_dropped w vs w' : LocalForward.dropped (Ends.near_end w) → run w vs = Some w' → LocalForward.went (Ends.near_end w') = LocalForward.went (Ends.near_end w).
Proof.
  intros Hd H. apply (run_keeps (λ u, LocalForward.dropped (Ends.near_end u) ∧ LocalForward.went (Ends.near_end u) = LocalForward.went (Ends.near_end w))) with vs w; [| |done|done].
  - intros u x u' (ok & e & out & Hs & -> & _)%near_step_inv [H1 <-]. by eapply LocalForward.local_dropped_writes_nothing.
  - by intros u x u' (ok & e & out & _ & _ & ->)%far_step_inv.
Qed.

(** What the client's end calls done: everything it sent was acknowledged, and it has all it was
    sent. *)
Definition near_done (w : World) : bool := Stream.is_done (LocalForward.stream (LocalForward.conn (Ends.near_end w))).

(** The far socket ends first; the local one says [9] and ends, and the daemon acknowledges both. *)
Definition upload : list Event :=
  connects ++ [near_pumps] ++ far_ends ++ [far_pumps; ToNear 0 0] ++ near_says [9] ++ near_ends ++ [near_pumps; ToFar 0 0; ToFar 1 0; far_pumps; ToNear 1 0].
Definition uploaded : option World := Eval vm_compute in run start upload.

(** The daemon loses the end of an upload it has acknowledged.  It lets a forward go as soon as
    both halves of its stream are over, and shuts the socket whatever its writer still holds.  When
    the far socket ends first, the last bytes a local application sent are acknowledged, its client
    has nothing left to do, and they are never written, whatever happens next. *)
Theorem acknowledged_upload_is_lost : ∃ w, run start upload = Some w ∧ LocalForward.got (Ends.near_end w) = [9] ∧ near_done w = true ∧
  ∀ vs w', run w vs = Some w' → Forwarding.went (Ends.far_end w') = [].
Proof.
  assert (run start upload = uploaded) as E by (vm_compute; reflexivity). unfold uploaded in E. eexists. split; [exact E|]. split; [done|]. split; [by vm_compute|].
  intros vs w' H. apply far_dropped in H; [by rewrite H|]. split; [done|]. by intros s [= <-].
Qed.

(** The far socket says [5; 6; 7] and ends; the local one has ended, and its writer has taken the
    batch when the pump looks. *)
Definition download : list Event :=
  connects ++ [near_pumps] ++ near_ends ++ [near_pumps; ToFar 0 0; far_pumps; ToNear 0 0] ++ far_says [5; 6; 7] ++ far_ends ++ [far_pumps; ToNear 1 0; near_pumps] ++ near_writes [LocalForward.KTurn] ++ [near_pumps].
Definition downloaded : option World := Eval vm_compute in run start download.

(** The client cuts the end off a download.  It keeps a connection until its writer's buffer is
    empty, but a writer that is at work has emptied the buffer: the bytes it has in hand are not
    counted, and the socket is shut over them.  The local application is shown an end before the
    bytes that precede it, whatever happens next. *)
Theorem batch_in_hand_is_lost : ∃ w, run start download = Some w ∧ Forwarding.got (Ends.far_end w) = [5; 6; 7] ∧ near_done w = true ∧ LocalForward.down (local w) = true ∧
  LocalForward.doing (local w) = LocalForward.Writing [5; 6; 7] ∧ ∀ vs w', run w vs = Some w' → LocalForward.wrote (local w') = [].
Proof.
  assert (run start download = downloaded) as E by (vm_compute; reflexivity). unfold downloaded in E. eexists. split; [exact E|]. split; [done|]. split; [by vm_compute|]. split; [done|]. split; [done|].
  intros vs w' H. apply near_dropped in H; [exact H|]. by split.
Qed.

End Tunnel.
