(* ===== verification/Tunnels.v ===== *)
(** * All the tunnels of a client

    A client's table of connections ([ForwardTable]) and the session it forwards through
    ([SessionForwards]), joined by a network that may lose, repeat and reorder the frames between
    them.  The session has other clients too, who may send it anything.  An open reaches the session
    once, through its command gate ([Typing]); here it may come at any time after the client made the
    connection, and only while the session has none for it.

    The theorem shows that every connection the two tables carry is a tunnel of its own ([Tunnel]),
    whatever the others do, while the sockets produce no more than a stream can number.  This file has no code of its own. *)

From S2P Require Import Prelude Timer Send Recv Stream Codec Fields Ends Forwarding LocalForward ForwardTable SessionForwards Tunnel.

Module Tunnels.
Import(hints) LocalForward.
Import(hints) Forwarding.
Import(hints) ForwardTable.
Import(hints) SessionForwards.

Section Client.
(** The client whose connections are followed. *)
Variable c : Z.

Record World := mkWorld { near : ForwardTable.Table; far : SessionForwards.Session; from_near : list ForwardTable.Frame; from_far : list SessionForwards.Frame }.
Definition start : World := mkWorld ForwardTable.table_new SessionForwards.session_new [] [].

Inductive Event :=
| ENear (v : ForwardTable.Event) | EFar (v : SessionForwards.Event)
| ToNear (i : nat) (now : Instant) | ToFar (i : nat) (now : Instant) (answers : list bool)
| EOpen (id : Z) (slot opened : bool) (answers : list bool).

Definition near_step (w : World) (v : ForwardTable.Event) : option World :=
  '(t, fs) ← ForwardTable.step (near w) v; Some (mkWorld t (far w) (from_near w ++ fs) (from_far w)).
Definition far_step (w : World) (v : SessionForwards.Event) : option World :=
  '(s, fs) ← SessionForwards.step (far w) v; Some (mkWorld (near w) s (from_near w) (from_far w ++ fs)).

(** What happens at either end by itself. *)
Definition near_own (v : ForwardTable.Event) : bool := match v with ForwardTable.VData _ _ _ | ForwardTable.VAck _ _ _ | ForwardTable.VReset _ => false | _ => true end.
Definition far_own (v : SessionForwards.Event) : bool :=
  match v with
  | SessionForwards.SOpen k _ _ _ | SessionForwards.SData k _ _ _ | SessionForwards.SAck k _ _ _ | SessionForwards.SReset k => bool_decide (k.1 ≠ c)
  | _ => true
  end.
(** A frame that arrives, as the event it is. *)
Definition to_near (f : SessionForwards.Frame) (now : Instant) : option ForwardTable.Event :=
  match f with
  | SessionForwards.FReset k _ => if decide (k.1 = c) then Some (ForwardTable.VReset k.2) else None
  | SessionForwards.FOut k (Ends.OData s b) => if decide (k.1 = c) then Some (ForwardTable.VData k.2 s b) else None
  | SessionForwards.FOut k (Ends.OAck a) => if decide (k.1 = c) then Some (ForwardTable.VAck k.2 a now) else None
  end.
Definition to_far (f : ForwardTable.Frame) (now : Instant) (answers : list bool) : SessionForwards.Event :=
  match f with
  | ForwardTable.FReset id _ => SessionForwards.SReset (c, id)
  | ForwardTable.FOut id (Ends.OData s b) => SessionForwards.SData (c, id) s b answers
  | ForwardTable.FOut id (Ends.OAck a) => SessionForwards.SAck (c, id) a now answers
  end.

(** [None]: not an event here, or a panic. *)
Definition step (w : World) (ev : Event) : option World :=
  match ev with
  | ENear v => if near_own v then near_step w v else None
  | EFar v => if far_own v then far_step w v else None
  | ToNear i now => f ← from_far w !! i; v ← to_near f now; near_step w v
  | ToFar i now answers => f ← from_near w !! i; far_step w (to_far f now answers)
  | EOpen id slot opened answers =>
      match ForwardTable.lines (near w) !! id, SessionForwards.lines (far w) !! (c, id) with
      | Some _, None => far_step w (SessionForwards.SOpen (c, id) slot opened answers)
      | _, _ => None
      end
  end.
Fixpoint run (w : World) (evs : list Event) : option World := match evs with [] => Some w | ev :: evs => w ← step w ev; run w evs end.
Definition event_fine (ev : Event) : Prop := match ev with ENear v => ForwardTable.event_fine v | EFar v => SessionForwards.event_fine v | _ => True end.

(** ** The tunnel of one connection *)

Definition near_line (w : World) (id : Z) : LocalForward.Line := default LocalForward.line_new (ForwardTable.lines (near w) !! id).
Definition far_line (w : World) (id : Z) : Forwarding.Line := default Forwarding.line_new (SessionForwards.lines (far w) !! (c, id)).
(** No socket has produced more than a stream can number. *)
Definition within (w : World) (id : Z) : Prop := len (LocalForward.got (near_line w id)) ≤ Send.STREAM_LIMIT ∧ len (Forwarding.got (far_line w id)) ≤ Send.STREAM_LIMIT.
Definition tunnel (w : World) (id : Z) : Tunnel.World :=
  Ends.mkWorld (near_line w id) (far_line w id) (ForwardTable.outs id (from_near w)) (SessionForwards.outs (c, id) (from_far w)).

Definition joined (w : World) : Prop := ∀ id, within w id → Tunnel.reaches (tunnel w id).

Lemma moves_within {E X} `{Ends.SocketEndLaws E X} ins (e : E) os e' : Ends.moves ins e os e' → len (Ends.came e') ≤ Send.STREAM_LIMIT → len (Ends.came e) ≤ Send.STREAM_LIMIT.
Proof. intros (xs & Hr & _) Hl. pose proof (prefix_length _ _ (Ends.end_run_grows xs _ _ _ Hr)). lia. Qed.

(** A connection that moves with what the other end sent it. *)
Lemma near_joined w v w' : joined w → ForwardTable.ids_ok (near w) → ForwardTable.event_fine v → (∀ id i, ForwardTable.arrives id v = Some i → Ends.delivers (SessionForwards.outs (c, id) (from_far w)) (Some i)) → near_step w v = Some w' → ∀ id, within w' id → within w id ∧ Tunnel.reaches (tunnel w' id).
Proof.
  intros Hj Hi Hf Ha Hs id Hw. unfold near_step in Hs. destruct (ForwardTable.step (near w) v) as [[t fs]|] eqn:Es; [|done]. cbn [mbind option_bind] in Hs. injection Hs as <-.
  assert (∃ ins, Ends.moves ins (near_line w id) (ForwardTable.outs id fs) (default LocalForward.line_new (ForwardTable.lines t !! id)) ∧ Forall (λ i, Ends.delivers (SessionForwards.outs (c, id) (from_far w)) (Some i)) ins) as (ins & Hm & Hd).
  { pose proof (ForwardTable.step_moves _ v t fs id Hi Hf Es) as M. unfold ForwardTable.one_moves in M. unfold near_line. destruct (ForwardTable.lines (near w) !! id) as [l0|].
    - destruct M as (l & -> & M). exists (option_list (ForwardTable.arrives id v)). split; [exact M|]. destruct (ForwardTable.arrives id v) eqn:E; [|constructor]. constructor; [by apply Ha|constructor].
    - destruct M as [-> M]. exists []. split; [|constructor]. destruct (ForwardTable.lines t !! id) as [l|]; [|apply Ends.moves_none]. by destruct (M l eq_refl) as [_ M2]. }
  destruct Hw as [W1 W2]. pose proof (moves_within _ _ _ _ Hm W1) as W0. split; [done|]. unfold tunnel. cbn [from_near from_far near far]. rewrite ForwardTable.outs_app. exact (Ends.near_moves ins (tunnel w id) _ _ (Hj id (conj W0 W2)) Hd Hm W1).
Qed.
Lemma far_joined w v w' : joined w → (∀ id, SessionForwards.clean (c, id) (far w)) → SessionForwards.event_fine v → (∀ id, SessionForwards.opens v = Some (c, id) → SessionForwards.lines (far w) !! (c, id) = None) →
  (∀ id i, SessionForwards.arrives (c, id) v = Some i → Ends.delivers (ForwardTable.outs id (from_near w)) (Some i)) → far_step w v = Some w' → ∀ id, within w' id → within w id ∧ Tunnel.reaches (tunnel w' id).
Proof.
  intros Hj Hc Hf Ho Ha Hs id Hw. unfold far_step in Hs. destruct (SessionForwards.step (far w) v) as [[t fs]|] eqn:Es; [|done]. cbn [mbind option_bind] in Hs. injection Hs as <-.
  assert (∃ ins, Ends.moves ins (far_line w id) (SessionForwards.outs (c, id) fs) (default Forwarding.line_new (SessionForwards.lines t !! (c, id))) ∧ Forall (λ i, Ends.delivers (ForwardTable.outs id (from_near w)) (Some i)) ins) as (ins & Hm & Hd).
  { pose proof (SessionForwards.session_step_moves _ v t fs (c, id) Hf (Hc id) (Ho id) Es) as M. unfold SessionForwards.one_moves in M. unfold far_line. destruct (SessionForwards.lines (far w) !! (c, id)) as [l0|].
    - destruct M as (l & ins & -> & S & M). exists ins. split; [exact M|]. apply Forall_forall. intros i Hin. apply Ha. pose proof (elem_of_submseteq _ _ _ Hin (sublist_submseteq _ _ S)) as Hin2. destruct (SessionForwards.arrives (c, id) v); [|by apply elem_of_nil in Hin2]. by apply list_elem_of_singleton in Hin2 as ->.
    - destruct M as [-> M]. exists []. split; [|constructor]. destruct (SessionForwards.lines t !! (c, id)) as [l|]; [|apply Ends.moves_none]. destruct (M l eq_refl) as [_ ->]. apply Ends.moves_none. }
  destruct Hw as [W1 W2]. pose proof (moves_within _ _ _ _ Hm W2) as W0. split; [done|]. unfold tunnel. cbn [from_near from_far near far]. rewrite SessionForwards.session_outs_app. exact (Ends.far_moves ins (tunnel w id) _ _ (Hj id (conj W1 W0)) Hd Hm W2).
Qed.

(** ** What arrives was sent *)

Lemma outs_in id o fs : ForwardTable.FOut id o ∈ fs → o ∈ ForwardTable.outs id fs.
Proof. intros H. apply list_elem_of_omap. exists (ForwardTable.FOut id o). split; [done|]. by rewrite decide_True. Qed.
Lemma session_outs_in k o fs : SessionForwards.FOut k o ∈ fs → o ∈ SessionForwards.outs k fs.
Proof. intros H. apply list_elem_of_omap. exists (SessionForwards.FOut k o). split; [done|]. by rewrite decide_True. Qed.
Lemma to_near_delivers w f now v id i : f ∈ from_far w → to_near f now = Some v → ForwardTable.arrives id v = Some i → Ends.delivers (SessionForwards.outs (c, id) (from_far w)) (Some i).
Proof.
  intros Hin Hv Ha. destruct f as [[d j] r|[d j] [s b|a]]; cbn in Hv; destruct (decide (d = c)) as [->|]; simplify_eq/=; case_decide; simplify_eq/=; by apply session_outs_in.
Qed.
Lemma to_far_delivers w f now ans id i : f ∈ from_near w → SessionForwards.arrives (c, id) (to_far f now ans) = Some i → Ends.delivers (ForwardTable.outs id (from_near w)) (Some i).
Proof. intros Hin Ha. destruct f as [j r|j [s b|a]]; cbn in Ha; simplify_eq/=; case_decide; simplify_eq/=; by apply outs_in. Qed.

(** ** Nobody contradicts anybody *)

(** The client has no reset to send for a contradiction. *)
Definition calm (t : ForwardTable.Table) : Prop := Fields.Internal ∉ (ForwardTable.resets t).*2.
Lemma calm_reset t id r : calm t → r ≠ Fields.Internal → calm (ForwardTable.reset t id r).
Proof.
  unfold calm, ForwardTable.reset. intros H Hr. assert (Fields.Internal ∉ (tail (ForwardTable.resets t)).*2) as Ht by (destruct (ForwardTable.resets t); [done|]; intros ?; apply H; by right).
  destruct (_ <=? _); cbn; rewrite fmap_app; intros [Hin|[Hin|Hin%elem_of_nil]%elem_of_cons]%elem_of_app; cbn in Hin; auto.
Qed.
Lemma calm_retire t id r : calm t → r ≠ Some Fields.Internal → calm (ForwardTable.retire t id r).
Proof. intros H Hr. unfold ForwardTable.retire. destruct (ForwardTable.entry t id); [|done]. destruct r as [r|]; [|done]. apply calm_reset; [done|congruence]. Qed.
Lemma calm_resets l ans sent : let '(_, left_, _, _) := ForwardTable.send_resets l ans sent in left_ ⊆ l.
Proof. revert ans sent. induction l as [|[i r] l IH]; intros ans sent; cbn; [done|]. destruct ans as [|[] ans]; [done| |done]. specialize (IH ans (sent ++ [ForwardTable.FReset i r])). destruct (ForwardTable.send_resets l ans _) as [[[? ?] ?] ?]. intros x Hx. right. by apply IH. Qed.
Lemma calm_pass ids p now budget front cut p' : calm (ForwardTable.p_table p) → Forall (λ x, x.2 ≠ Some Fields.Internal) (ForwardTable.p_retire p) → ForwardTable.pump_all p ids now budget front cut = Some p' →
  calm (ForwardTable.p_table p') ∧ Forall (λ x, x.2 ≠ Some Fields.Internal) (ForwardTable.p_retire p').
Proof.
  revert p. induction ids as [|id ids IH]; intros p H1 H2 H; cbn [ForwardTable.pump_all] in H; [by injection H as <-|]. destruct (ForwardTable.pump_one p id now budget _ _) as [p1|] eqn:E; [|done]. cbn [mbind option_bind] in H. unfold ForwardTable.pump_one in E.
  destruct (ForwardTable.entry _ id) as [l|]; [|injection E as <-; by eapply IH]. destruct (LocalForward.pump _ _ _ now budget _ _) as [[[[fate cn] rf] io]|]; [|done]. cbn [mbind option_bind] in E. injection E as <-. eapply IH; [| |exact H]; destruct fate; cbn; try done; by apply Forall_app_2; [|constructor].
Qed.
Lemma calm_step t v t' fs : calm t → ForwardTable.step t v = Some (t', fs) → (match v with ForwardTable.VData _ _ _ | ForwardTable.VAck _ _ _ => False | _ => True end) → calm t'.
Proof.
  intros H Hs Hv. destruct v as [made|i s b|i a now|i|i x| |ans now budget ids front cut]; cbn [ForwardTable.step] in Hs; try done.
  - injection Hs as <- _. unfold ForwardTable.open. destruct (_ || _ || _); [done|]. destruct made as [[]|]; try done. by apply calm_retire.
  - injection Hs as <- _. by apply calm_retire.
  - injection Hs as <- _. unfold ForwardTable.thread. destruct (ForwardTable.lines t !! i) as [l|]; [|done]. destruct x; try done. destruct (LocalForward.reader l); try done. apply (calm_retire t i (Some Fields.Closed)); done.
  - by injection Hs as <- _.
  - destruct (ForwardTable.stopped t); [by injection Hs as <- _|]. unfold ForwardTable.pump in Hs. set (st := match budget with Some _ => ForwardTable.send_resets (ForwardTable.resets t) ans [] | None => (false, ForwardTable.resets t, ans, []) end) in Hs.
    assert (let '(_, left_, _, _) := st in left_ ⊆ ForwardTable.resets t) as Hl by (unfold st; destruct budget; [apply calm_resets|done]). destruct st as [[[rf left_] ans'] sent].
    destruct (ForwardTable.pump_all _ ids now budget front cut) as [p|] eqn:E; [|done]. cbn [mbind option_bind] in Hs. injection Hs as <- _. assert (calm (t <| ForwardTable.resets := left_ |>)) as Hc by (intros (x & Ex & Hx)%list_elem_of_fmap; apply H, list_elem_of_fmap; exists x; auto).
    destruct (calm_pass ids (ForwardTable.mkPass (t <| ForwardTable.resets := left_ |>) rf ans' sent [] None) now budget front cut p Hc (Forall_nil_2 _) E) as [P1 P2].
    clear -P1 P2. revert P1 P2. generalize (ForwardTable.p_table p). induction (ForwardTable.p_retire p) as [|[j r] rs IH]; intros u Hu Hr; [done|]. apply Forall_cons in Hr as [Hr1 Hr2]. cbn [foldl fst snd]. apply IH; [by apply calm_retire|done].
Qed.

(** What an honest end sent is taken. *)
Lemma calm_input w v t fs : joined w → (∀ id, within w id) → calm (near w) → (∀ id i, ForwardTable.arrives id v = Some i → Ends.delivers (SessionForwards.outs (c, id) (from_far w)) (Some i)) → ForwardTable.step (near w) v = Some (t, fs) → calm t.
Proof.
  intros Hj Hw H Ha Hs. destruct v as [made|i s b|i a now|i|i x| |ans now budget ids front cut]; try (by eapply calm_step).
  - injection Hs as <- _. unfold ForwardTable.on_data. pose proof (ForwardTable.entry_spec (near w) i) as He. destruct (ForwardTable.entry (near w) i) as [l|]; [|destruct (ForwardTable.was_closed _ _); [by apply calm_reset|done]]. destruct He as [E1 E2].
    destruct (proj1 (Ends.tunnel_goes_on (tunnel w i) (Hj i (Hw i))) (LocalForward.TData s b) I) as (ok & e & out & Hstep & Hok); [apply Ha; cbn; by rewrite decide_True|]. specialize (Hok (mk_is_Some _ _ eq_refl)). subst ok. cbn in Hstep. unfold near_line in Hstep. rewrite E1 in Hstep. cbn in Hstep. rewrite E2 in Hstep.
    destruct (Stream.on_data _ (off s) (fin s) b) as [[] st]; [done|by simplify_eq].
  - injection Hs as <- _. unfold ForwardTable.on_ack. pose proof (ForwardTable.entry_spec (near w) i) as He. destruct (ForwardTable.entry (near w) i) as [l|]; [|destruct (ForwardTable.was_closed _ _); [by apply calm_reset|done]]. destruct He as [E1 E2].
    destruct (proj1 (Ends.tunnel_goes_on (tunnel w i) (Hj i (Hw i))) (LocalForward.TAck a now) I) as (ok & e & out & Hstep & Hok); [apply Ha; cbn; by rewrite decide_True|]. specialize (Hok (mk_is_Some _ _ eq_refl)). subst ok. cbn in Hstep. unfold near_line in Hstep. rewrite E1 in Hstep. cbn in Hstep. rewrite E2 in Hstep.
    destruct (Stream.on_ack _ _ _ _ now) as [[] st]; [done|by simplify_eq].
Qed.

Record world_ok (w : World) : Prop := { wo_joined : joined w; wo_table : ForwardTable.holds (near w); wo_calm : (∀ id, within w id) → calm (near w);
  wo_clean : ∀ id, SessionForwards.clean (c, id) (far w) }.
Lemma table_ids t : ForwardTable.holds t → ForwardTable.ids_ok t.
Proof. intros [h H]. apply H. Qed.
Lemma near_step_ok w v w' : world_ok w → ForwardTable.event_fine v → (∀ id i, ForwardTable.arrives id v = Some i → Ends.delivers (SessionForwards.outs (c, id) (from_far w)) (Some i)) → near_step w v = Some w' → world_ok w'.
Proof.
  intros [Hj Ht Hc Hx] Hf Ha Hs. pose proof (near_joined w v w' Hj (table_ids _ Ht) Hf Ha Hs) as Hn. unfold near_step in Hs. destruct (ForwardTable.step (near w) v) as [[t fs]|] eqn:Es; [|done]. cbn [mbind option_bind] in Hs. injection Hs as <-.
  split; [intros id Hw; by apply Hn|by eapply ForwardTable.step_holds| |exact Hx]. intros Hw. assert (∀ id, within w id) as Hw0 by (intros id; by apply Hn). eapply calm_input; [done|done|by apply Hc|done|exact Es].
Qed.
Lemma far_step_ok w v w' : world_ok w → SessionForwards.event_fine v → (∀ id, SessionForwards.opens v = Some (c, id) → SessionForwards.lines (far w) !! (c, id) = None) →
  (∀ id i, SessionForwards.arrives (c, id) v = Some i → Ends.delivers (ForwardTable.outs id (from_near w)) (Some i)) → far_step w v = Some w' → world_ok w'.
Proof.
  intros [Hj Ht Hc Hx] Hf Ho Ha Hs. pose proof (far_joined w v w' Hj Hx Hf Ho Ha Hs) as Hn. unfold far_step in Hs. destruct (SessionForwards.step (far w) v) as [[t fs]|] eqn:Es; [|done]. cbn [mbind option_bind] in Hs. injection Hs as <-.
  split; [intros id Hw; by apply Hn|done| |intros id; exact (SessionForwards.step_clean (c, id) (far w) v t fs (Hx id) (Ho id) Es)]. intros Hw. apply Hc. intros id. by apply Hn.
Qed.
Lemma tunnels_step_ok w ev w' : world_ok w → event_fine ev → step w ev = Some w' → world_ok w'.
Proof.
  intros H Hf Hs. destruct ev as [v|v|i now|i now ans|id slot opened ans]; cbn [step] in Hs.
  - destruct (near_own v) eqn:Eo; [|done]. eapply near_step_ok; [done|exact Hf| |exact Hs]. intros id i Ha. by destruct v.
  - destruct (far_own v) eqn:Eo; [|done]. eapply far_step_ok; [done|exact Hf| | |exact Hs].
    + intros id E. destruct v as [| |k ? ? ?| | | | | | | | |]; try done. cbn in Eo, E. injection E as ->. by apply bool_decide_eq_true in Eo.
    + intros id i Ha. destruct v as [| | |k ? ? ?|k ? ? ?| | | | | | |]; try done; cbn in Eo, Ha; case_decide; simplify_eq; by apply bool_decide_eq_true in Eo.
  - destruct (from_far w !! i) as [f|] eqn:Ef; [|done]. cbn [mbind option_bind] in Hs. destruct (to_near f now) as [v|] eqn:Ev; [|done]. cbn [mbind option_bind] in Hs. apply list_elem_of_lookup_2 in Ef. eapply near_step_ok; [done| | |exact Hs]; [|intros id j; by eapply to_near_delivers].
    destruct f as [k r|k [s b|a]]; cbn in Ev; case_decide; by simplify_eq.
  - destruct (from_near w !! i) as [f|] eqn:Ef; [|done]. cbn [mbind option_bind] in Hs. apply list_elem_of_lookup_2 in Ef. eapply far_step_ok; [done| | | |exact Hs]; [by destruct f as [j r|j [s b|a]]|by intros id; destruct f as [j r|j [s b|a]]|intros id j; by eapply to_far_delivers].
  - destruct (ForwardTable.lines (near w) !! id); [|done]. destruct (SessionForwards.lines (far w) !! (c, id)) eqn:El; [done|]. eapply far_step_ok; [done| | | |exact Hs]; [done|by intros id' [= <-]|done].
Qed.
Lemma start_ok : world_ok start.
Proof. split; [|apply ForwardTable.new_holds|by intros _ ?%elem_of_nil|by constructor]. intros id _. unfold tunnel, near_line, far_line. cbn. rewrite !lookup_empty. exact (Ends.reach_start (N := LocalForward.Line) (F := Forwarding.Line)). Qed.
Lemma tunnels_run_ok evs w w' : world_ok w → Forall event_fine evs → run w evs = Some w' → world_ok w'.
Proof.
  revert w. induction evs as [|ev evs IH]; intros w H Hf Hr; cbn [run] in Hr; [by injection Hr as <-|]. apply Forall_cons in Hf as [Hf1 Hf2]. destruct (step w ev) as [w1|] eqn:Es; [|done]. cbn [mbind option_bind] in Hr. eapply IH; [|done|exact Hr]. by eapply tunnels_step_ok.
Qed.

(** What may happen: whatever either end does by itself, the session's other clients included, and
    the arrival of what the other sent. *)
Definition may (w : World) (ev : Event) : Prop :=
  match ev with
  | ENear v => near_own v = true
  | EFar v => far_own v = true
  | ToNear i now => is_Some (f ← from_far w !! i; to_near f now)
  | ToFar i _ _ => is_Some (from_near w !! i)
  | EOpen id _ _ _ => is_Some (ForwardTable.lines (near w) !! id) ∧ SessionForwards.lines (far w) !! (c, id) = None
  end.
Lemma near_goes w v : is_Some (near_step w v).
Proof. unfold near_step. destruct (ForwardTable.table_step_total (near w) v) as [[t fs] ->]. by eexists. Qed.
Lemma far_goes w v : is_Some (far_step w v).
Proof. unfold far_step. destruct (SessionForwards.session_step_total (far w) v) as [[t fs] ->]. by eexists. Qed.
Lemma tunnels_go_on w ev : may w ev → is_Some (step w ev).
Proof.
  intros H. destruct ev as [v|v|i now|i now ans|id slot opened ans]; cbn [step may] in *.
  - rewrite H. apply near_goes.
  - rewrite H. apply far_goes.
  - destruct (from_far w !! i) as [f|]; [|by destruct H]. cbn [mbind option_bind] in *. destruct (to_near f now) as [v|]; [|by destruct H]. apply near_goes.
  - destruct H as [f ->]. cbn [mbind option_bind]. apply far_goes.
  - destruct H as [[l ->] E]. rewrite E. apply far_goes.
Qed.

(** C5: every connection a client forwards is a tunnel of its own.  A client's table and the session
    it forwards through, whatever either does and whatever the session's other clients send (an id
    opened again while the threads of an earlier forward run included), over a network that loses,
    repeats and reorders, while no socket has produced more than the [STREAM_LIMIT] bytes a stream can
    number: neither end panics at anything that can happen; the client never has to reset a
    connection for a contradiction; and for each connection that the two tables have, what each
    socket was written is a front of what the other produced, and when the local socket is shut it has
    been written all the far one produced, which has ended.  The client itself opens each of its ids
    once. *)
Theorem forwarded_connections_are_faithful evs w : Forall event_fine evs → run start evs = Some w → (∀ id, within w id) →
  (∀ ev, may w ev → is_Some (step w ev)) ∧ (Fields.Internal ∉ (ForwardTable.resets (near w)).*2) ∧
  ∀ id n f, ForwardTable.lines (near w) !! id = Some n → SessionForwards.lines (far w) !! (c, id) = Some f →
    Forwarding.went f `prefix_of` LocalForward.got n ∧ LocalForward.went n `prefix_of` Forwarding.got f ∧
    (LocalForward.shut (LocalForward.socket (LocalForward.conn n)) = true → LocalForward.went n = Forwarding.got f ∧ Forwarding.reader f = Forwarding.Retired).
Proof.
  intros Hf Hr Hw. destruct (tunnels_run_ok evs start w start_ok Hf Hr) as [Hj _ Hc _]. split; [apply tunnels_go_on|]. split; [by apply Hc|]. intros id n f En Ef. pose proof (Hj id (Hw id)) as Ht. destruct (Ends.tunnel_fronts _ Ht) as [T1 T2]. pose proof (Tunnel.shown_end _ Ht) as T3.
  unfold tunnel, near_line, far_line, Tunnel.local in T1, T2, T3. rewrite En, Ef in T1, T2, T3. done.
Qed.

(** Whether every socket is within the limit. *)
Definition short (w : World) : bool :=
  bool_decide (map_Forall (λ _ l, len (LocalForward.got l) ≤ Send.STREAM_LIMIT) (ForwardTable.lines (near w))) && bool_decide (map_Forall (λ _ l, len (Forwarding.got l) ≤ Send.STREAM_LIMIT) (SessionForwards.lines (far w))).
Lemma short_within w : short w = true → ∀ id, within w id.
Proof.
  intros [H1%bool_decide_eq_true H2%bool_decide_eq_true]%andb_true_iff id. unfold within, near_line, far_line. split.
  - destruct (ForwardTable.lines (near w) !! id) as [l|] eqn:E; [by apply (H1 id l)|done].
  - destruct (SessionForwards.lines (far w) !! (c, id)) as [l|] eqn:E; [by apply (H2 (c, id) l)|done].
Qed.

End Client.

(** ** An afternoon *)

(** A client's connection says [1; 2], the far socket answers [5; 6; 7] and ends; another client sends nonsense. *)
Definition both (k : Z * Z) (xs : list Forwarding.Step) : list Event := (λ x, EFar (SessionForwards.SThread k x)) <$> xs.
Definition near_does (xs : list LocalForward.Step) : list Event := (λ x, ENear (ForwardTable.VThread 1 x)) <$> xs.
Definition near_pump : Event := ENear (ForwardTable.VPump [true; true; true] 0 (Some 1000) [1] (λ _, 0%nat) (λ _, 0%nat)).
Definition far_pump : Event := EFar (SessionForwards.SPump [(1, 1)] 0 (λ _, 1000) (λ _, 0%nat) (λ _, 0%nat) [true; true; true]).
Definition takes : Event := EFar (SessionForwards.STake (1, 1) 0 Fields.Refused []).
Definition afternoon : list Event :=
  [EFar (SessionForwards.SAttach 1 true true); EFar (SessionForwards.SAttach 2 true true); ENear (ForwardTable.VOpen (Some true)); near_pump; EOpen 1 true true []; EFar (SessionForwards.SReset (2, 1))] ++
  both (1, 1) [Forwarding.TDialled; Forwarding.TPost] ++ [takes] ++ near_does [LocalForward.RWant; LocalForward.RRead [1; 2]; LocalForward.RIngest 0; LocalForward.RGrant] ++ [near_pump; ToFar 0 0 []; far_pump] ++
  both (1, 1) [Forwarding.TSock Forwarding.KTurn; Forwarding.TSock (Forwarding.KWrote 2)] ++
  both (1, 1) [Forwarding.TWant; Forwarding.TRead [5; 6; 7]; Forwarding.TPost] ++ [takes] ++ both (1, 1) [Forwarding.TWant; Forwarding.TEnd false; Forwarding.TPost] ++ [takes; far_pump; ToNear 1 0; ToNear 0 0; near_pump] ++
  near_does [LocalForward.TSock LocalForward.KTurn; LocalForward.TSock (LocalForward.KWrote 3); LocalForward.TSock LocalForward.KTurn; LocalForward.TSock LocalForward.KShut].
Definition outcome : option (bool * (list Z * list Z) * (list Z * list Z) * bool) :=
  w ← run 1 start afternoon; n ← ForwardTable.lines (near w) !! 1; f ← SessionForwards.lines (far w) !! (1, 1);
  Some (short w, (LocalForward.got n, Forwarding.went f), (Forwarding.got f, LocalForward.went n), LocalForward.shut (LocalForward.socket (LocalForward.conn n))).
Example outcome_is : outcome = Some (true, ([1; 2], [1; 2]), ([5; 6; 7], [5; 6; 7]), true).
Proof. vm_compute. reflexivity. Qed.

Lemma afternoon_fine : Forall event_fine afternoon.
Proof. unfold afternoon, both, near_does. cbn [fmap list_fmap app]. repeat (constructor; [first [exact I|split; [repeat constructor; set_solver|done]]|]). constructor. Qed.
Lemma forwarded_connections_are_faithful_witness : Forall event_fine afternoon ∧
  match run 1 start afternoon with
  | Some w => (∀ id, within 1 w id) ∧ match ForwardTable.lines (near w) !! 1, SessionForwards.lines (far w) !! (1, 1) with Some n, Some f => LocalForward.went n = Forwarding.got f ∧ Forwarding.got f = [5; 6; 7] | _, _ => False end
  | None => False
  end.
Proof.
  split; [exact afternoon_fine|]. pose proof outcome_is as He. unfold outcome in He. destruct (run 1 start afternoon) as [w|] eqn:E; [|discriminate He]. cbn [mbind option_bind] in He.
  destruct (ForwardTable.lines (near w) !! 1) as [n|] eqn:En; [|discriminate He]. cbn [mbind option_bind] in He. destruct (SessionForwards.lines (far w) !! (1, 1)) as [f|] eqn:Ef; [|discriminate He]. cbn [mbind option_bind] in He. injection He as Hs _ _ Hg _ Hd.
  pose proof (short_within 1 w Hs) as Hw. split; [exact Hw|]. destruct (forwarded_connections_are_faithful 1 afternoon w afternoon_fine E Hw) as (_ & _ & H). destruct (H 1 n f En Ef) as (_ & _ & H3). split; [exact (proj1 (H3 Hd))|exact Hg].
Defined.

End Tunnels.
