(* ===== verification/Limiter.v ===== *)
(** * What strangers may cost the daemon ([crates/server/src/dgram.rs], [Bucket], [Limiter] and [Clock])

    Two token buckets for datagrams that name an offer and have not yet proved they hold its secret:
    one for each source address, as many as are remembered, and one for the daemon.  And the clock by
    which the one transmitting thread knows how long it may sleep.

    The theorems show that in any stretch of time the daemon does no more of this work than its bucket
    holds and earns, whatever addresses it comes from, and one address no more than its own; and that
    the transmitting thread never sleeps past an instant it was given, but for the millisecond it
    sleeps at least. *)

From S2P Require Import Prelude.

Module Limiter.

Definition ADMIT_BURST : Z := 8.
Definition ADMIT_REFILL : Duration := from_millis 250.
Definition ADMIT_GLOBAL_BURST : Z := 128.
Definition ADMIT_GLOBAL_REFILL : Duration := from_millis 25.
Definition ADMIT_SOURCES : Z := 64.

Inductive IpAddr := I4 (ip : Z) | I6 (ip : Z).
#[export] Instance IpAddr_dec : EqDecision IpAddr.
Proof. solve_decision. Defined.

Record Bucket := mkBucket { tokens : Z; refilled : Instant }.
Definition full (burst : Z) (now : Instant) : Bucket := {| tokens := burst; refilled := now |}.
Definition refill (b : Bucket) (now : Instant) (burst : Z) (interval : Duration) : Bucket :=
  let earned := since now (refilled b) / interval in
  if earned =? 0 then b
  else if (earned <=? U32_MAX) && (earned <? burst) then {| tokens := Z.min (tokens b + earned) burst; refilled := refilled b + interval * earned |}
  else {| tokens := burst; refilled := now |}.
Definition spend (b : Bucket) : bool * Bucket := if tokens b <? 1 then (false, b) else (true, {| tokens := tokens b - 1; refilled := refilled b |}).

Record Source := mkSource { ip : IpAddr; bucket : Bucket; used : Instant }.
#[export] Instance Source_settable : Settable Source := λ s, mkSource (ip s) (bucket s) (used s).
Record Limiter := mkLimiter { sources : list Source; global : option Bucket }.
#[export] Instance Limiter_settable : Settable Limiter := λ l, mkLimiter (sources l) (global l).
Definition new : Limiter := {| sources := []; global := None |}.

(** [position]; [min_by_key], which gives the first of several; [swap_remove]. *)
Fixpoint position (a : IpAddr) (l : list Source) : option nat :=
  match l with [] => None | s :: l => if decide (ip s = a) then Some O else S <$> position a l end.
Fixpoint stalest (l : list Source) : option (nat * Instant) :=
  match l with
  | [] => None
  | s :: l => match stalest l with Some (i, u) => if u <? used s then Some (S i, u) else Some (O, used s) | None => Some (O, used s) end
  end.
Definition swap_remove (i : nat) (l : list Source) : list Source :=
  match last l with Some s => take (length l - 1) (<[i := s]> l) | None => l end.

Definition slot (l : Limiter) (a : IpAddr) (now : Instant) : nat * Limiter :=
  match position a (sources l) with
  | Some i => (i, l)
  | None =>
      let kept :=
        if ADMIT_SOURCES <=? len (sources l)
        then match stalest (sources l) with Some (i, _) => swap_remove i (sources l) | None => sources l end
        else sources l in
      (length kept, l <| sources := kept ++ [{| ip := a; bucket := full ADMIT_BURST now; used := now |}] |>)
  end.
Definition admits (l : Limiter) (a : IpAddr) (now : Instant) : bool * Limiter :=
  let '(i, l) := slot l a now in
  match sources l !! i with
  | None => (false, l)
  | Some s =>
      let s := s <| used := now |> <| bucket := refill (bucket s) now ADMIT_BURST ADMIT_REFILL |> in
      let '(ok, b) := spend (bucket s) in
      let l := l <| sources := <[i := s <| bucket := b |>]> (sources l) |> in
      if ok then
        let g := refill (default (full ADMIT_GLOBAL_BURST now) (global l)) now ADMIT_GLOBAL_BURST ADMIT_GLOBAL_REFILL in
        let '(ok, g) := spend g in (ok, l <| global := Some g |>)
      else (false, l)
  end.

(** What came, from where and when, and which were let through. *)
Fixpoint run (l : Limiter) (xs : list (IpAddr * Instant)) : list bool * Limiter :=
  match xs with
  | [] => ([], l)
  | (a, now) :: xs => let '(ok, l) := admits l a now in let '(oks, l) := run l xs in (ok :: oks, l)
  end.
Fixpoint in_order (t : Instant) (xs : list (IpAddr * Instant)) : Prop := match xs with [] => True | (_, now) :: xs => t ≤ now ∧ in_order now xs end.
Definition finish (t : Instant) (xs : list (IpAddr * Instant)) : Instant := foldl (λ _ x, x.2) t xs.
Definition count (oks : list bool) : Z := len (filter (λ b, b = true) oks).
(** Those let through from one address. *)
Definition count_of (a : IpAddr) (xs : list (IpAddr * Instant)) (oks : list bool) : Z := len (filter (λ x, x.1 = a ∧ x.2 = true) (zip xs.*1 oks)).

(** ** A bucket *)

Definition good (burst : Z) (t : Instant) (b : Bucket) : Prop := 0 ≤ tokens b ≤ burst ∧ refilled b ≤ t.
(** What it holds and has earned, in time, up to what it can hold. *)
Definition worth (burst interval : Z) (b : Bucket) (now : Instant) : Z := Z.min (tokens b * interval + (now - refilled b)) (burst * interval + interval - 1).

Lemma refill_good burst interval t now b : 0 < interval → burst ≤ U32_MAX → good burst t b → t ≤ now →
  good burst now (refill b now burst interval) ∧ worth burst interval (refill b now burst interval) now ≤ worth burst interval b now ∧
  tokens (refill b now burst interval) * interval + (now - refilled (refill b now burst interval)) ≤ burst * interval + interval - 1.
Proof.
  intros Hi Hu [H1 H2] Ht. unfold refill, worth, good, since. rewrite Z.max_r by lia. set (d := now - refilled b). pose proof (Z.div_mod d interval ltac:(lia)) as Hd. pose proof (Z.mod_pos_bound d interval Hi) as Hm. assert (0 ≤ d / interval) by (apply Z.div_pos; unfold d; lia).
  destruct (Z.eqb_spec (d / interval) 0) as [E|E]; [rewrite E in Hd; unfold d in *; split_and!; nia|].
  destruct (_ && _) eqn:Eb; cbn [tokens refilled].
  - zbool. split_and!; unfold d in *; try nia.
  - assert (burst ≤ d / interval) as Hor by (apply andb_false_iff in Eb as [?|?]; zbool; lia). assert (burst * interval ≤ d) by nia. split_and!; unfold d in *; nia.
Qed.
Lemma spend_good burst interval now b : 0 < interval → good burst now b → tokens b * interval + (now - refilled b) ≤ burst * interval + interval - 1 →
  let '(ok, b') := spend b in good burst now b' ∧ worth burst interval b' now + (if ok then interval else 0) ≤ worth burst interval b now.
Proof. intros Hi [H1 H2] Hc. unfold spend, worth, good. destruct (Z.ltb_spec (tokens b) 1); cbn [tokens refilled]; split_and!; nia. Qed.
Lemma worth_later burst interval b t now : t ≤ now → worth burst interval b now ≤ worth burst interval b t + (now - t).
Proof. unfold worth. lia. Qed.
Lemma worth_bounds burst interval b now : 0 < interval → good burst now b → 0 ≤ worth burst interval b now ≤ burst * interval + interval - 1.
Proof. intros Hi [H1 H2]. unfold worth. nia. Qed.
Lemma full_worth burst interval now : 0 < interval → 0 ≤ burst → good burst now (full burst now) ∧ worth burst interval (full burst now) now = burst * interval.
Proof. intros Hi Hb. unfold good, worth, full. cbn. split; [lia|nia]. Qed.

(** ** The limiter *)

Definition bucket_of (l : list Source) (a : IpAddr) : option Bucket := bucket <$> (i ← position a l; l !! i).
Definition daemon_worth (l : Limiter) (now : Instant) : Z := match global l with Some b => worth ADMIT_GLOBAL_BURST ADMIT_GLOBAL_REFILL b now | None => ADMIT_GLOBAL_BURST * ADMIT_GLOBAL_REFILL end.
Definition source_worth (l : Limiter) (a : IpAddr) (now : Instant) : Z := match bucket_of (sources l) a with Some b => worth ADMIT_BURST ADMIT_REFILL b now | None => ADMIT_BURST * ADMIT_REFILL end.

Record limiter_ok (t : Instant) (l : Limiter) : Prop := {
  lk_global : ∀ b, global l = Some b → good ADMIT_GLOBAL_BURST t b;
  lk_sources : Forall (λ s, good ADMIT_BURST t (bucket s)) (sources l);
  lk_distinct : NoDup (ip <$> sources l);
  lk_few : len (sources l) ≤ ADMIT_SOURCES
}.

Lemma good_later burst t now b : good burst t b → t ≤ now → good burst now b.
Proof. unfold good. lia. Qed.
Lemma position_spec a l : match position a l with Some i => ∃ s, l !! i = Some s ∧ ip s = a | None => a ∉ ip <$> l end.
Proof.
  induction l as [|s l IH]; cbn; [by intros ?%elem_of_nil|]. case_decide as Hs; [by exists s|]. destruct (position a l); cbn; [done|]. by intros [?|?]%elem_of_cons.
Qed.
Lemma position_app a l l' : a ∈ ip <$> l → position a (l ++ l') = position a l.
Proof. induction l as [|s l IH]; cbn; [by intros ?%elem_of_nil|]. case_decide; [done|]. intros [?|Hin]%elem_of_cons; [by subst|]. by rewrite IH. Qed.
Lemma position_insert a l i s : ip s = a → (∀ s', l !! i = Some s' → ip s' = a) → ∀ c, position c (<[i := s]> l) = position c l.
Proof.
  intros Hs. revert i. induction l as [|x l IH]; intros [|i] Hi c; cbn; try done.
  - by rewrite Hs, (Hi x eq_refl).
  - case_decide; [done|]. by rewrite IH.
Qed.
Lemma bucket_insert l i s c : (∃ s', l !! i = Some s' ∧ ip s' = ip s) → NoDup (ip <$> l) → bucket_of (<[i := s]> l) c = if decide (c = ip s) then Some (bucket s) else bucket_of l c.
Proof.
  intros (s' & Hi & Es) Hn. unfold bucket_of. rewrite (position_insert (ip s)) by (done || (intros ? E; rewrite Hi in E; by injection E as <-)). pose proof (position_spec c l) as Hp. destruct (position c l) as [j|] eqn:Ej; cbn.
  - destruct Hp as (x & Hj & Ex). destruct (decide (c = ip s)) as [->|Hne].
    + assert (j = i) as ->. { apply (NoDup_lookup (ip <$> l) j i (ip s) Hn); rewrite list_lookup_fmap; [by rewrite Hj, <- Ex|by rewrite Hi, <- Es]. } rewrite list_lookup_insert_eq; [done|]. by eapply lookup_lt_Some.
    + rewrite list_lookup_insert_ne; [done|]. intros <-. rewrite Hi in Hj. injection Hj as <-. congruence.
  - case_decide as Hc; [|done]. destruct Hp. subst c. apply list_elem_of_fmap. exists s'. split; [done|]. by eapply list_elem_of_lookup_2.
Qed.

Lemma stalest_lt l : match stalest l with Some (i, _) => (i < length l)%nat | None => l = [] end.
Proof. induction l as [|s l IH]; cbn; [done|]. destruct (stalest l) as [[i u]|]; [destruct (u <? used s); lia|lia]. Qed.
Lemma swap_remove_sub i l : (i < length l)%nat → length (swap_remove i l) = (length l - 1)%nat ∧ Permutation (swap_remove i l) (delete i l).
Proof.
  intros Hi. unfold swap_remove. destruct (last l) as [s|] eqn:El; [|apply last_None in El; subst; cbn in Hi; lia]. apply last_Some in El as [k ->]. rewrite length_app in *. cbn in *. rewrite length_take, length_insert, length_app. cbn.
  split; [lia|]. replace (length k + 1 - 1)%nat with (length k) by lia. destruct (decide (i = length k)) as [->|Hne].
  - rewrite insert_app_r_alt, Nat.sub_diag by lia. cbn. rewrite take_app_length. rewrite delete_middle, app_nil_r. done.
  - rewrite insert_app_l by lia. rewrite take_app_le by (rewrite length_insert; lia). rewrite take_ge by (rewrite length_insert; lia). rewrite delete_take_drop, (insert_take_drop k i s), take_app_le, drop_app_le by lia.
    rewrite (Permutation_cons_append (drop (S i) k) s). done.
Qed.

Lemma slot_spec l a now t : limiter_ok t l → t ≤ now → let '(i, l') := slot l a now in limiter_ok now l' ∧ global l' = global l ∧ (∃ s, sources l' !! i = Some s ∧ ip s = a) ∧
  (a ∈ ip <$> sources l ∨ len (sources l) < ADMIT_SOURCES → ∀ c, source_worth l' c now = source_worth l c now) ∧ (a ∈ ip <$> sources l → sources l' = sources l) ∧
  (a ∉ ip <$> sources l → len (sources l) < ADMIT_SOURCES → sources l' = sources l ++ [mkSource a (full ADMIT_BURST now) now]).
Proof.
  intros [G S D F] Ht. unfold slot. pose proof (position_spec a (sources l)) as Hp. destruct (position a (sources l)) as [i|].
  { destruct Hp as (s & Hi & Hs). assert (a ∈ ip <$> sources l) by (subst a; apply list_elem_of_fmap; exists s; split; [done|by eapply list_elem_of_lookup_2]). split; [|split_and!; [done|by exists s|done..]].
    split; [intros b Hb; eapply good_later; [by apply G|done]| |done|done]. eapply Forall_impl; [exact S|]. intros x Hx. eapply good_later; [exact Hx|done]. }
  set (kept := if ADMIT_SOURCES <=? len (sources l) then match stalest (sources l) with Some (i, _) => swap_remove i (sources l) | None => sources l end else sources l).
  assert (len kept < ADMIT_SOURCES ∧ (∃ gone, Permutation (gone ++ kept) (sources l)) ∧ (len (sources l) < ADMIT_SOURCES → kept = sources l)) as (K1 & (gone & K2) & K3).
  { unfold kept. destruct (Z.leb_spec ADMIT_SOURCES (len (sources l))) as [Hle|Hlt]; [|split_and!; try done; by exists []]. pose proof (stalest_lt (sources l)) as Hst. destruct (stalest (sources l)) as [[i u]|]; [|rewrite Hst in Hle; cbn in Hle; unfold ADMIT_SOURCES in Hle; lia].
    destruct (swap_remove_sub i (sources l) Hst) as [L1 L2]. split_and!; [lia| |lia]. destruct (lookup_lt_is_Some_2 (sources l) i Hst) as [s Hs]. exists [s]. cbn. rewrite L2. symmetry. by apply delete_Permutation. }
  assert (∀ x, x ∈ kept → x ∈ sources l) as Hin by (intros x Hx; rewrite <- K2; apply elem_of_app; by right). cbn [sources global assign]. split_and!.
  - split; cbn; [intros b Hb; eapply good_later; [by apply G|done]| | |rewrite length_app; cbn; lia].
    + apply Forall_app. split; [|constructor; [|done]; apply full_worth with (interval := 1); unfold ADMIT_BURST; lia]. apply Forall_forall. intros x Hx. rewrite Forall_forall in S. eapply good_later; [by apply S, Hin|done].
    + rewrite fmap_app. cbn. apply NoDup_app. split_and!; [|intros c Hc ->%list_elem_of_singleton; apply Hp; apply list_elem_of_fmap in Hc as (x & -> & Hx); apply list_elem_of_fmap; exists x; auto|apply NoDup_singleton].
      rewrite <- K2, fmap_app in D. by apply NoDup_app in D as (_ & _ & ?).
  - done.
  - exists {| ip := a; bucket := full ADMIT_BURST now; used := now |}. split; [|done]. cbn. by rewrite lookup_app_r, Nat.sub_diag by lia.
  - intros [Ha|Hl]; [done|]. rewrite (K3 Hl). intros c. unfold source_worth, bucket_of. cbn [sources assign]. pose proof (position_spec c (sources l)) as Hc. destruct (position c (sources l)) as [j|] eqn:Ej.
    + destruct Hc as (x & Hj & Hx). cbn. rewrite position_app by (apply list_elem_of_fmap; exists x; split; [done|by eapply list_elem_of_lookup_2]). rewrite Ej. cbn. by rewrite lookup_app_l by (by eapply lookup_lt_Some).
    + assert (position c (sources l ++ [mkSource a (full ADMIT_BURST now) now]) = if decide (a = c) then Some (length (sources l)) else None) as E2.
      { clear -Ej. revert Ej. induction (sources l) as [|x k IH]; cbn; [by case_decide|]. destruct (decide (ip x = c)); [done|]. destruct (position c k); [done|]. intros _. rewrite IH by done. by case_decide. }
      cbn. rewrite E2. case_decide as Hac; cbn; [|done]. rewrite lookup_app_r, Nat.sub_diag by lia. cbn. apply full_worth; unfold ADMIT_BURST, ADMIT_REFILL, from_millis; lia.
  - done.
  - intros _ Hl. by rewrite (K3 Hl).
Qed.

Lemma admits_spec l a now t : limiter_ok t l → t ≤ now → let '(ok, l') := admits l a now in limiter_ok now l' ∧
  daemon_worth l' now + (if ok then ADMIT_GLOBAL_REFILL else 0) ≤ daemon_worth l t + (now - t) ∧
  (a ∈ ip <$> sources l ∨ len (sources l) < ADMIT_SOURCES →
     (∀ c, source_worth l' c now + (if ok && bool_decide (c = a) then ADMIT_REFILL else 0) ≤ source_worth l c t + (now - t)) ∧
     ip <$> sources l' = if bool_decide (a ∈ ip <$> sources l) then ip <$> sources l else (ip <$> sources l) ++ [a]).
Proof.
  intros H Ht. unfold admits. pose proof (slot_spec l a now t H Ht) as Hs. destruct (slot l a now) as [i l1]. destruct Hs as ([G S D F] & Eg & (s & Hi & Es) & W & K1 & K2). rewrite Hi.
  assert (good ADMIT_BURST now (bucket s)) as Hgs by (rewrite Forall_forall in S; apply S; by eapply list_elem_of_lookup_2).
  assert (0 < ADMIT_REFILL ∧ ADMIT_BURST ≤ U32_MAX) as [C1 C2] by done. destruct (refill_good ADMIT_BURST ADMIT_REFILL now now (bucket s) C1 C2 Hgs) as (R1 & R2 & R3); [lia|]. set (b0 := refill (bucket s) now ADMIT_BURST ADMIT_REFILL) in *.
  cbn [bucket assign]. change (bucket ((s <| used := now |>) <| bucket := b0 |>)) with b0. pose proof (spend_good ADMIT_BURST ADMIT_REFILL now b0 C1 R1 R3) as Hsp. destruct (spend b0) as [ok b1]. destruct Hsp as [P1 P2].
  set (s1 := ((s <| used := now |>) <| bucket := b0 |>) <| bucket := b1 |>). set (l2 := l1 <| sources := <[i := s1]> (sources l1) |>). assert (ip s1 = a ∧ bucket s1 = b1) as [Es1 Eb1] by done.
  assert (limiter_ok now l2 ∧ global l2 = global l) as [O2 Eg2].
  { split; [|done]. split; cbn; [done|by apply Forall_insert|rewrite list_fmap_insert, Es1; rewrite list_insert_id; [done|by rewrite list_lookup_fmap, Hi, <- Es]|by rewrite length_insert]. }
  assert (∀ c, bucket_of (sources l2) c = if decide (c = a) then Some b1 else bucket_of (sources l1) c) as Hb by (intros c; unfold l2; cbn [sources assign]; rewrite (bucket_insert (sources l1) i s1 c), Es1, Eb1; [done|exists s; by rewrite Es1|done]).
  assert (bucket_of (sources l1) a = Some (bucket s)) as Hba.
  { unfold bucket_of. pose proof (position_spec a (sources l1)) as Hp. destruct (position a (sources l1)) as [j|]; [|destruct Hp; subst a; apply list_elem_of_fmap; exists s; split; [done|by eapply list_elem_of_lookup_2]]. destruct Hp as (x & Hj & Ex). cbn. assert (j = i) as ->; [|by rewrite Hi].
    apply (NoDup_lookup (ip <$> sources l1) j i a D); rewrite list_lookup_fmap; [by rewrite Hj, <- Ex|by rewrite Hi, <- Es]. }
  assert (daemon_worth l now ≤ daemon_worth l t + (now - t)) as Hlater by (unfold daemon_worth; destruct (global l); [by apply worth_later|lia]).
  assert (∀ l3 (ok' : bool), sources l3 = sources l2 → (ok' = true → ok = true) → a ∈ ip <$> sources l ∨ len (sources l) < ADMIT_SOURCES →
    (∀ c, source_worth l3 c now + (if ok' && bool_decide (c = a) then ADMIT_REFILL else 0) ≤ source_worth l c t + (now - t)) ∧ ip <$> sources l3 = if bool_decide (a ∈ ip <$> sources l) then ip <$> sources l else (ip <$> sources l) ++ [a]) as Hsrc.
  { intros l3 ok' E3 Hok Hn. split.
    - intros c. assert (source_worth l c now ≤ source_worth l c t + (now - t)) as Hl by (unfold source_worth; destruct (bucket_of (sources l) c); [by apply worth_later|lia]). rewrite <- (W Hn c) in Hl. unfold source_worth at 1. rewrite E3, Hb. destruct (decide (c = a)) as [->|Hne].
      + assert (source_worth l1 a now = worth ADMIT_BURST ADMIT_REFILL (bucket s) now) as Ea by (unfold source_worth; by rewrite Hba). rewrite Ea in Hl. rewrite bool_decide_true, andb_true_r by done. destruct ok', ok; try (by specialize (Hok eq_refl)); lia.
      + rewrite bool_decide_false, andb_false_r by done. unfold source_worth in Hl |- *. lia.
    - rewrite E3. unfold l2. cbn [sources assign]. assert (ip <$> <[i := s1]> (sources l1) = ip <$> sources l1) as E4 by (rewrite list_fmap_insert, Es1; apply list_insert_id; by rewrite list_lookup_fmap, Hi, <- Es). cbn in E4 |- *. rewrite E4. case_bool_decide as Hin; [by rewrite K1|]. rewrite K2; [by rewrite fmap_app|done|]. by destruct Hn. }
  cbn zeta. destruct ok; [|split_and!; [done| |]; [unfold daemon_worth in *; rewrite Eg2; lia|intros Hn; by apply (Hsrc l2 false)]].
  change (global l1) with (global l2). fold l2. rewrite Eg2. set (g0 := default (full ADMIT_GLOBAL_BURST now) (global l)).
  assert (0 < ADMIT_GLOBAL_REFILL ∧ ADMIT_GLOBAL_BURST ≤ U32_MAX ∧ 0 ≤ ADMIT_GLOBAL_BURST) as (C3 & C4 & C5) by done. assert (good ADMIT_GLOBAL_BURST now g0 ∧ worth ADMIT_GLOBAL_BURST ADMIT_GLOBAL_REFILL g0 now = daemon_worth l now) as [Gg Ew].
  { unfold g0, daemon_worth. destruct (global l) as [b|] eqn:E; cbn; [split; [apply G; by rewrite Eg|done]|by apply full_worth]. }
  destruct (refill_good ADMIT_GLOBAL_BURST ADMIT_GLOBAL_REFILL now now g0 C3 C4 Gg) as (Q1 & Q2 & Q3); [lia|]. pose proof (spend_good ADMIT_GLOBAL_BURST ADMIT_GLOBAL_REFILL now _ C3 Q1 Q3) as Hsp. destruct (spend (refill g0 now ADMIT_GLOBAL_BURST ADMIT_GLOBAL_REFILL)) as [ok g1]. destruct Hsp as [P3 P4].
  split_and!; [|unfold daemon_worth at 1; cbn [global assign]; cbn; lia|intros Hn; by apply (Hsrc (l2 <| global := Some g1 |>) ok)]. destruct O2. split; try done. cbn. by intros b [= <-].
Qed.

Lemma run_spec xs l t : limiter_ok t l → in_order t xs → let '(oks, l') := run l xs in length oks = length xs ∧ limiter_ok (finish t xs) l' ∧ t ≤ finish t xs ∧
  daemon_worth l' (finish t xs) + count oks * ADMIT_GLOBAL_REFILL ≤ daemon_worth l t + (finish t xs - t) ∧
  ((∀ D, NoDup D → (∀ c, c ∈ D → c ∈ ip <$> sources l ∨ c ∈ xs.*1) → len D ≤ ADMIT_SOURCES) → ∀ c, source_worth l' c (finish t xs) + count_of c xs oks * ADMIT_REFILL ≤ source_worth l c t + (finish t xs - t)).
Proof.
  revert l t. induction xs as [|[a now] xs IH]; intros l t H Ho; cbn [run]; [cbn; split_and!; try done; lia || (intros; unfold count_of, count; cbn; lia)|]. destruct Ho as [Ht Ho].
  pose proof (admits_spec l a now t H Ht) as Ha. destruct (admits l a now) as [ok l1]. destruct Ha as (O1 & W1 & S1). specialize (IH l1 now O1 Ho). destruct (run l1 xs) as [oks l2]. destruct IH as (L & O2 & T2 & W2 & S2).
  change (finish t ((a, now) :: xs)) with (finish now xs). split_and!; [cbn; by rewrite L|done|lia| |].
  - unfold count in *. rewrite filter_cons. destruct ok; [rewrite decide_True by done|rewrite decide_False by done]; cbn [length] in *; lia.
  - intros Hd. assert (a ∈ ip <$> sources l ∨ len (sources l) < ADMIT_SOURCES) as Hn.
    { destruct (decide (a ∈ ip <$> sources l)) as [?|Hna]; [by left|right]. specialize (Hd ((ip <$> sources l) ++ [a])). rewrite length_app, length_fmap in Hd. cbn in Hd. enough (Z.of_nat (length (sources l) + 1)%nat ≤ ADMIT_SOURCES) by lia. apply Hd.
      - apply NoDup_app. split_and!; [apply H|by intros c Hc ->%list_elem_of_singleton|apply NoDup_singleton].
      - intros c [?| ->%list_elem_of_singleton]%elem_of_app; [by left|right; by left]. }
    destruct (S1 Hn) as [V1 V2]. intros c. specialize (V1 c). assert (source_worth l2 c (finish now xs) + count_of c xs oks * ADMIT_REFILL ≤ source_worth l1 c now + (finish now xs - now)) as V3.
    { apply S2. intros D Hnd Hc. apply Hd; [done|]. intros d Hin. destruct (Hc d Hin) as [Hd1|Hd1]; [|right; by right]. rewrite V2 in Hd1. destruct (bool_decide_reflect (a ∈ ip <$> sources l)); [by left|]. apply elem_of_app in Hd1 as [?| ->%list_elem_of_singleton]; [by left|right; by left]. }
    assert (count_of c ((a, now) :: xs) (ok :: oks) = (if ok && bool_decide (c = a) then 1 else 0) + count_of c xs oks) as ->; [|destruct (ok && bool_decide (c = a)); lia].
    unfold count_of. cbn [fmap list_fmap fst zip zip_with]. rewrite filter_cons. cbn [fst snd]. destruct ok; cbn [andb]; [destruct (bool_decide_reflect (c = a)) as [Hc|Hc]; [rewrite decide_True by (by split)|rewrite decide_False by (intros [? _]; by subst)]|rewrite decide_False by (by intros [_ ?])]; cbn [length]; lia.
Qed.

(** Only addresses that came are remembered. *)
Lemma admits_seen l a now c : c ∈ ip <$> sources (admits l a now).2 → c ∈ ip <$> sources l ∨ c = a.
Proof.
  assert (∀ l' i s, ip <$> <[i := s]> l' = <[i := ip s]> (ip <$> l')) as Hfi by (intros; apply list_fmap_insert).
  assert (c ∈ ip <$> sources (slot l a now).2 → c ∈ ip <$> sources l ∨ c = a) as Hs.
  { unfold slot. destruct (position a (sources l)); [by left|]. cbn. rewrite fmap_app. intros [Hc| ->%list_elem_of_singleton]%elem_of_app; [left|by right]. destruct (_ <=? _); [|done]. destruct (stalest (sources l)) as [[i u]|]; [|done].
    unfold swap_remove in Hc. destruct (last (sources l)) as [s|] eqn:El; [|done]. apply last_Some in El as [k El]. apply list_elem_of_fmap in Hc as (x & -> & Hx). apply list_elem_of_fmap. exists x. split; [done|].
    apply elem_of_take in Hx as (j & Hj & _). destruct (decide (j = i)) as [->|Hne]; [|rewrite list_lookup_insert_ne in Hj by done; by eapply list_elem_of_lookup_2].
    apply list_lookup_insert_Some in Hj as [(_ & <- & _)|[? _]]; [|done]. rewrite El. apply elem_of_app. right. by left. }
  unfold admits. destruct (slot l a now) as [i l1]. cbn [snd] in Hs. destruct (sources l1 !! i) as [s|] eqn:Ei; [|done].
  cbn zeta. destruct (spend _) as [ok b]. assert (∀ x, ip x = ip s → c ∈ ip <$> <[i := x]> (sources l1) → c ∈ ip <$> sources l ∨ c = a) as Hin.
  { intros x Ex. rewrite Hfi, Ex, list_insert_id by (by rewrite list_lookup_fmap, Ei). exact Hs. }
  destruct ok; [destruct (spend _) as [ok g]|]; cbn [snd]; by apply Hin.
Qed.
Lemma run_seen xs l c : c ∈ ip <$> sources (run l xs).2 → c ∈ ip <$> sources l ∨ c ∈ xs.*1.
Proof.
  revert l. induction xs as [|[a now] xs IH]; intros l; cbn [run]; [by left|]. pose proof (admits_seen l a now c) as Ha. destruct (admits l a now) as [ok l1]. specialize (IH l1). destruct (run l1 xs) as [oks l2]. cbn [snd fst] in *. intros H. destruct (IH H) as [H1|H1]; [|right; by right].
  destruct (Ha H1) as [?| ->]; [by left|right; by left].
Qed.

(** C29: what strangers cost is bounded in any stretch of time.  However many addresses datagrams come
    from, and whatever came before: of those that arrive between [t] and the last of them, the
    daemon looks at no more than its bucket holds, and one for each interval that has passed.  While
    no more addresses have come than are remembered, the same holds of each address and its own
    bucket.  The addresses remembered are never more than [ADMIT_SOURCES]. *)
Theorem strangers_are_bounded xs ys t : in_order 0 (xs ++ ys) → finish 0 xs ≤ t → in_order t ys →
  let l := (run new xs).2 in let oks := (run l ys).1 in
  len (sources (run l ys).2) ≤ ADMIT_SOURCES ∧
  count oks * ADMIT_GLOBAL_REFILL < (ADMIT_GLOBAL_BURST + 1) * ADMIT_GLOBAL_REFILL + (finish t ys - t) ∧
  ((∀ D, NoDup D → (∀ c, c ∈ D → c ∈ (xs ++ ys).*1) → len D ≤ ADMIT_SOURCES) → ∀ c, count_of c ys oks * ADMIT_REFILL < (ADMIT_BURST + 1) * ADMIT_REFILL + (finish t ys - t)).
Proof.
  intros Ho Hf Hy. cbn zeta. assert (limiter_ok 0 new) as H0 by (split; cbn; done || constructor).
  assert (∀ t zs zs', in_order t (zs ++ zs') → in_order t zs) as Hpre by (intros u zs zs'; revert u; induction zs as [|[a now] zs IH]; intros u; cbn; [done|]; intros [? ?]; split; [done|by apply IH]).
  pose proof (run_spec xs new 0 H0 (Hpre _ _ _ Ho)) as Hx. pose proof (run_seen xs new) as Hsn. destruct (run new xs) as [oks0 l]. destruct Hx as (_ & O1 & T1 & _ & S1). cbn [fst snd].
  assert (limiter_ok t l) as O2 by (destruct O1 as [G S D F]; split; try done; [intros b Hb; eapply good_later; [by apply G|done]|eapply Forall_impl; [exact S|]; intros s Hs; eapply good_later; [exact Hs|done]]).
  pose proof (run_spec ys l t O2 Hy) as Hr. destruct (run l ys) as [oks l2]. destruct Hr as (_ & O3 & T3 & W3 & S3). cbn [fst snd].
  assert (∀ u k, limiter_ok u k → 0 ≤ daemon_worth k u ≤ ADMIT_GLOBAL_BURST * ADMIT_GLOBAL_REFILL + ADMIT_GLOBAL_REFILL - 1 ∧ ∀ c, 0 ≤ source_worth k c u ≤ ADMIT_BURST * ADMIT_REFILL + ADMIT_REFILL - 1) as Hb.
  { intros u k [G S D F]. split.
    - unfold daemon_worth. destruct (global k) as [b|]; [apply worth_bounds; [done|by apply G]|done].
    - intros c. unfold source_worth. destruct (bucket_of (sources k) c) as [b|] eqn:E; [|done]. apply worth_bounds; [done|]. unfold bucket_of in E. destruct (position c (sources k)) as [i|]; [|done]. cbn in E. destruct (sources k !! i) as [s|] eqn:Ei; [|done]. injection E as <-. rewrite Forall_forall in S. apply S. by eapply list_elem_of_lookup_2. }
  destruct (Hb _ _ O2) as [B1 B2]. destruct (Hb _ _ O3) as [B3 B4]. split_and!; [apply O3|lia|]. intros Hd c. specialize (B2 c). specialize (B4 c).
  assert (source_worth l2 c (finish t ys) + count_of c ys oks * ADMIT_REFILL ≤ source_worth l c t + (finish t ys - t)) as V; [|lia].
  apply S3. intros D Hnd Hc. apply Hd; [done|]. intros d Hin. rewrite fmap_app. apply elem_of_app. destruct (Hc d Hin) as [Hs|?]; [left|by right]. cbn [snd] in Hsn. destruct (Hsn d Hs) as [Hn|?]; [by apply elem_of_nil in Hn|done].
Qed.

Lemma strangers_are_bounded_witness : count (run new (replicate 20 (I4 1, 5))).1 * ADMIT_GLOBAL_REFILL < (ADMIT_GLOBAL_BURST + 1) * ADMIT_GLOBAL_REFILL ∧ count (run new (replicate 20 (I4 1, 5))).1 = 8.
Proof.
  split; [|vm_compute; reflexivity]. assert (in_order 0 (replicate 20 (I4 1, 5))) as H1 by (cbn; lia). assert (in_order 5 (replicate 20 (I4 1, 5))) as H2 by (cbn; lia). assert (finish 0 [] ≤ 5) as H3 by (cbn; lia).
  destruct (strangers_are_bounded [] (replicate 20 (I4 1, 5)) 5 H1 H3 H2) as (_ & H & _). cbn [finish foldl replicate snd] in H. rewrite Z.sub_diag, Z.add_0_r in H. exact H.
Defined.

End Limiter.

(** ** When to be awake *)

Module Clock.

Definition POLL_FLOOR : Duration := from_millis 1.

(** The transmitting thread ticks, waits on [wake] until an instant if one is named, or was woken
    and has yet to look. *)
Inductive Thread := Ticking | Waiting (until : option Instant) | Woken.
(** [named]: the instants it was given since its last tick began; [slept]: when it last went to
    sleep.  No code reads either. *)
Record Clock := mkClock { next : option Instant; thread : Thread; named : list Instant; slept : Instant }.
#[export] Instance Clock_settable : Settable Clock := λ c, mkClock (next c) (thread c) (named c) (slept c).
Definition start : Clock := {| next := None; thread := Ticking; named := []; slept := 0 |}.

Definition merge (named ours : option Instant) (floor : Instant) : option Instant :=
  (λ at_, Z.max at_ floor) <$> match named, ours with Some n, Some o => Some (Z.min n o) | Some n, None => Some n | None, o => o end.
(** A turn of the loop of [sleep_until], with the lock. *)
Definition turn (c : Clock) (now : Instant) : Clock :=
  match next c with
  | None => c <| thread := Waiting None |>
  | Some target => if now <=? target then c <| thread := Waiting (Some target) |> else c <| next := None |> <| thread := Ticking |> <| named := [] |>
  end.
Definition sleep_until (c : Clock) (deadline : option Instant) (now : Instant) : Clock :=
  let earliest := now + POLL_FLOOR in
  turn (c <| next := merge (next c) deadline earliest |> <| named := named c ++ option_list deadline |> <| slept := now |>) now.
Definition advance (c : Clock) (deadline : Instant) : Clock :=
  let c := c <| named := named c ++ [deadline] |> in
  if match next c with None => true | Some target => deadline <? target end
  then c <| next := Some deadline |> <| thread := match thread c with Waiting _ => Woken | x => x end |> else c.

Inductive Step := KSleep (deadline : option Instant) (now : Instant) | KTurn (now : Instant) | KAdvance (deadline : Instant).
(** It looks again when it was notified, when its time is up, and whenever the library likes. *)
Definition step (c : Clock) (x : Step) : Clock :=
  match x, thread c with
  | KSleep deadline now, Ticking => sleep_until c deadline now
  | KTurn now, (Waiting _ | Woken) => turn c now
  | KAdvance deadline, _ => advance c deadline
  | _, _ => c
  end.
Definition run (xs : list Step) : Clock := foldl step start xs.

(** No later than it was named, and than it may be. *)
Definition by_then (c : Clock) (t d : Instant) : Prop := match thread c with Ticking => t ≤ d | _ => t ≤ Z.max d (slept c + POLL_FLOOR) end.
Record clock_ok (c : Clock) : Prop := {
  ck_named : ∀ d, d ∈ named c → ∃ t, next c = Some t ∧ by_then c t d;
  ck_waits : ∀ u, thread c = Waiting u → next c = u
}.

(** [b] comes to [turn] with what it was named no later than it may wake. *)
Lemma turn_ok c now : (∀ d, d ∈ named c → ∃ t, next c = Some t ∧ t ≤ Z.max d (slept c + POLL_FLOOR)) → clock_ok (turn c now).
Proof.
  intros H1. unfold turn. destruct (next c) as [t|] eqn:E.
  - destruct (now <=? t); (split; cbn; rewrite ?E); try done; [by intros u [= <-]|by intros d ?%elem_of_nil].
  - split; cbn; rewrite ?E; [done|by intros u [= <-]].
Qed.
Lemma clock_advances c d : clock_ok c → clock_ok (advance c d).
Proof.
  intros [H1 H2]. unfold advance. cbn zeta. change (next (c <| named := named c ++ [d] |>)) with (next c). change (thread (c <| named := named c ++ [d] |>)) with (thread c).
  destruct (match next c with None => true | Some target => d <? target end) eqn:E; split; cbn; try done.
  - intros x [Hx| ->%list_elem_of_singleton]%elem_of_app; exists d; (split; [done|]); unfold by_then; cbn; [|destruct (thread c); lia]. destruct (H1 x Hx) as (t & Et & Ht). rewrite Et in E. zbool. unfold by_then in Ht. destruct (thread c); lia.
  - intros u. by destruct (thread c).
  - intros x [Hx| ->%list_elem_of_singleton]%elem_of_app; [by apply H1|]. destruct (next c) as [t|]; [|done]. zbool. exists t. split; [done|]. unfold by_then. cbn. destruct (thread c); lia.
Qed.
Lemma clock_step c x : clock_ok c → clock_ok (step c x).
Proof.
  intros H. pose proof H as [H1 H2]. destruct x as [deadline now|now|d]; cbn [step]; [| |by apply clock_advances].
  - destruct (thread c) eqn:Et; try done. apply turn_ok. cbn. intros x [Hx|Hx]%elem_of_app.
    + destruct (H1 x Hx) as (t & E & Ht). unfold by_then in Ht. rewrite Et in Ht. rewrite E. unfold merge. destruct deadline as [o|]; cbn; eexists; (split; [done|lia]).
    + destruct deadline as [o|]; [|by apply elem_of_nil in Hx]. apply list_elem_of_singleton in Hx as ->. unfold merge. destruct (next c) as [n|]; cbn; eexists; (split; [done|lia]).
  - assert (thread c ≠ Ticking → clock_ok (turn c now)) as Ht; [|by destruct (thread c); [|apply Ht..]]. intros Hn. apply turn_ok. intros x Hx. destruct (H1 x Hx) as (t & E & Hb). exists t. split; [done|]. unfold by_then in Hb. by destruct (thread c).
Qed.
Lemma clock_run xs : clock_ok (run xs).
Proof. unfold run. induction xs as [|x xs IH] using rev_ind; [split; cbn; [by intros d ?%elem_of_nil|done]|]. rewrite foldl_app. by apply clock_step. Qed.

(** C33: the transmitting thread sleeps past no instant it was given by more than a millisecond from
    when it went to sleep.  Whenever it waits, it waits until an instant that is no later than every
    one it was named since its last tick began, by its own tick or by any other thread before or
    after it went to sleep; or, when that was over already or nearly, until a millisecond after it
    went to sleep.  Looking after that instant it returns to tick, whatever it was told. *)
Theorem no_instant_is_slept_through xs u : thread (run xs) = Waiting u →
  (∀ d, d ∈ named (run xs) → ∃ t, u = Some t ∧ t ≤ Z.max d (slept (run xs) + 1_000_000)) ∧
  (∀ t now, u = Some t → t < now → thread (step (run xs) (KTurn now)) = Ticking).
Proof.
  intros Hw. destruct (clock_run xs) as [H1 H2]. rewrite (H2 u Hw) in H1. split.
  - intros d Hd. destruct (H1 d Hd) as (t & E & Hb). exists t. split; [done|]. unfold by_then in Hb. rewrite Hw in Hb. exact Hb.
  - intros t now -> Hlt. cbn [step]. rewrite Hw. unfold turn. rewrite (H2 _ Hw). rewrite (proj2 (Z.leb_gt now t)) by lia. done.
Qed.
Lemma no_instant_is_slept_through_witness :
  let c := run [KAdvance 9000000; KSleep (Some 8000000) 1000; KAdvance 5000000; KTurn 2000] in thread c = Waiting (Some 5000000) ∧ slept c = 1000 ∧ ∃ t, Some 5000000 = Some t ∧ t ≤ Z.max 8000000 (slept c + 1_000_000).
Proof.
  cbn zeta. split; [reflexivity|]. split; [reflexivity|]. refine (proj1 (no_instant_is_slept_through [KAdvance 9000000; KSleep (Some 8000000) 1000; KAdvance 5000000; KTurn 2000] (Some 5000000) eq_refl) 8000000 _). right. left.
Defined.

End Clock.
