(* ===== verification/Listener.v ===== *)
(** * The daemon's datagram connections ([crates/server/src/dgram.rs])

    One socket serves every session.  [Connections] has the offers not yet taken up, the connections
    that are attached and those kept only to repeat their last message, by connection id; the
    endpoint of a connection is shared by the thread that receives, the thread that transmits and the
    thread that writes for its attachment, each taking its lock for a moment.  Every step here is what
    one thread does under one lock, so the threads may interleave as they like: what a thread carries
    from one lock to the next ([Rx], [Tx], [Writer]) is part of the state.  A connection is named by
    its place in [wires], because a thread may hold it after the table has forgotten it.

    What [getrandom], the registry, a mailbox and the kernel answer are arguments.  [offers] and
    [said] are what was ever offered and sealed; no code reads them.

    The theorems show that under the secret of one offer no packet number is ever sealed twice,
    whichever threads drive it and whether its connection was attached, refused or restored; that an
    attachment is told once, at most, that its connection is gone; and that an offer that is put back
    keeps its age. *)

From stdpp Require Import fin_maps.
From S2P Require Import Prelude Window Keys Packet Path Loss Congestion Mtu Endpoint Drain Codec Fields Message ServerMessage Wire Sink Outbound Limiter.
Import(hints) Endpoint.
Import Fields.
Import Sink (Coding(..)).

Module Listener.
Section Listener.
Context `{C : Crypto} `{DF : Wire.Deflate}.
Abbreviation Endpoint := Endpoint.Endpoint.
Abbreviation Datagram := (SocketAddr * list Z)%type.
Abbreviation Cid := (list Z) (only parsing).

Definition OFFER_LIFETIME : Duration := from_secs 30.
Definition POLL_INTERVAL : Duration := from_millis 250.
Definition FAREWELL_REPEATS : Z := 3.
Definition FAREWELL_SPACING : Duration := from_millis 250.
Definition FAREWELL_WINDOW : Duration := from_secs 2.
Definition FRAME_LENGTH_PREFIX : Z := 4.

(** ** How wide a frame may be ([PayloadLimit]) *)

Definition frame_budget (payload_limit : Z) : Z := payload_limit + FRAME_LENGTH_PREFIX - Wire.PACK_TAG.
Definition payload_limit (budget : Z) : Z := sat_sub (budget + Wire.PACK_TAG) FRAME_LENGTH_PREFIX.
Definition datagram_width (budget : Z) : Z := payload_limit budget + Endpoint.overhead.
Definition publish (payload_limit : Z) : Z := Z.max (frame_budget payload_limit) Outbound.MIN_DATAGRAM_FRAME.

(** ** The data *)

Record Pending := mkPending { secret : list Z; minted : Instant; p_offer : nat }.

(** [Admits] is [Plan::Admitted]. *)
Inductive Plan := Sealed | Admits (deflate : bool) | Oversize.
Definition unasked (p : Plan) : bool := match p with Admits _ => false | _ => true end.
Inductive Sealing := Sent | SBlocked | Outgrown.
(** Where the attachment's writer is: between two frames, between the two locks of one, handing a
    datagram to the kernel, failed, or dropped. *)
Inductive Writer := Between | Planned (payload : list Z) (coding : Coding) (plan : Plan) (now : Instant) | Sending (to : SocketAddr) (width : Z) (now : Instant) | Broken | Dropped.
Inductive Kernel := KTook | KRefused (carries : option Z) | KFailed.

Record Conn := mkConn { endpoint : Endpoint; farewell : option (list Z); retired : bool; limit : Z; writer : Writer; offer_of : nat; said : list Datagram }.
#[export] Instance Conn_settable : Settable Conn := λ w, mkConn (endpoint w) (farewell w) (retired w) (limit w) (writer w) (offer_of w) (said w).

Record Live := mkLive { l_wire : nat; l_handle : Z; l_id : Z; l_peer : SocketAddr; l_version : Z }.
#[export] Instance Live_settable : Settable Live := λ l, mkLive (l_wire l) (l_handle l) (l_id l) (l_peer l) (l_version l).
Record Parting := mkParting { pt_wire : nat; left : Z; pt_due : Instant; pt_expires : Instant; pt_peer : SocketAddr }.
#[export] Instance Parting_settable : Settable Parting := λ p, mkParting (pt_wire p) (left p) (pt_due p) (pt_expires p) (pt_peer p).

Record Arrival := mkArrival { a_cid : Cid; a_from : SocketAddr; a_at : Instant }.
Record Attached := mkAttached { at_live : Live; at_width : Z }.
Inductive Route := RLive (a : Attached) | RParting (w : nat) (peer : SocketAddr) (width : Z) | RPending | RUnknown.
Inductive Delivery := Command (m : Message.ClientMessage) | Retire | Ignore.

(** What the receiving thread carries. *)
Inductive Rx :=
| Listening
| Routed (a : Arrival) (datagram : list Z) (r : Route)
| Heard (a : Arrival) (l : Live) (moved : option SocketAddr) (x : Delivery)
| Admitting (a : Arrival) (datagram : list Z) (offer : Pending)
| Opened (a : Arrival) (l : Live) (client : list Z).
(** And the transmitting one: [ws] are the connections it has yet to poll. *)
Inductive Tx := Resting | Reaping (now : Instant) (ws : list nat) | Walking (now : Instant) (ws : list nat) (deadline : option Instant).

Inductive Post := PAttach (id handle : Z) | PCommand (id : Z) (m : Message.ClientMessage) | PDetached (id : Z).
Inductive Sending_ := TrySent | TryFull | TryClosed.

Record Daemon := mkDaemon {
  pending : gmap Cid Pending; live : gmap Cid Live; parting : gmap Cid Parting;
  wires : list Conn; clock : Clock.Clock; receiving : bool; fragmentation : Mtu.Fragmentation; next_id : Z; limiter : Limiter.Limiter;
  rx : Rx; tx : Tx;
  posts : list Post; offers : list (Cid * list Z * Instant); answered : list (nat * Datagram) }.
#[export] Instance Daemon_settable : Settable Daemon := λ d,
  mkDaemon (pending d) (live d) (parting d) (wires d) (clock d) (receiving d) (fragmentation d) (next_id d) (limiter d) (rx d) (tx d) (posts d) (offers d) (answered d).
Definition bind (f : Mtu.Fragmentation) : Daemon := {| pending := ∅; live := ∅; parting := ∅; wires := []; clock := Clock.start; receiving := true;
  fragmentation := f; next_id := 0; limiter := Limiter.new; rx := Listening; tx := Resting; posts := []; offers := []; answered := [] |}.

Definition advance (d : Daemon) (at_ : Instant) : Daemon := d <| clock := Clock.advance (clock d) at_ |>.
Definition put (d : Daemon) (w : nat) (c : Conn) : Daemon := d <| wires := <[w := c]> (wires d) |>.
Definition limit_of (d : Daemon) (w : nat) : Z := match wires d !! w with Some c => limit c | None => 0 end.
Definition sooner (deadline : option Instant) (next : Instant) : option Instant := Some (match deadline with None => next | Some held => Z.min held next end).
Definition fold_sooner (deadline next : option Instant) : option Instant := match next with Some n => sooner deadline n | None => deadline end.

(** Polled until it has nothing to say; what it says is handed to the kernel after the lock. *)
Abbreviation Fills := (nat → option (list Z) * option (list Z)).
Definition poll_dry (c : Conn) (now : Instant) (fills : Fills) : option Conn :=
  '(os, e) ← Drain.drain Drain.POLLS (endpoint c) now fills; Some (c <| endpoint := e |> <| said := said c ++ os |>).
Definition Wire_publish (c : Conn) : Conn := c <| limit := publish (Endpoint.payload_limit (endpoint c)) |>.

(** ** Offers *)

(** [entropy]: the id and the secret, when the system has any. *)
Definition offer (d : Daemon) (entropy : option (Cid * list Z)) (now : Instant) : Daemon :=
  if negb (receiving d) then d
  else match entropy with
       | None => d
       | Some (cid, s) =>
           let d := d <| pending := <[cid := mkPending s now (length (offers d))]> (pending d) |> <| offers := offers d ++ [(cid, s, now)] |> in
           advance d (now + OFFER_LIFETIME)
       end.
Definition restore (d : Daemon) (cid : Cid) (p : Pending) : Daemon := d <| pending := <[cid := p]> (pending d) |>.

(** ** Retiring *)

Definition retire (d : Daemon) (cid : Cid) (now : Instant) (told : Sending_) : Daemon :=
  match live d !! cid with
  | None => d
  | Some l =>
      let d := d <| live := delete cid (live d) |> in
      let d := match wires d !! l_wire l with
               | None => d
               | Some c =>
                   let d := put d (l_wire l) (c <| retired := true |>) in
                   match farewell c with
                   | None => d
                   | Some _ => d <| parting := <[cid := mkParting (l_wire l) FAREWELL_REPEATS now (now + FAREWELL_WINDOW) (l_peer l)]> (parting d) |>
                   end
               end in
      let d := advance d now in
      match told with TrySent => d <| posts := posts d ++ [PDetached (l_id l)] |> | _ => d end
  end.

(** ** Receiving *)

Definition ip_of (a : SocketAddr) : Limiter.IpAddr := match a with V4 ip _ => Limiter.I4 ip | V6 ip _ _ _ => Limiter.I6 ip end.
Definition route (d : Daemon) (cid : Cid) : Route :=
  match live d !! cid with
  | Some l => RLive (mkAttached l (datagram_width (limit_of d (l_wire l))))
  | None =>
      match parting d !! cid with
      | Some p => RParting (pt_wire p) (pt_peer p) (datagram_width (limit_of d (pt_wire p)))
      | None => match pending d !! cid with Some _ => RPending | None => RUnknown end
      end
  end.
Definition receive (d : Daemon) (from : SocketAddr) (at_ : Instant) (datagram : list Z) : Daemon :=
  match Packet.peek datagram with
  | Err _ => d
  | Ok cid => d <| rx := Routed (mkArrival cid from at_) datagram (route d cid) |>
  end.

Definition frame_message (body : list Z) (spoken : Z) : option Message.ClientMessage :=
  match Wire.unpack body MAX_CLIENT_FRAME with
  | Err _ => None
  | Ok payload => match Message.decode payload spoken with Ok m => Some m | Err _ => None end
  end.

(** With the lock of the connection. *)
Definition deliver (d : Daemon) (a : Arrival) (at_ : Attached) (datagram : list Z) (fills : Fills) : option Daemon :=
  let l := at_live at_ in
  if negb (bool_decide (a_from a = l_peer l)) && (at_width at_ <? len datagram) then Some (d <| rx := Listening |>)
  else
    c ← wires d !! l_wire l;
    let '(r, e) := Endpoint.recv (endpoint c) (a_from a) (a_at a) datagram in
    let x := match r with
             | Ok (Endpoint.RFrame body) => match frame_message body (l_version l) with Some m => Command m | None => Retire end
             | Ok Endpoint.RClosed => Retire
             | Ok (Endpoint.RMigrated _) | Ok Endpoint.RNothing | Err _ => Ignore
             end in
    let moved := match r with Ok (Endpoint.RMigrated to) => Some to | _ => None end in
    c ← poll_dry (c <| endpoint := e |>) (a_at a) fills;
    let d := put d (l_wire l) (Wire_publish c) in
    let d := match Endpoint.poll_deadline (endpoint c) with Some next => advance d next | None => d end in
    Some (d <| rx := Heard a l moved x |>).
Definition overhear (d : Daemon) (a : Arrival) (w : nat) (peer : SocketAddr) (width : Z) (datagram : list Z) (fills : Fills) : option Daemon :=
  let d := d <| rx := Listening |> in
  if negb (bool_decide (a_from a = peer)) && (width <? len datagram) then Some d
  else
    c ← wires d !! w;
    c ← poll_dry (c <| endpoint := (Endpoint.recv (endpoint c) (a_from a) (a_at a) datagram).2 |>) (a_at a) fills;
    let d := put d w c in
    Some (match Endpoint.poll_deadline (endpoint c) with Some next => advance d next | None => d end).
(** With the table's, if the peer moved; and then what the datagram was for.  [told]: what the
    mailbox says to the command; [now], [detached]: when the connection is retired for it, and what
    the mailbox says to that. *)
Definition heard (d : Daemon) (a : Arrival) (l : Live) (moved : option SocketAddr) (x : Delivery) (told : Sending_) (now : Instant) (detached : Sending_) : Daemon :=
  match moved with
  | Some to => d <| live := alter (λ l, l <| l_peer := to |>) (a_cid a) (live d) |> <| rx := Heard a l None x |>
  | None =>
      let d := d <| rx := Listening |> in
      match x with
      | Ignore => d
      | Command m => match told with TrySent => d <| posts := posts d ++ [PCommand (l_id l) m] |> | TryFull => d | TryClosed => retire d (a_cid a) now detached end
      | Retire => retire d (a_cid a) now detached
      end
  end.

(** ** Admission *)

(** Said once, under a secret nothing else will use. *)
Definition answer (d : Daemon) (o : nat) (e : Endpoint) (now : Instant) (spoken : Z) (m : ServerMessage.ServerMessage) : option Daemon :=
  match ServerMessage.encode m spoken with
  | Err _ => Some d
  | Ok frame =>
      '(r, _) ← Endpoint.send e (Wire.pack (drop (Z.to_nat FRAME_LENGTH_PREFIX) frame) []) now;
      Some (match r with Ok out => d <| answered := answered d ++ [(o, out)] |> | Err _ => d end)
  end.
(** [found]: the session the request names, if its capability opens it; [sink]: whether the writing
    thread was had, and if not what retiring found. *)
Definition admit_ (d : Daemon) (a : Arrival) (datagram : list Z) (p : Pending) (found : option Z) (sink : bool) (now : Instant) (detached : Sending_) : option Daemon :=
  let d := d <| rx := Listening |> in
  match Endpoint.accept (a_cid a) (secret p) (a_from a) (a_at a) datagram (fragmentation d) with
  | Err _ => Some (restore d (a_cid a) p)
  | Ok (e, _, received) =>
      match received with
      | Endpoint.RFrame body =>
          match frame_message body PROTOCOL_VERSION with
          | Some (Message.Resume versions _ request) =>
              match negotiate local_range versions with
              | Err (server, client) => answer d (p_offer p) e (a_at a) PROTOCOL_VERSION (ServerMessage.Reject (RVersion server client))
              | Ok version =>
                  match found with
                  | None => answer d (p_offer p) e (a_at a) version (ServerMessage.Reject UnknownSession)
                  | Some handle =>
                      let w := length (wires d) in
                      let c := {| endpoint := e; farewell := None; retired := false; limit := frame_budget (Endpoint.payload_limit e); writer := if sink then Between else Dropped; offer_of := p_offer p; said := [] |} in
                      let d := d <| wires := wires d ++ [c] |> in
                      if negb sink then Some (retire d (a_cid a) now detached)
                      else
                        let l := mkLive w handle (next_id d) (a_from a) version in
                        let d := d <| next_id := next_id d + 1 |> <| live := <[a_cid a := l]> (live d) |> in
                        Some ((advance d (a_at a)) <| rx := Opened a l (client request) |>)
                  end
              end
          | _ => Some (restore d (a_cid a) p)
          end
      | _ => Some (restore d (a_cid a) p)
      end
  end.
Definition opened (d : Daemon) (a : Arrival) (l : Live) (told : Sending_) : Daemon :=
  let d := d <| rx := Listening |> in
  match told with
  | TrySent => d <| posts := posts d ++ [PAttach (l_id l) (l_handle l)] |>
  | _ => d <| live := delete (a_cid a) (live d) |>
  end.

(** The arms of [receive]. *)
Definition routed (d : Daemon) (a : Arrival) (datagram : list Z) (r : Route) (fills : Fills) : option Daemon :=
  match r with
  | RLive at_ => deliver d a at_ datagram fills
  | RParting w peer width => overhear d a w peer width datagram fills
  | RUnknown => Some (d <| rx := Listening |>)
  | RPending =>
      let '(ok, lim) := Limiter.admits (limiter d) (ip_of (a_from a)) (a_at a) in
      let d := d <| limiter := lim |> in
      match (if ok then pending d !! a_cid a else None) with
      | None => Some (d <| rx := Listening |>)
      | Some p => Some (d <| pending := delete (a_cid a) (pending d) |> <| rx := Admitting a datagram p |>)
      end
  end.

(** ** Transmitting ([tick]) *)

(** What the read lock is for. *)
Definition tick (d : Daemon) (now : Instant) (after : Instant) : Daemon :=
  let ws := (λ x, l_wire x.2) <$> map_to_list (live d) in
  let owed := negb (bool_decide (pending d = ∅)) || negb (bool_decide (parting d = ∅)) in
  if owed then d <| tx := Reaping now ws |>
  else match ws with
       | [] => d <| clock := Clock.step (clock d) (Clock.KSleep None after) |>
       | _ => d <| tx := Walking now ws None |>
       end.

Definition outlives (now : Instant) (p : Pending) : bool := negb (minted p + OFFER_LIFETIME <=? now).
(** One connection that is kept to repeat itself: what is left of it, if anything. *)
Definition reap_one (c : Conn) (p : Parting) (now : Instant) (fills : Fills) (deadline : option Instant) : option (Conn * option Parting * option Instant) :=
  if pt_expires p <=? now then Some (c, None, deadline)
  else match farewell c with
       | None => Some (c, None, deadline)
       | Some body =>
           c ← poll_dry c now fills;
           let deadline := fold_sooner deadline (Endpoint.poll_deadline (endpoint c)) in
           '(c, p) ← (if pt_due p <=? now then
                        '(r, e) ← Endpoint.send (endpoint c) body now;
                        match r with
                        | Ok out => if left p <? 1 then None else Some (c <| endpoint := e |> <| said := said c ++ [out] |>, p <| left := left p - 1 |> <| pt_due := now + FAREWELL_SPACING |>)
                        | Err _ => Some (c <| endpoint := e |>, p <| pt_due := default (now + FAREWELL_SPACING) (Endpoint.ready e now (len body)) |>)
                        end
                      else Some (c, p));
           let deadline := sooner deadline (Z.min (pt_due p) (pt_expires p)) in
           Some (c, (if 0 <? left p then Some p else None), deadline)
       end.
Fixpoint reap_all (ps : list (Cid * Parting)) (d : Daemon) (now : Instant) (fills : Cid → Fills) (deadline : option Instant) : option (Daemon * option Instant) :=
  match ps with
  | [] => Some (d, deadline)
  | (cid, p) :: ps =>
      c ← wires d !! pt_wire p;
      '(c, kept, deadline) ← reap_one c p now (fills cid) deadline;
      let d := put d (pt_wire p) c in
      let d := d <| parting := match kept with Some p => <[cid := p]> (parting d) | None => delete cid (parting d) end |> in
      reap_all ps d now fills deadline
  end.
(** With the write lock. *)
Definition reap (d : Daemon) (now : Instant) (ws : list nat) (fills : Cid → Fills) : option Daemon :=
  let d := d <| pending := filter (λ x, outlives now x.2 = true) (pending d) |> in
  let deadline := foldl (λ dl x, sooner dl (minted x.2 + OFFER_LIFETIME)) (Some (now + POLL_INTERVAL)) (map_to_list (pending d)) in
  '(d, deadline) ← reap_all (map_to_list (parting d)) d now fills deadline;
  Some (d <| tx := Walking now ws deadline |>).
(** One connection, with its lock; after the last the thread sleeps. *)
Definition walk (d : Daemon) (now : Instant) (ws : list nat) (deadline : option Instant) (fills : Fills) (after : Instant) : option Daemon :=
  match ws with
  | [] => Some (d <| clock := Clock.step (clock d) (Clock.KSleep deadline after) |> <| tx := Resting |>)
  | w :: ws =>
      c ← wires d !! w;
      c ← poll_dry c now fills;
      Some ((put d w (Wire_publish c)) <| tx := Walking now ws (fold_sooner deadline (Endpoint.poll_deadline (endpoint c))) |>)
  end.

(** ** Writing ([DatagramWriter]) *)

Definition EXIT : Z := 0x84.
Definition REJECT : Z := 0x85.
Definition DETACHED : Z := 0x87.
Definition is_farewell (payload : list Z) : bool := match payload with tag :: _ => (tag =? EXIT) || (tag =? REJECT) || (tag =? DETACHED) | [] => false end.
Definition squeezed (e : Endpoint) : bool := Congestion.window (Endpoint.congestion e) <=? Congestion.in_flight (Endpoint.congestion e) * 2.
Definition is_last (payload : list Z) (coding : Coding) : bool := match coding with Raw => is_farewell payload | Packed => false end.

(** The first lock: [Err] when the connection is gone, [Ok None] when the window is shut. *)
Definition ask (c : Conn) (payload : list Z) (coding : Coding) (now : Instant) : result (option Plan) unit :=
  match coding with
  | Packed => Ok (Some Sealed)
  | Raw =>
      if retired c then Err tt
      else
        let bound := len payload + Wire.PACK_TAG in
        if Endpoint.payload_limit (endpoint c) <? bound then Ok (Some Oversize)
        else if negb (is_last payload coding) && negb (Endpoint.writable (endpoint c) now bound) then Ok None
        else Ok (Some (Admits (squeezed (endpoint c))))
  end.
Definition asked (c : Conn) (payload : list Z) (coding : Coding) (now : Instant) : Conn :=
  match ask c payload coding now with
  | Ok (Some plan) => c <| writer := Planned payload coding plan now |>
  | Ok None => c
  | Err _ => c <| writer := Broken |>
  end.
Definition wire_bytes (payload : list Z) (plan : Plan) : list Z :=
  match plan with
  | Sealed => payload
  | Admits true | Oversize => Wire.pack payload []
  | Admits false => Wire.store payload []
  end.
(** The second. *)
Definition seal (c : Conn) (payload : list Z) (coding : Coding) (plan : Plan) (now : Instant) : option (result Sealing unit * Conn) :=
  let c := c <| writer := Between |> in
  if retired c then Some (Err tt, c <| writer := Broken |>)
  else
    let last := is_last payload coding in
    let bytes := wire_bytes payload plan in
    if negb last && unasked plan && negb (Endpoint.writable (endpoint c) now (len bytes)) then Some (Ok SBlocked, c)
    else
      let c := if last then c <| farewell := Some bytes |> else c in
      '(r, e) ← Endpoint.send (endpoint c) bytes now;
      let c := c <| endpoint := e |> in
      Some (match r with
            | Ok (to, out) => (Ok Sent, c <| said := said c ++ [(to, out)] |> <| writer := Sending to (len out) now |>)
            | Err Endpoint.Blocked => (Ok SBlocked, c)
            | Err (Endpoint.TooLarge _ _) => (Ok Outgrown, c)
            | Err _ => (Err tt, c <| writer := Broken |>)
            end).
(** What the kernel said to it.  A refusal for width comes with what the route says the path
    carries, if it can be read. *)
Definition handed (c : Conn) (width : Z) (now : Instant) (k : Kernel) : Conn :=
  match k with
  | KRefused (Some carries) =>
      let c := c <| writer := Between |> in
      if Packet.BASE_DATAGRAM <? width then Wire_publish (c <| endpoint := Endpoint.path_refused (endpoint c) carries now |>) else c
  | KRefused None | KTook => c <| writer := Between |>
  | KFailed => c <| writer := Broken |>
  end.

(** ** Everything that happens *)

Inductive Event :=
| XOffer (entropy : option (Cid * list Z)) (now : Instant)
| XReceive (from : SocketAddr) (at_ : Instant) (datagram : list Z) | XRouted (fills : Fills)
| XHeard (told : Sending_) (now : Instant) (detached : Sending_)
| XAdmit (found : option Z) (sink : bool) (now : Instant) (detached : Sending_) | XOpened (told : Sending_)
| XTick (now after : Instant) | XReap (fills : Cid → Fills) | XWalk (fills : Fills) (after : Instant) | XWake (now : Instant)
| XAsk (w : nat) (payload : list Z) (coding : Coding) (now : Instant) | XSeal (w : nat) | XHanded (w : nat) (k : Kernel)
| XDrop (w : nat) (now : Instant) (detached : Sending_)
| XStopped.

(** A thread that is not where the event takes place does nothing. *)
Definition with_wire (d : Daemon) (w : nat) (f : Conn → option Conn) : option Daemon :=
  match wires d !! w with None => Some d | Some c => c ← f c; Some (put d w c) end.
Definition step (d : Daemon) (v : Event) : option Daemon :=
  match v with
  | XOffer entropy now => Some (offer d entropy now)
  | XReceive from at_ datagram => Some (match rx d with Listening => receive d from at_ datagram | _ => d end)
  | XRouted fills => match rx d with Routed a datagram r => routed d a datagram r fills | _ => Some d end
  | XHeard told now detached => Some (match rx d with Heard a l moved x => heard d a l moved x told now detached | _ => d end)
  | XAdmit found sink now detached => match rx d with Admitting a datagram p => admit_ d a datagram p found sink now detached | _ => Some d end
  | XOpened told => Some (match rx d with Opened a l _ => opened d a l told | _ => d end)
  | XTick now after => Some (match tx d, Clock.thread (clock d) with Resting, Clock.Ticking => tick d now after | _, _ => d end)
  | XReap fills => match tx d with Reaping now ws => reap d now ws fills | _ => Some d end
  | XWalk fills after => match tx d with Walking now ws deadline => walk d now ws deadline fills after | _ => Some d end
  | XWake now => Some (d <| clock := Clock.step (clock d) (Clock.KTurn now) |>)
  | XAsk w payload coding now => with_wire d w (λ c, Some (match writer c with Between => asked c payload coding now | _ => c end))
  | XSeal w => with_wire d w (λ c, match writer c with Planned payload coding plan now => snd <$> seal c payload coding plan now | _ => Some c end)
  | XHanded w k => with_wire d w (λ c, Some (match writer c with Sending _ width now => handed c width now k | _ => c end))
  | XDrop w now detached =>
      Some (match wires d !! w with
            | Some c => match writer c with Dropped => d | _ => retire (put d w (c <| writer := Dropped |>)) (Endpoint.cid (endpoint c)) now detached end
            | None => d
            end)
  | XStopped => Some (d <| receiving := false |>)
  end.
Fixpoint run (d : Daemon) (vs : list Event) : option Daemon := match vs with [] => Some d | v :: vs => d ← step d v; run d vs end.

(** ** Every connection is an endpoint under the secret of its offer *)

Context `{!CryptoLaws C}.

(** What arrives is bytes, and so is an id. *)
Definition event_fine (v : Event) : Prop :=
  match v with
  | XOffer (Some (cid, _)) _ => length cid = 8%nat ∧ Forall is_byte cid
  | XReceive _ _ datagram => Forall is_byte datagram
  | _ => True
  end.

(** Everything ever sealed under an offer. *)
Definition under (d : Daemon) (i : nat) : list Datagram :=
  concat (said <$> filter (λ c, offer_of c = i) (wires d)) ++ (snd <$> filter (λ x, x.1 = i) (answered d)).

Abbreviation Offers := (list (list Z * list Z * Instant)).
Definition wire_ok (os : Offers) (c : Conn) : Prop :=
  ∃ cid s t w, os !! offer_of c = Some (cid, s, t) ∧ Endpoint.reached s w ∧ Endpoint.ep w = endpoint c ∧ Endpoint.outs w = said c.
Definition answer_ok (os : Offers) (x : nat * Datagram) : Prop :=
  ∃ cid s t w, os !! x.1 = Some (cid, s, t) ∧ Endpoint.reached s w ∧ Endpoint.outs w = [x.2].

Lemma wire_ok_more os o c : wire_ok os c → wire_ok (os ++ [o]) c.
Proof. intros (cid & s & t & w & Ho & H). exists cid, s, t, w. split; [by apply lookup_app_l_Some|done]. Qed.
Lemma answer_ok_more os o x : answer_ok os x → answer_ok (os ++ [o]) x.
Proof. intros (cid & s & t & w & Ho & H). exists cid, s, t, w. split; [by apply lookup_app_l_Some|done]. Qed.

(** Anything the endpoint does keeps it so. *)
Definition becomes (os : Offers) (c : Conn) (e : Endpoint) (more : list Datagram) : Prop :=
  ∀ c', endpoint c' = e → said c' = said c ++ more → offer_of c' = offer_of c → wire_ok os c'.
Lemma reached_becomes os c cid s t w' e more : os !! offer_of c = Some (cid, s, t) → Endpoint.reached s w' → Endpoint.ep w' = e → Endpoint.outs w' = said c ++ more → becomes os c e more.
Proof. intros Ho Hr He Hs c' <- Hs' Hc. exists cid, s, t, w'. rewrite Hc, Hs'. done. Qed.
Lemma becomes_same os c e : wire_ok os c → e = endpoint c → becomes os c e [].
Proof. intros (cid & s & t & w & Ho & Hr & He & Hs) ->. apply (reached_becomes os c cid s t w); [done..|]. by rewrite app_nil_r. Qed.

Lemma send_ok os c b now : wire_ok os c → ∃ r e, Endpoint.send (endpoint c) b now = Some (r, e) ∧ becomes os c e (Endpoint.ok_list r).
Proof.
  intros (cid & s & t & w & Ho & Hr & He & Hs). destruct (Endpoint.step_good s w (Endpoint.Send b now) (Endpoint.reached_good _ _ Hr) I) as (w' & Hw & _). pose proof Hw as Hw0. cbn in Hw. rewrite He in Hw.
  destruct (Endpoint.send (endpoint c) b now) as [[r e]|]; [|done]. injection Hw as <-. exists r, e. split; [done|].
  eapply (reached_becomes os c cid s t); [done|apply (Drain.reached_run s w [Endpoint.Send b now]); [done|by repeat constructor|cbn [Endpoint.run]; rewrite Hw0; reflexivity]|done|]. cbn. by rewrite Hs.
Qed.
Lemma recv_ok os c from now dg : wire_ok os c → Forall is_byte dg → becomes os c (Endpoint.recv (endpoint c) from now dg).2 [].
Proof.
  intros (cid & s & t & w & Ho & Hr & He & Hs) Hd. set (v := Endpoint.Recv from now dg). destruct (Endpoint.step_good s w v (Endpoint.reached_good _ _ Hr) Hd) as (w' & Hw & _). pose proof Hw as Hw0. cbn in Hw. rewrite He in Hw.
  destruct (Endpoint.recv (endpoint c) from now dg) as [r e]. injection Hw as <-.
  eapply (reached_becomes os c cid s t); [done|apply (Drain.reached_run s w [v]); [done|by repeat constructor|cbn [Endpoint.run]; rewrite Hw0; reflexivity]|done|]. cbn. by rewrite Hs, app_nil_r.
Qed.
Lemma refuse_ok os c carries now : wire_ok os c → becomes os c (Endpoint.path_refused (endpoint c) carries now) [].
Proof.
  intros (cid & s & t & w & Ho & Hr & He & Hs). eapply (reached_becomes os c cid s t); [done|apply (Drain.reached_run s w [Endpoint.Refuse carries now]); [done|by repeat constructor|reflexivity]|cbn; by rewrite He|]. cbn. by rewrite Hs.
Qed.
Lemma poll_dry_ok os c now fills : wire_ok os c → ∃ c', poll_dry c now fills = Some c' ∧ wire_ok os c' ∧ offer_of c' = offer_of c ∧ farewell c' = farewell c ∧ retired c' = retired c ∧ writer c' = writer c.
Proof.
  intros (cid & s & t & w & Ho & Hr & He & Hs). destruct (Drain.polling_ends s w now fills Hr) as (ds & w' & Hd & [_ Hp] & Hr' & Hos). rewrite He in *. unfold poll_dry. rewrite (Hd _ Hp). cbn [mbind option_bind].
  eexists. split; [reflexivity|]. split_and!; try done. exists cid, s, t, w'. split_and!; try done. cbn. by rewrite Hos, Hs.
Qed.
#[local] Opaque poll_dry Endpoint.recv Endpoint.send.
Lemma wire_same os c c' : wire_ok os c → endpoint c' = endpoint c → said c' = said c → offer_of c' = offer_of c → wire_ok os c'.
Proof. intros (cid & s & t & w & Ho & Hr & He & Hs) E1 E2 E3. exists cid, s, t, w. rewrite E1, E2, E3. done. Qed.

(** ** The invariant *)

Definition used (d : Daemon) : list nat := (offer_of <$> wires d) ++ (fst <$> answered d).
Definition there (d : Daemon) (w : nat) : Prop := (w < length (wires d))%nat.
Definition rx_ok (d : Daemon) (r : Rx) : Prop :=
  match r with
  | Listening | Heard _ _ _ _ | Opened _ _ _ => True
  | Routed _ dg r => Forall is_byte dg ∧ match r with RLive at_ => there d (l_wire (at_live at_)) | RParting w _ _ => there d w | RPending | RUnknown => True end
  | Admitting a dg p => Forall is_byte dg ∧ offers d !! p_offer p = Some (a_cid a, secret p, minted p) ∧ (p_offer p ∉ used d) ∧ ∀ cid q, pending d !! cid = Some q → p_offer q ≠ p_offer p
  end.
Definition tx_ok (d : Daemon) (t : Tx) : Prop := match t with Resting => True | Reaping _ ws | Walking _ ws _ => Forall (there d) ws end.
Record inv (d : Daemon) : Prop := {
  i_offers : Forall (λ x, length x.1.1 = 8%nat ∧ Forall is_byte x.1.1) (offers d);
  i_used : NoDup (used d);
  i_pending : ∀ cid p, pending d !! cid = Some p → offers d !! p_offer p = Some (cid, secret p, minted p) ∧ (p_offer p ∉ used d);
  i_wires : Forall (wire_ok (offers d)) (wires d);
  i_answered : Forall (answer_ok (offers d)) (answered d);
  i_live : ∀ cid l, live d !! cid = Some l → there d (l_wire l);
  i_parting : ∀ cid p, parting d !! cid = Some p → there d (pt_wire p) ∧ 1 ≤ left p;
  i_rx : rx_ok d (rx d);
  i_tx : tx_ok d (tx d)
}.

Lemma bind_inv f : inv (bind f).
Proof. split; try done; try constructor. Qed.

(** A connection that changes in place. *)
Lemma used_put d w c c' : wires d !! w = Some c → offer_of c' = offer_of c → used (put d w c') = used d.
Proof.
  intros Hw Ho. unfold used, put. cbn. f_equal. rewrite list_fmap_insert. apply list_insert_id. by rewrite list_lookup_fmap, Hw, Ho.
Qed.
Lemma put_inv d w c c' : inv d → wires d !! w = Some c → offer_of c' = offer_of c → wire_ok (offers d) c' → inv (put d w c').
Proof.
  intros Hi Hw Ho Hc. pose proof (used_put d w c c' Hw Ho) as Hu. destruct Hi as [I1 I2 I3 I4 I5 I6 I7 I8 I9].
  assert (∀ x, there (put d w c') x ↔ there d x) as Ht by (intros x; unfold there, put; cbn; by rewrite length_insert).
  split; rewrite ?Hu; try done.
  - by apply Forall_insert.
  - intros cid l Hl. apply Ht. by eapply I6.
  - intros cid p Hp. rewrite Ht. by eapply I7.
  - change (rx (put d w c')) with (rx d). destruct (rx d) as [|a dg r|a l m x|a dg p|a l cl]; cbn [rx_ok] in I8 |- *; try done.
    + destruct I8 as [? I8]. split; [done|]. destruct r; try done; by apply Ht.
    + by rewrite Hu.
  - change (tx (put d w c')) with (tx d). destruct (tx d); cbn [tx_ok] in *; try done; (eapply list.Forall_impl; [exact I9|]; intros x; by rewrite Ht).
Qed.

(** What the invariant does not look at. *)
Lemma inv_core d d' : inv d → pending d' = pending d → live d' = live d → parting d' = parting d → wires d' = wires d → offers d' = offers d → answered d' = answered d → rx d' = rx d → tx d' = tx d → inv d'.
Proof. destruct d, d'. cbn. intros [I1 I2 I3 I4 I5 I6 I7 I8 I9] -> -> -> -> -> -> -> ->. by split. Qed.
Lemma advance_inv d at_ : inv d → inv (advance d at_).
Proof. intros Hi. by apply (inv_core d). Qed.
Lemma advance_opt_inv d at_ : inv d → inv (match at_ with Some next => advance d next | None => d end).
Proof. destruct at_; [apply advance_inv|done]. Qed.
Lemma idle_inv d : inv d → inv (d <| rx := Listening |>).
Proof. intros [I1 I2 I3 I4 I5 I6 I7 I8 I9]. by split. Qed.
Lemma posts_inv d ps : inv d → inv (d <| posts := ps |>).
Proof. intros Hi. by apply (inv_core d). Qed.
Lemma forget_live_inv d cid : inv d → inv (d <| live := delete cid (live d) |>).
Proof. intros [I1 I2 I3 I4 I5 I6 I7 I8 I9]. split; try done. intros c l. cbn. rewrite lookup_delete_Some. intros [_ Hl]. by eapply I6. Qed.

Lemma used_lt d : inv d → Forall (λ i, (i < length (offers d))%nat) (used d).
Proof.
  intros [_ _ _ I4 I5 _ _ _ _]. unfold used. apply Forall_app. split; apply Forall_fmap; (eapply list.Forall_impl; [eassumption|]).
  - intros c (cid & s & t & w & Ho & _). by eapply lookup_lt_Some.
  - intros x (cid & s & t & w & Ho & _). by eapply lookup_lt_Some.
Qed.

Lemma offer_inv d entropy now : inv d → match entropy with Some (cid, _) => length cid = 8%nat ∧ Forall is_byte cid | None => True end → inv (offer d entropy now).
Proof.
  intros Hi He. unfold offer. destruct (negb (receiving d)); [done|]. destruct entropy as [[cid s]|]; [|done]. apply advance_inv.
  pose proof (used_lt d Hi) as Hu. rewrite Forall_forall in Hu. destruct Hi as [I1 I2 I3 I4 I5 I6 I7 I8 I9]. split; try done.
  - cbn. apply Forall_app. split; [done|by constructor].
  - intros cid' p. cbn. rewrite lookup_insert_Some. intros [[<- <-]|[_ Hp]].
    + cbn. split; [by rewrite lookup_app_r, Nat.sub_diag|]. intros H%Hu. cbn in H. lia.
    + destruct (I3 cid' p Hp) as [Ho Hn]. split; [by apply lookup_app_l_Some|done].
  - eapply list.Forall_impl; [exact I4|]. intros c. apply wire_ok_more.
  - eapply list.Forall_impl; [exact I5|]. intros c. apply answer_ok_more.
  - change (rx_ok (d <| pending := <[cid:=mkPending s now (length (offers d))]> (pending d) |> <| offers := offers d ++ [(cid, s, now)] |>) (rx d)). destruct (rx d) as [|a dg r|a l m x|a dg p|a l cl]; cbn [rx_ok] in I8 |- *; try done.
    destruct I8 as (H1 & H2 & H3 & H4). split_and!; try done; cbn.
    + by apply lookup_app_l_Some.
    + intros cid' q. rewrite lookup_insert_Some. intros [[_ <-]|[_ Hq]]; [|by eapply H4]. cbn. apply lookup_lt_Some in H2. lia.
Qed.

Lemma retire_inv d cid now told : inv d → inv (retire d cid now told).
Proof.
  intros Hi. unfold retire. destruct (live d !! cid) as [l|] eqn:El; [|done]. pose proof (i_live _ Hi cid l El) as Hl. pose proof (forget_live_inv d cid Hi) as H1.
  set (d1 := d <| live := delete cid (live d) |>) in *. assert (∀ d2, inv d2 → inv (match told with TrySent => (advance d2 now) <| posts := posts (advance d2 now) ++ [PDetached (l_id l)] |> | _ => advance d2 now end)) as Hp.
  { intros d2 H2. destruct told; [apply posts_inv|..]; by apply advance_inv. }
  apply Hp. destruct (wires d1 !! l_wire l) as [c|] eqn:Ew; [|done].
  assert (inv (put d1 (l_wire l) (c <| retired := true |>))) as H2.
  { apply (put_inv d1 (l_wire l) c); try done. pose proof (i_wires _ H1) as H. rewrite Forall_lookup in H. by apply (wire_same _ c); [by eapply H|..]. }
  destruct (farewell c); [|done]. destruct H2 as [I1 I2 I3 I4 I5 I6 I7 I8 I9]. split; try done. intros cid' p. cbn. rewrite lookup_insert_Some. intros [[<- <-]|[_ Hpp]]; [|by eapply I7].
  cbn. split; [|unfold FAREWELL_REPEATS; lia]. unfold there, put. cbn. rewrite length_insert. exact Hl.
Qed.

Lemma receive_inv d from at_ dg : inv d → Forall is_byte dg → inv (receive d from at_ dg).
Proof.
  intros Hi Hd. unfold receive. destruct (Packet.peek dg) as [cid|]; [|done]. pose proof Hi as [I1 I2 I3 I4 I5 I6 I7 I8 I9]. split; try done. cbn [rx]. change (rx_ok d (Routed (mkArrival cid from at_) dg (route d cid))). split; [done|]. unfold route.
  destruct (live d !! cid) as [l|] eqn:El; [by eapply I6|]. destruct (parting d !! cid) as [pt|] eqn:Ep; [by eapply I7|]. by destruct (pending d !! cid).
Qed.

(** One bind at a time, so that nothing is polled to compare two states. *)
Lemma bind_is {A B} (f : A → option B) (m : option A) x : m = Some x → mbind f m = f x.
Proof. by intros ->. Qed.

(** With the lock of a connection. *)
Lemma conn_at d w : inv d → there d w → ∃ c, wires d !! w = Some c ∧ wire_ok (offers d) c.
Proof. intros Hi Hw. destruct (lookup_lt_is_Some_2 _ _ Hw) as [c Hc]. exists c. split; [done|]. pose proof (i_wires _ Hi) as H. rewrite Forall_lookup in H. by eapply H. Qed.
Lemma heard_and_polled d w c from at_ dg fills : inv d → wires d !! w = Some c → wire_ok (offers d) c → Forall is_byte dg →
  ∃ c', poll_dry (c <| endpoint := (Endpoint.recv (endpoint c) from at_ dg).2 |>) at_ fills = Some c' ∧ wire_ok (offers d) c' ∧ offer_of c' = offer_of c.
Proof.
  intros Hi Hw Hc Hd. destruct (poll_dry_ok (offers d) (c <| endpoint := (Endpoint.recv (endpoint c) from at_ dg).2 |>) at_ fills) as (c' & H1 & H2 & H3 & _); [|by exists c'].
  by apply (recv_ok _ c from at_ dg Hc Hd); [|rewrite app_nil_r|].
Qed.

Lemma deliver_inv d a at_ dg fills : inv d → Forall is_byte dg → there d (l_wire (at_live at_)) → ∃ d', deliver d a at_ dg fills = Some d' ∧ inv d'.
Proof.
  intros Hi Hd Ht. unfold deliver. destruct (negb _ && _); [eexists; split; [done|by apply idle_inv]|]. destruct (conn_at d _ Hi Ht) as (c & Hw & Hc). rewrite (bind_is _ _ _ Hw).
  destruct (heard_and_polled d _ c (a_from a) (a_at a) dg fills Hi Hw Hc Hd) as (c' & Hp & Hc' & Ho). destruct (Endpoint.recv (endpoint c) (a_from a) (a_at a) dg) as [r e]. cbn [snd] in Hp. rewrite (bind_is _ _ _ Hp).
  eexists. split; [reflexivity|]. assert (inv (put d (l_wire (at_live at_)) (Wire_publish c'))) as H1 by (apply (put_inv d _ c); try done; by apply (wire_same _ c')).
  apply (advance_opt_inv _ (Endpoint.poll_deadline (endpoint c'))) in H1. destruct H1 as [I1 I2 I3 I4 I5 I6 I7 I8 I9]. by split.
Qed.
Lemma overhear_inv d a w peer width dg fills : inv d → Forall is_byte dg → there d w → ∃ d', overhear d a w peer width dg fills = Some d' ∧ inv d'.
Proof.
  intros Hi Hd Ht. unfold overhear. pose proof (idle_inv d Hi) as Hi1. set (d1 := d <| rx := Listening |>) in *. destruct (negb _ && _); [by eexists|]. destruct (conn_at d1 w Hi1 Ht) as (c & Hw & Hc). rewrite (bind_is _ _ _ Hw).
  destruct (heard_and_polled d1 w c (a_from a) (a_at a) dg fills Hi1 Hw Hc Hd) as (c' & Hp & Hc' & Ho). rewrite (bind_is _ _ _ Hp).
  eexists. split; [reflexivity|]. apply advance_opt_inv. by apply (put_inv d1 w c).
Qed.
Lemma heard_inv d a l moved x told now detached : inv d → inv (heard d a l moved x told now detached).
Proof.
  intros Hi. unfold heard. destruct moved as [to|].
  - destruct Hi as [I1 I2 I3 I4 I5 I6 I7 I8 I9]. split; try done. intros cid l'. cbn. rewrite lookup_alter_Some. intros [(_ & l0 & Hl & ->)|[_ Hl]]; cbn; by eapply I6.
  - apply idle_inv in Hi. destruct x as [m| |]; [destruct told|..]; [by apply posts_inv|done|by apply retire_inv|by apply retire_inv|done].
Qed.

Lemma restore_inv d a dg p : inv d → rx d = Admitting a dg p → inv (restore (d <| rx := Listening |>) (a_cid a) p).
Proof.
  intros [I1 I2 I3 I4 I5 I6 I7 I8 I9] Hr. rewrite Hr in I8. destruct I8 as (_ & H2 & H3 & _). split; try done. intros cid q. cbn. rewrite lookup_insert_Some. intros [[<- <-]|[_ Hq]]; [by split|by eapply I3].
Qed.
Lemma accept_ok cid s from now dg f e o r : length cid = 8%nat → Forall is_byte cid → Forall is_byte dg → Endpoint.accept cid s from now dg f = Ok (e, o, r) →
  ∃ w, Endpoint.reached s w ∧ Endpoint.ep w = e ∧ Endpoint.outs w = [].
Proof.
  intros Hl Hb Hd. unfold Endpoint.accept. destruct (Endpoint.recv _ from now dg) as [[x|] e1] eqn:Er; [|done]. intros [= <- <- <-].
  set (e0 := Endpoint.listen cid s from f). assert (Endpoint.run (Endpoint.begin e0) [Endpoint.Recv from now dg] = Some (Endpoint.mkWorld e1 [] (Path.Trace.add (λ _, 0) from (len dg)) (λ _, 0))) as Hw.
  { cbn. unfold e0, Endpoint.listen. by rewrite Er. }
  eexists. split; [exists e0, [Endpoint.Recv from now dg]; split_and!; [by constructor|by repeat constructor|exact Hw]|done].
Qed.

(** An offer that was taken out and is now used, once. *)
Lemma answered_inv d a dg p e now spoken m w : inv d → rx d = Admitting a dg p → Endpoint.reached (secret p) w → Endpoint.ep w = e → Endpoint.outs w = [] →
  ∃ d', answer (d <| rx := Listening |>) (p_offer p) e now spoken m = Some d' ∧ inv d'.
Proof.
  intros Hi Hr Hw He Hs. pose proof (i_rx _ Hi) as Hx. rewrite Hr in Hx. destruct Hx as (_ & H2 & H3 & H4). pose proof (idle_inv d Hi) as Hi1. unfold answer. destruct (ServerMessage.encode m spoken) as [frame|]; [|by eexists].
  set (c := mkConn e None false 0 Between (p_offer p) []). destruct (send_ok (offers d) c (Wire.pack (drop (Z.to_nat FRAME_LENGTH_PREFIX) frame) []) now) as (r & e' & Hsend & Hb); [by exists (a_cid a), (secret p), (minted p), w|].
  rewrite (bind_is _ _ _ Hsend). eexists. split; [reflexivity|]. destruct r as [out|]; [|done]. destruct Hi1 as [I1 I2 I3 I4 I5 I6 I7 I8 I9]. set (d' := _ <| answered := _ |>).
  assert (used d' ≡ₚ p_offer p :: used d) as Hu by (unfold used, d'; cbn; rewrite fmap_app; cbn; rewrite (Permutation_app_comm (fst <$> answered d) [p_offer p]); cbn; symmetry; apply Permutation_middle).
  split; try done.
  - rewrite Hu. by constructor.
  - intros cid q Hq. destruct (I3 cid q Hq) as [Ho Hn]. split; [done|]. rewrite Hu, elem_of_cons. intros [E|E]; [by eapply H4|done].
  - apply Forall_app. split; [done|]. constructor; [|done]. destruct (Hb (c <| endpoint := e' |> <| said := [out] |>)) as (cid & s & t & w' & Ho & Hr' & _ & Hs'); [done..|]. by exists cid, s, t, w'.
Qed.
Lemma adopt_inv d a dg p c : inv d → rx d = Admitting a dg p → offer_of c = p_offer p → wire_ok (offers d) c → inv (d <| rx := Listening |> <| wires := wires d ++ [c] |>).
Proof.
  intros [I1 I2 I3 I4 I5 I6 I7 I8 I9] Hr Ho Hc. rewrite Hr in I8. destruct I8 as (_ & H2 & H3 & H4). set (d' := _ <| wires := _ |>).
  assert (used d' ≡ₚ p_offer p :: used d) as Hu by (unfold used, d'; cbn; rewrite fmap_app, <- app_assoc; cbn; rewrite Ho; symmetry; apply Permutation_middle).
  assert (∀ w, there d w → there d' w) as Ht by (intros w; unfold there, d'; cbn; rewrite length_app; lia).
  split; try done.
  - rewrite Hu. by constructor.
  - intros cid q Hq. destruct (I3 cid q Hq) as [Hoq Hn]. split; [done|]. rewrite Hu, elem_of_cons. intros [E|E]; [by eapply H4|done].
  - apply Forall_app. split; [done|by constructor].
  - intros cid l Hl. apply Ht. by eapply I6.
  - intros cid q Hq. destruct (I7 cid q Hq). split; [by apply Ht|done].
  - change (tx_ok d' (tx d)). destruct (tx d); cbn [tx_ok] in *; try done; (eapply list.Forall_impl; [exact I9|done]).
Qed.
Lemma admit_inv d a dg p found sink now detached : inv d → rx d = Admitting a dg p → ∃ d', admit_ d a dg p found sink now detached = Some d' ∧ inv d'.
Proof.
  intros Hi Hr. pose proof (i_rx _ Hi) as Hx. rewrite Hr in Hx. destruct Hx as (Hd & H2 & H3 & H4). pose proof (restore_inv d a dg p Hi Hr) as Hre.
  assert (length (a_cid a) = 8%nat ∧ Forall is_byte (a_cid a)) as [Hl Hb] by (pose proof (i_offers _ Hi) as H; rewrite Forall_lookup in H; exact (H _ _ H2)).
  unfold admit_. destruct (Endpoint.accept _ _ _ _ _ _) as [[[e o] r]|] eqn:Ea; [|by eexists]. destruct (accept_ok _ _ _ _ _ _ _ _ _ Hl Hb Hd Ea) as (w & Hw & He & Hs).
  destruct r as [body| | |]; try by eexists. destruct (frame_message body PROTOCOL_VERSION) as [[]|]; try by eexists.
  destruct (negotiate local_range versions) as [version|[server cl]]; [|by eapply answered_inv]. destruct found as [handle|]; [|by eapply answered_inv].
  set (c := {| endpoint := e |}). pose proof (adopt_inv d a dg p c Hi Hr eq_refl ltac:(by exists (a_cid a), (secret p), (minted p), w)) as Hn.
  destruct (negb sink); [eexists; split; [reflexivity|by apply retire_inv]|]. eexists. split; [reflexivity|].
  destruct Hn as [I1 I2 I3 I4 I5 I6 I7 I8 I9]. split; try done. intros cid l. cbn. rewrite lookup_insert_Some. intros [[<- <-]|[_ Hl']]; [|by eapply I6]. unfold there. cbn. rewrite length_app. cbn. lia.
Qed.

Lemma routed_inv d a dg r fills : inv d → rx d = Routed a dg r → ∃ d', routed d a dg r fills = Some d' ∧ inv d'.
Proof.
  intros Hi Hr. pose proof (i_rx _ Hi) as Hx. rewrite Hr in Hx. destruct Hx as [Hd Hx]. unfold routed. destruct r as [at_|w peer width| |]; [by apply deliver_inv|by apply overhear_inv| |eexists; split; [done|by apply idle_inv]].
  destruct (Limiter.admits _ _ _) as [ok lim]. assert (inv (d <| limiter := lim |>)) as H1 by (by apply (inv_core d)). set (d1 := d <| limiter := lim |>) in *.
  destruct (if ok then _ else None) as [p|] eqn:Ep; [|eexists; split; [done|by apply idle_inv]]. destruct ok; [|done]. eexists. split; [reflexivity|]. destruct H1 as [I1 I2 I3 I4 I5 I6 I7 I8 I9]. destruct (I3 _ _ Ep) as [Ho Hn].
  split; try done.
  - intros cid q. cbn. rewrite lookup_delete_Some. intros [_ Hq]. by apply I3.
  - cbn [rx]. split_and!; try done. intros cid q. cbn. rewrite lookup_delete_Some. intros [Hne Hq] E. destruct (I3 _ _ Hq) as [Ho' _]. rewrite E, Ho in Ho'. by injection Ho' as <-.
Qed.

Lemma opened_inv d a l told : inv d → inv (opened d a l told).
Proof. intros Hi%idle_inv. unfold opened. destruct told; [by apply posts_inv|by apply forget_live_inv..]. Qed.

(** The transmitting thread. *)
Lemma tick_inv d now after : inv d → inv (tick d now after).
Proof.
  intros [I1 I2 I3 I4 I5 I6 I7 I8 I9]. assert (Forall (there d) ((λ x, l_wire x.2) <$> map_to_list (live d))) as Hw.
  { apply Forall_fmap, Forall_forall. intros [cid l] Hl%elem_of_map_to_list. by eapply I6. }
  unfold tick. destruct (_ || _); [by split|]. destruct (_ <$> _); by split.
Qed.
Lemma reap_one_ok os c p now fills deadline : wire_ok os c → 1 ≤ left p → ∃ c' kept deadline', reap_one c p now fills deadline = Some (c', kept, deadline') ∧ wire_ok os c' ∧ offer_of c' = offer_of c ∧
  match kept with Some p' => pt_wire p' = pt_wire p ∧ 1 ≤ left p' | None => True end.
Proof.
  intros Hc Hl. unfold reap_one. destruct (pt_expires p <=? now); [by eexists _, _, _|]. destruct (farewell c) as [body|]; [|by eexists _, _, _].
  destruct (poll_dry_ok os c now fills Hc) as (c1 & Hp & Hc1 & Ho1 & _). rewrite (bind_is _ _ _ Hp). destruct (pt_due p <=? now).
  2:{ eexists _, _, _. split; [reflexivity|]. split; [done|]. split; [done|]. destruct (0 <? left p); done. }
  destruct (send_ok os c1 body now Hc1) as (r & e & Hs & Hb). rewrite (bind_is _ _ _ Hs). destruct r as [out|err].
  - destruct (Z.ltb_spec (left p) 1); [lia|]. eexists _, _, _. split; [reflexivity|]. split; [by apply Hb|]. split; [done|]. cbn. destruct (Z.ltb_spec 0 (left p - 1)); [cbn; split; [done|lia]|done].
  - eexists _, _, _. split; [reflexivity|]. split; [apply Hb; [done|by rewrite app_nil_r|done]|]. split; [done|]. cbn. by destruct (0 <? left p).
Qed.
Lemma reap_all_inv ps d now fills deadline : inv d → Forall (λ x, there d (pt_wire x.2) ∧ 1 ≤ left x.2) ps → ∃ d' deadline', reap_all ps d now fills deadline = Some (d', deadline') ∧ inv d' ∧ length (wires d') = length (wires d) ∧ rx d' = rx d.
Proof.
  revert d deadline; induction ps as [|[cid p] ps IH]; intros d deadline Hi Hps; [by eexists _, _|]. apply list.Forall_cons in Hps as [[Ht Hl] Hps]. cbn [reap_all].
  destruct (conn_at d _ Hi Ht) as (c & Hw & Hc). cbn [snd] in *. rewrite (bind_is _ _ _ Hw). destruct (reap_one_ok (offers d) c p now (fills cid) deadline Hc Hl) as (c' & kept & dl & Hr & Hc' & Ho & Hk). rewrite (bind_is _ _ _ Hr).
  set (d1 := put d (pt_wire p) c'). assert (inv d1) as H1 by (by apply (put_inv d _ c)). assert (length (wires d1) = length (wires d)) as Hlen by (unfold d1, put; cbn; by rewrite length_insert).
  set (d2 := d1 <| parting := _ |>). assert (inv d2) as H2.
  { destruct H1 as [I1 I2 I3 I4 I5 I6 I7 I8 I9]. split; try done. intros cid' q. unfold d2. cbn. destruct kept as [p'|].
    - rewrite lookup_insert_Some. intros [[<- <-]|[_ Hq]]; [|by eapply I7]. destruct Hk as [-> Hk]. split; [|done]. unfold there, d1, put in *. cbn. by rewrite length_insert.
    - rewrite lookup_delete_Some. intros [_ Hq]. by eapply I7. }
  destruct (IH d2 dl H2) as (d' & dl' & Hd & Hi' & Hl' & Hrx).
  { eapply list.Forall_impl; [exact Hps|]. intros x [Hx ?]. split; [|done]. unfold there, d2, d1, put in *. cbn. by rewrite length_insert. }
  exists d', dl'. split_and!; [exact Hd|done| |done]. rewrite Hl'. exact Hlen.
Qed.
Lemma reap_inv d now ws fills : inv d → Forall (there d) ws → ∃ d', reap d now ws fills = Some d' ∧ inv d'.
Proof.
  intros Hi Hws. unfold reap. set (d1 := d <| pending := _ |>). assert (inv d1) as H1.
  { destruct Hi as [I1 I2 I3 I4 I5 I6 I7 I8 I9]. assert (∀ cid p, pending d1 !! cid = Some p → pending d !! cid = Some p) as Hsub by (intros cid p; unfold d1; cbn; rewrite map_lookup_filter_Some; naive_solver).
    split; try done; [intros cid p Hp; apply I3; by apply Hsub|]. change (rx_ok d1 (rx d)). destruct (rx d) as [| | |a dg p|]; cbn [rx_ok] in *; try done. destruct I8 as (? & ? & ? & H4). split_and!; try done. intros cid q Hq. eapply H4. by apply Hsub. }
  set (dl := foldl _ _ _). destruct (reap_all_inv (map_to_list (parting d1)) d1 now fills dl H1) as (d' & dl' & Hr & Hi' & Hl & _).
  { apply Forall_forall. intros [cid p] Hp%elem_of_map_to_list. by apply (i_parting _ H1 cid). }
  rewrite (bind_is _ _ _ Hr). eexists. split; [reflexivity|]. destruct Hi' as [I1 I2 I3 I4 I5 I6 I7 I8 I9]. split; try done. cbn. eapply list.Forall_impl; [exact Hws|]. unfold there. cbn. intros x. rewrite Hl. done.
Qed.
Lemma walk_inv d now ws deadline fills after : inv d → Forall (there d) ws → ∃ d', walk d now ws deadline fills after = Some d' ∧ inv d'.
Proof.
  intros Hi Hws. unfold walk. destruct ws as [|w ws]; [eexists; split; [reflexivity|]; destruct Hi as [I1 I2 I3 I4 I5 I6 I7 I8 I9]; by split|]. apply list.Forall_cons in Hws as [Hw Hws].
  destruct (conn_at d w Hi Hw) as (c & Hc & Hok). rewrite (bind_is _ _ _ Hc). destruct (poll_dry_ok (offers d) c now fills Hok) as (c' & Hp & Hok' & Ho & _). rewrite (bind_is _ _ _ Hp). eexists. split; [reflexivity|].
  assert (inv (put d w (Wire_publish c'))) as H1 by (apply (put_inv d w c); try done; by apply (wire_same _ c')). destruct H1 as [I1 I2 I3 I4 I5 I6 I7 I8 I9]. split; try done. cbn. eapply list.Forall_impl; [exact Hws|]. unfold there. cbn. intros x. by rewrite length_insert.
Qed.

(** The writers. *)
Lemma with_wire_inv d w f : inv d → (∀ c, wire_ok (offers d) c → ∃ c', f c = Some c' ∧ wire_ok (offers d) c' ∧ offer_of c' = offer_of c) → ∃ d', with_wire d w f = Some d' ∧ inv d'.
Proof.
  intros Hi Hf. unfold with_wire. destruct (wires d !! w) as [c|] eqn:Hw; [|by eexists]. pose proof (i_wires _ Hi) as H. rewrite Forall_lookup in H. destruct (Hf c (H _ _ Hw)) as (c' & Hc & Hok & Ho). rewrite (bind_is _ _ _ Hc). eexists. split; [reflexivity|]. by apply (put_inv d w c).
Qed.
Lemma asked_ok os c payload coding now : wire_ok os c → wire_ok os (asked c payload coding now) ∧ offer_of (asked c payload coding now) = offer_of c.
Proof. intros Hc. unfold asked. destruct (ask c payload coding now) as [[plan|]|]; (split; [by apply (wire_same _ c)|done]). Qed.
Lemma seal_ok os c payload coding plan now : wire_ok os c → ∃ c', snd <$> seal c payload coding plan now = Some c' ∧ wire_ok os c' ∧ offer_of c' = offer_of c.
Proof.
  intros Hc. unfold seal. set (c0 := c <| writer := Between |>). assert (wire_ok os c0) as H0 by (by apply (wire_same _ c)). destruct (retired c0); [eexists; split; [reflexivity|]; split; [by apply (wire_same _ c)|done]|].
  destruct (_ && negb (Endpoint.writable _ _ _)); [by eexists|]. set (c1 := if is_last payload coding then _ else c0).
  assert (wire_ok os c1 ∧ offer_of c1 = offer_of c ∧ endpoint c1 = endpoint c) as (H1 & Ho & He) by (unfold c1; destruct (is_last _ _); (split; [by apply (wire_same _ c)|done])).
  destruct (send_ok os c1 (wire_bytes payload plan) now H1) as (r & e & Hs & Hb). rewrite (bind_is _ _ _ Hs). destruct r as [[to out]|err]; cbn [fmap option_fmap option_map snd].
  - eexists. split; [reflexivity|]. split; [by apply Hb|done].
  - destruct err; (eexists; split; [reflexivity|]; split; [apply Hb; [done|by rewrite app_nil_r|done]|done]).
Qed.
Lemma handed_ok os c width now k : wire_ok os c → wire_ok os (handed c width now k) ∧ offer_of (handed c width now k) = offer_of c.
Proof.
  intros Hc. unfold handed. destruct k as [|[carries|]|]; try (split; [by apply (wire_same _ c)|done]). destruct (_ <? width); [|split; [by apply (wire_same _ c)|done]]. split; [|done]. apply (refuse_ok os c carries now Hc); [done|by rewrite app_nil_r|done].
Qed.

Lemma step_inv d v : inv d → event_fine v → ∃ d', step d v = Some d' ∧ inv d'.
Proof.
  intros Hi Hv. assert (∀ d', inv d' → ∃ x, Some d' = Some x ∧ inv x) as Hs by eauto. unfold step.
  destruct v as [entropy now|from at_ dg|fills|told now det|found sink now det|told|now after|fills|fills after|now|w payload coding now|w|w k|w now det|]; cbn [event_fine] in Hv.
  - apply Hs, offer_inv; [done|]. by destruct entropy as [[]|].
  - apply Hs. destruct (rx d); try done. by apply receive_inv.
  - destruct (rx d) eqn:Er; try by apply Hs. by apply routed_inv.
  - apply Hs. destruct (rx d); try done. by apply heard_inv.
  - destruct (rx d) eqn:Er; try by apply Hs. by apply admit_inv.
  - apply Hs. destruct (rx d); try done. by apply opened_inv.
  - apply Hs. destruct (tx d); try done. destruct (Clock.thread _); try done. by apply tick_inv.
  - destruct (tx d) eqn:Et; try by apply Hs. apply reap_inv; [done|]. pose proof (i_tx _ Hi) as H. by rewrite Et in H.
  - destruct (tx d) eqn:Et; try by apply Hs. apply walk_inv; [done|]. pose proof (i_tx _ Hi) as H. by rewrite Et in H.
  - apply Hs. by apply (inv_core d).
  - apply with_wire_inv; [done|]. intros c Hc. destruct (writer c); try by eexists. eexists. split; [reflexivity|]. by apply asked_ok.
  - apply with_wire_inv; [done|]. intros c Hc. destruct (writer c); try by eexists. by apply seal_ok.
  - apply with_wire_inv; [done|]. intros c Hc. destruct (writer c); try by eexists. eexists. split; [reflexivity|]. by apply handed_ok.
  - apply Hs. destruct (wires d !! w) as [c|] eqn:Ew; [|done]. assert (inv (put d w (c <| writer := Dropped |>))) as H1.
    { apply (put_inv d w c); try done. pose proof (i_wires _ Hi) as H. rewrite Forall_lookup in H. by apply (wire_same _ c); [by eapply H|..]. }
    destruct (writer c); try done; by apply retire_inv.
  - apply Hs. by apply (inv_core d).
Qed.
Lemma run_inv vs d : inv d → Forall event_fine vs → ∃ d', run d vs = Some d' ∧ inv d'.
Proof.
  revert d; induction vs as [|v vs IH]; intros d Hi Hv; [by eexists|]. apply list.Forall_cons in Hv as [Hv Hvs]. cbn [run]. destruct (step_inv d v Hi Hv) as (d1 & Hs & Hi1). rewrite (bind_is _ _ _ Hs). by apply IH.
Qed.

(** ** One endpoint for each offer *)

Lemma filter_key {A} (f : A → nat) l x : NoDup (f <$> l) → x ∈ l → filter (λ y, f y = f x) l = [x].
Proof.
  induction l as [|y l IH]; intros Hn Hx; [by apply not_elem_of_nil in Hx|]. cbn in Hn. apply NoDup_cons in Hn as [Hy Hn]. apply elem_of_cons in Hx as [->|Hx].
  - rewrite filter_cons_True by done. f_equal. apply filter_false, Forall_forall. intros z Hz E. apply Hy. rewrite <- E. by apply list_elem_of_fmap_2.
  - rewrite filter_cons_False; [by apply IH|]. intros E. apply Hy. rewrite E. by apply list_elem_of_fmap_2.
Qed.
Lemma filter_no_key {A} (f : A → nat) l i : i ∉ f <$> l → filter (λ y, f y = i) l = [].
Proof. intros Hn. apply filter_false, Forall_forall. intros z Hz <-. apply Hn. by apply list_elem_of_fmap_2. Qed.

Lemma under_one d i cid s t : inv d → offers d !! i = Some (cid, s, t) → ∃ w, Endpoint.reached s w ∧ Endpoint.outs w = under d i ∧ ∀ c, c ∈ wires d → offer_of c = i → Endpoint.ep w = endpoint c.
Proof.
  intros [I1 I2 _ I4 I5 _ _ _ _] Ho. unfold used in I2. apply NoDup_app in I2 as (N1 & N2 & N3). unfold under.
  destruct (decide (i ∈ offer_of <$> wires d)) as [Hi|Hi].
  - apply list_elem_of_fmap in Hi as (c & -> & Hc). rewrite (filter_key offer_of _ _ N1 Hc), (filter_no_key fst (answered d)) by (apply N2; by apply list_elem_of_fmap_2). cbn. rewrite !app_nil_r.
    rewrite Forall_forall in I4. destruct (I4 c Hc) as (cid' & s' & t' & w & Ho' & Hr & He & Hs). rewrite Ho in Ho'. injection Ho' as <- <- <-. exists w. split; [done|]. split; [done|]. intros c' Hc' E.
    assert (c' ∈ filter (λ y, offer_of y = offer_of c) (wires d)) as Hf by (by apply list_elem_of_filter). rewrite (filter_key offer_of _ _ N1 Hc), list_elem_of_singleton in Hf. by subst c'.
  - rewrite (filter_no_key offer_of _ _ Hi). cbn. destruct (decide (i ∈ fst <$> answered d)) as [Ha|Ha].
    + apply list_elem_of_fmap in Ha as (x & -> & Hx). rewrite (filter_key fst _ _ N3 Hx). rewrite Forall_forall in I5. destruct (I5 x Hx) as (cid' & s' & t' & w & Ho' & Hr & Hs). rewrite Ho in Ho'. injection Ho' as <- <- <-. exists w. split; [done|]. split; [done|].
      intros c Hc E. destruct Hi. rewrite <- E. by apply list_elem_of_fmap_2.
    + rewrite (filter_no_key fst _ _ Ha). rewrite Forall_lookup in I1. destruct (I1 _ _ Ho) as [Hl Hb]. cbn in Hl, Hb. exists (Endpoint.begin (Endpoint.listen cid s (V4 0 0) Mtu.Refused)). split; [eexists _, []; split_and!; [by constructor|constructor|done]|]. split; [done|].
      intros c Hc E. destruct Hi. rewrite <- E. by apply list_elem_of_fmap_2.
Qed.

(** C7: under the secret of an offer no packet number is ever sealed twice.  Whatever arrives, whatever
    the sessions write, however the threads that receive, transmit and write interleave and whatever the
    mailboxes and the kernel answer, no step panics; and everything the daemon ever seals under one
    offer, for a connection, its repeated last message or a single refusal, is what one endpoint
    seals that began with that secret: numbered 0, 1, 2, ..., each once.  An offer that was put back
    has sealed nothing, and one that was used is never used again. *)
Theorem offers_seal_once f vs : Forall event_fine vs →
  ∃ d, run (bind f) vs = Some d ∧ ∀ i cid s t, offers d !! i = Some (cid, s, t) →
    (∃ w, Endpoint.reached s w ∧ Endpoint.outs w = under d i ∧ (∀ c, c ∈ wires d → offer_of c = i → Endpoint.ep w = endpoint c)) ∧
    (λ o, Endpoint.wire_number o.2) <$> under d i = Some <$> seqZ 0 (len (under d i)) ∧
    (∀ cid' p, pending d !! cid' = Some p → p_offer p = i → under d i = []).
Proof.
  intros Hv. destruct (run_inv vs (bind f) (bind_inv f) Hv) as (d & Hr & Hi). exists d. split; [done|]. intros i cid s t Ho. destruct (under_one d i cid s t Hi Ho) as (w & Hw & Hs & He). split_and!.
  - by exists w.
  - rewrite <- Hs. pose proof (Endpoint.reached_good _ _ Hw) as [_ Hn Hc _]. by rewrite <- Hc.
  - intros cid' p Hp <-. destruct (i_pending _ Hi cid' p Hp) as [_ Hu]. unfold used in Hu. rewrite not_elem_of_app in Hu. destruct Hu. unfold under. by rewrite (filter_no_key offer_of), (filter_no_key fst).
Qed.

(** ** What an attachment is told *)

Definition told_of (p : Post) : option Z := match p with PDetached id => Some id | _ => None end.
Definition told (d : Daemon) : list Z := omap told_of (posts d).
Record ids (d : Daemon) : Prop := {
  d_live : ∀ cid l, live d !! cid = Some l → l_id l < next_id d;
  d_inj : ∀ c1 c2 l1 l2, live d !! c1 = Some l1 → live d !! c2 = Some l2 → l_id l1 = l_id l2 → c1 = c2;
  d_told : NoDup (told d);
  d_gone : ∀ id, id ∈ told d → id < next_id d ∧ ∀ cid l, live d !! cid = Some l → l_id l ≠ id
}.
Lemma ids_core d d' : ids d → live d' = live d → told d' = told d → next_id d' = next_id d → ids d'.
Proof. intros [D1 D2 D3 D4] El Et En. split; rewrite ?El, ?Et, ?En; done. Qed.
Lemma ids_sub d d' : ids d → (∀ cid l, live d' !! cid = Some l → ∃ l0, live d !! cid = Some l0 ∧ l_id l0 = l_id l) → told d' = told d → next_id d' = next_id d → ids d'.
Proof.
  intros [D1 D2 D3 D4] El Et En. split; rewrite ?Et, ?En; try done.
  - intros cid l (l0 & Hl & <-)%El. by eapply D1.
  - intros c1 c2 l1 l2 (l01 & H1 & <-)%El (l02 & H2 & <-)%El. by apply D2.
  - intros id Hid. destruct (D4 id Hid) as [? H]. split; [done|]. intros cid l (l0 & Hl & <-)%El. by eapply H.
Qed.
Lemma told_more d p : omap told_of (posts d ++ [p]) = told d ++ match told_of p with Some id => [id] | None => [] end.
Proof. unfold told. rewrite omap_app. cbn. by destruct (told_of p). Qed.

Lemma retire_ids d cid now tell : ids d → ids (retire d cid now tell).
Proof.
  intros Hd. unfold retire. destruct (live d !! cid) as [l|] eqn:El; [|done]. set (d1 := d <| live := delete cid (live d) |>).
  set (d2 := match wires d1 !! l_wire l with Some _ => _ | None => d1 end). assert (live d2 = delete cid (live d) ∧ posts d2 = posts d ∧ next_id d2 = next_id d) as (E1 & E2 & E3).
  { unfold d2. destruct (wires d1 !! l_wire l) as [c|]; [|done]. by destruct (farewell c). }
  clearbody d2. assert (ids d2) as H2.
  { apply (ids_sub d); [done| |unfold told; by rewrite E2|done]. intros c l'. rewrite E1, lookup_delete_Some. intros [_ Hl]. eauto. }
  destruct tell; try by apply (ids_core d2). destruct H2 as [D1 D2 D3 D4]. destruct Hd as [C1 C2 C3 C4]. split; cbn; try done.
  - unfold told. cbn. rewrite told_more. cbn. apply NoDup_app. split_and!; [done| |apply NoDup_singleton]. intros x Hx ->%list_elem_of_singleton. unfold told in Hx. rewrite E2 in Hx. destruct (C4 _ Hx) as [_ H]. by apply (H cid l).
  - intros id. unfold told. cbn. rewrite told_more. cbn. rewrite elem_of_app, list_elem_of_singleton. intros [Hid| ->]; [by apply D4|]. rewrite E3, E1. split; [by eapply C1|]. intros c l'. rewrite lookup_delete_Some. intros [Hne Hl] E. apply Hne. symmetry. by eapply C2.
Qed.

(** What a step that is not about attachments leaves alone. *)
Definition apart (d d' : Daemon) : Prop := live d' = live d ∧ posts d' = posts d ∧ next_id d' = next_id d ∧ offers d' = offers d.
Lemma apart_ids d d' : apart d d' → ids d → ids d'.
Proof. intros (E1 & E2 & E3 & _) Hd. apply (ids_core d); [done|done|unfold told; by rewrite E2|done]. Qed.

Lemma deliver_apart d a at_ dg fills d' : deliver d a at_ dg fills = Some d' → apart d d'.
Proof.
  unfold deliver. destruct (negb _ && _); [by intros [= <-]|]. intros (c & _ & H)%bind_Some. destruct (Endpoint.recv _ _ _ _) as [r e]. apply bind_Some in H as (c' & _ & H). injection H as <-. by destruct (Endpoint.poll_deadline _).
Qed.
Lemma overhear_apart d a w peer width dg fills d' : overhear d a w peer width dg fills = Some d' → apart d d'.
Proof.
  unfold overhear. destruct (negb _ && _); [by intros [= <-]|]. intros (c & _ & (c' & _ & H)%bind_Some)%bind_Some. injection H as <-. by destruct (Endpoint.poll_deadline _).
Qed.
Lemma routed_apart d a dg r fills d' : routed d a dg r fills = Some d' → apart d d'.
Proof.
  unfold routed. destruct r as [at_|w peer width| |]; [apply deliver_apart|apply overhear_apart| |by intros [= <-]]. destruct (Limiter.admits _ _ _) as [ok lim]. destruct (if ok then _ else None); by intros [= <-].
Qed.
Lemma reap_all_apart ps d now fills deadline d' dl : reap_all ps d now fills deadline = Some (d', dl) → apart d d' ∧ pending d' = pending d ∧
  (∀ x, deadline = Some x → ∃ y, dl = Some y ∧ y ≤ x).
Proof.
  revert d deadline; induction ps as [|[cid p] ps IH]; intros d deadline; cbn [reap_all]; [intros [= <- <-]; split_and!; [done|done|]; intros x ->; exists x; split; [done|lia]|].
  destruct (wires d !! pt_wire p) as [c|]; [|done]. cbn [mbind option_bind]. destruct (reap_one c p now (fills cid) deadline) as [[[c' kept] dl1]|] eqn:Er; [|done]. cbn [mbind option_bind]. intros H. destruct (IH _ _ H) as (A & B & D). split; [exact A|]. split; [exact B|].
  intros x ->. assert (∃ y, dl1 = Some y ∧ y ≤ x) as (y & -> & Hy).
  { revert Er. unfold reap_one, fold_sooner, sooner. clear. destruct (pt_expires p <=? now); [intros [= <- <- <-]; exists x; split; [done|lia]|]. destruct (farewell c); [|intros [= <- <- <-]; exists x; split; [done|lia]]. destruct (poll_dry c now _) as [c1|]; [|done]. cbn [mbind option_bind].
    assert (∀ m, ∃ y, Some (Z.min (match Endpoint.poll_deadline (endpoint c1) with Some n => Z.min x n | None => x end) m) = Some y ∧ y ≤ x) as Hm by (intros m; eexists; split; [reflexivity|]; case_match; lia).
    destruct (pt_due p <=? now); [destruct (Endpoint.send _ _ _) as [[[out|] e]|]; cbn [mbind option_bind]; try done; [destruct (left p <? 1); [done|]|]|]; cbn [mbind option_bind]; destruct (Endpoint.poll_deadline _); intros [= <- <- <-]; apply Hm. }
  destruct (D y eq_refl) as (z & -> & Hz). exists z. split; [done|lia].
Qed.
Lemma reap_apart d now ws fills d' : reap d now ws fills = Some d' → apart d d'.
Proof. unfold reap. intros ([d1 dl] & E & H)%bind_Some. injection H as <-. by apply reap_all_apart in E as [? _]. Qed.
Lemma walk_apart d now ws deadline fills after d' : walk d now ws deadline fills after = Some d' → apart d d'.
Proof. unfold walk. destruct ws; [by intros [= <-]|]. intros (c & _ & (c' & _ & H)%bind_Some)%bind_Some. by injection H as <-. Qed.
Lemma with_wire_apart d w f d' : with_wire d w f = Some d' → apart d d'.
Proof. unfold with_wire. destruct (wires d !! w) as [c|]; [|by intros [= <-]]. destruct (f c); [|done]. cbn [mbind option_bind]. by intros [= <-]. Qed.
Lemma answer_apart d o e now spoken m d' : answer d o e now spoken m = Some d' → apart d d'.
Proof. unfold answer. destruct (ServerMessage.encode m spoken); [|by intros [= <-]]. destruct (Endpoint.send _ _ _) as [[r e']|]; [|done]. cbn [mbind option_bind]. intros [= <-]. by destruct r. Qed.

Lemma admit_ids d a dg p found sink now detached d' : admit_ d a dg p found sink now detached = Some d' → ids d → ids d'.
Proof.
  unfold admit_. destruct (Endpoint.accept _ _ _ _ _ _) as [[[e o] r]|]; [|intros [= <-]; by apply apart_ids]. destruct r as [body| | |]; try (intros [= <-]; by apply apart_ids). destruct (frame_message body PROTOCOL_VERSION) as [[]|]; try (intros [= <-]; by apply apart_ids).
  destruct (negotiate local_range versions) as [version|[server cl]]; [|intros H%answer_apart; by apply apart_ids]. destruct found as [handle|]; [|intros H%answer_apart; by apply apart_ids].
  destruct (negb sink); intros [= <-] Hd; [by apply retire_ids, (ids_core d)|]. destruct Hd as [D1 D2 D3 D4]. split; try done.
  - intros cid l. cbn. rewrite lookup_insert_Some. intros [[_ <-]|[_ Hl]]; [cbn; lia|]. specialize (D1 _ _ Hl). lia.
  - intros c1 c2 l1 l2. cbn. rewrite !lookup_insert_Some. intros [[<- <-]|[? H1]] [[<- <-]|[? H2]] E; cbn in E; try done; [apply D1 in H2|apply D1 in H1|by eapply D2]; lia.
  - intros id Hid. destruct (D4 id Hid) as [? H]. split; [cbn; lia|]. intros cid l. cbn. rewrite lookup_insert_Some. intros [[_ <-]|[_ Hl]]; [cbn; lia|by eapply H].
Qed.
Lemma heard_ids d a l moved x tell now detached : ids d → ids (heard d a l moved x tell now detached).
Proof.
  intros Hd. unfold heard. destruct moved as [to|].
  - apply (ids_sub d); try done. intros cid l'. cbn. rewrite lookup_alter_Some. intros [(<- & l0 & Hl & ->)|[_ Hl]]; eauto.
  - destruct x as [m| |]; [destruct tell|..]; try (apply retire_ids); try (by apply (ids_core d)). apply (ids_core d); try done. unfold told. cbn. rewrite told_more. cbn. by rewrite app_nil_r.
Qed.
Lemma opened_ids d a l tell : ids d → ids (opened d a l tell).
Proof.
  intros Hd. unfold opened. destruct tell; [apply (ids_core d); try done; unfold told; cbn; rewrite told_more; cbn; by rewrite app_nil_r|..]; (apply (ids_sub d); try done; intros cid l'; cbn; rewrite lookup_delete_Some; intros [_ Hl]; eauto).
Qed.
Lemma step_ids d v d' : step d v = Some d' → ids d → ids d'.
Proof.
  unfold step. destruct v as [entropy now|from at_ dg|fills|tell now det|found sink now det|tell|now after|fills|fills after|now|w payload coding now|w|w k|w now det|].
  - intros [= <-] Hd. unfold offer. destruct (negb _); [done|]. destruct entropy as [[]|]; [|done]. by apply (ids_core d).
  - intros [= <-] Hd. destruct (rx d); try done. unfold receive. destruct (Packet.peek dg); [|done]. by apply (ids_core d).
  - destruct (rx d); try (by intros [= <-]). intros H%routed_apart. by apply apart_ids.
  - intros [= <-] Hd. destruct (rx d); try done. by apply heard_ids.
  - destruct (rx d); try (by intros [= <-]). apply admit_ids.
  - intros [= <-] Hd. destruct (rx d); try done. by apply opened_ids.
  - intros [= <-] Hd. destruct (tx d); try done. destruct (Clock.thread _); try done. apply (ids_core d); try done; unfold tick; destruct (_ || _); try done; by destruct (_ <$> _).
  - destruct (tx d); try (by intros [= <-]). intros H%reap_apart. by apply apart_ids.
  - destruct (tx d); try (by intros [= <-]). intros H%walk_apart. by apply apart_ids.
  - intros [= <-] Hd. by apply (ids_core d).
  - intros H%with_wire_apart. by apply apart_ids.
  - intros H%with_wire_apart. by apply apart_ids.
  - intros H%with_wire_apart. by apply apart_ids.
  - intros [= <-] Hd. destruct (wires d !! w) as [c|]; [|done]. destruct (writer c); try done; apply retire_ids; by apply (ids_core d).
  - intros [= <-] Hd. by apply (ids_core d).
Qed.
Lemma run_ids vs d d' : run d vs = Some d' → ids d → ids d'.
Proof.
  revert d; induction vs as [|v vs IH]; intros d; cbn [run]; [by intros [= <-]|]. destruct (step d v) as [d1|] eqn:E; [|done]. cbn [mbind option_bind]. intros Hr Hd. apply (IH d1 Hr). by eapply step_ids.
Qed.

(** C21: an attachment is told at most once that its connection is gone.  Whichever threads retire a
    connection, at the same time or one after the other (a peer that closed or cannot be understood,
    a mailbox that is closed, a writer that is dropped), its session is sent one notice for it at
    most, and a connection still in the table was never given up; ids are given out once. *)
Theorem attachments_are_told_once f vs d : run (bind f) vs = Some d →
  NoDup (told d) ∧ (∀ cid l, live d !! cid = Some l → (l_id l ∉ told d)) ∧ ∀ c1 c2 l1 l2, live d !! c1 = Some l1 → live d !! c2 = Some l2 → l_id l1 = l_id l2 → c1 = c2.
Proof.
  intros Hr. assert (ids (bind f)) as H0 by (split; try done; [constructor|]; intros id Hid; by apply not_elem_of_nil in Hid). destruct (run_ids vs _ _ Hr H0) as [D1 D2 D3 D4]. split_and!; [done| |done]. intros cid l Hl Hin. by apply (proj2 (D4 _ Hin) cid l Hl).
Qed.

(** ** How long an offer lasts *)

Lemma soonest_of (ps : list (list Z * Pending)) x : ∃ y, foldl (λ dl x, sooner dl (minted x.2 + OFFER_LIFETIME)) (Some x) ps = Some y ∧ y ≤ x ∧ ∀ cid p, (cid, p) ∈ ps → y ≤ minted p + OFFER_LIFETIME.
Proof.
  revert x; induction ps as [|[cid p] ps IH]; intros x; cbn [foldl]; [exists x; split_and!; [done|lia|]; intros ? ? H; by apply not_elem_of_nil in H|].
  destruct (IH (Z.min x (minted p + OFFER_LIFETIME))) as (y & Hy & Hle & Hall). exists y. split_and!; [exact Hy|lia|]. intros cid' p' [[= -> ->]|Hin]%elem_of_cons; [lia|by eapply Hall].
Qed.

Lemma run_app vs ws d : run d (vs ++ ws) = d' ← run d vs; run d' ws.
Proof. revert d; induction vs as [|v vs IH]; intros d; [done|]. cbn [app run]. destruct (step d v) as [d1|]; [|done]. apply IH. Qed.

(** What the clock was told. *)
Definition advances (c : Clock.Clock) (ts : list Instant) : Clock.Clock := foldl Clock.advance c ts.
Lemma advance_named c i : Clock.named (Clock.advance c i) = Clock.named c ++ [i].
Proof. unfold Clock.advance. cbn zeta. by destruct (match Clock.next _ with None => true | Some _ => _ end). Qed.
Lemma advance_thread c i : (Clock.thread (Clock.advance c i) = Clock.Ticking ↔ Clock.thread c = Clock.Ticking).
Proof. unfold Clock.advance. cbn zeta. destruct (match Clock.next _ with None => true | Some _ => _ end); cbn; by destruct (Clock.thread c). Qed.
Lemma advances_spec c ts : Clock.clock_ok c →
  Clock.clock_ok (advances c ts) ∧ Clock.named (advances c ts) = Clock.named c ++ ts ∧ (Clock.thread (advances c ts) = Clock.Ticking ↔ Clock.thread c = Clock.Ticking).
Proof.
  unfold advances. revert c. induction ts as [|i ts IH]; intros c H; cbn [foldl]; [by rewrite app_nil_r|]. destruct (IH (Clock.advance c i)) as (A & B & D); [by apply Clock.clock_advances|]. split; [done|]. rewrite B, advance_named, <- app_assoc. split; [done|]. by rewrite D, advance_thread.
Qed.

(** A step of the other threads: the clock is only told more, and every new offer's end is among it. *)
Definition timed (d d' : Daemon) : Prop := tx d' = tx d ∧ ∃ ts os, clock d' = advances (clock d) ts ∧ offers d' = offers d ++ os ∧ Forall (λ o, o.2 + OFFER_LIFETIME ∈ ts) os.
Lemma timed_still d d' : tx d' = tx d → clock d' = clock d → offers d' = offers d → timed d d'.
Proof. intros Et Ec Eo. split; [done|]. exists [], []. split_and!; [done|by rewrite app_nil_r|constructor]. Qed.
Lemma timed_told d d' i : tx d' = tx d → clock d' = Clock.advance (clock d) i → offers d' = offers d → timed d d'.
Proof. intros Et Ec Eo. split; [done|]. exists [i], []. split_and!; [done|by rewrite app_nil_r|constructor]. Qed.
Lemma timed_deadline d d' e : tx d' = tx d → clock d' = clock d → offers d' = offers d → timed d (match Endpoint.poll_deadline e with Some next => advance d' next | None => d' end).
Proof. intros Et Ec Eo. destruct (Endpoint.poll_deadline e) as [i|]; [apply (timed_told _ _ i)|by apply timed_still]; cbn; congruence. Qed.
Lemma retire_timed d cid now tell : timed d (retire d cid now tell).
Proof.
  unfold retire. destruct (live d !! cid) as [l|]; [|by apply timed_still]. set (d2 := match wires (d <| live := _ |>) !! l_wire l with Some _ => _ | None => _ end).
  assert (tx d2 = tx d ∧ clock d2 = clock d ∧ offers d2 = offers d) as (E1 & E2 & E3) by (unfold d2; destruct (wires _ !! l_wire l) as [c|]; [by destruct (farewell c)|done]). clearbody d2. destruct tell; apply (timed_told _ _ now); cbn; congruence.
Qed.
Lemma routed_timed d a dg r fills d' : routed d a dg r fills = Some d' → timed d d'.
Proof.
  unfold routed. destruct r as [at_|w peer width| |].
  - unfold deliver. destruct (negb _ && _); [intros [= <-]; by apply timed_still|]. intros (c & _ & H)%bind_Some. destruct (Endpoint.recv _ _ _ _) as [r e]. apply bind_Some in H as (c' & _ & H). injection H as <-.
    pose proof (timed_deadline d (put d (l_wire (at_live at_)) (Wire_publish c')) (endpoint c') eq_refl eq_refl eq_refl) as H. by destruct (Endpoint.poll_deadline _).
  - unfold overhear. destruct (negb _ && _); [intros [= <-]; by apply timed_still|]. intros (c & _ & (c' & _ & H)%bind_Some)%bind_Some. injection H as <-. by apply timed_deadline.
  - destruct (Limiter.admits _ _ _) as [ok lim]. destruct (if ok then _ else None); intros [= <-]; by apply timed_still.
  - intros [= <-]. by apply timed_still.
Qed.
Lemma answer_timed d o e now spoken m d' : answer d o e now spoken m = Some d' → timed d d'.
Proof. unfold answer. destruct (ServerMessage.encode m spoken); [|intros [= <-]; by apply timed_still]. destruct (Endpoint.send _ _ _) as [[r e']|]; [|done]. cbn [mbind option_bind]. intros [= <-]. destruct r; by apply timed_still. Qed.
Lemma admit_timed d a dg p found sink now detached d' : admit_ d a dg p found sink now detached = Some d' → timed d d'.
Proof.
  unfold admit_. set (d0 := d <| rx := Listening |>). assert (∀ x, timed d0 x → timed d x) as H0 by done.
  destruct (Endpoint.accept _ _ _ _ _ _) as [[[e o] r]|]; [|intros [= <-]; by apply timed_still]. destruct r as [body| | |]; try (intros [= <-]; by apply timed_still). destruct (frame_message body PROTOCOL_VERSION) as [[]|]; try (intros [= <-]; by apply timed_still).
  destruct (negotiate local_range versions) as [version|[server cl]]; [|intros H%answer_timed; by apply H0]. destruct found as [handle|]; [|intros H%answer_timed; by apply H0].
  destruct (negb sink); intros [= <-]; [match goal with |- timed d (retire ?x _ _ _) => exact (retire_timed x (a_cid a) now detached) end|]. by apply (timed_told _ _ (a_at a)).
Qed.
Lemma heard_timed d a l moved x tell now detached : timed d (heard d a l moved x tell now detached).
Proof.
  unfold heard. destruct moved as [to|]; [by apply timed_still|]. destruct x as [m| |]; [destruct tell|..]; try (by apply timed_still); match goal with |- timed d (retire ?x _ _ _) => exact (retire_timed x (a_cid a) now detached) end.
Qed.
Definition transmits (v : Event) : bool := match v with XTick _ _ | XReap _ | XWalk _ _ | XWake _ => true | _ => false end.
Lemma step_timed d v d' : transmits v = false → step d v = Some d' → timed d d'.
Proof.
  assert (timed d d) as Hsame by by apply timed_still. assert (∀ w f, with_wire d w f = Some d' → timed d d') as Hwire by (intros w f; unfold with_wire; destruct (wires d !! w) as [c|]; [|by intros [= <-]]; destruct (f c); [|done]; cbn [mbind option_bind]; intros [= <-]; by apply timed_still).
  intros Hv. unfold step. destruct v as [entropy now|from at_ dg|fills|tell now det|found sink now det|tell|now after|fills|fills after|now|w payload coding now|w|w k|w now det|]; try done; try (by apply Hwire).
  - intros [= <-]. unfold offer. destruct (negb _); [done|]. destruct entropy as [[cid sec]|]; [|done]. split; [done|]. exists [now + OFFER_LIFETIME], [(cid, sec, now)]. split_and!; [done|done|]. repeat constructor.
  - intros [= <-]. destruct (rx d); try done. unfold receive. destruct (Packet.peek dg); [|done]. by apply timed_still.
  - destruct (rx d); try (by intros [= <-]). apply routed_timed.
  - intros [= <-]. destruct (rx d); try done. apply heard_timed.
  - destruct (rx d); try (by intros [= <-]). apply admit_timed.
  - intros [= <-]. destruct (rx d); try done. unfold opened. destruct tell; by apply timed_still.
  - intros [= <-]. destruct (wires d !! w) as [c|]; [|done]. destruct (writer c); try done; match goal with |- timed d (retire ?x _ _ _) => exact (retire_timed x (Endpoint.cid (endpoint c)) now det) end.
  - intros [= <-]. by apply timed_still.
Qed.

(** The clock keeps its word, and is not asleep while the thread walks. *)
Record paced (d : Daemon) : Prop := { pc_clock : Clock.clock_ok (clock d); pc_awake : tx d ≠ Resting → Clock.thread (clock d) = Clock.Ticking }.
Lemma reap_all_clock ps d now fills deadline d' dl : reap_all ps d now fills deadline = Some (d', dl) → clock d' = clock d.
Proof.
  revert d deadline; induction ps as [|[cid p] ps IH]; intros d deadline; cbn [reap_all]; [by intros [= <- <-]|]. destruct (wires d !! pt_wire p) as [c|]; [|done]. cbn [mbind option_bind].
  destruct (reap_one c p now (fills cid) deadline) as [[[c' kept] dl1]|]; [|done]. cbn [mbind option_bind]. intros H. by rewrite (IH _ _ H).
Qed.
Lemma reap_clock d now ws fills d' : reap d now ws fills = Some d' → clock d' = clock d.
Proof. unfold reap. intros ([d1 dl] & E & H)%bind_Some. injection H as <-. by apply reap_all_clock in E. Qed.
Lemma step_paced d v d' : step d v = Some d' → paced d → paced d'.
Proof.
  intros Hs [P1 P2]. destruct (transmits v) eqn:Ev.
  - destruct v as [| | | | | |now after|fills|fills after|now| | | | |]; try done; cbn [step] in Hs.
    + injection Hs as <-. destruct (tx d) eqn:Et; try (split; [done|by rewrite Et]). destruct (Clock.thread (clock d)) eqn:Ec; try (split; [done|by rewrite Et]).
      unfold tick. destruct (_ || _); [by split|]. destruct (_ <$> _); [|by split]. split; [by apply Clock.clock_step|]. cbn. by rewrite Et.
    + destruct (tx d) eqn:Et; try (injection Hs as <-; split; [done|by rewrite Et]). pose proof (reap_clock _ _ _ _ _ Hs) as Ec. split; rewrite Ec; [done|]. intros _. by apply P2.
    + destruct (tx d) as [| |now ws dl] eqn:Et; try (injection Hs as <-; split; [done|by rewrite Et]). unfold walk in Hs. destruct ws as [|w ws]; [injection Hs as <-; split; [exact (Clock.clock_step (clock d) (Clock.KSleep dl after) P1)|done]|]. apply bind_Some in Hs as (c & _ & (c' & _ & Hs)%bind_Some). injection Hs as <-. split; [done|]. intros _. by apply P2.
    + injection Hs as <-. split; [exact (Clock.clock_step (clock d) (Clock.KTurn now) P1)|]. intros Hn. pose proof (P2 Hn) as Hc. change (Clock.thread (Clock.step (clock d) (Clock.KTurn now)) = Clock.Ticking). unfold Clock.step. by rewrite !Hc.
  - destruct (step_timed d v d' Ev Hs) as (Et & ts & os & Ec & _). destruct (advances_spec _ ts P1) as (A & _ & B). split; rewrite Ec; [done|]. rewrite Et, B. exact P2.
Qed.
Lemma run_paced vs d d' : run d vs = Some d' → paced d → paced d'.
Proof.
  revert d; induction vs as [|v vs IH]; intros d; cbn [run]; [by intros [= <-]|]. destruct (step d v) as [d1|] eqn:E; [|done]. cbn [mbind option_bind]. intros Hr Hd. apply (IH d1 Hr). by eapply step_paced.
Qed.
Lemma bind_paced f : paced (bind f).
Proof. split; [|done]. exact (Clock.clock_run []). Qed.

(** From a pass that named [dl], when there were [n] offers, to the next: the instants the thread is
    to be awake at are among those it was given, unless it is awake already. *)
Definition awake_by (dl : Instant) (n : nat) (d : Daemon) : Prop :=
  let news := ∀ i o, (n ≤ i)%nat → offers d !! i = Some o → o.2 + OFFER_LIFETIME ∈ Clock.named (clock d) in
  match tx d with
  | Reaping _ _ => False
  | Walking _ _ x => (∃ y, x = Some y ∧ y ≤ dl) ∧ news
  | Resting => Clock.thread (clock d) = Clock.Ticking ∨ (∃ y, y ∈ Clock.named (clock d) ∧ y ≤ dl) ∧ news
  end.
Lemma turn_keeps c now : Clock.thread (Clock.turn c now) = Clock.Ticking ∨ Clock.named (Clock.turn c now) = Clock.named c.
Proof. unfold Clock.turn. destruct (Clock.next c); [|by right]. destruct (now <=? _); [by right|by left]. Qed.
Lemma step_awake dl n d v d' : paced d → match v with XTick _ _ => False | _ => True end → awake_by dl n d → step d v = Some d' → awake_by dl n d'.
Proof.
  intros [P1 P2] Hv Ha Hs. unfold awake_by in *. destruct (transmits v) eqn:Ev.
  - destruct v as [| | | | | | |fills|fills after|now| | | | |]; try done; cbn [step] in Hs.
    + destruct (tx d) eqn:Et; [|done|]; injection Hs as <-; by rewrite Et.
    + destruct (tx d) as [| |now ws x] eqn:Et; try (injection Hs as <-; by rewrite Et). destruct Ha as [(y & -> & Hy) Hn]. unfold walk in Hs. destruct ws as [|w ws].
      * assert (Clock.thread (clock d) = Clock.Ticking) as Ec by by apply P2. set (c1 := Clock.mkClock (Clock.merge (Clock.next (clock d)) (Some y) (after + Clock.POLL_FLOOR)) (Clock.thread (clock d)) (Clock.named (clock d) ++ [y]) after).
        assert (tx d' = Resting ∧ clock d' = Clock.turn c1 after ∧ offers d' = offers d) as (E1 & E2 & E3) by (injection Hs as <-; split_and!; try done; change (Clock.step (clock d) (Clock.KSleep (Some y) after) = Clock.turn c1 after); cbn [Clock.step]; by rewrite Ec).
        rewrite E1, E2, E3. destruct (turn_keeps c1 after) as [?|En]; [by left|right]. rewrite En. change (Clock.named c1) with (Clock.named (clock d) ++ [y]).
        split; [exists y; split; [apply elem_of_app; right; by left|done]|]. intros i o Hi Ho. apply elem_of_app. left. by apply (Hn i).
      * apply bind_Some in Hs as (c & _ & (c' & _ & Hs)%bind_Some). injection Hs as <-. cbn. split; [|done]. unfold fold_sooner, sooner. destruct (Endpoint.poll_deadline _); eexists; (split; [done|lia]).
    + injection Hs as <-. cbn. destruct (tx d) eqn:Et; [|done|by rewrite (P2 ltac:(done))]. unfold Clock.step. destruct Ha as [Ha|[(y & Hy & Hl) Hn]]; [left; by rewrite Ha|].
      destruct (Clock.thread (clock d)) eqn:Ec; [by left|..]; (destruct (turn_keeps (clock d) now) as [?|En]; [by left|right; rewrite En; split; [by exists y|done]]).
  - destruct (step_timed d v d' Ev Hs) as (Et & ts & os & Ec & Eo & Hos). destruct (advances_spec _ ts P1) as (_ & B & D). rewrite Et, Ec, B.
    assert ((∀ i o, (n ≤ i)%nat → offers d !! i = Some o → o.2 + OFFER_LIFETIME ∈ Clock.named (clock d)) → ∀ i o, (n ≤ i)%nat → offers d' !! i = Some o → o.2 + OFFER_LIFETIME ∈ Clock.named (clock d) ++ ts) as Hnews.
    { intros Hn i o Hi. rewrite Eo, elem_of_app. intros [Ho|[_ Ho]]%lookup_app_Some; [left; by apply (Hn i)|right]. rewrite Forall_lookup in Hos. by eapply Hos. }
    destruct (tx d); [|done|destruct Ha; by split; [|apply Hnews]]. rewrite D. destruct Ha as [?|[(y & Hy & Hl) Hn]]; [by left|right]. split; [exists y; split; [apply elem_of_app; by left|done]|by apply Hnews].
Qed.
Definition ticks (v : Event) : bool := match v with XTick _ _ => true | _ => false end.
Lemma run_awake dl n vs d d' : paced d → Forall (λ v, ticks v = false) vs → awake_by dl n d → run d vs = Some d' → paced d' ∧ awake_by dl n d'.
Proof.
  intros Hp Hv. revert d Hp. induction Hv as [|v vs Hv Hvs IH]; intros d Hp Ha; cbn [run]; [by intros [= <-]|]. destruct (step d v) as [d1|] eqn:E; [|done]. cbn [mbind option_bind]. intros Hr. apply (IH d1); [by eapply step_paced| |done]. eapply step_awake; [done| |done|exact E]. by destruct v.
Qed.
(** Waiting, it will be awake by what [awake_by] says. *)
Lemma awake_waits dl n d u : paced d → awake_by dl n d → tx d = Resting → Clock.thread (clock d) = Clock.Waiting u →
  ∃ t, u = Some t ∧ t ≤ Z.max dl (Clock.slept (clock d) + Clock.POLL_FLOOR) ∧ ∀ i o, (n ≤ i)%nat → offers d !! i = Some o → t ≤ Z.max (o.2 + OFFER_LIFETIME) (Clock.slept (clock d) + Clock.POLL_FLOOR).
Proof.
  intros [[C1 C2] _] Ha Et Hw. unfold awake_by in Ha. rewrite Et, Hw in Ha. destruct Ha as [?|[(y & Hy & Hl) Hn]]; [done|].
  assert (∀ x, x ∈ Clock.named (clock d) → ∃ t, u = Some t ∧ t ≤ Z.max x (Clock.slept (clock d) + Clock.POLL_FLOOR)) as Hx.
  { intros x Hx. destruct (C1 x Hx) as (t & E & Hb). exists t. split; [by rewrite <- (C2 u Hw)|]. unfold Clock.by_then in Hb. by rewrite Hw in Hb. }
  destruct (Hx y Hy) as (t & -> & Ht). exists t. split; [done|]. split; [lia|]. intros i o Hi Ho. destruct (Hx _ (Hn i o Hi Ho)) as (t' & [= <-] & Ht'). done.
Qed.

(** What a pass of the transmitting thread leaves of the offers, and what it names. *)
Lemma reap_offers d now ws fills : inv d → tx d = Reaping now ws → ∃ d' dl, reap d now ws fills = Some d' ∧ tx d' = Walking now ws (Some dl) ∧ offers d' = offers d ∧
  (∀ cid p, pending d' !! cid = Some p ↔ pending d !! cid = Some p ∧ now < minted p + OFFER_LIFETIME) ∧ (∀ cid p, pending d' !! cid = Some p → dl ≤ minted p + OFFER_LIFETIME) ∧ dl ≤ now + POLL_INTERVAL.
Proof.
  intros Hi Ht. destruct (reap_inv d now ws fills Hi) as (d' & Hd & _); [pose proof (i_tx _ Hi) as H; by rewrite Ht in H|]. exists d'. unfold reap in *. set (d1 := d <| pending := _ |>) in *.
  destruct (soonest_of (map_to_list (pending d1)) (now + POLL_INTERVAL)) as (y & Hy & Hle & Hall). rewrite Hy in *. apply bind_Some in Hd as ([d2 dl] & Hra & Hd). injection Hd as <-. rewrite Hra. cbn [mbind option_bind].
  destruct (reap_all_apart _ _ _ _ _ _ _ Hra) as ((_ & _ & _ & Eo) & Hp & Hdl). destruct (Hdl y eq_refl) as (z & -> & Hz). exists z. split; [done|]. split; [done|]. split; [exact Eo|].
  change (pending (d2 <| tx := _ |>)) with (pending d2). rewrite Hp. split_and!; [| |lia].
  - intros cid p. unfold d1. cbn. rewrite map_lookup_filter_Some. cbn. unfold outlives. rewrite negb_true_iff, Z.leb_gt. done.
  - intros cid p H. assert (y ≤ minted p + OFFER_LIFETIME); [|lia]. apply (Hall cid p). by apply elem_of_map_to_list.
Qed.

(** C25: offers expire, and putting one back does not renew it.  In any state the daemon can reach an
    offer that waits has the age it was minted with, however often it was taken out and put back.  A
    pass of the transmitting thread keeps exactly the offers that are younger than [OFFER_LIFETIME];
    and whatever the other threads do then, until the thread's next pass it does not sleep past the
    end of any of those offers, nor of one made since, but for the millisecond it sleeps at least.
    (An offer that was out of the table during the pass and is put back after it is the exception:
    [restored_offer_is_not_reaped].) *)
Theorem offers_expire f vs d : Forall event_fine vs → run (bind f) vs = Some d →
  (∀ cid p, pending d !! cid = Some p → offers d !! p_offer p = Some (cid, secret p, minted p)) ∧
  ∀ now ws fills, tx d = Reaping now ws → ∃ d', step d (XReap fills) = Some d' ∧
    (∀ cid p, pending d' !! cid = Some p ↔ pending d !! cid = Some p ∧ now < minted p + OFFER_LIFETIME) ∧
    ∀ more d2 u, Forall event_fine more → Forall (λ v, ticks v = false) more → run d' more = Some d2 → tx d2 = Resting → Clock.thread (clock d2) = Clock.Waiting u →
      ∃ t, u = Some t ∧ ∀ cid p, pending d' !! cid = Some p ∨ pending d2 !! cid = Some p ∧ (length (offers d) ≤ p_offer p)%nat →
        t ≤ Z.max (minted p + OFFER_LIFETIME) (Clock.slept (clock d2) + 1_000_000).
Proof.
  intros Hv Hr. destruct (run_inv vs (bind f) (bind_inv f) Hv) as (d0 & Hr0 & Hi). rewrite Hr in Hr0. injection Hr0 as <-. split; [intros cid p Hp; by apply (i_pending _ Hi)|]. intros now ws fills Ht.
  destruct (reap_offers d now ws fills Hi Ht) as (d' & dl & Hd & Et & Eo & Hkeep & Hdl & _). exists d'. assert (step d (XReap fills) = Some d') as Hs by (cbn [step]; by rewrite Ht). split; [exact Hs|]. split; [exact Hkeep|].
  intros more d2 u Hm Hn Hr2 Hrest Hw. pose proof (step_paced _ _ _ Hs (run_paced _ _ _ Hr (bind_paced f))) as Hp.
  assert (awake_by dl (length (offers d)) d') as Ha. { unfold awake_by. rewrite Et, Eo. split; [by exists dl|]. intros i o Hle Ho%lookup_lt_Some. lia. }
  destruct (run_awake dl _ more d' d2 Hp Hn Ha Hr2) as [Hp2 Ha2]. destruct (awake_waits dl _ d2 u Hp2 Ha2 Hrest Hw) as (t & -> & T1 & T2). exists t. split; [done|].
  change (Clock.slept (clock d2) + Clock.POLL_FLOOR) with (Clock.slept (clock d2) + 1_000_000) in *. intros cid p [Hin|[Hin Hle]]; [specialize (Hdl cid p Hin); lia|].
  destruct (run_inv (vs ++ XReap fills :: more) (bind f) (bind_inv f)) as (d3 & Hr3 & Hi3); [apply Forall_app; by split; [|constructor]|].
  rewrite (run_app vs) in Hr3. rewrite Hr in Hr3. cbn [mbind option_bind run] in Hr3. rewrite Hs in Hr3. cbn [mbind option_bind] in Hr3. rewrite Hr2 in Hr3. injection Hr3 as <-.
  specialize (T2 _ _ Hle (proj1 (i_pending _ Hi3 cid p Hin))). exact T2.
Qed.

End Listener.

(** ** A client comes over *)

Module Demo.
#[local] Existing Instance Keys.Toy.toy.
#[local] Existing Instance Keys.Toy.toy_laws.
#[local] Existing Instance Wire.toy_deflate.

Definition cid0 : list Z := [1; 2; 3; 4; 5; 6; 7; 8].
Definition secret0 : list Z := [9; 9].
Definition request : ResumeRequest := mkResume (replicate 16 1) (replicate (Z.to_nat CAPABILITY_BYTES) 2) {| generation := 1; next_off := 0 |} (replicate 16 3).
Definition body (m : Message.ClientMessage) : list Z := match Message.encode m PROTOCOL_VERSION with Ok frame => Wire.store (drop 4 frame) [] | Err _ => [] end.
(** What the client seals: it asks to resume, then types. *)
Definition client : Endpoint.world := default (Endpoint.begin (Endpoint.connect cid0 secret0 (V4 1 1) Mtu.Refused))
  (Endpoint.run (Endpoint.begin (Endpoint.connect cid0 secret0 (V4 1 1) Mtu.Refused)) [Endpoint.Send (body (Message.Resume local_range 1 request)) 0; Endpoint.Send (body (Message.Input 2 [104; 105])) 10]).
Definition datagrams : list (list Z) := snd <$> Endpoint.outs client.
Definition no_fills : nat → option (list Z) * option (list Z) := λ _, (Some [1; 1; 1; 1; 1; 1; 1; 1], None).
Definition stray : list Z := take 40 (datagrams !!! 0%nat) ++ [0].
Definition script : list Event :=
  [XOffer (Some (cid0, secret0)) 0; XReceive (V4 5 5) 1 stray; XRouted no_fills; XAdmit None true 1 TrySent;
   XReceive (V4 2 2) 2 (datagrams !!! 0%nat); XRouted no_fills; XAdmit (Some 7) true 2 TrySent; XOpened TrySent;
   XReceive (V4 2 2) 11 (datagrams !!! 1%nat); XRouted no_fills; XAsk 0 [0x83; 1; 2; 3] Raw 9; XHeard TrySent 11 TrySent; XSeal 0; XHanded 0 KTook;
   XTick 12 12; XWalk no_fills 12; XWalk no_fills 12;
   XAsk 0 [0x87; 1] Raw 13; XSeal 0; XHanded 0 KTook; XDrop 0 14 TrySent; XDrop 0 15 TrySent; XWake (from_secs 1); XTick (from_secs 1) (from_secs 1); XReap (λ _, no_fills)].
Definition final : option Daemon := run (bind Mtu.Refused) script.
Definition outcome (d : Daemon) : list (option Z) * list Post * nat := ((λ o, Endpoint.wire_number o.2) <$> under d 0, posts d, length (map_to_list (parting d))).
Example final_is : outcome <$> final = Some ([Some 0; Some 1; Some 2; Some 3; Some 4; Some 5], [PAttach 0 7; PCommand 0 (Message.Input 2 [104; 105]); PDetached 0], 1%nat).
Proof. vm_compute. reflexivity. Qed.

(** The transmitting thread looks at the table while the one offer is out of it. *)
Definition early : list Event :=
  [XOffer (Some (cid0, secret0)) 0; XTick 1 1; XReap (λ _, no_fills); XWalk no_fills 1; XReceive (V4 5 5) (from_millis 200) stray; XRouted no_fills;
   XWake (from_millis 251); XTick (from_millis 251) (from_millis 251); XAdmit None true (from_millis 252) TrySent].

Lemma bytes_are l : bool_decide (Forall (λ b, 0 ≤ b < 256) l) = true → Forall is_byte l.
Proof. intros H%bool_decide_eq_true. eapply list.Forall_impl; [exact H|]. done. Qed.
Lemma script_fine : Forall event_fine script.
Proof. unfold script. repeat (constructor; [first [exact I|split; [reflexivity|apply bytes_are; vm_compute; reflexivity]|apply bytes_are; vm_compute; reflexivity]|]). constructor. Qed.
Lemma early_fine : Forall event_fine early.
Proof. unfold early. repeat (constructor; [first [exact I|split; [reflexivity|apply bytes_are; vm_compute; reflexivity]|apply bytes_are; vm_compute; reflexivity]|]). constructor. Qed.

(** An offer put back while nothing else is in the table is not reaped: [restore] names no instant, so
    the thread that saw the table empty meanwhile sleeps on, whenever it is woken without being told. *)
Example restored_offer_is_not_reaped : ∃ d, run (bind Mtu.Refused) early = Some d ∧ minted <$> pending d !! cid0 = Some 0 ∧ tx d = Resting ∧ ∀ ns, run d (XWake <$> ns) = Some d.
Proof.
  assert ((λ d, (minted <$> pending d !! cid0, tx d, Clock.next (clock d), Clock.thread (clock d))) <$> run (bind Mtu.Refused) early = Some (Some 0, Resting, None, Clock.Waiting None)) as H by (vm_compute; reflexivity).
  destruct (run (bind Mtu.Refused) early) as [d|]; [|discriminate H]. exists d. split; [reflexivity|]. cbn in H. injection H as Hp Ht Hn Hc. split; [exact Hp|]. split; [exact Ht|].
  induction ns as [|n ns IH]; [reflexivity|]. cbn [fmap list_fmap run step]. assert (d <| clock := Clock.step (clock d) (Clock.KTurn n) |> = d) as E; [|cbn [mbind option_bind]; by rewrite E].
  destruct d as [p0 l0 q0 w0 [nx th na fl] r0 f0 n0 m0 rx0 tx0 ps0 os0 an0]. cbn in Hn, Hc. subst nx th. reflexivity.
Qed.
End Demo.

Lemma offers_seal_once_witness : Forall event_fine Demo.script ∧ ∃ d, Demo.final = Some d ∧ (λ o, Endpoint.wire_number o.2) <$> under d 0 = [Some 0; Some 1; Some 2; Some 3; Some 4; Some 5] ∧
  len (under d 0) = 6.
Proof.
  split; [exact Demo.script_fine|]. destruct (offers_seal_once (C := Keys.Toy.toy) (DF := Wire.toy_deflate) (CryptoLaws0 := Keys.Toy.toy_laws) Mtu.Refused Demo.script Demo.script_fine) as (d & Hr & Hd). exists d. pose proof Demo.final_is as Hf. unfold Demo.final in *. rewrite Hr in *. split; [reflexivity|].
  cbn [fmap option_fmap option_map] in Hf. injection Hf as Hn _ _. split; [exact Hn|]. apply (f_equal length) in Hn. rewrite length_fmap in Hn. rewrite Hn. reflexivity.
Defined.
Lemma attachments_are_told_once_witness : match Demo.final with Some d => told d = [0] ∧ NoDup (told d) | None => False end.
Proof.
  pose proof Demo.final_is as Hf. destruct Demo.final as [d|] eqn:E; [|discriminate Hf]. destruct (attachments_are_told_once (C := Keys.Toy.toy) (DF := Wire.toy_deflate) Mtu.Refused Demo.script d E) as (H & _). split; [|exact H].
  cbn [fmap option_fmap option_map] in Hf. injection Hf as _ Hp _. unfold told. rewrite Hp. reflexivity.
Defined.
(** The offer is in the table at the first pass, and the thread sleeps no longer than it lasts. *)
Lemma offers_expire_witness : Forall event_fine (take 2 Demo.early) ∧
  match run (C := Keys.Toy.toy) (DF := Wire.toy_deflate) (bind Mtu.Refused) (take 2 Demo.early) with
  | Some d => tx d = Reaping 1 [] ∧ ∃ d', step (C := Keys.Toy.toy) (DF := Wire.toy_deflate) d (XReap (λ _, Demo.no_fills)) = Some d' ∧ ∀ d2 u, run (C := Keys.Toy.toy) (DF := Wire.toy_deflate) d' [XWalk Demo.no_fills 1] = Some d2 → tx d2 = Resting → Clock.thread (clock d2) = Clock.Waiting u →
      ∃ t, u = Some t ∧ ∀ cid p, pending d' !! cid = Some p → t ≤ Z.max (minted p + OFFER_LIFETIME) (Clock.slept (clock d2) + 1_000_000)
  | None => False
  end.
Proof.
  split; [apply Forall_take, Demo.early_fine|]. assert (tx <$> run (C := Keys.Toy.toy) (DF := Wire.toy_deflate) (bind Mtu.Refused) (take 2 Demo.early) = Some (Reaping 1 [])) as H by (vm_compute; reflexivity).
  destruct (run (C := Keys.Toy.toy) (DF := Wire.toy_deflate) (bind Mtu.Refused) (take 2 Demo.early)) as [d|] eqn:E; [|discriminate H]. assert (tx d = Reaping 1 []) as Ht by (injection H as H; exact H). split; [exact Ht|].
  destruct (offers_expire (C := Keys.Toy.toy) (DF := Wire.toy_deflate) (CryptoLaws0 := Keys.Toy.toy_laws) Mtu.Refused (take 2 Demo.early) d (Forall_take _ 2 _ Demo.early_fine) E) as [_ Hx].
  destruct (Hx 1 [] (λ _, Demo.no_fills) Ht) as (d' & Hd & _ & Hs). exists d'. split; [exact Hd|]. intros d2 u Hr Hrest Hw. destruct (Hs [XWalk Demo.no_fills 1] d2 u) as (t & Hu & Hb); [repeat constructor|repeat constructor|exact Hr|exact Hrest|exact Hw|]. exists t. split; [exact Hu|]. intros cid p Hp. apply (Hb cid p). left. exact Hp.
Defined.

End Listener.
