(* ===== verification/Batches.v ===== *)
(** * Whole frames to a path of datagrams ([crates/server/src/dgram.rs], [DatagramWriter::emit] and [write_frames])

    The sink hands its transport bytes: slices, each of one or more frames with their length before
    them, and a set of which slices were packed already.  The datagram transport takes them apart
    again, one frame to a datagram, and says how many bytes it took.  What becomes of one frame
    ([Listener.ask] and [Listener.seal], with other threads between) is an argument here.

    The theorem shows that this is the walk over the frames themselves: they are offered in order,
    each once, until one is refused for now; what is said to be taken ends with a frame; and a batch
    that ends inside a frame is an error, never a frame cut short. *)

From S2P Require Import Prelude Codec Fields Message ServerMessage Sink Listener.
Import Sink (Coding(..)).
Import Listener (Sealing(..), FRAME_LENGTH_PREFIX).

Module Batches.
Section Batches.
(** What one frame comes to; [Err] when the connection is gone. *)
Context {S : Type} (seal : S → list Z → Coding → result Sealing unit * S).

(** [at_]: how far the batch was taken. *)
Fixpoint emit_loop (fuel : nat) (s : S) (batch : list Z) (coding : Coding) (at_ : Z) : result Z unit * S :=
  match fuel with
  | O => (Ok at_, s)
  | Datatypes.S fuel =>
      if len batch <=? at_ then (Ok at_, s)
      else if len batch <? at_ + FRAME_LENGTH_PREFIX then (Err tt, s)
      else
        let length := from_be (slice (Z.to_nat at_) (Z.to_nat (at_ + FRAME_LENGTH_PREFIX)) batch) in
        let end_ := at_ + FRAME_LENGTH_PREFIX + length in
        if len batch <? end_ then (Err tt, s)
        else
          let '(r, s) := seal s (slice (Z.to_nat (at_ + FRAME_LENGTH_PREFIX)) (Z.to_nat end_) batch) coding in
          match r with
          | Err _ => (Err tt, s)
          | Ok SBlocked => (Ok at_, s)
          | Ok Sent | Ok Outgrown => emit_loop fuel s batch coding end_
          end
  end.
Definition emit (s : S) (batch : list Z) (coding : Coding) : result Z unit * S := emit_loop (length batch) s batch coding 0.

(** The loop of [write_frames]: [index] is that of the first slice. *)
Fixpoint frames_loop (s : S) (frames : list (list Z)) (packed : Z) (index : Z) (consumed : Z) : result Z unit * S :=
  match frames with
  | [] => (Ok consumed, s)
  | frame :: frames =>
      let '(r, s) := emit s frame (if Sink.contains packed index then Packed else Raw) in
      match r with
      | Err _ => (Err tt, s)
      | Ok taken => if taken <? len frame then (Ok (consumed + taken), s) else frames_loop s frames packed (index + 1) (consumed + taken)
      end
  end.
(** The writer's own state: whether it failed.  [Ok None] is [WouldBlock]. *)
Definition write_frames (failed : bool) (s : S) (frames : list (list Z)) (packed : Z) : result (option Z) unit * bool * S :=
  if failed then (Err tt, failed, s)
  else
    let '(r, s) := frames_loop s frames packed 0 0 in
    match r with
    | Err _ => (Err tt, true, s)
    | Ok consumed => (Ok (if 0 <? consumed then Some consumed else None), false, s)
    end.

(** ** The walk over the frames themselves *)

Definition framed (p : list Z) : list Z := to_be 4 (len p) ++ p.
Definition small (p : list Z) : Prop := len p ≤ U32_MAX.
(** [None]: a frame was refused for now, and the walk stops there. *)
Fixpoint offer_all (s : S) (ps : list (list Z)) (coding : Coding) (at_ : Z) : result (Z * bool) unit * S :=
  match ps with
  | [] => (Ok (at_, true), s)
  | p :: ps =>
      let '(r, s) := seal s p coding in
      match r with
      | Err _ => (Err tt, s)
      | Ok SBlocked => (Ok (at_, false), s)
      | Ok Sent | Ok Outgrown => offer_all s ps coding (at_ + len (framed p))
      end
  end.
Fixpoint offer_slices (s : S) (slices : list (list (list Z))) (packed : Z) (index : Z) (at_ : Z) : result Z unit * S :=
  match slices with
  | [] => (Ok at_, s)
  | ps :: slices =>
      let '(r, s) := offer_all s ps (if Sink.contains packed index then Packed else Raw) at_ in
      match r with
      | Err _ => (Err tt, s)
      | Ok (at_, true) => offer_slices s slices packed (index + 1) at_
      | Ok (at_, false) => (Ok at_, s)
      end
  end.

Lemma length_framed p : len (framed p) = 4 + len p.
Proof. unfold framed. rewrite length_app, length_to_be. lia. Qed.

(** A frame cut short. *)
Definition cut_short (tail : list Z) : Prop := ∃ p more, small p ∧ framed p = tail ++ more ∧ more ≠ [].

Lemma prefix_read pre p rest : slice (Z.to_nat (len pre)) (Z.to_nat (len pre + 4)) (pre ++ framed p ++ rest) = to_be 4 (len p).
Proof.
  unfold slice. replace (Z.to_nat (len pre + 4) - Z.to_nat (len pre))%nat with 4%nat by lia. rewrite Nat2Z.id, drop_app_length. unfold framed. rewrite <- app_assoc. apply take_app_length'. by rewrite length_to_be.
Qed.
Lemma payload_read pre p rest : slice (Z.to_nat (len pre + 4)) (Z.to_nat (len pre + 4 + len p)) (pre ++ framed p ++ rest) = p.
Proof.
  unfold slice, framed. replace (Z.to_nat (len pre + 4 + len p) - Z.to_nat (len pre + 4))%nat with (length p) by lia. replace (Z.to_nat (len pre + 4)) with (length (pre ++ to_be 4 (len p))) by (rewrite length_app, length_to_be; lia).
  rewrite <- app_assoc, (app_assoc pre), drop_app_length. apply take_app_length.
Qed.
Lemma read_length p : small p → from_be (to_be 4 (len p)) = len p.
Proof. intros Hp. unfold small in Hp. apply from_to_be. change (256 ^ Z.of_nat 4) with 4294967296. lia. Qed.

Lemma emit_cut fuel s pre tail coding : cut_short tail → tail ≠ [] → (0 < fuel)%nat → (emit_loop fuel s (pre ++ tail) coding (len pre)) = (Err tt, s).
Proof.
  intros (p & more & Hp & E & Hm) Ht Hf. destruct fuel as [|fuel]; [lia|]. cbn [emit_loop]. assert (0 < len tail ∧ 0 < len more) as [H1 H2] by (destruct tail, more; cbn; done || lia).
  pose proof (length_framed p) as Hl. rewrite E, length_app in Hl. rewrite length_app. unfold FRAME_LENGTH_PREFIX. rewrite (proj2 (Z.leb_gt _ _)) by lia. destruct (Z.ltb_spec (Z.of_nat (length pre + length tail)) (len pre + 4)) as [|H4]; [done|].
  assert (slice (Z.to_nat (len pre)) (Z.to_nat (len pre + 4)) (pre ++ tail) = to_be 4 (len p)) as ->.
  { pose proof (prefix_read pre p []) as H. rewrite app_nil_r, E in H. rewrite <- H. unfold slice. rewrite !Nat2Z.id, !drop_app_length. rewrite take_app_le; [done|]. lia. }
  rewrite read_length by done. rewrite (proj2 (Z.ltb_lt _ _)) by lia. done.
Qed.

Lemma emit_loop_walks fuel s pre ps tail coding : Forall small ps → cut_short tail ∨ tail = [] → (length ps < fuel)%nat →
  emit_loop fuel s (pre ++ concat (framed <$> ps) ++ tail) coding (len pre) =
  let '(r, s) := offer_all s ps coding (len pre) in (match r with Ok (at_, true) => if decide (tail = []) then Ok at_ else Err tt | Ok (at_, false) => Ok at_ | Err _ => Err tt end, s).
Proof.
  intros Hs Hc. revert fuel s pre Hs; induction ps as [|p ps IH]; intros fuel s pre Hs Hf; cbn [length] in Hf.
  - cbn [offer_all fmap list_fmap concat app]. destruct (decide (tail = [])) as [->|Ht]; [|apply emit_cut; [by destruct Hc|done|lia]]. destruct fuel; [lia|]. cbn [emit_loop]. rewrite app_nil_r, Z.leb_refl. done.
  - destruct fuel as [|fuel]; [lia|]. apply list.Forall_cons in Hs as [Hp Hs]. cbn [emit_loop offer_all fmap list_fmap concat]. rewrite <- app_assoc. set (rest := concat (framed <$> ps) ++ tail).
    assert (len (pre ++ framed p ++ rest) = len pre + (4 + len p) + len rest) as Hl by (rewrite !length_app, !Nat2Z.inj_add, length_framed; lia).
    unfold FRAME_LENGTH_PREFIX. rewrite (proj2 (Z.leb_gt _ _)) by lia. rewrite (proj2 (Z.ltb_ge _ _)) by lia. rewrite prefix_read, read_length by done. rewrite (proj2 (Z.ltb_ge _ _)) by lia. rewrite payload_read.
    destruct (seal s p coding) as [[[]|] s1]; try done.
    all: rewrite app_assoc; replace (len pre + 4 + len p) with (len (pre ++ framed p)) by (rewrite length_app, Nat2Z.inj_add, length_framed; lia); unfold rest; rewrite IH by (done || lia); rewrite length_app, Nat2Z.inj_add; done.
Qed.

Lemma many_frames ps : (length ps ≤ length (concat (framed <$> ps)))%nat ∧ (ps ≠ [] → (length ps < length (concat (framed <$> ps)))%nat).
Proof.
  induction ps as [|p ps [IH1 IH2]]; [done|]. cbn [fmap list_fmap concat]. rewrite length_app. pose proof (length_framed p). cbn [length]. split; [lia|]. intros _. lia.
Qed.
Lemma emit_walks s ps tail coding : Forall small ps → cut_short tail ∨ tail = [] →
  emit s (concat (framed <$> ps) ++ tail) coding = let '(r, s) := offer_all s ps coding 0 in (match r with Ok (at_, true) => if decide (tail = []) then Ok at_ else Err tt | Ok (at_, false) => Ok at_ | Err _ => Err tt end, s).
Proof.
  intros Hs Hc. unfold emit. destruct (many_frames ps) as [H1 H2]. destruct (decide (ps = [] ∧ tail = [])) as [[-> ->]|Hn]; [done|]. apply (emit_loop_walks _ s [] ps tail coding Hs Hc). rewrite length_app.
  destruct (decide (ps = [])) as [->|Hp]; [|specialize (H2 Hp); lia]. destruct tail; [naive_solver|]. cbn. lia.
Qed.

(** How far the walk got does not change what it does. *)
Lemma offer_all_shift s ps coding at_ : offer_all s ps coding at_ = let '(r, s) := offer_all s ps coding 0 in (match r with Ok (n, b) => Ok (at_ + n, b) | Err e => Err e end, s).
Proof.
  revert s at_; induction ps as [|p ps IH]; intros s at_; cbn [offer_all]; [by rewrite Z.add_0_r|]. destruct (seal s p coding) as [[[]|] s1]; try done; [rewrite (IH s1 (at_ + _)), (IH s1 (0 + _))|by rewrite Z.add_0_r|rewrite (IH s1 (at_ + _)), (IH s1 (0 + _))];
    destruct (offer_all s1 ps coding 0) as [[[n b]|] s2]; try done; f_equal; f_equal; f_equal; lia.
Qed.
Lemma offer_all_takes s ps coding n b s' : offer_all s ps coding 0 = (Ok (n, b), s') → ∃ k, n = len (concat (framed <$> take k ps)) ∧ (b = true → take k ps = ps) ∧ (b = false → n < len (concat (framed <$> ps))).
Proof.
  revert s n; induction ps as [|p ps IH]; intros s n; cbn [offer_all]; [intros [= <- <- <-]; by exists O|]. pose proof (length_framed p) as Hl.
  assert (∀ s1, offer_all s1 ps coding (0 + len (framed p)) = (Ok (n, b), s') → ∃ k, n = len (concat (framed <$> take k (p :: ps))) ∧ (b = true → take k (p :: ps) = p :: ps) ∧ (b = false → n < len (concat (framed <$> p :: ps)))) as Hgo.
  { intros s1. rewrite offer_all_shift. destruct (offer_all s1 ps coding 0) as [[[m c]|] s2] eqn:E; [|done]. intros [= <- <- <-]. destruct (IH s1 m E) as (k & -> & Ht & Hf). exists (Datatypes.S k). cbn [take fmap list_fmap concat]. rewrite !length_app.
    split_and!; [lia|intros Hb; by rewrite (Ht Hb)|]. intros Hb. specialize (Hf Hb). lia. }
  destruct (seal s p coding) as [[[]|] s1]; try done; try apply Hgo. intros [= <- <- <-]. exists O. cbn [take fmap list_fmap concat]. rewrite length_app. split_and!; [done|done|]. intros _. lia.
Qed.

Abbreviation slice_of := (λ ps : list (list Z), concat (framed <$> ps)).

Lemma frames_loop_walks s pss packed index consumed : Forall (Forall small) pss →
  frames_loop s (slice_of <$> pss) packed index consumed = offer_slices s pss packed index consumed.
Proof.
  intros Hs. revert s index consumed; induction Hs as [|ps pss Hp Hs IH]; intros s index consumed; [done|]. cbn [fmap list_fmap frames_loop offer_slices].
  pose proof (emit_walks s ps [] (if Sink.contains packed index then Packed else Raw) Hp (or_intror eq_refl)) as He. rewrite app_nil_r in He. rewrite He, (offer_all_shift s ps _ consumed).
  destruct (offer_all s ps _ 0) as [[[n b]|] s1] eqn:Eo; [|done]. destruct (offer_all_takes _ _ _ _ _ _ Eo) as (k & Hn & Ht & Hf). destruct b.
  - rewrite decide_True by done. rewrite (Ht eq_refl) in Hn. rewrite <- Hn, Z.ltb_irrefl. apply IH.
  - specialize (Hf eq_refl). by rewrite (proj2 (Z.ltb_lt _ _) Hf).
Qed.

Lemma offer_slices_takes s pss packed index at_ n s' : offer_slices s pss packed index at_ = (Ok n, s') → ∃ k, n = at_ + len (slice_of (take k (concat pss))).
Proof.
  revert s index at_; induction pss as [|ps pss IH]; intros s index at_; cbn [offer_slices concat]; [intros [= <- <-]; exists O; cbn; lia|]. rewrite offer_all_shift.
  destruct (offer_all s ps _ 0) as [[[m b]|] s1] eqn:Eo; [|done]. destruct (offer_all_takes _ _ _ _ _ _ Eo) as (k & Hm & Ht & _). destruct b.
  - intros H. destruct (IH _ _ _ H) as (j & ->). rewrite (Ht eq_refl) in Hm. exists (length ps + j)%nat. rewrite take_app_add, fmap_app, concat_app, length_app. lia.
  - intros [= <- <-]. destruct (Nat.le_gt_cases k (length ps)) as [Hk|Hk]; [exists k|exists (length ps)]; rewrite take_app_le by lia; rewrite Hm; [done|]. by rewrite !take_ge by lia.
Qed.

(** C31: taking a batch apart is offering its frames.  However the frames were put together into slices,
    [write_frames] does to the connection what offering each frame in order would, coded as its slice
    says, up to the first that is refused for now or fails; what it says it took is whole frames, so
    the sink goes on at a frame; it fails for good when one fails, and takes nothing afterwards.  A
    slice that ends inside a frame is an error, when the walk gets there, and is never sent. *)
Theorem batches_go_by_frames failed s pss packed : Forall (Forall small) pss →
  (write_frames failed s (slice_of <$> pss) packed =
    if failed then (Err tt, true, s)
    else match offer_slices s pss packed 0 0 with
         | (Ok n, s) => (Ok (if 0 <? n then Some n else None), false, s)
         | (Err _, s) => (Err tt, true, s)
         end) ∧
  (∀ n s', write_frames failed s (slice_of <$> pss) packed = (Ok (Some n), false, s') → ∃ k, n = len (slice_of (take k (concat pss)))) ∧
  ∀ ps tail coding, Forall small ps → cut_short tail → tail ≠ [] → emit s (slice_of ps ++ tail) coding =
    let '(r, s) := offer_all s ps coding 0 in (match r with Ok (n, false) => Ok n | _ => Err tt end, s).
Proof.
  intros Hs. assert (write_frames failed s (slice_of <$> pss) packed = if failed then (Err tt, true, s) else match offer_slices s pss packed 0 0 with (Ok n, s) => (Ok (if 0 <? n then Some n else None), false, s) | (Err _, s) => (Err tt, true, s) end) as Hw.
  { unfold write_frames. destruct failed; [done|]. rewrite (frames_loop_walks s pss packed 0 0 Hs). by destruct (offer_slices s pss packed 0 0) as [[n|] s1]. }
  split; [exact Hw|]. split.
  - intros n s'. rewrite Hw. destruct failed; [done|]. destruct (offer_slices s pss packed 0 0) as [[m|] s1] eqn:E; [|done]. destruct (0 <? m); [|done]. intros [= <- <-]. destruct (offer_slices_takes _ _ _ _ _ _ _ E) as (k & ->). by exists k.
  - intros ps tail coding Hp Hc Ht. rewrite (emit_walks s ps tail coding Hp (or_introl Hc)). destruct (offer_all s ps coding 0) as [[[n []]|] s1]; try done. by rewrite decide_False.
Qed.

End Batches.

(** A path that takes two frames and then has no room. *)
Definition two_frames (n : nat) (p : list Z) (c : Coding) : result Sealing unit * nat := match n with O => (Ok SBlocked, O) | Datatypes.S n => (Ok Sent, n) end.
Lemma batches_go_by_frames_witness : Forall (Forall small) [[[1; 2]; [3]]; [[4; 5; 6]]] ∧
  write_frames two_frames false 2%nat ((λ ps, concat (framed <$> ps)) <$> [[[1; 2]; [3]]; [[4; 5; 6]]]) 0 = (Ok (Some 11), false, 0%nat) ∧ ∃ k, 11 = len (concat (framed <$> take k [[1; 2]; [3]; [4; 5; 6]])).
Proof.
  assert (Forall (Forall small) [[[1; 2]; [3]]; [[4; 5; 6]]]) as Hs by (repeat constructor; discriminate). split; [exact Hs|].
  destruct (batches_go_by_frames two_frames false 2%nat [[[1; 2]; [3]]; [[4; 5; 6]]] 0 Hs) as (H1 & H2 & _). assert (write_frames two_frames false 2%nat ((λ ps, concat (framed <$> ps)) <$> [[[1; 2]; [3]]; [[4; 5; 6]]]) 0 = (Ok (Some 11), false, 0%nat)) as E by (rewrite H1; vm_compute; reflexivity).
  split; [exact E|]. exact (H2 11 0%nat E).
Defined.

End Batches.
