(* ===== verification/Samples.v ===== *)
(** * A session small enough to evaluate

    A two-row grid with one styled and one plain row, the header its screens are sent under, and
    an attachment that paints it: the inputs at which the properties of the screen protocol are
    shown to apply. *)

From S2P Require Import Prelude Codec Fields Message Text Screen Modes Rows Pieces ServerMessage Mask Splice Ledger Assembly Converge Cuts Wire Backlog Defer Link Attachment Sync.

Module Samples.
Import Codec Text Screen Rows Pieces Splice.

(** ** Rows, a header and their shape *)

Definition grid : Fields.GridSize := {| Fields.cols := 4; Fields.rows := 2 |}.
Definition red : CellStyle := {| fg := Palette 1; bg := Default; underline_color := Default; attrs := 0; underline := UNone |}.
(** ["abcd"], two cells of it red. *)
Definition styled : RowFrame := {| text := [97; 98; 99; 100]; runs := [{| r_cells := 2; r_bytes := 2; r_style := red |}]; cells := 4 |}.
(** ["ok"], and nothing after it. *)
Definition plain_row : RowFrame := {| text := [111; 107]; runs := []; cells := 4 |}.
Definition screen : list RowFrame := [styled; plain_row].

Definition sticky : StickyState := {| title := None; kitty_keyboard := 0; bell := false; saved_cursor := None; pending_wrap := false; deferred := [] |}.
Definition header : ScreenHeader :=
  {| h_generation := 2; h_version := 1; h_next_off := 10; h_size := grid; h_cursor := Some (1, 1); h_visible := true; h_shape := Modes.Block;
     h_blinking := false; h_modes := 0; h_sticky := sticky |}.

Lemma grid_fine : Fields.is_grid grid.
Proof. unfold Fields.is_grid, Fields.MAX_COLS, Fields.MAX_ROWS. simpl. lia. Qed.

Lemma styled_good : row_good 4 styled.
Proof.
  split; [split|split|done].
  - split; [repeat constructor; by vm_compute|done].
  - repeat constructor; simpl; lia.
  - intros [|[|k]]; by vm_compute.
  - by vm_compute.
  - by vm_compute.
  - apply Forall_singleton. split; [|by vm_compute]. repeat split; by vm_compute.
  - by vm_compute.
Qed.

Lemma plain_good : row_good 4 plain_row.
Proof.
  split; [split|split|done].
  - split; [repeat constructor; by vm_compute|done].
  - constructor.
  - intros [|k]; by vm_compute.
  - by vm_compute.
  - by vm_compute.
  - constructor.
  - by vm_compute.
Qed.

Lemma screen_good : Forall (row_good 4) screen.
Proof. apply list.Forall_cons. split; [apply styled_good|]. apply Forall_singleton, plain_good. Qed.

Lemma sticky_fine : sticky_typed sticky.
Proof. by split. Qed.

Lemma header_fine : header_ok header.
Proof.
  pose proof sticky_fine. split; try done; apply grid_fine || (by intros x y [= <- <-]).
Qed.

Lemma header_sent base scroll : (∀ b, base = Some b → 0 < b ≤ U64_MAX) → (∀ b, scroll = Some b → 0 ≤ top b) → screen_ok header base scroll.
Proof. intros Hb Hs. split; [apply header_fine|done|done]. Qed.

Definition every_row : list RowUpdate := Cuts.every screen.
Lemma rows_full : Forall (update_full grid) every_row.
Proof. apply Sync.every_full; [apply screen_good|done]. Qed.
Lemma rows_sorted : sorted_rows every_row.
Proof. apply Sync.every_sorted. Qed.
Lemma rows_fine : Forall (update_ok grid) every_row.
Proof. eapply list.Forall_impl; [apply rows_full|]. intros u Hu. apply Hu. Qed.

(** ** Cutting, framing and decoding *)

(** Witness: the styled row, cut to two bytes past the fixed part of a chunk. *)
Lemma row_chunks_reassemble_witness :
  let cs := all_chunks (span styled (0, 1)%nat (CHUNK_FIXED + 2)) in
  concat (c_text <$> cs) = slice 0 4 (text styled) ∧ sum_by c_cells cs = 4.
Proof.
  assert (row_ok styled ∧ (0 ≤ 1 ≤ length (runs styled))%nat) as Hs by (split; [apply styled_good|cbn; lia]).
  pose proof (row_chunks_reassemble styled 0 1 (CHUNK_FIXED + 2) Hs) as (_ & H1 & _ & H2 & _). split; [exact H1|exact H2].
Defined.

(** Witness: the sample screen fits any budget from a kilobyte up. *)
Lemma cuttable_screen_is_written_witness : ∃ frames, encode_screen_parts header None None every_row 1000 = Ok frames.
Proof.
  apply cuttable_screen_is_written. split; [by apply header_sent|]. split; [apply rows_fine|]. split; [apply rows_sorted|]. split; [constructor|].
  split; [by vm_compute|]. split; [|by vm_compute]. repeat (apply list.Forall_cons; split; [split; [repeat constructor; by vm_compute|by vm_compute]|]). constructor.
Defined.


(** A later piece of two, with one row: ["ok"] and two spaces, or without them. *)
Definition later (txt : list Z) : Pieces.ScreenPart :=
  Tail 2 1 2 1 [{| sp_row := 0; sp_chunk := false; sp_col := 0; sp_byte := 0; sp_clear := true; sp_frame := {| text := txt; runs := []; cells := 4 |} |}].
Lemma later_ok txt : is_str txt → len txt ≤ 4 → has_control txt = false → part_ok (later txt).
Proof.
  intros Hu Hl Hc. split; [done|]. split; [done|]. split; [lia|]. split; [done|]. split; [|split; [by split|done]].
  apply Forall_singleton. split; cbn [sp_row sp_col sp_byte sp_frame text cells grid_cols]; unfold Fields.MAX_COLS, MAX_CLUSTER_BYTES; try done; try lia.
  split; [|done]. split; cbn [text runs cells]; unfold MAX_CLUSTER_BYTES; try done; try lia.
Qed.

(** Witness: a screen whose row ends in spaces, followed by more bytes, is read without them. *)
Lemma server_message_round_trip_witness : ∃ frame payload, ServerMessage.encode (ServerMessage.Screen (later [111; 107; 32; 32])) 14 = Ok frame ∧
  Message.read_frame Fields.MAX_FRAME (frame ++ [1; 2]) = Ok (payload, [1; 2]) ∧
  ServerMessage.decode (payload ++ [1; 2]) 14 = Ok (ServerMessage.Screen (later [111; 107])).
Proof.
  destruct (ServerMessage.encode (ServerMessage.Screen (later [111; 107; 32; 32])) 14) as [frame|] eqn:E; [|by vm_compute in E].
  destruct (ServerMessage.server_message_round_trip (ServerMessage.Screen (later [111; 107; 32; 32])) 14 frame [1; 2]) as [(payload & H1 & H2) _].
  - split; [apply later_ok; [split; [repeat constructor; by vm_compute|done]|by vm_compute|by vm_compute]|]. split; [done|]. split; [exact E|]. split; [repeat constructor; by vm_compute|by vm_compute].
  - exists frame, payload. done.
Defined.

(** The payload of a piece of a screen. *)
Definition later_payload : list Z :=
  match ServerMessage.encode (ServerMessage.Screen (later [111; 107])) 14 with Ok frame => drop 4 frame | Err _ => [] end.
(** Witness: that piece is well formed, and is written again as it arrived. *)
Lemma decoded_server_message_is_lawful_witness : ServerMessage.is_message (ServerMessage.Screen (later [111; 107])) ∧
  ∃ x y, ServerMessage.encode (ServerMessage.Screen (later [111; 107])) 14 = Ok (put_u32 (len y) ++ y) ∧ x `prefix_of` later_payload ∧
    (y = x ∨ y = x ++ [0] ∧ ∃ stream off window, ServerMessage.Screen (later [111; 107]) = ServerMessage.ForwardAck stream off window []).
Proof.
  destruct (ServerMessage.decoded_server_message_is_lawful later_payload 14 (ServerMessage.Screen (later [111; 107]))) as [H1 H2].
  - split; [repeat constructor; by vm_compute|]. split; [by vm_compute|by vm_compute].
  - split; [exact H1|]. apply H2. apply Forall_singleton. by vm_compute.
Defined.

(** ** Cutting for a path *)

(** Two thousand columns of one letter: too wide for a datagram, and no run to shorten it at. *)
Definition long_row : RowFrame := {| text := replicate 2000 120; runs := []; cells := 2000 |}.

Lemma long_ok : row_ok long_row.
Proof.
  split.
  - split; [apply Forall_replicate; by vm_compute|by vm_compute].
  - constructor.
  - intros [|k]; by vm_compute.
  - by vm_compute.
  - by vm_compute.
Qed.

(** Witness: the screen is withheld at the budget of an ordinary path. *)
Lemma wide_plain_row_withholds_the_screen_witness :
  match Attachment.attempt header Ledger.plan_default [long_row; plain_row] true 1200 with Ok _ => False | Err _ => True end.
Proof.
  destruct (Attachment.attempt _ _ _ _ _) as [pieces|] eqn:E; [|done]. revert E. apply (Attachment.wide_plain_row_withholds_the_screen _ _ _ _ 0).
  split; [apply sticky_fine|]. split; [by vm_compute|]. split; [by vm_compute|]. split; [apply long_ok|]. by split.
Defined.

Lemma screen_ready : Attachment.cut_ready header Ledger.plan_default screen.
Proof.
  split; try done.
  - intros base scroll [[-> ->]|[-> ->]]; apply header_sent; try done. by intros b [= <-].
  - apply list.Forall_cons. split; [|apply Forall_singleton]; (split; [apply styled_good || apply plain_good|split; [apply styled_good || apply plain_good|done]]).
  - constructor.
Qed.

(** Witness: the sample screen over a path of 1200 bytes, with the codec of runs. *)
Lemma packed_screens_fit_the_path_witness :
  ∃ r p, @Attachment.screen_pieces Wire.toy_deflate 1200 (Attachment.Packed Attachment.RATIO_START) header Ledger.plan_default screen true = Some (r, p).
Proof.
  destruct (@Attachment.packed_screens_fit_the_path Wire.toy_deflate Wire.toy_laws 1200 Attachment.RATIO_START header Ledger.plan_default screen true) as (r & p & H & _).
  - split; [apply screen_ready|]. by vm_compute.
  - by exists r, p.
Defined.

(** ** A repaint, asked for and answered *)

#[local] Existing Instance Wire.toy_deflate.

Definition asked : Attachment.Attachment := Attachment.restart (Attachment.begin_sync (Attachment.attachment_new Attachment.stream_new Attachment.Stream grid 1 0) 0) 2 2.
Definition start : Sync.system :=
  {| Sync.y_server := asked; Sync.y_grid := grid; Sync.y_rows := screen; Sync.y_sent := []; Sync.y_fresh := true;
     Sync.y_client := Assembly.new; Sync.y_seen := []; Sync.y_acks := [] |}.
Definition frame : Attachment.RepaintFrame := {| Attachment.f_size := grid; Attachment.f_rows := screen; Attachment.f_dirty := Mask.filled 2 |}.

Lemma start_initial : Sync.initial start.
Proof.
  split; try done; [by eexists|apply screen_good|]. by exists Assembly.new.
Qed.

Lemma frame_fine : Sync.frame_ok start frame.
Proof. split; try done; [apply screen_good|]. apply Mask.filled_ok. by vm_compute. Qed.

Lemma start_paints : ∃ a parts, Attachment.repaint_one asked Attachment.One header frame Defer.new 10 None grid 0 true (Ok Attachment.Clear) = Some (Ok (), a, Some (Attachment.Raw parts)) ∧
  length parts = 1%nat ∧
  let h := Sync.header_for asked Attachment.One header frame Defer.new 0 in
  let plan := Ledger.the_plan (Ledger.plan (Attachment.ledger (Sync.noted asked frame)) screen h) in
  h = header ∧ Ledger.full plan = true ∧ Attachment.cut h plan screen true Fields.MAX_FRAME Attachment.FExact = Ok parts.
Proof.
  eexists _, _. split; [vm_compute; reflexivity|]. split; [done|]. split; [by vm_compute|]. split; by vm_compute.
Qed.

(** The first screen is sent whole, in one piece. *)
Lemma start_sends : ∃ y S, Sync.step start y ∧ Sync.y_sent y = [S] ∧ Sync.y_rows y = screen ∧ length (Converge.st_parts S) = 1%nat.
Proof.
  destruct start_paints as (a & parts & Hp & Hl & Hh & Hf & Hc).
  assert (∀ h plan, h = header → Ledger.full plan = true → Attachment.cut h plan screen true Fields.MAX_FRAME Attachment.FExact = Ok parts →
    ∃ S, Sync.ships h plan screen Fields.MAX_FRAME parts S) as Hships.
  { clear. intros h plan -> Hf Hc. apply (Sync.cut_ships header plan screen true Fields.MAX_FRAME parts); [by apply header_sent|by rewrite Hf|done|apply screen_good|done| |exact Hc].
    intros us [->|[E _]]; [by vm_compute|congruence]. }
  destruct (Hships _ _ Hh Hf Hc) as [S HS]. destruct (Sync.ships_screen _ _ _ _ _ _ HS) as (_ & _ & _ & El). eexists _, S. split; [|split; [|split]].
  - by eapply (Sync.step_send start Attachment.One header frame Defer.new 10 None 0 true (Ok Attachment.Clear)); [apply frame_fine|done|done|exact Hp|constructor|exact HS].
  - done.
  - done.
  - by rewrite El.
Qed.

(** Witness: its one piece arrives. *)
Lemma asked_screen_converges_witness : ∃ y S x s' c, Sync.step start y ∧ Converge.deliver S 24 [O] (Sync.y_client y) = (Ok (Some x), s') ∧
  Assembly.confirmed s' = Some c ∧ Assembly.cs_rows c = wire <$> screen.
Proof.
  destruct start_sends as (y & S & Hs & Hsent & Hrows & Hl).
  destruct (Sync.asked_screen_converges start start y S 24 []) as (_ & _ & x & s' & c & E1 & _ & E2 & E3 & _).
  - split; [apply start_initial|]. split; [done|]. split; [done|]. split; [done|]. split; [done|]. by rewrite Hl.
  - exists y, S, x, s', c. rewrite <- Hrows. done.
Defined.

(** The client takes it: an acknowledgement is on its way while the screen is still in flight. *)
Lemma start_acknowledges : ∃ y n rows, rtc Sync.step start y ∧ (n, rows) ∈ Sync.y_acks y ∧ Ledger.pending (Attachment.ledger (Sync.y_server y)) = Some n ∧ rows = wire <$> screen.
Proof.
  destruct start_sends as (y & S & Hs & Hsent & Hrows & Hl). pose proof (Sync.system_initial start start_initial) as Hi.
  destruct (Sync.fresh_arrives _ start y S 24 [] Hi Hs Hsent eq_refl ltac:(by rewrite Hl)) as (x & s' & c & E & A1 & A2 & A3 & _ & A5 & _ & A7 & _). unfold Converge.deliver in E. cbn [foldl snd] in E.
  destruct (Converge.st_parts S !! O) as [p|] eqn:Ep; [|by apply lookup_ge_None in Ep; rewrite Hl in Ep; lia].
  exists (Sync.delivered_to y S O (Assembly.part (Sync.y_client y) p 24 false)), (Converge.st_name S), (wire <$> screen). split; [|split; [|done]].
  - eapply rtc_l; [exact Hs|]. apply rtc_once. apply Sync.step_deliver; [rewrite Hsent; by left|done|done].
  - rewrite E. unfold Sync.delivered_to. cbn [Sync.report fst snd]. unfold assign. cbn [Sync.y_acks]. apply elem_of_app. left. rewrite A2, A1, A3, Hrows. by apply list_elem_of_singleton.
Qed.

(** Witness: the server takes that acknowledgement. *)
Lemma acknowledged_screens_are_exact_witness : ∃ y n, rtc Sync.step start y ∧
  Ledger.confirmed (Attachment.ledger (Attachment.confirm (Sync.y_server y) n.1 n.2)) = Some n.
Proof.
  destruct start_acknowledges as (y & n & rows & Hr & Hn & Hp & _). exists y, n. split; [done|].
  apply (Sync.acknowledged_screens_are_exact start y n rows). split; [apply start_initial|]. done.
Defined.

End Samples.
